(* ===== verification/_CoqProject ===== *)
-Q . S2P
Prelude.v
Uleb128.v
S16.v
BitSet.v
CacheBase.v
TrieNode.v
Trie.v
TrieTree.v
TrieInsert.v
TrieNeighbours.v
TrieViews.v
TrieUpdate.v
TrieIncrement.v
TrieThreadSafe.v
TrieHistory.v
Stemmer.v
TrieQueries.v
PhraseSearcher.v
CowVector.v
TrieRemove.v
TrieReassign.v
EditDistance.v
ActiveNode.v
FuzzySearch.v
LeafNodes.v
LeafSearch.v
RecordAcl.v
ForwardList.v
ForwardSearch.v
ForwardLayout.v
ForwardRoundtrip.v
ForwardRecord.v
ForwardReorder.v
PlanOperators.v
PlanStreams.v
PlanUnion.v
PlanScan.v
PlanScores.v
PlanKeeps.v
PlanTree.v
PlanIndex.v
PlanSearch.v
KeywordSearch.v
ForwardScores.v
CowPlain.v
InvertedList.v
InvertedMerge.v
InvertedHistory.v
InvertedIndex.v
InvertedUpdate.v
IndexRecords.v
IndexHistory.v
IndexSearch.v
IndexRecovery.v
TokenStream.v
Analyzer.v
AnalyzerWords.v
AnalyzerFilters.v
AnalyzerTexts.v
AnalyzerRecord.v
AnalyzerSynonyms.v
Dictionary.v
AnalyzerChinese.v
FloatOrder.v
VirtualList.v
VirtualListStream.v
MergeTopK.v
MergeTopKOrder.v
RankedPlan.v
RankedSearch.v
