(* ===== verification/Prelude.v ===== *)
(** * A verification of the core of the SRCH2 search engine

    The engine (src/src/core/) answers keyword queries over records that change
    while they are searched.  A trie is its dictionary: it gives every keyword an id
    such that the ids grow with the words, so that a prefix is an interval of ids.
    Forward and inverted lists refer to keywords by their ids, positions of keywords
    are kept compressed, and vectors that readers share with one writer are copied
    on write.  This development models the parts of the core that hold these
    structures together, each definition translated from the source file it names,
    and proves that they do what they are for.

    ** Conventions

    A machine integer is a [Z] with its wrap-around written out ([wrap32], [int32]).
    A run that the C++ code would end with a fault (NULL or dangling pointer, index
    out of range, failed assertion) ends with [Err] and the fault; [delete] makes an
    address dangling, and no address is used twice ([store]).  Member functions are
    state-passing computations ([st]), [let!] and [;;;] sequence them, [let?] is for
    pure code that may fault.  Loops that are not structural have fuel; every
    theorem about such a loop says that it ends with a result for the fuel given, and
    an [OutOfFuel] is never excluded by a hypothesis.  The fuel of the trie's
    descents is the number of nodes of the store, which bounds the height of any
    tree in it ([TrieTree.height_size]); of a binary search, the number of children
    plus one; of the kick-out loop of the cache, the number of entries; of a decoder,
    the length of its buffer; of the loops of a plan, its operators and the entries of
    its inverted lists ([PlanTree.size]), with the height of its tree for the recursion;
    of the threshold loop, the records that its children deliver ([RankedPlan.size_of]).

    ** Files

    - Uleb128 (core/util/ULEB128.cpp): the variable-length codec of keyword
      positions.  Encoding and decoding are inverse; the decoder stays inside any
      buffer; five continuation bytes make its loop endless.
    - S16 (core/util/S16.cpp, cowvector/compression/S16.h): the Simple-16 codec, with
      its directories; round trip below 2^28, and the fault of any array with a larger number.
    - BitSet (core/util/BitSet.h, BitSetIterator.h and .cpp): operations against the
      set of bits, what [resize] keeps, iteration and seeking.
    - CacheBase (core/operation/CacheBase.h): the LRU cache over heaps of entries and
      list elements, refining a list of keys in order of use with a byte budget.
    - TrieNode (core/index/Trie.h, Trie.cpp): nodes with their packed fields and the
      searches among children.
    - Trie (Trie.cpp): the state of the trie and the operations of insertion: the
      neighbours of a path, the id of a new keyword, [addKeyword] and
      [addKeyword_ThreadSafe]; lookup.
    - TrieTree: what a store of nodes represents (trees, contexts, entries) and the
      well-formedness [wf]: depths, sorted characters, links to the outermost
      descendants.
    - TrieInsert: bulk insertion refines a dictionary from words to numbers.
    - TrieNeighbours: the paths to the words before and after a word.
    - TrieViews (Trie.cpp): commit, merge, shared views with their free lists and
      reference counts; the ids that a commit hands out.
    - TrieUpdate, TrieIncrement, TrieThreadSafe: the copies made along a path by an
      insertion into the write view, the ids of new keywords, and the refinement; the
      trees of the read views stay as they are.
    - TrieHistory: histories of insertions, merges, readers that come and go; the
      invariant [inv] of views, free lists and write tree, the snapshot a reader
      keeps, and what a merge publishes.
    - TrieQueries (Trie.h, Trie.cpp): prefixes as intervals, the descents by id.
    - TrieRemove (Trie.cpp): removal of the keywords with empty inverted lists; it
      restores [inv] when, as the lock taken by IndexData.cpp ensures, nobody reads.
    - TrieReassign (Trie.cpp, core/operation/IndexData.cpp): new ids for the keywords
      that found no id between their neighbours.
    - EditDistance: the reference of fuzzy search, Levenshtein's distance, and the
      ways to read it off matched characters.
    - ActiveNode (core/operation/ActiveNode.cpp, ActiveNode.h): the pivotal active nodes
      of a query, computed character by character.
    - FuzzySearch: the active nodes against the edit distance: sound for every
      threshold, complete up to threshold 2, with the keywords missed above and with swaps.
    - LeafNodes (ActiveNode.h): the iterators over active nodes and over the keywords
      below them.
    - LeafSearch: what a prefix query and a whole-word query answer: no keyword outside
      the bound, and of keywords and queries of ASCII characters all those within it.
    - Stemmer (core/analyzer/StemmerFilter.cpp): every step over the buffer with
      checked accesses; the measure is Porter's, the stem lies inside the token.
    - PhraseSearcher (core/operation/PhraseSearcher.cpp): exact and proximity
      matches in lists of positions.
    - CowVector (core/util/cowvector/cowvector.h): the vector shared by readers and
      one writer, its packed flags, arrays, generations of old views and merge,
      refining a published and a draft sequence of elements.

    - RecordAcl (core/index/ForwardIndex.h): the roles with access to a record.
    - ForwardList (ForwardIndex.cpp, ForwardIndex.h): the forward list of a record, byte
      by byte: what addRecord builds, the getters, and the searches.
    - ForwardSearch: the binary search, and the search for a range of ids with a filter
      of attributes, against lists of keywords.
    - ForwardLayout, ForwardRoundtrip: the layout of the bytes; what addRecord stores is
      read back by every getter.
    - ForwardRecord: the composition, a search in the list of an added record.
    - ForwardReorder: the replacement of ids at a commit and at a reassignment.
    - PlanOperators (core/operation/physical_plan/): the tree of operators that a query
      runs as: the scan of inverted lists, conjunction and disjunction of sorted streams,
      sorting by id, the merge along the shortest list, and verification by random
      access, over any reader of the indexes ([IndexReader]).
    - PlanStreams, PlanUnion, PlanScores, PlanScan: what each operator delivers; an
      operator is known by the records that its [getNext] gives one after the other
      ([delivers]).  [IndexLaws] is what they rely on of the reader.
    - PlanKeeps: running a plan keeps its shape.
    - PlanTree: the meaning of a plan as a predicate on records, and that opening and
      reading it gives the records of this meaning.
    - PlanIndex (ForwardIndex.cpp, InvertedIndex.cpp, core/operation/IndexData.cpp): the
      read views as an instance of the reader, by the searches in forward lists.
    - PlanSearch: the properties of plans over an index whose two sides agree, and an index
      as an example.
    - KeywordSearch (KeywordSearchOperator.cpp): exact answers before fuzzy ones.

    - ForwardScores: forward lists as contents whose scores change, and what addRecord
      builds as such contents.
    - CowPlain: the copy-on-write vector of a single list, without a manager of views.
    - InvertedList (core/index/InvertedIndex.h, InvertedIndex.cpp, core/ranking/Ranker.cpp):
      the container of one inverted list, with sortAndMerge and its comparator.
    - InvertedMerge, InvertedHistory: sorting and merging by the comparator, the scores
      that a merge writes; histories of additions, merges and readers of a list.
    - InvertedIndex (InvertedIndex.cpp): the directory of lists with its views, counting of
      hits, additions, the lists to merge, the bulk load, and what readers see.
    - InvertedUpdate: what additions and merges do to the directory and its lists.
    - IndexRecords (core/operation/IndexData.cpp, core/index/ForwardIndex.cpp): addition,
      deletion, recovery and merge of records over both indexes.
    - IndexHistory: the invariant [consistent] of the two indexes, the map of primary keys
      and the deleted ids, and that each operation keeps it.
    - IndexSearch: the index as a map from primary keys to records, and that a merge
      publishes an index on which plans answer as PlanSearch says.
    - IndexRecovery: what a merge frees, and the recovery of a deleted record before and
      after a merge.

    - TokenStream (core/analyzer/: CharSet.cpp, the tokenizers, the filters, the
      createOperatorFlow of the analyzers): the container that a tokenizer and the filters
      behind it share, and processToken of every one of them.
    - Analyzer (AnalyzerInternal.cpp, AnalyzerContainers.cpp): tokenizeQuery,
      tokenizeRecord, and the maps of synonyms.
    - AnalyzerWords, AnalyzerFilters: a stream as the list of tokens it will give, with
      their offsets and the steps of the position; the class [Upstream] is what a stream
      promises to the filter behind it, proved for the tokenizers and kept by each filter.
    - AnalyzerTexts: the words of a text as the longest runs of characters that stick
      together, and that the tokenizer, the lower-case and the delimiter filter give them.
    - AnalyzerRecord: queries; records, down to the positions in their forward lists.
    - AnalyzerSynonyms: SynonymFilter against a relation that accounts for every token.
    - Dictionary (Dictionary.cpp): the words of Chinese with their frequencies, and the
      file that keeps them.
    - AnalyzerChinese (ChineseTokenizer.cpp): the table of the best cuts of a text against
      all the cuts there are.

    - FloatOrder: the rounding of single-precision sums and products, that the sums of
      scores that are not negative are monotone, and that factors of one or more keep
      them scores.
    - VirtualList (UnionLowestLevelTermVirtualListOperator.cpp, Ranker.cpp): the heap of the
      inverted lists of a term, with the entry it leaves in the cache.
    - VirtualListStream: its records are those of its lists, in order if the lists are;
      [heap_laws] is what it relies on of the heap algorithms, [HitScores] of the index.
    - MergeTopK (MergeTopKOperator.cpp): the ranked conjunction by the threshold algorithm,
      with its candidates and the entry it leaves in the cache.
    - MergeTopKOrder: the bound on unseen records, and what the conjunction delivers: over
      any children the common records, over children whose records come in the order of
      their scores the best ones first.
    - RankedPlan: the ranked conjunction over the virtual lists of terms, opened fresh and
      with the entries of a shorter query.
    - RankedSearch: the properties of ranked plans, with an index as an example.

    The trie's files build on each other in the order above, the plans on the forward
    lists, the inverted index on forward lists and the copy-on-write vector; IndexSearch
    joins the inverted index with the plans' reader, AnalyzerRecord the analyzers with
    the forward lists, RankedPlan the ranked operators with this reader.  The other components share only this prelude.

    ** Groups of theorems

    Invariants and refinements: the histories of the trie (TrieHistory, TrieRemove),
    insertion in both phases, the copy-on-write vector and the cache against abstract
    specifications; a plan against the boolean combination of its terms; the operations
    of the index against those of a map from keys to records.  Composition: after a merge
    the two indexes agree as the theorems on plans require; the words of a record are in
    its forward list where the text has them.  Safety of readers: snapshots
    of trie views, of vector views and of inverted lists; these are merged without a
    manager of views, but sortAndMerge copies the array first ([list_readers_keep]).
    Functional behaviour: ranked plans deliver the matching records by falling score,
    also with feedback and lists in any order all of them, virtual lists the hits of their lists; ids after a commit or a reassignment, queries by id, lookup,
    neighbours, bit sets, phrases.  Equivalence with a reference: the answers of fuzzy
    search are those of the edit distance, a plan resumed from the cache gives what a fresh
    one would, the stemmer's measure is Porter's, reading a
    plan and verifying a record agree, a query is analyzed to the words of its text, Chinese
    text is cut at the least score.  Round trips of the codecs, of forward lists, of
    prefix strings and of the dictionary file.  Errors: the
    inputs on which the code leaves an array, a path or a loop, stated as theorems
    about the faults: every array with a number too large for S16, the recovery of a
    deleted record after a merge in any state of the index, a merge of an inverted list
    whose old records the new scores put out of order.  Single runs are examples.

    ** Assumptions

    Parameters stand for what the sources only call: the histogram refresh of
    [merge], the priority queue of the proximity match (any that puts a least pair on
    top), [std::pop_heap] (any that gives a greatest element where the comparator is a
    strict weak order, which is proved for the scores that are not negative) and the heap
    algorithms of a virtual list (any that arrange the same items as a heap, [heap_laws]),
    the boosts of user feedback, the power
    in the score of a term, the planner that builds a plan from a query, the byte count
    of a cached object, the dictionary of the stemmer, the conversions between UTF-8 and
    characters of the vendored utf8 library, Boost's split and trim.  [std::sort] of
    candidates is an insertion sort: their ids differ, so the comparator allows one order.
    The theorems on the order of ranked plans ask of every term ([RankedPlan.ranked_term])
    that each of its lists is in the order of its scores and that the verification scores
    no record above its list, and of the query that it has no feedback; the example
    [boost_breaks_the_order] shows what happens without the second, [cached_feedback_twice]
    without the third, and [ranked_plan_complete] and [resumed_plan_complete] what holds
    without all three, for boosts of the feedback that are finite and not below one.  Scores
    are asked to be numbers that are not negative only for stored scores that are.  The spin
    locks and the lock of IndexData.cpp serialise the operations: a history is a
    sequence of whole operations.  Counters are assumed not to have reached their
    limits where a theorem says so.  The theorems on plans are about forward and inverted
    lists that agree ([PlanIndex.index_ok]); IndexHistory proves that additions, deletions,
    recoveries before the next merge, and merges keep them so.  For it the answers of the
    trie for the keywords of a record are arguments (one inverted list and one id for
    each keyword, the ids of a record in order, so without temporary ids), and the
    conversions between floats and halves and the ranking expression are parameters
    whose stored scores are not negative.

    ** Not modelled

    The cache of results of the merge along the shortest list; the keys by which entries
    of the cache are found (a plan is resumed with the entries of its own terms); operators
    for phrases, facets, suggestions and geometry, and the sorting by score; the estimates and costs of the planner;
    floating-point work apart from the sums, products, quotients and comparisons of
    scores (histograms, geometry; the logarithm, the halves and the ranking expression
    are parameters); the workers of parallelMerge, whose call is commented out; the end of
    the bulk load beyond the inverted index, and permissions kept beside the records; the
    serialization through Boost, file, network and console I/O (the bytes of the dictionary
    file are modelled, the files of stop words, protected words and rules are not), the
    registry of the analyzers' containers, the Normalizer, which nothing calls, the query parser over
    Boost's regular expressions, and vendored code.  The query optimizer, the feedback
    index, the quadtree, post-processing and the server are left out: they are driven by
    floating-point estimates, by geometry or by the libraries they call, or coordinate
    what is modelled here. *)
From Stdlib Require Import ZArith Lia List Bool Sorted.
From stdpp Require Import base gmap list fin_maps.

Open Scope Z_scope.

(** ** Machine integers *)

(** A w-bit unsigned quantity is a [Z] kept in range by an explicit wrap-around. *)
Definition wrap (w z : Z) : Z := z mod 2 ^ w.

Abbreviation wrap8 := (wrap 8).
Abbreviation wrap16 := (wrap 16).
Abbreviation wrap32 := (wrap 32).
Abbreviation wrap64 := (wrap 64).

(** Two's-complement reading of a w-bit pattern. *)
Definition swrap (w z : Z) : Z :=
  let u := wrap w z in if u <? 2 ^ (w - 1) then u else u - 2 ^ w.

Abbreviation int32 := (swrap 32).

Definition is_uint (w z : Z) : Prop := 0 <= z < 2 ^ w.
Abbreviation is_u8 := (is_uint 8).
Abbreviation is_u32 := (is_uint 32).
Abbreviation is_u64 := (is_uint 64).

(** ** Results: the faults a run of the C++ code can end with *)

Inductive fault :=
  | NullDeref       (* a pointer that is NULL is dereferenced *)
  | UseAfterFree    (* a pointer to a deleted object is dereferenced or deleted *)
  | OutOfRange      (* vector::at throws, or an array index is outside the array *)
  | AssertFailed    (* assert()/ASSERT() aborts *)
  | OutOfFuel.      (* the bound given to a loop of the model was too small *)

#[global] Instance fault_eq_dec : EqDecision fault.
Proof. solve_decision. Defined.

Inductive result (A : Type) :=
  | Ok (a : A)
  | Err (f : fault).
Arguments Ok {A} _.
Arguments Err {A} _.

Definition rbind {A B} (m : result A) (k : A -> result B) : result B :=
  match m with Ok a => k a | Err f => Err f end.

Declare Scope result_scope.
Delimit Scope result_scope with result.
Notation "'let?' x ':=' m 'in' k" := (rbind m (fun x => k))
  (at level 10, x pattern, m at level 100, k at level 200) : result_scope.
Open Scope result_scope.

Lemma rbind_Ok {A B} (m : result A) (k : A -> result B) b :
  rbind m k = Ok b <-> exists a, m = Ok a /\ k a = Ok b.
Proof. destruct m; simpl; naive_solver. Qed.

Definition of_option {A} (f : fault) (o : option A) : result A :=
  match o with Some a => Ok a | None => Err f end.

(** [v.at(i)], and [a[i]] on an array whose extent the model tracks. *)
Definition vec_at {A} (l : list A) (i : Z) : result A :=
  if i <? 0 then Err OutOfRange else of_option OutOfRange (l !! Z.to_nat i).

Definition vec_set {A} (l : list A) (i : Z) (x : A) : result (list A) :=
  if (0 <=? i) && (i <? Z.of_nat (length l)) then Ok (<[Z.to_nat i := x]> l)
  else Err OutOfRange.

(** ** Computations over an explicit state *)

(** A member function that may fault and changes the object it runs on. *)
Definition st (S A : Type) := S -> result (A * S).

Definition ret {S A} (a : A) : st S A := fun s => Ok (a, s).
Definition bind {S A B} (m : st S A) (k : A -> st S B) : st S B :=
  fun s => match m s with Ok (a, s') => k a s' | Err f => Err f end.
Definition fail {S A} (f : fault) : st S A := fun _ => Err f.
Definition get {S} : st S S := fun s => Ok (s, s).
Definition put {S} (s : S) : st S unit := fun _ => Ok (tt, s).
Definition lift {S A} (r : result A) : st S A :=
  fun s => match r with Ok a => Ok (a, s) | Err f => Err f end.
Definition reads {S A} (f : S -> A) : st S A := fun s => Ok (f s, s).
Definition modify {S} (f : S -> S) : st S unit := fun s => Ok (tt, f s).
Definition assert_ {S} (b : bool) : st S unit :=
  if b then ret tt else fail AssertFailed.

Notation "'let!' x ':=' m 'in' k" := (bind m (fun x => k))
  (at level 10, x pattern, m at level 100, k at level 200) : result_scope.
Notation "m ';;;' k" := (bind m (fun _ => k))
  (at level 99, right associativity) : result_scope.

(** [for] over the elements of a list, in order. *)
Fixpoint for_each {S A} (l : list A) (body : A -> st S unit) : st S unit :=
  match l with
  | [] => ret tt
  | x :: l' => body x ;;; for_each l' body
  end.

(** [for] over a list with an accumulator. *)
Fixpoint fold_st {S A B} (l : list A) (body : B -> A -> st S B) (b : B) : st S B :=
  match l with
  | [] => ret b
  | x :: l' => let! b' := body b x in fold_st l' body b'
  end.
Fixpoint fold_res {A B} (l : list A) (body : B -> A -> result B) (b : B) : result B :=
  match l with
  | [] => Ok b
  | x :: l' => let? b' := body b x in fold_res l' body b'
  end.

Lemma bind_Ok {S A B} (m : st S A) (k : A -> st S B) s b s' :
  bind m k s = Ok (b, s') <-> exists a s1, m s = Ok (a, s1) /\ k a s1 = Ok (b, s').
Proof.
  unfold bind. destruct (m s) as [[a s1]|f]; split; intros H.
  - eauto.
  - destruct H as (a' & s1' & [= -> ->] & Hk). exact Hk.
  - discriminate.
  - destruct H as (? & ? & ? & _); discriminate.
Qed.

Lemma lift_Ok {S A} (r : result A) (s : S) a s' :
  lift r s = Ok (a, s') <-> r = Ok a /\ s' = s.
Proof. unfold lift. destruct r; naive_solver. Qed.

Lemma of_option_Ok {A} f (o : option A) a : of_option f o = Ok a <-> o = Some a.
Proof. destruct o; simpl; naive_solver. Qed.

(** Runs the first part of a computation. *)
Lemma bind_run {S A B} (m : st S A) (k : A -> st S B) s a s' :
  m s = Ok (a, s') -> bind m k s = k a s'.
Proof. unfold bind. by intros ->. Qed.

Lemma bind_assoc {S A B C} (m : st S A) (f : A -> st S B) (g : B -> st S C) s :
  bind (bind m f) g s = bind m (fun x => bind (f x) g) s.
Proof. unfold bind. by destruct (m s) as [[? ?]|]. Qed.

Lemma assert_run {S} (b : bool) (s : S) : b = true -> assert_ b s = Ok (tt, s).
Proof. by intros ->. Qed.

(** Takes a successful run apart into the successful runs of its parts. *)
Ltac run_step :=
  match goal with
  | H : bind _ _ _ = Ok (_, _) |- _ =>
      let a := fresh "a" in let s := fresh "s" in
      let H1 := fresh "Hrun" in let H2 := fresh "Hrun" in
      apply bind_Ok in H as (a & s & H1 & H2)
  | H : rbind _ _ = Ok _ |- _ =>
      let a := fresh "a" in let H1 := fresh "Hrun" in let H2 := fresh "Hrun" in
      apply rbind_Ok in H as (a & H1 & H2)
  | H : lift _ _ = Ok (_, _) |- _ => apply lift_Ok in H as [H ?]
  | H : of_option _ _ = Ok _ |- _ => apply of_option_Ok in H
  | H : ret _ _ = Ok (_, _) |- _ => unfold ret in H
  | H : get _ = Ok (_, _) |- _ => unfold get in H
  | H : put _ _ = Ok (_, _) |- _ => unfold put in H
  | H : reads _ _ = Ok (_, _) |- _ => unfold reads in H
  | H : modify _ _ = Ok (_, _) |- _ => unfold modify in H
  | H : fail _ _ = Ok (_, _) |- _ => discriminate H
  | H : Ok _ = Ok _ |- _ => injection H as H; subst
  | H : Err _ = Ok _ |- _ => discriminate H
  | H : (_, _) = (_, _) |- _ => injection H as H; subst
  | H : exists _, _ |- _ => destruct H
  | H : _ /\ _ |- _ => destruct H
  | a : (_ * _)%type |- _ => destruct a
  | a : unit |- _ => destruct a
  end.
Ltac run := repeat (run_step; simpl in *; subst).

(** ** Stores of objects

    Pointers are numbers, NULL is 0; [new] hands out addresses that were never
    used before, so a pointer to a deleted object stays dangling. *)

Abbreviation ptr := N.
Definition NULL : ptr := 0%N.

Record store (A : Type) := mk_store { cells : gmap ptr A; next_addr : ptr }.
Arguments mk_store {A} _ _.
Arguments cells {A} _.
Arguments next_addr {A} _.

Definition empty_store {A} : store A := mk_store ∅ 1%N.

Definition s_load {A} (h : store A) (p : ptr) : result A :=
  if decide (p = NULL) then Err NullDeref else of_option UseAfterFree (cells h !! p).
Definition s_new {A} (h : store A) (x : A) : ptr * store A :=
  (next_addr h, mk_store (<[next_addr h := x]> (cells h)) (N.succ (next_addr h))).
Definition s_store {A} (h : store A) (p : ptr) (x : A) : result (store A) :=
  let? _ := s_load h p in Ok (mk_store (<[p := x]> (cells h)) (next_addr h)).
(** [delete p]: nothing happens on NULL. *)
Definition s_delete {A} (h : store A) (p : ptr) : result (store A) :=
  if decide (p = NULL) then Ok h
  else let? _ := s_load h p in Ok (mk_store (delete p (cells h)) (next_addr h)).

(** Every address in use lies strictly between NULL and the next fresh one. *)
Definition store_wf {A} (h : store A) : Prop :=
  (0 < next_addr h)%N /\
  forall p, is_Some (cells h !! p) -> (0 < p < next_addr h)%N.

Lemma empty_store_wf {A} : store_wf (@empty_store A).
Proof. split; [done|]. intros p [x Hx]. cbn in Hx. by rewrite lookup_empty in Hx. Qed.

Lemma s_load_Ok {A} (h : store A) p x :
  s_load h p = Ok x <-> p <> NULL /\ cells h !! p = Some x.
Proof.
  unfold s_load. case_decide; [naive_solver|].
  rewrite of_option_Ok. naive_solver.
Qed.

Lemma s_store_Ok {A} (h : store A) p x h' :
  s_store h p x = Ok h' <->
  p <> NULL /\ is_Some (cells h !! p) /\
  h' = mk_store (<[p := x]> (cells h)) (next_addr h).
Proof.
  unfold s_store. rewrite rbind_Ok. split.
  - intros (y & [Hp Hy]%s_load_Ok & [= <-]). naive_solver.
  - intros (Hp & [y Hy] & ->). exists y. by rewrite s_load_Ok.
Qed.

Lemma store_wf_fresh {A} (h : store A) : store_wf h -> cells h !! next_addr h = None.
Proof.
  intros [_ H]. destruct (cells h !! next_addr h) eqn:E; [|done].
  specialize (H (next_addr h) ltac:(eauto)). lia.
Qed.

Lemma s_new_wf {A} (h : store A) x : store_wf h -> store_wf (s_new h x).2.
Proof.
  intros [H0 H]. split; simpl; [lia|]. intros p Hp.
  destruct (decide (p = next_addr h)) as [->|Hne]; [lia|].
  rewrite lookup_insert_ne in Hp by done. specialize (H p Hp). lia.
Qed.

Lemma s_store_wf {A} (h : store A) p x h' :
  store_wf h -> s_store h p x = Ok h' -> store_wf h'.
Proof.
  intros [H0 H] (Hp & Hs & ->)%s_store_Ok. split; simpl; [done|]. intros q Hq.
  destruct (decide (q = p)) as [->|Hne]; [by apply H|].
  rewrite lookup_insert_ne in Hq by done. by apply H.
Qed.

Lemma s_delete_wf {A} (h : store A) p h' :
  store_wf h -> s_delete h p = Ok h' -> store_wf h'.
Proof.
  intros Hwf. unfold s_delete. case_decide; [by intros [= <-]|].
  rewrite rbind_Ok. intros (y & _ & [= <-]). destruct Hwf as [H0 Hin].
  split; simpl; [done|]. intros q Hq. apply Hin.
  destruct Hq as [z Hz]. apply lookup_delete_Some in Hz as [_ Hz]. eauto.
Qed.

(** ** Arithmetic of bits and wrap-around *)

Lemma wrap_bounds w z : 0 <= w -> is_uint w (wrap w z).
Proof. intros Hw. apply Z.mod_pos_bound. lia. Qed.

Lemma wrap_id w z : is_uint w z -> wrap w z = z.
Proof. intros H. by apply Z.mod_small. Qed.

Lemma wrap_wrap w z : wrap w (wrap w z) = wrap w z.
Proof. unfold wrap. apply Z.mod_mod_divide. apply Z.divide_refl. Qed.

(** A number in the range of a signed type is kept. *)
Lemma swrap_signed w z : 0 < w -> - 2 ^ (w - 1) <= z < 2 ^ (w - 1) -> swrap w (wrap w z) = z.
Proof.
  intros Hw Hz. unfold swrap. rewrite wrap_wrap. unfold wrap. assert (2 ^ w = 2 * 2 ^ (w - 1)) as E by (rewrite <- Z.pow_succ_r by lia; f_equal; lia).
  destruct (Z.lt_ge_cases z 0).
  - replace (z mod 2 ^ w) with (z + 2 ^ w) by (apply (Z.mod_unique _ _ (-1)); lia). destruct (Z.ltb_spec (z + 2 ^ w) (2 ^ (w - 1))); lia.
  - rewrite Z.mod_small by lia. destruct (Z.ltb_spec z (2 ^ (w - 1))); lia.
Qed.
Lemma int32_small z : - 2 ^ 31 <= z < 2 ^ 31 -> int32 z = z.
Proof. intros H. rewrite <- (swrap_signed 32 z) at 2 by done. unfold swrap. by rewrite wrap_wrap. Qed.

Lemma wrap_add_l w a b : wrap w (wrap w a + b) = wrap w (a + b).
Proof. unfold wrap. by rewrite Zplus_mod_idemp_l. Qed.

Lemma wrap_add_r w a b : wrap w (a + wrap w b) = wrap w (a + b).
Proof. unfold wrap. by rewrite Zplus_mod_idemp_r. Qed.

Lemma testbit_above a n i : 0 <= a < 2 ^ n -> 0 <= n <= i -> Z.testbit a i = false.
Proof.
  intros Ha Hi. destruct (decide (a = 0)) as [->|Hne]; [apply Z.bits_0|].
  apply Z.bits_above_log2; [lia|]. apply Z.log2_lt_pow2; [lia|].
  apply Z.lt_le_trans with (2 ^ n); [lia|]. apply Z.pow_le_mono_r; lia.
Qed.

Lemma land_shiftl_0 a b n : 0 <= n -> 0 <= a < 2 ^ n -> Z.land a (Z.shiftl b n) = 0.
Proof.
  intros Hn Ha. apply Z.bits_inj'. intros i Hi.
  rewrite Z.land_spec, Z.bits_0, Z.shiftl_spec by lia.
  destruct (Z.ltb_spec i n) as [Hlt|Hge].
  - rewrite (Z.testbit_neg_r b) by lia. apply andb_false_r.
  - by rewrite (testbit_above a n i) by lia.
Qed.

(** A disjoint [|] is an addition. *)
Lemma lor_shiftl_add a b n :
  0 <= n -> 0 <= a < 2 ^ n -> Z.lor a (Z.shiftl b n) = a + b * 2 ^ n.
Proof.
  intros Hn Ha. pose proof (Z.add_lor_land a (Z.shiftl b n)) as E.
  rewrite land_shiftl_0, Z.shiftl_mul_pow2 in E by done.
  rewrite Z.shiftl_mul_pow2 by done. lia.
Qed.

Lemma land_mask a n : 0 <= n -> Z.land a (2 ^ n - 1) = a mod 2 ^ n.
Proof. intros Hn. rewrite <- Z.land_ones by done. f_equal. by rewrite Z.ones_equiv, Z.sub_1_r. Qed.

Create HintDb srch2.
#[export] Hint Resolve empty_store_wf s_new_wf s_store_wf s_delete_wf wrap_bounds : srch2.
#[export] Hint Rewrite @wrap_wrap @wrap_add_l @wrap_add_r : srch2.

(** Checks a decidable property of all small numbers by computation. *)
Lemma forall_below (n : Z) (P : Z -> bool) :
  forallb P (seqZ 0 n) = true -> forall r, 0 <= r < n -> P r = true.
Proof.
  intros H r Hr. rewrite forallb_forall in H. apply H.
  apply list_elem_of_In, elem_of_seqZ. lia.
Qed.

Lemma vec_at_nth {A} (l : list A) i x :
  vec_at l i = Ok x <-> 0 <= i /\ l !! Z.to_nat i = Some x.
Proof.
  unfold vec_at. destruct (Z.ltb_spec i 0).
  - split; [done|lia].
  - rewrite of_option_Ok. naive_solver lia.
Qed.

Lemma vec_at_drop {A} (l : list A) (n : nat) i :
  0 <= i -> vec_at (drop n l) i = vec_at l (Z.of_nat n + i).
Proof.
  intros Hi. unfold vec_at.
  destruct (Z.ltb_spec i 0), (Z.ltb_spec (Z.of_nat n + i) 0); try lia.
  rewrite lookup_drop. do 2 f_equal. lia.
Qed.

Lemma vec_set_Ok {A} (l : list A) i x l' :
  vec_set l i x = Ok l' <->
  0 <= i < Z.of_nat (length l) /\ l' = <[Z.to_nat i := x]> l.
Proof.
  unfold vec_set. destruct (Z.leb_spec 0 i), (Z.ltb_spec i (Z.of_nat (length l)));
    simpl; naive_solver lia.
Qed.

Lemma vec_set_app {A} (done_ rest : list A) b x :
  vec_set (done_ ++ b :: rest) (Z.of_nat (length done_)) x = Ok (done_ ++ x :: rest).
Proof.
  apply vec_set_Ok. rewrite length_app, Nat2Z.id. simpl. split; [lia|].
  by rewrite insert_app_r_alt, Nat.sub_diag by lia.
Qed.

Lemma vec_at_app {A} (done_ rest : list A) b :
  vec_at (done_ ++ b :: rest) (Z.of_nat (length done_)) = Ok b.
Proof.
  apply vec_at_nth. split; [lia|]. by rewrite Nat2Z.id, list_lookup_middle.
Qed.

(** [lia] with division and remainder. *)
Ltac dlia := Z.div_mod_to_equations; lia.

(** ** Sorted lists *)

Lemma ssorted_app {A} (R : A -> A -> Prop) l1 l2 :
  StronglySorted R l1 -> StronglySorted R l2 ->
  (forall x y, In x l1 -> In y l2 -> R x y) -> StronglySorted R (l1 ++ l2).
Proof.
  induction 1 as [|x l1 H1 IH Hx]; intros H2 H; simpl; [done|]. constructor.
  - apply IH; [done|]. intros; apply H; [by right|done].
  - apply Forall_app. split; [done|]. apply List.Forall_forall. intros; apply H; [by left|done].
Qed.

Lemma ssorted_filter {A} (R : A -> A -> Prop) f l :
  StronglySorted R l -> StronglySorted R (List.filter f l).
Proof.
  induction 1 as [|x l H IH Hx]; simpl; [constructor|].
  destruct (f x); [|done]. constructor; [done|].
  rewrite List.Forall_forall in *. intros y [Hy _]%filter_In. auto.
Qed.

Lemma ssorted_map {A B} (R : A -> A -> Prop) (R' : B -> B -> Prop) (f : A -> B) l :
  (forall x y, R x y -> R' (f x) (f y)) -> StronglySorted R l -> StronglySorted R' (map f l).
Proof.
  intros Hf. induction 1 as [|x l H IH Hx]; simpl; constructor; [done|].
  rewrite List.Forall_forall in *. intros y (z & <- & Hz)%in_map_iff. auto.
Qed.

Lemma ssorted_seqZ m n : StronglySorted Z.lt (seqZ m n).
Proof.
  destruct (Z.le_gt_cases n 0); [rewrite seqZ_nil by lia; constructor|].
  revert m. pattern n. apply natlike_ind; [constructor| |lia].
  intros k Hk IH m. rewrite seqZ_cons by lia. constructor.
  - rewrite Z.pred_succ. apply IH.
  - apply List.Forall_forall. intros x Hx%list_elem_of_In%elem_of_seqZ. lia.
Qed.

(** ** Images of lists *)

Lemma elem_of_lmap {A B} (f : A -> B) l y : y ∈ map f l <-> exists x, y = f x /\ x ∈ l.
Proof.
  rewrite list_elem_of_In, in_map_iff. setoid_rewrite list_elem_of_In. naive_solver.
Qed.

Lemma elem_of_lmap_2 {A B} (f : A -> B) l x : x ∈ l -> f x ∈ map f l.
Proof. intros H. apply elem_of_lmap. eauto. Qed.

(** In a list without duplicate images, the elements on either side of one
    differ from it. *)
Lemma nodup_map_mid {A B} (f : A -> B) l1 x l2 :
  NoDup (map f (l1 ++ x :: l2)) ->
  (forall y, y ∈ l1 -> f y <> f x) /\ (forall y, y ∈ l2 -> f y <> f x) /\
  (forall y z, y ∈ l1 -> z ∈ l2 -> f y <> f z).
Proof.
  rewrite map_app. cbn [map]. intros (_ & H1 & (Hx & _)%NoDup_cons)%NoDup_app.
  split; [|split].
  - intros y Hy E. apply (H1 (f y)); [by apply elem_of_lmap_2|]. rewrite E. set_solver.
  - intros y Hy E. apply Hx. rewrite <- E. by apply elem_of_lmap_2.
  - intros y z Hy Hz E. apply (H1 (f y)); [by apply elem_of_lmap_2|]. rewrite E.
    apply elem_of_cons. right. by apply elem_of_lmap_2.
Qed.

Lemma elem_of_flat_map {A B} (f : A -> list B) l y : y ∈ flat_map f l <-> exists x, x ∈ l /\ y ∈ f x.
Proof.
  rewrite list_elem_of_In, in_flat_map. split; intros (x & ? & ?); exists x;
    by rewrite ?list_elem_of_In in *.
Qed.

Lemma list_lookup_fmap_map {A B} (f : A -> B) l (i : nat) : map f l !! i = f <$> (l !! i).
Proof. revert i. induction l as [|x l IH]; intros [|i]; cbn; auto. Qed.

Lemma ssorted_app_inv {A} (R : A -> A -> Prop) l1 l2 : StronglySorted R (l1 ++ l2) ->
  (forall x y, In x l1 -> In y l2 -> R x y) /\ StronglySorted R l1 /\ StronglySorted R l2.
Proof.
  induction l1 as [|x l1 IH]; cbn; intros H; [split; [done|split; [constructor|done]]|].
  inversion_clear H as [|? ? H1 H2]. apply IH in H1 as (H3 & H4 & H5). apply Forall_app in H2 as [H6 H7].
  rewrite List.Forall_forall in H7. split; [|split; [by constructor|done]].
  intros a b [<-|Ha] Hb; [by apply H7|by apply H3].
Qed.
