(* ===== verification/Uleb128.v ===== *)
(** * ULEB128: the variable-length codec of positions (core/util/ULEB128.cpp)

    The four static members of class [ULEB128].  Bytes are [Z] in [0, 256);
    an output buffer is a list of cells, so that a write past its end is the
    fault [OutOfRange]; [None] stands for a NULL argument. *)
From Stdlib Require Import ZArith Lia List Bool.
From stdpp Require Import base list.
From S2P Require Import Prelude.

Open Scope Z_scope.

Module ULEB128.

(** ** One number *)

(** Locals of [uInt32ToVarLengthBytes]: the bytes behind the caller's buffer,
    the moving pointer into it, what is left of [position], and [*length]. *)
Record enc := mk_enc { e_buf : list Z; e_ptr : Z; e_pos : Z; e_len : Z }.

(** [pos = position & 0x7F; *p = pos; ( *length)++; position >>= 7]. *)
Definition put_group (e : enc) : result enc :=
  let? buf := vec_set (e_buf e) (e_ptr e) (Z.land (e_pos e) 0x7F) in
  Ok (mk_enc buf (e_ptr e) (Z.shiftr (e_pos e) 7) (e_len e + 1)).

(** [( *p++) |= 0x80]. *)
Definition mark_more (e : enc) : result enc :=
  let? b := vec_at (e_buf e) (e_ptr e) in
  let? buf := vec_set (e_buf e) (e_ptr e) (wrap8 (Z.lor b 0x80)) in
  Ok (mk_enc buf (e_ptr e + 1) (e_pos e) (e_len e)).

(** The C++ [bool] results are kept; the out-parameters are the buffer and
    [*length].  In the last test [position>>=7 == 0] parses as
    [position >>= (7 == 0)], a shift by 0, and [-1] converts to [true]. *)
Definition uInt32ToVarLengthBytes (position : Z) (varLenByteBuffer : option (list Z))
    (lengthIsNull : bool) : result (bool * list Z * Z) :=
  match varLenByteBuffer with
  | None => Ok (false, [], 0)
  | Some buf =>
    if lengthIsNull then Ok (false, buf, 0) else
    (* 7 bits *)
    let? e := put_group (mk_enc buf 0 position 0) in
    if e_pos e =? 0 then Ok (true, e_buf e, e_len e) else
    (* 14 bits *)
    let? e := mark_more e in let? e := put_group e in
    if e_pos e =? 0 then Ok (true, e_buf e, e_len e) else
    (* 21 bits *)
    let? e := mark_more e in let? e := put_group e in
    if e_pos e =? 0 then Ok (true, e_buf e, e_len e) else
    (* 28 bits *)
    let? e := mark_more e in let? e := put_group e in
    if e_pos e =? 0 then Ok (true, e_buf e, e_len e) else
    (* remaining bits: the position is not shifted after this group *)
    let? e := mark_more e in
    let? last := vec_set (e_buf e) (e_ptr e) (Z.land (e_pos e) 0x7F) in
    let len := e_len e + 1 in
    if negb (Z.shiftr (e_pos e) (if 7 =? 0 then 1 else 0) =? 0)
    then Ok (true (* return -1 *), last, len)
    else Ok (true, last, len)
  end.

(** What [varLengthBytesToUInt32] leaves behind: its result, [*value], and
    [*byteRead], which is written on success only. *)
Definition varLengthBytesToUInt32 (varLenByteBuffer : list Z)
    : result (bool * Z * option Z) :=
  (* set 1-7 *)
  let? b := vec_at varLenByteBuffer 0 in
  let val := Z.land b 0x7F in
  if Z.land b 0x80 =? 0 then Ok (true, val, Some 1) else
  (* set 8-14 *)
  let? b := vec_at varLenByteBuffer 1 in
  let val := wrap32 (Z.lor val (Z.shiftl (Z.land b 0x7F) 7)) in
  if Z.land b 0x80 =? 0 then Ok (true, val, Some 2) else
  (* set 15-21 *)
  let? b := vec_at varLenByteBuffer 2 in
  let val := wrap32 (Z.lor val (Z.shiftl (Z.land b 0x7F) 14)) in
  if Z.land b 0x80 =? 0 then Ok (true, val, Some 3) else
  (* set 22-28 *)
  let? b := vec_at varLenByteBuffer 3 in
  let val := wrap32 (Z.lor val (Z.shiftl (Z.land b 0x7F) 21)) in
  if Z.land b 0x80 =? 0 then Ok (true, val, Some 4) else
  (* remaining *)
  let? b := vec_at varLenByteBuffer 4 in
  let val := wrap32 (Z.lor val (Z.shiftl (Z.land b 0x7F) 28)) in
  if negb (Z.land b 0x80 =? 0) then Ok (false, val, None) else Ok (true, val, Some 5).

(** ** A vector of numbers *)

(** The loop over [positionList[1..]]: each delta is encoded in [buf] and the
    bytes it used are appended to [tempBuffer]. *)
Fixpoint encode_deltas (previous : Z) (rest : list Z) (buf tempBuffer : list Z)
    : result (list Z) :=
  match rest with
  | [] => Ok tempBuffer
  | x :: rest' =>
    let? (_, buf', len) := uInt32ToVarLengthBytes (wrap32 (x - previous)) (Some buf) false in
    encode_deltas x rest' buf' (tempBuffer ++ take (Z.to_nat len) buf')
  end.

(** Returns the bytes of the array [*buffer] points to afterwards; the empty
    list is the early [return 0], which leaves [*buffer] alone.  [buf5] is the
    uninitialised [uint8_t buf[5]]. *)
Definition uInt32VectorToVarLenArray (positionList buf5 : list Z) : result (list Z) :=
  match positionList with
  | [] => Ok []
  | x :: rest =>
    let? (_, buf', len) := uInt32ToVarLengthBytes x (Some buf5) false in
    encode_deltas x rest buf' (take (Z.to_nat len) buf')
  end.

(** [while (offset < size)], with [byteRead] surviving from the previous round
    when the call fails. *)
Fixpoint decode_loop (fuel : nat) (buffer : list Z) (size offset byteRead : Z)
    (positionList : list Z) : result (list Z) :=
  if offset <? size then
    match fuel with
    | O => Err OutOfFuel
    | S fuel' =>
      let? (_, delta, r) := varLengthBytesToUInt32 (drop (Z.to_nat offset) buffer) in
      let byteRead' := default byteRead r in
      let? previousValue := of_option OutOfRange (last positionList) in
      decode_loop fuel' buffer size (wrap32 (offset + byteRead')) byteRead'
        (positionList ++ [wrap32 (previousValue + delta)])
    end
  else Ok positionList.

(** [fuel] bounds the rounds of the loop; [length buffer] rounds are enough
    whenever every round consumes a byte. *)
Definition varLenByteArrayToInt32Vector (fuel : nat) (buffer : list Z)
    (positionList : list Z) : result (list Z) :=
  let size := Z.of_nat (length buffer) in
  if size =? 0 then Ok positionList else
  let? lastByte := vec_at buffer (size - 1) in
  if negb (Z.land lastByte 0x80 =? 0) then Ok positionList (* Logger::error *) else
  let? (_, firstValue, r) := varLengthBytesToUInt32 buffer in
  let byteRead := default 0 r in
  decode_loop fuel buffer size byteRead byteRead (positionList ++ [firstValue]).

(** ** The format the codec implements *)

(** Little-endian groups of seven bits, all but the last with bit 7 set; [n]
    bounds the number of continuation bytes. *)
Fixpoint groups (n : nat) (x : Z) : list Z :=
  match n with
  | O => [x mod 128]
  | S n' => if x / 128 =? 0 then [x mod 128] else (x mod 128 + 128) :: groups n' (x / 128)
  end.

Fixpoint deltas (previous : Z) (l : list Z) : list Z :=
  match l with
  | [] => []
  | x :: l' => wrap32 (x - previous) :: deltas x l'
  end.

Example encode_300 : uInt32ToVarLengthBytes 300 (Some [9; 9; 9; 9; 9]) false
  = Ok (true, [0xAC; 2; 9; 9; 9], 2).
Proof. reflexivity. Qed.
Example vec_ex : uInt32VectorToVarLenArray [3; 500; 4000000000; 1] [0;0;0;0;0]
  = Ok [3; 241; 3; 140; 204; 172; 243; 14; 129; 176; 211; 140; 1].
Proof. vm_compute. reflexivity. Qed.
Example dec_ex : varLenByteArrayToInt32Vector 20 [3; 241; 3; 140; 204; 172; 243; 14; 129; 176; 211; 140; 1] []
  = Ok [3; 500; 4000000000; 1].
Proof. vm_compute. reflexivity. Qed.

(** ** Lemmas *)

Lemma land_7F x : Z.land x 0x7F = x mod 128.
Proof. exact (land_mask x 7 ltac:(lia)). Qed.

Lemma shiftr_7 x : Z.shiftr x 7 = x / 128.
Proof. exact (Z.shiftr_div_pow2 x 7 ltac:(lia)). Qed.

(** The continuation bit of a group byte, set and cleared. *)
Lemma group_bits r : 0 <= r < 128 ->
  Z.land r 0x80 = 0 /\ Z.land (r + 128) 0x80 = 128 /\
  (r + 128) mod 128 = r /\ wrap8 (Z.lor r 0x80) = r + 128.
Proof.
  intros Hr. pose (P r := (Z.land r 0x80 =? 0) && (Z.land (r + 128) 0x80 =? 128) &&
    ((r + 128) mod 128 =? r) && (wrap8 (Z.lor r 0x80) =? r + 128)).
  assert (P r = true) as H by (apply (forall_below 128); [vm_compute; reflexivity|done]).
  unfold P in H. rewrite !andb_true_iff, !Z.eqb_eq in H. tauto.
Qed.

Lemma mod128 x : 0 <= x mod 128 < 128.
Proof. apply Z.mod_pos_bound. lia. Qed.

Lemma groups_length n x : (1 <= length (groups n x) <= S n)%nat.
Proof.
  revert x. induction n as [|n IH]; intros x; simpl; [lia|].
  case_match; simpl; [lia|]. specialize (IH (x / 128)). lia.
Qed.

Lemma put_group_at done_ b rest pos len :
  put_group (mk_enc (done_ ++ b :: rest) (Z.of_nat (length done_)) pos len) =
  Ok (mk_enc (done_ ++ (pos mod 128) :: rest) (Z.of_nat (length done_)) (pos / 128) (len + 1)).
Proof. unfold put_group. simpl. by rewrite land_7F, vec_set_app, shiftr_7. Qed.

Lemma mark_more_at done_ r rest pos len :
  0 <= r < 128 ->
  mark_more (mk_enc (done_ ++ r :: rest) (Z.of_nat (length done_)) pos len) =
  Ok (mk_enc ((done_ ++ [r + 128]) ++ rest) (Z.of_nat (length (done_ ++ [r + 128]))) pos len).
Proof.
  intros Hr. unfold mark_more. simpl. rewrite vec_at_app. simpl. rewrite vec_set_app.
  destruct (group_bits r Hr) as (_ & _ & _ & ->). simpl.
  rewrite <- app_assoc, length_app. simpl. repeat f_equal. lia.
Qed.

(** The unrolled encoder writes exactly [groups 4 position]. *)
Lemma encode_groups position buf :
  is_u32 position -> (5 <= length buf)%nat ->
  uInt32ToVarLengthBytes position (Some buf) false =
  Ok (true, groups 4 position ++ drop (length (groups 4 position)) buf,
      Z.of_nat (length (groups 4 position))).
Proof.
  intros Hp Hlen. unfold is_uint in Hp. change (2 ^ 32) with 4294967296 in Hp.
  destruct buf as [|b0 [|b1 [|b2 [|b3 [|b4 rest]]]]]; simpl in Hlen; try lia.
  unfold uInt32ToVarLengthBytes.
  change (mk_enc (b0 :: b1 :: b2 :: b3 :: b4 :: rest) 0 position 0) with
    (mk_enc ([] ++ b0 :: b1 :: b2 :: b3 :: b4 :: rest) (Z.of_nat (length (@nil Z))) position 0).
  rewrite put_group_at. cbn [rbind e_buf e_ptr e_pos e_len groups].
  case_match eqn:E0; [reflexivity|]. rewrite mark_more_at by apply mod128. cbn [rbind].
  rewrite put_group_at. cbn [rbind e_buf e_ptr e_pos e_len].
  case_match eqn:E1; [reflexivity|]. rewrite mark_more_at by apply mod128. cbn [rbind].
  rewrite put_group_at. cbn [rbind e_buf e_ptr e_pos e_len].
  case_match eqn:E2; [reflexivity|]. rewrite mark_more_at by apply mod128. cbn [rbind].
  rewrite put_group_at. cbn [rbind e_buf e_ptr e_pos e_len].
  case_match eqn:E3; [reflexivity|]. rewrite mark_more_at by apply mod128.
  cbn [rbind e_buf e_ptr e_pos e_len]. rewrite vec_set_app, land_7F. cbn [rbind].
  case_match; reflexivity.
Qed.

Lemma group_more r : 0 <= r < 128 ->
  (r + 128) mod 128 = r /\ (Z.land (r + 128) 0x80 =? 0) = false.
Proof. intros Hr. destruct (group_bits r Hr) as (_ & -> & ? & _). auto. Qed.

Lemma group_last r : 0 <= r < 128 -> r mod 128 = r /\ (Z.land r 0x80 =? 0) = true.
Proof. intros Hr. destruct (group_bits r Hr) as (-> & _). split; [by apply Z.mod_small|done]. Qed.

(** One round of the decoder adds seven bits of [x] to the ones it has. *)
Lemma acc_step x k :
  is_u32 x -> 0 <= k ->
  wrap32 (Z.lor (x mod 2 ^ k) (Z.shiftl ((x / 2 ^ k) mod 128) k)) = x mod 2 ^ (k + 7).
Proof.
  intros Hx Hk. unfold is_uint in Hx.
  assert (0 < 2 ^ k) by (apply Z.pow_pos_nonneg; lia).
  rewrite lor_shiftl_add by (try lia; by apply Z.mod_pos_bound).
  rewrite Z.pow_add_r, (Z.rem_mul_r x (2 ^ k)) by lia. change (2 ^ 7) with 128.
  rewrite (Z.mul_comm (2 ^ k)). rewrite wrap_id; [done|].
  rewrite (Z.mul_comm _ (2 ^ k)), <- (Z.rem_mul_r x (2 ^ k) 128) by lia.
  split; [apply Z.mod_pos_bound; lia|].
  apply Z.le_lt_trans with x; [apply Z.mod_le; lia|lia].
Qed.

Lemma acc_done x k : 0 <= x -> 0 <= k -> x / 2 ^ k = 0 -> x mod 2 ^ k = x.
Proof.
  intros Hx Hk H. apply Z.mod_small.
  assert (0 < 2 ^ k) by (apply Z.pow_pos_nonneg; lia).
  apply Z.div_small_iff in H; lia.
Qed.

(** The unrolled decoder as a loop over the byte index. *)
Fixpoint decode_rounds (n : nat) (i : Z) (buf : list Z) (val : Z)
    : result (bool * Z * option Z) :=
  let? b := vec_at buf i in
  let val' := wrap32 (Z.lor val (Z.shiftl (Z.land b 0x7F) (7 * i))) in
  if Z.land b 0x80 =? 0 then Ok (true, val', Some (i + 1))
  else match n with
       | O => Ok (false, val', None)
       | S n' => decode_rounds n' (i + 1) buf val'
       end.

Lemma decode_unrolled buf : varLengthBytesToUInt32 buf = decode_rounds 4 0 buf 0.
Proof.
  unfold varLengthBytesToUInt32. cbn [decode_rounds]. change (7 * 0) with 0.
  assert (forall b, wrap32 (Z.lor 0 (Z.shiftl (Z.land b 127) 0)) = Z.land b 127) as E.
  { intros b. rewrite Z.lor_0_l, Z.shiftl_0_r, land_7F. apply wrap_id.
    pose proof (mod128 b). unfold is_uint. lia. }
  repeat match goal with
  | |- rbind (vec_at _ ?i) _ = rbind (vec_at _ ?j) _ => progress change j with i
  | |- rbind ?m _ = rbind ?m _ => destruct m as [?b|]; [cbn [rbind]; rewrite ?E|done]
  | |- (if ?c then _ else _) = (if ?c then _ else _) => destruct c; [done|]
  | |- context [negb ?c] => by destruct c
  end.
Qed.

Lemma decode_rounds_groups n : forall pre x tail,
  let i := Z.of_nat (length pre) in
  is_u32 x -> x / 2 ^ (7 * (i + Z.of_nat n + 1)) = 0 ->
  decode_rounds n i (pre ++ groups n (x / 2 ^ (7 * i)) ++ tail) (x mod 2 ^ (7 * i)) =
  Ok (true, x, Some (i + Z.of_nat (length (groups n (x / 2 ^ (7 * i)))))).
Proof.
  assert (forall x k, is_u32 x -> 0 <= k -> x / 2 ^ (7 * k) / 128 = x / 2 ^ (7 * (k + 1))) as Dn.
  { intros x k Hx Hk. assert (0 < 2 ^ (7 * k)) by (apply Z.pow_pos_nonneg; lia).
    rewrite Z.div_div by lia. f_equal.
    replace (7 * (k + 1)) with (7 * k + 7) by lia. by rewrite Z.pow_add_r by lia. }
  induction n as [|n IH]; intros pre x tail i Hx H0;
    cbn -[wrap Z.lor Z.shiftl Z.land vec_at Z.eqb Z.pow Z.mul Z.add Z.div Z.modulo];
    set (r := x / 2 ^ (7 * i)); set (g := r mod 128); assert (0 <= g < 128) as Hg by apply mod128.
  - unfold i. rewrite vec_at_app. fold i. cbn [rbind]. rewrite land_7F.
    destruct (group_last g Hg) as [-> ->]. unfold g, r.
    rewrite acc_step by (try done; unfold i; lia).
    replace (7 * i + 7) with (7 * (i + Z.of_nat 0 + 1)) by lia.
    rewrite acc_done by (try done; unfold is_uint in Hx; unfold i; lia).
    done.
  - destruct (r / 128 =? 0) eqn:E.
    + unfold i. cbn [app]. rewrite vec_at_app. fold i. cbn [rbind]. rewrite land_7F.
      destruct (group_last g Hg) as [-> ->]. unfold g, r.
      rewrite acc_step by (try done; unfold i; lia).
      apply Z.eqb_eq in E. unfold r in E. rewrite Dn in E by (try done; unfold i; lia).
      replace (7 * i + 7) with (7 * (i + 1)) by lia.
      rewrite acc_done by (try done; unfold is_uint in Hx; unfold i; lia).
      done.
    + unfold i. cbn [app]. rewrite vec_at_app. fold i. cbn [rbind]. rewrite land_7F.
      destruct (group_more g Hg) as [-> ->]. unfold g, r.
      rewrite acc_step by (try done; unfold i; lia).
      rewrite Dn by (try done; unfold i; lia).
      specialize (IH (pre ++ [(x / 2 ^ (7 * i)) mod 128 + 128]) x tail). cbv zeta in IH.
      rewrite length_app, Nat2Z.inj_add in IH. cbn [length] in IH. fold i in IH.
      change (Z.of_nat 1) with 1 in IH. rewrite <- app_assoc in IH. cbn [app] in IH.
      replace (7 * i + 7) with (7 * (i + 1)) by lia.
      rewrite IH; [|done|]. { cbn [length]. do 2 f_equal. f_equal. lia. }
      replace (i + 1 + Z.of_nat n + 1) with (i + Z.of_nat (S n) + 1) by lia. done.
Qed.

(** [groups 4 x] decodes to [x], whatever bytes follow. *)
Lemma decode_groups x tail :
  is_u32 x ->
  varLengthBytesToUInt32 (groups 4 x ++ tail) =
  Ok (true, x, Some (Z.of_nat (length (groups 4 x)))).
Proof.
  intros Hx. rewrite decode_unrolled.
  pose proof (decode_rounds_groups 4 [] x tail Hx) as H. cbv zeta in H.
  change (7 * Z.of_nat (length (@nil Z))) with 0 in H. rewrite Z.div_1_r, Z.mod_1_r in H.
  apply H. apply Z.div_small. unfold is_uint in Hx. simpl. lia.
Qed.

(** A byte string whose last byte, if there is one, has bit 7 clear. *)
Definition terminated (l : list Z) : Prop :=
  l = [] \/ exists pre r, l = pre ++ [r] /\ 0 <= r < 128.

Lemma groups_terminated n x : terminated (groups n x).
Proof.
  right. revert x. induction n as [|n IH]; intros x; simpl.
  - exists [], (x mod 128). split; [done|apply mod128].
  - case_match.
    + exists [], (x mod 128). split; [done|apply mod128].
    + destruct (IH (x / 128)) as (pre & r & -> & Hr). by exists ((x mod 128 + 128) :: pre), r.
Qed.

Lemma terminated_app a b : terminated a -> terminated b -> terminated (a ++ b).
Proof.
  intros Ha [->|(pre & r & -> & Hr)]; [by rewrite app_nil_r|].
  right. exists (a ++ pre), r. by rewrite <- app_assoc.
Qed.

Lemma concat_terminated n ds : terminated (concat (groups n <$> ds)).
Proof.
  induction ds; [by left|]. apply terminated_app; [apply groups_terminated|done].
Qed.

#[local] Arguments groups : simpl never.
#[local] Arguments uInt32ToVarLengthBytes : simpl never.
#[local] Arguments varLengthBytesToUInt32 : simpl never.

Lemma encode_deltas_groups rest : forall previous buf tempBuffer,
  (5 <= length buf)%nat ->
  encode_deltas previous rest buf tempBuffer =
  Ok (tempBuffer ++ concat (groups 4 <$> deltas previous rest)).
Proof.
  induction rest as [|x rest IH]; intros previous buf temp Hbuf; simpl.
  { by rewrite app_nil_r. }
  rewrite encode_groups by (try done; apply wrap_bounds; lia). simpl.
  rewrite Nat2Z.id, take_app_length, IH.
  - by rewrite <- app_assoc.
  - pose proof (groups_length 4 (wrap32 (x - previous))).
    rewrite length_app, length_drop. lia.
Qed.

(** The bytes of a whole list: the first number, then the differences. *)
Definition encoding (l : list Z) : list Z :=
  match l with
  | [] => []
  | x :: rest => groups 4 x ++ concat (groups 4 <$> deltas x rest)
  end.

Lemma encode_vector l buf5 :
  Forall is_u32 l -> (5 <= length buf5)%nat ->
  uInt32VectorToVarLenArray l buf5 = Ok (encoding l).
Proof.
  intros Hl Hbuf. destruct l as [|x rest]; [done|]. simpl.
  inversion Hl; subst. rewrite encode_groups by done. simpl.
  rewrite Nat2Z.id, take_app_length, encode_deltas_groups; [done|].
  pose proof (groups_length 4 x). rewrite length_app, length_drop. lia.
Qed.

Lemma delta_undo previous x : is_u32 x -> wrap32 (previous + wrap32 (x - previous)) = x.
Proof.
  intros Hx. rewrite wrap_add_r. replace (previous + (x - previous)) with x by lia.
  by apply wrap_id.
Qed.

Lemma decode_loop_deltas rest : forall fuel pre previous byteRead positionList,
  Forall is_u32 rest -> (length rest <= fuel)%nat ->
  let buffer := pre ++ concat (groups 4 <$> deltas previous rest) in
  Z.of_nat (length buffer) < 2 ^ 32 -> last positionList = Some previous ->
  decode_loop fuel buffer (Z.of_nat (length buffer)) (Z.of_nat (length pre)) byteRead
    positionList = Ok (positionList ++ rest).
Proof.
  induction rest as [|x rest IH]; intros fuel pre previous byteRead pl Hu Hf buffer Hsz Hlast.
  - unfold buffer. simpl. rewrite app_nil_r.
    destruct fuel; cbn [decode_loop]; rewrite Z.ltb_irrefl; by rewrite app_nil_r.
  - inversion Hu; subst. destruct fuel as [|fuel]; simpl in Hf; [lia|].
    set (d := wrap32 (x - previous)).
    assert (is_u32 d) as Hd by (apply wrap_bounds; lia).
    pose proof (groups_length 4 d) as Hg.
    assert (buffer = (pre ++ groups 4 d) ++ concat (groups 4 <$> deltas x rest)) as Hb
      by (unfold buffer; simpl; by rewrite <- app_assoc).
    assert (Z.of_nat (length pre) < Z.of_nat (length buffer)) as Hlt
      by (rewrite Hb, !length_app; lia).
    cbn [decode_loop]. destruct (Z.ltb_spec (Z.of_nat (length pre)) (Z.of_nat (length buffer))); [|lia].
    rewrite Nat2Z.id. unfold buffer at 1. rewrite drop_app_length. simpl.
    fold d. rewrite decode_groups by done. simpl. rewrite Hlast. simpl.
    replace (wrap32 (previous + d)) with x by (symmetry; by apply delta_undo).
    rewrite (wrap_id 32) by (unfold is_uint; rewrite Hb, !length_app in Hsz; lia).
    rewrite <- Nat2Z.inj_add, <- length_app, Hb.
    rewrite IH; [by rewrite <- app_assoc|done|lia|by rewrite <- Hb|by rewrite last_snoc].
Qed.

Lemma terminated_last l : l <> [] -> terminated l ->
  exists r, vec_at l (Z.of_nat (length l) - 1) = Ok r /\ Z.land r 0x80 = 0.
Proof.
  intros Hne [->|(pre & r & -> & Hr)]; [done|]. exists r. rewrite length_app. simpl.
  replace (Z.of_nat (length pre + 1) - 1) with (Z.of_nat (length pre)) by lia.
  split; [apply vec_at_app|by apply group_bits].
Qed.

Lemma concat_groups_length ds :
  (length (concat (groups 4 <$> ds)) <= 5 * length ds)%nat.
Proof.
  induction ds as [|d ds IH]; [done|]. rewrite fmap_cons. cbn [concat length].
  rewrite length_app. pose proof (groups_length 4 d). lia.
Qed.

Lemma deltas_length x l : length (deltas x l) = length l.
Proof. revert x. induction l; intros; simpl; auto. Qed.

Lemma encoding_length l : (length (encoding l) <= 5 * length l)%nat.
Proof.
  destruct l as [|x rest]; [done|]. cbn [encoding length]. rewrite length_app.
  pose proof (groups_length 4 x). pose proof (concat_groups_length (deltas x rest)).
  rewrite deltas_length in *. lia.
Qed.

(** A read that starts at or before a terminating byte stays inside the buffer
    and, when it succeeds, consumes at least one byte and nothing after it. *)
Lemma decode_rounds_within n : forall i j buf val b,
  0 <= i <= j -> vec_at buf j = Ok b -> Z.land b 0x80 = 0 ->
  exists ok v r, decode_rounds n i buf val = Ok (ok, v, r) /\
    forall k, r = Some k -> i < k <= j + 1.
Proof.
  induction n as [|n IH]; intros i j buf val b Hij Hj Hb; cbn [decode_rounds];
    (assert (exists c, vec_at buf i = Ok c) as [c Hc];
      [apply vec_at_nth in Hj as [_ Hj]; apply lookup_lt_Some in Hj;
       destruct (buf !! Z.to_nat i) as [c|] eqn:E;
         [exists c; apply vec_at_nth; split; [lia|done]
         |apply lookup_ge_None in E; lia]|]);
    rewrite Hc; cbn [rbind]; destruct (Z.land c 0x80 =? 0) eqn:E;
    try (do 3 eexists; split; [done|]; intros ? [= <-]; lia).
  assert (i <> j) by (intros ->; rewrite Hc in Hj; injection Hj as ->; lia).
    destruct (IH (i + 1) j buf (wrap32 (Z.lor val (Z.shiftl (Z.land c 127) (7 * i)))) b)
      as (ok & v & r & Hrec & Hk); [lia|done|done|].
    do 3 eexists. split; [exact Hrec|]. intros k Hr. specialize (Hk k Hr). lia.
Qed.

Lemma encoding_terminated l : terminated (encoding l).
Proof.
  destruct l as [|x rest]; [by left|].
  apply terminated_app; [apply groups_terminated|apply concat_terminated].
Qed.

Lemma decode_vector l fuel positionList :
  Forall is_u32 l -> Z.of_nat (length l) * 5 < 2 ^ 32 -> (length l <= fuel)%nat ->
  varLenByteArrayToInt32Vector fuel (encoding l) positionList = Ok (positionList ++ l).
Proof.
  intros Hl Hsz Hfuel. destruct l as [|x rest]; [by rewrite app_nil_r|].
  pose proof (encoding_length (x :: rest)) as Hlen. pose proof (groups_length 4 x) as Hg.
  inversion Hl; subst. unfold varLenByteArrayToInt32Vector.
  set (bytes := encoding (x :: rest)) in *.
  assert (bytes <> []) as Hne by 
    (unfold bytes; cbn [encoding]; destruct (groups 4 x); [simpl in Hg; lia|done]).
  destruct (Z.eqb_spec (Z.of_nat (length bytes)) 0) as [E0|_];
    [destruct bytes; [done|simpl in E0; lia]|].
  destruct (terminated_last bytes Hne (encoding_terminated _)) as (r & Hr & Hbit).
  rewrite Hr. cbn [rbind]. rewrite Hbit. cbn [Z.eqb negb]. unfold bytes at 1. cbn [encoding].
  rewrite decode_groups by done. cbn [rbind default].
  unfold bytes. cbn [encoding]. rewrite decode_loop_deltas.
  - by rewrite <- app_assoc.
  - done.
  - cbn [length] in Hfuel. lia.
  - unfold bytes in Hlen. cbn [encoding length] in Hlen, Hsz. lia.
  - by rewrite last_snoc.
Qed.

(** ** Properties *)

(** (C34) Encoding any list of 32-bit positions (sorted or not) with
    [uInt32VectorToVarLenArray] and decoding the bytes with
    [varLenByteArrayToInt32Vector] appends exactly that list to the output
    vector; one round of the loop per number is enough. *)
Theorem vector_roundtrip (l buf5 positionList : list Z) (fuel : nat) :
  Forall is_u32 l -> (5 <= length buf5)%nat ->
  Z.of_nat (length l) * 5 < 2 ^ 32 -> (length l <= fuel)%nat ->
  exists bytes, uInt32VectorToVarLenArray l buf5 = Ok bytes /\
    varLenByteArrayToInt32Vector fuel bytes positionList = Ok (positionList ++ l).
Proof.
  intros Hl Hbuf Hsz Hfuel. exists (encoding l).
  split; [by apply encode_vector|by apply decode_vector].
Qed.

Lemma vector_roundtrip_witness :
  exists bytes, uInt32VectorToVarLenArray [3; 500; 4294967295; 1] [0; 0; 0; 0; 0] = Ok bytes /\
    varLenByteArrayToInt32Vector 4 bytes [7] = Ok ([7] ++ [3; 500; 4294967295; 1]).
Proof.
  apply (vector_roundtrip [3; 500; 4294967295; 1] [0; 0; 0; 0; 0] [7] 4).
  - repeat constructor; unfold is_uint; simpl; lia.
  - simpl. lia.
  - simpl. lia.
  - simpl. lia.
Defined.

Lemma decode_loop_within fuel : forall buffer offset byteRead positionList b,
  Z.of_nat (length buffer) < 2 ^ 32 ->
  vec_at buffer (Z.of_nat (length buffer) - 1) = Ok b -> Z.land b 0x80 = 0 ->
  0 <= offset -> 0 <= byteRead <= Z.of_nat (length buffer) -> positionList <> [] ->
  decode_loop fuel buffer (Z.of_nat (length buffer)) offset byteRead positionList
    <> Err OutOfRange.
Proof.
  induction fuel as [|fuel IH]; intros buffer offset byteRead pl b Hsz Hlast Hb Ho Hr Hpl;
    cbn [decode_loop]; destruct (Z.ltb_spec offset (Z.of_nat (length buffer))); try done.
  destruct (decode_rounds_within 4 0 (Z.of_nat (length buffer) - 1 - offset)
    (drop (Z.to_nat offset) buffer) 0 b) as (ok & v & r & H1 & H2); [lia| |done|].
  { rewrite vec_at_drop by lia. rewrite <- Hlast. f_equal. lia. }
  rewrite decode_unrolled, H1. cbn [rbind].
  destruct (last pl) as [z|] eqn:El; [|by apply last_None in El].
  cbn [rbind of_option]. apply (IH _ _ _ _ b); try done.
  - apply wrap_bounds. lia.
  - destruct r as [k|]; cbn [from_option id]; [specialize (H2 k eq_refl)|]; lia.
  - by destruct pl.
Qed.

(** Whatever bytes it is given, the decoder never reads outside them:
    the test on the last byte is enough to keep all its reads in the buffer. *)
Theorem decode_in_bounds (fuel : nat) (buffer positionList : list Z) :
  Z.of_nat (length buffer) < 2 ^ 32 ->
  varLenByteArrayToInt32Vector fuel buffer positionList <> Err OutOfRange.
Proof.
  intros Hsz. unfold varLenByteArrayToInt32Vector.
  destruct (Z.eqb_spec (Z.of_nat (length buffer)) 0); [done|].
  destruct (vec_at buffer (Z.of_nat (length buffer) - 1)) as [b|f] eqn:Hb; cbn [rbind].
  2: { unfold vec_at in Hb. destruct (Z.ltb_spec (Z.of_nat (length buffer) - 1) 0); [lia|].
       destruct (buffer !! Z.to_nat (Z.of_nat (length buffer) - 1)) eqn:E; [done|].
       apply lookup_ge_None in E. lia. }
  destruct (Z.land b 128 =? 0) eqn:E; cbn [negb]; [|done]. apply Z.eqb_eq in E.
  destruct (decode_rounds_within 4 0 (Z.of_nat (length buffer) - 1) buffer 0 b)
    as (ok & v & r & H1 & H2); [lia|done|done|].
  rewrite decode_unrolled, H1. cbn [rbind].
  apply (decode_loop_within _ _ _ _ _ b); try done.
  - destruct r as [k|]; cbn [from_option id]; [specialize (H2 k eq_refl)|]; lia.
  - destruct r as [k|]; cbn [from_option id]; [specialize (H2 k eq_refl)|]; lia.
  - by destruct positionList.
Qed.

Lemma decode_in_bounds_witness :
  varLenByteArrayToInt32Vector 9 [0x80; 0x80; 0x80; 0x80; 0x80; 0x80; 1] [] <> Err OutOfRange.
Proof. apply (decode_in_bounds 9). vm_compute. reflexivity. Defined.

Lemma stuck_loop fuel : forall positionList, positionList <> [] ->
  decode_loop fuel [0x80; 0x80; 0x80; 0x80; 0x80; 0] 6 0 0 positionList = Err OutOfFuel.
Proof.
  induction fuel as [|fuel IH]; intros pl Hpl; [done|].
  cbn [decode_loop]. change (0 <? 6) with true. cbn [Z.to_nat drop].
  change (varLengthBytesToUInt32 [128; 128; 128; 128; 128; 0])
    with (@Ok (bool * Z * option Z) (false, 0, None)). cbn [rbind].
  destruct (last pl) as [z|] eqn:El; [|by apply last_None in El]. cbn [rbind of_option default].
  change (wrap32 (0 + 0)) with 0. apply IH. by destruct pl.
Qed.

(** The result of [varLengthBytesToUInt32] is ignored by the vector
    decoder: on five continuation bytes [*byteRead] keeps its old value, the
    offset does not move and the loop never ends, although the last byte of
    the buffer is a terminating one. *)
Theorem decode_diverges (fuel : nat) (positionList : list Z) :
  varLenByteArrayToInt32Vector fuel [0x80; 0x80; 0x80; 0x80; 0x80; 0] positionList
    = Err OutOfFuel.
Proof.
  change (decode_loop fuel [0x80; 0x80; 0x80; 0x80; 0x80; 0] 6 0 0 (positionList ++ [0])
    = Err OutOfFuel).
  apply stuck_loop. by destruct positionList.
Qed.

End ULEB128.
