(* ===== verification/S16.v ===== *)
(** * Simple-16 packing of small integers (core/util/cowvector/compression/S16.h, core/util/S16.cpp)

    Up to fourteen small numbers share one 32-bit word: four bits select a row of
    a directory, the row gives the widths of the packed fields. *)
From Stdlib Require Import ZArith Lia List Bool.
From stdpp Require Import base list.
From S2P Require Import Prelude.

Open Scope Z_scope.

Module S16.

Definition COMMAND_LEN : Z := 4.
Definition COMMAND_MASK : Z := Z.shiftl 1 COMMAND_LEN - 1.
Definition MAX_COL : Z := 14.
Definition NULL_NUMBER : Z := 0.

Definition big_directory : list (list Z) :=
  [ [7;  7;  7; 7; 0; 0; 0; 0; 0; 0; 0; 0; 0; 0];
    [8;  8;  6; 6; 0; 0; 0; 0; 0; 0; 0; 0; 0; 0];
    [10; 9;  9; 0; 0; 0; 0; 0; 0; 0; 0; 0; 0; 0];
    [14; 14; 0; 0; 0; 0; 0; 0; 0; 0; 0; 0; 0; 0];
    [28; 0;  0; 0; 0; 0; 0; 0; 0; 0; 0; 0; 0; 0] ].

Definition small_directory : list (list Z) :=
  [ [2;  2;  2; 2; 2; 2; 2; 2; 2; 2; 2; 2; 2; 2];
    [4;  3;  3; 3; 3; 3; 3; 3; 3; 0; 0; 0; 0; 0];
    [4;  4;  4; 4; 3; 3; 3; 3; 0; 0; 0; 0; 0; 0];
    [4;  4;  4; 4; 4; 4; 4; 0; 0; 0; 0; 0; 0; 0];
    [5;  5;  5; 5; 4; 4; 0; 0; 0; 0; 0; 0; 0; 0];
    [6;  5;  5; 4; 4; 4; 0; 0; 0; 0; 0; 0; 0; 0];
    [6;  6;  4; 4; 4; 4; 0; 0; 0; 0; 0; 0; 0; 0];
    [6;  6;  6; 5; 5; 0; 0; 0; 0; 0; 0; 0; 0; 0];
    [6;  6;  6; 6; 4; 0; 0; 0; 0; 0; 0; 0; 0; 0];
    [7;  7;  7; 7; 0; 0; 0; 0; 0; 0; 0; 0; 0; 0];
    [8;  7;  7; 6; 0; 0; 0; 0; 0; 0; 0; 0; 0; 0];
    [8;  8;  6; 6; 0; 0; 0; 0; 0; 0; 0; 0; 0; 0];
    [10; 9;  9; 0; 0; 0; 0; 0; 0; 0; 0; 0; 0; 0];
    [14; 14; 0; 0; 0; 0; 0; 0; 0; 0; 0; 0; 0; 0];
    [15; 13; 0; 0; 0; 0; 0; 0; 0; 0; 0; 0; 0; 0];
    [28; 0;  0; 0; 0; 0; 0; 0; 0; 0; 0; 0; 0; 0] ].

Definition intLog2 (x : Z) : Z :=
  let l := 0 in
  let '(x, l) := if x >=? Z.shiftl 1 16 then (Z.shiftr x 16, Z.lor l 16) else (x, l) in
  let '(x, l) := if x >=? Z.shiftl 1 8 then (Z.shiftr x 8, Z.lor l 8) else (x, l) in
  let '(x, l) := if x >=? Z.shiftl 1 4 then (Z.shiftr x 4, Z.lor l 4) else (x, l) in
  let '(x, l) := if x >=? Z.shiftl 1 2 then (Z.shiftr x 2, Z.lor l 2) else (x, l) in
  if x >=? Z.shiftl 1 1 then Z.lor l 1 else l.

(** [byte(const int x)]: the argument arrives as a signed 32-bit int. *)
Definition byte (u : Z) : result Z :=
  let x := int32 u in
  if x <? 0 then Err AssertFailed
  else if x =? 0 then Ok 1 else Ok (intLog2 x + 1).

(** The body of the loop of [encodeUnsigned], from element [i] on. *)
Fixpoint encode_fields (array : list Z) (from : Z) (row : list Z) (i : Z) (num : nat)
    (idx out : Z) : result Z :=
  match num with
  | O => Ok out
  | S num' =>
    let? p := vec_at array (from + i) in
    let? d := vec_at row i in
    encode_fields array from row (i + 1) num' (idx + d)
      (Z.lor out (wrap32 (Z.shiftl p idx)))
  end.

Definition encodeUnsigned (array : list Z) (from num command : Z)
    (directory : list (list Z)) : result Z :=
  if negb (command <? 16) then Err AssertFailed else
  let? row := vec_at directory command in
  encode_fields array from row 0 (Z.to_nat num) 4 command.

(** The inner loop of [encode] and [getEncodeSize]: tries the columns of one row,
    remembering in [temp] the bit lengths already computed for this word; gives
    [finished], [col] and [temp] as they are when the loop breaks. *)
Fixpoint try_columns (fuel : nat) (array : list Z) (idx : Z) (row : list Z) (col : Z)
    (temp : list Z) : result (bool * Z * list Z) :=
  match fuel with
  | O => Err OutOfFuel
  | S fuel' =>
    let? d := if col <? MAX_COL then vec_at row col else Ok NULL_NUMBER in
    if (col <? MAX_COL) && negb (d =? NULL_NUMBER) then
      let? t := vec_at temp col in
      if t =? NULL_NUMBER then
        if idx + col <? Z.of_nat (length array) then
          let? x := vec_at array (idx + col) in
          let? b := byte x in
          let? temp := vec_set temp col b in
          if d <? b then Ok (false, col, temp)
          else try_columns fuel' array idx row (col + 1) temp
        else Ok (false, col, temp)
      else if d <? t then Ok (false, col, temp)
      else try_columns fuel' array idx row (col + 1) temp
    else Ok (true, col, temp)
  end.

(** The loop over rows: the first row that fits, and how many numbers it takes.
    Reading past the last row of the directory is the fault [OutOfRange]. *)
Fixpoint choose_row (fuel : nat) (array : list Z) (idx : Z) (directory : list (list Z))
    (row : Z) (temp : list Z) : result (Z * Z) :=
  match fuel with
  | O => Err OutOfFuel
  | S fuel' =>
    let? r := vec_at directory row in
    let? (finished, col, temp) := try_columns 15 array idx r 0 temp in
    if (finished : bool) then Ok (row, col)
    else choose_row fuel' array idx directory (row + 1) temp
  end.

Definition zero_temp : list Z := replicate (Z.to_nat MAX_COL) 0.

(** The outer loop of [encode]: [encoded_array[eidx]] is written for eidx = 0, 1, ... *)
Fixpoint encode_from (fuel : nat) (array : list Z) (directory : list (list Z))
    (idx : Z) (encoded_array : list Z) : result (list Z) :=
  if idx <? Z.of_nat (length array) then
    match fuel with
    | O => Err OutOfFuel
    | S fuel' =>
      let? (row, col) := choose_row 17 array idx directory 0 zero_temp in
      let? w := encodeUnsigned array idx col row directory in
      encode_from fuel' array directory (wrap32 (idx + col)) (encoded_array ++ [w])
    end
  else Ok encoded_array.

Definition encode (array : list Z) (directory : list (list Z)) : result (list Z) :=
  encode_from (length array) array directory 0 [].

Fixpoint size_from (fuel : nat) (array : list Z) (directory : list (list Z))
    (idx eidx : Z) : result Z :=
  if idx <? Z.of_nat (length array) then
    match fuel with
    | O => Err OutOfFuel
    | S fuel' =>
      let? (_, col) := choose_row 17 array idx directory 0 zero_temp in
      size_from fuel' array directory (wrap32 (idx + col)) (wrap32 (eidx + 1))
    end
  else Ok eidx.

Definition getEncodeSize (array : list Z) (directory : list (list Z)) : result Z :=
  size_from (length array) array directory 0 0.

(** [for (i = 0; i < MAX_COL && directory[command][i] > 0; i++)] *)
Fixpoint decode_fields (fuel : nat) (row : list Z) (i encoded : Z) (out : list Z)
    : result (list Z) :=
  match fuel with
  | O => Err OutOfFuel
  | S fuel' =>
    if i <? MAX_COL then
      let? d := vec_at row i in
      if d >? 0 then
        decode_fields fuel' row (i + 1) (Z.shiftr encoded d)
          (out ++ [Z.land (Z.shiftl 1 d - 1) encoded])
      else Ok out
    else Ok out
  end.

Definition decodeUnsigned (encoded : Z) (out : list Z) (directory : list (list Z))
    : result (list Z) :=
  let command := Z.land encoded COMMAND_MASK in
  let? row := vec_at directory command in
  decode_fields 15 row 0 (Z.shiftr encoded COMMAND_LEN) out.

Fixpoint decode (encodedArray : list Z) (out : list Z) (directory : list (list Z))
    : result (list Z) :=
  match encodedArray with
  | [] => Ok out
  | w :: rest => let? out := decodeUnsigned w out directory in decode rest out directory
  end.

Example encode_ex :
  encode [1; 2; 3; 1; 2; 3; 1; 2; 3; 1; 2; 3; 1; 2; 1000; 100000] small_directory
  = Ok [2658789264; 16015; 1600015].
Proof. vm_compute. reflexivity. Qed.

(** ** Bit lengths *)

Lemma lor_low l :
  0 <= l < 32 -> (l mod 32 = 0 -> Z.lor l 16 = l + 16) /\ (l mod 16 = 0 -> Z.lor l 8 = l + 8) /\
    (l mod 8 = 0 -> Z.lor l 4 = l + 4) /\ (l mod 4 = 0 -> Z.lor l 2 = l + 2) /\
    (l mod 2 = 0 -> Z.lor l 1 = l + 1).
Proof.
  intros Hl. pose (P l := (negb (l mod 32 =? 0) || (Z.lor l 16 =? l + 16)) &&
    ((negb (l mod 16 =? 0) || (Z.lor l 8 =? l + 8)) &&
    ((negb (l mod 8 =? 0) || (Z.lor l 4 =? l + 4)) &&
    ((negb (l mod 4 =? 0) || (Z.lor l 2 =? l + 2)) &&
    (negb (l mod 2 =? 0) || (Z.lor l 1 =? l + 1)))))).
  assert (P l = true) as H by (apply (forall_below 32); [vm_compute; reflexivity|done]).
  unfold P in H. rewrite !andb_true_iff, !orb_true_iff, !negb_true_iff, !Z.eqb_eq, !Z.eqb_neq in H.
  naive_solver lia.
Qed.

(** One halving step of [intLog2] keeps [l + log2 x]. *)
Lemma log2_step k x l :
  0 < k -> 0 < x < 2 ^ (2 * k) -> 0 <= l -> l mod (2 * k) = 0 ->
  (l + k < 32 -> Z.lor l k = l + k) -> l + 2 * k <= 32 ->
  let '(x', l') := if x >=? Z.shiftl 1 k then (Z.shiftr x k, Z.lor l k) else (x, l) in
  0 < x' < 2 ^ k /\ 0 <= l' /\ l' mod k = 0 /\ l' + k <= 32 /\ l' + Z.log2 x' = l + Z.log2 x.
Proof.
  intros Hk Hx Hl Hmod Hlor Hlk.
  assert (0 < 2 ^ k) by (apply Z.pow_pos_nonneg; lia).
  assert (l mod k = 0) as Hm.
  { apply Z.mod_divide; [lia|]. apply Z.mod_divide in Hmod as [q ->]; [|lia].
    exists (2 * q). ring. }
  rewrite Z.shiftl_1_l. destruct (Z.geb_spec x (2 ^ k)) as [Hge|Hlt].
  - rewrite Z.shiftr_div_pow2 by lia. rewrite Hlor by lia.
    assert (k <= Z.log2 x) by (apply Z.log2_le_pow2; lia).
    split; [|split; [lia|split; [|split; [lia|]]]].
    + split; [apply Z.div_str_pos; lia|]. apply Z.div_lt_upper_bound; [lia|].
      replace (2 * k) with (k + k) in Hx by lia. rewrite Z.pow_add_r in Hx by lia. lia.
    + rewrite <- Z.add_mod_idemp_r, Z.mod_same, Z.add_0_r by lia. done.
    + rewrite <- Z.shiftr_div_pow2, Z.log2_shiftr by lia. lia.
  - repeat split; lia.
Qed.

Lemma intLog2_log2 x : 0 < x < 2 ^ 32 -> intLog2 x = Z.log2 x.
Proof.
  intros Hx. unfold intLog2. cbv zeta.
  pose proof (log2_step 16 x 0 ltac:(lia) Hx ltac:(lia) eq_refl ltac:(intros _; reflexivity) ltac:(lia)) as H.
  destruct (if x >=? Z.shiftl 1 16 then _ else _) as [x1 l1].
  destruct H as (Hx1 & Hl1 & Hm1 & Hb1 & E1).
  pose proof (log2_step 8 x1 l1 ltac:(lia) Hx1 Hl1 Hm1
    ltac:(intros ?; apply lor_low; [lia|done]) Hb1) as H.
  destruct (if x1 >=? Z.shiftl 1 8 then _ else _) as [x2 l2].
  destruct H as (Hx2 & Hl2 & Hm2 & Hb2 & E2).
  pose proof (log2_step 4 x2 l2 ltac:(lia) Hx2 Hl2 Hm2
    ltac:(intros ?; apply lor_low; [lia|done]) Hb2) as H.
  destruct (if x2 >=? Z.shiftl 1 4 then _ else _) as [x3 l3].
  destruct H as (Hx3 & Hl3 & Hm3 & Hb3 & E3).
  pose proof (log2_step 2 x3 l3 ltac:(lia) Hx3 Hl3 Hm3
    ltac:(intros ?; apply lor_low; [lia|done]) Hb3) as H.
  destruct (if x3 >=? Z.shiftl 1 2 then _ else _) as [x4 l4].
  destruct H as (Hx4 & Hl4 & Hm4 & Hb4 & E4).
  change (Z.shiftl 1 1) with 2. change (2 ^ 2) with 4 in Hx4.
  assert (x4 = 1 \/ x4 = 2 \/ x4 = 3) as [->| [->| ->]] by lia;
    cbn [Z.geb Z.compare Pos.compare Pos.compare_cont].
  - change (Z.log2 1) with 0 in E4. lia.
  - change (Z.log2 2) with 1 in E4.
    destruct (lor_low l4) as (_ & _ & _ & _ & Hor); [lia|]. rewrite (Hor Hm4). lia.
  - change (Z.log2 3) with 1 in E4.
    destruct (lor_low l4) as (_ & _ & _ & _ & Hor); [lia|]. rewrite (Hor Hm4). lia.
Qed.

(** [byte] is the number of bits needed, at least one. *)
Lemma byte_small u : 0 <= u < 2 ^ 31 ->
  exists b, byte u = Ok b /\ 1 <= b /\ forall d, 1 <= d -> (b <= d <-> u < 2 ^ d).
Proof.
  intros Hu. unfold byte.
  assert (int32 u = u) as ->.
  { unfold swrap. rewrite wrap_id by (unfold is_uint; lia).
    change (32 - 1) with 31. by destruct (Z.ltb_spec u (2 ^ 31)); [|lia]. }
  destruct (Z.ltb_spec u 0); [lia|]. destruct (Z.eqb_spec u 0) as [->|Hne].
  - exists 1. split; [done|]. split; [lia|]. intros d Hd. split; [|lia].
    intros _. apply Z.pow_pos_nonneg; lia.
  - rewrite intLog2_log2 by lia. exists (Z.log2 u + 1). split; [done|].
    pose proof (Z.log2_nonneg u). split; [lia|].
    intros d Hd. rewrite (Z.log2_lt_pow2 u d) by lia. lia.
Qed.

(** ** Directories *)

(** The widths a row offers: its entries before the first [NULL_NUMBER]. *)
Fixpoint widths (row : list Z) : list Z :=
  match row with
  | d :: row' => if d =? NULL_NUMBER then [] else d :: widths row'
  | [] => []
  end.

Definition row_ok (row : list Z) : bool :=
  (length row =? 14)%nat && forallb (fun d => 0 <? d) (widths row) &&
  (foldr Z.add 0 (widths row) <=? 28) && negb (length (widths row) =? 0)%nat.

(** At most sixteen usable rows, one of which takes any single number. *)
Definition directory_ok (directory : list (list Z)) : bool :=
  (length directory <=? 16)%nat && forallb row_ok directory &&
  existsb (fun r => bool_decide (widths r = [28])) directory.

Lemma directories_ok : directory_ok small_directory = true /\ directory_ok big_directory = true.
Proof. split; vm_compute; reflexivity. Qed.

Lemma widths_lookup row i d :
  widths row !! i = Some d -> row !! i = Some d /\ d <> 0.
Proof.
  revert i. induction row as [|e row IH]; intros i H; simpl in H; [done|].
  destruct (Z.eqb_spec e NULL_NUMBER) as [|Hne]; [done|].
  destruct i; simpl in *; [|by apply IH]. injection H as ->. done.
Qed.

Lemma widths_length row : (length (widths row) <= length row)%nat.
Proof. induction row; simpl; [lia|]. case_match; simpl; lia. Qed.

Lemma widths_end row :
  (length (widths row) < length row)%nat -> row !! length (widths row) = Some 0.
Proof.
  induction row as [|e row IH]; simpl; [lia|].
  destruct (Z.eqb_spec e NULL_NUMBER) as [->|]; simpl; [done|]. intros H. apply IH. lia.
Qed.

Lemma row_ok_spec row : row_ok row = true ->
  length row = 14%nat /\ (forall i d, widths row !! i = Some d -> 0 < d) /\
  foldr Z.add 0 (widths row) <= 28 /\ (1 <= length (widths row) <= 14)%nat.
Proof.
  unfold row_ok. rewrite !andb_true_iff, negb_true_iff, Nat.eqb_eq, Nat.eqb_neq, Z.leb_le,
    forallb_forall. intros [[[H1 H2] H3] H4]. pose proof (widths_length row).
  split; [done|]. split; [|split; [done|lia]]. intros i d Hd.
  apply Z.ltb_lt, H2, list_elem_of_In, list_elem_of_lookup. eauto.
Qed.

(** ** Fitting a row *)

(** The numbers at [idx], [idx+1], ... fit the widths [ws]. *)
Fixpoint fits (array ws : list Z) (idx : Z) : Prop :=
  match ws with
  | [] => True
  | d :: ws' => (exists x, vec_at array idx = Ok x /\ 0 <= x < 2 ^ d) /\ fits array ws' (idx + 1)
  end.

(** [temp] caches bit lengths of the numbers from [idx] on. *)
Definition temp_ok (array : list Z) (idx : Z) (temp : list Z) : Prop :=
  length temp = 14%nat /\
  forall i t, temp !! i = Some t -> t <> 0 ->
    exists x, vec_at array (idx + Z.of_nat i) = Ok x /\ byte x = Ok t.

Definition small (array : list Z) : Prop := Forall (fun x => 0 <= x < 2 ^ 28) array.

Lemma small_at array i x : small array -> vec_at array i = Ok x -> 0 <= x < 2 ^ 28.
Proof.
  intros Hs [_ Hx]%vec_at_nth. unfold small in Hs. rewrite Forall_lookup in Hs. eauto.
Qed.

Lemma vec_at_in {A} (l : list A) i : 0 <= i < Z.of_nat (length l) -> exists x, vec_at l i = Ok x.
Proof.
  intros Hi. destruct (lookup_lt_is_Some_2 l (Z.to_nat i)) as [x Hx]; [lia|].
  exists x. apply vec_at_nth. auto with lia.
Qed.

Lemma byte_fits array k x b d :
  0 <= x < 2 ^ 31 -> vec_at array k = Ok x -> byte x = Ok b -> 0 < d ->
  (b <= d <-> exists y, vec_at array k = Ok y /\ 0 <= y < 2 ^ d).
Proof.
  intros Hxs Hx Hb Hd.
  destruct (byte_small x) as (b' & Hb' & _ & Hiff); [lia|].
  rewrite Hb in Hb'. injection Hb' as <-. rewrite Hiff by lia. rewrite Hx. naive_solver lia.
Qed.

Lemma temp_ok_set array idx temp col x b :
  temp_ok array idx temp -> (col < 14)%nat ->
  vec_at array (idx + Z.of_nat col) = Ok x -> byte x = Ok b ->
  vec_set temp (Z.of_nat col) b = Ok (<[col := b]> temp) /\
  temp_ok array idx (<[col := b]> temp).
Proof.
  intros [Hl Ht] Hcol Hx Hb. split.
  { apply vec_set_Ok. rewrite Nat2Z.id. split; [lia|done]. }
  split; [by rewrite length_insert|]. intros i t Hi Hnz. destruct (decide (i = col)) as [->|Hne].
  - rewrite list_lookup_insert_eq in Hi by lia. injection Hi as <-. eauto.
  - rewrite list_lookup_insert_ne in Hi by done. eauto.
Qed.

(** What the loop is at a column the row uses: either the number there does not
    fit (or there is none) and the loop stops, or it goes on with the next. *)
Lemma try_columns_step fuel array idx row col d temp :
  (forall y, vec_at array (idx + Z.of_nat col) = Ok y -> 0 <= y < 2 ^ 31) -> 0 <= idx -> (col < 14)%nat ->
  row !! col = Some d -> 0 < d -> temp_ok array idx temp ->
  (exists c temp', try_columns (S fuel) array idx row (Z.of_nat col) temp = Ok (false, c, temp') /\
    temp_ok array idx temp' /\
    ~ exists y, vec_at array (idx + Z.of_nat col) = Ok y /\ 0 <= y < 2 ^ d) \/
  (exists temp', try_columns (S fuel) array idx row (Z.of_nat col) temp =
      try_columns fuel array idx row (Z.of_nat (S col)) temp' /\
    temp_ok array idx temp' /\
    exists y, vec_at array (idx + Z.of_nat col) = Ok y /\ 0 <= y < 2 ^ d).
Proof.
  intros Hsm Hidx Hcol Hrow Hd Htemp. pose proof Htemp as [Htl Ht].
  cbn [try_columns]. unfold MAX_COL. destruct (Z.ltb_spec (Z.of_nat col) 14); [|lia].
  assert (vec_at row (Z.of_nat col) = Ok d) as ->.
  { apply vec_at_nth. split; [lia|]. by rewrite Nat2Z.id. }
  cbn [rbind andb]. destruct (Z.eqb_spec d NULL_NUMBER) as [->|_]; [done|]. cbn [negb].
  destruct (lookup_lt_is_Some_2 temp col) as [t Htc]; [lia|].
  assert (vec_at temp (Z.of_nat col) = Ok t) as ->.
  { apply vec_at_nth. split; [lia|]. by rewrite Nat2Z.id. }
  cbn [rbind]. replace (Z.of_nat col + 1) with (Z.of_nat (S col)) by lia.
  destruct (Z.eqb_spec t NULL_NUMBER) as [->|Ht0].
  - destruct (Z.ltb_spec (idx + Z.of_nat col) (Z.of_nat (length array))) as [Hlt|Hge].
    + destruct (vec_at_in array (idx + Z.of_nat col)) as [x Hx]; [lia|].
      pose proof (Hsm x Hx) as Hxs. destruct (byte_small x Hxs) as (b & Hb & _).
      destruct (temp_ok_set _ _ _ _ _ _ Htemp Hcol Hx Hb) as [Hset Htemp'].
      pose proof (byte_fits _ _ _ _ d Hxs Hx Hb Hd) as Hfit.
      rewrite Hx in Hfit |- *. cbn [rbind]. rewrite Hb. cbn [rbind]. rewrite Hset. cbn [rbind].
      destruct (Z.ltb_spec d b); [left; do 2 eexists|right; eexists];
        (split; [reflexivity|]); (split; [done|]);
        [intros Hy; apply Hfit in Hy; lia|apply Hfit; lia].
    + left. do 2 eexists. split; [reflexivity|]. split; [done|].
      intros (y & Hy & _). apply vec_at_nth in Hy as [_ Hy]. apply lookup_lt_Some in Hy. lia.
  - destruct (Ht col t Htc Ht0) as (x & Hx & Hb).
    pose proof (byte_fits _ _ _ _ d (Hsm x Hx) Hx Hb Hd) as Hfit.
    destruct (Z.ltb_spec d t); [left; do 2 eexists|right; eexists];
      (split; [reflexivity|]); (split; [done|]);
      [intros Hy; apply Hfit in Hy; lia|apply Hfit; lia].
Qed.

Lemma try_columns_spec array idx row : row_ok row = true -> small array -> 0 <= idx ->
  forall n e col temp,
  (n + col = length (widths row))%nat -> temp_ok array idx temp ->
  exists b c temp',
    try_columns (S (n + e)) array idx row (Z.of_nat col) temp = Ok (b, c, temp') /\
    temp_ok array idx temp' /\
    (b = true <-> fits array (drop col (widths row)) (idx + Z.of_nat col)) /\
    (b = true -> c = Z.of_nat (length (widths row))).
Proof.
  intros Hrow Hsm Hidx. destruct (row_ok_spec row Hrow) as (Hl & Hpos & Hsum & Hlw).
  induction n as [|n IH]; intros e col temp Hn Htemp.
  - simpl in Hn. subst col. cbn [try_columns Nat.add]. rewrite drop_all. cbn [fits].
    unfold MAX_COL. destruct (Z.ltb_spec (Z.of_nat (length (widths row))) 14) as [Hlt|Hge].
    + assert (vec_at row (Z.of_nat (length (widths row))) = Ok 0) as ->.
      { apply vec_at_nth. split; [lia|]. rewrite Nat2Z.id. apply widths_end. lia. }
      cbn [rbind]. do 3 eexists. split; [reflexivity|]. done.
    + cbn [rbind]. do 3 eexists. split; [reflexivity|]. done.
  - destruct (lookup_lt_is_Some_2 (widths row) col) as [d Hd]; [lia|].
    destruct (widths_lookup _ _ _ Hd) as [Hrd _]. specialize (Hpos _ _ Hd).
    rewrite (drop_S _ _ _ Hd). cbn [fits].
    destruct (try_columns_step (S n + e) array idx row col d temp)
      as [(c & temp' & -> & Htemp' & Hno)|(temp' & -> & Htemp' & Hyes)]; try done; [intros y Hy; pose proof (small_at _ _ _ Hsm Hy); lia|lia| |].
    + do 3 eexists. split; [reflexivity|]. split; [done|]. split; [|done]. split; [done|tauto].
    + destruct (IH e (S col) temp') as (b & c & temp2 & H1 & H2 & H3 & H4); [lia|done|].
      do 3 eexists. split; [exact H1|]. split; [done|]. split; [|done].
      rewrite H3. replace (idx + Z.of_nat (S col)) with (idx + Z.of_nat col + 1) by lia. tauto.
Qed.

Lemma zero_temp_ok array idx : temp_ok array idx zero_temp.
Proof.
  split; [done|]. intros i t Hi Hnz. apply lookup_replicate in Hi as [-> _]. done.
Qed.

(** Some row of the directory fits wherever there is a number left. *)
Lemma choose_row_spec array idx directory :
  directory_ok directory = true -> small array -> 0 <= idx < Z.of_nat (length array) ->
  exists k r, choose_row 17 array idx directory 0 zero_temp =
      Ok (Z.of_nat k, Z.of_nat (length (widths r))) /\
    directory !! k = Some r /\ (k < 16)%nat /\ row_ok r = true /\ fits array (widths r) idx.
Proof.
  unfold directory_ok. rewrite !andb_true_iff, Nat.leb_le, forallb_forall, existsb_exists.
  intros [[Hlen Hrows] (r28 & Hin & H28)] Hsm Hidx. apply bool_decide_eq_true in H28.
  apply list_elem_of_In, list_elem_of_lookup in Hin as [j Hj].
  assert (forall n k temp, (k + n = j)%nat -> temp_ok array idx temp -> exists k' r,
    choose_row (17 - k) array idx directory (Z.of_nat k) temp =
      Ok (Z.of_nat k', Z.of_nat (length (widths r))) /\
    directory !! k' = Some r /\ (k' < 16)%nat /\ row_ok r = true /\ fits array (widths r) idx)
    as Hgen; [|exact (Hgen j 0%nat zero_temp eq_refl (zero_temp_ok _ _))].
  apply lookup_lt_Some in Hj as Hjlt.
  induction n as [|n IH]; intros k temp Hk Htemp.
  all: destruct (lookup_lt_is_Some_2 directory k) as [r Hr]; [lia|];
    assert (row_ok r = true) as Hrow by (apply Hrows, list_elem_of_In, list_elem_of_lookup; eauto);
    destruct (row_ok_spec r Hrow) as (_ & _ & _ & Hw);
    replace (17 - k)%nat with (S (16 - k)) by lia; cbn [choose_row];
    (assert (vec_at directory (Z.of_nat k) = Ok r) as ->
      by (apply vec_at_nth; split; [lia|]; by rewrite Nat2Z.id)); cbn [rbind];
    destruct (try_columns_spec array idx r Hrow Hsm ltac:(lia) (length (widths r))
      (14 - length (widths r)) 0 temp ltac:(lia) Htemp) as (b & c & temp' & Htc & Htemp' & Hfit & Hc);
    replace (S (length (widths r) + (14 - length (widths r)))) with 15%nat in Htc by lia;
    change (Z.of_nat 0) with 0 in Htc, Hfit; rewrite Htc; cbn [rbind];
    rewrite drop_0, Z.add_0_r in Hfit.
  - destruct b; [exists k, r; rewrite Hc by done; repeat split; [done|lia|done|by apply Hfit]|].
    exfalso. assert (k = j) as -> by lia. rewrite Hj in Hr. injection Hr as ->.
    destruct (vec_at_in array idx) as [x Hx]; [lia|].
    assert (false = true); [|done]. apply Hfit. rewrite H28. cbn [fits]. split; [|done].
    exists x. split; [done|]. exact (small_at _ _ _ Hsm Hx).
  - destruct b; [exists k, r; rewrite Hc by done; repeat split; [done|lia|done|by apply Hfit]|].
    destruct (IH (S k) temp' ltac:(lia) Htemp') as (k' & r' & H1 & H2).
    exists k', r'. split; [|done]. rewrite <- H1.
    replace (17 - S k)%nat with (16 - k)%nat by lia. f_equal. lia.
Qed.

(** ** Packing *)

Fixpoint pack (ws xs : list Z) : Z :=
  match ws, xs with
  | w :: ws', x :: xs' => x + 2 ^ w * pack ws' xs'
  | _, _ => 0
  end.

Definition slice (array : list Z) (i : Z) (n : nat) : list Z := take n (drop (Z.to_nat i) array).

Lemma slice_S array i x n :
  vec_at array i = Ok x -> slice array i (S n) = x :: slice array (i + 1) n.
Proof.
  intros [Hi Hx]%vec_at_nth. unfold slice. rewrite (drop_S _ _ _ Hx). cbn [take].
  repeat f_equal. lia.
Qed.

Lemma fits_slice array ws i :
  fits array ws i -> Forall2 (fun w x => 0 <= x < 2 ^ w) ws (slice array i (length ws)).
Proof.
  revert i. induction ws as [|w ws IH]; intros i; cbn [fits length].
  - intros _. unfold slice. rewrite take_0. constructor.
  - intros [(x & Hx & Hb) Hf]. rewrite (slice_S _ _ _ _ Hx). constructor; auto.
Qed.

(** [row] offers the widths [ws] from column [i] on. *)
Definition row_from (row : list Z) (i : Z) (ws : list Z) : Prop :=
  Forall (fun d => 0 < d) ws /\
  forall j d, ws !! j = Some d -> vec_at row (i + Z.of_nat j) = Ok d.

Lemma row_from_cons row i d ws :
  row_from row i (d :: ws) -> 0 < d /\ vec_at row i = Ok d /\ row_from row (i + 1) ws.
Proof.
  intros [Hp Hj]. inversion Hp; subst. split; [done|]. split.
  - rewrite <- (Z.add_0_r i). exact (Hj 0%nat d eq_refl).
  - split; [done|]. intros j e He. rewrite <- (Hj (S j) e He). f_equal. lia.
Qed.

Lemma row_from_widths row : row_ok row = true -> row_from row 0 (widths row).
Proof.
  intros Hrow. destruct (row_ok_spec row Hrow) as (_ & Hpos & _). split.
  - apply Forall_lookup. exact Hpos.
  - intros j d Hd. apply vec_at_nth. split; [lia|]. apply widths_lookup in Hd as [Hd _].
    rewrite <- Hd. f_equal. lia.
Qed.

Lemma sum_nonneg ws : Forall (fun d => 0 < d) ws -> 0 <= foldr Z.add 0 ws.
Proof. induction 1; simpl; lia. Qed.

Lemma encode_fields_pack array from row ws : forall i idx out,
  row_from row i ws -> fits array ws (from + i) ->
  0 <= idx -> 0 <= out < 2 ^ idx -> idx + foldr Z.add 0 ws <= 32 ->
  encode_fields array from row i (length ws) idx out =
  Ok (out + 2 ^ idx * pack ws (slice array (from + i) (length ws))).
Proof.
  induction ws as [|d ws IH]; intros i idx out Hrow Hf Hidx Hout Hsum; cbn [encode_fields length].
  { cbn [pack]. f_equal. lia. }
  destruct (row_from_cons _ _ _ _ Hrow) as (Hd & Hrd & Hrow').
  cbn [fits foldr] in Hf, Hsum. destruct Hf as [(x & Hx & Hxb) Hf].
  pose proof (sum_nonneg ws (proj1 Hrow')) as Hs.
  rewrite Hx. cbn [rbind]. rewrite Hrd. cbn [rbind].
  rewrite (slice_S _ _ _ _ Hx). cbn [pack].
  assert (0 < 2 ^ idx) by (apply Z.pow_pos_nonneg; lia).
  assert (0 < 2 ^ d) by (apply Z.pow_pos_nonneg; lia).
  assert (2 ^ idx * 2 ^ d = 2 ^ (idx + d)) as Epow by (by rewrite Z.pow_add_r by lia).
  assert (2 ^ (idx + d) <= 2 ^ 32) by (apply Z.pow_le_mono_r; lia).
  assert (wrap32 (Z.shiftl x idx) = Z.shiftl x idx) as ->.
  { rewrite Z.shiftl_mul_pow2 by lia. apply wrap_id. unfold is_uint. nia. }
  rewrite lor_shiftl_add by lia.
  rewrite IH; [|done|by rewrite Z.add_assoc|lia|nia|lia].
  rewrite Z.add_assoc, Z.pow_add_r by lia. f_equal. ring.
Qed.

Lemma decode_fields_pack row ws : forall xs i fuel out,
  row_from row i ws -> 0 <= i -> i + Z.of_nat (length ws) <= 14 ->
  (i + Z.of_nat (length ws) < 14 -> vec_at row (i + Z.of_nat (length ws)) = Ok 0) ->
  Forall2 (fun w x => 0 <= x < 2 ^ w) ws xs -> (length ws < fuel)%nat ->
  decode_fields fuel row i (pack ws xs) out = Ok (out ++ xs).
Proof.
  induction ws as [|d ws IH]; intros xs i fuel out Hrow Hi Hle Hend Hxs Hfuel;
    inversion Hxs as [|? x ? xs' Hx Hxs']; subst; destruct fuel as [|fuel]; simpl in Hfuel; try lia;
    cbn [decode_fields]; unfold MAX_COL.
  - rewrite app_nil_r. cbn [length] in *. rewrite Z.add_0_r in *.
    destruct (Z.ltb_spec i 14); [|done]. by rewrite Hend.
  - destruct (row_from_cons _ _ _ _ Hrow) as (Hd & -> & Hrow'). cbn [length] in *.
    destruct (Z.ltb_spec i 14); [|lia]. cbn [rbind]. destruct (Z.gtb_spec d 0); [|lia].
    cbn [pack]. rewrite Z.shiftl_1_l, Z.land_comm, land_mask, Z.shiftr_div_pow2 by lia.
    rewrite (Z.mul_comm (2 ^ d)), Z.mod_add, Z.div_add by (apply Z.pow_nonzero; lia).
    rewrite Z.mod_small, (Z.div_small x), Z.add_0_l by lia.
    rewrite IH; [by rewrite <- app_assoc|done|lia|lia| |done|lia].
    intros Hlt. rewrite <- Hend by lia. f_equal. lia.
Qed.

Lemma pack_nonneg ws xs : Forall2 (fun w x => 0 <= x < 2 ^ w) ws xs -> 0 <= pack ws xs.
Proof.
  induction 1 as [|w x ws xs Hx _ IH]; simpl; [lia|].
  assert (0 <= 2 ^ w) by lia. nia.
Qed.

(** One word: what [encodeUnsigned] packs, [decodeUnsigned] unpacks. *)
Lemma word_roundtrip array idx k r directory out :
  directory !! k = Some r -> (k < 16)%nat -> row_ok r = true -> fits array (widths r) idx ->
  exists w, encodeUnsigned array idx (Z.of_nat (length (widths r))) (Z.of_nat k) directory = Ok w /\
    decodeUnsigned w out directory = Ok (out ++ slice array idx (length (widths r))).
Proof.
  intros Hk Hk16 Hrow Hf. destruct (row_ok_spec r Hrow) as (Hl & _ & Hsum & Hw).
  pose proof (row_from_widths r Hrow) as Hrf.
  assert (vec_at directory (Z.of_nat k) = Ok r) as Hv
    by (apply vec_at_nth; split; [lia|]; by rewrite Nat2Z.id).
  pose proof (fits_slice _ _ _ Hf) as Hsl.
  set (P := pack (widths r) (slice array idx (length (widths r)))).
  exists (Z.of_nat k + 2 ^ 4 * P). unfold encodeUnsigned. rewrite Hv. split.
  - destruct (Z.ltb_spec (Z.of_nat k) 16); [|lia]. cbn [negb rbind]. rewrite Nat2Z.id.
    rewrite encode_fields_pack; rewrite ?Z.add_0_r; try done; lia.
  - unfold decodeUnsigned, COMMAND_MASK, COMMAND_LEN.
    change (Z.shiftl 1 4 - 1) with (2 ^ 4 - 1). rewrite land_mask, Z.shiftr_div_pow2 by lia.
    rewrite (Z.mul_comm (2 ^ 4)), Z.mod_add, Z.div_add by lia.
    rewrite Z.mod_small, Z.div_small, Z.add_0_l by lia. rewrite Hv. cbn [rbind].
    apply decode_fields_pack; try done; try lia.
    intros Hlt. apply vec_at_nth. split; [lia|]. rewrite Z.add_0_l, Nat2Z.id.
    apply widths_end. lia.
Qed.

Lemma encode_from_spec directory array : directory_ok directory = true -> small array ->
  Z.of_nat (length array) < 2 ^ 32 ->
  forall fuel idx acc e, 0 <= idx <= Z.of_nat (length array) ->
  Z.of_nat (length array) - idx <= Z.of_nat fuel ->
  exists ws, encode_from fuel array directory idx acc = Ok (acc ++ ws) /\
    (forall out, decode ws out directory = Ok (out ++ drop (Z.to_nat idx) array)) /\
    Z.of_nat (length ws) <= Z.of_nat (length array) - idx /\
    (0 <= e -> e + Z.of_nat (length ws) < 2 ^ 32 ->
      size_from fuel array directory idx e = Ok (e + Z.of_nat (length ws))).
Proof.
  intros Hdir Hsm Hlen32. induction fuel as [|fuel IH]; intros idx acc e Hidx Hfuel;
    cbn [encode_from size_from]; destruct (Z.ltb_spec idx (Z.of_nat (length array))) as [Hlt|Hge]; try lia.
  1,3: exists []; rewrite app_nil_r; split; [done|]; split; [|split; [simpl; lia|intros; f_equal; simpl; lia]];
    intros out; rewrite drop_ge by lia; by rewrite app_nil_r.
  destruct (choose_row_spec array idx directory Hdir Hsm ltac:(lia))
    as (k & r & Hch & Hk & Hk16 & Hrow & Hf).
  destruct (row_ok_spec r Hrow) as (_ & _ & _ & Hw).
  set (n := length (widths r)) in *.
  assert (length (slice array idx n) = n) as Hsn by (symmetry; exact (Forall2_length _ _ _ (fits_slice _ _ _ Hf))).
  assert (idx + Z.of_nat n <= Z.of_nat (length array)) as Hn.
  { unfold slice in Hsn. rewrite length_take, length_drop in Hsn. lia. }
  rewrite Hch. cbn [rbind].
  destruct (word_roundtrip array idx k r directory [] Hk Hk16 Hrow Hf) as (w & Hw1 & _).
  fold n in Hw1. rewrite Hw1. cbn [rbind].
  rewrite (wrap_id 32 (idx + Z.of_nat n)) by (unfold is_uint; lia).
  destruct (IH (idx + Z.of_nat n) (acc ++ [w]) (e + 1) ltac:(lia) ltac:(lia)) as (ws & H1 & H2 & H3 & H4).
  exists (w :: ws). rewrite H1, <- app_assoc. split; [done|]. split; [|split].
  - intros out. cbn [decode].
    destruct (word_roundtrip array idx k r directory out Hk Hk16 Hrow Hf) as (w' & Hw1' & Hdec).
    fold n in Hw1', Hdec. rewrite Hw1 in Hw1'. injection Hw1' as <-.
    rewrite Hdec. cbn [rbind]. rewrite H2.
    f_equal. rewrite <- app_assoc. f_equal. unfold slice.
    replace (Z.to_nat (idx + Z.of_nat n)) with (Z.to_nat idx + n)%nat by lia.
    by rewrite <- drop_drop, take_drop.
  - cbn [length]. lia.
  - cbn [length]. intros He Hb. rewrite (wrap_id 32 (e + 1)) by (unfold is_uint; lia).
    rewrite H4 by lia. f_equal. lia.
Qed.

(** ** Properties *)

(** (C35) Lossless packing: for an array of numbers below 2^28, [encode] ends
    without a fault (in particular it never looks for a row past the end of the
    directory) and [decode] of the words gives back exactly the array; the words
    are never more than the numbers, and [getEncodeSize] predicts their number.
    This holds for both directories of S16.cpp. *)
Theorem encode_roundtrip (directory : list (list Z)) (array : list Z) :
  directory = small_directory \/ directory = big_directory ->
  small array -> Z.of_nat (length array) < 2 ^ 32 ->
  exists words, encode array directory = Ok words /\
    decode words [] directory = Ok array /\
    (length words <= length array)%nat /\
    getEncodeSize array directory = Ok (Z.of_nat (length words)).
Proof.
  intros Hdir Hsm Hlen.
  assert (directory_ok directory = true) as Hok by (destruct Hdir as [-> | ->]; apply directories_ok).
  destruct (encode_from_spec directory array Hok Hsm Hlen (length array) 0 [] 0)
    as (ws & H1 & H2 & H3 & H4); [lia|lia|].
  exists ws. split; [exact H1|]. split; [by rewrite H2|]. split; [lia|].
  unfold getEncodeSize. rewrite H4 by lia. done.
Qed.

Lemma encode_roundtrip_witness :
  exists words, encode [1; 2; 3; 70000; 268435455; 0] small_directory = Ok words /\
    decode words [] small_directory = Ok [1; 2; 3; 70000; 268435455; 0] /\
    (length words <= 6)%nat /\
    getEncodeSize [1; 2; 3; 70000; 268435455; 0] small_directory = Ok (Z.of_nat (length words)).
Proof.
  apply (encode_roundtrip small_directory [1; 2; 3; 70000; 268435455; 0]).
  - left. reflexivity.
  - repeat constructor; vm_compute; try reflexivity; discriminate.
  - vm_compute. reflexivity.
Defined.

(** ** Numbers that do not fit *)

(** The array [pre ++ x :: post], whose first large number is [x]. *)
Section Large.
Context (pre post : list Z) (x : Z) (Hpre : small pre) (Hx : 2 ^ 28 <= x < 2 ^ 32).
Let array := pre ++ x :: post.
Let place := Z.of_nat (length pre).
(** [byte] refuses what is negative as an int; otherwise no row takes the number. *)
Let fault := if x <? 2 ^ 31 then OutOfRange else AssertFailed.

Lemma large_length : place < Z.of_nat (length array).
Proof. unfold array, place. rewrite length_app. cbn [length]. lia. Qed.

Lemma large_at : vec_at array place = Ok x.
Proof. apply vec_at_nth. unfold place. split; [lia|]. rewrite Nat2Z.id. apply list_lookup_middle. done. Qed.

Lemma before_at i : 0 <= i < place -> exists y, vec_at array i = Ok y /\ vec_at pre i = Ok y /\ 0 <= y < 2 ^ 28.
Proof.
  intros Hi. destruct (vec_at_in pre i) as [y Hy]; [exact Hi|]. exists y. split; [|split; [done|by apply (small_at pre i)]].
  apply vec_at_nth in Hy as [H0 Hy]. apply vec_at_nth. split; [done|]. unfold array. by apply lookup_app_l_Some.
Qed.

Lemma byte_large : (x < 2 ^ 31 /\ exists b, byte x = Ok b /\ 28 < b) \/ (2 ^ 31 <= x /\ byte x = Err AssertFailed).
Proof.
  destruct (Z.lt_ge_cases x (2 ^ 31)) as [Hlt|Hge]; [left|right]; (split; [done|]).
  - destruct (byte_small x ltac:(lia)) as (b & Hb & Hb1 & Hiff). exists b. split; [done|].
    destruct (Z.lt_ge_cases 28 b) as [|H]; [done|]. apply Hiff in H; lia.
  - assert (int32 x = x - 2 ^ 32) as E.
    { unfold swrap, wrap. rewrite Z.mod_small by lia. change (32 - 1) with 31. cbv zeta. by rewrite (proj2 (Z.ltb_ge x (2 ^ 31))). }
    unfold byte. cbv zeta. rewrite E. by rewrite (proj2 (Z.ltb_lt _ _)) by lia.
Qed.

Lemma width_at_most row (col : nat) d : row_ok row = true -> widths row !! col = Some d -> 0 < d <= 28.
Proof.
  intros Hrow Hd. destruct (row_ok_spec row Hrow) as (_ & Hpos & Hsum & _). split; [by apply (Hpos col)|].
  enough (forall l (i : nat), (forall j e, l !! j = Some e -> 0 < e) -> l !! i = Some d -> d <= foldr Z.add 0 l) as He by (specialize (He _ _ Hpos Hd); lia).
  clear. induction l as [|e l IH]; intros [|i] Hl Hi; try done; cbn [foldr].
  - injection Hi as ->. assert (0 <= foldr Z.add 0 l); [|lia]. assert (forall j e, l !! j = Some e -> 0 < e) as Hl' by (intros j; apply (Hl (S j))).
    clear -Hl'. induction l as [|e l IH]; cbn [foldr]; [lia|]. pose proof (Hl' 0%nat e eq_refl). specialize (IH (fun j => Hl' (S j))). lia.
  - specialize (IH i (fun j => Hl (S j)) Hi). pose proof (Hl 0%nat e eq_refl). lia.
Qed.

(** The loop faults at a number that is negative as an int. *)
Lemma column_asserts fuel idx row (col : nat) d temp : 2 ^ 31 <= x -> (col < 14)%nat -> idx + Z.of_nat col = place -> row !! col = Some d -> 0 < d ->
  temp_ok array idx temp -> try_columns (S fuel) array idx row (Z.of_nat col) temp = Err AssertFailed.
Proof.
  intros H31 Hcol Hi Hrow Hd [Htl Ht]. destruct byte_large as [[? _]|[_ Hbyte]]; [lia|].
  cbn [try_columns]. unfold MAX_COL. destruct (Z.ltb_spec (Z.of_nat col) 14); [|lia].
  assert (vec_at row (Z.of_nat col) = Ok d) as -> by (apply vec_at_nth; split; [lia|]; by rewrite Nat2Z.id).
  cbn [rbind andb]. destruct (Z.eqb_spec d NULL_NUMBER) as [->|_]; [done|]. cbn [negb].
  destruct (lookup_lt_is_Some_2 temp col) as [t Htc]; [lia|].
  assert (vec_at temp (Z.of_nat col) = Ok t) as -> by (apply vec_at_nth; split; [lia|]; by rewrite Nat2Z.id).
  cbn [rbind]. destruct (Z.eqb_spec t NULL_NUMBER) as [->|Ht0].
  - rewrite Hi. rewrite (proj2 (Z.ltb_lt _ _)) by exact large_length. rewrite large_at. cbn [rbind]. by rewrite Hbyte.
  - destruct (Ht col t Htc Ht0) as (y & Hy & Hb). rewrite Hi, large_at in Hy. injection Hy as <-. congruence.
Qed.

(** One row: it takes numbers before the large one, or it does not fit, or the loop
    meets the large number and faults. *)
Lemma try_columns_large idx row : row_ok row = true -> 0 <= idx <= place -> forall n e col temp,
  (n + col = length (widths row))%nat -> idx + Z.of_nat col <= place -> temp_ok array idx temp ->
  (exists c temp', try_columns (S (n + e)) array idx row (Z.of_nat col) temp = Ok (false, c, temp') /\ temp_ok array idx temp' /\
    ~ fits array (drop col (widths row)) (idx + Z.of_nat col)) \/
  (exists temp', try_columns (S (n + e)) array idx row (Z.of_nat col) temp = Ok (true, Z.of_nat (length (widths row)), temp') /\
    fits array (drop col (widths row)) (idx + Z.of_nat col) /\ idx + Z.of_nat (length (widths row)) <= place) \/
  (2 ^ 31 <= x /\ try_columns (S (n + e)) array idx row (Z.of_nat col) temp = Err AssertFailed).
Proof.
  intros Hrow Hidx. destruct (row_ok_spec row Hrow) as (Hl & Hpos & Hsum & Hlw).
  induction n as [|n IH]; intros e col temp Hn Hcol Htemp.
  - right. left. simpl in Hn. subst col. cbn [try_columns Nat.add]. rewrite drop_all. cbn [fits].
    unfold MAX_COL. destruct (Z.ltb_spec (Z.of_nat (length (widths row))) 14) as [Hlt|Hge]; [|by exists temp].
    assert (vec_at row (Z.of_nat (length (widths row))) = Ok 0) as ->; [|by exists temp].
    apply vec_at_nth. split; [lia|]. rewrite Nat2Z.id. apply widths_end. lia.
  - destruct (lookup_lt_is_Some_2 (widths row) col) as [d Hd]; [lia|].
    destruct (widths_lookup _ _ _ Hd) as [Hrd _]. pose proof (width_at_most row col d Hrow Hd) as Hd28.
    rewrite (drop_S _ _ _ Hd). cbn [fits]. destruct (Z.le_gt_cases (2 ^ 31) x) as [H31|H31]; [destruct (Z.eq_dec (idx + Z.of_nat col) place) as [E|E]|].
    { right. right. split; [done|]. by apply (column_asserts _ idx row col d); [|lia|..|lia|]. }
    all: destruct (try_columns_step (S n + e) array idx row col d temp)
      as [(c & temp' & -> & Htemp' & Hno)|(temp' & -> & Htemp' & Hyes)]; try done; try lia.
    1,4: intros y Hy; destruct (Z.eq_dec (idx + Z.of_nat col) place) as [E'|E']; [rewrite E', large_at in Hy; injection Hy as <-; lia|];
      destruct (before_at (idx + Z.of_nat col)) as (y' & Hy' & _ & Hb); [lia|]; rewrite Hy in Hy'; injection Hy' as <-; lia.
    1,3: left; exists c, temp'; tauto.
    all: assert (idx + Z.of_nat col <> place) as Hne by
      (intros E'; destruct Hyes as (y & Hy & Hyd); rewrite E', large_at in Hy; injection Hy as <-;
       assert (2 ^ d <= 2 ^ 28) by (apply Z.pow_le_mono_r; lia); lia).
    all: destruct (IH e (S col) temp') as [(c & temp2 & H1 & H2 & H3)|[(temp2 & H1 & H2 & H3)|H1]]; [lia|lia|done|..];
      replace (idx + Z.of_nat (S col)) with (idx + Z.of_nat col + 1) in * by lia.
    all: first [by right; right|right; left; by exists temp2|left; exists c, temp2; tauto].
Qed.

Section Directory.
Context (directory : list (list Z)) (Hdir : directory_ok directory = true).

Lemma directory_rows : (length directory <= 16)%nat /\ (forall k r, directory !! k = Some r -> row_ok r = true) /\ exists j r, directory !! j = Some r /\ widths r = [28].
Proof.
  unfold directory_ok in Hdir. rewrite !andb_true_iff, Nat.leb_le, forallb_forall, existsb_exists in Hdir. destruct Hdir as [[Hlen Hrows] (r & Hin & H28)].
  split; [done|]. split; [intros k r' Hk; apply Hrows, list_elem_of_In, list_elem_of_lookup; eauto|]. apply bool_decide_eq_true in H28.
  apply list_elem_of_In, list_elem_of_lookup in Hin as [j Hj]. by exists j, r.
Qed.

(** The step of [choose_row] at a row of the directory. *)
Lemma row_large idx (k : nat) r temp : directory !! k = Some r -> 0 <= idx <= place -> temp_ok array idx temp ->
  (exists temp', choose_row (17 - k) array idx directory (Z.of_nat k) temp = choose_row (17 - S k) array idx directory (Z.of_nat (S k)) temp' /\
    temp_ok array idx temp' /\ ~ fits array (widths r) idx) \/
  (choose_row (17 - k) array idx directory (Z.of_nat k) temp = Ok (Z.of_nat k, Z.of_nat (length (widths r))) /\
    fits array (widths r) idx /\ idx + Z.of_nat (length (widths r)) <= place) \/
  (2 ^ 31 <= x /\ choose_row (17 - k) array idx directory (Z.of_nat k) temp = Err AssertFailed).
Proof.
  intros Hr Hidx Htemp. destruct directory_rows as (Hlen & Hrows & _). pose proof (lookup_lt_Some _ _ _ Hr). pose proof (Hrows k r Hr) as Hrow.
  destruct (row_ok_spec r Hrow) as (_ & _ & _ & Hw). replace (17 - k)%nat with (S (17 - S k)) by lia. cbn [choose_row].
  assert (vec_at directory (Z.of_nat k) = Ok r) as -> by (apply vec_at_nth; split; [lia|]; by rewrite Nat2Z.id). cbn [rbind].
  pose proof (try_columns_large idx r Hrow Hidx (length (widths r)) (14 - length (widths r)) 0 temp ltac:(lia) ltac:(lia) Htemp) as Htc.
  replace (S (length (widths r) + (14 - length (widths r)))) with 15%nat in Htc by lia. change (Z.of_nat 0) with 0 in Htc. rewrite drop_0, Z.add_0_r in Htc.
  destruct Htc as [(c & temp' & -> & Ht & Hno)|[(temp' & -> & Hf & Hle)|[H31 ->]]]; cbn [rbind].
  - left. exists temp'. split; [|done]. f_equal. lia.
  - right. by left.
  - by right; right.
Qed.

Lemma choose_row_before idx : 0 <= idx < place ->
  (exists (k : nat) r, choose_row 17 array idx directory 0 zero_temp = Ok (Z.of_nat k, Z.of_nat (length (widths r))) /\
    directory !! k = Some r /\ fits array (widths r) idx /\ idx + Z.of_nat (length (widths r)) <= place) \/
  (2 ^ 31 <= x /\ choose_row 17 array idx directory 0 zero_temp = Err AssertFailed).
Proof.
  intros Hidx. destruct directory_rows as (Hlen & Hrows & j & r28 & Hj & H28). pose proof (lookup_lt_Some _ _ _ Hj) as Hjlt.
  assert (forall n k temp, (k + n = j)%nat -> temp_ok array idx temp ->
    (exists (k' : nat) r, choose_row (17 - k) array idx directory (Z.of_nat k) temp = Ok (Z.of_nat k', Z.of_nat (length (widths r))) /\
      directory !! k' = Some r /\ fits array (widths r) idx /\ idx + Z.of_nat (length (widths r)) <= place) \/
    (2 ^ 31 <= x /\ choose_row (17 - k) array idx directory (Z.of_nat k) temp = Err AssertFailed)) as Hgen;
    [|exact (Hgen j 0%nat zero_temp eq_refl (zero_temp_ok _ _))].
  induction n as [|n IH]; intros k temp Hk Htemp; (destruct (lookup_lt_is_Some_2 directory k) as [r Hr]; [lia|]);
    destruct (row_large idx k r temp Hr ltac:(lia) Htemp) as [(temp' & -> & Ht & Hno)|[(-> & Hf & Hle)|H31]];
    try (by right); try (left; by exists k, r).
  - exfalso. apply Hno. assert (k = j) as -> by lia. rewrite Hj in Hr. injection Hr as <-. rewrite H28. cbn [fits]. split; [|done].
    destruct (before_at idx Hidx) as (y & Hy & _ & Hb). by exists y.
  - apply (IH (S k) temp'); [lia|done].
Qed.

Lemma choose_row_at : choose_row 17 array place directory 0 zero_temp = Err fault.
Proof.
  destruct directory_rows as (Hlen & Hrows & j & r28 & Hj & _). pose proof (lookup_lt_Some _ _ _ Hj) as Hjlt. assert (0 <= place) as H0 by (unfold place; lia). unfold fault.
  assert (forall (k : nat) r temp, directory !! k = Some r -> temp_ok array place temp ->
    (x < 2 ^ 31 /\ exists temp', choose_row (17 - k) array place directory (Z.of_nat k) temp = choose_row (17 - S k) array place directory (Z.of_nat (S k)) temp' /\ temp_ok array place temp') \/
    (2 ^ 31 <= x /\ choose_row (17 - k) array place directory (Z.of_nat k) temp = Err AssertFailed)) as Hstep.
  { intros k r temp Hr Htemp. destruct (row_ok_spec r (Hrows k r Hr)) as (_ & _ & _ & Hw).
    destruct (Z.lt_ge_cases x (2 ^ 31)) as [H31|H31]; [left|right]; (split; [done|]).
    - destruct (row_large place k r temp Hr ltac:(lia) Htemp) as [(temp' & E & Ht & _)|[(_ & _ & Hle)|[? _]]]; [by exists temp'|lia|lia].
    - pose proof (lookup_lt_Some _ _ _ Hr). replace (17 - k)%nat with (S (16 - k)) by lia. cbn [choose_row].
      assert (vec_at directory (Z.of_nat k) = Ok r) as -> by (apply vec_at_nth; split; [lia|]; by rewrite Nat2Z.id). cbn [rbind].
      destruct (lookup_lt_is_Some_2 (widths r) 0) as [d Hd]; [lia|]. pose proof (width_at_most r 0 d (Hrows k r Hr) Hd). destruct (widths_lookup _ _ _ Hd) as [Hrd _].
      change 0 with (Z.of_nat 0). rewrite (column_asserts 14 place r 0 d temp); try done; lia. }
  destruct (Z.ltb_spec x (2 ^ 31)) as [H31|H31].
  - assert (forall n k temp, (k + n = length directory)%nat -> temp_ok array place temp -> choose_row (17 - k) array place directory (Z.of_nat k) temp = Err OutOfRange) as Hgen;
      [|exact (Hgen (length directory) 0%nat zero_temp eq_refl (zero_temp_ok _ _))].
    induction n as [|n IH]; intros k temp Hk Htemp.
    + replace (17 - k)%nat with (S (16 - k)) by lia. cbn [choose_row]. unfold vec_at. destruct (Z.ltb_spec (Z.of_nat k) 0); [lia|]. rewrite Nat2Z.id, lookup_ge_None_2 by lia. done.
    + destruct (lookup_lt_is_Some_2 directory k) as [r Hr]; [lia|]. destruct (Hstep k r temp Hr Htemp) as [(_ & temp' & -> & Ht)|[? _]]; [|lia]. apply IH; [lia|done].
  - destruct (lookup_lt_is_Some_2 directory 0) as [r Hr]; [lia|]. by destruct (Hstep 0%nat r zero_temp Hr (zero_temp_ok _ _)) as [[? _]|[_ E]]; [lia|].
Qed.

(** Both loops come to the large number, or meet it earlier, and fault. *)
Lemma encode_from_large : Z.of_nat (length array) < 2 ^ 32 -> forall fuel idx acc e, 0 <= idx <= place -> Z.of_nat (length array) - idx <= Z.of_nat fuel ->
  encode_from fuel array directory idx acc = Err fault /\ size_from fuel array directory idx e = Err fault.
Proof.
  intros Hlen. pose proof large_length as Hpl. induction fuel as [|fuel IH]; intros idx acc e Hidx Hfuel; [lia|].
  cbn [encode_from size_from]. rewrite (proj2 (Z.ltb_lt _ _)) by lia. destruct (Z.eq_dec idx place) as [->|Hne]; [by rewrite choose_row_at|].
  destruct (choose_row_before idx ltac:(lia)) as [(k & r & -> & Hk & Hf & Hle)|[H31 ->]]; cbn [rbind].
  2: { unfold fault. by destruct (Z.ltb_spec x (2 ^ 31)); [lia|]. }
  destruct directory_rows as (Hdl & Hrows & _). pose proof (lookup_lt_Some _ _ _ Hk) as Hklt. destruct (row_ok_spec r (Hrows k r Hk)) as (_ & _ & _ & Hw).
  destruct (word_roundtrip array idx k r directory [] Hk ltac:(lia) (Hrows k r Hk) Hf) as (w & -> & _). cbn [rbind].
  rewrite (wrap_id 32 (idx + Z.of_nat (length (widths r)))) by (unfold is_uint; lia).
  destruct (IH (idx + Z.of_nat (length (widths r))) (acc ++ [w]) (wrap32 (e + 1)) ltac:(lia) ltac:(lia)) as [H1 H2]. by split.
Qed.
End Directory.
End Large.

(** (C38) The bound 2^28 is sharp wherever a larger number stands, in both directories:
    [encode] and [getEncodeSize] never give a result for an array with a number of 2^28
    or more.  If the first such number has at most 31 bits no row takes it, and they run
    past the end of the directory; if it is negative as an int, the assertion of
    [byte] fails. *)
Theorem encode_overflow (directory : list (list Z)) (pre post : list Z) (x : Z) :
  directory = small_directory \/ directory = big_directory ->
  small pre -> 2 ^ 28 <= x < 2 ^ 32 -> Z.of_nat (length (pre ++ x :: post)) < 2 ^ 32 ->
  let fault := if x <? 2 ^ 31 then OutOfRange else AssertFailed in
  encode (pre ++ x :: post) directory = Err fault /\ getEncodeSize (pre ++ x :: post) directory = Err fault.
Proof.
  intros Hdir Hpre Hx Hlen fault.
  assert (directory_ok directory = true) as Hok by (destruct Hdir as [-> | ->]; apply directories_ok).
  apply (encode_from_large pre post x Hpre Hx directory Hok Hlen); lia.
Qed.

Lemma encode_overflow_witness :
  encode [1; 2; 2 ^ 28; 2 ^ 31] small_directory = Err OutOfRange /\ getEncodeSize [1; 2; 2 ^ 28; 2 ^ 31] small_directory = Err OutOfRange.
Proof.
  apply (encode_overflow small_directory [1; 2] [2 ^ 31] (2 ^ 28)).
  - left. reflexivity.
  - repeat constructor; vm_compute; try reflexivity; discriminate.
  - lia.
  - vm_compute. reflexivity.
Defined.

End S16.
