(* ===== verification/BitSet.v ===== *)
(** * Resizable bit sets and their iterator (core/util/BitSet.h, BitSetIterator.h, BitSetIterator.cpp)

    A bit set is an array of 64-bit words; the iterator walks over its set bits
    a byte at a time, through the table [bitList] that lists the bits of a byte
    as nibbles. *)
From Stdlib Require Import ZArith Lia List Bool Sorted.
From stdpp Require Import base list.
From S2P Require Import Prelude.

Open Scope Z_scope.

Module BitSet.

Record bitset := mk_bitset {
  bits : option (list Z);   (* None: the NULL pointer *)
  numBits : Z;
  wordLength : Z }.

Definition new_empty : bitset := mk_bitset None 0 0.

(** the number of 64-bit words to store a given number of bits *)
Definition getWordNumberForBits (n : Z) : Z :=
  let wordNumber := Z.shiftr n 6 in
  if negb (Z.land n 0x3f =? 0) then wordNumber + 1 else wordNumber.

(** [BitSet(int)]: the words of [new uint64_t[wordLength]] are not initialised;
    [garbage] is what the allocator hands out. *)
Definition new_sized (n : Z) (garbage : list Z) : result bitset :=
  if n <? 0 then Err AssertFailed else
  let w := getWordNumberForBits n in
  Ok (mk_bitset (Some (take (Z.to_nat w) garbage)) n w).

(** [BitSet(uint64_t*, int)] *)
Definition new_stored (storedBits : list Z) (n : Z) : result bitset :=
  if n <? 0 then Err AssertFailed else
  Ok (mk_bitset (Some storedBits) n (getWordNumberForBits n)).

(** [memcpy(dst, src, n)] on arrays of words, [n] counting bytes (little-endian);
    [n] bytes must exist on both sides. *)
Fixpoint copy_bytes (n : Z) (dst src : list Z) : list Z :=
  match dst, src with
  | d :: dst', s :: src' =>
    if n <=? 0 then d :: dst'
    else if 8 <=? n then s :: copy_bytes (n - 8) dst' src'
    else (s mod 2 ^ (8 * n) + Z.shiftl (Z.shiftr d (8 * n)) (8 * n)) :: dst'
  | _, _ => dst
  end.

Definition memcpy (dst src : list Z) (n : Z) : result (list Z) :=
  if (n <=? 8 * Z.of_nat (length dst)) && (n <=? 8 * Z.of_nat (length src))
  then Ok (copy_bytes n dst src) else Err OutOfRange.

(** The copy constructor: [memcpy(bits, other.bits, other.wordLength)]. *)
Definition copy (other : bitset) (garbage : list Z) : result bitset :=
  let fresh := take (Z.to_nat (wordLength other)) garbage in
  match bits other with
  | None => if wordLength other =? 0 then Ok (mk_bitset (Some fresh) (numBits other) (wordLength other))
            else Err NullDeref
  | Some b =>
    let? b' := memcpy fresh b (wordLength other) in
    Ok (mk_bitset (Some b') (numBits other) (wordLength other))
  end.

(** [resize]: the new words are zeroed, then [memcpy(newBits, bits, wordLength)]. *)
Definition resize (b : bitset) (n : Z) : result bitset :=
  if n <? 0 then Err AssertFailed else
  let w := getWordNumberForBits n in
  let newBits := replicate (Z.to_nat w) 0 in
  let? newBits := match bits b with
                  | None => Ok newBits
                  | Some old => memcpy newBits old w
                  end in
  Ok (mk_bitset (Some newBits) n w).

(** The word an index lies in and its mask, after [ASSERT(index >= 0 && index < numBits)]. *)
Definition locate (b : bitset) (index : Z) : result (list Z * Z * Z) :=
  if (0 <=? index) && (index <? numBits b) then
    let? words := of_option NullDeref (bits b) in
    Ok (words, Z.shiftr index 6, Z.shiftl 1 (Z.land index 0x3f))
  else Err AssertFailed.

Definition get (b : bitset) (index : Z) : result bool :=
  let? (words, wordNum, bitmask) := locate b index in
  let? w := vec_at words wordNum in
  Ok (negb (Z.land w bitmask =? 0)).

Definition with_word (b : bitset) (words : list Z) (wordNum w : Z) : result bitset :=
  let? words := vec_set words wordNum w in
  Ok (mk_bitset (Some words) (numBits b) (wordLength b)).

Definition set (b : bitset) (index : Z) : result bitset :=
  let? (words, wordNum, bitmask) := locate b index in
  let? w := vec_at words wordNum in
  with_word b words wordNum (Z.lor w bitmask).

Definition getAndSet (b : bitset) (index : Z) : result (bool * bitset) :=
  let? (words, wordNum, bitmask) := locate b index in
  let? w := vec_at words wordNum in
  let val := negb (Z.land w bitmask =? 0) in
  let? b := with_word b words wordNum (Z.lor w bitmask) in
  Ok (val, b).

(** [~bitmask] on 64 bits. *)
Definition not64 (m : Z) : Z := Z.lxor m (2 ^ 64 - 1).

Definition clear (b : bitset) (index : Z) : result bitset :=
  let? (words, wordNum, bitmask) := locate b index in
  let? w := vec_at words wordNum in
  with_word b words wordNum (Z.land w (not64 bitmask)).

Definition getAndClear (b : bitset) (index : Z) : result (bool * bitset) :=
  let? (words, wordNum, bitmask) := locate b index in
  let? w := vec_at words wordNum in
  let val := negb (Z.land w bitmask =? 0) in
  let? b := with_word b words wordNum (Z.land w (not64 bitmask)) in
  Ok (val, b).

(** ** Well-formed sets and the bits they hold *)

Definition wf (b : bitset) : Prop :=
  0 <= numBits b /\ wordLength b = getWordNumberForBits (numBits b) /\
  exists ws, bits b = Some ws /\ Z.of_nat (length ws) = wordLength b /\ Forall is_u64 ws.

(** Bit [j] of an array of words. *)
Definition bit_of (ws : list Z) (j : Z) : bool :=
  match ws !! Z.to_nat (j / 64) with Some w => Z.testbit w (j mod 64) | None => false end.

Definition mem (b : bitset) (j : Z) : bool :=
  match bits b with Some ws => bit_of ws j | None => false end.

Lemma shiftr_6 j : Z.shiftr j 6 = j / 64.
Proof. exact (Z.shiftr_div_pow2 j 6 ltac:(lia)). Qed.

Lemma land_3f j : Z.land j 0x3f = j mod 64.
Proof. exact (land_mask j 6 ltac:(lia)). Qed.

Lemma getWordNumberForBits_ceil n : 0 <= n -> getWordNumberForBits n = (n + 63) / 64.
Proof.
  intros Hn. unfold getWordNumberForBits. rewrite shiftr_6, land_3f.
  destruct (Z.eqb_spec (n mod 64) 0); simpl; dlia.
Qed.

Lemma wf_word b j : wf b -> 0 <= j < numBits b ->
  exists ws w, bits b = Some ws /\ locate b j = Ok (ws, j / 64, 2 ^ (j mod 64)) /\
    ws !! Z.to_nat (j / 64) = Some w /\ vec_at ws (j / 64) = Ok w /\
    0 <= j / 64 < Z.of_nat (length ws).
Proof.
  intros (Hn & Hw & ws & Hb & Hl & Hu) Hj. exists ws.
  rewrite getWordNumberForBits_ceil in Hw by done.
  assert (0 <= j / 64 < Z.of_nat (length ws)) as Hin by dlia.
  destruct (lookup_lt_is_Some_2 ws (Z.to_nat (j / 64))) as [w Hww]; [lia|]. exists w.
  split; [done|]. unfold locate. rewrite Hb. destruct (Z.leb_spec 0 j); [|lia].
  destruct (Z.ltb_spec j (numBits b)); [|lia]. cbn [andb rbind of_option].
  rewrite shiftr_6, land_3f, Z.shiftl_1_l. split; [done|]. split; [done|].
  split; [apply vec_at_nth; split; [lia|done]|done].
Qed.

Lemma mask_test w k : 0 <= k -> negb (Z.land w (2 ^ k) =? 0) = Z.testbit w k.
Proof.
  intros Hk. assert (Z.land w (2 ^ k) = if Z.testbit w k then 2 ^ k else 0) as ->.
  { apply Z.bits_inj'. intros m Hm. rewrite Z.land_spec, Z.pow2_bits_eqb by lia.
    destruct (Z.eqb_spec k m) as [<-|Hne].
    - destruct (Z.testbit w k); [rewrite Z.pow2_bits_true by lia|rewrite Z.bits_0]; done.
    - rewrite andb_false_r. destruct (Z.testbit w k); [|by rewrite Z.bits_0].
      symmetry. apply Z.pow2_bits_false. lia. }
  destruct (Z.testbit w k); [|done]. apply negb_true_iff, Z.eqb_neq. lia.
Qed.

(** [get] reads the bit of the mathematical set. *)
Lemma get_mem b j : wf b -> 0 <= j < numBits b -> get b j = Ok (mem b j).
Proof.
  intros Hwf Hj. destruct (wf_word b j Hwf Hj) as (ws & w & Hb & Hloc & Hw & Hv & Hin).
  unfold get, mem, bit_of. rewrite Hloc, Hb, Hw. cbn [rbind]. rewrite Hv. cbn [rbind].
  rewrite mask_test by (apply Z.mod_pos_bound; lia). done.
Qed.

Lemma u64_bits w : 0 <= w -> is_u64 w <-> forall m, 64 <= m -> Z.testbit w m = false.
Proof.
  intros Hw. unfold is_uint. split.
  - intros [_ Hlt] m Hm. apply (testbit_above w 64); lia.
  - intros H. split; [done|]. destruct (Z.lt_ge_cases w (2 ^ 64)) as [|Hge]; [done|].
    assert (0 < w) by lia. assert (64 <= Z.log2 w) by (apply Z.log2_le_pow2; lia).
    specialize (H (Z.log2 w) ltac:(done)). by rewrite Z.bit_log2 in H.
Qed.

(** Replacing one word by a word that differs in one bit changes that bit of
    the set and no other. *)
Lemma with_word_mem b ws j w w' (v : bool) :
  wf b -> bits b = Some ws -> 0 <= j < numBits b ->
  ws !! Z.to_nat (j / 64) = Some w -> 0 <= j / 64 < Z.of_nat (length ws) ->
  is_u64 w' ->
  (forall m, 0 <= m < 64 -> Z.testbit w' m = if m =? j mod 64 then v else Z.testbit w m) ->
  exists b', with_word b ws (j / 64) w' = Ok b' /\ wf b' /\ numBits b' = numBits b /\
    forall m, 0 <= m -> mem b' m = if m =? j then v else mem b m.
Proof.
  intros (Hn & Hwl & ws0 & Hb0 & Hl & Hu) Hb Hj Hw Hin Hw' Hbits.
  rewrite Hb in Hb0. injection Hb0 as <-.
  unfold with_word. rewrite (proj2 (vec_set_Ok ws (j / 64) w' _) (conj Hin eq_refl)).
  cbn [rbind]. eexists. split; [reflexivity|]. split; [|split; [done|]].
  - split; [done|]. split; [done|]. eexists. split; [reflexivity|]. cbn.
    rewrite length_insert. split; [done|]. by apply Forall_insert.
  - intros m Hm. unfold mem, bit_of. cbn. rewrite Hb.
    destruct (decide (m / 64 = j / 64)) as [E|Hne].
    + rewrite E, list_lookup_insert_eq, Hw by lia. rewrite Hbits by (apply Z.mod_pos_bound; lia).
      destruct (Z.eqb_spec (m mod 64) (j mod 64)), (Z.eqb_spec m j); try done; dlia.
    + rewrite list_lookup_insert_ne by dlia. destruct (Z.eqb_spec m j); [congruence|done].
Qed.

Lemma set_bits w k m : 0 <= k -> 0 <= m ->
  Z.testbit (Z.lor w (2 ^ k)) m = if m =? k then true else Z.testbit w m.
Proof.
  intros Hk Hm. rewrite Z.lor_spec, Z.pow2_bits_eqb by lia. rewrite (Z.eqb_sym k m).
  destruct (m =? k); [apply orb_true_r|apply orb_false_r].
Qed.

Lemma clear_bits w k m : 0 <= k -> 0 <= m < 64 ->
  Z.testbit (Z.land w (not64 (2 ^ k))) m = if m =? k then false else Z.testbit w m.
Proof.
  intros Hk Hm. unfold not64. rewrite Z.land_spec, Z.lxor_spec, Z.pow2_bits_eqb by lia.
  assert (Z.testbit (2 ^ 64 - 1) m = true) as ->.
  { rewrite Z.sub_1_r, <- Z.ones_equiv. apply Z.ones_spec_low. lia. }
  rewrite (Z.eqb_sym k m). destruct (m =? k); [apply andb_false_r|apply andb_true_r].
Qed.

Lemma set_u64 w k : is_u64 w -> 0 <= k < 64 -> is_u64 (Z.lor w (2 ^ k)).
Proof.
  intros Hw Hk. assert (0 <= w) by (unfold is_uint in Hw; lia).
  apply u64_bits; [apply Z.lor_nonneg; split; [done|lia]|]. intros m Hm.
  rewrite set_bits by lia. destruct (Z.eqb_spec m k); [lia|]. by apply u64_bits.
Qed.

Lemma clear_u64 w x : is_u64 w -> is_u64 (Z.land w x).
Proof.
  intros Hw. assert (0 <= w) by (unfold is_uint in Hw; lia).
  apply u64_bits; [apply Z.land_nonneg; by left|]. intros m Hm.
  rewrite Z.land_spec. apply (proj1 (u64_bits w ltac:(lia)) Hw) in Hm. by rewrite Hm.
Qed.

Lemma wf_u64 b ws k w : wf b -> bits b = Some ws -> ws !! k = Some w -> is_u64 w.
Proof.
  intros (_ & _ & ws' & Hb & _ & Hu) Hb' Hk. rewrite Hb in Hb'. injection Hb' as ->.
  rewrite Forall_lookup in Hu. eauto.
Qed.

(** What one of the four mutators does to the set: it returns the old bit (when
    it returns something), writes [v] at [index] and keeps everything else. *)
Definition writes (b b' : bitset) (index : Z) (v : bool) : Prop :=
  wf b' /\ numBits b' = numBits b /\
  forall m, 0 <= m < numBits b -> get b' m = Ok (if m =? index then v else mem b m).

Lemma writes_intro b b' index v :
  wf b' -> numBits b' = numBits b ->
  (forall m, 0 <= m -> mem b' m = if m =? index then v else mem b m) -> writes b b' index v.
Proof.
  intros Hwf Hn Hm. split; [done|]. split; [done|]. intros m Hr.
  rewrite get_mem by (try done; by rewrite Hn). by rewrite Hm by lia.
Qed.

(** Bit sets behave as mathematical sets: on every index inside the bounds
    the five accessors succeed, [set]/[getAndSet] add exactly that index,
    [clear]/[getAndClear] remove exactly it, the last two also return whether it
    was there, and every other bit reads as before. *)
Theorem bitset_operations (b : bitset) (index : Z) :
  wf b -> 0 <= index < numBits b ->
  get b index = Ok (mem b index) /\
  (exists b', set b index = Ok b' /\ writes b b' index true) /\
  (exists b', getAndSet b index = Ok (mem b index, b') /\ writes b b' index true) /\
  (exists b', clear b index = Ok b' /\ writes b b' index false) /\
  (exists b', getAndClear b index = Ok (mem b index, b') /\ writes b b' index false).
Proof.
  intros Hwf Hi. pose proof (get_mem b index Hwf Hi) as Hget. split; [done|].
  destruct (wf_word b index Hwf Hi) as (ws & w & Hb & Hloc & Hw & Hv & Hin).
  pose proof (wf_u64 _ _ _ _ Hwf Hb Hw) as Hu.
  assert (0 <= index mod 64 < 64) as Hk by (apply Z.mod_pos_bound; lia).
  assert (mem b index = negb (Z.land w (2 ^ (index mod 64)) =? 0)) as Hold.
  { rewrite mask_test by lia. unfold mem, bit_of. by rewrite Hb, Hw. }
  destruct (with_word_mem b ws index w (Z.lor w (2 ^ (index mod 64))) true Hwf Hb Hi Hw Hin)
    as (bs & Hs & Hswf & Hsn & Hsm); [by apply set_u64|intros; apply set_bits; lia|].
  destruct (with_word_mem b ws index w (Z.land w (not64 (2 ^ (index mod 64)))) false Hwf Hb Hi Hw Hin)
    as (bc & Hc & Hcwf & Hcn & Hcm); [by apply clear_u64|intros; apply clear_bits; lia|].
  pose proof (writes_intro b bs index true Hswf Hsn Hsm).
  pose proof (writes_intro b bc index false Hcwf Hcn Hcm).
  unfold set, getAndSet, clear, getAndClear. rewrite Hloc, Hold. cbn [rbind]. rewrite Hv.
  cbn [rbind]. rewrite Hs, Hc. cbn [rbind]. repeat split; eexists; split; done || reflexivity.
Qed.

Lemma bitset_operations_witness :
  exists b, new_stored [5; 0] 100 = Ok b /\
    get b 66 = Ok (mem b 66) /\
    (exists b', set b 66 = Ok b' /\ writes b b' 66 true) /\
    (exists b', getAndSet b 66 = Ok (mem b 66, b') /\ writes b b' 66 true) /\
    (exists b', clear b 66 = Ok b' /\ writes b b' 66 false) /\
    (exists b', getAndClear b 66 = Ok (mem b 66, b') /\ writes b b' 66 false).
Proof.
  exists (mk_bitset (Some [5; 0]) 100 2). split; [reflexivity|].
  apply (bitset_operations (mk_bitset (Some [5; 0]) 100 2) 66).
  - split; [simpl; lia|]. split; [reflexivity|]. exists [5; 0].
    split; [reflexivity|]. split; [reflexivity|].
    repeat constructor; vm_compute; try reflexivity; discriminate.
  - simpl. lia.
Defined.

Lemma bit_of_cons w ws j : 0 <= j ->
  bit_of (w :: ws) j = if j <? 64 then Z.testbit w j else bit_of ws (j - 64).
Proof.
  intros Hj. unfold bit_of. destruct (Z.ltb_spec j 64).
  - rewrite Z.div_small, Z.mod_small by lia. done.
  - replace (Z.to_nat (j / 64)) with (S (Z.to_nat ((j - 64) / 64))) by dlia. cbn.
    replace ((j - 64) mod 64) with (j mod 64) by dlia. done.
Qed.

(** A word whose low [k] bits come from [s] and whose other bits come from [d]. *)
Lemma splice_bits s d k m : 0 <= k -> 0 <= m ->
  Z.testbit (s mod 2 ^ k + Z.shiftl (Z.shiftr d k) k) m =
  if m <? k then Z.testbit s m else Z.testbit d m.
Proof.
  intros Hk Hm. rewrite Z.shiftl_mul_pow2 by done.
  rewrite <- (lor_shiftl_add _ _ k) by
    (try done; apply Z.mod_pos_bound, Z.pow_pos_nonneg; lia).
  rewrite Z.lor_spec, Z.shiftl_spec by lia. destruct (Z.ltb_spec m k).
  - rewrite Z.mod_pow2_bits_low, (Z.testbit_neg_r _ (m - k)) by lia. apply orb_false_r.
  - rewrite Z.mod_pow2_bits_high, Z.shiftr_spec by lia. simpl. f_equal. lia.
Qed.

Lemma splice_u64 s d k : 0 <= k <= 64 -> is_u64 s -> is_u64 d ->
  is_u64 (s mod 2 ^ k + Z.shiftl (Z.shiftr d k) k).
Proof.
  intros Hk Hs Hd. assert (0 <= s mod 2 ^ k) by (apply Z.mod_pos_bound, Z.pow_pos_nonneg; lia).
  assert (0 <= Z.shiftl (Z.shiftr d k) k).
  { apply Z.shiftl_nonneg, Z.shiftr_nonneg. unfold is_uint in Hd. lia. }
  apply u64_bits; [lia|]. intros m Hm. rewrite splice_bits by lia.
  destruct (Z.ltb_spec m k); [lia|]. apply u64_bits; [unfold is_uint in Hd; lia|done|done].
Qed.

Lemma copy_bytes_length dst : forall n src, length (copy_bytes n dst src) = length dst.
Proof.
  induction dst as [|d dst IH]; intros n src; [done|]. destruct src as [|s src]; [done|].
  simpl. repeat case_match; simpl; auto.
Qed.

Lemma copy_bytes_u64 dst : forall n src,
  Forall is_u64 dst -> Forall is_u64 src -> Forall is_u64 (copy_bytes n dst src).
Proof.
  induction dst as [|d dst IH]; intros n src Hd Hs; [done|]. destruct src as [|s src]; [done|].
  inversion Hd; inversion Hs; subst. cbn [copy_bytes].
  destruct (Z.leb_spec n 0); [done|]. destruct (Z.leb_spec 8 n); constructor; auto.
  apply splice_u64; [lia|done|done].
Qed.

(** [memcpy] copies bits, eight per byte it is told to copy. *)
Lemma copy_bytes_bits dst : forall n src j,
  0 <= j -> n <= 8 * Z.of_nat (length dst) -> n <= 8 * Z.of_nat (length src) ->
  bit_of (copy_bytes n dst src) j = if j <? 8 * n then bit_of src j else bit_of dst j.
Proof.
  induction dst as [|d dst IH]; intros n src j Hj Hd Hs.
  { simpl in *. destruct (Z.ltb_spec j (8 * n)); [lia|]. by destruct src. }
  destruct src as [|s src]; cbn [length copy_bytes] in *.
  { destruct (Z.ltb_spec j (8 * n)); [lia|done]. }
  destruct (Z.leb_spec n 0); [by destruct (Z.ltb_spec j (8 * n)); [lia|]|].
  destruct (Z.leb_spec 8 n); rewrite !bit_of_cons by done.
  - destruct (Z.ltb_spec j 64); [by destruct (Z.ltb_spec j (8 * n)); [|lia]|].
    rewrite IH by lia. by destruct (Z.ltb_spec (j - 64) (8 * (n - 8))), (Z.ltb_spec j (8 * n)); try lia.
  - rewrite splice_bits by lia.
    by destruct (Z.ltb_spec j 64), (Z.ltb_spec j (8 * n)); try lia.
Qed.

Lemma bit_of_zeros n j : 0 <= j -> bit_of (replicate n 0) j = false.
Proof.
  intros Hj. unfold bit_of. destruct (replicate n 0 !! _) as [w|] eqn:E; [|done].
  apply lookup_replicate in E as [-> _]. apply Z.bits_0.
Qed.

(** What [resize] keeps: [memcpy] is given the number of words where it
    counts bytes, so of the old set only the first [8 * wordLength] bits survive
    (one byte per word of the new array); every later bit is cleared.  In
    particular a set of more than 64 bits is not preserved by growing it. *)
Theorem resize_keeps (b : bitset) (n : Z) :
  wf b -> 0 <= n -> getWordNumberForBits n <= 8 * wordLength b ->
  exists b', resize b n = Ok b' /\ wf b' /\ numBits b' = n /\
    forall j, 0 <= j < n ->
      get b' j = Ok (if j <? 8 * getWordNumberForBits n then mem b j else false).
Proof.
  intros (Hn & Hwl & ws & Hb & Hl & Hu) Hn' Hle. unfold resize.
  destruct (Z.ltb_spec n 0); [lia|]. rewrite Hb.
  pose proof (getWordNumberForBits_ceil n Hn') as Hceil.
  set (w := getWordNumberForBits n) in *.
  assert (0 <= w) by dlia.
  unfold memcpy. rewrite length_replicate.
  destruct (Z.leb_spec w (8 * Z.of_nat (Z.to_nat w))); [|lia].
  destruct (Z.leb_spec w (8 * Z.of_nat (length ws))); [|lia]. cbn [andb rbind].
  eexists. split; [reflexivity|].
  assert (wf (mk_bitset (Some (copy_bytes w (replicate (Z.to_nat w) 0) ws)) n w)) as Hwf.
  { split; [done|]. split; [done|]. eexists. split; [reflexivity|]. cbn.
    rewrite copy_bytes_length, length_replicate. split; [lia|].
    apply copy_bytes_u64; [|done]. apply Forall_replicate. unfold is_uint. lia. }
  split; [done|]. split; [done|]. intros j Hj. rewrite get_mem by done.
  unfold mem. cbn. rewrite copy_bytes_bits, bit_of_zeros by (rewrite ?length_replicate; lia).
  by rewrite Hb.
Qed.

Lemma resize_keeps_witness :
  exists b', resize (mk_bitset (Some [255; 3]) 128 2) 192 = Ok b' /\ wf b' /\ numBits b' = 192 /\
    forall j, 0 <= j < 192 -> get b' j = Ok (if j <? 8 * getWordNumberForBits 192
      then mem (mk_bitset (Some [255; 3]) 128 2) j else false).
Proof.
  apply (resize_keeps (mk_bitset (Some [255; 3]) 128 2) 192).
  - split; [simpl; lia|]. split; [reflexivity|]. exists [255; 3].
    split; [reflexivity|]. split; [reflexivity|].
    repeat constructor; vm_compute; try reflexivity; discriminate.
  - lia.
  - vm_compute. discriminate.
Defined.

End BitSet.

Module BitSetIterator.

(** [RecordIdSetIterator::NO_MORE_RECORDS] *)
Definition NO_MORE_RECORDS : Z := 2147483647.

(** bitList shows which bits are set for 1 byte *)
Definition bitList : list Z := [
    0x0; 0x1; 0x2; 0x21; 0x3; 0x31; 0x32; 0x321; 0x4; 0x41; 0x42; 0x421; 0x43; 0x431;
    0x432; 0x4321; 0x5; 0x51; 0x52; 0x521; 0x53; 0x531; 0x532; 0x5321; 0x54; 0x541; 0x542;
    0x5421; 0x543; 0x5431; 0x5432; 0x54321; 0x6; 0x61; 0x62; 0x621; 0x63; 0x631; 0x632;
    0x6321; 0x64; 0x641; 0x642; 0x6421; 0x643; 0x6431; 0x6432; 0x64321; 0x65; 0x651; 0x652;
    0x6521; 0x653; 0x6531; 0x6532; 0x65321; 0x654; 0x6541; 0x6542; 0x65421; 0x6543;
    0x65431; 0x65432; 0x654321; 0x7; 0x71; 0x72; 0x721; 0x73; 0x731; 0x732; 0x7321; 0x74;
    0x741; 0x742; 0x7421; 0x743; 0x7431; 0x7432; 0x74321; 0x75; 0x751; 0x752; 0x7521;
    0x753; 0x7531; 0x7532; 0x75321; 0x754; 0x7541; 0x7542; 0x75421; 0x7543; 0x75431;
    0x75432; 0x754321; 0x76; 0x761; 0x762; 0x7621; 0x763; 0x7631; 0x7632; 0x76321; 0x764;
    0x7641; 0x7642; 0x76421; 0x7643; 0x76431; 0x76432; 0x764321; 0x765; 0x7651; 0x7652;
    0x76521; 0x7653; 0x76531; 0x76532; 0x765321; 0x7654; 0x76541; 0x76542; 0x765421;
    0x76543; 0x765431; 0x765432; 0x7654321; 0x8; 0x81; 0x82; 0x821; 0x83; 0x831; 0x832;
    0x8321; 0x84; 0x841; 0x842; 0x8421; 0x843; 0x8431; 0x8432; 0x84321; 0x85; 0x851; 0x852;
    0x8521; 0x853; 0x8531; 0x8532; 0x85321; 0x854; 0x8541; 0x8542; 0x85421; 0x8543;
    0x85431; 0x85432; 0x854321; 0x86; 0x861; 0x862; 0x8621; 0x863; 0x8631; 0x8632; 0x86321;
    0x864; 0x8641; 0x8642; 0x86421; 0x8643; 0x86431; 0x86432; 0x864321; 0x865; 0x8651;
    0x8652; 0x86521; 0x8653; 0x86531; 0x86532; 0x865321; 0x8654; 0x86541; 0x86542;
    0x865421; 0x86543; 0x865431; 0x865432; 0x8654321; 0x87; 0x871; 0x872; 0x8721; 0x873;
    0x8731; 0x8732; 0x87321; 0x874; 0x8741; 0x8742; 0x87421; 0x8743; 0x87431; 0x87432;
    0x874321; 0x875; 0x8751; 0x8752; 0x87521; 0x8753; 0x87531; 0x87532; 0x875321; 0x8754;
    0x87541; 0x87542; 0x875421; 0x87543; 0x875431; 0x875432; 0x8754321; 0x876; 0x8761;
    0x8762; 0x87621; 0x8763; 0x87631; 0x87632; 0x876321; 0x8764; 0x87641; 0x87642;
    0x876421; 0x87643; 0x876431; 0x876432; 0x8764321; 0x8765; 0x87651; 0x87652; 0x876521;
    0x87653; 0x876531; 0x876532; 0x8765321; 0x87654; 0x876541; 0x876542; 0x8765421;
    0x876543; 0x8765431; 0x8765432; 0x87654321 ].

Record iter := mk_iter {
  bits : list Z;
  words : Z;
  i : Z;              (* current word position *)
  word : Z;           (* what is left of the current 64 bits *)
  wordShift : Z;
  indexArray : Z;     (* next bits of the current byte, as nibbles *)
  curRecordId : Z }.

Definition new (b : list Z) (numWords : Z) : iter := mk_iter b numWords (-1) 0 0 0 (-1).

Definition set_cur (s : iter) (r : Z) : iter :=
  mk_iter (bits s) (words s) (i s) (word s) (wordShift s) (indexArray s) r.
Definition set_word (s : iter) (k w sh : Z) : iter :=
  mk_iter (bits s) (words s) k w sh (indexArray s) (curRecordId s).
Definition set_index (s : iter) (ix : Z) : iter :=
  mk_iter (bits s) (words s) (i s) (word s) (wordShift s) ix (curRecordId s).

(** 64 bit shifts *)
Definition shift (s : iter) : result iter :=
  let '(w, sh) := (word s, wordShift s) in
  let '(w, sh) := if int32 w =? 0 then (Z.shiftr w 32, sh + 32) else (w, sh) in
  let '(w, sh) := if Z.land w 0xFFFF =? 0 then (Z.shiftr w 16, sh + 16) else (w, sh) in
  let '(w, sh) := if Z.land w 0xFF =? 0 then (Z.shiftr w 8, sh + 8) else (w, sh) in
  let? ix := vec_at bitList (Z.land (int32 w) 0xff) in
  Ok (set_index (set_word s (i s) w sh) (wrap32 ix)).

(** [while (word == 0) { if (++i >= words) ...; word = bits[i]; }], which in
    [getNextRecordId] also sets [wordShift = -1] in each round ([reset]); the
    boolean says that the words ran out. *)
Fixpoint skip_empty (reset : bool) (fuel : nat) (s : iter) : result (bool * iter) :=
  if word s =? 0 then
    match fuel with
    | O => Err OutOfFuel
    | S fuel' =>
      if words s <=? i s + 1 then Ok (true, set_word s (i s + 1) (word s) (wordShift s))
      else
        let? w := vec_at (bits s) (i s + 1) in
        skip_empty reset fuel'
          (set_word s (i s + 1) w (if reset then -1 else wordShift s))
    end
  else Ok (false, s).

(** The tail both searches share: the next bit of the current byte. *)
Definition next_bit (s : iter) : Z * iter :=
  let bitIndex := Z.land (indexArray s) 0x0f + wordShift s in
  let s := set_index s (Z.shiftr (indexArray s) 4) in
  let r := Z.shiftl (i s) 6 + bitIndex in
  (r, set_cur s r).

(** return the next Record in the Bitset *)
Definition getNextRecordId (s : iter) : result (Z * iter) :=
  if indexArray s =? 0 then
    let s := if negb (word s =? 0)
             then set_word s (i s) (Z.shiftr (word s) 8) (wordShift s + 8) else s in
    let? (ended, s) := skip_empty true (S (length (bits s))) s in
    if (ended : bool) then Ok (NO_MORE_RECORDS, set_cur s NO_MORE_RECORDS)
    else let? s := shift s in Ok (next_bit s)
  else Ok (next_bit s).

(** advance the next record which id >= target *)
Definition advance (s : iter) (target : Z) : result (Z * iter) :=
  let s := set_index s 0 in
  let k := Z.shiftr target 6 in
  if words s <=? k
  then Ok (NO_MORE_RECORDS, set_cur (set_word s k 0 (wordShift s)) NO_MORE_RECORDS)
  else
    let sh := Z.land target 0x3f in
    let? b := vec_at (bits s) k in
    let w := Z.shiftr b sh in
    if negb (w =? 0) then
      let? s := shift (set_word s k w (sh - 1)) in Ok (next_bit s)
    else
      let? (ended, s) := skip_empty false (S (length (bits s))) (set_word s k w sh) in
      if (ended : bool) then Ok (NO_MORE_RECORDS, set_cur s NO_MORE_RECORDS)
      else let? s := shift (set_word s (i s) (word s) (-1)) in Ok (next_bit s).

(** Calls [getNextRecordId] until it answers [NO_MORE_RECORDS]. *)
Fixpoint drain (fuel : nat) (s : iter) : result (list Z) :=
  match fuel with
  | O => Err OutOfFuel
  | S fuel' =>
    let? (r, s) := getNextRecordId s in
    if r =? NO_MORE_RECORDS then Ok []
    else let? rest := drain fuel' s in Ok (r :: rest)
  end.

Example drain_ex : drain 20 (new [0x8000000000000001; 0; 0xF00] 3) = Ok [0; 63; 136; 137; 138; 139].
Proof. vm_compute. reflexivity. Qed.

(** ** The set bits, in order *)

Definition ones (w : Z) : list Z := List.filter (Z.testbit w) (seqZ 0 64).

Fixpoint bits_from (k : Z) (ws : list Z) : list Z :=
  match ws with
  | [] => []
  | w :: ws' => map (fun b => 64 * k + b) (ones w) ++ bits_from (k + 1) ws'
  end.

Lemma filter_none {A} (f : A -> bool) l : (forall x, In x l -> f x = false) -> List.filter f l = [].
Proof.
  induction l as [|x l IH]; intros H; [done|]. simpl. rewrite (H x) by (by left).
  apply IH. intros y Hy. apply H. by right.
Qed.

Lemma filter_map_comm {A B} (f : B -> bool) (g : A -> B) l :
  List.filter f (map g l) = map g (List.filter (fun x => f (g x)) l).
Proof. induction l as [|x l IH]; simpl; [done|]. destruct (f (g x)); simpl; by rewrite IH. Qed.

Lemma in_seqZ x m n : In x (seqZ m n) <-> m <= x < m + n.
Proof. rewrite <- list_elem_of_In. apply elem_of_seqZ. Qed.

Lemma ones_split w k : is_u64 w -> 0 <= k <= 64 ->
  ones w = ones (w mod 2 ^ k) ++ map (Z.add k) (ones (Z.shiftr w k)).
Proof.
  intros Hw Hk. assert (0 <= w) by (unfold is_uint in Hw; lia). unfold ones.
  assert (seqZ 0 64 = seqZ 0 k ++ seqZ k (64 - k)) as E1.
  { replace 64 with (k + (64 - k)) at 1 by lia. by rewrite seqZ_app by lia. }
  assert (seqZ 0 64 = seqZ 0 (64 - k) ++ seqZ (64 - k) k) as E2.
  { replace 64 with ((64 - k) + k) at 1 by lia. by rewrite seqZ_app by lia. }
  rewrite E2 at 3. rewrite E1. rewrite !List.filter_app. f_equal.
  - rewrite (filter_none _ (seqZ k (64 - k))), app_nil_r.
    + apply List.filter_ext_in. intros x Hx%in_seqZ. by rewrite Z.mod_pow2_bits_low by lia.
    + intros x Hx%in_seqZ. by rewrite Z.mod_pow2_bits_high by lia.
  - rewrite (filter_none _ (seqZ (64 - k) k)), app_nil_r.
    + assert (seqZ k (64 - k) = map (Z.add k) (seqZ 0 (64 - k))) as ->.
      { pose proof (fmap_add_seqZ k 0 (64 - k)) as E. rewrite Z.add_0_r in E. done. }
      rewrite filter_map_comm. f_equal. apply List.filter_ext_in. intros x Hx%in_seqZ.
      rewrite Z.shiftr_spec by lia. f_equal. lia.
    + intros x Hx%in_seqZ. rewrite Z.shiftr_spec by lia.
      apply (BitSet.u64_bits w); [done|done|lia].
Qed.

Lemma ones_0 : ones 0 = [].
Proof. vm_compute. reflexivity. Qed.

Lemma map_ones_0 (f : Z -> Z) l : map f (ones 0) ++ l = l.
Proof. by rewrite ones_0. Qed.

Lemma ones_skip w k : is_u64 w -> 0 <= k <= 64 -> w mod 2 ^ k = 0 ->
  ones w = map (Z.add k) (ones (Z.shiftr w k)).
Proof. intros Hw Hk H0. rewrite (ones_split w k Hw Hk), H0, ones_0. done. Qed.

(** The nibbles of [indexArray], lowest first. *)
Fixpoint nibs (n : nat) (ix : Z) : list Z :=
  match n with
  | O => []
  | S n' => if ix =? 0 then [] else (ix mod 16) :: nibs n' (ix / 16)
  end.

Lemma nibs_more n ix : 0 <= ix < 16 ^ Z.of_nat n -> nibs (S n) ix = nibs n ix.
Proof.
  revert ix. induction n as [|n IH]; intros ix Hix.
  - simpl. assert (ix = 0) as -> by (simpl in Hix; lia). done.
  - cbn [nibs] in *. destruct (ix =? 0); [done|]. f_equal. apply IH.
    rewrite Nat2Z.inj_succ, Z.pow_succ_r in Hix by lia. dlia.
Qed.

(** The table: entry [c] lists the set bits of [c], counted from 1. *)
Lemma bitList_nibs c : 0 < c < 256 ->
  exists ix, vec_at bitList c = Ok ix /\ 0 < ix < 2 ^ 32 /\ nibs 8 ix = map (Z.add 1) (ones c).
Proof.
  intros Hc.
  pose (P c := match vec_at bitList c with
    | Ok ix => ((c =? 0) || (0 <? ix)) && (ix <? 2 ^ 32) &&
               bool_decide (nibs 8 ix = map (Z.add 1) (ones c))
    | Err _ => false end).
  assert (P c = true) as H by (apply (forall_below 256); [vm_compute; reflexivity|lia]).
  unfold P in H. destruct (vec_at bitList c) as [ix|]; [|done]. exists ix.
  rewrite !andb_true_iff, orb_true_iff, bool_decide_eq_true, Z.eqb_eq, !Z.ltb_lt in H.
  destruct H as [[[H|H] ?] ?]; [lia|]. done.
Qed.

(** What is still to come from a state of the iterator. *)
Definition remaining (s : iter) : list Z :=
  map (fun n => 64 * i s + wordShift s + n) (nibs 8 (indexArray s)) ++
  map (fun b => 64 * i s + wordShift s + 9 + b) (ones (Z.shiftr (word s) 8)) ++
  bits_from (i s + 1) (drop (Z.to_nat (i s + 1)) (bits s)).

Definition inv (s : iter) : Prop :=
  words s = Z.of_nat (length (bits s)) /\ Forall is_u64 (bits s) /\ -1 <= i s /\
  is_u64 (word s) /\ is_u32 (indexArray s).

Lemma shiftr_u64 w k : is_u64 w -> 0 <= k -> is_u64 (Z.shiftr w k).
Proof.
  intros [H1 H2] Hk. split; [by apply Z.shiftr_nonneg|]. rewrite Z.shiftr_div_pow2 by done.
  assert (1 <= 2 ^ k) by (pose proof (Z.pow_pos_nonneg 2 k); lia).
  apply Z.div_lt_upper_bound; nia.
Qed.

Lemma map_ones_skip w k c : is_u64 w -> 0 <= k <= 64 -> w mod 2 ^ k = 0 ->
  map (fun b => c + b) (ones w) = map (fun b => (c + k) + b) (ones (Z.shiftr w k)).
Proof.
  intros Hw Hk H0. rewrite (ones_skip w k) by done. rewrite map_map.
  apply map_ext. intros b. lia.
Qed.

Lemma shiftr_nz w k : 0 <= k -> w <> 0 -> w mod 2 ^ k = 0 -> Z.shiftr w k <> 0.
Proof.
  intros Hk Hw H0 E. rewrite Z.shiftr_div_pow2 in E by done.
  pose proof (Z.div_mod w (2 ^ k) ltac:(lia)). lia.
Qed.

(** One conditional shift by [k] of [shift], keeping the listed bits in place. *)
Lemma shift_step (c : bool) w sh k base :
  (c = true <-> w mod 2 ^ k = 0) -> is_u64 w -> w <> 0 -> 0 <= k <= 64 ->
  let '(w', sh') := if c then (Z.shiftr w k, sh + k) else (w, sh) in
  is_u64 w' /\ w' <> 0 /\ (w' = w /\ w mod 2 ^ k <> 0 \/ w' = Z.shiftr w k /\ w mod 2 ^ k = 0) /\
  map (fun b => base + sh + 1 + b) (ones w) = map (fun b => base + sh' + 1 + b) (ones w').
Proof.
  intros Hc Hw Hnz Hk. destruct c.
  - pose proof (proj1 Hc eq_refl) as H0.
    split; [apply shiftr_u64; [done|lia]|]. split; [apply shiftr_nz; [lia|done|done]|].
    split; [by right|]. rewrite (map_ones_skip w k) by done. apply map_ext. intros; lia.
  - split; [done|]. split; [done|]. split; [|done]. left. split; [done|].
    intros H. by apply Hc in H.
Qed.

Lemma low_half_nz w k : 0 <= k -> w mod 2 ^ k = 0 -> w mod 2 ^ (2 * k) <> 0 ->
  Z.shiftr w k mod 2 ^ k <> 0.
Proof.
  intros Hk H0 Hnz E. apply Hnz. rewrite Z.shiftr_div_pow2 in E by done.
  assert (0 < 2 ^ k) by (apply Z.pow_pos_nonneg; lia).
  replace (2 * k) with (k + k) by lia. rewrite Z.pow_add_r, Z.rem_mul_r by lia. lia.
Qed.

Lemma int32_mod w : int32 w mod 2 ^ 8 = w mod 2 ^ 8.
Proof.
  unfold swrap, wrap. change (32 - 1) with 31.
  assert ((w mod 2 ^ 32) mod 2 ^ 8 = w mod 2 ^ 8) as E.
  { apply Z.mod_mod_divide. exists (2 ^ 24). lia. }
  destruct (w mod 2 ^ 32 <? 2 ^ 31); [done|].
  replace (w mod 2 ^ 32 - 2 ^ 32) with (w mod 2 ^ 32 + (- 2 ^ 24) * 2 ^ 8) by lia.
  by rewrite Z.mod_add by lia.
Qed.

Lemma int32_zero w : (int32 w =? 0) = true <-> w mod 2 ^ 32 = 0.
Proof.
  rewrite Z.eqb_eq. unfold swrap, wrap. change (32 - 1) with 31.
  pose proof (Z.mod_pos_bound w (2 ^ 32) ltac:(lia)).
  destruct (Z.ltb_spec (w mod 2 ^ 32) (2 ^ 31)); lia.
Qed.

Lemma land_zero w k : 0 <= k -> (Z.land w (2 ^ k - 1) =? 0) = true <-> w mod 2 ^ k = 0.
Proof. intros Hk. by rewrite land_mask, Z.eqb_eq by done. Qed.

(** Once the low half of [w] has been shifted away when it was empty, the low
    half of what is left is not empty. *)
Lemma half_step w w' k : 0 <= k -> w mod 2 ^ (2 * k) <> 0 ->
  w' = w /\ w mod 2 ^ k <> 0 \/ w' = Z.shiftr w k /\ w mod 2 ^ k = 0 -> w' mod 2 ^ k <> 0.
Proof. intros Hk H [[-> ?]|[-> ?]]; [done|by apply low_half_nz]. Qed.

Lemma remaining_byte s : is_u64 (word s) -> forall c ix,
  c = word s mod 2 ^ 8 -> nibs 8 ix = map (Z.add 1) (ones c) ->
  remaining (set_index s ix) = map (fun b => 64 * i s + wordShift s + 1 + b) (ones (word s)) ++
      bits_from (i s + 1) (drop (Z.to_nat (i s + 1)) (bits s)).
Proof.
  intros Hw c ix -> Hn. unfold remaining. cbn -[nibs]. rewrite Hn, (ones_split (word s) 8) by (try done; lia).
  rewrite map_app, !map_map, <- app_assoc. f_equal; [apply map_ext; intros; lia|].
  f_equal. apply map_ext. intros. lia.
Qed.

(** What [shift] does to a state whose word is not zero: the bits of the word,
    and nothing else, are ahead, and the table has some of them at hand. *)
Lemma shift_spec s : inv s -> word s <> 0 ->
  exists s', shift s = Ok s' /\ inv s' /\ indexArray s' <> 0 /\
    remaining s' = map (fun b => 64 * i s + wordShift s + 1 + b) (ones (word s)) ++
      bits_from (i s + 1) (drop (Z.to_nat (i s + 1)) (bits s)).
Proof.
  intros (Hwords & Hu & Hi & Hw & Hix) Hnz. unfold shift.
  pose proof (shift_step _ (word s) (wordShift s) 32 (64 * i s) (int32_zero _) Hw Hnz ltac:(lia)) as H.
  destruct (if int32 (word s) =? 0 then _ else _) as [w1 sh1]. destruct H as (Hw1 & Hnz1 & Hd1 & E1).
  apply half_step in Hd1; [|lia|by rewrite Z.mod_small].
  pose proof (shift_step _ w1 sh1 16 (64 * i s) (land_zero w1 16 ltac:(lia)) Hw1 Hnz1 ltac:(lia)) as H.
  change (2 ^ 16 - 1) with 65535 in H.
  destruct (if Z.land w1 65535 =? 0 then _ else _) as [w2 sh2]. destruct H as (Hw2 & Hnz2 & Hd2 & E2).
  apply half_step in Hd2; [|lia|exact Hd1].
  pose proof (shift_step _ w2 sh2 8 (64 * i s) (land_zero w2 8 ltac:(lia)) Hw2 Hnz2 ltac:(lia)) as H.
  change (2 ^ 8 - 1) with 255 in H.
  destruct (if Z.land w2 255 =? 0 then _ else _) as [w3 sh3]. destruct H as (Hw3 & Hnz3 & Hd3 & E3).
  apply half_step in Hd3; [|lia|exact Hd2].
  assert (Z.land (int32 w3) 255 = w3 mod 2 ^ 8) as ->.
  { change 255 with (2 ^ 8 - 1). by rewrite land_mask, int32_mod by lia. }
  assert (0 <= w3 mod 2 ^ 8 < 256) by (apply Z.mod_pos_bound; lia).
  destruct (bitList_nibs (w3 mod 2 ^ 8)) as (ix & -> & Hix' & Hnibs); [lia|]. cbn [rbind].
  rewrite (wrap_id 32) by (unfold is_uint; lia).
  eexists. split; [reflexivity|]. split; [|split; [cbn; lia|]].
  { repeat split; try done; cbn; try apply Hw3; unfold is_uint; lia. }
  rewrite (remaining_byte (set_word s (i s) w3 sh3) Hw3 _ _ eq_refl Hnibs). cbn.
  by rewrite E1, E2, E3.
Qed.

(** Taking the next bit that is at hand. *)
Lemma next_bit_spec s r s' : inv s -> indexArray s <> 0 -> next_bit s = (r, s') ->
  inv s' /\ remaining s = r :: remaining s'.
Proof.
  intros (Hwords & Hu & Hi & Hw & Hix) Hnz [= <- <-]. unfold is_uint in Hix.
  change (2 ^ 32) with 4294967296 in Hix.
  assert (Z.land (indexArray s) 15 = indexArray s mod 16) as E by (apply (land_mask _ 4); lia).
  assert (Z.shiftr (indexArray s) 4 = indexArray s / 16) as E' by (apply (Z.shiftr_div_pow2 _ 4); lia).
  split.
  - repeat split; try done; cbn; try apply Hw; rewrite E'; dlia.
  - unfold remaining. cbn -[nibs]. rewrite E, E'.
    assert (nibs 8 (indexArray s) = (indexArray s mod 16) :: nibs 8 (indexArray s / 16)) as ->.
    { rewrite (nibs_more 7 (indexArray s / 16)) by (simpl; dlia). cbn [nibs].
      destruct (Z.eqb_spec (indexArray s) 0); done. }
    cbn [map app]. f_equal. rewrite Z.shiftl_mul_pow2 by lia. lia.
Qed.

Lemma bits_from_drop bs k : -1 <= k ->
  bits_from (k + 1) (drop (Z.to_nat (k + 1)) bs) =
  match bs !! Z.to_nat (k + 1) with
  | Some w => map (fun b => 64 * (k + 1) + b) (ones w) ++
      bits_from (k + 1 + 1) (drop (Z.to_nat (k + 1 + 1)) bs)
  | None => []
  end.
Proof.
  intros Hk. destruct (bs !! Z.to_nat (k + 1)) as [w|] eqn:E.
  - rewrite (drop_S _ _ _ E). cbn [bits_from]. do 3 f_equal. lia.
  - apply lookup_ge_None in E. by rewrite drop_ge.
Qed.

(** Skipping words that are empty skips nothing that remains. *)
Lemma skip_empty_spec reset : forall fuel s, inv s -> indexArray s = 0 ->
  words s - i s <= Z.of_nat fuel -> (1 <= fuel)%nat ->
  exists ended s', skip_empty reset fuel s = Ok (ended, s') /\ inv s' /\ indexArray s' = 0 /\
    if (ended : bool) then word s = 0 /\ word s' = 0 /\ words s' <= i s' /\
      bits_from (i s + 1) (drop (Z.to_nat (i s + 1)) (bits s)) = []
    else word s' <> 0 /\ (s' = s \/ word s = 0 /\ (reset = true -> wordShift s' = -1) /\
      bits_from (i s + 1) (drop (Z.to_nat (i s + 1)) (bits s)) =
      map (fun b => 64 * i s' + b) (ones (word s')) ++
      bits_from (i s' + 1) (drop (Z.to_nat (i s' + 1)) (bits s'))).
Proof.
  induction fuel as [|fuel IH]; intros s Hinv Hix Hf Hf1; [lia|].
  pose proof Hinv as (Hwords & Hu & Hi & Hw & Hixu). cbn [skip_empty].
  destruct (Z.eqb_spec (word s) 0) as [H0|Hnz]; [|].
  2: { exists false, s. do 4 (split; [done|]). by left. }
  rewrite bits_from_drop by done.
  destruct (Z.leb_spec (words s) (i s + 1)) as [Hend|Hmore].
  { exists true. eexists. split; [reflexivity|].
    assert (bits s !! Z.to_nat (i s + 1) = None) as -> by (apply lookup_ge_None; lia).
    repeat split; try done; cbn; try apply Hw; try apply Hixu; lia. }
  destruct (lookup_lt_is_Some_2 (bits s) (Z.to_nat (i s + 1))) as [w Hlw]; [lia|].
  assert (vec_at (bits s) (i s + 1) = Ok w) as -> by (apply vec_at_nth; split; [lia|done]).
  cbn [rbind]. rewrite Hlw. set (s1 := set_word s (i s + 1) w _).
  assert (inv s1) as Hinv1.
  { assert (is_u64 w) as Hwu by (rewrite Forall_lookup in Hu; eauto).
    repeat split; try done; cbn; try apply Hwu; try apply Hixu; lia. }
  assert (i s1 = i s + 1 /\ bits s1 = bits s /\ word s1 = w /\ words s1 = words s /\
    indexArray s1 = 0 /\ (reset = true -> wordShift s1 = -1)) as (Ei & Eb & Ew & Ews & Eix & Esh).
  { repeat split; try done. cbn. by intros ->. }
  clearbody s1.
  destruct (IH s1 Hinv1 Eix) as (ended & s' & H1 & H2 & H3 & H4); [rewrite Ei, Ews; lia|lia|].
  exists ended, s'. split; [done|]. split; [done|]. split; [done|].
  rewrite Ei, Eb, Ew in H4. destruct ended.
  - destruct H4 as (-> & ? & ? & ->). rewrite ones_0. done.
  - destruct H4 as [Hnz [E|(-> & Hsh & ->)]].
    + subst s'. split; [done|]. right. split; [done|]. rewrite Ei, Eb, Ew. split; [done|reflexivity].
    + split; [done|]. right. rewrite map_ones_0.
      split; [exact H0|]. split; [exact Hsh|reflexivity].
Qed.

Lemma map_nil_app (f : Z -> Z) l0 l : l0 = [] -> map f l0 ++ l = l.
Proof. intros ->. apply app_nil_l. Qed.

Lemma nibs_0 : nibs 8 0 = [].
Proof. reflexivity. Qed.

Lemma remaining_word s : indexArray s = 0 ->
  remaining s = map (fun b => 64 * i s + wordShift s + 9 + b) (ones (Z.shiftr (word s) 8)) ++
    bits_from (i s + 1) (drop (Z.to_nat (i s + 1)) (bits s)).
Proof. intros H. unfold remaining. rewrite H. apply map_nil_app, nibs_0. Qed.

Lemma ended_remaining s : inv s -> indexArray s = 0 -> word s = 0 -> words s <= i s ->
  remaining s = [].
Proof.
  intros (Hwords & _ & Hi & _) Hix H0 Hend. rewrite remaining_word, H0, Z.shiftr_0_l, map_ones_0, bits_from_drop by done.
  assert (bits s !! Z.to_nat (i s + 1) = None) as -> by (apply lookup_ge_None; lia). reflexivity.
Qed.

(** What a call of [getNextRecordId] or [advance] does to the list that remains. *)
Definition takes (todo : list Z) (res : result (Z * iter)) : Prop :=
  match todo with
  | [] => exists s', res = Ok (NO_MORE_RECORDS, s') /\ inv s' /\ remaining s' = []
  | r :: rest => exists s', res = Ok (r, s') /\ inv s' /\ remaining s' = rest
  end.

Lemma next_takes s : inv s -> indexArray s <> 0 -> takes (remaining s) (Ok (next_bit s)).
Proof.
  intros Hinv Hnz. destruct (next_bit s) as [r s'] eqn:E.
  destruct (next_bit_spec s r s' Hinv Hnz E) as [H1 ->]. simpl. eauto.
Qed.

Lemma shift_takes s : inv s -> word s <> 0 ->
  takes (map (fun b => 64 * i s + wordShift s + 1 + b) (ones (word s)) ++
      bits_from (i s + 1) (drop (Z.to_nat (i s + 1)) (bits s)))
    (let? s := shift s in Ok (next_bit s)).
Proof.
  intros Hinv Hnz. destruct (shift_spec s Hinv Hnz) as (s' & -> & Hinv' & Hix & <-).
  by apply next_takes.
Qed.

Lemma getNextRecordId_takes s : inv s -> takes (remaining s) (getNextRecordId s).
Proof.
  intros Hinv. pose proof Hinv as (Hwords & Hu & Hi & Hw & Hix). unfold getNextRecordId.
  destruct (Z.eqb_spec (indexArray s) 0) as [H0|Hnz]; [|by apply next_takes].
  rewrite remaining_word by done.
  set (s1 := if negb (word s =? 0) then _ else s).
  assert (inv s1 /\ indexArray s1 = 0 /\ i s1 = i s /\ bits s1 = bits s /\ words s1 = words s /\
    map (fun b => 64 * i s + wordShift s + 9 + b) (ones (Z.shiftr (word s) 8)) =
    map (fun b => 64 * i s + wordShift s1 + 1 + b) (ones (word s1))) as (Hinv1 & Hix1 & Ei & Eb & Ew & ->).
  { unfold s1. destruct (Z.eqb_spec (word s) 0) as [Hz|Hnz]; cbn [negb].
    - rewrite Hz. change (Z.shiftr 0 8) with 0. rewrite ones_0. done.
    - split; [|repeat split; try done; apply map_ext; intros; cbn; lia].
      pose proof (shiftr_u64 (word s) 8 Hw ltac:(lia)) as Hs.
      repeat split; try done; try apply Hs; apply Hix. }
  destruct (skip_empty_spec true (S (length (bits s1))) s1 Hinv1 Hix1) as (ended & s2 & -> & Hinv2 & Hix2 & H);
    [rewrite Ei, Eb, Ew; lia|lia|]. cbn [rbind]. rewrite Ei, Eb in H. destruct ended.
  - destruct H as (Hz & Hz2 & Hend & ->). rewrite Hz, map_ones_0. cbn [takes rbind]. eexists. split; [reflexivity|].
    pose proof Hinv2 as (? & ? & ? & ? & ?). split; [done|]. by apply ended_remaining.
  - destruct H as [Hnz [->|(Hz & Hsh & ->)]].
    + rewrite <- Ei, <- Eb. by apply shift_takes.
    + rewrite Hz, map_ones_0. pose proof (shift_takes s2 Hinv2 Hnz) as HT. rewrite Hsh in HT by done.
      rewrite (map_ext (fun b => 64 * i s2 + b) (fun b => 64 * i s2 + -1 + 1 + b)) by (intros; lia).
      exact HT.
Qed.

Lemma new_inv b : Forall is_u64 b -> inv (new b (Z.of_nat (length b))).
Proof. intros Hb. repeat split; try done; cbn; lia. Qed.

Lemma remaining_new b n : remaining (new b n) = bits_from 0 b.
Proof. unfold remaining. cbn -[ones]. change (Z.shiftr 0 8) with 0. by rewrite ones_0. Qed.

Lemma drain_remaining : forall fuel s, inv s -> (length (remaining s) < fuel)%nat ->
  Forall (fun r => r <> NO_MORE_RECORDS) (remaining s) -> drain fuel s = Ok (remaining s).
Proof.
  induction fuel as [|fuel IH]; intros s Hinv Hlen Hr; [lia|]. cbn [drain].
  pose proof (getNextRecordId_takes s Hinv) as HT.
  destruct (remaining s) as [|r rest]; simpl in HT; destruct HT as (s' & -> & Hinv' & Hrem); cbn [rbind].
  - done.
  - inversion Hr; subst. destruct (Z.eqb_spec r NO_MORE_RECORDS); [done|].
    rewrite IH; [done|done|simpl in Hlen; lia|done].
Qed.

Lemma in_ones w b : In b (ones w) <-> 0 <= b < 64 /\ Z.testbit w b = true.
Proof. unfold ones. rewrite filter_In, in_seqZ. reflexivity. Qed.

Lemma in_bits_from ws : forall k r, In r (bits_from k ws) <->
  64 * k <= r /\ BitSet.bit_of ws (r - 64 * k) = true.
Proof.
  induction ws as [|w ws IH]; intros k r; cbn [bits_from].
  { split; [done|]. unfold BitSet.bit_of. rewrite lookup_nil. naive_solver. }
  rewrite in_app_iff, in_map_iff, IH. split.
  - intros [(b & <- & Hb%in_ones)|[Hr Hbit]].
    + split; [lia|]. rewrite BitSet.bit_of_cons by lia.
      replace (64 * k + b - 64 * k) with b by lia. destruct (Z.ltb_spec b 64); [apply Hb|lia].
    + split; [lia|]. rewrite BitSet.bit_of_cons by lia. destruct (Z.ltb_spec (r - 64 * k) 64); [lia|].
      rewrite <- Hbit. f_equal. lia.
  - intros [Hr Hbit]. rewrite BitSet.bit_of_cons in Hbit by lia.
    destruct (Z.ltb_spec (r - 64 * k) 64).
    + left. exists (r - 64 * k). split; [lia|]. apply in_ones. auto with lia.
    + right. split; [lia|]. rewrite <- Hbit. f_equal. lia.
Qed.

Lemma bits_from_sorted ws : forall k, StronglySorted Z.lt (bits_from k ws).
Proof.
  induction ws as [|w ws IH]; intros k; cbn [bits_from]; [constructor|].
  apply ssorted_app; [|apply IH|].
  - apply (ssorted_map Z.lt); [intros; lia|]. apply ssorted_filter, ssorted_seqZ.
  - intros x y (b & <- & Hb%in_ones)%in_map_iff [Hy _]%in_bits_from. lia.
Qed.

Lemma bits_from_length ws k : (length (bits_from k ws) <= 64 * length ws)%nat.
Proof.
  revert k. induction ws as [|w ws IH]; intros k; cbn [bits_from length]; [lia|].
  rewrite length_app, length_map. specialize (IH (k + 1)).
  pose proof (filter_length_le (Z.testbit w) (seqZ 0 64)). rewrite length_seqZ in *.
  unfold ones. lia.
Qed.

(** Iterating over a bit set with [getNextRecordId] until
    [NO_MORE_RECORDS] lists each set bit exactly once, in increasing order, and
    nothing else; one call per bit and one more suffice. *)
Theorem drain_lists_set_bits (b : list Z) :
  Forall is_u64 b -> 64 * Z.of_nat (length b) <= NO_MORE_RECORDS ->
  exists out, drain (S (64 * length b)) (new b (Z.of_nat (length b))) = Ok out /\
    StronglySorted Z.lt out /\
    forall r, In r out <-> 0 <= r /\ BitSet.bit_of b r = true.
Proof.
  intros Hb Hlen. exists (bits_from 0 b). split; [|split].
  - rewrite <- (remaining_new b (Z.of_nat (length b))).
    apply drain_remaining; rewrite ?remaining_new; [by apply new_inv| |].
    + pose proof (bits_from_length b 0). lia.
    + apply List.Forall_forall. intros r [Hr Hbit]%in_bits_from ->.
      unfold BitSet.bit_of in Hbit. destruct (b !! _) eqn:E; [|done].
      apply lookup_lt_Some in E. unfold NO_MORE_RECORDS in *. dlia.
  - apply bits_from_sorted.
  - intros r. rewrite in_bits_from, Z.mul_0_r, Z.sub_0_r. done.
Qed.

Lemma drain_lists_set_bits_witness :
  exists out, drain (S (64 * 2)) (new [2 ^ 63 + 1; 16] 2) = Ok out /\ StronglySorted Z.lt out /\
    forall r, In r out <-> 0 <= r /\ BitSet.bit_of [2 ^ 63 + 1; 16] r = true.
Proof.
  apply (drain_lists_set_bits [2 ^ 63 + 1; 16]).
  - repeat constructor; vm_compute; try reflexivity; discriminate.
  - vm_compute. discriminate.
Defined.

Lemma bits_from_skip ws : forall k n,
  List.filter (fun r => 64 * (k + Z.of_nat n) <=? r) (bits_from k ws) =
  bits_from (k + Z.of_nat n) (drop n ws).
Proof.
  induction ws as [|w ws IH]; intros k n; cbn [bits_from]; [by rewrite drop_nil|].
  rewrite List.filter_app. destruct n as [|n].
  - rewrite drop_0, Z.add_0_r. cbn [bits_from]. specialize (IH (k + 1) 0%nat).
    rewrite (List.filter_ext_in _ (fun _ => true)) by
      (intros r (b & <- & Hb%in_ones)%in_map_iff; apply Z.leb_le; lia).
    rewrite List.filter_true. f_equal.
    rewrite (List.filter_ext_in _ (fun _ => true)) by
      (intros r [Hr _]%in_bits_from; apply Z.leb_le; lia).
    apply List.filter_true.
  - rewrite filter_none by (intros r (b & <- & Hb%in_ones)%in_map_iff; apply Z.leb_gt; lia).
    cbn [app]. change (drop (S n) (w :: ws)) with (drop n ws).
    replace (k + Z.of_nat (S n)) with ((k + 1) + Z.of_nat n) by lia. apply IH.
Qed.

(** [advance(target)], from any state of the iterator, answers the smallest
    set bit that is at least [target] ([NO_MORE_RECORDS] when there is none) and
    leaves the iterator so that the bits after it come next. *)
Theorem advance_seeks (s : iter) (target : Z) :
  inv s -> 0 <= target ->
  takes (List.filter (fun r => target <=? r) (bits_from 0 (bits s))) (advance s target).
Proof.
  intros Hinv Ht. pose proof Hinv as (Hwords & Hu & Hi & Hw & Hix). unfold advance.
  rewrite BitSet.shiftr_6, BitSet.land_3f. cbn [words bits set_index].
  set (k := target / 64). assert (0 <= k) by (unfold k; dlia).
  assert (List.filter (fun r => target <=? r) (bits_from 0 (bits s)) =
    List.filter (fun r => target <=? r) (bits_from k (drop (Z.to_nat k) (bits s)))) as ->.
  { pose proof (bits_from_skip (bits s) 0 (Z.to_nat k)) as E.
    rewrite Z2Nat.id, Z.add_0_l in E by done. rewrite <- E.
    (* the bits below 64 k are below the target *)
    clear -Ht. induction (bits_from 0 (bits s)) as [|r l IH]; [done|]. cbn [List.filter].
    destruct (Z.leb_spec (64 * k) r); cbn [List.filter]; destruct (Z.leb_spec target r);
      try (by rewrite IH); unfold k in *; dlia. }
  destruct (Z.leb_spec (words s) k) as [Hend|Hin].
  { rewrite drop_ge by lia. cbn. eexists. split; [reflexivity|].
    assert (inv (set_cur (set_word (set_index s 0) k 0 (wordShift s)) NO_MORE_RECORDS)) as Hinv'.
    { repeat split; try done; cbn; unfold is_uint; lia. }
    split; [done|]. by apply ended_remaining. }
  destruct (lookup_lt_is_Some_2 (bits s) (Z.to_nat k)) as [b Hlb]; [lia|].
  assert (vec_at (bits s) k = Ok b) as -> by (apply vec_at_nth; split; [lia|done]).
  assert (is_u64 b) as Hub by (rewrite Forall_lookup in Hu; eauto).
  set (sh := target mod 64). assert (0 <= sh < 64) as Hsh by (apply Z.mod_pos_bound; lia).
  pose proof (shiftr_u64 b sh Hub ltac:(lia)) as Hus.
  cbn [rbind]. rewrite (drop_S _ _ _ Hlb). cbn [bits_from]. rewrite List.filter_app.
  assert (List.filter (fun r => target <=? r) (map (fun c => 64 * k + c) (ones b)) =
    map (fun c => 64 * k + sh + c) (ones (Z.shiftr b sh))) as ->.
  { rewrite (ones_split b sh) by (try done; lia). rewrite map_app, List.filter_app, map_map.
    rewrite filter_none; [|intros r (c & <- & Hc%in_ones)%in_map_iff].
    - cbn [app]. rewrite (List.filter_ext_in _ (fun _ => true)), List.filter_true.
      + apply map_ext. intros. lia.
      + intros r (c & <- & Hc%in_ones)%in_map_iff. apply Z.leb_le. unfold k, sh. dlia.
    - destruct Hc as [Hc Hbit]. apply Z.leb_gt.
      destruct (Z.lt_ge_cases c sh); [unfold k, sh in *; dlia|].
      by rewrite Z.mod_pow2_bits_high in Hbit by lia. }
  rewrite (List.filter_ext_in _ (fun _ => true) (bits_from (k + 1) _)), List.filter_true by
    (intros r [Hr _]%in_bits_from; apply Z.leb_le; unfold k in *; dlia).
  replace (S (Z.to_nat k)) with (Z.to_nat (k + 1)) by lia.
  set (w := Z.shiftr b sh) in *.
  assert (forall x, inv (set_word (set_index s 0) k w x)) as Hinv'.
  { intros x. repeat split; try done; cbn; try apply Hus; unfold is_uint; lia. }
  destruct (Z.eqb_spec w 0) as [Hz|Hnz]; cbn [negb].
  - destruct (skip_empty_spec false (S (length (bits s))) _ (Hinv' sh) eq_refl)
      as (ended & s2 & -> & Hinv2 & Hix2 & Hskip); [cbn; lia|lia|].
    cbn [rbind i bits set_word set_index word] in *. destruct ended.
    + destruct Hskip as (_ & Hz2 & Hend & ->). rewrite Hz, map_ones_0. cbn [takes rbind]. eexists. split; [reflexivity|].
      pose proof Hinv2 as (? & ? & ? & ? & ?). split; [done|]. by apply ended_remaining.
    + destruct Hskip as [Hnz [->|(_ & _ & ->)]]; [done|]. rewrite Hz, map_ones_0.
      pose proof (shift_takes (set_word s2 (i s2) (word s2) (-1)) Hinv2 Hnz) as HT.
      cbn [i bits word wordShift set_word] in HT.
      rewrite (map_ext (fun b => 64 * i s2 + b) (fun b => 64 * i s2 + -1 + 1 + b)) by (intros; lia).
      exact HT.
  - pose proof (shift_takes (set_word (set_index s 0) k w (sh - 1)) (Hinv' (sh - 1)) Hnz) as HT.
    cbn [i bits word wordShift set_word set_index] in HT.
    rewrite (map_ext _ (fun c => 64 * k + (sh - 1) + 1 + c)) by (intros; lia). exact HT.
Qed.

Lemma advance_seeks_witness :
  takes [63; 68] (advance (new [2 ^ 63 + 1; 16] 2) 5).
Proof.
  refine (advance_seeks (new [2 ^ 63 + 1; 16] 2) 5 _ _); [|lia].
  apply new_inv. repeat constructor; vm_compute; try reflexivity; discriminate.
Defined.

End BitSetIterator.
