(* ===== verification/CacheBase.v ===== *)
(** * The byte-budgeted LRU cache (core/operation/CacheBase.h)

    [CacheEntry] and [CacheContainer]: a map from the 32-bit hash of a key to a
    heap-allocated entry, and a doubly linked list of the hashes in order of use.
    Both the entries and the list elements live in explicit stores, so that a
    dangling pointer, a double delete or a leak shows.  The mutex only serialises
    the operations: each one is a transition of the whole state.

    The abstract specification is a list of (key, object) pairs, least recently
    used first; [put_refines], [get_refines] and [clear_refines] show that the
    operations implement it. *)
From S2P Require Import Prelude.
From Stdlib Require Import ZArith Lia List Bool.
From stdpp Require Import base gmap list fin_maps fin_map_dom sorting.
Open Scope Z_scope.

Module CacheBase.

(** [string]: its bytes. *)
Abbreviation str := (list Z).

Record link := mk_link { next : ptr; previous : ptr; hashedKey : Z }.

Record entry (T : Type) := mk_entry {
  key : str; objectPointer : T; numberOfBytes : Z }.
Arguments mk_entry {T} _ _ _.
Arguments key {T} _.
Arguments objectPointer {T} _.
Arguments numberOfBytes {T} _.

Record cache (T : Type) := mk_cache {
  entryHeap : store (entry T);
  linkHeap : store link;
  cacheEntries : gmap Z (ptr * ptr);
  elementsLinkListFirst : ptr;
  elementsLinkListLast : ptr;
  cacheTotalByteBudget : Z;      (* unsigned long *)
  totalSizeUsed : Z }.           (* unsigned *)
Arguments mk_cache {T} _ _ _ _ _ _ _.
Arguments entryHeap {T} _.
Arguments linkHeap {T} _.
Arguments cacheEntries {T} _.
Arguments elementsLinkListFirst {T} _.
Arguments elementsLinkListLast {T} _.
Arguments cacheTotalByteBudget {T} _.
Arguments totalSizeUsed {T} _.

(** The order in which a [std::map] iterates over its pairs. *)
Definition key_le (a b : Z * (ptr * ptr)) : Prop := a.1 <= b.1.

#[global] Instance key_le_dec : RelDecision key_le.
Proof. intros a b. unfold key_le. apply _. Defined.

Section Cache.
Context {T : Type}.
(** What the cached class and the platform's [std::string] contribute. *)
Variable objectBytes : T -> Z.       (* T::getNumberOfBytes() *)
Variable sizeof_string : Z.          (* sizeof(std::string) *)

Abbreviation cst := (st (cache T)).

(** ** Field assignments *)

Definition set_entryHeap (h : store (entry T)) : cst unit := modify (fun c =>
  mk_cache h (linkHeap c) (cacheEntries c) (elementsLinkListFirst c)
    (elementsLinkListLast c) (cacheTotalByteBudget c) (totalSizeUsed c)).
Definition set_linkHeap (h : store link) : cst unit := modify (fun c =>
  mk_cache (entryHeap c) h (cacheEntries c) (elementsLinkListFirst c)
    (elementsLinkListLast c) (cacheTotalByteBudget c) (totalSizeUsed c)).
Definition set_cacheEntries (m : gmap Z (ptr * ptr)) : cst unit := modify (fun c =>
  mk_cache (entryHeap c) (linkHeap c) m (elementsLinkListFirst c)
    (elementsLinkListLast c) (cacheTotalByteBudget c) (totalSizeUsed c)).
Definition set_first (p : ptr) : cst unit := modify (fun c =>
  mk_cache (entryHeap c) (linkHeap c) (cacheEntries c) p
    (elementsLinkListLast c) (cacheTotalByteBudget c) (totalSizeUsed c)).
Definition set_last (p : ptr) : cst unit := modify (fun c =>
  mk_cache (entryHeap c) (linkHeap c) (cacheEntries c) (elementsLinkListFirst c)
    p (cacheTotalByteBudget c) (totalSizeUsed c)).
Definition set_totalSizeUsed (n : Z) : cst unit := modify (fun c =>
  mk_cache (entryHeap c) (linkHeap c) (cacheEntries c) (elementsLinkListFirst c)
    (elementsLinkListLast c) (cacheTotalByteBudget c) n).

(** ** Accesses to the heaps *)

Definition load_link (p : ptr) : cst link :=
  let! h := reads linkHeap in lift (s_load h p).
Definition store_link (p : ptr) (x : link) : cst unit :=
  let! h := reads linkHeap in let! h' := lift (s_store h p x) in set_linkHeap h'.
Definition delete_link (p : ptr) : cst unit :=
  let! h := reads linkHeap in let! h' := lift (s_delete h p) in set_linkHeap h'.
(** [new HashedKeyLinkListElement(hashedKey)] *)
Definition new_link (hk : Z) : cst ptr :=
  let! h := reads linkHeap in
  let (p, h') := s_new h (mk_link NULL NULL hk) in set_linkHeap h' ;;; ret p.

(** [p->next = q] and [p->previous = q]. *)
Definition set_next (p q : ptr) : cst unit :=
  let! x := load_link p in store_link p (mk_link q (previous x) (hashedKey x)).
Definition set_previous (p q : ptr) : cst unit :=
  let! x := load_link p in store_link p (mk_link (next x) q (hashedKey x)).

Definition load_entry (p : ptr) : cst (entry T) :=
  let! h := reads entryHeap in lift (s_load h p).
Definition store_entry (p : ptr) (x : entry T) : cst unit :=
  let! h := reads entryHeap in let! h' := lift (s_store h p x) in set_entryHeap h'.
Definition delete_entry (p : ptr) : cst unit :=
  let! h := reads entryHeap in let! h' := lift (s_delete h p) in set_entryHeap h'.
(** [new CacheEntry<T>(key, objectPointer)] *)
Definition new_entry (k : str) (o : T) : cst ptr :=
  let! h := reads entryHeap in
  let (p, h') := s_new h (mk_entry k o 0) in set_entryHeap h' ;;; ret p.

(** ** Sizes and hashes *)

(** [CacheEntry::getNumberOfBytes], which remembers the size it computes; the
    sum is truncated to [unsigned]. *)
Definition getNumberOfBytes (p : ptr) : cst Z :=
  let! e := load_entry p in
  if numberOfBytes e =? 0 then
    let n := wrap32 (4 + sizeof_string + objectBytes (objectPointer e)) in
    store_entry p (mk_entry (key e) (objectPointer e) n) ;;; ret n
  else ret (numberOfBytes e).

(** sizeof(unsigned) + sizeof(HashedKeyLinkListElement * ) + sizeof(HashedKeyLinkListElement)
    = 4 + 8 + 24 with 8-byte pointers. *)
Definition getNumberOfBytesUsedByEntry (p : ptr) : cst Z :=
  let! n := getNumberOfBytes p in ret (wrap32 (n + 4 + 8 + 24)).

(** [hashDJB2] over the bytes of [key.c_str()], the final NUL included; [char]
    is signed, so a byte from 128 on is sign-extended. *)
Fixpoint hash_from (hash : Z) (s : str) : Z :=
  match s with
  | [] => wrap32 (wrap32 (wrap32 (hash * 32) + hash) + 0)
  | b :: s' =>
      let hash' := wrap32 (wrap32 (wrap32 (hash * 32) + hash) + wrap32 (swrap 8 b)) in
      if b =? 0 then hash' else hash_from hash' s'
  end.
Definition hashDJB2 (s : str) : Z := hash_from 5381 s.

(** ** The linked list *)

Definition isNULL (p : ptr) : bool := bool_decide (p = NULL).

Definition addNewElementToLinkList (hk : Z) : cst unit :=
  let! first := reads elementsLinkListFirst in
  let! last := reads elementsLinkListLast in
  assert_ ((isNULL first && isNULL last) || (negb (isNULL first) && negb (isNULL last))) ;;;
  if isNULL first && isNULL last then
    let! p := new_link hk in set_last p ;;; set_first p
  else
    let! l := load_link last in
    assert_ (isNULL (next l)) ;;;
    let! p := new_link hk in
    set_next last p ;;;
    let! l := load_link last in
    set_previous (next l) last ;;;
    let! l := load_link last in
    set_last (next l).

(** [None] when the list is empty, else the hash that was removed. *)
Definition removeTheOldestElementFromLinkList : cst (option Z) :=
  let! first := reads elementsLinkListFirst in
  let! last := reads elementsLinkListLast in
  assert_ ((isNULL first && isNULL last) || (negb (isNULL first) && negb (isNULL last))) ;;;
  if isNULL first && isNULL last then ret None
  else if bool_decide (first = last) then
    let! f := load_link first in
    delete_link first ;;;
    set_last NULL ;;; set_first NULL ;;;
    ret (Some (hashedKey f))
  else
    let! f := load_link first in
    let newFirst := next f in
    let! n := load_link newFirst in
    assert_ (bool_decide (previous n = first)) ;;;
    set_previous newFirst NULL ;;;
    let! f := load_link first in
    delete_link first ;;;
    set_first newFirst ;;;
    ret (Some (hashedKey f)).

Definition moveLinkedListElementToLast (element : ptr) : cst unit :=
  let! first := reads elementsLinkListFirst in
  let! last := reads elementsLinkListLast in
  assert_ (negb (isNULL element)) ;;;
  assert_ (negb (isNULL first || isNULL last)) ;;;
  if bool_decide (first = last) then ret tt
  else if bool_decide (element = last) then
    let! e := load_link element in assert_ (isNULL (next e))
  else if bool_decide (element = first) then
    let! e := load_link element in
    assert_ (isNULL (previous e)) ;;;
    let! n := load_link (next e) in
    assert_ (bool_decide (previous n = element)) ;;;
    set_first (next e) ;;;
    set_previous (next e) NULL ;;;
    let! l := load_link last in
    assert_ (isNULL (next l)) ;;;
    set_next last element ;;;
    set_previous element last ;;;
    set_next element NULL ;;;
    set_last element
  else
    let! e := load_link element in
    set_next (previous e) (next e) ;;;
    let! e := load_link element in
    set_previous (next e) (previous e) ;;;
    set_previous element NULL ;;;
    set_next element NULL ;;;
    let! l := load_link last in
    assert_ (isNULL (next l)) ;;;
    set_next last element ;;;
    set_previous element last ;;;
    set_last element.

(** ** Replacement, insertion and lookup *)

Definition LRUCacheReplacementPolicyKickoutOneEntry : cst unit :=
  let! r := removeTheOldestElementFromLinkList in
  match r with
  | None => ret tt
  | Some hashedKeyToRemove =>
      let! m := reads cacheEntries in
      match m !! hashedKeyToRemove with
      | None => fail AssertFailed
      | Some (e, _) =>
          let! n := getNumberOfBytesUsedByEntry e in
          delete_entry e ;;;
          set_cacheEntries (delete hashedKeyToRemove m) ;;;
          let! used := reads totalSizeUsed in
          assert_ (n <=? used) ;;;
          set_totalSizeUsed (wrap32 (used - n))
      end
  end.

(** [cacheTotalByteBudget - totalSizeUsed], in [unsigned long]. *)
Definition budgetLeft (c : cache T) : Z := wrap64 (cacheTotalByteBudget c - totalSizeUsed c).

(** [while(true) { kick out one; if (it fits) break; }] *)
Fixpoint kickout_loop (fuel : nat) (needed : Z) : cst unit :=
  match fuel with
  | O => fail OutOfFuel
  | S fuel' =>
      LRUCacheReplacementPolicyKickoutOneEntry ;;;
      let! room := reads budgetLeft in
      if needed <=? room then ret tt else kickout_loop fuel' needed
  end.

(** Steps 1 to 3 of [put], once there is room: the entry of the same hash is
    replaced, or a new list element and map entry are added. *)
Definition put_insert (k : str) (newEntry : ptr) (needed : Z) : cst bool :=
  let newEntryHashedKey := hashDJB2 k in
  let! budget := reads cacheTotalByteBudget in
  let! m := reads cacheEntries in
  match m !! newEntryHashedKey with
  | Some (old, element) =>
      let! sizeOfEntryToRemove := getNumberOfBytesUsedByEntry old in
      let! used := reads totalSizeUsed in
      let used1 := wrap32 (used + needed) in
      assert_ (sizeOfEntryToRemove <=? used1) ;;;
      let used2 := wrap32 (used1 - sizeOfEntryToRemove) in
      set_totalSizeUsed used2 ;;;
      assert_ (used2 <=? budget) ;;;
      delete_entry old ;;;
      set_cacheEntries (<[newEntryHashedKey := (newEntry, element)]> m) ;;;
      moveLinkedListElementToLast element ;;;
      ret true
  | None =>
      addNewElementToLinkList newEntryHashedKey ;;;
      let! last := reads elementsLinkListLast in
      set_cacheEntries (<[newEntryHashedKey := (newEntry, last)]> m) ;;;
      let! used := reads totalSizeUsed in
      let used1 := wrap32 (used + needed) in
      set_totalSizeUsed used1 ;;;
      assert_ (used1 <=? budget) ;;;
      ret true
  end.

Definition put (k : str) (o : T) : cst bool :=
  let! newEntry := new_entry k o in
  let! needed := getNumberOfBytesUsedByEntry newEntry in
  let! budget := reads cacheTotalByteBudget in
  if budget <? needed then delete_entry newEntry ;;; ret false
  else
    let! room := reads budgetLeft in
    (* each round removes an entry: the number of entries bounds them *)
    let! fuel := reads (fun c => S (size (cacheEntries c))) in
    (if room <? needed then kickout_loop fuel needed else ret tt) ;;;
    put_insert k newEntry needed.

(** The object found, [None] for [return false]. *)
Definition get (k : str) : cst (option T) :=
  let! m := reads cacheEntries in
  match m !! hashDJB2 k with
  | None => ret None
  | Some (p, element) =>
      let! e := load_entry p in
      if bool_decide (key e = k) then
        moveLinkedListElementToLast element ;;;
        let! e := load_entry p in ret (Some (objectPointer e))
      else ret None
  end.

(** ** Clearing, destruction and the consistency check *)

Definition in_key_order (m : gmap Z (ptr * ptr)) : list (Z * (ptr * ptr)) :=
  merge_sort key_le (map_to_list m).

Fixpoint delete_links (fuel : nat) (p : ptr) : cst unit :=
  if isNULL p then ret tt else
  match fuel with
  | O => fail OutOfFuel
  | S fuel' =>
      let! x := load_link p in
      delete_link p ;;; delete_links fuel' (next x)
  end.

Definition link_fuel (c : cache T) : nat := size (cells (linkHeap c)).

Definition clear : cst bool :=
  let! m := reads cacheEntries in
  for_each (in_key_order m) (fun kv => delete_entry kv.2.1) ;;;
  set_cacheEntries ∅ ;;;
  let! fuel := reads link_fuel in
  let! first := reads elementsLinkListFirst in
  delete_links fuel first ;;;
  set_last NULL ;;; set_first NULL ;;;
  set_totalSizeUsed 0 ;;;
  ret true.

(** [~CacheContainer] *)
Definition destroy : cst unit :=
  let! fuel := reads link_fuel in
  let! first := reads elementsLinkListFirst in
  delete_links fuel first ;;;
  let! m := reads cacheEntries in
  for_each (in_key_order m) (fun kv => delete_entry kv.2.1) ;;;
  set_cacheEntries ∅.

(** The first loop of [checkCacheConsistency]. *)
Fixpoint check_links (fuel : nat) (p : ptr) : cst bool :=
  if isNULL p then ret true else
  match fuel with
  | O => fail OutOfFuel
  | S fuel' =>
      let! first := reads elementsLinkListFirst in
      let! last := reads elementsLinkListLast in
      let! x := load_link p in
      let! back :=
        if isNULL (previous x) then ret (bool_decide (p = first))
        else let! q := load_link (previous x) in ret (bool_decide (next q = p)) in
      if negb back then ret false else
      let! forth :=
        if isNULL (next x) then ret (bool_decide (p = last))
        else let! q := load_link (next x) in ret (bool_decide (previous q = p)) in
      if negb forth then ret false else check_links fuel' (next x)
  end.

(** Looks for the element of [hk] in the list; [None] for [return false]. *)
Fixpoint find_link (fuel : nat) (hk : Z) (element p : ptr) (nodeFound : bool) : cst (option bool) :=
  if isNULL p then ret (Some nodeFound) else
  match fuel with
  | O => fail OutOfFuel
  | S fuel' =>
      let! x := load_link p in
      if hk =? hashedKey x then
        if negb (bool_decide (p = element)) then ret None
        else if nodeFound then ret None
        else find_link fuel' hk element (next x) true
      else find_link fuel' hk element (next x) nodeFound
  end.

Fixpoint check_entries (kvs : list (Z * (ptr * ptr))) (byteSize : Z) : cst (option Z) :=
  match kvs with
  | [] => ret (Some byteSize)
  | (hk, (e, element)) :: kvs' =>
      let! fuel := reads link_fuel in
      let! first := reads elementsLinkListFirst in
      let! found := find_link fuel hk element first false in
      match found with
      | Some true =>
          let! n := getNumberOfBytesUsedByEntry e in check_entries kvs' (wrap32 (byteSize + n))
      | _ => ret None
      end
  end.

Definition checkCacheConsistency : cst bool :=
  let! first := reads elementsLinkListFirst in
  let! last := reads elementsLinkListLast in
  if isNULL first && isNULL last then ret true
  else if negb (negb (isNULL first) && negb (isNULL last)) then ret false
  else
    let! f := load_link first in
    if negb (isNULL (previous f)) then ret false
    else
      let! fuel := reads link_fuel in
      let! ok := check_links fuel first in
      if negb ok then ret false
      else
        let! m := reads cacheEntries in
        let! byteSize := check_entries (in_key_order m) 0 in
        let! used := reads totalSizeUsed in
        match byteSize with
        | None => ret false
        | Some n => ret (n =? used)
        end.

(** [CacheContainer(byteSizeOfCache)] *)
Definition new_cache (byteSizeOfCache : Z) : cache T :=
  mk_cache empty_store empty_store ∅ NULL NULL byteSizeOfCache 0.

End Cache.
(** ** The abstract cache: pairs in order of use, least recently used first *)

Section Spec.
Context {T : Type}.
Variable objectBytes : T -> Z.
Variable sizeof_string : Z.

Definition entryBytes (o : T) : Z := wrap32 (4 + sizeof_string + objectBytes o).
Definition sizeUsed (o : T) : Z := wrap32 (entryBytes o + 4 + 8 + 24).

Fixpoint spec_used (l : list (str * T)) : Z :=
  match l with [] => 0 | (_, o) :: l' => sizeUsed o + spec_used l' end.

(** The oldest pairs leave until there is room. *)
Fixpoint spec_evict (budget needed : Z) (l : list (str * T)) : list (str * T) :=
  match l with
  | [] => []
  | p :: l' => if needed <=? budget - spec_used l then l else spec_evict budget needed l'
  end.

Definition same_hash (k : str) (p : str * T) : bool := hashDJB2 p.1 =? hashDJB2 k.

Definition spec_put (budget : Z) (k : str) (o : T) (l : list (str * T)) : bool * list (str * T) :=
  if budget <? sizeUsed o then (false, l)
  else (true, List.filter (fun p => negb (same_hash k p)) (spec_evict budget (sizeUsed o) l)
              ++ [(k, o)]).

Definition spec_get (k : str) (l : list (str * T)) : option T * list (str * T) :=
  match List.find (same_hash k) l with
  | Some (k', o) =>
      if bool_decide (k' = k)
      then (Some o, List.filter (fun p => negb (same_hash k p)) l ++ [(k', o)])
      else (None, l)
  | None => (None, l)
  end.

(** ** The linked list in the store *)

(** One cached pair with the addresses of its list element and its entry. *)
Record item := mk_item { it_link : ptr; it_entry : ptr; it_key : str; it_obj : T }.
Definition it_hash (it : item) : Z := hashDJB2 (it_key it).

Definition first_of (nxt : ptr) (its : list item) : ptr :=
  match its with [] => nxt | it :: _ => it_link it end.
Fixpoint last_of (prev : ptr) (its : list item) : ptr :=
  match its with [] => prev | it :: its' => last_of (it_link it) its' end.

(** The elements of [its] are chained from [prev] to [nxt]. *)
Fixpoint seg (m : gmap ptr link) (prev : ptr) (its : list item) (nxt : ptr) : Prop :=
  match its with
  | [] => True
  | it :: its' =>
      m !! it_link it = Some (mk_link (first_of nxt its') prev (it_hash it)) /\
      seg m (it_link it) its' nxt
  end.

Record dll (h : store link) (first last : ptr) (its : list item) : Prop := {
  dll_wf : store_wf h;
  dll_seg : seg (cells h) NULL its NULL;
  dll_first : first = first_of NULL its;
  dll_last : last = last_of NULL its;
  dll_nodup : NoDup (map it_link its);
  dll_dom : dom (cells h) = list_to_set (map it_link its) }.

Lemma first_of_app nxt l1 l2 : first_of nxt (l1 ++ l2) = first_of (first_of nxt l2) l1.
Proof. by destruct l1. Qed.

Lemma last_of_app prev l1 l2 : last_of prev (l1 ++ l2) = last_of (last_of prev l1) l2.
Proof. revert prev. by induction l1 as [|it l1 IH]; intros prev; simpl. Qed.

Lemma seg_app m prev l1 l2 nxt :
  seg m prev (l1 ++ l2) nxt <-> seg m prev l1 (first_of nxt l2) /\ seg m (last_of prev l1) l2 nxt.
Proof.
  revert prev. induction l1 as [|it l1 IH]; intros prev; simpl; [naive_solver|].
  rewrite first_of_app, IH. naive_solver.
Qed.

Lemma seg_frame m m' prev its nxt :
  (forall it, it ∈ its -> m' !! it_link it = m !! it_link it) ->
  seg m prev its nxt -> seg m' prev its nxt.
Proof.
  revert prev. induction its as [|it its IH]; intros prev Hm; simpl; [done|].
  intros [H1 H2]. split.
  - rewrite Hm by set_solver. exact H1.
  - apply IH; [|exact H2]. intros; apply Hm. set_solver.
Qed.

(** Redirecting the last element's [next], or the first element's [previous]. *)
Lemma seg_set_next m m' prev l a x y :
  seg m prev (l ++ [a]) x -> (forall it, it ∈ l -> m' !! it_link it = m !! it_link it) ->
  m' !! it_link a = Some (mk_link y (last_of prev l) (it_hash a)) ->
  seg m' prev (l ++ [a]) y.
Proof.
  rewrite !seg_app. intros [H1 _] Hm Ha. split; [|done]. by eapply seg_frame.
Qed.

Lemma seg_set_previous m m' p q b l x :
  seg m p (b :: l) x -> (forall it, it ∈ l -> m' !! it_link it = m !! it_link it) ->
  m' !! it_link b = Some (mk_link (first_of x l) q (it_hash b)) ->
  seg m' q (b :: l) x.
Proof. intros [_ H2] Hm Hb. split; [done|]. by eapply seg_frame. Qed.

Lemma seg_lookup m prev its nxt it : seg m prev its nxt -> it ∈ its -> is_Some (m !! it_link it).
Proof.
  revert prev. induction its as [|it' its IH]; intros prev; simpl; [set_solver|].
  intros [H1 H2] [->|Hin]%elem_of_cons; [eauto|]. by eapply IH.
Qed.

Lemma dll_nonnull h first last its it :
  dll h first last its -> it ∈ its -> it_link it <> NULL.
Proof.
  intros D Hin. destruct (seg_lookup _ _ _ _ it (dll_seg _ _ _ _ D) Hin) as [x Hx].
  destruct (dll_wf _ _ _ _ D) as [_ Hwf]. specialize (Hwf (it_link it) ltac:(eauto)).
  unfold NULL. lia.
Qed.

Lemma dll_fresh h first last its it :
  dll h first last its -> it ∈ its -> it_link it <> next_addr h.
Proof.
  intros D Hin E. destruct (seg_lookup _ _ _ _ it (dll_seg _ _ _ _ D) Hin) as [x Hx].
  rewrite E, store_wf_fresh in Hx; [done|apply (dll_wf _ _ _ _ D)].
Qed.

Lemma last_of_in prev its : its <> [] -> exists it l, its = l ++ [it] /\ last_of prev its = it_link it.
Proof.
  destruct its as [|it its _] using rev_ind; [done|]. intros _.
  exists it, its. by rewrite last_of_app.
Qed.
End Spec.
Arguments item : clear implicits.

(** ** Runs of the primitive steps *)

Section Steps.
Context {T : Type}.
Implicit Types c : cache T.

Definition with_links c (h : store link) (first last : ptr) : cache T :=
  mk_cache (entryHeap c) h (cacheEntries c) first last (cacheTotalByteBudget c) (totalSizeUsed c).

Definition update (h : store link) (p : ptr) (x : link) : store link :=
  mk_store (<[p := x]> (cells h)) (next_addr h).

Lemma with_links_id c : c = with_links c (linkHeap c) (elementsLinkListFirst c) (elementsLinkListLast c).
Proof. by destruct c. Qed.

Lemma update_wf h p x y : store_wf h -> cells h !! p = Some y -> store_wf (update h p x).
Proof.
  intros Hwf Hy. apply (s_store_wf h p x); [done|]. apply s_store_Ok. split; [|eauto].
  destruct Hwf as [_ Hwf]. specialize (Hwf p ltac:(eauto)). unfold NULL. lia.
Qed.

Lemma remove_wf {A} (h : store A) p : store_wf h -> store_wf (mk_store (delete p (cells h)) (next_addr h)).
Proof.
  intros [H0 H]. split; [done|]. intros q [y Hy]. cbn in Hy.
  apply lookup_delete_Some in Hy as [_ Hy]. apply H. eauto.
Qed.

Lemma update_dom h p x y : cells h !! p = Some y -> dom (cells (update h p x)) = dom (cells h).
Proof. intros Hy. apply dom_insert_lookup_L. eauto. Qed.

Lemma load_link_run c h first last p x : p <> NULL -> cells h !! p = Some x ->
  load_link p (with_links c h first last) = Ok (x, with_links c h first last).
Proof.
  intros Hp Hx. unfold load_link, bind, reads, lift. cbn.
  assert (s_load h p = Ok x) as -> by (by apply s_load_Ok). done.
Qed.

Lemma store_link_run c h first last p x y : p <> NULL -> cells h !! p = Some y ->
  store_link p x (with_links c h first last) = Ok (tt, with_links c (update h p x) first last).
Proof.
  intros Hp Hx. unfold store_link, bind, reads, lift. cbn.
  assert (s_store h p x = Ok (update h p x)) as -> by (apply s_store_Ok; eauto). done.
Qed.

Lemma set_next_run c h first last p q x : p <> NULL -> cells h !! p = Some x ->
  set_next p q (with_links c h first last) =
  Ok (tt, with_links c (update h p (mk_link q (previous x) (hashedKey x))) first last).
Proof.
  intros Hp Hx. unfold set_next. rewrite (bind_run _ _ _ _ _ (load_link_run c h first last p x Hp Hx)).
  by eapply store_link_run.
Qed.

Lemma set_previous_run c h first last p q x : p <> NULL -> cells h !! p = Some x ->
  set_previous p q (with_links c h first last) =
  Ok (tt, with_links c (update h p (mk_link (next x) q (hashedKey x))) first last).
Proof.
  intros Hp Hx. unfold set_previous. rewrite (bind_run _ _ _ _ _ (load_link_run c h first last p x Hp Hx)).
  by eapply store_link_run.
Qed.

Lemma delete_link_run c h first last p x : p <> NULL -> cells h !! p = Some x ->
  delete_link p (with_links c h first last) =
  Ok (tt, with_links c (mk_store (delete p (cells h)) (next_addr h)) first last).
Proof.
  intros Hp Hx. unfold delete_link, bind, reads, lift. cbn. unfold s_delete.
  rewrite decide_False by done.
  assert (s_load h p = Ok x) as -> by (by apply s_load_Ok). done.
Qed.

Lemma new_link_run c h first last hk :
  new_link hk (with_links c h first last) =
  Ok (next_addr h, with_links c (mk_store (<[next_addr h := mk_link NULL NULL hk]> (cells h))
                                   (N.succ (next_addr h))) first last).
Proof. done. Qed.

Lemma isNULL_true p : isNULL p = true <-> p = NULL.
Proof. apply bool_decide_eq_true. Qed.
Lemma isNULL_false p : isNULL p = false <-> p <> NULL.
Proof. apply bool_decide_eq_false. Qed.
End Steps.

(** Runs the next step; the lookups it needs are solved in the context. *)
Ltac look := cbn [cells update next_addr next previous hashedKey]; by simplify_map_eq.
Ltac bools := unfold isNULL; repeat case_bool_decide; simplify_eq/=; congruence.
Ltac exec1 :=
  match goal with
  | |- context [bind (reads elementsLinkListFirst) ?k (with_links ?c ?h ?f ?l)] =>
      change (bind (reads elementsLinkListFirst) k (with_links c h f l)) with (k f (with_links c h f l))
  | |- context [bind (reads elementsLinkListLast) ?k (with_links ?c ?h ?f ?l)] =>
      change (bind (reads elementsLinkListLast) k (with_links c h f l)) with (k l (with_links c h f l))
  | |- context [bind (set_first ?p) ?k (with_links ?c ?h ?f ?l)] =>
      change (bind (set_first p) k (with_links c h f l)) with (k tt (with_links c h p l))
  | |- context [bind (set_last ?p) ?k (with_links ?c ?h ?f ?l)] =>
      change (bind (set_last p) k (with_links c h f l)) with (k tt (with_links c h f p))
  | |- context [set_first ?p (with_links ?c ?h ?f ?l)] =>
      change (set_first p (with_links c h f l)) with (Ok (tt, with_links c h p l))
  | |- context [set_last ?p (with_links ?c ?h ?f ?l)] =>
      change (set_last p (with_links c h f l)) with (Ok (tt, with_links c h f p))
  | |- context [bind (assert_ _) _ _] =>
      rewrite (bind_run (assert_ _) _ _ tt _) by (apply assert_run; bools)
  | |- context [bind (load_link _) _ _] =>
      erewrite (bind_run (load_link _)) by (apply load_link_run; [done|look])
  | |- context [bind (set_next _ _) _ _] =>
      erewrite (bind_run (set_next _ _)) by (eapply set_next_run; [done|look])
  | |- context [bind (set_previous _ _) _ _] =>
      erewrite (bind_run (set_previous _ _)) by (eapply set_previous_run; [done|look])
  | |- context [bind (delete_link _) _ _] =>
      erewrite (bind_run (delete_link _)) by (eapply delete_link_run; [done|look])
  | |- context [bind (new_link _) _ _] => rewrite (bind_run _ _ _ _ _ (new_link_run _ _ _ _ _))
  end; cbn beta; cbn [next previous hashedKey].

Section Links.
Context {T : Type}.
Implicit Types (c : cache T) (its : list (item T)).

Lemma isNULL_link h first last its it : dll h first last its -> it ∈ its -> isNULL (it_link it) = false.
Proof. intros D Hin. apply isNULL_false. by eapply dll_nonnull. Qed.

Lemma dll_empty (h : store link) : store_wf h -> cells h = ∅ -> @dll T h NULL NULL [].
Proof. intros Hwf E. split; try done; [constructor|by rewrite E, dom_empty_L]. Qed.

(** Appending an element for a new pair. *)
Lemma addNewElementToLinkList_run c h first last its e k (o : T) p :
  dll h first last its -> p = next_addr h ->
  exists h' first', addNewElementToLinkList (hashDJB2 k) (with_links c h first last) =
    Ok (tt, with_links c h' first' p) /\
    dll h' first' p (its ++ [mk_item p e k o]).
Proof.
  intros D ->. unfold addNewElementToLinkList. do 2 exec1.
  destruct (decide (its = [])) as [->|Hne].
  - destruct D as [Hwf _ -> -> _ Hd]. cbn [first_of last_of]. cbn. exec1.
    apply dom_empty_inv_L in Hd. do 2 eexists. split; [reflexivity|]. split.
    + apply (s_new_wf h _ Hwf).
    + cbn. rewrite lookup_insert_eq. done.
    + done.
    + done.
    + apply NoDup_singleton.
    + cbn. rewrite Hd. set_solver.
  - destruct its as [|it1 its1]; [done|]. set (its := it1 :: its1) in *.
    destruct (last_of_in NULL its Hne) as (itl & init & Ei & El).
    assert (itl ∈ its) as Hl by (rewrite Ei; set_solver).
    pose proof (dll_nonnull _ _ _ _ _ D Hl) as Hn.
    pose proof (dll_fresh _ _ _ _ _ D Hl) as Hf.
    pose proof D as [Hwf Hseg -> Hlast Hnd Hd]. rewrite El in Hlast. subst last.
    assert (isNULL (it_link it1) = false) as H1 by (eapply isNULL_link; [exact D|subst its; set_solver]).
    assert (isNULL (it_link itl) = false) as H2 by (by eapply isNULL_link).
    change (first_of NULL its) with (it_link it1). rewrite H1, H2. cbn [andb orb negb]. exec1.
    assert (cells h !! it_link itl = Some (mk_link NULL (last_of NULL init) (it_hash itl))) as Hlk.
    { rewrite Ei in Hseg. apply seg_app in Hseg as [_ Hs]. apply Hs. }
    assert (next_addr h <> NULL) by (destruct Hwf as [? _]; unfold NULL; lia).
    repeat exec1. do 2 eexists. split; [reflexivity|].
    assert (forall it, it ∈ init -> it_link it <> it_link itl) as Hni.
    { rewrite Ei in Hnd. by apply nodup_map_mid in Hnd as [? _]. }
    split.
    + eapply update_wf; [eapply update_wf; [apply (s_new_wf h _ Hwf)|look]|look].
    + rewrite Ei in *. rewrite <- app_assoc. cbn [app]. apply seg_app in Hseg as [Hs1 Hs2].
      apply seg_app. split; [|cbn; split; [look|split; [look|done]]].
      eapply seg_frame; [|exact Hs1]. intros it Hit. cbn.
      assert (it_link it <> next_addr h) by (eapply dll_fresh; [exact D|set_solver]).
      specialize (Hni it Hit). by simplify_map_eq.
    + by rewrite first_of_app.
    + by rewrite last_of_app.
    + rewrite map_app. apply NoDup_app. split; [done|]. split; [|apply NoDup_singleton].
      intros x (it & -> & Hit)%elem_of_lmap. cbn. rewrite list_elem_of_singleton.
      by eapply dll_fresh.
    + erewrite update_dom by look. erewrite update_dom by look. cbn.
      rewrite dom_insert_L, Hd, map_app, list_to_set_app_L. set_solver.
Qed.

(** Removing the least recently used element. *)
Lemma removeTheOldest_empty c h first last :
  @dll T h first last [] ->
  removeTheOldestElementFromLinkList (with_links c h first last) =
    Ok (None, with_links c h first last).
Proof. intros [_ _ -> -> _ _]. done. Qed.

Lemma removeTheOldest_run c h first last it its :
  dll h first last (it :: its) ->
  exists h' first' last',
    removeTheOldestElementFromLinkList (with_links c h first last) =
      Ok (Some (it_hash it), with_links c h' first' last') /\ dll h' first' last' its.
Proof.
  intros D. unfold removeTheOldestElementFromLinkList. do 2 exec1.
  pose proof (dll_nonnull _ _ _ _ it D ltac:(set_solver)) as Hn.
  assert (isNULL (it_link it) = false) as H1 by (by apply isNULL_false).
  pose proof D as [Hwf [Hl Hseg] -> -> Hnd0 Hd]. cbn [first_of last_of] in *.
  pose proof (nodup_map_mid it_link [] it its Hnd0) as (_ & Hni & _).
  pose proof (NoDup_cons_1_2 _ _ Hnd0) as Hnd.
  destruct its as [|it2 its]; cbn [last_of] in *.
  - rewrite H1. cbn [andb orb negb]. exec1. rewrite bool_decide_true by done. repeat exec1.
    do 3 eexists. split; [reflexivity|]. apply dll_empty; [by apply remove_wf|].
    cbn. apply dom_empty_inv_L. rewrite dom_delete_L, Hd. set_solver.
  - pose proof (dll_nonnull _ _ _ _ it2 D ltac:(set_solver)) as Hn2.
    destruct Hseg as [Hl2 Hseg]. cbn [first_of] in *.
    assert (it_link it2 <> it_link it) as Hne by (apply Hni; set_solver).
    destruct (last_of_in NULL (it2 :: its) ltac:(done)) as (itl & init & Ei & El).
    cbn [last_of] in El. rewrite El.
    assert (itl ∈ it2 :: its) as Hil by (rewrite Ei; set_solver).
    assert (isNULL (it_link itl) = false) as H2 by
      (eapply isNULL_link; [exact D|by apply elem_of_cons; right]).
    rewrite H1, H2. cbn [andb orb negb]. exec1. rewrite bool_decide_false.
    2: { by apply not_eq_sym, Hni. }
    exec1. exec1.
    repeat exec1. do 3 eexists. split; [reflexivity|]. split.
    + apply remove_wf. by eapply update_wf.
    + cbn. split; [look|]. eapply seg_frame; [|exact Hseg]. intros it' Hit'.
      assert (it_link it' <> it_link it) by (apply Hni; set_solver).
      assert (it_link it' <> it_link it2) by
        (destruct (nodup_map_mid it_link [] it2 its Hnd) as (_ & Hni2 & _); by apply Hni2).
      cbn. by simplify_map_eq.
    + done.
    + by rewrite <- El.
    + done.
    + cbn [cells]. rewrite dom_delete_L. erewrite update_dom by exact Hl2. rewrite Hd.
      change (map it_link (it :: it2 :: its)) with (it_link it :: map it_link (it2 :: its)).
      rewrite list_to_set_cons.
      assert (it_link it ∉ (list_to_set (map it_link (it2 :: its)) : gset ptr)); [|set_solver].
      rewrite elem_of_list_to_set. intros (it' & E & Hit')%elem_of_lmap. by apply (Hni it').
Qed.

Lemma dll_perm_nodup h first last its its' :
  dll h first last its -> its' ≡ₚ its -> NoDup (map it_link its') /\
  (list_to_set (map it_link its') : gset ptr) = dom (cells h).
Proof.
  intros D Hp. rewrite (dll_dom _ _ _ _ D). split.
  - rewrite Hp. apply (dll_nodup _ _ _ _ D).
  - by rewrite Hp.
Qed.

(** Linking an isolated element behind the last one. *)
Lemma dll_append h1 h' init itl it :
  seg (cells h1) NULL (init ++ [itl]) NULL ->
  NoDup (map it_link ((init ++ [itl]) ++ [it])) ->
  store_wf h' -> dom (cells h') = list_to_set (map it_link ((init ++ [itl]) ++ [it])) ->
  (forall x, x ∈ init -> cells h' !! it_link x = cells h1 !! it_link x) ->
  cells h' !! it_link itl = Some (mk_link (it_link it) (last_of NULL init) (it_hash itl)) ->
  cells h' !! it_link it = Some (mk_link NULL (it_link itl) (it_hash it)) ->
  @dll T h' (first_of NULL (init ++ [itl])) (it_link it) ((init ++ [itl]) ++ [it]).
Proof.
  intros Hs Hnd Hwf Hd Hm Hl Hi. split; try done.
  - apply seg_app. split.
    + by eapply seg_set_next.
    + rewrite last_of_app. by split.
  - rewrite (first_of_app _ (init ++ [itl])). by destruct init.
  - by rewrite last_of_app.
Qed.

(** Moving a used element to the end of the list. *)
Lemma moveFirst_run c h first last (it : item T) init itl :
  dll h first last (it :: init ++ [itl]) ->
  exists h' first' last',
    moveLinkedListElementToLast (it_link it) (with_links c h first last) =
      Ok (tt, with_links c h' first' last') /\
    dll h' first' last' ((init ++ [itl]) ++ [it]).
Proof.
  intros D. pose proof D as [Hwf Hseg -> -> Hnd Hd].
  pose proof (dll_nonnull _ _ _ _ it D ltac:(set_solver)) as Hn.
  pose proof (dll_nonnull _ _ _ _ itl D ltac:(set_solver)) as Hnl.
  destruct (dll_perm_nodup _ _ _ _ ((init ++ [itl]) ++ [it]) D) as [Hnd' Hd'];
    [by rewrite Permutation_app_comm|].
  destruct (nodup_map_mid it_link [] it (init ++ [itl]) Hnd) as (_ & Hne & _).
  destruct (nodup_map_mid it_link (it :: init) itl [] Hnd) as (Hnel & _ & _).
  assert (it_link it <> it_link itl) by (apply not_eq_sym, Hne; set_solver).
  unfold moveLinkedListElementToLast. do 2 exec1. cbn [first_of].
  change (it :: init ++ [itl]) with ((it :: init) ++ [itl]). rewrite last_of_app. cbn [last_of].
  do 2 exec1. rewrite !bool_decide_false by done. rewrite bool_decide_true by done.
  destruct Hseg as [Hi Hseg].
  destruct (init ++ [itl]) as [|b l] eqn:Eb; [by destruct init|]. cbn [first_of] in Hi.
  pose proof (dll_nonnull _ _ _ _ b D ltac:(set_solver)) as Hnb.
  assert (it_link b <> it_link it) by (apply Hne; set_solver).
  pose proof (proj1 Hseg) as Hb. do 6 exec1.
  set (h1 := update h (it_link b) _).
  assert (seg (cells h1) NULL (b :: l) NULL) as Hs1.
  { eapply seg_set_previous; [exact Hseg| |look]. intros x Hx.
    destruct (nodup_map_mid it_link [it] b l Hnd) as (_ & Hx2 & _). specialize (Hx2 x Hx). look. }
  assert (store_wf h1) as Hwf1 by (by eapply update_wf).
  assert (dom (cells h1) = dom (cells h)) as Hd1 by (by eapply update_dom).
  assert (cells h1 !! it_link it = Some (mk_link (it_link b) NULL (it_hash it))) as Hi1 by look.
  clearbody h1. rewrite <- Eb in *.
  assert (cells h1 !! it_link itl = Some (mk_link NULL (last_of NULL init) (it_hash itl))) as Hl1 by
    (by apply seg_app in Hs1 as [_ [Hl1 _]]).
  repeat exec1. do 3 eexists. split; [reflexivity|].
  replace (it_link b) with (first_of NULL (init ++ [itl])) by (by rewrite Eb).
  apply (dll_append h1); [done|done| | | |look|look].
  - eapply update_wf; [eapply update_wf; [eapply update_wf; [done|look]|look]|look].
  - do 3 (erewrite update_dom by look). by rewrite Hd1.
  - intros x Hx. assert (it_link x <> it_link itl) by (apply Hnel; set_solver).
    assert (it_link x <> it_link it) by (apply Hne; set_solver). look.
Qed.

Lemma moveMiddle_run c h first last (it : item T) l1 a b l2 init itl :
  dll h first last ((l1 ++ [a]) ++ it :: b :: l2) -> b :: l2 = init ++ [itl] ->
  exists h' first' last',
    moveLinkedListElementToLast (it_link it) (with_links c h first last) =
      Ok (tt, with_links c h' first' last') /\
    dll h' first' last' (((l1 ++ [a]) ++ b :: l2) ++ [it]).
Proof.
  intros D Eb. pose proof D as [Hwf Hseg -> -> Hnd Hd].
  destruct (dll_perm_nodup _ _ _ _ (((l1 ++ [a]) ++ b :: l2) ++ [it]) D) as [Hnd' Hd'].
  { rewrite <- (app_assoc (l1 ++ [a])). f_equiv. by rewrite Permutation_app_comm. }
  pose proof (dll_nonnull _ _ _ _ it D ltac:(set_solver)) as Hn.
  pose proof (dll_nonnull _ _ _ _ a D ltac:(set_solver)) as Hna.
  pose proof (dll_nonnull _ _ _ _ b D ltac:(set_solver)) as Hnb.
  assert (itl ∈ b :: l2) as Hil by (rewrite Eb; set_solver).
  pose proof (dll_nonnull _ _ _ _ itl D ltac:(set_solver)) as Hnl.
  destruct (nodup_map_mid it_link (l1 ++ [a]) it (b :: l2) Hnd) as (Hne1 & Hne2 & Hne12).
  assert (first_of NULL ((l1 ++ [a]) ++ it :: b :: l2) = first_of NULL (((l1 ++ [a]) ++ b :: l2) ++ [it])) as Hf
    by (rewrite <- !app_assoc, !first_of_app; by destruct l1).
  assert (exists f0, f0 ∈ l1 ++ [a] /\ first_of NULL ((l1 ++ [a]) ++ it :: b :: l2) = it_link f0) as (f0 & Hf0 & Ef).
  { destruct l1 as [|x l1]; [exists a|exists x]; set_solver. }
  pose proof (dll_nonnull _ _ _ _ f0 D ltac:(set_solver)) as Hn0.
  assert (last_of NULL ((l1 ++ [a]) ++ it :: b :: l2) = it_link itl) as El
    by (rewrite Eb, last_of_app; cbn [last_of]; by rewrite last_of_app).
  assert (it_link f0 <> it_link itl) by (by apply Hne12).
  assert (it_link it <> it_link itl) by (by apply not_eq_sym, Hne2).
  assert (it_link it <> it_link f0) by (by apply not_eq_sym, Hne1).
  assert (it_link a <> it_link it) by (apply Hne1; set_solver).
  assert (it_link b <> it_link it) by (apply Hne2; set_solver).
  assert (it_link a <> it_link b) by (apply Hne12; set_solver).
  rewrite Ef, El in *.
  unfold moveLinkedListElementToLast. do 4 exec1. rewrite !bool_decide_false by done.
  pose proof Hseg as [Hs1 [Hi Hs2]]%seg_app. rewrite last_of_app in Hi. cbn [last_of first_of] in Hi.
  pose proof Hs1 as [_ [Ha _]]%seg_app. cbn [first_of] in Ha. pose proof Hs2 as [Hb _].
  do 6 exec1. set (h1 := update (update (update (update h _ _) _ _) _ _) _ _).
  assert (seg (cells h1) NULL ((l1 ++ [a]) ++ b :: l2) NULL) as Hs'.
  { destruct (nodup_map_mid it_link l1 a (it :: b :: l2)) as (Hx1 & _ & Hx3); [by rewrite <- app_assoc in Hnd|].
    destruct (nodup_map_mid it_link ((l1 ++ [a]) ++ [it]) b l2) as (_ & Hy2 & _); [by rewrite <- app_assoc|].
    apply seg_app. split.
    - eapply seg_set_next; [exact Hs1| |look]. intros x Hx.
      pose proof (Hx1 x Hx). pose proof (Hx3 x it Hx ltac:(set_solver)).
      pose proof (Hx3 x b Hx ltac:(set_solver)). look.
    - rewrite last_of_app. eapply seg_set_previous; [exact Hs2| |look]. intros x Hx.
      pose proof (Hy2 x Hx). pose proof (Hne2 x ltac:(set_solver)).
      pose proof (Hne12 a x ltac:(set_solver) ltac:(set_solver)). look. }
  assert (store_wf h1) as Hwf1.
  { repeat (eapply update_wf; [|look]). done. }
  assert (dom (cells h1) = dom (cells h)) as Hd1 by (unfold h1; by do 4 (erewrite update_dom by look)).
  assert (cells h1 !! it_link it = Some (mk_link NULL NULL (it_hash it))) as Hi1 by look.
  clearbody h1. rewrite Eb, app_assoc in Hs', Hf, Hd', Hnd' |- *.
  assert (cells h1 !! it_link itl = Some (mk_link NULL (last_of NULL ((l1 ++ [a]) ++ init)) (it_hash itl))) as Hl1 by
    (by apply seg_app in Hs' as [_ [Hl1 _]]).
  repeat exec1. do 3 eexists. split; [reflexivity|].
  rewrite Hf, (first_of_app _ _ [it]). change (first_of (first_of NULL [it]) (((l1 ++ [a]) ++ init) ++ [itl]))
    with (first_of (it_link it) (((l1 ++ [a]) ++ init) ++ [itl])).
  replace (first_of (it_link it) (((l1 ++ [a]) ++ init) ++ [itl])) with
    (first_of NULL (((l1 ++ [a]) ++ init) ++ [itl])) by (by destruct l1).
  apply (dll_append h1); [done|done| | | |look|look].
  - repeat (eapply update_wf; [|look]). done.
  - do 2 (erewrite update_dom by look). by rewrite Hd1.
  - intros x Hx. rewrite Eb in *.
    destruct (nodup_map_mid it_link ((l1 ++ [a]) ++ init) itl [it]) as (Hx1 & _ & Hx3);
      [by rewrite <- app_assoc in Hnd'|].
    pose proof (Hx1 x Hx). pose proof (Hx3 x it Hx ltac:(set_solver)). look.
Qed.

Lemma moveLinkedListElementToLast_run c h first last (it : item T) l1 l2 :
  dll h first last (l1 ++ it :: l2) ->
  exists h' first' last',
    moveLinkedListElementToLast (it_link it) (with_links c h first last) =
      Ok (tt, with_links c h' first' last') /\
    dll h' first' last' (l1 ++ l2 ++ [it]).
Proof.
  intros D. destruct l2 as [|b l2].
  - (* already the last one *)
    pose proof D as [Hwf Hseg Hf Hl Hnd Hd].
    pose proof (dll_nonnull _ _ _ _ it D ltac:(set_solver)) as Hn.
    rewrite last_of_app in Hl. cbn [last_of] in Hl. subst last.
    apply seg_app in Hseg as [_ [Hi _]]. exists h, first, (it_link it). split; [|exact D].
    assert (first <> NULL) as Hnf.
    { subst first. destruct l1 as [|x l1]; [done|]. apply (dll_nonnull _ _ _ _ x D). set_solver. }
    unfold moveLinkedListElementToLast. do 4 exec1. case_bool_decide; [done|].
    rewrite bool_decide_true by done. exec1. done.
  - destruct (exists_last (l := b :: l2) ltac:(done)) as (init & itl & Eb).
    destruct (decide (l1 = [])) as [->|Hne].
    + rewrite !app_nil_l in *. rewrite Eb in D |- *. by apply moveFirst_run.
    + destruct (exists_last Hne) as (l1' & a & ->). rewrite app_assoc.
      by eapply moveMiddle_run.
Qed.
End Links.

(** ** The whole cache represents a list of pairs *)

Section Rep.
Context {T : Type}.
Variable objectBytes : T -> Z.
Variable sizeof_string : Z.
Local Abbreviation sizeUsed := (sizeUsed objectBytes sizeof_string).
Local Abbreviation entryBytes := (entryBytes objectBytes sizeof_string).
Implicit Types (c : cache T) (its : list (item T)).

Definition ent (it : item T) : ptr * entry T :=
  (it_entry it, mk_entry (it_key it) (it_obj it) (entryBytes (it_obj it))).
Definition slot (it : item T) : Z * (ptr * ptr) := (it_hash it, (it_entry it, it_link it)).

Fixpoint used_by its : Z :=
  match its with [] => 0 | it :: its' => sizeUsed (it_obj it) + used_by its' end.

(** [ex] are entries that are allocated and not yet in the map. *)
Record rep c (ex : list (ptr * entry T)) its : Prop := {
  rep_dll : dll (linkHeap c) (elementsLinkListFirst c) (elementsLinkListLast c) its;
  rep_map : cacheEntries c = list_to_map (map slot its);
  rep_hashes : NoDup (map it_hash its);
  rep_ewf : store_wf (entryHeap c);
  rep_heap : cells (entryHeap c) = list_to_map (ex ++ map ent its);
  rep_entries : NoDup (map fst (ex ++ map ent its));
  rep_used : totalSizeUsed c = used_by its;
  rep_budget : used_by its <= cacheTotalByteBudget c < 2 ^ 32 }.

Definition pairs its : list (str * T) := map (fun it => (it_key it, it_obj it)) its.

(** The cache [c] holds exactly the pairs [l]; nothing else is allocated. *)
Definition represents c (l : list (str * T)) : Prop := exists its, rep c [] its /\ pairs its = l.

Lemma sizeUsed_nonneg o : 0 <= sizeUsed o < 2 ^ 32.
Proof. apply (wrap_bounds 32). lia. Qed.

Lemma used_by_nonneg its : 0 <= used_by its.
Proof. induction its as [|it its IH]; cbn; [lia|]. pose proof (sizeUsed_nonneg (it_obj it)). lia. Qed.

Lemma used_by_app l1 l2 : used_by (l1 ++ l2) = used_by l1 + used_by l2.
Proof. induction l1 as [|it l1 IH]; cbn; lia. Qed.

Lemma used_by_pairs its : used_by its = spec_used objectBytes sizeof_string (pairs its).
Proof. induction its as [|it its IH]; cbn; [done|]. by rewrite IH. Qed.

Lemma fst_slots its : map fst (map slot its) = map it_hash its.
Proof. by rewrite map_map. Qed.

(** Taking a pair out of a map built from a list. *)
Lemma delete_list_to_map {K : Type} `{Countable K} {A} (l1 l2 : list (K * A)) k v :
  NoDup (map fst (l1 ++ (k, v) :: l2)) ->
  delete k (list_to_map (l1 ++ (k, v) :: l2) : gmap K A) = list_to_map (l1 ++ l2).
Proof.
  intros Hnd. assert (l1 ++ (k, v) :: l2 ≡ₚ (k, v) :: l1 ++ l2) as Hp by (by rewrite Permutation_middle).
  rewrite (list_to_map_proper _ _ Hnd Hp). cbn. apply delete_insert_id.
  apply not_elem_of_list_to_map_1. rewrite Hp in Hnd. cbn in Hnd. by apply NoDup_cons in Hnd as [? _].
Qed.

Lemma lookup_list_to_map {K : Type} `{Countable K} {A} (l : list (K * A)) k v :
  NoDup (map fst l) -> (k, v) ∈ l -> (list_to_map l : gmap K A) !! k = Some v.
Proof. intros Hnd Hin. by apply elem_of_list_to_map. Qed.

(** ** Runs over entries *)

Definition with_entries c (h : store (entry T)) : cache T :=
  mk_cache h (linkHeap c) (cacheEntries c) (elementsLinkListFirst c) (elementsLinkListLast c)
    (cacheTotalByteBudget c) (totalSizeUsed c).

Lemma load_entry_run c p e : store_wf (entryHeap c) -> cells (entryHeap c) !! p = Some e ->
  load_entry p c = Ok (e, c).
Proof.
  intros [_ Hwf] He. unfold load_entry, bind, reads, lift. cbn.
  assert (s_load (entryHeap c) p = Ok e) as ->; [|done]. apply s_load_Ok. split; [|done].
  specialize (Hwf p ltac:(eauto)). unfold NULL. lia.
Qed.

Lemma delete_entry_run c p e : store_wf (entryHeap c) -> cells (entryHeap c) !! p = Some e ->
  delete_entry p c =
    Ok (tt, with_entries c (mk_store (delete p (cells (entryHeap c))) (next_addr (entryHeap c)))).
Proof.
  intros [_ Hwf] He. specialize (Hwf p ltac:(eauto)).
  assert (p <> NULL) as Hp by (unfold NULL; lia).
  unfold delete_entry, bind, reads, lift. cbn. unfold s_delete. rewrite decide_False by done.
  assert (s_load (entryHeap c) p = Ok e) as -> by (by apply s_load_Ok). done.
Qed.

(** The size of an entry whose size is unknown is computed and remembered. *)
Lemma bytes_run c p k o n : store_wf (entryHeap c) -> cells (entryHeap c) !! p = Some (mk_entry k o n) ->
  n = 0 \/ n = entryBytes o ->
  getNumberOfBytesUsedByEntry objectBytes sizeof_string p c =
    Ok (sizeUsed o, with_entries c (mk_store (<[p := mk_entry k o (entryBytes o)]> (cells (entryHeap c)))
                                      (next_addr (entryHeap c)))).
Proof.
  intros Hwf He Hn. unfold getNumberOfBytesUsedByEntry, getNumberOfBytes.
  unfold bind at 1. rewrite (bind_run _ _ _ _ _ (load_entry_run c p _ Hwf He)).
  cbn [numberOfBytes objectPointer key].
  destruct (Z.eqb_spec n 0) as [->|Hnz].
  - unfold store_entry, bind, reads, lift. fold (entryBytes o).
    assert (s_store (entryHeap c) p (mk_entry k o (entryBytes o)) = Ok (mk_store
      (<[p := mk_entry k o (entryBytes o)]> (cells (entryHeap c))) (next_addr (entryHeap c)))) as ->; [|done].
    apply s_store_Ok. destruct Hwf as [_ Hwf]. specialize (Hwf p ltac:(eauto)).
    unfold NULL. split; [lia|eauto].
  - destruct Hn as [-> | ->]; [done|]. rewrite insert_id by done. by destruct c as [[]].
Qed.

Lemma bytes_known_run c p k o : store_wf (entryHeap c) ->
  cells (entryHeap c) !! p = Some (mk_entry k o (entryBytes o)) ->
  getNumberOfBytesUsedByEntry objectBytes sizeof_string p c = Ok (sizeUsed o, c).
Proof.
  intros Hwf He. rewrite (bytes_run c p k o (entryBytes o)) by auto. rewrite insert_id by done.
  by destruct c as [[]].
Qed.

Lemma rep_lookup c ex its it : rep c ex its -> it ∈ its ->
  cacheEntries c !! it_hash it = Some (it_entry it, it_link it) /\
  cells (entryHeap c) !! it_entry it = Some (mk_entry (it_key it) (it_obj it) (entryBytes (it_obj it))).
Proof.
  intros R Hin. split.
  - rewrite (rep_map _ _ _ R). apply lookup_list_to_map.
    + rewrite fst_slots. apply (rep_hashes _ _ _ R).
    + by apply (elem_of_lmap_2 slot).
  - rewrite (rep_heap _ _ _ R). apply lookup_list_to_map; [apply (rep_entries _ _ _ R)|].
    apply elem_of_app. right. by apply (elem_of_lmap_2 ent).
Qed.

Lemma rep_lookup_None c ex its k : rep c ex its -> k ∉ map it_hash its -> cacheEntries c !! k = None.
Proof.
  intros R Hk. rewrite (rep_map _ _ _ R). apply not_elem_of_list_to_map_1.
  by rewrite <- fst_slots in Hk.
Qed.

Lemma kickout_run c ex it its : rep c ex (it :: its) ->
  exists c', LRUCacheReplacementPolicyKickoutOneEntry objectBytes sizeof_string c = Ok (tt, c') /\
    rep c' ex its /\ cacheTotalByteBudget c' = cacheTotalByteBudget c.
Proof.
  intros R. pose proof R as [D Hm Hh Hew He Hen Hu Hb].
  destruct (removeTheOldest_run c _ _ _ _ _ D) as (h' & f' & l' & Hrun & D').
  rewrite <- with_links_id in Hrun. unfold LRUCacheReplacementPolicyKickoutOneEntry.
  rewrite (bind_run _ _ _ _ _ Hrun). set (c1 := with_links c h' f' l').
  destruct (rep_lookup _ _ _ it R ltac:(set_solver)) as [Hlm Hle].
  change (bind (reads cacheEntries) ?k c1) with (k (cacheEntries c) c1). cbn beta. rewrite Hlm.
  rewrite (bind_run _ _ _ _ _ (bytes_known_run c1 _ _ _ Hew Hle)).
  rewrite (bind_run _ _ _ _ _ (delete_entry_run c1 _ _ Hew Hle)).
  unfold bind, set_cacheEntries, set_totalSizeUsed, modify, reads, assert_. cbn [totalSizeUsed].
  change (totalSizeUsed (with_entries c1 _)) with (totalSizeUsed c). rewrite Hu. cbn [used_by].
  pose proof (used_by_nonneg its) as Hpos. pose proof (sizeUsed_nonneg (it_obj it)) as Hs.
  destruct (Z.leb_spec (sizeUsed (it_obj it)) (sizeUsed (it_obj it) + used_by its)); [|lia].
  cbn [used_by] in Hb.
  replace (wrap32 (sizeUsed (it_obj it) + used_by its - sizeUsed (it_obj it))) with (used_by its).
  2: { rewrite wrap_id; [lia|]. unfold is_uint. lia. }
  eexists. split; [reflexivity|]. split; [|done].
  split; cbn -[wrap Z.pow]; try done; try lia.
  - rewrite Hm. cbn [map]. apply (delete_list_to_map [] (map slot its)). 
    change (NoDup (map fst (map slot (it :: its)))). by rewrite fst_slots.
  - cbn in Hh. by apply NoDup_cons in Hh as [_ Hh].
  - by apply remove_wf.
  - rewrite He. cbn [map]. by apply delete_list_to_map.
  - rewrite map_app in Hen |- *. cbn in Hen. apply NoDup_app in Hen as (H1 & H2 & [_ H3]%NoDup_cons).
    apply NoDup_app. split; [done|]. split; [|done]. intros x Hx ?. apply (H2 x Hx). apply elem_of_cons; by right.
Qed.

(** The items that leave. *)
Fixpoint evict (budget needed : Z) its : list (item T) :=
  match its with
  | [] => []
  | _ :: its' => if needed <=? budget - used_by its then its else evict budget needed its'
  end.

Lemma evict_pairs budget needed its :
  pairs (evict budget needed its) = spec_evict objectBytes sizeof_string budget needed (pairs its).
Proof.
  induction its as [|it its IH]; [done|]. cbn [evict pairs map spec_evict].
  change ((it_key it, it_obj it) :: map _ its) with (pairs (it :: its)).
  rewrite <- used_by_pairs. by destruct (_ <=? _).
Qed.

Lemma evict_fits budget needed its : 0 <= needed <= budget ->
  needed <= budget - used_by (evict budget needed its).
Proof.
  intros Hn. induction its as [|it its IH]; cbn [evict]; [cbn; lia|].
  destruct (Z.leb_spec needed (budget - used_by (it :: its))); lia.
Qed.

Lemma budgetLeft_rep c ex its : rep c ex its ->
  budgetLeft c = cacheTotalByteBudget c - used_by its.
Proof.
  intros R. pose proof (rep_budget _ _ _ R). pose proof (used_by_nonneg its).
  unfold budgetLeft. rewrite (rep_used _ _ _ R), wrap_id; [done|]. unfold is_uint. lia.
Qed.

(** [while(true)] ends: every round removes an entry, and an empty cache has
    room for anything that is not larger than the budget. *)
Lemma kickout_loop_run fuel : forall c ex its needed, rep c ex its ->
  (length its < fuel)%nat -> 0 <= needed <= cacheTotalByteBudget c ->
  cacheTotalByteBudget c - used_by its < needed ->
  exists c', kickout_loop objectBytes sizeof_string fuel needed c = Ok (tt, c') /\
    rep c' ex (evict (cacheTotalByteBudget c) needed its) /\
    cacheTotalByteBudget c' = cacheTotalByteBudget c.
Proof.
  induction fuel as [|fuel IH]; intros c ex its needed R Hf Hn Hlt; [lia|]. cbn [kickout_loop].
  destruct its as [|it its]; [cbn [used_by] in Hlt; lia|].
  destruct (kickout_run c ex it its R) as (c1 & Hk & R1 & Hb1).
  rewrite (bind_run _ _ _ _ _ Hk).
  change (bind (reads budgetLeft) ?k c1) with (k (budgetLeft c1) c1). cbn beta.
  rewrite (budgetLeft_rep _ _ _ R1), Hb1. cbn [evict].
  destruct (Z.leb_spec needed (cacheTotalByteBudget c - used_by (it :: its))); [lia|].
  destruct (Z.leb_spec needed (cacheTotalByteBudget c - used_by its)) as [Hle|Hgt].
  - exists c1. split; [done|]. split; [|done]. destruct its as [|it' its]; [done|]. cbn [evict].
    destruct (Z.leb_spec needed (cacheTotalByteBudget c - used_by (it' :: its))); [done|lia].
  - rewrite <- Hb1 in *. apply IH; try done; cbn in Hf; lia.
Qed.

Lemma evict_id budget needed its : needed <= budget - used_by its -> evict budget needed its = its.
Proof.
  destruct its as [|it its]; [done|]. cbn [evict]. intros H.
  by destruct (Z.leb_spec needed (budget - used_by (it :: its))); [|lia].
Qed.

#[local] Instance used_by_perm : Proper ((≡ₚ) ==> eq) used_by.
Proof. induction 1; cbn; lia. Qed.

Lemma rep_perm c ex its its' h f l : rep c ex its -> its ≡ₚ its' -> dll h f l its' ->
  rep (with_links c h f l) ex its'.
Proof.
  intros [D Hm Hh Hew He Hen Hu Hb] Hp D'. split; cbn -[Z.pow]; try done.
  - rewrite Hm. apply list_to_map_proper; [by rewrite fst_slots|by rewrite Hp].
  - by rewrite <- Hp.
  - rewrite He. apply list_to_map_proper; [done|by rewrite Hp].
  - by rewrite <- Hp.
  - by rewrite <- Hp.
  - by rewrite <- Hp.
Qed.

Lemma move_rep c ex l1 it l2 : rep c ex (l1 ++ it :: l2) ->
  exists c', moveLinkedListElementToLast (it_link it) c = Ok (tt, c') /\
    rep c' ex (l1 ++ l2 ++ [it]) /\ entryHeap c' = entryHeap c /\
    cacheTotalByteBudget c' = cacheTotalByteBudget c.
Proof.
  intros R. destruct (moveLinkedListElementToLast_run c _ _ _ _ _ _ (rep_dll _ _ _ R))
    as (h' & f' & l' & Hrun & D'). rewrite <- with_links_id in Hrun.
  eexists. split; [exact Hrun|]. split; [|done]. eapply rep_perm; [exact R| |exact D'].
  f_equiv. by rewrite Permutation_app_comm.
Qed.

(** The entry that [put] allocates first. *)
Definition fresh_entry c (k : str) (o : T) : ptr * entry T :=
  (next_addr (entryHeap c), mk_entry k o (entryBytes o)).

Lemma new_entry_run {B} c its k o (K : ptr -> Z -> st (cache T) B) : rep c [] its ->
  exists c1, bind (new_entry k o) (fun e =>
      bind (getNumberOfBytesUsedByEntry objectBytes sizeof_string e) (K e)) c =
    K (next_addr (entryHeap c)) (sizeUsed o) c1 /\
    rep c1 [fresh_entry c k o] its /\ cacheTotalByteBudget c1 = cacheTotalByteBudget c.
Proof.
  intros R. pose proof R as [D Hm Hh Hew He Hen Hu Hb]. set (p := next_addr (entryHeap c)).
  pose proof (store_wf_fresh _ Hew) as Hfr. fold p in Hfr.
  set (c0 := with_entries c (s_new (entryHeap c) (mk_entry k o 0)).2).
  assert (new_entry k o c = Ok (p, c0)) as Hnew by done.
  rewrite (bind_run _ _ _ _ _ Hnew).
  assert (store_wf (entryHeap c0)) as Hew0 by (by apply s_new_wf).
  assert (cells (entryHeap c0) !! p = Some (mk_entry k o 0)) as Hl0 by (cbn; apply lookup_insert_eq).
  rewrite (bind_run _ _ _ _ _ (bytes_run c0 p k o 0 Hew0 Hl0 ltac:(by left))).
  eexists. split; [reflexivity|]. split; [|done]. split; cbn -[Z.pow entryBytes]; try done.
  - apply (s_store_wf _ p (mk_entry k o (entryBytes o)) _ Hew0). apply s_store_Ok.
    split; [|eauto]. destruct Hew0 as [_ Hew0]. specialize (Hew0 p ltac:(eauto)). unfold NULL. lia.
  - rewrite insert_insert_eq. by rewrite He.
  - apply NoDup_cons. split; [|exact Hen]. rewrite He in Hfr.
    intros Hin. apply not_elem_of_list_to_map_2 in Hfr. by apply Hfr.
Qed.

Lemma drop_entry_rep c p e its : rep c [(p, e)] its ->
  exists c', delete_entry p c = Ok (tt, c') /\ rep c' [] its /\
    cacheTotalByteBudget c' = cacheTotalByteBudget c.
Proof.
  intros [D Hm Hh Hew He Hen Hu Hb]. eexists. split; [|split].
  - eapply delete_entry_run; [done|]. rewrite He. apply lookup_insert_eq.
  - split; cbn -[Z.pow]; try done.
    + by apply remove_wf.
    + rewrite He. by apply (delete_list_to_map [] (map ent its)).
    + cbn in Hen. by apply NoDup_cons in Hen as [_ Hen].
  - done.
Qed.

Lemma used_room c p e its n : rep c [(p, e)] its -> 0 <= n ->
  n <= cacheTotalByteBudget c - used_by its ->
  wrap32 (totalSizeUsed c + n) = used_by its + n /\ used_by its + n <= cacheTotalByteBudget c < 2 ^ 32.
Proof.
  intros R Hn Hr. pose proof (rep_budget _ _ _ R). pose proof (used_by_nonneg its).
  rewrite (rep_used _ _ _ R), wrap_id; [lia|]. unfold is_uint. lia.
Qed.

(** The replacement of the entry of the same hash, up to the move. *)
Lemma replace_rep c p k o l1 it l2 :
  rep c [(p, mk_entry k o (entryBytes o))] (l1 ++ it :: l2) -> it_hash it = hashDJB2 k ->
  sizeUsed o <= cacheTotalByteBudget c - used_by (l1 ++ it :: l2) ->
  rep (mk_cache (mk_store (delete (it_entry it) (cells (entryHeap c))) (next_addr (entryHeap c)))
         (linkHeap c) (<[hashDJB2 k := (p, it_link it)]> (cacheEntries c))
         (elementsLinkListFirst c) (elementsLinkListLast c) (cacheTotalByteBudget c)
         (used_by (l1 ++ it :: l2) + sizeUsed o - sizeUsed (it_obj it)))
    [] (l1 ++ mk_item (it_link it) p k o :: l2).
Proof.
  intros [D Hm Hh Hew He Hen Hu Hb] Hk Hfit. set (it' := mk_item (it_link it) p k o).
  assert (map it_link (l1 ++ it' :: l2) = map it_link (l1 ++ it :: l2)) as El by (by rewrite !map_app).
  assert (map it_hash (l1 ++ it' :: l2) = map it_hash (l1 ++ it :: l2)) as Eh
    by (rewrite !map_app; cbn; by rewrite Hk).
  assert (forall m a b, seg m a (l1 ++ it :: l2) b -> seg m a (l1 ++ it' :: l2) b) as Hsg.
  { intros m a b. rewrite !seg_app. cbn. unfold it_hash in *. cbn. by rewrite Hk. }
  assert ([(p, mk_entry k o (entryBytes o))] ++ map ent (l1 ++ it :: l2) ≡ₚ
          ent it :: map ent (l1 ++ it' :: l2)) as HP.
  { rewrite !map_app. cbn [map]. rewrite <- !Permutation_middle. reflexivity. }
  pose proof Hen as Hen'. rewrite HP in Hen'. cbn [map] in Hen'. apply NoDup_cons in Hen' as [Hni Hnd'].
  pose proof (sizeUsed_nonneg o). pose proof (sizeUsed_nonneg (it_obj it)).
  pose proof (used_by_nonneg l1). pose proof (used_by_nonneg l2).
  rewrite used_by_app in *. cbn [used_by] in *.
  split; cbn -[Z.pow it_hash]; try (by rewrite ?Eh).
  - destruct D as [? ? -> -> ? ?]. split; try done; rewrite ?El; auto; rewrite ?first_of_app, ?last_of_app; done.
  - rewrite Hm. change (hashDJB2 k) with (it_hash it').
    assert (l1 ++ it' :: l2 ≡ₚ it' :: l1 ++ l2) as P1 by (by rewrite Permutation_middle).
    assert (l1 ++ it :: l2 ≡ₚ it :: l1 ++ l2) as P2 by (by rewrite Permutation_middle).
    rewrite (list_to_map_proper (map slot (l1 ++ it' :: l2)) (map slot (it' :: l1 ++ l2)));
      [|by rewrite fst_slots, Eh|by rewrite P1].
    rewrite (list_to_map_proper (map slot (l1 ++ it :: l2)) (map slot (it :: l1 ++ l2)));
      [|by rewrite fst_slots|by rewrite P2].
    cbn [map slot list_to_map foldr curry]. cbn. unfold it_hash in *. cbn. rewrite Hk.
    by rewrite insert_insert_eq.
  - by apply remove_wf.
  - rewrite He, (list_to_map_proper (_ :: map ent _) (_ :: map ent _) Hen HP). cbn. apply delete_insert_id.
    by apply not_elem_of_list_to_map_1.
  - rewrite used_by_app. cbn. lia.
  - rewrite used_by_app. cbn. lia.
Qed.

Lemma pairs_app l1 l2 : pairs (l1 ++ l2) = pairs l1 ++ pairs l2.
Proof. apply map_app. Qed.

Lemma filter_absent (k : str) its : (forall it, it ∈ its -> it_hash it <> hashDJB2 k) ->
  List.filter (fun p => negb (same_hash k p)) (pairs its) = pairs its.
Proof.
  induction its as [|it its IH]; intros H; [done|]. cbn -[hashDJB2].
  unfold same_hash at 1. cbn [fst]. change (hashDJB2 (it_key it)) with (it_hash it).
  destruct (Z.eqb_spec (it_hash it) (hashDJB2 k)) as [E|_]; cbn [negb].
  - by apply H in E; [|set_solver].
  - f_equal. apply IH. intros; apply H. set_solver.
Qed.

Lemma filter_present (k : str) l1 it l2 : NoDup (map it_hash (l1 ++ it :: l2)) ->
  it_hash it = hashDJB2 k ->
  List.filter (fun p => negb (same_hash k p)) (pairs (l1 ++ it :: l2)) = pairs (l1 ++ l2).
Proof.
  intros Hnd Hk. apply nodup_map_mid in Hnd as (H1 & H2 & _). rewrite Hk in *.
  rewrite !pairs_app, List.filter_app, filter_absent by done. f_equal. cbn -[hashDJB2].
  unfold same_hash at 1. cbn [fst]. change (hashDJB2 (it_key it)) with (it_hash it).
  rewrite Hk, Z.eqb_refl. cbn [negb]. by apply filter_absent.
Qed.

Lemma find_hash (k : str) its :
  (exists l1 it l2, its = l1 ++ it :: l2 /\ it_hash it = hashDJB2 k) \/
  hashDJB2 k ∉ map it_hash its.
Proof.
  destruct (decide (hashDJB2 k ∈ map it_hash its)) as [(it & E & Hin)%elem_of_lmap|]; [left|by right].
  apply list_elem_of_split in Hin as (l1 & l2 & ->). eauto 6.
Qed.

Lemma find_absent (k : str) its : hashDJB2 k ∉ map it_hash its ->
  List.find (same_hash k) (pairs its) = None.
Proof.
  induction its as [|it its IH]; intros H; [done|]. cbn [map] in H. cbn -[hashDJB2].
  unfold same_hash at 1. cbn [fst]. change (hashDJB2 (it_key it)) with (it_hash it).
  destruct (Z.eqb_spec (it_hash it) (hashDJB2 k)) as [E|_].
  - destruct H. rewrite <- E. apply elem_of_cons. by left.
  - apply IH. intros Hin. apply H. apply elem_of_cons. by right.
Qed.

Lemma find_present (k : str) l1 it l2 : NoDup (map it_hash (l1 ++ it :: l2)) ->
  it_hash it = hashDJB2 k ->
  List.find (same_hash k) (pairs (l1 ++ it :: l2)) = Some (it_key it, it_obj it).
Proof.
  intros Hnd Hk. apply nodup_map_mid in Hnd as (H1 & _ & _). rewrite Hk in H1.
  induction l1 as [|it1 l1 IH]; cbn -[hashDJB2]; unfold same_hash at 1; cbn [fst];
    change (hashDJB2 (it_key ?i)) with (it_hash i).
  - by rewrite Hk, Z.eqb_refl.
  - destruct (Z.eqb_spec (it_hash it1) (hashDJB2 k)) as [E|_]; [by apply H1 in E; [|set_solver]|].
    apply IH. intros; apply H1; set_solver.
Qed.

(** The insertion proper, once there is room. *)
Lemma insert_run c p k o its :
  rep c [(p, mk_entry k o (entryBytes o))] its -> p <> NULL ->
  sizeUsed o <= cacheTotalByteBudget c - used_by its ->
  exists c', put_insert objectBytes sizeof_string k p (sizeUsed o) c = Ok (true, c') /\
    represents c' (List.filter (fun p => negb (same_hash k p)) (pairs its) ++ [(k, o)]) /\
    cacheTotalByteBudget c' = cacheTotalByteBudget c.
Proof.
  intros R Hp Hfit. pose proof (sizeUsed_nonneg o) as Hso.
  destruct (used_room _ _ _ _ (sizeUsed o) R ltac:(lia) Hfit) as [Hw Hmax].
  unfold put_insert. cbn zeta.
  change (bind (reads cacheTotalByteBudget) ?f c) with (f (cacheTotalByteBudget c) c). cbn beta.
  change (bind (reads cacheEntries) ?f c) with (f (cacheEntries c) c). cbn beta.
  destruct (find_hash k its) as [(l1 & it & l2 & -> & Hk)|Hno].
  - destruct (rep_lookup _ _ _ it R ltac:(set_solver)) as [Hlm Hle]. rewrite <- Hk, Hlm.
    rewrite (bind_run _ _ _ _ _ (bytes_known_run c _ _ _ (rep_ewf _ _ _ R) Hle)).
    change (bind (reads totalSizeUsed) ?f c) with (f (totalSizeUsed c) c). cbn beta zeta.
    rewrite Hw. pose proof (sizeUsed_nonneg (it_obj it)) as Hs. rewrite used_by_app in *. cbn [used_by] in *.
    pose proof (used_by_nonneg l1). pose proof (used_by_nonneg l2).
    rewrite (bind_run (assert_ _) _ _ tt _) by (apply assert_run, Z.leb_le; lia).
    rewrite wrap_id by (unfold is_uint; lia).
    unfold bind at 1. unfold set_totalSizeUsed at 1, modify at 1.
    rewrite (bind_run (assert_ _) _ _ tt _) by (apply assert_run, Z.leb_le; lia).
    erewrite (bind_run (delete_entry _)) by (eapply delete_entry_run; [apply (rep_ewf _ _ _ R)|exact Hle]).
    unfold bind at 1. unfold set_cacheEntries at 1, modify at 1. cbn.
    pose proof (replace_rep c p k o l1 it l2 R Hk) as R'.
    rewrite used_by_app in R'. cbn [used_by] in R'. specialize (R' Hfit). rewrite <- Hk in R'.
    destruct (move_rep _ [] l1 (mk_item (it_link it) p k o) l2 R') as (c' & Hrun & R2 & _ & Hb).
    cbn [it_link] in Hrun. unfold bind. cbn in Hrun |- *. rewrite Hrun. exists c'. split; [done|].
    split; [|done]. exists (l1 ++ l2 ++ [mk_item (it_link it) p k o]). split; [done|].
    rewrite filter_present by (try done; apply (rep_hashes _ _ _ R)). by rewrite app_assoc, pairs_app.
  - rewrite (rep_lookup_None _ _ _ _ R Hno). pose proof R as [D Hm Hh Hew He Hen Hu Hb].
    destruct (addNewElementToLinkList_run c _ _ _ _ p k o _ D eq_refl) as (h' & f' & Hrun & D').
    rewrite <- with_links_id in Hrun. rewrite (bind_run _ _ _ _ _ Hrun).
    unfold bind, reads, set_cacheEntries, set_totalSizeUsed, modify, assert_. cbn [with_links
      elementsLinkListLast totalSizeUsed]. rewrite Hw.
    destruct (Z.leb_spec (used_by its + sizeUsed o) (cacheTotalByteBudget c)); [|lia].
    eexists. split; [reflexivity|]. split; [|done].
    set (it := mk_item _ p k o) in D'. exists (its ++ [it]). split.
    + split; cbn -[Z.pow]; try done.
      * rewrite map_app. change (map slot [it]) with [(hashDJB2 k, (p, next_addr (linkHeap c)))].
        rewrite list_to_map_snoc by (rewrite <- fst_slots in Hno; exact Hno).
        by rewrite Hm.
      * rewrite map_app. apply NoDup_app. split; [done|]. split; [|apply NoDup_singleton].
        intros x Hx. cbn [map]. rewrite list_elem_of_singleton. intros ->. by apply Hno.
      * rewrite He. apply (list_to_map_proper ([(p, _)] ++ map ent its)); [done|].
        rewrite map_app. apply Permutation_app_comm.
      * rewrite map_app, Permutation_app_comm. exact Hen.
      * rewrite used_by_app. cbn. lia.
      * rewrite used_by_app. cbn -[Z.pow]. lia.
    + rewrite filter_absent; [apply pairs_app|]. intros it' Hit E. apply Hno. rewrite <- E.
      by apply elem_of_lmap_2.
Qed.

Lemma put_run c its (k : str) (o : T) :
  rep c [] its ->
  exists c', put objectBytes sizeof_string k o c =
      Ok ((spec_put objectBytes sizeof_string (cacheTotalByteBudget c) k o (pairs its)).1, c') /\
    represents c' (spec_put objectBytes sizeof_string (cacheTotalByteBudget c) k o (pairs its)).2 /\
    cacheTotalByteBudget c' = cacheTotalByteBudget c.
Proof.
  intros R. unfold put, spec_put.
  edestruct (new_entry_run (B := bool) c its k o) as (c1 & Hrun & R1 & Hb1); [exact R|].
  rewrite Hrun. clear Hrun.
  change (bind (reads cacheTotalByteBudget) ?f c1) with (f (cacheTotalByteBudget c1) c1). cbn beta.
  rewrite <- Hb1. pose proof (sizeUsed_nonneg o) as Hso.
  destruct (Z.ltb_spec (cacheTotalByteBudget c1) (sizeUsed o)) as [Hbig|Hok].
  { destruct (drop_entry_rep _ _ _ _ R1) as (c' & Hd & R' & Hb'). exists c'.
    rewrite (bind_run _ _ _ _ _ Hd). split; [done|]. split; [|done]. by exists its. }
  change (bind (reads budgetLeft) ?f c1) with (f (budgetLeft c1) c1). cbn beta.
  rewrite (budgetLeft_rep _ _ _ R1).
  change (bind (reads (fun c => S (size (cacheEntries c)))) ?f c1)
    with (f (S (size (cacheEntries c1))) c1). cbn beta.
  assert (exists c2, (if cacheTotalByteBudget c1 - used_by its <? sizeUsed o
      then kickout_loop objectBytes sizeof_string (S (size (cacheEntries c1))) (sizeUsed o)
      else ret tt) c1 = Ok (tt, c2) /\
    rep c2 [fresh_entry c k o] (evict (cacheTotalByteBudget c1) (sizeUsed o) its) /\
    cacheTotalByteBudget c2 = cacheTotalByteBudget c1) as (c2 & Hrun & R2 & Hb2).
  { destruct (Z.ltb_spec (cacheTotalByteBudget c1 - used_by its) (sizeUsed o)).
    - apply kickout_loop_run; try done; try lia. rewrite (rep_map _ _ _ R1).
      rewrite map_size_list_to_map, length_map; [lia|].
      pose proof (rep_hashes _ _ _ R1) as Hh. rewrite <- fst_slots in Hh. exact Hh.
    - exists c1. rewrite evict_id by lia. done. }
  rewrite (bind_run _ _ _ _ _ Hrun). rewrite <- Hb2 in *.
  destruct (insert_run c2 _ k o _ R2) as (c' & Hins & Hrep & Hb').
  { destruct (rep_ewf _ _ _ R) as [? _]. unfold NULL. lia. }
  { apply evict_fits. lia. }
  exists c'. split; [exact Hins|]. split; [|done]. by rewrite <- evict_pairs.
Qed.

Lemma get_run c its (k : str) :
  rep c [] its ->
  exists c', get k c = Ok ((spec_get k (pairs its)).1, c') /\ represents c' (spec_get k (pairs its)).2 /\
    cacheTotalByteBudget c' = cacheTotalByteBudget c.
Proof.
  intros R. unfold get, spec_get.
  change (bind (reads cacheEntries) ?f c) with (f (cacheEntries c) c). cbn beta.
  destruct (find_hash k its) as [(l1 & it & l2 & -> & Hk)|Hno].
  - destruct (rep_lookup _ _ _ it R ltac:(set_solver)) as [Hlm Hle]. rewrite <- Hk, Hlm.
    rewrite (find_present k l1 it l2 (rep_hashes _ _ _ R) Hk).
    rewrite (bind_run _ _ _ _ _ (load_entry_run c _ _ (rep_ewf _ _ _ R) Hle)). cbn [key].
    case_bool_decide as Hkey.
    + destruct (move_rep _ _ _ _ _ R) as (c' & Hrun & R' & Heq & Hb').
      rewrite (bind_run _ _ _ _ _ Hrun). rewrite <- Heq in Hle.
      rewrite (bind_run _ _ _ _ _ (load_entry_run c' _ _ (rep_ewf _ _ _ R') Hle)).
      exists c'. split; [done|]. split; [|done]. exists (l1 ++ l2 ++ [it]). split; [done|].
      rewrite filter_present by (try done; apply (rep_hashes _ _ _ R)). by rewrite app_assoc, pairs_app.
    + exists c. split; [done|]. split; [|done]. by exists (l1 ++ it :: l2).
  - rewrite (rep_lookup_None _ _ _ _ R Hno), find_absent by done.
    exists c. split; [done|]. split; [|done]. by exists its.
Qed.

(** ** Clearing and destruction *)

Lemma delete_links_run its : forall fuel prev c h f l,
  store_wf h -> seg (cells h) prev its NULL -> NoDup (map it_link its) ->
  dom (cells h) = list_to_set (map it_link its) -> (length its <= fuel)%nat ->
  exists h', delete_links fuel (first_of NULL its) (with_links c h f l) = Ok (tt, with_links c h' f l) /\
    cells h' = ∅ /\ store_wf h'.
Proof.
  induction its as [|it its IH]; intros fuel prev c h f l Hwf Hs Hnd Hd Hf.
  - exists h. split; [by destruct fuel|]. split; [|done]. by apply dom_empty_inv_L.
  - destruct fuel as [|fuel]; [cbn in Hf; lia|]. destruct Hs as [Hl Hs]. cbn [delete_links first_of].
    assert (it_link it <> NULL) as Hn.
    { destruct Hwf as [_ Hwf]. specialize (Hwf (it_link it) ltac:(eauto)). unfold NULL. lia. }
    rewrite (proj2 (isNULL_false _) Hn). do 2 exec1.
    destruct (nodup_map_mid it_link [] it its Hnd) as (_ & Hne & _).
    apply (IH fuel (it_link it)).
    + by apply remove_wf.
    + eapply seg_frame; [|exact Hs]. intros x Hx. specialize (Hne x Hx). look.
    + by apply NoDup_cons in Hnd as [_ ?].
    + cbn [cells]. rewrite dom_delete_L, Hd. cbn [map]. rewrite list_to_set_cons.
      assert (it_link it ∉ (list_to_set (map it_link its) : gset ptr)); [|set_solver].
      rewrite elem_of_list_to_set. intros (x & E & Hx)%elem_of_lmap. by apply (Hne x).
    + cbn in Hf. lia.
Qed.

Lemma delete_entries_run (kvs : list (Z * (ptr * ptr))) : forall c,
  store_wf (entryHeap c) -> NoDup (map (fun kv => kv.2.1) kvs) ->
  dom (cells (entryHeap c)) = list_to_set (map (fun kv => kv.2.1) kvs) ->
  exists h', for_each kvs (fun kv => delete_entry kv.2.1) c = Ok (tt, with_entries c h') /\
    cells h' = ∅ /\ store_wf h'.
Proof.
  induction kvs as [|kv kvs IH]; intros c Hwf Hnd Hd.
  - exists (entryHeap c). split; [by destruct c|]. split; [|done]. by apply dom_empty_inv_L.
  - cbn [for_each map] in *. apply NoDup_cons in Hnd as [Hni Hnd].
    assert (exists e, cells (entryHeap c) !! kv.2.1 = Some e) as [e He].
    { apply elem_of_dom. rewrite Hd. set_solver. }
    rewrite (bind_run _ _ _ _ _ (delete_entry_run _ _ _ Hwf He)).
    destruct (IH (with_entries c (mk_store (delete kv.2.1 (cells (entryHeap c))) (next_addr (entryHeap c)))))
      as (h' & Hrun & Hh'); [by apply remove_wf|done| |].
    + cbn [entryHeap with_entries cells]. rewrite dom_delete_L, Hd, list_to_set_cons.
      assert (kv.2.1 ∉ (list_to_set (map (fun kv => kv.2.1) kvs) : gset ptr)) by
        (by rewrite elem_of_list_to_set). set_solver.
    + exists h'. split; [exact Hrun|exact Hh'].
Qed.

(** The map's pairs in the order of its iteration are the pairs of the items. *)
Lemma in_key_order_items c ex its : rep c ex its ->
  exists js, in_key_order (cacheEntries c) = map slot js /\ its ≡ₚ js.
Proof.
  intros R. assert (in_key_order (cacheEntries c) ≡ₚ map slot its) as Hp.
  { unfold in_key_order. rewrite merge_sort_Permutation, (rep_map _ _ _ R).
    apply map_to_list_to_map. pose proof (rep_hashes _ _ _ R) as Hh. rewrite <- fst_slots in Hh. exact Hh. }
  apply Permutation_map_inv in Hp as (js & ? & ?). eauto.
Qed.

Lemma link_fuel_rep c ex its : rep c ex its -> link_fuel c = length its.
Proof.
  intros R. pose proof (rep_dll _ _ _ R) as D. unfold link_fuel.
  rewrite <- size_dom, (dll_dom _ _ _ _ D), size_list_to_set by apply (dll_nodup _ _ _ _ D).
  apply length_map.
Qed.

Lemma rep_entry_dom c its js : rep c [] its -> its ≡ₚ js ->
  NoDup (map (fun kv => kv.2.1) (map slot js)) /\
  dom (cells (entryHeap c)) = list_to_set (map (fun kv => kv.2.1) (map slot js)).
Proof.
  intros R Hp. pose proof (rep_entries _ _ _ R) as Hen. cbn [app] in Hen. rewrite map_map in Hen.
  rewrite map_map. cbn in *. rewrite <- Hp. split; [exact Hen|].
  rewrite (rep_heap _ _ _ R). cbn [app]. rewrite dom_list_to_map_L. f_equal. apply map_map.
Qed.

Lemma clear_run c its : rep c [] its ->
  exists c', clear c = Ok (true, c') /\ rep c' [] [] /\
    cacheTotalByteBudget c' = cacheTotalByteBudget c.
Proof.
  intros R. destruct (in_key_order_items _ _ _ R) as (js & Hj & Hp).
  destruct (rep_entry_dom _ _ _ R Hp) as [Hnd Hd]. unfold clear.
  change (bind (reads cacheEntries) ?f c) with (f (cacheEntries c) c). cbn beta. rewrite Hj.
  destruct (delete_entries_run _ c (rep_ewf _ _ _ R) Hnd Hd) as (he & Hrun & He & Hewf).
  rewrite (bind_run _ _ _ _ _ Hrun). pose proof (rep_dll _ _ _ R) as D.
  unfold bind at 1. unfold set_cacheEntries at 1, modify at 1. cbn [with_entries linkHeap
    entryHeap cacheEntries elementsLinkListFirst elementsLinkListLast cacheTotalByteBudget totalSizeUsed].
  set (c1 := mk_cache he _ ∅ _ _ _ _).
  change (bind (reads link_fuel) ?f c1) with (f (link_fuel c) c1). cbn beta.
  change (bind (reads elementsLinkListFirst) ?f c1) with (f (elementsLinkListFirst c) c1). cbn beta.
  rewrite (link_fuel_rep _ _ _ R), (dll_first _ _ _ _ D).
  destruct (delete_links_run its (length its) NULL c1 (linkHeap c) (elementsLinkListFirst c)
    (elementsLinkListLast c)) as (hl & Hrun2 & Hl & Hlwf); [apply D..|lia|].
  change (with_links c1 (linkHeap c) _ _) with c1 in Hrun2.
  rewrite (bind_run _ _ _ _ _ Hrun2). do 2 exec1. eexists. split; [reflexivity|]. split; [|done].
  pose proof (rep_budget _ _ _ R). pose proof (used_by_nonneg its).
  split; cbn -[Z.pow]; [by apply dll_empty|done|apply NoDup_nil_2|done|done|apply NoDup_nil_2|done|lia].
Qed.

Lemma destroy_run c its : rep c [] its ->
  exists c', destroy c = Ok (tt, c') /\ cells (entryHeap c') = ∅ /\ cells (linkHeap c') = ∅.
Proof.
  intros R. destruct (in_key_order_items _ _ _ R) as (js & Hj & Hp).
  destruct (rep_entry_dom _ _ _ R Hp) as [Hnd Hd]. unfold destroy.
  pose proof (rep_dll _ _ _ R) as D.
  change (bind (reads link_fuel) ?f c) with (f (link_fuel c) c). cbn beta.
  change (bind (reads elementsLinkListFirst) ?f c) with (f (elementsLinkListFirst c) c). cbn beta.
  rewrite (link_fuel_rep _ _ _ R), (dll_first _ _ _ _ D).
  destruct (delete_links_run its (length its) NULL c (linkHeap c) (elementsLinkListFirst c)
    (elementsLinkListLast c)) as (hl & Hrun & Hl & _); [apply D..|lia|].
  rewrite <- with_links_id in Hrun. rewrite (bind_run _ _ _ _ _ Hrun).
  set (c1 := with_links c hl _ _).
  change (bind (reads cacheEntries) ?f c1) with (f (cacheEntries c) c1). cbn beta. rewrite Hj.
  destruct (delete_entries_run (map slot js) c1 (rep_ewf _ _ _ R) Hnd Hd) as (he & Hrun2 & He & _).
  rewrite (bind_run _ _ _ _ _ Hrun2). eexists. split; [reflexivity|]. done.
Qed.

(** ** The consistency check *)

Lemma nonnull_first h f l its l2 : dll h f l its -> (forall x, x ∈ l2 -> x ∈ its) -> l2 <> [] ->
  isNULL (first_of NULL l2) = false.
Proof.
  intros D Hin Hne. destruct l2 as [|it l2]; [done|]. apply isNULL_false.
  apply (dll_nonnull _ _ _ _ it D). set_solver.
Qed.

Lemma check_links_run (l2 : list (item T)) : forall fuel c l1,
  dll (linkHeap c) (elementsLinkListFirst c) (elementsLinkListLast c) (l1 ++ l2) ->
  (length l2 <= fuel)%nat -> check_links fuel (first_of NULL l2) c = Ok (true, c).
Proof.
  induction l2 as [|it l2 IH]; intros fuel c l1 D Hf; [by destruct fuel|].
  destruct fuel as [|fuel]; [cbn in Hf; lia|]. cbn [check_links].
  rewrite (nonnull_first _ _ _ _ (it :: l2) D) by set_solver. cbn [first_of].
  pose proof D as [Hwf Hseg Hfst Hlst Hnd Hd].
  pose proof Hseg as [Hs1 [Hi Hs2]]%seg_app.
  pose proof (dll_nonnull _ _ _ _ it D ltac:(set_solver)) as Hn.
  rewrite (with_links_id c) at 1. do 3 exec1.
  assert ((if isNULL (last_of NULL l1) then ret (bool_decide (it_link it = elementsLinkListFirst c))
     else let! q := load_link (last_of NULL l1) in ret (bool_decide (next q = it_link it))) c
     = Ok (true, c)) as Hback.
  { destruct (decide (l1 = [])) as [->|Hne].
    - cbn. rewrite bool_decide_true by (by rewrite Hfst). done.
    - destruct (last_of_in NULL l1 Hne) as (a & l1' & -> & Ela). rewrite Ela.
      assert (isNULL (it_link a) = false) as -> by (eapply isNULL_link; [exact D|set_solver]).
      apply seg_app in Hs1 as [_ [Ha _]].
      pose proof (dll_nonnull _ _ _ _ a D ltac:(set_solver)) as Hna.
      rewrite (with_links_id c) at 1. exec1. rewrite <- with_links_id.
      by rewrite bool_decide_true. }
  rewrite <- with_links_id, (bind_run _ _ _ _ _ Hback). cbn [negb].
  assert ((if isNULL (first_of NULL l2) then ret (bool_decide (it_link it = elementsLinkListLast c))
     else let! q := load_link (first_of NULL l2) in ret (bool_decide (previous q = it_link it))) c
     = Ok (true, c)) as Hforth.
  { destruct l2 as [|b l2].
    - cbn. rewrite bool_decide_true; [done|]. rewrite Hlst, last_of_app. done.
    - cbn [first_of]. assert (isNULL (it_link b) = false) as -> by (eapply isNULL_link; [exact D|set_solver]).
      destruct Hs2 as [Hb _]. pose proof (dll_nonnull _ _ _ _ b D ltac:(set_solver)) as Hnb.
      rewrite (with_links_id c) at 1. exec1. rewrite <- with_links_id.
      by rewrite bool_decide_true. }
  rewrite (bind_run _ _ _ _ _ Hforth). cbn [negb].
  apply (IH fuel c (l1 ++ [it])); [by rewrite <- app_assoc|cbn in Hf; lia].
Qed.

(** Walking over elements of other hashes changes nothing. *)
Lemma find_link_skip hk element (l2 : list (item T)) : forall fuel c its prev found,
  dll (linkHeap c) (elementsLinkListFirst c) (elementsLinkListLast c) its ->
  (forall x, x ∈ l2 -> x ∈ its /\ it_hash x <> hk) ->
  seg (cells (linkHeap c)) prev l2 NULL -> (length l2 <= fuel)%nat ->
  find_link fuel hk element (first_of NULL l2) found c = Ok (Some found, c).
Proof.
  induction l2 as [|it l2 IH]; intros fuel c its prev found D Hin Hs Hf; [by destruct fuel|].
  destruct fuel as [|fuel]; [cbn in Hf; lia|]. cbn [find_link].
  rewrite (nonnull_first _ _ _ _ (it :: l2) D) by (done || naive_solver). cbn [first_of].
  destruct Hs as [Hi Hs]. pose proof (Hin it ltac:(set_solver)) as [Hit Hne].
  pose proof (dll_nonnull _ _ _ _ it D Hit) as Hn.
  rewrite (with_links_id c) at 1. exec1. rewrite <- with_links_id.
  destruct (Z.eqb_spec hk (it_hash it)) as [E|_]; [by rewrite E in Hne|].
  eapply IH; [exact D| |exact Hs|cbn in Hf; lia]. intros; apply Hin. set_solver.
Qed.

Lemma find_link_run (it : item T) l2 l1 : forall fuel c its prev,
  dll (linkHeap c) (elementsLinkListFirst c) (elementsLinkListLast c) its ->
  NoDup (map it_hash (l1 ++ it :: l2)) -> (forall x, x ∈ l1 ++ it :: l2 -> x ∈ its) ->
  seg (cells (linkHeap c)) prev (l1 ++ it :: l2) NULL -> (length (l1 ++ it :: l2) <= fuel)%nat ->
  find_link fuel (it_hash it) (it_link it) (first_of NULL (l1 ++ it :: l2)) false c = Ok (Some true, c).
Proof.
  induction l1 as [|a l1 IH]; intros fuel c its prev D Hnd Hin Hs Hf;
    (destruct fuel as [|fuel]; [cbn in Hf; lia|]); cbn [find_link];
    rewrite (nonnull_first _ _ _ _ _ D Hin) by done; cbn [first_of app];
    pose proof Hs as [Hi Hs'].
  - pose proof (dll_nonnull _ _ _ _ it D ltac:(set_solver)) as Hn.
    rewrite (with_links_id c) at 1. exec1. rewrite <- with_links_id.
    rewrite Z.eqb_refl, bool_decide_true by done. cbn [negb].
    destruct (nodup_map_mid it_hash [] it l2 Hnd) as (_ & Hne & _).
    eapply find_link_skip; [exact D| |exact Hs'|cbn in Hf; lia]. intros x Hx. split; [|by apply Hne].
    apply Hin. set_solver.
  - pose proof (dll_nonnull _ _ _ _ a D ltac:(set_solver)) as Hn.
    destruct (nodup_map_mid it_hash (a :: l1) it l2 Hnd) as (Hne & _ & _).
    rewrite (with_links_id c) at 1. exec1. rewrite <- with_links_id.
    destruct (Z.eqb_spec (it_hash it) (it_hash a)) as [E|_].
    + by destruct (Hne a ltac:(set_solver)).
    + eapply IH; [exact D| | |exact Hs'|cbn in Hf |- *; lia].
      * cbn in Hnd. by apply NoDup_cons in Hnd as [_ ?].
      * intros; apply Hin. set_solver.
Qed.

Lemma check_entries_run c its js : rep c [] its -> (forall x, x ∈ js -> x ∈ its) ->
  forall acc, 0 <= acc -> acc + used_by js < 2 ^ 32 ->
  check_entries objectBytes sizeof_string (map slot js) acc c = Ok (Some (acc + used_by js), c).
Proof.
  intros R. induction js as [|it js IH]; intros Hin acc Ha Hmax.
  - cbn. by rewrite Z.add_0_r.
  - cbn [map check_entries used_by slot] in *. pose proof (rep_dll _ _ _ R) as D.
    change (bind (reads link_fuel) ?f c) with (f (link_fuel c) c). cbn beta.
    change (bind (reads elementsLinkListFirst) ?f c) with (f (elementsLinkListFirst c) c). cbn beta.
    pose proof (Hin it ltac:(set_solver)) as (l1 & l2 & E)%list_elem_of_split.
    rewrite (link_fuel_rep _ _ _ R), (dll_first _ _ _ _ D).
    assert (find_link (length its) (it_hash it) (it_link it) (first_of NULL its) false c
            = Ok (Some true, c)) as Hfind.
    { rewrite E at 1 2. eapply find_link_run; [exact D| | | |done]; rewrite <- E.
      - apply (rep_hashes _ _ _ R).
      - done.
      - apply (dll_seg _ _ _ _ D). }
    rewrite (bind_run _ _ _ _ _ Hfind).
    destruct (rep_lookup _ _ _ it R ltac:(apply Hin; set_solver)) as [_ Hle].
    rewrite (bind_run _ _ _ _ _ (bytes_known_run c _ _ _ (rep_ewf _ _ _ R) Hle)).
    pose proof (sizeUsed_nonneg (it_obj it)). pose proof (used_by_nonneg js).
    rewrite wrap_id by (unfold is_uint; lia). rewrite IH by (try lia; set_solver).
    do 3 f_equal. lia.
Qed.

Lemma check_run c its : rep c [] its ->
  checkCacheConsistency objectBytes sizeof_string c = Ok (true, c).
Proof.
  intros R. pose proof (rep_dll _ _ _ R) as D. unfold checkCacheConsistency.
  change (bind (reads elementsLinkListFirst) ?f c) with (f (elementsLinkListFirst c) c). cbn beta.
  change (bind (reads elementsLinkListLast) ?f c) with (f (elementsLinkListLast c) c). cbn beta.
  destruct its as [|it its].
  { by rewrite (dll_first _ _ _ _ D), (dll_last _ _ _ _ D). }
  assert (isNULL (elementsLinkListFirst c) = false) as Hf.
  { rewrite (dll_first _ _ _ _ D). eapply isNULL_link; [exact D|set_solver]. }
  assert (isNULL (elementsLinkListLast c) = false) as Hl.
  { rewrite (dll_last _ _ _ _ D). destruct (last_of_in NULL (it :: its)) as (a & l & E & ->); [done|].
    eapply isNULL_link; [exact D|rewrite E; set_solver]. }
  rewrite Hf, Hl. cbn [andb negb].
  pose proof (dll_nonnull _ _ _ _ it D ltac:(set_solver)) as Hn.
  pose proof (proj1 (dll_seg _ _ _ _ D)) as Hi.
  rewrite (dll_first _ _ _ _ D). cbn [first_of].
  rewrite (with_links_id c) at 1. exec1. rewrite <- with_links_id. cbn [isNULL].
  change (isNULL NULL) with true. cbn [negb].
  change (bind (reads link_fuel) ?f c) with (f (link_fuel c) c). cbn beta.
  rewrite (link_fuel_rep _ _ _ R).
  rewrite (bind_run _ _ _ _ _ (check_links_run (it :: its) _ c [] D (le_n _))). cbn [negb].
  change (bind (reads cacheEntries) ?f c) with (f (cacheEntries c) c). cbn beta.
  destruct (in_key_order_items _ _ _ R) as (js & -> & Hp). pose proof (rep_budget _ _ _ R).
  assert (used_by js = used_by (it :: its)) as Hu by (by rewrite Hp).
  rewrite (bind_run _ _ _ _ _ (check_entries_run c _ js R ltac:(intros; by rewrite Hp) 0 ltac:(lia) ltac:(lia))).
  change (bind (reads totalSizeUsed) ?f c) with (f (totalSizeUsed c) c). cbn beta.
  by rewrite (rep_used _ _ _ R), Hu, Z.eqb_refl.
Qed.

(** ** Histories *)

Inductive op := Put (k : str) (o : T) | Get (k : str) | Clear.

(** What an operation answers: [put] a flag, [get] an object or nothing. *)
Definition answer : Type := bool + option T.

Definition run_op (x : op) : st (cache T) answer :=
  match x with
  | Put k o => let! b := put objectBytes sizeof_string k o in ret (inl b)
  | Get k => let! r := get k in ret (inr r)
  | Clear => let! b := clear in ret (inl b)
  end.

Definition spec_op (budget : Z) (x : op) (l : list (str * T)) : answer * list (str * T) :=
  match x with
  | Put k o => let (b, l') := spec_put objectBytes sizeof_string budget k o l in (inl b, l')
  | Get k => let (r, l') := spec_get k l in (inr r, l')
  | Clear => (inl true, [])
  end.

Fixpoint run_ops (xs : list op) : st (cache T) (list answer) :=
  match xs with
  | [] => ret []
  | x :: xs' => let! a := run_op x in let! r := run_ops xs' in ret (a :: r)
  end.

Fixpoint spec_ops (budget : Z) (xs : list op) (l : list (str * T)) : list answer * list (str * T) :=
  match xs with
  | [] => ([], l)
  | x :: xs' =>
      let (a, l1) := spec_op budget x l in
      let (r, l2) := spec_ops budget xs' l1 in (a :: r, l2)
  end.
(** [put] implements the abstract insertion: an object larger than the
    budget is refused and nothing changes; otherwise the least recently used
    pairs leave, one by one, until there is room, the pair of the same hash (if
    one is left) is replaced, and the new pair becomes the most recently used.
    The kick-out loop ends, no assertion fails, no pointer dangles and nothing
    leaks. *)
Theorem put_refines c l (k : str) (o : T) :
  represents c l ->
  exists c', put objectBytes sizeof_string k o c =
      Ok ((spec_put objectBytes sizeof_string (cacheTotalByteBudget c) k o l).1, c') /\
    represents c' (spec_put objectBytes sizeof_string (cacheTotalByteBudget c) k o l).2 /\
    cacheTotalByteBudget c' = cacheTotalByteBudget c.
Proof. intros (its & R & <-). by apply put_run. Qed.

(** [get] implements the abstract lookup: a hit needs the same key, not
    only the same hash; it answers the object stored last under the key and makes
    the pair the most recently used one; a miss changes nothing. *)
Theorem get_refines c l (k : str) :
  represents c l ->
  exists c', get k c = Ok ((spec_get k l).1, c') /\ represents c' (spec_get k l).2 /\
    cacheTotalByteBudget c' = cacheTotalByteBudget c.
Proof. intros (its & R & <-). by apply get_run. Qed.

Lemma run_op_run c l x : represents c l ->
  exists c', run_op x c = Ok ((spec_op (cacheTotalByteBudget c) x l).1, c') /\
    represents c' (spec_op (cacheTotalByteBudget c) x l).2 /\
    cacheTotalByteBudget c' = cacheTotalByteBudget c.
Proof.
  intros (its & R & <-). destruct x as [k o|k|]; cbn [run_op spec_op].
  - destruct (put_run c its k o R) as (c' & Hrun & H). exists c'. rewrite (bind_run _ _ _ _ _ Hrun).
    destruct (spec_put _ _ _ _ _ _). done.
  - destruct (get_run c its k R) as (c' & Hrun & H). exists c'. rewrite (bind_run _ _ _ _ _ Hrun).
    destruct (spec_get _ _). done.
  - destruct (clear_run c its R) as (c' & Hrun & R' & Hb). exists c'. rewrite (bind_run _ _ _ _ _ Hrun).
    split; [done|]. split; [by exists []|done].
Qed.

Lemma run_ops_run xs : forall c l, represents c l ->
  exists c', run_ops xs c = Ok ((spec_ops (cacheTotalByteBudget c) xs l).1, c') /\
    represents c' (spec_ops (cacheTotalByteBudget c) xs l).2 /\
    cacheTotalByteBudget c' = cacheTotalByteBudget c.
Proof.
  induction xs as [|x xs IH]; intros c l Hc; cbn [run_ops spec_ops]; [by exists c|].
  destruct (run_op_run c l x Hc) as (c1 & Hrun & Hc1 & Hb). rewrite (bind_run _ _ _ _ _ Hrun).
  destruct (IH c1 _ Hc1) as (c2 & Hrun2 & Hc2 & Hb2). exists c2. rewrite (bind_run _ _ _ _ _ Hrun2).
  rewrite Hb in *. destruct (spec_op _ x l) as [a l1]. cbn in *. by destruct (spec_ops _ xs l1).
Qed.

Lemma new_cache_represents budget : 0 <= budget < 2 ^ 32 -> represents (new_cache budget) [].
Proof.
  intros Hb. exists []. split; [|done].
  split; cbn -[Z.pow]; try done; try apply NoDup_nil_2; auto with srch2.
  by apply dll_empty; auto with srch2.
Qed.

(** (C30) From a new cache, every sequence of puts, gets and clears answers what
    the abstract cache answers; afterwards [checkCacheConsistency] holds, the
    budget is respected, and destroying the cache frees everything it allocated. *)
Theorem history_refines (budget : Z) (xs : list op) :
  0 <= budget < 2 ^ 32 ->
  exists c, run_ops xs (new_cache budget) = Ok ((spec_ops budget xs []).1, c) /\
    represents c (spec_ops budget xs []).2 /\
    totalSizeUsed c = spec_used objectBytes sizeof_string (spec_ops budget xs []).2 /\
    totalSizeUsed c <= budget /\
    checkCacheConsistency objectBytes sizeof_string c = Ok (true, c) /\
    exists c', destroy c = Ok (tt, c') /\ cells (entryHeap c') = ∅ /\ cells (linkHeap c') = ∅.
Proof.
  intros Hb. destruct (run_ops_run xs _ _ (new_cache_represents budget Hb)) as (c & Hrun & Hc & Hbc).
  change (cacheTotalByteBudget (new_cache budget)) with budget in *.
  exists c. split; [done|]. split; [done|]. destruct Hc as (its & R & <-).
  rewrite <- used_by_pairs. split; [apply (rep_used _ _ _ R)|]. split.
  - rewrite (rep_used _ _ _ R). pose proof (rep_budget _ _ _ R) as Hu. rewrite Hbc in Hu. apply Hu.
  - split; [by eapply check_run|by eapply destroy_run].
Qed.
End Rep.

(** A small cache of numbers, whose sizes are the numbers themselves. *)
Definition example_ops : list (op (T := Z)) := [Put [97] 100; Put [98] 200; Get [97]].
Definition example_cache : cache Z :=
  match run_ops (fun n => n) 8 example_ops (new_cache 600) with
  | Ok (_, c) => c
  | Err _ => new_cache 0
  end.

Lemma example_represents :
  represents (fun n => n) 8 example_cache [([98], 200); ([97], 100)] /\
  cacheTotalByteBudget example_cache = 600.
Proof.
  destruct (run_ops_run (fun n => n) 8 example_ops (new_cache 600) []) as (c & Hrun & Hc & Hb).
  { apply new_cache_represents. lia. }
  unfold example_cache. rewrite Hrun. split; [|exact Hb].
  change (cacheTotalByteBudget (new_cache 600)) with 600 in Hc.
  assert ((spec_ops (fun n => n) 8 600 example_ops []).2 = [([98], 200); ([97], 100)]) as E
    by (vm_compute; reflexivity).
  by rewrite E in Hc.
Qed.

(** Room for one more object of 300 bytes is made by dropping [98]. *)
Lemma put_refines_witness : exists c',
  put (fun n => n) 8 [99] 300 example_cache = Ok (true, c') /\
  represents (fun n => n) 8 c' [([97], 100); ([99], 300)] /\
  cacheTotalByteBudget c' = cacheTotalByteBudget example_cache.
Proof.
  pose proof (put_refines (fun n => n) 8 example_cache [([98], 200); ([97], 100)] [99] 300
    (proj1 example_represents)) as H.
  rewrite (proj2 example_represents) in *.
  assert (spec_put (fun n => n) 8 600 [99] 300 [([98], 200); ([97], 100)] =
    (true, [([97], 100); ([99], 300)])) as E by (vm_compute; reflexivity).
  rewrite E in H. exact H.
Defined.

Lemma get_refines_witness : exists c',
  get [98] example_cache = Ok (Some 200, c') /\
  represents (fun n => n) 8 c' [([97], 100); ([98], 200)] /\
  cacheTotalByteBudget c' = cacheTotalByteBudget example_cache.
Proof.
  pose proof (get_refines (fun n => n) 8 example_cache [([98], 200); ([97], 100)] [98]
    (proj1 example_represents)) as H.
  assert (spec_get [98] [([98], 200); ([97], 100)] =
    (Some 200, [([97], 100); ([98], 200)])) as E by (vm_compute; reflexivity).
  rewrite E in H. exact H.
Defined.

Lemma history_refines_witness :
  0 <= 600 < 2 ^ 32 /\
  exists c, run_ops (fun n => n) 8 example_ops (new_cache 600) =
    Ok ((spec_ops (fun n => n) 8 600 example_ops []).1, c).
Proof.
  split; [lia|].
  destruct (history_refines (fun n => n) 8 600 example_ops) as (c & Hrun & _); [lia|].
  exists c. exact Hrun.
Defined.

End CacheBase.
