(* ===== verification/TrieNode.v ===== *)
(** * Nodes of the trie (core/index/Trie.h and Trie.cpp, class TrieNode)

    The fields of a node with their packed representations, the constructors,
    and the searches among a node's children.  Nodes live in a store; a child is
    an address in the [childrenPointerList] of its parent. *)
From S2P Require Import Prelude.
From Stdlib Require Import ZArith Lia List Bool Sorted.
From stdpp Require Import base gmap list fin_maps.
Open Scope Z_scope.

Module TrieNode.

(** ['$'] *)
Definition TRIE_MARKER_CHARACTER : Z := 36.

(** [CharType] is [unsigned]; [nodeHistogramValue] (a [float]) and
    [maximumScoreOfLeafNodes] (a [half]) are kept as their bit patterns. *)
Record TrieNode := mk_node {
  terminalFlag1bDepth7b : Z;
  character : Z;
  id : Z;
  invertedListOffset : Z;
  leftMostDescendant : ptr;
  rightMostDescendant : ptr;
  childrenPointerList : list ptr;
  isCopy : bool;
  insertCounters : Z;
  nodeHistogramValue : Z;
  maximumScoreOfLeafNodes : Z;
  numberOfTerminalNodes : Z }.

#[global] Instance TrieNode_eq_dec : EqDecision TrieNode.
Proof. solve_decision. Defined.

(** ** Packed fields *)

Definition setDepth (flags depth : Z) : Z := wrap8 (Z.land flags 128 + Z.land depth 127).
Definition getDepth (n : TrieNode) : Z := Z.land (terminalFlag1bDepth7b n) 127.
Definition isTerminalNode (n : TrieNode) : bool := Z.land (terminalFlag1bDepth7b n) 128 =? 128.
Definition setTerminalFlag (flags : Z) (flag : bool) : Z :=
  if flag then Z.lor flags 128 else Z.land flags 127.

Definition getLeftInsertCounter (n : TrieNode) : Z := Z.shiftr (insertCounters n) 16.
Definition getRightInsertCounter (n : TrieNode) : Z := Z.land (insertCounters n) 65535.
Definition setLeftInsertCounter (counters counter : Z) : Z :=
  wrap32 (Z.land counters 65535 + wrap32 (Z.shiftl (Z.land counter 65535) 16)).
Definition setRightInsertCounter (counters counter : Z) : Z :=
  wrap32 (Z.land counters 4294901760 + Z.land counter 65535).

(** ** Field assignments *)

Definition with_flags (n : TrieNode) (f : Z) : TrieNode :=
  mk_node f (character n) (id n) (invertedListOffset n) (leftMostDescendant n)
    (rightMostDescendant n) (childrenPointerList n) (isCopy n) (insertCounters n)
    (nodeHistogramValue n) (maximumScoreOfLeafNodes n) (numberOfTerminalNodes n).
Definition with_id (n : TrieNode) (i : Z) : TrieNode :=
  mk_node (terminalFlag1bDepth7b n) (character n) i (invertedListOffset n) (leftMostDescendant n)
    (rightMostDescendant n) (childrenPointerList n) (isCopy n) (insertCounters n)
    (nodeHistogramValue n) (maximumScoreOfLeafNodes n) (numberOfTerminalNodes n).
Definition with_offset (n : TrieNode) (o : Z) : TrieNode :=
  mk_node (terminalFlag1bDepth7b n) (character n) (id n) o (leftMostDescendant n)
    (rightMostDescendant n) (childrenPointerList n) (isCopy n) (insertCounters n)
    (nodeHistogramValue n) (maximumScoreOfLeafNodes n) (numberOfTerminalNodes n).
Definition with_left (n : TrieNode) (p : ptr) : TrieNode :=
  mk_node (terminalFlag1bDepth7b n) (character n) (id n) (invertedListOffset n) p
    (rightMostDescendant n) (childrenPointerList n) (isCopy n) (insertCounters n)
    (nodeHistogramValue n) (maximumScoreOfLeafNodes n) (numberOfTerminalNodes n).
Definition with_right (n : TrieNode) (p : ptr) : TrieNode :=
  mk_node (terminalFlag1bDepth7b n) (character n) (id n) (invertedListOffset n)
    (leftMostDescendant n) p (childrenPointerList n) (isCopy n) (insertCounters n)
    (nodeHistogramValue n) (maximumScoreOfLeafNodes n) (numberOfTerminalNodes n).
Definition with_children (n : TrieNode) (l : list ptr) : TrieNode :=
  mk_node (terminalFlag1bDepth7b n) (character n) (id n) (invertedListOffset n)
    (leftMostDescendant n) (rightMostDescendant n) l (isCopy n) (insertCounters n)
    (nodeHistogramValue n) (maximumScoreOfLeafNodes n) (numberOfTerminalNodes n).
Definition with_isCopy (n : TrieNode) (b : bool) : TrieNode :=
  mk_node (terminalFlag1bDepth7b n) (character n) (id n) (invertedListOffset n)
    (leftMostDescendant n) (rightMostDescendant n) (childrenPointerList n) b (insertCounters n)
    (nodeHistogramValue n) (maximumScoreOfLeafNodes n) (numberOfTerminalNodes n).
Definition with_counters (n : TrieNode) (c : Z) : TrieNode :=
  mk_node (terminalFlag1bDepth7b n) (character n) (id n) (invertedListOffset n)
    (leftMostDescendant n) (rightMostDescendant n) (childrenPointerList n) (isCopy n) c
    (nodeHistogramValue n) (maximumScoreOfLeafNodes n) (numberOfTerminalNodes n).

(** ** Constructors *)

(** [TrieNode(depth, character, isCopy)].  The flag byte starts uninitialised;
    [setDepth] and [setTerminalFlag(false)] together overwrite all of it. *)
Definition new_node (depth c : Z) (copy : bool) : TrieNode :=
  mk_node (setTerminalFlag (setDepth 0 depth) false) c 0 0 NULL NULL [] copy
    (setRightInsertCounter (setLeftInsertCounter 0 1) 1) 0 0 0.

(** [TrieNode(true)] *)
Definition new_root : TrieNode := new_node 0 TRIE_MARKER_CHARACTER false.

(** [TrieNode(src, isCopy)] *)
Definition copy_node (src : TrieNode) (copy : bool) : TrieNode :=
  mk_node (terminalFlag1bDepth7b src) (character src) (id src) (invertedListOffset src)
    (leftMostDescendant src) (rightMostDescendant src) (childrenPointerList src) copy
    (setRightInsertCounter (setLeftInsertCounter 0 (getLeftInsertCounter src))
       (getRightInsertCounter src))
    (nodeHistogramValue src) (maximumScoreOfLeafNodes src) (numberOfTerminalNodes src).

(** ** Children *)

Definition heap := store TrieNode.

Definition getChildrenCount (n : TrieNode) : Z := Z.of_nat (length (childrenPointerList n)).
Definition getChild (n : TrieNode) (position : Z) : result ptr := vec_at (childrenPointerList n) position.

(** [position] is where [insert] puts the new child. *)
Definition addChild (n : TrieNode) (position : Z) (child : ptr) : result TrieNode :=
  if (0 <=? position) && (position <=? getChildrenCount n)
  then Ok (with_children n (take (Z.to_nat position) (childrenPointerList n) ++
                            child :: drop (Z.to_nat position) (childrenPointerList n)))
  else Err OutOfRange.

Definition setChild (n : TrieNode) (position : Z) (child : ptr) : result TrieNode :=
  if (0 <=? position) && (position <? getChildrenCount n)
  then Ok (with_children n (<[Z.to_nat position := child]> (childrenPointerList n)))
  else Err AssertFailed.

Definition child_at (h : heap) (n : TrieNode) (position : Z) : result TrieNode :=
  let? p := getChild n position in s_load h p.

(** The binary search of [findChildNodePosition]. *)
Fixpoint find_loop (fuel : nat) (h : heap) (n : TrieNode) (c first last : Z) : result Z :=
  if first <=? last then
    match fuel with
    | O => Err OutOfFuel
    | S fuel' =>
        let mid := Z.quot (first + last) 2 in
        let? m := child_at h n mid in
        if character m <? c then find_loop fuel' h n c (mid + 1) last
        else if c <? character m then find_loop fuel' h n c first (mid - 1)
        else Ok mid
    end
  else Ok (- (first + 1)).

Definition findChildNodePosition (h : heap) (n : TrieNode) (c : Z) : result Z :=
  find_loop (S (length (childrenPointerList n))) h n c 0 (getChildrenCount n - 1).

Definition findChild (h : heap) (n : TrieNode) (c : Z) : result ptr :=
  let? position := findChildNodePosition h n c in
  if 0 <=? position then getChild n position else Ok NULL.

(** The overload of [addChild] on a character, which searches first. *)
Definition addChildByCharacter (h : heap) (n : TrieNode) (c : Z) (child : ptr) : result TrieNode :=
  let? position := findChildNodePosition h n c in
  if 0 <? position then Ok n else addChild n (- position - 1) child.

(** [getMinId], [getMaxId]: the ids of the outermost descendants. *)
Definition getMinId (h : heap) (n : TrieNode) : result Z :=
  let? l := s_load h (leftMostDescendant n) in Ok (id l).
Definition getMaxId (h : heap) (n : TrieNode) : result Z :=
  let? r := s_load h (rightMostDescendant n) in Ok (id r).

(** The binary search of [findLowerBoundChildNodePositionByMinId]; the [int]
    that holds an id is compared as an [unsigned] again. *)
Fixpoint lower_loop (fuel : nat) (h : heap) (n : TrieNode) (minId first last : Z) : result Z :=
  if first <=? last then
    match fuel with
    | O => Err OutOfFuel
    | S fuel' =>
        let mid := Z.quot (first + last) 2 in
        let? m := child_at h n mid in
        let? midMinId := getMinId h m in
        if midMinId <? minId then lower_loop fuel' h n minId (mid + 1) last
        else if minId <? midMinId then lower_loop fuel' h n minId first (mid - 1)
        else Ok mid
    end
  else Ok (first - 1).

Definition findLowerBoundChildNodePositionByMinId (h : heap) (n : TrieNode) (minId : Z) : result Z :=
  lower_loop (S (length (childrenPointerList n))) h n minId 0 (getChildrenCount n - 1).

Definition findLowerBoundChildByMinId (h : heap) (n : TrieNode) (minId : Z) : result ptr :=
  let? position := findLowerBoundChildNodePositionByMinId h n minId in
  if 0 <=? position then getChild n position else Ok NULL.

(** [isFirstChild] and [isLastChild] compare characters. *)
Definition isFirstChild (h : heap) (n child : TrieNode) : result bool :=
  let? f := child_at h n 0 in Ok (character child =? character f).
Definition isLastChild (h : heap) (n child : TrieNode) : result bool :=
  let? l := child_at h n (getChildrenCount n - 1) in Ok (character child =? character l).

(** ** Counting the nodes and the keywords of a sub-trie *)

Fixpoint getNumberOfNodes (fuel : nat) (h : heap) (p : ptr) : result Z :=
  match fuel with
  | O => Err OutOfFuel
  | S fuel' =>
      let? n := s_load h p in
      fold_res (childrenPointerList n)
        (fun counter q => let? k := getNumberOfNodes fuel' h q in Ok (wrap32 (counter + k)))
        1
  end.

Fixpoint getfinalKeywordIdCounter (fuel : nat) (h : heap) (p : ptr) : result Z :=
  match fuel with
  | O => Err OutOfFuel
  | S fuel' =>
      let? n := s_load h p in
      fold_res (childrenPointerList n)
        (fun counter q => let? k := getfinalKeywordIdCounter fuel' h q in Ok (wrap32 (counter + k)))
        (if isTerminalNode n then 1 else 0)
  end.

(** ** Resetting the copy flags: a child that is no copy ends the descent. *)
Fixpoint resetCopyFlag (fuel : nat) (p : ptr) (h : heap) : result heap :=
  match fuel with
  | O => Err OutOfFuel
  | S fuel' =>
      let? n := s_load h p in
      let? h1 := s_store h p (with_isCopy n false) in
      fold_res (childrenPointerList n)
        (fun h q =>
          if bool_decide (q = NULL) then Ok h
          else
            let? c := s_load h q in
            if isCopy c then resetCopyFlag fuel' q h else Ok h) h1
  end.

(** ** The binary search among the children *)

(** The children of [n] are the nodes [ks]. *)
Definition children_are (h : heap) (n : TrieNode) (ks : list TrieNode) : Prop :=
  Forall2 (fun p k => s_load h p = Ok k) (childrenPointerList n) ks.

Lemma children_length h n ks : children_are h n ks -> length (childrenPointerList n) = length ks.
Proof. apply Forall2_length. Qed.

Lemma child_at_lookup h n ks i k : children_are h n ks ->
  0 <= i -> ks !! Z.to_nat i = Some k -> child_at h n i = Ok k.
Proof.
  intros Hks Hi Hk. unfold child_at, getChild.
  destruct (Forall2_lookup_r _ _ _ _ _ Hks Hk) as (p & Hp & Hl).
  assert (vec_at (childrenPointerList n) i = Ok p) as -> by (by apply vec_at_nth). done.
Qed.

Lemma sorted_lookup (l : list Z) (i j : nat) x y : StronglySorted Z.lt l ->
  l !! i = Some x -> l !! j = Some y -> (i < j)%nat -> x < y.
Proof.
  intros Hs. revert i j. induction Hs as [|a l Hs IH Ha]; intros i j Hi Hj Hij; [done|].
  destruct j as [|j]; [lia|]. destruct i as [|i]; cbn in *.
  - simplify_eq. rewrite Forall_lookup in Ha. eauto.
  - apply (IH i j); [done|done|lia].
Qed.

(** Where a binary search over sorted keys ends: at the key, or at the point
    that separates the smaller keys from the larger ones. *)
Definition search_result (keys : list Z) (c pos : Z) : Prop :=
  (exists l r, keys = l ++ c :: r /\ pos = Z.of_nat (length l)) \/
  (exists l r, keys = l ++ r /\ pos = - (Z.of_nat (length l) + 1) /\
    Forall (fun x => x < c) l /\ Forall (fun x => c < x) r).

Lemma find_loop_spec h n ks c : children_are h n ks -> StronglySorted Z.lt (map character ks) ->
  forall fuel first last, 0 <= first -> first <= last + 1 -> last < Z.of_nat (length ks) ->
  last - first + 1 < Z.of_nat fuel ->
  Forall (fun k => character k < c) (take (Z.to_nat first) ks) ->
  Forall (fun k => c < character k) (drop (Z.to_nat (last + 1)) ks) ->
  exists pos, find_loop fuel h n c first last = Ok pos /\ search_result (map character ks) c pos.
Proof.
  intros Hks Hs. induction fuel as [|fuel IH]; intros first last Hf Hfl Hl Hfuel Hlo Hhi; [lia|].
  cbn [find_loop]. destruct (Z.leb_spec first last).
  - set (mid := Z.quot (first + last) 2).
    assert (first <= mid <= last) as Hmid.
    { unfold mid. rewrite Z.quot_div_nonneg by lia. dlia. }
    destruct (lookup_lt_is_Some_2 ks (Z.to_nat mid)) as [k Hk]; [lia|].
    rewrite (child_at_lookup h n ks mid k Hks) by (done || lia). cbn [rbind].
    assert (forall j x, ks !! j = Some x -> (j < Z.to_nat mid)%nat -> character x < character k) as Hlt.
    { intros j x Hx Hj. eapply (sorted_lookup _ j (Z.to_nat mid) _ _ Hs); [| |done];
        by rewrite list_lookup_fmap_map, ?Hx, ?Hk. }
    assert (forall j x, ks !! j = Some x -> (Z.to_nat mid < j)%nat -> character k < character x) as Hgt.
    { intros j x Hx Hj. eapply (sorted_lookup _ (Z.to_nat mid) j _ _ Hs); [| |done];
        by rewrite list_lookup_fmap_map, ?Hx, ?Hk. }
    destruct (Z.ltb_spec (character k) c) as [H1|H1].
    + apply IH; try lia; [|done]. apply Forall_lookup. intros j x Hx.
      apply lookup_take_Some in Hx as [Hx Hj].
      destruct (decide (j = Z.to_nat mid)) as [->|]; [by simplify_eq|].
      specialize (Hlt j x Hx ltac:(lia)). lia.
    + destruct (Z.ltb_spec c (character k)) as [H2|H2].
      * apply IH; try lia; [done|]. replace (mid - 1 + 1) with mid by lia.
        apply Forall_lookup. intros j x Hx. rewrite lookup_drop in Hx.
        destruct (decide (j = 0%nat)) as [->|]; [rewrite Nat.add_0_r in Hx; by simplify_eq|].
        specialize (Hgt _ x Hx ltac:(lia)). lia.
      * exists mid. split; [done|]. left. assert (character k = c) as <- by lia.
        exists (take (Z.to_nat mid) (map character ks)), (drop (S (Z.to_nat mid)) (map character ks)).
        split.
        { symmetry. apply take_drop_middle. by rewrite list_lookup_fmap_map, Hk. }
        { rewrite length_take, length_map. lia. }
  - exists (- (first + 1)). split; [done|]. right. replace (last + 1) with first in Hhi by lia.
    exists (take (Z.to_nat first) (map character ks)), (drop (Z.to_nat first) (map character ks)).
    rewrite take_drop, length_take, length_map. split; [done|]. split; [lia|].
    rewrite firstn_map, skipn_map. by rewrite !List.Forall_map.
Qed.

Lemma findChildNodePosition_spec h n ks c :
  children_are h n ks -> StronglySorted Z.lt (map character ks) ->
  exists pos, findChildNodePosition h n c = Ok pos /\ search_result (map character ks) c pos.
Proof.
  intros Hks Hs. unfold findChildNodePosition, getChildrenCount.
  rewrite (children_length h n ks Hks).
  apply find_loop_spec; try done; try lia.
  rewrite drop_ge by lia. constructor.
Qed.
Lemma search_result_found keys c pos : search_result keys c pos -> 0 <= pos ->
  keys !! Z.to_nat pos = Some c.
Proof.
  intros [(l & r & -> & ->)|(l & r & _ & -> & _)] Hpos; [|lia].
  by rewrite Nat2Z.id, list_lookup_middle.
Qed.

Lemma search_result_insert keys c pos : search_result keys c pos -> pos < 0 ->
  StronglySorted Z.lt keys ->
  (Z.to_nat (- pos - 1) <= length keys)%nat /\
  StronglySorted Z.lt (take (Z.to_nat (- pos - 1)) keys ++ c :: drop (Z.to_nat (- pos - 1)) keys).
Proof.
  intros [(l & r & _ & ->)|(l & r & -> & -> & Hl & Hr)] Hpos Hs; [lia|].
  replace (- - (Z.of_nat (length l) + 1) - 1) with (Z.of_nat (length l)) by lia.
  rewrite Nat2Z.id, take_app_length, drop_app_length, length_app. split; [lia|].
  apply ssorted_app_inv in Hs as (Hx & Hs1 & Hs2). apply ssorted_app; [done| |].
  - constructor; [done|]. done.
  - rewrite List.Forall_forall in Hl, Hr. intros x y Hin [<-|Hy].
    + by apply Hl.
    + by apply Hx.
Qed.

(** Among children sorted by character, the binary search ends; a
    position it answers is that of the child with the character; when it answers
    that there is none, no child has the character, and inserting a child of that
    character at the position [-pos - 1] leaves the children sorted. *)
Theorem search_and_insert (h : heap) (n : TrieNode) (ks : list TrieNode) (c : Z) (q : ptr) :
  children_are h n ks -> StronglySorted Z.lt (map character ks) ->
  exists pos, findChildNodePosition h n c = Ok pos /\
    if 0 <=? pos
    then exists k, child_at h n pos = Ok k /\ character k = c
    else ~ In c (map character ks) /\
      exists n', addChild n (- pos - 1) q = Ok n' /\
        childrenPointerList n' = take (Z.to_nat (- pos - 1)) (childrenPointerList n) ++
          q :: drop (Z.to_nat (- pos - 1)) (childrenPointerList n) /\
        StronglySorted Z.lt (take (Z.to_nat (- pos - 1)) (map character ks) ++
          c :: drop (Z.to_nat (- pos - 1)) (map character ks)).
Proof.
  intros Hks Hs. destruct (findChildNodePosition_spec h n ks c Hks Hs) as (pos & Hf & Hr).
  exists pos. split; [done|]. destruct (Z.leb_spec 0 pos) as [Hp|Hp].
  - pose proof (search_result_found _ _ _ Hr Hp) as Hk. rewrite list_lookup_fmap_map in Hk.
    destruct (ks !! Z.to_nat pos) as [k|] eqn:E; [|done]. cbn in Hk. exists k. split; [|congruence].
    by apply (child_at_lookup h n ks).
  - destruct (search_result_insert _ _ _ Hr Hp Hs) as [Hlen Hsort]. split.
    + destruct Hr as [(l & r & _ & ->)|(l & r & -> & _ & Hl & Hrr)]; [lia|].
      rewrite List.Forall_forall in Hl, Hrr. rewrite in_app_iff.
      intros [H|H]; [specialize (Hl c H)|specialize (Hrr c H)]; lia.
    + unfold addChild, getChildrenCount. rewrite length_map in Hlen.
      rewrite (children_length h n ks Hks).
      destruct (Z.leb_spec 0 (- pos - 1)), (Z.leb_spec (- pos - 1) (Z.of_nat (length ks))); try lia.
      cbn. eauto.
Qed.

Lemma search_and_insert_witness :
  exists pos, findChildNodePosition
      (mk_store {[1%N := new_node 1 97 false; 2%N := new_node 1 99 false]} 3%N)
      (with_children new_root [1%N; 2%N]) 98 = Ok pos /\ pos < 0.
Proof.
  destruct (search_and_insert
    (mk_store {[1%N := new_node 1 97 false; 2%N := new_node 1 99 false]} 3%N)
    (with_children new_root [1%N; 2%N]) [new_node 1 97 false; new_node 1 99 false] 98 3%N)
    as (pos & Hpos & H).
  - repeat constructor.
  - repeat constructor.
  - exists pos. split; [exact Hpos|]. vm_compute in Hpos. injection Hpos as <-. reflexivity.
Defined.
End TrieNode.
