(* ===== verification/Trie.v ===== *)
(** * The trie: state and insertion of keywords (core/index/Trie.h, Trie.cpp)

    The read view and the write view are two roots in one store of nodes;
    insertions after the bulk load copy the nodes of their path before they
    change them.  A node path ([TrieNodePath]) is the list of its nodes. *)
From S2P Require Import Prelude TrieNode.
From Stdlib Require Import ZArith Lia List Bool SpecFloat.
From stdpp Require Import base gmap list fin_maps.
Open Scope Z_scope.

Module Trie.
Import TrieNode.

Definition MAX_KEYWORD_ID : Z := 4294967295.
Definition MAX_ALLOCATED_KEYWORD_ID : Z := 4294901760.
Definition KEYWORD_ID_SPARSITY : Z := 10.
Definition TRIE_MAX_DEPTH : Z := 127.

(** [TrieRootNodeAndFreeList] *)
Record view := mk_view { free_list : list ptr; root : ptr }.

Abbreviation path := (list ptr).

Record trie := mk_trie {
  nodes : heap;
  views : store view;
  readers : gmap ptr nat;            (* the references to a view held by readers *)
  root_readview : ptr;               (* an address in [views] *)
  root_writeview : ptr;              (* an address in [nodes] *)
  oldReadViewQueue : list ptr;
  terminalNodes : Z;                 (* numberOfTerminalNodes *)
  counterForReassignedKeywordIds : Z;
  trieNodesToReassign : list path;
  oldIdToNewIdMapVector : option (list Z);
  commited : bool;
  mergeRequired : bool;
  emptyLeafNodeIds : list Z }.

Abbreviation tst := (st trie).

Definition set_nodes (h : heap) : tst unit := modify (fun t =>
  mk_trie h (views t) (readers t) (root_readview t) (root_writeview t) (oldReadViewQueue t)
    (terminalNodes t) (counterForReassignedKeywordIds t) (trieNodesToReassign t)
    (oldIdToNewIdMapVector t) (commited t) (mergeRequired t) (emptyLeafNodeIds t)).
Definition set_views (v : store view) : tst unit := modify (fun t =>
  mk_trie (nodes t) v (readers t) (root_readview t) (root_writeview t) (oldReadViewQueue t)
    (terminalNodes t) (counterForReassignedKeywordIds t) (trieNodesToReassign t)
    (oldIdToNewIdMapVector t) (commited t) (mergeRequired t) (emptyLeafNodeIds t)).
Definition set_terminalNodes (n : Z) : tst unit := modify (fun t =>
  mk_trie (nodes t) (views t) (readers t) (root_readview t) (root_writeview t) (oldReadViewQueue t)
    n (counterForReassignedKeywordIds t) (trieNodesToReassign t)
    (oldIdToNewIdMapVector t) (commited t) (mergeRequired t) (emptyLeafNodeIds t)).
Definition set_counter (n : Z) : tst unit := modify (fun t =>
  mk_trie (nodes t) (views t) (readers t) (root_readview t) (root_writeview t) (oldReadViewQueue t)
    (terminalNodes t) n (trieNodesToReassign t)
    (oldIdToNewIdMapVector t) (commited t) (mergeRequired t) (emptyLeafNodeIds t)).
Definition set_reassign (l : list path) : tst unit := modify (fun t =>
  mk_trie (nodes t) (views t) (readers t) (root_readview t) (root_writeview t) (oldReadViewQueue t)
    (terminalNodes t) (counterForReassignedKeywordIds t) l
    (oldIdToNewIdMapVector t) (commited t) (mergeRequired t) (emptyLeafNodeIds t)).
Definition set_mergeRequired (b : bool) : tst unit := modify (fun t =>
  mk_trie (nodes t) (views t) (readers t) (root_readview t) (root_writeview t) (oldReadViewQueue t)
    (terminalNodes t) (counterForReassignedKeywordIds t) (trieNodesToReassign t)
    (oldIdToNewIdMapVector t) (commited t) b (emptyLeafNodeIds t)).

(** ** Accesses to nodes *)

Definition load_node (p : ptr) : tst TrieNode := let! h := reads nodes in lift (s_load h p).
Definition store_node (p : ptr) (n : TrieNode) : tst unit :=
  let! h := reads nodes in let! h' := lift (s_store h p n) in set_nodes h'.
Definition alloc_node (n : TrieNode) : tst ptr :=
  let! h := reads nodes in
  let (p, h') := s_new h n in set_nodes h' ;;; ret p.
Definition on_heap {A} (f : heap -> result A) : tst A := let! h := reads nodes in lift (f h).

(** ** Cleaning a keyword *)

(** The loop looks at the first [TRIE_MAX_DEPTH] characters. *)
Definition cleanString (oldString : list Z) : list Z :=
  List.filter (fun c => negb (c =? TRIE_MARKER_CHARACTER)) (take (Z.to_nat TRIE_MAX_DEPTH) oldString).

(** ** Neighbours of a path *)

(** The climb of [getLeftTnp]: [i] is [pathTraceIterator], [parent] the node there. *)
Fixpoint left_climb (p : path) (i : nat) (child parent : ptr) : tst (nat * ptr * ptr) :=
  let! par := load_node parent in
  let! ch := load_node child in
  let! first := on_heap (fun h => isFirstChild h par ch) in
  match i with
  | S i' =>
      if first && negb (isTerminalNode par) then
        let! parent' := lift (vec_at p (Z.of_nat i')) in
        let! par' := load_node parent' in
        assert_ (getDepth par' =? Z.of_nat i') ;;;
        left_climb p i' parent parent'
      else ret (i, child, parent)
  | O => ret (i, child, parent)
  end.

(** The descent to the rightmost descendant, the nodes passed included. *)
Fixpoint rightmost_path (fuel : nat) (p : ptr) : tst path :=
  let! n := load_node p in
  if 0 <? getChildrenCount n then
    match fuel with
    | O => fail OutOfFuel
    | S fuel' =>
        let! c := lift (getChild n (getChildrenCount n - 1)) in
        let! rest := rightmost_path fuel' c in
        ret (c :: rest)
    end
  else ret [].

(** A path has no repetition: the number of nodes bounds every descent. *)
Definition depth_fuel (t : trie) : nat := size (cells (nodes t)).

(** [None] for [false].  Decrementing an index of 0 makes it leave the vector. *)
Definition getLeftTnp (currentTnp : path) : tst (option path) :=
  let i := Z.of_nat (length currentTnp) - 1 in
  let! child := lift (vec_at currentTnp i) in
  let! parent := lift (vec_at currentTnp (i - 1)) in
  let! (i, child, parent) := left_climb currentTnp (Z.to_nat (i - 1)) child parent in
  let! par := load_node parent in
  let! ch := load_node child in
  let! first := on_heap (fun h => isFirstChild h par ch) in
  if (getDepth par =? 0) && first then ret None
  else if isTerminalNode par && first then ret (Some (take (S i) currentTnp))
  else
    let! position := on_heap (fun h => findChildNodePosition h par (character ch)) in
    assert_ (1 <=? position) ;;;
    let! nodeIter := lift (getChild par (position - 1)) in
    let! fuel := reads depth_fuel in
    let! rest := rightmost_path fuel nodeIter in
    ret (Some (take (S i) currentTnp ++ nodeIter :: rest)).

(** [extendTnpFromTrieNode]: the nodes from [p] to its leftmost terminal node. *)
Fixpoint extendTnpFromTrieNode (fuel : nat) (p : ptr) : tst path :=
  let! n := load_node p in
  if negb (isTerminalNode n) && (0 <? getChildrenCount n) then
    match fuel with
    | O => fail OutOfFuel
    | S fuel' =>
        let! c := lift (getChild n 0) in
        let! rest := extendTnpFromTrieNode fuel' c in
        ret (p :: rest)
    end
  else
    assert_ (isTerminalNode n) ;;; ret [p].

(** The climb of [getRightTnp]. *)
Fixpoint right_climb (p : path) (i : nat) (child parent : ptr) : tst (nat * ptr * ptr) :=
  match i with
  | O => ret (i, child, parent)
  | S i' =>
      let! par := load_node parent in
      let! ch := load_node child in
      let! last := on_heap (fun h => isLastChild h par ch) in
      if last then
        let! parent' := lift (vec_at p (Z.of_nat i')) in
        right_climb p i' parent parent'
      else ret (i, child, parent)
  end.

Definition getRightTnp (currentTnp : path) : tst (option path) :=
  let i := Z.of_nat (length currentTnp) - 1 in
  let! lastNode := lift (vec_at currentTnp i) in
  let! ln := load_node lastNode in
  let! fuel := reads depth_fuel in
  if isTerminalNode ln && (0 <? getChildrenCount ln) then
    let! c := lift (getChild ln 0) in
    let! rest := extendTnpFromTrieNode fuel c in
    ret (Some (currentTnp ++ rest))
  else
    let! parent := lift (vec_at currentTnp (i - 1)) in
    let! (i, child, parent) := right_climb currentTnp (Z.to_nat (i - 1)) lastNode parent in
    let! par := load_node parent in
    let! ch := load_node child in
    let! last := on_heap (fun h => isLastChild h par ch) in
    if Nat.eqb i 0 && last then ret None
    else
      let! position := on_heap (fun h => findChildNodePosition h par (character ch)) in
      assert_ (0 <=? position) ;;;
      assert_ (position <=? getChildrenCount par - 2) ;;;
      let! c := lift (getChild par (position + 1)) in
      let! rest := extendTnpFromTrieNode fuel c in
      ret (Some (take (S i) currentTnp ++ rest)).

(** ** The id of a new keyword *)

Definition isLargerThanUpperBound (i : Z) : bool := MAX_ALLOCATED_KEYWORD_ID <? i.

(** [double] arithmetic: binary64, rounding to nearest even. *)
Definition double_of (z : Z) : spec_float := binary_normalize 53 1024 z 0 false.
(** [(unsigned)]: the fraction is cut off.  The conversion of a NaN, of an infinity or of a
    number out of range is undefined in C++; here it gives zero, or wraps around. *)
Definition unsigned_of (f : spec_float) : Z :=
  match f with
  | S754_finite s m e => let v := Z.shiftl (Zpos m) e in wrap32 (if s then - v else v)
  | _ => 0
  end.

(** prevId + (double)(nextId - prevId) * ((double)prevWeight / ((double) prevWeight + (double)nextWeight)) *)
Definition weightedId (prevId nextId prevWeight nextWeight : Z) : Z :=
  unsigned_of (SFadd 53 1024 (double_of prevId)
    (SFmul 53 1024 (double_of (wrap32 (nextId - prevId)))
      (SFdiv 53 1024 (double_of prevWeight)
        (SFadd 53 1024 (double_of prevWeight) (double_of nextWeight))))).

Definition computeIdForNewKeyword (prevNode nextNode : ptr) : tst Z :=
  if bool_decide (prevNode = NULL) || bool_decide (nextNode = NULL) then ret 0
  else
    let! prev := load_node prevNode in
    let! nxt := load_node nextNode in
    let prevId := id prev in
    let nextId := id nxt in
    if (nextId <=? prevId) || isLargerThanUpperBound prevId || isLargerThanUpperBound nextId
    then ret prevId
    else
      let prevWeight := getRightInsertCounter prev in
      store_node prevNode (with_counters prev
        (setRightInsertCounter (insertCounters prev) (wrap32 (prevWeight + 1)))) ;;;
      let! nxt := load_node nextNode in
      let nextWeight := getLeftInsertCounter nxt in
      store_node nextNode (with_counters nxt
        (setLeftInsertCounter (insertCounters nxt) (wrap32 (nextWeight + 1)))) ;;;
      ret (weightedId prevId nextId prevWeight nextWeight).

(** ** Finishing an insertion *)

(** The upward loop that sets the outermost descendants of the ancestors: [rest]
    is the path above [child], bottom up.  An empty [rest] is the index that
    leaves the vector. *)
Fixpoint climb_descendants (rest : path) (child : ptr) : tst unit :=
  match rest with
  | [] => fail OutOfRange
  | parent :: rest' =>
      let! par := load_node parent in
      let! ch := load_node child in
      let! first := on_heap (fun h => isFirstChild h par ch) in
      let! last := on_heap (fun h => isLastChild h par ch) in
      (if first && negb (isTerminalNode par)
       then store_node parent (with_left par (leftMostDescendant ch)) else ret tt) ;;;
      let! par := load_node parent in
      (if last then store_node parent (with_right par (rightMostDescendant ch)) else ret tt) ;;;
      match rest' with
      | [] => ret tt
      | _ :: _ => climb_descendants rest' parent
      end
  end.

(** The node that follows, when an existing node becomes terminal or a new node
    was added; and the node before. *)
Definition findNeighbours (pathTrace : path) (isNewTrieNode : bool) : tst (ptr * ptr) :=
  let! prevTnp := getLeftTnp pathTrace in
  let prevNode := match prevTnp with Some p => default NULL (last p) | None => NULL end in
  let! nextNode :=
    if negb isNewTrieNode then
      let! terminalNode := lift (vec_at pathTrace (Z.of_nat (length pathTrace) - 1)) in
      let! n := load_node terminalNode in ret (leftMostDescendant n)
    else
      let! nextTnp := getRightTnp pathTrace in
      ret (match nextTnp with Some p => default NULL (last p) | None => NULL end) in
  ret (prevNode, nextNode).

(** Gives the new terminal [node] an id that keeps the order, or a temporary one. *)
Definition assignId (pathTrace : path) (node prevNode nextNode : ptr) : tst unit :=
  let! newKeywordId := computeIdForNewKeyword prevNode nextNode in
  let! ordered :=
    if negb (bool_decide (prevNode = NULL)) && negb (bool_decide (nextNode = NULL)) then
      let! prev := load_node prevNode in
      if id prev <? newKeywordId then
        let! nxt := load_node nextNode in ret (newKeywordId <? id nxt)
      else ret false
    else ret false in
  let! n := load_node node in
  if ordered then store_node node (with_id n newKeywordId)
  else
    let! counter := reads counterForReassignedKeywordIds in
    store_node node (with_id n counter) ;;;
    set_counter (wrap32 (counter + 1)) ;;;
    assert_ (negb (wrap32 (counter + 1) =? MAX_KEYWORD_ID)) ;;;
    let! l := reads trieNodesToReassign in
    set_reassign (l ++ [pathTrace]).

(** The links of the node at the end of the path and of its ancestors. *)
Definition set_links (pathTrace : path) : tst unit :=
  let! terminalNode := lift (vec_at pathTrace (Z.of_nat (length pathTrace) - 1)) in
  let! n := load_node terminalNode in
  store_node terminalNode (with_left n terminalNode) ;;;
  let! n := load_node terminalNode in
  (if getChildrenCount n =? 0 then store_node terminalNode (with_right n terminalNode)
   else
     let! c := on_heap (fun h => child_at h n (getChildrenCount n - 1)) in
     store_node terminalNode (with_right n (rightMostDescendant c))) ;;;
  climb_descendants (tail (rev pathTrace)) terminalNode.

Definition addKeyword_SetPrevIdNexIdByPathTrace (pathTrace : path) (isNewTrieNode : bool)
    (node : ptr) : tst unit :=
  let! committed := reads commited in
  let! (prevNode, nextNode) :=
    if committed then findNeighbours pathTrace isNewTrieNode else ret (NULL, NULL) in
  set_links pathTrace ;;;
  let! n := load_node node in
  if negb (isTerminalNode n) then
    let! k := reads terminalNodes in
    (if negb committed then store_node node (with_offset (with_id n k) k)
     else
       assignId pathTrace node prevNode nextNode ;;;
       let! n := load_node node in store_node node (with_offset n k)) ;;;
    let! n := load_node node in
    store_node node (with_flags n (setTerminalFlag (terminalFlag1bDepth7b n) true)) ;;;
    set_terminalNodes (wrap32 (k + 1))
  else ret tt.

(** ** Insertion during the bulk load *)

(** The descent of [addKeyword]: the nodes passed, the last one included, and
    whether a node was created. *)
Fixpoint descend (w : list Z) (depth : Z) (node : ptr) (isNew : bool) : tst (path * bool) :=
  match w with
  | [] => ret ([node], isNew)
  | c :: w' =>
      assert_ (negb (bool_decide (node = NULL))) ;;;
      let! n := load_node node in
      let! position := on_heap (fun h => findChildNodePosition h n c) in
      let! (child, isNew') :=
        if (0 <=? position) && negb isNew then
          let! q := lift (getChild n position) in ret (q, isNew)
        else
          let! q := alloc_node (new_node depth c false) in
          let! n' := lift (addChild n (- position - 1) q) in
          store_node node n' ;;; ret (q, true) in
      let! (rest, isNew'') := descend w' (depth + 1) child isNew' in
      ret (node :: rest, isNew'')
  end.

(** The id and the inverted-list offset; [None] for an offset that is not set. *)
Definition addKeyword (keyword : list Z) : tst (Z * option Z) :=
  let! committed := reads commited in
  if committed || (Z.of_nat (length keyword) =? 0) then ret (0, None)
  else
    let! rootNode := reads root_writeview in
    let! (pathTrace, isNew) := descend (cleanString keyword) 1 rootNode false in
    let node := default NULL (last pathTrace) in
    addKeyword_SetPrevIdNexIdByPathTrace pathTrace isNew node ;;;
    let! n := load_node node in
    ret (id n, Some (invertedListOffset n)).

(** ** Insertion into the write view *)

(** What the descent of [addKeyword_ThreadSafe] collects. *)
Record cow := mk_cow {
  oldToNewTrieNodeMap : gmap ptr ptr;
  freed : list ptr;          (* pushed to the free list of the read view *)
  isNewTrieNode : bool }.

(** A child that exists is copied unless it is a copy already. *)
Definition enter_child (n : TrieNode) (node : ptr) (position : Z) (s : cow) : tst (ptr * cow) :=
  assert_ (negb (isNewTrieNode s)) ;;;
  let! q := lift (getChild n position) in
  let! old := load_node q in
  if isCopy old then ret (q, s)
  else
    let! q' := alloc_node (copy_node old true) in
    let! n' := lift (setChild n position q') in
    store_node node n' ;;;
    ret (q', mk_cow (<[q := q']> (oldToNewTrieNodeMap s)) (freed s ++ [q]) (isNewTrieNode s)).

Fixpoint descend_copy (w : list Z) (depth : Z) (node : ptr) (s : cow) : tst (path * cow) :=
  match w with
  | [] => ret ([node], s)
  | c :: w' =>
      assert_ (negb (bool_decide (node = NULL))) ;;;
      let! n := load_node node in
      let! position := on_heap (fun h => findChildNodePosition h n c) in
      let! (child, s') :=
        if 0 <=? position then enter_child n node position s
        else
          let! q := alloc_node (new_node depth c true) in
          let! n' := lift (addChild n (- position - 1) q) in
          store_node node n' ;;;
          ret (q, mk_cow (oldToNewTrieNodeMap s) (freed s) true) in
      let! (rest, s'') := descend_copy w' (depth + 1) child s' in
      ret (node :: rest, s'')
  end.

(** A node that was copied is replaced by its copy. *)
Definition renamed (m : gmap ptr ptr) (p : ptr) : ptr := default p (m !! p).

Definition remap_descendants (m : gmap ptr ptr) (p : ptr) : tst unit :=
  let! n := load_node p in
  (match m !! leftMostDescendant n with
   | Some q => store_node p (with_left n q)
   | None => ret tt
   end) ;;;
  let! n := load_node p in
  match m !! rightMostDescendant n with
  | Some q => store_node p (with_right n q)
  | None => ret tt
  end.

Definition remapPathForTrieNodesToReassign (m : gmap ptr ptr) : tst unit :=
  if bool_decide (m = ∅) then ret tt
  else
    let! l := reads trieNodesToReassign in
    set_reassign (map (map (renamed m)) l).

(** [trieRootNode_ReadView->free_list.push_back] of the nodes replaced. *)
Definition push_free (l : list ptr) : tst unit :=
  let! v := reads root_readview in
  let! vs := reads views in
  let! x := lift (s_load vs v) in
  let! vs' := lift (s_store vs v (mk_view (free_list x ++ l) (root x))) in
  set_views vs'.

Record inserted := mk_inserted {
  ins_id : Z; ins_offset : Z; ins_isNewTrieNode : bool;
  ins_isNewInternalTerminalNode : bool; ins_node : ptr }.

(** [None] for an empty keyword, whose id is 0 and which sets nothing else. *)
Definition addKeyword_ThreadSafe (keyword : list Z) (isNew0 isNewInternal0 : bool) :
    tst (option inserted) :=
  if Z.of_nat (length keyword) =? 0 then ret None
  else
    set_mergeRequired true ;;;
    let! rootNode := reads root_writeview in
    let! (pathTrace, s) := descend_copy (cleanString keyword) 1 rootNode (mk_cow ∅ [] isNew0) in
    push_free (freed s) ;;;
    let node := default NULL (last pathTrace) in
    let! n := load_node node in
    let isNewInternal := if negb (isTerminalNode n) && negb (isNewTrieNode s) then true
                         else isNewInternal0 in
    for_each pathTrace (remap_descendants (oldToNewTrieNodeMap s)) ;;;
    addKeyword_SetPrevIdNexIdByPathTrace pathTrace (isNewTrieNode s) node ;;;
    remapPathForTrieNodesToReassign (oldToNewTrieNodeMap s) ;;;
    let! n := load_node node in
    ret (Some (mk_inserted (id n) (invertedListOffset n) (isNewTrieNode s) isNewInternal node)).

(** ** Lookup *)

(** [getTrieNode]: NULL when the word is no prefix of a keyword. *)
Fixpoint getTrieNode (h : heap) (node : ptr) (w : list Z) : result ptr :=
  match w with
  | [] => Ok node
  | c :: w' =>
      let? n := s_load h node in
      let? child := findChild h n c in
      if bool_decide (child = NULL) then Ok NULL else getTrieNode h child w'
  end.

(** ** A new trie *)

Definition new_trie : trie :=
  let (r, h1) := s_new (@empty_store TrieNode) new_root in
  let (w, h2) := s_new h1 (copy_node new_root false) in
  let (v, vs) := s_new (@empty_store view) (mk_view [] r) in
  mk_trie h2 vs ∅ v w [] 0 (wrap32 (MAX_ALLOCATED_KEYWORD_ID + 1)) [] None false false [].

End Trie.
