(* ===== verification/TrieTree.v ===== *)
(** * The trees a store of trie nodes represents

    [shape h t] says that the store [h] holds the tree [t]: the node of each
    sub-tree at its address, with the addresses of its children in order.  A
    sub-tree is reached through a context of frames ([plug]), bottom up, which is
    how the code walks up a path.  The predicates on trees are the invariants of
    the trie: [sorted] children, the [links] to the outermost descendants, and the
    [terminals] in lexicographic order. *)
From S2P Require Import Prelude TrieNode.
From Stdlib Require Import ZArith Lia List Bool Sorted.
From stdpp Require Import base gmap list fin_maps fin_map_dom.
Open Scope Z_scope.

Module TrieTree.
Import TrieNode.

Inductive tree := Tree (p : ptr) (n : TrieNode) (cs : list tree).

Definition tptr (t : tree) : ptr := match t with Tree p _ _ => p end.
Definition tnode (t : tree) : TrieNode := match t with Tree _ n _ => n end.
Definition kids (t : tree) : list tree := match t with Tree _ _ cs => cs end.
Definition tchar (t : tree) : Z := character (tnode t).

Lemma tree_ind' (P : tree -> Prop) :
  (forall p n cs, Forall P cs -> P (Tree p n cs)) -> forall t, P t.
Proof.
  intros H. fix IH 1. intros [p n cs]. apply H.
  induction cs as [|c cs IHcs]; constructor; [apply IH|apply IHcs].
Qed.

(** The addresses of a tree. *)
Fixpoint ptrs (t : tree) : list ptr :=
  match t with Tree p _ cs => p :: flat_map ptrs cs end.

Inductive shape (h : heap) : tree -> Prop :=
  shape_node p n cs : p <> NULL -> cells h !! p = Some n ->
    childrenPointerList n = map tptr cs -> Forall (shape h) cs -> shape h (Tree p n cs).

(** ** Contexts *)

(** The parent of a sub-tree with the siblings on its left and on its right. *)
Record frame := mk_frame { fptr : ptr; fnode : TrieNode; fleft : list tree; fright : list tree }.

Definition fill (f : frame) (k : tree) : tree := Tree (fptr f) (fnode f) (fleft f ++ k :: fright f).

Fixpoint plug (ctx : list frame) (k : tree) : tree :=
  match ctx with [] => k | f :: ctx' => plug ctx' (fill f k) end.

Lemma plug_app c1 c2 k : plug (c1 ++ c2) k = plug c2 (plug c1 k).
Proof. revert k. induction c1 as [|f c1 IH]; intros k; simpl; [done|apply IH]. Qed.

(** What a context requires of the store: everything but the sub-tree itself. *)
Inductive shape_ctx (h : heap) : list frame -> tree -> Prop :=
  | shape_top k : shape_ctx h [] k
  | shape_frame f ctx k : fptr f <> NULL -> cells h !! fptr f = Some (fnode f) ->
      childrenPointerList (fnode f) = map tptr (fleft f ++ k :: fright f) ->
      Forall (shape h) (fleft f) -> Forall (shape h) (fright f) ->
      shape_ctx h ctx (fill f k) -> shape_ctx h (f :: ctx) k.

Lemma shape_fill h f k : shape h (fill f k) <->
  (fptr f <> NULL /\ cells h !! fptr f = Some (fnode f) /\
   childrenPointerList (fnode f) = map tptr (fleft f ++ k :: fright f) /\
   Forall (shape h) (fleft f) /\ Forall (shape h) (fright f)) /\ shape h k.
Proof.
  split.
  - inversion 1; subst. rewrite Forall_app, Forall_cons in *. naive_solver.
  - intros ((? & ? & ? & ? & ?) & ?). constructor; try done.
    rewrite Forall_app, Forall_cons. done.
Qed.

Lemma shape_plug h ctx k : shape h (plug ctx k) <-> shape_ctx h ctx k /\ shape h k.
Proof.
  revert k. induction ctx as [|f ctx IH]; intros k; simpl.
  - split; [intros; split; [constructor|done]|naive_solver].
  - rewrite IH, shape_fill. split.
    + intros (Hc & (? & ? & ? & ? & ?) & ?). split; [|done]. by constructor.
    + intros [Hc Hk]. inversion Hc; subst. naive_solver.
Qed.

(** ** Frame properties *)

Lemma shape_frame_rule h h' t :
  (forall p, p ∈ ptrs t -> cells h' !! p = cells h !! p) -> shape h t -> shape h' t.
Proof.
  revert t. apply (tree_ind' (fun t => _ -> shape h t -> shape h' t)).
  intros p n cs IH Hag. inversion 1; subst. constructor; try done.
  - rewrite Hag by (cbn; set_solver). done.
  - rewrite !Forall_forall in *. intros c Hc. apply IH; [done| |by auto].
    intros q Hq. apply Hag. cbn. apply elem_of_cons. right. apply elem_of_flat_map. eauto.
Qed.

Definition frame_ptrs (f : frame) : list ptr :=
  fptr f :: flat_map ptrs (fleft f) ++ flat_map ptrs (fright f).
Definition ctx_ptrs (ctx : list frame) : list ptr := flat_map frame_ptrs ctx.

Lemma ctx_ptrs_cons f ctx : ctx_ptrs (f :: ctx) = frame_ptrs f ++ ctx_ptrs ctx.
Proof. done. Qed.

Lemma ptrs_fill f k : ptrs (fill f k) ≡ₚ frame_ptrs f ++ ptrs k.
Proof.
  unfold fill, frame_ptrs. cbn. rewrite flat_map_app. cbn. constructor.
  rewrite <- app_assoc. f_equiv. apply Permutation_app_comm.
Qed.

Lemma ptrs_plug ctx k : ptrs (plug ctx k) ≡ₚ ctx_ptrs ctx ++ ptrs k.
Proof.
  revert k. induction ctx as [|f ctx IH]; intros k; [done|].
  cbn [plug]. rewrite IH, ptrs_fill, ctx_ptrs_cons. solve_Permutation.
Qed.

Lemma shapes_frame_rule h h' ts :
  (forall p, p ∈ flat_map ptrs ts -> cells h' !! p = cells h !! p) ->
  Forall (shape h) ts -> Forall (shape h') ts.
Proof.
  intros Hag. rewrite !Forall_forall. intros H t Ht. apply (shape_frame_rule h); [|by apply H].
  intros p Hp. apply Hag. apply elem_of_flat_map. eauto.
Qed.

(** A context does not see which tree of the same address fills it, and only
    depends on the nodes outside. *)
Lemma shape_ctx_swap h ctx k k' : tptr k = tptr k' -> shape_ctx h ctx k -> shape_ctx h ctx k'.
Proof.
  revert k k'. induction ctx as [|f ctx IH]; intros k k' E; [intros; constructor|].
  inversion 1; subst. constructor; try done.
  - rewrite map_app in *. cbn in *. by rewrite <- E.
  - by apply (IH (fill f k)).
Qed.

Lemma shape_ctx_frame_rule h h' ctx k :
  (forall p, p ∈ ctx_ptrs ctx -> cells h' !! p = cells h !! p) ->
  shape_ctx h ctx k -> shape_ctx h' ctx k.
Proof.
  revert k. induction ctx as [|f ctx IH]; intros k Hag; [intros; constructor|].
  assert (forall p, p ∈ frame_ptrs f -> cells h' !! p = cells h !! p) as Hf.
  { intros p Hp. apply Hag. rewrite ctx_ptrs_cons, elem_of_app. by left. }
  inversion 1; subst. constructor; try done.
  - rewrite Hf; [done|]. unfold frame_ptrs. set_solver.
  - eapply shapes_frame_rule; [|done]. intros p Hp. apply Hf. unfold frame_ptrs. set_solver.
  - eapply shapes_frame_rule; [|done]. intros p Hp. apply Hf. unfold frame_ptrs. set_solver.
  - apply IH; [|done]. intros p Hp. apply Hag. rewrite ctx_ptrs_cons, elem_of_app. by right.
Qed.

(** Changing the sub-tree in its place. *)
Lemma shape_refill h h' ctx k k' : tptr k = tptr k' ->
  (forall p, p ∈ ctx_ptrs ctx -> cells h' !! p = cells h !! p) ->
  shape h (plug ctx k) -> shape h' k' -> shape h' (plug ctx k').
Proof.
  intros E Hag [Hc _]%shape_plug Hk. apply shape_plug. split; [|done].
  eapply shape_ctx_swap; [exact E|]. by eapply shape_ctx_frame_rule.
Qed.

Definition update (h : heap) (p : ptr) (n : TrieNode) : heap :=
  mk_store (<[p := n]> (cells h)) (next_addr h).

(** Overwriting the node at the focus. *)
Lemma shape_update h ctx p n cs n' :
  shape h (plug ctx (Tree p n cs)) -> NoDup (ptrs (plug ctx (Tree p n cs))) ->
  childrenPointerList n' = childrenPointerList n ->
  shape (update h p n') (plug ctx (Tree p n' cs)).
Proof.
  intros Hs Hnd Hch. rewrite ptrs_plug in Hnd. apply NoDup_app in Hnd as (_ & Hd & Hnd).
  cbn [ptrs] in *. apply NoDup_cons in Hnd as [Hp Hnd].
  eapply (shape_refill h); [| |exact Hs|]; [done| |].
  - intros q Hq. cbn. rewrite lookup_insert_ne; [done|]. intros ->. apply (Hd q Hq). set_solver.
  - apply shape_plug in Hs as [_ Hk]. inversion Hk; subst. constructor; [done| |by rewrite Hch|].
    + cbn. apply lookup_insert_eq.
    + eapply shapes_frame_rule; [|done]. intros q Hq. cbn. rewrite lookup_insert_ne; [done|].
      by intros ->.
Qed.

Lemma shape_load h ctx k : shape h (plug ctx k) -> s_load h (tptr k) = Ok (tnode k).
Proof. intros [_ Hk]%shape_plug. inversion Hk; subst. by apply s_load_Ok. Qed.

Lemma shape_store h ctx k n' : shape h (plug ctx k) -> s_store h (tptr k) n' = Ok (update h (tptr k) n').
Proof.
  intros [_ Hk]%shape_plug. inversion Hk; subst. cbn. apply s_store_Ok. eauto.
Qed.

Lemma shape_kids h ctx k : shape h (plug ctx k) ->
  childrenPointerList (tnode k) = map tptr (kids k) /\ Forall (shape h) (kids k).
Proof. intros [_ Hk]%shape_plug. by inversion Hk; subst. Qed.

Lemma shape_load_root h k : shape h k -> s_load h (tptr k) = Ok (tnode k).
Proof. apply (shape_load h []). Qed.
(** ** The invariant of the trie *)

Definition inhabited (t : tree) : Prop := kids t = [] -> isTerminalNode (tnode t) = true.

(** [links]: a node knows its outermost descendants through its outer children. *)
Definition left_of (p : ptr) (n : TrieNode) (cs : list tree) : ptr :=
  if isTerminalNode n then p
  else match cs with [] => NULL | c :: _ => leftMostDescendant (tnode c) end.
Definition right_of (p : ptr) (n : TrieNode) (cs : list tree) : ptr :=
  match last cs with
  | Some c => rightMostDescendant (tnode c)
  | None => if isTerminalNode n then p else NULL
  end.

Inductive wf : Z -> tree -> Prop :=
  wf_node d p n cs : getDepth n = d -> StronglySorted Z.lt (map tchar cs) ->
    Forall (wf (d + 1)) cs -> Forall inhabited cs ->
    leftMostDescendant n = left_of p n cs -> rightMostDescendant n = right_of p n cs ->
    wf d (Tree p n cs).

(** The part of the invariant that does not concern the sub-tree in the hole. *)
Record frame_ok (d : Z) (f : frame) (c : Z) : Prop := {
  fo_depth : getDepth (fnode f) = d;
  fo_sorted : StronglySorted Z.lt (map tchar (fleft f) ++ c :: map tchar (fright f));
  fo_left : Forall (wf (d + 1)) (fleft f);
  fo_right : Forall (wf (d + 1)) (fright f);
  fo_inhabited : Forall inhabited (fleft f ++ fright f);
  fo_first : (isTerminalNode (fnode f) = true \/ fleft f <> []) ->
    leftMostDescendant (fnode f) = left_of (fptr f) (fnode f) (fleft f);
  fo_last : fright f <> [] ->
    rightMostDescendant (fnode f) = right_of (fptr f) (fnode f) (fright f) }.

Record focus_links (f : frame) (k : tree) : Prop := {
  fl_left : isTerminalNode (fnode f) = false -> fleft f = [] ->
    leftMostDescendant (fnode f) = leftMostDescendant (tnode k);
  fl_right : fright f = [] -> rightMostDescendant (fnode f) = rightMostDescendant (tnode k) }.

Lemma last_app_cons {A} (l : list A) x r : last (l ++ x :: r) = last (x :: r).
Proof. by rewrite last_app, last_cons; destruct (last r). Qed.

Lemma wf_fill d f k : wf d (fill f k) <->
  frame_ok d f (tchar k) /\ focus_links f k /\ wf (d + 1) k /\ inhabited k.
Proof.
  split.
  - inversion 1 as [? ? ? ? Hd Hs Hw Hi Hl Hr]; subst.
    rewrite Forall_app, Forall_cons in Hw, Hi. destruct Hw as (Hwl & Hwk & Hwr), Hi as (Hil & Hik & Hir).
    rewrite map_app in Hs. cbn in Hs. unfold left_of, right_of in *. rewrite last_app_cons in Hr.
    split; [|split; [|done]].
    + constructor; try done; [by apply Forall_app| |].
      * intros Hor. unfold left_of. destruct (isTerminalNode (fnode f)); [done|].
        destruct (fleft f); [|done]. by destruct Hor.
      * intros Hne. unfold right_of. destruct (fright f) as [|y r]; [done|].
        rewrite last_cons_cons in Hr. done.
    + constructor.
      * intros Ht Hn. rewrite Ht, Hn in Hl. done.
      * intros Hn. rewrite Hn in Hr. done.
  - intros ([Hd Hs Hwl Hwr Hi Hf Hlst] & [Hl Hr] & Hk & Hik). apply Forall_app in Hi as [Hil Hir].
    constructor; try done.
    + by rewrite map_app.
    + by rewrite Forall_app, Forall_cons.
    + by rewrite Forall_app, Forall_cons.
    + unfold left_of in *. destruct (isTerminalNode (fnode f)); [by apply Hf; left|].
      destruct (fleft f) as [|x l]; [by apply Hl|by apply Hf; right].
    + unfold right_of in *. rewrite last_app_cons. destruct (fright f) as [|y r].
      * by apply Hr.
      * rewrite last_cons_cons. by apply Hlst.
Qed.

(** [d] is the depth of the hole. *)
Fixpoint ctx_ok (d : Z) (ctx : list frame) (c : Z) : Prop :=
  match ctx with
  | [] => d = 0
  | f :: ctx' => frame_ok (d - 1) f c /\ ctx_ok (d - 1) ctx' (character (fnode f))
  end.
Fixpoint ctx_links (ctx : list frame) (k : tree) : Prop :=
  match ctx with
  | [] => True
  | f :: ctx' => focus_links f k /\ ctx_links ctx' (fill f k)
  end.

Lemma inhabited_fill f k : inhabited (fill f k).
Proof. unfold inhabited. cbn. by destruct (fleft f). Qed.

Lemma wf_plug ctx k : wf 0 (plug ctx k) <->
  exists d, ctx_ok d ctx (tchar k) /\ ctx_links ctx k /\ wf d k /\ (ctx <> [] -> inhabited k).
Proof.
  revert k. induction ctx as [|f ctx IH]; intros k; cbn [plug ctx_ok ctx_links].
  - split; [intros; by exists 0|]. intros (d & -> & _ & H & _). done.
  - rewrite IH. split.
    + intros (d & Hc & Hl & Hw & _). apply wf_fill in Hw as (Hf & Hfl & Hk & Hi).
      exists (d + 1). replace (d + 1 - 1) with d by lia. done.
    + intros (d & [Hf Hc] & [Hfl Hl] & Hk & Hi). exists (d - 1). split; [done|]. split; [done|].
      split; [|intros; apply inhabited_fill]. apply wf_fill. replace (d - 1 + 1) with d by lia.
      split; [done|]. split; [done|]. split; [done|by apply Hi].
Qed.

(** ** The keywords of a trie, in order *)

Definition prefixed (c : Z) (e : list Z * (Z * Z)) : list Z * (Z * Z) := (c :: e.1, e.2).

Definition own (n : TrieNode) : list (list Z * (Z * Z)) :=
  if isTerminalNode n then [([], (id n, invertedListOffset n))] else [].

(** The words below a node, each with its id and inverted-list offset. *)
Fixpoint entries (t : tree) : list (list Z * (Z * Z)) :=
  match t with
  | Tree _ n cs => own n ++ flat_map (fun k => map (prefixed (tchar k)) (entries k)) cs
  end.

Definition kid_entries (k : tree) := map (prefixed (tchar k)) (entries k).

(** The word that leads from the root to the hole, whose tree starts with [c]. *)
Fixpoint ctx_word (ctx : list frame) (c : Z) : list Z :=
  match ctx with
  | [] => []
  | f :: ctx' => ctx_word ctx' (character (fnode f)) ++ [c]
  end.

Definition under (w : list Z) (e : list Z * (Z * Z)) : list Z * (Z * Z) := (w ++ e.1, e.2).

Fixpoint before (ctx : list frame) (c : Z) : list (list Z * (Z * Z)) :=
  match ctx with
  | [] => []
  | f :: ctx' => before ctx' (character (fnode f)) ++
      map (under (ctx_word ctx' (character (fnode f)))) (own (fnode f) ++ flat_map kid_entries (fleft f))
  end.
Fixpoint after (ctx : list frame) (c : Z) : list (list Z * (Z * Z)) :=
  match ctx with
  | [] => []
  | f :: ctx' =>
      map (under (ctx_word ctx' (character (fnode f)))) (flat_map kid_entries (fright f)) ++
      after ctx' (character (fnode f))
  end.

Lemma under_nil l : map (under []) l = l.
Proof. induction l as [|[w x] l IH]; cbn; [done|]. by rewrite IH. Qed.

Lemma under_kid w k : map (under w) (kid_entries k) = map (under (w ++ [tchar k])) (entries k).
Proof.
  unfold kid_entries. rewrite map_map. apply map_ext. intros e. unfold under, prefixed. cbn.
  by rewrite <- app_assoc.
Qed.

Lemma entries_plug ctx k : entries (plug ctx k) =
  before ctx (tchar k) ++ map (under (ctx_word ctx (tchar k))) (entries k) ++ after ctx (tchar k).
Proof.
  revert k. induction ctx as [|f ctx IH]; intros k; cbn [plug before after ctx_word].
  - by rewrite under_nil, app_nil_r.
  - rewrite IH. change (tchar (fill f k)) with (character (fnode f)).
    set (w := ctx_word ctx (character (fnode f))). cbn [fill entries].
    rewrite flat_map_app. cbn [flat_map].
    change (flat_map (fun k => map (prefixed (tchar k)) (entries k))) with (flat_map kid_entries).
    change (map (prefixed (tchar k)) (entries k)) with (kid_entries k).
    rewrite !map_app, under_kid, <- !app_assoc. done.
Qed.
(** ** Fresh nodes *)

Lemma shape_live h t p : shape h t -> p ∈ ptrs t -> is_Some (cells h !! p).
Proof.
  revert t. apply (tree_ind' (fun t => shape h t -> p ∈ ptrs t -> is_Some (cells h !! p))).
  intros q n cs IH Hs Hp. inversion Hs as [? ? ? ? ? ? Hcs]; subst. cbn in Hp.
  apply elem_of_cons in Hp as [->|Hp]; [eauto|].
  apply elem_of_flat_map in Hp as (c & Hc & Hp). rewrite Forall_forall in IH, Hcs. eauto.
Qed.

Lemma shape_fresh h t : shape h t -> store_wf h -> next_addr h ∉ ptrs t.
Proof.
  intros Hs Hwf Hp. destruct (shape_live _ _ _ Hs Hp) as [x Hx].
  by rewrite store_wf_fresh in Hx.
Qed.

Lemma node_update_wf h p n n' : store_wf h -> cells h !! p = Some n -> store_wf (update h p n').
Proof.
  intros Hwf Hp. apply (s_store_wf h p n'); [done|]. apply s_store_Ok. split; [|eauto].
  destruct Hwf as [_ Hwf]. specialize (Hwf p ltac:(eauto)). unfold NULL. lia.
Qed.

Lemma shape_new h ctx k m : shape h (plug ctx k) -> store_wf h ->
  shape (s_new h m).2 (plug ctx k).
Proof.
  intros Hs Hwf. eapply shape_frame_rule; [|exact Hs]. intros p Hp. cbn.
  rewrite lookup_insert_ne; [done|]. intros <-. by eapply shape_fresh.
Qed.

(** Hanging a new leaf [m] under the node at the focus. *)
Lemma shape_add_leaf h ctx p n l r m :
  shape h (plug ctx (Tree p n (l ++ r))) -> NoDup (ptrs (plug ctx (Tree p n (l ++ r)))) ->
  store_wf h -> childrenPointerList m = [] ->
  let q := next_addr h in
  let n' := with_children n (map tptr l ++ q :: map tptr r) in
  let h' := update (s_new h m).2 p n' in
  let t' := plug (mk_frame p n' l r :: ctx) (Tree q m []) in
  shape h' t' /\ NoDup (ptrs t') /\ store_wf h'.
Proof.
  intros Hs Hnd Hwf Hm q n' h' t'. pose proof (shape_fresh _ _ Hs Hwf) as Hq. fold q in Hq.
  pose proof (shape_new _ _ _ m Hs Hwf) as Hs1.
  pose proof Hnd as Hnd0. rewrite ptrs_plug in Hnd, Hq. apply NoDup_app in Hnd as (Hn1 & Hn2 & Hn3).
  cbn [ptrs] in *. apply NoDup_cons in Hn3 as [Hp Hn3].
  assert (q <> p) as Hqp by (intros E; apply Hq; rewrite E; set_solver).
  assert (store_wf (s_new h m).2) as Hwf1 by (by apply s_new_wf).
  assert (cells (s_new h m).2 !! q = Some m) as Hlq by (cbn; apply lookup_insert_eq).
  assert (cells (s_new h m).2 !! p = Some n) as Hlp.
  { apply shape_plug in Hs1 as [_ Hk]. by inversion Hk. }
  split; [|split].
  - unfold t'. cbn [plug]. eapply (shape_refill (s_new h m).2 h'); [| |exact Hs1|]; [done| |].
    + intros x Hx. unfold h', update. cbn [cells]. rewrite lookup_insert_ne; [done|].
      intros ->. apply (Hn2 x Hx). set_solver.
    + apply shape_fill. apply shape_plug in Hs1 as [_ Hk]. inversion Hk as [? ? ? ? ? ? Hcs]; subst.
      assert (Forall (shape h') (l ++ r)) as Hcs'.
      { eapply shapes_frame_rule; [|exact Hcs]. intros x Hx. unfold h', update. cbn [cells].
        rewrite lookup_insert_ne; [done|]. intros ->. by apply Hp. }
      apply Forall_app in Hcs' as [Hl Hr]. cbn. split.
      * split; [done|]. split; [apply lookup_insert_eq|]. split; [by rewrite map_app|done].
      * constructor; [|unfold h', update; cbn [cells]; by rewrite lookup_insert_ne|by rewrite Hm|constructor].
        destruct Hwf1 as [_ Hw]. specialize (Hw q ltac:(eauto)). unfold NULL. lia.
  - unfold t'. rewrite ptrs_plug, ctx_ptrs_cons. cbn [ptrs flat_map]. unfold frame_ptrs. cbn [fptr fleft fright].
    rewrite flat_map_app in *.
    assert ((((p :: flat_map ptrs l ++ flat_map ptrs r) ++ ctx_ptrs ctx) ++ [q]) ≡ₚ
            q :: ctx_ptrs ctx ++ p :: flat_map ptrs l ++ flat_map ptrs r) as HP.
    { rewrite (Permutation_app_comm _ [q]). cbn. constructor. apply (Permutation_app_comm (p :: flat_map ptrs l ++ flat_map ptrs r)). }
    rewrite HP. apply NoDup_cons. split; [exact Hq|].
    rewrite ptrs_plug in Hnd0. cbn [ptrs] in Hnd0. by rewrite flat_map_app in Hnd0.
  - unfold h'. by eapply node_update_wf.
Qed.

(** ** Searching the children of a node of a tree *)

Lemma kids_children h k : shape h k -> children_are h (tnode k) (map tnode (kids k)).
Proof.
  inversion 1 as [p n cs Hp Hl Hch Hcs]; subst. unfold children_are. cbn. rewrite Hch.
  clear Hch H. induction Hcs as [|c cs Hc Hcs IH]; cbn; [constructor|].
  constructor; [by apply shape_load_root|exact IH].
Qed.

Lemma find_kid h k c : shape h k -> StronglySorted Z.lt (map tchar (kids k)) ->
  exists pos, findChildNodePosition h (tnode k) c = Ok pos /\
  ((exists l x r, kids k = l ++ x :: r /\ tchar x = c /\ pos = Z.of_nat (length l)) \/
   (exists l r, kids k = l ++ r /\ pos = - (Z.of_nat (length l) + 1) /\
      StronglySorted Z.lt (map tchar l ++ c :: map tchar r))).
Proof.
  intros Hk Hs. assert (map character (map tnode (kids k)) = map tchar (kids k)) as E by apply map_map.
  destruct (findChildNodePosition_spec h (tnode k) (map tnode (kids k)) c) as (pos & Hf & Hr).
  { by apply kids_children. } { by rewrite E. }
  exists pos. split; [done|]. rewrite E in Hr.
  destruct (Z.le_gt_cases 0 pos) as [Hp|Hp].
  - left. destruct Hr as [(l & r & Hkeys & ->)|(l & r & _ & -> & _)]; [|lia].
    apply map_eq_app in Hkeys as (l' & r' & Ek & <- & Hr').
    apply map_eq_cons in Hr' as (x & r'' & -> & Hx & _). exists l', x, r''.
    rewrite length_map. done.
  - right. destruct (search_result_insert _ _ _ Hr Hp Hs) as [_ Hsort].
    destruct Hr as [(l & r & _ & ->)|(l & r & Hkeys & -> & _)]; [lia|].
    apply map_eq_app in Hkeys as (l' & r' & Ek & El & Er). exists l', r'.
    replace (- - (Z.of_nat (length l) + 1) - 1) with (Z.of_nat (length l)) in Hsort by lia.
    rewrite Nat2Z.id, Ek, map_app, El, Er, take_app_length, drop_app_length in Hsort.
    subst l r. by rewrite length_map.
Qed.

Lemma wf_kids d t : wf d t -> StronglySorted Z.lt (map tchar (kids t)).
Proof. by inversion 1. Qed.
(** ** The entries are in lexicographic order *)

Fixpoint lex (u v : list Z) : Prop :=
  match u, v with
  | _, [] => False
  | [], _ :: _ => True
  | a :: u', b :: v' => a < b \/ (a = b /\ lex u' v')
  end.

Lemma lex_irrefl u : ~ lex u u.
Proof. induction u as [|a u IH]; cbn; [tauto|]. intros [?|[_ ?]]; [lia|tauto]. Qed.

Definition words (t : tree) : list (list Z) := map fst (entries t).

Definition kid_words (k : tree) : list (list Z) := map (cons (tchar k)) (words k).

Lemma words_node p n cs : words (Tree p n cs) =
  (if isTerminalNode n then [[]] else []) ++ flat_map kid_words cs.
Proof.
  unfold words. cbn [entries]. rewrite map_app. f_equal.
  - unfold own. by destruct (isTerminalNode n).
  - induction cs as [|k cs IH]; cbn [flat_map]; [done|]. rewrite map_app, IH. f_equal.
    unfold kid_words, words. by rewrite !map_map.
Qed.

Lemma rooted_nonterminal t : ~ In [] (words t) -> isTerminalNode (tnode t) = false.
Proof.
  destruct t as [p n cs]. rewrite words_node. cbn. intros H. destruct (isTerminalNode n); [|done].
  destruct H. by left.
Qed.

Lemma kid_words_cons k w : In w (kid_words k) -> exists w', w = tchar k :: w'.
Proof. intros (w' & <- & _)%in_map_iff. eauto. Qed.

Lemma words_sorted d t : wf d t -> StronglySorted lex (words t).
Proof.
  revert d. induction t as [p n cs IH] using tree_ind'. intros d Hw.
  inversion Hw as [? ? ? ? _ Hs Hws _ _ _]; subst. rewrite words_node. apply ssorted_app.
  - destruct (isTerminalNode n); repeat constructor.
  - clear Hw. induction cs as [|k cs IHcs]; cbn [flat_map]; [constructor|].
    inversion_clear IH as [|? ? IHk IH']. inversion_clear Hws as [|? ? Hwk Hws'].
    cbn [map] in Hs. inversion_clear Hs as [|? ? Hs' Hlt]. apply ssorted_app.
    + apply (ssorted_map lex); [|by eapply IHk]. intros x y Hxy. cbn. by right.
    + by apply IHcs.
    + intros x y (x' & ->)%kid_words_cons Hy. apply in_flat_map in Hy as (k' & Hk' & (y' & ->)%kid_words_cons).
      left. rewrite List.Forall_forall in Hlt. apply Hlt. by apply in_map.
  - intros x y Hx Hy. apply in_flat_map in Hy as (k' & _ & (y' & ->)%kid_words_cons).
    destruct (isTerminalNode n); [|done]. by destruct Hx as [<-|[]].
Qed.

(** A strictly sorted list has no second copy of an element. *)
Lemma sorted_unique (l r : list (list Z)) w : StronglySorted lex (l ++ w :: r) -> ~ In w (l ++ r).
Proof.
  intros (H1 & _ & H2)%ssorted_app_inv. inversion_clear H2 as [|? ? _ H3].
  rewrite List.Forall_forall in H3. rewrite in_app_iff. intros [H|H].
  - apply (lex_irrefl w). apply H1; [done|by left].
  - by apply (lex_irrefl w), H3.
Qed.
(** ** The sub-tree a word leads to *)

Fixpoint subtree (t : tree) (w : list Z) : option tree :=
  match w with
  | [] => Some t
  | c :: w' =>
      match List.find (fun k => tchar k =? c) (kids t) with
      | Some k => subtree k w'
      | None => None
      end
  end.

Lemma kid_present l x r : StronglySorted Z.lt (map tchar (l ++ x :: r)) ->
  List.find (fun k => tchar k =? tchar x) (l ++ x :: r) = Some x.
Proof.
  induction l as [|y l IH]; cbn; intros Hs; [by rewrite Z.eqb_refl|].
  inversion_clear Hs as [|? ? Hs' Hlt]. rewrite List.Forall_forall in Hlt.
  destruct (Z.eqb_spec (tchar y) (tchar x)) as [E|_]; [|by apply IH].
  specialize (Hlt (tchar x)). rewrite map_app, in_app_iff in Hlt.
  specialize (Hlt ltac:(right; by left)). lia.
Qed.

Lemma kid_absent l r c : StronglySorted Z.lt (map tchar l ++ c :: map tchar r) ->
  List.find (fun k => tchar k =? c) (l ++ r) = None.
Proof.
  intros (H1 & _ & H2)%ssorted_app_inv. inversion_clear H2 as [|? ? _ Hlt].
  rewrite List.Forall_forall in Hlt.
  destruct (List.find _ (l ++ r)) as [k|] eqn:E; [|done]. apply find_some in E as [Hin E].
  apply Z.eqb_eq in E. apply in_app_iff in Hin as [Hin|Hin].
  - specialize (H1 (tchar k) c (in_map tchar _ _ Hin) ltac:(by left)). lia.
  - specialize (Hlt (tchar k) (in_map tchar _ _ Hin)). lia.
Qed.

Lemma shape_nonnull h t : shape h t -> tptr t <> NULL.
Proof. by inversion 1. Qed.

Lemma findChild_spec h d k c : shape h k -> wf d k ->
  findChild h (tnode k) c =
    Ok (match List.find (fun x => tchar x =? c) (kids k) with Some x => tptr x | None => NULL end).
Proof.
  intros Hk Hw. destruct (find_kid _ _ c Hk (wf_kids _ _ Hw)) as (pos & Hf & Hcase).
  unfold findChild. rewrite Hf. cbn [rbind]. pose proof (wf_kids _ _ Hw) as Hs.
  destruct Hcase as [(l & x & r & E & Hx & ->)|(l & r & E & -> & Hsort)].
  - destruct (Z.leb_spec 0 (Z.of_nat (length l))); [|lia]. rewrite E in *. subst c.
    rewrite kid_present by done. unfold getChild.
    assert (childrenPointerList (tnode k) = map tptr (kids k)) as -> by (by inversion Hk).
    rewrite E, map_app. cbn [map]. rewrite <- (length_map tptr l). apply vec_at_app.
  - destruct (Z.leb_spec 0 (- (Z.of_nat (length l) + 1))); [lia|]. by rewrite E, kid_absent.
Qed.

(** Induction on the words of a tree. *)
Lemma entries_cons p n cs c w x : In (c :: w, x) (entries (Tree p n cs)) <->
  exists k, In k cs /\ tchar k = c /\ In (w, x) (entries k).
Proof.
  cbn [entries]. rewrite in_app_iff. split.
  - intros [H|H].
    + unfold own in H. destruct (isTerminalNode n); [|done]. by destruct H as [[=]|[]].
    + apply in_flat_map in H as (k & Hk & H). apply in_map_iff in H as ([w' x'] & E & H).
      unfold prefixed in E. cbn in E. simplify_eq. eauto.
  - intros (k & Hk & <- & H). right. apply in_flat_map. exists k. split; [done|].
    apply in_map_iff. by exists (w, x).
Qed.

Lemma entries_nil p n cs x : In ([], x) (entries (Tree p n cs)) <->
  isTerminalNode n = true /\ x = (id n, invertedListOffset n).
Proof.
  cbn [entries]. rewrite in_app_iff. unfold own. split.
  - intros [H|H].
    + destruct (isTerminalNode n); [|done]. destruct H as [[= <-]|[]]. done.
    + apply in_flat_map in H as (k & _ & H). apply in_map_iff in H as (? & [=] & _).
  - intros [-> ->]. left. by left.
Qed.

Lemma entries_subtree d t w x : wf d t -> In (w, x) (entries t) <->
  exists k, subtree t w = Some k /\ isTerminalNode (tnode k) = true /\
    x = (id (tnode k), invertedListOffset (tnode k)).
Proof.
  revert d t. induction w as [|c w IH]; intros d [p n cs] Hw; cbn [subtree kids].
  - rewrite entries_nil. split; [intros [? ?]; by exists (Tree p n cs)|].
    by intros (k & [= <-] & ? & ?).
  - rewrite entries_cons. pose proof (wf_kids _ _ Hw) as Hs. cbn [kids] in Hs.
    assert (Forall (wf (d + 1)) cs) as Hcs by (by inversion Hw).
    rewrite List.Forall_forall in Hcs. split.
    + intros (k & Hk & <- & Hin). apply in_split in Hk as Hsp. destruct Hsp as (l & r & ->).
      rewrite kid_present by done. apply (IH (d + 1)); [|done]. by apply Hcs.
    + destruct (List.find _ cs) as [k|] eqn:E; [|by intros (? & [=] & _)].
      apply find_some in E as [Hk Hc]. apply Z.eqb_eq in Hc. intros H. exists k.
      split; [done|]. split; [done|]. apply (IH (d + 1)); [by apply Hcs|done].
Qed.
(** ** Trees of the same form

    Nodes are [alike] when they differ at most in ids, offsets, counters, scores
    and copy flags; trees are [similar] when they have alike nodes at the same
    addresses.  Similar trees have the same words and are both well formed. *)
Record alike (n n' : TrieNode) : Prop := {
  al_flags : terminalFlag1bDepth7b n' = terminalFlag1bDepth7b n;
  al_char : character n' = character n;
  al_left : leftMostDescendant n' = leftMostDescendant n;
  al_right : rightMostDescendant n' = rightMostDescendant n;
  al_kids : childrenPointerList n' = childrenPointerList n }.

Inductive similar : tree -> tree -> Prop :=
  similar_node p n n' cs cs' : alike n n' -> Forall2 similar cs cs' ->
    similar (Tree p n cs) (Tree p n' cs').

Lemma alike_refl n : alike n n.
Proof. done. Qed.

Lemma similar_refl t : similar t t.
Proof.
  induction t as [p n cs IH] using tree_ind'. constructor; [done|].
  induction IH; constructor; auto.
Qed.

Lemma similar_root t t' : similar t t' -> tptr t' = tptr t /\ alike (tnode t) (tnode t') /\
  Forall2 similar (kids t) (kids t').
Proof. by inversion 1. Qed.

Lemma similar_ptrs t t' : similar t t' -> ptrs t' = ptrs t.
Proof.
  revert t'. induction t as [p n cs IH] using tree_ind'. intros t'. inversion_clear 1 as [? ? n' ? cs' _ Hcs].
  cbn. f_equal. induction Hcs as [|k k' cs cs' Hk Hcs IHcs]; cbn; [done|].
  inversion_clear IH as [|? ? IHk IH']. by rewrite (IHk k' Hk), IHcs.
Qed.

Lemma alike_terminal n n' : alike n n' -> isTerminalNode n' = isTerminalNode n /\ getDepth n' = getDepth n.
Proof. intros [H _ _ _ _]. unfold isTerminalNode, getDepth. by rewrite H. Qed.

Lemma similar_chars cs cs' : Forall2 similar cs cs' -> map tchar cs' = map tchar cs.
Proof.
  induction 1 as [|k k' cs cs' Hk Hcs IH]; cbn; [done|]. rewrite IH. f_equal.
  apply similar_root in Hk as (_ & Hk & _). apply Hk.
Qed.

Lemma similar_words t t' : similar t t' -> words t' = words t.
Proof.
  revert t'. induction t as [p n cs IH] using tree_ind'. intros t'. inversion_clear 1 as [? ? n' ? cs' Hn Hcs].
  rewrite !words_node. rewrite (proj1 (alike_terminal _ _ Hn)). f_equal.
  induction Hcs as [|k k' cs cs' Hk Hcs IHcs]; cbn; [done|]. inversion_clear IH as [|? ? IHk IH'].
  unfold kid_words at 1 3. rewrite (IHk k' Hk), (IHcs IH').
  apply similar_root in Hk as (_ & Hk & _). unfold tchar. by rewrite (al_char _ _ Hk).
Qed.

Lemma similar_inhabited cs cs' : Forall2 similar cs cs' -> Forall inhabited cs -> Forall inhabited cs'.
Proof.
  induction 1 as [|k k' cs cs' Hk Hcs IH]; [constructor|]. inversion_clear 1 as [|? ? Hi Hi'].
  constructor; [|by apply IH]. destruct (similar_root _ _ Hk) as (_ & Hn & Hks). unfold inhabited in *.
  rewrite (proj1 (alike_terminal _ _ Hn)). intros E. apply Hi. rewrite E in Hks. by inversion Hks.
Qed.

Lemma Forall2_last {A B} (R : A -> B -> Prop) l l' : Forall2 R l l' ->
  match last l, last l' with Some x, Some y => R x y | None, None => True | _, _ => False end.
Proof.
  induction 1 as [|x y l l' Hxy Hl IH]; [done|]. rewrite !last_cons. destruct (last l), (last l'); done.
Qed.

Lemma similar_wf t : forall d t', similar t t' -> wf d t -> wf d t'.
Proof.
  induction t as [p n cs IH] using tree_ind'. intros d t'. inversion_clear 1 as [? ? n' ? cs' Hn Hcs].
  inversion_clear 1 as [? ? ? ? Hd Hs Hw Hi Hl Hr].
  destruct (alike_terminal _ _ Hn) as [Ht Hdep]. constructor.
  - by rewrite Hdep.
  - by rewrite (similar_chars _ _ Hcs).
  - clear -IH Hcs Hw. induction Hcs as [|k k' cs cs' Hk Hcs IHcs]; [constructor|].
    inversion_clear IH as [|? ? IHk IH']. inversion_clear Hw as [|? ? Hwk Hw']. constructor; auto.
  - by eapply similar_inhabited.
  - rewrite (al_left _ _ Hn), Hl. unfold left_of. rewrite Ht. destruct (isTerminalNode n); [done|].
    destruct Hcs as [|k k' ? ? Hk _]; [done|]. apply similar_root in Hk as (_ & Hk & _).
    symmetry. apply Hk.
  - rewrite (al_right _ _ Hn), Hr. unfold right_of. rewrite Ht. pose proof (Forall2_last _ _ _ Hcs) as HL.
    destruct (last cs), (last cs'); try done. apply similar_root in HL as (_ & Hk & _). symmetry. apply Hk.
Qed.

(** ** The height of a tree is at most the number of nodes of the store *)

Fixpoint height (t : tree) : nat :=
  match t with Tree _ _ cs => S (fold_right (fun k m => Nat.max (height k) m) 0%nat cs) end.

Lemma height_kid k cs : k ∈ cs -> (height k <= fold_right (fun k m => Nat.max (height k) m) 0 cs)%nat.
Proof. induction cs as [|x cs IH]; [by inversion 1|]. intros [->|H]%elem_of_cons; cbn; [lia|]. specialize (IH H). lia. Qed.

Lemma height_kids n fuel p cs : (height (Tree p n cs) <= S fuel)%nat -> Forall (fun k => (height k <= fuel)%nat) cs.
Proof.
  intros H%le_S_n. apply Forall_forall. intros k Hk. etransitivity; [exact (height_kid k cs Hk)|exact H].
Qed.

Lemma height_ptrs t : (height t <= length (ptrs t))%nat.
Proof.
  induction t as [p n cs IH] using tree_ind'. cbn. apply le_n_S.
  induction IH as [|k cs Hk _ IH]; cbn; [lia|]. rewrite length_app. lia.
Qed.

Lemma height_size h t : shape h t -> NoDup (ptrs t) -> (height t <= size (cells h))%nat.
Proof.
  intros Hs Hnd. etransitivity; [apply height_ptrs|]. rewrite <- size_dom, <- (size_list_to_set (C:=gset ptr) (ptrs t)) by done.
  apply subseteq_size. intros p Hp. apply elem_of_list_to_set in Hp. apply elem_of_dom. by eapply shape_live.
Qed.
(** ** Reading a tree back from the store *)

Fixpoint read_tree (fuel : nat) (h : heap) (p : ptr) : result tree :=
  match fuel with
  | O => Err OutOfFuel
  | S fuel' =>
      let? n := s_load h p in
      let? cs := fold_res (childrenPointerList n)
        (fun l q => let? k := read_tree fuel' h q in Ok (l ++ [k])) [] in
      Ok (Tree p n cs)
  end.

Lemma read_tree_shape fuel : forall h p t, read_tree fuel h p = Ok t -> shape h t /\ tptr t = p.
Proof.
  induction fuel as [|fuel IH]; intros h p t; cbn [read_tree]; [done|].
  intros (n & [Hp Hn]%s_load_Ok & (cs & Hcs & [= <-])%rbind_Ok)%rbind_Ok. split; [|done].
  assert (forall qs l cs, fold_res qs (fun l q => let? k := read_tree fuel h q in Ok (l ++ [k])) l = Ok cs ->
    exists cs', cs = l ++ cs' /\ qs = map tptr cs' /\ Forall (shape h) cs') as H.
  { clear -IH. induction qs as [|q qs IHq]; intros l cs; cbn [fold_res].
    - intros [= <-]. exists []. by rewrite app_nil_r.
    - intros (l' & (k & [Hk Ek]%IH & [= <-])%rbind_Ok & (cs' & -> & -> & Hcs)%IHq)%rbind_Ok.
      exists (k :: cs'). rewrite <- app_assoc, <- Ek. split; [done|]. split; [done|]. by constructor. }
  destruct (H _ _ _ Hcs) as (cs' & -> & Ech & Hall). by constructor.
Qed.

(** The invariant as a check. *)
Fixpoint increasing (l : list Z) : bool :=
  match l with
  | x :: (y :: _) as l' => (x <? y) && increasing l'
  | _ => true
  end.

Fixpoint wfb (d : Z) (t : tree) : bool :=
  match t with
  | Tree p n cs =>
      (getDepth n =? d) && increasing (map tchar cs) && forallb (wfb (d + 1)) cs &&
      forallb (fun k => isTerminalNode (tnode k) || negb (bool_decide (length (kids k) = 0%nat))) cs &&
      bool_decide (leftMostDescendant n = left_of p n cs) &&
      bool_decide (rightMostDescendant n = right_of p n cs)
  end.

Lemma increasing_sorted l : increasing l = true -> StronglySorted Z.lt l.
Proof.
  intros H. apply Sorted_StronglySorted; [intros ? ? ?; lia|].
  induction l as [|x l IH]; [constructor|]. destruct l as [|y l]; [repeat constructor|].
  cbn in H. apply andb_true_iff in H as [Hxy%Z.ltb_lt H]. constructor; [by apply IH|by constructor].
Qed.

Lemma wfb_sound t : forall d, wfb d t = true -> wf d t.
Proof.
  induction t as [p n cs IH] using tree_ind'. intros d H. cbn [wfb] in H.
  rewrite !andb_true_iff, !bool_decide_eq_true in H. destruct H as [[[[[Hd Hs] Hw] Hi] Hl] Hr].
  rewrite forallb_forall in Hw, Hi. constructor; try done; [by apply Z.eqb_eq|by apply increasing_sorted| |].
  - rewrite Forall_forall in *. intros k Hk. apply IH; [done|]. apply Hw. by apply list_elem_of_In.
  - apply Forall_forall. intros k Hk E. specialize (Hi k). rewrite E in Hi. cbn in Hi.
    rewrite orb_false_r in Hi. apply Hi. by apply list_elem_of_In.
Qed.
End TrieTree.
