(* ===== verification/TrieInsert.v ===== *)
(** * Insertion refines a dictionary with ids

    [addKeyword] (core/index/Trie.cpp) on the tree that the write view represents:
    the descent, the repair of the links to the outermost descendants on the way
    up, and the numbering of the new keyword. *)
From S2P Require Import Prelude TrieNode Trie TrieTree.
From Stdlib Require Import ZArith Lia List Bool Sorted.
From stdpp Require Import base gmap list fin_maps.
Open Scope Z_scope.

Module TrieInsert.
Import TrieNode Trie TrieTree.

(** ** Runs of the accesses to nodes *)

Definition with_nodes (s : trie) (h : heap) : trie :=
  mk_trie h (views s) (readers s) (root_readview s) (root_writeview s) (oldReadViewQueue s)
    (terminalNodes s) (counterForReassignedKeywordIds s) (trieNodesToReassign s)
    (oldIdToNewIdMapVector s) (commited s) (mergeRequired s) (emptyLeafNodeIds s).

Lemma with_nodes_id s : with_nodes s (nodes s) = s.
Proof. by destruct s. Qed.

Lemma load_run s p n : s_load (nodes s) p = Ok n -> load_node p s = Ok (n, s).
Proof. intros H. unfold load_node, bind, reads, lift. by rewrite H. Qed.

Lemma load_tree s ctx k : shape (nodes s) (plug ctx k) -> load_node (tptr k) s = Ok (tnode k, s).
Proof. intros H. apply load_run. by eapply shape_load. Qed.

Lemma store_tree s ctx k n' : shape (nodes s) (plug ctx k) ->
  store_node (tptr k) n' s = Ok (tt, with_nodes s (update (nodes s) (tptr k) n')).
Proof.
  intros H. unfold store_node, bind, reads, lift. by rewrite (shape_store _ _ _ _ H).
Qed.

Lemma on_heap_run {A} (f : heap -> result A) s a : f (nodes s) = Ok a -> on_heap f s = Ok (a, s).
Proof. intros H. unfold on_heap, bind, reads, lift. by rewrite H. Qed.

Lemma alloc_run s n : alloc_node n s = Ok (next_addr (nodes s), with_nodes s (s_new (nodes s) n).2).
Proof. done. Qed.

Lemma lift_run {S A} (r : result A) (s : S) a : r = Ok a -> lift r s = Ok (a, s).
Proof. unfold lift. by intros ->. Qed.

Lemma ptrs_nodup_focus ctx p n n' cs : NoDup (ptrs (plug ctx (Tree p n cs))) ->
  NoDup (ptrs (plug ctx (Tree p n' cs))).
Proof. by rewrite !ptrs_plug. Qed.

(** What the store must satisfy around a tree. *)
Record holds (s : trie) (t : tree) : Prop := {
  h_shape : shape (nodes s) t;
  h_nodup : NoDup (ptrs t);
  h_wf : store_wf (nodes s) }.

(** Overwriting the node at the focus of a tree that is held. *)
Lemma store_holds s ctx p n cs n' : holds s (plug ctx (Tree p n cs)) ->
  childrenPointerList n' = childrenPointerList n ->
  exists s', store_node p n' s = Ok (tt, s') /\ s' = with_nodes s (update (nodes s) p n') /\
    holds s' (plug ctx (Tree p n' cs)).
Proof.
  intros [Hs Hnd Hwf] Hch. eexists. split; [exact (store_tree s ctx (Tree p n cs) n' Hs)|].
  split; [done|]. split; cbn.
  - by apply (shape_update _ _ _ n).
  - by eapply ptrs_nodup_focus.
  - eapply node_update_wf; [done|]. apply shape_plug in Hs as [_ Hk]. by inversion Hk.
Qed.

Lemma load_holds s ctx p n cs : holds s (plug ctx (Tree p n cs)) -> load_node p s = Ok (n, s).
Proof. intros [Hs _ _]. exact (load_tree s ctx (Tree p n cs) Hs). Qed.

(** ** Changes of links only *)

(** Some nodes of [l] got other links to their outermost descendants. *)
Record relinks (l : list ptr) (h h' : heap) : Prop := {
  rl_outside : forall p, p ∉ l -> cells h' !! p = cells h !! p;
  rl_inside : forall p n, cells h !! p = Some n -> exists a b, cells h' !! p = Some (with_right (with_left n a) b);
  rl_wf : store_wf h -> store_wf h' }.

Lemma own_links_id n : with_right (with_left n (leftMostDescendant n)) (rightMostDescendant n) = n.
Proof. by destruct n. Qed.

Lemma relinks_refl l h : relinks l h h.
Proof. split; [done| |done]. intros p n Hp. exists (leftMostDescendant n), (rightMostDescendant n). by rewrite own_links_id. Qed.

Lemma relinks_trans l1 l2 h1 h2 h3 : relinks l1 h1 h2 -> relinks l2 h2 h3 -> relinks (l1 ++ l2) h1 h3.
Proof.
  intros [A1 B1 C1] [A2 B2 C2]. split; [|intros p n Hp|auto].
  - intros p Hp. rewrite not_elem_of_app in Hp. destruct Hp. by rewrite A2, A1.
  - destruct (B1 p n Hp) as (a & b & Hp1). destruct (B2 p _ Hp1) as (a' & b' & Hp2). by exists a', b'.
Qed.

Lemma relinks_mono l l' h h' : (forall p, p ∈ l -> p ∈ l') -> relinks l h h' -> relinks l' h h'.
Proof. intros H [A B C]. split; [|done|done]. intros p Hp. apply A. naive_solver. Qed.

Lemma relinks_store s p n a b s' : load_node p s = Ok (n, s) ->
  store_node p (with_right (with_left n a) b) s = Ok (tt, s') ->
  s' = with_nodes s (nodes s') /\ relinks [p] (nodes s) (nodes s').
Proof.
  unfold load_node, store_node, bind, reads, lift. intros Hl Hst.
  destruct (s_load (nodes s) p) as [m|] eqn:E; [|done]. injection Hl as ->. apply s_load_Ok in E as [Hp Hn].
  unfold s_store in Hst. rewrite (proj2 (s_load_Ok _ _ _) (conj Hp Hn)) in Hst. cbn in Hst.
  injection Hst as <-. split; [done|]. cbn. split; cbn.
  - intros q Hq. rewrite lookup_insert_ne; [done|]. set_solver.
  - intros q m Hq. destruct (decide (q = p)) as [->|Hne].
    + rewrite lookup_insert_eq. exists a, b. congruence.
    + rewrite lookup_insert_ne by done. exists (leftMostDescendant m), (rightMostDescendant m).
      by rewrite own_links_id.
  - intros Hwf. by eapply (node_update_wf (nodes s) p n).
Qed.

(** ** The order among the children of a node *)

Definition is_nil {A} (l : list A) : bool := match l with [] => true | _ => false end.

Lemma isFirstChild_run h f k : shape h (fill f k) ->
  StronglySorted Z.lt (map tchar (fleft f) ++ tchar k :: map tchar (fright f)) ->
  isFirstChild h (fnode f) (tnode k) = Ok (is_nil (fleft f)).
Proof.
  intros Hs Hsort. pose proof (kids_children _ _ Hs) as Hch. unfold isFirstChild. cbn in Hch.
  destruct (fleft f) as [|x l] eqn:El; cbn in Hch.
  - rewrite (child_at_lookup _ _ _ 0 (tnode k) Hch) by done. cbn. by rewrite Z.eqb_refl.
  - rewrite (child_at_lookup _ _ _ 0 (tnode x) Hch) by done. cbn.
    apply ssorted_app_inv in Hsort as (Hlt & _). specialize (Hlt (tchar x) (tchar k)).
    cbn in Hlt. specialize (Hlt ltac:(by left) ltac:(by left)).
    unfold tchar in Hlt. by destruct (Z.eqb_spec (character (tnode k)) (character (tnode x))); [lia|].
Qed.

Lemma isLastChild_run h f k : shape h (fill f k) ->
  StronglySorted Z.lt (map tchar (fleft f) ++ tchar k :: map tchar (fright f)) ->
  isLastChild h (fnode f) (tnode k) = Ok (is_nil (fright f)).
Proof.
  intros Hs Hsort. pose proof (kids_children _ _ Hs) as Hch. unfold isLastChild, getChildrenCount.
  change (tnode (fill f k)) with (fnode f) in Hch. rewrite (children_length _ _ _ Hch). cbn [kids fill] in *. rewrite length_map.
  destruct (decide (fright f = [])) as [E|Hne].
  - rewrite E in *. rewrite length_app. cbn [length].
    rewrite (child_at_lookup _ _ _ _ (tnode k) Hch); [|lia|].
    + cbn. by rewrite Z.eqb_refl.
    + rewrite map_app. cbn. rewrite lookup_app_r; rewrite length_map; [|lia].
      by replace (Z.to_nat _ - length (fleft f))%nat with 0%nat by lia.
  - destruct (exists_last Hne) as (r & y & E). rewrite E in *.
    rewrite (child_at_lookup _ _ _ _ (tnode y) Hch); [|rewrite !length_app; cbn; lia|].
    + cbn. apply ssorted_app_inv in Hsort as (_ & _ & Hsort). inversion Hsort as [|? ? _ Hlt]; subst.
      rewrite map_app in Hlt. apply Forall_app in Hlt as [_ Hlt]. inversion Hlt; subst.
      unfold tchar in *. destruct (Z.eqb_spec (character (tnode k)) (character (tnode y))); [lia|].
      by destruct r.
    + replace (fleft f ++ k :: r ++ [y]) with ((fleft f ++ k :: r) ++ [y]) by (by rewrite <- app_assoc).
      rewrite map_app, lookup_app_r; rewrite length_map, ?length_app; cbn; [|lia].
      rewrite ?length_app. cbn.
      by replace (Z.to_nat _ - _)%nat with 0%nat by (rewrite ?length_app; cbn; lia).
Qed.
(** ** The descent *)

Lemma land_127 x : 0 <= x < 128 -> Z.land x 127 = x.
Proof. intros H. change 127 with (2 ^ 7 - 1). rewrite land_mask by lia. apply Z.mod_small. lia. Qed.

Lemma new_node_depth d c b : 0 <= d < 128 -> getDepth (new_node d c b) = d.
Proof.
  intros H. unfold getDepth, new_node, setTerminalFlag, setDepth. cbn [terminalFlag1bDepth7b].
  rewrite Z.land_0_l, Z.add_0_l, (land_127 d) by lia. unfold wrap.
  rewrite Z.mod_small by lia. by rewrite !land_127 by (rewrite ?land_127; lia).
Qed.

Lemma new_node_flag d c b : 0 <= d < 128 -> isTerminalNode (new_node d c b) = false.
Proof.
  intros H. unfold isTerminalNode, new_node, setTerminalFlag, setDepth. cbn [terminalFlag1bDepth7b].
  rewrite Z.land_0_l, Z.add_0_l, (land_127 d) by lia. unfold wrap.
  rewrite Z.mod_small by lia. rewrite land_127 by lia.
  destruct (Z.eqb_spec (Z.land d 128) 128) as [E|]; [|done].
  assert (Z.testbit (Z.land d 128) 7 = false) as Hb.
  { rewrite Z.land_spec, (testbit_above d 7 7) by lia. done. }
  by rewrite E in Hb.
Qed.

Lemma addChild_run n l q r : childrenPointerList n = l ++ r ->
  addChild n (Z.of_nat (length l)) q = Ok (with_children n (l ++ q :: r)).
Proof.
  intros E. unfold addChild, getChildrenCount. rewrite E, length_app, Nat2Z.id.
  destruct (Z.leb_spec 0 (Z.of_nat (length l))), (Z.leb_spec (Z.of_nat (length l))
    (Z.of_nat (length l + length r))); try lia.
  cbn. by rewrite take_app_length, drop_app_length.
Qed.

(** A frame of an only child below a node that is no keyword. *)
Lemma bare_frame_ok d p n c : getDepth n = d -> isTerminalNode n = false ->
  frame_ok d (mk_frame p n [] []) c.
Proof.
  intros Hd Hn. split; cbn; try done.
  - repeat constructor.
  - rewrite Hn. intros [H|H]; congruence.
Qed.

(** The new chain of nodes below a node that has no child yet. *)
Lemma descend_new w : forall s ctx q m d,
  holds s (plug ctx (Tree q m [])) -> getDepth m = d -> isTerminalNode m = false ->
  0 <= d -> d + Z.of_nat (length w) < 128 -> ctx_ok d ctx (character m) ->
  exists h' fs k', descend w (d + 1) q true s =
      Ok ((map fptr (rev fs) ++ [tptr k'], true), with_nodes s h') /\
    holds (with_nodes s h') (plug (fs ++ ctx) k') /\
    kids k' = [] /\ isTerminalNode (tnode k') = false /\
    getDepth (tnode k') = d + Z.of_nat (length w) /\
    ctx_ok (d + Z.of_nat (length w)) (fs ++ ctx) (tchar k') /\
    before (fs ++ ctx) (tchar k') = before ctx (character m) /\
    after (fs ++ ctx) (tchar k') = after ctx (character m) /\
    ctx_word (fs ++ ctx) (tchar k') = ctx_word ctx (character m) ++ w.
Proof.
  induction w as [|c w IH]; intros s ctx q m d Hh Hd Hm Hd0 Hlen Hctx; cbn [descend].
  - exists (nodes s), [], (Tree q m []). rewrite with_nodes_id, Z.add_0_r, app_nil_r. done.
  - cbn [length] in Hlen. pose proof Hh as [Hs Hnd Hwf].
    pose proof (proj2 (proj1 (shape_plug _ _ _) Hs)) as Hk.
    assert (q <> NULL) as Hq by (by inversion Hk).
    rewrite (bind_run (assert_ _) _ _ tt s) by (by apply assert_run; rewrite bool_decide_false).
    rewrite (bind_run _ _ _ _ _ (load_holds _ _ _ _ _ Hh)).
    destruct (find_kid _ _ c Hk) as (pos & Hf & [(l & x & r & E & _)|(l & r & E & -> & _)]);
      [by constructor|by destruct l|]. cbn in E.
    symmetry in E. apply app_eq_nil in E as [-> ->].
    rewrite (bind_run _ _ _ _ _ (on_heap_run _ _ _ Hf)). cbn [andb negb length Z.of_nat].
    rewrite andb_false_r. change (- (0 + 1)) with (-1).
    set (m' := new_node (d + 1) c false).
    destruct (shape_add_leaf _ _ _ _ [] [] m' Hs Hnd Hwf eq_refl) as (Hs' & Hnd' & Hwf').
    cbn [map app] in Hs', Hnd', Hwf'.
    set (q' := next_addr (nodes s)) in *. set (n' := with_children m [q']) in *.
    set (h' := update (s_new (nodes s) m').2 q n') in *. set (f := mk_frame q n' [] []) in *.
    assert ((let! q0 := alloc_node m' in
        let! n'0 := lift (addChild m (- -1 - 1) q0) in store_node q n'0 ;;; ret (q0, true)) s
      = Ok ((q', true), with_nodes s h')) as Hstep.
    { rewrite (bind_run _ _ _ _ _ (alloc_run s m')).
      assert (childrenPointerList m = []) as Hch by (by inversion Hk).
      assert (addChild m (- -1 - 1) q' = Ok n') as Hadd by exact (addChild_run m [] q' [] Hch).
      rewrite (bind_run _ _ _ _ _ (lift_run _ _ _ Hadd)).
      assert (shape (s_new (nodes s) m').2 (plug ctx (Tree q m []))) as Hs1 by (by apply shape_new).
      rewrite (bind_run _ _ _ _ _ (store_tree (with_nodes s (s_new (nodes s) m').2) ctx (Tree q m []) n' Hs1)).
      done. }
    rewrite (bind_run _ _ _ _ _ Hstep).
    destruct (IH (with_nodes s h') (f :: ctx) q' m' (d + 1)) as
      (h2 & fs & k' & Hrun & Hh2 & Hkids & Hterm & Hdep & Hok & Hb & Ha & Hw).
    { by split. } { apply new_node_depth. lia. } { apply new_node_flag. lia. } { lia. } { lia. }
    { cbn [ctx_ok]. replace (d + 1 - 1) with d by lia. split; [|exact Hctx].
      apply bare_frame_ok; [exact Hd|exact Hm]. }
    exists h2, (fs ++ [f]), k'. rewrite (bind_run _ _ _ _ _ Hrun).
    split; [|rewrite <- !app_assoc; cbn [app]].
    { unfold ret. rewrite rev_app_distr. done. }
    split; [done|]. split; [done|]. split; [done|]. split; [cbn [length]; lia|].
    split; [|split; [|split]].
    + replace (d + Z.of_nat (S (length w))) with (d + 1 + Z.of_nat (length w)) by lia. exact Hok.
    + rewrite Hb. cbn [before]. change (own (fnode f)) with (own m). unfold own. rewrite Hm. apply app_nil_r.
    + by rewrite Ha.
    + rewrite Hw. cbn. by rewrite <- app_assoc.
Qed.
Lemma frame_ok_new d p n l r cs c q : wf d (Tree p n (l ++ r)) ->
  StronglySorted Z.lt (map tchar l ++ c :: map tchar r) ->
  cs = map tptr l ++ q :: map tptr r ->
  frame_ok d (mk_frame p (with_children n cs) l r) c.
Proof.
  intros Hw Hs ->. inversion Hw as [? ? ? ? Hd _ Hws Hi Hl Hr]; subst.
  apply Forall_app in Hws as [Hwl Hwr]. split; cbn; try done.
  - intros Hor. change (isTerminalNode (with_children n _)) with (isTerminalNode n) in Hor.
    rewrite Hl. unfold left_of. change (isTerminalNode (with_children n _)) with (isTerminalNode n).
    destruct (isTerminalNode n); [done|]. destruct l; [|done]. by destruct Hor.
  - intros Hne. rewrite Hr. unfold right_of. destruct (exists_last Hne) as (r' & y & ->).
    by rewrite app_assoc, !last_snoc.
Qed.

Lemma descend_spec w : forall s ctx k d,
  holds s (plug ctx k) -> ctx_ok d ctx (tchar k) -> wf d k -> 0 <= d ->
  d + Z.of_nat (length w) < 128 ->
  exists h' fs k' (b : bool), descend w (d + 1) (tptr k) false s =
      Ok ((map fptr (rev fs) ++ [tptr k'], b), with_nodes s h') /\
    holds (with_nodes s h') (plug (fs ++ ctx) k') /\
    ctx_ok (d + Z.of_nat (length w)) (fs ++ ctx) (tchar k') /\
    ctx_word (fs ++ ctx) (tchar k') = ctx_word ctx (tchar k) ++ w /\
    getDepth (tnode k') = d + Z.of_nat (length w) /\
    if b then kids k' = [] /\ isTerminalNode (tnode k') = false /\
      before (fs ++ ctx) (tchar k') ++ after (fs ++ ctx) (tchar k') = entries (plug ctx k)
    else plug (fs ++ ctx) k' = plug ctx k /\ wf (d + Z.of_nat (length w)) k'.
Proof.
  induction w as [|c w IH]; intros s ctx k d Hh Hctx Hw Hd0 Hlen; cbn [descend].
  - exists (nodes s), [], k, false. rewrite with_nodes_id. cbn [length Z.of_nat]. rewrite Z.add_0_r, app_nil_r.
    split; [done|]. split; [done|]. split; [done|]. split; [done|]. split; [by inversion Hw|done].
  - cbn [length] in *. pose proof Hh as [Hs Hnd Hwf]. destruct k as [p n cs]. cbn [tptr].
    pose proof (proj2 (proj1 (shape_plug _ _ _) Hs)) as Hk.
    assert (p <> NULL) as Hp by (by inversion Hk).
    assert (childrenPointerList n = map tptr cs) as Hch by (by inversion Hk).
    rewrite (bind_run (assert_ _) _ _ tt s) by (by apply assert_run; rewrite bool_decide_false).
    rewrite (bind_run _ _ _ _ _ (load_holds _ _ _ _ _ Hh)).
    destruct (find_kid _ _ c Hk (wf_kids _ _ Hw)) as (pos & Hf & Hcase). cbn [tnode kids] in Hf, Hcase.
    rewrite (bind_run _ _ _ _ _ (on_heap_run _ _ _ Hf)).
    destruct Hcase as [(l & x & r & -> & Hx & ->)|(l & r & -> & -> & Hsort)].
    + destruct (Z.leb_spec 0 (Z.of_nat (length l))); [|lia]. cbn [andb negb].
      assert (getChild n (Z.of_nat (length l)) = Ok (tptr x)) as Hget.
      { unfold getChild. rewrite Hch, map_app. cbn [map].
        rewrite <- (length_map tptr l). apply vec_at_app. }
      rewrite (bind_run (bind (lift _) _) _ s (tptr x, false) s) by (by rewrite (bind_run _ _ _ _ _ (lift_run _ _ _ Hget))).
      set (f := mk_frame p n l r).
      change (Tree p n (l ++ x :: r)) with (fill f x) in *.
      apply wf_fill in Hw as (Hf1 & _ & Hwx & Hix).
      destruct (IH s (f :: ctx) x (d + 1)) as (h' & fs & k' & b & Hrun & Hh' & Hok & Hword & Hdep & Hb).
      { done. } { cbn [ctx_ok]. replace (d + 1 - 1) with d by lia. done. } { done. } { lia. } { lia. }
      exists h', (fs ++ [f]), k', b. rewrite (bind_run _ _ _ _ _ Hrun). rewrite <- !app_assoc. cbn [app].
      replace (d + Z.of_nat (S (length w))) with (d + 1 + Z.of_nat (length w)) by lia.
      split; [by rewrite rev_app_distr|]. split; [done|]. split; [done|]. split.
      { rewrite Hword. cbn [ctx_word]. rewrite Hx, <- app_assoc. done. }
      split; [done|]. destruct b; done.
    + destruct (Z.leb_spec 0 (- (Z.of_nat (length l) + 1))); [lia|]. cbn [andb].
      replace (- - (Z.of_nat (length l) + 1) - 1) with (Z.of_nat (length (map tptr l))) by (rewrite length_map; lia).
      set (m' := new_node (d + 1) c false).
      destruct (shape_add_leaf _ _ _ _ l r m' Hs Hnd Hwf eq_refl) as (Hs' & Hnd' & Hwf').
      set (q' := next_addr (nodes s)) in *.
      set (n' := with_children n (map tptr l ++ q' :: map tptr r)) in *.
      set (h' := update (s_new (nodes s) m').2 p n') in *. set (f := mk_frame p n' l r) in *.
      assert ((let! q0 := alloc_node m' in
          let! n'0 := lift (addChild n (Z.of_nat (length (map tptr l))) q0) in
          store_node p n'0 ;;; ret (q0, true)) s
        = Ok ((q', true), with_nodes s h')) as Hstep.
      { rewrite (bind_run _ _ _ _ _ (alloc_run s m')). rewrite map_app in Hch.
        rewrite (bind_run _ _ _ _ _ (lift_run _ _ _ (addChild_run n _ q' _ Hch))).
        assert (shape (s_new (nodes s) m').2 (plug ctx (Tree p n (l ++ r)))) as Hs1 by (by apply shape_new).
        rewrite (bind_run _ _ _ _ _ (store_tree (with_nodes s (s_new (nodes s) m').2) ctx _ n' Hs1)).
        done. }
      rewrite (bind_run _ _ _ _ _ Hstep).
      destruct (descend_new w (with_nodes s h') (f :: ctx) q' m' (d + 1)) as
        (h2 & fs & k' & Hrun & Hh2 & Hkids & Hterm & Hdep & Hok & Hb & Ha & Hword).
      { by split. } { apply new_node_depth. lia. } { apply new_node_flag. lia. } { lia. } { lia. }
      { cbn [ctx_ok]. replace (d + 1 - 1) with d by lia. split; [|exact Hctx].
        by eapply frame_ok_new. }
      exists h2, (fs ++ [f]), k', true. rewrite (bind_run _ _ _ _ _ Hrun).
      rewrite <- !app_assoc. cbn [app].
      replace (d + Z.of_nat (S (length w))) with (d + 1 + Z.of_nat (length w)) by lia.
      split; [by rewrite rev_app_distr|]. split; [done|]. split; [done|]. split.
      { rewrite Hword. cbn [ctx_word]. by rewrite <- app_assoc. }
      split; [done|]. split; [done|]. split; [done|].
      rewrite Hb, Ha, entries_plug. cbn [before after]. change (own (fnode f)) with (own n).
      change (character (fnode f)) with (character n). change (tchar (Tree p n (l ++ r))) with (character n).
      cbn [entries f fleft fright]. rewrite flat_map_app.
      change (flat_map (fun k => map (prefixed (tchar k)) (entries k))) with (flat_map kid_entries).
      rewrite !map_app, <- !app_assoc. done.
Qed.
(** ** The way up *)

(** What one round of the upward loop makes of the parent, given the child. *)
Definition fix_node (f : frame) (n : TrieNode) : TrieNode :=
  let par := fnode f in
  let par1 := if is_nil (fleft f) && negb (isTerminalNode par)
              then with_left par (leftMostDescendant n) else par in
  if is_nil (fright f) then with_right par1 (rightMostDescendant n) else par1.
Definition fix_frame (f : frame) (n : TrieNode) : frame :=
  mk_frame (fptr f) (fix_node f n) (fleft f) (fright f).
Fixpoint fix_ctx (ctx : list frame) (n : TrieNode) : list frame :=
  match ctx with
  | [] => []
  | f :: ctx' => fix_frame f n :: fix_ctx ctx' (fix_node f n)
  end.

(** Two nodes that agree on everything but the links to descendants. *)
Lemma fix_node_same f n : let n' := fix_node f n in
  character n' = character (fnode f) /\ isTerminalNode n' = isTerminalNode (fnode f) /\
  getDepth n' = getDepth (fnode f) /\ own n' = own (fnode f) /\
  childrenPointerList n' = childrenPointerList (fnode f).
Proof. cbn. unfold fix_node. by destruct (_ && _), (is_nil (fright f)). Qed.

Lemma fix_frame_ok d f c n : frame_ok d f c -> frame_ok d (fix_frame f n) c.
Proof.
  destruct (fix_node_same f n) as (Hc & Ht & Hd & _). intros [H1 H2 H3 H4 H5 H6 H7].
  split; cbn; try done; [by rewrite Hd| |].
  - rewrite Ht. intros Hor. specialize (H6 Hor). unfold left_of in *. rewrite Ht.
    unfold fix_node. destruct (is_nil (fleft f)) eqn:E, (isTerminalNode (fnode f)) eqn:E2; cbn;
      try (by destruct (is_nil (fright f))).
    destruct (fleft f); [|done]. by destruct Hor.
  - intros Hne. specialize (H7 Hne). unfold right_of in *. rewrite Ht. unfold fix_node.
    destruct (fright f) as [|y r]; [done|]. cbn. by destruct (_ && _).
Qed.

Lemma fix_focus_links f k : focus_links (fix_frame f (tnode k)) k.
Proof.
  destruct (fix_node_same f (tnode k)) as (_ & Ht & _). split; cbn.
  - rewrite Ht. intros E Hn. unfold fix_node. rewrite E, Hn. by destruct (is_nil (fright f)).
  - intros E. unfold fix_node. by rewrite E.
Qed.

Lemma fix_ctx_ok ctx : forall d c n, ctx_ok d ctx c -> ctx_ok d (fix_ctx ctx n) c.
Proof.
  induction ctx as [|f ctx IH]; intros d c n; cbn [ctx_ok fix_ctx]; [done|].
  intros [Hf Hc]. split; [by apply fix_frame_ok|]. apply IH. cbn.
  by rewrite (proj1 (fix_node_same f n)).
Qed.

Lemma fix_ctx_links ctx : forall k, ctx_links (fix_ctx ctx (tnode k)) k.
Proof.
  induction ctx as [|f ctx IH]; intros k; cbn [ctx_links fix_ctx]; [done|].
  split; [apply fix_focus_links|]. apply (IH (fill (fix_frame f (tnode k)) k)).
Qed.

Lemma fix_ctx_entries ctx : forall c n, before (fix_ctx ctx n) c = before ctx c /\
  after (fix_ctx ctx n) c = after ctx c /\ ctx_word (fix_ctx ctx n) c = ctx_word ctx c.
Proof.
  induction ctx as [|f ctx IH]; intros c n; cbn [before after ctx_word fix_ctx fix_frame fnode fleft fright];
    [done|].
  destruct (fix_node_same f n) as (Hc & _ & _ & Ho & _). rewrite Hc, Ho.
  destruct (IH (character (fnode f)) (fix_node f n)) as (-> & -> & ->). done.
Qed.

Lemma holds_store_frame s ctx f k n' : holds s (plug (f :: ctx) k) ->
  childrenPointerList n' = childrenPointerList (fnode f) ->
  exists s', store_node (fptr f) n' s = Ok (tt, s') /\
    s' = with_nodes s (update (nodes s) (fptr f) n') /\
    holds s' (plug (mk_frame (fptr f) n' (fleft f) (fright f) :: ctx) k).
Proof. intros Hh Hch. by apply (store_holds s ctx (fptr f) (fnode f)). Qed.

Lemma climb_spec ctx : forall s k d, ctx <> [] -> holds s (plug ctx k) -> ctx_ok d ctx (tchar k) ->
  exists h', climb_descendants (map fptr ctx) (tptr k) s = Ok (tt, with_nodes s h') /\
    holds (with_nodes s h') (plug (fix_ctx ctx (tnode k)) k) /\ relinks (map fptr ctx) (nodes s) h'.
Proof.
  induction ctx as [|f ctx IH]; intros s k d Hne Hh Hok; [done|]. cbn [map climb_descendants].
  destruct Hok as [Hf Hok]. pose proof Hh as [Hs Hnd Hwf]. cbn [plug] in Hs.
  pose proof (proj2 (proj1 (shape_plug _ _ _) Hs)) as Hfill.
  rewrite (bind_run _ _ _ _ _ (load_tree s ctx (fill f k) Hs)). cbn [tnode fill].
  assert (shape (nodes s) (plug (f :: ctx) k)) as Hsk by done.
  rewrite (bind_run _ _ _ _ _ (load_tree s (f :: ctx) k Hsk)).
  rewrite (bind_run _ _ _ _ _ (on_heap_run _ _ _ (isFirstChild_run _ _ _ Hfill (fo_sorted _ _ _ Hf)))).
  rewrite (bind_run _ _ _ _ _ (on_heap_run _ _ _ (isLastChild_run _ _ _ Hfill (fo_sorted _ _ _ Hf)))).
  set (par1 := if is_nil (fleft f) && negb (isTerminalNode (fnode f))
              then with_left (fnode f) (leftMostDescendant (tnode k)) else fnode f).
  set (f1 := mk_frame (fptr f) par1 (fleft f) (fright f)).
  assert (exists h1, (if is_nil (fleft f) && negb (isTerminalNode (fnode f))
      then store_node (fptr f) (with_left (fnode f) (leftMostDescendant (tnode k))) else ret tt) s
      = Ok (tt, with_nodes s h1) /\ holds (with_nodes s h1) (plug (f1 :: ctx) k) /\
      relinks [fptr f] (nodes s) h1) as (h1 & Hr1 & Hh1 & Hre1).
  { unfold f1, par1. destruct (_ && _).
    - destruct (holds_store_frame s ctx f k (with_left (fnode f) (leftMostDescendant (tnode k))) Hh)
        as (s' & Hst & -> & ?); [done|]. eexists. split; [exact Hst|]. split; [done|].
      by destruct (relinks_store s _ (fnode f) _ (rightMostDescendant (fnode f)) _ (load_tree s ctx (fill f k) Hs) Hst).
    - exists (nodes s). rewrite with_nodes_id. split; [done|]. split; [by destruct f|apply relinks_refl]. }
  rewrite (bind_run _ _ _ _ _ Hr1).
  pose proof (load_holds _ ctx (fptr f) par1 _ Hh1) as Hl1. rewrite (bind_run _ _ _ _ _ Hl1).
  assert (exists h2, (if is_nil (fright f)
      then store_node (fptr f) (with_right par1 (rightMostDescendant (tnode k))) else ret tt) (with_nodes s h1)
      = Ok (tt, with_nodes s h2) /\ holds (with_nodes s h2) (plug (fix_frame f (tnode k) :: ctx) k) /\
      relinks [fptr f] h1 h2) as (h2 & Hr2 & Hh2 & Hre2).
  { unfold fix_frame, fix_node. fold par1. destruct (is_nil (fright f)).
    - destruct (holds_store_frame _ ctx f1 k (with_right par1 (rightMostDescendant (tnode k))) Hh1)
        as (s' & Hst & -> & ?); [done|]. eexists. split; [exact Hst|]. split; [done|].
      by destruct (relinks_store _ _ par1 (leftMostDescendant par1) _ _ Hl1 Hst).
    - exists h1. split; [done|]. split; [done|apply relinks_refl]. }
  rewrite (bind_run _ _ _ _ _ Hr2). cbn [fix_ctx map].
  assert (relinks [fptr f] (nodes s) h2) as Hre12
    by (eapply relinks_mono; [|exact (relinks_trans _ _ _ _ _ Hre1 Hre2)]; set_solver).
  destruct ctx as [|g ctx]; [by exists h2|].
  destruct (IH (with_nodes s h2) (fill (fix_frame f (tnode k)) k) (d - 1)) as (h3 & Hr3 & Hh3 & Hre3).
  { done. } { exact Hh2. } { change (tchar (fill _ _)) with (character (fix_node f (tnode k))).
    rewrite (proj1 (fix_node_same f (tnode k))). exact Hok. }
  exists h3. split; [exact Hr3|]. split; [exact Hh3|]. exact (relinks_trans _ _ _ _ _ Hre12 Hre3).
Qed.
(** ** The node of the keyword *)

(** The links of the node at the end of the path. *)
Definition settle (p : ptr) (n : TrieNode) (cs : list tree) : TrieNode :=
  with_right (with_left n p)
    (match last cs with Some c => rightMostDescendant (tnode c) | None => p end).

Lemma settle_run s ctx p n cs : holds s (plug ctx (Tree p n cs)) ->
  exists h', (store_node p (with_left n p) ;;;
      let! n := load_node p in
      if getChildrenCount n =? 0 then store_node p (with_right n p)
      else
        let! c := on_heap (fun h => child_at h n (getChildrenCount n - 1)) in
        store_node p (with_right n (rightMostDescendant c))) s = Ok (tt, with_nodes s h') /\
    holds (with_nodes s h') (plug ctx (Tree p (settle p n cs) cs)) /\ relinks [p] (nodes s) h'.
Proof.
  intros Hh. destruct (store_holds s ctx p n cs (with_left n p) Hh eq_refl) as (s1 & Hr & Es & Hh1).
  assert (relinks [p] (nodes s) (nodes s1)) as Hre1.
  { by destruct (relinks_store s p n p (rightMostDescendant n) s1 (load_holds _ _ _ _ _ Hh) Hr). }
  assert (forall b s2, store_node p (with_right (with_left n p) b) s1 = Ok (tt, s2) -> relinks [p] (nodes s) (nodes s2)) as Hre2.
  { intros b s2 Hst. pose proof (load_holds _ _ _ _ _ Hh1) as Hl.
    destruct (relinks_store s1 p (with_left n p) p b s2 Hl Hst) as [_ Hre2].
    eapply relinks_mono; [|exact (relinks_trans _ _ _ _ _ Hre1 Hre2)]. set_solver. }
  rewrite (bind_run _ _ _ _ _ Hr), (bind_run _ _ _ _ _ (load_holds _ _ _ _ _ Hh1)).
  set (n1 := with_left n p) in *. unfold settle. fold n1.
  destruct (shape_kids _ _ _ (h_shape _ _ Hh1)) as [Hch _]. cbn [tnode kids] in Hch.
  unfold getChildrenCount. rewrite Hch, length_map.
  destruct (decide (cs = [])) as [->|Hne]; cbn [length last].
  - destruct (store_holds s1 ctx p n1 [] (with_right n1 p) Hh1 eq_refl) as (s2 & Hr2 & Es2 & Hh2).
    specialize (Hre2 _ _ Hr2). exists (nodes s2). subst s1 s2. split; [exact Hr2|]. split; [exact Hh2|exact Hre2].
  - destruct (exists_last Hne) as (l & c & ->). rewrite last_snoc, length_app. cbn [length].
    destruct (Z.eqb_spec (Z.of_nat (length l + 1)) 0); [lia|].
    pose proof (proj2 (proj1 (shape_plug _ _ _) (h_shape _ _ Hh1))) as Hk.
    assert (child_at (nodes s1) n1 (Z.of_nat (length l + 1) - 1) = Ok (tnode c)) as Hc.
    { apply (child_at_lookup _ _ _ _ _ (kids_children _ _ Hk)); [lia|]. cbn [kids].
      rewrite map_app, lookup_app_r; rewrite length_map; [|lia].
      by replace (Z.to_nat _ - length l)%nat with 0%nat by lia. }
    rewrite (bind_run (on_heap _) _ _ _ _ (on_heap_run _ _ _ Hc)).
    destruct (store_holds s1 ctx p n1 (l ++ [c]) (with_right n1 (rightMostDescendant (tnode c))) Hh1 eq_refl)
      as (s2 & Hr2 & Es2 & Hh2).
    specialize (Hre2 _ _ Hr2). exists (nodes s2). subst s1 s2. split; [exact Hr2|]. split; [exact Hh2|exact Hre2].
Qed.

(** The flags of a node that becomes a keyword. *)
Lemma terminal_flags n f : f = setTerminalFlag (terminalFlag1bDepth7b n) true ->
  isTerminalNode (with_flags n f) = true /\ getDepth (with_flags n f) = getDepth n.
Proof.
  intros ->. unfold isTerminalNode, getDepth, setTerminalFlag. cbn [terminalFlag1bDepth7b with_flags].
  split.
  - apply Z.eqb_eq. apply Z.bits_inj'. intros i Hi. rewrite Z.land_spec, Z.lor_spec.
    by destruct (Z.testbit (terminalFlag1bDepth7b n) i), (Z.testbit 128 i).
  - apply Z.bits_inj'. intros i Hi. rewrite !Z.land_spec, Z.lor_spec.
    destruct (Z.testbit 128 i) eqn:E; [|by rewrite orb_false_r].
    assert (i = 7) as ->.
    { change 128 with (2 ^ 7) in E. rewrite Z.pow2_bits_eqb in E by lia. by apply Z.eqb_eq in E. }
    change (Z.testbit 127 7) with false. by rewrite !andb_false_r.
Qed.

(** The part of the invariant the node of the keyword inherits from its children. *)
Lemma wf_settled d p n n' cs : getDepth n = d -> StronglySorted Z.lt (map tchar cs) ->
  Forall (wf (d + 1)) cs -> Forall inhabited cs ->
  getDepth n' = getDepth n -> isTerminalNode n' = true ->
  leftMostDescendant n' = p -> rightMostDescendant n' = rightMostDescendant (settle p n cs) ->
  wf d (Tree p n' cs).
Proof.
  intros Hd Hs Hw Hi Hd' Ht Hl Hr. constructor; try done; [by rewrite Hd'| |].
  - unfold left_of. by rewrite Ht.
  - unfold right_of. rewrite Hr, Ht. cbn. by destruct (last cs).
Qed.
Definition with_count (s : trie) (k : Z) : trie :=
  mk_trie (nodes s) (views s) (readers s) (root_readview s) (root_writeview s) (oldReadViewQueue s)
    k (counterForReassignedKeywordIds s) (trieNodesToReassign s)
    (oldIdToNewIdMapVector s) (commited s) (mergeRequired s) (emptyLeafNodeIds s).

Definition number (n : TrieNode) (k : Z) : TrieNode :=
  with_flags (with_offset (with_id n k) k) (setTerminalFlag (terminalFlag1bDepth7b n) true).

Lemma trace_last (ctx : list frame) p :
  vec_at (map fptr (rev ctx) ++ [p]) (Z.of_nat (length (map fptr (rev ctx) ++ [p])) - 1) = Ok p.
Proof.
  rewrite length_app. cbn [length].
  replace (Z.of_nat (length (map fptr (rev ctx)) + 1) - 1) with (Z.of_nat (length (map fptr (rev ctx)))) by lia.
  apply vec_at_app.
Qed.

Lemma trace_up (ctx : list frame) p : tail (rev (map fptr (rev ctx) ++ [p])) = map fptr ctx.
Proof. rewrite rev_app_distr. cbn. by rewrite <- map_rev, rev_involutive. Qed.

Lemma links_run s ctx p n cs d : ctx <> [] -> holds s (plug ctx (Tree p n cs)) -> ctx_ok d ctx (character n) ->
  exists h', set_links (map fptr (rev ctx) ++ [p]) s = Ok (tt, with_nodes s h') /\
    holds (with_nodes s h') (plug (fix_ctx ctx (settle p n cs)) (Tree p (settle p n cs) cs)) /\
    relinks (map fptr ctx ++ [p]) (nodes s) h'.
Proof.
  intros Hne Hh Hok. unfold set_links. rewrite (bind_run _ _ _ _ _ (lift_run _ _ _ (trace_last ctx p))), trace_up.
  rewrite (bind_run _ _ _ _ _ (load_holds _ _ _ _ _ Hh)).
  destruct (settle_run s ctx p n cs Hh) as (h1 & Hr1 & Hh1 & Hre1).
  unfold bind in Hr1 at 1. unfold bind at 1.
  destruct (store_node p (with_left n p) s) as [[[] s1]|]; [|done].
  unfold bind in Hr1 at 1. unfold bind at 1. destruct (load_node p s1) as [[n1 s1']|]; [|done].
  rewrite (bind_run _ _ _ _ _ Hr1).
  destruct (climb_spec ctx (with_nodes s h1) (Tree p (settle p n cs) cs) d Hne Hh1) as (h2 & Hr2 & Hh2 & Hre2);
    [exact Hok|]. exists h2. split; [exact Hr2|]. split; [exact Hh2|].
  eapply relinks_mono; [|exact (relinks_trans _ _ _ _ _ Hre1 Hre2)]. set_solver.
Qed.

Lemma finish_bulk s ctx p n cs b d : commited s = false -> ctx <> [] ->
  holds s (plug ctx (Tree p n cs)) -> ctx_ok d ctx (character n) ->
  exists h' n', addKeyword_SetPrevIdNexIdByPathTrace (map fptr (rev ctx) ++ [p]) b p s =
    Ok (tt, if isTerminalNode n then with_nodes s h'
            else with_count (with_nodes s h') (wrap32 (terminalNodes s + 1))) /\
    n' = (if isTerminalNode n then settle p n cs else number (settle p n cs) (terminalNodes s)) /\
    holds (with_nodes s h') (plug (fix_ctx ctx (settle p n cs)) (Tree p n' cs)).
Proof.
  intros Hc Hne Hh Hok. unfold addKeyword_SetPrevIdNexIdByPathTrace.
  change (bind (reads commited) ?f s) with (f (commited s) s). cbn beta. rewrite Hc.
  rewrite (bind_run (ret (NULL, NULL)) _ s (NULL, NULL) s) by done.
  destruct (links_run s ctx p n cs d Hne Hh Hok) as (h2 & Hr2 & Hh2 & _). rewrite (bind_run _ _ _ _ _ Hr2).
  rewrite (bind_run _ _ _ _ _ (load_holds _ _ _ _ _ Hh2)).
  change (isTerminalNode (settle p n cs)) with (isTerminalNode n).
  destruct (isTerminalNode n) eqn:Ht; cbn [negb].
  { exists h2. eexists. split; [reflexivity|]. split; [reflexivity|exact Hh2]. }
  change (bind (reads terminalNodes) ?f (with_nodes s h2)) with (f (terminalNodes s) (with_nodes s h2)). cbn beta.
  set (n2 := with_offset (with_id (settle p n cs) (terminalNodes s)) (terminalNodes s)).
  destruct (store_holds _ _ _ _ _ n2 Hh2 eq_refl) as (s3 & Hr3 & Es3 & Hh3).
  rewrite (bind_run _ _ _ _ _ Hr3), (bind_run _ _ _ _ _ (load_holds _ _ _ _ _ Hh3)).
  destruct (store_holds _ _ _ _ _ (with_flags n2 (setTerminalFlag (terminalFlag1bDepth7b n2) true)) Hh3 eq_refl)
    as (s4 & Hr4 & Es4 & Hh4). rewrite (bind_run _ _ _ _ _ Hr4).
  exists (nodes s4). eexists. subst s3 s4. split; [reflexivity|]. split; [reflexivity|exact Hh4].
Qed.

(** ** The write view as a dictionary *)

(** The write view of [s] is the well-formed tree [t]. *)
Record represents (s : trie) (t : tree) : Prop := {
  r_holds : holds s t;
  r_root : tptr t = root_writeview s;
  r_wf : wf 0 t }.

Lemma cleanString_length keyword : Z.of_nat (length (cleanString keyword)) <= 127.
Proof.
  unfold cleanString.
  pose proof (filter_length_le (fun c => negb (c =? TRIE_MARKER_CHARACTER))
    (take (Z.to_nat TRIE_MAX_DEPTH) keyword)) as H.
  rewrite length_take in H. change (Z.to_nat TRIE_MAX_DEPTH) with 127%nat in *. lia.
Qed.

Lemma tptr_plug ctx k k' : tptr k = tptr k' -> tptr (plug ctx k) = tptr (plug ctx k').
Proof. revert k k'. induction ctx as [|f ctx IH]; intros k k' E; cbn; [done|]. by apply IH. Qed.

Lemma tptr_fix ctx : forall n k k', tptr k = tptr k' -> tptr (plug (fix_ctx ctx n) k) = tptr (plug ctx k').
Proof.
  induction ctx as [|f ctx IH]; intros n k k' E; cbn [fix_ctx plug]; [done|]. by apply IH.
Qed.

(** The insertion of the word [w] with the number [k] into a dictionary. *)
Definition inserts (w : list Z) (k : Z) (l l' : list (list Z * (Z * Z))) : Prop :=
  ~ In w (map fst l) /\ exists b a, l = b ++ a /\ l' = b ++ (w, (k, k)) :: a.

Lemma entries_own p n cs : isTerminalNode n = true ->
  entries (Tree p n cs) = ([], (id n, invertedListOffset n)) :: flat_map kid_entries cs.
Proof. intros H. cbn [entries]. unfold own. by rewrite H. Qed.

Lemma under_own w x : under w ([], x) = (w, x).
Proof. unfold under. cbn. by rewrite app_nil_r. Qed.

Lemma entries_plain p n cs : isTerminalNode n = false -> entries (Tree p n cs) = flat_map kid_entries cs.
Proof. intros H. cbn [entries]. unfold own. by rewrite H. Qed.
Lemma fix_ctx_ext ctx : forall n n', leftMostDescendant n = leftMostDescendant n' ->
  rightMostDescendant n = rightMostDescendant n' -> fix_ctx ctx n = fix_ctx ctx n'.
Proof.
  destruct ctx as [|f ctx]; intros n n' Hl Hr; [done|]. cbn [fix_ctx]. unfold fix_frame, fix_node.
  by rewrite Hl, Hr.
Qed.

(** The tree after an insertion: the path is repaired and ends in a keyword. *)
Lemma finished_wf ctx p n n' cs d : ctx_ok d ctx (character n) -> character n' = character n ->
  wf d (Tree p n' cs) -> isTerminalNode n' = true ->
  leftMostDescendant n' = leftMostDescendant (settle p n cs) ->
  rightMostDescendant n' = rightMostDescendant (settle p n cs) ->
  wf 0 (plug (fix_ctx ctx (settle p n cs)) (Tree p n' cs)).
Proof.
  intros Hok Hc Hw Ht Hl Hr. apply wf_plug. exists d.
  rewrite (fix_ctx_ext ctx (settle p n cs) n') by done.
  split; [|split; [|split]].
  - apply fix_ctx_ok. change (tchar (Tree p n' cs)) with (character n'). by rewrite Hc.
  - apply (fix_ctx_links ctx (Tree p n' cs)).
  - done.
  - intros _ _. done.
Qed.

Lemma finished_entries ctx p n n' cs : character n' = character n ->
  entries (plug (fix_ctx ctx (settle p n cs)) (Tree p n' cs)) =
  before ctx (character n) ++ map (under (ctx_word ctx (character n))) (entries (Tree p n' cs)) ++
  after ctx (character n).
Proof.
  intros Hc. rewrite entries_plug. change (tchar (Tree p n' cs)) with (character n'). rewrite Hc.
  destruct (fix_ctx_entries ctx (character n) (settle p n cs)) as (-> & -> & ->). done.
Qed.

Lemma inserts_between w k l b a t' : wf 0 t' -> entries t' = b ++ (w, (k, k)) :: a -> l = b ++ a ->
  inserts w k l (entries t').
Proof.
  intros Hw E ->. split; [|by exists b, a].
  pose proof (words_sorted _ _ Hw) as Hs. unfold words in Hs. rewrite E, map_app in Hs.
  rewrite map_app. by apply sorted_unique.
Qed.

(** A path starts at the root. *)
Lemma tptr_plug_head fs : forall k, head (map fptr (rev fs) ++ [tptr k]) = Some (tptr (plug fs k)).
Proof.
  induction fs as [|f fs IH]; intros k; [done|]. cbn [plug rev]. rewrite <- IH.
  rewrite map_app, <- app_assoc. cbn. by destruct (map fptr (rev fs)).
Qed.

Lemma descend_head w d p b s l b' s' : descend w d p b s = Ok ((l, b'), s') -> head l = Some p.
Proof.
  destruct w as [|c w]; cbn [descend]; intros H; [by unfold ret in H; simplify_eq|].
  apply bind_Ok in H as (? & ? & _ & H). apply bind_Ok in H as (? & ? & _ & H).
  apply bind_Ok in H as (? & ? & _ & H). apply bind_Ok in H as ([? ?] & ? & _ & H).
  apply bind_Ok in H as ([? ?] & ? & _ & H). unfold ret in H. by simplify_eq/=.
Qed.

(** The run of [addKeyword] on a word, with what it makes of the dictionary. *)
Lemma addKeyword_run s t keyword : represents s t -> commited s = false ->
  cleanString keyword <> [] ->
  exists s' t' r, addKeyword keyword s = Ok (r, s') /\ represents s' t' /\ commited s' = false /\
    let w := cleanString keyword in
    let k := terminalNodes s in
    (In w (map fst (entries t)) /\ (exists i o, In (w, (i, o)) (entries t) /\ r = (i, Some o)) /\
     entries t' = entries t /\ terminalNodes s' = k) \/
    (inserts w k (entries t) (entries t') /\ r = (k, Some k) /\ terminalNodes s' = wrap32 (k + 1)).
Proof.
  intros [Hh Hroot Hw] Hc Hne. unfold addKeyword.
  change (bind (reads commited) ?f s) with (f (commited s) s). cbn beta. rewrite Hc. cbn [orb].
  destruct (Z.eqb_spec (Z.of_nat (length keyword)) 0) as [E|_].
  { destruct keyword; [by destruct Hne|cbn in E; lia]. }
  change (bind (reads root_writeview) ?f s) with (f (root_writeview s) s). cbn beta. rewrite <- Hroot.
  pose proof (cleanString_length keyword) as Hlen. set (w := cleanString keyword) in *.
  destruct (descend_spec w s [] t 0) as (h1 & fs & k' & b & Hr & Hh1 & Hok & Hword & Hdep & Hb);
    [done|done|done|lia|lia|]. rewrite app_nil_r, Z.add_0_l in *. cbn [ctx_word app] in Hword.
  rewrite (bind_run _ _ _ _ _ Hr). rewrite last_snoc. cbn [default].
  destruct k' as [p n cs]. cbn [tptr tnode tchar] in *.
  assert (fs <> []) as Hfs by (intros ->; cbn in Hword; by rewrite <- Hword in Hne).
  destruct (finish_bulk (with_nodes s h1) fs p n cs b (Z.of_nat (length w)) Hc Hfs Hh1 Hok)
    as (h2 & n' & Hr2 & En' & Hh2). rewrite (bind_run _ _ _ _ _ Hr2).
  set (s2 := if isTerminalNode n then _ else _).
  assert (nodes s2 = h2 /\ commited s2 = false /\ root_writeview s2 = root_writeview s /\
    terminalNodes s2 = if isTerminalNode n then terminalNodes s else wrap32 (terminalNodes s + 1))
    as (E1 & E2 & E3 & E4) by (unfold s2; by destruct (isTerminalNode n)).
  clearbody s2. assert (holds s2 (plug (fix_ctx fs (settle p n cs)) (Tree p n' cs))) as Hh3.
  { destruct Hh2 as [A B C]. cbn in A, C. split; rewrite ?E1; done. }
  rewrite (bind_run _ _ _ _ _ (load_holds _ _ _ _ _ Hh3)). unfold ret.
  assert (character n' = character n /\ getDepth n' = getDepth n /\ isTerminalNode n' = true /\
    leftMostDescendant n' = p /\
    rightMostDescendant n' = rightMostDescendant (settle p n cs)) as (Hchar & Hd' & Ht' & Hl' & Hr').
  { rewrite En'. destruct (isTerminalNode n) eqn:Ht; [done|].
    pose proof (terminal_flags (with_offset (with_id (settle p n cs) (terminalNodes s)) (terminalNodes s)) _ eq_refl)
      as [H1 H2]. unfold number. split; [done|]. split; [exact H2|]. split; [exact H1|done]. }
  assert (StronglySorted Z.lt (map tchar cs) /\ Forall (wf (Z.of_nat (length w) + 1)) cs /\
    Forall inhabited cs) as (Hsc & Hwc & Hic).
  { destruct b; [destruct Hb as (E & _); cbn in E; subst cs; repeat constructor|].
    destruct Hb as (_ & Hwk). inversion Hwk; subst. done. }
  pose proof (wf_settled _ p n n' cs Hdep Hsc Hwc Hic Hd' Ht' Hl' Hr') as Hwk.
  pose proof (finished_wf _ p n n' cs _ Hok Hchar Hwk Ht' Hl' Hr') as Hw'.
  pose proof (finished_entries fs p n n' cs Hchar) as He'.
  change (tchar (Tree p n cs)) with (character n) in *. rewrite Hword in He'.
  rewrite (entries_own p n' cs Ht') in He'. cbn [map] in He'. rewrite under_own in He'.
  eexists s2, _, _. split; [reflexivity|]. split.
  { split; [exact Hh3| |exact Hw']. rewrite E3, <- Hroot. rewrite (tptr_fix fs _ _ (Tree p n cs)) by done.
    pose proof (descend_head _ _ _ _ _ _ _ _ Hr) as Hhd.
    pose proof (tptr_plug_head fs (Tree p n cs)) as Hhd2. cbn [tptr] in Hhd2. congruence. }
  split; [done|]. cbn zeta. destruct b.
  - destruct Hb as (E & Ht & Hent). cbn in E. subst cs. right. cbn [flat_map map app] in He'.
    rewrite Ht in En', E4. subst n'. split; [|done].
    eapply inserts_between; [done|exact He'|by symmetry].
  - destruct Hb as (Hp & _). change (plug [] t) with t in Hp. rewrite <- Hp, entries_plug. change (tchar (Tree p n cs)) with (character n).
    rewrite Hword. destruct (isTerminalNode n) eqn:Ht.
    + left. rewrite (entries_own p n cs Ht). cbn [map]. rewrite !under_own. subst n'. split; [|split; [|split]].
      * rewrite map_app, in_app_iff. right. by left.
      * exists (id n), (invertedListOffset n). split; [|done]. rewrite in_app_iff. right. by left.
      * exact He'.
      * done.
    + right. rewrite (entries_plain p n cs Ht). split.
      * subst n'. eapply inserts_between; [done|exact He'|done].
      * subst n'. done.
Qed.
(** (C20) [addKeyword] implements a dictionary that numbers its words: a word
    that is already there is answered with its id and offset and nothing changes;
    a new word gets the number of words so far as its id and offset and enters at
    its place in the lexicographic order.  The trie stays well formed: children
    sorted, depths right, every node linked to its outermost keywords. *)
Theorem addKeyword_refines (s : trie) (t : tree) (keyword : list Z) :
  represents s t -> commited s = false -> cleanString keyword <> [] ->
  exists s' t' r, addKeyword keyword s = Ok (r, s') /\ represents s' t' /\ commited s' = false /\
    let w := cleanString keyword in
    let k := terminalNodes s in
    (In w (map fst (entries t)) /\ (exists i o, In (w, (i, o)) (entries t) /\ r = (i, Some o)) /\
     entries t' = entries t /\ terminalNodes s' = k) \/
    (inserts w k (entries t) (entries t') /\ r = (k, Some k) /\ terminalNodes s' = wrap32 (k + 1)).
Proof. apply addKeyword_run. Qed.

(** The trie the constructor makes. *)
Definition new_tree : tree := Tree 2%N (copy_node new_root false) [].

Lemma new_trie_represents : represents new_trie new_tree.
Proof.
  split; [split|done|].
  - constructor; [done|reflexivity|done|constructor].
  - apply NoDup_singleton.
  - change (nodes new_trie) with (s_new (s_new (@empty_store TrieNode) new_root).2 (copy_node new_root false)).2.
    auto with srch2.
  - constructor; try done; constructor.
Qed.

Lemma addKeyword_refines_witness : exists s' t' r,
  addKeyword [97; 36; 98] new_trie = Ok (r, s') /\ represents s' t' /\
  inserts [97; 98] 0 (entries new_tree) (entries t') /\ r = (0, Some 0).
Proof.
  destruct (addKeyword_refines new_trie new_tree [97; 36; 98]) as (s' & t' & r & Hr & Hrep & _ & H).
  - apply new_trie_represents.
  - reflexivity.
  - vm_compute. discriminate.
  - exists s', t', r. split; [exact Hr|]. split; [exact Hrep|].
    destruct H as [[[] _]|(H & Hid & _)]. split; [exact H|exact Hid].
Defined.

(** A keyword that consists of the reserved character ['$'] alone is not
    turned away: the upward loop decrements the index of the root and leaves the
    path. *)
Theorem marker_keyword_faults (s : trie) (t : tree) (keyword : list Z) :
  represents s t -> commited s = false -> keyword <> [] -> cleanString keyword = [] ->
  addKeyword keyword s = Err OutOfRange.
Proof.
  intros [Hh Hroot Hw] Hc Hne Hcl. unfold addKeyword.
  change (bind (reads commited) ?f s) with (f (commited s) s). cbn beta. rewrite Hc. cbn [orb].
  destruct (Z.eqb_spec (Z.of_nat (length keyword)) 0) as [E|_]; [destruct keyword; [done|cbn in E; lia]|].
  change (bind (reads root_writeview) ?f s) with (f (root_writeview s) s). cbn beta.
  rewrite Hcl, <- Hroot. cbn [descend]. destruct t as [p n cs]. cbn [tptr].
  rewrite (bind_run (ret ([p], false)) _ s ([p], false) s) by done. cbn [last default].
  unfold addKeyword_SetPrevIdNexIdByPathTrace. unfold bind at 1.
  change (bind (reads commited) ?f s) with (f (commited s) s). cbn beta. rewrite Hc.
  rewrite (bind_run (ret (NULL, NULL)) _ s (NULL, NULL) s) by done.
  unfold set_links, bind at 1. rewrite (bind_run (lift (vec_at [p] _)) _ s p s) by done.
  rewrite (bind_run _ _ _ _ _ (load_holds s [] p n cs Hh)).
  destruct (settle_run s [] p n cs Hh) as (h1 & Hr1 & Hh1 & _).
  unfold bind in Hr1 at 1. unfold bind at 1.
  destruct (store_node p (with_left n p) s) as [[[] s1]|]; [|done].
  unfold bind in Hr1 at 1. unfold bind at 1. destruct (load_node p s1) as [[n1 s1']|]; [|done].
  by rewrite (bind_run _ _ _ _ _ Hr1).
Qed.

Lemma marker_keyword_faults_witness : addKeyword [36; 36] new_trie = Err OutOfRange.
Proof.
  apply (marker_keyword_faults new_trie new_tree [36; 36]).
  - apply new_trie_represents.
  - reflexivity.
  - discriminate.
  - reflexivity.
Defined.

(** ** Loading a sequence of keywords *)

Fixpoint addKeywords (kws : list (list Z)) : tst (list (Z * option Z)) :=
  match kws with
  | [] => ret []
  | kw :: kws' => let! r := addKeyword kw in let! rs := addKeywords kws' in ret (r :: rs)
  end.

(** The ids in use are pairwise different and below the number of words. *)
Record numbered (l : list (list Z * (Z * Z))) (k : Z) : Prop := {
  nb_words : NoDup (map fst l);
  nb_ids : NoDup (map (fun e => e.2.1) l);
  nb_range : Forall (fun e => 0 <= e.2.1 < k /\ e.2.2 = e.2.1) l }.

Lemma inserts_numbered w k l l' : numbered l k -> 0 <= k -> inserts w k l l' -> numbered l' (k + 1).
Proof.
  intros [Hw Hi Hr] Hk (Hn & b & a & -> & ->).
  assert (b ++ (w, (k, k)) :: a ≡ₚ (w, (k, k)) :: b ++ a) as P by (by rewrite Permutation_middle).
  split.
  - rewrite P. cbn. apply NoDup_cons. split; [by rewrite list_elem_of_In|done].
  - rewrite P. cbn. apply NoDup_cons. split; [|done]. intros (e & E & He)%elem_of_lmap.
    rewrite Forall_forall in Hr. specialize (Hr e He). lia.
  - rewrite P. constructor; [cbn; lia|]. eapply Forall_impl; [exact Hr|]. cbn. intros e He. lia.
Qed.
Lemma addKeywords_run kws : forall s t k, represents s t -> commited s = false ->
  numbered (entries t) k -> terminalNodes s = k -> 0 <= k ->
  k + Z.of_nat (length kws) < 2 ^ 32 -> Forall (fun kw => cleanString kw <> []) kws ->
  exists s' t' ids, addKeywords kws s = Ok (map (fun i => (i, Some i)) ids, s') /\
    represents s' t' /\ numbered (entries t') (terminalNodes s') /\
    (forall e, In e (entries t) -> In e (entries t')) /\
    Forall2 (fun kw i => In (cleanString kw, (i, i)) (entries t')) kws ids /\
    (forall w, In w (words t') -> In w (words t) \/ In w (map cleanString kws)).
Proof.
  induction kws as [|kw kws IH]; intros s t k Hrep Hc Hnum Hk Hk0 Hlen Hkws; cbn [addKeywords].
  - exists s, t, []. subst k. split; [done|]. split; [done|]. split; [done|]. split; [done|].
    split; [constructor|]. intros w Hw. by left.
  - inversion_clear Hkws as [|? ? Hkw Hkws']. cbn [length] in Hlen.
    destruct (addKeyword_run s t kw Hrep Hc Hkw) as (s1 & t1 & r & Hr & Hrep1 & Hc1 & Hcase).
    rewrite (bind_run _ _ _ _ _ Hr). cbn zeta in Hcase. rewrite Hk in Hcase.
    assert (exists i k1, r = (i, Some i) /\ In (cleanString kw, (i, i)) (entries t1) /\
      numbered (entries t1) k1 /\ terminalNodes s1 = k1 /\ 0 <= k1 <= k + 1 /\
      (forall e, In e (entries t) -> In e (entries t1)) /\
      (forall w, In w (words t1) -> In w (words t) \/ w = cleanString kw))
      as (i & k1 & -> & Hin & Hnum1 & Hk1 & Hk1' & Hsub & Hwords).
    { destruct Hcase as [(_ & (i & o & Hin & ->) & E & Hk1)|(Hins & -> & Hk1)].
      - exists i, k. assert (o = i) as ->.
        { destruct Hnum as [_ _ Hr']. rewrite List.Forall_forall in Hr'. by destruct (Hr' _ Hin). }
        unfold words. rewrite E. split; [done|]. split; [done|]. split; [done|]. split; [done|].
        split; [lia|]. split; [done|]. by left.
      - exists k, (k + 1). pose proof (inserts_numbered _ _ _ _ Hnum Hk0 Hins) as Hnum1.
        destruct Hins as (_ & b & a & Eb & Ea). unfold words. rewrite Eb, Ea.
        split; [done|]. split; [rewrite in_app_iff; right; by left|].
        split; [by rewrite <- Ea|]. split; [rewrite Hk1; apply wrap_id; unfold is_uint; lia|].
        split; [lia|]. split.
        + intros e. rewrite !in_app_iff. cbn. tauto.
        + intros w. rewrite !map_app, !in_app_iff. cbn. intuition. }
    destruct (IH s1 t1 k1 Hrep1 Hc1 Hnum1 Hk1) as (s' & t' & ids & Hr2 & Hrep' & Hnum' & Hsub' & Hall & Hw');
      [lia|lia|done|].
    exists s', t', (i :: ids). rewrite (bind_run _ _ _ _ _ Hr2).
    split; [done|]. split; [done|]. split; [done|]. split; [by auto|]. split.
    + constructor; [by apply Hsub'|done].
    + intros w Hw. destruct (Hw' w Hw) as [H|H]; [|right; by right].
      destruct (Hwords w H) as [|H1]; [by left|right; left; by symmetry].
Qed.

(** In a numbered dictionary words and ids determine each other. *)
Lemma numbered_iff l k w1 w2 i1 i2 o1 o2 : numbered l k ->
  In (w1, (i1, o1)) l -> In (w2, (i2, o2)) l -> (i1 = i2 <-> w1 = w2).
Proof.
  intros [Hw Hi _] H1 H2.
  assert (forall {A} (f : list Z * (Z * Z) -> A) e1 e2, NoDup (map f l) -> In e1 l -> In e2 l ->
    f e1 = f e2 -> e1 = e2) as Hinj.
  { clear. intros A f e1 e2 Hnd H1 H2 E. apply list_elem_of_In in H1 as [j1 H1]%list_elem_of_lookup,
      H2 as [j2 H2]%list_elem_of_lookup.
    assert (j1 = j2) as ->; [|congruence].
    apply (NoDup_lookup _ j1 j2 (f e1) Hnd);
      rewrite list_lookup_fmap_map, ?H1, ?H2; cbn; congruence. }
  split; intros E.
  - specialize (Hinj _ (fun e => e.2.1) _ _ Hi H1 H2 E). congruence.
  - specialize (Hinj _ fst _ _ Hw H1 H2 E). congruence.
Qed.

(** The bulk load: adding any keywords to a new trie succeeds; the trie
    then holds exactly the words added, in strict lexicographic order, its ids are
    those of different words, and two keywords are answered with the same id just
    when they are the same word after cleaning. *)
Theorem load_identifies_words (kws : list (list Z)) :
  Forall (fun kw => cleanString kw <> []) kws -> Z.of_nat (length kws) < 2 ^ 32 ->
  exists s t ids, addKeywords kws new_trie = Ok (map (fun i => (i, Some i)) ids, s) /\
    represents s t /\ StronglySorted lex (words t) /\
    (forall w, In w (words t) <-> In w (map cleanString kws)) /\
    length ids = length kws /\
    forall j1 j2 kw1 kw2 i1 i2, kws !! j1 = Some kw1 -> kws !! j2 = Some kw2 ->
      ids !! j1 = Some i1 -> ids !! j2 = Some i2 ->
      (i1 = i2 <-> cleanString kw1 = cleanString kw2).
Proof.
  intros Hkws Hlen.
  destruct (addKeywords_run kws new_trie new_tree 0) as (s & t & ids & Hr & Hrep & Hnum & _ & Hall & Hw);
    [apply new_trie_represents|done|repeat constructor|done|lia|lia|done|].
  exists s, t, ids. split; [done|]. split; [done|].
  split; [eapply words_sorted, (r_wf _ _ Hrep)|]. split; [|split].
  - intros w. split; [intros H; by destruct (Hw w H)|].
    intros (kw & <- & Hin)%in_map_iff. apply list_elem_of_In, list_elem_of_lookup in Hin as [j Hj].
    destruct (Forall2_lookup_l _ _ _ _ _ Hall Hj) as (i & _ & Hi). unfold words.
    apply (in_map fst) in Hi. done.
  - symmetry. by eapply Forall2_length.
  - intros j1 j2 kw1 kw2 i1 i2 H1 H2 H3 H4. eapply numbered_iff; [exact Hnum| |].
    + exact (Forall2_lookup_lr _ _ _ _ _ _ Hall H1 H3).
    + exact (Forall2_lookup_lr _ _ _ _ _ _ Hall H2 H4).
Qed.

Lemma load_identifies_words_witness : exists s t ids,
  addKeywords [[97; 98]; [97]; [97; 36; 98]] new_trie = Ok (map (fun i => (i, Some i)) ids, s) /\
  represents s t /\ ids = [0; 1; 0].
Proof.
  destruct (load_identifies_words [[97; 98]; [97]; [97; 36; 98]]) as (s & t & ids & Hr & Hrep & _).
  - repeat constructor; vm_compute; discriminate.
  - reflexivity.
  - exists s, t, ids. split; [exact Hr|]. split; [exact Hrep|].
    vm_compute in Hr. injection Hr as Hids _.
    destruct ids as [|a [|b [|c [|? ?]]]]; try discriminate Hids. injection Hids; intros; subst; reflexivity.
Defined.
(** ** Lookup *)

Lemma getTrieNode_run w : forall h d t, shape h t -> wf d t ->
  getTrieNode h (tptr t) w = Ok (match subtree t w with Some k => tptr k | None => NULL end) /\
  forall k, subtree t w = Some k -> shape h k.
Proof.
  induction w as [|c w IH]; intros h d t Hs Hw; cbn [getTrieNode subtree].
  - split; [done|]. by intros k [= <-].
  - rewrite (shape_load_root _ _ Hs). cbn [rbind]. rewrite (findChild_spec h d) by done. cbn [rbind].
    destruct (List.find _ (kids t)) as [k|] eqn:E; [|done].
    apply find_some in E as [Hk _]. inversion Hs as [p n cs ? ? ? Hcs]; subst. cbn [kids] in Hk.
    rewrite List.Forall_forall in Hcs. specialize (Hcs k Hk).
    rewrite bool_decide_false by (by eapply shape_nonnull).
    apply (IH h (d + 1)); [done|]. inversion Hw as [? ? ? ? _ _ Hws]; subst.
    rewrite List.Forall_forall in Hws. by apply Hws.
Qed.

(** [getTrieNode] finds what was inserted: a word leads to a terminal node
    with a given id and inverted-list offset just when it is in the dictionary
    with them; otherwise it leads to NULL or to a node that is no keyword.  The
    walk never faults. *)
Theorem lookup_finds (s : trie) (t : tree) (w : list Z) :
  represents s t ->
  exists p, getTrieNode (nodes s) (root_writeview s) w = Ok p /\
    forall i o, In (w, (i, o)) (entries t) <->
      exists n, s_load (nodes s) p = Ok n /\ isTerminalNode n = true /\
        id n = i /\ invertedListOffset n = o.
Proof.
  intros [[Hs Hnd Hwf] Hroot Hw]. destruct (getTrieNode_run w (nodes s) 0 t Hs Hw) as [Hget Hsub].
  rewrite Hroot in Hget. eexists. split; [exact Hget|]. intros i o.
  rewrite (entries_subtree 0) by done. destruct (subtree t w) as [k|].
  - rewrite (shape_load_root _ k) by (by apply Hsub). split.
    + intros (k' & [= <-] & Ht & [= -> ->]). eauto.
    + intros (n & [= <-] & Ht & <- & <-). eauto.
  - split; [by intros (? & [=] & _)|]. intros (n & Hn & _). done.
Qed.

Lemma lookup_finds_witness : exists p, getTrieNode (nodes new_trie) (root_writeview new_trie) [97] = Ok p.
Proof.
  destruct (lookup_finds new_trie new_tree [97] new_trie_represents) as (p & Hp & _). by exists p.
Defined.
(** ** An example *)

(** A small trie, loaded with three keywords. *)
Definition demo : trie :=
  match addKeywords [[98]; [97; 98]; [97]] new_trie with Ok (_, s) => s | Err _ => new_trie end.
Definition demo_tree : tree :=
  match read_tree 9 (nodes demo) 2%N with Ok t => t | Err _ => new_tree end.

Lemma demo_represents : represents demo demo_tree.
Proof.
  split; [split| |].
  - apply (read_tree_shape 9 _ 2%N). vm_compute. reflexivity.
  - apply (bool_decide_unpack _). vm_compute. exact I.
  - split; [vm_compute; reflexivity|]. intros p Hp. apply elem_of_dom in Hp.
    change (p ∈ dom (cells (nodes demo))) in Hp. apply elem_of_elements in Hp. revert p Hp.
    apply Forall_forall. apply (bool_decide_unpack _). vm_compute. exact I.
  - vm_compute. reflexivity.
  - apply wfb_sound. vm_compute. reflexivity.
Qed.

End TrieInsert.
