(* ===== verification/TrieNeighbours.v ===== *)
(** * The neighbours of a keyword (core/index/Trie.cpp, getLeftTnp and getRightTnp)

    A node path is the path of a zipper into the tree; the two searches end at
    the zipper of the keyword just before and just after. *)
From S2P Require Import Prelude TrieNode Trie TrieTree TrieInsert.
From Stdlib Require Import ZArith Lia List Bool Sorted.
From stdpp Require Import base gmap list fin_maps.
Open Scope Z_scope.

Module TrieNeighbours.
Import TrieNode Trie TrieTree TrieInsert.

(** The node path to the sub-tree [k] below [ctx]. *)
Definition path_of (ctx : list frame) (k : tree) : path := map fptr (rev ctx) ++ [tptr k].

Lemma path_of_cons f ctx k : path_of (f :: ctx) k = path_of ctx (fill f k) ++ [tptr k].
Proof. unfold path_of. cbn [rev]. by rewrite map_app. Qed.

Lemma path_of_length ctx k : length (path_of ctx k) = S (length ctx).
Proof. unfold path_of. rewrite length_app, length_map, length_rev. cbn. lia. Qed.

(** The character at the root of the tree that a context with a hole makes. *)
Fixpoint top_char (fs : list frame) (c : Z) : Z :=
  match fs with [] => c | f :: fs' => top_char fs' (character (fnode f)) end.

Lemma tchar_plug fs k : tchar (plug fs k) = top_char fs (tchar k).
Proof. revert k. induction fs as [|f fs IH]; intros k; [done|]. apply (IH (fill f k)). Qed.

Lemma ctx_word_app fs ctx c : ctx_word (fs ++ ctx) c = ctx_word ctx (top_char fs c) ++ ctx_word fs c.
Proof.
  revert c. induction fs as [|f fs IH]; intros c; cbn [app ctx_word top_char]; [by rewrite app_nil_r|].
  by rewrite IH, <- app_assoc.
Qed.

Lemma under_app u v l : map (under (u ++ v)) l = map (under u) (map (under v) l).
Proof. rewrite map_map. apply map_ext. intros e. unfold under. cbn. by rewrite app_assoc. Qed.

Lemma before_app fs ctx c : before (fs ++ ctx) c =
  before ctx (top_char fs c) ++ map (under (ctx_word ctx (top_char fs c))) (before fs c).
Proof.
  revert c. induction fs as [|f fs IH]; intros c; cbn [app before top_char]; [by rewrite app_nil_r|].
  rewrite IH, ctx_word_app, under_app. rewrite !map_app, <- ?app_assoc. done.
Qed.

Lemma after_app fs ctx c : after (fs ++ ctx) c =
  map (under (ctx_word ctx (top_char fs c))) (after fs c) ++ after ctx (top_char fs c).
Proof.
  revert c. induction fs as [|f fs IH]; intros c; cbn [app after top_char]; [done|].
  rewrite IH, ctx_word_app, under_app. rewrite !map_app, <- ?app_assoc. done.
Qed.

Lemma ctx_ok_length d ctx c : ctx_ok d ctx c -> d = Z.of_nat (length ctx).
Proof.
  revert d c. induction ctx as [|f ctx IH]; intros d c; cbn [ctx_ok length]; [done|].
  intros [_ H%IH]. lia.
Qed.

(** The entry of the keyword at the focus. *)
Definition entry_at (ctx : list frame) (k : tree) : list Z * (Z * Z) :=
  (ctx_word ctx (tchar k), (id (tnode k), invertedListOffset (tnode k))).

Lemma under_own_entry ctx k : isTerminalNode (tnode k) = true ->
  map (under (ctx_word ctx (tchar k))) (own (tnode k)) = [entry_at ctx k].
Proof. intros H. unfold own. rewrite H. cbn. by rewrite under_own. Qed.

(** The word right before the focus is at another focus of the same tree. *)
Record precedes (ctx' : list frame) (k' : tree) (ctx : list frame) (k : tree) : Prop := {
  pr_tree : plug ctx' k' = plug ctx k;
  pr_terminal : isTerminalNode (tnode k') = true;
  pr_before : before ctx (tchar k) = before ctx' (tchar k') ++ [entry_at ctx' k'] }.

(** The word right after the focus. *)
Record follows (ctx' : list frame) (k' : tree) (ctx : list frame) (k : tree) : Prop := {
  fl_tree : plug ctx' k' = plug ctx k;
  fl_terminal : isTerminalNode (tnode k') = true;
  fl_before : before ctx' (tchar k') =
    before ctx (tchar k) ++ map (under (ctx_word ctx (tchar k))) (own (tnode k)) }.

(** ** The position of a child *)

Lemma search_unique keys l c r pos : keys = l ++ c :: r -> StronglySorted Z.lt keys ->
  search_result keys c pos -> pos = Z.of_nat (length l).
Proof.
  intros E Hs [(l' & r' & E' & ->)|(l' & r' & E' & _ & Hl & Hr)].
  - f_equal. rewrite E in Hs. assert (length l' = length l) as ->; [|done].
    destruct (Nat.lt_trichotomy (length l') (length l)) as [H|[H|H]]; [|done|].
    + assert ((l ++ c :: r) !! length l' = Some c) as H1 by (rewrite <- E, E'; by apply list_lookup_middle).
      assert ((l ++ c :: r) !! length l = Some c) as H2 by (by apply list_lookup_middle).
      pose proof (sorted_lookup _ _ _ _ _ Hs H1 H2 H). lia.
    + assert ((l ++ c :: r) !! length l' = Some c) as H1 by (rewrite <- E, E'; by apply list_lookup_middle).
      assert ((l ++ c :: r) !! length l = Some c) as H2 by (by apply list_lookup_middle).
      pose proof (sorted_lookup _ _ _ _ _ Hs H2 H1 H). lia.
  - rewrite List.Forall_forall in Hl, Hr. assert (In c keys) as Hin by (rewrite E, in_app_iff; right; by left).
    rewrite E', in_app_iff in Hin. destruct Hin as [H|H]; [specialize (Hl _ H)|specialize (Hr _ H)]; lia.
Qed.

Lemma position_run h g k : shape h (fill g k) ->
  StronglySorted Z.lt (map tchar (fleft g) ++ tchar k :: map tchar (fright g)) ->
  findChildNodePosition h (fnode g) (tchar k) = Ok (Z.of_nat (length (fleft g))).
Proof.
  intros Hs Hsort. assert (map character (map tnode (fleft g ++ k :: fright g)) =
    map tchar (fleft g) ++ tchar k :: map tchar (fright g)) as E.
  { rewrite map_map, map_app. done. }
  destruct (findChildNodePosition_spec h (fnode g) (map tnode (fleft g ++ k :: fright g)) (tchar k)) as (pos & -> & Hr).
  { exact (kids_children _ _ Hs). } { by rewrite E. }
  rewrite E in Hr. f_equal. rewrite <- (length_map tchar). exact (search_unique _ _ _ _ _ eq_refl Hsort Hr).
Qed.

Lemma getChild_run h g l x r : shape h (fill g x) -> fleft g ++ x :: fright g = l ++ r ->
  forall y r', r = y :: r' -> getChild (fnode g) (Z.of_nat (length l)) = Ok (tptr y).
Proof.
  intros Hs E y r' ->. apply shape_fill in Hs as ((_ & _ & Hch & _) & _).
  unfold getChild. rewrite Hch, E, map_app. cbn [map]. rewrite <- (length_map tptr l). apply vec_at_app.
Qed.

(** ** The descents *)

(** All the frames of a descent along last (or first) children. *)
Definition last_frames (fs : list frame) : Prop := Forall (fun f => fright f = []) fs.
Definition first_frames (fs : list frame) : Prop :=
  Forall (fun f => fleft f = [] /\ isTerminalNode (fnode f) = false) fs.

Lemma last_frames_after fs c : last_frames fs -> after fs c = [].
Proof. intros H. revert c. induction H as [|f fs Hf _ IH]; intros c; cbn; [done|]. by rewrite Hf, IH. Qed.

Lemma first_frames_before fs c : first_frames fs -> before fs c = [].
Proof.
  intros H. revert c. induction H as [|f fs [Hf Ht] _ IH]; intros c; cbn; [done|].
  rewrite IH, Hf. unfold own. by rewrite Ht.
Qed.

Lemma path_of_snoc fs p n l r z :
  path_of (fs ++ [mk_frame p n l r]) z = p :: path_of fs z.
Proof. unfold path_of. by rewrite rev_app_distr. Qed.

Lemma rightmost_run y : forall fuel s d, shape (nodes s) y -> wf d y -> inhabited y ->
  (height y <= S fuel)%nat ->
  exists fs z rest, rightmost_path fuel (tptr y) s = Ok (rest, s) /\ plug fs z = y /\
    path_of fs z = tptr y :: rest /\ kids z = [] /\ isTerminalNode (tnode z) = true /\ last_frames fs.
Proof.
  induction y as [p n cs IH] using tree_ind'. intros fuel s d Hs Hw Hi Hf.
  assert (rightmost_path fuel p s = (if 0 <? getChildrenCount n then
      match fuel with
      | O => fail OutOfFuel
      | S fuel' => let! c := lift (getChild n (getChildrenCount n - 1)) in
          let! rest := rightmost_path fuel' c in ret (c :: rest)
      end else ret []) s) as E.
  { destruct fuel; cbn [rightmost_path]; exact (bind_run _ _ _ _ _ (load_tree s [] (Tree p n cs) Hs)). }
  cbn [tptr]. rewrite E. clear E. unfold getChildrenCount.
  assert (childrenPointerList n = map tptr cs) as Hch by (by inversion Hs). rewrite Hch, length_map.
  destruct (decide (cs = [])) as [->|Hne].
  - exists [], (Tree p n []), []. repeat split; [by apply Hi|constructor].
  - destruct (exists_last Hne) as (l & x & ->). rewrite length_app. cbn [length].
    destruct (Z.ltb_spec 0 (Z.of_nat (length l + 1))); [|lia].
    apply height_kids in Hf. destruct fuel as [|fuel].
    { apply Forall_app in Hf as [_ Hf]. inversion_clear Hf as [|? ? H0 _]. destruct x. cbn in H0. lia. }
    assert (getChild n (Z.of_nat (length l + 1) - 1) = Ok (tptr x)) as Hg.
    { unfold getChild. rewrite Hch, map_app. cbn [map]. rewrite <- (length_map tptr l).
      replace (Z.of_nat _ - 1) with (Z.of_nat (length (map tptr l))) by lia. apply vec_at_app. }
    rewrite (bind_run _ _ _ _ _ (lift_run _ _ _ Hg)).
    inversion Hw as [? ? ? ? _ _ Hws His _ _]; subst. inversion Hs as [? ? ? _ _ _ Hss]; subst.
    rewrite Forall_app, Forall_cons in *. destruct IH as (_ & IHx & _).
    destruct (IHx fuel s (d + 1)) as (fs & z & rest & Hr & Hp & Hpath & Hk & Ht & Hl); [tauto..|].
    exists (fs ++ [mk_frame p n l []]), z, (tptr x :: rest). rewrite (bind_run _ _ _ _ _ Hr).
    split; [done|]. split; [by rewrite plug_app, Hp|]. split; [by rewrite path_of_snoc, Hpath|].
    split; [done|]. split; [done|]. apply Forall_app. split; [done|by repeat constructor].
Qed.
Lemma extend_run y : forall fuel s d, shape (nodes s) y -> wf d y -> inhabited y ->
  (height y <= S fuel)%nat ->
  exists fs z, extendTnpFromTrieNode fuel (tptr y) s = Ok (path_of fs z, s) /\ plug fs z = y /\
    isTerminalNode (tnode z) = true /\ first_frames fs.
Proof.
  induction y as [p n cs IH] using tree_ind'. intros fuel s d Hs Hw Hi Hf.
  assert (extendTnpFromTrieNode fuel p s = (if negb (isTerminalNode n) && (0 <? getChildrenCount n) then
      match fuel with
      | O => fail OutOfFuel
      | S fuel' => let! c := lift (getChild n 0) in
          let! rest := extendTnpFromTrieNode fuel' c in ret (p :: rest)
      end else assert_ (isTerminalNode n) ;;; ret [p]) s) as E.
  { destruct fuel; cbn [extendTnpFromTrieNode]; exact (bind_run _ _ _ _ _ (load_tree s [] (Tree p n cs) Hs)). }
  cbn [tptr]. rewrite E. clear E. unfold getChildrenCount.
  assert (childrenPointerList n = map tptr cs) as Hch by (by inversion Hs). rewrite Hch, length_map.
  destruct (isTerminalNode n) eqn:Ht; cbn [negb andb].
  { exists [], (Tree p n cs). repeat split; [done|constructor]. }
  destruct cs as [|x cs]; [specialize (Hi eq_refl); cbn in Hi; congruence|]. cbn [length].
  destruct (Z.ltb_spec 0 (Z.of_nat (S (length cs)))); [|lia].
  apply height_kids in Hf. destruct fuel as [|fuel].
  { inversion_clear Hf as [|? ? H0 _]. destruct x. cbn in H0. lia. }
  assert (getChild n 0 = Ok (tptr x)) as Hg by (unfold getChild; by rewrite Hch).
  rewrite (bind_run _ _ _ _ _ (lift_run _ _ _ Hg)).
  inversion Hw as [? ? ? ? _ _ Hws His _ _]; subst. inversion Hs as [? ? ? _ _ _ Hss]; subst.
  rewrite !Forall_cons in *. destruct IH as (IHx & _).
  destruct (IHx fuel s (d + 1)) as (fs & z & Hr & Hp & Htz & Hl); [tauto..|].
  exists (fs ++ [mk_frame p n [] cs]), z. rewrite (bind_run _ _ _ _ _ Hr).
  split; [by rewrite path_of_snoc|]. split; [by rewrite plug_app, Hp|]. split; [done|].
  apply Forall_app. split; [done|by repeat constructor].
Qed.

(** ** The climbs *)

Lemma vec_at_take {A} (P Q : list A) x l : take (S (length Q)) P = Q ++ [x] -> l = Z.of_nat (length Q) ->
  vec_at P l = Ok x.
Proof.
  intros H ->. apply vec_at_nth. split; [lia|]. rewrite Nat2Z.id.
  rewrite <- (lookup_take_lt P (S (length Q))) by lia. rewrite H. by apply list_lookup_middle.
Qed.

Lemma take_path P f ctx k : take (S (length (f :: ctx))) P = path_of (f :: ctx) k ->
  take (S (length ctx)) P = path_of ctx (fill f k).
Proof.
  rewrite path_of_cons. cbn [length]. intros H.
  apply (f_equal (take (S (length ctx)))) in H. rewrite take_take, Nat.min_l in H by lia.
  rewrite H, take_app_le by (rewrite path_of_length; lia). apply take_ge. rewrite path_of_length. lia.
Qed.

(** The part of a climb that a lemma about one round needs. *)
Lemma climb_loads s f ctx k d : holds s (plug (f :: ctx) k) -> ctx_ok d (f :: ctx) (tchar k) ->
  load_node (fptr f) s = Ok (fnode f, s) /\ load_node (tptr k) s = Ok (tnode k, s) /\
  on_heap (fun h => isFirstChild h (fnode f) (tnode k)) s = Ok (is_nil (fleft f), s) /\
  on_heap (fun h => isLastChild h (fnode f) (tnode k)) s = Ok (is_nil (fright f), s) /\
  on_heap (fun h => findChildNodePosition h (fnode f) (tchar k)) s = Ok (Z.of_nat (length (fleft f)), s) /\
  shape (nodes s) (fill f k).
Proof.
  intros [Hs _ _] [Hf _]. cbn [plug] in Hs. pose proof (proj2 (proj1 (shape_plug _ _ _) Hs)) as Hfill.
  pose proof (fo_sorted _ _ _ Hf) as Hsort. split; [exact (load_tree s ctx (fill f k) Hs)|].
  split; [apply (load_tree s (f :: ctx)); exact Hs|].
  split; [by apply on_heap_run, isFirstChild_run|]. split; [by apply on_heap_run, isLastChild_run|].
  split; [by apply on_heap_run, position_run|done].
Qed.

Lemma left_climb_run s P ctx : forall f k d, holds s (plug (f :: ctx) k) -> ctx_ok d (f :: ctx) (tchar k) ->
  take (S (length (f :: ctx))) P = path_of (f :: ctx) k ->
  exists fs g rest, left_climb P (length ctx) (tptr k) (fptr f) s =
      Ok ((length rest, tptr (plug fs k), fptr g), s) /\
    f :: ctx = fs ++ g :: rest /\ before (f :: ctx) (tchar k) = before (g :: rest) (tchar (plug fs k)) /\
    (rest = [] \/ fleft g <> [] \/ isTerminalNode (fnode g) = true).
Proof.
  induction ctx as [|f' ctx IH]; intros f k d Hh Hok HP; cbn [left_climb length];
    destruct (climb_loads _ _ _ _ _ Hh Hok) as (Hl1 & Hl2 & Hl3 & _);
    rewrite (bind_run _ _ _ _ _ Hl1), (bind_run _ _ _ _ _ Hl2), (bind_run _ _ _ _ _ Hl3).
  - exists [], f, []. split; [done|]. split; [done|]. split; [done|]. by left.
  - destruct (is_nil (fleft f) && negb (isTerminalNode (fnode f))) eqn:E.
    + apply andb_true_iff in E as [E1 E2%negb_true_iff]. destruct (fleft f) eqn:El; [|done].
      apply take_path in HP as HP'. cbn [length] in HP'.
      assert (vec_at P (Z.of_nat (length ctx)) = Ok (fptr f')) as Hv.
      { apply (vec_at_take P (map fptr (rev ctx))); [|by rewrite length_map, length_rev].
        rewrite length_map, length_rev. exact (take_path _ _ _ _ HP'). }
      rewrite (bind_run _ _ _ _ _ (lift_run _ _ _ Hv)).
      assert (holds s (plug (f' :: ctx) (fill f k))) as Hh' by exact Hh.
      assert (ctx_ok (d - 1) (f' :: ctx) (tchar (fill f k))) as Hok' by (by destruct Hok).
      destruct (climb_loads _ _ _ _ _ Hh' Hok') as (Hl1' & _). rewrite (bind_run _ _ _ _ _ Hl1').
      assert (getDepth (fnode f') = Z.of_nat (length ctx)) as Hd.
      { pose proof (ctx_ok_length _ _ _ Hok') as Hlen. destruct Hok' as [Hf' _].
        rewrite (fo_depth _ _ _ Hf'). cbn [length] in Hlen. lia. }
      rewrite (bind_run _ _ _ _ _ (assert_run _ s (proj2 (Z.eqb_eq _ _) Hd))).
      destruct (IH f' (fill f k) (d - 1) Hh' Hok' HP') as (fs & g & rest & Hr & Ectx & Hb & Hstop).
      exists (f :: fs), g, rest. split; [exact Hr|]. split; [by rewrite Ectx|]. split; [|done].
      cbn [plug]. rewrite <- Hb. cbn [before]. unfold own. rewrite E2, El. cbn. by rewrite app_nil_r.
    + exists [], f, (f' :: ctx). split; [done|]. split; [done|]. split; [done|]. right.
      apply andb_false_iff in E as [E|E]; [left; by destruct (fleft f)|right; by apply negb_false_iff].
Qed.

Lemma right_climb_run s P ctx : forall f k d, holds s (plug (f :: ctx) k) -> ctx_ok d (f :: ctx) (tchar k) ->
  take (S (length (f :: ctx))) P = path_of (f :: ctx) k ->
  exists fs g rest, right_climb P (length ctx) (tptr k) (fptr f) s =
      Ok ((length rest, tptr (plug fs k), fptr g), s) /\
    f :: ctx = fs ++ g :: rest /\ last_frames fs /\ (rest = [] \/ fright g <> []).
Proof.
  induction ctx as [|f' ctx IH]; intros f k d Hh Hok HP; cbn [right_climb length].
  - exists [], f, []. split; [done|]. split; [done|]. split; [constructor|]. by left.
  - destruct (climb_loads _ _ _ _ _ Hh Hok) as (Hl1 & Hl2 & _ & Hl3 & _).
    rewrite (bind_run _ _ _ _ _ Hl1), (bind_run _ _ _ _ _ Hl2), (bind_run _ _ _ _ _ Hl3).
    destruct (is_nil (fright f)) eqn:E.
    + destruct (fright f) eqn:Er; [|done]. apply take_path in HP as HP'. cbn [length] in HP'.
      assert (vec_at P (Z.of_nat (length ctx)) = Ok (fptr f')) as Hv.
      { apply (vec_at_take P (map fptr (rev ctx))); [|by rewrite length_map, length_rev].
        rewrite length_map, length_rev. exact (take_path _ _ _ _ HP'). }
      rewrite (bind_run _ _ _ _ _ (lift_run _ _ _ Hv)).
      destruct (IH f' (fill f k) (d - 1)) as (fs & g & rest & Hr & Ectx & Hl & Hstop); [done|by destruct Hok|done|].
      exists (f :: fs), g, rest. split; [exact Hr|]. split; [by rewrite Ectx|]. split; [|done]. by constructor.
    + exists [], f, (f' :: ctx). split; [done|]. split; [done|]. split; [constructor|]. right.
      by destruct (fright f).
Qed.
Lemma ctx_ok_app fs ctx : forall d c, ctx_ok d (fs ++ ctx) c ->
  ctx_ok (d - Z.of_nat (length fs)) ctx (top_char fs c).
Proof.
  induction fs as [|f fs IH]; intros d c; cbn [app ctx_ok length top_char]; [by rewrite Z.sub_0_r|].
  intros [_ H%IH]. by replace (d - Z.of_nat (S (length fs))) with (d - 1 - Z.of_nat (length fs)) by lia.
Qed.

Lemma take_path_app P fs ctx k : take (S (length (fs ++ ctx))) P = path_of (fs ++ ctx) k ->
  take (S (length ctx)) P = path_of ctx (plug fs k).
Proof.
  revert k. induction fs as [|f fs IH]; intros k; [done|]. intros H.
  exact (IH (fill f k) (take_path _ _ _ _ H)).
Qed.

(** Moving the focus from [x] to a sibling on its left or right. *)
Definition left_frame (g : frame) (l : list tree) (x : tree) : frame :=
  mk_frame (fptr g) (fnode g) l (x :: fright g).
Definition right_frame (g : frame) (x : tree) (r : list tree) : frame :=
  mk_frame (fptr g) (fnode g) (fleft g ++ [x]) r.

Lemma fill_left g l x y : fleft g = l ++ [y] -> fill (left_frame g l x) y = fill g x.
Proof. intros E. unfold fill, left_frame. cbn. by rewrite E, <- app_assoc. Qed.
Lemma fill_right g r x y : fright g = y :: r -> fill (right_frame g x r) y = fill g x.
Proof. intros E. unfold fill, right_frame. cbn. by rewrite E, <- app_assoc. Qed.

Lemma sibling_ok d g c y : frame_ok d g c -> y ∈ fleft g \/ y ∈ fright g -> wf (d + 1) y /\ inhabited y.
Proof.
  intros [_ _ Hl Hr Hi _ _] Hy. rewrite Forall_forall in *. split; [naive_solver|].
  apply Hi. rewrite elem_of_app. tauto.
Qed.

Lemma path_below rest g fs z : path_of (fs ++ g :: rest) z = path_of rest (fill g z) ++ path_of fs z.
Proof.
  unfold path_of. rewrite rev_app_distr. cbn [rev]. rewrite !map_app. cbn. by rewrite <- !app_assoc.
Qed.

(** The last keyword of a sub-tree on the left of the hole. *)
Lemma left_precedes g rest l x y fs z : fleft g = l ++ [y] -> plug fs z = y -> kids z = [] ->
  isTerminalNode (tnode z) = true -> last_frames fs ->
  precedes (fs ++ left_frame g l x :: rest) z (g :: rest) x.
Proof.
  intros E Hp Hk Ht Hl. split; [|done|].
  - rewrite plug_app, Hp. cbn [plug]. by rewrite (fill_left _ _ _ _ E).
  - rewrite before_app. cbn [before left_frame fnode fleft]. rewrite E, flat_map_app. cbn [flat_map].
    rewrite app_nil_r. rewrite (app_assoc (own _)), map_app, <- !app_assoc. do 2 f_equal.
    assert (ctx_word (left_frame g l x :: rest) (top_char fs (tchar z)) =
      ctx_word rest (character (fnode g)) ++ [tchar y]) as Ew by (cbn; by rewrite <- tchar_plug, Hp).
    rewrite under_kid, <- Ew. set (w := ctx_word (left_frame g l x :: rest) _).
    rewrite <- Hp, entries_plug, last_frames_after, app_nil_r, map_app by done. f_equal.
    destruct z as [q m cs]. cbn in Hk. subst cs. cbn [entries flat_map]. rewrite app_nil_r. unfold own.
    cbn [tnode] in Ht. rewrite Ht. cbn [map]. unfold entry_at. rewrite ctx_word_app. fold w.
    unfold under. cbn. by rewrite app_nil_r.
Qed.

Lemma ctx_root_terminal rest g k : isTerminalNode (tnode (plug (rest ++ [g]) k)) = isTerminalNode (fnode g).
Proof. by rewrite plug_app. Qed.

(** The two ends of a node path. *)
Lemma path_ends f ctx k : let P := path_of (f :: ctx) k in
  take (S (length (f :: ctx))) P = P /\ Z.of_nat (length P) - 1 = Z.of_nat (S (length ctx)) /\
  vec_at P (Z.of_nat (S (length ctx))) = Ok (tptr k) /\
  vec_at P (Z.of_nat (S (length ctx)) - 1) = Ok (fptr f) /\
  Z.to_nat (Z.of_nat (S (length ctx)) - 1) = length ctx.
Proof.
  intros P. assert (take (S (length (f :: ctx))) P = P) as HP by (apply take_ge; unfold P; by rewrite path_of_length).
  unfold P in *. rewrite path_of_length. cbn [length]. split; [done|]. split; [lia|]. split; [|split; [|lia]].
  - apply (vec_at_take _ (map fptr (rev (f :: ctx)))); rewrite length_map, length_rev; [exact HP|done].
  - apply (vec_at_take _ (map fptr (rev ctx))); rewrite length_map, length_rev; [exact (take_path _ _ _ _ HP)|lia].
Qed.

Lemma height_fuel s ctx y : holds s (plug ctx y) -> (height y <= S (depth_fuel s))%nat /\ shape (nodes s) y.
Proof.
  intros [Hs Hnd _]. apply shape_plug in Hs as [_ Hs]. split; [|done].
  rewrite ptrs_plug in Hnd. apply NoDup_app in Hnd as (_ & _ & Hnd).
  pose proof (height_size _ _ Hs Hnd). unfold depth_fuel. lia.
Qed.

Lemma left_sibling_run s g rest x d l y : holds s (plug (g :: rest) x) -> frame_ok d g (tchar x) ->
  fleft g = l ++ [y] ->
  exists fs z l', rightmost_path (depth_fuel s) (tptr y) s = Ok (l', s) /\ path_of fs z = tptr y :: l' /\
    precedes (fs ++ left_frame g l x :: rest) z (g :: rest) x.
Proof.
  intros Hh Hok E. assert (y ∈ fleft g) as Hy by (rewrite E; set_solver).
  destruct (sibling_ok _ _ _ _ Hok (or_introl Hy)) as [Hwy Hiy].
  destruct (height_fuel s (left_frame g l x :: rest) y) as [Hhy Hsy].
  { cbn [plug]. by rewrite (fill_left _ _ _ _ E). }
  destruct (rightmost_run y (depth_fuel s) s _ Hsy Hwy Hiy Hhy) as (fs & z & l' & Hr & Hp & Hpath & Hk & Ht & Hl).
  exists fs, z, l'. split; [done|]. split; [done|]. by apply (left_precedes _ _ _ _ y).
Qed.

Lemma right_sibling_run s g rest x d y r : holds s (plug (g :: rest) x) -> frame_ok d g (tchar x) ->
  fright g = y :: r ->
  exists fs z, extendTnpFromTrieNode (depth_fuel s) (tptr y) s = Ok (path_of fs z, s) /\
    plug (fs ++ right_frame g x r :: rest) z = plug (g :: rest) x /\ isTerminalNode (tnode z) = true /\
    before (fs ++ right_frame g x r :: rest) (tchar z) = before (g :: rest) (tchar x) ++
      map (under (ctx_word (g :: rest) (tchar x))) (entries x).
Proof.
  intros Hh Hok E. assert (y ∈ fright g) as Hy by (rewrite E; set_solver).
  destruct (sibling_ok _ _ _ _ Hok (or_intror Hy)) as [Hwy Hiy].
  destruct (height_fuel s (right_frame g x r :: rest) y) as [Hhy Hsy].
  { cbn [plug]. by rewrite (fill_right _ _ _ _ E). }
  destruct (extend_run y (depth_fuel s) s _ Hsy Hwy Hiy Hhy) as (fs & z & Hr & Hp & Ht & Hl).
  exists fs, z. split; [done|]. split; [|split; [done|]].
  - rewrite plug_app, Hp. cbn [plug]. by rewrite (fill_right _ _ _ _ E).
  - rewrite before_app, (first_frames_before fs), app_nil_r by done. cbn [before right_frame fnode fleft ctx_word].
    rewrite flat_map_app. cbn [flat_map]. rewrite app_nil_r, (app_assoc (own _)), map_app, <- !app_assoc.
    by rewrite under_kid.
Qed.

(** [getLeftTnp] ends at the word right before, or finds that there is none. *)
Lemma getLeftTnp_run s ctx k d : holds s (plug ctx k) -> ctx_ok d ctx (tchar k) -> ctx <> [] ->
  isTerminalNode (tnode (plug ctx k)) = false ->
  exists r, getLeftTnp (path_of ctx k) s = Ok (r, s) /\
    match r with
    | None => before ctx (tchar k) = []
    | Some p => exists ctx' k', p = path_of ctx' k' /\ precedes ctx' k' ctx k
    end.
Proof.
  intros Hh Hok Hne Hroot. destruct ctx as [|f ctx]; [done|]. unfold getLeftTnp.
  destruct (path_ends f ctx k) as (HP & -> & Hv1 & Hv2 & E). rewrite E.
  rewrite (bind_run _ _ _ _ _ (lift_run _ _ _ Hv1)), (bind_run _ _ _ _ _ (lift_run _ _ _ Hv2)).
  destruct (left_climb_run s _ ctx f k d Hh Hok HP) as (fs & g & rest & Hr & Ectx & Hb & Hstop).
  rewrite (bind_run _ _ _ _ _ Hr). rewrite Ectx in *. set (x := plug fs k) in *. clear Hr Hv1 Hv2 E.
  pose proof (take_path_app _ fs (g :: rest) k HP) as HPg. fold x in HPg. apply take_path in HPg.
  apply ctx_ok_app in Hok as Hokg. rewrite <- tchar_plug in Hokg. fold x in Hokg.
  rewrite plug_app in Hh, Hroot. fold x in Hh, Hroot.
  destruct (climb_loads _ _ _ _ _ Hh Hokg) as (Hl1 & Hl2 & Hl3 & _ & Hpos & Hfill).
  rewrite (bind_run _ _ _ _ _ Hl1), (bind_run _ _ _ _ _ Hl2), (bind_run _ _ _ _ _ Hl3).
  pose proof (ctx_ok_length _ _ _ Hokg) as Hlen. cbn [length] in Hlen. destruct Hokg as [Hfok _].
  assert (getDepth (fnode g) = Z.of_nat (length rest)) as -> by (rewrite (fo_depth _ _ _ Hfok); lia).
  destruct (decide (fleft g = [])) as [El|Hnl].
  - rewrite El. destruct rest as [|g2 rest].
    + exists None. split; [done|]. rewrite Hb. cbn. rewrite El. unfold own. cbn in Hroot. by rewrite Hroot.
    + destruct (Z.eqb_spec (Z.of_nat (length (g2 :: rest))) 0); [done|].
      assert (isTerminalNode (fnode g) = true) as Ht by (by destruct Hstop as [|[|]]).
      rewrite Ht. eexists. split; [reflexivity|]. exists (g2 :: rest), (fill g x).
      split; [done|]. split; [by rewrite plug_app|done|]. rewrite Hb. cbn [before]. rewrite El, app_nil_r.
      f_equal. by apply (under_own_entry (g2 :: rest) (fill g x)).
  - assert (is_nil (fleft g) = false) as -> by (by destruct (fleft g)). rewrite !andb_false_r.
    destruct (exists_last Hnl) as (l & y & E). rewrite (bind_run _ _ _ _ _ Hpos), E, length_app. cbn [length].
    rewrite (bind_run (assert_ _) _ _ tt s) by (apply assert_run, Z.leb_le; lia).
    replace (Z.of_nat (length l + 1) - 1) with (Z.of_nat (length l)) by lia.
    assert (getChild (fnode g) (Z.of_nat (length l)) = Ok (tptr y)) as Hg.
    { eapply (getChild_run _ _ l x (y :: x :: fright g) Hfill); [|done]. by rewrite E, <- app_assoc. }
    rewrite (bind_run _ _ _ _ _ (lift_run _ _ _ Hg)), (bind_run (reads depth_fuel) _ s (depth_fuel s) s) by done.
    destruct (left_sibling_run s g rest x _ l y Hh Hfok E) as (fs' & z & l' & Hr & Hpath & [A B C]).
    rewrite (bind_run _ _ _ _ _ Hr). eexists. split; [reflexivity|].
    exists (fs' ++ left_frame g l x :: rest), z. split.
    + rewrite (path_below rest (left_frame g l x)), Hpath. f_equal. exact HPg.
    + split; [by rewrite A, plug_app|done|by rewrite Hb].
Qed.

(** The words of a sub-tree that start with the focus, which has no children. *)
Lemma entries_focus fs k : last_frames fs -> kids k = [] ->
  entries (plug fs k) = before fs (tchar k) ++ map (under (ctx_word fs (tchar k))) (own (tnode k)).
Proof.
  intros Hl Hk. rewrite entries_plug, last_frames_after, app_nil_r by done. do 2 f_equal.
  destruct k as [p n cs]. cbn in Hk. subst cs. cbn. apply app_nil_r.
Qed.

(** The first keyword below a keyword. *)
Lemma first_kid_run s ctx p n x cs d : holds s (plug ctx (Tree p n (x :: cs))) -> wf d (Tree p n (x :: cs)) ->
  exists fs z, extendTnpFromTrieNode (depth_fuel s) (tptr x) s = Ok (path_of fs z, s) /\
    follows (fs ++ mk_frame p n [] cs :: ctx) z ctx (Tree p n (x :: cs)).
Proof.
  intros Hh Hw. destruct (height_fuel s (mk_frame p n [] cs :: ctx) x Hh) as [Hhx Hsx].
  inversion Hw as [? ? ? ? _ _ Hws His _ _]; subst. inversion_clear Hws. inversion_clear His.
  destruct (extend_run x (depth_fuel s) s (d + 1)) as (fs & z & Hr & Hp & Ht & Hl); [done..|].
  exists fs, z. split; [done|]. split; [by rewrite plug_app, Hp|done|].
  rewrite before_app, (first_frames_before fs), app_nil_r by done. cbn. by rewrite app_nil_r.
Qed.

Lemma entries_at ctx k : isTerminalNode (tnode k) = true ->
  entries (plug ctx k) = before ctx (tchar k) ++ entry_at ctx k ::
    map (under (ctx_word ctx (tchar k))) (flat_map kid_entries (kids k)) ++ after ctx (tchar k).
Proof.
  intros Ht. rewrite entries_plug. f_equal. destruct k as [p n cs]. rewrite entries_own by done.
  cbn [map app]. by rewrite under_own.
Qed.

(** [getRightTnp], from a keyword or from a node without children, ends at the
    word right after, or finds that there is none. *)
Lemma getRightTnp_run s ctx k d : holds s (plug ctx k) -> ctx_ok d ctx (tchar k) -> ctx <> [] ->
  isTerminalNode (tnode k) = true /\ wf d k \/ kids k = [] ->
  exists r, getRightTnp (path_of ctx k) s = Ok (r, s) /\
    match r with
    | None => kids k = [] /\ after ctx (tchar k) = []
    | Some p => exists ctx' k', p = path_of ctx' k' /\ follows ctx' k' ctx k
    end.
Proof.
  intros Hh Hok Hne Hk. destruct ctx as [|f ctx]; [done|]. unfold getRightTnp.
  destruct (path_ends f ctx k) as (HP & -> & Hv1 & Hv2 & E). rewrite E.
  rewrite (bind_run _ _ _ _ _ (lift_run _ _ _ Hv1)).
  destruct (climb_loads _ _ _ _ _ Hh Hok) as (_ & Hlk & _). rewrite (bind_run _ _ _ _ _ Hlk).
  rewrite (bind_run (reads depth_fuel) _ s (depth_fuel s) s) by done. unfold getChildrenCount.
  destruct (shape_kids _ _ _ (h_shape _ _ Hh)) as [Hch _]. rewrite Hch, length_map.
  destruct (decide (kids k = [])) as [Ek|Hkids].
  - rewrite Ek, andb_false_r. clear Hk. rewrite (bind_run _ _ _ _ _ (lift_run _ _ _ Hv2)).
    destruct (right_climb_run s _ ctx f k d Hh Hok HP) as (fs & g & rest & Hr & Ectx & Hl & Hstop).
    rewrite (bind_run _ _ _ _ _ Hr). rewrite Ectx in *. clear Hr Hv1 Hv2 E.
    pose proof (entries_focus fs k Hl Ek) as Hent. set (x := plug fs k) in *.
    pose proof (take_path_app _ fs (g :: rest) k HP) as HPg. fold x in HPg. apply take_path in HPg.
    apply ctx_ok_app in Hok as Hokg. rewrite <- tchar_plug in Hokg. fold x in Hokg.
    rewrite plug_app in Hh. fold x in Hh.
    destruct (climb_loads _ _ _ _ _ Hh Hokg) as (Hl1 & Hl2 & _ & Hl3 & Hpos & Hfill).
    rewrite (bind_run _ _ _ _ _ Hl1), (bind_run _ _ _ _ _ Hl2), (bind_run _ _ _ _ _ Hl3).
    destruct Hokg as [Hfok _]. destruct (fright g) as [|y r] eqn:Er; cbn [is_nil].
    + assert (rest = []) as -> by (by destruct Hstop). exists None. split; [done|]. split; [done|].
      rewrite after_app, last_frames_after by done. cbn. by rewrite Er.
    + rewrite andb_false_r. rewrite (bind_run _ _ _ _ _ Hpos).
      rewrite (bind_run (assert_ _) _ _ tt s) by (apply assert_run, Z.leb_le; lia).
      unfold getChildrenCount. pose proof Hfill as Hch'. apply shape_fill in Hch' as ((_ & _ & Hch' & _) & _).
      rewrite Hch', length_map, length_app, Er. cbn [length].
      rewrite (bind_run (assert_ _) _ _ tt s) by (apply assert_run, Z.leb_le; lia).
      replace (Z.of_nat (length (fleft g)) + 1) with (Z.of_nat (length (fleft g ++ [x]))) by (rewrite length_app; cbn; lia).
      assert (getChild (fnode g) (Z.of_nat (length (fleft g ++ [x]))) = Ok (tptr y)) as Hg.
      { eapply (getChild_run _ _ (fleft g ++ [x]) x (y :: r) Hfill); [|done]. by rewrite Er, <- app_assoc. }
      rewrite (bind_run _ _ _ _ _ (lift_run _ _ _ Hg)).
      destruct (right_sibling_run s g rest x _ y r Hh Hfok Er) as (fs' & z & Hr & Htree & Ht & Hbz).
      rewrite (bind_run _ _ _ _ _ Hr). eexists. split; [reflexivity|].
      exists (fs' ++ right_frame g x r :: rest), z. split.
      * rewrite (path_below rest (right_frame g x r)). f_equal. rewrite HPg. unfold path_of. done.
      * split; [by rewrite Htree, plug_app|done|].
        rewrite Hbz, Hent, map_app, app_assoc, before_app, ctx_word_app, under_app. unfold x.
        by rewrite tchar_plug.
  - destruct Hk as [[Ht Hwk]|]; [|done]. rewrite Ht. destruct k as [p n [|x cs]]; [done|]. cbn [tptr tnode kids length map] in *.
    destruct (Z.ltb_spec 0 (Z.of_nat (S (length cs)))); [|lia]. cbn [andb].
    assert (getChild n 0 = Ok (tptr x)) as Hg by (unfold getChild; by rewrite Hch).
    rewrite (bind_run _ _ _ _ _ (lift_run _ _ _ Hg)).
    destruct (first_kid_run s (f :: ctx) p n x cs d Hh Hwk) as (fs & z & Hr & Hfol).
    rewrite (bind_run _ _ _ _ _ Hr). eexists. split; [reflexivity|].
    exists (fs ++ mk_frame p n [] cs :: f :: ctx), z. split; [|done].
    by rewrite (path_below (f :: ctx) (mk_frame p n [] cs)).
Qed.
(** From the path of a keyword, [getLeftTnp] and [getRightTnp] lead to the
    paths of the keywords right before and right after it in the lexicographic
    order of the trie, and answer [false] at the two ends. *)
Theorem neighbours_adjacent (s : trie) (t : tree) (ctx : list frame) (k : tree) :
  represents s t -> ~ In [] (words t) -> plug ctx k = t -> isTerminalNode (tnode k) = true ->
  exists l1 l2 rl rr, entries t = l1 ++ entry_at ctx k :: l2 /\
    getLeftTnp (path_of ctx k) s = Ok (rl, s) /\ getRightTnp (path_of ctx k) s = Ok (rr, s) /\
    match rl with
    | None => l1 = []
    | Some p => exists ctx' k' l1', p = path_of ctx' k' /\ plug ctx' k' = t /\ l1 = l1' ++ [entry_at ctx' k']
    end /\
    match rr with
    | None => l2 = []
    | Some p => exists ctx' k' l2', p = path_of ctx' k' /\ plug ctx' k' = t /\ l2 = entry_at ctx' k' :: l2'
    end.
Proof.
  intros [Hh _ Hw] Hnil <- Ht. pose proof (rooted_nonterminal _ Hnil) as Hroot.
  apply wf_plug in Hw as (d & Hok & _ & Hwk & _).
  assert (ctx <> []) as Hne by (intros ->; cbn in Hroot; congruence).
  destruct (getLeftTnp_run s ctx k d Hh Hok Hne Hroot) as (rl & Hrl & Hl).
  destruct (getRightTnp_run s ctx k d Hh Hok Hne (or_introl (conj Ht Hwk))) as (rr & Hrr & Hr).
  pose proof (entries_at ctx k Ht) as E.
  eexists _, _, rl, rr. split; [exact E|]. split; [done|]. split; [done|]. split.
  - destruct rl as [p|]; [|done]. destruct Hl as (ctx' & k' & -> & [Htr Ht' Hb]). exists ctx', k'. eauto.
  - destruct rr as [p|].
    + destruct Hr as (ctx' & k' & -> & [Htr Ht' Hb]). exists ctx', k'. eexists. split; [done|]. split; [done|].
      rewrite <- Htr in E at 1. rewrite (entries_at ctx' k' Ht'), Hb, (under_own_entry _ _ Ht) in E.
      rewrite <- app_assoc in E. apply app_inv_head in E. cbn in E. injection E as E. by symmetry.
    + destruct Hr as [-> ->]. done.
Qed.

Definition demo_ctx : list frame :=
  match demo_tree with Tree p n [x; y] => [mk_frame p n [x] []] | _ => [] end.
Definition demo_kid : tree :=
  match demo_tree with Tree p n [x; y] => y | t => t end.

Lemma neighbours_adjacent_witness : exists p, getLeftTnp (path_of demo_ctx demo_kid) demo = Ok (Some p, demo).
Proof.
  destruct (neighbours_adjacent demo demo_tree demo_ctx demo_kid) as (l1 & l2 & rl & rr & E & Hl & _ & Hm & _).
  - exact demo_represents.
  - vm_compute. intros [H|[H|[H|[]]]]; discriminate H.
  - vm_compute. reflexivity.
  - vm_compute. reflexivity.
  - destruct rl as [p|]; [by exists p|]. subst l1. vm_compute in E. discriminate E.
Defined.
End TrieNeighbours.
