(* ===== verification/TrieViews.v ===== *)
(** * Commit, merge and the read views of the trie (core/index/Trie.cpp)

    The end of the bulk load gives every keyword its final id; a merge publishes
    the write view as a new read view and retires the old one.  A view is held by
    a shared pointer: the trie, the queue of old views and the readers each count
    one reference, and the last one to go deletes the view with its free list. *)
From S2P Require Import Prelude TrieNode Trie TrieTree TrieInsert.
From Stdlib Require Import ZArith Lia List Bool Sorted.
From stdpp Require Import base gmap list fin_maps.
Open Scope Z_scope.

Module TrieViews.
Import TrieNode Trie TrieTree TrieInsert.

Definition set_writeview (p : ptr) : tst unit := modify (fun t =>
  mk_trie (nodes t) (views t) (readers t) (root_readview t) p (oldReadViewQueue t)
    (terminalNodes t) (counterForReassignedKeywordIds t) (trieNodesToReassign t)
    (oldIdToNewIdMapVector t) (commited t) (mergeRequired t) (emptyLeafNodeIds t)).
Definition set_readview (v : ptr) : tst unit := modify (fun t =>
  mk_trie (nodes t) (views t) (readers t) v (root_writeview t) (oldReadViewQueue t)
    (terminalNodes t) (counterForReassignedKeywordIds t) (trieNodesToReassign t)
    (oldIdToNewIdMapVector t) (commited t) (mergeRequired t) (emptyLeafNodeIds t)).
Definition set_queue (q : list ptr) : tst unit := modify (fun t =>
  mk_trie (nodes t) (views t) (readers t) (root_readview t) (root_writeview t) q
    (terminalNodes t) (counterForReassignedKeywordIds t) (trieNodesToReassign t)
    (oldIdToNewIdMapVector t) (commited t) (mergeRequired t) (emptyLeafNodeIds t)).
Definition set_readers (m : gmap ptr nat) : tst unit := modify (fun t =>
  mk_trie (nodes t) (views t) m (root_readview t) (root_writeview t) (oldReadViewQueue t)
    (terminalNodes t) (counterForReassignedKeywordIds t) (trieNodesToReassign t)
    (oldIdToNewIdMapVector t) (commited t) (mergeRequired t) (emptyLeafNodeIds t)).
Definition set_oldIdToNew (v : option (list Z)) : tst unit := modify (fun t =>
  mk_trie (nodes t) (views t) (readers t) (root_readview t) (root_writeview t) (oldReadViewQueue t)
    (terminalNodes t) (counterForReassignedKeywordIds t) (trieNodesToReassign t)
    v (commited t) (mergeRequired t) (emptyLeafNodeIds t)).
Definition set_commited (b : bool) : tst unit := modify (fun t =>
  mk_trie (nodes t) (views t) (readers t) (root_readview t) (root_writeview t) (oldReadViewQueue t)
    (terminalNodes t) (counterForReassignedKeywordIds t) (trieNodesToReassign t)
    (oldIdToNewIdMapVector t) b (mergeRequired t) (emptyLeafNodeIds t)).

Definition delete_node (p : ptr) : tst unit :=
  let! h := reads nodes in let! h' := lift (s_delete h p) in set_nodes h'.
Definition load_view (v : ptr) : tst view := let! vs := reads views in lift (s_load vs v).
Definition store_view (v : ptr) (x : view) : tst unit :=
  let! vs := reads views in let! vs' := lift (s_store vs v x) in set_views vs'.

(** A tree has at most as many levels as the store has nodes. *)
Definition tree_fuel (t : trie) : nat := S (size (cells (nodes t))).

Definition resetCopyFlags (p : ptr) : tst unit :=
  let! fuel := reads tree_fuel in
  let! h := reads nodes in
  let! h' := lift (resetCopyFlag fuel p h) in set_nodes h'.

(** ** Commit *)

(** [oldIdToNewIdMapVector->at(i) = x] *)
Definition record_id (i x : Z) : tst unit :=
  let! v := reads oldIdToNewIdMapVector in
  match v with
  | None => fail NullDeref
  | Some l => let! l' := lift (vec_set l i x) in set_oldIdToNew (Some l')
  end.

(** Gives the node [p] the next id; the counter that results is returned. *)
Definition renumber_node (p : ptr) (finalKeywordIdCounter sparsity : Z) : tst Z :=
  let! n := load_node p in
  if isTerminalNode n then
    let sparseNewNodeId := wrap32 (wrap32 (finalKeywordIdCounter + 1) * sparsity) in
    record_id (id n) sparseNewNodeId ;;;
    store_node p (with_counters (with_id n sparseNewNodeId)
      (setRightInsertCounter (setLeftInsertCounter (insertCounters n) 1) 1)) ;;;
    ret (wrap32 (finalKeywordIdCounter + 1))
  else ret finalKeywordIdCounter.

Fixpoint commitSubTrie (fuel : nat) (p : ptr) (finalKeywordIdCounter sparsity : Z) : tst Z :=
  match fuel with
  | O => fail OutOfFuel
  | S fuel' =>
      assert_ (negb (bool_decide (p = NULL))) ;;;
      let! counter := renumber_node p finalKeywordIdCounter sparsity in
      let! n := load_node p in
      fold_st (childrenPointerList n)
        (fun counter q => commitSubTrie fuel' q counter sparsity) counter
  end.

Definition sparsityFactor (numberOfTerminalNodes : Z) : Z :=
  MAX_ALLOCATED_KEYWORD_ID /
    (if 1 <? numberOfTerminalNodes then wrap32 (numberOfTerminalNodes + 5) else 5).

Definition commit : tst unit :=
  let! committed := reads commited in
  assert_ (negb committed) ;;;
  let! v := reads root_readview in
  let! x := load_view v in
  delete_node (root x) ;;;
  let! w := reads root_writeview in
  resetCopyFlags w ;;;
  store_view v (mk_view (free_list x) w) ;;;
  let! r := load_node w in
  let! w' := alloc_node (copy_node r false) in
  set_writeview w' ;;;
  let! k := reads terminalNodes in
  set_oldIdToNew (Some (replicate (Z.to_nat k) 0)) ;;;
  let! fuel := reads tree_fuel in
  commitSubTrie fuel w 0 (sparsityFactor k) ;;;
  ret tt.

Definition deleteOldIdToNewIdMapVector : tst unit := set_oldIdToNew None.

(** ** References to views *)

(** How many shared pointers hold the view [v]. *)
Definition use_count (t : trie) (v : ptr) : nat :=
  ((if bool_decide (root_readview t = v) then 1 else 0) +
   length (List.filter (fun q => bool_decide (q = v)) (oldReadViewQueue t)) +
   default 0%nat (readers t !! v))%nat.

(** [~TrieRootNodeAndFreeList] *)
Definition destroy_view (v : ptr) : tst unit :=
  let! x := load_view v in
  for_each (free_list x) delete_node ;;;
  delete_node (root x) ;;;
  let! vs := reads views in let! vs' := lift (s_delete vs v) in set_views vs'.

(** A reference to [v] has gone: the last one destroys the view. *)
Definition dropped (v : ptr) : tst unit :=
  let! k := reads (fun t => use_count t v) in
  if Nat.eqb k 0 then destroy_view v else ret tt.

(** A reader takes a reference ([getTrieRootNode_ReadView]) and gives it back. *)
Definition getTrieRootNode_ReadView : tst ptr :=
  let! v := reads root_readview in
  let! m := reads readers in
  set_readers (<[v := S (default 0%nat (m !! v))]> m) ;;;
  ret v.
Definition release_ReadView (v : ptr) : tst unit :=
  let! m := reads readers in
  set_readers (<[v := pred (default 0%nat (m !! v))]> m) ;;;
  dropped v.

(** ** Merge *)

(** [while(!queue.empty() && queue.front().unique()) queue.pop()] *)
Fixpoint pop_unique (fuel : nat) : tst unit :=
  let! q := reads oldReadViewQueue in
  match q with
  | [] => ret tt
  | v :: q' =>
      let! k := reads (fun t => use_count t v) in
      if Nat.eqb k 1 then
        match fuel with
        | O => fail OutOfFuel
        | S fuel' => set_queue q' ;;; dropped v ;;; pop_unique fuel'
        end
      else ret tt
  end.

(** [histogram] is the refresh of the histogram values when [updateHistogram]
    is set, and nothing otherwise. *)
Definition merge (histogram : tst unit) : tst unit :=
  let! w := reads root_writeview in
  resetCopyFlags w ;;;
  histogram ;;;
  let! v := reads root_readview in
  let! q := reads oldReadViewQueue in
  set_queue (q ++ [v]) ;;;
  let! r := load_node w in
  let! root' := alloc_node (copy_node r false) in
  let! vs := reads views in
  let (v', vs') := s_new vs (mk_view [] root') in
  set_views vs' ;;;
  set_readview v' ;;;
  let! q := reads oldReadViewQueue in
  pop_unique (length q) ;;;
  delete_node w ;;;
  let! r := load_node root' in
  let! w' := alloc_node (copy_node r false) in
  set_writeview w' ;;;
  set_mergeRequired false.

Definition finalCommit_finalizeHistogramInformation (histogram : tst unit) : tst unit :=
  histogram ;;; set_commited true.

(** ** Ids of empty leaves *)

Definition set_emptyLeafNodeIds (l : list Z) : tst unit := modify (fun t =>
  mk_trie (nodes t) (views t) (readers t) (root_readview t) (root_writeview t) (oldReadViewQueue t)
    (terminalNodes t) (counterForReassignedKeywordIds t) (trieNodesToReassign t)
    (oldIdToNewIdMapVector t) (commited t) (mergeRequired t) l).

Definition addEmptyLeafNodeId (i : Z) : tst unit :=
  let! l := reads emptyLeafNodeIds in set_emptyLeafNodeIds (l ++ [i]).

(** Only the first occurrence goes. *)
Fixpoint remove_first (i : Z) (l : list Z) : list Z :=
  match l with
  | [] => []
  | x :: l' => if x =? i then l' else x :: remove_first i l'
  end.
Definition removeEmptyLeafNodeId (i : Z) : tst unit :=
  let! l := reads emptyLeafNodeIds in set_emptyLeafNodeIds (remove_first i l).

Definition applyKeywordIdMapperOnEmptyLeafNodes (keywordIdMapper : gmap Z Z) : tst unit :=
  let! l := reads emptyLeafNodeIds in
  set_emptyLeafNodeIds (map (fun i => default i (keywordIdMapper !! i)) l).

(** ** What the traversals do to a tree *)

Record same_outside (l : list ptr) (h h' : heap) : Prop := {
  so_cells : forall p, p ∉ l -> cells h' !! p = cells h !! p;
  so_next : next_addr h' = next_addr h;
  so_wf : store_wf h -> store_wf h' }.

Lemma same_outside_refl l h : same_outside l h h.
Proof. done. Qed.

Lemma same_outside_trans l1 l2 h1 h2 h3 :
  same_outside l1 h1 h2 -> same_outside l2 h2 h3 -> same_outside (l1 ++ l2) h1 h3.
Proof.
  intros [A1 B1 C1] [A2 B2 C2]. split; [|by rewrite B2|auto].
  intros p Hp. rewrite not_elem_of_app in Hp. destruct Hp. rewrite A2, A1 by done. done.
Qed.

Lemma same_outside_mono l l' h h' : (forall p, p ∈ l -> p ∈ l') -> same_outside l h h' -> same_outside l' h h'.
Proof. intros Hl [A B C]. split; [|done|done]. intros p Hp. apply A. naive_solver. Qed.

Lemma same_outside_update p n n' h : cells h !! p = Some n -> same_outside [p] h (update h p n').
Proof.
  intros Hp. split; [|done|].
  - intros q Hq. cbn. rewrite lookup_insert_ne; [done|]. intros ->. apply Hq. set_solver.
  - intros Hwf. by eapply node_update_wf.
Qed.

Lemma shapes_outside l h h' ts : same_outside l h h' -> Forall (shape h) ts ->
  (forall p, p ∈ flat_map ptrs ts -> p ∉ l) -> Forall (shape h') ts.
Proof. intros [A _ _] Hs Hd. eapply shapes_frame_rule; [|exact Hs]. intros p Hp. apply A. by apply Hd. Qed.

(** The copy flags are cleared from the root down, as far as there are copies. *)
Fixpoint reset (t : tree) : tree :=
  match t with
  | Tree p n cs =>
      Tree p (with_isCopy n false) (map (fun k => if isCopy (tnode k) then reset k else k) cs)
  end.

Lemma reset_similar t : similar t (reset t).
Proof.
  induction t as [p n cs IH] using tree_ind'. cbn. constructor; [done|].
  induction IH as [|k cs Hk _ IH]; cbn; constructor; [|done].
  destruct (isCopy (tnode k)); [done|apply similar_refl].
Qed.

Lemma reset_entries t : entries (reset t) = entries t.
Proof.
  induction t as [p n cs IH] using tree_ind'. cbn [reset entries]. f_equal.
  induction IH as [|k cs Hk _ IH]; cbn; [done|]. rewrite IH. f_equal.
  destruct (isCopy (tnode k)); [|done]. rewrite Hk. by destruct k.
Qed.

Lemma kids_nodup p n cs : NoDup (ptrs (Tree p n cs)) -> p ∉ flat_map ptrs cs /\ NoDup (flat_map ptrs cs).
Proof. cbn. by intros [? ?]%NoDup_cons. Qed.

Lemma shape_overwrite h p n n' cs : shape h (Tree p n cs) -> NoDup (ptrs (Tree p n cs)) ->
  childrenPointerList n' = childrenPointerList n ->
  s_store h p n' = Ok (update h p n') /\ shape (update h p n') (Tree p n' cs) /\
  same_outside [p] h (update h p n').
Proof.
  intros Hs Hnd Hch. split; [exact (shape_store h [] (Tree p n cs) n' Hs)|].
  split; [by apply (shape_update h [] p n)|]. eapply same_outside_update. by inversion Hs.
Qed.

Lemma NoDup_flat_map {A B} (f : A -> list B) l : NoDup (flat_map f l) -> Forall (fun x => NoDup (f x)) l.
Proof. induction l as [|x l IH]; cbn; [constructor|]. intros (? & _ & ?)%NoDup_app. constructor; auto. Qed.

(** A traversal that treats the children one after the other. *)
Lemma fold_kids (body : heap -> ptr -> result heap) (F : tree -> tree) cs :
  Forall (fun k => (forall h, shape h k -> exists h', body h (tptr k) = Ok h' /\ shape h' (F k) /\
    same_outside (ptrs k) h h') /\ ptrs (F k) = ptrs k) cs -> NoDup (flat_map ptrs cs) ->
  forall h, Forall (shape h) cs -> exists h', fold_res (map tptr cs) body h = Ok h' /\
    Forall (shape h') (map F cs) /\ same_outside (flat_map ptrs cs) h h'.
Proof.
  induction 1 as [|k cs [Hk Hp] _ IH]; intros Hnd h Hcs.
  - exists h. split; [done|]. split; [constructor|done].
  - cbn [map fold_res flat_map] in *. inversion_clear Hcs as [|? ? Hsk Hcs'].
    apply NoDup_app in Hnd as (_ & Hdis & Hndk).
    destruct (Hk h Hsk) as (h2 & -> & Hs2 & Ho2). cbn [rbind].
    assert (Forall (shape h2) cs) as Hcs2.
    { eapply shapes_outside; [exact Ho2|exact Hcs'|]. intros q Hq Hq'. by apply (Hdis q). }
    destruct (IH Hndk h2 Hcs2) as (h3 & -> & Hcs3 & Ho3).
    exists h3. split; [done|]. split; [|by eapply same_outside_trans].
    constructor; [|done]. apply (shape_frame_rule h2); [|done]. intros q Hq. apply (so_cells _ _ _ Ho3).
    rewrite Hp in Hq. by apply Hdis.
Qed.

Lemma map_reset_ptr cs : map tptr (map (fun k => if isCopy (tnode k) then reset k else k) cs) = map tptr cs.
Proof. rewrite map_map. apply map_ext. intros k. destruct (isCopy (tnode k)); [by destruct k|done]. Qed.

Lemma resetCopyFlag_run t : forall fuel h, shape h t -> NoDup (ptrs t) -> (height t <= fuel)%nat ->
  exists h', resetCopyFlag fuel (tptr t) h = Ok h' /\ shape h' (reset t) /\ same_outside (ptrs t) h h'.
Proof.
  induction t as [p n cs IH] using tree_ind'. intros fuel h Hs Hnd Hf.
  destruct fuel as [|fuel]; [cbn in Hf; lia|]. apply height_kids in Hf. cbn [resetCopyFlag tptr].
  rewrite (shape_load_root _ _ Hs : s_load h p = Ok n). cbn [rbind].
  destruct (shape_overwrite h p n (with_isCopy n false) cs Hs Hnd eq_refl) as (-> & Hs1 & Ho1). cbn [rbind].
  assert (childrenPointerList n = map tptr cs) as -> by (by inversion Hs).
  destruct (kids_nodup _ _ _ Hnd) as [Hp Hndk].
  assert (Forall (shape (update h p (with_isCopy n false))) cs) as Hcs by (by inversion Hs1).
  destruct (fold_kids (fun h q => if bool_decide (q = NULL) then Ok h else
      let? c := s_load h q in if isCopy c then resetCopyFlag fuel q h else Ok h)
    (fun k => if isCopy (tnode k) then reset k else k) cs) with (h := update h p (with_isCopy n false))
    as (h' & Hrun & Hcs' & Ho'); [|done|done|].
  - pose proof (NoDup_flat_map _ _ Hndk) as Hnds. rewrite Forall_forall in *. intros k Hk. split.
    + intros h1 Hsk. rewrite bool_decide_false by (by eapply shape_nonnull).
      rewrite (shape_load_root _ _ Hsk). cbn [rbind]. destruct (isCopy (tnode k)); [|by exists h1].
      apply IH; auto.
    + destruct (isCopy (tnode k)); [|done]. symmetry. by rewrite (similar_ptrs _ _ (reset_similar k)).
  - exists h'. split; [exact Hrun|]. split.
    + cbn [reset]. inversion Hs1 as [? ? ? Hnn Hlk Hch _]; subst. constructor; [done| | |done].
      * rewrite (so_cells _ _ _ Ho') by done. exact Hlk.
      * by rewrite map_reset_ptr.
    + cbn [ptrs]. by apply (same_outside_trans [p] _ _ (update h p (with_isCopy n false))).
Qed.
(** ** The ids that a commit hands out *)

Definition sparse_id (sparsity i : Z) : Z := wrap32 (wrap32 (i + 1) * sparsity).

(** The entries numbered from [c] on, and the translation of the old ids. *)
Fixpoint renumber (c sp : Z) (l : list (list Z * (Z * Z))) : list (list Z * (Z * Z)) :=
  match l with
  | [] => []
  | e :: l' => (e.1, (sparse_id sp c, e.2.2)) :: renumber (c + 1) sp l'
  end.
Fixpoint translate (c sp : Z) (l : list (list Z * (Z * Z))) (v : list Z) : list Z :=
  match l with
  | [] => v
  | e :: l' => translate (c + 1) sp l' (<[Z.to_nat e.2.1 := sparse_id sp c]> v)
  end.
Definition ids_below (k : nat) (l : list (list Z * (Z * Z))) : Prop :=
  Forall (fun e => 0 <= e.2.1 < Z.of_nat k) l.

Lemma renumber_app c sp l1 l2 :
  renumber c sp (l1 ++ l2) = renumber c sp l1 ++ renumber (c + Z.of_nat (length l1)) sp l2.
Proof.
  revert c. induction l1 as [|e l1 IH]; intros c; cbn [app renumber length]; [by rewrite Z.add_0_r|].
  rewrite IH. do 3 f_equal. lia.
Qed.
Lemma translate_app c sp l1 l2 v :
  translate c sp (l1 ++ l2) v = translate (c + Z.of_nat (length l1)) sp l2 (translate c sp l1 v).
Proof.
  revert c v. induction l1 as [|e l1 IH]; intros c v; cbn [app translate length]; [by rewrite Z.add_0_r|].
  rewrite IH. f_equal. lia.
Qed.
Lemma translate_length c sp l v : length (translate c sp l v) = length v.
Proof. revert c v. induction l as [|e l IH]; intros c v; cbn; [done|]. by rewrite IH, length_insert. Qed.
Lemma renumber_length c sp l : length (renumber c sp l) = length l.
Proof. revert c. induction l as [|e l IH]; intros c; cbn; auto. Qed.
Lemma length_kid k : length (kid_entries k) = length (entries k).
Proof. apply length_map. Qed.
Lemma renumber_kid c sp k : renumber c sp (kid_entries k) = map (prefixed (tchar k)) (renumber c sp (entries k)).
Proof. unfold kid_entries. revert c. induction (entries k) as [|e l IH]; intros c; cbn; [done|]. by rewrite IH. Qed.
Lemma translate_kid c sp k v : translate c sp (kid_entries k) v = translate c sp (entries k) v.
Proof. unfold kid_entries. revert c v. induction (entries k) as [|e l IH]; intros c v; cbn; [done|]. by rewrite IH. Qed.
Lemma ids_below_kid n k : ids_below n (kid_entries k) <-> ids_below n (entries k).
Proof. unfold ids_below, kid_entries. by rewrite Forall_map. Qed.

Definition loaded (s : trie) (h : heap) (v : list Z) : trie :=
  mk_trie h (views s) (readers s) (root_readview s) (root_writeview s) (oldReadViewQueue s)
    (terminalNodes s) (counterForReassignedKeywordIds s) (trieNodesToReassign s)
    (Some v) (commited s) (mergeRequired s) (emptyLeafNodeIds s).

Lemma loaded_id s v : oldIdToNewIdMapVector s = Some v -> loaded s (nodes s) v = s.
Proof. intros E. destruct s; cbn in *. by rewrite E. Qed.

Lemma renumber_node_run s p n cs c sp v : shape (nodes s) (Tree p n cs) -> NoDup (ptrs (Tree p n cs)) ->
  oldIdToNewIdMapVector s = Some v -> ids_below (length v) (own n) ->
  0 <= c -> c + Z.of_nat (length (own n)) < 2 ^ 32 ->
  exists h' n', renumber_node p c sp s =
      Ok (c + Z.of_nat (length (own n)), loaded s h' (translate c sp (own n) v)) /\
    shape h' (Tree p n' cs) /\ alike n n' /\ same_outside [p] (nodes s) h' /\
    own n' = renumber c sp (own n).
Proof.
  intros Hs Hnd Hv Hids Hc0 Hc. unfold renumber_node. rewrite (bind_run _ _ _ _ _ (load_tree s [] (Tree p n cs) Hs)).
  cbn [tnode]. unfold own in *. destruct (isTerminalNode n) eqn:Ht; cbn [length] in *.
  - inversion_clear Hids as [|? ? Hid _]. cbn in Hid.
    assert (record_id (id n) (sparse_id sp c) s =
      Ok (tt, loaded s (nodes s) (<[Z.to_nat (id n) := sparse_id sp c]> v))) as Hrec.
    { unfold record_id, bind, reads. rewrite Hv. unfold lift.
      by rewrite (proj2 (vec_set_Ok v (id n) (sparse_id sp c) _) (conj Hid eq_refl)). }
    fold (sparse_id sp c). rewrite (bind_run _ _ _ _ _ Hrec).
    set (n' := with_counters _ _).
    destruct (shape_overwrite _ p n n' cs Hs Hnd eq_refl) as (_ & Hs' & Ho).
    rewrite (bind_run _ _ _ _ _ (store_tree (loaded s (nodes s) _) [] (Tree p n cs) n' Hs)).
    exists (update (nodes s) p n'), n'. split; [|split; [done|split; [done|split; [done|]]]].
    + unfold ret. rewrite wrap_id by (unfold is_uint; lia). done.
    + change (isTerminalNode n') with (isTerminalNode n). by rewrite Ht.
  - exists (nodes s), n. rewrite Ht. rewrite loaded_id by done. unfold ret.
    split; [|done]. do 3 f_equal. lia.
Qed.
(** What a traversal that numbers the sub-tree [t] from [c] on is to do. *)
Definition numbers (run : Z -> tst Z) (t : tree) (sp : Z) : Prop := forall s c v,
  shape (nodes s) t -> oldIdToNewIdMapVector s = Some v -> ids_below (length v) (entries t) ->
  0 <= c -> c + Z.of_nat (length (entries t)) < 2 ^ 32 ->
  exists h' t', run c s = Ok (c + Z.of_nat (length (entries t)), loaded s h' (translate c sp (entries t) v)) /\
    shape h' t' /\ similar t t' /\ same_outside (ptrs t) (nodes s) h' /\
    entries t' = renumber c sp (entries t).

Lemma number_kids (run : ptr -> Z -> tst Z) sp cs :
  Forall (fun k => numbers (run (tptr k)) k sp) cs -> NoDup (flat_map ptrs cs) ->
  forall s c v, Forall (shape (nodes s)) cs -> oldIdToNewIdMapVector s = Some v ->
  let l := flat_map kid_entries cs in
  ids_below (length v) l -> 0 <= c -> c + Z.of_nat (length l) < 2 ^ 32 ->
  exists h' cs', fold_st (map tptr cs) (fun c q => run q c) c s =
      Ok (c + Z.of_nat (length l), loaded s h' (translate c sp l v)) /\
    Forall (shape h') cs' /\ Forall2 similar cs cs' /\ same_outside (flat_map ptrs cs) (nodes s) h' /\
    flat_map kid_entries cs' = renumber c sp l.
Proof.
  induction 1 as [|k cs Hk _ IH]; intros Hnd s c v Hs Hv l; subst l; intros Hids Hc0 Hc;
    cbn zeta; cbn [map fold_st flat_map] in *.
  - exists (nodes s), []. rewrite loaded_id by done. cbn. rewrite Z.add_0_r. done.
  - inversion_clear Hs as [|? ? Hsk Hs']. apply NoDup_app in Hnd as (_ & Hdis & Hnd).
    apply Forall_app in Hids as [Hidk%ids_below_kid Hids]. rewrite length_app, length_kid in Hc.
    destruct (Hk s c v Hsk Hv Hidk Hc0) as (h1 & k' & Hr1 & Hsk1 & Hsim & Ho1 & He1); [lia|].
    rewrite (bind_run _ _ _ _ _ Hr1). set (v1 := translate c sp (entries k) v) in *.
    set (c1 := c + Z.of_nat (length (entries k))) in *.
    assert (length v1 = length v) as Hlen by apply translate_length.
    destruct (IH Hnd (loaded s h1 v1) c1 v1) as (h2 & cs' & Hr2 & Hscs & Hsims & Ho2 & He2).
    { eapply shapes_outside; [exact Ho1|exact Hs'|]. intros q Hq Hq'. by apply (Hdis q). }
    { done. } { by rewrite Hlen. } { lia. } { unfold c1. lia. }
    exists h2, (k' :: cs'). split; [|split; [|split; [|split]]].
    + rewrite Hr2, translate_app, length_app, translate_kid, length_kid.
      by replace (c + Z.of_nat (_ + _)) with (c1 + Z.of_nat (length (flat_map kid_entries cs))) by (unfold c1; lia).
    + constructor; [|done]. apply (shape_frame_rule h1); [|done]. intros q Hq.
      apply (so_cells _ _ _ Ho2). intros Hq'. rewrite (similar_ptrs _ _ Hsim) in Hq. by apply (Hdis q).
    + by constructor.
    + by eapply same_outside_trans.
    + cbn [flat_map]. rewrite renumber_app, He2, renumber_kid, length_kid. f_equal.
      unfold kid_entries. rewrite He1.
      destruct (similar_root _ _ Hsim) as (_ & Ha & _). unfold tchar. by rewrite (al_char _ _ Ha).
Qed.

Lemma commitSubTrie_run t : forall fuel sp, NoDup (ptrs t) -> (height t <= fuel)%nat ->
  numbers (fun c => commitSubTrie fuel (tptr t) c sp) t sp.
Proof.
  induction t as [p n cs IH] using tree_ind'. intros fuel sp Hnd Hf s c v Hs Hv Hids Hc0 Hc.
  destruct fuel as [|fuel]; [cbn in Hf; lia|]. apply height_kids in Hf. cbn [commitSubTrie tptr].
  rewrite (bind_run (assert_ _) _ _ tt s)
    by (apply assert_run; rewrite bool_decide_false; [done|by inversion Hs]).
  cbn [entries] in Hids, Hc. change (flat_map _ cs) with (flat_map kid_entries cs) in Hids, Hc.
  unfold ids_below in Hids. apply Forall_app in Hids as [Hido Hidk]. rewrite length_app in Hc.
  destruct (renumber_node_run s p n cs c sp v Hs Hnd Hv Hido Hc0) as (h1 & n' & Hr1 & Hs1 & Ha & Ho1 & He1);
    [lia|]. rewrite (bind_run _ _ _ _ _ Hr1).
  set (c1 := c + Z.of_nat (length (own n))) in *. set (v1 := translate c sp (own n) v) in *.
  rewrite (bind_run _ _ _ _ _ (load_tree (loaded s h1 v1) [] (Tree p n' cs) Hs1)). cbn [tnode].
  assert (childrenPointerList n' = map tptr cs) as -> by (by inversion Hs1).
  destruct (kids_nodup _ _ _ Hnd) as [Hp Hndk]. pose proof (NoDup_flat_map _ _ Hndk) as Hnds.
  assert (length v1 = length v) as Hlen by apply translate_length.
  destruct (number_kids (fun q c => commitSubTrie fuel q c sp) sp cs) with (s := loaded s h1 v1) (c := c1) (v := v1)
    as (h2 & cs' & Hr2 & Hscs & Hsims & Ho2 & He2).
  { rewrite Forall_forall in *. intros k Hk. apply IH; auto. }
  { done. } { by inversion Hs1. } { done. } { by rewrite Hlen. } { lia. } { unfold c1. lia. }
  exists h2, (Tree p n' cs'). split; [|split; [|split; [|split]]].
  - rewrite Hr2. cbn [entries]. change (flat_map _ cs) with (flat_map kid_entries cs).
    rewrite length_app, translate_app.
    by replace (c + Z.of_nat (_ + _)) with (c1 + Z.of_nat (length (flat_map kid_entries cs))) by (unfold c1; lia).
  - inversion Hs1 as [? ? ? Hnn Hlk Hch _]; subst. constructor; [done| | |done].
    + by rewrite (so_cells _ _ _ Ho2) by done.
    + rewrite Hch. clear -Hsims. induction Hsims as [|k k' ? ? Hk _ IH]; cbn; [done|].
      rewrite IH. f_equal. by destruct (similar_root _ _ Hk).
  - by constructor.
  - by eapply (same_outside_trans [p]).
  - cbn [entries]. change (flat_map _ cs') with (flat_map kid_entries cs').
    change (flat_map _ cs) with (flat_map kid_entries cs). by rewrite renumber_app, He1, He2.
Qed.
(** The ids are the multiples of the sparsity, in the order of the words. *)
Lemma sparse_id_exact sp i : 0 <= i -> 0 < sp -> (i + 1) * sp <= MAX_ALLOCATED_KEYWORD_ID ->
  sparse_id sp i = (i + 1) * sp.
Proof.
  unfold sparse_id, MAX_ALLOCATED_KEYWORD_ID. intros Hi Hsp H. rewrite (wrap_id 32 (i + 1)); unfold is_uint; [|nia].
  apply wrap_id. unfold is_uint. nia.
Qed.

Lemma renumber_sorted sp l : forall c, 0 <= c -> 0 < sp ->
  (c + Z.of_nat (length l)) * sp <= MAX_ALLOCATED_KEYWORD_ID ->
  StronglySorted (fun a b => a.2.1 < b.2.1) (renumber c sp l) /\
  Forall (fun e => c * sp < e.2.1 <= MAX_ALLOCATED_KEYWORD_ID) (renumber c sp l).
Proof.
  induction l as [|e l IH]; intros c Hc Hsp H; cbn [renumber length] in *; [repeat constructor|].
  destruct (IH (c + 1)) as [Hs Hr]; [lia|lia|nia|].
  assert (sparse_id sp c = (c + 1) * sp) as E by (apply sparse_id_exact; [lia|lia|nia]). split.
  - constructor; [done|]. eapply Forall_impl; [exact Hr|]. cbn. intros x Hx. rewrite E. lia.
  - constructor; [cbn; rewrite E; nia|]. eapply Forall_impl; [exact Hr|]. cbn. intros x Hx. nia.
Qed.

Lemma renumber_words c sp l : map fst (renumber c sp l) = map fst l.
Proof. revert c. induction l as [|e l IH]; intros c; cbn; [done|]. by rewrite IH. Qed.

(** What is at an old id after the translation: the new one. *)
Lemma translate_lookup sp l : forall c v, NoDup (map (fun e => e.2.1) l) -> ids_below (length v) l ->
  (forall i, 0 <= i -> i ∉ map (fun e => e.2.1) l -> translate c sp l v !! Z.to_nat i = v !! Z.to_nat i) /\
  forall w i o, In (w, (i, o)) l -> exists j, translate c sp l v !! Z.to_nat i = Some j /\
    In (w, (j, o)) (renumber c sp l).
Proof.
  induction l as [|e l IH]; intros c v Hnd Hids; cbn [translate renumber map] in *; [done|].
  apply NoDup_cons in Hnd as [He Hnd]. inversion_clear Hids as [|? ? Hid Hids'].
  destruct (IH (c + 1) (<[Z.to_nat e.2.1 := sparse_id sp c]> v) Hnd) as [IH1 IH2]; [by rewrite length_insert|].
  split.
  - intros i Hi [Hne Hi']%not_elem_of_cons. rewrite IH1 by done. apply list_lookup_insert_ne. lia.
  - intros w i o [->|Hin].
    + cbn in *. exists (sparse_id sp c). rewrite IH1 by (done || lia).
      rewrite list_lookup_insert_eq by lia. split; [done|by left].
    + destruct (IH2 w i o Hin) as (j & Hj & Hj'). exists j. split; [done|by right].
Qed.

Lemma numbered_length l k : numbered l k -> Z.of_nat (length l) <= k \/ l = [].
Proof.
  intros [_ Hi Hr]. destruct l as [|e0 l0]; [by right|]. left. set (l := e0 :: l0) in *.
  assert (0 <= k) as Hk by (inversion_clear Hr; lia).
  pose proof (NoDup_incl_length (l := map (fun e => e.2.1) l) (l' := seqZ 0 k)) as H.
  rewrite length_map, length_seqZ in H. enough (length l <= Z.to_nat k)%nat by lia. apply H.
  - by apply NoDup_ListNoDup.
  - intros i (e & <- & He)%in_map_iff. rewrite List.Forall_forall in Hr. destruct (Hr e He).
    apply list_elem_of_In, elem_of_seqZ. lia.
Qed.

Lemma sparsity_bounds k : 0 <= k -> k + 5 <= MAX_ALLOCATED_KEYWORD_ID ->
  0 < sparsityFactor k /\ k * sparsityFactor k <= MAX_ALLOCATED_KEYWORD_ID.
Proof.
  intros Hk Hb. unfold sparsityFactor, MAX_ALLOCATED_KEYWORD_ID in *. destruct (Z.ltb_spec 1 k).
  - rewrite wrap_id by (unfold is_uint; lia). split; dlia || (Z.div_mod_to_equations; nia).
  - split; dlia || (Z.div_mod_to_equations; nia).
Qed.
(** ** Runs of the operations on roots and views *)

Lemma outside_holds s l h' t : holds s t -> same_outside l (nodes s) h' ->
  (forall p, p ∈ ptrs t -> p ∉ l) -> holds (with_nodes s h') t.
Proof.
  intros [Hs Hnd Hwf] Ho Hd. split; [|done|by apply (so_wf _ _ _ Ho)].
  apply (shape_frame_rule (nodes s)); [|done]. intros p Hp. apply (so_cells _ _ _ Ho). by apply Hd.
Qed.

Lemma delete_node_run s t q n : holds s t -> s_load (nodes s) q = Ok n -> q ∉ ptrs t ->
  exists h', delete_node q s = Ok (tt, with_nodes s h') /\ holds (with_nodes s h') t.
Proof.
  intros [Hs Hnd Hwf] [Hq Hl]%s_load_Ok Hd.
  assert (s_delete (nodes s) q = Ok (mk_store (delete q (cells (nodes s))) (next_addr (nodes s)))) as Hdel.
  { unfold s_delete. rewrite decide_False by done. by rewrite (proj2 (s_load_Ok _ _ _) (conj Hq Hl)). }
  eexists. split; [unfold delete_node, bind, reads, lift; by rewrite Hdel|]. split; cbn; [|done|].
  - apply (shape_frame_rule (nodes s)); [|done]. intros p Hp. cbn. apply lookup_delete_ne. by intros ->.
  - by eapply s_delete_wf.
Qed.

Lemma tree_fuel_height s t : holds s t -> (height t <= tree_fuel s)%nat.
Proof. intros [Hs Hnd _]. unfold tree_fuel. pose proof (height_size _ _ Hs Hnd). lia. Qed.

Lemma resetCopyFlags_run s t : holds s t -> exists h', resetCopyFlags (tptr t) s = Ok (tt, with_nodes s h') /\
  holds (with_nodes s h') (reset t) /\ same_outside (ptrs t) (nodes s) h'.
Proof.
  intros Hh. destruct (resetCopyFlag_run t (tree_fuel s) (nodes s)) as (h' & Hr & Hs' & Ho);
    [apply Hh|apply Hh|by apply tree_fuel_height|].
  exists h'. split; [unfold resetCopyFlags, bind, reads, lift; by rewrite Hr|]. split; [|done].
  split; cbn; [done| |by apply (so_wf _ _ _ Ho); apply Hh].
  rewrite (similar_ptrs _ _ (reset_similar t)). apply Hh.
Qed.

(** A second root for the same children. *)
Definition twin (q : ptr) (t : tree) : tree :=
  Tree q (copy_node (tnode t) false) (kids t).

Lemma twin_entries q t : entries (twin q t) = entries t.
Proof. by destruct t. Qed.

Lemma twin_wf q t d : isTerminalNode (tnode t) = false -> wf d t -> wf d (twin q t).
Proof.
  destruct t as [p n cs]. cbn. intros Ht. inversion_clear 1 as [? ? ? ? Hd Hs Hw Hi Hl Hr].
  constructor; try done.
  - cbn. rewrite Hl. unfold left_of. change (isTerminalNode (copy_node n false)) with (isTerminalNode n).
    by rewrite Ht.
  - cbn. rewrite Hr. unfold right_of. change (isTerminalNode (copy_node n false)) with (isTerminalNode n).
    by rewrite Ht.
Qed.

(** A node is added to the store; what the store holds stays. *)
Lemma alloc_holds s t n : holds s t ->
  exists h', alloc_node n s = Ok (next_addr (nodes s), with_nodes s h') /\
    holds (with_nodes s h') t /\ next_addr (nodes s) ∉ ptrs t /\
    cells h' = <[next_addr (nodes s) := n]> (cells (nodes s)).
Proof.
  intros [Hs Hnd Hwf]. exists (s_new (nodes s) n).2. split; [done|]. split; [|split; [by eapply shape_fresh|done]].
  split; cbn; [by apply (shape_new _ [])|done|by apply s_new_wf].
Qed.

Lemma fork_run s t : holds s t ->
  exists q h', alloc_node (copy_node (tnode t) false) s = Ok (q, with_nodes s h') /\
    holds (with_nodes s h') t /\ holds (with_nodes s h') (twin q t) /\ q ∉ ptrs t.
Proof.
  intros Hh. destruct (alloc_holds s t (copy_node (tnode t) false) Hh) as (h' & Hr & Hh' & Hq & Hc).
  eexists _, h'. split; [exact Hr|]. split; [done|]. split; [|done].
  destruct Hh' as [Hs' Hnd' Hwf']. destruct t as [p n cs]. cbn [ptrs] in *. apply not_elem_of_cons in Hq as [_ Hq].
  split; [| |done].
  - inversion Hs' as [? ? ? ? ? Hch Hcs]; subst. constructor; [|cbn; rewrite Hc; apply lookup_insert_eq|done|done].
    cbn. destruct (h_wf _ _ Hh) as [Hpos _]. unfold NULL. lia.
  - cbn. apply NoDup_cons in Hnd' as [_ Hnd']. by apply NoDup_cons.
Qed.

(** The view [v] shows the tree [t]. *)
Record shows (s : trie) (v : ptr) (l : list ptr) (t : tree) : Prop := {
  sh_view : s_load (views s) v = Ok (mk_view l (tptr t));
  sh_holds : holds s t;
  sh_wf : wf 0 t }.
Lemma load_view_run s v x : s_load (views s) v = Ok x -> load_view v s = Ok (x, s).
Proof. intros H. unfold load_view, bind, reads, lift. by rewrite H. Qed.

Lemma store_view_run s v x y : s_load (views s) v = Ok x ->
  exists vs, s_load vs v = Ok y /\ (forall u, u <> v -> s_load vs u = s_load (views s) u) /\
    store_view v y s = set_views vs s.
Proof.
  intros [Hv Hl]%s_load_Ok. exists (mk_store (<[v := y]> (cells (views s))) (next_addr (views s))).
  split; [|split].
  - apply s_load_Ok. split; [done|]. apply lookup_insert_eq.
  - intros u Hu. unfold s_load. cbn. by rewrite lookup_insert_ne by done.
  - unfold store_view, bind, reads, lift. cbn.
    by rewrite (proj2 (s_store_Ok (views s) v y _) (conj Hv (conj (ex_intro _ x Hl) eq_refl))).
Qed.

(** The numbering phase of a commit, on the root [p] of [t]. *)
Lemma commit_numbering s t : holds s t -> numbered (entries t) (terminalNodes s) -> 0 <= terminalNodes s ->
  terminalNodes s + 5 <= MAX_ALLOCATED_KEYWORD_ID -> wf 0 t ->
  oldIdToNewIdMapVector s = Some (replicate (Z.to_nat (terminalNodes s)) 0) ->
  exists h' t' v c, commitSubTrie (tree_fuel s) (tptr t) 0 (sparsityFactor (terminalNodes s)) s =
      Ok (c, loaded s h' v) /\
    holds (loaded s h' v) t' /\ similar t t' /\ same_outside (ptrs t) (nodes s) h' /\
    StronglySorted (fun a b => a.2.1 < b.2.1) (entries t') /\
    Forall (fun e => 0 < e.2.1 <= MAX_ALLOCATED_KEYWORD_ID) (entries t') /\
    (forall w i o, In (w, (i, o)) (entries t) -> exists j, vec_at v i = Ok j /\ In (w, (j, o)) (entries t')).
Proof.
  intros Hh Hnum Hk0 Hk Hw Hv. set (k := terminalNodes s) in *. set (sp := sparsityFactor k).
  destruct (sparsity_bounds k Hk0 Hk) as [Hsp Hksp]. fold sp in Hsp, Hksp.
  assert (Z.of_nat (length (entries t)) <= k) as Hlen.
  { destruct (numbered_length _ _ Hnum) as [|E]; [done|]. rewrite E. done. }
  assert (ids_below (length (replicate (Z.to_nat k) 0)) (entries t)) as Hids.
  { unfold ids_below. rewrite length_replicate. eapply Forall_impl; [exact (nb_range _ _ Hnum)|]. cbn. lia. }
  destruct (commitSubTrie_run t (tree_fuel s) sp (h_nodup _ _ Hh) (tree_fuel_height s t Hh) s 0 _
    (h_shape _ _ Hh) Hv Hids) as (h' & t' & Hr & Hs' & Hsim & Ho & He);
    [lia|unfold MAX_ALLOCATED_KEYWORD_ID in Hk; lia|].
  eexists h', t', _, _. split; [exact Hr|].
  destruct (renumber_sorted sp (entries t) 0) as [Hsort Hran]; [lia|done|nia|].
  rewrite He. split; [|split; [done|split; [done|split; [done|split]]]].
  - split; cbn; [done| |by apply (so_wf _ _ _ Ho); apply Hh].
    rewrite (similar_ptrs _ _ Hsim). apply Hh.
  - exact Hran.
  - intros w i o Hin.
    destruct (translate_lookup sp (entries t) 0 _ (nb_ids _ _ Hnum) Hids) as [_ Htr].
    destruct (Htr w i o Hin) as (j & Hj & Hj'). exists j. split; [|done]. apply vec_at_nth.
    split; [|done]. pose proof (nb_range _ _ Hnum) as Hrg. rewrite List.Forall_forall in Hrg.
    destruct (Hrg _ Hin) as [Hb _]. cbn in Hb. lia.
Qed.

Lemma words_root t t' : words t' = words t -> ~ In [] (words t) -> isTerminalNode (tnode t') = false.
Proof. intros E H. apply rooted_nonterminal. by rewrite E. Qed.

(** The twin of a tree whose other nodes were numbered in place. *)
Lemma shape_graft h h' q n t t' : shape h (Tree q n (kids t)) -> Forall2 similar (kids t) (kids t') ->
  Forall (shape h') (kids t') -> cells h' !! q = cells h !! q -> shape h' (Tree q n (kids t')).
Proof.
  intros Hs Hsim Hs' Hq. inversion Hs as [? ? ? Hn Hl Hch _]; subst. constructor; [done|by rewrite Hq| |done].
  rewrite Hch. clear -Hsim. induction Hsim as [|k k' ? ? Hk _ IH]; cbn; [done|].
  rewrite IH. f_equal. by destruct (similar_root _ _ Hk).
Qed.

Lemma kids_entries p p' n cs n' cs' : isTerminalNode n = false -> isTerminalNode n' = false ->
  flat_map kid_entries cs = flat_map kid_entries cs' ->
  entries (Tree p n cs) = entries (Tree p' n' cs').
Proof. intros H H' E. rewrite !entries_plain by done. done. Qed.
Lemma holds_ext s s' t : nodes s' = nodes s -> holds s t -> holds s' t.
Proof. intros E [A B C]. split; rewrite ?E; done. Qed.

(** The twin [q] of [t] after a change of [t] to the similar [t']. *)
Lemma twin_after s s' q t t' l : holds s (twin q t) -> holds s' t' -> similar t t' -> q ∉ ptrs t ->
  same_outside l (nodes s) (nodes s') -> (forall p, p ∈ l -> p ∈ ptrs t) ->
  let t2 := Tree q (copy_node (tnode t) false) (kids t') in
  holds s' t2 /\ similar (twin q t) t2.
Proof.
  intros [Hs Hnd _] Hh' Hsim Hq Ho Hl. destruct (similar_root _ _ Hsim) as (_ & _ & Hk).
  assert (similar (twin q t) (Tree q (copy_node (tnode t) false) (kids t'))) as Hsim2 by (by constructor).
  split; [|done]. split; [|by rewrite (similar_ptrs _ _ Hsim2)|apply Hh'].
  eapply (shape_graft (nodes s) (nodes s') q _ t t'); [exact Hs|done| |].
  - destruct Hh' as [Hs' _ _]. by inversion Hs'.
  - apply (so_cells _ _ _ Ho). naive_solver.
Qed.

(** The write view shares all but the root with the read view [v]. *)
Definition forked (s : trie) (v : ptr) (l : list ptr) (tr tw : tree) : Prop :=
  shows s v l tr /\ represents s tw /\ kids tw = kids tr /\ entries tw = entries tr /\ tptr tw ∉ ptrs tr.

Lemma commit_run s t x n0 : represents s t -> commited s = false ->
  numbered (entries t) (terminalNodes s) -> 0 <= terminalNodes s ->
  terminalNodes s + 5 <= MAX_ALLOCATED_KEYWORD_ID -> ~ In [] (words t) ->
  s_load (views s) (root_readview s) = Ok x -> s_load (nodes s) (root x) = Ok n0 -> root x ∉ ptrs t ->
  exists s' tr tw v, commit s = Ok (tt, s') /\ forked s' (root_readview s) (free_list x) tr tw /\
    root_readview s' = root_readview s /\ commited s' = false /\
    words tr = words t /\ oldIdToNewIdMapVector s' = Some v /\
    StronglySorted (fun a b => a.2.1 < b.2.1) (entries tr) /\
    Forall (fun e => 0 < e.2.1 <= MAX_ALLOCATED_KEYWORD_ID) (entries tr) /\
    (forall w i o, In (w, (i, o)) (entries t) -> exists j, vec_at v i = Ok j /\ In (w, (j, o)) (entries tr)).
Proof.
  intros [Hh Hroot Hw] Hc Hnum Hk0 Hk Hne Hx Hn0 Hx'. unfold commit.
  rewrite (bind_run (reads commited) _ s (commited s) s) by done. rewrite Hc.
  rewrite (bind_run (assert_ _) _ s tt s) by done.
  rewrite (bind_run (reads root_readview) _ s (root_readview s) s) by done.
  rewrite (bind_run _ _ _ _ _ (load_view_run _ _ _ Hx)).
  destruct (delete_node_run s t _ _ Hh Hn0 Hx') as (h1 & Hr1 & Hh1). rewrite (bind_run _ _ _ _ _ Hr1).
  rewrite (bind_run (reads root_writeview) _ _ (tptr t) (with_nodes s h1)) by (cbn; by rewrite Hroot).
  destruct (resetCopyFlags_run _ _ Hh1) as (h2 & Hr2 & Hh2 & _). rewrite (bind_run _ _ _ _ _ Hr2).
  pose proof (reset_similar t) as Hsim0. set (t2 := reset t) in *.
  assert (tptr t2 = tptr t) as Ep by (by destruct (similar_root _ _ Hsim0)).
  assert (words t2 = words t) as Ew by (by apply similar_words).
  assert (entries t2 = entries t) as Ee by apply reset_entries.
  destruct (store_view_run (with_nodes (with_nodes s h1) h2) _ x (mk_view (free_list x) (tptr t)) Hx)
    as (vs & Hvs & _ & Hr3). rewrite (bind_run _ _ _ _ _ Hr3). clear Hr3.
  set (s3 := mk_trie h2 vs (readers s) (root_readview s) (root_writeview s) (oldReadViewQueue s)
    (terminalNodes s) (counterForReassignedKeywordIds s) (trieNodesToReassign s)
    (oldIdToNewIdMapVector s) (commited s) (mergeRequired s) (emptyLeafNodeIds s)).
  assert (holds s3 t2) as Hh3 by (eapply holds_ext; [|exact Hh2]; done).
  assert (load_node (tptr t) s3 = Ok (tnode t2, s3)) as Hld.
  { rewrite <- Ep. apply (load_tree s3 []). apply Hh3. }
  rewrite (bind_run _ _ _ _ _ Hld).
  destruct (fork_run s3 t2 Hh3) as (q & h4 & Hr4 & Hh4 & Hq4 & Hq). rewrite (bind_run _ _ _ _ _ Hr4).
  set (s5 := mk_trie h4 vs (readers s) (root_readview s) q (oldReadViewQueue s)
    (terminalNodes s) (counterForReassignedKeywordIds s) (trieNodesToReassign s)
    (Some (replicate (Z.to_nat (terminalNodes s)) 0)) (commited s) (mergeRequired s) (emptyLeafNodeIds s)).
  destruct (commit_numbering s5 t2) as (h6 & tr & v & c & Hr6 & Hh6 & Hsim & Ho & Hsort & Hran & Htr);
    [eapply holds_ext; [|exact Hh4]; done|by rewrite Ee|done|done|by eapply similar_wf|done|].
  rewrite Ep in Hr6.
  destruct (twin_after s5 (loaded s5 h6 v) q t2 tr (ptrs t2)) as [Htw Hsim2];
    [eapply holds_ext; [|exact Hq4]; done|done|done|done|done|done|].
  assert (words tr = words t) as Ewr by (by rewrite (similar_words _ _ Hsim)).
  assert (isTerminalNode (tnode t2) = false) as Hnt by (by eapply words_root).
  assert (wf 0 tr) as Hwr by (eapply similar_wf; [exact Hsim|]; by eapply similar_wf).
  exists (loaded s5 h6 v), tr, (Tree q (copy_node (tnode t2) false) (kids tr)), v.
  split; [|split; [|split; [done|split; [done|split; [done|split; [done|split; [done|split; [done|]]]]]]]].
  - exact (bind_run _ (fun _ => ret tt) s5 _ _ Hr6).
  - split; [|split; [|split; [done|split]]].
    + split; [|done|done]. cbn. rewrite Hvs. f_equal. f_equal. destruct (similar_root _ _ Hsim). congruence.
    + split; [done|done|]. eapply similar_wf; [exact Hsim2|]. apply twin_wf; [done|]. by eapply similar_wf.
    + destruct tr as [p n cs]. apply kids_entries; [exact Hnt|exact (words_root _ _ Ewr Hne)|done].
    + rewrite (similar_ptrs _ _ Hsim). exact Hq.
  - intros w i o Hin. apply Htr. by rewrite Ee.
Qed.
(** [commit] gives the words of a loaded trie their final ids: multiples of
    one spacing that grow with the lexicographic order, stay within the ids that
    may be allocated, and leave room between any two.  The vector it fills
    translates every old id to the new one of the same word.  Afterwards the read
    view shows the loaded tree and the write view has a root of its own over the
    same children. *)
Theorem commit_orders_ids (s : trie) (t : tree) (x : view) (n0 : TrieNode) :
  represents s t -> commited s = false ->
  numbered (entries t) (terminalNodes s) -> 0 <= terminalNodes s ->
  terminalNodes s + 5 <= MAX_ALLOCATED_KEYWORD_ID -> ~ In [] (words t) ->
  s_load (views s) (root_readview s) = Ok x -> s_load (nodes s) (root x) = Ok n0 -> root x ∉ ptrs t ->
  exists s' tr tw v, commit s = Ok (tt, s') /\ forked s' (root_readview s) (free_list x) tr tw /\
    root_readview s' = root_readview s /\ commited s' = false /\
    words tr = words t /\ oldIdToNewIdMapVector s' = Some v /\
    StronglySorted (fun a b => a.2.1 < b.2.1) (entries tr) /\
    Forall (fun e => 0 < e.2.1 <= MAX_ALLOCATED_KEYWORD_ID) (entries tr) /\
    (forall w i o, In (w, (i, o)) (entries t) -> exists j, vec_at v i = Ok j /\ In (w, (j, o)) (entries tr)).
Proof. apply commit_run. Qed.

Lemma commit_orders_ids_witness : exists s' tr tw,
  commit demo = Ok (tt, s') /\ forked s' 1%N [] tr tw /\
  StronglySorted (fun a b => a.2.1 < b.2.1) (entries tr) /\ words tr = [[97]; [97; 98]; [98]].
Proof.
  destruct (commit_orders_ids demo demo_tree (mk_view [] 1%N) new_root) as (s' & tr & tw & v & Hr & Hf & _ & _ & Hw & _ & Hs & _).
  - exact demo_represents.
  - vm_compute. reflexivity.
  - split; apply (bool_decide_unpack _); vm_compute; exact I.
  - vm_compute. discriminate.
  - vm_compute. discriminate.
  - vm_compute. intros [H|[H|[H|[]]]]; discriminate H.
  - vm_compute. reflexivity.
  - vm_compute. reflexivity.
  - apply (bool_decide_unpack _). vm_compute. exact I.
  - exists s', tr, tw. split; [exact Hr|]. split; [exact Hf|]. split; [exact Hs|].
    rewrite Hw. vm_compute. reflexivity.
Defined.
End TrieViews.
