(* ===== verification/TrieUpdate.v ===== *)
(** * Insertion into the write view (core/index/Trie.cpp, addKeyword_ThreadSafe)

    The descent copies the nodes of the read view that it passes, the links of the
    copies are redirected, and the new keyword gets an id between those of its
    neighbours or a temporary one.  Nothing a reader can reach changes but the
    insert counters. *)
From S2P Require Import Prelude TrieNode Trie TrieTree TrieInsert TrieNeighbours TrieViews.
From Stdlib Require Import ZArith Lia List Bool Sorted.
From stdpp Require Import base gmap list fin_maps.
Open Scope Z_scope.

Module TrieUpdate.
Import TrieNode Trie TrieTree TrieInsert TrieNeighbours TrieViews.

(** ** Contexts that a descent through new nodes makes *)

(** A node without links, children or keyword. *)
Record bare (d c : Z) (m : TrieNode) : Prop := {
  ba_depth : getDepth m = d;
  ba_char : character m = c;
  ba_terminal : isTerminalNode m = false;
  ba_left : leftMostDescendant m = NULL;
  ba_right : rightMostDescendant m = NULL;
  ba_copy : isCopy m = true }.

(** A chain of bare nodes for the word [w], from a node of depth [d] and
    character [c] at the address [q] down to the leaf [k]. *)
Inductive chain : ptr -> Z -> Z -> list Z -> list frame -> tree -> Prop :=
  | chain_end q d c m : bare d c m -> chain q d c [] [] (Tree q m [])
  | chain_step q q' d c c' w gs k m : bare d c m -> chain q' (d + 1) c' w gs k ->
      chain q d c (c' :: w) (gs ++ [mk_frame q m [] []]) k.

Lemma chain_ok q d c w gs k : chain q d c w gs k -> forall ctx, ctx_ok d ctx c ->
  ctx_ok (d + Z.of_nat (length w)) (gs ++ ctx) (tchar k) /\
  before (gs ++ ctx) (tchar k) = before ctx c /\ after (gs ++ ctx) (tchar k) = after ctx c /\
  ctx_word (gs ++ ctx) (tchar k) = ctx_word ctx c ++ w.
Proof.
  induction 1 as [q d c m [Hd Hc Ht _ _]|q q' d c c' w gs k m [Hd Hc Ht _ _] _ IH]; intros ctx Hok.
  - cbn. change (tchar (Tree q m [])) with (character m). rewrite Hc, Z.add_0_r, app_nil_r. done.
  - rewrite <- app_assoc. cbn [app]. destruct (IH (mk_frame q m [] [] :: ctx)) as (H1 & H2 & H3 & H4).
    { cbn [ctx_ok]. replace (d + 1 - 1) with d by lia. cbn [fnode]. rewrite Hc. split; [by apply bare_frame_ok|done]. }
    replace (d + Z.of_nat (length (c' :: w))) with (d + 1 + Z.of_nat (length w)) by (cbn; lia).
    split; [done|]. rewrite H2, H3, H4. cbn. unfold own. rewrite Ht, Hc. cbn. rewrite app_nil_r, <- app_assoc.
    done.
Qed.

Lemma chain_leaf q d c w gs k : chain q d c w gs k -> exists m, k = Tree (tptr k) m [] /\
  bare (d + Z.of_nat (length w)) (tchar k) m.
Proof.
  induction 1 as [q d c m Hm|q q' d c c' w gs k m Hm _ (m' & -> & Hm')].
  - exists m. split; [done|]. cbn [length Z.of_nat]. rewrite Z.add_0_r. destruct Hm; by split.
  - exists m'. split; [done|]. cbn [length]. by replace (d + _) with (d + 1 + Z.of_nat (length w)) by lia.
Qed.

(** ** What the descent may change *)

(** The nodes that are no copies, the one at [root] apart, stay as they are. *)
Record spares (root : ptr) (h h' : heap) : Prop := {
  sp_cells : forall p n, cells h !! p = Some n -> isCopy n = false -> p <> root -> cells h' !! p = Some n;
  sp_dom : forall p, is_Some (cells h !! p) -> is_Some (cells h' !! p);
  sp_wf : store_wf h -> store_wf h' }.

Lemma spares_refl r h : spares r h h.
Proof. split; auto. Qed.

Lemma spares_trans r r' h1 h2 h3 : spares r h1 h2 -> spares r' h2 h3 ->
  r' = r \/ (forall n, cells h1 !! r' = Some n -> isCopy n = true) -> spares r h1 h3.
Proof.
  intros [A1 B1 C1] [A2 B2 C2] Hr. split; [|auto|auto]. intros p n Hp Hc Hne. apply A2; [by apply A1|done|].
  intros ->. destruct Hr as [->|Hr]; [done|]. specialize (Hr n Hp). congruence.
Qed.

Lemma spares_update h p n n' : cells h !! p = Some n -> spares p h (update h p n').
Proof.
  intros Hp. split.
  - intros q m Hq _ Hne. cbn. by rewrite lookup_insert_ne by done.
  - intros q Hq. cbn. destruct (decide (q = p)) as [->|Hne]; [rewrite lookup_insert_eq; eauto|].
    by rewrite lookup_insert_ne by done.
  - intros Hwf. by eapply node_update_wf.
Qed.

Lemma spares_new r h m : store_wf h -> spares r h (s_new h m).2.
Proof.
  intros Hwf. split.
  - intros q n Hq _ _. cbn. rewrite lookup_insert_ne; [done|]. intros E.
    pose proof (store_wf_fresh h Hwf). congruence.
  - intros q [n Hq]. cbn. destruct (decide (q = next_addr h)) as [->|Hne]; [rewrite lookup_insert_eq; eauto|].
    rewrite lookup_insert_ne by done. eauto.
  - intros _. by apply s_new_wf.
Qed.

(** An address on the path is that of the root or of a copy. *)
Definition owned (root : ptr) (h : heap) (p : ptr) : Prop :=
  p = root \/ exists n, cells h !! p = Some n /\ isCopy n = true.

(** A new leaf under the focus. *)
Lemma grow_run s ctx p n l r m : holds s (plug ctx (Tree p n (l ++ r))) -> childrenPointerList m = [] ->
  let q := next_addr (nodes s) in
  let n' := with_children n (map tptr l ++ q :: map tptr r) in
  let h' := update (s_new (nodes s) m).2 p n' in
  forall B (v : ptr -> B),
  (let! q := alloc_node m in
   let! n' := lift (addChild n (Z.of_nat (length l)) q) in
   store_node p n' ;;; ret (v q)) s = Ok (v q, with_nodes s h') /\
  holds (with_nodes s h') (plug (mk_frame p n' l r :: ctx) (Tree q m [])) /\ spares p (nodes s) h' /\
  cells (nodes s) !! q = None.
Proof.
  intros [Hs Hnd Hwf] Hm q n' h' B v. destruct (shape_add_leaf _ _ _ _ l r m Hs Hnd Hwf Hm) as (Hs' & Hnd' & Hwf').
  pose proof (proj2 (proj1 (shape_plug _ _ _) Hs)) as Hk.
  assert (childrenPointerList n = map tptr l ++ map tptr r) as Hch by (rewrite <- map_app; by inversion Hk).
  split; [|split; [by split|split; [|by apply store_wf_fresh]]].
  - rewrite (bind_run _ _ _ _ _ (alloc_run s m)). rewrite <- (length_map tptr l).
    rewrite (bind_run _ _ _ _ _ (lift_run _ _ _ (addChild_run n _ q _ Hch))).
    assert (shape (s_new (nodes s) m).2 (plug ctx (Tree p n (l ++ r)))) as Hs1 by (by apply shape_new).
    by rewrite (bind_run _ _ _ _ _ (store_tree (with_nodes s (s_new (nodes s) m).2) ctx _ n' Hs1)).
  - apply (spares_trans p p _ (s_new (nodes s) m).2); [by apply spares_new| |by left].
    apply (spares_update _ _ n). cbn. inversion Hk; subst. rewrite lookup_insert_ne; [done|]. intros E.
    pose proof (store_wf_fresh _ Hwf). congruence.
Qed.
Lemma new_node_bare d c : 0 <= d < 128 -> bare d c (new_node d c true).
Proof. intros H. split; try done; [by apply new_node_depth|by apply new_node_flag]. Qed.

(** The pointers of a context, from the root down. *)
Definition trail (fs : list frame) : path := map fptr (rev fs).

Lemma trail_app fs gs : trail (fs ++ gs) = trail gs ++ trail fs.
Proof. unfold trail. by rewrite rev_app_distr, map_app. Qed.

Lemma owned_mono root r h h' p : spares r h h' -> owned root h p ->
  (forall n, cells h' !! p = Some n -> isCopy n = true) -> owned root h' p.
Proof.
  intros Hsp [->|(n & Hp & Hn)] Hc; [by left|]. right.
  destruct (sp_dom _ _ _ Hsp p ltac:(eauto)) as [n' Hn']. exists n'. split; [done|]. by apply Hc.
Qed.

Lemma plug_cell h gs f ctx k : shape h (plug (gs ++ f :: ctx) k) -> cells h !! fptr f = Some (fnode f).
Proof. rewrite plug_app. cbn [plug]. intros [_ Hs]%shape_plug. by inversion Hs. Qed.

Lemma plug_focus_cell h ctx k : shape h (plug ctx k) -> cells h !! tptr k = Some (tnode k).
Proof. intros [_ Hs]%shape_plug. by inversion Hs. Qed.

(** A path all of whose frames and focus but the root are copies is owned. *)
Lemma copies_owned h ctx k gs root : shape h (plug (gs ++ ctx) k) ->
  Forall (fun f => fptr f = root \/ isCopy (fnode f) = true) gs ->
  tptr k = root \/ isCopy (tnode k) = true ->
  Forall (owned root h) (trail gs ++ [tptr k]).
Proof.
  intros Hs Hgs Hk. rewrite Forall_app, Forall_singleton. split.
  - apply Forall_forall. intros p (f & -> & Hf)%elem_of_lmap. apply list_elem_of_In, in_rev, list_elem_of_In in Hf.
    rewrite Forall_forall in Hgs. destruct (Hgs f Hf) as [|Hc]; [by left|]. right.
    apply list_elem_of_split in Hf as (g1 & g2 & ->). rewrite <- app_assoc in Hs. cbn in Hs.
    exists (fnode f). split; [by eapply plug_cell|done].
  - destruct Hk as [|Hc]; [by left|]. right. exists (tnode k). split; [by eapply plug_focus_cell|done].
Qed.

Lemma descend_copy_new w : forall s ctx q m d cw, holds s (plug ctx (Tree q m [])) ->
  bare d (character m) m -> 0 <= d -> d + Z.of_nat (length w) < 128 -> isNewTrieNode cw = true ->
  exists h' gs k, descend_copy w (d + 1) q cw s = Ok ((trail gs ++ [tptr k], cw), with_nodes s h') /\
    chain q d (character m) w gs k /\ holds (with_nodes s h') (plug (gs ++ ctx) k) /\
    spares q (nodes s) h' /\ Forall (fun f => isCopy (fnode f) = true) gs /\ isCopy (tnode k) = true.
Proof.
  induction w as [|c w IH]; intros s ctx q m d cw Hh Hb Hd0 Hlen Hnew; cbn [descend_copy].
  - exists (nodes s), [], (Tree q m []). rewrite with_nodes_id. split; [done|]. split; [by constructor|].
    split; [done|]. split; [apply spares_refl|]. split; [constructor|apply Hb].
  - cbn [length] in Hlen. pose proof Hh as [Hs _ _].
    pose proof (proj2 (proj1 (shape_plug _ _ _) Hs)) as Hk.
    assert (q <> NULL) as Hq by (by inversion Hk).
    rewrite (bind_run (assert_ _) _ _ tt s) by (by apply assert_run; rewrite bool_decide_false).
    rewrite (bind_run _ _ _ _ _ (load_holds _ _ _ _ _ Hh)).
    destruct (find_kid _ _ c Hk) as (pos & Hf & [(l & x & r & E & _)|(l & r & E & -> & _)]);
      [by constructor|by destruct l|]. cbn in E. symmetry in E. apply app_eq_nil in E as [-> ->].
    rewrite (bind_run _ _ _ _ _ (on_heap_run _ _ _ Hf)).
    change (0 <=? - (Z.of_nat (length []) + 1)) with false. cbn iota.
    change (- - (Z.of_nat (length []) + 1) - 1) with (Z.of_nat (@length tree [])).
    set (m' := new_node (d + 1) c true).
    destruct (grow_run s ctx q m [] [] m' Hh eq_refl _ (fun q => (q, mk_cow (oldToNewTrieNodeMap cw) (freed cw) true)))
      as (Hr & Hh' & Hsp & Hfresh). rewrite (bind_run _ _ _ _ _ Hr).
    set (q' := next_addr (nodes s)) in *. set (n' := with_children m _) in *. set (h1 := update _ q n') in *.
    assert (mk_cow (oldToNewTrieNodeMap cw) (freed cw) true = cw) as -> by (rewrite <- Hnew; by destruct cw).
    destruct (IH (with_nodes s h1) (mk_frame q n' [] [] :: ctx) q' m' (d + 1) cw) as
      (h2 & gs & k & Hr2 & Hch & Hh2 & Hsp2 & Hgs & Hck);
      [done|apply new_node_bare; lia|lia|lia|done|]. rewrite (bind_run _ _ _ _ _ Hr2).
    exists h2, (gs ++ [mk_frame q n' [] []]), k. split; [by rewrite trail_app|].
    split; [eapply (chain_step q q'); [destruct Hb; by split|exact Hch]|]. rewrite <- app_assoc. split; [done|].
    split; [|split; [|done]].
    + eapply spares_trans; [exact Hsp|exact Hsp2|]. right. intros n Hn. congruence.
    + apply Forall_app. split; [done|]. apply Forall_singleton. apply Hb.
Qed.
(** ** Copying the path *)

(** A child replaced by a copy of its node. *)
Lemma shape_replace h ctx p n l x r m : let t := plug ctx (Tree p n (l ++ x :: r)) in
  shape h t -> NoDup (ptrs t) -> store_wf h -> childrenPointerList m = map tptr (kids x) ->
  let q := next_addr h in
  let n' := with_children n (map tptr l ++ q :: map tptr r) in
  let h' := update (s_new h m).2 p n' in
  let t' := plug (mk_frame p n' l r :: ctx) (Tree q m (kids x)) in
  shape h' t' /\ NoDup (ptrs t') /\ store_wf h'.
Proof.
  intros t Hs Hnd Hwf Hm q n' h' t'. pose proof (shape_fresh _ _ Hs Hwf) as Hq. fold q in Hq.
  pose proof (shape_new _ _ _ m Hs Hwf) as Hs1. set (h1 := (s_new h m).2) in *.
  pose proof Hnd as Hnd0. unfold t in Hnd, Hq. rewrite ptrs_plug in Hnd, Hq.
  apply NoDup_app in Hnd as (_ & Hdis & Hnd). cbn [ptrs] in *. apply NoDup_cons in Hnd as [Hp Hnd].
  assert (q <> p) as Hqp by (intros E; apply Hq; rewrite E; set_solver).
  apply shape_plug in Hs1 as [Hc1 Hk1]. inversion Hk1 as [? ? ? Hpn Hlp Hch Hcs]; subst.
  assert (forall y, y <> p -> cells h' !! y = cells h1 !! y) as Hag
    by (intros y Hy; unfold h', update; cbn [cells]; by rewrite lookup_insert_ne).
  assert (Forall (shape h') (l ++ x :: r)) as Hcs'.
  { eapply shapes_frame_rule; [|exact Hcs]. intros y Hy. apply Hag. by intros ->. }
  rewrite Forall_app, Forall_cons in Hcs'. destruct Hcs' as (Hl & Hx & Hr).
  split; [|split; [|unfold h'; eapply node_update_wf; [by apply s_new_wf|exact Hlp]]].
  - unfold t'. cbn [plug]. apply (shape_refill h1 h' ctx (Tree p n (l ++ x :: r))); [done| |by apply shape_plug|].
    + intros y Hy. apply Hag. intros ->. apply (Hdis p Hy). set_solver.
    + apply shape_fill. cbn. split.
      * split; [done|]. split; [apply lookup_insert_eq|]. split; [by rewrite map_app|done].
      * constructor; [| |done|by inversion Hx].
        { destruct Hwf as [Hpos _]. unfold q, NULL. lia. }
        { rewrite Hag by done. apply lookup_insert_eq. }
  - unfold t'. rewrite ptrs_plug, ctx_ptrs_cons. unfold frame_ptrs. cbn [ptrs fptr fleft fright].
    unfold t in Hnd0. rewrite ptrs_plug in Hnd0. cbn [ptrs] in Hnd0. rewrite flat_map_app in Hnd0, Hq. cbn [flat_map] in Hnd0, Hq.
    destruct x as [px nx cx]. cbn [ptrs kids] in *.
    assert (((p :: flat_map ptrs l ++ flat_map ptrs r) ++ ctx_ptrs ctx) ++ q :: flat_map ptrs cx ≡ₚ
      q :: ctx_ptrs ctx ++ p :: flat_map ptrs l ++ flat_map ptrs cx ++ flat_map ptrs r) as -> by solve_Permutation.
    assert (ctx_ptrs ctx ++ p :: flat_map ptrs l ++ (px :: flat_map ptrs cx) ++ flat_map ptrs r ≡ₚ
      px :: ctx_ptrs ctx ++ p :: flat_map ptrs l ++ flat_map ptrs cx ++ flat_map ptrs r) as P by solve_Permutation.
    rewrite P in Hnd0, Hq. apply NoDup_cons in Hnd0 as [_ Hnd0]. apply NoDup_cons. split; [|done].
    intros Hin. apply Hq. by right.
Qed.

Lemma replace_run s ctx p n l x r m : holds s (plug ctx (Tree p n (l ++ x :: r))) ->
  childrenPointerList m = map tptr (kids x) ->
  let q := next_addr (nodes s) in
  let n' := with_children n (map tptr l ++ q :: map tptr r) in
  let h' := update (s_new (nodes s) m).2 p n' in
  forall B (v : ptr -> B),
  (let! q := alloc_node m in
   let! n' := lift (setChild n (Z.of_nat (length l)) q) in
   store_node p n' ;;; ret (v q)) s = Ok (v q, with_nodes s h') /\
  holds (with_nodes s h') (plug (mk_frame p n' l r :: ctx) (Tree q m (kids x))) /\ spares p (nodes s) h' /\
  cells (nodes s) !! q = None.
Proof.
  intros [Hs Hnd Hwf] Hm q n' h' B v. destruct (shape_replace _ _ _ _ l x r m Hs Hnd Hwf Hm) as (Hs' & Hnd' & Hwf').
  pose proof (proj2 (proj1 (shape_plug _ _ _) Hs)) as Hk.
  assert (childrenPointerList n = map tptr l ++ tptr x :: map tptr r) as Hch
    by (change (tptr x :: map tptr r) with (map tptr (x :: r)); rewrite <- map_app; by inversion Hk).
  split; [|split; [by split|split; [|by apply store_wf_fresh]]].
  - rewrite (bind_run _ _ _ _ _ (alloc_run s m)).
    assert (setChild n (Z.of_nat (length l)) q = Ok n') as Hset.
    { unfold setChild, getChildrenCount. rewrite Hch, length_app. cbn [length]. rewrite !length_map.
      destruct (Z.leb_spec 0 (Z.of_nat (length l))), (Z.ltb_spec (Z.of_nat (length l))
        (Z.of_nat (length l + S (length r)))); try lia. cbn. rewrite Nat2Z.id.
      unfold n'. do 2 f_equal. by rewrite insert_app_r_alt, length_map, Nat.sub_diag by (rewrite length_map; lia). }
    rewrite (bind_run _ _ _ _ _ (lift_run _ _ _ Hset)).
    assert (shape (s_new (nodes s) m).2 (plug ctx (Tree p n (l ++ x :: r)))) as Hs1 by (by apply shape_new).
    by rewrite (bind_run _ _ _ _ _ (store_tree (with_nodes s (s_new (nodes s) m).2) ctx _ n' Hs1)).
  - apply (spares_trans p p _ (s_new (nodes s) m).2); [by apply spares_new| |by left].
    apply (spares_update _ _ n). cbn. inversion Hk; subst. rewrite lookup_insert_ne; [done|]. intros E.
    pose proof (store_wf_fresh _ Hwf). congruence.
Qed.
(** A copy of a node keeps all but the children, the flag and the counters. *)
Record same_fields (n n' : TrieNode) : Prop := {
  sf_flags : terminalFlag1bDepth7b n' = terminalFlag1bDepth7b n;
  sf_char : character n' = character n;
  sf_id : id n' = id n;
  sf_offset : invertedListOffset n' = invertedListOffset n;
  sf_left : leftMostDescendant n' = leftMostDescendant n;
  sf_right : rightMostDescendant n' = rightMostDescendant n }.

Record frame_copy (rho : ptr -> ptr) (f f' : frame) : Prop := {
  fc_ptr : fptr f' = rho (fptr f);
  fc_node : same_fields (fnode f) (fnode f');
  fc_left : fleft f' = fleft f;
  fc_right : fright f' = fright f }.
Record tree_copy (rho : ptr -> ptr) (k k' : tree) : Prop := {
  tc_ptr : tptr k' = rho (tptr k);
  tc_node : same_fields (tnode k) (tnode k');
  tc_kids : kids k' = kids k }.

(** The longest part of a word that a tree has, and the rest of the word. *)
Inductive located : list Z -> tree -> list frame -> tree -> list Z -> Prop :=
  | loc_end k : located [] k [] k []
  | loc_step c w p n l x r fs k w' : tchar x = c -> located w x fs k w' ->
      located (c :: w) (Tree p n (l ++ x :: r)) (fs ++ [mk_frame p n l r]) k w'
  | loc_stop c w k l r : kids k = l ++ r -> StronglySorted Z.lt (map tchar l ++ c :: map tchar r) ->
      located (c :: w) k [] k (c :: w).

Lemma located_plug w k fs k' w' : located w k fs k' w' -> plug fs k' = k.
Proof. induction 1 as [| |]; [done| |done]. rewrite plug_app. cbn. by rewrite IHlocated. Qed.

Lemma trail_ptrs fs k p : p ∈ trail fs ++ [tptr k] -> p ∈ ptrs (plug fs k).
Proof.
  rewrite elem_of_app, list_elem_of_singleton, ptrs_plug, elem_of_app. intros [H| ->].
  - left. apply elem_of_lmap in H as (f & -> & Hf). apply list_elem_of_In, in_rev, list_elem_of_In in Hf.
    apply elem_of_flat_map. exists f. split; [done|]. unfold frame_ptrs. set_solver.
  - right. destruct k. cbn. set_solver.
Qed.

Lemma renamed_insert m q q' p : p <> q -> renamed (<[q := q']> m) p = renamed m p.
Proof. intros H. unfold renamed. by rewrite lookup_insert_ne. Qed.

Lemma frame_copy_ext rho rho' f f' : rho (fptr f) = rho' (fptr f) -> frame_copy rho f f' -> frame_copy rho' f f'.
Proof. intros E [A B C D]. split; try done. by rewrite <- E. Qed.

Lemma frames_copy_ext rho rho' fs fs' : (forall p, p ∈ trail fs -> rho p = rho' p) ->
  Forall2 (frame_copy rho) fs fs' -> Forall2 (frame_copy rho') fs fs'.
Proof.
  intros E H. induction H as [|f f' fs fs' Hf H IH]; [constructor|].
  assert (trail (f :: fs) = trail fs ++ [fptr f]) as Et by (unfold trail; cbn; by rewrite map_app).
  rewrite Et in E. constructor.
  - eapply frame_copy_ext; [|exact Hf]. apply E. set_solver.
  - apply IH. intros p Hp. apply E. set_solver.
Qed.

Lemma same_fields_refl n : same_fields n n.
Proof. done. Qed.

Lemma same_fields_copy n : same_fields n (copy_node n true).
Proof. done. Qed.

(** The state of the descent at an old context with its copy. *)
Record copying (s : trie) (cw : cow) (ctx0 : list frame) (k0 : tree) (ctx1 : list frame) (k1 : tree) : Prop := {
  cp_holds : holds s (plug ctx1 k1);
  cp_frames : Forall2 (frame_copy (renamed (oldToNewTrieNodeMap cw))) ctx0 ctx1;
  cp_focus : tree_copy (renamed (oldToNewTrieNodeMap cw)) k0 k1;
  cp_old : NoDup (ptrs (plug ctx0 k0));
  cp_dom : forall p, is_Some (oldToNewTrieNodeMap cw !! p) -> p ∈ trail ctx0 ++ [tptr k0];
  cp_new : isNewTrieNode cw = false }.

Lemma below_disjoint ctx p n l x r y : NoDup (ptrs (plug ctx (Tree p n (l ++ x :: r)))) -> y ∈ ptrs x ->
  y ∉ trail ctx ++ [p].
Proof.
  rewrite ptrs_plug. intros (_ & Hdis & [Hp Hnd]%NoDup_cons)%NoDup_app Hy.
  assert (y ∈ flat_map ptrs (l ++ x :: r)) as Hin by (apply elem_of_flat_map; exists x; set_solver).
  rewrite not_elem_of_app, list_elem_of_singleton. split; [|by intros ->].
  intros Ht. apply (Hdis y); [|cbn; set_solver].
  apply elem_of_lmap in Ht as (f & -> & Hf). apply list_elem_of_In, in_rev, list_elem_of_In in Hf.
  apply elem_of_flat_map. exists f. split; [done|]. unfold frame_ptrs. set_solver.
Qed.

Lemma tptr_in k : tptr k ∈ ptrs k.
Proof. destruct k. cbn. set_solver. Qed.

Lemma enter_child_run s cw ctx0 p0 n0 l x r ctx1 k1 :
  copying s cw ctx0 (Tree p0 n0 (l ++ x :: r)) ctx1 k1 ->
  exists h1 x1 cw1 n1 fr, enter_child (tnode k1) (tptr k1) (Z.of_nat (length l)) cw s =
      Ok ((tptr x1, cw1), with_nodes s h1) /\
    copying (with_nodes s h1) cw1 (mk_frame p0 n0 l r :: ctx0) x (mk_frame (tptr k1) n1 l r :: ctx1) x1 /\
    isCopy n1 = isCopy (tnode k1) /\ isCopy (tnode x1) = true /\ freed cw1 = freed cw ++ fr /\
    (fr = [] \/ fr = [tptr x] /\ isCopy (tnode x) = false) /\
    (tptr x ∉ fr -> tptr x1 = tptr x) /\
    spares (tptr k1) (nodes s) h1 /\ (forall n, cells (nodes s) !! tptr x1 = Some n -> isCopy n = true) /\
    (forall p n, cells (nodes s) !! p = Some n -> p <> tptr k1 -> cells h1 !! p = Some n).
Proof.
  intros [Hh Hfr [Hp Hn Hk] Hnd Hdom Hnew]. destruct k1 as [p1 n1 cs1]. cbn [tptr tnode kids] in *. subst cs1.
  unfold enter_child. rewrite (bind_run (assert_ _) _ _ tt s) by (apply assert_run; by rewrite Hnew).
  pose proof Hh as [Hs _ _]. pose proof (proj2 (proj1 (shape_plug _ _ _) Hs)) as Hk1.
  assert (getChild n1 (Z.of_nat (length l)) = Ok (tptr x)) as Hget.
  { unfold getChild. assert (childrenPointerList n1 = map tptr (l ++ x :: r)) as -> by (by inversion Hk1).
    rewrite map_app. cbn [map]. rewrite <- (length_map tptr l). apply vec_at_app. }
  rewrite (bind_run _ _ _ _ _ (lift_run _ _ _ Hget)).
  rewrite (bind_run _ _ _ _ _ (load_tree s (mk_frame p1 n1 l r :: ctx1) x Hs)).
  assert (tptr x ∉ trail ctx0 ++ [p0]) as Hx by (eapply below_disjoint; [exact Hnd|apply tptr_in]).
  assert (oldToNewTrieNodeMap cw !! tptr x = None) as Hmx.
  { destruct (oldToNewTrieNodeMap cw !! tptr x) eqn:E; [|done]. destruct Hx. apply Hdom. eauto. }
  assert (trail (mk_frame p0 n0 l r :: ctx0) = trail ctx0 ++ [p0]) as Et by (unfold trail; cbn; by rewrite map_app).
  destruct (isCopy (tnode x)) eqn:Ecopy.
  - exists (nodes s), x, cw, n1, []. rewrite with_nodes_id, app_nil_r.
    split; [done|]. split; [|split; [done|split; [done|split; [done|split; [by left|split; [done|split; [apply spares_refl|split; [|done]]]]]]]].
    + split; [done| | |done| |done].
      * constructor; [by split|done].
      * split; [unfold renamed; by rewrite Hmx|done|done].
      * intros y Hy. rewrite Et. apply elem_of_app. left. by apply Hdom.
    + intros n E. change (Tree p1 n1 (l ++ x :: r)) with (fill (mk_frame p1 n1 l r) x) in Hs.
      change (plug ctx1 (fill (mk_frame p1 n1 l r) x)) with (plug (mk_frame p1 n1 l r :: ctx1) x) in Hs.
      rewrite (plug_focus_cell _ _ _ Hs) in E. congruence.
  - destruct (replace_run s ctx1 p1 n1 l x r (copy_node (tnode x) true) Hh) with (B := (ptr * cow)%type)
      (v := fun q' => (q', mk_cow (<[tptr x := q']> (oldToNewTrieNodeMap cw)) (freed cw ++ [tptr x]) (isNewTrieNode cw)))
      as (Hr & Hh' & Hsp & Hfresh).
    { apply shape_kids in Hs as [_ Hss]. cbn [kids] in Hss. rewrite Forall_app, Forall_cons in Hss.
      destruct Hss as (_ & Hsx & _). by inversion Hsx. }
    rewrite Hr. set (q := next_addr (nodes s)) in *. eexists _, (Tree q (copy_node (tnode x) true) (kids x)), _,
      (with_children n1 (map tptr l ++ q :: map tptr r)), [tptr x].
    split; [reflexivity|]. split; [|split; [done|split; [done|split; [done|split; [by right|split; [set_solver|split; [done|split]]]]]]].
    + split; cbn [oldToNewTrieNodeMap isNewTrieNode]; [exact Hh'| | |done| |done].
      * constructor.
        { split; [|destruct Hn; by split|done|done]. cbn [fptr]. rewrite renamed_insert; [done|].
          intros ->. apply Hx. set_solver. }
        { eapply frames_copy_ext; [|exact Hfr]. intros y Hy. rewrite renamed_insert; [done|]. intros ->. apply Hx. set_solver. }
      * split; [unfold renamed; cbn; by rewrite lookup_insert_eq|apply same_fields_copy|done].
      * intros y Hy. rewrite Et. destruct (decide (y = tptr x)) as [->|Hne]; [set_solver|].
        rewrite lookup_insert_ne in Hy by done. apply elem_of_app. left. by apply Hdom.
    + intros n E. cbn [tptr] in E. congruence.
    + intros y n E Hy. cbn. rewrite lookup_insert_ne by done. rewrite lookup_insert_ne; [done|]. unfold q in Hfresh. congruence.
Qed.
(** What the descent along [w] from the focus makes. *)
Record descended (s : trie) (cw : cow) (w : list Z) (ctx0 : list frame) (k0 : tree) (ctx1 : list frame) (k1 : tree)
    (h' : heap) (cw' : cow) (fr : list ptr) (fs0 : list frame) (k0' : tree) (w' : list Z)
    (fs1 : list frame) (k1' : tree) : Prop := {
  ds_located : located w k0 fs0 k0' w';
  ds_frames : Forall2 (frame_copy (renamed (oldToNewTrieNodeMap cw'))) (fs0 ++ ctx0) (fs1 ++ ctx1);
  ds_focus : tree_copy (renamed (oldToNewTrieNodeMap cw')) k0' k1';
  ds_dom : forall p, is_Some (oldToNewTrieNodeMap cw' !! p) -> p ∈ trail (fs0 ++ ctx0) ++ [tptr k0'];
  ds_freed : freed cw' = freed cw ++ fr;
  ds_nodup : NoDup fr;
  ds_old : forall p, p ∈ fr -> p ∈ trail fs0 ++ [tptr k0'] /\ p <> tptr k0 /\
    exists n, cells (nodes s) !! p = Some n /\ isCopy n = false;
  ds_copies : Forall (fun f => fptr f = tptr k1 \/ isCopy (fnode f) = true) fs1;
  ds_copy : tptr k1' = tptr k1 \/ isCopy (tnode k1') = true;
  ds_all : isCopy (tnode k1) = true -> Forall (fun f => isCopy (fnode f) = true) fs1 /\ isCopy (tnode k1') = true;
  ds_spares : spares (tptr k1) (nodes s) h';
  ds_root : tptr (plug fs1 k1') = tptr k1 }.

(** Where it ends: at the node of the whole word, or at a new chain of nodes. *)
Definition reached (s : trie) (cw : cow) (w : list Z) (d : Z) (ctx1 : list frame) (k1 : tree)
    (h' : heap) (cw' : cow) (k0' : tree) (w' : list Z) (fs1 : list frame) (k1' : tree) : Prop :=
  match w' with
  | [] => descend_copy w (d + 1) (tptr k1) cw s = Ok ((trail fs1 ++ [tptr k1'], cw'), with_nodes s h') /\
      isNewTrieNode cw' = false /\ holds (with_nodes s h') (plug (fs1 ++ ctx1) k1')
  | c :: w2 => exists l r q gs leaf, kids k0' = l ++ r /\
      StronglySorted Z.lt (map tchar l ++ c :: map tchar r) /\
      chain q (d + Z.of_nat (length w) - Z.of_nat (length w2)) c w2 gs leaf /\
      descend_copy w (d + 1) (tptr k1) cw s =
        Ok ((trail fs1 ++ tptr k1' :: trail gs ++ [tptr leaf], cw'), with_nodes s h') /\
      isNewTrieNode cw' = true /\
      holds (with_nodes s h') (plug (gs ++ mk_frame (tptr k1')
        (with_children (tnode k1') (map tptr l ++ q :: map tptr r)) l r :: fs1 ++ ctx1) leaf) /\
      Forall (fun f => isCopy (fnode f) = true) gs /\ isCopy (tnode leaf) = true
  end.

(** The descent stops at the focus: the rest of the word is new. *)
Lemma descend_stop s cw c w ctx0 k0 ctx1 k1 d l r : copying s cw ctx0 k0 ctx1 k1 ->
  kids k0 = l ++ r -> StronglySorted Z.lt (map tchar l ++ c :: map tchar r) ->
  findChildNodePosition (nodes s) (tnode k1) c = Ok (- (Z.of_nat (length l) + 1)) ->
  0 <= d -> d + Z.of_nat (length (c :: w)) < 128 ->
  exists h' cw', descended s cw (c :: w) ctx0 k0 ctx1 k1 h' cw' [] [] k0 (c :: w) [] k1 /\
    reached s cw (c :: w) d ctx1 k1 h' cw' k0 (c :: w) [] k1.
Proof.
  intros [Hh Hfr Hfo Hnd Hdom Hnew] Ek Hsort Hf Hd Hlen. destruct k1 as [p1 n1 cs1]. cbn [tptr tnode] in *.
  pose proof (tc_kids _ _ _ Hfo) as Ek1. cbn [kids] in Ek1. subst cs1. rewrite Ek in Hh. cbn [length] in Hlen.
  set (m' := new_node (d + 1) c true).
  destruct (grow_run s ctx1 p1 n1 l r m' Hh eq_refl _ (fun q => (q, mk_cow (oldToNewTrieNodeMap cw) (freed cw) true)))
    as (Hr & Hh' & Hsp & Hfresh).
  set (q' := next_addr (nodes s)) in *. set (n' := with_children n1 _) in *. set (h1 := update _ p1 n') in *.
  set (cw' := mk_cow (oldToNewTrieNodeMap cw) (freed cw) true) in *.
  destruct (descend_copy_new w (with_nodes s h1) (mk_frame p1 n' l r :: ctx1) q' m' (d + 1) cw') as
    (h2 & gs & k & Hr2 & Hch & Hh2 & Hsp2 & Hgs & Hck);
    [done|apply new_node_bare; lia|lia|lia|done|].
  exists h2, cw'. split.
  - split; try done; cbn [app].
    + by eapply loc_stop.
    + by rewrite app_nil_r.
    + constructor.
    + set_solver.
    + by left.
    + eapply spares_trans; [exact Hsp|exact Hsp2|]. right. intros n Hn. congruence.
  - unfold reached. cbn [app length]. exists l, r, q', gs, k. split; [done|]. split; [done|].
    replace (d + Z.of_nat (S (length w)) - Z.of_nat (length w)) with (d + 1) by lia.
    split; [exact Hch|]. split; [|done]. cbn [descend_copy tptr].
    rewrite (bind_run (assert_ _) _ _ tt s).
    2:{ apply assert_run. rewrite bool_decide_false; [done|].
        pose proof (proj2 (proj1 (shape_plug _ _ _) (h_shape _ _ Hh))) as Hk1. by inversion Hk1. }
    rewrite (bind_run _ _ _ _ _ (load_holds _ _ _ _ _ Hh)), (bind_run _ _ _ _ _ (on_heap_run _ _ _ Hf)).
    destruct (Z.leb_spec 0 (- (Z.of_nat (length l) + 1))); [lia|].
    replace (- - (Z.of_nat (length l) + 1) - 1) with (Z.of_nat (length l)) by lia.
    rewrite (bind_run _ _ _ _ _ Hr), (bind_run _ _ _ _ _ Hr2). done.
Qed.
Lemma trail_head fs k : tptr (plug fs k) ∈ trail fs ++ [tptr k].
Proof.
  pose proof (tptr_plug_head fs k) as H. fold (trail fs) in H.
  destruct (trail fs ++ [tptr k]); cbn in H; simplify_eq. set_solver.
Qed.

(** One step down joined with the rest of the descent. *)
Lemma descended_step s cw c w ctx0 p0 n0 l x r ctx1 k1 h1 x1 cw1 n1 fr h' cw' fr' fs0 k0' w' fs1 k1' :
  holds s (plug ctx1 k1) -> kids k1 = l ++ x :: r -> NoDup (ptrs (plug ctx0 (Tree p0 n0 (l ++ x :: r)))) ->
  tchar x = c -> freed cw1 = freed cw ++ fr -> (fr = [] \/ fr = [tptr x] /\ isCopy (tnode x) = false) ->
  isCopy n1 = isCopy (tnode k1) -> isCopy (tnode x1) = true -> spares (tptr k1) (nodes s) h1 ->
  (forall n, cells (nodes s) !! tptr x1 = Some n -> isCopy n = true) ->
  (forall p n, cells (nodes s) !! p = Some n -> p <> tptr k1 -> cells h1 !! p = Some n) ->
  holds (with_nodes s h1) (plug (mk_frame (tptr k1) n1 l r :: ctx1) x1) ->
  descended (with_nodes s h1) cw1 w (mk_frame p0 n0 l r :: ctx0) x (mk_frame (tptr k1) n1 l r :: ctx1) x1
    h' cw' fr' fs0 k0' w' fs1 k1' ->
  descended s cw (c :: w) ctx0 (Tree p0 n0 (l ++ x :: r)) ctx1 k1 h' cw' (fr ++ fr')
    (fs0 ++ [mk_frame p0 n0 l r]) k0' w' (fs1 ++ [mk_frame (tptr k1) n1 l r]) k1'.
Proof.
  intros Hh Hk Hnd Hc Hf1 Hfr Hn1 Hx1 Hsp Hx1s Hkeep Hh1 [A B C D E F G H I K J L].
  assert (forall y, y ∈ trail fs0 ++ [tptr k0'] -> y ∈ ptrs x) as Hin.
  { intros y Hy. rewrite <- (located_plug _ _ _ _ _ A). by apply trail_ptrs. }
  destruct k1 as [p1 m1 cs1]. cbn [kids tptr tnode] in *. subst cs1.
  assert (forall y, y ∈ ptrs x -> y <> p1) as Hp1.
  { intros y Hy ->. apply (below_disjoint ctx1 p1 m1 l x r p1 (h_nodup _ _ Hh) Hy). set_solver. }
  assert (forall y, y ∈ ptrs x -> exists n, cells (nodes s) !! y = Some n /\ cells h1 !! y = Some n) as Hcell.
  { intros y Hy. destruct (shape_live (nodes s) x y) as [n Hn]; [|done|].
    - pose proof (h_shape _ _ Hh) as Hs. apply shape_kids in Hs as [_ Hs]. cbn [kids] in Hs.
      rewrite Forall_app, Forall_cons in Hs. tauto.
    - exists n. split; [done|]. apply Hkeep; [done|by apply Hp1]. }
  split.
  - by apply (loc_step c w p0 n0 l x r).
  - rewrite <- !app_assoc. exact B.
  - done.
  - rewrite <- app_assoc. exact D.
  - rewrite E, Hf1. by rewrite <- app_assoc.
  - apply NoDup_app. split; [destruct Hfr as [->|[-> _]]; [constructor|apply NoDup_singleton]|]. split; [|done].
    intros y Hy Hy'. destruct Hfr as [->|[-> _]]; [set_solver|]. apply list_elem_of_singleton in Hy as ->.
    by destruct (G _ Hy') as (_ & ? & _).
  - intros y. rewrite elem_of_app. intros [Hy|Hy].
    + destruct Hfr as [->|[-> Hxc]]; [set_solver|]. apply list_elem_of_singleton in Hy as ->.
      split; [|split].
      * pose proof (trail_head fs0 k0') as Hhd. rewrite (located_plug _ _ _ _ _ A) in Hhd.
        rewrite trail_app. cbn. by right.
      * cbn. intros Ep. apply (below_disjoint ctx0 p0 n0 l x r p0 Hnd); [|set_solver]. rewrite <- Ep. apply tptr_in.
      * exists (tnode x). split; [|done]. apply (plug_focus_cell _ (mk_frame p1 m1 l r :: ctx1)). apply Hh.
    + destruct (G y Hy) as (G1 & _ & n & Hn & Hcn). split; [|split].
      * rewrite trail_app. cbn. rewrite !elem_of_app in *. cbn. set_solver.
      * cbn. intros ->. apply (below_disjoint ctx0 p0 n0 l x r p0 Hnd); [by apply Hin|set_solver].
      * exists n. split; [|done]. destruct (Hcell y (Hin _ G1)) as (n' & Hn' & Hn''). cbn in Hn. congruence.
  - apply Forall_app. split; [|apply Forall_singleton; by left].
    eapply Forall_impl; [exact (proj1 (K Hx1))|]. cbn. by right.
  - right. exact (proj2 (K Hx1)).
  - cbn. intros Hm. destruct (K Hx1). split; [|done]. apply Forall_app. split; [done|].
    apply Forall_singleton. cbn. by rewrite Hn1.
  - eapply spares_trans; [exact Hsp|exact J|]. by right.
  - by rewrite plug_app.
Qed.
Lemma descended_end s cw ctx0 k0 ctx1 k1 : copying s cw ctx0 k0 ctx1 k1 ->
  descended s cw [] ctx0 k0 ctx1 k1 (nodes s) cw [] [] k0 [] [] k1.
Proof.
  intros [Hh Hfr Hfo Hnd Hdom Hnew]. split; try done; cbn [app].
  - constructor.
  - by rewrite app_nil_r.
  - constructor.
  - set_solver.
  - by left.
Qed.

(** What a step down makes of the place that the rest of the descent reaches. *)
Lemma reached_step s cw c w d ctx1 k1 h1 x1 cw1 f1 h' cw' k0' w' fs1 k1' l :
  fptr f1 = tptr k1 -> tptr k1 <> NULL -> load_node (tptr k1) s = Ok (tnode k1, s) ->
  findChildNodePosition (nodes s) (tnode k1) c = Ok (Z.of_nat (length l)) ->
  enter_child (tnode k1) (tptr k1) (Z.of_nat (@length tree l)) cw s = Ok ((tptr x1, cw1), with_nodes s h1) ->
  reached (with_nodes s h1) cw1 w (d + 1) (f1 :: ctx1) x1 h' cw' k0' w' fs1 k1' ->
  reached s cw (c :: w) d ctx1 k1 h' cw' k0' w' (fs1 ++ [f1]) k1'.
Proof.
  intros Hf1 Hn Hl Hpos Hr. assert (forall p, descend_copy w (d + 1 + 1) (tptr x1) cw1 (with_nodes s h1) = Ok ((p, cw'), with_nodes s h') ->
    descend_copy (c :: w) (d + 1) (tptr k1) cw s = Ok ((tptr k1 :: p, cw'), with_nodes s h')) as Hstep.
  { intros p Hp. cbn [descend_copy].
    rewrite (bind_run (assert_ _) _ _ tt s) by (by apply assert_run; rewrite bool_decide_false).
    rewrite (bind_run _ _ _ _ _ Hl), (bind_run _ _ _ _ _ (on_heap_run _ _ _ Hpos)).
    destruct (Z.leb_spec 0 (Z.of_nat (length l))); [|lia].
    rewrite (bind_run _ _ _ _ _ Hr), (bind_run _ _ _ _ _ Hp). done. }
  unfold reached. rewrite <- app_assoc. cbn [app]. destruct w' as [|c2 w2].
  - intros (Hd & Hnew & Hh). split; [|done]. rewrite trail_app. cbn. rewrite Hf1. by apply Hstep.
  - intros (l' & r & q & gs & leaf & Hk & Hs & Hch & Hd & Hrest). exists l', r, q, gs, leaf.
    split; [done|]. split; [done|]. split.
    { replace (d + Z.of_nat (length (c :: w)) - Z.of_nat (length w2)) with
        (d + 1 + Z.of_nat (length w) - Z.of_nat (length w2)) by (cbn; lia). done. }
    split; [|done]. rewrite trail_app. cbn. rewrite Hf1. by apply Hstep.
Qed.

Lemma descend_copy_run w : forall s cw ctx0 k0 ctx1 k1 d, copying s cw ctx0 k0 ctx1 k1 ->
  wf d k0 -> 0 <= d -> d + Z.of_nat (length w) < 128 ->
  exists h' cw' fr fs0 k0' w' fs1 k1',
    descended s cw w ctx0 k0 ctx1 k1 h' cw' fr fs0 k0' w' fs1 k1' /\
    reached s cw w d ctx1 k1 h' cw' k0' w' fs1 k1'.
Proof.
  induction w as [|c w IH]; intros s cw ctx0 k0 ctx1 k1 d Hcp Hw Hd Hlen.
  - exists (nodes s), cw, [], [], k0, [], [], k1. split; [by apply descended_end|].
    unfold reached. rewrite with_nodes_id. split; [done|]. split; apply Hcp.
  - pose proof (h_shape _ _ (cp_holds _ _ _ _ _ _ Hcp)) as Hs. cbn [length] in Hlen.
    pose proof (proj2 (proj1 (shape_plug _ _ _) Hs)) as Hk.
    pose proof (tc_kids _ _ _ (cp_focus _ _ _ _ _ _ Hcp)) as Ek.
    destruct (find_kid _ _ c Hk) as (pos & Hf & Hcase); [rewrite Ek; by eapply wf_kids|]. rewrite Ek in Hcase.
    destruct Hcase as [(l & x & r & Ek0 & Hx & ->)|(l & r & Ek0 & -> & Hsort)].
    + destruct k0 as [p0 n0 cs0]. cbn [kids] in Ek0, Ek. rewrite Ek0 in *. clear Ek0 cs0.
      destruct (enter_child_run _ _ _ _ _ _ _ _ _ _ Hcp) as
        (h1 & x1 & cw1 & n1 & fr & Hr & Hcp1 & Hn1 & Hx1 & Hf1 & Hfr & _ & Hsp & Hx1s & Hkeep).
      change (Tree p0 n0 (l ++ x :: r)) with (fill (mk_frame p0 n0 l r) x) in Hw. apply wf_fill in Hw as (_ & _ & Hwx & _).
      destruct (IH _ _ _ _ _ _ (d + 1) Hcp1 Hwx) as (h' & cw' & fr' & fs0 & k0' & w' & fs1 & k1' & Hds & Hre); [lia|lia|].
      eexists h', cw', (fr ++ fr'), _, k0', w', _, k1'. split.
      * eapply descended_step; try done; [apply Hcp|apply Hcp|apply Hcp1].
      * eapply reached_step; try done; [by inversion Hk|]. by apply (load_tree s ctx1).
    + destruct (descend_stop s cw c w ctx0 k0 ctx1 k1 d l r Hcp Ek0 Hsort Hf) as (h' & cw' & Hds & Hre);
        [done|cbn [length]; lia|]. by eexists h', cw', [], [], k0, (c :: w), [], k1.
Qed.
(** ** Redirecting the links *)

Definition relink (rho : ptr -> ptr) (n : TrieNode) : TrieNode :=
  with_right (with_left n (rho (leftMostDescendant n))) (rho (rightMostDescendant n)).
Definition relink_frame (rho : ptr -> ptr) (f : frame) : frame :=
  mk_frame (fptr f) (relink rho (fnode f)) (fleft f) (fright f).
Definition relink_root (rho : ptr -> ptr) (k : tree) : tree := Tree (tptr k) (relink rho (tnode k)) (kids k).

(** Only the root and copies of nodes were changed. *)
Lemma relinks_spares root l h h' : relinks l h h' -> Forall (owned root h) l -> spares root h h'.
Proof.
  intros [A B C] Ho. split; [|intros p [n Hp]|done].
  - intros p n Hp Hc Hne. rewrite A; [done|]. intros Hin. rewrite Forall_forall in Ho.
    destruct (Ho p Hin) as [->|(m & Hm & Hmc)]; [done|]. congruence.
  - destruct (B p n Hp) as (a & b & ->). eauto.
Qed.

(** Redirecting one node at the focus. *)
Lemma remap_node_run s ctx p n cs m : holds s (plug ctx (Tree p n cs)) ->
  exists h', remap_descendants m p s = Ok (tt, with_nodes s h') /\
    holds (with_nodes s h') (plug ctx (Tree p (relink (renamed m) n) cs)) /\ relinks [p] (nodes s) h'.
Proof.
  intros Hh. unfold remap_descendants. rewrite (bind_run _ _ _ _ _ (load_holds _ _ _ _ _ Hh)).
  set (n1 := with_left n (renamed m (leftMostDescendant n))).
  assert (exists h1, (match m !! leftMostDescendant n with Some q => store_node p (with_left n q) | None => ret tt end) s
      = Ok (tt, with_nodes s h1) /\ holds (with_nodes s h1) (plug ctx (Tree p n1 cs)) /\ relinks [p] (nodes s) h1)
    as (h1 & Hr1 & Hh1 & Hre1).
  { unfold n1, renamed. destruct (m !! leftMostDescendant n) as [q|]; cbn [default].
    - destruct (store_holds s ctx p n cs (with_left n q) Hh eq_refl) as (s1 & Hst & -> & Hh1).
      eexists. split; [exact Hst|]. split; [exact Hh1|].
      destruct (relinks_store s p n q (rightMostDescendant n) _ (load_holds _ _ _ _ _ Hh) Hst) as [_ H]. exact H.
    - exists (nodes s). rewrite with_nodes_id. split; [done|]. split; [|apply relinks_refl].
      replace (with_left n (leftMostDescendant n)) with n by (by destruct n). done. }
  rewrite (bind_run _ _ _ _ _ Hr1), (bind_run _ _ _ _ _ (load_holds _ _ _ _ _ Hh1)).
  change (rightMostDescendant n1) with (rightMostDescendant n). unfold relink. fold n1.
  unfold renamed. destruct (m !! rightMostDescendant n) as [q|]; cbn [default].
  - destruct (store_holds _ ctx p n1 cs (with_right n1 q) Hh1 eq_refl) as (s2 & Hst & -> & Hh2).
    eexists. split; [exact Hst|]. split; [exact Hh2|].
    destruct (relinks_store _ p n1 (leftMostDescendant n1) q _ (load_holds _ _ _ _ _ Hh1) Hst) as [_ H].
    eapply relinks_mono; [|exact (relinks_trans _ _ _ _ _ Hre1 H)]. set_solver.
  - exists h1. split; [done|]. split; [|done]. replace (with_right n1 (rightMostDescendant n)) with n1 by (by destruct n).
    done.
Qed.

Lemma remap_frames_run m gs : forall s ctx k, holds s (plug (gs ++ ctx) k) ->
  exists h', for_each (trail gs) (remap_descendants m) s = Ok (tt, with_nodes s h') /\
    holds (with_nodes s h') (plug (map (relink_frame (renamed m)) gs ++ ctx) k) /\ relinks (trail gs) (nodes s) h'.
Proof.
  induction gs as [|f gs IH] using rev_ind; intros s ctx k Hh.
  - exists (nodes s). rewrite with_nodes_id. split; [done|]. split; [done|apply relinks_refl].
  - rewrite <- app_assoc in Hh. cbn [app] in Hh. rewrite trail_app. change (trail [f]) with [fptr f]. cbn [for_each app].
    pose proof Hh as Hh0. rewrite plug_app in Hh0. cbn [plug] in Hh0.
    destruct (remap_node_run s ctx (fptr f) (fnode f) _ m Hh0) as (h1 & Hr1 & Hh1 & Hre1).
    rewrite (bind_run _ _ _ _ _ Hr1).
    assert (holds (with_nodes s h1) (plug (gs ++ relink_frame (renamed m) f :: ctx) k)) as Hh1'
      by (rewrite plug_app; exact Hh1).
    destruct (IH _ _ _ Hh1') as (h2 & Hr2 & Hh2 & Hre2). exists h2. split; [exact Hr2|].
    rewrite map_app, <- app_assoc. split; [exact Hh2|].
    exact (relinks_trans _ _ _ _ _ Hre1 Hre2).
Qed.

Lemma for_each_app {S A} (l1 l2 : list A) (body : A -> st S unit) s s1 :
  for_each l1 body s = Ok (tt, s1) -> for_each (l1 ++ l2) body s = for_each l2 body s1.
Proof.
  revert s. induction l1 as [|x l1 IH]; intros s; cbn [for_each app]; [by intros [= ->]|].
  intros ([] & s2 & Hx & Hl)%bind_Ok. rewrite (bind_run _ _ _ _ _ Hx). by apply IH.
Qed.

Lemma remap_run m s ctx k : holds s (plug ctx k) ->
  exists h', for_each (trail ctx ++ [tptr k]) (remap_descendants m) s = Ok (tt, with_nodes s h') /\
    holds (with_nodes s h') (plug (map (relink_frame (renamed m)) ctx) (relink_root (renamed m) k)) /\
    relinks (trail ctx ++ [tptr k]) (nodes s) h'.
Proof.
  intros Hh. destruct (remap_frames_run m ctx s [] k) as (h1 & Hr1 & Hh1 & Hre1); [by rewrite app_nil_r|].
  rewrite app_nil_r in Hh1. destruct k as [p n cs].
  destruct (remap_node_run _ _ p n cs m Hh1) as (h2 & Hr2 & Hh2 & Hre2). exists h2.
  rewrite (for_each_app _ _ _ _ _ Hr1). cbn [for_each]. rewrite (bind_run _ _ _ _ _ Hr2).
  split; [done|]. split; [exact Hh2|]. exact (relinks_trans _ _ _ _ _ Hre1 Hre2).
Qed.
(** ** A tree with other addresses *)

(** The node [n'] is [n] with its links renamed. *)
Record ren_node (rho : ptr -> ptr) (n n' : TrieNode) : Prop := {
  rn_flags : terminalFlag1bDepth7b n' = terminalFlag1bDepth7b n;
  rn_char : character n' = character n;
  rn_id : id n' = id n;
  rn_offset : invertedListOffset n' = invertedListOffset n;
  rn_left : leftMostDescendant n' = rho (leftMostDescendant n);
  rn_right : rightMostDescendant n' = rho (rightMostDescendant n) }.

Inductive ren (rho : ptr -> ptr) : tree -> tree -> Prop :=
  ren_tree p n n' cs cs' : ren_node rho n n' -> Forall2 (ren rho) cs cs' ->
    ren rho (Tree p n cs) (Tree (rho p) n' cs').

Lemma ren_root rho t t' : ren rho t t' -> tptr t' = rho (tptr t) /\ ren_node rho (tnode t) (tnode t') /\
  Forall2 (ren rho) (kids t) (kids t').
Proof. by inversion 1. Qed.

Lemma ren_node_facts rho n n' : ren_node rho n n' -> isTerminalNode n' = isTerminalNode n /\
  getDepth n' = getDepth n /\ own n' = own n.
Proof. intros [A _ B C _ _]. unfold own, isTerminalNode, getDepth. by rewrite A, B, C. Qed.

Lemma ren_chars rho cs cs' : Forall2 (ren rho) cs cs' -> map tchar cs' = map tchar cs.
Proof.
  induction 1 as [|k k' cs cs' Hk _ IH]; [done|]. cbn. rewrite IH. f_equal.
  destruct (ren_root _ _ _ Hk) as (_ & Hn & _). apply Hn.
Qed.

Lemma ren_entries rho t : forall t', ren rho t t' -> entries t' = entries t.
Proof.
  induction t as [p n cs IH] using tree_ind'. intros t'. inversion_clear 1 as [? ? n' ? cs' Hn Hcs].
  cbn [entries]. destruct (ren_node_facts _ _ _ Hn) as (_ & _ & ->). f_equal.
  induction Hcs as [|k k' cs cs' Hk Hcs IHcs]; cbn; [done|]. inversion_clear IH as [|? ? IHk IH'].
  rewrite (IHk k' Hk), (IHcs IH'). do 2 f_equal. destruct (ren_root _ _ _ Hk) as (_ & Hkn & _).
  unfold tchar. by rewrite (rn_char _ _ _ Hkn).
Qed.

Lemma ren_wf rho t : rho NULL = NULL -> forall d t', ren rho t t' -> wf d t -> wf d t'.
Proof.
  intros Hnull. induction t as [p n cs IH] using tree_ind'. intros d t'.
  inversion_clear 1 as [? ? n' ? cs' Hn Hcs]. inversion_clear 1 as [? ? ? ? Hd Hs Hw Hi Hl Hr].
  destruct (ren_node_facts _ _ _ Hn) as (Ht & Hdep & _). constructor.
  - by rewrite Hdep.
  - by rewrite (ren_chars _ _ _ Hcs).
  - clear -IH Hcs Hw. induction Hcs as [|k k' cs cs' Hk Hcs IHcs]; [constructor|].
    inversion_clear IH as [|? ? IHk IH']. inversion_clear Hw as [|? ? Hwk Hw']. constructor; auto.
  - clear -Hcs Hi. induction Hcs as [|k k' cs cs' Hk Hcs IHcs]; [constructor|].
    inversion_clear Hi as [|? ? Hik Hi']. constructor; [|auto].
    destruct (ren_root _ _ _ Hk) as (_ & Hn & Hks). unfold inhabited in *.
    destruct (ren_node_facts _ _ _ Hn) as (-> & _). intros E. apply Hik. rewrite E in Hks. by inversion Hks.
  - rewrite (rn_left _ _ _ Hn), Hl. unfold left_of. rewrite Ht. destruct (isTerminalNode n); [done|].
    destruct Hcs as [|k k' ? ? Hk _]; [done|]. destruct (ren_root _ _ _ Hk) as (_ & Hkn & _).
    symmetry. apply Hkn.
  - rewrite (rn_right _ _ _ Hn), Hr. unfold right_of. rewrite Ht. pose proof (Forall2_last _ _ _ Hcs) as HL.
    destruct (last cs), (last cs'); try done.
    + destruct (ren_root _ _ _ HL) as (_ & Hkn & _). symmetry. apply Hkn.
    + by destruct (isTerminalNode n).
Qed.

(** The links of a tree stay inside the tree. *)
Lemma links_inside t : forall d, wf d t ->
  (leftMostDescendant (tnode t) = NULL \/ leftMostDescendant (tnode t) ∈ ptrs t) /\
  (rightMostDescendant (tnode t) = NULL \/ rightMostDescendant (tnode t) ∈ ptrs t).
Proof.
  induction t as [p n cs IH] using tree_ind'. intros d. inversion_clear 1 as [? ? ? ? _ _ Hw _ Hl Hr].
  cbn [tnode ptrs]. rewrite Hl, Hr. unfold left_of, right_of.
  rewrite Forall_forall in IH, Hw. split.
  - destruct (isTerminalNode n); [right; set_solver|]. destruct cs as [|k cs]; [by left|].
    assert (k ∈ k :: cs) as Hk by set_solver.
    destruct (IH k Hk (d + 1) (Hw k Hk)) as [[->|H] _]; [by left|right]. cbn. set_solver.
  - destruct (last cs) as [k|] eqn:E; [|destruct (isTerminalNode n); [right; set_solver|by left]].
    apply last_Some in E as [l ->]. assert (k ∈ l ++ [k]) as Hk by set_solver.
    destruct (IH k Hk (d + 1) (Hw k Hk)) as [_ [->|H]]; [by left|right].
    apply elem_of_cons. right. apply elem_of_flat_map. by exists k.
Qed.

Lemma ren_id rho t : rho NULL = NULL -> forall d, wf d t -> (forall p, p ∈ ptrs t -> rho p = p) -> ren rho t t.
Proof.
  intros Hnull. induction t as [p n cs IH] using tree_ind'. intros d Hw Hid.
  destruct (links_inside _ _ Hw) as [Hl Hr]. cbn [tnode] in Hl, Hr.
  assert (ren rho (Tree p n cs) (Tree (rho p) n cs)) as H; [|by rewrite (Hid p) in H by (cbn; set_solver)].
  constructor.
  - split; try done; [destruct Hl as [->|Hl]|destruct Hr as [->|Hr]]; rewrite ?Hnull, ?Hid by done; done.
  - inversion_clear Hw as [? ? ? ? _ _ Hws _ _ _]. cbn [ptrs] in Hid. clear Hl Hr.
    induction cs as [|k cs IHcs]; [constructor|]. inversion_clear IH. inversion_clear Hws. cbn in Hid.
    constructor.
    + match goal with H : forall d, wf d k -> _ |- _ => apply (H (d + 1)) end; [done|set_solver].
    + apply IHcs; [done|set_solver|done].
Qed.

Record ren_frame (rho : ptr -> ptr) (f f' : frame) : Prop := {
  rf_ptr : fptr f' = rho (fptr f);
  rf_node : ren_node rho (fnode f) (fnode f');
  rf_left : Forall2 (ren rho) (fleft f) (fleft f');
  rf_right : Forall2 (ren rho) (fright f) (fright f') }.

Lemma ren_plug rho ctx ctx' : Forall2 (ren_frame rho) ctx ctx' -> forall k k', ren rho k k' ->
  ren rho (plug ctx k) (plug ctx' k').
Proof.
  induction 1 as [|f f' ctx ctx' [Hp Hn Hl Hr] _ IH]; intros k k' Hk; [done|]. cbn [plug]. apply IH.
  unfold fill. rewrite Hp. constructor; [done|]. apply Forall2_app; [done|]. by constructor.
Qed.

Lemma ren_context rho ctx ctx' c c' : Forall2 (ren_frame rho) ctx ctx' -> c' = c ->
  before ctx' c' = before ctx c /\ after ctx' c' = after ctx c /\ ctx_word ctx' c' = ctx_word ctx c.
Proof.
  assert (forall l l', Forall2 (ren rho) l l' -> flat_map kid_entries l' = flat_map kid_entries l) as Hks.
  { induction 1 as [|k k' l l' Hk _ IH]; [done|]. cbn. rewrite IH. f_equal. unfold kid_entries.
    rewrite (ren_entries _ _ _ Hk). destruct (ren_root _ _ _ Hk) as (_ & Hn & _).
    unfold tchar. by rewrite (rn_char _ _ _ Hn). }
  intros H ->. revert c. induction H as [|f f' ctx ctx' [Hp Hn Hl Hr] _ IH]; intros c; [done|]. cbn [before after ctx_word].
  destruct (ren_node_facts _ _ _ Hn) as (_ & _ & Ho). rewrite (rn_char _ _ _ Hn), Ho, (Hks _ _ Hl), (Hks _ _ Hr).
  destruct (IH (character (fnode f))) as (-> & -> & ->). done.
Qed.
(** ** The path after the copying *)

(** The copied path, its links redirected, is the old path with other addresses. *)
Lemma copy_relinked rho f0 f1 d : rho NULL = NULL -> frame_copy rho f0 f1 ->
  Forall (wf d) (fleft f0) -> Forall (wf d) (fright f0) ->
  (forall p, p ∈ flat_map ptrs (fleft f0) ++ flat_map ptrs (fright f0) -> rho p = p) ->
  ren_frame rho f0 (relink_frame rho f1).
Proof.
  intros Hnull [Hp [Hfl Hc Hi Ho Hl Hr] El Er] Hwl Hwr Hid.
  assert (forall l, Forall (wf d) l -> (forall p, p ∈ flat_map ptrs l -> rho p = p) -> Forall2 (ren rho) l l) as Hsib.
  { intros l Hw Hl'. induction Hw as [|k l Hk _ IH]; cbn in Hl'; constructor.
    - apply (ren_id rho k Hnull d Hk). set_solver.
    - apply IH. set_solver. }
  split; cbn; [done| | |].
  - split; cbn; congruence.
  - rewrite El. apply Hsib; [done|set_solver].
  - rewrite Er. apply Hsib; [done|set_solver].
Qed.

Lemma copy_relinked_focus rho k0 k1 d : rho NULL = NULL -> tree_copy rho k0 k1 -> wf d k0 ->
  (forall p, p ∈ flat_map ptrs (kids k0) -> rho p = p) -> ren rho k0 (relink_root rho k1).
Proof.
  intros Hnull [Hp [Hfl Hc Hi Ho Hl Hr] Ek] Hw Hid. destruct k0 as [p0 n0 cs0]. cbn [tptr tnode kids] in *.
  unfold relink_root. rewrite Hp, Ek. constructor.
  - split; cbn; congruence.
  - inversion_clear Hw as [? ? ? ? _ _ Hws _ _ _]. clear -Hnull Hws Hid.
    induction Hws as [|k cs Hk _ IH]; cbn in Hid; constructor.
    + apply (ren_id rho k Hnull (d + 1) Hk). set_solver.
    + apply IH. set_solver.
Qed.

(** The addresses beside the path are not those of the path. *)
Lemma beside_path ctx k : NoDup (ptrs (plug ctx k)) ->
  (forall f p, f ∈ ctx -> p ∈ flat_map ptrs (fleft f) ++ flat_map ptrs (fright f) -> p ∉ trail ctx ++ [tptr k]) /\
  (forall p, p ∈ flat_map ptrs (kids k) -> p ∉ trail ctx ++ [tptr k]).
Proof.
  assert (ptrs k = tptr k :: flat_map ptrs (kids k)) as Ek by (by destruct k).
  assert (forall l, flat_map frame_ptrs l ≡ₚ trail l ++ flat_map (fun f => flat_map ptrs (fleft f) ++ flat_map ptrs (fright f)) l) as Hsplit.
  { induction l as [|f l IH]; [done|]. cbn [flat_map]. rewrite IH.
    assert (trail (f :: l) = trail l ++ [fptr f]) as -> by (unfold trail; cbn; by rewrite map_app).
    unfold frame_ptrs. solve_Permutation. }
  intros Hnd. rewrite ptrs_plug in Hnd. unfold ctx_ptrs in Hnd. rewrite Hsplit, Ek in Hnd.
  assert ((trail ctx ++ flat_map (fun f => flat_map ptrs (fleft f) ++ flat_map ptrs (fright f)) ctx) ++ tptr k :: flat_map ptrs (kids k)
    ≡ₚ (trail ctx ++ [tptr k]) ++ flat_map (fun f => flat_map ptrs (fleft f) ++ flat_map ptrs (fright f)) ctx ++ flat_map ptrs (kids k)) as P
    by solve_Permutation.
  rewrite P in Hnd. apply NoDup_app in Hnd as (_ & Hd & _). split.
  - intros f p Hf Hp Hin. apply (Hd p Hin). apply elem_of_app. left. apply elem_of_flat_map. eauto.
  - intros p Hp Hin. apply (Hd p Hin). apply elem_of_app. by right.
Qed.

(** The siblings along a context are well formed. *)
Lemma ctx_siblings d ctx c : ctx_ok d ctx c ->
  Forall (fun f => exists e, Forall (wf e) (fleft f) /\ Forall (wf e) (fright f)) ctx.
Proof.
  revert d c. induction ctx as [|f ctx IH]; intros d c; cbn [ctx_ok]; [constructor|].
  intros [Hf Hc]. constructor; [|by eapply IH]. eexists. split; [apply (fo_left _ _ _ Hf)|apply (fo_right _ _ _ Hf)].
Qed.

Lemma renamed_outside m p : m !! p = None -> renamed m p = p.
Proof. unfold renamed. by intros ->. Qed.

(** The whole tree after the copying, as if the new part of the word did not
    hang there yet, is the old tree with other addresses. *)
Lemma copied_ren h m fs0 k0 fs1 k1 d : let rho := renamed m in
  shape h (plug fs0 k0) -> NoDup (ptrs (plug fs0 k0)) -> wf d (plug fs0 k0) -> d = 0 ->
  Forall2 (frame_copy rho) fs0 fs1 -> tree_copy rho k0 k1 ->
  (forall p, is_Some (m !! p) -> p ∈ trail fs0 ++ [tptr k0]) ->
  rho NULL = NULL /\ Forall2 (ren_frame rho) fs0 (map (relink_frame rho) fs1) /\ ren rho k0 (relink_root rho k1).
Proof.
  intros rho Hs Hnd Hw -> Hfs Hk Hdom. apply wf_plug in Hw as (d & Hok & _ & Hwk & _).
  pose proof (ctx_siblings _ _ _ Hok) as Hsib. destruct (beside_path _ _ Hnd) as [Hb1 Hb2].
  assert (forall p, p ∉ trail fs0 ++ [tptr k0] -> rho p = p) as Hid.
  { intros p Hp. apply renamed_outside. destruct (m !! p) eqn:E; [|done]. destruct Hp. apply Hdom. eauto. }
  assert (rho NULL = NULL) as Hnull.
  { apply Hid. intros Hin%trail_ptrs. destruct (shape_live _ _ _ Hs Hin) as [n Hn].
    assert (forall t q, shape h t -> q ∈ ptrs t -> q <> NULL) as Hnn; [|by apply (Hnn _ _ Hs Hin)].
    clear. induction t as [p n cs IH] using tree_ind'. intros q. inversion_clear 1 as [? ? ? Hp _ _ Hcs].
    intros [->|Hq]%elem_of_cons; [done|]. apply elem_of_flat_map in Hq as (k & Hk & Hq).
    rewrite Forall_forall in *. eauto. }
  split; [done|]. split.
  - clear Hs Hnd Hok Hk Hdom Hb2. assert (forall f p, f ∈ fs0 -> p ∈ flat_map ptrs (fleft f) ++ flat_map ptrs (fright f) -> rho p = p) as Hb
      by (intros f p Hf Hp; apply Hid; eauto). clear Hb1 Hid.
    induction Hfs as [|f f' fs fs' Hf _ IH]; cbn [map]; constructor.
    + inversion_clear Hsib as [|? ? (e & Hl & Hr) _]. apply (copy_relinked rho f f' e); try done.
      intros p. apply (Hb f). set_solver.
    + inversion_clear Hsib. apply IH; [done|]. intros g p Hg. apply Hb. set_solver.
  - apply (copy_relinked_focus rho k0 k1 d); try done. intros p Hp. apply Hid. by apply Hb2.
Qed.
Lemma located_word w k fs k' w' : located w k fs k' w' ->
  ctx_word fs (tchar k') ++ w' = w /\ (length fs + length w' = length w)%nat.
Proof.
  induction 1 as [|c w p n l x r fs k w' Hx Hloc [IH1 IH2]|]; [done| |done].
  rewrite ctx_word_app, <- tchar_plug, (located_plug _ _ _ _ _ Hloc). cbn. rewrite length_app. cbn.
  split; [by rewrite IH1, Hx|lia].
Qed.

Lemma trail_relink rho fs : trail (map (relink_frame rho) fs) = trail fs.
Proof. unfold trail. rewrite <- map_rev, map_map. done. Qed.

Lemma relink_bare rho d c m : rho NULL = NULL -> bare d c m -> relink rho m = m.
Proof.
  intros Hnull [_ _ _ Hl Hr _]. unfold relink. rewrite Hl, Hr, Hnull. destruct m; cbn in *. by subst.
Qed.

Lemma chain_relink rho q d c w gs k : rho NULL = NULL -> chain q d c w gs k ->
  map (relink_frame rho) gs = gs /\ relink_root rho k = k.
Proof.
  intros Hnull. induction 1 as [q d c m Hm|q q' d c c' w gs k m Hm _ [IH1 IH2]].
  - split; [done|]. unfold relink_root. cbn. by rewrite (relink_bare _ _ _ _ Hnull Hm).
  - rewrite map_app, IH1. cbn. unfold relink_frame. cbn. by rewrite (relink_bare _ _ _ _ Hnull Hm).
Qed.

(** The sub-trees beside a path of [t]. *)
Definition beside (t : tree) (y : tree) : Prop := exists f ctx, plug (f :: ctx) y = t.

Lemma beside_kid t ctx k y : plug ctx k = t -> y ∈ kids k -> beside t y.
Proof.
  intros <- Hy. destruct k as [p n cs]. cbn in Hy. apply list_elem_of_split in Hy as (l & r & ->).
  by exists (mk_frame p n l r), ctx.
Qed.

Lemma beside_frame t ctx k f y : plug ctx k = t -> f ∈ ctx -> y ∈ fleft f ++ fright f -> beside t y.
Proof.
  intros <- (c1 & c2 & ->)%list_elem_of_split Hy. rewrite plug_app. cbn [plug].
  apply (beside_kid _ c2 (fill f (plug c1 k))); [done|]. cbn. set_solver.
Qed.

(** What the write view looks like when the path to [w] has been copied. *)
Record prepared (h0 : heap) (t : tree) (w : list Z) (s : trie) (fr : list ptr) (ctx : list frame) (k : tree) (isNew : bool) : Prop := {
  pp_holds : holds s (plug ctx k);
  pp_ok : ctx_ok (Z.of_nat (length w)) ctx (tchar k);
  pp_word : ctx_word ctx (tchar k) = w;
  pp_depth : getDepth (tnode k) = Z.of_nat (length w);
  pp_root : tptr (plug ctx k) = tptr t;
  pp_top : isTerminalNode (tnode (plug ctx k)) = isTerminalNode (tnode t);
  pp_spares : spares (tptr t) h0 (nodes s);
  pp_copies : Forall (fun f => fptr f = tptr t \/ isCopy (fnode f) = true) ctx;
  pp_copy : tptr k = tptr t \/ isCopy (tnode k) = true;
  pp_beside : Forall (fun f => Forall (beside t) (fleft f ++ fright f)) ctx /\ Forall (beside t) (kids k);
  pp_freed : NoDup fr /\ forall p, p ∈ fr -> p ∈ ptrs t /\ p <> tptr t /\ p ∉ ptrs (plug ctx k) /\
    exists n, cells h0 !! p = Some n /\ isCopy n = false;
  pp_case : if isNew then kids k = [] /\ isTerminalNode (tnode k) = false /\
      before ctx (tchar k) ++ after ctx (tchar k) = entries t
    else wf 0 (plug ctx k) /\ entries (plug ctx k) = entries t }.

Lemma relink_copies rho root fs : Forall (fun f => fptr f = root \/ isCopy (fnode f) = true) fs ->
  Forall (fun f => fptr f = root \/ isCopy (fnode f) = true) (map (relink_frame rho) fs).
Proof. intros H. by rewrite Forall_map. Qed.

(** The freed nodes are on the old path and on no part of the new tree. *)
Lemma freed_outside h t ctx k fs0 k0 (fr : list ptr) root : shape h (plug ctx k) ->
  Forall (fun f => fptr f = root \/ isCopy (fnode f) = true) ctx -> tptr k = root \/ isCopy (tnode k) = true ->
  NoDup (ptrs t) -> plug fs0 k0 = t ->
  (forall y, (exists f, f ∈ ctx /\ y ∈ fleft f ++ fright f) \/ y ∈ kids k ->
     (exists f0, f0 ∈ fs0 /\ y ∈ fleft f0 ++ fright f0) \/ y ∈ kids k0) ->
  (forall p, p ∈ fr -> p ∈ trail fs0 ++ [tptr k0] /\ p <> root /\ exists n, cells h !! p = Some n /\ isCopy n = false) ->
  forall p, p ∈ fr -> p ∉ ptrs (plug ctx k).
Proof.
  intros Hs Hc Hk Hnd <- Hsib Hfr p Hp. destruct (Hfr p Hp) as (Hpath & Hne & n & Hn & Hcn).
  destruct (beside_path _ _ Hnd) as [Hb1 Hb2].
  assert (forall y, (exists f, f ∈ ctx /\ y ∈ fleft f ++ fright f) \/ y ∈ kids k -> p ∉ ptrs y) as Hy.
  { intros y Hy Hin. destruct (Hsib y Hy) as [(f0 & Hf0 & Hy0)|Hy0].
    - apply (Hb1 f0 p Hf0); [|done]. rewrite <- flat_map_app. apply elem_of_flat_map. eauto.
    - apply (Hb2 p); [|done]. apply elem_of_flat_map. eauto. }
  rewrite ptrs_plug, elem_of_app. intros [Hin|Hin].
  - apply elem_of_flat_map in Hin as (f & Hf & Hin). unfold frame_ptrs in Hin.
    apply elem_of_cons in Hin as [->|Hin].
    + rewrite Forall_forall in Hc. destruct (Hc f Hf) as [|Hcf]; [done|].
      apply list_elem_of_split in Hf as (c1 & c2 & ->). rewrite (plug_cell _ _ _ _ _ Hs) in Hn. congruence.
    + rewrite <- flat_map_app in Hin. apply elem_of_flat_map in Hin as (y & Hyf & Hin).
      apply (Hy y); [left; eauto|done].
  - destruct k as [q m cs]. cbn in Hin, Hk. apply elem_of_cons in Hin as [->|Hin].
    + destruct Hk as [|Hcm]; [done|]. pose proof (plug_focus_cell _ _ _ Hs) as Hm. cbn in Hm. congruence.
    + apply elem_of_flat_map in Hin as (y & Hyc & Hin). apply (Hy y); [by right|done].
Qed.
Lemma tptr_relink rho fs : forall k k', tptr k = tptr k' ->
  tptr (plug (map (relink_frame rho) fs) k) = tptr (plug fs k').
Proof. induction fs as [|f fs IH]; intros k k' E; cbn; [done|]. by apply IH. Qed.

(** What both ends of the descent have in common. *)
Lemma descended_facts s t w h1 cw' fr fs0 k0 w' fs1 k1 : represents s t ->
  descended s (mk_cow ∅ [] false) w [] t [] t h1 cw' fr fs0 k0 w' fs1 k1 ->
  let rho := renamed (oldToNewTrieNodeMap cw') in
  plug fs0 k0 = t /\ rho NULL = NULL /\
  Forall2 (ren_frame rho) fs0 (map (relink_frame rho) fs1) /\ ren rho k0 (relink_root rho k1) /\
  ren rho t (plug (map (relink_frame rho) fs1) (relink_root rho k1)) /\ rho (tptr t) = tptr t /\
  (forall p, p ∈ fr -> p ∈ trail fs0 ++ [tptr k0] /\ p <> tptr t /\
    exists n, cells h1 !! p = Some n /\ isCopy n = false).
Proof.
  intros [Hh Hroot Hw] [A B C D E F G H I J K L] rho. rewrite app_nil_r in *.
  pose proof (located_plug _ _ _ _ _ A) as Et. destruct Hh as [Hs Hnd Hwf]. rewrite <- Et in Hs, Hnd, Hw.
  rewrite app_nil_r in B.
  destruct (copied_ren _ _ _ _ _ _ 0 Hs Hnd Hw eq_refl B C D) as (Hnull & Hf & Hk). fold rho in Hnull, Hf, Hk.
  split; [done|]. split; [done|]. split; [done|]. split; [done|].
  pose proof (ren_plug _ _ _ Hf _ _ Hk) as Hren. rewrite Et in Hren. split; [done|]. split.
  - destruct (ren_root _ _ _ Hren) as (Hp & _). rewrite <- Hp, (tptr_relink _ _ _ k1) by done. exact L.
  - intros p Hp. destruct (G p Hp) as (G1 & G2 & n & Hn & Hc). split; [done|]. split; [done|].
    exists n. split; [|done]. by apply (sp_cells _ _ _ K).
Qed.
Lemma similar_ptrs_relink rho fs : forall k k', ptrs k = ptrs k' ->
  ptrs (plug (map (relink_frame rho) fs) k) = ptrs (plug fs k').
Proof.
  induction fs as [|f fs IH]; intros k k' E; cbn [map plug]; [done|]. apply IH.
  unfold fill. cbn. by rewrite !flat_map_app; cbn; rewrite E.
Qed.

(** The siblings of the copied path are those of the old one. *)
Lemma copied_siblings rho fs0 fs1 : Forall2 (frame_copy rho) fs0 fs1 ->
  forall f, f ∈ map (relink_frame rho) fs1 -> exists f0, f0 ∈ fs0 /\ fleft f = fleft f0 /\ fright f = fright f0.
Proof.
  induction 1 as [|f0 f1 fs0 fs1 [_ _ El Er] _ IH]; cbn; intros f Hf; [set_solver|].
  apply elem_of_cons in Hf as [->|Hf].
  - exists f0. split; [set_solver|]. done.
  - destruct (IH f Hf) as (g & Hg & H). exists g. split; [set_solver|done].
Qed.

(** The word was a path of the tree: all of it is copied. *)
Lemma prepare_found s t w h1 cw' fr fs0 k0 fs1 k1 s1 : represents s t ->
  descended s (mk_cow ∅ [] false) w [] t [] t h1 cw' fr fs0 k0 [] fs1 k1 ->
  holds (with_nodes s h1) (plug fs1 k1) -> nodes s1 = h1 ->
  exists h2 ctx k, trail ctx ++ [tptr k] = trail fs1 ++ [tptr k1] /\ isTerminalNode (tnode k) = isTerminalNode (tnode k1) /\
    for_each (trail fs1 ++ [tptr k1]) (remap_descendants (oldToNewTrieNodeMap cw')) s1 = Ok (tt, with_nodes s1 h2) /\
    prepared (nodes s) t w (with_nodes s1 h2) fr ctx k false.
Proof.
  intros Hrep Hds Hh E1. destruct (descended_facts _ _ _ _ _ _ _ _ _ _ _ Hrep Hds) as (Et & Hnull & Hf & Hk & Hren & Hroot & Hfr).
  destruct Hds as [A B C D E F G H I J K L]. rewrite !app_nil_r in *. set (rho := renamed _) in *.
  assert (holds s1 (plug fs1 k1)) as Hh1 by (by apply (holds_ext (with_nodes s h1))).
  destruct (remap_run (oldToNewTrieNodeMap cw') s1 fs1 k1 Hh1) as (h2 & Hr & Hh2 & Hre). fold rho in Hh2.
  set (ctx := map (relink_frame rho) fs1) in *. set (k := relink_root rho k1) in *.
  exists h2, ctx, k. split; [by unfold ctx; rewrite trail_relink|]. split; [done|]. split; [done|].
  assert (wf 0 (plug ctx k)) as Hw2 by (apply (ren_wf rho t Hnull 0); [done|apply Hrep]).
  destruct (located_word _ _ _ _ _ A) as [Hword Hlen]. rewrite app_nil_r, Nat.add_0_r in *.
  destruct (ren_root _ _ _ Hk) as (_ & Hkn & _).
  destruct (ren_context rho fs0 ctx (tchar k0) (tchar k) Hf (rn_char _ _ _ Hkn)) as (_ & _ & Hcw).
  pose proof (proj1 (wf_plug _ _) Hw2) as (d & Hok & _ & Hwk & _).
  assert (d = Z.of_nat (length w)) as ->.
  { rewrite (ctx_ok_length _ _ _ Hok). f_equal. rewrite <- Hlen. unfold ctx. rewrite length_map.
    symmetry. by eapply Forall2_length. }
  assert (Forall (fun f => fptr f = tptr t \/ isCopy (fnode f) = true) ctx) as Hcop by (by apply relink_copies).
  assert (spares (tptr t) (nodes s) h2) as Hsp.
  { apply (spares_trans _ (tptr t) _ h1); [exact K| |by left]. rewrite <- E1. apply (relinks_spares (tptr t) _ _ _ Hre).
    apply (copies_owned (nodes s1) [] k1 fs1); [rewrite app_nil_r; apply Hh1|done|done]. }
  split; cbn [nodes with_nodes]; try done.
  - by rewrite Hcw.
  - by inversion Hwk.
  - destruct (ren_root _ _ _ Hren) as (-> & _). done.
  - destruct (ren_root _ _ _ Hren) as (_ & Hn & _). by destruct (ren_node_facts _ _ _ Hn).
  - split.
    + apply Forall_forall. intros f Hin. destruct (copied_siblings _ _ _ B f Hin) as (f0 & Hf0 & -> & ->).
      apply Forall_forall. intros y Hy. by apply (beside_frame t fs0 k0 f0).
    + apply Forall_forall. intros y Hy. apply (beside_kid t fs0 k0); [done|].
      unfold k in Hy. cbn in Hy. by rewrite (tc_kids _ _ _ C) in Hy.
  - split; [done|]. intros p Hp. destruct (Hfr p Hp) as (Hp1 & Hp2 & n & Hn & Hcn).
    split; [rewrite <- Et; by apply trail_ptrs|]. split; [done|]. split; [|by destruct (G p Hp) as (_ & _ & ?)].
    apply (freed_outside (nodes s1) t fs1 k1 fs0 k0 fr (tptr t)) in Hp as Hout; try done.
    + unfold ctx. rewrite (similar_ptrs_relink rho fs1 k k1) by (by destruct k1). exact Hout.
    + apply Hh1.
    + apply Hrep.
    + intros y [(f & Hf1 & Hy)|Hy]; [left|right; by rewrite (tc_kids _ _ _ C) in Hy].
      destruct (copied_siblings rho _ _ B (relink_frame rho f)) as (f0 & Hf0 & El & Er); [by apply elem_of_lmap_2|].
      exists f0. split; [done|]. cbn in El, Er. by rewrite <- El, <- Er.
    + intros q Hq. rewrite E1. apply Hfr, Hq.
  - split; [done|]. by apply (ren_entries rho).
Qed.
(** The words around a hole between two children. *)
Lemma hole_entries p n l r cs c :
  let f := mk_frame p (with_children n cs) l r in forall ctx,
  before (f :: ctx) c ++ after (f :: ctx) c = entries (plug ctx (Tree p n (l ++ r))).
Proof.
  intros f ctx. rewrite entries_plug. cbn [before after f fnode fleft fright].
  change (own (with_children n cs)) with (own n). change (character (with_children n cs)) with (character n).
  change (tchar (Tree p n (l ++ r))) with (character n). cbn [entries]. rewrite flat_map_app.
  change (flat_map (fun k => map (prefixed (tchar k)) (entries k))) with (flat_map kid_entries).
  by rewrite !map_app, <- !app_assoc.
Qed.

Lemma top_terminal ctx : forall k k', isTerminalNode (tnode k) = isTerminalNode (tnode k') ->
  isTerminalNode (tnode (plug ctx k)) = isTerminalNode (tnode (plug ctx k')).
Proof. induction ctx as [|f ctx IH]; intros k k' E; [done|]. cbn [plug]. by apply IH. Qed.

(** A part of the word was new: it hangs below the copied path. *)
Lemma prepare_new s t w h1 cw' fr fs0 k0 c w2 fs1 k1 l r q gs leaf s1 : represents s t ->
  descended s (mk_cow ∅ [] false) w [] t [] t h1 cw' fr fs0 k0 (c :: w2) fs1 k1 ->
  kids k0 = l ++ r -> StronglySorted Z.lt (map tchar l ++ c :: map tchar r) ->
  chain q (Z.of_nat (length w) - Z.of_nat (length w2)) c w2 gs leaf ->
  Forall (fun f => isCopy (fnode f) = true) gs -> isCopy (tnode leaf) = true ->
  let f1 := mk_frame (tptr k1) (with_children (tnode k1) (map tptr l ++ q :: map tptr r)) l r in
  holds (with_nodes s h1) (plug (gs ++ f1 :: fs1) leaf) -> nodes s1 = h1 ->
  exists h2 ctx, trail ctx ++ [tptr leaf] = trail fs1 ++ tptr k1 :: trail gs ++ [tptr leaf] /\
    for_each (trail fs1 ++ tptr k1 :: trail gs ++ [tptr leaf]) (remap_descendants (oldToNewTrieNodeMap cw')) s1 =
      Ok (tt, with_nodes s1 h2) /\
    prepared (nodes s) t w (with_nodes s1 h2) fr ctx leaf true.
Proof.
  intros Hrep Hds Ek Hsort Hch Hgs Hleaf f1 Hh E1.
  destruct (descended_facts _ _ _ _ _ _ _ _ _ _ _ Hrep Hds) as (Et & Hnull & Hf & Hk & Hren & Hroot & Hfr).
  destruct Hds as [A B C D E F G H I J K L]. rewrite !app_nil_r in *. set (rho := renamed _) in *.
  assert (holds s1 (plug (gs ++ f1 :: fs1) leaf)) as Hh1 by (by apply (holds_ext (with_nodes s h1))).
  destruct (remap_run (oldToNewTrieNodeMap cw') s1 _ leaf Hh1) as (h2 & Hr & Hh2 & Hre). fold rho in Hh2.
  destruct (chain_relink rho _ _ _ _ _ _ Hnull Hch) as [Egs Eleaf].
  set (ctx0 := map (relink_frame rho) fs1) in *. set (f2 := relink_frame rho f1).
  rewrite map_app, Egs, Eleaf in Hh2. cbn [map] in Hh2. fold f2 ctx0 in Hh2.
  set (ctx := gs ++ f2 :: ctx0) in *.
  assert (trail (gs ++ f1 :: fs1) ++ [tptr leaf] = trail fs1 ++ tptr k1 :: trail gs ++ [tptr leaf]) as Etr.
  { rewrite trail_app. assert (trail (f1 :: fs1) = trail fs1 ++ [tptr k1]) as -> by (unfold trail; cbn; by rewrite map_app).
    by rewrite <- !app_assoc. }
  rewrite Etr in Hr, Hre. exists h2, ctx. split.
  { rewrite <- Etr. unfold ctx, f2, ctx0. rewrite <- Egs at 1.
    change (relink_frame rho f1 :: map (relink_frame rho) fs1) with (map (relink_frame rho) (f1 :: fs1)).
    by rewrite <- map_app, trail_relink. }
  split; [done|].
  assert (wf 0 (plug ctx0 (relink_root rho k1))) as Hw2 by (apply (ren_wf rho t Hnull 0); [done|apply Hrep]).
  destruct (located_word _ _ _ _ _ A) as [Hword Hlen].
  destruct (ren_root _ _ _ Hk) as (_ & Hkn & _).
  destruct (ren_context rho fs0 ctx0 (tchar k0) (tchar (relink_root rho k1)) Hf (rn_char _ _ _ Hkn)) as (_ & _ & Hcw).
  pose proof (proj1 (wf_plug _ _) Hw2) as (d & Hok & _ & Hwk & _).
  assert (d = Z.of_nat (length w) - Z.of_nat (length w2) - 1) as Ed.
  { rewrite (ctx_ok_length _ _ _ Hok). unfold ctx0. rewrite length_map.
    rewrite <- (Forall2_length _ _ _ B). cbn [length] in Hlen. lia. }
  unfold relink_root in Hwk. rewrite (tc_kids _ _ _ C), Ek in Hwk.
  assert (frame_ok d f2 c) as Hf2 by (exact (frame_ok_new _ _ _ l r _ c q Hwk Hsort eq_refl)).
  assert (ctx_ok (d + 1) (f2 :: ctx0) c) as Hok2.
  { cbn [ctx_ok]. replace (d + 1 - 1) with d by lia. split; [done|]. exact Hok. }
  replace (Z.of_nat (length w) - Z.of_nat (length w2)) with (d + 1) in Hch by lia.
  destruct (chain_ok _ _ _ _ _ _ Hch _ Hok2) as (Hok3 & Hb3 & Ha3 & Hw3). fold ctx in Hok3, Hb3, Ha3, Hw3.
  destruct (chain_leaf _ _ _ _ _ _ Hch) as (m & Eleaf' & Hm).
  replace (d + 1 + Z.of_nat (length w2)) with (Z.of_nat (length w)) in * by lia.
  assert (Forall (fun f => fptr f = tptr t \/ isCopy (fnode f) = true) (gs ++ f1 :: fs1)) as Hcop1.
  { apply Forall_app. split; [eapply Forall_impl; [exact Hgs|by right]|]. constructor; [exact I|done]. }
  assert (spares (tptr t) (nodes s) h2) as Hsp.
  { apply (spares_trans _ (tptr t) _ h1); [exact K| |by left]. rewrite <- E1. apply (relinks_spares (tptr t) _ _ _ Hre).
    rewrite <- Etr. apply (copies_owned (nodes s1) [] leaf (gs ++ f1 :: fs1)); [rewrite app_nil_r; apply Hh1|done|by right]. }
  split; cbn [nodes with_nodes]; try done.
  - rewrite Hw3. cbn [ctx_word]. change (character (fnode f2)) with (tchar (relink_root rho k1)).
    rewrite Hcw, <- app_assoc. exact Hword.
  - rewrite Eleaf'. apply Hm.
  - unfold ctx. rewrite plug_app. cbn [plug]. unfold ctx0.
    rewrite (tptr_relink rho fs1 _ k1) by done. exact L.
  - unfold ctx. rewrite plug_app. cbn [plug]. destruct (ren_root _ _ _ Hren) as (_ & Hn & _).
    rewrite <- (proj1 (ren_node_facts _ _ _ Hn)). by apply top_terminal.
  - unfold ctx. apply Forall_app. split; [eapply Forall_impl; [exact Hgs|by right]|].
    constructor; [exact I|by apply relink_copies].
  - by right.
  - split; [|rewrite Eleaf'; constructor]. unfold ctx. apply Forall_app. split.
    + clear -Hch. induction Hch as [|? ? ? ? ? ? gs ? ? ? _ IH]; [constructor|].
      apply Forall_app. split; [done|]. by repeat constructor.
    + constructor.
      * apply Forall_forall. intros y Hy. apply (beside_kid t fs0 k0); [done|]. by rewrite Ek.
      * apply Forall_forall. intros f Hin. destruct (copied_siblings _ _ _ B f Hin) as (f0 & Hf0 & -> & ->).
        apply Forall_forall. intros y Hy. by apply (beside_frame t fs0 k0 f0).
  - split; [done|]. intros p Hp. destruct (Hfr p Hp) as (Hp1 & Hp2 & n & Hn & Hcn).
    split; [rewrite <- Et; by apply trail_ptrs|]. split; [done|]. split; [|by destruct (G p Hp) as (_ & _ & ?)].
    apply (freed_outside (nodes s1) t (gs ++ f1 :: fs1) leaf fs0 k0 fr (tptr t)) in Hp as Hout; try done.
    + rewrite <- (similar_ptrs_relink rho _ leaf leaf), map_app, Egs in Hout by done. exact Hout.
    + apply Hh1.
    + by right.
    + apply Hrep.
    + intros y [(f & Hf1 & Hy)|Hy]; [|by rewrite Eleaf' in Hy; set_solver].
      apply elem_of_app in Hf1 as [Hf1|[->|Hf1]%elem_of_cons].
      * exfalso. clear -Hch Hf1 Hy. induction Hch as [|? ? ? ? ? ? gs ? ? ? _ IH]; [set_solver|].
        apply elem_of_app in Hf1 as [Hf1|Hf1]; [by apply IH|]. apply list_elem_of_singleton in Hf1 as ->. set_solver.
      * right. by rewrite Ek.
      * left. destruct (copied_siblings rho _ _ B (relink_frame rho f)) as (f0 & Hf0 & El & Er); [by apply elem_of_lmap_2|].
        exists f0. split; [done|]. cbn in El, Er. by rewrite <- El, <- Er.
    + intros p' Hq. rewrite E1. apply Hfr, Hq.
  - rewrite Eleaf'. split; [done|]. split; [apply Hm|]. rewrite <- Eleaf', Hb3, Ha3.
    etransitivity; [exact (hole_entries (tptr k1) (relink rho (tnode k1)) l r (map tptr l ++ q :: map tptr r) c ctx0)|].
    rewrite <- (ren_entries rho t _ Hren). unfold relink_root. by rewrite (tc_kids _ _ _ C), Ek.
Qed.
End TrieUpdate.
