(* ===== verification/TrieIncrement.v ===== *)
(** * Ids for new keywords, and the whole insertion after the bulk load

    (core/index/Trie.cpp: addKeyword_SetPrevIdNexIdByPathTrace with [commited]
    set, computeIdForNewKeyword, addKeyword_ThreadSafe.) *)
From S2P Require Import Prelude TrieNode Trie TrieTree TrieInsert TrieNeighbours TrieViews TrieUpdate.
From Stdlib Require Import ZArith Lia List Bool Sorted.
From stdpp Require Import base gmap list fin_maps.
Open Scope Z_scope.

Module TrieIncrement.
Import TrieNode Trie TrieTree TrieInsert TrieNeighbours TrieViews TrieUpdate.

(** ** The two neighbours *)

(** The link of a node leads to its first keyword. *)
Lemma leftmost_link k : forall d, wf d k -> inhabited k ->
  exists fs z, plug fs z = k /\ isTerminalNode (tnode z) = true /\ first_frames fs /\
    leftMostDescendant (tnode k) = tptr z.
Proof.
  induction k as [p n cs IH] using tree_ind'. intros d. inversion_clear 1 as [? ? ? ? _ _ Hw Hi Hl _].
  intros Hin. cbn [tnode]. rewrite Hl. unfold left_of. destruct (isTerminalNode n) eqn:Ht.
  { exists [], (Tree p n cs). repeat split; [done|constructor]. }
  destruct cs as [|x cs]; [specialize (Hin eq_refl); cbn in Hin; congruence|].
  inversion_clear IH. inversion_clear Hw. inversion_clear Hi.
  match goal with H : forall d, wf d x -> _ |- _ => destruct (H (d + 1)) as (fs & z & Hp & Htz & Hf & ->) end;
    [done|done|]. exists (fs ++ [mk_frame p n [] cs]), z.
  split; [by rewrite plug_app, Hp|]. split; [done|]. split; [|done].
  apply Forall_app. split; [done|by repeat constructor].
Qed.

(** The words after the focus. *)
Definition following (ctx : list frame) (k : tree) : list (list Z * (Z * Z)) :=
  map (under (ctx_word ctx (tchar k))) (flat_map kid_entries (kids k)) ++ after ctx (tchar k).

(** The node [q] is the one of the last word of [l] in the tree [t]. *)
Definition last_word (t : tree) (l : list (list Z * (Z * Z))) (q : ptr) : Prop :=
  (q = NULL /\ l = []) \/
  exists ctx k l', q = tptr k /\ plug ctx k = t /\ isTerminalNode (tnode k) = true /\ l = l' ++ [entry_at ctx k].
Definition first_word (t : tree) (l : list (list Z * (Z * Z))) (q : ptr) : Prop :=
  (q = NULL /\ l = []) \/
  exists ctx k l', q = tptr k /\ plug ctx k = t /\ isTerminalNode (tnode k) = true /\ l = entry_at ctx k :: l'.

Lemma path_of_last ctx k : last (path_of ctx k) = Some (tptr k).
Proof. unfold path_of. apply last_snoc. Qed.

Lemma after_split ctx k ctx' k' : plug ctx' k' = plug ctx k -> isTerminalNode (tnode k') = true ->
  before ctx' (tchar k') = before ctx (tchar k) ++ map (under (ctx_word ctx (tchar k))) (own (tnode k)) ->
  exists l', following ctx k = entry_at ctx' k' :: l'.
Proof.
  intros E Ht Hb. pose proof (entries_at ctx' k' Ht) as H. rewrite E, Hb, entries_plug, <- app_assoc in H.
  apply app_inv_head in H. destruct k as [p n cs]. cbn [entries tnode] in H.
  change (flat_map _ cs) with (flat_map kid_entries cs) in H.
  rewrite map_app, <- app_assoc in H. apply app_inv_head in H. unfold following. cbn [kids]. eauto.
Qed.

(** [findNeighbours] at a node that is not a keyword yet. *)
Lemma findNeighbours_run s ctx k d (isNew : bool) : holds s (plug ctx k) -> ctx_ok d ctx (tchar k) -> ctx <> [] ->
  isTerminalNode (tnode (plug ctx k)) = false ->
  (if isNew then kids k = [] /\ isTerminalNode (tnode k) = false else wf d k /\ inhabited k) ->
  exists prev nxt, findNeighbours (path_of ctx k) isNew s = Ok ((prev, nxt), s) /\
    (isTerminalNode (tnode k) = false ->
     last_word (plug ctx k) (before ctx (tchar k)) prev /\ first_word (plug ctx k) (following ctx k) nxt).
Proof.
  intros Hh Hok Hne Hroot Hcase. unfold findNeighbours.
  destruct (getLeftTnp_run s ctx k d Hh Hok Hne Hroot) as (rl & Hrl & Hl). rewrite (bind_run _ _ _ _ _ Hrl).
  set (prev := match rl with Some p => _ | None => NULL end).
  assert (last_word (plug ctx k) (before ctx (tchar k)) prev) as Hprev.
  { unfold prev. destruct rl as [p|]; [|by left]. destruct Hl as (ctx' & k' & -> & [A B C]).
    right. exists ctx', k'. rewrite path_of_last. eauto. }
  clearbody prev. destruct isNew; cbn [negb].
  - destruct Hcase as [Hk Ht].
    destruct (getRightTnp_run s ctx k d Hh Hok Hne (or_intror Hk)) as (rr & Hrr & Hr).
    rewrite (bind_run (bind (getRightTnp _) _) _ s (match rr with Some p => default NULL (last p) | None => NULL end) s)
      by (by rewrite (bind_run _ _ _ _ _ Hrr)).
    exists prev. eexists. split; [reflexivity|]. intros _. split; [done|]. destruct rr as [p|].
    + destruct Hr as (ctx' & k' & -> & [A B C]). rewrite path_of_last. right.
      destruct (after_split ctx k ctx' k' A B C) as [l' El]. exists ctx', k', l'. done.
    + left. split; [done|]. unfold following. destruct Hr as [-> ->]. done.
  - destruct Hcase as [Hw Hin].
    pose proof (trace_last ctx (tptr k)) as Hv. fold (path_of ctx k) in Hv.
    rewrite (bind_run (bind (lift _) _) _ s (leftMostDescendant (tnode k)) s).
    2:{ rewrite (bind_run _ _ _ _ _ (lift_run _ _ _ Hv)).
        by rewrite (bind_run _ _ _ _ _ (load_tree s ctx k (h_shape _ _ Hh))). }
    exists prev. eexists. split; [reflexivity|]. intros Ht. split; [done|].
    destruct (leftmost_link k d Hw Hin) as (fs & z & Hp & Htz & Hf & ->). right.
    assert (plug (fs ++ ctx) z = plug ctx k) as Ep by (by rewrite plug_app, Hp).
    assert (before (fs ++ ctx) (tchar z) = before ctx (tchar k) ++ map (under (ctx_word ctx (tchar k))) (own (tnode k))) as Eb.
    { rewrite before_app, (first_frames_before fs), <- tchar_plug, Hp by done. unfold own. by rewrite Ht. }
    destruct (after_split ctx k (fs ++ ctx) z Ep Htz Eb) as [l' El]. by exists (fs ++ ctx), z, l'.
Qed.
(** ** Changes of the insert counters *)

Inductive tallied : tree -> tree -> Prop :=
  tallied_tree p n c cs cs' : Forall2 tallied cs cs' -> tallied (Tree p n cs) (Tree p (with_counters n c) cs').

Record tallied_frame (f f' : frame) : Prop := {
  tf_ptr : fptr f' = fptr f;
  tf_node : exists c, fnode f' = with_counters (fnode f) c;
  tf_left : Forall2 tallied (fleft f) (fleft f');
  tf_right : Forall2 tallied (fright f) (fright f') }.

Lemma with_counters_id n : with_counters n (insertCounters n) = n.
Proof. by destruct n. Qed.

Lemma tallied_refl t : tallied t t.
Proof.
  induction t as [p n cs IH] using tree_ind'. rewrite <- (with_counters_id n) at 2. constructor.
  induction IH; constructor; auto.
Qed.

Lemma tallied_trans t1 : forall t2 t3, tallied t1 t2 -> tallied t2 t3 -> tallied t1 t3.
Proof.
  induction t1 as [p n cs IH] using tree_ind'. intros t2 t3. inversion_clear 1 as [? ? c1 ? cs2 H12].
  inversion_clear 1 as [? ? c2 ? cs3 H23]. change (with_counters (with_counters n c1) c2) with (with_counters n c2).
  constructor. revert cs2 cs3 H12 H23. induction IH as [|k cs Hk _ IHcs]; intros cs2 cs3 H12 H23.
  - inversion H12; subst. by inversion H23; constructor.
  - inversion H12; subst. inversion H23; subst. constructor; eauto.
Qed.

Lemma tallied_similar t : forall t', tallied t t' -> similar t t'.
Proof.
  induction t as [p n cs IH] using tree_ind'. intros t'. inversion_clear 1 as [? ? c ? cs' Hcs].
  constructor; [done|]. induction Hcs as [|k k' cs cs' Hk Hcs IHcs]; [constructor|].
  inversion_clear IH. constructor; auto.
Qed.

Lemma tallied_entries t : forall t', tallied t t' -> entries t' = entries t.
Proof.
  induction t as [p n cs IH] using tree_ind'. intros t'. inversion_clear 1 as [? ? c ? cs' Hcs].
  cbn [entries]. f_equal. induction Hcs as [|k k' cs cs' Hk Hcs IHcs]; [done|]. inversion_clear IH as [|? ? IHk IH'].
  cbn [flat_map]. rewrite (IHk k' Hk), (IHcs IH'). do 2 f_equal. by inversion Hk.
Qed.

Lemma Forall2_tallied_refl l : Forall2 tallied l l.
Proof. induction l; constructor; [apply tallied_refl|done]. Qed.

Lemma tallied_fill f f' k k' : tallied_frame f f' -> tallied k k' -> tallied (fill f k) (fill f' k').
Proof.
  intros [Hp [c Hn] Hl Hr] Hk. unfold fill. rewrite Hp, Hn. constructor. apply Forall2_app; [done|].
  by constructor.
Qed.

Lemma tallied_plug ctx ctx' : Forall2 tallied_frame ctx ctx' -> forall k k', tallied k k' ->
  tallied (plug ctx k) (plug ctx' k').
Proof. induction 1 as [|f f' ctx ctx' Hf _ IH]; intros k k' Hk; [done|]. cbn [plug]. apply IH. by apply tallied_fill. Qed.

Lemma tallied_plug_inv ctx : forall k t', tallied (plug ctx k) t' ->
  exists ctx' k', t' = plug ctx' k' /\ Forall2 tallied_frame ctx ctx' /\ tallied k k'.
Proof.
  induction ctx as [|f ctx IH]; intros k t' H; [by exists [], t'|]. cbn [plug] in H.
  destruct (IH _ _ H) as (ctx' & k' & -> & Hctx & Hk). inversion Hk as [? ? c ? cs' Hcs]; subst.
  apply Forall2_app_inv_l in Hcs as (l' & r0 & Hl & Hr & ->). inversion Hr as [|? y ? r' Hy Hr']; subst.
  exists (mk_frame (fptr f) (with_counters (fnode f) c) l' r' :: ctx'), y. split; [done|]. split; [|done].
  constructor; [|done]. split; try done. by exists c.
Qed.

(** Every node of a tree can be brought into focus. *)
Lemma focus_on t : forall q, q ∈ ptrs t -> exists ctx k, plug ctx k = t /\ tptr k = q.
Proof.
  induction t as [p n cs IH] using tree_ind'. intros q [->|Hq]%elem_of_cons.
  - by exists [], (Tree p n cs).
  - apply elem_of_flat_map in Hq as (k & Hk & Hq). rewrite Forall_forall in IH.
    destruct (IH k Hk q Hq) as (ctx & k' & Hp & Hq'). apply list_elem_of_split in Hk as (l & r & ->).
    exists (ctx ++ [mk_frame p n l r]), k'. split; [by rewrite plug_app, Hp|done].
Qed.

(** Only counters change. *)
Record counted (h h' : heap) : Prop := {
  ct_cells : forall p n, cells h !! p = Some n -> exists c, cells h' !! p = Some (with_counters n c);
  ct_wf : store_wf h -> store_wf h' }.

Lemma counted_refl h : counted h h.
Proof. split; [|done]. intros p n Hp. exists (insertCounters n). by rewrite with_counters_id. Qed.

Lemma counted_trans h1 h2 h3 : counted h1 h2 -> counted h2 h3 -> counted h1 h3.
Proof.
  intros [A1 B1] [A2 B2]. split; [|auto]. intros p n Hp. destruct (A1 p n Hp) as [c Hc].
  destruct (A2 p _ Hc) as [c' Hc']. by exists c'.
Qed.

Lemma counters_run s t q n c : holds s t -> q ∈ ptrs t -> cells (nodes s) !! q = Some n ->
  exists t', store_node q (with_counters n c) s = Ok (tt, with_nodes s (update (nodes s) q (with_counters n c))) /\
    holds (with_nodes s (update (nodes s) q (with_counters n c))) t' /\ tallied t t' /\
    counted (nodes s) (update (nodes s) q (with_counters n c)).
Proof.
  intros Hh Hq Hn. destruct (focus_on t q Hq) as (ctx & [p m cs] & <- & Hp). cbn in Hp. subst p.
  pose proof (plug_focus_cell _ _ _ (h_shape _ _ Hh)) as Hm. cbn in Hm. assert (m = n) as -> by congruence.
  destruct (store_holds s ctx q n cs (with_counters n c) Hh eq_refl) as (s' & Hst & -> & Hh').
  eexists. split; [exact Hst|]. split; [exact Hh'|]. split.
  - apply tallied_plug; [|constructor; apply Forall2_tallied_refl].
    clear. induction ctx as [|f ctx IH]; constructor; [|done]. split; [done| |apply Forall2_tallied_refl..].
    exists (insertCounters (fnode f)). by rewrite with_counters_id.
  - split; [|by intros Hwf; eapply node_update_wf].
    intros p x Hx. cbn. destruct (decide (p = q)) as [->|Hne].
    + rewrite lookup_insert_eq. exists c. congruence.
    + rewrite lookup_insert_ne by done. exists (insertCounters x). by rewrite with_counters_id.
Qed.
Lemma load_cell s t q : holds s t -> q ∈ ptrs t -> exists n, cells (nodes s) !! q = Some n /\ load_node q s = Ok (n, s).
Proof.
  intros Hh Hq. destruct (focus_on t q Hq) as (ctx & k & <- & <-). exists (tnode k).
  split; [apply (plug_focus_cell _ ctx), Hh|apply (load_tree s ctx), Hh].
Qed.

Lemma tallied_ptrs t t' : tallied t t' -> ptrs t' = ptrs t.
Proof. intros H. apply similar_ptrs. by apply tallied_similar. Qed.

(** [computeIdForNewKeyword] changes counters only; an id above that of the
    left neighbour is computed from two ids that may be allocated. *)
Lemma computeId_run s t prev nxt : holds s t -> (prev <> NULL -> prev ∈ ptrs t) -> (nxt <> NULL -> nxt ∈ ptrs t) ->
  exists i h' t', computeIdForNewKeyword prev nxt s = Ok (i, with_nodes s h') /\
    holds (with_nodes s h') t' /\ tallied t t' /\ counted (nodes s) h' /\
    (forall np nn, prev <> NULL -> nxt <> NULL -> cells (nodes s) !! prev = Some np ->
       cells (nodes s) !! nxt = Some nn -> id np < i ->
       id np <= MAX_ALLOCATED_KEYWORD_ID /\ id nn <= MAX_ALLOCATED_KEYWORD_ID).
Proof.
  intros Hh Hp Hn. unfold computeIdForNewKeyword.
  assert (exists h' t', Ok (0, s) = Ok (0, with_nodes s h') /\ holds (with_nodes s h') t' /\ tallied t t' /\
    counted (nodes s) h') as (h0 & t0 & E0 & Hh0 & Ht0 & Hc0).
  { exists (nodes s), t. rewrite with_nodes_id. split; [done|]. split; [done|].
    split; [apply tallied_refl|apply counted_refl]. }
  destruct (bool_decide_reflect (prev = NULL)) as [Ep|Ep].
  { exists 0, h0, t0. split; [exact E0|]. split; [done|]. split; [done|]. split; [done|]. done. }
  destruct (bool_decide_reflect (nxt = NULL)) as [En|En].
  { exists 0, h0, t0. split; [exact E0|]. split; [done|]. split; [done|]. split; [done|]. done. }
  clear h0 t0 E0 Hh0 Ht0 Hc0. cbn [orb]. specialize (Hp Ep). specialize (Hn En).
  destruct (load_cell s t prev Hh Hp) as (np & Hnp & Hlp). destruct (load_cell s t nxt Hh Hn) as (nn & Hnn & Hln).
  rewrite (bind_run _ _ _ _ _ Hlp), (bind_run _ _ _ _ _ Hln).
  destruct (_ || _) eqn:Ecmp.
  - exists (id np), (nodes s), t. rewrite with_nodes_id. split; [done|]. split; [done|].
    split; [apply tallied_refl|]. split; [apply counted_refl|]. intros a b _ _ Ha _ Hlt.
    assert (a = np) as -> by congruence. lia.
  - apply orb_false_iff in Ecmp as [[_ E2]%orb_false_iff E3]. unfold isLargerThanUpperBound in E2, E3.
    apply Z.ltb_ge in E2, E3.
    destruct (counters_run s t prev np (setRightInsertCounter (insertCounters np) (wrap32 (getRightInsertCounter np + 1))) Hh Hp Hnp)
      as (t1 & Hr1 & Hh1 & Ht1 & Hc1). rewrite (bind_run _ _ _ _ _ Hr1).
    assert (nxt ∈ ptrs t1) as Hn1 by (by rewrite (tallied_ptrs _ _ Ht1)).
    destruct (load_cell _ t1 nxt Hh1 Hn1) as (nn1 & Hnn1 & Hln1). rewrite (bind_run _ _ _ _ _ Hln1).
    destruct (counters_run _ t1 nxt nn1 (setLeftInsertCounter (insertCounters nn1) (wrap32 (getLeftInsertCounter nn1 + 1))) Hh1 Hn1 Hnn1)
      as (t2 & Hr2 & Hh2 & Ht2 & Hc2). rewrite (bind_run _ _ _ _ _ Hr2).
    eexists _, _, t2. split; [reflexivity|]. split; [exact Hh2|]. split; [by eapply tallied_trans|].
    split; [by eapply counted_trans|]. intros a b _ _ Ha Hb _.
    assert (a = np) as -> by congruence. assert (b = nn) as -> by congruence. done.
Qed.

(** ** Giving the id *)

(** The state of the id allocation after [assignId]. *)
Definition assigned (s : trie) (h : heap) (ordered : bool) (P : path) : trie :=
  if ordered then with_nodes s h
  else mk_trie h (views s) (readers s) (root_readview s) (root_writeview s) (oldReadViewQueue s)
    (terminalNodes s) (wrap32 (counterForReassignedKeywordIds s + 1)) (trieNodesToReassign s ++ [P])
    (oldIdToNewIdMapVector s) (commited s) (mergeRequired s) (emptyLeafNodeIds s).

(** A change of the focus that does not concern the counters. *)
Lemma focus_store s ctx p m cs t F : holds s t -> tallied (plug ctx (Tree p m cs)) t ->
  (forall n c, F (with_counters n c) = with_counters (F n) c) ->
  (forall n, childrenPointerList (F n) = childrenPointerList n) ->
  exists n t', load_node p s = Ok (n, s) /\ cells (nodes s) !! p = Some n /\ (exists c, n = with_counters m c) /\
    store_node p (F n) s = Ok (tt, with_nodes s (update (nodes s) p (F n))) /\
    holds (with_nodes s (update (nodes s) p (F n))) t' /\ tallied (plug ctx (Tree p (F m) cs)) t'.
Proof.
  intros Hh Ht HF Hch. destruct (tallied_plug_inv _ _ _ Ht) as (ctx' & k' & -> & Hctx & Hk).
  inversion Hk as [? ? c ? cs' Hcs]; subst. exists (with_counters m c), (plug ctx' (Tree p (F (with_counters m c)) cs')).
  split; [by apply (load_holds _ ctx' _ _ cs')|].
  split; [apply (plug_focus_cell _ ctx' (Tree p (with_counters m c) cs')), Hh|]. split; [by exists c|].
  destruct (store_holds s ctx' p _ cs' (F (with_counters m c)) Hh (Hch _)) as (s' & Hst & -> & Hh').
  split; [exact Hst|]. split; [exact Hh'|]. apply tallied_plug; [done|]. rewrite HF. by constructor.
Qed.

Lemma assignId_run s ctx p n cs prev nxt P : holds s (plug ctx (Tree p n cs)) ->
  (prev <> NULL -> prev ∈ ptrs (plug ctx (Tree p n cs))) -> (nxt <> NULL -> nxt ∈ ptrs (plug ctx (Tree p n cs))) ->
  wrap32 (counterForReassignedKeywordIds s + 1) <> MAX_KEYWORD_ID ->
  exists h' t' i (o : bool), assignId P p prev nxt s = Ok (tt, assigned s h' o P) /\
    holds (with_nodes s h') t' /\ tallied (plug ctx (Tree p (with_id n i) cs)) t' /\
    (exists h1 m, counted (nodes s) h1 /\ cells h1 !! p = Some m /\ h' = update h1 p (with_id m i)) /\
    if o then prev <> NULL /\ nxt <> NULL /\ forall np nn, cells (nodes s) !! prev = Some np ->
        cells (nodes s) !! nxt = Some nn -> id np < i < id nn /\
        id np <= MAX_ALLOCATED_KEYWORD_ID /\ id nn <= MAX_ALLOCATED_KEYWORD_ID
    else i = counterForReassignedKeywordIds s.
Proof.
  intros Hh Hp Hn Hcnt. unfold assignId.
  destruct (computeId_run s _ prev nxt Hh Hp Hn) as (i0 & h1 & t1 & Hr1 & Hh1 & Ht1 & Hc1 & Hi0).
  rewrite (bind_run _ _ _ _ _ Hr1). set (s1 := with_nodes s h1) in *.
  match goal with |- context [bind ?m _ s1] => assert (exists o : bool, m s1 = Ok (o, s1) /\
    (o = true -> prev <> NULL /\ nxt <> NULL /\ forall np nn, cells (nodes s) !! prev = Some np ->
        cells (nodes s) !! nxt = Some nn -> id np < i0 < id nn)) as (o & Hro & Ho) end.
  { destruct (bool_decide_reflect (prev = NULL)) as [Ep|Ep]; [by exists false|].
    destruct (bool_decide_reflect (nxt = NULL)) as [En|En]; [by exists false|]. cbn [negb andb].
    specialize (Hp Ep). specialize (Hn En). rewrite <- (tallied_ptrs _ _ Ht1) in Hp, Hn.
    destruct (load_cell s1 t1 prev Hh1 Hp) as (np & Hnp & Hlp). destruct (load_cell s1 t1 nxt Hh1 Hn) as (nn & Hnn & Hln).
    rewrite (bind_run _ _ _ _ _ Hlp).
    assert (forall a b, cells (nodes s) !! prev = Some a -> cells (nodes s) !! nxt = Some b -> id a = id np /\ id b = id nn) as Hids.
    { intros a b Ha Hb. destruct (ct_cells _ _ Hc1 _ _ Ha) as [c Hc]. destruct (ct_cells _ _ Hc1 _ _ Hb) as [c' Hc'].
      cbn in Hnp, Hnn. split; [replace np with (with_counters a c) by congruence|replace nn with (with_counters b c') by congruence]; done. }
    destruct (Z.ltb_spec (id np) i0); [|by exists false].
    rewrite (bind_run _ _ _ _ _ Hln). exists (i0 <? id nn). split; [done|]. intros Hlt%Z.ltb_lt.
    split; [done|]. split; [done|]. intros a b Ha Hb. destruct (Hids a b Ha Hb) as [-> ->]. done. }
  rewrite (bind_run _ _ _ _ _ Hro).
  assert (forall i, exists m t', load_node p s1 = Ok (m, s1) /\ cells h1 !! p = Some m /\ (exists c, m = with_counters n c) /\
    store_node p (with_id m i) s1 = Ok (tt, with_nodes s1 (update h1 p (with_id m i))) /\
    holds (with_nodes s1 (update h1 p (with_id m i))) t' /\ tallied (plug ctx (Tree p (with_id n i) cs)) t') as Hst
    by (intros i; exact (focus_store s1 ctx p n cs t1 (fun m => with_id m i) Hh1 Ht1 (fun _ _ => eq_refl) (fun _ => eq_refl))).
  destruct o.
  - destruct (Hst i0) as (m & t' & Hl & Hm & _ & Hs & Hh' & Ht'). rewrite (bind_run _ _ _ _ _ Hl).
    exists (update h1 p (with_id m i0)), t', i0, true. split; [exact Hs|]. split; [exact Hh'|]. split; [done|].
    split; [by exists h1, m|]. destruct (Ho eq_refl) as (Ep & En & H). split; [done|]. split; [done|].
    intros np nn Hnp Hnn. specialize (H np nn Hnp Hnn). split; [done|]. apply (Hi0 np nn); try done. lia.
  - destruct (Hst (counterForReassignedKeywordIds s)) as (m & t' & Hl & Hm & _ & Hs & Hh' & Ht'). rewrite (bind_run _ _ _ _ _ Hl).
    exists (update h1 p (with_id m (counterForReassignedKeywordIds s))), t', (counterForReassignedKeywordIds s), false.
    split; [|split; [exact Hh'|split; [done|split; [by exists h1, m|done]]]].
    change (bind (reads counterForReassignedKeywordIds) ?f s1) with (f (counterForReassignedKeywordIds s) s1). cbn beta.
    rewrite (bind_run _ _ _ _ _ Hs). unfold set_counter, modify. unfold bind at 1.
    rewrite (bind_run (assert_ _) _ _ tt _) by (apply assert_run, negb_true_iff, Z.eqb_neq; done). done.
Qed.
(** ** What insertion leaves as it is *)

(** Nodes that are no copies, the root apart, change at most their counters. *)
Record keeps (root : ptr) (h h' : heap) : Prop := {
  kp_cells : forall p n, cells h !! p = Some n -> isCopy n = false -> p <> root ->
    exists c, cells h' !! p = Some (with_counters n c);
  kp_dom : forall p, is_Some (cells h !! p) -> is_Some (cells h' !! p);
  kp_wf : store_wf h -> store_wf h' }.

Lemma keeps_refl root h : keeps root h h.
Proof. split; [|done|done]. intros p n Hp _ _. exists (insertCounters n). by rewrite with_counters_id. Qed.

Lemma keeps_trans root h1 h2 h3 : keeps root h1 h2 -> keeps root h2 h3 -> keeps root h1 h3.
Proof.
  intros [A1 B1 C1] [A2 B2 C2]. split; [|auto|auto]. intros p n Hp Hc Hne.
  destruct (A1 p n Hp Hc Hne) as [c Hp1]. destruct (A2 p _ Hp1 Hc Hne) as [c' Hp2]. by exists c'.
Qed.

Lemma spares_keeps root h h' : spares root h h' -> keeps root h h'.
Proof.
  intros [A B C]. split; [|done|done]. intros p n Hp Hc Hne. exists (insertCounters n).
  rewrite with_counters_id. by apply A.
Qed.

Lemma counted_keeps root h h' : counted h h' -> keeps root h h'.
Proof.
  intros [A B]. split; [intros p n Hp _ _; by apply A| |done]. intros p [n Hp]. destruct (A p n Hp) as [c Hc]. eauto.
Qed.

Lemma owned_relinked root l h h' p : relinks l h h' -> owned root h p -> owned root h' p.
Proof.
  intros [_ B _] [->|(n & Hn & Hc)]; [by left|]. right. destruct (B p n Hn) as (a & b & Hp). by eexists.
Qed.

Lemma owned_counted root h h' p : counted h h' -> owned root h p -> owned root h' p.
Proof.
  intros [A _] [->|(n & Hn & Hc)]; [by left|]. right. destruct (A p n Hn) as (c & Hp). by eexists.
Qed.

Lemma update_keeps root h p n n' : cells h !! p = Some n -> owned root h p -> keeps root h (update h p n').
Proof.
  intros Hn Ho. apply spares_keeps. apply (spares_trans root p h h); [apply spares_refl|by eapply spares_update|].
  destruct Ho as [->|(m & Hm & Hc)]; [by left|]. right. intros x Hx. congruence.
Qed.

Lemma fix_ctx_ptrs ctx : forall n k k', ptrs k = ptrs k' -> ptrs (plug (fix_ctx ctx n) k) = ptrs (plug ctx k').
Proof.
  induction ctx as [|f ctx IH]; intros n k k' E; cbn [fix_ctx plug]; [done|]. apply IH.
  unfold fill. cbn. by rewrite !flat_map_app; cbn; rewrite E.
Qed.

(** A neighbour as a node of the tree: its address and its id. *)
Lemma last_word_cell s t l q : holds s t -> last_word t l q -> q <> NULL ->
  q ∈ ptrs t /\ exists l' e n, l = l' ++ [e] /\ cells (nodes s) !! q = Some n /\ e.2.1 = id n.
Proof.
  intros Hh [[-> _]|(ctx & k & l' & -> & <- & _ & ->)] Hne; [done|]. split.
  - rewrite ptrs_plug. apply elem_of_app. right. apply tptr_in.
  - exists l', (entry_at ctx k), (tnode k). split; [done|]. split; [|done]. apply (plug_focus_cell _ ctx), Hh.
Qed.

Lemma first_word_cell s t l q : holds s t -> first_word t l q -> q <> NULL ->
  q ∈ ptrs t /\ exists l' e n, l = e :: l' /\ cells (nodes s) !! q = Some n /\ e.2.1 = id n.
Proof.
  intros Hh [[-> _]|(ctx & k & l' & -> & <- & _ & ->)] Hne; [done|]. split.
  - rewrite ptrs_plug. apply elem_of_app. right. apply tptr_in.
  - exists l', (entry_at ctx k), (tnode k). split; [done|]. split; [|done]. apply (plug_focus_cell _ ctx), Hh.
Qed.

(** The id fits between those of the words around, which may be allocated. *)
Definition fits (b a : list (list Z * (Z * Z))) (i : Z) : Prop :=
  exists b' eb ea a', b = b' ++ [eb] /\ a = ea :: a' /\ eb.2.1 < i < ea.2.1 /\
    eb.2.1 <= MAX_ALLOCATED_KEYWORD_ID /\ ea.2.1 <= MAX_ALLOCATED_KEYWORD_ID.

(** The node of a word that was new. *)
Definition number_with (n : TrieNode) (i k : Z) : TrieNode :=
  with_flags (with_offset (with_id n i) k) (setTerminalFlag (terminalFlag1bDepth7b n) true).

(** ** Finishing an insertion *)

Lemma assigned_ext s h h1 h2 o P : assigned (with_nodes s h) h1 o P = assigned s h1 o P /\
  with_nodes (assigned s h1 o P) h2 = assigned s h2 o P.
Proof. by destruct o. Qed.

Lemma assigned_facts s h o P : nodes (assigned s h o P) = h /\ terminalNodes (assigned s h o P) = terminalNodes s.
Proof. by destruct o. Qed.

Lemma owned_update root h p n n' : owned root h p -> cells h !! p = Some n -> isCopy n' = isCopy n ->
  owned root (update h p n') p.
Proof.
  intros [->|(m & Hm & Hc)] Hn E; [by left|]. right. exists n'. split; [apply lookup_insert_eq|]. congruence.
Qed.

(** The last stores: offset and flag of the new keyword. *)
Lemma number_run s ctx p m cs t root i k : holds s t -> tallied (plug ctx (Tree p (with_id m i) cs)) t ->
  owned root (nodes s) p ->
  exists h' t', (forall B (rest : tst B),
      (let! n := load_node p in store_node p (with_offset n k) ;;;
       let! n := load_node p in
       store_node p (with_flags n (setTerminalFlag (terminalFlag1bDepth7b n) true)) ;;; rest) s = rest (with_nodes s h')) /\
    holds (with_nodes s h') t' /\ tallied (plug ctx (Tree p (number_with m i k) cs)) t' /\ keeps root (nodes s) h'.
Proof.
  intros Hh Ht Ho.
  destruct (focus_store s ctx p (with_id m i) cs t (fun n => with_offset n k) Hh Ht (fun _ _ => eq_refl) (fun _ => eq_refl))
    as (n1 & t1 & Hl1 & Hc1 & _ & Hs1 & Hh1 & Ht1).
  destruct (focus_store _ ctx p _ cs t1 (fun n => with_flags n (setTerminalFlag (terminalFlag1bDepth7b n) true)) Hh1 Ht1
    (fun _ _ => eq_refl) (fun _ => eq_refl)) as (n2 & t2 & Hl2 & Hc2 & _ & Hs2 & Hh2 & Ht2).
  eexists _, t2. split.
  { intros B rest. rewrite (bind_run _ _ _ _ _ Hl1), (bind_run _ _ _ _ _ Hs1), (bind_run _ _ _ _ _ Hl2), (bind_run _ _ _ _ _ Hs2).
    done. } split; [exact Hh2|]. split; [exact Ht2|].
  eapply keeps_trans; [exact (update_keeps root _ p n1 (with_offset n1 k) Hc1 Ho)|].
  apply (update_keeps root _ p n2); [exact Hc2|]. by eapply owned_update.
Qed.

Lemma finish_inc s ctx p n cs (isNew : bool) d root : let k := Tree p n cs in
  commited s = true -> ctx <> [] -> holds s (plug ctx k) -> ctx_ok d ctx (tchar k) ->
  isTerminalNode (tnode (plug ctx k)) = false ->
  (if isNew then kids k = [] /\ isTerminalNode n = false else wf d k /\ inhabited k) ->
  wrap32 (counterForReassignedKeywordIds s + 1) <> MAX_KEYWORD_ID ->
  Forall (owned root (nodes s)) (path_of ctx k) ->
  exists h', keeps root (nodes s) h' /\
    if isTerminalNode n then
      addKeyword_SetPrevIdNexIdByPathTrace (path_of ctx k) isNew p s = Ok (tt, with_nodes s h') /\
      holds (with_nodes s h') (plug (fix_ctx ctx (settle p n cs)) (Tree p (settle p n cs) cs))
    else exists (o : bool) i t',
      addKeyword_SetPrevIdNexIdByPathTrace (path_of ctx k) isNew p s =
        Ok (tt, with_count (assigned s h' o (path_of ctx k)) (wrap32 (terminalNodes s + 1))) /\
      holds (with_nodes s h') t' /\
      tallied (plug (fix_ctx ctx (settle p n cs)) (Tree p (number_with (settle p n cs) i (terminalNodes s)) cs)) t' /\
      if o then fits (before ctx (tchar k)) (following ctx k) i else i = counterForReassignedKeywordIds s.
Proof.
  intros k Hc Hne Hh Hok Hroot Hcase Hcnt Hown. unfold addKeyword_SetPrevIdNexIdByPathTrace.
  change (bind (reads commited) ?f s) with (f (commited s) s). cbn beta. rewrite Hc.
  destruct (findNeighbours_run s ctx k d isNew Hh Hok Hne Hroot Hcase) as (prev & nxt & Hr0 & Hnb).
  rewrite (bind_run _ _ _ _ _ Hr0).
  destruct (links_run s ctx p n cs d Hne Hh Hok) as (h2 & Hr2 & Hh2 & Hre). rewrite (bind_run _ _ _ _ _ Hr2).
  assert (keeps root (nodes s) h2) as Hk2 by (apply spares_keeps; eapply relinks_spares; [eapply relinks_mono; [|exact Hre]|exact Hown];
    intros q; unfold path_of; rewrite map_rev, !elem_of_app, !list_elem_of_In, <- in_rev; done).
  rewrite (bind_run _ _ _ _ _ (load_holds _ _ _ _ _ Hh2)).
  change (isTerminalNode (settle p n cs)) with (isTerminalNode n).
  destruct (isTerminalNode n) eqn:Ht; cbn [negb]; [by exists h2|].
  destruct (Hnb Ht) as [Hprev Hnext].
  change (bind (reads terminalNodes) ?f (with_nodes s h2)) with (f (terminalNodes s) (with_nodes s h2)). cbn beta.
  set (t2 := plug (fix_ctx ctx (settle p n cs)) (Tree p (settle p n cs) cs)) in *.
  assert (ptrs t2 = ptrs (plug ctx k)) as Eptrs by (by apply fix_ctx_ptrs).
  destruct (assignId_run (with_nodes s h2) _ p (settle p n cs) cs prev nxt (path_of ctx k) Hh2) as
    (h3 & t3 & i & o & Hr3 & Hh3 & Ht3 & (h1 & m & Hct & Hm & ->) & Hid); [| |done|].
  { intros Hp. fold t2. rewrite Eptrs. by apply (last_word_cell s _ _ _ Hh Hprev). }
  { intros Hp. fold t2. rewrite Eptrs. by apply (first_word_cell s _ _ _ Hh Hnext). }
  assert (owned root (nodes s) p) as Hop.
  { rewrite Forall_forall in Hown. apply Hown. unfold path_of. set_solver. }
  pose proof (owned_counted _ _ _ _ Hct (owned_relinked _ _ _ _ _ Hre Hop)) as Hop1.
  pose proof (owned_update _ _ _ _ (with_id m i) Hop1 Hm eq_refl) as Hop2.
  set (s3 := assigned s (update h1 p (with_id m i)) o (path_of ctx k)).
  assert (holds s3 t3) as Hh3' by (apply (holds_ext (with_nodes (with_nodes s h2) (update h1 p (with_id m i)))); [by apply assigned_facts|done]).
  destruct (number_run s3 _ p (settle p n cs) cs t3 root i (terminalNodes s) Hh3' Ht3) as (h4 & t4 & Hr4 & Hh4 & Ht4 & Hk4).
  { unfold s3. by rewrite (proj1 (assigned_facts _ _ _ _)). }
  unfold s3 in Hk4. rewrite (proj1 (assigned_facts _ _ _ _)) in Hk4.
  exists h4. split.
  { eapply keeps_trans; [exact Hk2|]. eapply keeps_trans; [apply counted_keeps, Hct|].
    eapply keeps_trans; [exact (update_keeps root _ p m (with_id m i) Hm Hop1)|exact Hk4]. }
  exists o, i, t4. split; [|split; [|split; [exact Ht4|]]].
  - rewrite bind_assoc, (bind_run _ _ _ _ _ Hr3), (proj1 (assigned_ext s h2 _ h4 o _)). fold s3.
    rewrite bind_assoc. etransitivity; [exact (Hr4 _ _)|]. unfold s3. by destruct o.
  - apply (holds_ext (with_nodes s3 h4)); [done|exact Hh4].
  - destruct o; [|exact Hid]. destruct Hid as (Ep & En & Hid).
    destruct (last_word_cell s _ _ _ Hh Hprev Ep) as (Hpin & b' & eb & np & Eb & Hnp & Enp).
    destruct (first_word_cell s _ _ _ Hh Hnext En) as (Hnin & a' & ea & nn & Ea & Hnn & Enn).
    destruct (rl_inside _ _ _ Hre _ _ Hnp) as (x1 & y1 & Hnp2). destruct (rl_inside _ _ _ Hre _ _ Hnn) as (x2 & y2 & Hnn2).
    exists b', eb, ea, a'. rewrite Enp, Enn. split; [done|]. split; [done|]. exact (Hid _ _ Hnp2 Hnn2).
Qed.
End TrieIncrement.
