(* ===== verification/TrieThreadSafe.v ===== *)
(** * Insertion after the bulk load refines the dictionary

    (core/index/Trie.cpp: addKeyword_ThreadSafe.)  The copied path, the repaired
    links and the new id are put together; then the two views are compared: the
    write view gains the keyword, the read views keep theirs. *)
From S2P Require Import Prelude TrieNode Trie TrieTree TrieInsert TrieNeighbours TrieViews TrieUpdate TrieIncrement.
From Stdlib Require Import ZArith Lia List Bool Sorted.
From stdpp Require Import base gmap list fin_maps.
Open Scope Z_scope.

Module TrieThreadSafe.
Import TrieNode Trie TrieTree TrieInsert TrieNeighbours TrieViews TrieUpdate TrieIncrement.

(** ** The copied path *)

Lemma prepare_run s t w : represents s t -> Z.of_nat (length w) < 128 ->
  exists h1 cw P, descend_copy w 1 (tptr t) (mk_cow ∅ [] false) s = Ok ((P, cw), with_nodes s h1) /\
    forall s1, nodes s1 = h1 -> exists h2 ctx k m, P = path_of ctx k /\
      load_node (tptr k) s1 = Ok (m, s1) /\ isTerminalNode m = isTerminalNode (tnode k) /\
      for_each P (remap_descendants (oldToNewTrieNodeMap cw)) s1 = Ok (tt, with_nodes s1 h2) /\
      prepared (nodes s) t w (with_nodes s1 h2) (freed cw) ctx k (isNewTrieNode cw).
Proof.
  intros Hrep Hlen. pose proof Hrep as [Hh _ Hw].
  assert (copying s (mk_cow ∅ [] false) [] t [] t) as Hcp.
  { split; cbn; [done|constructor| |apply Hh| |done].
    - split; [by unfold renamed; rewrite lookup_empty|apply same_fields_refl|done].
    - intros p [x Hx]. by rewrite lookup_empty in Hx. }
  destruct (descend_copy_run w _ _ _ _ _ _ 0 Hcp Hw) as (h1 & cw & fr & fs0 & k0 & w' & fs1 & k1 & Hds & Hre); [lia|lia|].
  pose proof (ds_freed _ _ _ _ _ _ _ _ _ _ _ _ _ _ _ Hds) as Efr. cbn [freed app] in Efr. subst fr.
  exists h1, cw. unfold reached in Hre. destruct w' as [|c w2].
  - destruct Hre as (Hr & Enew & Hh1). exists (trail fs1 ++ [tptr k1]). split; [exact Hr|]. intros s1 E1.
    rewrite app_nil_r in Hh1. rewrite Enew.
    destruct (prepare_found _ _ _ _ _ _ _ _ _ _ s1 Hrep Hds Hh1 E1) as (h2 & ctx & k & Etr & Ht & Hrun & Hp).
    assert (tptr k = tptr k1) as Ek by (by apply app_inj_tail in Etr as [_ ?]).
    exists h2, ctx, k, (tnode k1). split; [by rewrite <- Etr|]. rewrite Ek. split; [|by rewrite Ht].
    apply (load_tree s1 fs1). by rewrite E1; apply Hh1.
  - destruct Hre as (l & r & q & gs & leaf & Ek & Hsort & Hch & Hr & Enew & Hh1 & Hgs & Hleaf).
    eexists. split; [exact Hr|]. intros s1 E1. rewrite app_nil_r in Hh1. rewrite Enew. rewrite Z.add_0_l in Hch.
    destruct (prepare_new _ _ _ _ _ _ _ _ _ _ _ _ _ _ _ _ _ s1 Hrep Hds Ek Hsort Hch Hgs Hleaf Hh1 E1)
      as (h2 & ctx & Etr & Hrun & Hp).
    exists h2, ctx, leaf, (tnode leaf). split; [by rewrite <- Etr|]. split; [|done].
    eapply (load_tree s1). rewrite E1. apply Hh1.
Qed.

(** ** Trees whose insert counters change *)

Lemma tallied_ren t : forall t', tallied t t' -> ren (fun p => p) t t'.
Proof.
  induction t as [p n cs IH] using tree_ind'. intros t'. inversion_clear 1 as [? ? c ? cs' Hcs].
  constructor; [done|]. induction Hcs as [|k k' cs cs' Hk Hcs IHcs]; [constructor|].
  inversion_clear IH. constructor; auto.
Qed.

Lemma tallied_wf d t t' : tallied t t' -> wf d t -> wf d t'.
Proof. intros H. apply (ren_wf (fun p => p)); [done|by apply tallied_ren]. Qed.

Lemma tallied_root t t' : tallied t t' -> tptr t' = tptr t /\ exists c, tnode t' = with_counters (tnode t) c.
Proof. inversion 1; subst. split; [done|]. by eexists. Qed.

(** ** Copies lie above what is shared *)

Inductive frozen : tree -> Prop :=
  frozen_tree p n cs : isCopy n = false -> Forall frozen cs -> frozen (Tree p n cs).

(** Below a node that is no copy there is no copy. *)
Inductive layered : tree -> Prop :=
  layered_tree p n cs : Forall layered cs -> (isCopy n = false -> Forall frozen cs) -> layered (Tree p n cs).

Lemma frozen_layered t : frozen t -> layered t.
Proof.
  induction t as [p n cs IH] using tree_ind'. inversion_clear 1 as [? ? ? Hc Hcs]. constructor; [|done].
  rewrite Forall_forall in *. auto.
Qed.

Lemma tallied_frozen t : forall t', tallied t t' -> frozen t -> frozen t'.
Proof.
  induction t as [p n cs IH] using tree_ind'. intros t'. inversion_clear 1 as [? ? c ? cs' Hcs].
  inversion_clear 1 as [? ? ? Hc Hf]. constructor; [done|].
  induction Hcs as [|k k' cs cs' Hk Hcs IHcs]; [constructor|]. inversion_clear IH. inversion_clear Hf. constructor; auto.
Qed.

Lemma tallied_frozens cs cs' : Forall2 tallied cs cs' -> Forall frozen cs -> Forall frozen cs'.
Proof.
  induction 1 as [|k k' cs cs' Hk _ IH]; [done|]. inversion_clear 1. constructor; [|auto]. by eapply tallied_frozen.
Qed.

Lemma tallied_layered t : forall t', tallied t t' -> layered t -> layered t'.
Proof.
  induction t as [p n cs IH] using tree_ind'. intros t'. inversion_clear 1 as [? ? c ? cs' Hcs].
  inversion_clear 1 as [? ? ? Hl Hf]. constructor; [|intros Hc; eapply tallied_frozens; [exact Hcs|by apply Hf]].
  clear Hf. induction Hcs as [|k k' cs cs' Hk Hcs IHcs]; [constructor|]. inversion_clear IH. inversion_clear Hl.
  constructor; auto.
Qed.

Lemma frozen_plug ctx : forall k, frozen (plug ctx k) -> frozen k.
Proof.
  induction ctx as [|f ctx IH]; intros k; [done|]. cbn [plug]. intros H%IH. inversion_clear H as [? ? ? _ Hcs].
  apply Forall_app in Hcs as [_ Hcs]. by inversion Hcs.
Qed.

Lemma layered_beside t y : Forall layered (kids t) -> beside t y -> layered y.
Proof.
  intros Hl (f & ctx & <-). revert f y Hl. induction ctx as [|g ctx IH]; intros f y Hl.
  - cbn in Hl. rewrite Forall_app, Forall_cons in Hl. apply Hl.
  - cbn [plug] in Hl. specialize (IH g (fill f y) Hl). inversion_clear IH as [? ? ? H _].
    rewrite Forall_app, Forall_cons in H. apply H.
Qed.

(** The root is on every proper path. *)
Lemma trail_root ctx : forall k, ctx <> [] -> tptr (plug ctx k) ∈ ctx_ptrs ctx.
Proof.
  induction ctx as [|f ctx IH]; intros k Hne; [done|]. rewrite ctx_ptrs_cons. apply elem_of_app. cbn [plug].
  destruct ctx as [|g ctx]; [left; unfold frame_ptrs; set_solver|right; by apply IH].
Qed.

Lemma layered_plug root ctx : forall k,
  Forall (fun f => fptr f = root \/ isCopy (fnode f) = true) ctx ->
  Forall (fun f => Forall layered (fleft f ++ fright f)) ctx -> layered k ->
  ctx <> [] -> tptr (plug ctx k) = root -> NoDup (ptrs (plug ctx k)) ->
  Forall layered (kids (plug ctx k)).
Proof.
  induction ctx as [|f ctx IH]; intros k Hc Hl Hk Hne Hroot Hnd; [done|]. inversion_clear Hc as [|? ? Hcf Hcs].
  inversion_clear Hl as [|? ? Hlf Hls]. apply Forall_app in Hlf as [Hl1 Hl2]. cbn [plug] in *.
  assert (Forall layered (fleft f ++ k :: fright f)) as Hkids by (apply Forall_app; split; [done|by constructor]).
  destruct ctx as [|g ctx]; [done|]. apply IH; try done. constructor; [done|]. intros Hnc.
  destruct Hcf as [Hp|Hcf]; [|congruence]. exfalso.
  rewrite ptrs_plug in Hnd.
  apply NoDup_app in Hnd as (_ & Hdis & _).
  pose proof (trail_root (g :: ctx) (fill f k) ltac:(done)) as H1. rewrite Hroot in H1.
  apply (Hdis root H1). rewrite <- Hp. apply (tptr_in (fill f k)).
Qed.

(** ** The parts of the state that insertion does not touch *)

Record kept_fields (s s' : trie) : Prop := {
  kf_readers : readers s' = readers s;
  kf_readview : root_readview s' = root_readview s;
  kf_writeview : root_writeview s' = root_writeview s;
  kf_queue : oldReadViewQueue s' = oldReadViewQueue s;
  kf_commited : commited s' = commited s;
  kf_map : oldIdToNewIdMapVector s' = oldIdToNewIdMapVector s;
  kf_empty : emptyLeafNodeIds s' = emptyLeafNodeIds s }.

Lemma push_free_run s x l : s_load (views s) (root_readview s) = Ok x ->
  exists s', push_free l s = Ok (tt, s') /\ nodes s' = nodes s /\
    s_load (views s') (root_readview s) = Ok (mk_view (free_list x ++ l) (root x)) /\
    (forall u, u <> root_readview s -> s_load (views s') u = s_load (views s) u) /\
    (store_wf (views s) -> store_wf (views s')) /\
    kept_fields s s' /\ terminalNodes s' = terminalNodes s /\
    counterForReassignedKeywordIds s' = counterForReassignedKeywordIds s /\ mergeRequired s' = mergeRequired s.
Proof.
  intros Hx. pose proof Hx as [Hv Hl]%s_load_Ok. set (y := mk_view (free_list x ++ l) (root x)).
  assert (s_store (views s) (root_readview s) y = Ok (mk_store (<[root_readview s := y]> (cells (views s))) (next_addr (views s)))) as Hst
    by (apply s_store_Ok; eauto).
  eexists. split; [unfold push_free, bind, reads, lift; rewrite Hx; fold y; rewrite Hst; reflexivity|].
  cbn. split; [done|]. split; [apply s_load_Ok; split; [done|apply lookup_insert_eq]|]. split; [|split].
  - intros u Hu. unfold s_load. cbn. by rewrite lookup_insert_ne by done.
  - intros Hwf. eapply s_store_wf; [exact Hwf|exact Hst].
  - by repeat split.
Qed.

Lemma remapPath_run m s : exists l, remapPathForTrieNodesToReassign m s =
  Ok (tt, mk_trie (nodes s) (views s) (readers s) (root_readview s) (root_writeview s) (oldReadViewQueue s)
    (terminalNodes s) (counterForReassignedKeywordIds s) l
    (oldIdToNewIdMapVector s) (commited s) (mergeRequired s) (emptyLeafNodeIds s)).
Proof.
  unfold remapPathForTrieNodesToReassign. destruct (bool_decide (m = ∅)).
  - exists (trieNodesToReassign s). by destruct s.
  - by eexists.
Qed.

(** ** What one insertion does to the dictionary *)

(** The word [w] was there, with the id and offset of the answer. *)
Definition finds (w : list Z) (l l' : list (list Z * (Z * Z))) (r : inserted) : Prop :=
  In (w, (ins_id r, ins_offset r)) l /\ l' = l.

(** The word [w] enters at its place with the offset [k]; its id fits between
    those of its neighbours, or it is the temporary id [c]. *)
Definition enters (w : list Z) (k c c' : Z) (l l' : list (list Z * (Z * Z))) (r : inserted) : Prop :=
  ~ In w (map fst l) /\ ins_offset r = k /\
  exists b a, l = b ++ a /\ l' = b ++ (w, (ins_id r, k)) :: a /\
    ((fits b a (ins_id r) /\ c' = c) \/ (ins_id r = c /\ c' = wrap32 (c + 1))).

(** The new tree uses old nodes only as far as they are copies or its own. *)
Record replaces (s s' : trie) (t t' : tree) (fr : list ptr) : Prop := {
  rp_rep : represents s' t';
  rp_top : isTerminalNode (tnode t') = false;
  rp_keeps : keeps (tptr t) (nodes s) (nodes s');
  rp_nodup : NoDup fr;
  rp_freed : forall p, p ∈ fr -> p ∈ ptrs t /\ p <> tptr t /\ p ∉ ptrs t' /\
    exists n, cells (nodes s) !! p = Some n /\ isCopy n = false;
  rp_old : forall p n, p ∈ ptrs t' -> cells (nodes s) !! p = Some n -> isCopy n = false -> p ∈ ptrs t;
  rp_layered : Forall layered (kids t) -> Forall layered (kids t') }.

(** The nodes of the prepared tree. *)
Lemma prepared_old h0 t w s fr ctx k b : prepared h0 t w s fr ctx k b ->
  forall p n, p ∈ ptrs (plug ctx k) -> cells h0 !! p = Some n -> isCopy n = false -> p <> tptr t -> p ∈ ptrs t.
Proof.
  intros [Hh _ _ _ _ _ Hsp Hc Hk [Hb1 Hb2] _ _] p n Hin Hn Hnc Hne.
  pose proof (sp_cells _ _ _ Hsp p n Hn Hnc Hne) as Hn'. pose proof (h_shape _ _ Hh) as Hs.
  assert (forall y, beside t y -> p ∈ ptrs y -> p ∈ ptrs t) as Hby.
  { intros y (f & c & <-) Hy. rewrite ptrs_plug. apply elem_of_app. by right. }
  rewrite ptrs_plug in Hin. apply elem_of_app in Hin as [Hin|Hin].
  - apply elem_of_flat_map in Hin as (f & Hf & Hin). rewrite Forall_forall in Hc, Hb1.
    unfold frame_ptrs in Hin. apply elem_of_cons in Hin as [->|Hin].
    + destruct (Hc f Hf) as [|Hcf]; [done|]. apply list_elem_of_split in Hf as (c1 & c2 & ->).
      rewrite (plug_cell _ _ _ _ _ Hs) in Hn'. congruence.
    + rewrite <- flat_map_app in Hin. apply elem_of_flat_map in Hin as (y & Hyf & Hin).
      specialize (Hb1 f Hf). rewrite Forall_forall in Hb1. eauto.
  - destruct k as [q m cs]. cbn in Hin. apply elem_of_cons in Hin as [->|Hin].
    + destruct Hk as [|Hcm]; [done|]. pose proof (plug_focus_cell _ _ _ Hs) as Hm. cbn in Hm, Hcm. congruence.
    + apply elem_of_flat_map in Hin as (y & Hyc & Hin). rewrite Forall_forall in Hb2. eauto.
Qed.

Lemma fix_ctx_frames root ctx : forall n,
  Forall (fun f => fptr f = root \/ isCopy (fnode f) = true) ctx ->
  Forall (fun f => Forall layered (fleft f ++ fright f)) ctx ->
  Forall (fun f => fptr f = root \/ isCopy (fnode f) = true) (fix_ctx ctx n) /\
  Forall (fun f => Forall layered (fleft f ++ fright f)) (fix_ctx ctx n).
Proof.
  induction ctx as [|f ctx IH]; intros n Hc Hl; [done|]. inversion_clear Hc. inversion_clear Hl.
  cbn [fix_ctx]. destruct (IH (fix_node f n)) as [Hx1 Hx2]; [done|done|]. split; constructor; try done.
  cbn. assert (isCopy (fix_node f n) = isCopy (fnode f)) as ->; [|done].
  unfold fix_node. by destruct (is_nil (fleft f) && _), (is_nil (fright f)).
Qed.

Lemma top_fix ctx : forall n k k', ctx <> [] ->
  isTerminalNode (tnode (plug (fix_ctx ctx n) k)) = isTerminalNode (tnode (plug ctx k')).
Proof.
  induction ctx as [|f ctx IH]; intros n k k' Hne; [done|]. cbn [fix_ctx plug].
  destruct ctx as [|g ctx]; [|by apply IH]. cbn. apply (fix_node_same f n).
Qed.

(** The prepared node, from the point of view of the dictionary. *)
Lemma prepared_focus h0 t w s fr ctx k b : prepared h0 t w s fr ctx k b -> w <> [] ->
  ctx <> [] /\ StronglySorted Z.lt (map tchar (kids k)) /\ Forall (wf (Z.of_nat (length w) + 1)) (kids k) /\
  Forall inhabited (kids k) /\
  (if b then kids k = [] /\ isTerminalNode (tnode k) = false else wf (Z.of_nat (length w)) k /\ inhabited k) /\
  entries t = before ctx (tchar k) ++
    (if isTerminalNode (tnode k) then [(w, (id (tnode k), invertedListOffset (tnode k)))] else []) ++ following ctx k.
Proof.
  intros [_ Hok Hword _ _ _ _ _ _ _ _ Hcase] Hne.
  assert (ctx <> []) as Hctx by (intros ->; by cbn in Hword; subst w).
  split; [done|]. unfold following. rewrite Hword. destruct b.
  - destruct Hcase as (E & Ht & He). rewrite E, Ht, <- He. by repeat split; try constructor.
  - destruct Hcase as [Hw He]. apply wf_plug in Hw as (d & Hok' & _ & Hwk & Hin).
    rewrite (ctx_ok_length _ _ _ Hok'), <- (ctx_ok_length _ _ _ Hok) in Hwk. specialize (Hin Hctx).
    rewrite <- He, entries_plug, Hword. destruct k as [p n cs]. inversion Hwk; subst. cbn [kids tnode tchar] in *.
    repeat (split; [done|]). destruct (isTerminalNode n) eqn:Ht.
    + rewrite (entries_own _ _ _ Ht). cbn [map]. by rewrite under_own, <- app_comm_cons.
    + by rewrite (entries_plain _ _ _ Ht).
Qed.

(** The tree after the insertion, but for the counters. *)
Lemma settled_tree h0 t w s fr ctx p n cs b n' : let k := Tree p n cs in
  let t1 := plug (fix_ctx ctx (settle p n cs)) (Tree p n' cs) in
  prepared h0 t w s fr ctx k b -> w <> [] ->
  character n' = character n -> getDepth n' = getDepth n -> isTerminalNode n' = true -> isCopy n' = isCopy n ->
  leftMostDescendant n' = p -> rightMostDescendant n' = rightMostDescendant (settle p n cs) ->
  wf 0 t1 /\ tptr t1 = tptr t /\ isTerminalNode (tnode t1) = isTerminalNode (tnode t) /\
  ptrs t1 = ptrs (plug ctx k) /\ (Forall layered (kids t) -> Forall layered (kids t1)) /\
  entries t1 = before ctx (tchar k) ++ (w, (id n', invertedListOffset n')) :: following ctx k.
Proof.
  intros k t1 Hp Hne Hchar Hdep Ht Hcopy Hl Hr.
  destruct (prepared_focus _ _ _ _ _ _ _ _ Hp Hne) as (Hctx & Hsc & Hwc & Hic & _ & _).
  destruct Hp as [Hh Hok Hword Hd Hroot Htop _ Hc Hk [Hb1 Hb2] _ _]. cbn [kids tnode] in *.
  pose proof (wf_settled _ p n n' cs Hd Hsc Hwc Hic Hdep Ht Hl Hr) as Hwk.
  assert (ptrs t1 = ptrs (plug ctx k)) as Ep by (by apply fix_ctx_ptrs).
  assert (tptr t1 = tptr t) as Er by (rewrite <- Hroot; by apply tptr_fix).
  split; [exact (finished_wf ctx p n n' cs _ Hok Hchar Hwk Ht Hl Hr)|]. split; [done|].
  split; [rewrite <- Htop; by apply top_fix|]. split; [done|]. split.
  - intros Hlay.
    assert (Forall (fun f => Forall layered (fleft f ++ fright f)) ctx) as Hlc.
    { eapply Forall_impl; [exact Hb1|]. intros f Hf. eapply Forall_impl; [exact Hf|].
      intros y Hy. by eapply layered_beside. }
    destruct (fix_ctx_frames (tptr t) ctx (settle p n cs) Hc Hlc) as [Hc' Hl'].
    apply (layered_plug (tptr t)); try done.
    + constructor; [eapply Forall_impl; [exact Hb2|]; intros y Hy; by eapply layered_beside|].
      intros Hnc. destruct Hk as [Hk|Hk]; [|change (isCopy n = true) in Hk; congruence]. exfalso.
      pose proof (h_nodup _ _ Hh) as Hnd. rewrite ptrs_plug in Hnd. apply NoDup_app in Hnd as (_ & Hdis & _).
      pose proof (trail_root ctx k Hctx) as Hin. rewrite Hroot in Hin. apply (Hdis _ Hin). rewrite <- Hk. apply (tptr_in k).
    + intros E. apply Hctx. by destruct ctx.
    + fold t1. rewrite Ep. apply Hh.
  - unfold t1. rewrite (finished_entries ctx p n n' cs Hchar). change (tchar k) with (character n) in *. rewrite Hword.
    rewrite (entries_own p n' cs Ht). cbn [map]. rewrite under_own. unfold following. cbn [kids].
    change (tchar k) with (character n). by rewrite Hword.
Qed.

(** ** The whole insertion *)

Lemma path_owned h0 t w s fr ctx k b : prepared h0 t w s fr ctx k b ->
  Forall (owned (tptr t) (nodes s)) (path_of ctx k).
Proof.
  intros Hp. apply (copies_owned (nodes s) [] k ctx); [rewrite app_nil_r; apply (h_shape _ _ (pp_holds _ _ _ _ _ _ _ _ Hp))|apply Hp|apply Hp].
Qed.

(** What the end of an insertion leaves of the state: [s1] before the path was
    finished, [s'] after. *)
Record finished (w : list Z) (k c : Z) (s1 s' : trie) (l l' : list (list Z * (Z * Z))) (r : inserted) : Prop := {
  fd_fields : kept_fields s1 s';
  fd_views : views s' = views s1;
  fd_merge : mergeRequired s' = mergeRequired s1;
  fd_case : (finds w l l' r /\ terminalNodes s' = k /\ counterForReassignedKeywordIds s' = c) \/
    (enters w k c (counterForReassignedKeywordIds s') l l' r /\ terminalNodes s' = wrap32 (k + 1)) }.

Lemma finish_run h0 s1 t w h2 fr ctx k b m int : let s := with_nodes s1 h2 in
  prepared h0 t w s fr ctx k b -> w <> [] -> commited s1 = true -> wf 0 t -> isTerminalNode (tnode t) = false ->
  tptr t = root_writeview s1 -> wrap32 (counterForReassignedKeywordIds s1 + 1) <> MAX_KEYWORD_ID ->
  exists s' t' r, (addKeyword_SetPrevIdNexIdByPathTrace (path_of ctx k) b (tptr k) ;;;
      remapPathForTrieNodesToReassign m ;;;
      let! n := load_node (tptr k) in
      ret (Some (mk_inserted (id n) (invertedListOffset n) b int (tptr k)))) s = Ok (Some r, s') /\
    represents s' t' /\ isTerminalNode (tnode t') = false /\ keeps (tptr t) h0 (nodes s') /\
    ptrs t' = ptrs (plug ctx k) /\ (Forall layered (kids t) -> Forall layered (kids t')) /\
    ins_node r = tptr k /\
    finished w (terminalNodes s1) (counterForReassignedKeywordIds s1) s1 s' (entries t) (entries t') r.
Proof.
  intros s Hp Hne Hc Hw Htop Hroot Hcnt. destruct k as [p n cs]. cbn [tptr].
  destruct (prepared_focus _ _ _ _ _ _ _ _ Hp Hne) as (Hctx & _ & _ & _ & Hcase & He).
  pose proof (pp_top _ _ _ _ _ _ _ _ Hp) as Ht0. rewrite Htop in Ht0.
  destruct (finish_inc s ctx p n cs b _ (tptr t) Hc Hctx (pp_holds _ _ _ _ _ _ _ _ Hp) (pp_ok _ _ _ _ _ _ _ _ Hp) Ht0 Hcase
    Hcnt (path_owned _ _ _ _ _ _ _ _ Hp)) as (h3 & Hk3 & Hfin).
  assert (keeps (tptr t) h0 h3) as Hk by (eapply keeps_trans; [apply spares_keeps, (pp_spares _ _ _ _ _ _ _ _ Hp)|exact Hk3]).
  clear Hk3. cbn [tnode] in He. destruct (isTerminalNode n) eqn:Et.
  - destruct Hfin as [Hr Hh]. rewrite (bind_run _ _ _ _ _ Hr).
    destruct (remapPath_run m (with_nodes s h3)) as (l & Hr2). rewrite (bind_run _ _ _ _ _ Hr2).
    set (s' := mk_trie _ _ _ _ _ _ _ _ _ _ _ _ _) in *.
    destruct (settled_tree _ _ _ _ _ _ _ _ _ _ (settle p n cs) Hp Hne) as (A & B & C & D & E & F); try done.
    set (t' := plug (fix_ctx ctx _) _) in *. exists s', t'. eexists.
    assert (holds s' t') as Hh' by (eapply holds_ext; [|exact Hh]; done).
    rewrite (bind_run _ _ _ _ _ (load_holds s' (fix_ctx ctx (settle p n cs)) _ _ cs Hh')).
    split; [reflexivity|]. split; [by split; [|rewrite B|]|]. split; [by rewrite C|]. repeat (split; [done|]).
    split; try done. left. split; [|done]. split; [|by rewrite F, He]. rewrite He. apply in_app_iff. right. by left.
  - destruct Hfin as (o & i & t' & Hr & Hh & Htal & Hid). rewrite (bind_run _ _ _ _ _ Hr).
    set (s3 := with_count _ _) in *. assert (nodes s3 = h3 /\ views s3 = views s1 /\ kept_fields s1 s3 /\
      mergeRequired s3 = mergeRequired s1 /\ counterForReassignedKeywordIds s3 =
        if o then counterForReassignedKeywordIds s1 else wrap32 (counterForReassignedKeywordIds s1 + 1))
      as (E1 & E2 & E3 & E4 & E5) by (unfold s3; destruct o; by repeat split).
    assert (terminalNodes s3 = wrap32 (terminalNodes s1 + 1)) as E6 by (by unfold s3; destruct o). clearbody s3.
    destruct (remapPath_run m s3) as (l & Hr2). rewrite (bind_run _ _ _ _ _ Hr2).
    set (s' := mk_trie _ _ _ _ _ _ _ _ _ _ _ _ _) in *. set (n' := number_with (settle p n cs) i (terminalNodes s)) in *.
    pose proof (terminal_flags (with_offset (with_id (settle p n cs) i) (terminalNodes s)) _ eq_refl) as [Ht' Hd'].
    destruct (settled_tree _ _ _ _ _ _ _ _ _ _ n' Hp Hne) as (A & B & C & D & E & F); try done.
    set (t1 := plug (fix_ctx ctx _) _) in *.
    assert (holds s' t') as Hh' by (eapply holds_ext; [|exact Hh]; done).
    destruct (tallied_plug_inv _ _ _ Htal) as (ctx' & k' & -> & _ & Hk'). inversion Hk' as [? ? cnt ? cs' _]; subst k'.
    set (t' := plug ctx' _) in *. exists s', t'. eexists.
    rewrite (bind_run _ _ _ _ _ (load_holds s' ctx' _ _ _ Hh')).
    split; [reflexivity|]. destruct (tallied_root _ _ Htal) as (Er & c' & En).
    split; [split; [done| |by eapply tallied_wf]|].
    { rewrite Er, B, Hroot. symmetry. apply (kf_writeview _ _ E3). }
    split; [by rewrite En; change (isTerminalNode (tnode t1) = false); rewrite C|].
    split; [cbn; by rewrite E1|]. split; [by rewrite (tallied_ptrs _ _ Htal)|].
    split.
    { intros Hlay. specialize (E Hlay). clear -E Htal. destruct Htal as [? ? ? ? ? Hcs]. cbn in *.
      induction Hcs; [constructor|]. inversion_clear E. constructor; [by eapply tallied_layered|auto]. }
    split; [done|]. rewrite (tallied_entries _ _ Htal).
    split; [by destruct E3; split|done|done|]. right. split; [|exact E6]. cbn [app] in He.
    split.
    { rewrite He, map_app. pose proof (words_sorted _ _ A) as Hso. unfold words in Hso. rewrite F, map_app in Hso.
      by apply sorted_unique in Hso. }
    split; [done|]. exists (before ctx (tchar (Tree p n cs))), (following ctx (Tree p n cs)). split; [done|].
    split; [exact F|]. cbn [counterForReassignedKeywordIds s']. rewrite E5. destruct o; [left|right]; done.
Qed.

Lemma kept_trans s1 s2 s3 : kept_fields s1 s2 -> kept_fields s2 s3 -> kept_fields s1 s3.
Proof. intros [A B C D E F G] [A' B' C' D' E' F' G']. split; congruence. Qed.

(** What the keyword [w] is to the dictionary before and after. *)
Definition answers (w : list Z) (s s' : trie) (l l' : list (list Z * (Z * Z))) (r : inserted) : Prop :=
  (finds w l l' r /\ terminalNodes s' = terminalNodes s /\
   counterForReassignedKeywordIds s' = counterForReassignedKeywordIds s) \/
  (enters w (terminalNodes s) (counterForReassignedKeywordIds s) (counterForReassignedKeywordIds s') l l' r /\
   terminalNodes s' = wrap32 (terminalNodes s + 1)).

(** Only the current view's free list changes among the views. *)
Record extends_view (s s' : trie) (x : view) (fr : list ptr) : Prop := {
  ev_current : s_load (views s') (root_readview s) = Ok (mk_view (free_list x ++ fr) (root x));
  ev_others : forall u, u <> root_readview s -> s_load (views s') u = s_load (views s) u;
  ev_wf : store_wf (views s) -> store_wf (views s') }.

Lemma addKeyword_ThreadSafe_run s t x keyword int : represents s t -> commited s = true ->
  isTerminalNode (tnode t) = false -> cleanString keyword <> [] ->
  s_load (views s) (root_readview s) = Ok x ->
  wrap32 (counterForReassignedKeywordIds s + 1) <> MAX_KEYWORD_ID ->
  exists s' t' r fr, addKeyword_ThreadSafe keyword false int s = Ok (Some r, s') /\
    replaces s s' t t' fr /\ extends_view s s' x fr /\ kept_fields s s' /\ mergeRequired s' = true /\
    answers (cleanString keyword) s s' (entries t) (entries t') r.
Proof.
  intros Hrep Hc Htop Hne Hx Hcnt. unfold addKeyword_ThreadSafe.
  destruct (Z.eqb_spec (Z.of_nat (length keyword)) 0) as [E|_].
  { destruct keyword; [by destruct Hne|cbn in E; lia]. }
  unfold set_mergeRequired. rewrite (bind_run (modify _) _ s tt _) by reflexivity.
  set (s0 := mk_trie _ _ _ _ _ _ _ _ _ _ _ true _).
  assert (represents s0 t) as Hrep0 by (destruct Hrep as [Hh Hr Hw]; split; [eapply holds_ext; [|exact Hh]|..]; done).
  change (bind (reads root_writeview) ?f s0) with (f (root_writeview s) s0). cbn beta. rewrite <- (r_root _ _ Hrep).
  pose proof (cleanString_length keyword) as Hlen. set (w := cleanString keyword) in *.
  destruct (prepare_run s0 t w Hrep0) as (h1 & cw & P & Hr1 & Hprep); [lia|]. rewrite (bind_run _ _ _ _ _ Hr1).
  destruct (push_free_run (with_nodes s0 h1) x (freed cw) Hx) as (s1 & Hr2 & E1 & Hv & Hvo & Hvwf & Hkf & En & Ec & Em).
  rewrite (bind_run _ _ _ _ _ Hr2). destruct (Hprep s1 E1) as (h2 & ctx & k & m & -> & Hl & Ht & Hr3 & Hp).
  rewrite path_of_last. cbn [default]. rewrite (bind_run _ _ _ _ _ Hl), (bind_run _ _ _ _ _ Hr3).
  set (int' := if _ && _ then true else int). cbn beta zeta.
  assert (kept_fields s s1) as Hkf1 by (destruct Hkf; split; done).
  destruct (finish_run (nodes s) s1 t w h2 (freed cw) ctx k _ (oldToNewTrieNodeMap cw) int' Hp Hne)
    as (s' & t' & r & Hr4 & Hrep' & Htop' & Hk & Ept & Hlay & _ & Hfin);
    [by rewrite (kf_commited _ _ Hkf1)|apply Hrep|done|by rewrite (kf_writeview _ _ Hkf1); apply Hrep|by rewrite Ec|].
  exists s', t', r, (freed cw). split; [exact Hr4|]. destruct Hfin as [Hkf' Ev Em' Hcase]. cbn in En, Ec, Em, Hvo, Hvwf.
  split; [|split; [split; rewrite Ev; done|split; [by eapply kept_trans|split; [by rewrite Em'|]]]].
  - destruct (pp_freed _ _ _ _ _ _ _ _ Hp) as [Hnd Hfr]. split; try done.
    + intros p Hpf. rewrite Ept. by apply Hfr.
    + intros p n Hpin Hn Hcp. destruct (decide (p = tptr t)) as [->|Hpne]; [apply tptr_in|].
      rewrite Ept in Hpin. by eapply prepared_old.
  - unfold answers. rewrite En, Ec in Hcase. exact Hcase.
Qed.

(** ** The trees of readers *)

Lemma keeps_shape root h h' t : keeps root h h' -> shape h t -> frozen t -> root ∉ ptrs t ->
  exists t', shape h' t' /\ tallied t t'.
Proof.
  intros [A _ _]. induction t as [p n cs IH] using tree_ind'. intros Hs Hf Hr.
  inversion_clear Hs as [? ? ? Hp Hn Hch Hcs]. inversion_clear Hf as [? ? ? Hc Hfs]. cbn [ptrs] in Hr.
  apply not_elem_of_cons in Hr as [Hrp Hr].
  destruct (A p n Hn Hc (not_eq_sym Hrp)) as [c Hn'].
  assert (exists cs', Forall (shape h') cs' /\ Forall2 tallied cs cs') as (cs' & Hcs' & Ht).
  { clear Hch. induction cs as [|k cs IHcs]; [by exists []|]. inversion_clear IH as [|? ? IHk IH'].
    inversion_clear Hcs. inversion_clear Hfs. cbn in Hr. apply not_elem_of_app in Hr as [Hrk Hr].
    destruct IHk as (k' & ? & ?); [done|done|done|]. destruct IHcs as (cs' & ? & ?); [done|done|done|done|].
    exists (k' :: cs'). by split; constructor. }
  exists (Tree p (with_counters n c) cs'). split; [|by constructor]. constructor; try done.
  cbn. rewrite Hch. clear -Ht. induction Ht as [|k k' cs cs' Hk _ IH]; [done|]. cbn. rewrite IH.
  by destruct (tallied_root _ _ Hk) as [-> _].
Qed.

Lemma keeps_holds root s s' t : keeps root (nodes s) (nodes s') -> holds s t -> frozen t -> root ∉ ptrs t ->
  exists t', holds s' t' /\ tallied t t'.
Proof.
  intros Hk [Hs Hnd Hwf] Hf Hr. destruct (keeps_shape _ _ _ _ Hk Hs Hf Hr) as (t' & Hs' & Ht).
  exists t'. split; [|done]. split; [done|by rewrite (tallied_ptrs _ _ Ht)|by apply (kp_wf _ _ _ Hk)].
Qed.

(** (C12) Insertion after the bulk load implements the dictionary as well: a word
    that is there is answered with its id and offset and the dictionary stays; a
    new word enters at its place in the order, its offset is the number of
    keywords so far, and its id either lies strictly between the ids of the words
    around it, or is the next temporary id, which is then counted.  The nodes
    replaced by copies, none of which is in the new tree, go to the free list of
    the current read view, each once. *)
Theorem addKeyword_ThreadSafe_refines (s : trie) (t : tree) (x : view) (keyword : list Z) :
  represents s t -> commited s = true -> isTerminalNode (tnode t) = false -> cleanString keyword <> [] ->
  s_load (views s) (root_readview s) = Ok x ->
  wrap32 (counterForReassignedKeywordIds s + 1) <> MAX_KEYWORD_ID ->
  exists s' t' r fr, addKeyword_ThreadSafe keyword false false s = Ok (Some r, s') /\
    represents s' t' /\ isTerminalNode (tnode t') = false /\
    answers (cleanString keyword) s s' (entries t) (entries t') r /\ extends_view s s' x fr /\
    NoDup fr /\ (forall p, p ∈ fr -> p ∈ ptrs t /\ p ∉ ptrs t').
Proof.
  intros Hrep Hc Ht Hne Hx Hcnt.
  destruct (addKeyword_ThreadSafe_run s t x keyword false Hrep Hc Ht Hne Hx Hcnt) as
    (s' & t' & r & fr & Hr & [A B _ D E _ _] & Hv & _ & _ & Hans).
  exists s', t', r, fr. do 6 (split; [done|]). intros p Hp. destruct (E p Hp) as (? & _ & ? & _). done.
Qed.

(** A trie after the bulk load of three keywords and the commit. *)
Definition loaded_demo : trie :=
  match (commit ;;; finalCommit_finalizeHistogramInformation (ret tt)) demo with
  | Ok (_, s) => s | Err _ => demo
  end.
Definition loaded_demo_tree : tree :=
  match read_tree 9 (nodes loaded_demo) (root_writeview loaded_demo) with Ok t => t | Err _ => demo_tree end.

Lemma loaded_demo_represents : represents loaded_demo loaded_demo_tree.
Proof.
  split; [split| |].
  - apply (read_tree_shape 9 _ (root_writeview loaded_demo)). vm_compute. reflexivity.
  - apply (bool_decide_unpack _). vm_compute. exact I.
  - split; [vm_compute; reflexivity|]. intros p Hp. apply elem_of_dom in Hp.
    change (p ∈ dom (cells (nodes loaded_demo))) in Hp. apply elem_of_elements in Hp. revert p Hp.
    apply Forall_forall. apply (bool_decide_unpack _). vm_compute. exact I.
  - vm_compute. reflexivity.
  - apply wfb_sound. vm_compute. reflexivity.
Qed.

Lemma addKeyword_ThreadSafe_refines_witness : exists s' t' r,
  addKeyword_ThreadSafe [97; 97] false false loaded_demo = Ok (Some r, s') /\ represents s' t' /\
  In [97; 97] (words t').
Proof.
  destruct (addKeyword_ThreadSafe_refines loaded_demo loaded_demo_tree
    (match s_load (views loaded_demo) (root_readview loaded_demo) with Ok x => x | Err _ => mk_view [] 1%N end) [97; 97])
    as (s' & t' & r & fr & Hr & Hrep & _ & Hans & _).
  - exact loaded_demo_represents.
  - vm_compute. reflexivity.
  - vm_compute. reflexivity.
  - vm_compute. discriminate.
  - vm_compute. reflexivity.
  - vm_compute. discriminate.
  - exists s', t', r. split; [exact Hr|]. split; [exact Hrep|].
    unfold words. destruct Hans as [[[Hin E] _]|[(_ & _ & b & a & _ & E & _) _]]; rewrite E.
    + exact (in_map fst _ _ Hin).
    + rewrite map_app, in_app_iff. right. left. reflexivity.
Defined.

(** Insertion is invisible to readers: any tree in the store that contains
    no copies and not the root of the write view, as the trees of all read views,
    is still there after an insertion, with the same addresses and the same
    keywords, ids and offsets; of its nodes only insert counters may differ. *)
Theorem readers_unaffected (s : trie) (t tr : tree) (x : view) (keyword : list Z) :
  represents s t -> commited s = true -> isTerminalNode (tnode t) = false -> cleanString keyword <> [] ->
  s_load (views s) (root_readview s) = Ok x ->
  wrap32 (counterForReassignedKeywordIds s + 1) <> MAX_KEYWORD_ID ->
  holds s tr -> frozen tr -> root_writeview s ∉ ptrs tr ->
  exists s' tr' r, addKeyword_ThreadSafe keyword false false s = Ok (Some r, s') /\
    holds s' tr' /\ tallied tr tr' /\ ptrs tr' = ptrs tr /\ entries tr' = entries tr.
Proof.
  intros Hrep Hc Ht Hne Hx Hcnt Hh Hf Hr.
  destruct (addKeyword_ThreadSafe_run s t x keyword false Hrep Hc Ht Hne Hx Hcnt) as
    (s' & t' & r & fr & Hrun & [_ _ Hk _ _ _ _] & _).
  rewrite <- (r_root _ _ Hrep) in Hr. destruct (keeps_holds _ _ _ _ Hk Hh Hf Hr) as (tr' & Hh' & Htal).
  exists s', tr', r. do 3 (split; [done|]). split; [by apply tallied_ptrs|by apply tallied_entries].
Qed.

Fixpoint frozenb (t : tree) : bool :=
  match t with Tree _ n cs => negb (isCopy n) && forallb frozenb cs end.
Lemma frozenb_sound t : frozenb t = true -> frozen t.
Proof.
  induction t as [p n cs IH] using tree_ind'. cbn. intros [Hc Hf]%andb_true_iff. constructor; [by destruct (isCopy n)|].
  rewrite forallb_forall in Hf. rewrite Forall_forall in *. intros k Hk. apply IH; [done|]. apply Hf.
  by apply list_elem_of_In.
Qed.

(** The tree of the read view of the example. *)
Definition loaded_demo_read : tree :=
  match read_tree 9 (nodes loaded_demo) 2%N with Ok t => t | Err _ => demo_tree end.

Lemma readers_unaffected_witness : exists s' tr' r,
  addKeyword_ThreadSafe [97; 97] false false loaded_demo = Ok (Some r, s') /\
  holds s' tr' /\ words tr' = [[97]; [97; 98]; [98]].
Proof.
  destruct (readers_unaffected loaded_demo loaded_demo_tree loaded_demo_read
    (match s_load (views loaded_demo) (root_readview loaded_demo) with Ok x => x | Err _ => mk_view [] 1%N end) [97; 97])
    as (s' & tr' & r & Hr & Hh & _ & _ & He).
  - exact loaded_demo_represents.
  - vm_compute. reflexivity.
  - vm_compute. reflexivity.
  - vm_compute. discriminate.
  - vm_compute. reflexivity.
  - vm_compute. discriminate.
  - split; [|apply (bool_decide_unpack _); vm_compute; exact I|exact (h_wf _ _ (r_holds _ _ loaded_demo_represents))].
    apply (read_tree_shape 9 _ 2%N). vm_compute. reflexivity.
  - apply frozenb_sound. vm_compute. reflexivity.
  - apply (bool_decide_unpack _). vm_compute. exact I.
  - exists s', tr', r. split; [exact Hr|]. split; [exact Hh|]. unfold words. rewrite He. vm_compute. reflexivity.
Defined.
End TrieThreadSafe.
