(* ===== verification/TrieHistory.v ===== *)
(** * Histories of insertions, merges and readers

    (core/index/Trie.cpp: addKeyword_ThreadSafe, merge, getTrieRootNode_ReadView,
    TrieRootNodeAndFreeList.)  The views that are referenced, from the oldest to
    the current one, and the write view share nodes; the invariant says which
    nodes each view will free, and that no later view and no writer uses them. *)
From S2P Require Import Prelude TrieNode Trie TrieTree TrieInsert TrieNeighbours TrieViews TrieUpdate TrieIncrement TrieThreadSafe.
From Stdlib Require Import ZArith Lia List Bool Sorted.
From stdpp Require Import base gmap list fin_maps.
Open Scope Z_scope.

Module TrieHistory.
Import TrieNode Trie TrieTree TrieInsert TrieNeighbours TrieViews TrieUpdate TrieIncrement TrieThreadSafe.

(** A view, its free list and the tree it shows. *)
Record shown := mk_shown { sv : ptr; sl : list ptr; stree : tree }.

(** The nodes deleted with a view. *)
Definition doomed (x : shown) : list ptr := sl x ++ [tptr (stree x)].

Definition reader_count (s : trie) (v : ptr) : nat := default 0%nat (readers s !! v).

(** A node of old views only. *)
Definition retired (s : trie) (tw : tree) (p : ptr) : Prop :=
  p ∉ ptrs tw /\ exists n, cells (nodes s) !! p = Some n /\ isCopy n = false.

Definition apart (x y : shown) : Prop := forall p, p ∈ doomed x -> p ∉ ptrs (stree y).

Record inv (s : trie) (V : list shown) (tw : tree) : Prop := {
  iv_write : represents s tw;
  iv_top : isTerminalNode (tnode tw) = false;
  iv_commited : commited s = true;
  iv_layered : Forall layered (kids tw);
  iv_queue : map sv V = oldReadViewQueue s ++ [root_readview s];
  iv_nodup : NoDup (map sv V);
  iv_views : store_wf (views s);
  iv_shows : Forall (fun x => shows s (sv x) (sl x) (stree x) /\ frozen (stree x)) V;
  iv_doomed : Forall (fun x => Forall (retired s tw) (doomed x)) V;
  iv_apart : ForallOrdPairs apart V;
  iv_once : NoDup (flat_map doomed V);
  iv_root : Forall (fun x => tptr tw ∉ ptrs (stree x)) V;
  iv_readers : forall v, (0 < reader_count s v)%nat -> v ∈ map sv V }.

(** ** Readers *)

Definition with_readers (s : trie) (m : gmap ptr nat) : trie :=
  mk_trie (nodes s) (views s) m (root_readview s) (root_writeview s) (oldReadViewQueue s)
    (terminalNodes s) (counterForReassignedKeywordIds s) (trieNodesToReassign s)
    (oldIdToNewIdMapVector s) (commited s) (mergeRequired s) (emptyLeafNodeIds s).

Lemma shows_ext s s' v l t : nodes s' = nodes s -> views s' = views s -> shows s v l t -> shows s' v l t.
Proof. intros En Ev [A B C]. split; [by rewrite Ev|by eapply holds_ext|done]. Qed.

Lemma represents_ext s s' t : nodes s' = nodes s -> root_writeview s' = root_writeview s -> represents s t -> represents s' t.
Proof. intros En Ew [A B C]. split; [by eapply holds_ext|by rewrite Ew|done]. Qed.

Lemma inv_readers s V tw m : inv s V tw ->
  (forall v, (0 < default 0%nat (m !! v))%nat -> v ∈ map sv V) -> inv (with_readers s m) V tw.
Proof.
  intros [A B C D E F G H I J K L M] Hm. split; try done.
  - by eapply represents_ext; [| |exact A].
  - eapply Forall_impl; [exact H|]. intros x [Hs Hf]. split; [|done]. by eapply shows_ext; [| |exact Hs].
Qed.

Lemma inv_current s V tw : inv s V tw -> exists V0 x, V = V0 ++ [x] /\ sv x = root_readview s /\
  map sv V0 = oldReadViewQueue s.
Proof.
  intros Hi. pose proof (iv_queue _ _ _ Hi) as E. destruct V as [|y V _] using rev_ind.
  { by destruct (oldReadViewQueue s). }
  rewrite map_app in E. apply app_inj_tail in E as [E1 E2]. by exists V, y.
Qed.

Lemma acquire_run s V tw : inv s V tw ->
  exists s', getTrieRootNode_ReadView s = Ok (root_readview s, s') /\ inv s' V tw /\
    (forall v, reader_count s' v = if decide (v = root_readview s) then S (reader_count s v) else reader_count s v) /\
    s' = with_readers s (readers s').
Proof.
  intros Hi. exists (with_readers s (<[root_readview s := S (reader_count s (root_readview s))]> (readers s))).
  split; [done|]. split; [|split; [|done]].
  - apply inv_readers; [done|]. intros v Hv. destruct (decide (v = root_readview s)) as [->|Hne].
    + rewrite (iv_queue _ _ _ Hi). set_solver.
    + rewrite lookup_insert_ne in Hv by done. by apply (iv_readers _ _ _ Hi).
  - intros v. unfold reader_count. cbn. case_decide as E.
    + subst v. by rewrite lookup_insert_eq.
    + by rewrite lookup_insert_ne.
Qed.

(** A view on the list is referenced. *)
Lemma use_count_pos s V tw v : inv s V tw -> v ∈ map sv V -> use_count s v <> 0%nat.
Proof.
  intros Hi Hv. rewrite (iv_queue _ _ _ Hi) in Hv. unfold use_count.
  apply elem_of_app in Hv as [Hv | ->%list_elem_of_singleton]; [|rewrite bool_decide_true by done; lia].
  assert (length (List.filter (fun q => bool_decide (q = v)) (oldReadViewQueue s)) <> 0%nat); [|lia].
  intros E. apply length_zero_iff_nil in E.
  assert (In v (List.filter (fun q => bool_decide (q = v)) (oldReadViewQueue s))) as Hin.
  { apply filter_In. split; [by apply list_elem_of_In|by apply bool_decide_true]. }
  by rewrite E in Hin.
Qed.

Lemma release_run s V tw v : inv s V tw -> (0 < reader_count s v)%nat ->
  exists s', release_ReadView v s = Ok (tt, s') /\ inv s' V tw /\
    (forall u, reader_count s' u = if decide (u = v) then pred (reader_count s u) else reader_count s u) /\
    s' = with_readers s (readers s').
Proof.
  intros Hi Hv. set (s' := with_readers s (<[v := pred (reader_count s v)]> (readers s))).
  assert (inv s' V tw) as Hi'.
  { apply inv_readers; [done|]. intros u Hu. destruct (decide (u = v)) as [->|Hne].
    - by apply (iv_readers _ _ _ Hi).
    - rewrite lookup_insert_ne in Hu by done. by apply (iv_readers _ _ _ Hi). }
  exists s'. split; [|split; [done|split; [|done]]].
  - unfold release_ReadView. change (bind (reads readers) ?f s) with (f (readers s) s). cbn beta.
    change (bind (set_readers _) ?f s) with (f tt s'). cbn beta. unfold dropped.
    change (bind (reads _) ?f s') with (f (use_count s' v) s'). cbn beta.
    destruct (Nat.eqb_spec (use_count s' v) 0) as [E|_]; [|done].
    exfalso. apply (use_count_pos s' V tw v Hi'); [|done]. by apply (iv_readers _ _ _ Hi).
  - intros u. unfold reader_count. cbn. case_decide as E.
    + subst u. by rewrite lookup_insert_eq.
    + by rewrite lookup_insert_ne.
Qed.
(** ** Insertion *)

(** The keywords that the views show. *)
Definition catalogue (V : list shown) : list (ptr * list (list Z * (Z * Z))) :=
  map (fun x => (sv x, entries (stree x))) V.

(** A view after an insertion, which may lengthen its free list. *)
Record carried (s' : trie) (fr : list ptr) (x x' : shown) : Prop := {
  ca_view : sv x' = sv x;
  ca_list : sl x' = sl x ++ fr;
  ca_tree : tallied (stree x) (stree x');
  ca_shows : shows s' (sv x') (sl x') (stree x') /\ frozen (stree x') }.

Lemma carry_run s s' tw x fr : keeps (tptr tw) (nodes s) (nodes s') ->
  shows s (sv x) (sl x) (stree x) -> frozen (stree x) -> tptr tw ∉ ptrs (stree x) ->
  s_load (views s') (sv x) = Ok (mk_view (sl x ++ fr) (tptr (stree x))) ->
  exists x', carried s' fr x x'.
Proof.
  intros Hk [Hv Hh Hw] Hf Hr Hv'. destruct (keeps_holds _ _ _ _ Hk Hh Hf Hr) as (t' & Hh' & Ht).
  exists (mk_shown (sv x) (sl x ++ fr) t'). split; try done. split; [|by eapply tallied_frozen].
  split; cbn; [|done|by eapply tallied_wf]. destruct (tallied_root _ _ Ht) as [-> _]. done.
Qed.

Lemma carried_facts s' fr x x' : carried s' fr x x' ->
  doomed x' ≡ₚ doomed x ++ fr /\ ptrs (stree x') = ptrs (stree x) /\ entries (stree x') = entries (stree x).
Proof.
  intros [_ El Ht _]. split; [|split; [by apply tallied_ptrs|by apply tallied_entries]].
  unfold doomed. destruct (tallied_root _ _ Ht) as [-> _]. rewrite El. solve_Permutation.
Qed.

Lemma carry_all s s' tw V : keeps (tptr tw) (nodes s) (nodes s') ->
  Forall (fun x => shows s (sv x) (sl x) (stree x) /\ frozen (stree x)) V ->
  Forall (fun x => tptr tw ∉ ptrs (stree x)) V ->
  Forall (fun x => s_load (views s') (sv x) = s_load (views s) (sv x)) V ->
  exists V', Forall2 (carried s' []) V V'.
Proof.
  intros Hk. induction 1 as [|x V [Hs Hf] _ IH]; intros Hr Hv; [by exists []|].
  inversion_clear Hr. inversion_clear Hv as [|? ? E Hv']. destruct IH as [V' HV]; [done|done|].
  destruct (carry_run s s' tw x [] Hk Hs Hf) as [x' Hx]; [done| |exists (x' :: V'); by constructor].
  rewrite E, app_nil_r. apply Hs.
Qed.

Lemma carried_list s' V V' : Forall2 (carried s' []) V V' ->
  map sv V' = map sv V /\ catalogue V' = catalogue V /\ flat_map doomed V' = flat_map doomed V /\
  Forall2 (fun x x' => doomed x' = doomed x /\ ptrs (stree x') = ptrs (stree x)) V V'.
Proof.
  induction 1 as [|x x' V V' Hx _ (IH1 & IH2 & IH3 & IH4)]; [done|]. pose proof Hx as [Ev El Ht _].
  destruct (carried_facts _ _ _ _ Hx) as (_ & Ep & Ee). unfold catalogue in *. cbn.
  assert (doomed x' = doomed x) as Ed.
  { unfold doomed. destruct (tallied_root _ _ Ht) as [-> _]. by rewrite El, app_nil_r. }
  rewrite Ev, IH1, IH2, Ee, Ed, IH3. repeat split. by constructor.
Qed.

Lemma apart_snoc V x : ForallOrdPairs apart (V ++ [x]) <->
  ForallOrdPairs apart V /\ Forall (fun y => apart y x) V.
Proof.
  induction V as [|y V IH]; cbn.
  - split; [intros _; by repeat constructor|]. intros _. by repeat constructor.
  - split.
    + inversion_clear 1 as [|? ? Hy HV]. apply IH in HV as [H1 H2]. apply List.Forall_app in Hy as [Hy Hx].
      inversion Hx; subst. by repeat constructor.
    + intros [H1 H2]. inversion_clear H1. inversion_clear H2. constructor; [|by apply IH].
      apply List.Forall_app. split; [done|by repeat constructor].
Qed.

Lemma apart_carried V V' : Forall2 (fun x x' => doomed x' = doomed x /\ ptrs (stree x') = ptrs (stree x)) V V' ->
  ForallOrdPairs apart V -> ForallOrdPairs apart V'.
Proof.
  induction 1 as [|x x' V V' [Hd _] HV IH]; [done|]. inversion_clear 1 as [|? ? Hx HV']. constructor; [|auto].
  clear -Hx Hd HV. induction HV as [|y y' V V' [_ Hp] _ IH]; [constructor|]. inversion_clear Hx. constructor; [|auto].
  unfold apart in *. by rewrite Hd, Hp.
Qed.

(** A property of the addresses of the views passes to the carried ones. *)
Lemma carried_forall (P : list ptr -> list ptr -> Prop) V V' :
  Forall2 (fun x x' => doomed x' = doomed x /\ ptrs (stree x') = ptrs (stree x)) V V' ->
  Forall (fun x => P (doomed x) (ptrs (stree x))) V -> Forall (fun x => P (doomed x) (ptrs (stree x))) V'.
Proof.
  induction 1 as [|x x' V V' [Hd Hp] _ IH]; [done|]. inversion_clear 1. constructor; [by rewrite Hd, Hp|auto].
Qed.

Lemma retired_replaced s s' tw tw' fr p : replaces s s' tw tw' fr -> retired s tw p -> retired s' tw' p.
Proof.
  intros [_ _ Hk _ _ Hold _] (Hp & n & Hn & Hc). split.
  - intros Hin. apply Hp. by eapply Hold.
  - destruct (kp_cells _ _ _ Hk p n Hn Hc) as [c Hn']; [|by eexists].
    intros ->. apply Hp. apply tptr_in.
Qed.

Lemma insertion_run s V tw kw : inv s V tw -> cleanString kw <> [] ->
  wrap32 (counterForReassignedKeywordIds s + 1) <> MAX_KEYWORD_ID ->
  exists s' V' tw' r, addKeyword_ThreadSafe kw false false s = Ok (Some r, s') /\ inv s' V' tw' /\
    catalogue V' = catalogue V /\ readers s' = readers s /\
    answers (cleanString kw) s s' (entries tw) (entries tw') r.
Proof.
  intros Hi Hne Hcnt. destruct (inv_current _ _ _ Hi) as (V0 & x & -> & Ex & Eq).
  destruct Hi as [Hrep Htop Hc Hlay Hq Hnd Hvw Hsh Hdo Hap Hon Hro Hre].
  apply Forall_app in Hsh as [Hsh0 Hshx], Hdo as [Hdo0 Hdox], Hro as [Hro0 Hrox].
  rewrite Forall_singleton in Hshx, Hdox, Hrox. destruct Hshx as [Hsx Hfx].
  pose proof (sh_view _ _ _ _ Hsx) as Hv. rewrite Ex in Hv.
  destruct (addKeyword_ThreadSafe_run s tw _ kw false Hrep Hc Htop Hne Hv Hcnt) as
    (s' & tw' & r & fr & Hr & Hrp & [Hv1 Hv2 Hv3] & [K1 K2 K3 K4 K5 K6 K7] & _ & Hans).
  pose proof (rp_keeps _ _ _ _ _ Hrp) as Hk. cbn [free_list root] in Hv1.
  assert (Forall (fun y => sv y <> root_readview s) V0) as Hother.
  { rewrite map_app in Hnd. apply NoDup_app in Hnd as (_ & Hd & _). rewrite Forall_forall. intros y Hy E.
    apply (Hd (sv y)); [by apply elem_of_lmap_2|]. rewrite E, <- Ex. cbn. set_solver. }
  destruct (carry_all s s' tw V0 Hk Hsh0 Hro0) as [V0' HV0]; [eapply Forall_impl; [exact Hother|]; cbn; auto|].
  destruct (carry_run s s' tw x fr Hk Hsx Hfx Hrox) as [x' Hx']; [by rewrite Ex|].
  destruct (carried_list _ _ _ HV0) as (E1 & E2 & E3 & HV0p). destruct (carried_facts _ _ _ _ Hx') as (Ed & Ep & Ee).
  assert (Forall (retired s' tw') fr) as Hfr.
  { rewrite Forall_forall. intros p Hp. destruct (rp_freed _ _ _ _ _ Hrp p Hp) as (_ & Hpne & Hpn & n & Hn & Hcp).
    split; [done|]. destruct (kp_cells _ _ _ Hk p n Hn Hcp Hpne) as [c Hn']. by eexists. }
  assert (tptr tw' = tptr tw) as Ert.
  { rewrite (r_root _ _ (rp_rep _ _ _ _ _ Hrp)), K3. symmetry. apply Hrep. }
  assert (forall l, Forall (retired s tw) l -> Forall (retired s' tw') l) as Hret.
  { intros l Hl. eapply Forall_impl; [exact Hl|]. intros p. by eapply retired_replaced. }
  exists s', (V0' ++ [x']), tw', r. split; [exact Hr|]. split; [|split; [|done]].
  - split; try done.
    + apply Hrp.
    + by apply Hrp.
    + by rewrite K5.
    + by apply (rp_layered _ _ _ _ _ Hrp).
    + rewrite map_app, E1. cbn. by rewrite (ca_view _ _ _ _ Hx'), K2, K4, Ex, Eq.
    + rewrite map_app, E1 in *. cbn in *. by rewrite (ca_view _ _ _ _ Hx').
    + auto.
    + apply Forall_app. split; [|apply Forall_singleton, Hx'].
      clear -HV0. induction HV0 as [|y y' V V' Hy _ IH]; constructor; [apply Hy|done].
    + apply Forall_app. split; [|apply Forall_singleton; rewrite Ed; apply Forall_app; auto].
      apply (carried_forall (fun l _ => Forall (retired s' tw') l) _ _ HV0p). eapply Forall_impl; [exact Hdo0|]. cbn. auto.
    + apply apart_snoc in Hap as [Hap0 Hapx]. apply apart_snoc. split; [by eapply apart_carried|].
      unfold apart. rewrite Ep. by apply (carried_forall (fun l _ => forall p, p ∈ l -> p ∉ ptrs (stree x)) _ _ HV0p).
    + rewrite flat_map_app in *. cbn [flat_map] in *. rewrite app_nil_r in *. rewrite E3, Ed, app_assoc.
      apply NoDup_app. split; [done|]. split; [|by apply Hrp]. intros p Hp Hpf.
      destruct (rp_freed _ _ _ _ _ Hrp p Hpf) as (Hin & _). apply elem_of_app in Hp as [Hp|Hp].
      * apply elem_of_flat_map in Hp as (y & Hy & Hp). rewrite Forall_forall in Hdo0. specialize (Hdo0 y Hy).
        rewrite Forall_forall in Hdo0. by apply (Hdo0 p Hp).
      * rewrite Forall_forall in Hdox. by apply (Hdox p Hp).
    + rewrite Ert. apply Forall_app. split; [|by rewrite Forall_singleton, Ep].
      by apply (carried_forall (fun _ l => tptr tw ∉ l) _ _ HV0p).
    + intros v Hv'. unfold reader_count in Hv'. rewrite K1 in Hv'. specialize (Hre v Hv').
      rewrite map_app, E1 in *. cbn in *. by rewrite (ca_view _ _ _ _ Hx').
  - unfold catalogue in *. rewrite !map_app, E2. cbn. by rewrite (ca_view _ _ _ _ Hx'), Ee.
Qed.

(** ** Destroying views *)

Lemma for_each_snoc {S A} (l : list A) x (body : A -> st S unit) s :
  for_each (l ++ [x]) body s = bind (for_each l body) (fun _ => body x) s.
Proof.
  revert s. induction l as [|y l IH]; intros s; cbn [for_each app].
  - unfold bind, ret. cbn. by destruct (body x s) as [[[] ?]|].
  - rewrite bind_assoc. unfold bind in *. destruct (body y s) as [[[] s1]|]; [|done]. apply IH.
Qed.

Lemma delete_all l : forall s, store_wf (nodes s) -> NoDup l -> Forall (fun p => is_Some (cells (nodes s) !! p)) l ->
  exists h', for_each l delete_node s = Ok (tt, with_nodes s h') /\ store_wf h' /\
    (forall p, p ∉ l -> cells h' !! p = cells (nodes s) !! p).
Proof.
  induction l as [|q l IH]; intros s Hwf Hnd Hl; cbn [for_each].
  { exists (nodes s). by rewrite with_nodes_id. }
  apply NoDup_cons in Hnd as [Hq Hnd]. inversion_clear Hl as [|? ? [n Hn] Hl'].
  assert (q <> NULL) as Hq0 by (destruct Hwf as [_ H]; specialize (H q (ex_intro _ n Hn)); unfold NULL; lia).
  assert (s_delete (nodes s) q = Ok (mk_store (delete q (cells (nodes s))) (next_addr (nodes s)))) as Hd.
  { unfold s_delete. rewrite decide_False by done. by rewrite (proj2 (s_load_Ok _ _ _) (conj Hq0 Hn)). }
  rewrite (bind_run (delete_node q) _ s tt (with_nodes s (mk_store (delete q (cells (nodes s))) (next_addr (nodes s)))))
    by (unfold delete_node, bind, reads, lift; by rewrite Hd).
  destruct (IH (with_nodes s (mk_store (delete q (cells (nodes s))) (next_addr (nodes s))))) as (h' & Hr & Hwf' & Hc).
  - by eapply s_delete_wf.
  - done.
  - cbn. rewrite Forall_forall in *. intros p Hp. rewrite lookup_delete_ne; [by apply Hl'|]. by intros ->.
  - exists h'. split; [exact Hr|]. split; [done|]. intros p [Hpq Hp]%not_elem_of_cons. rewrite Hc by done. cbn.
    by apply lookup_delete_ne.
Qed.

Lemma holds_disjoint s s' (l : list ptr) t : holds s t -> store_wf (nodes s') ->
  (forall p, p ∉ l -> cells (nodes s') !! p = cells (nodes s) !! p) -> (forall p, p ∈ l -> p ∉ ptrs t) -> holds s' t.
Proof.
  intros [Hs Hnd _] Hwf Hc Hd. split; [|done..]. apply (shape_frame_rule (nodes s)); [|done].
  intros p Hp. apply Hc. intros Hl. by apply (Hd p).
Qed.

Definition with_queue (s : trie) (q : list ptr) : trie :=
  mk_trie (nodes s) (views s) (readers s) (root_readview s) (root_writeview s) q
    (terminalNodes s) (counterForReassignedKeywordIds s) (trieNodesToReassign s)
    (oldIdToNewIdMapVector s) (commited s) (mergeRequired s) (emptyLeafNodeIds s).
Definition with_views (s : trie) (vs : store view) : trie :=
  mk_trie (nodes s) vs (readers s) (root_readview s) (root_writeview s) (oldReadViewQueue s)
    (terminalNodes s) (counterForReassignedKeywordIds s) (trieNodesToReassign s)
    (oldIdToNewIdMapVector s) (commited s) (mergeRequired s) (emptyLeafNodeIds s).

(** The fields that survive the destruction of old views. *)
Record undisturbed (s s' : trie) : Prop := {
  sf_readers : readers s' = readers s;
  sf_readview : root_readview s' = root_readview s;
  sf_writeview : root_writeview s' = root_writeview s;
  sf_commited : commited s' = commited s;
  sf_terminals : terminalNodes s' = terminalNodes s;
  sf_counter : counterForReassignedKeywordIds s' = counterForReassignedKeywordIds s }.

(** The nodes of a view and the view itself go. *)
Lemma destroy_cells_run s v l r : s_load (views s) v = Ok (mk_view l r) -> store_wf (nodes s) -> NoDup (l ++ [r]) ->
  Forall (fun p => is_Some (cells (nodes s) !! p)) (l ++ [r]) ->
  exists h', destroy_view v s =
      Ok (tt, with_views (with_nodes s h') (mk_store (delete v (cells (views s))) (next_addr (views s)))) /\
    store_wf h' /\ (forall p, p ∉ l ++ [r] -> cells h' !! p = cells (nodes s) !! p).
Proof.
  intros Hv Hwf Hnd Hl. destruct (delete_all (l ++ [r]) s Hwf Hnd Hl) as (h' & Hdel & Hwf' & Hcells).
  exists h'. split; [|done]. unfold destroy_view. rewrite (bind_run _ _ _ _ _ (load_view_run s v _ Hv)). cbn [free_list root].
  rewrite for_each_snoc in Hdel. unfold bind at 1 in Hdel. unfold bind at 1.
  destruct (for_each l delete_node s) as [[[] s1]|]; [|done]. rewrite (bind_run _ _ _ _ _ Hdel).
  change (bind (reads views) ?f ?s2) with (f (views s) s2). cbn beta.
  assert (s_delete (views s) v = Ok (mk_store (delete v (cells (views s))) (next_addr (views s)))) as Hdv.
  { unfold s_delete. rewrite Hv. apply s_load_Ok in Hv as [Hv _]. by rewrite decide_False. }
  by rewrite (bind_run _ _ _ _ _ (lift_run _ _ _ Hdv)).
Qed.

Lemma destroy_view_run s V x tw q : inv s (x :: V) tw -> V <> [] -> oldReadViewQueue s = sv x :: q ->
  reader_count s (sv x) = 0%nat ->
  exists s', destroy_view (sv x) (with_queue s q) = Ok (tt, s') /\ inv s' V tw /\ undisturbed s s' /\
    oldReadViewQueue s' = q.
Proof.
  intros [A B C D E F G H I J K L M] HV Hq Hr. inversion_clear H as [|? ? [Hsx _] H']. inversion_clear I as [|? ? Ix I'].
  inversion_clear J as [|? ? Jx J']. inversion_clear L as [|? ? _ L']. cbn [map flat_map] in *.
  apply NoDup_cons in F as [Fx F']. apply NoDup_app in K as (Kx & Kd & K').
  rewrite Hq in E. cbn [app] in E. injection E as E. pose proof (sh_view _ _ _ _ Hsx) as Hv.
  destruct (destroy_cells_run (with_queue s q) (sv x) (sl x) (tptr (stree x)) Hv) as (h' & Hdel & Hwf & Hcells).
  { apply (h_wf _ _ (r_holds _ _ A)). } { done. }
  { cbn. eapply Forall_impl; [exact Ix|]. intros p (_ & n & Hn & _). eauto. }
  assert (store_wf (mk_store (delete (sv x) (cells (views s))) (next_addr (views s)))) as Hwv.
  { apply (s_delete_wf (views s) (sv x)); [done|]. unfold s_delete. rewrite Hv.
    apply s_load_Ok in Hv as [Hv _]. by rewrite decide_False. }
  set (s' := with_views _ _) in Hdel. exists s'. split; [exact Hdel|split; [|by repeat split]].
  - assert (forall t, holds s t -> (forall p, p ∈ doomed x -> p ∉ ptrs t) -> holds s' t) as Hhold.
    { intros t Ht Hd. by apply (holds_disjoint s s' (doomed x)). }
    split; try done.
    + split; [|apply A..]. apply Hhold; [apply A|]. intros p Hp. rewrite Forall_forall in Ix. by apply (Ix p).
    + rewrite Forall_forall in *. intros y Hy. destruct (H' y Hy) as [[Y1 Y2 Y3] Y4]. split; [|done]. split; [| |done].
      * cbn. apply s_load_Ok in Y1 as [Y0 Y1]. apply s_load_Ok. split; [done|]. cbn.
        rewrite lookup_delete_ne; [done|]. intros Ev. apply Fx. rewrite Ev. by apply elem_of_lmap_2.
      * apply Hhold; [done|]. by apply Jx.
    + eapply Forall_impl; [|intros y Hy; exact Hy]. rewrite Forall_forall in *. intros y Hy. specialize (I' y Hy).
      rewrite Forall_forall in *. intros p Hp. destruct (I' p Hp) as (P1 & n & P2 & P3). split; [done|]. exists n.
      split; [|done]. cbn. rewrite Hcells; [done|]. intros Hpx. apply (Kd p Hpx). apply elem_of_flat_map. eauto.
    + intros v Hv'. specialize (M v Hv'). apply elem_of_cons in M as [->|M]; [|done].
      change (0 < reader_count s (sv x))%nat in Hv'. lia.
Qed.

Lemma undisturbed_trans s1 s2 s3 : undisturbed s1 s2 -> undisturbed s2 s3 -> undisturbed s1 s3.
Proof. intros [A B C D E F] [A' B' C' D' E' F']. split; congruence. Qed.

(** The oldest view in the queue is counted once there, and by its readers. *)
Lemma use_count_front s V tw x q : inv s (x :: V) tw -> oldReadViewQueue s = sv x :: q ->
  use_count s (sv x) = S (reader_count s (sv x)).
Proof.
  intros Hi Hq. pose proof (iv_queue _ _ _ Hi) as E. pose proof (iv_nodup _ _ _ Hi) as Hnd. rewrite Hq in E.
  cbn [map app] in *. injection E as E. apply NoDup_cons in Hnd as [Hx _]. rewrite E in Hx.
  apply not_elem_of_app in Hx as [Hxq Hxr]. unfold use_count. rewrite Hq. cbn [List.filter].
  rewrite (bool_decide_true (sv x = sv x)) by done. cbn [length].
  rewrite bool_decide_false by (intros Er; apply Hxr; rewrite Er; set_solver).
  assert (List.filter (fun q0 => bool_decide (q0 = sv x)) q = []) as ->; [|done].
  clear -Hxq. induction q as [|y q IH]; [done|]. cbn. apply not_elem_of_cons in Hxq as [H1 H2].
  rewrite bool_decide_false by done. by apply IH.
Qed.

(** The pop loop of [merge]: it stops at the first view that a reader holds. *)
Lemma pop_run fuel : forall s V tw, inv s V tw -> (length (oldReadViewQueue s) <= fuel)%nat ->
  exists s' V1 V2, pop_unique fuel s = Ok (tt, s') /\ V = V1 ++ V2 /\ inv s' V2 tw /\ undisturbed s s' /\
    Forall (fun x => reader_count s (sv x) = 0%nat) V1 /\
    (forall x V3, V2 = x :: V3 -> V3 <> [] -> (0 < reader_count s (sv x))%nat).
Proof.
  induction fuel as [|fuel IH]; intros s V tw Hi Hf.
  - exists s, [], V. destruct (oldReadViewQueue s) eqn:Eq; [|cbn in Hf; lia].
    split; [|split; [done|split; [done|split; [done|split; [constructor|]]]]].
    + cbn. change (bind (reads oldReadViewQueue) ?f s) with (f (oldReadViewQueue s) s). cbn beta. by rewrite Eq.
    + intros x V3 -> Hne. pose proof (iv_queue _ _ _ Hi) as E. rewrite Eq in E. cbn in E. injection E as _ E.
      by destruct V3.
  - cbn [pop_unique]. change (bind (reads oldReadViewQueue) ?f s) with (f (oldReadViewQueue s) s). cbn beta.
    pose proof (iv_queue _ _ _ Hi) as E. destruct (oldReadViewQueue s) as [|v q] eqn:Eq.
    { exists s, [], V. do 4 (split; [done|]). split; [constructor|]. intros x V3 -> Hne. cbn in E. injection E as _ E.
      by destruct V3. }
    destruct V as [|x V]; [done|]. assert (sv x = v) as Ev by (cbn in E; by injection E).
    subst v. rewrite (bind_run (reads _) _ s (use_count s (sv x)) s) by done.
    rewrite (use_count_front _ _ _ _ _ Hi Eq). destruct (Nat.eqb_spec (S (reader_count s (sv x))) 1) as [Er|Er].
    + assert (reader_count s (sv x) = 0%nat) as Er0 by lia.
      assert (V <> []) as HV.
      { intros ->. cbn in E. injection E as E. by destruct q. }
      destruct (destroy_view_run s V x tw q Hi HV Eq Er0) as (s1 & Hr1 & Hi1 & Hsf & Hq1).
      destruct (IH s1 V tw Hi1) as (s' & V1 & V2 & Hr & -> & Hi' & Hsf' & HV1 & Hhd); [rewrite Hq1; cbn in Hf; lia|].
      assert (forall u, reader_count s1 u = reader_count s u) as Hrc by (intros u; unfold reader_count; by rewrite (sf_readers _ _ Hsf)).
      exists s', (x :: V1), V2. split; [|split; [done|split; [done|split; [by eapply undisturbed_trans|split]]]].
      * change (bind (set_queue q) ?f s) with (f tt (with_queue s q)). cbn beta.
        assert (use_count (with_queue s q) (sv x) = 0%nat) as Euc.
        { pose proof (use_count_front _ _ _ _ _ Hi Eq) as Hu. unfold use_count in *. rewrite Eq in Hu.
          cbn [List.filter] in Hu. rewrite (bool_decide_true (sv x = sv x)) in Hu by done. cbn [length] in Hu. cbn. lia. }
        rewrite (bind_run (dropped (sv x)) _ _ tt s1); [exact Hr|]. unfold dropped.
        rewrite (bind_run (reads _) _ _ 0%nat (with_queue s q)); [exact Hr1|]. unfold reads. by rewrite Euc.
      * constructor; [done|]. eapply Forall_impl; [exact HV1|]. cbn. intros y. by rewrite Hrc.
      * intros y V3 E2 Hne. rewrite <- Hrc. by eapply Hhd.
    + exists s, [], (x :: V). do 4 (split; [done|]). split; [constructor|]. intros y V3 [= <- <-] _. lia.
Qed.

(** ** Publishing the write view *)

(** Clearing copy flags leaves nodes that are no copies as they are. *)
Definition uncopied (h h' : heap) : Prop :=
  forall p n, cells h !! p = Some n -> cells h' !! p = Some n \/ cells h' !! p = Some (with_isCopy n false).

Lemma uncopied_trans h1 h2 h3 : uncopied h1 h2 -> uncopied h2 h3 -> uncopied h1 h3.
Proof.
  intros A B p n Hp. destruct (A p n Hp) as [H|H]; destruct (B p _ H) as [H'|H']; auto.
Qed.

Lemma resetCopyFlag_uncopied fuel : forall p h h', resetCopyFlag fuel p h = Ok h' -> uncopied h h'.
Proof.
  induction fuel as [|fuel IH]; intros p h h' Hr; [done|]. cbn [resetCopyFlag] in Hr.
  apply rbind_Ok in Hr as (n & [Hp Hn]%s_load_Ok & Hr). apply rbind_Ok in Hr as (h1 & (_ & _ & ->)%s_store_Ok & Hr).
  eapply uncopied_trans with (h2 := update h p (with_isCopy n false)).
  { intros q m Hq. cbn. destruct (decide (q = p)) as [->|Hne].
    - rewrite lookup_insert_eq. right. congruence.
    - rewrite lookup_insert_ne by done. by left. }
  change (mk_store _ _) with (update h p (with_isCopy n false)) in Hr. revert Hr.
  generalize (update h p (with_isCopy n false)) as h1. generalize (childrenPointerList n) as l.
  induction l as [|q l IHl]; intros h1 Hr; cbn [fold_res] in Hr.
  - injection Hr as <-. intros r m Hr'. by left.
  - apply rbind_Ok in Hr as (h2 & Hq & Hr). eapply uncopied_trans; [|exact (IHl _ Hr)].
    destruct (bool_decide _); [injection Hq as <-; intros r m Hr'; by left|].
    apply rbind_Ok in Hq as (c & _ & Hq). destruct (isCopy c); [by eapply IH|].
    injection Hq as <-. intros r m Hr'. by left.
Qed.

Lemma with_isCopy_id n : isCopy n = false -> with_isCopy n false = n.
Proof. by destruct n as [? ? ? ? ? ? ? []]. Qed.

Lemma uncopied_cell h h' p n : uncopied h h' -> cells h !! p = Some n -> isCopy n = false -> cells h' !! p = Some n.
Proof. intros Hu Hp Hc. destruct (Hu p n Hp) as [H|H]; [done|]. by rewrite with_isCopy_id in H. Qed.

Lemma uncopied_shape h h' t : uncopied h h' -> shape h t -> frozen t -> shape h' t.
Proof.
  intros Hu. induction t as [p n cs IH] using tree_ind'. inversion_clear 1 as [? ? ? Hp Hn Hch Hcs].
  inversion_clear 1 as [? ? ? Hc Hf]. constructor; [done|by eapply uncopied_cell|done|].
  rewrite Forall_forall in *. auto.
Qed.

Lemma layered_frozen t : layered t -> isCopy (tnode t) = false -> frozen t.
Proof. inversion_clear 1. intros Hc. constructor; auto. Qed.

Lemma reset_frozen t : Forall layered (kids t) -> frozen (reset t).
Proof.
  induction t as [p n cs IH] using tree_ind'. intros Hl. cbn [kids reset] in *. constructor; [done|].
  induction Hl as [|k cs Hk _ IHl]; cbn; [constructor|]. inversion_clear IH as [|? ? IHk IH']. constructor; [|auto].
  destruct (isCopy (tnode k)) eqn:E; [|by apply layered_frozen]. apply IHk. by inversion Hk.
Qed.

Lemma frozen_kids t : frozen t -> Forall layered (kids t).
Proof. destruct t as [p n cs]. inversion_clear 1 as [? ? ? _ Hcs]. eapply Forall_impl; [exact Hcs|]. apply frozen_layered. Qed.

Lemma reset_root t : tptr (reset t) = tptr t /\ isTerminalNode (tnode (reset t)) = isTerminalNode (tnode t).
Proof. by destruct t. Qed.

(** After the copy flags are cleared. *)
Lemma reset_inv s V tw : inv s V tw -> exists h', resetCopyFlags (root_writeview s) s = Ok (tt, with_nodes s h') /\
  inv (with_nodes s h') V (reset tw) /\ frozen (reset tw).
Proof.
  intros [A B C D E F G H I J K L M]. destruct (resetCopyFlags_run s tw (r_holds _ _ A)) as (h' & Hr & Hh & _).
  destruct (reset_root tw) as [Ep Et]. pose proof (similar_ptrs _ _ (reset_similar tw)) as Epp.
  rewrite (r_root _ _ A) in Hr. exists h'. split; [exact Hr|]. pose proof (reset_frozen tw D) as Hf. split; [|done].
  assert (uncopied (nodes s) h') as Hu.
  { unfold resetCopyFlags in Hr. rewrite (bind_run (reads tree_fuel) _ s _ s eq_refl) in Hr.
    rewrite (bind_run (reads nodes) _ s _ s eq_refl) in Hr. apply bind_Ok in Hr as (h1 & s1 & Hr1 & Hr2).
    unfold lift in Hr1. destruct (resetCopyFlag _ _ _) as [h2|] eqn:Er; [|done]. injection Hr1 as <- <-.
    assert (h2 = h') as -> by (unfold set_nodes, modify in Hr2; by injection Hr2).
    by eapply resetCopyFlag_uncopied. }
  split; try done.
  - split; [done|by rewrite Ep; apply A|]. eapply similar_wf; [apply reset_similar|]. apply A.
  - by rewrite Et.
  - by apply frozen_kids.
  - eapply Forall_impl; [exact H|]. intros x [[X1 X2 X3] X4]. split; [|done]. split; [done| |done].
    destruct X2 as [S1 S2 S3]. split; [by eapply uncopied_shape|done|]. apply Hh.
  - eapply Forall_impl; [exact I|]. intros x Hx. eapply Forall_impl; [exact Hx|]. intros p (P1 & n & P2 & P3).
    split; [by rewrite Epp|]. exists n. split; [|done]. by eapply uncopied_cell.
  - by rewrite Ep.
Qed.

(** A second root over the children of [t], with the heap it makes. *)
Lemma fork_new s t : holds s t -> let q := next_addr (nodes s) in
  let s' := with_nodes s (s_new (nodes s) (copy_node (tnode t) false)).2 in
  alloc_node (copy_node (tnode t) false) s = Ok (q, s') /\ holds s' (twin q t) /\ q ∉ ptrs t /\ cells (nodes s) !! q = None.
Proof.
  intros Hh q s'. destruct (fork_run s t Hh) as (q1 & h' & Hr & _ & Htw & Hq). rewrite alloc_run in Hr.
  injection Hr as <- E. split; [done|]. split; [|split; [done|apply store_wf_fresh, (h_wf _ _ Hh)]].
  subst h'. exact Htw.
Qed.

Lemma holds_new s n t : holds s t -> holds (with_nodes s (s_new (nodes s) n).2) t.
Proof. intros Hh. destruct (alloc_holds s t n Hh) as (h' & Hr & Hh' & _). rewrite alloc_run in Hr. injection Hr as E. subst h'. exact Hh'. Qed.

Lemma retired_new s n tw p : store_wf (nodes s) -> retired s tw p -> retired (with_nodes s (s_new (nodes s) n).2) tw p.
Proof.
  intros Hwf (Hp & m & Hm & Hc). split; [done|]. exists m. split; [|done]. cbn. rewrite lookup_insert_ne; [done|].
  intros <-. pose proof (store_wf_fresh _ Hwf). congruence.
Qed.

Definition with_readview (s : trie) (v : ptr) : trie :=
  mk_trie (nodes s) (views s) (readers s) v (root_writeview s) (oldReadViewQueue s)
    (terminalNodes s) (counterForReassignedKeywordIds s) (trieNodesToReassign s)
    (oldIdToNewIdMapVector s) (commited s) (mergeRequired s) (emptyLeafNodeIds s).
Definition with_writeview (s : trie) (p : ptr) : trie :=
  mk_trie (nodes s) (views s) (readers s) (root_readview s) p (oldReadViewQueue s)
    (terminalNodes s) (counterForReassignedKeywordIds s) (trieNodesToReassign s)
    (oldIdToNewIdMapVector s) (commited s) false (emptyLeafNodeIds s).

(** The state in which [merge] has installed the new view. *)
Definition published (s : trie) (t : tree) : trie :=
  let h' := (s_new (nodes s) (copy_node (tnode t) false)).2 in
  let vs := s_new (views s) (mk_view [] (next_addr (nodes s))) in
  with_readview (with_views (with_nodes (with_queue s (oldReadViewQueue s ++ [root_readview s])) h') vs.2) vs.1.

Lemma publish_inv s V t : inv s V t -> frozen t ->
  inv (published s t) (V ++ [mk_shown (next_addr (views s)) [] (twin (next_addr (nodes s)) t)]) t.
Proof.
  intros [A B C D E F G H I J K L M] Hf. destruct (fork_new s t (r_holds _ _ A)) as (_ & Htw & Hq & Hfresh).
  pose proof (h_wf _ _ (r_holds _ _ A)) as Hwf.
  set (q := next_addr (nodes s)) in *. set (v := next_addr (views s)).
  set (s' := published s t). set (s1 := with_nodes s _) in Htw.
  assert (forall u, holds s1 u -> holds s' u) as Hs1 by (intros u; by apply holds_ext).
  assert (forall u, holds s u -> holds s' u) as Hs by (intros u Hu; by apply Hs1, holds_new).
  assert (v ∉ map sv V) as Hv.
  { intros Hin. apply elem_of_lmap in Hin as (x & Ex & Hx). rewrite Forall_forall in H. destruct (H x Hx) as [[X1 _ _] _].
    apply s_load_Ok in X1 as [_ X1]. pose proof (store_wf_fresh _ G) as Hn. fold v in Hn. congruence. }
  assert (forall p, retired s t p -> p <> q) as Hne by (intros p (_ & n & Hn & _) ->; congruence).
  assert (isCopy (tnode t) = false) as Hct by (by inversion Hf).
  split; try done.
  - split; [apply Hs, A|apply A|apply A].
  - rewrite map_app, E. done.
  - rewrite map_app. apply NoDup_app. split; [done|]. cbn. split; [|apply NoDup_singleton].
    intros u Hu ->%list_elem_of_singleton. done.
  - by apply s_new_wf.
  - apply Forall_app. split.
    + eapply Forall_impl; [exact H|]. intros x [[X1 X2 X3] X4]. split; [|done]. split; [|by apply Hs|done].
      apply s_load_Ok in X1 as [X0 X1]. apply s_load_Ok. split; [done|]. cbn. rewrite lookup_insert_ne; [done|].
      intros Ev. pose proof (store_wf_fresh _ G) as Hn. congruence.
    + apply Forall_singleton. split; [split|].
      * apply s_load_Ok. split; [|apply lookup_insert_eq]. destruct G as [G _]. cbn. unfold NULL. lia.
      * by apply Hs1.
      * apply twin_wf; [done|apply A].
      * cbn. inversion Hf. by constructor.
  - apply Forall_app. split.
    + eapply Forall_impl; [exact I|]. intros x Hx. eapply Forall_impl; [exact Hx|]. intros p Hp. by apply (retired_new s).
    + apply Forall_singleton. apply Forall_singleton. cbn [tptr stree twin]. split; [done|].
      exists (copy_node (tnode t) false). split; [apply lookup_insert_eq|done].
  - apply apart_snoc. split; [done|]. eapply Forall_impl; [exact I|]. intros x Hx p Hp Hin. rewrite Forall_forall in Hx.
    specialize (Hx p Hp). cbn in Hin. apply elem_of_cons in Hin as [->|Hin]; [by apply (Hne q Hx)|].
    destruct Hx as [Hx _]. apply Hx. destruct t as [tp tn tcs]. cbn in *. by right.
  - rewrite flat_map_app. apply NoDup_app. split; [done|]. cbn. split; [|apply NoDup_singleton].
    intros p Hp ->%list_elem_of_singleton. apply elem_of_flat_map in Hp as (x & Hx & Hp). rewrite Forall_forall in I.
    specialize (I x Hx). rewrite Forall_forall in I. by apply (Hne q (I q Hp)).
  - apply Forall_app. split; [done|]. apply Forall_singleton. cbn. intros Hin. apply elem_of_cons in Hin as [Hin|Hin].
    + apply Hq. rewrite <- Hin. apply tptr_in.
    + pose proof (h_nodup _ _ (r_holds _ _ A)) as Hnd. destruct t as [tp tn tcs]. cbn in *.
      by apply NoDup_cons in Hnd as [Hnd _].
  - intros u Hu. rewrite map_app. apply elem_of_app. left. by apply M.
Qed.

(** The write view starts again over the children of the current read view. *)
Lemma restart_run s V x tw : inv s (V ++ [x]) tw -> isTerminalNode (tnode (stree x)) = false -> sl x = [] ->
  let q := next_addr (nodes s) in
  exists s', (delete_node (tptr tw) ;;;
      let! r := load_node (tptr (stree x)) in
      let! w' := alloc_node (copy_node r false) in
      set_writeview w' ;;; set_mergeRequired false) s = Ok (tt, s') /\
    inv s' (V ++ [x]) (twin q (stree x)) /\ undisturbed (with_writeview s q) s' /\ mergeRequired s' = false.
Proof.
  intros Hi Htx Hnil q. pose proof Hi as [A B C D E F G H I J K L M].
  assert (holds s (stree x) /\ wf 0 (stree x) /\ frozen (stree x)) as (Hx & Hwx & Hfx).
  { apply Forall_app in H as [_ Hx]. rewrite Forall_singleton in Hx. destruct Hx as [[_ ? ?] ?]. done. }
  assert (is_Some (cells (nodes s) !! tptr tw)) as Hw.
  { exists (tnode tw). apply (plug_focus_cell _ [] tw), A. }
  destruct (delete_all [tptr tw] s) as (h1 & Hdel & Hwf1 & Hc1);
    [apply A|apply NoDup_singleton|by apply Forall_singleton|].
  cbn [for_each] in Hdel. apply bind_Ok in Hdel as ([] & s1 & Hdel & Hr1). unfold ret in Hr1. injection Hr1 as ->.
  rewrite (bind_run _ _ _ _ _ Hdel).
  assert (next_addr h1 = q) as Eq.
  { unfold delete_node in Hdel. rewrite (bind_run (reads nodes) _ s _ s eq_refl) in Hdel.
    apply bind_Ok in Hdel as (h2 & s2 & Hd & Hs). unfold lift, s_delete in Hd.
    destruct (decide (tptr tw = NULL)); [injection Hd as <- <-|].
    - unfold set_nodes, modify in Hs. injection Hs as <-. done.
    - destruct (s_load (nodes s) (tptr tw)); [|done]. cbn in Hd. injection Hd as <- <-.
      unfold set_nodes, modify in Hs. injection Hs as <-. done. }
  set (s1 := with_nodes s h1) in *.
  assert (forall t, holds s t -> tptr tw ∉ ptrs t -> holds s1 t) as Hs1.
  { intros t Ht Hn. apply (holds_disjoint s s1 [tptr tw]); try done. intros p ->%list_elem_of_singleton. done. }
  assert (Forall (fun y => tptr tw ∉ ptrs (stree y)) (V ++ [x])) as HL by done.
  apply Forall_app in L as [_ Lx]. rewrite Forall_singleton in Lx.
  pose proof (Hs1 _ Hx Lx) as Hx1. rewrite (bind_run _ _ _ _ _ (load_tree s1 [] (stree x) (h_shape _ _ Hx1))).
  destruct (fork_new s1 (stree x) Hx1) as (Hr2 & Htw & Hq & Hfresh). cbn [nodes s1 with_nodes] in Hr2, Htw, Hq, Hfresh.
  rewrite Eq in Hr2, Htw, Hq, Hfresh. rewrite (bind_run _ _ _ _ _ Hr2).
  eexists. split; [reflexivity|]. split; [|split; [by repeat split|done]].
  set (s2 := with_nodes s1 _) in *.
  assert (q ≠ tptr tw) as Hqw.
  { intros Ew. destruct Hw as [n Hn]. pose proof (store_wf_fresh _ (h_wf _ _ (r_holds _ _ A))) as Hn'. fold q in Hn'. congruence. }
  split; try done.
  - split; [eapply holds_ext; [|exact Htw]; done|done|]. by apply twin_wf.
  - by apply (frozen_kids (stree x)).
  - rewrite Forall_forall in H, HL. rewrite Forall_forall. intros y Hy. destruct (H y Hy) as [[Y1 Y2 Y3] Y4].
    split; [|done]. split; [done| |done]. eapply holds_ext; [|exact (holds_new s1 (copy_node (tnode (stree x)) false) _ (Hs1 _ Y2 (HL y Hy)))].
    done.
  - rewrite Forall_forall in I. rewrite Forall_forall. intros y Hy. rewrite Forall_forall. intros p Hp.
    pose proof (I y Hy) as Hret. rewrite Forall_forall in Hret. destruct (Hret p Hp) as (P1 & n & P2 & P3).
    assert (cells h1 !! p = Some n) as P4.
    { rewrite Hc1; [done|]. intros ->%list_elem_of_singleton. apply P1, tptr_in. }
    split.
    + cbn. intros [->|Hin]%elem_of_cons; [congruence|]. apply list_elem_of_In, in_app_iff in Hy as [Hy|[<-|[]]].
      * apply apart_snoc in J as [_ J]. rewrite Forall_forall in J. apply list_elem_of_In in Hy.
        apply (J y Hy p Hp). destruct (stree x) as [px nx cx]. cbn in *. by right.
      * unfold doomed in Hp. rewrite Hnil in Hp. cbn in Hp. apply list_elem_of_singleton in Hp as ->.
        pose proof (h_nodup _ _ Hx) as Hnd. destruct (stree x) as [px nx cx]. cbn in *. by apply NoDup_cons in Hnd as [Hnd _].
    + exists n. split; [|done]. cbn. rewrite lookup_insert_ne; [done|]. rewrite Eq. intros <-. congruence.
  - rewrite Forall_forall in H. rewrite Forall_forall. intros y Hy Hin. cbn in Hin.
    destruct (H y Hy) as [[_ Y2 _] _]. pose proof (shape_fresh _ _ (h_shape _ _ Y2) (h_wf _ _ Y2)) as Hn. done.
Qed.

Lemma inv_tail_readview s V x tw : inv s (V ++ [x]) tw -> sv x = root_readview s.
Proof.
  intros Hi. pose proof (iv_queue _ _ _ Hi) as E. rewrite map_app in E. by apply app_inj_tail in E as [_ E].
Qed.

(** ** Merge *)

Lemma merge_run s V tw : inv s V tw ->
  exists s' V1 V2 x tw', merge (ret tt) s = Ok (tt, s') /\ V = V1 ++ V2 /\ inv s' (V2 ++ [x]) tw' /\
    entries (stree x) = entries tw /\ entries tw' = entries tw /\ readers s' = readers s /\
    terminalNodes s' = terminalNodes s /\ counterForReassignedKeywordIds s' = counterForReassignedKeywordIds s /\
    Forall (fun y => reader_count s (sv y) = 0%nat) V1 /\
    (forall y V3, V2 = y :: V3 -> (0 < reader_count s (sv y))%nat).
Proof.
  intros Hi. unfold merge. rewrite (bind_run (reads root_writeview) _ s _ s eq_refl).
  destruct (reset_inv s V tw Hi) as (h1 & Hr1 & Hi1 & Hf). rewrite (bind_run _ _ _ _ _ Hr1).
  rewrite (bind_run (ret tt) _ _ tt (with_nodes s h1)) by done.
  set (t := reset tw) in *. set (s1 := with_nodes s h1) in *.
  rewrite (bind_run (reads root_readview) _ s1 (root_readview s) s1) by done.
  rewrite (bind_run (reads oldReadViewQueue) _ s1 (oldReadViewQueue s) s1) by done.
  rewrite (bind_run (set_queue _) _ s1 tt (with_queue s1 (oldReadViewQueue s ++ [root_readview s]))) by done.
  set (s2 := with_queue s1 _). pose proof (iv_write _ _ _ Hi1) as Hrep. pose proof (r_root _ _ Hrep) as Ew. cbn in Ew.
  assert (holds s2 t) as Hh2 by (eapply holds_ext; [|apply Hrep]; done).
  rewrite <- Ew. rewrite (bind_run _ _ _ _ _ (load_tree s2 [] t (h_shape _ _ Hh2))).
  rewrite (bind_run _ _ _ _ _ (alloc_run s2 _)). rewrite (bind_run (reads views) _ _ (views s) (with_nodes s2 _)) by done.
  cbn [s_new]. pose proof (publish_inv s1 V t Hi1 Hf) as Hi3. set (s3 := published s1 t) in *.
  set (x := mk_shown _ _ _) in Hi3.
  match goal with |- context [bind (set_views _) ?K] => rewrite (bind_run (set_views _) K _ tt (with_views (with_nodes s2 (s_new (nodes s2) (copy_node (tnode t) false)).2) (s_new (views s) (mk_view [] (next_addr (nodes s2)))).2)) by reflexivity end.
  match goal with |- context [bind (set_readview _) ?K] => rewrite (bind_run (set_readview _) K _ tt s3) by reflexivity end.
  rewrite (bind_run (reads oldReadViewQueue) _ s3 (oldReadViewQueue s3) s3) by done.
  destruct (pop_run (length (oldReadViewQueue s3)) s3 _ t Hi3 (le_n _)) as (s4 & V1 & V2 & Hr4 & EV & Hi4 & Hsf & Hz & Hhd).
  rewrite (bind_run _ _ _ _ _ Hr4).
  destruct (inv_current _ _ _ Hi4) as (V2' & y & -> & Ey & _). rewrite app_assoc in EV.
  apply app_inj_tail in EV as [EV <-].
  destruct (restart_run s4 V2' x t Hi4) as (s5 & Hr5 & Hi5 & Hsf5 & _); [|done|].
  { cbn. destruct (reset_root tw) as [_ Et]. fold t in Et. change (isTerminalNode (tnode t) = false). rewrite Et. apply Hi. }
  exists s5, V1, V2', x. eexists. split; [exact Hr5|]. split; [done|]. split; [exact Hi5|].
  assert (entries (stree x) = entries tw) as Ex by (cbn [stree x]; rewrite twin_entries; apply reset_entries).
  split; [done|]. split; [by rewrite twin_entries|]. destruct Hsf as [F1 F2 F3 F4 F5 F6], Hsf5 as [G1 G2 G3 G4 G5 G6].
  cbn in G1, G5, G6. split; [by rewrite G1, F1|]. split; [by rewrite G5, F5|]. split; [by rewrite G6, F6|].
  split; [exact Hz|]. intros z V3 ->. apply (Hhd z (V3 ++ [x])); [done|]. by destruct V3.
Qed.

(** ** Histories *)

Inductive op := Add (keyword : list Z) | Merge | Acquire | Release (v : ptr).

Definition perform (o : op) : tst unit :=
  match o with
  | Add keyword => addKeyword_ThreadSafe keyword false false ;;; ret tt
  | Merge => merge (ret tt)
  | Acquire => getTrieRootNode_ReadView ;;; ret tt
  | Release v => release_ReadView v
  end.

(** A keyword has a character besides the marker, temporary ids are left, and a
    reader releases what it holds. *)
Definition admissible (s : trie) (o : op) : Prop :=
  match o with
  | Add keyword => cleanString keyword <> [] /\ wrap32 (counterForReassignedKeywordIds s + 1) <> MAX_KEYWORD_ID
  | Release v => (0 < reader_count s v)%nat
  | _ => True
  end.

(** What an operation does to the catalogue of views and to the dictionary of the
    writer. *)
Definition evolves (s : trie) (V : list shown) (tw : tree) (o : op) (s' : trie) (V' : list shown) (tw' : tree) : Prop :=
  match o with
  | Add keyword => catalogue V' = catalogue V /\
      exists r, answers (cleanString keyword) s s' (entries tw) (entries tw') r
  | Merge => entries tw' = entries tw /\
      exists gone kept, V = gone ++ kept /\ catalogue V' = catalogue kept ++ [(root_readview s', entries tw)] /\
        Forall (fun x => reader_count s (sv x) = 0%nat) gone /\
        (forall x rest, kept = x :: rest -> (0 < reader_count s (sv x))%nat)
  | _ => V' = V /\ tw' = tw
  end.

Lemma perform_run s V tw o : inv s V tw -> admissible s o ->
  exists s' V' tw', perform o s = Ok (tt, s') /\ inv s' V' tw' /\ evolves s V tw o s' V' tw'.
Proof.
  intros Hi Ha. destruct o as [keyword| | |v]; cbn [perform admissible evolves] in *.
  - destruct Ha as [Hne Hc]. destruct (insertion_run s V tw keyword Hi Hne Hc) as (s' & V' & tw' & r & Hr & Hi' & Hcat & _ & Hans).
    exists s', V', tw'. rewrite (bind_run _ _ _ _ _ Hr). eauto.
  - destruct (merge_run s V tw Hi) as (s' & V1 & V2 & x & tw' & Hr & EV & Hi' & Ex & Etw & _ & _ & _ & Hz & Hhd).
    exists s', (V2 ++ [x]), tw'. split; [done|]. split; [done|]. split; [done|]. exists V1, V2. split; [done|].
    split; [|done]. unfold catalogue. rewrite map_app. cbn. by rewrite (inv_tail_readview _ _ _ _ Hi'), Ex.
  - destruct (acquire_run s V tw Hi) as (s' & Hr & Hi' & _). exists s', V, tw. by rewrite (bind_run _ _ _ _ _ Hr).
  - destruct (release_run s V tw v Hi Ha) as (s' & Hr & Hi' & _). by exists s', V, tw.
Qed.

(** (C1) The invariant of the trie under updates: views, free lists and the
    write tree stay apart as [inv] says, whatever is inserted, merged, acquired or
    released, and no operation faults.  An insertion changes the writer's
    dictionary alone; a merge makes it the dictionary of a new current view and
    destroys the oldest views, up to the first that a reader holds; readers change
    nothing. *)
Theorem operations_keep_invariant (s : trie) (V : list shown) (tw : tree) (o : op) :
  inv s V tw -> admissible s o ->
  exists s' V' tw', perform o s = Ok (tt, s') /\ inv s' V' tw' /\ evolves s V tw o s' V' tw'.
Proof. apply perform_run. Qed.

(** The example trie satisfies the invariant. *)
Definition loaded_demo_views : list shown := [mk_shown (root_readview loaded_demo) [] loaded_demo_read].

Lemma loaded_demo_inv : inv loaded_demo loaded_demo_views loaded_demo_tree.
Proof.
  pose proof (h_wf _ _ (r_holds _ _ loaded_demo_represents)) as Hwf.
  assert (frozen loaded_demo_read) as Hf by (apply frozenb_sound; vm_compute; reflexivity).
  split.
  - exact loaded_demo_represents.
  - vm_compute. reflexivity.
  - vm_compute. reflexivity.
  - assert (kids loaded_demo_tree = kids loaded_demo_read) as -> by (vm_compute; reflexivity).
    exact (frozen_kids _ Hf).
  - vm_compute. reflexivity.
  - apply NoDup_singleton.
  - split; [vm_compute; reflexivity|]. intros p Hp. apply elem_of_dom in Hp.
    change (p ∈ dom (cells (views loaded_demo))) in Hp. apply elem_of_elements in Hp. revert p Hp.
    apply Forall_forall. apply (bool_decide_unpack _). vm_compute. exact I.
  - apply Forall_singleton. split; [split|exact Hf].
    + vm_compute. reflexivity.
    + split; [|apply (bool_decide_unpack _); vm_compute; exact I|exact Hwf].
      apply (read_tree_shape 9 _ 2%N). vm_compute. reflexivity.
    + apply wfb_sound. vm_compute. reflexivity.
  - apply Forall_singleton, Forall_singleton. split; [apply (bool_decide_unpack _); vm_compute; exact I|].
    eexists. split; vm_compute; reflexivity.
  - repeat constructor.
  - apply NoDup_singleton.
  - apply Forall_singleton. apply (bool_decide_unpack _). vm_compute. exact I.
  - intros v Hv. exfalso. revert Hv. unfold reader_count. assert (readers loaded_demo = ∅) as -> by (vm_compute; reflexivity).
    rewrite lookup_empty. cbn. lia.
Qed.

Lemma operations_keep_invariant_witness : exists s' V' tw',
  perform (Add [97; 97]) loaded_demo = Ok (tt, s') /\ inv s' V' tw' /\
  catalogue V' = catalogue loaded_demo_views.
Proof.
  destruct (operations_keep_invariant loaded_demo loaded_demo_views loaded_demo_tree (Add [97; 97])) as (s' & V' & tw' & Hr & Hi & Hcat & _).
  - exact loaded_demo_inv.
  - split; vm_compute; discriminate.
  - exists s', V', tw'. split; [exact Hr|]. split; [exact Hi|exact Hcat].
Defined.

(** Histories in which some reader keeps the view [v]. *)
Inductive held (v : ptr) (s0 : trie) : trie -> Prop :=
  | held_start : (0 < reader_count s0 v)%nat -> held v s0 s0
  | held_step s o s' : held v s0 s -> admissible s o -> perform o s = Ok (tt, s') ->
      (0 < reader_count s' v)%nat -> held v s0 s'.

Lemma evolves_held s V tw o s' V' tw' v d : inv s V tw -> evolves s V tw o s' V' tw' -> (0 < reader_count s v)%nat ->
  (v, d) ∈ catalogue V -> (v, d) ∈ catalogue V'.
Proof.
  intros Hi Hev Hv Hin. destruct o; cbn in Hev.
  - by destruct Hev as [-> _].
  - destruct Hev as (_ & gone & kept & -> & -> & Hz & _). unfold catalogue in Hin. rewrite map_app in Hin.
    apply elem_of_app. left. apply elem_of_app in Hin as [Hin|Hin]; [|done]. exfalso.
    apply elem_of_lmap in Hin as (x & E & Hx). injection E as -> _. rewrite Forall_forall in Hz.
    specialize (Hz x Hx). lia.
  - by destruct Hev as [-> _].
  - by destruct Hev as [-> _].
Qed.

(** (C2) Snapshot isolation: while a reader holds a view, whatever sequence of
    insertions, merges and other readers' operations runs, every operation
    succeeds, the view is not destroyed, and the trie below its root keeps the
    keywords, ids and offsets it had when the reader took it. *)
Theorem readers_keep_snapshot (s0 s : trie) (V : list shown) (tw : tree) (v : ptr) (d : list (list Z * (Z * Z))) :
  inv s0 V tw -> (v, d) ∈ catalogue V -> held v s0 s ->
  (exists l t, shows s v l t /\ entries t = d) /\
  (forall o, admissible s o -> exists s', perform o s = Ok (tt, s')).
Proof.
  intros Hi Hd Hh. assert (exists V' tw', inv s V' tw' /\ (v, d) ∈ catalogue V' /\ (0 < reader_count s v)%nat)
    as (V' & tw' & Hi' & Hd' & _).
  - induction Hh as [Hv|s o s' _ (V1 & tw1 & Hi1 & Hd1 & Hv1) Ha Hp Hv]; [by exists V, tw|].
    destruct (perform_run s V1 tw1 o Hi1 Ha) as (s2 & V2 & tw2 & Hp2 & Hi2 & Hev).
    assert (s2 = s') as -> by congruence. exists V2, tw2. split; [done|]. split; [|done]. exact (evolves_held _ _ _ _ _ _ _ _ _ Hi1 Hev Hv1 Hd1).
  - split.
    + apply elem_of_lmap in Hd' as (x & E & Hx). injection E as -> ->. pose proof (iv_shows _ _ _ Hi') as Hs.
      rewrite Forall_forall in Hs. destruct (Hs x Hx) as [Hsx _]. eauto.
    + intros o Ha. destruct (perform_run s V' tw' o Hi' Ha) as (s' & _ & _ & Hp & _). eauto.
Qed.

(** A reader takes the first view; a keyword is added and the trie merged. *)
Definition history_demo : trie :=
  match (perform Acquire ;;; perform (Add [97; 97]) ;;; perform Merge) loaded_demo with
  | Ok (_, s) => s | Err _ => loaded_demo
  end.
Definition acquired_demo : trie := match perform Acquire loaded_demo with Ok (_, s) => s | Err _ => loaded_demo end.

Lemma acquired_demo_inv : inv acquired_demo loaded_demo_views loaded_demo_tree.
Proof.
  destruct (acquire_run loaded_demo _ _ loaded_demo_inv) as (s' & Hr & Hi & _).
  assert (acquired_demo = s') as -> by (unfold acquired_demo; cbn [perform]; rewrite (bind_run _ _ _ _ _ Hr); reflexivity).
  exact Hi.
Qed.

Lemma readers_keep_snapshot_witness : exists l t, shows history_demo (root_readview loaded_demo) l t /\
  words t = [[97]; [97; 98]; [98]].
Proof.
  destruct (readers_keep_snapshot acquired_demo history_demo loaded_demo_views loaded_demo_tree
    (root_readview loaded_demo) (entries loaded_demo_read)) as [(l & t & Hs & He) _].
  - exact acquired_demo_inv.
  - apply list_elem_of_singleton. reflexivity.
  - apply (held_step _ _ (match (perform Acquire ;;; perform (Add [97; 97])) loaded_demo with Ok (_, s) => s | Err _ => loaded_demo end) Merge).
    + apply (held_step _ _ acquired_demo (Add [97; 97])).
      * apply held_start. vm_compute. constructor.
      * split; vm_compute; discriminate.
      * vm_compute. reflexivity.
      * vm_compute. constructor.
    + exact I.
    + vm_compute. reflexivity.
    + vm_compute. constructor.
  - exists l, t. split; [exact Hs|]. unfold words. rewrite He. vm_compute. reflexivity.
Defined.

(** (C11) Publication: a keyword that was inserted is in the dictionary of every
    reader that comes after the next merge; and when no reader holds an old view,
    that merge leaves the new view as the only one. *)
Theorem merge_publishes (s : trie) (V : list shown) (tw : tree) (keyword : list Z) :
  inv s V tw -> admissible s (Add keyword) ->
  exists s' V' tw', (perform (Add keyword) ;;; perform Merge) s = Ok (tt, s') /\ inv s' V' tw' /\
    (exists d i o, (root_readview s', d) ∈ catalogue V' /\ In (cleanString keyword, (i, o)) d) /\
    ((forall v, reader_count s v = 0%nat) -> map sv V' = [root_readview s'] /\ oldReadViewQueue s' = []).
Proof.
  intros Hi Ha. destruct Ha as [Hne Hc].
  destruct (insertion_run s V tw keyword Hi Hne Hc) as (s1 & V1 & tw1 & r & Hr1 & Hi1 & Hcat & Hrd & Hans).
  destruct (perform_run s1 V1 tw1 Merge Hi1 I) as (s' & V' & tw' & Hr & Hi' & _ & gone & kept & EV & Ecat & Hz & Hhd).
  exists s', V', tw'. split; [|split; [done|split]].
  - assert (perform (Add keyword) s = Ok (tt, s1)) as Hadd by (cbn [perform]; by rewrite (bind_run _ _ _ _ _ Hr1)).
    by rewrite (bind_run _ _ _ _ _ Hadd).
  - exists (entries tw1), (ins_id r), (ins_offset r). split; [rewrite Ecat; set_solver|].
    destruct Hans as [[[Hin ->] _]|[(_ & -> & b & a & _ & -> & _) _]]; [done|]. apply in_app_iff. right. by left.
  - intros Hnone. assert (kept = []) as ->.
    { destruct kept as [|x kept]; [done|]. specialize (Hhd x kept eq_refl). unfold reader_count in *. rewrite Hrd in Hhd.
      specialize (Hnone (sv x)). lia. }
    assert (map sv V' = [root_readview s']) as E.
    { transitivity (map fst (catalogue V')); [unfold catalogue; by rewrite map_map|]. by rewrite Ecat. }
    split; [done|]. pose proof (iv_queue _ _ _ Hi') as Eq. rewrite E in Eq. destruct (oldReadViewQueue s') as [|? [|]]; [done| |];
      cbn in Eq; by injection Eq.
Qed.

Lemma merge_publishes_witness : exists s' V' tw',
  (perform (Add [97; 97]) ;;; perform Merge) loaded_demo = Ok (tt, s') /\ inv s' V' tw' /\ oldReadViewQueue s' = [].
Proof.
  destruct (merge_publishes loaded_demo loaded_demo_views loaded_demo_tree [97; 97]) as (s' & V' & tw' & Hr & Hi & _ & Hq).
  - exact loaded_demo_inv.
  - split; vm_compute; discriminate.
  - exists s', V', tw'. split; [exact Hr|]. split; [exact Hi|]. apply Hq. intros v. unfold reader_count.
    assert (readers loaded_demo = ∅) as E by (vm_compute; reflexivity). rewrite E, lookup_empty. reflexivity.
Defined.
End TrieHistory.
