(* ===== verification/Stemmer.v ===== *)
(** * The stemmer (core/analyzer/StemmerFilter.cpp, StemmerFilter.h)

    Porter's suffix rules over a character buffer with the offset of its last
    character and a second offset that the suffix tests set; every access to the
    buffer is checked. *)
From Stdlib Require Import Ascii String.
From Stdlib Require Import ZArith Lia List Bool.
From stdpp Require Import base gmap list.
From S2P Require Import Prelude.
Open Scope Z_scope.

Module Stemmer.
Local Open Scope string_scope.
Local Open Scope Z_scope.

(** The characters of a literal. *)
Definition bytes (s : string) : list Z := map (fun c => Z.of_N (N_of_ascii c)) (list_ascii_of_string s).
Abbreviation chars := (list Z).

(** ** Consonants *)

Fixpoint consonant_at (buff : chars) (i : nat) : result bool :=
  let? c := vec_at buff (Z.of_nat i) in
  if (c =? 97) || (c =? 101) || (c =? 105) || (c =? 111) || (c =? 117) then Ok false
  else if c =? 121 then
    match i with
    | O => Ok true
    | S i' => let? b := consonant_at buff i' in Ok (negb b)
    end
  else Ok true.

Definition ifConsonant (buff : chars) (index : Z) : result bool :=
  if index <? 0 then Err OutOfRange else consonant_at buff (Z.to_nat index).

(** The index from [i] on where [ifConsonant] is [stop]; [None] past the offset. *)
Fixpoint scan (fuel : nat) (buff : chars) (stop : bool) (currentIndex stringOffset : Z) : result (option Z) :=
  if stringOffset <? currentIndex then Ok None
  else
    match fuel with
    | O => Err OutOfFuel
    | S fuel' =>
        let? c := ifConsonant buff currentIndex in
        if Bool.eqb c stop then Ok (Some currentIndex)
        else scan fuel' buff stop (currentIndex + 1) stringOffset
    end.

(** The outer [while (TRUE)]. *)
Fixpoint sequences (fuel : nat) (buff : chars) (currentIndex stringOffset numberOfConsonants : Z) : result Z :=
  match fuel with
  | O => Err OutOfFuel
  | S fuel' =>
      let? r := scan fuel buff true currentIndex stringOffset in
      match r with
      | None => Ok numberOfConsonants
      | Some i =>
          let? r := scan fuel buff false (i + 1) stringOffset in
          match r with
          | None => Ok (numberOfConsonants + 1)
          | Some i => sequences fuel' buff (i + 1) stringOffset (numberOfConsonants + 1)
          end
      end
  end.

Definition numberOfConsonantSequences (buff : chars) (stringOffset : Z) : result Z :=
  let fuel := S (S (length buff)) in
  let? r := scan fuel buff false 0 stringOffset in
  match r with
  | None => Ok 0
  | Some i => sequences fuel buff (i + 1) stringOffset 0
  end.

Definition vowelInStem (buff : chars) (strOffset : Z) : result bool :=
  let? r := scan (S (S (length buff))) buff false 0 strOffset in
  Ok (match r with Some _ => true | None => false end).

Definition doubleConsonant (buff : chars) (index : Z) : result bool :=
  if index <? 1 then Ok false
  else
    let? a := vec_at buff index in
    let? b := vec_at buff (index - 1) in
    if negb (a =? b) then Ok false else ifConsonant buff index.

Definition ConsonantVowelConsonantStructure (buff : chars) (index : Z) : result bool :=
  if index <? 2 then Ok false
  else
    let? c := ifConsonant buff index in
    if negb c then Ok false
    else
      let? v := ifConsonant buff (index - 1) in
      if v then Ok false
      else
        let? c := ifConsonant buff (index - 2) in
        if negb c then Ok false
        else
          let? ch := vec_at buff index in
          Ok (negb ((ch =? 119) || (ch =? 120) || (ch =? 121))).

(** ** The state of a stemming *)

Record TokenDetails := mk_details {
  stemmedWordBuffer : chars; endStringOffset : Z; stringOffset : Z }.

Abbreviation sst := (st TokenDetails).

Definition set_buffer (b : chars) : sst unit :=
  modify (fun d => mk_details b (endStringOffset d) (stringOffset d)).
Definition set_end (k : Z) : sst unit :=
  modify (fun d => mk_details (stemmedWordBuffer d) k (stringOffset d)).
Definition set_offset (j : Z) : sst unit :=
  modify (fun d => mk_details (stemmedWordBuffer d) (endStringOffset d) j).
Definition on_buffer {A} (f : chars -> result A) : sst A :=
  let! d := get in lift (f (stemmedWordBuffer d)).
Definition char_at (i : Z) : sst Z := on_buffer (fun b => vec_at b i).

(** A literal [str] is its length followed by its characters. *)
Definition endStr (str : chars) : sst bool :=
  let! d := get in
  let buff := stemmedWordBuffer d in
  let k := endStringOffset d in
  let len := Z.of_nat (length str) in
  let! last := lift (vec_at str (len - 1)) in
  let! c := char_at k in
  if negb (last =? c) then ret false
  else if k + 1 <? len then ret false
  else if bool_decide (take (length str) (drop (Z.to_nat (k - len + 1)) buff) = str)
  then set_offset (k - len) ;;; ret true
  else ret false.

(** [memmove] writes [str] after [stringOffset]. *)
Definition replaceBufferWithString (str : chars) : sst unit :=
  let! d := get in
  let buff := stemmedWordBuffer d in
  let j := stringOffset d in
  let len := Z.of_nat (length str) in
  if (0 <=? j + 1) && (j + 1 + len <=? Z.of_nat (length buff)) then
    set_buffer (take (Z.to_nat (j + 1)) buff ++ str ++ drop (Z.to_nat (j + 1 + len)) buff) ;;;
    set_end (j + len)
  else fail OutOfRange.

Definition m_of : sst Z :=
  let! d := get in lift (numberOfConsonantSequences (stemmedWordBuffer d) (stringOffset d)).
Definition vowel_of : sst bool :=
  let! d := get in lift (vowelInStem (stemmedWordBuffer d) (stringOffset d)).
Definition get_end : sst Z := reads endStringOffset.

Definition callReplaceBufferWithStringoIfConsonant (str : chars) : sst unit :=
  let! m := m_of in
  if 0 <? m then replaceBufferWithString str else ret tt.

(** ** The steps *)

Definition stepOneA : sst unit :=
  let! k := get_end in
  let! c := char_at k in
  if c =? 115 then
    let! e := endStr (bytes "sses") in
    if e then set_end (k - 2)
    else
      let! e := endStr (bytes "ies") in
      if e then replaceBufferWithString (bytes "i")
      else
        let! c := char_at (k - 1) in
        if negb (c =? 115) then set_end (k - 1) else ret tt
  else ret tt.

(** What follows the removal of -ed or -ing. *)
Definition restore_e : sst unit :=
  let! j := reads stringOffset in
  set_end j ;;;
  let! e := endStr (bytes "at") in
  if e then replaceBufferWithString (bytes "ate")
  else
    let! e := endStr (bytes "bl") in
    if e then replaceBufferWithString (bytes "ble")
    else
      let! e := endStr (bytes "iz") in
      if e then replaceBufferWithString (bytes "ize")
      else
        let! k := get_end in
        let! double := on_buffer (fun b => doubleConsonant b k) in
        if double then
          set_end (k - 1) ;;;
          let! ch := char_at (k - 1) in
          if (ch =? 108) || (ch =? 115) || (ch =? 122) then set_end k else ret tt
        else
          let! m := m_of in
          if m =? 1 then
            let! cvc := on_buffer (fun b => ConsonantVowelConsonantStructure b k) in
            if cvc then replaceBufferWithString (bytes "e") else ret tt
          else ret tt.

Definition stepOneB : sst unit :=
  let! e := endStr (bytes "eed") in
  if e then
    let! m := m_of in
    if 0 <? m then let! k := get_end in set_end (k - 1) else ret tt
  else
    let! e := endStr (bytes "ed") in
    let! e := if e then ret true else endStr (bytes "ing") in
    if e then
      let! v := vowel_of in
      if v then restore_e else ret tt
    else ret tt.

Definition stepOneAB : sst unit := stepOneA ;;; stepOneB.

Definition stepOneC : sst unit :=
  let! e := endStr (bytes "y") in
  if e then
    let! v := vowel_of in
    if v then
      let! d := get in
      let! b := lift (vec_set (stemmedWordBuffer d) (endStringOffset d) 105) in set_buffer b
    else ret tt
  else ret tt.

(** [if (endStr(suffix)) { callReplace...(replacement); break; }] one after the
    other. *)
Fixpoint first_rule (rules : list (string * string)) : sst unit :=
  match rules with
  | [] => ret tt
  | (suffix, replacement) :: rules' =>
      let! e := endStr (bytes suffix) in
      if e then callReplaceBufferWithStringoIfConsonant (bytes replacement) else first_rule rules'
  end.

Definition rules_two (c : Z) : list (string * string) :=
  if c =? 97 then [("ational", "ate"); ("tional", "tion")]
  else if c =? 99 then [("enci", "ence"); ("anci", "ance")]
  else if c =? 101 then [("izer", "ize")]
  else if c =? 108 then
    [("bli", "ble"); ("alli", "al"); ("entli", "ent"); ("eli", "e"); ("ousli", "ous")]
  else if c =? 111 then [("ization", "ize"); ("ation", "ate"); ("ator", "ate")]
  else if c =? 115 then [("alism", "al"); ("iveness", "ive"); ("fulness", "ful"); ("ousness", "ous")]
  else if c =? 116 then [("aliti", "al"); ("iviti", "ive"); ("biliti", "ble")]
  else if c =? 103 then [("logi", "log")]
  else [].

Definition stepTwo : sst unit :=
  let! k := get_end in
  let! c := char_at (k - 1) in first_rule (rules_two c).

Definition rules_three (c : Z) : list (string * string) :=
  if c =? 101 then [("icate", "ic"); ("ative", ""); ("alize", "al")]
  else if c =? 105 then [("iciti", "ic")]
  else if c =? 108 then [("ical", "ic"); ("ful", "")]
  else if c =? 115 then [("ness", "")]
  else [].

Definition stepThree : sst unit :=
  let! k := get_end in
  let! c := char_at k in first_rule (rules_three c).

(** [if (endStr(suffix)) break;] one after the other. *)
Fixpoint any_suffix (suffixes : list string) : sst bool :=
  match suffixes with
  | [] => ret false
  | s :: suffixes' => let! e := endStr (bytes s) in if e then ret true else any_suffix suffixes'
  end.

(** -ion goes after s and t only. *)
Definition suffix_ion : sst bool :=
  let! e := endStr (bytes "ion") in
  if e then
    let! j := reads stringOffset in
    let! c := char_at j in ret ((c =? 115) || (c =? 116))
  else ret false.

Definition suffixes_four (c : Z) : list string :=
  if c =? 97 then ["al"] else if c =? 99 then ["ance"; "ence"] else if c =? 101 then ["er"]
  else if c =? 105 then ["ic"] else if c =? 108 then ["able"; "ible"]
  else if c =? 110 then ["ant"; "ement"; "ment"; "ent"] else if c =? 111 then ["ou"]
  else if c =? 115 then ["ism"] else if c =? 116 then ["ate"; "iti"] else if c =? 117 then ["ous"]
  else if c =? 118 then ["ive"] else if c =? 122 then ["ize"] else [].

Definition stepFour : sst unit :=
  let! k := get_end in
  let! c := char_at (k - 1) in
  let! e := if c =? 111 then suffix_ion else ret false in
  let! e := if e then ret true else any_suffix (suffixes_four c) in
  if e then
    let! m := m_of in
    if 1 <? m then let! j := reads stringOffset in set_end j else ret tt
  else ret tt.

Definition stepFive : sst unit :=
  let! k := get_end in
  set_offset k ;;;
  let! c := char_at k in
  (if c =? 101 then
     let! a := m_of in
     if 1 <=? a then
       let! cvc := on_buffer (fun b => ConsonantVowelConsonantStructure b (k - 1)) in
       if cvc then ret tt else set_end (k - 1)
     else ret tt
   else ret tt) ;;;
  let! k := get_end in
  let! c := char_at k in
  if c =? 108 then
    let! double := on_buffer (fun b => doubleConsonant b k) in
    if double then
      let! m := m_of in
      if 1 <? m then set_end (k - 1) else ret tt
    else ret tt
  else ret tt.

Definition all_steps : sst unit :=
  stepOneAB ;;; stepOneC ;;; stepTwo ;;; stepThree ;;; stepFour ;;; stepFive.

(** [garbage] is the [stringOffset] that is not initialised.  The result is cut
    from the token, not from the buffer. *)
Definition stemUsingPorterRules (garbage : Z) (token : chars) : result chars :=
  let k := Z.of_nat (length token) - 1 in
  if k <=? 1 then Ok token
  else
    let? (_, d) := all_steps (mk_details (token ++ [0]) k garbage) in
    Ok (take (Z.to_nat (endStringOffset d + 1)) token).

(** ** The filter *)

Definition stemToken (garbage : Z) (dictionaryWords : gset chars) (token : chars) : result chars :=
  if bool_decide (token ∈ dictionaryWords) then Ok token else stemUsingPorterRules garbage token.

(** [processToken] on the current token: a token with a character outside
    ['A'..'z'] is left as it is.  The characters that remain are their own UTF-8. *)
Definition processToken (garbage : Z) (dictionaryWords : gset chars) (currentToken : chars) : result chars :=
  if forallb (fun c => (65 <=? c) && (c <=? 122)) currentToken
  then stemToken garbage dictionaryWords currentToken
  else Ok currentToken.

Example stems : map (fun s => stemUsingPorterRules 0 (bytes s))
  ["caresses"; "cats"; "matting"; "relational"; "happy"; "mating"; "feed"; "agreed"]%string =
  map (fun s => Ok (bytes s)) ["caress"; "cat"; "mat"; "relati"; "happy"; "mati"; "feed"; "agre"]%string.
Proof. vm_compute. reflexivity. Qed.

(** ** The measure of a stem *)

Definition vowel (c : Z) : bool := (c =? 97) || (c =? 101) || (c =? 105) || (c =? 111) || (c =? 117).

(** Whether a character is a consonant, after one that is ([prev]) or is not. *)
Definition kind (prev : bool) (c : Z) : bool :=
  if vowel c then false else if c =? 121 then negb prev else true.
Fixpoint kinds (prev : bool) (l : chars) : list bool :=
  match l with [] => [] | c :: l' => kind prev c :: kinds (kind prev c) l' end.

(** How often a consonant follows a vowel: the m of [C](VC)^m[V]. *)
Fixpoint pairs (after_vowel : bool) (l : list bool) : Z :=
  match l with
  | [] => 0
  | b :: l' => (if after_vowel && b then 1 else 0) + pairs (negb b) l'
  end.
Definition measure (l : chars) : Z := pairs false (kinds false l).
Definition has_vowel (l : chars) : bool := existsb negb (kinds false l).

Lemma kinds_length l : forall p, length (kinds p l) = length l.
Proof. induction l as [|c l IH]; intros p; cbn; auto. Qed.

Lemma kinds_step l : forall p i, kinds p l !! S i =
  match l !! S i, kinds p l !! i with Some c, Some k => Some (kind k c) | _, _ => None end.
Proof.
  induction l as [|c l IH]; intros p i; [done|]. cbn [kinds lookup list_lookup].
  change (kinds (kind p c) l !! i = match l !! i, (kind p c :: kinds (kind p c) l) !! i with Some c0, Some k => Some (kind k c0) | _, _ => None end).
  destruct i as [|i]; [by destruct l|]. rewrite IH. done.
Qed.

Lemma kinds_take l : forall p n, take n (kinds p l) = kinds p (take n l).
Proof. induction l as [|c l IH]; intros p [|n]; cbn; [done..|]. by rewrite IH. Qed.

Lemma consonant_at_kinds buff i : consonant_at buff i = of_option OutOfRange (kinds false buff !! i).
Proof.
  induction i as [|i IH]; cbn [consonant_at]; unfold vec_at.
  - destruct (Z.ltb_spec (Z.of_nat 0) 0); [lia|]. change (Z.to_nat (Z.of_nat 0)) with 0%nat.
    destruct buff as [|c buff]; [done|]. cbn. unfold kind, vowel.
    destruct (_ || _); [done|]. by destruct (c =? 121).
  - destruct (Z.ltb_spec (Z.of_nat (S i)) 0); [lia|]. rewrite Nat2Z.id, kinds_step, IH.
    destruct (buff !! S i) as [c|] eqn:E; [|done]. cbn [of_option rbind].
    assert (is_Some (kinds false buff !! i)) as [k Hk].
    { apply lookup_lt_is_Some. rewrite kinds_length. apply lookup_lt_Some in E. lia. }
    rewrite Hk. unfold kind, vowel. destruct (_ || _); [done|]. by destruct (c =? 121).
Qed.

Lemma ifConsonant_kinds buff i : 0 <= i -> ifConsonant buff i = of_option OutOfRange (kinds false buff !! Z.to_nat i).
Proof. intros H. unfold ifConsonant. destruct (Z.ltb_spec i 0); [lia|]. apply consonant_at_kinds. Qed.

(** The rest after the first [stop]. *)
Fixpoint seek (stop : bool) (l : list bool) : option (list bool) :=
  match l with [] => None | b :: l' => if Bool.eqb b stop then Some l' else seek stop l' end.

Lemma seek_pairs l : match seek true l with
  | None => pairs true l = 0
  | Some l' => pairs true l = 1 + pairs false l'
  end /\ match seek false l with None => pairs false l = 0 | Some l' => pairs false l = pairs true l' end.
Proof.
  induction l as [|b l [IH1 IH2]]; [done|]. cbn [seek pairs]. destruct b; cbn [Bool.eqb andb negb].
  - split; [lia|]. exact IH2.
  - split; [exact IH1|]. lia.
Qed.

Section Scanning.
  Context (buff : chars) (j : Z) (Hj : -1 <= j < Z.of_nat (length buff)).

Definition rest_from (i : Z) : list bool := drop (Z.to_nat i) (take (Z.to_nat (j + 1)) (kinds false buff)).

Lemma rest_from_cons i : 0 <= i <= j -> exists b, ifConsonant buff i = Ok b /\ rest_from i = b :: rest_from (i + 1).
  Proof.
    intros Hi. rewrite ifConsonant_kinds by lia.
    destruct (kinds false buff !! Z.to_nat i) as [b|] eqn:E.
    - exists b. split; [done|]. unfold rest_from. replace (Z.to_nat (i + 1)) with (S (Z.to_nat i)) by lia.
      apply drop_S. rewrite lookup_take_lt by lia. done.
    - apply lookup_ge_None in E. rewrite kinds_length in E. lia.
  Qed.

Lemma rest_from_end i : j < i -> rest_from i = [].
  Proof. intros Hi. unfold rest_from. apply drop_ge. rewrite length_take. lia. Qed.

Lemma scan_spec stop fuel : forall i, 0 <= i -> j - i < Z.of_nat fuel ->
    exists r, scan fuel buff stop i j = Ok r /\
      match r, seek stop (rest_from i) with
      | None, None => True
      | Some i', Some l' => i <= i' <= j /\ l' = rest_from (i' + 1)
      | _, _ => False
      end.
  Proof.
    induction fuel as [|fuel IH]; intros i Hi Hf; cbn [scan].
    - destruct (Z.ltb_spec j i); [|lia]. exists None. split; [done|]. by rewrite rest_from_end.
    - destruct (Z.ltb_spec j i); [exists None; split; [done|]; by rewrite rest_from_end|].
      destruct (rest_from_cons i) as (b & -> & ->); [lia|]. cbn [rbind seek].
      destruct (Bool.eqb b stop); [exists (Some i); split; [done|]; split; [lia|done]|].
      destruct (IH (i + 1)) as (r & -> & Hr); [lia|lia|]. exists r. split; [done|].
      destruct r, (seek stop (rest_from (i + 1))); try done. destruct Hr. split; [lia|done].
  Qed.

Lemma sequences_spec fuel : forall i n, 0 <= i -> j - i < Z.of_nat fuel -> (0 < fuel)%nat ->
    sequences fuel buff i j n = Ok (n + pairs true (rest_from i)).
  Proof.
    induction fuel as [|fuel IH]; intros i n Hi Hf H0; [lia|]. cbn [sequences].
    destruct (scan_spec true (S fuel) i Hi Hf) as (r & -> & Hr). cbn [rbind].
    destruct (seek_pairs (rest_from i)) as [Hp _].
    destruct r as [i1|], (seek true (rest_from i)) as [l1|]; try done; rewrite Hp; [|by rewrite Z.add_0_r].
    destruct Hr as [Hi1 ->]. destruct (scan_spec false (S fuel) (i1 + 1)) as (r & -> & Hr); [lia|lia|]. cbn [rbind].
    destruct (seek_pairs (rest_from (i1 + 1))) as [_ Hp1].
    destruct r as [i2|], (seek false (rest_from (i1 + 1))) as [l2|]; try done; rewrite Hp1; [|f_equal; lia].
    destruct Hr as [Hi2 ->]. rewrite IH by lia. f_equal. lia.
  Qed.

Lemma measure_run : numberOfConsonantSequences buff j = Ok (measure (take (Z.to_nat (j + 1)) buff)).
  Proof.
    unfold numberOfConsonantSequences. destruct (scan_spec false (S (S (length buff))) 0) as (r & -> & Hr); [lia|lia|].
    cbn [rbind]. unfold measure. rewrite <- kinds_take. change (take _ _) with (rest_from 0).
    destruct (seek_pairs (rest_from 0)) as [_ Hp].
    destruct r as [i|], (seek false (rest_from 0)) as [l|]; try done; rewrite Hp; [|done].
    destruct Hr as [Hi ->]. rewrite sequences_spec by lia. done.
  Qed.

Lemma vowel_run : vowelInStem buff j = Ok (has_vowel (take (Z.to_nat (j + 1)) buff)).
  Proof.
    unfold vowelInStem. destruct (scan_spec false (S (S (length buff))) 0) as (r & -> & Hr); [lia|lia|].
    cbn [rbind]. unfold has_vowel. rewrite <- kinds_take. change (take _ _) with (rest_from 0).
    assert (forall l, existsb negb l = match seek false l with Some _ => true | None => false end) as ->
      by (induction l as [|[] l IH]; cbn; auto).
    by destruct r, (seek false (rest_from 0)).
  Qed.
End Scanning.

(** [numberOfConsonantSequences] is Porter's measure: for every offset
    inside the buffer the three nested loops end and answer how often, in the
    characters up to the offset, a consonant follows a vowel; [vowelInStem] says
    whether there is a vowel.  A y is a consonant just when no consonant precedes
    it. *)
Theorem measure_is_porters (buff : chars) (j : Z) : -1 <= j < Z.of_nat (length buff) ->
  numberOfConsonantSequences buff j = Ok (measure (take (Z.to_nat (j + 1)) buff)) /\
  vowelInStem buff j = Ok (has_vowel (take (Z.to_nat (j + 1)) buff)).
Proof. intros Hj. split; [by apply measure_run|by apply vowel_run]. Qed.

Lemma measure_is_porters_witness :
  numberOfConsonantSequences (bytes "troubles") 7 = Ok (measure (bytes "troubles")) /\ measure (bytes "troubles") = 2.
Proof.
  split; [|vm_compute; reflexivity].
  destruct (measure_is_porters (bytes "troubles") 7) as [H _]; [vm_compute; split; [discriminate|reflexivity]|exact H].
Defined.

(** ** Accesses stay inside the buffer *)

Lemma lift_run' {S A} (r : result A) (d : S) a : r = Ok a -> lift r d = Ok (a, d).
Proof. unfold lift. by intros ->. Qed.

(** [m] runs from [d] to a state in [Q]. *)
Definition wp {A} (m : sst A) (d : TokenDetails) (Q : A -> TokenDetails -> Prop) : Prop :=
  exists a d', m d = Ok (a, d') /\ Q a d'.

Lemma wp_bind {A B} (m : sst A) (k : A -> sst B) d Q : wp m d (fun a d' => wp (k a) d' Q) -> wp (bind m k) d Q.
Proof. intros (a & d1 & Hm & b & d2 & Hk & HQ). exists b, d2. by rewrite (bind_run _ _ _ _ _ Hm). Qed.
Lemma wp_ret {A} (a : A) d (Q : A -> TokenDetails -> Prop) : Q a d -> wp (ret a) d Q.
Proof. intros H. by exists a, d. Qed.
Lemma wp_mono {A} (m : sst A) d (Q Q' : A -> TokenDetails -> Prop) :
  wp m d Q -> (forall a d', Q a d' -> Q' a d') -> wp m d Q'.
Proof. intros (a & d' & Hm & H) HQ. exists a, d'. auto. Qed.

(** The buffer of a token of [n] characters that starts with no vowel, while
    the last offset is at least [lo] and at most [hi]. *)
Record ok (n lo hi : Z) (d : TokenDetails) : Prop := {
  ok_length : Z.of_nat (length (stemmedWordBuffer d)) = n + 1;
  ok_end : lo <= endStringOffset d <= hi;
  ok_n : 0 <= lo /\ hi < n;
  ok_head : exists c, stemmedWordBuffer d !! 0%nat = Some c /\ vowel c = false }.

Lemma ok_weaken n lo hi lo' hi' d : ok n lo hi d -> 0 <= lo' <= lo -> hi <= hi' < n -> ok n lo' hi' d.
Proof. intros [A B C D] H1 H2. split; [done|lia|lia|done]. Qed.

Lemma wp_char n lo hi d i (Q : Z -> TokenDetails -> Prop) : ok n lo hi d -> 0 <= i <= n ->
  (forall c, vec_at (stemmedWordBuffer d) i = Ok c -> Q c d) -> wp (char_at i) d Q.
Proof.
  intros Hok Hi HQ. pose proof (ok_length _ _ _ _ Hok) as Hlen.
  destruct (lookup_lt_is_Some_2 (stemmedWordBuffer d) (Z.to_nat i)) as [c Hc]; [lia|].
  assert (vec_at (stemmedWordBuffer d) i = Ok c) as Hv by (apply vec_at_nth; split; [lia|done]).
  exists c, d. split; [|by apply HQ]. unfold char_at, on_buffer, bind, get, lift. by rewrite Hv.
Qed.

(** The state after a test that succeeded. *)
Definition matched (d : TokenDetails) (len : Z) : TokenDetails :=
  mk_details (stemmedWordBuffer d) (endStringOffset d) (endStringOffset d - len).

Lemma wp_endStr n lo hi d str (Q : bool -> TokenDetails -> Prop) : ok n lo hi d -> str <> [] ->
  let len := Z.of_nat (length str) in
  Q false d ->
  (len <= endStringOffset d + 1 ->
   (forall c rest, str = c :: rest -> vowel c = true -> len <= endStringOffset d) ->
   take (length str) (drop (Z.to_nat (endStringOffset d - len + 1)) (stemmedWordBuffer d)) = str ->
   Q true (matched d len)) ->
  wp (endStr str) d Q.
Proof.
  intros Hok Hne len Hf Ht. unfold endStr. apply wp_bind. exists d, d. split; [done|]. apply wp_bind.
  fold len. assert (is_Some (str !! Z.to_nat (len - 1))) as [l Hl].
  { apply lookup_lt_is_Some. unfold len. destruct str; [done|]. cbn. lia. }
  assert (0 < len) as Hlen by (unfold len; destruct str; [done|cbn; lia]).
  exists l, d. split; [apply lift_run'; apply vec_at_nth; split; [lia|done]|].
  apply wp_bind. destruct Hok as [HL He Hn [c0 [Hc0 Hv0]]].
  eapply (wp_char n lo hi); [by split; eauto|lia|]. intros c _.
  destruct (negb (l =? c)); [by apply wp_ret|].
  destruct (Z.ltb_spec (endStringOffset d + 1) len); [by apply wp_ret|].
  destruct (bool_decide_reflect (take (length str) (drop (Z.to_nat (endStringOffset d - len + 1)) (stemmedWordBuffer d)) = str))
    as [E|E]; [|by apply wp_ret].
  apply wp_bind. exists tt, (matched d len). split; [done|]. apply wp_ret. apply Ht; [lia| |done].
  intros c1 rest -> Hv. destruct (Z.eq_dec len (endStringOffset d + 1)) as [El|]; [|lia]. exfalso.
  replace (Z.to_nat (endStringOffset d - len + 1)) with 0%nat in E by lia. rewrite drop_0 in E.
  destruct (stemmedWordBuffer d) as [|b0 buf]; [done|]. cbn in Hc0. injection Hc0 as ->. cbn in E. injection E as -> _.
  congruence.
Qed.

(** Writing a replacement behind the stem. *)
Lemma wp_replace n lo hi d str (Q : unit -> TokenDetails -> Prop) : ok n lo hi d ->
  let j := stringOffset d in let len := Z.of_nat (length str) in
  0 <= j -> j + len < n ->
  (forall b, Z.of_nat (length b) = n + 1 -> b !! 0%nat = stemmedWordBuffer d !! 0%nat -> Q tt (mk_details b (j + len) j)) ->
  wp (replaceBufferWithString str) d Q.
Proof.
  intros [HL He Hn Hh] j len Hj Hlen HQ. unfold replaceBufferWithString. apply wp_bind. exists d, d. split; [done|].
  fold j len. rewrite HL. destruct (Z.leb_spec 0 (j + 1)), (Z.leb_spec (j + 1 + len) (n + 1)); try lia. cbn [andb].
  eexists tt, _. split; [reflexivity|]. apply HQ.
  - cbn [stemmedWordBuffer]. rewrite !length_app, length_take, length_drop. unfold len in *. lia.
  - cbn [stemmedWordBuffer]. rewrite lookup_app_l by (rewrite length_take; lia). by rewrite lookup_take_lt by lia.
Qed.

Lemma ok_matched n lo hi d len : ok n lo hi d -> ok n lo hi (matched d len).
Proof. by intros [A B C D]. Qed.

(** A stem with a positive measure has two characters. *)
Lemma measure_two l : 0 < measure l -> (2 <= length l)%nat.
Proof.
  destruct l as [|a [|b l]]; cbn; unfold measure; cbn; [lia| |lia]. destruct (kind false a); cbn; lia.
Qed.

Lemma wp_m n lo hi d (Q : Z -> TokenDetails -> Prop) : ok n lo hi d -> -1 <= stringOffset d <= n ->
  (forall m, (0 < m -> 1 <= stringOffset d) -> Q m d) -> wp m_of d Q.
Proof.
  intros Hok Hj HQ. pose proof (ok_length _ _ _ _ Hok) as HL. eexists _, d. split.
  - unfold m_of, bind, get, lift. rewrite measure_run by lia. reflexivity.
  - apply HQ. intros Hm. apply measure_two in Hm. rewrite length_take in Hm. lia.
Qed.

(** ... and so has a stem with a vowel, when it does not start with one. *)
Lemma wp_vowel n lo hi d (Q : bool -> TokenDetails -> Prop) : ok n lo hi d -> -1 <= stringOffset d <= n ->
  (forall v, (v = true -> 1 <= stringOffset d /\
     (kinds false (stemmedWordBuffer d) !! 1%nat = Some true -> 2 <= stringOffset d)) -> Q v d) -> wp vowel_of d Q.
Proof.
  intros Hok Hj HQ. destruct Hok as [HL He Hn (c0 & Hc0 & Hv0)]. eexists _, d. split.
  - unfold vowel_of, bind, get, lift. rewrite vowel_run by lia. reflexivity.
  - apply HQ. unfold has_vowel. rewrite <- kinds_take. intros Hv.
    destruct (stemmedWordBuffer d) as [|c buf]; [done|]. cbn in Hc0. injection Hc0 as ->.
    assert (kind false c0 = true) as Hk by (unfold kind; rewrite Hv0; by destruct (c0 =? 121)).
    cbn [kinds] in *. rewrite Hk in Hv.
    destruct (Z.to_nat (stringOffset d + 1)) as [|[|n']] eqn:E; [done|by cbn in Hv|]. split; [lia|].
    intros H1. cbn in H1. destruct n' as [|n']; [|lia]. exfalso. rewrite Hk in H1.
    destruct buf as [|c1 buf]; [done|]. cbn in H1, Hv. injection H1 as H1. by rewrite H1 in Hv.
Qed.

Lemma ifConsonant_total buff i : 0 <= i < Z.of_nat (length buff) ->
  exists b, ifConsonant buff i = Ok b /\ kinds false buff !! Z.to_nat i = Some b.
Proof.
  intros Hi. rewrite ifConsonant_kinds by lia.
  destruct (lookup_lt_is_Some_2 (kinds false buff) (Z.to_nat i)) as [b Hb]; [rewrite kinds_length; lia|].
  exists b. by rewrite Hb.
Qed.

Lemma vec_at_total (buff : chars) i : 0 <= i < Z.of_nat (length buff) -> exists c, vec_at buff i = Ok c.
Proof.
  intros Hi. destruct (lookup_lt_is_Some_2 buff (Z.to_nat i)) as [c Hc]; [lia|]. exists c.
  apply vec_at_nth. split; [lia|done].
Qed.

Lemma wp_on_buffer {A} (f : chars -> result A) d a (Q : A -> TokenDetails -> Prop) :
  f (stemmedWordBuffer d) = Ok a -> Q a d -> wp (on_buffer f) d Q.
Proof. intros Hf HQ. exists a, d. split; [|done]. unfold on_buffer, bind, get, lift. by rewrite Hf. Qed.

Lemma wp_double n lo hi d k (Q : bool -> TokenDetails -> Prop) : ok n lo hi d -> k <= n ->
  (forall b, (b = true -> 1 <= k /\ kinds false (stemmedWordBuffer d) !! Z.to_nat k = Some true) -> Q b d) ->
  wp (on_buffer (fun b => doubleConsonant b k)) d Q.
Proof.
  intros Hok Hk HQ. pose proof (ok_length _ _ _ _ Hok) as HL. unfold doubleConsonant.
  destruct (Z.ltb_spec k 1).
  { apply (wp_on_buffer _ d false); [by destruct (Z.ltb_spec k 1); [|lia]|]. apply HQ. done. }
  destruct (vec_at_total (stemmedWordBuffer d) k) as [a Ha]; [lia|].
  destruct (vec_at_total (stemmedWordBuffer d) (k - 1)) as [b Hb]; [lia|].
  destruct (ifConsonant_total (stemmedWordBuffer d) k) as (v & Hv & Hkv); [lia|].
  apply (wp_on_buffer _ d (if negb (a =? b) then false else v)).
  - destruct (Z.ltb_spec k 1); [lia|]. rewrite Ha, Hb. cbn [rbind]. by destruct (negb (a =? b)).
  - apply HQ. destruct (negb (a =? b)); [done|]. intros ->. split; [lia|done].
Qed.

Lemma wp_cvc n lo hi d k (Q : bool -> TokenDetails -> Prop) : ok n lo hi d -> k <= n ->
  (forall b, Q b d) -> wp (on_buffer (fun b => ConsonantVowelConsonantStructure b k)) d Q.
Proof.
  intros Hok Hk HQ. pose proof (ok_length _ _ _ _ Hok) as HL.
  assert (exists b, ConsonantVowelConsonantStructure (stemmedWordBuffer d) k = Ok b) as [b Hb];
    [|by eapply wp_on_buffer; [exact Hb|]].
  unfold ConsonantVowelConsonantStructure. destruct (Z.ltb_spec k 2); [eauto|].
  destruct (ifConsonant_total (stemmedWordBuffer d) k) as (v1 & -> & _); [lia|].
  destruct (ifConsonant_total (stemmedWordBuffer d) (k - 1)) as (v2 & -> & _); [lia|].
  destruct (ifConsonant_total (stemmedWordBuffer d) (k - 2)) as (v3 & -> & _); [lia|].
  destruct (vec_at_total (stemmedWordBuffer d) k) as [a ->]; [lia|]. cbn [rbind].
  destruct v1, v2, v3; cbn; eauto.
Qed.

Lemma wp_set_end d k (Q : unit -> TokenDetails -> Prop) :
  Q tt (mk_details (stemmedWordBuffer d) k (stringOffset d)) -> wp (set_end k) d Q.
Proof. intros H. by eexists tt, _. Qed.

Lemma wp_get_end d (Q : Z -> TokenDetails -> Prop) : Q (endStringOffset d) d -> wp get_end d Q.
Proof. intros H. by eexists _, d. Qed.

Lemma wp_offset d (Q : Z -> TokenDetails -> Prop) : Q (stringOffset d) d -> wp (reads stringOffset) d Q.
Proof. intros H. by eexists _, d. Qed.

Lemma ok_replaced n lo hi lo' hi' d b k j : ok n lo hi d -> Z.of_nat (length b) = n + 1 ->
  b !! 0%nat = stemmedWordBuffer d !! 0%nat -> 0 <= lo' <= k -> k <= hi' < n -> ok n lo' hi' (mk_details b k j).
Proof. intros [A B C D] Hl Hb H1 H2. split; cbn; [done|lia|lia|]. by rewrite Hb. Qed.

Lemma ok_moved n lo hi lo' hi' d k j : ok n lo hi d -> 0 <= lo' <= k -> k <= hi' < n ->
  ok n lo' hi' (mk_details (stemmedWordBuffer d) k j).
Proof. intros Hok H1 H2. eapply ok_replaced; try done. apply Hok. Qed.

(** The lengths of literals. *)
Ltac literal := cbn [length bytes map list_ascii_of_string] in *.

Lemma stepOneA_ok n d : ok n 2 (n - 1) d -> wp stepOneA d (fun _ d' => ok n 1 (n - 1) d').
Proof.
  intros Hok. pose proof (ok_end _ _ _ _ Hok) as Hk. pose proof (ok_n _ _ _ _ Hok) as Hn.
  assert (ok n 1 (n - 1) d) as Hok' by (eapply ok_weaken; [done|lia|lia]).
  unfold stepOneA. apply wp_bind, wp_get_end, wp_bind. eapply wp_char; [done|lia|]. intros c _.
  destruct (c =? 115); [|by apply wp_ret]. apply wp_bind. eapply wp_endStr; [done|done| |].
  - cbv zeta beta. apply wp_bind. eapply wp_endStr; [done|done| |].
    + apply wp_bind. eapply wp_char; [done|lia|]. intros c' _. destruct (negb _); [|by apply wp_ret].
      apply wp_set_end. eapply ok_moved; [done|lia|lia].
    + literal. intros Hl Hv _. specialize (Hv _ _ eq_refl eq_refl). eapply wp_replace; [by apply ok_matched| | |]; cbn [matched stringOffset]; literal; [lia|lia|].
      intros b Hb Hb0. eapply ok_replaced; [exact Hok|done|done|lia|lia].
  - literal. intros Hl _ _. apply wp_set_end. eapply ok_moved; [by apply ok_matched|lia|lia].
Qed.

(** A rewriting that leaves the last offset above [lo]. *)
Lemma wp_rewrite n lo hi d str : ok n lo hi d -> 1 <= stringOffset d + Z.of_nat (length str) ->
  0 <= stringOffset d -> stringOffset d + Z.of_nat (length str) < n ->
  wp (replaceBufferWithString str) d (fun _ d' => ok n 1 (n - 1) d').
Proof.
  intros Hok H1 H2 H3. eapply wp_replace; [done|done|done|]. intros b Hb Hb0.
  eapply ok_replaced; [done|done|done|lia|]. pose proof (ok_n _ _ _ _ Hok). lia.
Qed.

Lemma restore_e_ok n d : ok n 1 (n - 1) d -> 1 <= stringOffset d <= n - 3 ->
  (kinds false (stemmedWordBuffer d) !! 1%nat = Some true -> 2 <= stringOffset d) ->
  wp restore_e d (fun _ d' => ok n 1 (n - 1) d').
Proof.
  intros Hok Hj Hv1. unfold restore_e. apply wp_bind, wp_offset, wp_bind, wp_set_end.
  set (d1 := mk_details _ _ _). assert (ok n 1 (n - 1) d1) as Hok1 by (eapply ok_moved; [done|lia|lia]).
  apply wp_bind. eapply wp_endStr; [done|done| |].
  2:{ literal. intros Hl Hv _. specialize (Hv _ _ eq_refl eq_refl). eapply wp_rewrite; [by apply ok_matched| | |]; literal; cbn in *; lia. }
  apply wp_bind. eapply wp_endStr; [done|done| |].
  2:{ literal. intros Hl _ E. eapply wp_rewrite; [by apply ok_matched| | |]; literal; cbn [matched stringOffset d1 endStringOffset] in *; try lia.
      destruct (Z.eq_dec (stringOffset d) 1) as [E1|]; [|lia]. exfalso. rewrite E1 in E. change (Z.to_nat (1 - 2 + 1)) with 0%nat in E.
      rewrite drop_0 in E. specialize (fun H => Z.le_trans _ _ _ (Hv1 H) (Z.eq_le_incl _ _ E1)) as Hc.
      change (stemmedWordBuffer d1) with (stemmedWordBuffer d) in E.
      destruct (stemmedWordBuffer d) as [|a [|b buf]]; [done|done|]. cbn in E. injection E as -> ->. cbn in Hc. specialize (Hc eq_refl). lia. }
  apply wp_bind. eapply wp_endStr; [done|done| |].
  2:{ literal. intros Hl Hv _. specialize (Hv _ _ eq_refl eq_refl). eapply wp_rewrite; [by apply ok_matched| | |]; literal; cbn in *; lia. }
  apply wp_bind, wp_get_end, wp_bind. change (endStringOffset d1) with (stringOffset d).
  eapply wp_double; [done|lia|]. intros [] Hb.
  - destruct (Hb eq_refl) as [_ Hk]. assert (2 <= stringOffset d) as H2.
    { destruct (Z.eq_dec (stringOffset d) 1) as [E1|]; [|lia]. rewrite E1 in Hk. by apply Hv1. }
    apply wp_bind, wp_set_end. assert (ok n 1 (n - 1) (mk_details (stemmedWordBuffer d1) (stringOffset d - 1) (stringOffset d1))) as Hok2
      by (eapply ok_moved; [exact Hok1|lia|lia]).
    apply wp_bind. eapply wp_char; [done|lia|]. intros ch _. destruct (_ || _); [|by apply wp_ret].
    apply wp_set_end. eapply ok_moved; [exact Hok2|lia|lia].
  - apply wp_bind. eapply wp_m; [done|cbn; lia|]. intros m _. destruct (m =? 1); [|by apply wp_ret].
    apply wp_bind. eapply wp_cvc; [done|lia|]. intros []; [|by apply wp_ret].
    eapply wp_rewrite; [done| | |]; literal; cbn in *; lia.
Qed.

Lemma stepOneB_ok n d : ok n 1 (n - 1) d -> wp stepOneB d (fun _ d' => ok n 1 (n - 1) d').
Proof.
  intros Hok. pose proof (ok_end _ _ _ _ Hok) as Hk. unfold stepOneB.
  assert (forall len, 2 <= len <= endStringOffset d -> wp (let! v := vowel_of in if v then restore_e else ret tt) (matched d len)
    (fun _ d' => ok n 1 (n - 1) d')) as Hrest.
  { intros len Hl. apply wp_bind. eapply wp_vowel; [by apply ok_matched|cbn; lia|]. intros [] Hv; [|by apply wp_ret, ok_matched].
    destruct (Hv eq_refl) as [Hv1 Hv2]. apply restore_e_ok; [by apply ok_matched|cbn in *; lia|exact Hv2]. }
  apply wp_bind. eapply wp_endStr; [done|done| |].
  - apply wp_bind. eapply wp_endStr; [done|done| |].
    + apply wp_bind. eapply wp_endStr; [done|done| |].
      * by apply wp_ret.
      * literal. intros Hl Hv _. specialize (Hv _ _ eq_refl eq_refl). by apply Hrest.
    + literal. intros Hl Hv _. specialize (Hv _ _ eq_refl eq_refl). apply wp_bind, wp_ret. by apply Hrest.
  - literal. intros Hl _ _. apply wp_bind. eapply wp_m; [by apply ok_matched|cbn; lia|]. intros m Hm.
    destruct (Z.ltb_spec 0 m); [|by apply wp_ret, ok_matched]. specialize (Hm ltac:(lia)). cbn in Hm.
    apply wp_bind, wp_get_end, wp_set_end. cbn. eapply (ok_moved n 1 (n - 1) 1 (n - 1) d); [done|lia|lia].
Qed.

Lemma stepOneC_ok n d : ok n 1 (n - 1) d -> wp stepOneC d (fun _ d' => ok n 1 (n - 1) d').
Proof.
  intros Hok. pose proof (ok_end _ _ _ _ Hok) as Hk. pose proof (ok_length _ _ _ _ Hok) as HL. unfold stepOneC.
  apply wp_bind. eapply wp_endStr; [done|done| |]; [by apply wp_ret|]. literal. intros Hl _ _.
  apply wp_bind. eapply wp_vowel; [by apply ok_matched|cbn; lia|]. intros [] _; [|by apply wp_ret, ok_matched].
  apply wp_bind. eexists _, _. split; [reflexivity|]. apply wp_bind.
  eexists (<[Z.to_nat (endStringOffset d) := 105]> (stemmedWordBuffer d)), _. split.
  { apply lift_run', vec_set_Ok. cbn. split; [lia|done]. }
  eexists tt, _. split; [reflexivity|]. cbn. eapply (ok_replaced n 1 (n - 1) 1 (n - 1) d); [done| | |lia|lia].
  - by rewrite length_insert.
  - rewrite list_lookup_insert_ne; [done|lia].
Qed.

Lemma first_rule_ok n d rules : ok n 1 (n - 1) d ->
  Forall (fun r => bytes r.1 <> [] /\ (length (bytes r.2) <= length (bytes r.1))%nat) rules ->
  wp (first_rule rules) d (fun _ d' => ok n 1 (n - 1) d').
Proof.
  intros Hok. pose proof (ok_end _ _ _ _ Hok) as Hk.
  induction 1 as [|[suf rep] rules [Hne Hlen] _ IH]; [by apply wp_ret|]. cbn [first_rule fst snd] in *.
  apply wp_bind. eapply wp_endStr; [done|done|exact IH|]. intros Hl _ _. unfold callReplaceBufferWithStringoIfConsonant.
  apply wp_bind. eapply wp_m; [by apply ok_matched|cbn; lia|]. intros m Hm.
  destruct (Z.ltb_spec 0 m); [|by apply wp_ret, ok_matched]. specialize (Hm ltac:(lia)). cbn in Hm.
  eapply wp_rewrite; [by apply ok_matched| | |]; cbn [matched stringOffset]; lia.
Qed.

Lemma stepTwo_ok n d : ok n 1 (n - 1) d -> wp stepTwo d (fun _ d' => ok n 1 (n - 1) d').
Proof.
  intros Hok. pose proof (ok_end _ _ _ _ Hok) as Hk. unfold stepTwo. apply wp_bind, wp_get_end, wp_bind.
  eapply wp_char; [done|lia|]. intros c _. apply first_rule_ok; [done|]. unfold rules_two.
  repeat (case_match; [repeat constructor; cbn; (done || lia)|]). constructor.
Qed.

Lemma stepThree_ok n d : ok n 1 (n - 1) d -> wp stepThree d (fun _ d' => ok n 1 (n - 1) d').
Proof.
  intros Hok. pose proof (ok_end _ _ _ _ Hok) as Hk. unfold stepThree. apply wp_bind, wp_get_end, wp_bind.
  eapply wp_char; [done|lia|]. intros c _. apply first_rule_ok; [done|]. unfold rules_three.
  repeat (case_match; [repeat constructor; cbn; (done || lia)|]). constructor.
Qed.

Definition tested (n : Z) (b : bool) (d : TokenDetails) : Prop :=
  ok n 1 (n - 1) d /\ (b = true -> -1 <= stringOffset d <= n - 1).

Lemma any_suffix_ok n d suffixes : ok n 1 (n - 1) d -> Forall (fun s => bytes s <> []) suffixes ->
  wp (any_suffix suffixes) d (tested n).
Proof.
  intros Hok. pose proof (ok_end _ _ _ _ Hok) as Hk.
  induction 1 as [|suf suffixes Hne _ IH]; [by apply wp_ret|]. cbn [any_suffix].
  apply wp_bind. eapply wp_endStr; [done|done|exact IH|]. intros Hl _ _. apply wp_ret.
  split; [by apply ok_matched|]. cbn. lia.
Qed.

Lemma suffix_ion_ok n d : ok n 1 (n - 1) d -> wp suffix_ion d (tested n).
Proof.
  intros Hok. pose proof (ok_end _ _ _ _ Hok) as Hk. unfold suffix_ion. apply wp_bind.
  eapply wp_endStr; [done|done|by apply wp_ret|]. literal. intros Hl Hv _. specialize (Hv _ _ eq_refl eq_refl).
  apply wp_bind, wp_offset, wp_bind. eapply wp_char; [by apply ok_matched|cbn; lia|]. intros c _. apply wp_ret.
  split; [by apply ok_matched|]. cbn. lia.
Qed.

Lemma stepFour_ok n d : ok n 1 (n - 1) d -> wp stepFour d (fun _ d' => ok n 1 (n - 1) d').
Proof.
  intros Hok. pose proof (ok_end _ _ _ _ Hok) as Hk. unfold stepFour. apply wp_bind, wp_get_end, wp_bind.
  eapply wp_char; [done|lia|]. intros c _. apply wp_bind. apply (wp_mono _ _ (tested n)).
  { destruct (c =? 111); [by apply suffix_ion_ok|by apply wp_ret]. }
  intros e d1 [Hok1 Hj1]. apply wp_bind. apply (wp_mono _ _ (tested n)).
  { destruct e; [by apply wp_ret|]. apply any_suffix_ok; [done|]. unfold suffixes_four.
    repeat (case_match; [repeat constructor; done|]). constructor. }
  intros [] d2 [Hok2 Hj2]; [|by apply wp_ret]. specialize (Hj2 eq_refl).
  apply wp_bind. eapply wp_m; [done|lia|]. intros m Hm. destruct (Z.ltb_spec 1 m); [|by apply wp_ret].
  specialize (Hm ltac:(lia)). apply wp_bind, wp_offset, wp_set_end. pose proof (ok_end _ _ _ _ Hok2) as Hk2.
  eapply ok_moved; [exact Hok2|lia|lia].
Qed.

Lemma stepFive_ok n d : ok n 1 (n - 1) d -> wp stepFive d (fun _ d' => ok n 0 (n - 1) d').
Proof.
  intros Hok. pose proof (ok_end _ _ _ _ Hok) as Hk. unfold stepFive. apply wp_bind, wp_get_end, wp_bind.
  set (d1 := mk_details (stemmedWordBuffer d) (endStringOffset d) (endStringOffset d)).
  assert (ok n 1 (n - 1) d1) as Hok1 by (eapply ok_moved; [done|lia|lia]).
  exists tt, d1. split; [done|]. apply wp_bind. eapply wp_char; [done|lia|]. intros c _.
  apply wp_bind. apply (wp_mono _ _ (fun _ d' => ok n 0 (n - 1) d' /\ stringOffset d' = endStringOffset d)).
  - assert (ok n 0 (n - 1) d1 /\ stringOffset d1 = endStringOffset d) as H0 by (split; [eapply ok_weaken; [done|lia|lia]|done]).
    destruct (c =? 101); [|by apply wp_ret]. apply wp_bind. eapply wp_m; [done|cbn; lia|]. intros m _.
    destruct (1 <=? m); [|by apply wp_ret]. apply wp_bind. eapply wp_cvc; [done|lia|]. intros []; [by apply wp_ret|].
    apply wp_set_end. split; [eapply (ok_moved n 1 (n - 1) 0 (n - 1) d); [done|lia|lia]|done].
  - intros [] d2 [Hok2 Hj2]. pose proof (ok_end _ _ _ _ Hok2) as Hk2. apply wp_bind, wp_get_end, wp_bind.
    eapply wp_char; [done|lia|]. intros c2 _. destruct (c2 =? 108); [|by apply wp_ret].
    apply wp_bind. eapply wp_double; [done|lia|]. intros [] Hb; [|by apply wp_ret]. destruct (Hb eq_refl) as [Hb1 _].
    apply wp_bind. eapply wp_m; [done|lia|]. intros m _. destruct (1 <? m); [|by apply wp_ret].
    apply wp_set_end. eapply ok_moved; [exact Hok2|lia|lia].
Qed.

Lemma all_steps_ok n d : ok n 2 (n - 1) d -> wp all_steps d (fun _ d' => ok n 0 (n - 1) d').
Proof.
  intros Hok. unfold all_steps, stepOneAB. apply wp_bind, wp_bind. eapply wp_mono; [by apply stepOneA_ok|].
  intros [] d1 H1. eapply wp_mono; [by apply stepOneB_ok|]. intros [] d2 H2.
  apply wp_bind. eapply wp_mono; [by apply stepOneC_ok|]. intros [] d3 H3.
  apply wp_bind. eapply wp_mono; [by apply stepTwo_ok|]. intros [] d4 H4.
  apply wp_bind. eapply wp_mono; [by apply stepThree_ok|]. intros [] d5 H5.
  apply wp_bind. eapply wp_mono; [by apply stepFour_ok|]. intros [] d6 H6. by apply stepFive_ok.
Qed.

(** (C36) On a token whose first character is not one of a, e, i, o, u the
    stemmer reads and writes inside its buffer only, whatever value the offset
    that is not initialised has, and answers a non-empty prefix of the token: the
    letters that the rules write into the buffer never reach the answer. *)
Theorem stem_is_prefix (garbage c : Z) (rest : chars) : vowel c = false ->
  exists m, stemUsingPorterRules garbage (c :: rest) = Ok (take m (c :: rest)) /\ (1 <= m <= length (c :: rest))%nat.
Proof.
  intros Hv. unfold stemUsingPorterRules. set (token := c :: rest). set (n := Z.of_nat (length token)).
  destruct (Z.leb_spec (n - 1) 1).
  { exists (length token). rewrite take_ge by lia. split; [done|]. cbn. lia. }
  destruct (all_steps_ok n (mk_details (token ++ [0]) (n - 1) garbage)) as ([] & d & -> & Hok).
  { split; cbn -[Z.of_nat]; [rewrite length_app; cbn; unfold n; cbn; lia|lia|lia|by exists c]. }
  cbn [rbind]. pose proof (ok_end _ _ _ _ Hok). eexists. split; [reflexivity|]. fold n. unfold n in *. lia.
Qed.

Lemma stem_is_prefix_witness : exists m, stemUsingPorterRules 5 (bytes "mating") = Ok (take m (bytes "mating")).
Proof.
  destruct (stem_is_prefix 5 109 (bytes "ating") eq_refl) as (m & H & _). exists m. exact H.
Defined.

(** Tokens that the rules shorten to one letter, or to -ion alone, make the
    stemmer read the byte before its buffer: "ies", "ion", a vowel
    followed by -ing, and a vowel other than e followed by -ed. *)
Theorem stem_reads_outside (garbage v : Z) (token : chars) : vowel v = true ->
  In token [bytes "ies"; bytes "ion"; v :: bytes "ing"] \/ (v <> 101 /\ token = v :: bytes "ed") ->
  stemUsingPorterRules garbage token = Err OutOfRange.
Proof.
  intros Hv. assert (v = 97 \/ v = 101 \/ v = 105 \/ v = 111 \/ v = 117) as Hc.
  { unfold vowel in Hv. rewrite !orb_true_iff, !Z.eqb_eq in Hv. tauto. }
  intros [[<-|[<-|[<-|[]]]]|[Hne ->]]; [reflexivity|reflexivity|..];
    destruct Hc as [->|[->|[->|[->| ->]]]]; done.
Qed.

Lemma stem_reads_outside_witness : stemUsingPorterRules 0 (bytes "aing") = Err OutOfRange.
Proof. apply (stem_reads_outside 0 97); [reflexivity|]. left. right. right. left. reflexivity. Defined.

End Stemmer.
