(* ===== verification/TrieQueries.v ===== *)
(** * Queries by id (core/index/Trie.h, class Prefix; Trie.cpp)

    A node stands for the interval of the ids of the keywords below it.  The ids
    grow with the words, so the descent by a smallest id finds a keyword, the
    string of a node, and the prefixes above a prefix. *)
From S2P Require Import Prelude TrieNode Trie TrieTree TrieInsert TrieViews TrieUpdate TrieThreadSafe.
From Stdlib Require Import ZArith Lia List Bool Sorted.
From stdpp Require Import base gmap list fin_maps.
Open Scope Z_scope.

Module TrieQueries.
Import TrieNode Trie TrieTree TrieInsert TrieViews TrieThreadSafe.

(** ** Prefixes *)

Record Prefix := mk_prefix { minId : Z; maxId : Z }.

Definition prefix_eqb (p q : Prefix) : bool := (minId p =? minId q) && (maxId p =? maxId q).
Definition prefix_ltb (p q : Prefix) : bool :=
  (minId p <? minId q) || ((minId p =? minId q) && (maxId q <? maxId p)).
Definition isAncestor (p q : Prefix) : bool := (minId p <=? minId q) && (maxId q <=? maxId p).
Definition isStrictAncestor (p q : Prefix) : bool := isAncestor p q && negb (prefix_eqb p q).
Definition broaden (p : Prefix) (idLeft idRight specialBigValue : Z) : Prefix :=
  mk_prefix (if idLeft <? minId p then idLeft else minId p)
    (if negb (idRight =? specialBigValue) && (maxId p <? idRight) then idRight else maxId p).
Definition replace (p : Prefix) (oldId newId : Z) : Prefix :=
  mk_prefix (if minId p =? oldId then newId else minId p) (if maxId p =? oldId then newId else maxId p).

(** [Prefix(node->getMinId(), node->getMaxId())] *)
Definition prefix_of (h : heap) (n : TrieNode) : result Prefix :=
  let? a := getMinId h n in let? b := getMaxId h n in Ok (mk_prefix a b).

(** ** Descents by id *)

(** The loop of [getAncestorPrefixes] at the node [p]. *)
Fixpoint ancestors_loop (fuel : nat) (h : heap) (p : ptr) (prefix : Prefix) (acc : list Prefix) : result (list Prefix) :=
  if bool_decide (p = NULL) then Ok acc
  else
    let? n := s_load h p in
    let? mx := getMaxId h n in
    if mx <? maxId prefix then Ok acc
    else
      match fuel with
      | O => Err OutOfFuel
      | S fuel' =>
          let? q := findLowerBoundChildByMinId h n (minId prefix) in
          if bool_decide (q = NULL) then Ok acc
          else
            let? m := s_load h q in
            if isTerminalNode m || (1 <? getChildrenCount m) then
              let? i := prefix_of h m in
              if prefix_eqb prefix i then Ok acc
              else if isAncestor i prefix then ancestors_loop fuel' h q prefix (acc ++ [i])
              else Err AssertFailed
            else ancestors_loop fuel' h q prefix acc
      end.

Definition getAncestorPrefixes (fuel : nat) (h : heap) (root : ptr) (prefix : Prefix) : result (list Prefix) :=
  ancestors_loop fuel h root prefix [].

Definition getParentPrefix (fuel : nat) (h : heap) (root : ptr) (prefix : Prefix) : result (option Prefix) :=
  let? l := getAncestorPrefixes fuel h root prefix in Ok (last l).

Definition isDirectChildPrefix (fuel : nat) (h : heap) (root : ptr) (parent descendant : Prefix) : result bool :=
  let? l := getAncestorPrefixes fuel h root descendant in
  Ok (match last l with Some p => prefix_eqb p parent | None => false end).

Fixpoint complete_loop (fuel : nat) (h : heap) (p : ptr) (prefix : Prefix) : result bool :=
  if bool_decide (p = NULL) then Ok false
  else
    let? n := s_load h p in
    let? mx := getMaxId h n in
    if mx <? maxId prefix then Ok false
    else
      let? i := prefix_of h n in
      if isTerminalNode n && prefix_eqb prefix i then Ok true
      else
        match fuel with
        | O => Err OutOfFuel
        | S fuel' => let? q := findLowerBoundChildByMinId h n (minId prefix) in complete_loop fuel' h q prefix
        end.

Definition isPrefixACompleteKeyword (fuel : nat) (h : heap) (root : ptr) (prefix : Prefix) : result bool :=
  if minId prefix =? maxId prefix then Ok true else complete_loop fuel h root prefix.

(** The minimum and maximum id and the depth of the node of a keyword; the loop
    that does not find it ends in [ASSERT(false)]. *)
Fixpoint getKeywordMinMaxIdLength (fuel : nat) (h : heap) (p : ptr) (keywordId : Z) : result (Z * Z * Z) :=
  if bool_decide (p = NULL) then Err AssertFailed
  else
    match fuel with
    | O => Err OutOfFuel
    | S fuel' =>
        let? n := s_load h p in
        let? q := findLowerBoundChildByMinId h n keywordId in
        if bool_decide (q = NULL) then Err AssertFailed
        else
          let? m := s_load h q in
          let? mn := getMinId h m in
          if isTerminalNode m && (keywordId =? mn) then
            let? mx := getMaxId h m in Ok (mn, mx, getDepth m)
          else getKeywordMinMaxIdLength fuel' h q keywordId
    end.

(** [getKeywordMinMaxIdLength_WriteView]: the same descent, with the answer
    (0, MAX_ALLOCATED_KEYWORD_ID, 0) when there is no such keyword. *)
Fixpoint getKeywordMinMaxIdLength_WriteView (fuel : nat) (h : heap) (p : ptr) (keywordId : Z) : result (Z * Z * Z) :=
  if bool_decide (p = NULL) then Ok (0, MAX_ALLOCATED_KEYWORD_ID, 0)
  else
    match fuel with
    | O => Err OutOfFuel
    | S fuel' =>
        let? n := s_load h p in
        let? q := findLowerBoundChildByMinId h n keywordId in
        if bool_decide (q = NULL) then Ok (0, MAX_ALLOCATED_KEYWORD_ID, 0)
        else
          let? m := s_load h q in
          let? mn := getMinId h m in
          if isTerminalNode m && (keywordId =? mn) then
            let? mx := getMaxId h m in Ok (mn, mx, getDepth m)
          else getKeywordMinMaxIdLength_WriteView fuel' h q keywordId
    end.

Definition getPrefixFromKeywordId (fuel : nat) (h : heap) (root : ptr) (keywordId : Z) : result Prefix :=
  let? (mn, mx, _) := getKeywordMinMaxIdLength fuel h root keywordId in Ok (mk_prefix mn mx).
Definition getKeywordLength (fuel : nat) (h : heap) (root : ptr) (keywordId : Z) : result Z :=
  let? (_, _, len) := getKeywordMinMaxIdLength fuel h root keywordId in Ok len.

(** The path from the root to the node of a keyword; empty when there is none. *)
Fixpoint path_loop (fuel : nat) (h : heap) (p : ptr) (keywordId : Z) (acc : list ptr) : result (list ptr) :=
  if bool_decide (p = NULL) then Ok []
  else
    match fuel with
    | O => Err OutOfFuel
    | S fuel' =>
        let? n := s_load h p in
        let? q := findLowerBoundChildByMinId h n keywordId in
        if bool_decide (q = NULL) then Ok []
        else
          let? m := s_load h q in
          let? mn := getMinId h m in
          if isTerminalNode m && (keywordId =? mn) then Ok (acc ++ [p; q])
          else path_loop fuel' h q keywordId (acc ++ [p])
    end.

Definition getKeywordCorrespondingPathToTrieNode_WriteView (fuel : nat) (h : heap) (root : ptr) (keywordId : Z) :
    result (list ptr) := path_loop fuel h root keywordId [].

(** The loop of [getPrefixString]; [None] for the defensive empty answer. *)
Fixpoint string_loop (fuel : nat) (h : heap) (p : ptr) (minId prefix_node_depth : Z) (string_ : list Z) :
    result (list Z) :=
  let? n := s_load h p in
  if getDepth n <? prefix_node_depth then
    match fuel with
    | O => Err OutOfFuel
    | S fuel' =>
        let? q := findLowerBoundChildByMinId h n minId in
        if bool_decide (q = NULL) then Ok []
        else
          let? m := s_load h q in
          if prefix_node_depth <? getDepth m then Ok []
          else
            let? string' := vec_set string_ (getDepth m - 1) (character m) in
            string_loop fuel' h q minId prefix_node_depth string'
    end
  else Ok string_.

Definition getPrefixString (fuel : nat) (h : heap) (rootReadView trieNode : ptr) : result (list Z) :=
  if bool_decide (trieNode = NULL) then Ok []
  else
    let? n := s_load h trieNode in
    let? mn := getMinId h n in
    string_loop fuel h rootReadView mn (getDepth n) (replicate (Z.to_nat (getDepth n)) 0).

(** ** The ids of a tree *)

Definition ids (t : tree) : list Z := map (fun e => e.2.1) (entries t).

Lemma ids_kids cs : map (fun e => e.2.1) (flat_map kid_entries cs) = flat_map ids cs.
Proof.
  induction cs as [|k cs IH]; [done|]. cbn. rewrite map_app, IH. f_equal. unfold kid_entries, ids.
  by rewrite map_map.
Qed.

Lemma ids_tree p n cs : ids (Tree p n cs) = (if isTerminalNode n then [id n] else []) ++ flat_map ids cs.
Proof.
  unfold ids at 1. cbn [entries]. change (flat_map (fun k => map (prefixed (tchar k)) (entries k)) cs) with (flat_map kid_entries cs).
  rewrite map_app, ids_kids.
  unfold own. by destruct (isTerminalNode n).
Qed.

Definition first_id (t : tree) : Z := hd 0 (ids t).
Definition last_id (t : tree) : Z := List.last (ids t) 0.
Definition interval (t : tree) : Prefix := mk_prefix (first_id t) (last_id t).

(** Ids grow with the words. *)
Definition ordered (t : tree) : Prop := StronglySorted Z.lt (ids t).

Lemma ids_nonempty d t : wf d t -> inhabited t -> ids t <> [].
Proof.
  revert d. induction t as [p n cs IH] using tree_ind'. intros d. inversion_clear 1 as [? ? ? ? _ _ Hw Hi _ _].
  unfold inhabited. cbn [kids tnode]. intros Hin. rewrite ids_tree. destruct (isTerminalNode n); [done|].
  destruct cs as [|k cs]; [by specialize (Hin eq_refl)|]. inversion_clear IH as [|? ? IHk _].
  inversion_clear Hw as [|? ? Hwk _]. inversion_clear Hi as [|? ? Hik _]. cbn. specialize (IHk _ Hwk Hik). by destruct (ids k).
Qed.

Lemma last_app_ne {A} (l1 l2 : list A) d : l2 <> [] -> List.last (l1 ++ l2) d = List.last l2 d.
Proof.
  intros Hne. induction l1 as [|x l1 IH]; [done|]. cbn. destruct (l1 ++ l2) eqn:E; [|done].
  by apply app_eq_nil in E as [_ ->].
Qed.

(** The links of a node lead to the ends of its interval. *)
Lemma interval_run h t : forall d, shape h t -> wf d t -> inhabited t ->
  getMinId h (tnode t) = Ok (first_id t) /\ getMaxId h (tnode t) = Ok (last_id t).
Proof.
  induction t as [p n cs IH] using tree_ind'. intros d Hs Hw Hin. pose proof (ids_nonempty _ _ Hw Hin) as Hne.
  inversion_clear Hw as [? ? ? ? _ _ Hws Hi Hl Hr]. unfold getMinId, getMaxId. cbn [tnode].
  assert (s_load h p = Ok n) as Hp by exact (shape_load_root _ _ Hs).
  assert (Forall (shape h) cs) as Hcs by (by inversion Hs). rewrite Hl, Hr.
  unfold first_id, last_id. rewrite ids_tree in *. unfold left_of, right_of. split.
  - destruct (isTerminalNode n) eqn:Ht; [by rewrite Hp|]. destruct cs as [|k cs]; [done|].
    inversion_clear IH as [|? ? IHk _]. inversion_clear Hws as [|? ? Hwk _]. inversion_clear Hi as [|? ? Hik _].
    inversion_clear Hcs as [|? ? Hsk _]. destruct (IHk _ Hsk Hwk Hik) as [Hk _].
    unfold getMinId in Hk. rewrite Hk. unfold first_id. cbn.
    pose proof (ids_nonempty _ _ Hwk Hik) as Hnk. by destruct (ids k).
  - destruct (last cs) as [k|] eqn:El.
    + apply last_Some in El as [l ->]. apply Forall_app in IH as [_ IH]. apply Forall_app in Hws as [_ Hws].
      apply Forall_app in Hi as [_ Hi]. apply Forall_app in Hcs as [_ Hcs]. rewrite Forall_singleton in *.
      destruct (IH _ Hcs Hws Hi) as [_ Hk]. unfold getMaxId in Hk. rewrite Hk. unfold last_id.
      pose proof (ids_nonempty _ _ Hws Hi) as Hnk. rewrite flat_map_app. cbn. rewrite app_nil_r, app_assoc.
      by rewrite last_app_ne.
    + apply last_None in El as ->. specialize (Hin eq_refl). cbn in Hin. rewrite Hin, Hp. done.
Qed.
(** ** The binary search by smallest id *)

Lemma ordered_tree p n cs : ordered (Tree p n cs) ->
  (isTerminalNode n = true -> Forall (fun i => id n < i) (flat_map ids cs)) /\ StronglySorted Z.lt (flat_map ids cs).
Proof.
  unfold ordered. rewrite ids_tree. destruct (isTerminalNode n); [|done]. cbn. by inversion_clear 1.
Qed.

Lemma sorted_firsts cs : StronglySorted Z.lt (flat_map ids cs) -> Forall (fun k => ids k <> []) cs ->
  StronglySorted Z.lt (map first_id cs).
Proof.
  induction cs as [|k cs IH]; cbn; [constructor|]. intros Hs Hne. inversion_clear Hne as [|? ? Hk Hcs].
  apply ssorted_app_inv in Hs as (Hlt & _ & Hs). constructor; [by apply IH|].
  apply List.Forall_forall. intros x (k' & <- & Hk')%in_map_iff. apply Hlt.
  - unfold first_id. destruct (ids k); [done|by left].
  - apply in_flat_map. exists k'. split; [done|]. rewrite Forall_forall in Hcs. specialize (Hcs k' ltac:(by apply list_elem_of_In)).
    unfold first_id. destruct (ids k'); [done|by left].
Qed.

(** The children up to the last whose interval starts at or below [i]. *)
Definition split_at (ks : list tree) (i : Z) (l r : list tree) : Prop :=
  ks = l ++ r /\ Forall (fun k => first_id k <= i) l /\ Forall (fun k => i < first_id k) r.

Lemma lower_loop_run h n ks i d : children_are h n (map tnode ks) -> StronglySorted Z.lt (map first_id ks) ->
  Forall (fun k => shape h k /\ wf d k /\ inhabited k) ks ->
  forall fuel first last, 0 <= first -> first <= last + 1 -> last < Z.of_nat (length ks) ->
  last - first + 1 < Z.of_nat fuel ->
  Forall (fun k => first_id k <= i) (take (Z.to_nat first) ks) ->
  Forall (fun k => i < first_id k) (drop (Z.to_nat (last + 1)) ks) ->
  exists l r, lower_loop fuel h n i first last = Ok (Z.of_nat (length l) - 1) /\ split_at ks i l r.
Proof.
  intros Hks Hs Hall. induction fuel as [|fuel IH]; intros first last Hf Hfl Hl Hfuel Hlo Hhi; [lia|].
  cbn [lower_loop]. destruct (Z.leb_spec first last).
  - set (mid := Z.quot (first + last) 2).
    assert (first <= mid <= last) as Hmid by (unfold mid; rewrite Z.quot_div_nonneg by lia; dlia).
    destruct (lookup_lt_is_Some_2 ks (Z.to_nat mid)) as [k Hk]; [lia|].
    rewrite (child_at_lookup h n _ mid (tnode k) Hks) by (try lia; by rewrite list_lookup_fmap_map, Hk). cbn [rbind].
    assert (shape h k /\ wf d k /\ inhabited k) as (Hsk & Hwk & Hik) by (rewrite Forall_lookup in Hall; eauto).
    destruct (interval_run h k d Hsk Hwk Hik) as [-> _]. cbn [rbind].
    assert (forall j x, ks !! j = Some x -> (j < Z.to_nat mid)%nat -> first_id x < first_id k) as Hlt.
    { intros j x Hx Hj. eapply (sorted_lookup _ j (Z.to_nat mid) _ _ Hs); [| |done];
        by rewrite list_lookup_fmap_map, ?Hx, ?Hk. }
    assert (forall j x, ks !! j = Some x -> (Z.to_nat mid < j)%nat -> first_id k < first_id x) as Hgt.
    { intros j x Hx Hj. eapply (sorted_lookup _ (Z.to_nat mid) j _ _ Hs); [| |done];
        by rewrite list_lookup_fmap_map, ?Hx, ?Hk. }
    destruct (Z.ltb_spec (first_id k) i) as [H1|H1].
    + apply IH; try lia; [|done]. apply Forall_lookup. intros j x Hx. apply lookup_take_Some in Hx as [Hx Hj].
      destruct (decide (j = Z.to_nat mid)) as [->|]; [simplify_eq; lia|]. specialize (Hlt j x Hx ltac:(lia)). lia.
    + destruct (Z.ltb_spec i (first_id k)) as [H2|H2].
      * apply IH; try lia; [done|]. replace (mid - 1 + 1) with mid by lia.
        apply Forall_lookup. intros j x Hx. rewrite lookup_drop in Hx.
        destruct (decide (j = 0%nat)) as [->|]; [rewrite Nat.add_0_r in Hx; by simplify_eq|].
        specialize (Hgt _ x Hx ltac:(lia)). lia.
      * exists (take (S (Z.to_nat mid)) ks), (drop (S (Z.to_nat mid)) ks). split.
        { f_equal. rewrite length_take. lia. }
        split; [by rewrite take_drop|]. split; apply Forall_lookup; intros j x Hx.
        { apply lookup_take_Some in Hx as [Hx Hj]. destruct (decide (j = Z.to_nat mid)) as [->|]; [simplify_eq; lia|].
          specialize (Hlt j x Hx ltac:(lia)). lia. }
        { rewrite lookup_drop in Hx. specialize (Hgt _ x Hx ltac:(lia)). lia. }
  - exists (take (Z.to_nat first) ks), (drop (Z.to_nat first) ks). split.
    { f_equal. rewrite length_take. lia. }
    replace (last + 1) with first in Hhi by lia. split; [by rewrite take_drop|done].
Qed.

(** The facts about a sub-tree that the descents use. *)
Record searchable (h : heap) (d : Z) (t : tree) : Prop := {
  se_shape : shape h t;
  se_wf : wf d t;
  se_ordered : ordered t }.

Lemma searchable_kid h d p n l k r : searchable h d (Tree p n (l ++ k :: r)) ->
  searchable h (d + 1) k /\ inhabited k /\ ids k <> [].
Proof.
  intros [Hs Hw Ho]. inversion_clear Hs as [? ? ? _ _ _ Hcs]. inversion_clear Hw as [? ? ? ? _ _ Hws Hi _ _].
  apply ordered_tree in Ho as [_ Ho]. rewrite flat_map_app in Ho. cbn in Ho.
  apply ssorted_app_inv in Ho as (_ & _ & Ho). apply ssorted_app_inv in Ho as (_ & Ho & _).
  rewrite Forall_app, Forall_cons in Hcs, Hws, Hi. destruct Hcs as (_ & Hsk & _), Hws as (_ & Hwk & _), Hi as (_ & Hik & _).
  split; [by split|]. split; [done|]. by eapply ids_nonempty.
Qed.

Lemma searchable_kids h d p n cs : searchable h d (Tree p n cs) ->
  Forall (fun k => shape h k /\ wf (d + 1) k /\ inhabited k) cs /\ Forall (fun k => ids k <> []) cs.
Proof.
  intros Hse. split; apply Forall_forall; intros k Hk; apply list_elem_of_split in Hk as (l & r & ->);
    destruct (searchable_kid _ _ _ _ _ _ _ Hse) as ([] & ? & ?); done.
Qed.

Lemma lower_child_run h d p n cs i : searchable h d (Tree p n cs) ->
  exists l r, findLowerBoundChildByMinId h n i = Ok (match last l with Some k => tptr k | None => NULL end) /\
    split_at cs i l r.
Proof.
  intros Hse. destruct (searchable_kids _ _ _ _ _ Hse) as [Hall Hne]. pose proof (se_shape _ _ _ Hse) as Hs.
  pose proof (kids_children _ _ Hs) as Hks. cbn [tnode kids] in Hks.
  destruct (ordered_tree _ _ _ (se_ordered _ _ _ Hse)) as [_ Hsort].
  assert (length (childrenPointerList n) = length cs) as Hlen by (by rewrite (children_length _ _ _ Hks), length_map).
  destruct (lower_loop_run h n cs i (d + 1) Hks (sorted_firsts _ Hsort Hne) Hall (S (length cs)) 0 (Z.of_nat (length cs) - 1))
    as (l & r & Hr & Hsp); try lia; [constructor|rewrite drop_ge by lia; constructor|].
  exists l, r. split; [|done]. unfold findLowerBoundChildByMinId, findLowerBoundChildNodePositionByMinId, getChildrenCount.
  rewrite Hlen, Hr. cbn [rbind]. destruct (Z.leb_spec 0 (Z.of_nat (length l) - 1)) as [H|H].
  - destruct (exists_last (l := l)) as (l' & k & ->); [intros ->; cbn in H; lia|].
    rewrite last_snoc. unfold getChild. rewrite length_app. cbn [length].
    assert (childrenPointerList n = map tptr cs) as -> by (by inversion Hs). destruct Hsp as [-> _].
    apply vec_at_nth. split; [lia|]. rewrite list_lookup_fmap_map, <- app_assoc. cbn.
    replace (Z.to_nat _) with (length l') by lia. by rewrite list_lookup_middle.
  - destruct l; [done|cbn in H; lia].
Qed.

(** The child that contains an id is the one the search finds. *)
Lemma ids_in_interval k i : StronglySorted Z.lt (ids k) -> In i (ids k) -> first_id k <= i <= last_id k.
Proof.
  unfold first_id, last_id. generalize (ids k). intros l Hs Hin. split.
  - destruct l as [|x l]; [done|]. cbn. inversion_clear Hs as [|? ? _ Hx]. rewrite List.Forall_forall in Hx.
    destruct Hin as [->|Hin]; [lia|]. specialize (Hx i Hin). lia.
  - induction Hs as [|x l Hs IH Hx]; [done|]. rewrite List.Forall_forall in Hx. destruct Hin as [->|Hin].
    + destruct l as [|y l]; [cbn; lia|]. assert (In (List.last (y :: l) 0) (y :: l)) as H.
      { destruct (exists_last (l := y :: l)) as (l' & z & ->); [done|]. rewrite last_last, in_app_iff. right. by left. }
      specialize (Hx _ H). change (List.last (i :: y :: l) 0) with (List.last (y :: l) 0). lia.
    + destruct l as [|y l]; [done|]. by apply IH.
Qed.

Lemma lower_child_contains h d p n l0 k r0 i : searchable h d (Tree p n (l0 ++ k :: r0)) ->
  (forall j, In j (ids k) -> first_id k <= i) -> (forall k' j, In k' r0 -> In j (ids k') -> i < j) ->
  findLowerBoundChildByMinId h n i = Ok (tptr k).
Proof.
  intros Hse Hlo Hhi. destruct (lower_child_run _ _ _ _ _ i Hse) as (l & r & -> & E & Hl & Hr).
  destruct (searchable_kids _ _ _ _ _ Hse) as [_ Hne].
  assert (l = l0 ++ [k] /\ r = r0) as [-> ->]; [|by rewrite last_snoc].
  destruct (searchable_kid _ _ _ _ _ _ _ Hse) as (Hsek & _ & Hnek).
  assert (first_id k <= i) as Hki by (destruct (ids k) as [|j ?] eqn:Ei; [done|]; apply (Hlo j); by left).
  assert (Forall (fun k' => i < first_id k') r0) as Hr0.
  { apply Forall_app in Hne as [_ Hne]. inversion_clear Hne as [|? ? _ Hne']. rewrite Forall_forall in Hne' |- *.
    intros k' Hk'. specialize (Hne' k' Hk'). apply (Hhi k'); [by apply list_elem_of_In|]. unfold first_id.
    destruct (ids k'); [done|by left]. }
  clear -E Hl Hr Hki Hr0. revert l E Hl. induction l0 as [|x l0 IH]; intros l E Hl.
  - destruct l as [|y l]; cbn in E; [subst r; inversion Hr; lia|]. injection E as <- E.
    destruct l as [|z l]; [by cbn in E; subst|]. exfalso. cbn in E. subst r0. inversion Hr0; subst.
    inversion Hl as [|? ? _ Hl']; subst. inversion Hl'; subst. lia.
  - destruct l as [|y l]; cbn in E.
    + exfalso. subst r. inversion_clear Hr as [|? ? _ Hr']. apply Forall_app in Hr' as [_ Hr']. inversion Hr'; subst. lia.
    + injection E as <- E. inversion_clear Hl. destruct (IH l E) as [-> ->]; done.
Qed.
(** ** Descents to a node of the tree *)

Lemma plug_snoc ctx f k : plug (ctx ++ [f]) k = fill f (plug ctx k).
Proof. by rewrite plug_app. Qed.

Lemma searchable_fill h d f k : searchable h d (fill f k) -> searchable h (d + 1) k /\ inhabited k.
Proof. intros H. by destruct (searchable_kid _ _ _ _ _ _ _ H) as (? & ? & _). Qed.

Lemma searchable_plug h ctx k : forall d, searchable h d (plug ctx k) -> searchable h (d + Z.of_nat (length ctx)) k.
Proof.
  induction ctx as [|f ctx IH] using rev_ind; intros d Hse; [by rewrite Z.add_0_r|].
  rewrite plug_snoc in Hse. destruct (searchable_fill _ _ _ _ Hse) as [Hse' _]. apply IH in Hse'.
  rewrite length_app. cbn [length]. by replace (d + _) with (d + 1 + Z.of_nat (length ctx)) by lia.
Qed.

Lemma plug_inhabited h ctx k : ctx <> [] -> forall d, searchable h d (plug ctx k) -> inhabited k.
Proof.
  intros Hne d Hse. destruct ctx as [|f ctx]; [done|]. cbn [plug] in Hse. apply searchable_plug in Hse.
  by destruct (searchable_fill _ _ _ _ Hse).
Qed.

Lemma ids_fill f k : ids (fill f k) = (if isTerminalNode (fnode f) then [id (fnode f)] else []) ++
  flat_map ids (fleft f) ++ ids k ++ flat_map ids (fright f).
Proof. unfold fill. by rewrite ids_tree, flat_map_app. Qed.

(** The search at the node above [k] for an id below [k] goes to [k]. *)
Lemma step_run h d f k i : searchable h d (fill f k) -> In i (ids k) ->
  findLowerBoundChildByMinId h (fnode f) i = Ok (tptr k).
Proof.
  intros Hse Hi. pose proof (se_ordered _ _ _ Hse) as Ho. unfold ordered in Ho. rewrite ids_fill in Ho.
  apply ssorted_app_inv in Ho as (_ & _ & Ho). apply ssorted_app_inv in Ho as (_ & _ & Ho).
  apply ssorted_app_inv in Ho as (Hlt & Hk & _).
  apply (lower_child_contains h d (fptr f) (fnode f) (fleft f) k (fright f)); [done| |].
  - intros _ _. apply (ids_in_interval k i Hk Hi).
  - intros k' j Hk' Hj. apply Hlt; [done|]. apply in_flat_map. eauto.
Qed.

Lemma load_fill h d f k : searchable h d (fill f k) -> s_load h (fptr f) = Ok (fnode f) /\ fptr f <> NULL.
Proof. intros [Hs _ _]. by inversion Hs; subst; split; [exact (shape_load_root h (fill f k) Hs)|]. Qed.

Lemma root_run h d k : searchable h d k -> inhabited k ->
  s_load h (tptr k) = Ok (tnode k) /\ tptr k <> NULL /\ getMinId h (tnode k) = Ok (first_id k) /\
  getMaxId h (tnode k) = Ok (last_id k) /\ getDepth (tnode k) = d /\ ids k <> [].
Proof.
  intros [Hs Hw _] Hi. destruct (interval_run h k d Hs Hw Hi) as [Ha Hb].
  split; [by apply shape_load_root|]. split; [by eapply shape_nonnull|]. do 2 (split; [done|]).
  split; [by inversion Hw|]. by eapply ids_nonempty.
Qed.

Lemma in_ids_plug i ctx k : In i (ids k) -> In i (ids (plug ctx k)).
Proof.
  revert k. induction ctx as [|f ctx IH]; intros k Hi; [done|]. cbn [plug]. apply IH.
  rewrite ids_fill, !in_app_iff. tauto.
Qed.

Lemma first_id_in k : ids k <> [] -> In (first_id k) (ids k).
Proof. unfold first_id. destruct (ids k); [done|]. by left. Qed.
Lemma last_id_in k : ids k <> [] -> In (last_id k) (ids k).
Proof.
  intros H. unfold last_id. destruct (exists_last H) as (l & x & ->). rewrite last_last. apply in_app_iff. right. by left.
Qed.

Lemma first_terminal p n cs : isTerminalNode n = true -> first_id (Tree p n cs) = id n.
Proof. unfold first_id. rewrite ids_tree. by intros ->. Qed.

(** The first id of a terminal node is not below a child. *)
Lemma terminal_above h d f k i : searchable h d (fill f k) -> In i (ids k) -> isTerminalNode (fnode f) = true ->
  first_id (fill f k) < i.
Proof.
  intros Hse Hi Ht. unfold fill. rewrite first_terminal by done.
  destruct (ordered_tree _ _ _ (se_ordered _ _ _ Hse)) as [H _]. specialize (H Ht). rewrite Forall_forall in H.
  apply H, list_elem_of_In. rewrite flat_map_app, in_app_iff. right. cbn. apply in_app_iff. by left.
Qed.

Lemma pchoice_null (p : ptr) A (a b : A) : p <> NULL -> (if bool_decide (p = NULL) then a else b) = b.
Proof. intros H. by rewrite bool_decide_eq_false_2. Qed.

(** Inside the context, the keyword that is searched is not the node passed. *)
Lemma pass_run h d ctx k f : searchable h d (fill f (plug ctx k)) -> ctx <> [] ->
  isTerminalNode (tnode k) = true ->
  exists m, s_load h (tptr (plug ctx k)) = Ok m /\ tptr (plug ctx k) <> NULL /\
    getMinId h m = Ok (first_id (plug ctx k)) /\
    isTerminalNode m && (id (tnode k) =? first_id (plug ctx k)) = false.
Proof.
  intros Hse Hne Ht. destruct (searchable_fill _ _ _ _ Hse) as [Hse' Hin].
  destruct (root_run _ _ _ Hse' Hin) as (Hl & Hnn & Hmn & _ & _ & _). exists (tnode (plug ctx k)).
  split; [done|]. split; [done|]. split; [done|].
  destruct (exists_last Hne) as (ctx' & g & ->). rewrite plug_snoc in *. cbn [tnode fill].
  destruct (isTerminalNode (fnode g)) eqn:Eg; [|done]. cbn.
  assert (In (id (tnode k)) (ids k)) as Hk by (destruct k as [p n cs]; rewrite ids_tree; cbn in Ht |- *; rewrite Ht; by left).
  pose proof (terminal_above _ _ _ _ (id (tnode k)) Hse' (in_ids_plug _ _ _ Hk) Eg).
  by destruct (Z.eqb_spec (id (tnode k)) (first_id (fill g (plug ctx' k)))); [lia|].
Qed.

Lemma keyword_found h ctx k : ctx <> [] -> isTerminalNode (tnode k) = true ->
  forall d fuel, searchable h d (plug ctx k) -> (length ctx <= fuel)%nat ->
  getKeywordMinMaxIdLength fuel h (tptr (plug ctx k)) (id (tnode k)) =
    Ok (id (tnode k), last_id k, d + Z.of_nat (length ctx)).
Proof.
  intros Hne Ht. induction ctx as [|f ctx IH] using rev_ind; intros d fuel Hse Hf; [done|]. clear Hne.
  rewrite length_app in *. cbn [length] in *. destruct fuel as [|fuel]; [lia|]. rewrite plug_snoc in *.
  destruct (load_fill _ _ _ _ Hse) as [Hl Hnn]. cbn [getKeywordMinMaxIdLength tptr fill]. rewrite pchoice_null by done.
  rewrite Hl. cbn [rbind].
  assert (In (id (tnode k)) (ids k)) as Hk by (destruct k as [p n cs]; rewrite ids_tree; cbn in Ht |- *; rewrite Ht; by left).
  rewrite (step_run h d f (plug ctx k)) by (try done; by apply in_ids_plug). cbn [rbind].
  destruct (decide (ctx = [])) as [->|Hne].
  - cbn [plug length Nat.add] in *. destruct (searchable_fill _ _ _ _ Hse) as [Hse' Hin].
    destruct (root_run _ _ _ Hse' Hin) as (Hlk & Hnk & Hmn & Hmx & Hd & _).
    rewrite pchoice_null by done. rewrite Hlk. cbn [rbind]. rewrite Hmn. cbn [rbind]. rewrite Ht.
    assert (first_id k = id (tnode k)) as -> by (destruct k; by apply first_terminal).
    rewrite Z.eqb_refl. cbn [andb]. rewrite Hmx. cbn [rbind]. rewrite Hd. do 2 f_equal; lia.
  - destruct (pass_run _ _ _ _ _ Hse Hne Ht) as (m & Hlm & Hnm & Hmn & Hb). rewrite pchoice_null by done.
    rewrite Hlm. cbn [rbind]. rewrite Hmn. cbn [rbind]. rewrite Hb.
    destruct (searchable_fill _ _ _ _ Hse) as [Hse' _]. rewrite (IH Hne (d + 1)) by (done || lia). do 2 f_equal; lia.
Qed.

(** ** The place of a word in the tree *)

Lemma ctx_word_snoc ctx f k : ctx_word (ctx ++ [f]) (tchar k) = tchar (plug ctx k) :: ctx_word ctx (tchar k).
Proof.
  revert k. induction ctx as [|g ctx IH]; intros k; [done|]. cbn [app ctx_word plug].
  change (character (fnode g)) with (tchar (fill g k)). by rewrite IH.
Qed.

Lemma length_ctx_word ctx c : length (ctx_word ctx c) = length ctx.
Proof. revert c. induction ctx as [|f ctx IH]; intros c; [done|]. cbn. rewrite length_app, IH. cbn. lia. Qed.

Lemma subtree_place w : forall t k, subtree t w = Some k -> exists ctx, t = plug ctx k /\ ctx_word ctx (tchar k) = w.
Proof.
  induction w as [|c w IH]; intros t k H; cbn in H; [injection H as ->; by exists []|].
  destruct (List.find _ (kids t)) as [x|] eqn:E; [|done]. apply find_some in E as [Hx Hc]. apply Z.eqb_eq in Hc as <-.
  destruct (IH x k H) as (ctx & -> & <-). apply in_split in Hx as (l & r & Hk). destruct t as [p n cs]. cbn in Hk. subst cs.
  exists (ctx ++ [mk_frame p n l r]). by rewrite plug_snoc, ctx_word_snoc.
Qed.

Lemma subtree_plug ctx k : forall d, wf d (plug ctx k) -> subtree (plug ctx k) (ctx_word ctx (tchar k)) = Some k.
Proof.
  induction ctx as [|f ctx IH] using rev_ind; intros d Hw; [done|]. rewrite plug_snoc in *. rewrite ctx_word_snoc.
  pose proof (wf_kids _ _ Hw) as Hs. cbn [subtree kids fill] in *. rewrite kid_present by done.
  inversion_clear Hw as [? ? ? ? _ _ Hws]. rewrite Forall_app, Forall_cons in Hws. destruct Hws as (_ & Hw & _). by eapply IH.
Qed.

Lemma height_plug ctx k : (length ctx + height k <= height (plug ctx k))%nat.
Proof.
  revert k. induction ctx as [|f ctx IH]; intros k; [done|]. cbn [plug length]. specialize (IH (fill f k)).
  assert (height k < height (fill f k))%nat; [|lia]. cbn. apply Nat.lt_succ_r. apply height_kid. set_solver.
Qed.

Definition extends (w v : list Z) : Prop := exists u, v = w ++ u.

(** The words outside the hole do not extend the word of the hole. *)
Lemma before_not_under ctx c d : ctx_ok d ctx c -> Forall (fun e => ~ extends (ctx_word ctx c) e.1) (before ctx c).
Proof.
  revert c d. induction ctx as [|f ctx IH]; intros c d Hok; cbn [before ctx_word]; [constructor|].
  destruct Hok as [Hf Hok]. apply Forall_app. split.
  - eapply Forall_impl; [exact (IH _ _ Hok)|]. intros e He (u & Hu). apply He. exists (c :: u). by rewrite Hu, <- app_assoc.
  - apply Forall_forall. intros e He (u & Hu). apply list_elem_of_In, in_map_iff in He as (e' & <- & He). cbn in Hu.
    rewrite <- app_assoc in Hu. apply app_inv_head in Hu. apply in_app_iff in He as [He|He].
    + unfold own in He. destruct (isTerminalNode (fnode f)); [|done]. by destruct He as [<-|[]].
    + apply in_flat_map in He as (k & Hk & He). apply in_map_iff in He as (e'' & <- & _). cbn in Hu.
      injection Hu as Hc _. pose proof (fo_sorted _ _ _ Hf) as (Hlt & _)%ssorted_app_inv.
      specialize (Hlt (tchar k) c (in_map tchar _ _ Hk) ltac:(by left)). lia.
Qed.

Lemma after_not_under ctx c d : ctx_ok d ctx c -> Forall (fun e => ~ extends (ctx_word ctx c) e.1) (after ctx c).
Proof.
  revert c d. induction ctx as [|f ctx IH]; intros c d Hok; cbn [after ctx_word]; [constructor|].
  destruct Hok as [Hf Hok]. apply Forall_app. split.
  - apply Forall_forall. intros e He (u & Hu). apply list_elem_of_In, in_map_iff in He as (e' & <- & He). cbn in Hu.
    rewrite <- app_assoc in Hu. apply app_inv_head in Hu.
    apply in_flat_map in He as (k & Hk & He). apply in_map_iff in He as (e'' & <- & _). cbn in Hu. injection Hu as Hc _.
    pose proof (fo_sorted _ _ _ Hf) as (_ & _ & Hs)%ssorted_app_inv. inversion_clear Hs as [|? ? _ Hlt].
    rewrite List.Forall_forall in Hlt. specialize (Hlt (tchar k) (in_map tchar _ _ Hk)). lia.
  - eapply Forall_impl; [exact (IH _ _ Hok)|]. intros e He (u & Hu). apply He. exists (c :: u). by rewrite Hu, <- app_assoc.
Qed.

Lemma ids_plug ctx k : ids (plug ctx k) =
  map (fun e => e.2.1) (before ctx (tchar k)) ++ ids k ++ map (fun e => e.2.1) (after ctx (tchar k)).
Proof.
  unfold ids at 1. rewrite entries_plug, !map_app. f_equal. f_equal. unfold ids. by rewrite map_map.
Qed.

(** The interval of a node holds the ids of the words that extend its word. *)
Lemma interval_words h ctx k : searchable h 0 (plug ctx k) -> ids k <> [] ->
  forall v j o, In (v, (j, o)) (entries (plug ctx k)) ->
  (first_id k <= j <= last_id k <-> extends (ctx_word ctx (tchar k)) v).
Proof.
  intros Hse Hne v j o Hin. pose proof (se_ordered _ _ _ Hse) as Ho. unfold ordered in Ho. rewrite ids_plug in Ho.
  pose proof (se_wf _ _ _ Hse) as Hw. apply wf_plug in Hw as (d & Hok & _).
  apply ssorted_app_inv in Ho as (Hlt & _ & Ho). apply ssorted_app_inv in Ho as (Hgt & Hk & _).
  rewrite entries_plug, !in_app_iff in Hin. destruct Hin as [Hin|[Hin|Hin]].
  - pose proof (before_not_under _ _ _ Hok) as Hb. rewrite List.Forall_forall in Hb. specialize (Hb _ Hin). cbn in Hb.
    split; [|done]. intros [Hj _]. exfalso. apply (in_map (fun e => e.2.1)) in Hin. cbn in Hin.
    specialize (Hlt j (first_id k) Hin ltac:(apply in_app_iff; left; by apply first_id_in)). lia.
  - apply in_map_iff in Hin as ([u [j' o']] & E & Hin). unfold under in E. cbn in E. simplify_eq.
    split; [intros _; by exists u|]. intros _. apply ids_in_interval; [done|]. by apply (in_map (fun e => e.2.1)) in Hin.
  - pose proof (after_not_under _ _ _ Hok) as Hb. rewrite List.Forall_forall in Hb. specialize (Hb _ Hin). cbn in Hb.
    split; [|done]. intros [_ Hj]. exfalso. apply (in_map (fun e => e.2.1)) in Hin. cbn in Hin.
    specialize (Hgt (last_id k) j (last_id_in _ Hne) Hin). lia.
Qed.

(** The sub-trees passed from the root to the hole, the root first. *)
Fixpoint above (ctx : list frame) (k : tree) : list tree :=
  match ctx with [] => [] | f :: ctx' => above ctx' (fill f k) ++ [fill f k] end.

Lemma above_snoc ctx f k : above (ctx ++ [f]) k = fill f (plug ctx k) :: above ctx k.
Proof. revert k. induction ctx as [|g ctx IH]; intros k; [done|]. cbn [app above plug]. by rewrite IH. Qed.

Lemma length_above ctx k : length (above ctx k) = length ctx.
Proof. revert k. induction ctx as [|f ctx IH]; intros k; [done|]. cbn. rewrite length_app, IH. cbn. lia. Qed.

(** The variant of the write view finds what the other finds. *)
Lemma write_view_run fuel h r i : forall p, getKeywordMinMaxIdLength fuel h p i = Ok r ->
  getKeywordMinMaxIdLength_WriteView fuel h p i = Ok r.
Proof.
  induction fuel as [|fuel IH]; intros p H; cbn in H |- *; destruct (bool_decide (p = NULL)); try done.
  destruct (s_load h p) as [n|]; [|done]. cbn [rbind] in *.
  destruct (findLowerBoundChildByMinId h n i) as [q|]; [|done]. cbn [rbind] in *.
  destruct (bool_decide (q = NULL)); [done|]. destruct (s_load h q) as [m|]; [|done]. cbn [rbind] in *.
  destruct (getMinId h m); [|done]. cbn [rbind] in *. destruct (_ && _); [done|by apply IH].
Qed.

Lemma path_found h ctx k : ctx <> [] -> isTerminalNode (tnode k) = true ->
  forall d fuel acc, searchable h d (plug ctx k) -> (length ctx <= fuel)%nat ->
  path_loop fuel h (tptr (plug ctx k)) (id (tnode k)) acc = Ok (acc ++ map tptr (above ctx k) ++ [tptr k]).
Proof.
  intros Hne Ht. induction ctx as [|f ctx IH] using rev_ind; intros d fuel acc Hse Hf; [done|]. clear Hne.
  rewrite length_app in *. cbn [length] in *. destruct fuel as [|fuel]; [lia|]. rewrite plug_snoc, above_snoc in *.
  destruct (load_fill _ _ _ _ Hse) as [Hl Hnn]. cbn [path_loop tptr fill map]. rewrite pchoice_null by done.
  rewrite Hl. cbn [rbind].
  assert (In (id (tnode k)) (ids k)) as Hk by (destruct k as [p n cs]; rewrite ids_tree; cbn in Ht |- *; rewrite Ht; by left).
  rewrite (step_run h d f (plug ctx k)) by (try done; by apply in_ids_plug). cbn [rbind].
  destruct (decide (ctx = [])) as [->|Hne].
  - cbn [plug length Nat.add above map app] in *. destruct (searchable_fill _ _ _ _ Hse) as [Hse' Hin].
    destruct (root_run _ _ _ Hse' Hin) as (Hlk & Hnk & Hmn & _).
    rewrite pchoice_null by done. rewrite Hlk. cbn [rbind]. rewrite Hmn. cbn [rbind]. rewrite Ht.
    assert (first_id k = id (tnode k)) as -> by (destruct k; by apply first_terminal). by rewrite Z.eqb_refl.
  - destruct (pass_run _ _ _ _ _ Hse Hne Ht) as (m & Hlm & Hnm & Hmn & Hb). rewrite pchoice_null by done.
    rewrite Hlm. cbn [rbind]. rewrite Hmn. cbn [rbind]. rewrite Hb.
    destruct (searchable_fill _ _ _ _ Hse) as [Hse' _]. rewrite (IH Hne (d + 1)) by (done || lia). by rewrite <- app_assoc.
Qed.

(** One step of the search for an id that the node does not have. *)
Lemma missing_step h d p n cs i : searchable h d (Tree p n cs) -> ~ In i (ids (Tree p n cs)) ->
  findLowerBoundChildByMinId h n i = Ok NULL \/
  exists k, k ∈ cs /\ findLowerBoundChildByMinId h n i = Ok (tptr k) /\ tptr k <> NULL /\ s_load h (tptr k) = Ok (tnode k) /\
    searchable h (d + 1) k /\ ~ In i (ids k) /\
    exists mn, getMinId h (tnode k) = Ok mn /\ isTerminalNode (tnode k) && (i =? mn) = false.
Proof.
  intros Hse Hi. destruct (lower_child_run _ _ _ _ _ i Hse) as (l & r & -> & -> & _ & _).
  destruct (last l) as [k|] eqn:El; [right|by left]. apply last_Some in El as [l' ->]. rewrite <- app_assoc in *. cbn [app] in *.
  destruct (searchable_kid _ _ _ _ _ _ _ Hse) as (Hsek & Hink & _).
  destruct (root_run _ _ _ Hsek Hink) as (Hlk & Hnk & Hmn & _ & _ & Hne).
  assert (~ In i (ids k)) as Hik.
  { intros Hik. apply Hi. rewrite ids_tree, flat_map_app, !in_app_iff. cbn. rewrite in_app_iff. tauto. }
  exists k. split; [set_solver|]. do 5 (split; [done|]). exists (first_id k). split; [done|].
  destruct (Z.eqb_spec i (first_id k)) as [->|_]; [by destruct Hik; apply first_id_in|]. by rewrite andb_false_r.
Qed.

Lemma keyword_missing h i t : ~ In i (ids t) -> forall d fuel acc, searchable h d t -> (height t <= fuel)%nat ->
  getKeywordMinMaxIdLength fuel h (tptr t) i = Err AssertFailed /\
  getKeywordMinMaxIdLength_WriteView fuel h (tptr t) i = Ok (0, MAX_ALLOCATED_KEYWORD_ID, 0) /\
  path_loop fuel h (tptr t) i acc = Ok [].
Proof.
  induction t as [p n cs IH] using tree_ind'. intros Hi d fuel acc Hse Hf. destruct fuel as [|fuel]; [cbn in Hf; lia|].
  apply height_kids in Hf. pose proof (se_shape _ _ _ Hse) as Hs.
  cbn [getKeywordMinMaxIdLength getKeywordMinMaxIdLength_WriteView path_loop tptr].
  pose proof (shape_nonnull _ _ Hs) as Hnn. cbn [tptr] in Hnn. rewrite !pchoice_null by done.
  pose proof (shape_load_root _ _ Hs) as Hl. cbn [tptr tnode] in Hl. rewrite Hl. cbn [rbind].
  destruct (missing_step _ _ _ _ _ i Hse Hi) as [->|(k & Hin & -> & Hnk & Hlk & Hsek & Hik & mn & Hmn & Hb)]; [done|].
  cbn [rbind]. rewrite !pchoice_null by done. rewrite Hlk. cbn [rbind]. rewrite Hmn. cbn [rbind]. rewrite Hb.
  rewrite Forall_forall in IH, Hf. by apply (IH k Hin Hik (d + 1)); [|apply Hf].
Qed.

(** A keyword is found by its id: on a trie whose ids grow with the words,
    the id of the keyword [w] leads to its interval and its length, and the
    interval holds just the ids of the keywords that extend [w]; the path query
    gives the nodes from the root to the one [getTrieNode] finds for [w].  An id
    of no keyword ends in the assertion, in the default of the write-view variant
    and in the empty path. *)
Theorem keyword_by_id (h : heap) (t : tree) (fuel : nat) (i : Z) :
  searchable h 0 t -> isTerminalNode (tnode t) = false -> (height t <= fuel)%nat ->
  (forall w o, In (w, (i, o)) (entries t) -> exists mx p l,
    getKeywordMinMaxIdLength fuel h (tptr t) i = Ok (i, mx, Z.of_nat (length w)) /\
    getKeywordMinMaxIdLength_WriteView fuel h (tptr t) i = Ok (i, mx, Z.of_nat (length w)) /\
    (forall v j o', In (v, (j, o')) (entries t) -> (i <= j <= mx <-> extends w v)) /\
    getTrieNode h (tptr t) w = Ok p /\
    getKeywordCorrespondingPathToTrieNode_WriteView fuel h (tptr t) i = Ok (tptr t :: l) /\
    last l = Some p /\ length l = length w) /\
  (~ In i (ids t) ->
    getKeywordMinMaxIdLength fuel h (tptr t) i = Err AssertFailed /\
    getKeywordMinMaxIdLength_WriteView fuel h (tptr t) i = Ok (0, MAX_ALLOCATED_KEYWORD_ID, 0) /\
    getKeywordCorrespondingPathToTrieNode_WriteView fuel h (tptr t) i = Ok []).
Proof.
  intros Hse Hroot Hf. split; [|intros Hi; by eapply keyword_missing].
  intros w o Hin. apply (entries_subtree 0) in Hin as (k & Hk & Ht & [= -> ->]); [|apply Hse].
  destruct (getTrieNode_run w h 0 t) as [Hget _]; [apply Hse|apply Hse|]. rewrite Hk in Hget.
  apply subtree_place in Hk as (ctx & -> & <-). rewrite length_ctx_word. pose proof (height_plug ctx k).
  assert (ctx <> []) as Hne by (intros ->; cbn in Hroot; congruence).
  assert (ids k <> []) as Hnk by (destruct k; rewrite ids_tree; cbn in Ht; by rewrite Ht).
  pose proof (keyword_found h ctx k Hne Ht 0 fuel Hse ltac:(lia)) as Hfound.
  exists (last_id k), (tptr k), (tail (map tptr (above ctx k)) ++ [tptr k]).
  split; [exact Hfound|]. split; [by apply write_view_run|]. split; [|split; [done|split; [|split]]].
  - assert (first_id k = id (tnode k)) as <- by (destruct k; by apply first_terminal). by eapply interval_words.
  - unfold getKeywordCorrespondingPathToTrieNode_WriteView.
    rewrite (path_found h ctx k Hne Ht 0) by (done || lia). destruct (exists_last Hne) as (ctx' & f & ->).
    rewrite plug_snoc, above_snoc. by destruct f.
  - apply last_snoc.
  - destruct (exists_last Hne) as (ctx' & f & ->). rewrite above_snoc. cbn [map tail].
    rewrite !length_app, length_map, length_above. cbn. lia.
Qed.

(** The example of a committed trie. *)
Lemma loaded_demo_searchable : searchable (nodes loaded_demo) 0 loaded_demo_read.
Proof.
  split; [apply (read_tree_shape 9 _ 2%N); vm_compute; reflexivity|apply wfb_sound; vm_compute; reflexivity|].
  apply increasing_sorted. vm_compute. reflexivity.
Qed.

Lemma keyword_by_id_witness :
  getKeywordMinMaxIdLength 9 (nodes loaded_demo) (tptr loaded_demo_read) 1 = Err AssertFailed.
Proof.
  destruct (keyword_by_id (nodes loaded_demo) loaded_demo_read 9 1) as [_ H].
  - exact loaded_demo_searchable.
  - vm_compute. reflexivity.
  - vm_compute. repeat constructor.
  - refine (proj1 (H _)). assert (E : ids loaded_demo_read = [536862720; 1073725440; 1610588160]) by (vm_compute; reflexivity).
    rewrite E. intros [H1|[H1|[H1|[]]]]; discriminate H1.
Defined.

(** ** The string of a node *)

Lemma list_insert_mid {A} (l : list A) x y r : <[length l := y]> (l ++ x :: r) = l ++ y :: r.
Proof. induction l as [|z l IH]; [done|]. cbn. by rewrite <- IH. Qed.

Lemma string_run h ctx k : inhabited k -> ids k <> [] ->
  forall d fuel done, searchable h d (plug ctx k) -> inhabited (plug ctx k) -> (length ctx <= fuel)%nat ->
  d = Z.of_nat (length done) ->
  string_loop fuel h (tptr (plug ctx k)) (first_id k) (d + Z.of_nat (length ctx))
    (done ++ replicate (length ctx) 0) = Ok (done ++ ctx_word ctx (tchar k)).
Proof.
  intros Hik Hnk. induction ctx as [|f ctx IH] using rev_ind; intros d fuel done Hse Hin Hf Hd.
  - destruct (root_run _ _ _ Hse Hin) as (Hl & _ & _ & _ & Hdk & _). cbn [plug length] in *.
    assert (forall fu, string_loop fu h (tptr k) (first_id k) (d + Z.of_nat 0) (done ++ replicate 0 0) = Ok (done ++ [])) as H.
    { intros fu. destruct fu; cbn [string_loop]; rewrite Hl; cbn [rbind]; rewrite Hdk;
        (destruct (Z.ltb_spec d (d + Z.of_nat 0)); [lia|done]). }
    apply H.
  - rewrite length_app in *. cbn [length] in *. destruct fuel as [|fuel]; [lia|]. rewrite plug_snoc in *.
    destruct (root_run _ _ _ Hse Hin) as (Hl & _ & _ & _ & Hdf & _). cbn [string_loop]. rewrite Hl. cbn [rbind].
    rewrite Hdf. destruct (Z.ltb_spec d (d + Z.of_nat (length ctx + 1))); [|lia].
    cbn [tnode fill]. rewrite (step_run h d f (plug ctx k)) by (try done; by apply in_ids_plug, first_id_in). cbn [rbind].
    destruct (searchable_fill _ _ _ _ Hse) as [Hse' Hin'].
    destruct (root_run _ _ _ Hse' Hin') as (Hlk & Hnn & _ & _ & Hdk & _). rewrite pchoice_null by done. rewrite Hlk. cbn [rbind].
    rewrite Hdk. destruct (Z.ltb_spec (d + Z.of_nat (length ctx + 1)) (d + 1)); [lia|].
    replace (d + 1 - 1) with (Z.of_nat (length done)) by lia. unfold vec_set.
    rewrite length_app, length_replicate. destruct (Z.leb_spec 0 (Z.of_nat (length done))); [|lia].
    destruct (Z.ltb_spec (Z.of_nat (length done)) (Z.of_nat (length done + (length ctx + 1)))); [|lia]. cbn [andb rbind].
    rewrite Nat2Z.id, Nat.add_1_r. cbn [replicate]. rewrite list_insert_mid.
    rewrite ctx_word_snoc. specialize (IH (d + 1) fuel (done ++ [tchar (plug ctx k)])).
    rewrite length_app, <- !app_assoc in IH. cbn [length app] in IH.
    replace (d + Z.of_nat (S (length ctx))) with (d + 1 + Z.of_nat (length ctx)) by lia. apply IH; [done|done|lia|lia].
Qed.

Lemma prefix_string_run h ctx k fuel : searchable h 0 (plug ctx k) -> inhabited (plug ctx k) ->
  (length ctx <= fuel)%nat -> getPrefixString fuel h (tptr (plug ctx k)) (tptr k) = Ok (ctx_word ctx (tchar k)).
Proof.
  intros Hse Hin Hf. assert (inhabited k) as Hik.
  { destruct ctx as [|f ctx]; [done|]. by eapply (plug_inhabited h (f :: ctx)). }
  destruct (root_run _ _ _ (searchable_plug _ _ _ _ Hse) Hik) as (Hl & Hnn & Hmn & _ & Hd & Hne).
  unfold getPrefixString. rewrite pchoice_null by done. rewrite Hl. cbn [rbind]. rewrite Hmn. cbn [rbind]. rewrite Hd.
  rewrite Z.add_0_l, Nat2Z.id. by apply (string_run h ctx k Hik Hne 0 fuel []).
Qed.

(** The string of a node: the node that [getTrieNode] finds for a word has
    that word as its [getPrefixString], for every prefix of a keyword, the empty
    one included. *)
Theorem prefix_string (h : heap) (t : tree) (fuel : nat) (w : list Z) :
  searchable h 0 t -> inhabited t -> (height t <= fuel)%nat ->
  exists p, getTrieNode h (tptr t) w = Ok p /\
    (p = NULL <-> ~ exists e, In e (entries t) /\ extends w e.1) /\
    (p <> NULL -> getPrefixString fuel h (tptr t) p = Ok w).
Proof.
  intros Hse Hin Hf. destruct (getTrieNode_run w h 0 t) as [Hget Hsub]; [apply Hse|apply Hse|].
  rewrite Hget. eexists. split; [reflexivity|]. destruct (subtree t w) as [k|] eqn:E.
  - specialize (Hsub k eq_refl). pose proof (shape_nonnull _ _ Hsub).
    apply subtree_place in E as (ctx & -> & <-). split; [split; [done|]|].
    + intros Hno. destruct Hno. assert (ids k <> []) as Hk.
      { assert (inhabited k) as Hik.
        { destruct ctx as [|f ctx]; [done|]. by eapply (plug_inhabited h (f :: ctx)). }
        eapply ids_nonempty; [|exact Hik]. apply (searchable_plug _ _ _ _ Hse). }
      rewrite entries_plug. unfold ids in Hk. destruct (entries k) as [|e l]; [done|].
      exists (under (ctx_word ctx (tchar k)) e). split; [rewrite !in_app_iff; right; left; by left|by exists e.1].
    + intros _. apply prefix_string_run; [done|done|]. pose proof (height_plug ctx k). lia.
  - split; [split; [|done]|done]. intros _ ([v x] & Hv & u & Hu). cbn in Hu. subst v.
    apply (entries_subtree 0) in Hv as (k & Hk & _); [|apply Hse]. clear -E Hk. revert t E Hk.
    induction w as [|c w IH]; intros t E Hk; [done|]. cbn in E, Hk. destruct (List.find _ (kids t)); [by eapply IH|done].
Qed.

Lemma prefix_string_witness : exists p, getTrieNode (nodes loaded_demo) (tptr loaded_demo_read) [97; 98] = Ok p /\
  getPrefixString 9 (nodes loaded_demo) (tptr loaded_demo_read) p = Ok [97; 98].
Proof.
  destruct (prefix_string (nodes loaded_demo) loaded_demo_read 9 [97; 98]) as (p & Hp & Hn & Hs).
  - exact loaded_demo_searchable.
  - intros E. vm_compute in E. discriminate E.
  - vm_compute. repeat constructor.
  - exists p. split; [exact Hp|]. apply Hs. intros ->. revert Hp. vm_compute. discriminate.
Defined.
(** ** The prefixes above a prefix *)

Definition branching (t : tree) : bool := isTerminalNode (tnode t) || (1 <? Z.of_nat (length (kids t))).

(** A keyword ends the chain of only children from [t]: the keyword with the
    interval of [t]. *)
Fixpoint chain_keyword (t : tree) : bool :=
  match t with
  | Tree _ n cs => isTerminalNode n || match cs with [c] => chain_keyword c | _ => false end
  end.

Lemma branching_count h k : shape h k -> isTerminalNode (tnode k) || (1 <? getChildrenCount (tnode k)) = branching k.
Proof. intros H. unfold branching, getChildrenCount. inversion H as [? ? ? _ _ E _]; subst. cbn. by rewrite E, length_map. Qed.

Lemma interval_eqb_refl p : prefix_eqb p p = true.
Proof. unfold prefix_eqb. by rewrite !Z.eqb_refl. Qed.

Lemma prefix_eqb_eq p q : prefix_eqb p q = true <-> p = q.
Proof.
  unfold prefix_eqb. rewrite andb_true_iff, !Z.eqb_eq. destruct p, q; cbn.
  split; [intros [-> ->]; done|by intros [= -> ->]].
Qed.

(** The interval of a branching node is larger than that of a node below it. *)
Lemma branching_larger h d f k m : searchable h d (fill f k) -> branching (fill f k) = true ->
  (forall j, In j (ids m) -> In j (ids k)) -> ids m <> [] -> interval (fill f k) <> interval m.
Proof.
  intros Hse Hb Hm Hne. pose proof (se_ordered _ _ _ Hse) as Ho. pose proof Ho as Hall. unfold ordered in Ho. rewrite ids_fill in Ho.
  assert (exists x, In x (ids (fill f k)) /\ ((forall y, In y (ids k) -> x < y) \/ (forall y, In y (ids k) -> y < x))) as (x & Hx & Hcase).
  { pose proof (searchable_kids _ _ _ _ _ Hse) as [_ Hks]. rewrite Forall_app, Forall_cons in Hks. destruct Hks as (Hnl & _ & Hnr).
    apply ssorted_app_inv in Ho as (H1 & _ & Ho). apply ssorted_app_inv in Ho as (H2 & _ & Ho).
    apply ssorted_app_inv in Ho as (H3 & _ & _). unfold branching in Hb. cbn in Hb. rewrite ids_fill.
    destruct (isTerminalNode (fnode f)).
    - exists (id (fnode f)). rewrite !in_app_iff. split; [left; by left|]. left. intros y Hy. apply H1; [by left|]. rewrite !in_app_iff. tauto.
    - destruct (fleft f) as [|l ls] eqn:El.
      + destruct (fright f) as [|r rs] eqn:Er; [done|]. inversion_clear Hnr as [|? ? Hr _].
        exists (first_id r). cbn [flat_map app]. rewrite !in_app_iff. pose proof (first_id_in _ Hr). split; [tauto|]. right.
        intros y Hy. apply H3; [done|]. cbn. apply in_app_iff. tauto.
      + inversion_clear Hnl as [|? ? Hl _]. pose proof (first_id_in _ Hl). exists (first_id l). cbn [flat_map app]. rewrite !in_app_iff.
        split; [tauto|]. left. intros y Hy. apply H2; [cbn; apply in_app_iff; tauto|]. apply in_app_iff. tauto. }
  pose proof (ids_in_interval _ _ Hall Hx). intros E.
  assert (first_id (fill f k) = first_id m /\ last_id (fill f k) = last_id m) as [E1 E2] by (unfold interval in E; split; congruence).
  destruct Hcase as [Hc|Hc].
  - specialize (Hc _ (Hm _ (first_id_in _ Hne))). lia.
  - specialize (Hc _ (Hm _ (last_id_in _ Hne))). lia.
Qed.

(** An only child below no keyword has the interval of its parent. *)
Lemma only_child h d t : searchable h d t -> inhabited t -> branching t = false ->
  exists p n c, t = Tree p n [c] /\ isTerminalNode n = false /\ ids t = ids c.
Proof.
  intros Hse Hin Hb. destruct t as [p n cs]. unfold branching in Hb. cbn in Hb. apply orb_false_iff in Hb as [Ht Hc].
  destruct cs as [|c [|c' cs]]; [specialize (Hin eq_refl); cbn in Hin; congruence| |].
  - exists p, n, c. split; [done|]. split; [done|]. rewrite ids_tree, Ht. cbn. by rewrite app_nil_r.
  - apply Z.ltb_ge in Hc. cbn [length] in Hc. lia.
Qed.

Lemma same_ids_interval t c : ids t = ids c -> interval t = interval c.
Proof. intros E. unfold interval, first_id, last_id. by rewrite E. Qed.

Lemma prefix_of_run h d k : searchable h d k -> inhabited k -> prefix_of h (tnode k) = Ok (interval k).
Proof. intros Hs Hi. destruct (root_run _ _ _ Hs Hi) as (_ & _ & Ha & Hb & _). unfold prefix_of. by rewrite Ha, Hb. Qed.

(** One turn of the loop at a node from which the prefix is below the child [c]. *)
Lemma ancestors_step h d p n l c r prefix acc fuel : searchable h d (Tree p n (l ++ c :: r)) ->
  In (minId prefix) (ids c) -> maxId prefix <= last_id (Tree p n (l ++ c :: r)) ->
  ancestors_loop (S fuel) h p prefix acc =
    if branching c then
      if prefix_eqb prefix (interval c) then Ok acc
      else if isAncestor (interval c) prefix then ancestors_loop fuel h (tptr c) prefix (acc ++ [interval c])
      else Err AssertFailed
    else ancestors_loop fuel h (tptr c) prefix acc.
Proof.
  intros Hse Hi Hmx. change (Tree p n (l ++ c :: r)) with (fill (mk_frame p n l r) c) in *.
  destruct (root_run _ _ _ Hse (inhabited_fill _ _)) as (Hl & Hnn & _ & Hm & _). cbn [ancestors_loop].
  cbn [tptr fill fptr] in Hl, Hnn. rewrite pchoice_null by done. rewrite Hl. cbn [rbind]. rewrite Hm. cbn [rbind].
  destruct (Z.ltb_spec (last_id (fill (mk_frame p n l r) c)) (maxId prefix)); [lia|].
  cbn [tnode fill]. rewrite (step_run h d _ c) by done. cbn [rbind].
  destruct (searchable_fill _ _ _ _ Hse) as [Hsc Hic]. destruct (root_run _ _ _ Hsc Hic) as (Hlc & Hnc & _ & _ & _).
  rewrite pchoice_null by done. rewrite Hlc. cbn [rbind]. rewrite (branching_count h) by apply Hsc.
  destruct (branching c); [|done]. by rewrite (prefix_of_run _ _ _ Hsc Hic).
Qed.

Lemma ancestors_chain h k : forall d fuel acc, searchable h d k -> inhabited k -> branching k = false ->
  (height k <= fuel)%nat -> ancestors_loop fuel h (tptr k) (interval k) acc = Ok acc.
Proof.
  induction k as [p n cs IH] using tree_ind'. intros d fuel acc Hse Hin Hb Hf.
  destruct (only_child _ _ _ Hse Hin Hb) as (p' & n' & c & [= -> -> ->] & Ht & E).
  destruct fuel as [|fuel]; [cbn in Hf; lia|]. apply height_kids in Hf. rewrite Forall_singleton in IH, Hf.
  destruct (searchable_fill h d (mk_frame p' n' [] []) c Hse) as [Hsc Hic]. destruct (root_run _ _ _ Hsc Hic) as (_ & _ & _ & _ & _ & Hne).
  cbn [tptr]. pose proof (ancestors_step h d p' n' [] c [] (interval c) acc fuel Hse) as Hstep.
  rewrite (same_ids_interval _ _ E). cbn [app] in Hstep. rewrite Hstep; [|by apply first_id_in|].
  - rewrite interval_eqb_refl. destruct (branching c) eqn:Ebc; [done|]. by apply (IH (d + 1)).
  - change (last_id c <= last_id (Tree p' n' [c])). unfold last_id. by rewrite E.
Qed.

Lemma ancestors_run h ctx k : inhabited k -> ids k <> [] -> forall d fuel acc, ctx <> [] -> searchable h d (plug ctx k) ->
  (length ctx + height k <= fuel)%nat ->
  ancestors_loop fuel h (tptr (plug ctx k)) (interval k) acc =
    Ok (acc ++ map interval (List.filter branching (tail (above ctx k)))).
Proof.
  intros Hik Hnk. induction ctx as [|f ctx IH] using rev_ind; intros d fuel acc Hne Hse Hf; [done|]. clear Hne.
  rewrite length_app in Hf. cbn [length] in Hf. destruct fuel as [|fuel]; [lia|]. rewrite plug_snoc in *.
  rewrite above_snoc. cbn [tail]. destruct (searchable_fill _ _ _ _ Hse) as [Hsc Hic].
  pose proof (se_ordered _ _ _ Hse) as Ho. pose proof (se_ordered _ _ _ Hsc) as Hoc.
  assert (In (last_id k) (ids (plug ctx k))) as Hlast by (apply in_ids_plug; by apply last_id_in).
  assert (In (first_id k) (ids (plug ctx k))) as Hfirst by (apply in_ids_plug; by apply first_id_in).
  destruct f as [p n l r]. cbn [tptr fill fptr fnode fleft fright] in *. rewrite (ancestors_step h d p n l (plug ctx k) r).
  2:{ done. } 2:{ done. }
  2:{ apply (ids_in_interval (fill (mk_frame p n l r) (plug ctx k)) _ Ho). rewrite ids_fill, !in_app_iff. tauto. }
  destruct (decide (ctx = [])) as [->|Hne].
  - cbn [plug above tail map List.filter] in *. rewrite interval_eqb_refl, app_nil_r. destruct (branching k) eqn:Eb; [done|].
    apply (ancestors_chain h k (d + 1)); (done || lia).
  - destruct (exists_last Hne) as (ctx' & g & ->). rewrite plug_snoc, above_snoc in *. cbn [tail] in IH. cbn [List.filter].
    destruct (branching (fill g (plug ctx' k))) eqn:Eb.
    + assert (interval (fill g (plug ctx' k)) <> interval k) as Hneq.
      { apply (branching_larger h (d + 1) g (plug ctx' k)); [done|done| |done]. intros j. apply in_ids_plug. }
      destruct (prefix_eqb (interval k) (interval (fill g (plug ctx' k)))) eqn:Ee; [by apply prefix_eqb_eq in Ee|].
      assert (isAncestor (interval (fill g (plug ctx' k))) (interval k) = true) as ->.
      { unfold isAncestor. cbn [minId maxId interval]. pose proof (ids_in_interval _ _ Hoc Hfirst). pose proof (ids_in_interval _ _ Hoc Hlast).
        apply andb_true_iff. split; apply Z.leb_le; lia. }
      rewrite (IH (d + 1)) by (done || lia). cbn [map]. by rewrite <- app_assoc.
    + by rewrite (IH (d + 1)) by (done || lia).
Qed.
Lemma focus_run h ctx k : searchable h 0 (plug ctx k) -> ctx <> [] -> inhabited k /\ ids k <> [].
Proof.
  intros Hse Hne. assert (inhabited k) as Hik by (by eapply (plug_inhabited h)).
  split; [done|]. eapply ids_nonempty; [|exact Hik]. apply (searchable_plug _ _ _ _ Hse).
Qed.

(** The prefixes above a prefix: for the interval of any node below the
    root, [getAncestorPrefixes] lists the intervals of its proper ancestors that
    are keywords or have several children, the outermost first, and its assertion
    holds; [getParentPrefix] is the innermost of them and [isDirectChildPrefix]
    compares with it. *)
Theorem ancestor_prefixes (h : heap) (ctx : list frame) (k : tree) (fuel : nat) :
  let t := plug ctx k in
  let l := map interval (List.filter branching (tail (above ctx k))) in
  searchable h 0 t -> ctx <> [] -> (height t <= fuel)%nat ->
  getAncestorPrefixes fuel h (tptr t) (interval k) = Ok l /\
  getParentPrefix fuel h (tptr t) (interval k) = Ok (last l) /\
  forall p, isDirectChildPrefix fuel h (tptr t) p (interval k) = Ok true <-> last l = Some p.
Proof.
  intros t l Hse Hne Hf. destruct (focus_run _ _ _ Hse Hne) as [Hik Hnk]. pose proof (height_plug ctx k).
  assert (getAncestorPrefixes fuel h (tptr t) (interval k) = Ok l) as E.
  { unfold getAncestorPrefixes. rewrite (ancestors_run h ctx k Hik Hnk 0) by (done || (unfold t in *; lia)). done. }
  unfold getParentPrefix, isDirectChildPrefix. rewrite E. cbn [rbind]. split; [done|]. split; [done|].
  intros p. destruct (last l) as [q|]; [|done]. split.
  - intros [= H1]. apply prefix_eqb_eq in H1. by subst.
  - intros [= ->]. by rewrite interval_eqb_refl.
Qed.

(** The example of the node of "ab". *)
Definition query_ctx : list frame :=
  match loaded_demo_read with
  | Tree p n [Tree q m [x]; y] => [mk_frame q m [] []; mk_frame p n [] [y]]
  | _ => []
  end.
Definition query_kid : tree :=
  match loaded_demo_read with Tree p n [Tree q m [x]; y] => x | t => t end.

Lemma query_place : plug query_ctx query_kid = loaded_demo_read.
Proof. vm_compute. reflexivity. Qed.

Lemma query_demo_searchable : searchable (nodes loaded_demo) 0 (plug query_ctx query_kid).
Proof. rewrite query_place. exact loaded_demo_searchable. Qed.

Lemma ancestor_prefixes_witness :
  getParentPrefix 9 (nodes loaded_demo) (tptr loaded_demo_read) (mk_prefix 1073725440 1073725440) =
    Ok (Some (mk_prefix 536862720 1073725440)).
Proof.
  destruct (ancestor_prefixes (nodes loaded_demo) query_ctx query_kid 9) as (_ & H & _).
  - exact query_demo_searchable.
  - vm_compute. discriminate.
  - vm_compute. repeat constructor.
  - assert (Hp : tptr (plug query_ctx query_kid) = tptr loaded_demo_read) by (vm_compute; reflexivity).
    assert (Hi : interval query_kid = mk_prefix 1073725440 1073725440) by (vm_compute; reflexivity).
    rewrite <- Hp, <- Hi. refine (eq_trans H _). vm_compute. reflexivity.
Defined.

(** ** Complete keywords *)

Lemma complete_step h d p n l c r i fuel : searchable h d (Tree p n (l ++ c :: r)) ->
  In (minId i) (ids c) -> maxId i <= last_id (Tree p n (l ++ c :: r)) ->
  complete_loop (S fuel) h p i =
    if isTerminalNode n && prefix_eqb i (interval (Tree p n (l ++ c :: r))) then Ok true
    else complete_loop fuel h (tptr c) i.
Proof.
  intros Hse Hi Hmx. change (Tree p n (l ++ c :: r)) with (fill (mk_frame p n l r) c) in *.
  destruct (root_run _ _ _ Hse (inhabited_fill _ _)) as (Hl & Hnn & _ & Hm & _). cbn [complete_loop].
  pose proof (prefix_of_run _ _ _ Hse (inhabited_fill _ _)) as Hp.
  cbn [tptr fill fptr] in Hl, Hnn. rewrite pchoice_null by done. rewrite Hl. cbn [rbind]. rewrite Hm. cbn [rbind].
  destruct (Z.ltb_spec (last_id (fill (mk_frame p n l r) c)) (maxId i)); [lia|]. rewrite Hp. cbn [rbind tnode fill fnode].
  by rewrite (step_run h d (mk_frame p n l r) c) by done.
Qed.

Lemma singleton_interval t : ordered t -> ids t <> [] -> first_id t = last_id t -> exists i, ids t = [i].
Proof.
  intros Ho Hne E. unfold ordered, first_id, last_id in *. destruct (ids t) as [|i [|j l]]; [done|by exists i|].
  exfalso. assert (In (List.last (j :: l) 0) (j :: l)) as Hin.
  { destruct (exists_last (l := j :: l)) as (l' & z & ->); [done|]. rewrite last_last, in_app_iff. right. by left. }
  inversion_clear Ho as [|? ? _ Hall]. rewrite List.Forall_forall in Hall. specialize (Hall _ Hin).
  change (i = List.last (j :: l) 0) in E. lia.
Qed.

(** A node above a single keyword is above no branch. *)
Lemma chain_singleton k : forall h d, searchable h d k -> inhabited k -> (exists i, ids k = [i]) -> chain_keyword k = true.
Proof.
  induction k as [p n cs IH] using tree_ind'. intros h d Hse Hin [i Ei]. cbn [chain_keyword].
  destruct (isTerminalNode n) eqn:Ht; [done|]. cbn [orb]. rewrite ids_tree, Ht in Ei. cbn [app] in Ei.
  destruct (searchable_kids _ _ _ _ _ Hse) as [_ Hne]. destruct cs as [|c [|c' cs]]; [done| |].
  - destruct (searchable_fill h d (mk_frame p n [] []) c Hse) as [Hsc Hic]. rewrite Forall_singleton in IH.
    apply (IH h (d + 1)); [done|done|]. exists i. by rewrite <- Ei; cbn; rewrite app_nil_r.
  - exfalso. rewrite !Forall_cons in Hne. destruct Hne as (H1 & H2 & _). cbn in Ei.
    destruct (ids c) as [|x [|y l]]; [done| |done]. destruct (ids c'); [done|]. done.
Qed.

Lemma complete_chain h k : forall d fuel, searchable h d k -> inhabited k -> (height k <= fuel)%nat ->
  complete_loop fuel h (tptr k) (interval k) = Ok (chain_keyword k).
Proof.
  induction k as [p n cs IH] using tree_ind'. intros d fuel Hse Hin Hf.
  destruct fuel as [|fuel]; [cbn in Hf; lia|]. apply height_kids in Hf. cbn [chain_keyword].
  destruct (root_run _ _ _ Hse Hin) as (Hl & Hnn & _ & Hm & _ & Hne). pose proof (prefix_of_run _ _ _ Hse Hin) as Hp.
  cbn [tptr tnode] in *. destruct (isTerminalNode n) eqn:Ht.
  { cbn [complete_loop]. rewrite pchoice_null by done. rewrite Hl. cbn [rbind]. rewrite Hm. cbn [rbind].
    change (maxId (interval (Tree p n cs))) with (last_id (Tree p n cs)).
    rewrite Z.ltb_irrefl, Hp. cbn [rbind]. by rewrite Ht, interval_eqb_refl. }
  destruct cs as [|c cs]; [specialize (Hin eq_refl); cbn in Hin; congruence|].
  assert (first_id (Tree p n (c :: cs)) = first_id c) as Efirst.
  { unfold first_id. rewrite ids_tree, Ht. destruct (searchable_kids _ _ _ _ _ Hse) as [_ Hks]. inversion_clear Hks as [|? ? Hc _].
    cbn. by destruct (ids c). }
  destruct (searchable_fill h d (mk_frame p n [] cs) c Hse) as [Hsc Hic].
  destruct (root_run _ _ _ Hsc Hic) as (Hlc & Hnc & _ & Hmc & _ & Hnec).
  rewrite (complete_step h d p n [] c cs); [|done|by cbn; rewrite Efirst; apply first_id_in|done].
  rewrite Ht. cbn [andb]. destruct cs as [|c' cs].
  - inversion_clear IH as [|? ? IHc _]. inversion_clear Hf as [|? ? Hfc _].
    assert (ids (Tree p n [c]) = ids c) as E by (rewrite ids_tree, Ht; cbn; by rewrite app_nil_r).
    rewrite (same_ids_interval _ _ E). by apply (IHc (d + 1)).
  - (* the interval reaches beyond the first child *)
    assert (last_id c < last_id (Tree p n (c :: c' :: cs))) as Hlt.
    { pose proof (se_ordered _ _ _ Hse) as Ho. unfold ordered in Ho. rewrite ids_tree, Ht in Ho. cbn [app flat_map] in Ho.
      apply ssorted_app_inv in Ho as (Hlt & _). unfold last_id at 2. rewrite ids_tree, Ht. cbn [app flat_map].
      destruct (searchable_kids _ _ _ _ _ Hse) as [_ Hks]. rewrite !Forall_cons in Hks. destruct Hks as (_ & Hc' & _).
      assert (ids c' ++ flat_map ids cs <> []) as Hn by (by destruct (ids c')).
      rewrite last_app_ne by done. apply Hlt; [by apply last_id_in|]. destruct (exists_last Hn) as (u & x & ->).
      rewrite last_last, in_app_iff. right. by left. }
    destruct fuel as [|fuel]; [inversion_clear Hf as [|? ? Hfc _]; destruct c; cbn in Hfc; lia|].
    cbn [complete_loop]. rewrite pchoice_null by done. rewrite Hlc. cbn [rbind]. rewrite Hmc. cbn [rbind].
    change (maxId (interval (Tree p n (c :: c' :: cs)))) with (last_id (Tree p n (c :: c' :: cs))).
    by rewrite (proj2 (Z.ltb_lt _ _) Hlt).
Qed.

Lemma complete_run h ctx k : inhabited k -> ids k <> [] -> forall d fuel, searchable h d (plug ctx k) ->
  (length ctx + height k <= fuel)%nat ->
  complete_loop fuel h (tptr (plug ctx k)) (interval k) = Ok (chain_keyword k).
Proof.
  intros Hik Hnk. induction ctx as [|f ctx IH] using rev_ind; intros d fuel Hse Hf; [by apply (complete_chain h k d)|].
  rewrite length_app in Hf. cbn [length] in Hf. destruct fuel as [|fuel]; [lia|]. rewrite plug_snoc in *.
  destruct (searchable_fill _ _ _ _ Hse) as [Hsc Hic]. pose proof (se_ordered _ _ _ Hse) as Ho.
  assert (In (last_id k) (ids (plug ctx k))) as Hlast by (apply in_ids_plug; by apply last_id_in).
  assert (In (first_id k) (ids (plug ctx k))) as Hfirst by (apply in_ids_plug; by apply first_id_in).
  destruct f as [p n l r]. cbn [tptr fill fptr fnode fleft fright] in *. rewrite (complete_step h d p n l (plug ctx k) r).
  2:{ done. } 2:{ done. }
  2:{ apply (ids_in_interval (fill (mk_frame p n l r) (plug ctx k)) _ Ho). rewrite ids_fill, !in_app_iff. tauto. }
  rewrite (IH (d + 1)) by (done || lia). destruct (isTerminalNode n) eqn:Ht; [|done]. cbn [andb].
  destruct (prefix_eqb (interval k) _) eqn:Ee; [|done]. exfalso. apply prefix_eqb_eq in Ee. symmetry in Ee. revert Ee.
  change (Tree p n (l ++ plug ctx k :: r)) with (fill (mk_frame p n l r) (plug ctx k)).
  apply (branching_larger h d); [done|unfold branching; cbn; by rewrite Ht| |done]. intros j. apply in_ids_plug.
Qed.

(** [isPrefixACompleteKeyword] on the interval of a node below the root
    answers whether some keyword has just that interval: whether only children
    lead from the node to a keyword.  The shortcut for an interval of one id
    agrees with the descent. *)
Theorem complete_keyword (h : heap) (ctx : list frame) (k : tree) (fuel : nat) :
  searchable h 0 (plug ctx k) -> ctx <> [] -> (height (plug ctx k) <= fuel)%nat ->
  isPrefixACompleteKeyword fuel h (tptr (plug ctx k)) (interval k) = Ok (chain_keyword k) /\
  complete_loop fuel h (tptr (plug ctx k)) (interval k) = Ok (chain_keyword k).
Proof.
  intros Hse Hne Hf. destruct (focus_run _ _ _ Hse Hne) as [Hik Hnk]. pose proof (height_plug ctx k).
  assert (complete_loop fuel h (tptr (plug ctx k)) (interval k) = Ok (chain_keyword k)) as E
    by (apply (complete_run h ctx k Hik Hnk 0); (done || lia)).
  split; [|done]. unfold isPrefixACompleteKeyword. cbn [minId maxId interval].
  destruct (Z.eqb_spec (first_id k) (last_id k)) as [El|_]; [|done]. pose proof (searchable_plug _ _ _ _ Hse) as Hsk.
  destruct (singleton_interval k (se_ordered _ _ _ Hsk) Hnk El) as [i Hi]. f_equal. symmetry.
  apply (chain_singleton k h _ Hsk Hik). eauto.
Qed.

Lemma complete_keyword_witness :
  isPrefixACompleteKeyword 9 (nodes loaded_demo) (tptr (plug query_ctx query_kid)) (interval query_kid) = Ok true.
Proof.
  destruct (complete_keyword (nodes loaded_demo) query_ctx query_kid 9) as [H _].
  - exact query_demo_searchable.
  - vm_compute. discriminate.
  - vm_compute. repeat constructor.
  - refine (eq_trans H _). vm_compute. reflexivity.
Defined.
End TrieQueries.
