(* ===== verification/PhraseSearcher.v ===== *)
(** * Phrase search (core/operation/PhraseSearcher.cpp)

    Exact and proximity matches of a phrase in the position lists of its
    keywords.  Positions and offsets are 32-bit unsigned integers; a cursor is an
    index into a list; the vectors given by reference are passed and returned. *)
From S2P Require Import Prelude.
From Stdlib Require Import ZArith Lia List Bool Sorted.
From stdpp Require Import base list gmap.
Open Scope Z_scope.

Module PhraseSearcher.

Definition slopThreshold : Z := 10000.

Definition is_empty {A} (l : list A) : bool := match l with [] => true | _ => false end.

(** ** Exact match *)

(** The scan of a position list from the cursor [c] on: the first position above
    [prev], or the end of the list and the initial 0 of [currKeyWordPosition]. *)
Fixpoint seek (l : list Z) (prev : Z) (c : nat) : nat * Z :=
  match l with
  | [] => (c, 0)
  | x :: l' => if prev <? x then (c, x) else seek l' prev (S c)
  end.

(** The probe of the lists after the first: the cursors, whether the end of a
    list was reached, and whether all the lists were passed. *)
Fixpoint probe (lists : list (list Z)) (ks : list Z) (cursors : list nat) (kprev prev : Z) :
    result (list nat * bool * bool) :=
  match lists with
  | [] => Ok (cursors, false, true)
  | l :: lists' =>
      match ks, cursors with
      | k :: ks', c :: cursors' =>
          let '(c', cur) := seek (drop c l) prev c in
          let searchDone := Nat.eqb c' (length l) in
          if negb (wrap32 (k - kprev) =? wrap32 (cur - prev)) then Ok (c' :: cursors', searchDone, false)
          else
            let? (cs, d, r) := probe lists' ks' cursors' k cur in
            Ok (c' :: cs, searchDone || d, r)
      | _, _ => Err OutOfRange
      end
  end.

(** The positions under the cursors. *)
Fixpoint window (lists : list (list Z)) (cursors : list nat) : result (list Z) :=
  match lists, cursors with
  | l :: lists', c :: cursors' =>
      let? x := vec_at l (Z.of_nat c) in
      let? xs := window lists' cursors' in Ok (x :: xs)
  | [], [] => Ok []
  | _, _ => Err OutOfRange
  end.

Abbreviation answer := (bool * list (list Z) * list Z)%type.

(** The loop over the positions of the first list; [rest] is the list from its
    cursor [c0] on. *)
Fixpoint exact_loop (rest : list Z) (c0 : nat) (P : list (list Z)) (k0 : Z) (ks : list Z) (cursors : list nat)
    (stop : bool) (matched : list (list Z)) (slops : list Z) (atleastOne : bool) : result answer :=
  match rest with
  | [] => Err OutOfRange
  | p :: rest' =>
      let? (cs, searchDone, reached) := probe (tail P) ks cursors k0 p in
      if reached then
        let? m := window P (c0 :: cs) in
        if stop then Ok (true, matched ++ [m], slops ++ [0])
        else if is_empty rest' || searchDone then Ok (true, matched ++ [m], slops ++ [0])
        else exact_loop rest' (S c0) P k0 ks cs stop (matched ++ [m]) (slops ++ [0]) true
      else if is_empty rest' || searchDone then Ok (atleastOne, matched, slops)
      else exact_loop rest' (S c0) P k0 ks cs stop matched slops atleastOne
  end.

Definition exactMatch (P : list (list Z)) (K : list Z) (stop : bool) (matched : list (list Z)) (slops : list Z) :
    result answer :=
  if negb (Nat.eqb (length P) (length K)) then Ok (false, matched, slops)
  else if is_empty P then Ok (false, matched, slops)
  else if existsb is_empty P then Ok (false, matched, slops)
  else if Nat.eqb (length P) 1 then Ok (true, matched, slops)
  else exact_loop (hd [] P) 0 P (hd 0 K) (tail K) (replicate (length (tail P)) 0%nat) stop matched slops false.

(** ** Slop *)

Definition INT_MIN : Z := - 2 ^ 31.
Definition INT_MAX : Z := 2 ^ 31 - 1.

Fixpoint diff_range (query record : list Z) (maxDiff minDiff : Z) : result (Z * Z) :=
  match query, record with
  | [], _ => Ok (maxDiff, minDiff)
  | q :: query', r :: record' =>
      let diff := int32 (r - q) in
      diff_range query' record' (if maxDiff <? diff then diff else maxDiff) (if diff <? minDiff then diff else minDiff)
  | _ :: _, [] => Err OutOfRange
  end.

Definition getPhraseSlopDistance (query record : list Z) : result Z :=
  let? (maxDiff, minDiff) := diff_range query record INT_MIN INT_MAX in Ok (int32 (maxDiff - minDiff)).

(** ** Proximity match *)

(** [std::priority_queue] under [comparator], which compares positions only: its
    top is one of the pairs with the smallest position, and which one is up to the
    library. *)
Definition least (h : list (Z * nat)) (x : Z * nat) : Prop := x ∈ h /\ forall y, y ∈ h -> x.1 <= y.1.

Fixpoint pop (x : Z * nat) (h : list (Z * nat)) : list (Z * nat) :=
  match h with
  | [] => []
  | y :: h' => if bool_decide (x = y) then h' else y :: pop x h'
  end.

Section heap.
Context (top : list (Z * nat) -> option (Z * nat)).

Fixpoint proximity_loop (fuel : nat) (P : list (list Z)) (offsets : list Z) (inputSlop : Z) (minHeap : list (Z * nat))
    (cursors : list nat) (stop : bool) (matched : list (list Z)) (slops : list Z) (atleast : bool) : result answer :=
  match fuel with
  | O => Err OutOfFuel
  | S fuel' =>
      let? m := window P cursors in
      let? d := getPhraseSlopDistance offsets m in
      let hit := d <=? int32 inputSlop in
      let matched := if hit then matched ++ [m] else matched in
      let slops := if hit then slops ++ [wrap32 d] else slops in
      if hit && stop then Ok (true, matched, slops)
      else
        match top minHeap with
        | None => Err OutOfRange
        | Some (x, i) =>
            let? currList := of_option OutOfRange (P !! i) in
            let? c := of_option OutOfRange (cursors !! i) in
            if Nat.leb (length currList) (S c) then Ok (hit || atleast, matched, slops)
            else
              let? next := vec_at currList (Z.of_nat (S c)) in
              proximity_loop fuel' P offsets inputSlop ((next, i) :: pop (x, i) minHeap) (<[i := S c]> cursors)
                stop matched slops (hit || atleast)
        end
  end.

(** As many windows as there are positions. *)
Definition proximity_fuel (P : list (list Z)) : nat := S (length (concat P)).

Definition proximityMatch (P : list (list Z)) (offsets : list Z) (inputSlop : Z) (stop : bool)
    (matched : list (list Z)) (slops : list Z) : result answer :=
  if is_empty P then Ok (false, matched, slops)
  else if negb (Nat.eqb (length P) (length offsets)) then Ok (false, matched, slops)
  else if existsb is_empty P then Ok (false, matched, slops)
  else if Nat.eqb (length P) 1 then Ok (true, matched, slops)
  else if inputSlop =? 0 then Ok (false, matched, slops)
  else if slopThreshold <? inputSlop then Ok (true, matched, slops)
  else
    proximity_loop (proximity_fuel P) P offsets inputSlop (imap (fun i l => (hd 0 l, i)) P)
      (replicate (length P) 0%nat) stop matched slops false.
End heap.

(** A top for the examples: the first of the least pairs. *)
Definition first_least (h : list (Z * nat)) : option (Z * nat) :=
  match h with
  | [] => None
  | x :: h' => Some (fold_left (fun a y => if y.1 <? a.1 then y else a) h' x)
  end.

(** ** Edit distance of keyword lists (not in use in the program) *)

Fixpoint lev_row (keywords : list (list Z)) (word : list Z) (v1 : list Z) (left_ : Z) : result (list Z) :=
  match keywords with
  | [] => Ok []
  | k :: keywords' =>
      match v1 with
      | a :: ((b :: _) as v1') =>
          let cost := if bool_decide (word = k) then 0 else 1 in
          let x := Z.min (Z.min (wrap32 (left_ + 1)) (wrap32 (b + 1))) (wrap32 (a + cost)) in
          let? xs := lev_row keywords' word v1' x in Ok (x :: xs)
      | _ => Err OutOfRange
      end
  end.

Fixpoint lev_rows (keywords : list (list Z)) (record : list (list Z)) (i : Z) (v1 v2 : list Z) : result (list Z) :=
  match record with
  | [] => Ok v2
  | w :: record' =>
      let left_ := wrap32 (i + 1) in
      let? xs := lev_row keywords w v1 left_ in
      lev_rows keywords record' (i + 1) (left_ :: xs) (left_ :: xs)
  end.

(** The first row has [keywords.size() + 1] entries, of which the last is not
    initialized to its index but to 0. *)
Definition geteditDistance_L (keywords record : list (list Z)) : result Z :=
  let n := length keywords in
  let? v := lev_rows keywords record 0 (seqZ 0 (Z.of_nat n) ++ [0]) (replicate (S n) 0) in
  vec_at v (Z.of_nat n).

(** ** What an exact match is *)

(** From the position [prev] of the keyword at offset [kprev]: the first later
    position of each next keyword is at the distance of the offsets. *)
Fixpoint fits (prev kprev : Z) (lists : list (list Z)) (ks : list Z) : bool :=
  match lists, ks with
  | l :: lists', k :: ks' =>
      match List.find (fun x => prev <? x) l with
      | Some q => (q =? prev + (k - kprev)) && fits q k lists' ks'
      | None => false
      end
  | _, _ => true
  end.

Definition placed (p k0 : Z) (ks : list Z) : list Z := p :: map (fun k => p + (k - k0)) ks.

Definition small (z : Z) : Prop := 0 <= z < 2 ^ 31.

(** Offsets that grow and stay below [2^31]. *)
Inductive offsets_ok : Z -> list Z -> Prop :=
  | offsets_nil k : offsets_ok k []
  | offsets_cons k0 k ks : small k0 -> k0 < k < 2 ^ 31 -> offsets_ok k ks -> offsets_ok k0 (k :: ks).

(** The cursors have passed only positions that cannot be used again. *)
Fixpoint cursors_ok (prev kprev : Z) (lists : list (list Z)) (ks : list Z) (cursors : list nat) : Prop :=
  match lists, ks, cursors with
  | [], [], [] => True
  | l :: lists', k :: ks', c :: cursors' =>
      Forall (fun x => x <= prev) (take c l) /\ (c <= length l)%nat /\ cursors_ok (prev + (k - kprev)) k lists' ks' cursors'
  | _, _, _ => False
  end.

Lemma cursors_ok_mono lists : forall prev prev' kprev ks cursors, prev <= prev' ->
  cursors_ok prev kprev lists ks cursors -> cursors_ok prev' kprev lists ks cursors.
Proof.
  induction lists as [|l lists IH]; intros prev prev' kprev [|k ks] [|c cursors] Hle; cbn; try done.
  intros (Ha & Hb & Hc). split; [|split; [done|]].
  - eapply Forall_impl; [exact Ha|]. cbn. lia.
  - eapply IH; [|exact Hc]. lia.
Qed.

Lemma cursors_ok_start lists : forall prev kprev ks, length ks = length lists ->
  cursors_ok prev kprev lists ks (replicate (length lists) 0%nat).
Proof.
  induction lists as [|l lists IH]; intros prev kprev [|k ks] Hl; cbn; try done.
  split; [constructor|]. split; [lia|]. apply IH. by injection Hl.
Qed.

Lemma seek_run l prev : forall c, Forall (fun x => x <= prev) (take c l) -> (c <= length l)%nat ->
  exists c', (c <= c' <= length l)%nat /\ Forall (fun x => x <= prev) (take c' l) /\
    match List.find (fun x => prev <? x) l with
    | Some q => seek (drop c l) prev c = (c', q) /\ l !! c' = Some q /\ prev < q
    | None => seek (drop c l) prev c = (c', 0) /\ c' = length l
    end.
Proof.
  intros c. remember (length l - c)%nat as n eqn:E. revert c E. induction n as [|n IH]; intros c E Hall Hc.
  - assert (c = length l) as -> by lia. rewrite firstn_all in Hall. exists (length l). split; [lia|]. rewrite firstn_all. split; [done|].
    rewrite drop_all. destruct (List.find _ l) as [q|] eqn:Ef; [|done]. apply find_some in Ef as [Hin Hq].
    rewrite List.Forall_forall in Hall. apply Hall in Hin. apply Z.ltb_lt in Hq. lia.
  - destruct (lookup_lt_is_Some_2 l c) as [x Hx]; [lia|]. rewrite (drop_S _ _ _ Hx). cbn [seek].
    destruct (Z.ltb_spec prev x).
    + exists c. split; [lia|]. split; [done|]. assert (List.find (fun x => prev <? x) l = Some x) as ->; [|done].
      rewrite <- (take_drop c l), (drop_S _ _ _ Hx). clear -Hall H. induction (take c l) as [|y u IH]; cbn.
      * by rewrite (proj2 (Z.ltb_lt _ _) H).
      * inversion_clear Hall. by rewrite (proj2 (Z.ltb_ge _ _)); [apply IH|].
    + destruct (IH (S c)) as (c' & Hc' & Hr); [lia| |lia|].
      * rewrite (take_S_r _ _ _ Hx). apply Forall_app. by split; [|constructor].
      * exists c'. split; [lia|done].
Qed.

Lemma wrap_diff k kprev cur prev : small kprev -> kprev < k < 2 ^ 31 -> small prev -> prev < cur < 2 ^ 31 ->
  (wrap32 (k - kprev) =? wrap32 (cur - prev)) = (cur =? prev + (k - kprev)).
Proof.
  unfold small, wrap. intros. rewrite !Z.mod_small by lia.
  destruct (Z.eqb_spec (k - kprev) (cur - prev)), (Z.eqb_spec cur (prev + (k - kprev))); done || lia.
Qed.

Lemma wrap_end k kprev prev : small kprev -> kprev < k < 2 ^ 31 -> small prev ->
  (wrap32 (k - kprev) =? wrap32 (0 - prev)) = false.
Proof.
  unfold small, wrap. intros. apply Z.eqb_neq. rewrite (Z.mod_small (k - kprev)) by lia.
  destruct (decide (prev = 0)) as [->|].
  - change ((0 - 0) mod 2 ^ 32) with 0. lia.
  - replace (0 - prev) with (2 ^ 32 - prev + (-1) * 2 ^ 32) by lia. rewrite Z.mod_add by lia. rewrite Z.mod_small by lia. lia.
Qed.

Lemma probe_run lists : forall prev kprev ks cursors, Forall (Forall small) lists -> offsets_ok kprev ks -> small prev ->
  cursors_ok prev kprev lists ks cursors ->
  exists cs d, probe lists ks cursors kprev prev = Ok (cs, d, fits prev kprev lists ks) /\
    cursors_ok prev kprev lists ks cs /\
    (fits prev kprev lists ks = true -> window lists cs = Ok (map (fun k => prev + (k - kprev)) ks)) /\
    (d = true -> forall prev', prev <= prev' -> fits prev' kprev lists ks = false).
Proof.
  induction lists as [|l lists IH]; intros prev kprev [|k ks] [|c cursors] Hsm Hoff Hp; cbn [cursors_ok]; try done.
  { intros _. by exists [], false. }
  intros (Hall & Hc & Hok). inversion_clear Hsm as [|? ? Hl Hls]. inversion_clear Hoff as [|? ? ? Hk0 Hk Hks].
  cbn [probe fits]. destruct (seek_run l prev c Hall Hc) as (c' & Hc' & Hall' & Hcase).
  destruct (List.find (fun x => prev <? x) l) as [q|] eqn:Ef.
  - destruct Hcase as (-> & Hq & Hlt). assert (small q) as Hsq by (rewrite Forall_lookup in Hl; eauto).
    rewrite wrap_diff by (try done; unfold small in *; lia).
    assert (Nat.eqb c' (length l) = false) as -> by (apply Nat.eqb_neq; apply lookup_lt_Some in Hq; lia).
    destruct (Z.eqb_spec q (prev + (k - kprev))) as [->|Hne]; cbn [negb andb].
    + destruct (IH _ k ks cursors Hls Hks Hsq Hok) as (cs & d & -> & Hcs & Hw & Hd). cbn [rbind orb].
      exists (c' :: cs), d. split; [done|]. split; [by split; [|split; [lia|]]|]. split.
      * intros Hf. cbn [window map]. assert (vec_at l (Z.of_nat c') = Ok (prev + (k - kprev))) as ->.
        { apply vec_at_nth. split; [lia|]. by rewrite Nat2Z.id. }
        rewrite (Hw Hf). cbn [rbind]. do 2 f_equal. apply map_ext. intros x. lia.
      * intros Ed prev' Hle. cbn [fits]. destruct (List.find (fun x => prev' <? x) l) as [q'|]; [|done].
        destruct (Z.eqb_spec q' (prev' + (k - kprev))) as [->|]; [|done]. cbn. apply Hd; [done|lia].
    + eexists _, false. split; [done|]. split; [|done]. by split; [|split; [lia|]].
  - destruct Hcase as (-> & ->). rewrite wrap_end, Nat.eqb_refl by done. cbn [negb].
    eexists _, true. split; [done|]. split; [by split; [|split; [lia|]]|]. split; [done|].
    intros _ prev' Hle. cbn [fits]. destruct (List.find (fun x => prev' <? x) l) as [q'|] eqn:Ef'; [|done].
    apply find_some in Ef' as [Hin Hq']. apply Z.ltb_lt in Hq'.
    eapply find_none in Ef; [|exact Hin]. apply Z.ltb_ge in Ef. lia.
Qed.

Definition cut (stop : bool) (l : list Z) : list Z := if stop then take 1 l else l.

Lemma exact_loop_run l0 lists k0 ks stop : Forall (Forall small) lists -> offsets_ok k0 ks ->
  forall rest c0 prev cursors matched slops one, rest <> [] -> drop c0 l0 = rest -> Forall small rest ->
  StronglySorted Z.le (prev :: rest) -> cursors_ok prev k0 lists ks cursors ->
  let hits := List.filter (fun p => fits p k0 lists ks) rest in
  exact_loop rest c0 (l0 :: lists) k0 ks cursors stop matched slops one =
    Ok (one || negb (is_empty hits), matched ++ map (fun p => placed p k0 ks) (cut stop hits),
        slops ++ map (fun _ => 0) (cut stop hits)).
Proof.
  intros Hsm Hoff. induction rest as [|p rest IH]; intros c0 prev cursors matched slops one Hne Hd Hr Hs Hc; [done|].
  inversion_clear Hr as [|? ? Hp Hr']. inversion_clear Hs as [|? ? Hs' Hle]. inversion_clear Hle as [|? ? Hpp _].
  cbn [exact_loop tail List.filter].
  destruct (probe_run lists p k0 ks cursors Hsm Hoff Hp (cursors_ok_mono _ _ _ _ _ _ Hpp Hc)) as (cs & d & -> & Hcs & Hw & Hdone).
  cbn [rbind]. assert (d = true -> List.filter (fun p => fits p k0 lists ks) rest = []) as Hnone.
  { intros Ed. inversion_clear Hs' as [|? ? _ Hle]. clear -Ed Hdone Hle. induction rest as [|x rest IH]; [done|].
    inversion_clear Hle. cbn. rewrite Hdone by done. by apply IH. }
  assert (drop (S c0) l0 = rest) as Hd' by (rewrite <- Nat.add_1_r, <- drop_drop, Hd; done).
  assert (is_empty rest || d = false -> rest <> []) as Hgo by (destruct rest; done).
  assert (is_empty rest || d = true -> List.filter (fun p => fits p k0 lists ks) rest = []) as Hend
    by (intros E; apply orb_true_iff in E as [E|E]; [by destruct rest|by apply Hnone]).
  destruct (fits p k0 lists ks) eqn:Ef.
  - cbn [window]. assert (vec_at l0 (Z.of_nat c0) = Ok p) as ->.
    { apply vec_at_nth. split; [lia|]. rewrite Nat2Z.id. rewrite <- (Nat.add_0_r c0), <- lookup_drop, Hd. done. }
    rewrite (Hw eq_refl). cbn [rbind]. change (p :: map (fun k => p + (k - k0)) ks) with (placed p k0 ks).
    destruct stop; [by rewrite orb_true_r|]. destruct (is_empty rest || d) eqn:Eend.
    + rewrite Hend by done. by rewrite orb_true_r.
    + rewrite (IH (S c0) p) by auto. cbn [cut map is_empty negb]. by rewrite <- !app_assoc, orb_true_r.
  - destruct (is_empty rest || d) eqn:Eend.
    + rewrite Hend by done. destruct stop; cbn; by rewrite orb_false_r, !app_nil_r.
    + by rewrite (IH (S c0) p) by auto.
Qed.

Lemma fits_consecutive lists : forall prev kprev ks, Forall (StronglySorted Z.le) lists ->
  (forall i k, ks !! i = Some k -> k = kprev + Z.of_nat i + 1) -> length ks = length lists ->
  fits prev kprev lists ks = true <-> Forall2 (fun l k => In (prev + (k - kprev)) l) lists ks.
Proof.
  induction lists as [|l lists IH]; intros prev kprev [|k ks] Hs Hk Hlen; try done.
  inversion_clear Hs as [|? ? Hl Hls]. pose proof (Hk 0%nat k eq_refl) as E0. replace (kprev + Z.of_nat 0 + 1) with (kprev + 1) in E0 by lia.
  assert (forall i k', ks !! i = Some k' -> k' = k + Z.of_nat i + 1) as Hks by (intros i k' Hi; rewrite (Hk (S i) k' Hi); lia).
  cbn [fits]. rewrite Forall2_cons. specialize (IH (prev + (k - kprev)) k ks Hls Hks ltac:(by injection Hlen)).
  assert (Forall2 (fun l k' => In (prev + (k - kprev) + (k' - k)) l) lists ks <-> Forall2 (fun l k => In (prev + (k - kprev)) l) lists ks) as E.
  { assert (forall k', prev + (k - kprev) + (k' - k) = prev + (k' - kprev)) as Eq by lia.
    split; intros H; (eapply Forall2_impl; [exact H|]); intros l' k' Hin; cbn in *; rewrite ?Eq in *; exact Hin. }
  rewrite E in IH. destruct (List.find (fun x => prev <? x) l) as [q|] eqn:Ef.
  - apply find_some in Ef as Hq. destruct Hq as [Hin Hlt]. apply Z.ltb_lt in Hlt.
    destruct (Z.eqb_spec q (prev + (k - kprev))) as [->|Hne]; cbn [andb].
    + rewrite IH. tauto.
    + split; [done|]. intros [Hin' _]. exfalso. subst k. clear -Hl Ef Hin' Hlt Hne. induction Hl as [|x l Hl IHl Hx]; [done|].
      cbn in Ef. destruct (Z.ltb_spec prev x).
      * injection Ef as ->. rewrite List.Forall_forall in Hx. destruct Hin' as [->|Hin']; [lia|]. specialize (Hx _ Hin'). lia.
      * destruct Hin' as [->|Hin']; [lia|]. by apply IHl.
  - split; [done|]. intros [Hin' _]. exfalso. subst k. eapply find_none in Ef; [|exact Hin']. apply Z.ltb_ge in Ef. lia.
Qed.

Lemma no_empty (P : list (list Z)) : Forall (fun l => l <> []) P -> existsb is_empty P = false.
Proof.
  intros Hn. apply not_true_is_false. intros (l & Hl & E)%existsb_exists. rewrite List.Forall_forall in Hn.
  apply (Hn l Hl). by destruct l.
Qed.

(** (C31) Exact matches: over position lists in increasing order,
    [exactMatch] appends one window with slop 0 for each position [p] of the first
    keyword at which every next keyword's first later position is at the distance
    of the offsets in the phrase (only the first such window when it stops at the
    first match), and answers whether there is one.  When the keywords are
    consecutive in the phrase these are just the positions [p] where each keyword
    occurs at its place. *)
Theorem exact_match_finds (l0 : list Z) (lists : list (list Z)) (k0 : Z) (ks : list Z) (stop : bool)
    (matched : list (list Z)) (slops : list Z) :
  lists <> [] -> length ks = length lists -> Forall (fun l => l <> []) (l0 :: lists) ->
  Forall (Forall small) (l0 :: lists) -> Forall (StronglySorted Z.le) (l0 :: lists) -> offsets_ok k0 ks ->
  let hits := List.filter (fun p => fits p k0 lists ks) l0 in
  exactMatch (l0 :: lists) (k0 :: ks) stop matched slops =
    Ok (negb (is_empty hits), matched ++ map (fun p => placed p k0 ks) (cut stop hits),
        slops ++ map (fun _ => 0) (cut stop hits)) /\
  ((forall i k, ks !! i = Some k -> k = k0 + Z.of_nat i + 1) -> forall p,
    fits p k0 lists ks = true <-> Forall2 (fun l k => In (p + (k - k0)) l) lists ks).
Proof.
  intros Hne Hlen Hnil Hsm Hs Hoff hits. inversion_clear Hsm as [|? ? Hsm0 Hsms]. inversion_clear Hs as [|? ? Hs0 Hss].
  split; [|intros Hk p; by apply fits_consecutive].
  unfold exactMatch. cbn [length hd tail is_empty]. rewrite Hlen, Nat.eqb_refl. cbn [negb].
  rewrite no_empty by done.
  assert (Nat.eqb (S (length lists)) 1 = false) as -> by (apply Nat.eqb_neq; destruct lists; done || (cbn; lia)).
  inversion_clear Hnil as [|? ? Hn0 _]. destruct l0 as [|p0 l0]; [done|]. inversion Hs0 as [|? ? Hs1 Hle]; subst.
  rewrite (exact_loop_run (p0 :: l0) lists k0 ks stop Hsms Hoff (p0 :: l0) 0 p0); try done.
  - constructor; [done|]. constructor; [lia|done].
  - by apply cursors_ok_start.
Qed.

Lemma exact_match_finds_witness :
  exactMatch [[1; 5; 9]; [2; 4; 6; 11]; [7; 8; 12]] [1; 2; 3] false [] [] = Ok (true, [[5; 6; 7]], [0]).
Proof.
  destruct (exact_match_finds [1; 5; 9] [[2; 4; 6; 11]; [7; 8; 12]] 1 [2; 3] false [] []) as [H _].
  - discriminate.
  - reflexivity.
  - repeat constructor; discriminate.
  - unfold small. repeat constructor; lia.
  - repeat constructor; lia.
  - repeat constructor; unfold small; lia.
  - exact H.
Defined.

(** ** The slop of a window *)

Definition diffs (query record : list Z) : list Z := zip_with (fun q r => r - q) query record.

Definition tiny (z : Z) : Prop := 0 <= z < 2 ^ 30.

Lemma diff_range_run query : forall record mx mn, length query = length record -> Forall tiny query -> Forall tiny record ->
  exists mx' mn', diff_range query record mx mn = Ok (mx', mn') /\
    (mx' = mx \/ In mx' (diffs query record)) /\ (mn' = mn \/ In mn' (diffs query record)) /\
    mx <= mx' /\ mn' <= mn /\ Forall (fun d => mn' <= d <= mx') (diffs query record).
Proof.
  induction query as [|q query IH]; intros [|r record] mx mn Hlen Hq Hr; cbn [diff_range]; try done.
  { exists mx, mn. split; [done|]. split; [by left|]. split; [by left|]. split; [lia|]. split; [lia|constructor]. }
  inversion_clear Hq as [|? ? Hq0 Hqs]. inversion_clear Hr as [|? ? Hr0 Hrs]. unfold tiny in Hq0, Hr0.
  rewrite int32_small by lia.
  destruct (IH record (if mx <? r - q then r - q else mx) (if r - q <? mn then r - q else mn)) as
    (mx' & mn' & -> & Hmx & Hmn & Hle & Hge & Hall); [by injection Hlen|done|done|].
  exists mx', mn'. change (diffs (q :: query) (r :: record)) with ((r - q) :: diffs query record). split; [done|].
  split; [|split; [|split; [|split]]].
  - destruct Hmx as [->|Hin]; [|right; by right]. destruct (Z.ltb_spec mx (r - q)); [right; by left|by left].
  - destruct Hmn as [->|Hin]; [|right; by right]. destruct (Z.ltb_spec (r - q) mn); [right; by left|by left].
  - revert Hle. destruct (Z.ltb_spec mx (r - q)); lia.
  - revert Hge. destruct (Z.ltb_spec (r - q) mn); lia.
  - constructor; [|done]. revert Hle Hge. destruct (Z.ltb_spec mx (r - q)), (Z.ltb_spec (r - q) mn); lia.
Qed.

Lemma diffs_tiny query record : Forall tiny query -> Forall tiny record ->
  Forall (fun d => - 2 ^ 30 < d < 2 ^ 30) (diffs query record).
Proof.
  unfold diffs. intros Hq. revert record. induction Hq as [|q query Hq0 Hqs IH]; intros record Hr; [constructor|].
  destruct Hr as [|r record Hr0 Hrs]; [constructor|]. unfold tiny in *. constructor; [lia|by apply IH].
Qed.

(** The spread of a list of differences. *)
Definition spread (l : list Z) (d : Z) : Prop :=
  (exists a b, In a l /\ In b l /\ d = a - b) /\ forall a b, In a l -> In b l -> a - b <= d.

Lemma slop_run query record : query <> [] -> length query = length record -> Forall tiny query -> Forall tiny record ->
  exists d, getPhraseSlopDistance query record = Ok d /\ spread (diffs query record) d /\ 0 <= d < 2 ^ 31.
Proof.
  intros Hne Hlen Hq Hr. destruct (diff_range_run query record INT_MIN INT_MAX Hlen Hq Hr) as
    (mx & mn & E & Hmx & Hmn & _ & _ & Hall). pose proof (diffs_tiny _ _ Hq Hr) as Hsm. rewrite List.Forall_forall in Hall, Hsm.
  assert (exists x, In x (diffs query record)) as (x & Hx).
  { destruct query as [|q query]; [done|]. destruct record as [|r record]; [done|]. exists (r - q). by left. }
  pose proof (Hall x Hx). pose proof (Hsm x Hx). unfold INT_MIN, INT_MAX in *.
  destruct Hmx as [->|Hmx]; [lia|]. destruct Hmn as [->|Hmn]; [lia|].
  pose proof (Hsm _ Hmx). pose proof (Hsm _ Hmn). pose proof (Hall _ Hmx).
  exists (mx - mn). unfold getPhraseSlopDistance, INT_MIN, INT_MAX. rewrite E. cbn [rbind]. rewrite int32_small by lia.
  split; [done|]. split; [|lia]. split; [by exists mx, mn|]. intros a b Ha Hb. pose proof (Hall a Ha). pose proof (Hall b Hb). lia.
Qed.

(** The slop of a window: with positions and offsets below [2^30] the signed
    arithmetic does not overflow, and the distance is the spread of the
    differences between positions and offsets; it is 0 just when the window is the
    phrase at some place. *)
Theorem slop_distance (query record : list Z) :
  query <> [] -> length query = length record -> Forall tiny query -> Forall tiny record ->
  exists d, getPhraseSlopDistance query record = Ok d /\ spread (diffs query record) d /\
    (d = 0 <-> exists s, record = map (fun q => s + q) query).
Proof.
  intros Hne Hlen Hq Hr. destruct (slop_run query record Hne Hlen Hq Hr) as (d & E & [(a & b & Ha & Hb & Ed) Hall] & _).
  exists d. split; [done|]. split; [split; [by exists a, b|done]|]. split.
  - intros ->. exists a. assert (forall x, In x (diffs query record) -> x = a) as Hone.
    { intros x Hx. pose proof (Hall x a Hx Ha). pose proof (Hall a x Ha Hx). lia. }
    clear -Hlen Hone. revert record Hlen Hone. induction query as [|q query IH]; intros [|r record] Hlen Hone; try done.
    cbn. f_equal; [pose proof (Hone (r - q) ltac:(by left)); lia|]. apply IH; [by injection Hlen|]. intros x Hx. apply Hone. by right.
  - intros (s & ->). assert (forall x, In x (diffs query (map (fun q => s + q) query)) -> x = s) as Hone.
    { clear. induction query as [|q query IH]; [done|]. intros x [<-|Hx]; [lia|by apply IH]. }
    rewrite Ed, (Hone a Ha), (Hone b Hb). lia.
Qed.

Lemma slop_distance_witness : exists d, getPhraseSlopDistance [1; 2; 3; 4] [2; 1; 4; 3] = Ok d.
Proof.
  destruct (slop_distance [1; 2; 3; 4] [2; 1; 4; 3]) as (d & H & _).
  - discriminate.
  - reflexivity.
  - unfold tiny. repeat constructor; lia.
  - unfold tiny. repeat constructor; lia.
  - exists d. exact H.
Defined.

(** ** The windows that the heap visits *)

Lemma window_run P cursors : Forall2 (fun l c => (c < length l)%nat) P cursors ->
  exists m, window P cursors = Ok m /\ Forall2 (fun l x => In x l) P m /\
    forall i l c, P !! i = Some l -> cursors !! i = Some c -> exists x, m !! i = Some x /\ l !! c = Some x.
Proof.
  induction 1 as [|l c P cursors Hlc HP (m & E & Hin & Hm)]; [by exists []|].
  destruct (lookup_lt_is_Some_2 l c Hlc) as [x Hx]. exists (x :: m). cbn [window].
  assert (vec_at l (Z.of_nat c) = Ok x) as -> by (apply vec_at_nth; split; [lia|by rewrite Nat2Z.id]). rewrite E. split; [done|].
  split; [constructor; [|done]; apply list_elem_of_In; by eapply list_elem_of_lookup_2|].
  intros [|i] l' c' Hl Hc; cbn in Hl, Hc; [injection Hl as <-; injection Hc as <-; by exists x|by apply Hm].
Qed.

(** What the heap holds: one pair for each list, with the position under its cursor. *)
Record heap_ok (P : list (list Z)) (cursors : list nat) (h : list (Z * nat)) : Prop := {
  hp_sound : forall x i, (x, i) ∈ h -> exists l c, P !! i = Some l /\ cursors !! i = Some c /\ l !! c = Some x;
  hp_total : forall i, (i < length P)%nat -> exists x, (x, i) ∈ h;
  hp_unique : NoDup (map snd h) }.

Lemma elem_of_pop x y h : x ∈ pop y h -> x ∈ h.
Proof.
  induction h as [|z h IH]; cbn; [done|]. case_bool_decide; [set_solver|]. rewrite !elem_of_cons. tauto.
Qed.

Lemma pop_other x y h : x ∈ h -> x <> y -> x ∈ pop y h.
Proof.
  induction h as [|z h IH]; cbn; [done|]. intros Hx Hne. apply elem_of_cons in Hx as [->|Hx].
  - case_bool_decide; [by subst|by left].
  - case_bool_decide; [done|]. right. by apply IH.
Qed.

Lemma in_snd (x : Z) (i : nat) (h : list (Z * nat)) : (x, i) ∈ h -> i ∈ map snd h.
Proof. intros H. apply list_elem_of_In. apply list_elem_of_In in H. by apply (in_map snd) in H. Qed.

Lemma pop_gone x i h : NoDup (map snd h) -> (x, i) ∈ h -> i ∉ map snd (pop (x, i) h) /\ NoDup (map snd (pop (x, i) h)).
Proof.
  induction h as [|[y j] h IH]; cbn; [by intros _ ?%elem_of_nil|]. intros Hnd Hx. apply NoDup_cons in Hnd as [Hj Hnd].
  case_bool_decide as E; [injection E as <- <-; done|]. apply elem_of_cons in Hx as [Hx|Hx]; [done|].
  destruct (IH Hnd Hx) as [H1 H2]. cbn. assert (i <> j) by (intros ->; apply Hj; by eapply in_snd). split; [set_solver|].
  apply NoDup_cons. split; [|done]. intros Hin. apply Hj. apply list_elem_of_In in Hin. apply in_map_iff in Hin as ([z j'] & <- & Hz).
  apply list_elem_of_In, elem_of_pop in Hz. by eapply in_snd.
Qed.

Lemma heap_step P cursors h x i l c next : heap_ok P cursors h -> (x, i) ∈ h -> P !! i = Some l -> cursors !! i = Some c ->
  l !! S c = Some next -> heap_ok P (<[i := S c]> cursors) ((next, i) :: pop (x, i) h).
Proof.
  intros [Hs Ht Hu] Hx Hl Hc Hn. destruct (pop_gone _ _ _ Hu Hx) as [Hi Hnd].
  assert ((i < length cursors)%nat) as Hlt by (by apply lookup_lt_Some in Hc). split.
  - intros y j Hy. apply elem_of_cons in Hy as [Hy|Hy].
    + injection Hy as -> ->. exists l, (S c). split; [done|]. split; [by apply list_lookup_insert_eq|done].
    + assert (j <> i) by (intros ->; apply Hi; by eapply in_snd). rewrite list_lookup_insert_ne by done.
      apply Hs. by eapply elem_of_pop.
  - intros j Hj. destruct (decide (j = i)) as [->|Hne]; [exists next; by left|]. destruct (Ht j Hj) as [y Hy]. exists y. right.
    apply pop_other; [done|]. by intros [= _ ->].
  - cbn. by apply NoDup_cons.
Qed.

(** The positions not yet passed. *)
Fixpoint remaining (P : list (list Z)) (cursors : list nat) : nat :=
  match P, cursors with l :: P', c :: cursors' => (length l - c + remaining P' cursors')%nat | _, _ => 0%nat end.

Lemma remaining_step P : forall cursors i l c, P !! i = Some l -> cursors !! i = Some c -> (S c < length l)%nat ->
  (remaining P (<[i := S c]> cursors) < remaining P cursors)%nat.
Proof.
  induction P as [|l P IH]; intros cursors i l' c Hl Hc Hlt; [done|]. destruct cursors as [|c0 cursors]; [done|].
  destruct i as [|i]; cbn in Hl, Hc |- *.
  - injection Hl as ->. injection Hc as ->. lia.
  - apply Nat.add_lt_mono_l. exact (IH cursors i l' c Hl Hc Hlt).
Qed.

(** The window of the first positions at or after [v]. *)
Definition first_from (v : Z) (l : list Z) (x : Z) : Prop := List.find (fun y => v <=? y) l = Some x.

Lemma find_passed v l c x : Forall (fun y => y < v) (take c l) -> first_from v l x ->
  (c < length l)%nat /\ forall y, l !! c = Some y -> v <= y -> y = x.
Proof.
  unfold first_from. revert l. induction c as [|c IH]; intros l Hall Hf.
  - destruct l as [|z l]; [done|]. split; [cbn; lia|]. cbn. intros y [= ->] Hy. cbn in Hf.
    rewrite (proj2 (Z.leb_le _ _) Hy) in Hf. congruence.
  - destruct l as [|z l]; [done|]. cbn in Hall, Hf. inversion_clear Hall as [|? ? Hz Hall'].
    rewrite (proj2 (Z.leb_gt _ _) Hz) in Hf. destruct (IH l Hall' Hf). cbn. split; [lia|done].
Qed.

(** The cursors are at or before [v] in every list. *)
Definition behind (v : Z) (P : list (list Z)) (cursors : list nat) : Prop :=
  Forall2 (fun l c => Forall (fun y => y < v) (take c l)) P cursors.

Lemma behind_start v P : behind v P (replicate (length P) 0%nat).
Proof. induction P; constructor; [constructor|done]. Qed.

(** Either every cursor is at its first position from [v] on, or some position
    under a cursor is below [v]. *)
Lemma behind_cases v P cursors target : behind v P cursors -> Forall2 (first_from v) P target ->
  window P cursors = Ok target \/
  exists i l c y, P !! i = Some l /\ cursors !! i = Some c /\ l !! c = Some y /\ y < v.
Proof.
  intros Hb. revert target. induction Hb as [|l c P cursors Hlc Hb IH]; intros target Ht; inversion_clear Ht as [|? x ? target' Hx Ht'].
  - by left.
  - destruct (find_passed _ _ _ _ Hlc Hx) as [Hc Hy]. destruct (lookup_lt_is_Some_2 l c Hc) as [y Ey].
    destruct (Z.lt_ge_cases y v) as [Hlt|Hge]; [right; by exists 0%nat, l, c, y|].
    destruct (IH target' Ht') as [Hw|(i & l' & c' & y' & ? & ? & ? & ?)]; [left|right; by exists (S i), l', c', y'].
    cbn [window]. assert (vec_at l (Z.of_nat c) = Ok x) as ->; [|by rewrite Hw].
    apply vec_at_nth. split; [lia|]. rewrite Nat2Z.id, Ey. by rewrite (Hy y Ey Hge).
Qed.

Lemma behind_step v P cursors i l c y : behind v P cursors -> P !! i = Some l -> cursors !! i = Some c ->
  l !! c = Some y -> y < v -> behind v P (<[i := S c]> cursors).
Proof.
  intros Hb Hl Hc Hy Hlt. assert (Forall (fun y => y < v) (take (S c) l)) as Hall.
  { rewrite (take_S_r _ _ _ Hy). apply Forall_app. split; [|by constructor].
    exact (Forall2_lookup_lr _ _ _ _ _ _ Hb Hl Hc). }
  unfold behind. rewrite <- (list_insert_id P i l Hl). by apply Forall2_insert.
Qed.

Section proximity.
Context (top : list (Z * nat) -> option (Z * nat)) (Htop : forall h, h <> [] -> exists x, top h = Some x /\ least h x).
Context (P : list (list Z)) (offsets : list Z) (inputSlop : Z) (stop : bool).
Hypotheses (HP : Forall (Forall tiny) P) (Hoff : Forall tiny offsets) (Hlen : length P = length offsets)
  (Hne : P <> []) (Hslop : 0 < inputSlop <= slopThreshold).

(** A reported window: one position of each list, within the slop. *)
Definition reported (m : list Z) (d : Z) : Prop :=
  Forall2 (fun l x => In x l) P m /\ getPhraseSlopDistance offsets m = Ok d /\ 0 <= d <= inputSlop.

Lemma window_slop m : Forall2 (fun l x => In x l) P m ->
  exists d, getPhraseSlopDistance offsets m = Ok d /\ 0 <= d < 2 ^ 31.
Proof.
  intros Hm. destruct (slop_run offsets m) as (d & E & _ & Hd).
  - intros ->. by destruct P.
  - rewrite <- Hlen. by eapply Forall2_length.
  - done.
  - clear -HP Hm. induction Hm as [|l x ls m Hx Hm IH]; [constructor|]. inversion_clear HP as [|? ? Hl HP'].
    rewrite List.Forall_forall in Hl. constructor; auto.
  - by exists d.
Qed.

(** Advancing the list at the top does not pass a window that starts later. *)
Lemma advance_behind cursors h x i l c v target : heap_ok P cursors h -> least h (x, i) ->
  P !! i = Some l -> cursors !! i = Some c -> l !! c = Some x -> behind v P cursors -> Forall2 (first_from v) P target ->
  window P cursors = Ok target \/ behind v P (<[i := S c]> cursors) /\ (S c < length l)%nat.
Proof.
  intros Hh [Hin Hleast] Hl Hci Hx Hb Ht.
  destruct (behind_cases v P cursors target Hb Ht) as [Hw|(j & l' & c' & y & Hl' & Hc' & Hy & Hlt)]; [by left|right].
  destruct (hp_total _ _ _ Hh j ltac:(by eapply lookup_lt_Some)) as (y' & Hy').
  destruct (hp_sound _ _ _ Hh y' j Hy') as (l2 & c2 & Hl2 & Hc2 & Hy2). simplify_eq.
  specialize (Hleast _ Hy'). cbn in Hleast. assert (x < v) as Hxv by lia.
  pose proof (behind_step _ _ _ _ _ _ _ Hb Hl Hci Hx Hxv) as Hb'. split; [done|].
  destruct (Forall2_lookup_l _ _ _ _ _ Ht Hl) as (z & _ & Hz).
  assert (Forall (fun y => y < v) (take (S c) l)) as Hall.
  { apply (Forall2_lookup_lr _ _ _ i _ _ Hb' Hl). apply list_lookup_insert_eq. by apply lookup_lt_Some in Hci. }
  by destruct (find_passed _ _ _ _ Hall Hz).
Qed.

Lemma proximity_loop_run fuel : forall cursors h matched slops one,
  Forall2 (fun l c => (c < length l)%nat) P cursors -> heap_ok P cursors h -> (remaining P cursors < fuel)%nat ->
  exists ms ds, proximity_loop top fuel P offsets inputSlop h cursors stop matched slops one =
      Ok (one || negb (is_empty ms), matched ++ ms, slops ++ ds) /\ Forall2 reported ms ds /\
    forall v target d, behind v P cursors -> Forall2 (first_from v) P target -> reported target d ->
      if stop then ms <> [] else In target ms.
Proof.
  induction fuel as [|fuel IH]; intros cursors h matched slops one Hc Hh Hf; [lia|]. cbn [proximity_loop].
  destruct (window_run P cursors Hc) as (m & Em & Hm & Hat). rewrite Em. cbn [rbind].
  destruct (window_slop m Hm) as (d & Ed & Hd). rewrite Ed. cbn [rbind]. unfold slopThreshold in Hslop.
  rewrite int32_small by lia. assert (wrap32 d = d) as -> by (unfold wrap; apply Z.mod_small; lia).
  (* the rest of the loop *)
  destruct (Htop h) as ([x i] & Ex & Hleast).
  { intros ->. destruct (hp_total _ _ _ Hh 0%nat) as (x & Hx); [destruct P; [done|cbn; lia]|]. by apply elem_of_nil in Hx. }
  pose proof (proj1 Hleast) as Hin. destruct (hp_sound _ _ _ Hh x i Hin) as (l & c & Hl & Hci & Hx).
  assert (forall v target, behind v P cursors -> Forall2 (first_from v) P target -> m = target \/
    behind v P (<[i := S c]> cursors) /\ (S c < length l)%nat) as Hnext.
  { intros v target Hb Ht. destruct (advance_behind _ _ _ _ _ _ _ _ Hh Hleast Hl Hci Hx Hb Ht); [left; congruence|by right]. }
  set (matched1 := if d <=? inputSlop then matched ++ [m] else matched).
  set (slops1 := if d <=? inputSlop then slops ++ [d] else slops).
  destruct ((d <=? inputSlop) && stop) eqn:Estop.
  { apply andb_true_iff in Estop as [Eh Es]. exists [m], [d]. unfold matched1, slops1. rewrite Eh, Es. split; [by rewrite orb_true_r|].
    split; [|done]. constructor; [|constructor]. apply Z.leb_le in Eh. split; [done|]. split; [done|lia]. }
  rewrite Ex, Hl. cbn [of_option rbind]. rewrite Hci. cbn [of_option rbind].
  set (own := if d <=? inputSlop then [m] else []).
  set (ownd := if d <=? inputSlop then [d] else []).
  assert (matched1 = matched ++ own /\ slops1 = slops ++ ownd) as [-> ->]
    by (unfold matched1, slops1, own, ownd; destruct (d <=? inputSlop); by rewrite ?app_nil_r).
  assert (Forall2 reported own ownd) as Hown.
  { unfold own, ownd. destruct (Z.leb_spec d inputSlop); [|constructor]. constructor; [|constructor]. split; [done|]. split; [done|lia]. }
  assert (forall ms, (d <=? inputSlop) || one || negb (is_empty ms) = one || negb (is_empty (own ++ ms))) as Hbool
    by (intros ms; unfold own; destruct (d <=? inputSlop), one; done).
  assert (forall target d', m = target -> reported target d' -> own = [target]) as Hhit.
  { intros target d' -> (_ & E' & Hd'). assert (d' = d) as -> by congruence. unfold own. by rewrite (proj2 (Z.leb_le _ _)) by lia. }
  assert (forall target ms, own = [target] -> if stop then own ++ ms <> [] else In target (own ++ ms)) as Hshow.
  { intros target ms ->. destruct stop; [done|by left]. }
  destruct (Nat.leb_spec (length l) (S c)) as [Hend|Hgo].
  - exists own, ownd. split; [specialize (Hbool []); rewrite app_nil_r in Hbool; cbn in Hbool; rewrite orb_false_r in Hbool; by rewrite Hbool|].
    split; [done|]. intros v target d' Hb Ht Hr. destruct (Hnext v target Hb Ht) as [E|[_ Hlt]]; [|lia].
    specialize (Hshow target [] (Hhit _ _ E Hr)). by rewrite app_nil_r in Hshow.
  - destruct (lookup_lt_is_Some_2 l (S c) Hgo) as [next Hn].
    assert (vec_at l (Z.of_nat (S c)) = Ok next) as -> by (apply vec_at_nth; split; [lia|by rewrite Nat2Z.id]). cbn [rbind].
    destruct (IH (<[i := S c]> cursors) ((next, i) :: pop (x, i) h) (matched ++ own) (slops ++ ownd) ((d <=? inputSlop) || one))
      as (ms & ds & E & Hms & Hcomplete).
    + rewrite <- (list_insert_id P i l Hl). by apply Forall2_insert.
    + by eapply heap_step.
    + pose proof (remaining_step P cursors i l c Hl Hci Hgo). lia.
    + exists (own ++ ms), (ownd ++ ds). rewrite E, Hbool, <- !app_assoc. split; [done|]. split; [by apply Forall2_app|].
      intros v target d' Hb Ht Hr. destruct (Hnext v target Hb Ht) as [Em'|[Hb' _]]; [by apply (Hshow _ _ (Hhit _ _ Em' Hr))|].
      specialize (Hcomplete v target d' Hb' Ht Hr). destruct stop; [by destruct own|]. apply in_app_iff. by right.
Qed.
End proximity.

Lemma heap_start P : Forall (fun l => l <> []) P ->
  heap_ok P (replicate (length P) 0%nat) (imap (fun i l => (hd 0 l, i)) P).
Proof.
  intros Hn. assert (forall f : nat -> nat, (forall a b, f a = f b -> a = b) -> NoDup (map snd (imap (fun i l => (hd 0 l : Z, f i)) P))) as Hnd.
  { clear Hn. induction P as [|l P IH]; intros f Hf; [constructor|]. cbn [imap map]. constructor.
    - intros Hin. apply list_elem_of_In, in_map_iff in Hin as ([x j] & E & Hx). cbn in E. subst j.
      apply list_elem_of_In, elem_of_lookup_imap in Hx as (i & l' & [= _ E] & _). specialize (Hf _ _ E). discriminate.
    - apply (IH (fun i => f (S i))). intros a b E. specialize (Hf _ _ E). by injection Hf. }
  split.
  - intros x i Hx. apply elem_of_lookup_imap in Hx as (i' & l & [= -> ->] & Hl). exists l, 0%nat. split; [done|].
    split; [apply lookup_replicate; split; [done|by eapply lookup_lt_Some]|]. rewrite Forall_lookup in Hn. specialize (Hn _ _ Hl). by destruct l.
  - intros i Hi. destruct (lookup_lt_is_Some_2 P i Hi) as [l Hl]. exists (hd 0 l). apply elem_of_lookup_imap. by exists i, l.
  - by apply (Hnd (fun i => i)).
Qed.

Lemma remaining_start P : remaining P (replicate (length P) 0%nat) = length (concat P).
Proof. induction P as [|l P IH]; [done|]. cbn. rewrite length_app, IH. lia. Qed.

(** (C32) Proximity matches, whichever of the least pairs the priority queue puts on
    top: [proximityMatch] ends within one window for each position, answers
    whether it reports a window, and appends the reported windows with their
    slops.  A reported window has one position of each list and a slop of at most
    the given one; and every such window that consists, for some [v], of the first
    position at or after [v] in each list is reported (some window is, when it
    stops at the first match). *)
Theorem proximity_match_finds (top : list (Z * nat) -> option (Z * nat)) (P : list (list Z)) (offsets : list Z)
    (inputSlop : Z) (stop : bool) (matched : list (list Z)) (slops : list Z) :
  (forall h, h <> [] -> exists x, top h = Some x /\ least h x) ->
  (1 < length P)%nat -> length P = length offsets -> Forall (fun l => l <> []) P -> Forall (Forall tiny) P ->
  Forall tiny offsets -> 0 < inputSlop <= slopThreshold ->
  exists ms ds, proximityMatch top P offsets inputSlop stop matched slops =
      Ok (negb (is_empty ms), matched ++ ms, slops ++ ds) /\
    Forall2 (reported P offsets inputSlop) ms ds /\
    forall v target d, Forall2 (first_from v) P target -> reported P offsets inputSlop target d ->
      if stop then ms <> [] else In target ms.
Proof.
  intros Htop Hl Hlen Hn HP Hoff Hslop. unfold proximityMatch.
  assert (P <> []) as Hne by (by intros ->; cbn in Hl; lia). assert (is_empty P = false) as -> by (by destruct P).
  rewrite Hlen, Nat.eqb_refl. cbn [negb]. rewrite no_empty by done.
  assert (Nat.eqb (length offsets) 1 = false) as -> by (apply Nat.eqb_neq; lia).
  assert ((inputSlop =? 0) = false) as -> by (apply Z.eqb_neq; lia).
  assert ((slopThreshold <? inputSlop) = false) as -> by (apply Z.ltb_ge; lia). rewrite <- Hlen.
  destruct (proximity_loop_run top Htop P offsets inputSlop stop HP Hoff Hlen Hne Hslop (proximity_fuel P)
    (replicate (length P) 0%nat) (imap (fun i l => (hd 0 l, i)) P) matched slops false) as (ms & ds & E & Hms & Hall).
  - clear -Hn. induction Hn as [|l P Hl Hn IH]; [constructor|]. constructor; [by destruct l; cbn; [|lia]|done].
  - by apply heap_start.
  - rewrite remaining_start. unfold proximity_fuel. lia.
  - exists ms, ds. split; [exact E|]. split; [done|]. intros v target d. apply Hall, behind_start.
Qed.

Lemma first_least_least h : h <> [] -> exists x, first_least h = Some x /\ least h x.
Proof.
  destruct h as [|x h]; [done|]. intros _. eexists. split; [reflexivity|].
  revert x. induction h as [|y h IH]; intros x; cbn; [split; [by left|intros z Hz; apply list_elem_of_singleton in Hz as ->; lia]|].
  destruct (Z.ltb_spec y.1 x.1).
  - destruct (IH y) as [Hin Hle]. split; [set_solver|]. intros z Hz. apply elem_of_cons in Hz as [->|Hz]; [|by apply Hle].
    specialize (Hle y ltac:(by left)). lia.
  - destruct (IH x) as [Hin Hle]. split; [set_solver|]. intros z Hz. rewrite !elem_of_cons in Hz. destruct Hz as [->|[->|Hz]].
    + apply Hle. by left.
    + specialize (Hle x ltac:(by left)). lia.
    + apply Hle. by right.
Qed.

Lemma proximity_match_finds_witness : exists ms ds,
  proximityMatch first_least [[1; 10]; [5; 12]] [1; 2] 3 false [] [] = Ok (negb (is_empty ms), ms, ds) /\ In [1; 5] ms.
Proof.
  destruct (proximity_match_finds first_least [[1; 10]; [5; 12]] [1; 2] 3 false [] []) as (ms & ds & E & _ & H).
  - exact first_least_least.
  - cbn. lia.
  - reflexivity.
  - repeat constructor; discriminate.
  - unfold tiny. repeat constructor; lia.
  - unfold tiny. repeat constructor; lia.
  - unfold slopThreshold. lia.
  - exists ms, ds. split; [exact E|]. apply (H 1 [1; 5] 3).
    + repeat constructor.
    + split; [repeat constructor|split; [reflexivity|lia]].
Defined.

(** The heap advances the smallest position, not the smallest difference to the
    offset: a window within the slop can be passed over. *)
Lemma proximity_misses_window : proximityMatch first_least [[1; 10]; [4; 5]] [1; 6] 1 false [] [] = Ok (false, [], []) /\
  reported [[1; 10]; [4; 5]] [1; 6] 1 [1; 5] 1.
Proof.
  split; [reflexivity|]. split; [|split; [reflexivity|lia]]. constructor; [by left|]. constructor; [right; by left|constructor].
Qed.

(** The row of [geteditDistance_L] starts with 0 in its last place: two keywords
    and a third word are at distance 1. *)
Lemma edit_distance_wrong : geteditDistance_L [[97]; [98]] [[99]] = Ok 1 /\ geteditDistance_L [[97]; [98]] [] = Ok 0.
Proof. split; reflexivity. Qed.
End PhraseSearcher.
