(* ===== verification/CowVector.v ===== *)
(** * Copy-on-write vector (core/util/cowvector/cowvector.h)

    Arrays and views live in two stores; a view holds the address of its array and
    a 64-bit word with its size and two flags.  [readers] counts the shared
    pointers to a read view that readers hold; with the one of the vector and those
    of the manager they make up its reference count. *)
From S2P Require Import Prelude.
From Stdlib Require Import ZArith Lia List Bool.
From stdpp Require Import base gmap list fin_maps.
Open Scope Z_scope.

Module CowVector.

(** ** The size and the flags of a view *)

(** [1 << 31] is a negative [int]: its sign extends over the upper half of a
    [size_t]; [0xC0000000] is an [unsigned] and clears that half. *)
Definition write_mask : Z := wrap64 (- 2 ^ 31).

Definition size (f : Z) : Z := Z.land f 0x3FFFFFFF.
Definition setSize (n f : Z) : Z := Z.lor (Z.land f 0xC0000000) (Z.land n 0x3FFFFFFF).
Definition getNeedToFreeArray (f : Z) : bool := negb (Z.land f (2 ^ 30) =? 0).
Definition setNeedToFreeArray (flag : bool) (f : Z) : Z :=
  if flag then Z.lor f (2 ^ 30) else Z.land f (wrap64 (- 2 ^ 30 - 1)).
Definition setWriteView (f : Z) : Z := Z.lor f write_mask.
Definition setReadView (f : Z) : Z := Z.land f (2 ^ 31 - 1).
Definition isWriteView (f : Z) : bool := negb (Z.land f write_mask =? 0).
Definition isReadView (f : Z) : bool := negb (isWriteView f).

(** [array]: the elements of [new T[c]] are [None] until they are written. *)
Abbreviation array T := (list (option T)).

Section cowvector.
Context {T : Type}.

Definition new_array (c : Z) : array T := replicate (Z.to_nat c) None.

Record vectorview := mk_vv { m_array : ptr; m_sizeAndFlags : Z }.

Record cow := mk_cow {
  arrays : store (array T);
  views : store vectorview;
  m_readView : ptr;                  (* both addresses in [views] *)
  m_writeView : ptr;
  readers : gmap ptr nat;
  readViewGenerations : list (list ptr);
  currentGen : nat }.

Definition set_arrays (x : store (array T)) : st cow unit := modify (fun s =>
  mk_cow x (views s) (m_readView s) (m_writeView s) (readers s) (readViewGenerations s) (currentGen s)).
Definition set_views (x : store vectorview) : st cow unit := modify (fun s =>
  mk_cow (arrays s) x (m_readView s) (m_writeView s) (readers s) (readViewGenerations s) (currentGen s)).
Definition set_readView (x : ptr) : st cow unit := modify (fun s =>
  mk_cow (arrays s) (views s) x (m_writeView s) (readers s) (readViewGenerations s) (currentGen s)).
Definition set_writeView (x : ptr) : st cow unit := modify (fun s =>
  mk_cow (arrays s) (views s) (m_readView s) x (readers s) (readViewGenerations s) (currentGen s)).
Definition set_readers (x : gmap ptr nat) : st cow unit := modify (fun s =>
  mk_cow (arrays s) (views s) (m_readView s) (m_writeView s) x (readViewGenerations s) (currentGen s)).
Definition set_generations (x : list (list ptr)) (g : nat) : st cow unit := modify (fun s =>
  mk_cow (arrays s) (views s) (m_readView s) (m_writeView s) (readers s) x g).

Definition load_view (v : ptr) : st cow vectorview := let! h := reads views in lift (s_load h v).
Definition store_view (v : ptr) (x : vectorview) : st cow unit :=
  let! h := reads views in let! h' := lift (s_store h v x) in set_views h'.
Definition load_array (a : ptr) : st cow (array T) := let! h := reads arrays in lift (s_load h a).
Definition store_array (a : ptr) (x : array T) : st cow unit :=
  let! h := reads arrays in let! h' := lift (s_store h a x) in set_arrays h'.
Definition alloc_array (x : array T) : st cow ptr :=
  let! h := reads arrays in let (p, h') := s_new h x in set_arrays h' ;;; ret p.
Definition delete_array (a : ptr) : st cow unit :=
  let! h := reads arrays in let! h' := lift (s_delete h a) in set_arrays h'.
Definition alloc_view (x : vectorview) : st cow ptr :=
  let! h := reads views in let (p, h') := s_new h x in set_views h' ;;; ret p.

Definition on_flags (f : Z -> Z) (v : ptr) : st cow unit :=
  let! vv := load_view v in store_view v (mk_vv (m_array vv) (f (m_sizeAndFlags vv))).

(** ** Views *)

(** The copy constructor; the two flags and the size are set one after the other. *)
Definition copy_view (vv : vectorview) : vectorview :=
  mk_vv (m_array vv) (setNeedToFreeArray false (setWriteView (setSize (size (m_sizeAndFlags vv)) 0))).

(** The constructor with a capacity. *)
Definition new_view (capacity : Z) : st cow ptr :=
  let! a := alloc_array (new_array capacity) in
  alloc_view (mk_vv a (setNeedToFreeArray true (setWriteView (setSize 0 0)))).

(** The destructor: only a read view with the flag releases the array. *)
Definition destroy_view (v : ptr) : st cow unit :=
  let! vv := load_view v in
  (if isReadView (m_sizeAndFlags vv) && getNeedToFreeArray (m_sizeAndFlags vv)
   then delete_array (m_array vv) else ret tt) ;;;
  let! h := reads views in let! h' := lift (s_delete h v) in set_views h'.

(** The copy of the [size] first elements, the array that takes the place of the
    old one in the view, and the release of the old one when the view owns it. *)
Definition replace_array (v : ptr) (capacity : Z) : st cow unit :=
  let! vv := load_view v in
  let! ar := load_array (m_array vv) in
  let n := Z.to_nat (size (m_sizeAndFlags vv)) in
  if Nat.ltb (length ar) n || (capacity <? Z.of_nat n) then fail OutOfRange
  else
    let! a := alloc_array (take n ar ++ new_array (capacity - Z.of_nat n)) in
    (if getNeedToFreeArray (m_sizeAndFlags vv) then delete_array (m_array vv) else ret tt) ;;;
    store_view v (mk_vv a (setNeedToFreeArray true (m_sizeAndFlags vv))).

Definition forceCreateCopy (v : ptr) : st cow unit :=
  let! vv := load_view v in
  let! ar := load_array (m_array vv) in
  replace_array v (Z.of_nat (length ar)).

(** [while (i >= capacity) { capacity *= 2; capacity += 1; }] *)
Fixpoint grow (fuel : nat) (i capacity : Z) : result Z :=
  if i <? capacity then Ok capacity
  else match fuel with O => Err OutOfFuel | S fuel' => grow fuel' i (capacity * 2 + 1) end.

(** [at(i)] up to the reference it returns. *)
Definition at_ (v : ptr) (i : Z) : st cow unit :=
  let! vv := load_view v in
  let! ar := load_array (m_array vv) in
  assert_ (isWriteView (m_sizeAndFlags vv) || (i <? size (m_sizeAndFlags vv))) ;;;
  (if Z.of_nat (length ar) <=? i then
     let! capacity := lift (grow 33 i (Z.of_nat (length ar))) in replace_array v capacity
   else ret tt) ;;;
  let! vv := load_view v in
  if size (m_sizeAndFlags vv) <=? i then on_flags (setSize (i + 1)) v else ret tt.

(** [view[i] = x] *)
Definition assign (v : ptr) (i : Z) (x : T) : st cow unit :=
  at_ v i ;;;
  let! vv := load_view v in
  let! ar := load_array (m_array vv) in
  let! ar' := lift (vec_set ar i (Some x)) in
  store_array (m_array vv) ar'.

Definition push_back (v : ptr) (x : T) : st cow unit :=
  let! vv := load_view v in
  assert_ (isWriteView (m_sizeAndFlags vv)) ;;;
  assign v (size (m_sizeAndFlags vv)) x.

Definition getElement (v : ptr) (i : Z) : st cow (option T) :=
  let! vv := load_view v in
  let! ar := load_array (m_array vv) in lift (vec_at ar i).

Definition clear (v : ptr) : st cow unit := on_flags (setSize 0) v.

(** ** Reference counts *)

Definition reader_count (s : cow) (v : ptr) : nat := default 0%nat (readers s !! v).
Definition use_count (s : cow) (v : ptr) : nat :=
  ((if bool_decide (m_readView s = v) then 1 else 0) +
   count_occ N.eq_dec (concat (readViewGenerations s)) v + reader_count s v)%nat.

(** After a shared pointer to [v] is gone: the last one destroys the view. *)
Definition release_view (v : ptr) : st cow unit :=
  let! n := reads (fun s => use_count s v) in
  if Nat.eqb n 0 then destroy_view v else ret tt.

Definition unique (s : cow) (v : ptr) : bool := Nat.eqb (use_count s v) 1.

(** ** The manager of the read views *)

Definition incrementGeneration : st cow unit :=
  let! g := reads readViewGenerations in let! c := reads currentGen in set_generations (g ++ [[]]) (S c).

Definition storeReadView (v : ptr) : st cow unit :=
  let! g := reads readViewGenerations in let! c := reads currentGen in
  let! l := lift (of_option OutOfRange (g !! c)) in
  set_generations (<[c := l ++ [v]]> g) c.

(** [readViewGroups.clear()]: the pointers go one after the other. *)
Fixpoint clear_group (i : nat) (l : list ptr) : st cow unit :=
  match l with
  | [] => ret tt
  | v :: l' =>
      let! g := reads readViewGenerations in let! c := reads currentGen in
      set_generations (<[i := l']> g) c ;;;
      release_view v ;;;
      clear_group i l'
  end.

Fixpoint clean_from (i n : nat) : st cow unit :=
  match n with
  | O => ret tt
  | S n' =>
      let! g := reads readViewGenerations in
      let! l := lift (of_option OutOfRange (g !! i)) in
      let! hasReader := reads (fun s => existsb (fun v => negb (unique s v)) l) in
      (if hasReader then ret tt else clear_group i l) ;;;
      clean_from (S i) n'
  end.

Definition cleanReadViews : st cow unit :=
  let! g := reads readViewGenerations in clean_from 0 (length g - 1).

(** ** The vector *)

Definition cowvector_ (capacity : Z) : st cow unit :=
  let! v := new_view capacity in set_writeView v ;;; set_readView v.

Definition getReadView : st cow ptr :=
  let! v := reads m_readView in
  let! r := reads readers in
  set_readers (<[v := S (default 0%nat (r !! v))]> r) ;;; ret v.

(** A reader gives its pointer up. *)
Definition drop_reader (v : ptr) : st cow unit :=
  let! r := reads readers in
  match r !! v with
  | Some (S n) => set_readers (<[v := n]> r) ;;; release_view v
  | _ => fail AssertFailed
  end.

Definition commit : st cow unit :=
  let! r := reads m_readView in
  on_flags setReadView r ;;;
  let! vv := load_view r in
  let! w := alloc_view (copy_view vv) in set_writeView w.

(** [merge] with or without a manager. *)
Definition merge (readViewManager : bool) : st cow unit :=
  let! r := reads m_readView in
  let! w := reads m_writeView in
  assert_ (negb (bool_decide (r = w))) ;;;
  let! rv := load_view r in
  let! wv := load_view w in
  (if bool_decide (m_array rv = m_array wv) then
     on_flags (setNeedToFreeArray false) r ;;;
     let! u := reads (fun s => unique s r) in
     (if readViewManager && negb u then storeReadView r else ret tt)
   else
     on_flags (setNeedToFreeArray true) r ;;;
     (if readViewManager then storeReadView r ;;; incrementGeneration else ret tt)) ;;;
  (if readViewManager then cleanReadViews else ret tt) ;;;
  set_readView w ;;;
  release_view r ;;;
  on_flags setReadView w ;;;
  let! vv := load_view w in
  let! w' := alloc_view (copy_view vv) in set_writeView w'.

(** A vector after the constructor and [commit]. *)
Definition empty_cow : cow := mk_cow empty_store empty_store NULL NULL ∅ [[]] 0.
End cowvector.
Arguments cow : clear implicits.
(** ** The flags, bit by bit *)

Lemma mask_size i : 0 <= i -> Z.testbit 0x3FFFFFFF i = (i <? 30).
Proof.
  intros Hi. change 0x3FFFFFFF with (Z.ones 30). rewrite Z.testbit_ones by lia.
  by rewrite (proj2 (Z.leb_le 0 i) Hi).
Qed.

Lemma mask_flags i : 0 <= i -> Z.testbit 0xC0000000 i = (30 <=? i) && (i <? 32).
Proof.
  intros Hi. change 0xC0000000 with (Z.shiftl (Z.ones 2) 30). rewrite Z.shiftl_spec, Z.testbit_ones by lia.
  f_equal; [destruct (Z.leb_spec 0 (i - 30)), (Z.leb_spec 30 i)|destruct (Z.ltb_spec (i - 30) 2), (Z.ltb_spec i 32)]; (done || lia).
Qed.

Lemma mask_write i : 0 <= i -> Z.testbit write_mask i = (31 <=? i) && (i <? 64).
Proof.
  intros Hi. change write_mask with (Z.shiftl (Z.ones 33) 31). rewrite Z.shiftl_spec, Z.testbit_ones by lia.
  f_equal; [destruct (Z.leb_spec 0 (i - 31)), (Z.leb_spec 31 i)|destruct (Z.ltb_spec (i - 31) 33), (Z.ltb_spec i 64)]; (done || lia).
Qed.

Lemma mask_need i : 0 <= i -> Z.testbit (wrap64 (- 2 ^ 30 - 1)) i = (i <? 64) && negb (i =? 30).
Proof.
  intros Hi. change (wrap64 (- 2 ^ 30 - 1)) with (Z.ldiff (Z.ones 64) (2 ^ 30)).
  rewrite Z.ldiff_spec, Z.testbit_ones, Z.pow2_bits_eqb by lia. rewrite (proj2 (Z.leb_le 0 i) Hi), (Z.eqb_sym 30). done.
Qed.

Lemma mask_read i : 0 <= i -> Z.testbit (2 ^ 31 - 1) i = (i <? 31).
Proof.
  intros Hi. change (2 ^ 31 - 1) with (Z.ones 31). rewrite Z.testbit_ones by lia. by rewrite (proj2 (Z.leb_le 0 i) Hi).
Qed.

(** The word of a view with [n] elements. *)
Record flags (f n : Z) (w need : bool) : Prop := {
  fl_range : 0 <= n < 2 ^ 30;
  fl_size : forall i, 0 <= i < 30 -> Z.testbit f i = Z.testbit n i;
  fl_need : Z.testbit f 30 = need;
  fl_write : Z.testbit f 31 = w;
  fl_high : w = false -> forall i, 31 <= i -> Z.testbit f i = false }.

Ltac bits := repeat match goal with
  | |- context [?a <? ?b] => destruct (Z.ltb_spec a b)
  | |- context [?a <=? ?b] => destruct (Z.leb_spec a b)
  | |- context [?a =? ?b] => destruct (Z.eqb_spec a b)
  end; try lia; rewrite ?andb_true_r, ?andb_false_r, ?orb_false_r, ?orb_true_r.

Lemma flags_size f n w need : flags f n w need -> size f = n.
Proof.
  intros [Hn Hs _ _ _]. apply Z.bits_inj'. intros i Hi. unfold size. rewrite Z.land_spec, mask_size by done. bits; [by apply Hs|].
  by rewrite (testbit_above n 30).
Qed.

Lemma zero_bits f : (forall i, 0 <= i -> Z.testbit f i = false) -> f = 0.
Proof. intros H. apply Z.bits_inj'. intros i Hi. by rewrite Z.bits_0, H. Qed.

Lemma nonzero_bit f i : Z.testbit f i = true -> f <> 0.
Proof. intros H ->. by rewrite Z.bits_0 in H. Qed.

Lemma flags_isWriteView f n w need : flags f n w need -> isWriteView f = w.
Proof.
  intros [_ _ _ Hw Hh]. unfold isWriteView. destruct w.
  - apply negb_true_iff, Z.eqb_neq. apply (nonzero_bit _ 31). by rewrite Z.land_spec, mask_write, Hw by lia.
  - apply negb_false_iff, Z.eqb_eq, zero_bits. intros i Hi. rewrite Z.land_spec, mask_write by done. bits; try done. by apply Hh.
Qed.

Lemma flags_getNeed f n w need : flags f n w need -> getNeedToFreeArray f = need.
Proof.
  intros [_ _ Hn _ _]. unfold getNeedToFreeArray. destruct need.
  - apply negb_true_iff, Z.eqb_neq. apply (nonzero_bit _ 30). by rewrite Z.land_spec, Z.pow2_bits_eqb, Hn by lia.
  - apply negb_false_iff, Z.eqb_eq, zero_bits. intros i Hi. rewrite Z.land_spec, Z.pow2_bits_eqb by lia.
    destruct (Z.eqb_spec 30 i) as [<-|]; [by rewrite Hn|by rewrite andb_false_r].
Qed.

Lemma flags_setSize f n w need m : flags f n w need -> 0 <= m < 2 ^ 30 -> flags (setSize m f) m w need.
Proof.
  intros [_ _ Hn Hw Hh] Hm. unfold setSize.
  split; [done|intros i Hi| | |intros E i Hi]; rewrite Z.lor_spec, !Z.land_spec, mask_flags, mask_size by lia; bits;
    rewrite ?Hn, ?Hw; try done. by rewrite Hh.
Qed.

Lemma flags_setNeed f n w need b : flags f n w need -> flags (setNeedToFreeArray b f) n w b.
Proof.
  intros [Hr Hs Hn Hw Hh]. unfold setNeedToFreeArray. destruct b.
  - split; [done|intros i Hi| | |intros E i Hi]; rewrite Z.lor_spec, Z.pow2_bits_eqb by lia; bits; rewrite ?Hw; try done; [by apply Hs|by apply Hh].
  - split; [done|intros i Hi| | |intros E i Hi]; rewrite Z.land_spec, mask_need by lia; bits; cbn; rewrite ?andb_true_r, ?andb_false_r, ?Hw; try done;
      [by apply Hs|by apply Hh].
Qed.

Lemma flags_setWrite f n w need : flags f n w need -> flags (setWriteView f) n true need.
Proof.
  intros [Hr Hs Hn Hw Hh]. unfold setWriteView.
  split; [done|intros i Hi| | |done]; rewrite Z.lor_spec, mask_write by lia; bits; rewrite ?Hw, ?Hn; try done. by apply Hs.
Qed.

Lemma flags_setRead f n w need : flags f n w need -> flags (setReadView f) n false need.
Proof.
  intros [Hr Hs Hn Hw Hh]. unfold setReadView.
  split; [done|intros i Hi| | |intros _ i Hi]; rewrite Z.land_spec, mask_read by lia; bits; rewrite ?Hn; try done. by apply Hs.
Qed.

Lemma flags_new n : 0 <= n < 2 ^ 30 -> flags (setSize n 0) n false false.
Proof. intros Hn. apply (flags_setSize 0 0); [|done]. split; intros; by rewrite ?Z.bits_0. Qed.

Lemma flags_copy n : 0 <= n < 2 ^ 30 -> flags (setNeedToFreeArray false (setWriteView (setSize n 0))) n true false.
Proof. intros Hn. eapply flags_setNeed, flags_setWrite, flags_new, Hn. Qed.

(** ** Growth *)

(** The capacity found is above the index; 33 doublings are enough for an
    [unsigned] index. *)
Lemma cow_grow_run fuel : forall i c, 0 <= c -> i < 2 ^ Z.of_nat fuel * (c + 1) - 1 ->
  exists c', grow fuel i c = Ok c' /\ i < c' /\ c <= c'.
Proof.
  induction fuel as [|fuel IH]; intros i c Hc Hi; cbn [grow].
  - change (2 ^ Z.of_nat 0) with 1 in Hi. destruct (Z.ltb_spec i c); [by exists c|lia].
  - destruct (Z.ltb_spec i c); [by exists c|]. rewrite Nat2Z.inj_succ, Z.pow_succ_r in Hi by lia.
    destruct (IH i (c * 2 + 1)) as (c' & E & ? & ?); [lia|lia|]. exists c'. split; [done|]. lia.
Qed.
(** ** The invariant *)

Section invariant.
Context {T : Type}.
Implicit Types (s : cow T) (d draft : list T).

Record item := mk_item { it_v : ptr; it_d : list T }.
Implicit Types (it rd : item) (olds : list (ptr * list item)).

(** The view of [it] is in place, with the array [a], and shows the elements of [it]. *)
Definition view_at s (a : ptr) (w need : bool) (it : item) : Prop :=
  exists f ar, cells (views s) !! it_v it = Some (mk_vv a f) /\ flags f (Z.of_nat (length (it_d it))) w need /\
    cells (arrays s) !! a = Some ar /\ take (length (it_d it)) ar = map Some (it_d it).

(** A finished generation: only its last view frees the array.  Or it was cleared. *)
Definition old_ok s (g : ptr * list item) : Prop :=
  g.2 = [] \/ exists l r, g.2 = l ++ [r] /\ Forall (view_at s g.1 false false) l /\ view_at s g.1 false true r.

Definition addrs olds : list ptr := concat (map (fun g => map it_v g.2) olds).

(** [own]: the write view has an array of its own. *)
Definition write_arrays (own : bool) (aW : ptr) : list ptr := if own then [aW] else [].

Record inv s olds (cur : list item) rd (aR aW : ptr) draft (own : bool) : Prop := {
  iv_awf : store_wf (arrays s);
  iv_vwf : store_wf (views s);
  iv_gens : readViewGenerations s = map (fun g => map it_v g.2) olds ++ [map it_v cur];
  iv_gen : currentGen s = length olds;
  iv_read : m_readView s = it_v rd;
  iv_nodup : NoDup (m_writeView s :: it_v rd :: map it_v cur ++ addrs olds);
  iv_olds : Forall (old_ok s) olds;
  iv_cur : Forall (view_at s aR false false) cur;
  iv_rd : exists need, view_at s aR false need rd;
  iv_write : view_at s aW true own (mk_item (m_writeView s) draft);
  iv_arrays : NoDup (aR :: write_arrays own aW ++ map fst olds);
  iv_below : Forall (fun g => (g.1 < next_addr (arrays s))%N) olds;
  iv_share : own = false -> aW = aR;
  iv_sizes : own = false -> Forall (fun it => (length (it_d it) <= length draft)%nat) (rd :: cur);
  iv_readers : forall v, (0 < reader_count s v)%nat -> v = it_v rd \/ v ∈ map it_v cur ++ addrs olds }.

Definition upd s (A : store (array T)) (V : store vectorview) : cow T :=
  mk_cow A V (m_readView s) (m_writeView s) (readers s) (readViewGenerations s) (currentGen s).

Lemma view_at_frame s s' a w need it : view_at s a w need it ->
  cells (views s') !! it_v it = cells (views s) !! it_v it ->
  (forall ar, cells (arrays s) !! a = Some ar -> exists ar', cells (arrays s') !! a = Some ar' /\
    take (length (it_d it)) ar' = take (length (it_d it)) ar) -> view_at s' a w need it.
Proof.
  intros (f & ar & Hv & Hf & Ha & Ht) Ev Har. destruct (Har ar Ha) as (ar' & Ha' & Et).
  exists f, ar'. rewrite Ev, Et. done.
Qed.

(** What a change of the write view must keep of the arrays that readers use. *)
Definition keeps s (A : store (array T)) (aR : ptr) olds draft (own : bool) : Prop :=
  forall a ar, a ∈ aR :: map fst olds -> cells (arrays s) !! a = Some ar -> exists ar', cells A !! a = Some ar' /\
    (if own then ar' = ar else if decide (a = aR) then take (length draft) ar' = take (length draft) ar else ar' = ar).

Lemma take_le {A} (n m : nat) (l l' : list A) : (n <= m)%nat -> take m l' = take m l -> take n l' = take n l.
Proof. intros Hnm E. rewrite <- (Nat.min_l n m) by done. by rewrite <- !take_take, E. Qed.

Lemma old_ok_frame s s' g : old_ok s g ->
  (forall it, it ∈ g.2 -> cells (views s') !! it_v it = cells (views s) !! it_v it) ->
  (g.2 <> [] -> cells (arrays s') !! g.1 = cells (arrays s) !! g.1) -> old_ok s' g.
Proof.
  intros [E|(l & r & E & Hl & Hr)] Hv Ha; [by left|right]. exists l, r. split; [done|].
  assert (cells (arrays s') !! g.1 = cells (arrays s) !! g.1) as Ea by (apply Ha; rewrite E; by destruct l).
  split.
  - rewrite Forall_forall in Hl |- *. intros it Hit. apply (view_at_frame s); [by apply Hl|apply Hv; rewrite E; set_solver|].
    intros ar Har. rewrite Ea. eauto.
  - apply (view_at_frame s); [done|apply Hv; rewrite E; set_solver|]. intros ar Har. rewrite Ea. eauto.
Qed.

Lemma inv_write s olds cur rd aR aW draft own A V aW' draft' own' :
  inv s olds cur rd aR aW draft own -> store_wf A -> store_wf V -> (next_addr (arrays s) <= next_addr A)%N ->
  (forall p, p <> m_writeView s -> cells V !! p = cells (views s) !! p) -> keeps s A aR olds draft own ->
  view_at (upd s A V) aW' true own' (mk_item (m_writeView s) draft') ->
  NoDup (aR :: write_arrays own' aW' ++ map fst olds) -> (own' = false -> aW' = aR) ->
  (own' = false -> own = false /\ (length draft <= length draft')%nat) ->
  inv (upd s A V) olds cur rd aR aW' draft' own'.
Proof.
  intros Hi HA HV Hnext Hviews Hkeep Hw Hnd Hsh Hown. pose proof (iv_nodup _ _ _ _ _ _ _ _ Hi) as Hnv.
  apply NoDup_cons in Hnv as [Hwv _]. rewrite elem_of_cons, elem_of_app in Hwv.
  assert (forall need it, view_at s aR false need it -> it_v it <> m_writeView s ->
    (own = false -> (length (it_d it) <= length draft)%nat) -> view_at (upd s A V) aR false need it) as Hshared.
  { intros need it Hit Hne Hle. apply (view_at_frame s); [done|by apply Hviews|]. intros ar Har.
    destruct (Hkeep aR ar ltac:(by left) Har) as (ar' & Har' & E). exists ar'. split; [done|].
    destruct own; [by subst|]. rewrite decide_True in E by done. by apply (take_le _ _ _ _ (Hle eq_refl)). }
  destruct Hi. split; try done.
  - apply Forall_forall. intros g Hg. rewrite Forall_forall in iv_olds0. apply (old_ok_frame s); [by apply iv_olds0| |].
    + intros it Hit. apply Hviews. intros E. apply Hwv. right. right. rewrite <- E. unfold addrs.
      apply list_elem_of_In, in_concat. exists (map it_v g.2). split; apply in_map_iff.
      * exists g. split; [done|by apply list_elem_of_In].
      * exists it. split; [done|by apply list_elem_of_In].
    + intros Hne. destruct (iv_olds0 g Hg) as [E|(l & r & E & _ & (f & ar & _ & _ & Har & _))]; [done|]. cbn.
      assert (g.1 ∈ map fst olds) as Hin by (apply list_elem_of_In, in_map; by apply list_elem_of_In).
      destruct (Hkeep g.1 ar ltac:(by right) Har) as (ar' & -> & E'). rewrite Har. destruct own; [by subst|].
      rewrite decide_False in E'; [by subst|]. intros E2. apply NoDup_cons in Hnd as [Hnot _]. apply Hnot. rewrite <- E2. apply elem_of_app. by right.
  - apply Forall_forall. intros it Hit. rewrite Forall_forall in iv_cur0. apply Hshared; [by apply iv_cur0| |].
    + intros E. apply Hwv. right. left. rewrite <- E. apply list_elem_of_In, in_map. by apply list_elem_of_In.
    + intros Eo. specialize (iv_sizes0 Eo). rewrite Forall_cons, Forall_forall in iv_sizes0. by apply iv_sizes0.
  - destruct iv_rd0 as (need & Hrd). exists need. apply Hshared; [done|intros E; apply Hwv; by left|].
    intros Eo. specialize (iv_sizes0 Eo). by inversion_clear iv_sizes0.
  - eapply Forall_impl; [exact iv_below0|]. cbn. lia.
  - intros Eo. destruct (Hown Eo) as [Eo' Hle]. eapply Forall_impl; [by apply iv_sizes0|]. cbn. lia.
Qed.

(** ** Runs of the accesses *)

Definition s_put {A} (h : store A) (p : ptr) (x : A) : store A := mk_store (<[p := x]> (cells h)) (next_addr h).
Definition s_del {A} (h : store A) (p : ptr) : store A := mk_store (delete p (cells h)) (next_addr h).

Lemma s_put_wf {A} (h : store A) p x : store_wf h -> is_Some (cells h !! p) -> store_wf (s_put h p x).
Proof.
  intros [H0 H] Hp. split; [done|]. intros q Hq. cbn in Hq. destruct (decide (q = p)) as [->|Hne]; [by apply H|].
  rewrite lookup_insert_ne in Hq by done. by apply H.
Qed.

Lemma s_del_wf {A} (h : store A) p : store_wf h -> store_wf (s_del h p).
Proof. intros [H0 H]. split; [done|]. intros q [x Hq]. cbn in Hq. apply lookup_delete_Some in Hq as [_ Hq]. apply H. by exists x. Qed.

Lemma wf_nonnull {A} (h : store A) p x : store_wf h -> cells h !! p = Some x -> p <> NULL /\ (p < next_addr h)%N.
Proof. intros [_ H] Hp. specialize (H p ltac:(by exists x)). unfold NULL. lia. Qed.

Lemma s_load_run {A} (h : store A) p x : store_wf h -> cells h !! p = Some x -> s_load h p = Ok x.
Proof. intros Hwf Hp. apply s_load_Ok. split; [by eapply wf_nonnull|done]. Qed.

Lemma s_store_run {A} (h : store A) p x y : store_wf h -> cells h !! p = Some y -> s_store h p x = Ok (s_put h p x).
Proof. intros Hwf Hp. apply s_store_Ok. split; [by eapply wf_nonnull|]. split; [by exists y|done]. Qed.

Lemma s_delete_run {A} (h : store A) p y : store_wf h -> cells h !! p = Some y -> s_delete h p = Ok (s_del h p).
Proof.
  intros Hwf Hp. unfold s_delete. destruct (wf_nonnull _ _ _ Hwf Hp) as [Hn _].
  rewrite decide_False by done. by rewrite (s_load_run _ _ _ Hwf Hp).
Qed.

Lemma cow_load_view_run s v x : store_wf (views s) -> cells (views s) !! v = Some x -> load_view v s = Ok (x, s).
Proof. intros Hwf Hv. unfold load_view, bind, reads, lift. by rewrite (s_load_run _ _ _ Hwf Hv). Qed.

Lemma cow_store_view_run s v x y : store_wf (views s) -> cells (views s) !! v = Some y ->
  store_view v x s = Ok (tt, upd s (arrays s) (s_put (views s) v x)).
Proof. intros Hwf Hv. unfold store_view, bind, reads, lift. by rewrite (s_store_run _ _ _ _ Hwf Hv). Qed.

Lemma load_array_run s a x : store_wf (arrays s) -> cells (arrays s) !! a = Some x -> load_array a s = Ok (x, s).
Proof. intros Hwf Hv. unfold load_array, bind, reads, lift. by rewrite (s_load_run _ _ _ Hwf Hv). Qed.

Lemma store_array_run s a x y : store_wf (arrays s) -> cells (arrays s) !! a = Some y ->
  store_array a x s = Ok (tt, upd s (s_put (arrays s) a x) (views s)).
Proof. intros Hwf Hv. unfold store_array, bind, reads, lift. by rewrite (s_store_run _ _ _ _ Hwf Hv). Qed.

Lemma delete_array_run s a y : store_wf (arrays s) -> cells (arrays s) !! a = Some y ->
  delete_array a s = Ok (tt, upd s (s_del (arrays s) a) (views s)).
Proof. intros Hwf Hv. unfold delete_array, bind, reads, lift. by rewrite (s_delete_run _ _ _ Hwf Hv). Qed.

Lemma alloc_array_run s x : alloc_array x s = Ok (next_addr (arrays s), upd s (s_new (arrays s) x).2 (views s)).
Proof. done. Qed.

Lemma on_flags_run s f v a w : store_wf (views s) -> cells (views s) !! v = Some (mk_vv a w) ->
  on_flags f v s = Ok (tt, upd s (arrays s) (s_put (views s) v (mk_vv a (f w)))).
Proof.
  intros Hwf Hv. unfold on_flags. rewrite (bind_run _ _ _ _ _ (cow_load_view_run _ _ _ Hwf Hv)).
  exact (cow_store_view_run _ _ _ _ Hwf Hv).
Qed.

Lemma below_fresh s olds cur rd aR aW draft own a : inv s olds cur rd aR aW draft own ->
  a ∈ aR :: write_arrays own aW ++ map fst olds -> (a < next_addr (arrays s))%N.
Proof.
  intros Hi Ha. destruct Hi. rewrite elem_of_cons, elem_of_app in Ha. destruct Ha as [->|[Ha|Ha]].
  - destruct iv_rd0 as (need & f & ar & _ & _ & Har & _). by destruct (wf_nonnull _ _ _ iv_awf0 Har).
  - destruct iv_write0 as (f & ar & _ & _ & Har & _). destruct own; [|by apply elem_of_nil in Ha].
    apply list_elem_of_singleton in Ha as ->. by destruct (wf_nonnull _ _ _ iv_awf0 Har).
  - apply list_elem_of_In, in_map_iff in Ha as (g & <- & Hg). rewrite List.Forall_forall in iv_below0. by apply iv_below0.
Qed.

(** ** The operations of the writer *)

Lemma cow_replace_run s olds cur rd aR aW draft own capacity : inv s olds cur rd aR aW draft own ->
  Z.of_nat (length draft) <= capacity -> exists s' aW' ar', replace_array (m_writeView s) capacity s = Ok (tt, s') /\
    inv s' olds cur rd aR aW' draft true /\ m_writeView s' = m_writeView s /\ readers s' = readers s /\
    cells (arrays s') !! aW' = Some ar' /\ Z.of_nat (length ar') = capacity.
Proof.
  intros Hi Hcap. pose proof (iv_write _ _ _ _ _ _ _ _ Hi) as (f & ar & Hv & Hf & Har & Ht). cbn [it_v it_d] in *.
  pose proof (iv_vwf _ _ _ _ _ _ _ _ Hi) as Hvwf. pose proof (iv_awf _ _ _ _ _ _ _ _ Hi) as Hawf.
  unfold replace_array. rewrite (bind_run _ _ _ _ _ (cow_load_view_run _ _ _ Hvwf Hv)). cbn [m_array m_sizeAndFlags].
  rewrite (bind_run _ _ _ _ _ (load_array_run _ _ _ Hawf Har)). rewrite (flags_size _ _ _ _ Hf), Nat2Z.id.
  assert ((length draft <= length ar)%nat) as Hlen.
  { apply (f_equal length) in Ht. rewrite length_take, length_map in Ht. lia. }
  rewrite (proj2 (Nat.ltb_ge _ _) Hlen), (proj2 (Z.ltb_ge _ _) Hcap). cbn [orb].
  rewrite (bind_run _ _ _ _ _ (alloc_array_run _ _)). rewrite (flags_getNeed _ _ _ _ Hf), Ht.
  set (ar' := map Some draft ++ new_array (capacity - Z.of_nat (length draft))). set (a' := next_addr (arrays s)).
  set (A1 := (s_new (arrays s) ar').2). assert (store_wf A1) as HA1 by by apply s_new_wf.
  assert (forall a, (a < a')%N -> cells A1 !! a = cells (arrays s) !! a) as Hold by (intros a Ha; cbn; apply lookup_insert_ne; lia).
  assert (aW < a')%N as HaW by (by destruct (wf_nonnull _ _ _ Hawf Har)).
  set (A2 := if own then s_del A1 aW else A1).
  assert ((if own then delete_array aW else ret tt) (upd s A1 (views s)) = Ok (tt, upd s A2 (views s))) as Hdel.
  { unfold A2. destruct own; [|done]. apply (delete_array_run (upd s A1 (views s)) aW ar); [done|]. cbn [arrays upd]. by rewrite Hold. }
  rewrite (bind_run _ _ _ _ _ Hdel). set (vv := mk_vv a' (setNeedToFreeArray true f)).
  rewrite (cow_store_view_run (upd s A2 (views s)) (m_writeView s) vv (mk_vv aW f)) by done.
  assert (cells A2 !! a' = Some ar') as Ha'.
  { unfold A2. destruct own; cbn; [rewrite lookup_delete_ne by lia|]; by rewrite lookup_insert_eq. }
  eexists _, a', ar'. split; [reflexivity|]. cbn [upd arrays views]. split; [|split; [done|split; [done|split; [done|]]]].
  - change (upd (upd s A2 (views s)) A2 (s_put (views s) (m_writeView s) vv)) with (upd s A2 (s_put (views s) (m_writeView s) vv)).
    apply (inv_write s olds cur rd aR aW draft own); [done| | | | | | | | |done].
    + unfold A2. destruct own; [by apply s_del_wf|done].
    + apply s_put_wf; [done|by exists (mk_vv aW f)].
    + unfold A2. destruct own; cbn; lia.
    + intros p Hp. cbn. by rewrite lookup_insert_ne.
    + intros a ar0 Ha Har0. exists ar0. split; [|by destruct own; [|destruct (decide _)]].
      assert (a < a')%N as Hlt by (by destruct (wf_nonnull _ _ _ Hawf Har0)). rewrite <- (Hold a Hlt) in Har0. unfold A2. destruct own; [|done].
      cbn [s_del cells]. rewrite lookup_delete_ne; [done|]. intros <-.
      pose proof (iv_arrays _ _ _ _ _ _ _ _ Hi) as Hnd. cbn in Hnd. apply NoDup_cons in Hnd as [H1 Hnd]. apply NoDup_cons in Hnd as [H2 _].
      apply elem_of_cons in Ha as [->|Ha]; [|done]. apply H1. by left.
    + exists (setNeedToFreeArray true f), ar'. cbn [upd views arrays it_v it_d s_put cells]. rewrite lookup_insert_eq. split; [done|].
      split; [by eapply flags_setNeed|]. split; [done|]. unfold ar'. rewrite <- (length_map Some draft) at 1. apply take_app_length.
    + cbn. pose proof (iv_arrays _ _ _ _ _ _ _ _ Hi) as Hnd. apply NoDup_cons in Hnd as [H1 Hnd]. apply NoDup_app in Hnd as (_ & _ & Hnd).
      rewrite elem_of_app in H1.
      assert (forall a, a ∈ aR :: write_arrays own aW ++ map fst olds -> a <> a') as Hne
        by (intros a Ha ->; pose proof (below_fresh _ _ _ _ _ _ _ _ _ Hi Ha); lia).
      apply NoDup_cons. split.
      * intros Ha. apply elem_of_cons in Ha as [Ha|Ha]; [|tauto]. apply (Hne aR); [by left|done].
      * apply NoDup_cons. split; [|done]. intros Ha. apply (Hne a'); [|done]. right. apply elem_of_app. by right.
    + done.
  - unfold ar', new_array. rewrite length_app, length_map, length_replicate. lia.
Qed.

(** The array is long enough after the growth. *)
Lemma ensure_run s olds cur rd aR aW draft own ar i : inv s olds cur rd aR aW draft own ->
  cells (arrays s) !! aW = Some ar -> (i <= length draft)%nat -> Z.of_nat i < 2 ^ 30 ->
  exists s' aW' own' ar',
    (if Z.of_nat (length ar) <=? Z.of_nat i then
       let! capacity := lift (grow 33 (Z.of_nat i) (Z.of_nat (length ar))) in replace_array (m_writeView s) capacity
     else ret tt) s = Ok (tt, s') /\
    inv s' olds cur rd aR aW' draft own' /\ m_writeView s' = m_writeView s /\ readers s' = readers s /\
    cells (arrays s') !! aW' = Some ar' /\ (i < length ar')%nat /\ (own = true -> own' = true).
Proof.
  intros Hi Har Hle Hsmall. pose proof (iv_write _ _ _ _ _ _ _ _ Hi) as (f & ar0 & _ & _ & Har0 & Ht). cbn [it_d] in Ht.
  assert (ar0 = ar) as -> by congruence. assert ((length draft <= length ar)%nat) as Hlen.
  { apply (f_equal length) in Ht. rewrite length_take, length_map in Ht. lia. }
  destruct (Z.leb_spec (Z.of_nat (length ar)) (Z.of_nat i)) as [Hfull|Hroom].
  - destruct (cow_grow_run 33 (Z.of_nat i) (Z.of_nat (length ar))) as (c & Ec & Hc & Hc'); [lia| |].
    { change (2 ^ Z.of_nat 33) with 8589934592. change (2 ^ 30) with 1073741824 in Hsmall. lia. }
    rewrite (bind_run _ _ _ c s) by (unfold lift; by rewrite Ec).
    destruct (cow_replace_run s olds cur rd aR aW draft own c Hi ltac:(lia)) as (s' & aW' & ar' & E & Hi' & Ew & Er & Ea & El).
    exists s', aW', true, ar'. repeat (split; [done|]). split; [lia|done].
  - exists s, aW, own, ar. repeat (split; [done|]). split; [lia|done].
Qed.

Definition write_elem (l : list T) (i : nat) (x : T) : list T := take i l ++ x :: drop (S i) l.

Lemma length_write_elem l i x : (i <= length l)%nat -> length (write_elem l i x) = Nat.max (length l) (S i).
Proof. intros H. unfold write_elem. rewrite length_app, length_take. cbn. rewrite length_drop. lia. Qed.

Lemma write_elem_take (ar : array T) l i x : take (length l) ar = map Some l -> (i <= length l)%nat -> (i < length ar)%nat ->
  take (length (write_elem l i x)) (<[i := Some x]> ar) = map Some (write_elem l i x).
Proof.
  intros Ht Hi Har. rewrite length_write_elem by done. assert (length l <= length ar)%nat as Hlen.
  { apply (f_equal length) in Ht. rewrite length_take, length_map in Ht. lia. }
  rewrite insert_take_drop by done. unfold write_elem. rewrite map_app. cbn [map].
  rewrite take_app, length_take, Nat.min_l by lia. rewrite take_take, Nat.min_r by lia. f_equal.
  - assert (take i ar = take i (take (length l) ar)) as -> by (by rewrite take_take, Nat.min_l). by rewrite Ht, firstn_map.
  - replace (Nat.max (length l) (S i) - i)%nat with (S (length l - S i)) by lia. cbn [take]. f_equal.
    rewrite take_drop_commute. rewrite <- skipn_map, <- Ht. destruct (Nat.le_gt_cases (S i) (length l)).
    + by replace (S i + (length l - S i))%nat with (length l) by lia.
    + rewrite !drop_ge; [done| |]; rewrite length_take; lia.
Qed.

Lemma assign_run s olds cur rd aR aW draft own i x : inv s olds cur rd aR aW draft own ->
  (i <= length draft)%nat -> own = true \/ i = length draft -> Z.of_nat (length draft) + 1 < 2 ^ 30 ->
  exists s' aW' own', assign (m_writeView s) (Z.of_nat i) x s = Ok (tt, s') /\
    inv s' olds cur rd aR aW' (write_elem draft i x) own' /\ m_writeView s' = m_writeView s /\ readers s' = readers s /\
    (own = true -> own' = true).
Proof.
  intros Hi Hle Hcase Hsmall. pose proof (iv_write _ _ _ _ _ _ _ _ Hi) as (f & ar & Hv & Hf & Har & Ht). cbn [it_v it_d] in *.
  unfold assign, at_. pose proof (iv_vwf _ _ _ _ _ _ _ _ Hi) as Hvwf. pose proof (iv_awf _ _ _ _ _ _ _ _ Hi) as Hawf.
  destruct (ensure_run s olds cur rd aR aW draft own ar i Hi Har Hle ltac:(lia)) as (s1 & aW1 & own1 & ar1 & E1 & Hi1 & Ew1 & Er1 & Ha1 & Hroom & Hown1).
  pose proof (iv_write _ _ _ _ _ _ _ _ Hi1) as (f1 & ar0 & Hv1 & Hf1 & Ha0 & Ht1). cbn [it_v it_d] in *.
  assert (ar0 = ar1) as -> by congruence. clear Ha0. rewrite Ew1 in Hv1.
  pose proof (iv_vwf _ _ _ _ _ _ _ _ Hi1) as Hvwf1. pose proof (iv_awf _ _ _ _ _ _ _ _ Hi1) as Hawf1.
  set (n' := Nat.max (length draft) (S i)). set (w := m_writeView s) in *.
  assert (exists f2, flags f2 (Z.of_nat n') true own1 /\
    (if size f1 <=? Z.of_nat i then on_flags (setSize (Z.of_nat i + 1)) w else ret tt) s1 =
      Ok (tt, upd s1 (arrays s1) (s_put (views s1) w (mk_vv aW1 f2)))) as (f2 & Hf2 & E2).
  { rewrite (flags_size _ _ _ _ Hf1). destruct (Z.leb_spec (Z.of_nat (length draft)) (Z.of_nat i)).
    - exists (setSize (Z.of_nat i + 1) f1). split; [|by apply on_flags_run].
      replace (Z.of_nat n') with (Z.of_nat i + 1) by (unfold n'; lia). eapply flags_setSize; [exact Hf1|lia].
    - exists f1. split; [by replace n' with (length draft) by (unfold n'; lia)|]. unfold ret, s_put. rewrite insert_id by done.
      by destruct s1 as [? [] ? ? ? ? ?]. }
  set (s2 := upd s1 (arrays s1) (s_put (views s1) w (mk_vv aW1 f2))) in *.
  assert (store_wf (views s2)) as Hvwf2 by (apply s_put_wf; [done|by exists (mk_vv aW1 f1)]).
  assert (cells (views s2) !! w = Some (mk_vv aW1 f2)) as Hv2 by apply lookup_insert_eq.
  set (A3 := s_put (arrays s1) aW1 (<[i := Some x]> ar1)).
  exists (upd s2 A3 (views s2)), aW1, own1. split; [|split; [|done]].
  - rewrite (bind_run _ _ s tt s2).
    + rewrite (bind_run _ _ _ _ _ (cow_load_view_run s2 w _ Hvwf2 Hv2)). cbn [m_array].
      rewrite (bind_run _ _ _ _ _ (load_array_run s2 aW1 ar1 Hawf1 Ha1)).
      rewrite (bind_run _ _ s2 (<[i := Some x]> ar1) s2).
      * exact (store_array_run s2 aW1 _ ar1 Hawf1 Ha1).
      * unfold lift. assert (vec_set ar1 (Z.of_nat i) (Some x) = Ok (<[i := Some x]> ar1)) as ->; [|done].
        apply vec_set_Ok. rewrite Nat2Z.id. split; [lia|done].
    + rewrite (bind_run _ _ _ _ _ (cow_load_view_run s w _ Hvwf Hv)). cbn [m_array m_sizeAndFlags].
      rewrite (bind_run _ _ _ _ _ (load_array_run s aW ar Hawf Har)).
      rewrite (bind_run _ _ _ tt s) by (by rewrite (flags_isWriteView _ _ _ _ Hf)).
      rewrite (bind_run _ _ _ _ _ E1). rewrite (bind_run _ _ _ _ _ (cow_load_view_run s1 w _ Hvwf1 Hv1)). exact E2.
  - change (upd s2 A3 (views s2)) with (upd s1 A3 (s_put (views s1) w (mk_vv aW1 f2))).
    apply (inv_write s1 olds cur rd aR aW1 draft own1); [done| | | | | | | | |].
    + apply s_put_wf; [done|by exists ar1].
    + done.
    + cbn. lia.
    + intros p Hp. cbn. rewrite lookup_insert_ne; [done|]. congruence.
    + intros a ar0 Ha Har0. pose proof (iv_arrays _ _ _ _ _ _ _ _ Hi1) as Hnd. unfold A3. cbn [s_put cells].
      destruct (decide (aW1 = a)) as [<-|Hne].
      * rewrite lookup_insert_eq. eexists. split; [reflexivity|]. destruct own1.
        { exfalso. cbn in Hnd. apply NoDup_cons in Hnd as [H1 Hnd]. apply NoDup_cons in Hnd as [H2 _].
          apply elem_of_cons in Ha as [->|Ha]; [apply H1; by left|done]. }
        rewrite decide_True by (by apply (iv_share _ _ _ _ _ _ _ _ Hi1)). assert (ar0 = ar1) as -> by congruence.
        destruct Hcase as [Eo| ->]; [by specialize (Hown1 Eo)|]. apply take_insert_ge. done.
      * rewrite lookup_insert_ne by done. exists ar0. split; [done|]. by destruct own1; [|destruct (decide _)].
    + exists f2, (<[i := Some x]> ar1). cbn [it_v it_d upd views arrays]. rewrite Ew1. split; [done|].
      split; [by rewrite length_write_elem|]. split; [apply lookup_insert_eq|]. by apply write_elem_take.
    + exact (iv_arrays _ _ _ _ _ _ _ _ Hi1).
    + exact (iv_share _ _ _ _ _ _ _ _ Hi1).
    + intros ->. split; [done|]. rewrite length_write_elem by done. lia.
Qed.

Lemma push_run s olds cur rd aR aW draft own x : inv s olds cur rd aR aW draft own ->
  Z.of_nat (length draft) + 1 < 2 ^ 30 -> exists s' aW' own', push_back (m_writeView s) x s = Ok (tt, s') /\
    inv s' olds cur rd aR aW' (draft ++ [x]) own' /\ m_writeView s' = m_writeView s /\ readers s' = readers s.
Proof.
  intros Hi Hsmall. pose proof (iv_write _ _ _ _ _ _ _ _ Hi) as (f & ar & Hv & Hf & _). cbn [it_v it_d] in *.
  unfold push_back. rewrite (bind_run _ _ _ _ _ (cow_load_view_run s _ _ (iv_vwf _ _ _ _ _ _ _ _ Hi) Hv)). cbn [m_sizeAndFlags].
  rewrite (bind_run _ _ _ tt s) by (by rewrite (flags_isWriteView _ _ _ _ Hf)). rewrite (flags_size _ _ _ _ Hf).
  destruct (assign_run s olds cur rd aR aW draft own (length draft) x Hi) as (s' & aW' & own' & E & Hi' & Ew & Er & _);
    [done|by right|done|].
  exists s', aW', own'. split; [done|]. split; [|done]. unfold write_elem in Hi'.
  by rewrite firstn_all, drop_ge in Hi' by lia.
Qed.

Lemma force_run s olds cur rd aR aW draft own : inv s olds cur rd aR aW draft own ->
  exists s' aW', forceCreateCopy (m_writeView s) s = Ok (tt, s') /\ inv s' olds cur rd aR aW' draft true /\
    m_writeView s' = m_writeView s /\ readers s' = readers s.
Proof.
  intros Hi. pose proof (iv_write _ _ _ _ _ _ _ _ Hi) as (f & ar & Hv & Hf & Har & Ht). cbn [it_v it_d] in *.
  unfold forceCreateCopy. rewrite (bind_run _ _ _ _ _ (cow_load_view_run s _ _ (iv_vwf _ _ _ _ _ _ _ _ Hi) Hv)). cbn [m_array].
  rewrite (bind_run _ _ _ _ _ (load_array_run s _ _ (iv_awf _ _ _ _ _ _ _ _ Hi) Har)).
  destruct (cow_replace_run s olds cur rd aR aW draft own (Z.of_nat (length ar)) Hi) as (s' & aW' & ar' & E & Hi' & Ew & Er & _).
  - apply (f_equal length) in Ht. rewrite length_take, length_map in Ht. lia.
  - by exists s', aW'.
Qed.

(** ** Reference counts *)

Definition with_refs s (A : store (array T)) (V : store vectorview) (r : gmap ptr nat) (G : list (list ptr)) : cow T :=
  mk_cow A V (m_readView s) (m_writeView s) r G (currentGen s).

Lemma use_count_zero s v : m_readView s <> v -> v ∉ concat (readViewGenerations s) -> reader_count s v = 0%nat ->
  use_count s v = 0%nat.
Proof.
  intros Hr Hg Hc. unfold use_count. rewrite bool_decide_eq_false_2, Hc by done.
  rewrite (proj1 (count_occ_not_In N.eq_dec _ _)); [done|]. intros Hin. by apply Hg, list_elem_of_In.
Qed.

Lemma cow_use_count_pos s v : m_readView s = v \/ v ∈ concat (readViewGenerations s) \/ (0 < reader_count s v)%nat ->
  (0 < use_count s v)%nat.
Proof.
  unfold use_count. intros [E|[Hin|Hc]]; [rewrite bool_decide_eq_true_2 by done; lia| |lia].
  apply list_elem_of_In, (count_occ_In N.eq_dec) in Hin. lia.
Qed.

(** The last pointer to a view goes: the view and, if it owns it, the array. *)
Lemma cow_destroy_run s a need it : store_wf (arrays s) -> store_wf (views s) -> view_at s a false need it ->
  destroy_view (it_v it) s = Ok (tt, upd s (if need then s_del (arrays s) a else arrays s) (s_del (views s) (it_v it))).
Proof.
  intros Hawf Hvwf (f & ar & Hv & Hf & Har & _). unfold destroy_view.
  rewrite (bind_run _ _ _ _ _ (cow_load_view_run _ _ _ Hvwf Hv)). cbn [m_array m_sizeAndFlags].
  unfold isReadView. rewrite (flags_isWriteView _ _ _ _ Hf), (flags_getNeed _ _ _ _ Hf). cbn [negb andb]. destruct need.
  - rewrite (bind_run _ _ _ _ _ (delete_array_run _ _ _ Hawf Har)). unfold bind, reads, lift. cbn [views upd].
    by rewrite (s_delete_run _ _ _ Hvwf Hv).
  - unfold bind at 1, ret. unfold bind, reads, lift. rewrite (s_delete_run _ _ _ Hvwf Hv). by destruct s.
Qed.

Lemma release_last s a need it : store_wf (arrays s) -> store_wf (views s) -> view_at s a false need it ->
  use_count s (it_v it) = 0%nat -> release_view (it_v it) s =
    Ok (tt, upd s (if need then s_del (arrays s) a else arrays s) (s_del (views s) (it_v it))).
Proof.
  intros Hawf Hvwf Hit Hc. unfold release_view. rewrite (bind_run _ _ s 0%nat s) by (unfold reads; by rewrite Hc).
  by apply cow_destroy_run.
Qed.

Lemma release_more s v : (0 < use_count s v)%nat -> release_view v s = Ok (tt, s).
Proof. intros Hc. unfold release_view, bind, reads. by destruct (use_count s v); [lia|]. Qed.

(** ** Cleaning *)

(** Nobody but the manager knows the views [l] of the generation between [G1] and [G2]. *)
Definition only_here s (G1 G2 : list (list ptr)) (l : list item) : Prop :=
  NoDup (map it_v l) /\ forall it, it ∈ l ->
    m_readView s <> it_v it /\ it_v it ∉ concat G1 /\ it_v it ∉ concat G2 /\ reader_count s (it_v it) = 0%nat.

Lemma set_mid {A} (G1 : list A) x y G2 : <[length G1 := y]> (G1 ++ x :: G2) = G1 ++ y :: G2.
Proof. by rewrite insert_app_r_alt, Nat.sub_diag by lia. Qed.

Lemma cow_clear_run G1 G2 a r : forall l s, readViewGenerations s = G1 ++ map it_v (l ++ [r]) :: G2 ->
  only_here s G1 G2 (l ++ [r]) -> Forall (view_at s a false false) l -> view_at s a false true r ->
  store_wf (arrays s) -> store_wf (views s) ->
  exists V, clear_group (length G1) (map it_v (l ++ [r])) s =
      Ok (tt, with_refs s (s_del (arrays s) a) V (readers s) (G1 ++ [] :: G2)) /\
    store_wf V /\ forall p, p ∉ map it_v (l ++ [r]) -> cells V !! p = cells (views s) !! p.
Proof.
  intros l. induction l as [|it l IH]; intros s HG [Hnd Hh] Hl Hr Hawf Hvwf; cbn [app map clear_group].
  - set (s1 := with_refs s (arrays s) (views s) (readers s) (G1 ++ [] :: G2)).
    exists (s_del (views s) (it_v r)). split; [|split; [by apply s_del_wf|]].
    + rewrite (bind_run _ _ s _ s eq_refl). rewrite (bind_run _ _ s (currentGen s) s eq_refl).
      rewrite (bind_run _ _ s tt s1) by (unfold set_generations, modify; by rewrite HG, set_mid).
      destruct (Hh r ltac:(by left)) as (H1 & H2 & H3 & H4).
      by rewrite (bind_run _ _ _ _ _ (release_last s1 a true r Hawf Hvwf Hr
        (use_count_zero s1 (it_v r) H1 ltac:(cbn; rewrite concat_app, elem_of_app; cbn; tauto) H4))).
    + intros p Hp. cbn. rewrite lookup_delete_ne; [done|]. set_solver.
  - inversion_clear Hl as [|? ? Hit Hl']. cbn in Hnd. apply NoDup_cons in Hnd as [Hnot Hnd].
    set (s1 := with_refs s (arrays s) (views s) (readers s) (G1 ++ map it_v (l ++ [r]) :: G2)).
    set (s2 := upd s1 (arrays s) (s_del (views s) (it_v it))).
    destruct (Hh it ltac:(by left)) as (H1 & H2 & H3 & H4).
    assert (forall need it', view_at s a false need it' -> it_v it' <> it_v it -> view_at s2 a false need it') as Hkeep.
    { intros need it' Hit' Hne. apply (view_at_frame s); [done| |intros ar Har; by exists ar]. cbn. by rewrite lookup_delete_ne. }
    destruct (IH s2) as (V & E & HV & Hsame).
    + done.
    + split; [done|]. intros it' Hin. apply Hh. by right.
    + rewrite Forall_forall in Hl' |- *. intros it' Hin. apply Hkeep; [by apply Hl'|]. intros E. apply Hnot. rewrite <- E.
      apply list_elem_of_In, in_map. apply list_elem_of_In. set_solver.
    + apply Hkeep; [done|]. intros E. apply Hnot. rewrite <- E. apply list_elem_of_In, in_map, list_elem_of_In. set_solver.
    + done.
    + by apply s_del_wf.
    + exists V. split; [|split; [done|]].
      * rewrite (bind_run _ _ s _ s eq_refl). rewrite (bind_run _ _ s (currentGen s) s eq_refl).
        rewrite (bind_run _ _ s tt s1) by (unfold set_generations, modify; by rewrite HG, set_mid).
        rewrite (bind_run _ _ _ _ _ (release_last s1 a false it Hawf Hvwf Hit (use_count_zero s1 (it_v it) H1
          ltac:(cbn; rewrite concat_app, elem_of_app; cbn; rewrite elem_of_app; intuition) H4))). exact E.
      * intros p Hp. rewrite Hsame by set_solver. cbn. rewrite lookup_delete_ne; [done|]. set_solver.
Qed.

Definition items (g : ptr * list item) : list ptr := map it_v g.2.

Lemma addrs_app o1 o2 : addrs (o1 ++ o2) = addrs o1 ++ addrs o2.
Proof. unfold addrs. by rewrite map_app, concat_app. Qed.
Lemma addrs_cons g olds : addrs (g :: olds) = items g ++ addrs olds.
Proof. done. Qed.

(** What cleaning does to a generation: nothing, or it clears it when no reader has
    one of its views. *)
Definition cleaned s (g g' : ptr * list item) : Prop :=
  g' = g \/ (g' = (g.1, []) /\ forall it, it ∈ g.2 -> reader_count s (it_v it) = 0%nat).

Record clean_result s olds olds' (A : store (array T)) (V : store vectorview) : Prop := {
  cr_cleaned : Forall2 (cleaned s) olds olds';
  cr_awf : store_wf A;
  cr_vwf : store_wf V;
  cr_next : next_addr A = next_addr (arrays s);
  cr_views : forall p, p ∉ addrs olds -> cells V !! p = cells (views s) !! p;
  cr_arrays : forall a, a ∉ map fst olds -> cells A !! a = cells (arrays s) !! a;
  cr_ok : Forall (old_ok (upd s A V)) olds' }.

Lemma upd_id s : upd s (arrays s) (views s) = s.
Proof. by destruct s. Qed.
Lemma with_refs_id s G : readViewGenerations s = G -> with_refs s (arrays s) (views s) (readers s) G = s.
Proof. intros <-. by destruct s. Qed.

(** One generation, between [G1] and [G2]. *)
Lemma clean_gen s G1 G2 g : readViewGenerations s = G1 ++ items g :: G2 -> NoDup (items g) ->
  (forall v, v ∈ items g -> m_readView s <> v /\ v ∉ concat G1 /\ v ∉ concat G2) ->
  old_ok s g -> store_wf (arrays s) -> store_wf (views s) ->
  exists g' A V, (if existsb (fun v => negb (unique s v)) (items g) then ret tt else clear_group (length G1) (items g)) s =
      Ok (tt, with_refs s A V (readers s) (G1 ++ items g' :: G2)) /\
    clean_result s [g] [g'] A V /\ sublist (items g') (items g) /\ g'.1 = g.1.
Proof.
  intros HG Hnd Hout Hg Hawf Hvwf.
  assert (forall v, v ∈ items g -> unique s v = Nat.eqb (reader_count s v) 0) as Hu.
  { intros v Hv. destruct (Hout v Hv) as (H1 & H2 & H3). unfold unique, use_count. rewrite bool_decide_eq_false_2, HG, concat_app by done.
    cbn [concat]. rewrite !count_occ_app.
    rewrite (proj1 (count_occ_not_In N.eq_dec (concat G1) v)) by (intros Hin; by apply H2, list_elem_of_In).
    rewrite (proj1 (count_occ_not_In N.eq_dec (concat G2) v)) by (intros Hin; by apply H3, list_elem_of_In).
    assert (count_occ N.eq_dec (items g) v = 1%nat) as ->.
    { apply NoDup_count_occ'; [by apply NoDup_ListNoDup|by apply list_elem_of_In]. }
    by destruct (reader_count s v). }
  assert (clean_result s [g] [g] (arrays s) (views s)) as Hsame.
  { split; try done; [by constructor; [left|]|]. rewrite upd_id. by constructor. }
  destruct (existsb (fun v => negb (unique s v)) (items g)) eqn:Ereader.
  - exists g, (arrays s), (views s). rewrite with_refs_id by done. done.
  - destruct Hg as [Enil|(l & r & Eg & Hl & Hr)].
    + exists g, (arrays s), (views s). rewrite with_refs_id by done. unfold items at 1. by rewrite Enil.
    + assert (forall it, it ∈ g.2 -> reader_count s (it_v it) = 0%nat) as Hzero.
      { intros it Hit. assert (it_v it ∈ items g) as Hin by (by apply list_elem_of_In, in_map, list_elem_of_In).
        apply not_true_iff_false in Ereader. destruct (reader_count s (it_v it)) eqn:Ec; [done|]. exfalso. apply Ereader.
        apply existsb_exists. exists (it_v it). split; [by apply list_elem_of_In|by rewrite Hu, Ec]. }
      assert (items g = map it_v (l ++ [r])) as Ei by (unfold items; by rewrite Eg).
      destruct (cow_clear_run G1 G2 g.1 r l s) as (V & E & HV & Hkeep); try done; [by rewrite <- Ei| |].
      { rewrite <- Eg. split; [done|]. intros it Hit. assert (it_v it ∈ items g) as Hin by (by apply list_elem_of_In, in_map, list_elem_of_In).
        destruct (Hout _ Hin) as (H1 & H2 & H3). by repeat (split; [done|]); apply Hzero. }
      exists (g.1, []), (s_del (arrays s) g.1), V. rewrite Ei. split; [exact E|]. split; [|split; [apply sublist_nil_l|done]].
      split; [|by apply s_del_wf|done|done| | |].
      * constructor; [by right|constructor].
      * intros p Hp. apply Hkeep. rewrite <- Ei. unfold addrs in Hp. cbn in Hp. by rewrite app_nil_r in Hp.
      * intros a Ha. cbn in Ha |- *. rewrite list_elem_of_singleton in Ha. by rewrite lookup_delete_ne.
      * constructor; [by left|constructor].
Qed.

(** The cleaning of one generation and then of the others. *)
Lemma clean_result_cons s g olds g' olds' A1 V1 A V s1 : clean_result s [g] [g'] A1 V1 -> clean_result s1 olds olds' A V ->
  arrays s1 = A1 -> views s1 = V1 -> readers s1 = readers s ->
  (forall v, v ∈ items g' -> v ∉ addrs olds) -> g'.1 ∉ map fst olds -> clean_result s (g :: olds) (g' :: olds') A V.
Proof.
  intros [Hcl1 HA1 HV1 Hn1 Hvs1 Has1 Hok1] [Hcl HA HV Hn Hvs Has Hok] EA EV ER Hd Hf.
  apply Forall2_cons in Hcl1 as [Hcl1 _]. apply Forall_cons in Hok1 as [Hok1 _].
  assert (forall p, p ∈ items g -> p ∈ addrs [g]) as Hone by (intros p; unfold addrs; cbn; by rewrite app_nil_r).
  split; try done.
  - constructor; [done|]. eapply Forall2_impl; [exact Hcl|]. intros h h' [->|[-> Hz]]; [by left|right]. split; [done|].
    intros it Hit. specialize (Hz it Hit). unfold reader_count in *. by rewrite <- ER.
  - rewrite Hn, EA. done.
  - intros p Hp. rewrite addrs_cons, elem_of_app in Hp. rewrite Hvs, EV by tauto. apply Hvs1. unfold addrs. cbn. rewrite app_nil_r. tauto.
  - intros a Ha. cbn in Ha. rewrite elem_of_cons in Ha. rewrite Has, EA by tauto. apply Has1. cbn. rewrite list_elem_of_singleton. tauto.
  - constructor; [|exact Hok]. apply (old_ok_frame (upd s A1 V1)); [done| |].
    + intros it Hit. cbn. rewrite <- EV. apply Hvs, Hd. by apply list_elem_of_In, in_map, list_elem_of_In.
    + intros _. cbn. rewrite <- EA. by apply Has.
Qed.

Lemma clean_run olds : forall done_ s G n, readViewGenerations s = map items done_ ++ map items olds ++ G ->
  NoDup (addrs done_ ++ addrs olds) -> (forall v, v ∈ addrs done_ ++ addrs olds -> m_readView s <> v /\ v ∉ concat G) ->
  NoDup (map fst olds) -> Forall (old_ok s) olds -> store_wf (arrays s) -> store_wf (views s) ->
  exists olds' A V,
    clean_from (length done_) (length olds + n) s =
      clean_from (length done_ + length olds) n
        (with_refs s A V (readers s) (map items done_ ++ map items olds' ++ G)) /\
    clean_result s olds olds' A V.
Proof.
  induction olds as [|g olds IH]; intros done_ s G n HG Hnd Hout Hfst Hok Hawf Hvwf.
  { exists [], (arrays s), (views s). cbn [length Nat.add map app]. rewrite Nat.add_0_r, with_refs_id by done. split; [done|].
    by split. }
  inversion_clear Hok as [|? ? Hg Hok']. cbn [map app] in HG, Hfst. apply NoDup_cons in Hfst as [Hfst1 Hfst].
  rewrite addrs_cons in Hnd, Hout. pose proof Hnd as Hnd0. apply NoDup_app in Hnd0 as (Hndd & Hdd & Hndo).
  apply NoDup_app in Hndo as (Hndg & Hdg & Hndo). cbn [length Nat.add clean_from].
  rewrite (bind_run _ _ s _ s eq_refl), HG. rewrite (bind_run _ _ s (items g) s).
  2:{ unfold lift, of_option. rewrite <- (length_map items done_), list_lookup_middle by done. done. }
  rewrite (bind_run _ _ s _ s eq_refl).
  destruct (clean_gen s (map items done_) (map items olds ++ G) g HG Hndg) as (g' & A1 & V1 & E1 & Hc1 & Hsub & Efst); try done.
  { intros v Hv. destruct (Hout v) as [H1 H2]; [rewrite !elem_of_app; tauto|]. split; [done|]. split.
    - intros Hd. by apply (Hdd _ Hd), elem_of_app; left.
    - rewrite concat_app, elem_of_app. intros [Ho|Ho]; [by apply (Hdg _ Hv)|done]. }
  rewrite length_map in E1. rewrite (bind_run _ _ _ _ _ E1).
  set (s1 := with_refs s A1 V1 (readers s) (map items done_ ++ items g' :: map items olds ++ G)) in *.
  assert (addrs (done_ ++ [g']) = addrs done_ ++ items g') as Ead by (rewrite addrs_app; unfold addrs at 2; cbn; by rewrite app_nil_r).
  assert (sublist ((addrs done_ ++ items g') ++ addrs olds) (addrs done_ ++ items g ++ addrs olds)) as Hsub'
    by (rewrite <- app_assoc; by repeat apply sublist_app).
  destruct (IH (done_ ++ [g']) s1 G n) as (olds' & A & V & E & Hres).
  - cbn. rewrite map_app, <- app_assoc. done.
  - rewrite Ead. exact (sublist_NoDup _ _ Hnd Hsub').
  - intros v Hv. rewrite Ead in Hv. apply Hout. exact (elem_of_sublist _ _ _ Hv Hsub').
  - done.
  - rewrite Forall_forall in Hok' |- *. intros h Hh. apply (old_ok_frame s); [by apply Hok'| |].
    + intros it Hit. apply (cr_views _ _ _ _ _ Hc1). unfold addrs. cbn. rewrite app_nil_r. intros Hin. apply (Hdg _ Hin).
      unfold addrs. apply list_elem_of_In, in_concat. exists (map it_v h.2).
      split; apply in_map_iff; [exists h|exists it]; (split; [done|by apply list_elem_of_In]).
    + intros _. apply (cr_arrays _ _ _ _ _ Hc1). cbn. rewrite list_elem_of_singleton. intros E. apply Hfst1. rewrite <- E.
      by apply list_elem_of_In, in_map, list_elem_of_In.
  - exact (cr_awf _ _ _ _ _ Hc1).
  - exact (cr_vwf _ _ _ _ _ Hc1).
  - rewrite length_app in E. cbn [length] in E. rewrite Nat.add_1_r in E. rewrite E. exists (g' :: olds'), A, V. split.
    { f_equal; [lia|]. unfold with_refs. f_equal. cbn. by rewrite map_app, <- app_assoc. }
    apply (clean_result_cons _ _ _ _ _ A1 V1 _ _ s1); try done; [|by rewrite Efst].
    intros v Hv. apply Hdg. by eapply elem_of_sublist.
Qed.

(** ** Merge *)

(** The state of [merge] when the old read view is given up. *)
Record ready s olds (cur : list item) (aW : ptr) draft (own : bool) : Prop := {
  rd_awf : store_wf (arrays s);
  rd_vwf : store_wf (views s);
  rd_gens : readViewGenerations s = map items olds ++ [map it_v cur];
  rd_gen : currentGen s = length olds;
  rd_read : m_readView s = m_writeView s;
  rd_nodup : NoDup (m_writeView s :: map it_v cur ++ addrs olds);
  rd_olds : Forall (old_ok s) olds;
  rd_cur : Forall (view_at s aW false false) cur;
  rd_write : view_at s aW true own (mk_item (m_writeView s) draft);
  rd_arrays : NoDup (aW :: map fst olds);
  rd_below : Forall (fun g => (g.1 < next_addr (arrays s))%N) olds;
  rd_sizes : Forall (fun it => (length (it_d it) <= length draft)%nat) cur;
  rd_readers : forall v, (0 < reader_count s v)%nat -> v ∈ map it_v cur ++ addrs olds }.

Lemma items_addrs it g olds : it ∈ g.2 -> g ∈ olds -> it_v it ∈ addrs olds.
Proof.
  intros Hit Hg. unfold addrs. apply list_elem_of_In, in_concat. exists (map it_v g.2).
  split; apply in_map_iff; [exists g|exists it]; (split; [done|by apply list_elem_of_In]).
Qed.

(** Changes of views outside [olds] and of no array. *)
Lemma olds_frame s V' olds : Forall (old_ok s) olds -> (forall p, p ∈ addrs olds -> cells V' !! p = cells (views s) !! p) ->
  forall s', arrays s' = arrays s -> views s' = V' -> Forall (old_ok s') olds.
Proof.
  intros Hok HV s' EA <-. rewrite Forall_forall in Hok |- *. intros g Hg. apply (old_ok_frame s); [by apply Hok| |by rewrite EA].
  intros it Hit. apply HV. by eapply items_addrs.
Qed.

Lemma items_frame s V' a w need l : Forall (view_at s a w need) l -> (forall it, it ∈ l -> cells V' !! it_v it = cells (views s) !! it_v it) ->
  forall s', arrays s' = arrays s -> views s' = V' -> Forall (view_at s' a w need) l.
Proof.
  intros Hl HV s' EA <-. rewrite Forall_forall in Hl |- *. intros it Hit. apply (view_at_frame s); [by apply Hl|by apply HV|].
  intros ar Har. rewrite EA. eauto.
Qed.

Lemma cow_finish_run s olds cur aW draft own : ready s olds cur aW draft own ->
  exists s', (on_flags setReadView (m_writeView s) ;;;
      let! vv := load_view (m_writeView s) in
      let! w' := alloc_view (copy_view vv) in set_writeView w') s = Ok (tt, s') /\
    inv s' olds cur (mk_item (m_writeView s) draft) aW aW draft false /\ readers s' = readers s.
Proof.
  intros [Hawf Hvwf HG Hgen Hread Hnd Hok Hcur Hw Harr Hbelow Hsz Hrd]. pose proof Hw as (f & ar & Hv & Hf & Har & Ht).
  cbn [it_v it_d] in *. set (w := m_writeView s) in *. set (f1 := setReadView f).
  set (V1 := s_put (views s) w (mk_vv aW f1)). assert (store_wf V1) as HV1 by (apply s_put_wf; [done|by exists (mk_vv aW f)]).
  set (p := next_addr (views s)). assert (forall q, is_Some (cells (views s) !! q) -> q <> p) as Hfresh
    by (intros q Hq ->; destruct Hvwf as [_ Hvwf']; specialize (Hvwf' _ Hq); unfold p in *; lia).
  set (vv' := copy_view (mk_vv aW f1)). set (V2 := (s_new V1 vv').2).
  assert (flags f1 (Z.of_nat (length draft)) false own) as Hf1 by (by eapply flags_setRead).
  rewrite (bind_run _ _ _ _ _ (on_flags_run s setReadView w aW f Hvwf Hv)).
  rewrite (bind_run _ _ _ _ _ (cow_load_view_run (upd s (arrays s) V1) w (mk_vv aW f1) HV1 (lookup_insert_eq _ _ _))).
  eexists. split; [reflexivity|]. split; [|done].
  assert (w <> p) as Hwp by (apply Hfresh; by exists (mk_vv aW f)).
  assert (forall q, q <> w -> q <> p -> cells V2 !! q = cells (views s) !! q) as Hsame.
  { intros q Hqw Hqp. cbn. rewrite !lookup_insert_ne; done. }
  apply NoDup_cons in Hnd as [Hwn Hnd].
  assert (forall it need a, view_at s a false need it -> it_v it <> p) as Hlive
    by (intros it need a (f' & ar' & Hit & _); apply Hfresh; by exists (mk_vv a f')).
  assert (forall it, it ∈ cur -> it_v it <> p) as Hcurp by (intros it Hit; rewrite Forall_forall in Hcur; by eapply Hlive, Hcur).
  assert (forall q, q ∈ addrs olds -> q <> p) as Holdp.
  { intros q Hq. unfold addrs in Hq. apply list_elem_of_In, in_concat in Hq as (l & (g & <- & Hg)%in_map_iff & (it & <- & Hit)%in_map_iff).
    rewrite List.Forall_forall in Hok. destruct (Hok g Hg) as [E|(l & r & E & Hl & Hr)]; [by rewrite E in Hit|].
    rewrite E, in_app_iff in Hit. destruct Hit as [Hit|[<-|[]]]; [|by eapply Hlive].
    rewrite List.Forall_forall in Hl. by eapply Hlive, Hl. }
  split; try done.
  - by apply s_new_wf.
  - cbn. apply NoDup_cons. split.
    + rewrite elem_of_cons, elem_of_app. change (next_addr (views s)) with p. intros [E|[Hin|Hin]]; [done| |by apply (Holdp p)].
      apply list_elem_of_In, in_map_iff in Hin as (it & E & Hit). by apply (Hcurp it); [apply list_elem_of_In|].
    + by apply NoDup_cons.
  - apply (olds_frame s V2); [done| |done|done]. intros q Hq. apply Hsame; [|by apply Holdp]. intros ->. apply Hwn, elem_of_app. by right.
  - apply (items_frame s V2); [done| |done|done]. intros it Hit. apply Hsame; [|by apply Hcurp]. intros E. apply Hwn, elem_of_app. left.
    rewrite <- E. by apply list_elem_of_In, in_map, list_elem_of_In.
  - exists own, f1, ar. cbn [it_v it_d views arrays]. split; [cbn; rewrite lookup_insert_ne by done; by rewrite lookup_insert_eq|]. done.
  - exists (setNeedToFreeArray false (setWriteView (setSize (size f1) 0))), ar. cbn [it_v it_d views arrays m_writeView].
    split; [cbn; by rewrite lookup_insert_eq|]. rewrite (flags_size _ _ _ _ Hf1). split; [|done]. apply flags_copy. by destruct Hf.
  - intros _. constructor; [done|]. done.
  - intros v Hv'. right. by apply Hrd.
Qed.

Lemma cleaned_fst s olds olds' : Forall2 (cleaned s) olds olds' -> map fst olds' = map fst olds.
Proof. induction 1 as [|g g' olds olds' [->|[-> _]] _ IH]; cbn; by rewrite ?IH. Qed.

Lemma cleaned_addrs s olds olds' : Forall2 (cleaned s) olds olds' -> sublist (addrs olds') (addrs olds).
Proof.
  induction 1 as [|g g' olds olds' [->|[-> _]] _ IH]; [constructor| |]; rewrite !addrs_cons.
  - by apply sublist_app.
  - by apply sublist_inserts_l.
Qed.

Lemma cleaned_keeps s olds olds' : Forall2 (cleaned s) olds olds' -> forall it g, g ∈ olds -> it ∈ g.2 ->
  (0 < reader_count s (it_v it))%nat -> g ∈ olds'.
Proof.
  induction 1 as [|h h' olds olds' [->|[-> Hz]] _ IH]; intros it g Hg Hit Hr; [by apply elem_of_nil in Hg| |];
    apply elem_of_cons in Hg as [->|Hg].
  - by left.
  - right. by eapply IH.
  - specialize (Hz it Hit). lia.
  - right. by eapply IH.
Qed.

Lemma addrs_inv v olds : v ∈ addrs olds -> exists g it, g ∈ olds /\ it ∈ g.2 /\ v = it_v it.
Proof.
  intros Hv. unfold addrs in Hv. apply list_elem_of_In, in_concat in Hv as (l & (g & <- & Hg)%in_map_iff & (it & <- & Hit)%in_map_iff).
  exists g, it. split; [by apply list_elem_of_In|]. split; [by apply list_elem_of_In|done].
Qed.

Lemma clean_result_snoc s olds olds' A V g : clean_result s olds olds' A V -> old_ok s g ->
  (forall v, v ∈ items g -> v ∉ addrs olds) -> g.1 ∉ map fst olds -> clean_result s (olds ++ [g]) (olds' ++ [g]) A V.
Proof.
  intros [Hcl HA HV Hn Hvs Has Hok] Hg Hd Ha. split; try done.
  - apply Forall2_app; [done|]. constructor; [by left|constructor].
  - intros p Hp. apply Hvs. rewrite addrs_app, elem_of_app in Hp. tauto.
  - intros a Ha'. apply Has. rewrite map_app, elem_of_app in Ha'. tauto.
  - apply Forall_app. split; [done|]. constructor; [|constructor]. apply (old_ok_frame s); [done| |].
    + intros it Hit. apply Hvs, Hd. by apply list_elem_of_In, in_map, list_elem_of_In.
    + intros _. by apply Has.
Qed.

(** The state before the old read view is given up gives the state after. *)
Lemma ready_intro s olds olds' cur aW draft own A V s' : clean_result s olds olds' A V ->
  Forall (view_at s aW false false) cur -> view_at s aW true own (mk_item (m_writeView s) draft) ->
  NoDup (m_writeView s :: map it_v cur ++ addrs olds) -> NoDup (aW :: map fst olds) ->
  Forall (fun g => (g.1 < next_addr (arrays s))%N) olds -> Forall (fun it => (length (it_d it) <= length draft)%nat) cur ->
  (forall v, (0 < reader_count s v)%nat -> v ∈ map it_v cur ++ addrs olds) ->
  arrays s' = A -> store_wf (views s') ->
  (forall p, p ∈ m_writeView s :: map it_v cur ++ addrs olds -> cells (views s') !! p = cells V !! p) ->
  readViewGenerations s' = map items olds' ++ [map it_v cur] -> currentGen s' = length olds ->
  m_readView s' = m_writeView s -> m_writeView s' = m_writeView s -> readers s' = readers s ->
  ready s' olds' cur aW draft own.
Proof.
  intros [Hcl HA HV Hn Hvs Has Hok] Hcur Hw Hnd Harr Hbelow Hsz Hrd EA Hwf Hsame HG Hgen Eread Ewrite Ereaders.
  pose proof (cleaned_addrs _ _ _ Hcl) as Hsub. pose proof (cleaned_fst _ _ _ Hcl) as Efst.
  pose proof Hnd as Hnd0. apply NoDup_cons in Hnd0 as [Hwn Hnd1]. rewrite elem_of_app in Hwn. apply NoDup_app in Hnd1 as (Hndc & Hdc & Hndo).
  assert (forall need it w, view_at s aW w need it -> it_v it ∉ addrs olds ->
    it_v it ∈ m_writeView s :: map it_v cur ++ addrs olds -> view_at s' aW w need it) as Hkeep.
  { intros need it w Hit Hni Hin. apply (view_at_frame s); [done|by rewrite Hsame, Hvs|]. intros ar Har. rewrite EA, Has; [by exists ar|].
    by apply NoDup_cons in Harr as [? _]. }
  split.
  - by rewrite EA.
  - done.
  - done.
  - rewrite Hgen. by rewrite (Forall2_length _ _ _ Hcl).
  - congruence.
  - rewrite Ewrite. eapply sublist_NoDup; [exact Hnd|]. apply sublist_skip. by apply sublist_app.
  - apply (olds_frame (upd s A V) (views s')); [done| |by rewrite EA|done]. intros p Hp. apply Hsame. right. apply elem_of_app. right.
    exact (elem_of_sublist _ _ _ Hp Hsub).
  - rewrite Forall_forall in Hcur |- *. intros it Hit.
    assert (it_v it ∈ map it_v cur) as Hin by (by apply list_elem_of_In, in_map, list_elem_of_In).
    apply Hkeep; [by apply Hcur|by apply Hdc|]. right. apply elem_of_app. by left.
  - rewrite Ewrite. apply Hkeep; [done|cbn; tauto|by left].
  - by rewrite Efst.
  - rewrite EA, Hn. rewrite Forall_forall in Hbelow |- *. intros g Hg.
    assert (g.1 ∈ map fst olds') as Hin by (by apply list_elem_of_In, in_map, list_elem_of_In).
    rewrite Efst in Hin. apply list_elem_of_In, in_map_iff in Hin as (h & <- & Hh). by apply Hbelow, list_elem_of_In.
  - done.
  - intros v Hv. unfold reader_count in Hv. rewrite Ereaders in Hv. specialize (Hrd v Hv). apply elem_of_app in Hrd as [Hin|Hin]; apply elem_of_app; [by left|right].
    apply addrs_inv in Hin as (g & it & Hg & Hit & ->). apply (items_addrs it g); [done|]. by eapply cleaned_keeps.
Qed.

Lemma mark_run s olds cur rd aR aW draft own b : inv s olds cur rd aR aW draft own ->
  exists V, on_flags (setNeedToFreeArray b) (it_v rd) s = Ok (tt, upd s (arrays s) V) /\ store_wf V /\
    view_at (upd s (arrays s) V) aR false b rd /\ Forall (view_at (upd s (arrays s) V) aR false false) cur /\
    Forall (old_ok (upd s (arrays s) V)) olds /\ view_at (upd s (arrays s) V) aW true own (mk_item (m_writeView s) draft).
Proof.
  intros Hi. destruct (iv_rd _ _ _ _ _ _ _ _ Hi) as (need & f & ar & Hv & Hf & Har & Ht).
  pose proof (iv_vwf _ _ _ _ _ _ _ _ Hi) as Hvwf. pose proof (iv_nodup _ _ _ _ _ _ _ _ Hi) as Hnd.
  apply NoDup_cons in Hnd as [Hw Hnd]. apply NoDup_cons in Hnd as [Hr _]. rewrite elem_of_app in Hr.
  set (V := s_put (views s) (it_v rd) (mk_vv aR (setNeedToFreeArray b f))). exists V.
  split; [exact (on_flags_run s _ _ _ _ Hvwf Hv)|]. split; [apply s_put_wf; [done|by exists (mk_vv aR f)]|].
  assert (forall p, p <> it_v rd -> cells V !! p = cells (views s) !! p) as Hsame by (intros p Hp; by apply lookup_insert_ne).
  split; [|split; [|split]].
  - exists (setNeedToFreeArray b f), ar. split; [apply lookup_insert_eq|]. split; [by eapply flags_setNeed|done].
  - apply (items_frame s V); [apply Hi| |done|done]. intros it Hit. apply Hsame. intros E. apply Hr. left. rewrite <- E.
    by apply list_elem_of_In, in_map, list_elem_of_In.
  - apply (olds_frame s V); [apply Hi| |done|done]. intros p Hp. apply Hsame. intros ->. by apply Hr; right.
  - apply (view_at_frame s); [apply Hi| |intros ar0 Har0; by exists ar0]. apply Hsame. intros E. apply Hw. apply elem_of_cons. left. exact E.
Qed.

Lemma storeReadView_run s (G : list (list ptr)) l v : readViewGenerations s = G ++ [l] -> currentGen s = length G ->
  storeReadView v s = Ok (tt, with_refs s (arrays s) (views s) (readers s) (G ++ [l ++ [v]])).
Proof.
  intros HG Hc. unfold storeReadView. rewrite (bind_run _ _ s _ s eq_refl). rewrite (bind_run _ _ s _ s eq_refl), HG, Hc.
  rewrite (bind_run _ _ s l s) by (unfold lift, of_option; by rewrite list_lookup_middle).
  unfold set_generations, modify. unfold with_refs. rewrite set_mid. by rewrite <- Hc.
Qed.

Lemma unique_current s v : m_readView s = v -> v ∉ concat (readViewGenerations s) -> unique s v = Nat.eqb (reader_count s v) 0.
Proof.
  intros Hr Hn. unfold unique, use_count. rewrite bool_decide_eq_true_2 by done.
  rewrite (proj1 (count_occ_not_In N.eq_dec _ _)) by (intros Hin; by apply Hn, list_elem_of_In). by destruct (reader_count s v).
Qed.

Lemma concat_gens olds cur : concat (map items olds ++ [map it_v cur]) = addrs olds ++ map it_v cur.
Proof. rewrite concat_app. cbn. by rewrite app_nil_r. Qed.

(** After the marking of the old read view: the cleaning, the release and the new views. *)
Definition merge_tail (manager : bool) (r w : ptr) : st (cow T) unit :=
  (if manager then cleanReadViews else ret tt) ;;;
  set_readView w ;;; release_view r ;;; on_flags setReadView w ;;;
  let! vv := load_view w in let! w' := alloc_view (copy_view vv) in set_writeView w'.

(** What [merge] achieves: the writer's elements are published under the address of
    the former write view, and every view that a reader holds stays. *)
Definition merged s (all : list item) draft (s' : cow T) : Prop :=
  exists olds' cur' a, inv s' olds' cur' (mk_item (m_writeView s) draft) a a draft false /\ readers s' = readers s /\
    forall it, it ∈ all -> (0 < reader_count s (it_v it))%nat -> it ∈ cur' ++ concat (map snd olds').

Lemma in_olds it olds : it ∈ concat (map snd olds) <-> exists g, g ∈ olds /\ it ∈ g.2.
Proof.
  rewrite list_elem_of_In, in_concat. split.
  - intros (l & (g & <- & Hg)%in_map_iff & Hit). exists g. by rewrite !list_elem_of_In.
  - intros (g & Hg & Hit). exists g.2. split; [apply in_map|]; by apply list_elem_of_In.
Qed.

Lemma merge_share s olds cur rd aR aW draft : inv s olds cur rd aR aW draft false ->
  exists s', merge true s = Ok (tt, s') /\ merged s (rd :: cur ++ concat (map snd olds)) draft s'.
Proof.
  intros Hi. destruct (mark_run _ _ _ _ _ _ _ _ false Hi) as (V & Emark & HV & Hrd1 & Hcur1 & Holds1 & Hw1).
  pose proof (iv_share _ _ _ _ _ _ _ _ Hi eq_refl) as ->. pose proof (iv_nodup _ _ _ _ _ _ _ _ Hi) as Hnd.
  pose proof Hnd as Hnd0. apply NoDup_cons in Hnd0 as [Hw Hnd0]. apply NoDup_cons in Hnd0 as [Hr Hnd0].
  pose proof (iv_sizes _ _ _ _ _ _ _ _ Hi eq_refl) as Hsz. apply Forall_cons in Hsz as [Hszr Hszc].
  pose proof (iv_arrays _ _ _ _ _ _ _ _ Hi) as Harr. cbn [write_arrays app] in Harr.
  set (s1 := upd s (arrays s) V) in *. set (r := it_v rd) in *. set (w := m_writeView s) in *.
  assert (unique s1 r = Nat.eqb (reader_count s r) 0) as Hu.
  { change (reader_count s r) with (reader_count s1 r). apply unique_current; [exact (iv_read _ _ _ _ _ _ _ _ Hi)|]. cbn. rewrite (iv_gens _ _ _ _ _ _ _ _ Hi).
    change (map (fun g => map it_v g.2) olds) with (map items olds). rewrite concat_gens. rewrite !elem_of_app in *. tauto. }
  (* the current generation after the store *)
  set (cur2 := if Nat.eqb (reader_count s r) 0 then cur else cur ++ [rd]).
  set (s2 := with_refs s1 (arrays s) V (readers s) (map items olds ++ [map it_v cur2])).
  assert ((if true && negb (unique s1 r) then storeReadView r else ret tt) s1 = Ok (tt, s2)) as Estore.
  { rewrite Hu. unfold s2, cur2. cbn [andb]. destruct (Nat.eqb (reader_count s r) 0); cbn [negb].
    - assert (readViewGenerations s1 = map items olds ++ [map it_v cur]) as HG1 by exact (iv_gens _ _ _ _ _ _ _ _ Hi).
      unfold ret. do 2 f_equal. symmetry. exact (with_refs_id s1 _ HG1).
    - rewrite map_app. apply (storeReadView_run s1 (map items olds)); [exact (iv_gens _ _ _ _ _ _ _ _ Hi)|].
      rewrite length_map. exact (iv_gen _ _ _ _ _ _ _ _ Hi). }
  assert (Forall (view_at s2 aR false false) cur2) as Hcur2.
  { unfold cur2. destruct (Nat.eqb _ _); [done|]. apply Forall_app. split; [done|]. by constructor. }
  assert (NoDup (w :: map it_v cur2 ++ addrs olds)) as Hnd2.
  { unfold cur2. destruct (Nat.eqb _ _); [apply NoDup_cons; split; [set_solver|done]|]. rewrite map_app, <- app_assoc. cbn [map app].
    rewrite <- Permutation_middle. exact Hnd. }
  pose proof Hnd2 as Hnd3. apply NoDup_cons in Hnd3 as [Hw2 Hnd3]. apply NoDup_app in Hnd3 as (Hndc & Hdc & Hndo).
  destruct (clean_run olds [] s2 [map it_v cur2] 0) as (olds' & A & V3 & Eclean & Hres).
  - done.
  - done.
  - intros v Hv. change (v ∈ addrs olds) in Hv. split.
    + change (m_readView s <> v). rewrite (iv_read _ _ _ _ _ _ _ _ Hi). intros <-. apply Hr, elem_of_app. by right.
    + cbn. rewrite app_nil_r. intros Hin. by apply (Hdc v).
  - by apply NoDup_cons in Harr as [_ ?].
  - exact Holds1.
  - exact (iv_awf _ _ _ _ _ _ _ _ Hi).
  - exact HV.
  - set (G3 := map items olds' ++ [map it_v cur2]). set (s3 := with_refs s2 A V3 (readers s) G3).
    set (s4 := mk_cow A V3 w w (readers s) G3 (currentGen s)).
    destruct Hres as [Hcl HA HV3 Hn Hvs Has Hok]. pose proof (Build_clean_result _ _ _ _ _ Hcl HA HV3 Hn Hvs Has Hok) as Hres.
    assert (r ∉ addrs olds) as Hro by (intros Hin; apply Hr, elem_of_app; by right).
    assert (exists V5, release_view r s4 = Ok (tt, upd s4 A V5) /\ store_wf V5 /\
      forall p, p ∈ w :: map it_v cur2 ++ addrs olds -> cells V5 !! p = cells V3 !! p) as (V5 & Erel & HV5 & Hsame).
    { destruct (Nat.eq_dec (reader_count s r) 0%nat) as [Ez|Enz].
      - assert (map it_v cur2 = map it_v cur) as Ecur by (unfold cur2; by rewrite Ez).
        assert (view_at s4 aR false false rd) as Hrd4.
        { apply (view_at_frame s1); [done|by apply Hvs|]. intros ar Har. exists ar. split; [|done]. cbn. rewrite Has; [done|].
          by apply NoDup_cons in Harr as [? _]. }
        exists (s_del V3 r). split; [|split; [by apply s_del_wf|]].
        + apply (release_last s4 aR false rd HA HV3 Hrd4). apply use_count_zero; [|cbn|exact Ez].
          * intros E. by apply Hw, elem_of_cons; left.
          * unfold G3. rewrite concat_gens, elem_of_app, Ecur. intros [Hin|Hin]; [apply Hro; by eapply elem_of_sublist, cleaned_addrs|].
            apply Hr, elem_of_app. by left.
        + intros p Hp. cbn. apply lookup_delete_ne. intros <-. rewrite Ecur in Hp. apply elem_of_cons in Hp as [Hp|Hp]; [|done].
          by apply Hw, elem_of_cons; left.
      - exists V3. split; [|done]. rewrite release_more; [reflexivity|]. apply cow_use_count_pos. right. left. cbn. unfold G3.
        rewrite concat_gens, elem_of_app. right. unfold cur2. rewrite (proj2 (Nat.eqb_neq _ _) Enz), map_app, elem_of_app. right. by left. }
    set (s5 := upd s4 A V5) in *.
    assert (ready s5 olds' cur2 aR draft false) as Hready.
    { apply (ready_intro s2 olds olds' cur2 aR draft false A V3 s5 Hres); try done.
      - exact (iv_below _ _ _ _ _ _ _ _ Hi).
      - unfold cur2. destruct (Nat.eqb _ _); [done|]. apply Forall_app. by split; [|constructor].
      - intros v Hv. change (0 < reader_count s v)%nat in Hv. unfold cur2.
        destruct (iv_readers _ _ _ _ _ _ _ _ Hi v Hv) as [Ev|Hin].
        + change (v = r) in Ev. rewrite Ev in Hv |- *. rewrite (proj2 (Nat.eqb_neq _ _)) by lia. rewrite map_app, !elem_of_app. left. right. by left.
        + destruct (Nat.eqb _ _); [done|]. rewrite map_app, !elem_of_app in *. tauto.
      - exact (iv_gen _ _ _ _ _ _ _ _ Hi). }
    destruct (cow_finish_run s5 olds' cur2 aR draft false Hready) as (s' & Efin & Hi' & Ereaders).
    exists s'. split; [|exists olds', cur2, aR; split; [exact Hi'|split; [exact Ereaders|]]].
    + unfold merge. rewrite (bind_run _ _ s (m_readView s) s eq_refl). rewrite (bind_run _ _ s (m_writeView s) s eq_refl).
      rewrite (iv_read _ _ _ _ _ _ _ _ Hi). change (it_v rd) with r. change (m_writeView s) with w.
      rewrite (bind_run _ _ s tt s) by (apply assert_run; rewrite bool_decide_eq_false_2; [done|]; intros ->; apply Hw; by left).
      destruct Hrd1 as (fr & arr & Hvr & _). destruct (iv_rd _ _ _ _ _ _ _ _ Hi) as (need & fr0 & ar0 & Hvr0 & _).
      destruct (iv_write _ _ _ _ _ _ _ _ Hi) as (fw & ar1 & Hvw & _).
      rewrite (bind_run _ _ _ _ _ (cow_load_view_run s r _ (iv_vwf _ _ _ _ _ _ _ _ Hi) Hvr0)).
      rewrite (bind_run _ _ _ _ _ (cow_load_view_run s w _ (iv_vwf _ _ _ _ _ _ _ _ Hi) Hvw)). cbn [m_array].
      rewrite bool_decide_eq_true_2 by done.
      rewrite (bind_run _ _ s tt s2) by (rewrite (bind_run _ _ _ _ _ Emark); exact Estore).
      rewrite (bind_run _ _ s2 tt s3).
      2:{ unfold cleanReadViews. rewrite (bind_run _ _ s2 (map items olds ++ [map it_v cur2]) s2 eq_refl).
        rewrite length_app, length_map. cbn [length]. replace (length olds + 1 - 1)%nat with (length olds + 0)%nat by lia.
        exact Eclean. }
      rewrite (bind_run _ _ s3 tt s4 eq_refl). rewrite (bind_run _ _ _ _ _ Erel). exact Efin.
    + intros it Hit Hread. rewrite elem_of_app, in_olds. apply elem_of_cons in Hit as [->|Hit].
      * left. unfold cur2. rewrite (proj2 (Nat.eqb_neq _ _)) by (change (reader_count s r) with (reader_count s (it_v rd)); lia). set_solver.
      * apply elem_of_app in Hit as [Hit|Hit]; [left; unfold cur2; destruct (Nat.eqb _ _); set_solver|right].
        apply in_olds in Hit as (g & Hg & Hit). exists g. split; [|done]. by eapply cleaned_keeps.
Qed.

Lemma not_unique s v : m_readView s = v -> v ∈ concat (readViewGenerations s) -> unique s v = false.
Proof.
  intros Hr Hin. unfold unique, use_count. rewrite bool_decide_eq_true_2 by done.
  apply list_elem_of_In, (count_occ_In N.eq_dec) in Hin. apply Nat.eqb_neq. lia.
Qed.

Lemma merge_own s olds cur rd aR aW draft : inv s olds cur rd aR aW draft true ->
  exists s', merge true s = Ok (tt, s') /\ merged s (rd :: cur ++ concat (map snd olds)) draft s'.
Proof.
  intros Hi. destruct (mark_run _ _ _ _ _ _ _ _ true Hi) as (V & Emark & HV & Hrd1 & Hcur1 & Holds1 & Hw1).
  pose proof (iv_nodup _ _ _ _ _ _ _ _ Hi) as Hnd. pose proof Hnd as Hnd0. apply NoDup_cons in Hnd0 as [Hw Hnd0].
  apply NoDup_cons in Hnd0 as [Hr Hnd0]. apply NoDup_app in Hnd0 as (Hndc & Hdc & Hndo).
  pose proof (iv_arrays _ _ _ _ _ _ _ _ Hi) as Harr. cbn [write_arrays app] in Harr.
  pose proof Harr as Harr0. apply NoDup_cons in Harr0 as [HaR Harr0]. apply NoDup_cons in Harr0 as [_ Hfst].
  set (s1 := upd s (arrays s) V) in *. set (r := it_v rd) in *. set (w := m_writeView s) in *.
  set (pend := (aR, cur ++ [rd])). set (G := [items pend; []]).
  assert (items pend = map it_v cur ++ [r]) as Epend by (unfold items; cbn; by rewrite map_app).
  set (s2 := mk_cow (arrays s) V r w (readers s) (map items olds ++ G) (S (length olds))).
  assert ((storeReadView r ;;; incrementGeneration) s1 = Ok (tt, s2)) as Estore.
  { rewrite (bind_run _ _ _ _ _ (storeReadView_run s1 (map items olds) (map it_v cur) r (iv_gens _ _ _ _ _ _ _ _ Hi)
      ltac:(rewrite length_map; exact (iv_gen _ _ _ _ _ _ _ _ Hi)))).
    unfold incrementGeneration, bind, reads, set_generations, modify. cbn. unfold s2, G. rewrite Epend, <- app_assoc.
    rewrite (iv_gen _ _ _ _ _ _ _ _ Hi). do 2 f_equal. unfold r. by rewrite (iv_read _ _ _ _ _ _ _ _ Hi). }
  assert (forall v, v ∈ items pend -> v ∉ addrs olds) as Hpend.
  { intros v Hv. rewrite Epend, elem_of_app, list_elem_of_singleton in Hv. destruct Hv as [Hv|Hv]; [by apply Hdc|].
    rewrite Hv. intros Hin. apply Hr, elem_of_app. by right. }
  assert (old_ok s2 pend) as Hpok by (right; exists cur, rd; done).
  destruct (clean_run olds [] s2 G 1) as (olds' & A & V3 & Eclean & Hres).
  - done.
  - done.
  - intros v Hv. change (v ∈ addrs olds) in Hv. split.
    + change (r <> v). intros <-. apply Hr, elem_of_app. by right.
    + cbn. rewrite app_nil_r. intros Hin. by apply (Hpend v).
  - done.
  - exact Holds1.
  - exact (iv_awf _ _ _ _ _ _ _ _ Hi).
  - exact HV.
  - set (G3 := map items olds' ++ G). set (s3 := with_refs s2 A V3 (readers s) G3).
    set (s4 := mk_cow A V3 w w (readers s) G3 (S (length olds))).
    assert (r ∈ concat G3) as HrG by (unfold G3, G; rewrite concat_app, Epend; cbn; set_solver).
    pose proof (Forall2_length _ _ _ (cr_cleaned _ _ _ _ _ Hres)) as Hlen.
    assert (ready s4 (olds' ++ [pend]) [] aW draft true) as Hready.
    { apply (ready_intro s2 (olds ++ [pend]) (olds' ++ [pend]) [] aW draft true A V3); try done.
      - apply clean_result_snoc; [done|done|done|]. cbn. intros Hin. apply HaR. by right.
      - cbn [map app]. rewrite addrs_app. unfold addrs at 2. cbn [map concat]. rewrite app_nil_r. change (map it_v pend.2) with (items pend).
        rewrite Epend. apply NoDup_cons. split; [set_solver|]. apply NoDup_cons in Hnd as [_ Hnd].
        rewrite (Permutation_app_comm (map it_v cur) [r]), Permutation_app_comm. exact Hnd.
      - rewrite map_app. cbn [map]. rewrite (Permutation_app_comm (map fst olds)). cbn. rewrite Permutation_swap. exact Harr.
      - apply Forall_app. split; [exact (iv_below _ _ _ _ _ _ _ _ Hi)|]. constructor; [|constructor].
        apply (below_fresh _ _ _ _ _ _ _ _ _ Hi). by left.
      - intros v Hv. change (0 < reader_count s v)%nat in Hv. rewrite addrs_app. unfold addrs at 2. cbn [map concat app].
        rewrite app_nil_r. change (map it_v pend.2) with (items pend). rewrite Epend, !elem_of_app, list_elem_of_singleton.
        destruct (iv_readers _ _ _ _ _ _ _ _ Hi v Hv) as [Ev|Hin]; [right; by right|]. apply elem_of_app in Hin. tauto.
      - by apply (cr_vwf _ _ _ _ _ Hres).
      - cbn. unfold G3, G. by rewrite map_app, <- app_assoc.
      - cbn. rewrite length_app. cbn. lia. }
    destruct (cow_finish_run s4 (olds' ++ [pend]) [] aW draft true Hready) as (s' & Efin & Hi' & Ereaders).
    exists s'. split; [|exists (olds' ++ [pend]), [], aW; split; [exact Hi'|split; [exact Ereaders|]]].
    + unfold merge. rewrite (bind_run _ _ s (m_readView s) s eq_refl). rewrite (bind_run _ _ s (m_writeView s) s eq_refl).
      rewrite (iv_read _ _ _ _ _ _ _ _ Hi). change (it_v rd) with r. change (m_writeView s) with w.
      rewrite (bind_run _ _ s tt s) by (apply assert_run; rewrite bool_decide_eq_false_2; [done|]; intros E; apply Hw, elem_of_cons; by left).
      destruct (iv_rd _ _ _ _ _ _ _ _ Hi) as (need & fr0 & ar0 & Hvr0 & _). destruct (iv_write _ _ _ _ _ _ _ _ Hi) as (fw & ar1 & Hvw & _).
      rewrite (bind_run _ _ _ _ _ (cow_load_view_run s r _ (iv_vwf _ _ _ _ _ _ _ _ Hi) Hvr0)).
      rewrite (bind_run _ _ _ _ _ (cow_load_view_run s w _ (iv_vwf _ _ _ _ _ _ _ _ Hi) Hvw)). cbn [m_array].
      rewrite bool_decide_eq_false_2 by (intros E; apply HaR; rewrite E; by left).
      rewrite (bind_run _ _ s tt s2) by (rewrite (bind_run _ _ _ _ _ Emark); exact Estore).
      rewrite (bind_run _ _ s2 tt s3).
      2:{ unfold cleanReadViews. rewrite (bind_run _ _ s2 (map items olds ++ G) s2 eq_refl).
        rewrite length_app, length_map. cbn [G length]. replace (length olds + 2 - 1)%nat with (length olds + 1)%nat by lia.
        refine (eq_trans Eclean _). cbn [length Nat.add clean_from]. change (with_refs s2 A V3 (readers s2) (map items [] ++ map items olds' ++ G)) with s3.
        rewrite (bind_run _ _ s3 G3 s3 eq_refl). rewrite (bind_run _ _ s3 (items pend) s3).
        2:{ unfold lift, of_option, G3, G. rewrite Hlen, <- (length_map items olds'). by rewrite list_lookup_middle. }
        rewrite (bind_run _ _ s3 true s3); [done|]. unfold reads. do 2 f_equal. apply existsb_exists. exists r.
        split; [apply list_elem_of_In; rewrite Epend; set_solver|]. by rewrite not_unique. }
      rewrite (bind_run _ _ s3 tt s4 eq_refl). rewrite (bind_run _ _ s4 tt s4); [exact Efin|].
      apply release_more, cow_use_count_pos. right. by left.
    + intros it Hit Hread. cbn [app]. rewrite map_app, concat_app, elem_of_app. cbn [map concat pend snd]. rewrite app_nil_r.
      apply elem_of_cons in Hit as [->|Hit]; [right; set_solver|]. apply elem_of_app in Hit as [Hit|Hit]; [right; set_solver|left].
      apply in_olds in Hit as (g & Hg & Hit). apply in_olds. exists g. split; [|done].
      by apply (cleaned_keeps _ _ _ (cr_cleaned _ _ _ _ _ Hres) it).
Qed.

(** ** Histories *)

Inductive op :=
  | PushBack (x : T)
  | SetElem (i : nat) (x : T)        (* write view [i] = x, on an array that no reader has *)
  | ForceCopy
  | Acquire
  | Release (v : ptr)
  | Merge.

Definition perform (o : op) : st (cow T) unit :=
  match o with
  | PushBack x => let! w := reads m_writeView in push_back w x
  | SetElem i x => let! w := reads m_writeView in assign w (Z.of_nat i) x
  | ForceCopy => let! w := reads m_writeView in forceCreateCopy w
  | Acquire => let! _ := getReadView in ret tt
  | Release v => drop_reader v
  | Merge => merge true
  end.

(** What the vector stands for: the elements of the writer, the published view, the
    other views that readers may still hold, and whether the writer has an array
    of its own. *)
Record abs := mk_abs { draft : list T; published : item; held : list item; own : bool }.

Definition represents s (a : abs) : Prop := exists olds cur aR aW,
  inv s olds cur (published a) aR aW (draft a) (own a) /\ held a = cur ++ concat (map snd olds).

Definition write_flags s : Z :=
  match cells (views s) !! m_writeView s with Some vv => m_sizeAndFlags vv | None => 0 end.

(** The size stays below [2^30]; an element is overwritten only in an array that
    belongs to the write view; a reader gives up only what it holds. *)
Definition admissible s (o : op) : Prop :=
  match o with
  | PushBack _ => size (write_flags s) + 1 < 2 ^ 30
  | SetElem i _ => getNeedToFreeArray (write_flags s) = true /\ Z.of_nat i < size (write_flags s) /\ size (write_flags s) + 1 < 2 ^ 30
  | Release v => (0 < reader_count s v)%nat
  | _ => True
  end.

Lemma write_flags_run s olds cur rd aR aW d o : inv s olds cur rd aR aW d o ->
  size (write_flags s) = Z.of_nat (length d) /\ getNeedToFreeArray (write_flags s) = o.
Proof.
  intros Hi. destruct (iv_write _ _ _ _ _ _ _ _ Hi) as (f & ar & Hv & Hf & _). cbn [it_v it_d] in *. unfold write_flags. rewrite Hv.
  cbn. split; [by eapply flags_size|by eapply flags_getNeed].
Qed.

(** The abstract vector: only the writer's operations change its elements, and only
    a merge changes what is published. *)
Definition step s (a : abs) (o : op) (a' : abs) : Prop :=
  match o with
  | PushBack x => draft a' = draft a ++ [x] /\ published a' = published a /\ held a' = held a
  | SetElem i x => draft a' = <[i := x]> (draft a) /\ published a' = published a /\ held a' = held a
  | ForceCopy => a' = mk_abs (draft a) (published a) (held a) true
  | Acquire | Release _ => a' = a
  | Merge => draft a' = draft a /\ it_d (published a') = draft a /\
      forall it, it ∈ published a :: held a -> (0 < reader_count s (it_v it))%nat -> it ∈ held a'
  end.

Lemma cow_inv_readers s olds cur rd aR aW d o r : inv s olds cur rd aR aW d o ->
  (forall v, (0 < default 0%nat (r !! v))%nat -> v = it_v rd \/ (0 < reader_count s v)%nat) ->
  inv (with_refs s (arrays s) (views s) r (readViewGenerations s)) olds cur rd aR aW d o.
Proof.
  intros Hi Hr. destruct Hi. split; try done. intros v Hv. destruct (Hr v Hv) as [->|Hv']; [by left|by apply iv_readers0].
Qed.

Lemma cow_acquire_run s olds cur rd aR aW d o : inv s olds cur rd aR aW d o ->
  exists s', perform Acquire s = Ok (tt, s') /\ inv s' olds cur rd aR aW d o /\
    reader_count s' (it_v rd) = S (reader_count s (it_v rd)).
Proof.
  intros Hi. cbn [perform]. unfold getReadView, bind, reads, set_readers, modify, ret. eexists. split; [reflexivity|].
  rewrite (iv_read _ _ _ _ _ _ _ _ Hi).
  split; [|unfold reader_count; cbn; by rewrite lookup_insert_eq]. rewrite <- (iv_read _ _ _ _ _ _ _ _ Hi).
  apply (cow_inv_readers s); [done|]. intros v Hv. destruct (decide (v = m_readView s)) as [->|Hne].
  - left. apply Hi.
  - right. by rewrite lookup_insert_ne in Hv.
Qed.

Lemma cow_release_run s olds cur rd aR aW d o v : inv s olds cur rd aR aW d o -> (0 < reader_count s v)%nat ->
  exists s', perform (Release v) s = Ok (tt, s') /\ inv s' olds cur rd aR aW d o.
Proof.
  intros Hi Hv. cbn [perform]. unfold drop_reader. rewrite (bind_run _ _ s (readers s) s eq_refl). unfold reader_count in Hv.
  destruct (readers s !! v) as [[|n]|] eqn:E; [cbn in Hv; lia| |cbn in Hv; lia].
  set (s' := with_refs s (arrays s) (views s) (<[v := n]> (readers s)) (readViewGenerations s)). exists s'.
  assert (inv s' olds cur rd aR aW d o) as Hi'.
  { apply cow_inv_readers; [done|]. intros u Hu. right. unfold reader_count. destruct (decide (u = v)) as [->|Hne]; [by rewrite E; cbn; lia|].
    by rewrite lookup_insert_ne in Hu. }
  split; [|done]. rewrite (bind_run (set_readers (<[v := n]> (readers s))) _ s tt s' eq_refl). apply release_more, cow_use_count_pos.
  assert (v = it_v rd \/ v ∈ map it_v cur ++ addrs olds) as [->|Hin].
  { apply (iv_readers _ _ _ _ _ _ _ _ Hi). unfold reader_count. rewrite E. cbn. lia. }
  - left. apply Hi.
  - right. left. rewrite (iv_gens _ _ _ _ _ _ _ _ Hi'). change (map (fun g => map it_v g.2) olds) with (map items olds).
    rewrite concat_gens, elem_of_app. rewrite elem_of_app in Hin. tauto.
Qed.

Lemma cow_perform_run s a o : represents s a -> admissible s o ->
  exists s' a', perform o s = Ok (tt, s') /\ represents s' a' /\ step s a o a'.
Proof.
  intros (olds & cur & aR & aW & Hi & Hh) Ha. destruct a as [d rd h w]. cbn [draft published held own] in *.
  destruct (write_flags_run _ _ _ _ _ _ _ _ Hi) as [Esize Eneed]. destruct o; cbn in Ha; rewrite ?Esize, ?Eneed in Ha.
  - destruct (push_run _ _ _ _ _ _ _ _ x Hi Ha) as (s' & aW' & own' & E & Hi' & _). exists s', (mk_abs (d ++ [x]) rd h own').
    split; [exact E|]. split; [by exists olds, cur, aR, aW'|done].
  - destruct Ha as (Ho & Hlt & Hsm). destruct (assign_run _ _ _ _ _ _ _ _ i x Hi ltac:(lia) (or_introl Ho) Hsm) as (s' & aW' & own' & E & Hi' & _).
    exists s', (mk_abs (write_elem d i x) rd h own'). split; [exact E|]. split; [by exists olds, cur, aR, aW'|].
    split; [|done]. cbn. unfold write_elem. symmetry. apply insert_take_drop. lia.
  - destruct (force_run _ _ _ _ _ _ _ _ Hi) as (s' & aW' & E & Hi' & _). exists s', (mk_abs d rd h true).
    split; [exact E|]. split; [by exists olds, cur, aR, aW'|done].
  - destruct (cow_acquire_run _ _ _ _ _ _ _ _ Hi) as (s' & E & Hi' & _). exists s', (mk_abs d rd h w).
    split; [exact E|]. split; [by exists olds, cur, aR, aW|done].
  - destruct (cow_release_run _ _ _ _ _ _ _ _ v Hi Ha) as (s' & E & Hi'). exists s', (mk_abs d rd h w).
    split; [exact E|]. split; [by exists olds, cur, aR, aW|done].
  - assert (exists s', merge true s = Ok (tt, s') /\ merged s (rd :: cur ++ concat (map snd olds)) d s') as (s' & E & olds' & cur' & a' & Hi' & _ & Hk)
      by (destruct w; [by eapply merge_own|by eapply merge_share]).
    exists s', (mk_abs d (mk_item (m_writeView s) d) (cur' ++ concat (map snd olds')) false). split; [exact E|].
    split; [by exists olds', cur', a', a'|]. split; [done|]. split; [done|]. cbn. by rewrite Hh.
Qed.

(** What a reader sees through its view. *)
Definition shows s (it : item) : Prop := exists vv, cells (views s) !! it_v it = Some vv /\
  isReadView (m_sizeAndFlags vv) = true /\ size (m_sizeAndFlags vv) = Z.of_nat (length (it_d it)) /\
  forall (i : nat) x, it_d it !! i = Some x -> getElement (it_v it) (Z.of_nat i) s = Ok (Some x, s).

Lemma view_shows s a need it : store_wf (arrays s) -> store_wf (views s) -> view_at s a false need it -> shows s it.
Proof.
  intros Hawf Hvwf (f & ar & Hv & Hf & Har & Ht). exists (mk_vv a f). split; [done|]. cbn [m_sizeAndFlags]. unfold isReadView.
  rewrite (flags_isWriteView _ _ _ _ Hf), (flags_size _ _ _ _ Hf). split; [done|]. split; [done|]. intros i x Hx.
  unfold getElement. rewrite (bind_run _ _ _ _ _ (cow_load_view_run s _ _ Hvwf Hv)). cbn [m_array].
  rewrite (bind_run _ _ _ _ _ (load_array_run s _ _ Hawf Har)). unfold lift.
  assert (vec_at ar (Z.of_nat i) = Ok (Some x)) as ->; [|done]. apply vec_at_nth. rewrite Nat2Z.id. split; [lia|].
  assert (take (length (it_d it)) ar !! i = Some (Some x)) as E by (rewrite Ht, list_lookup_fmap_map, Hx; done).
  by apply lookup_take_Some in E as [E _].
Qed.

Lemma represents_shows s a it : represents s a -> it ∈ published a :: held a -> shows s it.
Proof.
  intros (olds & cur & aR & aW & Hi & Hh) Hit. pose proof (iv_awf _ _ _ _ _ _ _ _ Hi) as Hawf. pose proof (iv_vwf _ _ _ _ _ _ _ _ Hi) as Hvwf.
  apply elem_of_cons in Hit as [->|Hit].
  - destruct (iv_rd _ _ _ _ _ _ _ _ Hi) as (need & Hrd). by eapply view_shows.
  - rewrite Hh in Hit. apply elem_of_app in Hit as [Hit|Hit].
    + pose proof (iv_cur _ _ _ _ _ _ _ _ Hi) as Hc. rewrite Forall_forall in Hc. eapply view_shows; eauto.
    + apply in_olds in Hit as (g & Hg & Hit). pose proof (iv_olds _ _ _ _ _ _ _ _ Hi) as Ho. rewrite Forall_forall in Ho.
      destruct (Ho g Hg) as [E|(l & r & E & Hl & Hr)]; [rewrite E in Hit; by apply elem_of_nil in Hit|].
      rewrite E in Hit. apply elem_of_app in Hit as [Hit|Hit]; [rewrite Forall_forall in Hl; eapply view_shows; eauto|].
      apply list_elem_of_singleton in Hit as ->. by eapply view_shows.
Qed.

(** A reader holds [v] in every state from [s0] to [s]. *)
Inductive held_from (v : ptr) (s0 : cow T) : cow T -> Prop :=
  | held_start : (0 < reader_count s0 v)%nat -> held_from v s0 s0
  | held_step s o s' : held_from v s0 s -> admissible s o -> perform o s = Ok (tt, s') ->
      (0 < reader_count s' v)%nat -> held_from v s0 s'.

Lemma held_from_count v s0 s : held_from v s0 s -> (0 < reader_count s v)%nat.
Proof. by destruct 1. Qed.

Lemma step_keeps s a o a' it : step s a o a' -> it ∈ published a :: held a -> (0 < reader_count s (it_v it))%nat ->
  it ∈ published a' :: held a'.
Proof.
  destruct o; cbn; [intros (_ & -> & ->)|intros (_ & -> & ->)|intros ->|intros ->|intros ->|intros (_ & _ & H)]; try done.
  intros Hit Hr. right. by apply H.
Qed.

Lemma held_shown it s0 a0 s : represents s0 a0 -> it ∈ published a0 :: held a0 -> held_from (it_v it) s0 s ->
  exists a, represents s a /\ it ∈ published a :: held a.
Proof.
  intros Hs Hit Hh. induction Hh as [|s o s' Hh (a & Ha & Hin) Hadm Hp Hc]; [by exists a0|].
  destruct (cow_perform_run s a o Ha Hadm) as (s2 & a2 & Hp2 & Ha2 & Hstep). assert (s2 = s') as -> by congruence.
  exists a2. split; [done|]. eapply step_keeps; [done|done|]. by eapply held_from_count.
Qed.

(** The vector after its constructor and the first [commit]. *)
Lemma start_run capacity : 0 <= capacity -> exists s, (cowvector_ capacity ;;; commit) (@empty_cow T) = Ok (tt, s) /\
  represents s (mk_abs [] (mk_item 1%N []) [] false).
Proof.
  intros Hc. set (f0 := setNeedToFreeArray true (setWriteView (setSize 0 0))). set (f1 := setReadView f0).
  assert (flags f0 0 true true) as Hf0 by (eapply flags_setNeed, flags_setWrite, flags_new; lia).
  assert (flags f1 0 false true) as Hf1 by (by eapply flags_setRead).
  set (vv2 := copy_view (mk_vv 1%N f1)).
  set (V := mk_store (<[2%N := vv2]> (<[1%N := mk_vv 1%N f1]> (<[1%N := mk_vv 1%N f0]> ∅))) 3%N : store vectorview).
  set (A := mk_store (<[1%N := new_array capacity]> ∅) 2%N : store (array T)).
  exists (mk_cow A V 1%N 2%N ∅ [[]] 0). split; [reflexivity|]. exists [], [], 1%N, 1%N. split; [|done].
  assert (forall v, cells V !! v <> None -> v = 1%N \/ v = 2%N) as Hdom.
  { intros v. cbn. destruct (decide (v = 2%N)); [by right|]. destruct (decide (v = 1%N)); [by left|]. by rewrite !lookup_insert_ne, lookup_empty. }
  split; try done.
  - split; [done|]. intros p [x Hp]. cbn in *. destruct (decide (p = 1%N)) as [->|Hne]; [done|].
    by rewrite lookup_insert_ne, lookup_empty in Hp.
  - split; [done|]. intros p [x Hp]. change (cells V !! p = Some x) in Hp. destruct (Hdom p) as [->| ->]; [intros E; by rewrite E in Hp|done|done].
  - cbn. repeat constructor; set_solver.
  - exists true, f1, (new_array capacity). split; [cbn; rewrite lookup_insert_ne by done; by rewrite lookup_insert_eq|].
    split; [done|]. split; [apply lookup_insert_eq|done].
  - exists (m_sizeAndFlags vv2), (new_array capacity). split; [apply lookup_insert_eq|]. split; [|split; [apply lookup_insert_eq|done]].
    unfold vv2, copy_view. cbn [m_sizeAndFlags]. rewrite (flags_size _ _ _ _ Hf1). apply flags_copy. cbn. lia.
  - cbn. repeat constructor; set_solver.
  - intros _. repeat constructor; cbn; lia.
  - intros v Hv. unfold reader_count in Hv. cbn in Hv. rewrite lookup_empty in Hv. cbn in Hv. lia.
Qed.

(** (C29) The vector refines its abstraction: from a state that represents a
    writer's vector, a published view and held views, every admissible operation
    succeeds and reaches a state that represents what the operation makes of them;
    and every view that can be reached shows exactly its elements. *)
Theorem cow_refines s (a : abs) (o : op) : represents s a -> admissible s o ->
  exists s' a', perform o s = Ok (tt, s') /\ represents s' a' /\ step s a o a' /\
    forall it, it ∈ published a' :: held a' -> shows s' it.
Proof.
  intros Hr Ha. destruct (cow_perform_run s a o Hr Ha) as (s' & a' & E & Hr' & Hs). exists s', a'.
  split; [done|]. split; [done|]. split; [done|]. intros it. by apply represents_shows.
Qed.

(** Readers keep their snapshot: while a reader holds a view, whatever
    admissible operations run, they succeed, its array is not released and it shows
    the elements it had when the reader took it. *)
Theorem cow_snapshot (s0 s : cow T) (a0 : abs) (it : item) : represents s0 a0 -> it ∈ published a0 :: held a0 ->
  held_from (it_v it) s0 s -> shows s it /\ forall o, admissible s o -> exists s', perform o s = Ok (tt, s').
Proof.
  intros Hr Hit Hh. destruct (held_shown it s0 a0 s Hr Hit Hh) as (a & Ha & Hin). split; [by eapply represents_shows|].
  intros o Ho. destruct (cow_perform_run s a o Ha Ho) as (s' & _ & E & _). by exists s'.
Qed.
End invariant.

(** ** Examples *)

Definition run_ {A} (m : st (cow Z) A) : cow Z := match m empty_cow with Ok (_, s) => s | Err _ => empty_cow end.

(** One element is pushed and published, and a reader takes the view. *)
Definition demo0 : cow Z := run_ (cowvector_ 1 ;;; commit ;;; perform (PushBack 7) ;;; perform Merge ;;; perform Acquire).
Definition demo1 : cow Z := run_ (cowvector_ 1 ;;; commit ;;; perform (PushBack 7) ;;; perform Merge ;;; perform Acquire ;;;
  perform (PushBack 8)).
Definition demo2 : cow Z := run_ (cowvector_ 1 ;;; commit ;;; perform (PushBack 7) ;;; perform Merge ;;; perform Acquire ;;;
  perform (PushBack 8) ;;; perform Merge).

Lemma demo_step (m : st (cow Z) unit) s a o : m empty_cow = Ok (tt, s) -> represents s a -> admissible s o ->
  exists s' a', (m ;;; perform o) empty_cow = Ok (tt, s') /\ represents s' a' /\ step s a o a'.
Proof.
  intros Hm Hr Ha. destruct (cow_perform_run s a o Hr Ha) as (s' & a' & E & Hr' & Hs). exists s', a'. by rewrite (bind_run _ _ _ _ _ Hm).
Qed.

Lemma demo0_represents : exists a, represents demo0 a /\ published a = mk_item 2%N [7].
Proof.
  destruct (start_run (T := Z) 1 ltac:(lia)) as (s1 & E1 & Hr1).
  destruct (demo_step _ s1 _ (PushBack 7) E1 Hr1) as (s2 & a2 & E2 & Hr2 & Hd2 & Hp2 & _).
  { vm_compute in E1. injection E1 as <-. vm_compute. reflexivity. }
  destruct (demo_step _ s2 _ Merge E2 Hr2 I) as (s3 & a3 & E3 & Hr3 & _ & Hp3 & _).
  destruct (demo_step _ s3 _ Acquire E3 Hr3 I) as (s4 & a4 & E4 & Hr4 & ->).
  assert (s4 = demo0) as -> by (vm_compute in E4; injection E4 as <-; vm_compute; reflexivity).
  exists a3. split; [done|]. destruct (published a3) as [v d] eqn:Ep. cbn in Hp3. rewrite Hd2 in Hp3. cbn in Hp3. subst d. f_equal.
  destruct Hr4 as (olds & cur & aR & aW & Hi & _). pose proof (iv_read _ _ _ _ _ _ _ _ Hi) as Hv. rewrite Ep in Hv. change (m_readView demo0 = v) in Hv. rewrite <- Hv.
  vm_compute. reflexivity.
Qed.

Lemma cow_refines_witness : exists s' a', perform (PushBack 8) demo0 = Ok (tt, s') /\ represents s' a'.
Proof.
  destruct demo0_represents as (a & Hr & _).
  destruct (cow_refines demo0 a (PushBack 8) Hr) as (s' & a' & E & Hr' & _); [vm_compute; reflexivity|].
  exists s', a'. split; [exact E|exact Hr'].
Defined.

Lemma cow_snapshot_witness : shows demo2 (mk_item 2%N [7]).
Proof.
  destruct demo0_represents as (a & Hr & Hp).
  refine (proj1 (cow_snapshot demo0 demo2 a (mk_item 2%N [7]) Hr _ _)).
  - rewrite Hp. by left.
  - apply (held_step _ _ demo1 Merge).
    + apply (held_step _ _ demo0 (PushBack 8)); [apply held_start; vm_compute; constructor|vm_compute; reflexivity
        |vm_compute; reflexivity|vm_compute; constructor].
    + exact I.
    + vm_compute. reflexivity.
    + vm_compute. constructor.
Defined.

(** A reader takes a view; another view of the same array is published without a
    reader; then the array is reallocated and the views are merged. *)
Definition second_view (manager : bool) : st (cow Z) (option Z) :=
  cowvector_ 3 ;;; commit ;;;
  perform (PushBack 1) ;;; merge manager ;;;
  let! v := getReadView in
  perform (PushBack 2) ;;; merge manager ;;;
  perform (PushBack 3) ;;; perform (PushBack 4) ;;; merge manager ;;;
  getElement v 0.

(** The manager is needed: without it the merge after the reallocation
    releases the array while a reader still holds an earlier view of it; with the
    manager the reader gets its element. *)
Theorem merge_needs_manager : second_view false empty_cow = Err UseAfterFree /\
  exists s, second_view true empty_cow = Ok (Some 1, s).
Proof. split; [vm_compute; reflexivity|]. eexists. vm_compute. reflexivity. Qed.
End CowVector.
