(* ===== verification/TrieRemove.v ===== *)
(** * Removal of the keywords with empty inverted lists (core/index/Trie.cpp)

    [removeDeletedNodes] descends along the intervals of ids that meet the ids of
    the empty leaves, deletes the sub-tries that become empty, closes the gaps in
    the lists of children and repairs the links; then the trie gets new views. *)
From S2P Require Import Prelude TrieNode Trie TrieTree TrieInsert TrieViews TrieUpdate TrieThreadSafe TrieQueries TrieHistory.
From Stdlib Require Import ZArith Lia List Bool Sorted.
From stdpp Require Import base gmap list fin_maps sorting.
Open Scope Z_scope.

Module TrieRemove.
Import TrieNode Trie TrieTree TrieInsert TrieViews TrieUpdate TrieThreadSafe TrieQueries.

(** ** Searches in the sorted ids of the empty leaves *)

(** [std::lower_bound] on a sorted vector. *)
Definition lower_bound (l : list Z) (x : Z) : option Z := List.find (fun e => x <=? e) l.

Definition binary_search (l : list Z) (x : Z) : bool :=
  match lower_bound l x with Some e => e =? x | None => false end.

Definition findEmptyLeafNodeIds (emptyLeafNodeIds : list Z) (minId maxId : Z) : bool :=
  match lower_bound emptyLeafNodeIds minId with Some e => e <=? maxId | None => false end.

(** ** The children of a node *)

(** The binary search for the first child that reaches [minEmptyNodeId]. *)
Fixpoint first_loop (fuel : nat) (h : heap) (n : TrieNode) (minEmptyNodeId low high : Z) : result Z :=
  if low <=? high then
    match fuel with
    | O => Err OutOfFuel
    | S fuel' =>
        let mid := Z.quot (low + high) 2 in
        let? m := child_at h n mid in
        let? mx := getMaxId h m in
        if minEmptyNodeId <=? mx then first_loop fuel' h n minEmptyNodeId low (mid - 1)
        else first_loop fuel' h n minEmptyNodeId (mid + 1) high
    end
  else Ok low.

(** The scan of the children; [rec] is the removal below a child. *)
Fixpoint scan_loop (rec : ptr -> heap -> result (bool * heap)) (fuel : nat) (E : list Z) (maxEmptyNodeId : Z) (p : ptr)
    (childCursor : Z) (nulled : nat) (h : heap) : result (nat * heap) :=
  match fuel with
  | O => Err OutOfFuel
  | S fuel' =>
      let? n := s_load h p in
      if childCursor <? getChildrenCount n then
        let? q := getChild n childCursor in
        let? m := s_load h q in
        let? minId := getMinId h m in
        if minId <=? maxEmptyNodeId then
          let? maxId := getMaxId h m in
          if negb (minId <=? maxId) then Err AssertFailed
          else
            let? (empty, h) := if findEmptyLeafNodeIds E minId maxId then rec q h else Ok (false, h) in
            if empty : bool then
              let? h := s_delete h q in
              let? n := s_load h p in
              let? n' := setChild n childCursor NULL in
              let? h := s_store h p n' in
              scan_loop rec fuel' E maxEmptyNodeId p (childCursor + 1) (S nulled) h
            else scan_loop rec fuel' E maxEmptyNodeId p (childCursor + 1) nulled h
        else Ok (nulled, h)
      else Ok (nulled, h)
  end.

(** The search for the first nulled child from [first] on: [rest] are the children
    from there. *)
Fixpoint first_null (rest : list ptr) (first : nat) : nat :=
  match rest with
  | [] => first
  | q :: rest' => if bool_decide (q = NULL) then first else first_null rest' (S first)
  end.

(** The moves to the left: [rest] are the children from [second] on. *)
Fixpoint move_loop (rest : list ptr) (first : nat) (l : list ptr) : list ptr :=
  match rest with
  | [] => l
  | q :: rest' => if bool_decide (q = NULL) then move_loop rest' first l else move_loop rest' (S first) (<[first := q]> l)
  end.

Definition compact (l : list ptr) (low : nat) (nulled : nat) : list ptr :=
  let first := first_null (drop low l) low in
  let l' := move_loop (drop (S first) l) first l in
  take (length l' - nulled) l'.

(** ** The removal below a node: [true] when nothing is left *)

(** After the scan: the gaps, the flag and the links of the node. *)
Definition settleSubTrie (E : list Z) (p : ptr) (low nulled : nat) (h : heap) : result (bool * heap) :=
  let? n := s_load h p in
  let? h := if Nat.ltb 0 nulled
    then s_store h p (with_children n (compact (childrenPointerList n) low nulled)) else Ok h in
  let? n := s_load h p in
  let? h := if isTerminalNode n && binary_search E (id n)
    then s_store h p (with_flags n (setTerminalFlag (terminalFlag1bDepth7b n) false)) else Ok h in
  let? n := s_load h p in
  if (getChildrenCount n =? 0) && negb (isTerminalNode n) then Ok (true, h)
  else
    let? left_ := if isTerminalNode n then Ok p else let? c := child_at h n 0 in Ok (leftMostDescendant c) in
    let? h := s_store h p (with_left n left_) in
    let? n := s_load h p in
    let? right_ := if 0 <? getChildrenCount n
      then let? c := child_at h n (getChildrenCount n - 1) in Ok (rightMostDescendant c) else Ok p in
    let? h := s_store h p (with_right n right_) in
    Ok (false, h).

Fixpoint removeSubTrie (fuel : nat) (E : list Z) (p : ptr) (h : heap) : result (bool * heap) :=
  if bool_decide (p = NULL) then Ok (true, h)
  else
    match fuel with
    | O => Err OutOfFuel
    | S fuel' =>
        let? minEmptyNodeId := of_option OutOfRange (head E) in
        let? maxEmptyNodeId := of_option OutOfRange (last E) in
        let? n := s_load h p in
        let? low := first_loop (S (length (childrenPointerList n))) h n minEmptyNodeId 0 (getChildrenCount n - 1) in
        let? (nulled, h) := scan_loop (removeSubTrie fuel' E) (S (length (childrenPointerList n))) E maxEmptyNodeId p low 0 h in
        settleSubTrie E p (Z.to_nat low) nulled h
    end.

(** ** The removal and the new views *)

(** [root_readview.reset(new TrieRootNodeAndFreeList(...))]: [n] is the root that
    the constructor makes; the old view loses a reference. *)
Definition reset_readview (n : TrieNode) : tst ptr :=
  let! r := alloc_node n in
  let! vs := reads views in
  let (v', vs') := s_new vs (mk_view [] r) in
  set_views vs' ;;;
  let! v := reads root_readview in
  set_readview v' ;;;
  dropped v ;;;
  ret r.

(** A write view over the children of the read view's root [r]. *)
Definition renew_writeview (r : ptr) : tst unit :=
  let! n := load_node r in
  let! w' := alloc_node (copy_node n false) in
  set_writeview w'.

(** The trie has become empty: two new roots. *)
Definition start_over (w : ptr) : tst unit :=
  delete_node w ;;;
  let! r := reset_readview new_root in
  renew_writeview r.

(** New roots over what is left below the write view's root [w]. *)
Definition share_anew (w : ptr) : tst unit :=
  resetCopyFlags w ;;;
  let! n := load_node w in
  let! r := reset_readview (copy_node n false) in
  delete_node w ;;;
  renew_writeview r.

Definition removeDeletedNodes : tst unit :=
  let! l := reads emptyLeafNodeIds in
  set_emptyLeafNodeIds (merge_sort Z.le l) ;;;
  let! w := reads root_writeview in
  assert_ (negb (bool_decide (w = NULL))) ;;;
  let! fuel := reads tree_fuel in
  let! E := reads emptyLeafNodeIds in
  let! h := reads nodes in
  let! (empty, h') := lift (removeSubTrie fuel E w h) in
  set_nodes h' ;;;
  (if empty : bool then
     start_over w ;;;
     set_terminalNodes 0 ;;; set_mergeRequired false ;;;
     set_counter (wrap32 (MAX_ALLOCATED_KEYWORD_ID + 1))
   else share_anew w) ;;;
  set_emptyLeafNodeIds [].

(** ** What the removal leaves of a tree *)

Definition cleared (E : list Z) (n : TrieNode) : TrieNode :=
  if isTerminalNode n && binary_search E (id n)
  then with_flags n (setTerminalFlag (terminalFlag1bDepth7b n) false) else n.

Definition relinked (p : ptr) (n : TrieNode) (cs : list tree) : TrieNode :=
  with_right (with_left n (left_of p n cs)) (right_of p n cs).

Definition olist {A} (o : option A) : list A := match o with Some x => [x] | None => [] end.
Definition emptied {A} (o : option A) : bool := match o with Some _ => false | None => true end.

Fixpoint prune (E : list Z) (t : tree) : option tree :=
  match t with
  | Tree p n cs =>
      let cs' := flat_map (fun k => olist (prune E k)) cs in
      let n' := cleared E (with_children n (map tptr cs')) in
      if is_nil cs' && negb (isTerminalNode n') then None else Some (Tree p (relinked p n' cs') cs')
  end.

Definition pruned (E : list Z) (cs : list tree) : list tree := flat_map (fun k => olist (prune E k)) cs.

(** The keywords that stay. *)
Definition survives (E : list Z) (e : list Z * (Z * Z)) : bool := negb (bool_decide (e.2.1 ∈ E)).

Definition entries_of (o : option tree) : list (list Z * (Z * Z)) := match o with Some t => entries t | None => [] end.

Lemma prune_root E p n cs t' : prune E (Tree p n cs) = Some t' ->
  t' = Tree p (relinked p (cleared E (with_children n (map tptr (pruned E cs)))) (pruned E cs)) (pruned E cs) /\
  inhabited t'.
Proof.
  cbn [prune]. change (flat_map _ cs) with (pruned E cs). destruct (is_nil _ && _) eqn:Hc; [done|].
  intros [= <-]. split; [done|]. unfold inhabited. cbn [kids tnode]. intros Hn. rewrite Hn in Hc |- *. cbn in Hc.
  by apply negb_false_iff in Hc.
Qed.

(** ** The sorted ids *)

Lemma lower_bound_spec E x : StronglySorted Z.le E ->
  match lower_bound E x with
  | Some e => e ∈ E /\ x <= e /\ forall y, y ∈ E -> x <= y -> e <= y
  | None => forall y, y ∈ E -> y < x
  end.
Proof.
  unfold lower_bound. induction 1 as [|a E Hs IH Ha]; cbn [find].
  - intros y Hy. by apply not_elem_of_nil in Hy.
  - rewrite Forall_forall in Ha. destruct (Z.leb_spec x a).
    + split; [set_solver|]. split; [done|]. intros y [-> | Hy]%elem_of_cons _; [lia|by apply Ha].
    + destruct (find _ E) as [e|].
      * destruct IH as (He & Hx & Hmin). split; [set_solver|]. split; [done|].
        intros y [-> | Hy]%elem_of_cons Hxy; [lia|by apply Hmin].
      * intros y [-> | Hy]%elem_of_cons; [done|by apply IH].
Qed.

Lemma binary_search_spec E x : StronglySorted Z.le E -> binary_search E x = bool_decide (x ∈ E).
Proof.
  intros Hs. unfold binary_search. pose proof (lower_bound_spec E x Hs) as H. destruct (lower_bound E x) as [e|].
  - destruct H as (He & Hx & Hmin). destruct (Z.eqb_spec e x) as [->|Hne]; [by rewrite bool_decide_true|].
    rewrite bool_decide_false; [done|]. intros Hin. specialize (Hmin x Hin). lia.
  - rewrite bool_decide_false; [done|]. intros Hin. specialize (H x Hin). lia.
Qed.

Lemma findEmptyLeafNodeIds_spec E a b : StronglySorted Z.le E ->
  findEmptyLeafNodeIds E a b = true <-> exists e, e ∈ E /\ a <= e <= b.
Proof.
  intros Hs. unfold findEmptyLeafNodeIds. pose proof (lower_bound_spec E a Hs) as H. destruct (lower_bound E a) as [e|].
  - destruct H as (He & Hx & Hmin). split; [intros ?%Z.leb_le; eauto|]. intros (y & Hy & Ha & Hb). apply Z.leb_le.
    specialize (Hmin y Hy Ha). lia.
  - split; [done|]. intros (y & Hy & Ha & _). specialize (H y Hy). lia.
Qed.

(** ** Properties of the tree that is left *)

Lemma cleared_fields E n : getDepth (cleared E n) = getDepth n /\ character (cleared E n) = character n /\
  id (cleared E n) = id n /\ invertedListOffset (cleared E n) = invertedListOffset n /\
  childrenPointerList (cleared E n) = childrenPointerList n.
Proof.
  unfold cleared. destruct (_ && _); [|done]. split; [|done]. unfold getDepth, setTerminalFlag, with_flags.
  cbn [terminalFlag1bDepth7b]. by rewrite <- Z.land_assoc.
Qed.

Lemma cleared_terminal E n : isTerminalNode (cleared E n) = isTerminalNode n && negb (binary_search E (id n)).
Proof.
  unfold cleared. destruct (isTerminalNode n) eqn:Ht; cbn [andb]; [|done]. destruct (binary_search E (id n)); [|done].
  unfold isTerminalNode, setTerminalFlag, with_flags. cbn [terminalFlag1bDepth7b]. rewrite <- Z.land_assoc.
  by rewrite Z.land_0_r.
Qed.

Lemma cleared_own E n : StronglySorted Z.le E -> own (cleared E n) = List.filter (survives E) (own n).
Proof.
  intros Hs. unfold own. rewrite cleared_terminal. destruct (cleared_fields E n) as (_ & _ & -> & -> & _).
  destruct (isTerminalNode n); cbn [andb List.filter]; [|done]. unfold survives. cbn [fst snd].
  rewrite binary_search_spec by done. by destruct (bool_decide _).
Qed.

Lemma prune_char E t t' : prune E t = Some t' -> tchar t' = tchar t /\ tptr t' = tptr t.
Proof.
  destruct t as [p n cs]. intros [-> _]%prune_root. split; [|done]. unfold tchar. cbn [tnode relinked].
  by destruct (cleared_fields E (with_children n (map tptr (pruned E cs)))) as (_ & Hc & _).
Qed.

Lemma filter_map {A B} (f : A -> B) (g : B -> bool) l : List.filter g (map f l) = map f (List.filter (fun x => g (f x)) l).
Proof. induction l as [|x l IH]; cbn; [done|]. rewrite IH. by destruct (g (f x)). Qed.

Lemma prune_entries E t : StronglySorted Z.le E -> entries_of (prune E t) = List.filter (survives E) (entries t).
Proof.
  intros Hs. induction t as [p n cs IH] using tree_ind'.
  assert (flat_map kid_entries (pruned E cs) = List.filter (survives E) (flat_map kid_entries cs)) as Hk.
  { unfold pruned. induction IH as [|k cs Hk _ IH]; cbn [flat_map]; [done|].
    rewrite flat_map_app, IH, List.filter_app. f_equal.
    unfold kid_entries at 2. rewrite filter_map. change (fun x => survives E (prefixed (tchar k) x)) with (survives E).
    rewrite <- Hk. destruct (prune E k) as [k'|] eqn:Ek; cbn; [|done]. rewrite app_nil_r. unfold kid_entries.
    by destruct (prune_char _ _ _ Ek) as [-> _]. }
  set (n1 := with_children n (map tptr (pruned E cs))). pose proof (cleared_own E n1 Hs) as Ho.
  cbn [entries]. change (flat_map _ cs) with (flat_map kid_entries cs). rewrite List.filter_app, <- Hk.
  change (own n) with (own n1). rewrite <- Ho. destruct (prune E (Tree p n cs)) as [t'|] eqn:Et.
  - apply prune_root in Et as [-> _]. done.
  - cbn [prune] in Et. change (flat_map (fun k => olist (prune E k)) cs) with (pruned E cs) in Et. fold n1 in Et.
    destruct (is_nil (pruned E cs)) eqn:En; cbn in Et; [|done]. destruct (pruned E cs); [|done].
    unfold own. destruct (isTerminalNode (cleared E n1)); done.
Qed.

Lemma pruned_chars E cs : map tchar (pruned E cs) `sublist_of` map tchar cs.
Proof.
  unfold pruned. induction cs as [|k cs IH]; cbn [flat_map map]; [constructor|].
  destruct (prune E k) as [k'|] eqn:Ek; cbn; [|by constructor]. destruct (prune_char _ _ _ Ek) as [-> _]. by constructor.
Qed.

Lemma ssorted_sublist {A} (R : A -> A -> Prop) l1 l2 : l1 `sublist_of` l2 -> StronglySorted R l2 -> StronglySorted R l1.
Proof.
  induction 1 as [|x l1 l2 Hl IH|x l1 l2 Hl IH]; inversion_clear 1 as [|? ? Hs Hx]; [constructor| |auto].
  constructor; [auto|]. rewrite Forall_forall in *. intros y Hy. apply Hx. by eapply elem_of_sublist.
Qed.

Lemma elem_of_pruned E cs k' : k' ∈ pruned E cs <-> exists k, k ∈ cs /\ prune E k = Some k'.
Proof.
  unfold pruned. rewrite elem_of_flat_map. split; intros (k & Hk & H); exists k; (split; [done|]).
  - destruct (prune E k); cbn in H; set_solver.
  - rewrite H. set_solver.
Qed.

Lemma prune_wf E t : forall d t', wf d t -> prune E t = Some t' -> wf d t' /\ inhabited t'.
Proof.
  induction t as [p n cs IH] using tree_ind'. intros d t' Hw Hp. apply prune_root in Hp as [Et Hi]. split; [|done].
  rewrite Et. inversion_clear Hw as [? ? ? ? Hd Hs Hws His _ _]. set (n1 := cleared E _) in *.
  rewrite Forall_forall in IH, Hws. constructor; try done.
  - unfold n1. destruct (cleared_fields E (with_children n (map tptr (pruned E cs)))) as (Hg & _). unfold relinked.
    transitivity (getDepth (with_children n (map tptr (pruned E cs)))); [exact Hg|exact Hd].
  - eapply ssorted_sublist; [apply pruned_chars|done].
  - apply Forall_forall. intros k' (k & Hk & Ek)%elem_of_pruned. by apply (IH k Hk _ _ (Hws k Hk) Ek).
  - apply Forall_forall. intros k' (k & Hk & Ek)%elem_of_pruned. by apply (IH k Hk _ _ (Hws k Hk) Ek).
Qed.

Lemma prune_ptrs E t : forall t', prune E t = Some t' -> ptrs t' `sublist_of` ptrs t.
Proof.
  induction t as [p n cs IH] using tree_ind'. intros t' [-> _]%prune_root. cbn [ptrs]. constructor. unfold pruned.
  induction IH as [|k cs Hk _ IH]; cbn [flat_map]; [constructor|]. rewrite flat_map_app.
  apply sublist_app; [|done]. destruct (prune E k) as [k'|]; cbn; [|apply sublist_nil_l]. rewrite app_nil_r. by apply Hk.
Qed.

(** A sub-tree without one of the ids is left as it is. *)
Lemma with_children_same n : with_children n (childrenPointerList n) = n.
Proof. by destruct n. Qed.

Lemma prune_same E t : StronglySorted Z.le E -> forall h d, shape h t -> wf d t -> inhabited t ->
  (forall i, i ∈ ids t -> i ∉ E) -> prune E t = Some t.
Proof.
  intros HE. induction t as [p n cs IH] using tree_ind'. intros h d Hs Hw Hi Hid.
  inversion Hs as [? ? ? _ _ Hch Hcs]; subst. inversion_clear Hw as [? ? ? ? _ _ Hws His Hl Hr].
  rewrite ids_tree in Hid. assert (pruned E cs = cs) as Ecs.
  { assert (forall i, i ∈ flat_map ids cs -> i ∉ E) as Hkid by (intros i Hin; apply Hid; set_solver).
    clear Hid Hs Hch Hl Hr Hi. unfold pruned.
    induction cs as [|k cs IHcs]; cbn [flat_map] in *; [done|].
    inversion_clear IH as [|? ? IHk IHr]. inversion_clear Hcs. inversion_clear Hws. inversion_clear His.
    rewrite (IHk h (d + 1)), IHcs; try done; intros i Hin; apply Hkid; set_solver. }
  cbn [prune]. change (flat_map _ cs) with (pruned E cs). rewrite Ecs, <- Hch, with_children_same.
  assert (cleared E n = n) as ->.
  { unfold cleared. rewrite binary_search_spec by done. destruct (isTerminalNode n); [|done].
    rewrite bool_decide_false; [done|]. apply Hid. set_solver. }
  unfold relinked. rewrite <- Hl, <- Hr, own_links_id. destruct cs; [|done].
  specialize (Hi eq_refl). cbn in Hi |- *. by rewrite Hi.
Qed.


(** ** Closing the gaps *)

Definition nonnull (q : ptr) : bool := negb (bool_decide (q = NULL)).

Lemma move_loop_length rest : forall first l, length (move_loop rest first l) = length l.
Proof.
  induction rest as [|q rest IH]; intros first l; cbn [move_loop]; [done|].
  case_bool_decide; [apply IH|]. by rewrite IH, length_insert.
Qed.

Lemma move_loop_take rest : forall first l, (first + length (List.filter nonnull rest) <= length l)%nat ->
  take (first + length (List.filter nonnull rest)) (move_loop rest first l) = take first l ++ List.filter nonnull rest.
Proof.
  induction rest as [|q rest IH]; intros first l Hl; cbn [move_loop List.filter] in *.
  - cbn. by rewrite Nat.add_0_r, app_nil_r.
  - destruct (nonnull q) eqn:Hq; unfold nonnull in Hq; destruct (bool_decide (q = NULL)); try done;
      [|by apply IH]. cbn [length] in *.
    rewrite Nat.add_succ_r in *. rewrite <- Nat.add_succ_l in *. rewrite IH by (rewrite length_insert; lia).
    rewrite (take_S_r _ _ q) by (apply list_lookup_insert_eq; lia).
    by rewrite take_insert_ge, <- app_assoc by lia.
Qed.

Lemma first_null_app A B first : forallb nonnull A = true -> first_null (A ++ NULL :: B) first = (first + length A)%nat.
Proof.
  revert first. induction A as [|a A IH]; intros first HA; cbn in *.
  - rewrite bool_decide_true by done. lia.
  - apply andb_prop in HA as [Ha HA]. unfold nonnull in Ha. destruct (bool_decide (a = NULL)); [done|].
    rewrite IH by done. lia.
Qed.

Lemma filter_nonnull_id A : forallb nonnull A = true -> List.filter nonnull A = A.
Proof. induction A as [|a A IH]; cbn; [done|]. intros [-> HA]%andb_prop. by rewrite IH. Qed.

Lemma first_gap l : (length (List.filter nonnull l) < length l)%nat ->
  exists A B, l = A ++ NULL :: B /\ forallb nonnull A = true.
Proof.
  induction l as [|a l IH]; cbn; [lia|]. destruct (nonnull a) eqn:Ha; cbn.
  - intros (A & B & -> & HA)%Nat.succ_lt_mono%IH. exists (a :: A), B. cbn. by rewrite Ha.
  - intros _. exists [], l. unfold nonnull in Ha. apply negb_false_iff, bool_decide_eq_true in Ha as ->. done.
Qed.

Lemma compact_filter L R nulled : forallb nonnull L = true -> (0 < nulled)%nat ->
  length R = (length (List.filter nonnull R) + nulled)%nat ->
  compact (L ++ R) (length L) nulled = List.filter nonnull (L ++ R).
Proof.
  intros HL Hn Hlen. destruct (first_gap R) as (A & B & -> & HA); [lia|].
  rewrite List.filter_app in Hlen. cbn [List.filter] in Hlen. change (nonnull NULL) with false in Hlen. cbn iota in Hlen.
  rewrite (filter_nonnull_id A HA), !length_app in Hlen. cbn [length] in Hlen.
  unfold compact. rewrite drop_app_length, first_null_app by done. rewrite move_loop_length.
  set (first := (length L + length A)%nat).
  assert (drop (S first) (L ++ A ++ NULL :: B) = B) as ->.
  { rewrite (cons_middle NULL A B), app_assoc, app_assoc. apply drop_app_length'.
    rewrite !length_app. cbn. unfold first. lia. }
  replace (length (L ++ A ++ NULL :: B) - nulled)%nat with (first + length (List.filter nonnull B))%nat
    by (rewrite !length_app; cbn [length]; unfold first; lia).
  rewrite move_loop_take by (rewrite !length_app; cbn [length]; unfold first; lia).
  rewrite !List.filter_app. cbn [List.filter]. change (nonnull NULL) with false. cbn iota.
  rewrite (filter_nonnull_id L HL), (filter_nonnull_id A HA).
  assert (take first (L ++ A ++ NULL :: B) = L ++ A) as ->; [|by rewrite <- app_assoc].
  rewrite app_assoc. apply take_app_length'. unfold first. by rewrite length_app.
Qed.

(** ** The first child to look at *)

Lemma sorted_lasts cs : StronglySorted Z.lt (flat_map ids cs) -> Forall (fun k => ids k <> []) cs ->
  StronglySorted Z.lt (map last_id cs).
Proof.
  induction cs as [|k cs IH]; cbn; [constructor|]. intros Hs Hne. inversion_clear Hne as [|? ? Hk Hcs].
  apply ssorted_app_inv in Hs as (Hlt & _ & Hs). constructor; [by apply IH|].
  assert (forall k, ids k <> [] -> In (last_id k) (ids k)) as Hin.
  { intros t Ht. unfold last_id. rewrite (app_removelast_last 0 Ht) at 2. apply in_app_iff. by right; left. }
  apply List.Forall_forall. intros x (k' & <- & Hk')%in_map_iff. apply Hlt; [by apply Hin|].
  apply in_flat_map. exists k'. split; [done|]. apply Hin. rewrite Forall_forall in Hcs. apply Hcs. by apply list_elem_of_In.
Qed.

Lemma first_loop_run h n ks i d : children_are h n (map tnode ks) -> StronglySorted Z.lt (map last_id ks) ->
  Forall (fun k => shape h k /\ wf d k /\ inhabited k) ks ->
  forall fuel low high, 0 <= low -> low <= high + 1 -> high < Z.of_nat (length ks) ->
  high - low + 1 < Z.of_nat fuel ->
  Forall (fun k => last_id k < i) (take (Z.to_nat low) ks) ->
  exists l r, first_loop fuel h n i low high = Ok (Z.of_nat (length l)) /\ ks = l ++ r /\
    Forall (fun k => last_id k < i) l.
Proof.
  intros Hks Hs Hall. induction fuel as [|fuel IH]; intros low high Hf Hfl Hl Hfuel Hlo; [lia|].
  cbn [first_loop]. destruct (Z.leb_spec low high).
  - set (mid := Z.quot (low + high) 2).
    assert (low <= mid <= high) as Hmid by (unfold mid; rewrite Z.quot_div_nonneg by lia; dlia).
    destruct (lookup_lt_is_Some_2 ks (Z.to_nat mid)) as [k Hk]; [lia|].
    rewrite (child_at_lookup h n _ mid (tnode k) Hks) by (try lia; by rewrite list_lookup_fmap_map, Hk). cbn [rbind].
    assert (shape h k /\ wf d k /\ inhabited k) as (Hsk & Hwk & Hik) by (rewrite Forall_lookup in Hall; eauto).
    destruct (interval_run h k d Hsk Hwk Hik) as [_ ->]. cbn [rbind].
    destruct (Z.leb_spec i (last_id k)) as [H1|H1]; apply IH; try lia; [done|].
    apply Forall_lookup. intros j x Hx. apply lookup_take_Some in Hx as [Hx Hj].
    destruct (decide (j = Z.to_nat mid)) as [->|]; [simplify_eq; lia|].
    enough (last_id x < last_id k) by lia.
    eapply (sorted_lookup _ j (Z.to_nat mid) _ _ Hs); [by rewrite list_lookup_fmap_map, Hx|by rewrite list_lookup_fmap_map, Hk|lia].
  - exists (take (Z.to_nat low) ks), (drop (Z.to_nat low) ks). rewrite take_drop, length_take. split; [f_equal; lia|done].
Qed.


(** ** The scan of the children *)

(** The address left in the list of children. *)
Definition slot (E : list Z) (k : tree) : ptr := match prune E k with Some _ => tptr k | None => NULL end.

Definition left_behind (k k' : tree) (h : heap) : Prop :=
  shape h k' /\ forall q, q ∈ ptrs k -> q ∉ ptrs k' -> cells h !! q = None.

Definition cleaned (E : list Z) (h : heap) (k : tree) : Prop :=
  match prune E k with Some k' => left_behind k k' h | None => forall q, q ∈ ptrs k -> cells h !! q = None end.

(** A run of the removal below a node; the node itself is deleted by its parent. *)
Definition emptied_below (E : list Z) (h : heap) (k : tree) : Prop :=
  match prune E k with
  | Some k' => left_behind k k' h
  | None => is_Some (cells h !! tptr k) /\ forall q, q ∈ ptrs k -> q <> tptr k -> cells h !! q = None
  end.

Definition removes (E : list Z) (rec : ptr -> heap -> result (bool * heap)) (k : tree) : Prop := forall h, shape h k ->
  exists h', rec (tptr k) h = Ok (emptied (prune E k), h') /\ same_outside (ptrs k) h h' /\ emptied_below E h' k.

Record kid_ok (d : Z) (k : tree) : Prop := {
  ko_wf : wf d k;
  ko_inhabited : inhabited k;
  ko_ordered : ordered k;
  ko_nodup : NoDup (ptrs k) }.

Lemma cleaned_ext E h h' k : (forall q, q ∈ ptrs k -> cells h' !! q = cells h !! q) -> cleaned E h k -> cleaned E h' k.
Proof.
  unfold cleaned. intros Hag. destruct (prune E k) as [k'|] eqn:Ek.
  - intros [Hs Hg]. assert (forall q, q ∈ ptrs k' -> q ∈ ptrs k) as Hsub.
    { intros q Hq. eapply elem_of_sublist; [exact Hq|by apply prune_ptrs in Ek]. }
    split; [eapply shape_frame_rule; [|exact Hs]; auto|]. intros q Hq Hq'. rewrite Hag by done. by apply Hg.
  - intros Hg q Hq. rewrite Hag by done. by apply Hg.
Qed.

(** A child whose ids are not among those to remove. *)
Lemma cleaned_same E h d k : StronglySorted Z.le E -> shape h k -> kid_ok d k -> (forall i, i ∈ ids k -> i ∉ E) ->
  prune E k = Some k /\ cleaned E h k.
Proof.
  intros HE Hs [Hw Hi _ _] Hid. pose proof (prune_same E k HE h d Hs Hw Hi Hid) as Ep. split; [done|].
  unfold cleaned. rewrite Ep. split; [done|]. naive_solver.
Qed.

Lemma ids_interval d k i : wf d k -> inhabited k -> ordered k -> i ∈ ids k -> first_id k <= i <= last_id k.
Proof.
  intros Hw Hi Ho Hin. unfold ordered, first_id, last_id in *. destruct (ids k) as [|a l] using rev_ind; [set_solver|].
  rewrite List.last_last. apply ssorted_app_inv in Ho as (Hlt & Hsl & _). split.
  - destruct l as [|b l]; cbn in *; [set_solver by lia|]. inversion_clear Hsl as [|? ? _ Hb].
    rewrite Forall_forall in Hb. specialize (Hlt b a (or_introl eq_refl) (or_introl eq_refl)).
    apply elem_of_cons in Hin as [-> | [Hin | ->%list_elem_of_singleton]%elem_of_app]; [lia|specialize (Hb i Hin); lia|lia].
  - apply elem_of_app in Hin as [Hin | ->%list_elem_of_singleton]; [|lia].
    specialize (Hlt i a ltac:(by apply list_elem_of_In) (or_introl eq_refl)). lia.
Qed.

(** The visit of one child. *)
Lemma visit_run E rec h d k : StronglySorted Z.le E -> shape h k -> kid_ok d k -> removes E rec k ->
  exists h', (if findEmptyLeafNodeIds E (first_id k) (last_id k) then rec (tptr k) h else Ok (false, h)) =
    Ok (emptied (prune E k), h') /\ same_outside (ptrs k) h h' /\ emptied_below E h' k.
Proof.
  intros HE Hs Hk Hrec. destruct (findEmptyLeafNodeIds E (first_id k) (last_id k)) eqn:Hf; [by apply Hrec|].
  destruct (cleaned_same E h d k HE Hs Hk) as [Ep Hc].
  - intros i Hi Hin. destruct Hk as [Hw Hinh Ho _]. pose proof (ids_interval d k i Hw Hinh Ho Hi).
    assert (findEmptyLeafNodeIds E (first_id k) (last_id k) = true); [|congruence].
    apply findEmptyLeafNodeIds_spec; eauto.
  - exists h. unfold cleaned, emptied_below in *. rewrite Ep in *. done.
Qed.

(** The deletion of a child that is empty. *)
Lemma delete_child E h k : prune E k = None -> tptr k <> NULL -> emptied_below E h k ->
  exists h', s_delete h (tptr k) = Ok h' /\ same_outside (ptrs k) h h' /\ cleaned E h' k.
Proof.
  intros Ep Hnn Hb. unfold emptied_below in Hb. rewrite Ep in Hb. destruct Hb as [[n Hn] Hb].
  exists (mk_store (delete (tptr k) (cells h)) (next_addr h)). unfold s_delete. rewrite decide_False by done.
  rewrite (proj2 (s_load_Ok h _ n) (conj Hnn Hn)). cbn [rbind]. split; [done|]. split.
  - split; [|done|].
    + intros q Hq. cbn. apply lookup_delete_ne. intros <-. apply Hq. apply tptr_in.
    + intros Hwf. apply (s_delete_wf h (tptr k)); [done|]. unfold s_delete. rewrite decide_False by done.
      by rewrite (proj2 (s_load_Ok h _ n) (conj Hnn Hn)).
  - unfold cleaned. rewrite Ep. intros q Hq. cbn. destruct (decide (q = tptr k)) as [->|Hne]; [apply lookup_delete_eq|].
    rewrite lookup_delete_ne by done. by apply Hb.
Qed.


Lemma setChild_run n pre q l x : setChild (with_children n (pre ++ q :: l)) (Z.of_nat (length pre)) x =
  Ok (with_children n (pre ++ x :: l)).
Proof.
  unfold setChild, getChildrenCount. cbn [childrenPointerList with_children]. rewrite length_app. cbn [length].
  rewrite (proj2 (Z.leb_le 0 _)), (proj2 (Z.ltb_lt _ _)) by lia. cbn [andb].
  by rewrite Nat2Z.id, insert_app_r_alt, Nat.sub_diag by lia.
Qed.

Lemma store_cell (h : heap) p n n' : p <> NULL -> cells h !! p = Some n -> s_store h p n' = Ok (update h p n').
Proof. intros Hp Hn. apply s_store_Ok. split; [done|]. split; [by eexists|done]. Qed.

(** The deletion of an empty child, and the mark it leaves in its parent. *)
Lemma mark_child_run E h p n pre k l : let n0 := with_children n (pre ++ tptr k :: l) in
  let n1 := with_children n (pre ++ NULL :: l) in p <> NULL -> prune E k = None ->
  p ∉ ptrs k -> tptr k <> NULL -> cells h !! p = Some n0 -> emptied_below E h k ->
  exists h1, s_delete h (tptr k) = Ok h1 /\ s_load h1 p = Ok n0 /\ s_store h1 p n1 = Ok (update h1 p n1) /\
    cells (update h1 p n1) !! p = Some n1 /\ same_outside (p :: ptrs k) h (update h1 p n1) /\ cleaned E (update h1 p n1) k.
Proof.
  intros n0 n1 Hp Ek Hpk Hnn Hn0 Hb. destruct (delete_child E h k Ek Hnn Hb) as (h1 & Hd & Ho1 & Hc1).
  assert (cells h1 !! p = Some n0) as Hn1 by (by rewrite (so_cells _ _ _ Ho1)).
  exists h1. split; [done|]. split; [by apply s_load_Ok|]. split; [by apply (store_cell h1 p n0)|].
  split; [apply lookup_insert_eq|]. split.
  - eapply same_outside_mono; [|eapply same_outside_trans; [exact Ho1|by eapply same_outside_update]]. set_solver.
  - eapply cleaned_ext; [|exact Hc1]. intros q Hq. apply lookup_insert_ne. by intros ->.
Qed.

Lemma scan_step_run {B} E (K : nat -> heap -> result B) h h1 p n pre k l nulled : p <> NULL -> p ∉ ptrs k -> tptr k <> NULL ->
  cells h1 !! p = Some (with_children n (pre ++ tptr k :: l)) -> same_outside (ptrs k) h h1 -> emptied_below E h1 k ->
  exists h2, same_outside (p :: ptrs k) h h2 /\ cleaned E h2 k /\
    cells h2 !! p = Some (with_children n ((pre ++ [slot E k]) ++ l)) /\
    (if emptied (prune E k) then
       let? h := s_delete h1 (tptr k) in let? n := s_load h p in
       let? n' := setChild n (Z.of_nat (length pre)) NULL in let? h := s_store h p n' in K (S nulled) h
     else K nulled h1) = K (if emptied (prune E k) then S nulled else nulled) h2.
Proof.
  intros Hp Hpk Hnn Hn1 Ho Hb. rewrite <- app_assoc. unfold slot. destruct (prune E k) as [k'|] eqn:Ek; cbn [emptied app].
  - exists h1. unfold emptied_below, cleaned in *. rewrite Ek in *. split; [|done].
    by eapply same_outside_mono; [|exact Ho]; set_solver.
  - destruct (mark_child_run E h1 p n pre k l Hp Ek Hpk Hnn Hn1 Hb) as (h2 & -> & Hl & Hst & Hn2 & Ho2 & Hc2). cbn [rbind].
    rewrite Hl. cbn [rbind]. rewrite setChild_run. cbn [rbind]. rewrite Hst. cbn [rbind]. eexists. split; [|done].
    eapply same_outside_mono; [|eapply same_outside_trans; [exact Ho|exact Ho2]]. set_solver.
Qed.

Definition count_emptied (E : list Z) (r : list tree) : nat := length (List.filter (fun k => emptied (prune E k)) r).

(** The children beyond the largest id. *)
Lemma beyond_run E h d maxE r : StronglySorted Z.le E -> (forall e, e ∈ E -> e <= maxE) -> Forall (shape h) r ->
  Forall (kid_ok d) r -> Forall (fun i => maxE < i) (flat_map ids r) ->
  map (slot E) r = map tptr r /\ count_emptied E r = 0%nat /\ Forall (cleaned E h) r.
Proof.
  intros HE Hmax. unfold count_emptied. induction r as [|k r IH]; cbn [map List.filter flat_map]; intros Hs Hk Hid; [done|].
  inversion_clear Hs as [|? ? Hsk Hsr]. inversion_clear Hk as [|? ? Hkk Hkr]. apply Forall_app in Hid as [Hik Hir].
  destruct (IH Hsr Hkr Hir) as (-> & Hc & Hcl). rewrite Forall_forall in Hik.
  destruct (cleaned_same E h d k HE Hsk Hkk) as [Ep Hck].
  { intros i Hi Hin. specialize (Hmax i Hin). specialize (Hik i Hi). lia. }
  unfold slot. rewrite Ep. cbn. split; [done|]. split; [done|]. by constructor.
Qed.

Lemma ids_beyond d k r maxE : kid_ok d k -> StronglySorted Z.lt (ids k ++ flat_map ids r) -> maxE < first_id k ->
  Forall (fun i => maxE < i) (ids k ++ flat_map ids r).
Proof.
  intros [Hw Hi _ _] Hs Hlt. pose proof (ids_nonempty _ _ Hw Hi) as Hne. unfold first_id in Hlt.
  destruct (ids k) as [|a l]; [done|]. cbn in *. inversion_clear Hs as [|? ? _ Ha]. constructor; [done|].
  eapply Forall_impl; [exact Ha|]. cbn. lia.
Qed.

Lemma scan_run E rec maxE p n d : StronglySorted Z.le E -> (forall e, e ∈ E -> e <= maxE) -> p <> NULL ->
  forall r fuel pre nulled h, (length r < fuel)%nat -> Forall (shape h) r -> Forall (kid_ok d) r -> Forall (removes E rec) r ->
  StronglySorted Z.lt (flat_map ids r) -> NoDup (p :: flat_map ptrs r) ->
  cells h !! p = Some (with_children n (pre ++ map tptr r)) ->
  exists h', scan_loop rec fuel E maxE p (Z.of_nat (length pre)) nulled h = Ok ((nulled + count_emptied E r)%nat, h') /\
    cells h' !! p = Some (with_children n (pre ++ map (slot E) r)) /\ same_outside (p :: flat_map ptrs r) h h' /\
    Forall (cleaned E h') r.
Proof.
  intros HE Hmax Hp. induction r as [|k r IH]; intros fuel pre nulled h Hf Hs Hk Hr Hsort Hnd Hn;
    (destruct fuel as [|fuel]; [cbn in Hf; lia|]); cbn [scan_loop];
    rewrite (proj2 (s_load_Ok h p _) (conj Hp Hn)); cbn [rbind]; unfold getChildrenCount;
    cbn [childrenPointerList with_children].
  - cbn [map]. rewrite app_nil_r, Z.ltb_irrefl. exists h. cbn. rewrite Nat.add_0_r. rewrite app_nil_r in *. done.
  - rewrite (proj2 (Z.ltb_lt _ _)) by (rewrite length_app; cbn; lia).
    assert (getChild (with_children n (pre ++ map tptr (k :: r))) (Z.of_nat (length pre)) = Ok (tptr k)) as -> by apply vec_at_app.
    cbn [rbind]. pose proof Hs as Hs0. pose proof Hk as Hk0. inversion_clear Hs as [|? ? Hsk Hsr].
    inversion_clear Hk as [|? ? Hkk Hkr]. inversion_clear Hr as [|? ? Hrk Hrr].
    rewrite (shape_load_root _ _ Hsk). cbn [rbind]. pose proof Hkk as [Hwk Hik Hok Hndk].
    destruct (interval_run h k d Hsk Hwk Hik) as [-> ->]. cbn [rbind].
    pose proof (ids_nonempty _ _ Hwk Hik) as Hne. cbn [flat_map] in Hsort, Hnd.
    destruct (Z.leb_spec (first_id k) maxE) as [Hle|Hgt].
    + assert (negb (first_id k <=? last_id k) = false) as ->.
      { destruct (ids k) as [|i l] eqn:Ei; [done|]. assert (i ∈ ids k) as Hin by (rewrite Ei; set_solver).
        pose proof (ids_interval d k i Hwk Hik Hok Hin). apply negb_false_iff, Z.leb_le. lia. }
      destruct (visit_run E rec h d k HE Hsk Hkk Hrk) as (h1 & -> & Ho1 & Hb1). cbn [rbind].
      apply NoDup_cons in Hnd as [Hpn Hnd]. rewrite not_elem_of_app in Hpn. destruct Hpn as [Hpk Hpr].
      apply NoDup_app in Hnd as (_ & Hdis & Hndr). apply ssorted_app_inv in Hsort as (_ & _ & Hsr').
      assert (cells h1 !! p = Some (with_children n (pre ++ tptr k :: map tptr r))) as Hn1 by (by rewrite (so_cells _ _ _ Ho1)).
      destruct (scan_step_run E (fun nulled h => scan_loop rec fuel E maxE p (Z.of_nat (length pre) + 1) nulled h)
        h h1 p n pre k (map tptr r) nulled Hp Hpk (shape_nonnull _ _ Hsk) Hn1 Ho1 Hb1) as (h2 & Ho2 & Hc2 & Hn2 & ->).
      assert (Forall (shape h2) r) as Hsr2.
      { eapply shapes_outside; [exact Ho2|exact Hsr|]. intros q Hq [-> | Hq']%elem_of_cons; [done|]. by apply (Hdis q). }
      destruct (IH fuel (pre ++ [slot E k]) (if emptied (prune E k) then S nulled else nulled) h2) as (h' & Hrun & Hn' & Ho' & Hc');
        try done; [cbn in Hf; lia|by constructor|].
      rewrite length_app, Nat2Z.inj_add in Hrun. rewrite <- app_assoc in Hn'. exists h'. split; [|split; [exact Hn'|split]].
      * etransitivity; [exact Hrun|]. unfold count_emptied. cbn [List.filter]. do 2 f_equal. destruct (emptied _); cbn; lia.
      * eapply same_outside_mono; [|eapply same_outside_trans; [exact Ho2|exact Ho']]. cbn [flat_map]. set_solver.
      * constructor; [|done]. eapply cleaned_ext; [|exact Hc2]. intros q Hq. apply (so_cells _ _ _ Ho').
        intros [-> | Hq']%elem_of_cons; [done|]. by apply (Hdis q).
    + assert (Forall (fun i => maxE < i) (flat_map ids (k :: r))) as Hid by (by eapply ids_beyond).
      destruct (beyond_run E h d maxE (k :: r) HE Hmax Hs0 Hk0 Hid) as (-> & -> & Hc).
      exists h. rewrite Nat.add_0_r. split; [done|]. split; [done|]. split; [|done].
      by apply (same_outside_mono []); [set_solver|].
Qed.


(** ** Settling the node *)

Lemma slots_nonnull E cs : Forall (fun k => tptr k <> NULL) cs ->
  List.filter nonnull (map (slot E) cs) = map tptr (pruned E cs) /\
  length cs = (length (List.filter nonnull (map (slot E) cs)) + count_emptied E cs)%nat.
Proof.
  unfold pruned, count_emptied, slot.
  induction 1 as [|k cs Hk _ [IH1 IH2]]; cbn [map List.filter flat_map length]; [done|].
  destruct (prune E k) as [k'|] eqn:Ek; cbn [emptied olist app].
  - assert (nonnull (tptr k) = true) as -> by (unfold nonnull; by rewrite bool_decide_false). cbn [map length].
    destruct (prune_char _ _ _ Ek) as [_ ->]. split; [by rewrite IH1|]. unfold count_emptied in *. lia.
  - change (nonnull NULL) with false. cbn iota. split; [done|]. cbn [length]. unfold count_emptied in *. lia.
Qed.

Lemma compact_run E l r : Forall (fun k => tptr k <> NULL) (l ++ r) -> map (slot E) l = map tptr l ->
  (if Nat.ltb 0 (count_emptied E r) then compact (map tptr l ++ map (slot E) r) (length l) (count_emptied E r)
   else map tptr l ++ map (slot E) r) = map tptr (pruned E (l ++ r)).
Proof.
  intros Hnn El. destruct (slots_nonnull E (l ++ r) Hnn) as [Hf _]. rewrite map_app, El in Hf.
  apply Forall_app in Hnn as [Hnl Hnr]. destruct (slots_nonnull E r Hnr) as [_ Hlen].
  assert (forallb nonnull (map tptr l) = true) as HL.
  { clear -Hnl. induction Hnl as [|k l Hk _ IH]; [done|]. cbn. rewrite IH. unfold nonnull. by rewrite bool_decide_false. }
  destruct (Nat.ltb_spec 0 (count_emptied E r)) as [Hc|Hc].
  - rewrite <- (length_map tptr l), compact_filter; [done|done|done|]. by rewrite length_map.
  - rewrite <- Hf, List.filter_app, (filter_nonnull_id _ HL). f_equal. symmetry. apply filter_nonnull_id.
    apply forallb_forall. intros x Hx. destruct (nonnull x) eqn:Ex; [done|exfalso].
    assert (length (List.filter nonnull (map (slot E) r)) < length (map (slot E) r))%nat; [|rewrite length_map in *; lia].
    clear -Hx Ex. induction (map (slot E) r) as [|y l IH]; [done|]. cbn. destruct Hx as [-> | Hx].
    + rewrite Ex. pose proof (List.filter_length_le nonnull l). lia.
    + specialize (IH Hx). destruct (nonnull y); cbn; lia.
Qed.

Lemma ends_run h p n cs : shape h (Tree p n cs) -> is_nil cs && negb (isTerminalNode n) = false ->
  (if isTerminalNode n then Ok p else let? c := child_at h n 0 in Ok (leftMostDescendant c)) = Ok (left_of p n cs) /\
  (if 0 <? getChildrenCount n
   then let? c := child_at h n (getChildrenCount n - 1) in Ok (rightMostDescendant c) else Ok p) = Ok (right_of p n cs).
Proof.
  intros Hs Hne. pose proof (kids_children _ _ Hs) as Hks. cbn [tnode kids] in Hks.
  assert (getChildrenCount n = Z.of_nat (length cs)) as Hlen.
  { unfold getChildrenCount. by rewrite (children_length _ _ _ Hks), length_map. }
  unfold left_of, right_of. rewrite Hlen. split.
  - destruct (isTerminalNode n); [done|]. destruct cs as [|k cs]; [done|].
    by rewrite (child_at_lookup h n _ 0 (tnode k) Hks).
  - destruct (last cs) as [k|] eqn:El.
    + apply last_Some in El as [l ->]. rewrite length_app. cbn [length].
      rewrite (proj2 (Z.ltb_lt _ _)) by lia. rewrite (child_at_lookup h n _ _ (tnode k) Hks); [done|lia|].
      rewrite list_lookup_fmap_map, lookup_app_r by lia. by replace (_ - length l)%nat with 0%nat by lia.
    + apply last_None in El as ->. cbn in Hne. apply negb_false_iff in Hne. by rewrite Hne.
Qed.


(** The node once its gaps are closed and its flag is cleared. *)
Definition trimmed (E : list Z) (n : TrieNode) (cs : list tree) : TrieNode :=
  cleared E (with_children n (map tptr (pruned E cs))).

Lemma trim_run E p n l r h : p <> NULL -> Forall (fun k => tptr k <> NULL) (l ++ r) -> map (slot E) l = map tptr l ->
  cells h !! p = Some (with_children n (map tptr l ++ map (slot E) r)) ->
  exists h', (let? n := s_load h p in
      let? h := if Nat.ltb 0 (count_emptied E r)
        then s_store h p (with_children n (compact (childrenPointerList n) (length l) (count_emptied E r))) else Ok h in
      let? n := s_load h p in
      if isTerminalNode n && binary_search E (id n)
      then s_store h p (with_flags n (setTerminalFlag (terminalFlag1bDepth7b n) false)) else Ok h) = Ok h' /\
    cells h' !! p = Some (trimmed E n (l ++ r)) /\ same_outside [p] h h'.
Proof.
  intros Hp Hnn El Hn. pose proof (compact_run E l r Hnn El) as Hc. rewrite (proj2 (s_load_Ok h p _) (conj Hp Hn)). cbn [rbind].
  set (n2 := with_children n (map tptr (pruned E (l ++ r)))).
  assert (exists h2, (if Nat.ltb 0 (count_emptied E r)
      then s_store h p (with_children (with_children n (map tptr l ++ map (slot E) r))
        (compact (map tptr l ++ map (slot E) r) (length l) (count_emptied E r))) else Ok h) = Ok h2 /\
    cells h2 !! p = Some n2 /\ same_outside [p] h h2) as (h2 & Hr2 & Hn2 & Ho2).
  { unfold n2. destruct (Nat.ltb 0 (count_emptied E r)).
    - rewrite Hc. eexists. split; [by apply (store_cell _ _ _ _ Hp Hn)|]. split; [apply lookup_insert_eq|by eapply same_outside_update].
    - rewrite <- Hc. by exists h. }
  cbn [childrenPointerList with_children] in *. rewrite Hr2. cbn [rbind]. rewrite (proj2 (s_load_Ok h2 p _) (conj Hp Hn2)). cbn [rbind].
  unfold trimmed. fold n2. unfold cleared. destruct (_ && _).
  - eexists. split; [by apply (store_cell _ _ _ _ Hp Hn2)|]. split; [apply lookup_insert_eq|].
    eapply same_outside_mono; [|eapply same_outside_trans; [exact Ho2|by eapply same_outside_update]]. set_solver.
  - by exists h2.
Qed.

Definition root_left (o : option tree) (h : heap) (p : ptr) : Prop :=
  match o with Some t' => cells h !! p = Some (tnode t') | None => is_Some (cells h !! p) end.

Lemma settle_links E h p n cs : let n3 := trimmed E n cs in p <> NULL -> cells h !! p = Some n3 ->
  Forall (shape h) (pruned E cs) -> p ∉ flat_map ptrs (pruned E cs) ->
  exists h', (if (getChildrenCount n3 =? 0) && negb (isTerminalNode n3) then Ok (true, h)
    else
      let? left_ := if isTerminalNode n3 then Ok p else let? c := child_at h n3 0 in Ok (leftMostDescendant c) in
      let? h := s_store h p (with_left n3 left_) in
      let? n := s_load h p in
      let? right_ := if 0 <? getChildrenCount n
        then let? c := child_at h n (getChildrenCount n - 1) in Ok (rightMostDescendant c) else Ok p in
      let? h := s_store h p (with_right n right_) in
      Ok (false, h)) = Ok (emptied (prune E (Tree p n cs)), h') /\
    root_left (prune E (Tree p n cs)) h' p /\ same_outside [p] h h'.
Proof.
  intros n3 Hp Hn Hks Hpk. cbn [prune]. change (flat_map _ cs) with (pruned E cs).
  change (cleared E _) with n3. set (cs' := pruned E cs) in *.
  assert (childrenPointerList n3 = map tptr cs') as Hch.
  { destruct (cleared_fields E (with_children n (map tptr cs'))) as (_ & _ & _ & _ & Hx). exact Hx. }
  assert ((getChildrenCount n3 =? 0) = is_nil cs') as ->.
  { unfold getChildrenCount. rewrite Hch, length_map. by destruct cs'. }
  destruct (is_nil cs' && negb (isTerminalNode n3)) eqn:He; [exists h; by cbn|].
  assert (shape h (Tree p n3 cs')) as Hs3 by (by constructor).
  destruct (ends_run h p n3 cs' Hs3 He) as [-> _]. cbn [rbind]. rewrite (store_cell h p n3 _ Hp Hn). cbn [rbind].
  set (n4 := with_left n3 (left_of p n3 cs')). set (h4 := update h p n4).
  assert (cells h4 !! p = Some n4) as Hn4 by apply lookup_insert_eq.
  assert (shape h4 (Tree p n4 cs')) as Hs4.
  { constructor; [done|done|done|]. eapply shapes_frame_rule; [|exact Hks]. intros q Hq. apply lookup_insert_ne. by intros ->. }
  rewrite (proj2 (s_load_Ok h4 p _) (conj Hp Hn4)). cbn [rbind].
  destruct (ends_run h4 p n4 cs' Hs4 He) as [_ ->]. cbn [rbind]. rewrite (store_cell h4 p n4 _ Hp Hn4). cbn [rbind].
  eexists. split; [done|]. split; [apply lookup_insert_eq|].
  eapply same_outside_mono; [|eapply same_outside_trans; by eapply same_outside_update]. set_solver.
Qed.

Lemma settleSubTrie_run E p n l r h : p <> NULL -> Forall (fun k => tptr k <> NULL) (l ++ r) -> map (slot E) l = map tptr l ->
  cells h !! p = Some (with_children n (map tptr l ++ map (slot E) r)) ->
  Forall (shape h) (pruned E (l ++ r)) -> p ∉ flat_map ptrs (pruned E (l ++ r)) ->
  let o := prune E (Tree p n (l ++ r)) in
  exists h', settleSubTrie E p (length l) (count_emptied E r) h = Ok (emptied o, h') /\ root_left o h' p /\ same_outside [p] h h'.
Proof.
  intros Hp Hnn El Hn Hks Hpk o. destruct (trim_run E p n l r h Hp Hnn El Hn) as (h1 & Hr1 & Hn1 & Ho1).
  assert (Forall (shape h1) (pruned E (l ++ r))) as Hks1.
  { eapply shapes_outside; [exact Ho1|exact Hks|]. set_solver. }
  destruct (settle_links E h1 p n (l ++ r) Hp Hn1 Hks1 Hpk) as (h2 & Hr2 & Hn2 & Ho2).
  exists h2. split; [|split; [done|]].
  - unfold settleSubTrie. revert Hr1. destruct (s_load h p) as [m|]; cbn [rbind]; [|done].
    destruct (if Nat.ltb 0 _ then _ else _) as [h3|]; cbn [rbind]; [|done].
    destruct (s_load h3 p) as [m3|]; cbn [rbind]; [|done]. intros ->. cbn [rbind].
    rewrite (proj2 (s_load_Ok h1 p _) (conj Hp Hn1)). exact Hr2.
  - eapply same_outside_mono; [|eapply same_outside_trans; [exact Ho1|exact Ho2]]. set_solver.
Qed.


(** ** The removal below a node *)

Lemma cleaned_pruned E h cs : Forall (cleaned E h) cs -> Forall (shape h) (pruned E cs).
Proof.
  rewrite !Forall_forall. intros Hc k' (k & Hk & Ek)%elem_of_pruned. specialize (Hc k Hk). unfold cleaned in Hc.
  rewrite Ek in Hc. apply Hc.
Qed.

Lemma pruned_ptrs E cs q : q ∈ flat_map ptrs (pruned E cs) -> q ∈ flat_map ptrs cs.
Proof.
  intros (k' & (k & Hk & Ek)%elem_of_pruned & Hq)%elem_of_flat_map. apply elem_of_flat_map. exists k. split; [done|].
  eapply elem_of_sublist; [exact Hq|by apply prune_ptrs in Ek].
Qed.

(** What a node and its cleaned children amount to. *)
Lemma assemble E h p n cs : p <> NULL -> Forall (cleaned E h) cs -> root_left (prune E (Tree p n cs)) h p ->
  emptied_below E h (Tree p n cs).
Proof.
  intros Hp Hc Hr. unfold emptied_below. destruct (prune E (Tree p n cs)) as [t'|] eqn:Et.
  - destruct (prune_root _ _ _ _ _ Et) as [-> _]. cbn [root_left tnode] in Hr. split.
    + constructor; [done|done| |by apply cleaned_pruned].
      destruct (cleared_fields E (with_children n (map tptr (pruned E cs)))) as (_ & _ & _ & _ & Hx). exact Hx.
    + intros q [-> | Hq]%elem_of_cons Hq'; [exfalso; apply Hq'; apply (tptr_in (Tree p _ _))|].
      apply elem_of_flat_map in Hq as (k & Hk & Hq). rewrite Forall_forall in Hc. specialize (Hc k Hk).
      unfold cleaned in Hc. destruct (prune E k) as [k'|] eqn:Ek; [|by apply Hc]. apply Hc; [done|]. intros Hin.
      apply Hq'. cbn [ptrs]. apply elem_of_cons. right. apply elem_of_flat_map. exists k'. split; [|done].
      apply elem_of_pruned. eauto.
  - split; [exact Hr|]. intros q [-> | Hq]%elem_of_cons Hne; [done|]. apply elem_of_flat_map in Hq as (k & Hk & Hq).
    cbn [prune] in Et. change (flat_map (fun k => olist (prune E k)) cs) with (pruned E cs) in Et.
    destruct (is_nil (pruned E cs)) eqn:En; cbn in Et; [|done]. rewrite Forall_forall in Hc. specialize (Hc k Hk).
    unfold cleaned in Hc. destruct (prune E k) as [k'|] eqn:Ek; [exfalso|by apply Hc].
    assert (k' ∈ pruned E cs) as Hin by (apply elem_of_pruned; eauto).
    destruct (pruned E cs); [by apply not_elem_of_nil in Hin|done].
Qed.

Lemma sorted_ends E lo hi : StronglySorted Z.le E -> head E = Some lo -> last E = Some hi ->
  forall e, e ∈ E -> lo <= e <= hi.
Proof.
  intros Hs Hlo Hhi e He. split.
  - destruct E as [|a E]; [done|]. injection Hlo as ->. inversion_clear Hs as [|? ? _ Ha]. rewrite Forall_forall in Ha.
    apply elem_of_cons in He as [-> | He]; [lia|by apply Ha].
  - apply last_Some in Hhi as [l ->]. apply ssorted_app_inv in Hs as (Hlt & _ & _).
    apply elem_of_app in He as [He | ->%list_elem_of_singleton]; [|lia]. apply (Hlt e hi); [by apply list_elem_of_In|by left].
Qed.

Lemma kids_ok d p n cs : wf d (Tree p n cs) -> ordered (Tree p n cs) -> NoDup (ptrs (Tree p n cs)) ->
  Forall (kid_ok (d + 1)) cs.
Proof.
  intros Hw Ho Hnd. inversion_clear Hw as [? ? ? ? _ _ Hws Hi _ _]. apply ordered_tree in Ho as [_ Ho].
  destruct (kids_nodup _ _ _ Hnd) as [_ Hndk]. apply NoDup_flat_map in Hndk. rewrite Forall_forall in *.
  intros k Hk. split; auto. apply list_elem_of_split in Hk as (l & r & ->). rewrite flat_map_app in Ho. cbn in Ho.
  apply ssorted_app_inv in Ho as (_ & _ & Ho). by apply ssorted_app_inv in Ho as (_ & Ho & _).
Qed.

(** The children before the scan. *)
Lemma skipped_run E h d l lo : StronglySorted Z.le E -> (forall e, e ∈ E -> lo <= e) -> Forall (shape h) l ->
  Forall (kid_ok d) l -> Forall (fun k => last_id k < lo) l -> map (slot E) l = map tptr l /\ Forall (cleaned E h) l.
Proof.
  intros HE Hlo. induction l as [|k l IH]; cbn [map]; intros Hs Hk Hlt; [done|].
  inversion_clear Hs as [|? ? Hsk Hsr]. inversion_clear Hk as [|? ? Hkk Hkr]. inversion_clear Hlt as [|? ? Hlk Hlr].
  destruct (IH Hsr Hkr Hlr) as [-> Hc]. destruct (cleaned_same E h d k HE Hsk Hkk) as [Ep Hck].
  - intros i Hi Hin. destruct Hkk as [Hw Hinh Ho _]. pose proof (ids_interval _ _ _ Hw Hinh Ho Hi). specialize (Hlo i Hin). lia.
  - unfold slot. rewrite Ep. split; [done|by constructor].
Qed.

Lemma remove_run E t : StronglySorted Z.le E -> E <> [] -> forall fuel d, wf d t -> ordered t -> NoDup (ptrs t) ->
  (height t <= fuel)%nat -> removes E (removeSubTrie fuel E) t.
Proof.
  intros HE HEne. induction t as [p n cs IH] using tree_ind'. intros fuel d Hw Ho Hnd Hf h Hs.
  destruct fuel as [|fuel]; [cbn in Hf; lia|]. apply height_kids in Hf.
  pose proof (kids_ok _ _ _ _ Hw Ho Hnd) as Hko. pose proof (shape_nonnull _ _ Hs : p <> NULL) as Hp.
  assert (Forall (removes E (removeSubTrie fuel E)) cs) as Hrec.
  { rewrite Forall_forall in *. intros k Hk. destruct (Hko k Hk) as [? ? ? ?]. apply (IH k Hk fuel (d + 1)); auto. }
  destruct (searchable_kids h d p n cs) as [Hall Hne]; [by split|].
  destruct (ordered_tree _ _ _ Ho) as [_ Hsort]. destruct (kids_nodup _ _ _ Hnd) as [Hpk Hndk].
  pose proof (kids_children _ _ Hs) as Hks. cbn [tnode kids] in Hks.
  inversion Hs as [? ? ? _ Hn Hch Hcs]; subst. clear IH Hw Ho.
  destruct (head E) as [lo|] eqn:Elo; [|by destruct E]. destruct (last E) as [hi|] eqn:Ehi; [|by apply last_None in Ehi].
  pose proof (sorted_ends _ _ _ HE Elo Ehi) as Hends. cbn [removeSubTrie tptr]. rewrite bool_decide_false by done.
  rewrite Elo, Ehi. cbn [of_option rbind]. rewrite (proj2 (s_load_Ok h p _) (conj Hp Hn)). cbn [rbind].
  assert (length (childrenPointerList n) = length cs) as Hlen by (by rewrite Hch, length_map).
  destruct (first_loop_run h n cs lo (d + 1) Hks (sorted_lasts _ Hsort Hne) Hall (S (length cs)) 0 (Z.of_nat (length cs) - 1))
    as (l & r & Hr1 & -> & Hl); try lia; [constructor|].
  unfold getChildrenCount. rewrite Hlen, Hr1. cbn [rbind]. clear Hr1.
  apply Forall_app in Hcs as [Hcl Hcr]. pose proof Hko as [Hkl Hkr]%Forall_app. apply Forall_app in Hrec as [_ Hrr].
  rewrite flat_map_app in Hsort, Hpk, Hndk. apply ssorted_app_inv in Hsort as (_ & _ & Hsr).
  rewrite not_elem_of_app in Hpk. destruct Hpk as [Hpl Hpr]. apply NoDup_app in Hndk as (_ & Hdis & Hndr).
  destruct (skipped_run E h (d + 1) l lo HE) as [El Hcll]; [intros e He; by apply Hends|done|done|done|].
  destruct (scan_run E (removeSubTrie fuel E) hi p n (d + 1) HE) with (r := r) (fuel := S (length (l ++ r)))
    (pre := map tptr l) (nulled := 0%nat) (h := h) as (h1 & Hr1 & Hn1 & Ho1 & Hc1); try done.
  { intros e He. by apply Hends. } { rewrite length_app. lia. }
  { by constructor. }
  { rewrite <- map_app, <- Hch, with_children_same. done. }
  rewrite length_map in Hr1. rewrite Hr1. cbn [rbind]. rewrite Nat2Z.id.
  assert (Forall (cleaned E h1) (l ++ r)) as Hc.
  { apply Forall_app. split; [|done]. rewrite Forall_forall in *. intros k Hk. eapply cleaned_ext; [|by apply Hcll].
    intros q Hq. apply (so_cells _ _ _ Ho1). assert (q ∈ flat_map ptrs l) as Hql by (apply elem_of_flat_map; eauto).
    intros [-> | Hq']%elem_of_cons; [done|by apply (Hdis q)]. }
  assert (p ∉ flat_map ptrs (pruned E (l ++ r))) as Hpp.
  { intros Hin%pruned_ptrs. rewrite flat_map_app, elem_of_app in Hin. tauto. }
  destruct (settleSubTrie_run E p n l r h1 Hp) as (h2 & Hr2 & Hrl & Ho2); try done.
  { apply Forall_forall. intros k Hk. rewrite Forall_forall in Hall. destruct (Hall k Hk) as [Hsk _]. by eapply shape_nonnull. }
  { by apply cleaned_pruned. }
  exists h2. split; [exact Hr2|]. split.
  - eapply same_outside_mono; [|eapply same_outside_trans; [exact Ho1|exact Ho2]]. cbn [ptrs]. rewrite flat_map_app. set_solver.
  - apply assemble; [done| |done]. rewrite Forall_forall in *. intros k Hk. eapply cleaned_ext; [|by apply Hc].
    intros q Hq. apply (so_cells _ _ _ Ho2). intros ->%list_elem_of_singleton.
    assert (p ∈ flat_map ptrs (l ++ r)) as Hin by (apply elem_of_flat_map; eauto). rewrite flat_map_app in Hin. set_solver.
Qed.


(** ** The new views *)

Import TrieHistory.

(** A view that nobody holds once it is no longer the current one. *)
Record sole_view (s : trie) (x : shown) : Prop := {
  so_view : s_load (views s) (sv x) = Ok (mk_view (sl x) (tptr (stree x)));
  so_views : store_wf (views s);
  so_current : root_readview s = sv x;
  so_queue : oldReadViewQueue s = [];
  so_readers : forall v, reader_count s v = 0%nat;
  so_nodes : store_wf (nodes s);
  so_doomed : NoDup (doomed x) /\ Forall (fun p => is_Some (cells (nodes s) !! p)) (doomed x) }.

(** The parts of the state that the new views leave alone. *)
Record same_rest (s s' : trie) : Prop := {
  sr_readers : readers s' = readers s;
  sr_writeview : root_writeview s' = root_writeview s;
  sr_queue : oldReadViewQueue s' = oldReadViewQueue s;
  sr_commited : commited s' = commited s;
  sr_terminals : terminalNodes s' = terminalNodes s }.

Definition renewed (s : trie) (h : heap) (vs : store view) (v : ptr) : trie :=
  mk_trie h vs (readers s) v (root_writeview s) (oldReadViewQueue s)
    (terminalNodes s) (counterForReassignedKeywordIds s) (trieNodesToReassign s)
    (oldIdToNewIdMapVector s) (commited s) (mergeRequired s) (emptyLeafNodeIds s).

Lemma reset_readview_run s x n : sole_view s x ->
  exists s', let r := next_addr (nodes s) in reset_readview n s = Ok (r, s') /\
    s_load (views s') (root_readview s') = Ok (mk_view [] r) /\ store_wf (views s') /\ store_wf (nodes s') /\
    (forall p, p ∉ doomed x -> cells (nodes s') !! p = cells (s_new (nodes s) n).2 !! p) /\ same_rest s s'.
Proof.
  intros [Hv Hwv Hcur Hq Hrd Hwn [Hnd Hd]]. set (r := next_addr (nodes s)).
  set (v' := next_addr (views s)). set (vs' := (s_new (views s) (mk_view [] r)).2).
  set (s1 := renewed s (s_new (nodes s) n).2 vs' v').
  apply s_load_Ok in Hv as [Hv0 Hv].
  assert (v' <> sv x) as Hne by (intros E; pose proof (store_wf_fresh _ Hwv); unfold v' in E; congruence).
  assert (s_load (views s1) (sv x) = Ok (mk_view (sl x) (tptr (stree x)))) as Hv1.
  { apply s_load_Ok. split; [done|]. cbn. by rewrite lookup_insert_ne. }
  destruct (destroy_cells_run s1 (sv x) (sl x) (tptr (stree x)) Hv1) as (h' & Hr & Hwf' & Hc).
  { cbn. by apply (s_new_wf (nodes s) n). } { exact Hnd. }
  { eapply Forall_impl; [exact Hd|]. intros p Hp. cbn. rewrite lookup_insert_ne; [done|]. intros <-.
    rewrite (store_wf_fresh _ Hwn) in Hp. by destruct Hp. }
  set (s' := with_views _ _) in Hr. exists s'. split; [|split; [|split; [|split; [exact Hwf'|split; [exact Hc|done]]]]].
  - unfold reset_readview. rewrite (bind_run _ _ _ _ _ (alloc_run s n)).
    change (bind (reads views) ?f ?s) with (f (views s) s). cbn beta iota zeta delta [s_new].
    change (bind (set_views _) ?f _) with (f tt (renewed s (s_new (nodes s) n).2 vs' (root_readview s))). cbn beta.
    change (bind (reads root_readview) ?f ?s) with (f (root_readview s) s). cbn beta.
    change (bind (set_readview _) ?f _) with (f tt s1). cbn beta. rewrite (bind_run (dropped _) _ _ tt s'); [done|].
    unfold dropped. assert (use_count s1 (root_readview s) = 0%nat) as Eu.
    { unfold use_count. cbn. rewrite Hq, Hcur. cbn. rewrite bool_decide_false by done. apply (Hrd (sv x)). }
    change (bind (reads ?g) ?f s1) with (f (g s1) s1). cbn beta.
    change (root_readview (renewed _ _ _ _)) with (root_readview s). rewrite Eu. cbn. rewrite Hcur. exact Hr.
  - apply s_load_Ok. destruct Hwv as [Hpos _]. split; [unfold NULL; cbn; unfold v'; lia|]. cbn.
    rewrite lookup_delete_ne by done. apply lookup_insert_eq.
  - apply (s_delete_wf vs' (sv x)); [by apply (s_new_wf (views s) (mk_view [] r))|].
    unfold s_delete. rewrite decide_False by done. by rewrite (Hv1 : s_load vs' (sv x) = _).
Qed.


(** The write view over a read view that is alone. *)
Lemma renew_writeview_run s tr : holds s tr -> wf 0 tr -> frozen tr -> isTerminalNode (tnode tr) = false ->
  s_load (views s) (root_readview s) = Ok (mk_view [] (tptr tr)) -> store_wf (views s) -> oldReadViewQueue s = [] ->
  commited s = true -> (forall v, reader_count s v = 0%nat) ->
  exists s' q, renew_writeview (tptr tr) s = Ok (tt, s') /\ inv s' [mk_shown (root_readview s) [] tr] (twin q tr) /\
    terminalNodes s' = terminalNodes s.
Proof.
  intros Hh Hw Hf Ht Hv Hwv Hq Hc Hrd. destruct (fork_new s tr Hh) as (Hr & Htw & Hqt & Hqn).
  set (q := next_addr (nodes s)) in *. set (s1 := with_nodes s _) in *.
  set (s' := mk_trie (nodes s1) (views s) (readers s) (root_readview s) q (oldReadViewQueue s)
    (terminalNodes s) (counterForReassignedKeywordIds s) (trieNodesToReassign s)
    (oldIdToNewIdMapVector s) (commited s) (mergeRequired s) (emptyLeafNodeIds s)).
  exists s', q. split; [|split; [|done]].
  - unfold renew_writeview.
    rewrite (bind_run _ _ _ _ _ (load_run s (tptr tr) (tnode tr) (shape_load_root _ _ (h_shape _ _ Hh)))).
    by rewrite (bind_run _ _ _ _ _ Hr).
  - assert (holds s' tr) as Hh' by (apply (holds_ext s1); [done|exact (holds_new s _ _ Hh)]). split; cbn [map sv sl stree]; try done.
    + split; [by apply (holds_ext s1)|done|by apply twin_wf].
    + cbn [twin kids]. by apply frozen_kids.
    + change (oldReadViewQueue s') with (oldReadViewQueue s). by rewrite Hq.
    + apply NoDup_singleton.
    + apply Forall_singleton. split; [|done]. by split.
    + apply Forall_singleton, Forall_singleton. split.
      * cbn [twin ptrs stree]. apply not_elem_of_cons. split; [intros E; apply Hqt; rewrite <- E; apply tptr_in|].
        destruct tr as [p n cs]. by destruct (kids_nodup _ _ _ (h_nodup _ _ Hh)).
      * exists (tnode tr). pose proof (h_shape _ _ Hh') as Hs. apply shape_load_root, s_load_Ok in Hs as [_ Hs].
        split; [exact Hs|by inversion Hf].
    + by repeat constructor.
    + apply NoDup_singleton.
    + apply Forall_singleton. done.
    + intros v Hv'. change (reader_count s' v) with (reader_count s v) in Hv'. rewrite Hrd in Hv'. lia.
Qed.

(** ** Copies and frozen nodes under the removal *)

Lemma pruned_forall E (P Q : tree -> Prop) cs : Forall P cs ->
  (forall k k', k ∈ cs -> P k -> prune E k = Some k' -> Q k') -> Forall Q (pruned E cs).
Proof.
  intros HP HQ. apply Forall_forall. intros k' (k & Hk & Ek)%elem_of_pruned. rewrite Forall_forall in HP. eauto.
Qed.

Lemma relinked_copy E p n cs : isCopy (relinked p (cleared E (with_children n (map tptr (pruned E cs)))) (pruned E cs)) = isCopy n.
Proof. unfold relinked, cleared. by destruct (_ && _). Qed.

Lemma prune_frozen E t : forall t', frozen t -> prune E t = Some t' -> frozen t'.
Proof.
  induction t as [p n cs IH] using tree_ind'. intros t' Hf [-> _]%prune_root. inversion_clear Hf as [? ? ? Hc Hcs].
  constructor; [by rewrite relinked_copy|]. apply (pruned_forall E frozen); [done|]. rewrite Forall_forall in IH. eauto.
Qed.

Lemma prune_layered E t : forall t', layered t -> prune E t = Some t' -> layered t'.
Proof.
  induction t as [p n cs IH] using tree_ind'. intros t' Hl [-> _]%prune_root. inversion_clear Hl as [? ? ? Hcs Hf].
  constructor.
  - apply (pruned_forall E layered); [done|]. rewrite Forall_forall in IH. eauto.
  - rewrite relinked_copy. intros Hc. apply (pruned_forall E frozen); [by apply Hf|]. intros. by eapply prune_frozen.
Qed.

Lemma prune_top E t t' : isTerminalNode (tnode t) = false -> prune E t = Some t' -> isTerminalNode (tnode t') = false.
Proof.
  destruct t as [p n cs]. cbn [tnode]. intros Ht [-> _]%prune_root. cbn [tnode]. unfold relinked.
  transitivity (isTerminalNode (cleared E (with_children n (map tptr (pruned E cs))))); [done|].
  rewrite cleared_terminal. change (isTerminalNode (with_children _ _)) with (isTerminalNode n). by rewrite Ht.
Qed.


(** ** The removal on a whole trie *)

Lemma inv_ext s s' V tw : nodes s' = nodes s -> views s' = views s -> readers s' = readers s ->
  root_readview s' = root_readview s -> root_writeview s' = root_writeview s -> oldReadViewQueue s' = oldReadViewQueue s ->
  commited s' = commited s -> inv s V tw -> inv s' V tw.
Proof.
  intros En Ev Er Erv Ewv Eq Ec [A B C D E F G H I J K L M]. split; try done.
  - by eapply represents_ext.
  - by rewrite Ec.
  - by rewrite Eq, Erv.
  - by rewrite Ev.
  - eapply Forall_impl; [exact H|]. intros y [Hy Hf]. split; [|done]. by eapply shows_ext.
  - eapply Forall_impl; [exact I|]. intros y Hy. eapply Forall_impl; [exact Hy|]. intros p. unfold retired. by rewrite En.
  - intros v. unfold reader_count. rewrite Er. apply M.
Qed.

Lemma sole_view_nodes s s' x : sole_view s x -> s' = with_nodes s (nodes s') -> store_wf (nodes s') ->
  (forall p, p ∈ doomed x -> cells (nodes s') !! p = cells (nodes s) !! p) -> sole_view s' x.
Proof.
  intros [A B C D E F [G1 G2]] -> Hwf Hc. split; try done. split; [done|]. rewrite Forall_forall in *. intros p Hp.
  cbn. rewrite Hc by done. by apply G2.
Qed.

Lemma inv_sole s x tw : inv s [x] tw -> reader_count s (sv x) = 0%nat ->
  sole_view s x /\ (forall p, p ∈ doomed x -> p ∉ ptrs tw).
Proof.
  intros Hi Hr. destruct (inv_current _ _ _ Hi) as (V0 & y & E & Ey & Eq). destruct V0 as [|z V0]; [|by destruct V0].
  injection E as <-. pose proof (iv_shows _ _ _ Hi) as Hs. rewrite Forall_singleton in Hs. destruct Hs as [[Hv _ _] _].
  pose proof (iv_doomed _ _ _ Hi) as Hd. rewrite Forall_singleton in Hd. pose proof (iv_once _ _ _ Hi) as Ho.
  cbn [flat_map] in Ho. rewrite app_nil_r in Ho. rewrite Forall_forall in Hd. split.
  - split; try done.
    + exact (iv_views _ _ _ Hi).
    + intros v. destruct (reader_count s v) eqn:E; [done|].
      assert (v ∈ map sv [x]) as ->%list_elem_of_singleton by (apply (iv_readers _ _ _ Hi); rewrite E; lia). congruence.
    + exact (h_wf _ _ (r_holds _ _ (iv_write _ _ _ Hi))).
    + split; [done|]. apply Forall_forall. intros p Hp. destruct (Hd p Hp) as (_ & n & Hn & _). eauto.
  - intros p Hp. by destruct (Hd p Hp).
Qed.

Lemma start_over_run s x w : sole_view s x -> commited s = true -> is_Some (cells (nodes s) !! w) -> w ∉ doomed x ->
  exists s' x' q, start_over w s = Ok (tt, s') /\ inv s' [x'] (twin q (stree x')) /\ entries (stree x') = [].
Proof.
  intros Hv Hc [n Hn] Hw. pose proof (so_nodes _ _ Hv) as Hwf.
  assert (w <> NULL) as Hw0 by (destruct Hwf as [_ H]; specialize (H w (ex_intro _ n Hn)); unfold NULL; lia).
  set (h1 := mk_store (delete w (cells (nodes s))) (next_addr (nodes s))).
  assert (s_delete (nodes s) w = Ok h1) as Hd.
  { unfold s_delete. rewrite decide_False by done. by rewrite (proj2 (s_load_Ok _ _ _) (conj Hw0 Hn)). }
  assert (sole_view (with_nodes s h1) x) as Hv1.
  { apply (sole_view_nodes s); [done|done|by apply (s_delete_wf _ _ _ Hwf Hd)|]. intros p Hp. cbn.
    apply lookup_delete_ne. by intros ->. }
  unfold start_over. rewrite (bind_run (delete_node w) _ s tt (with_nodes s h1))
    by (unfold delete_node, bind, reads, lift; by rewrite Hd).
  destruct (reset_readview_run (with_nodes s h1) x new_root Hv1) as (s2 & Hr2 & Hview & Hwv & Hwn & Hc2 & [R1 R2 R3 R4 R5]).
  rewrite (bind_run _ _ _ _ _ Hr2). set (r := next_addr (nodes (with_nodes s h1))) in *.
  assert (r ∉ doomed x) as Hrd.
  { intros Hin. destruct Hv1 as [_ _ _ _ _ Hwf1 [_ Hd1]]. rewrite Forall_forall in Hd1. specialize (Hd1 r Hin).
    unfold r in Hd1. rewrite (store_wf_fresh _ Hwf1) in Hd1. by destruct Hd1. }
  assert (holds s2 (Tree r new_root [])) as Hh.
  { split; [|apply NoDup_singleton|done]. constructor; [|rewrite Hc2 by done; apply lookup_insert_eq|done|constructor].
    destruct (so_nodes _ _ Hv1) as [Hpos _]. unfold NULL, r. lia. }
  destruct (renew_writeview_run s2 (Tree r new_root [])) as (s' & q & Hr & Hi & _); try done.
  { constructor; try done; constructor. }
  { rewrite R3. exact (so_queue _ _ Hv1). } { rewrite R4. exact Hc. } { intros v. unfold reader_count. rewrite R1. exact (so_readers _ _ Hv v). }
  exists s', (mk_shown (root_readview s2) [] (Tree r new_root [])), q. done.
Qed.


Lemma share_anew_run s x t : sole_view s x -> commited s = true -> holds s t -> wf 0 t -> Forall layered (kids t) ->
  isTerminalNode (tnode t) = false -> (forall p, p ∈ doomed x -> p ∉ ptrs t) ->
  exists s' x' q, share_anew (tptr t) s = Ok (tt, s') /\ inv s' [x'] (twin q (stree x')) /\ entries (stree x') = entries t.
Proof.
  intros Hv Hc Hh Hw Hl Ht Hdis. destruct (resetCopyFlags_run s t Hh) as (h1 & Hr1 & Hh1 & Ho1).
  set (s1 := with_nodes s h1) in *. set (t1 := reset t) in *.
  assert (ptrs t1 = ptrs t) as Ept by (apply similar_ptrs, reset_similar).
  destruct (reset_root t) as [Ep Etm]. fold t1 in Ep, Etm.
  assert (sole_view s1 x) as Hv1.
  { apply (sole_view_nodes s); [done|done|exact (h_wf _ _ Hh1)|]. intros p Hp. apply (so_cells _ _ _ Ho1). by apply Hdis. }
  unfold share_anew. rewrite (bind_run _ _ _ _ _ Hr1), <- Ep.
  rewrite (bind_run _ _ _ _ _ (load_run s1 (tptr t1) (tnode t1) (shape_load_root _ _ (h_shape _ _ Hh1)))).
  destruct (fork_new s1 t1 Hh1) as (_ & Htw & Hrt & Hrn).
  destruct (reset_readview_run s1 x (copy_node (tnode t1) false) Hv1) as (s2 & Hr2 & Hview & Hwv & Hwn & Hc2 & [R1 R2 R3 R4 R5]).
  rewrite (bind_run _ _ _ _ _ Hr2). clear Hr1 Hr2. set (r := next_addr (nodes s1)) in *.
  assert (r ∉ doomed x) as Hrd.
  { intros Hin. destruct (so_doomed _ _ Hv1) as [_ Hd1]. rewrite Forall_forall in Hd1. specialize (Hd1 r Hin).
    rewrite Hrn in Hd1. by destruct Hd1. }
  assert (holds s2 t1) as Hh2.
  { apply (holds_disjoint (with_nodes s1 (s_new (nodes s1) (copy_node (tnode t1) false)).2) s2 (doomed x)); [by apply holds_new|done|done|].
    rewrite Ept. exact Hdis. }
  assert (holds s2 (twin r t1)) as Hh2'.
  { apply (holds_disjoint (with_nodes s1 (s_new (nodes s1) (copy_node (tnode t1) false)).2) s2 (doomed x)); [done|done|done|].
    intros p Hp. cbn [twin ptrs]. rewrite not_elem_of_cons. split; [by intros ->|]. intros Hin. apply (Hdis p Hp).
    rewrite <- Ept. destruct t1. cbn. by right. }
  destruct (delete_node_run s2 (twin r t1) (tptr t1) (tnode t1) Hh2') as (h3 & Hr3 & Hh3).
  { exact (shape_load_root _ _ (h_shape _ _ Hh2)). }
  { cbn [twin ptrs]. apply not_elem_of_cons. split; [intros E; apply Hrt; rewrite <- E; apply tptr_in|].
    destruct t1 as [p n cs]. by destruct (kids_nodup _ _ _ (h_nodup _ _ Hh2)). }
  rewrite (bind_run _ _ _ _ _ Hr3).
  destruct (renew_writeview_run (with_nodes s2 h3) (twin r t1)) as (s' & q & Hr & Hi & _); try done.
  { apply twin_wf; [by rewrite Etm|]. eapply similar_wf; [apply reset_similar|done]. }
  { pose proof (reset_frozen t Hl) as Hf. fold t1 in Hf. destruct t1. inversion_clear Hf. by constructor. }
  { transitivity (isTerminalNode (tnode t1)); [done|by rewrite Etm]. }
  { change (oldReadViewQueue s2 = []). rewrite R3. exact (so_queue _ _ Hv). } { change (commited s2 = true). by rewrite R4. }
  { intros v. change (reader_count s2 v = 0%nat). unfold reader_count. rewrite R1. exact (so_readers _ _ Hv v). }
  exists s', (mk_shown (root_readview s2) [] (twin r t1)), q. split; [exact Hr|]. split; [exact Hi|].
  cbn [stree]. rewrite twin_entries. apply reset_entries.
Qed.


Definition with_sorted (s : trie) : trie :=
  mk_trie (nodes s) (views s) (readers s) (root_readview s) (root_writeview s) (oldReadViewQueue s)
    (terminalNodes s) (counterForReassignedKeywordIds s) (trieNodesToReassign s)
    (oldIdToNewIdMapVector s) (commited s) (mergeRequired s) (merge_sort Z.le (emptyLeafNodeIds s)).

Lemma sorted_ids l : StronglySorted Z.le (merge_sort Z.le l).
Proof. apply (StronglySorted_merge_sort Z.le). Qed.

Lemma survives_sorted l es : List.filter (survives (merge_sort Z.le l)) es = List.filter (survives l) es.
Proof.
  apply filter_ext. intros e. unfold survives. f_equal. apply bool_decide_ext. by rewrite (merge_sort_Permutation Z.le l).
Qed.

(** The removal in the write view, with what it leaves in the store. *)
Lemma remove_top s x tw : inv s [x] tw -> reader_count s (sv x) = 0%nat -> emptyLeafNodeIds s <> [] -> ordered tw ->
  let E := merge_sort Z.le (emptyLeafNodeIds s) in
  exists h', removeSubTrie (tree_fuel s) E (tptr tw) (nodes s) = Ok (emptied (prune E tw), h') /\
    emptied_below E h' tw /\ sole_view (with_nodes (with_sorted s) h') x.
Proof.
  intros Hi Hr Hne Ho E. destruct (inv_sole _ _ _ Hi Hr) as [Hsv Hdis]. pose proof (iv_write _ _ _ Hi) as [Hh _ Hw].
  assert (StronglySorted Z.le E) as HE by exact (sorted_ids _).
  assert (E <> []) as HEne.
  { intros En. apply Hne, Permutation_nil. rewrite <- En. apply merge_sort_Permutation. }
  destruct (remove_run E tw HE HEne (tree_fuel s) 0 Hw Ho (h_nodup _ _ Hh) (tree_fuel_height s tw Hh) (nodes s) (h_shape _ _ Hh))
    as (h' & Hrun & Hout & Hb).
  exists h'. split; [exact Hrun|]. split; [done|].
  apply (sole_view_nodes (with_sorted s)); [|done|exact (so_wf _ _ _ Hout (h_wf _ _ Hh))|].
  - destruct Hsv. by split.
  - intros p Hp. apply (so_cells _ _ _ Hout). by apply Hdis.
Qed.

Lemma entries_nonempty d t : wf d t -> inhabited t -> entries t <> [].
Proof. intros Hw Hi E. apply (ids_nonempty d t Hw Hi). unfold ids. by rewrite E. Qed.

Lemma removed_holds E s h tw t' : holds s tw -> prune E tw = Some t' -> emptied_below E h tw ->
  store_wf h -> forall s', nodes s' = h -> holds s' t'.
Proof.
  intros Hh Ep Hb Hwf s' En. unfold emptied_below in Hb. rewrite Ep in Hb. split; rewrite ?En; [apply Hb| |done].
  eapply sublist_NoDup; [exact (h_nodup _ _ Hh)|]. by eapply prune_ptrs.
Qed.

Lemma prune_kids_layered E t t' : Forall layered (kids t) -> prune E t = Some t' -> Forall layered (kids t').
Proof.
  destruct t as [p n cs]. cbn [kids]. intros Hl [-> _]%prune_root. cbn [kids]. apply (pruned_forall E layered); [done|].
  intros. by eapply prune_layered.
Qed.

Lemma removeDeletedNodes_run s x tw : inv s [x] tw -> reader_count s (sv x) = 0%nat -> emptyLeafNodeIds s <> [] ->
  ordered tw -> exists s' x' q, removeDeletedNodes s = Ok (tt, s') /\ inv s' [x'] (twin q (stree x')) /\
    entries (stree x') = List.filter (survives (emptyLeafNodeIds s)) (entries tw) /\
    emptyLeafNodeIds s' = [] /\ (entries (stree x') = [] -> terminalNodes s' = 0).
Proof.
  intros Hi Hrd Hne Ho. set (E := merge_sort Z.le (emptyLeafNodeIds s)).
  destruct (remove_top s x tw Hi Hrd Hne Ho) as (h1 & Hr1 & Hb & Hsv). fold E in Hr1, Hb.
  assert (StronglySorted Z.le E) as HE by exact (sorted_ids _).
  pose proof (iv_write _ _ _ Hi) as [Hh Hroot Hw]. destruct (inv_sole _ _ _ Hi Hrd) as [_ Hdis].
  set (s1 := with_nodes (with_sorted s) h1) in *.
  pose proof (prune_entries E tw HE) as He. unfold E in He at 2. rewrite survives_sorted in He.
  assert (forall K, (let! w := reads root_writeview in
      assert_ (negb (bool_decide (w = NULL))) ;;;
      let! fuel := reads tree_fuel in let! E := reads emptyLeafNodeIds in let! h := reads nodes in
      let! (empty, h') := lift (removeSubTrie fuel E w h) in set_nodes h' ;;; (K empty w : tst unit)) (with_sorted s) =
    K (emptied (prune E tw)) (tptr tw) s1) as Hpre.
  { intros K. change (bind (reads root_writeview) ?f (with_sorted s)) with (f (root_writeview s) (with_sorted s)). cbn beta.
    rewrite <- Hroot. rewrite bool_decide_false by (exact (shape_nonnull _ _ (h_shape _ _ Hh))). cbn [negb].
    change (bind (assert_ true) ?f ?u) with (f tt u). cbn beta.
    change (bind (reads tree_fuel) ?f (with_sorted s)) with (f (tree_fuel s) (with_sorted s)). cbn beta.
    change (bind (reads emptyLeafNodeIds) ?f (with_sorted s)) with (f E (with_sorted s)). cbn beta.
    change (bind (reads nodes) ?f (with_sorted s)) with (f (nodes s) (with_sorted s)). cbn beta.
    by rewrite (bind_run _ _ _ _ _ (lift_run _ _ _ Hr1)). }
  unfold removeDeletedNodes. change (bind (reads emptyLeafNodeIds) ?f s) with (f (emptyLeafNodeIds s) s). cbn beta.
  change (bind (set_emptyLeafNodeIds _) ?f s) with (f tt (with_sorted s)). cbn beta. rewrite Hpre. clear Hpre.
  assert (commited s1 = true) as Hc by exact (iv_commited _ _ _ Hi).
  destruct (prune E tw) as [t'|] eqn:Ep; cbn [emptied entries_of] in *.
  - destruct (prune_wf E tw 0 t' Hw Ep) as [Hw' Hinh]. pose proof (prune_char _ _ _ Ep) as [_ Ept].
    destruct (share_anew_run s1 x t' Hsv Hc) as (s2 & x' & q & Hr2 & Hi2 & He2); [|done| | | |].
    { by apply (removed_holds E s h1 tw t' Hh Ep Hb (so_nodes _ _ Hsv)). }
    { by eapply prune_kids_layered; [exact (iv_layered _ _ _ Hi)|]. }
    { exact (prune_top _ _ _ (iv_top _ _ _ Hi) Ep). }
    { intros p Hp Hin. apply (Hdis p Hp). eapply elem_of_sublist; [exact Hin|by apply prune_ptrs in Ep]. }
    rewrite <- Ept, (bind_run _ _ _ _ _ Hr2). eexists _, x', q. split; [done|].
    split; [by apply (inv_ext s2)|]. split; [by rewrite He2|]. split; [done|]. rewrite He2. intros En.
    by apply (entries_nonempty 0 t') in En.
  - unfold emptied_below in Hb. rewrite Ep in Hb. destruct Hb as [Hsome _].
    destruct (start_over_run s1 x (tptr tw) Hsv Hc Hsome) as (s2 & x' & q & Hr2 & Hi2 & He2).
    { intros Hin. apply (Hdis _ Hin), tptr_in. }
    rewrite bind_assoc, (bind_run _ _ _ _ _ Hr2). eexists _, x', q. split; [done|].
    split; [by apply (inv_ext s2)|]. split; [by rewrite He2|]. done.
Qed.


(** ** The removal in a sub-trie *)

(** The removal below a node leaves the well-formed sub-trie of the other
    keywords, with its links and without a gap, and has deleted the nodes that are
    no longer in it; no node elsewhere is touched.  It answers [true] when no
    keyword is left, and then only the node itself remains, for its parent to
    delete. *)
Theorem removeSubTrie_prunes (E : list Z) (h : heap) (d : Z) (t : tree) (fuel : nat) :
  StronglySorted Z.le E -> E <> [] -> searchable h d t -> NoDup (ptrs t) -> (height t <= fuel)%nat ->
  exists empty h', removeSubTrie fuel E (tptr t) h = Ok (empty, h') /\ same_outside (ptrs t) h h' /\
    if empty : bool then
      List.filter (survives E) (entries t) = [] /\ is_Some (cells h' !! tptr t) /\
      forall q, q ∈ ptrs t -> q <> tptr t -> cells h' !! q = None
    else exists t', tptr t' = tptr t /\ shape h' t' /\ wf d t' /\ inhabited t' /\
      entries t' = List.filter (survives E) (entries t) /\
      forall q, q ∈ ptrs t -> q ∉ ptrs t' -> cells h' !! q = None.
Proof.
  intros HE Hne [Hs Hw Ho] Hnd Hf. destruct (remove_run E t HE Hne fuel d Hw Ho Hnd Hf h Hs) as (h' & Hr & Hout & Hb).
  exists (emptied (prune E t)), h'. split; [exact Hr|]. split; [done|]. pose proof (prune_entries E t HE) as He.
  unfold emptied_below in Hb. destruct (prune E t) as [t'|] eqn:Ep; cbn [emptied entries_of] in *.
  - destruct Hb as [Hs' Hg]. destruct (prune_char _ _ _ Ep) as [_ Ept]. destruct (prune_wf _ _ _ _ Hw Ep). by exists t'.
  - destruct Hb as [Hsome Hg]. done.
Qed.

Lemma loaded_demo_nodup : NoDup (ptrs loaded_demo_read).
Proof. apply (bool_decide_unpack _). vm_compute. exact I. Qed.

Lemma removeSubTrie_prunes_witness : exists h' t',
  removeSubTrie 9 [5; 1073725440] (tptr loaded_demo_read) (nodes loaded_demo) = Ok (false, h') /\
  shape h' t' /\ entries t' = [([97], (536862720, 2)); ([98], (1610588160, 0))].
Proof.
  destruct (removeSubTrie_prunes [5; 1073725440] (nodes loaded_demo) 0 loaded_demo_read 9)
    as (empty & h' & Hr & _ & H).
  - repeat constructor; lia.
  - discriminate.
  - exact loaded_demo_searchable.
  - exact loaded_demo_nodup.
  - apply Nat.leb_le. vm_compute. reflexivity.
  - assert (exists h, removeSubTrie 9 [5; 1073725440] (tptr loaded_demo_read) (nodes loaded_demo) = Ok (false, h)) as [h Eh].
    { destruct (removeSubTrie 9 [5; 1073725440] (tptr loaded_demo_read) (nodes loaded_demo)) as [[[] h]|] eqn:Ec;
        [exfalso|by exists h|exfalso]; revert Ec; vm_compute; discriminate. }
    rewrite Eh in Hr. injection Hr as <- <-. destruct H as (t' & _ & Hs & _ & _ & He & _). exists h, t'.
    split; [exact Eh|]. split; [exact Hs|]. rewrite He. vm_compute. reflexivity.
Defined.

(** ** The removal in the trie *)

(** (C15) When no reader holds a view, the removal of the keywords with the given
    ids runs, and the trie satisfies its invariant again: the new read view and the
    new write view show the other keywords, with their ids, in the same order.  An
    emptied trie starts over with no terminal node. *)
Theorem removal_keeps_invariant (s : trie) (x : shown) (tw : tree) :
  inv s [x] tw -> reader_count s (sv x) = 0%nat -> emptyLeafNodeIds s <> [] -> ordered tw ->
  exists s' x' q, removeDeletedNodes s = Ok (tt, s') /\ inv s' [x'] (twin q (stree x')) /\
    entries (stree x') = List.filter (survives (emptyLeafNodeIds s)) (entries tw) /\
    emptyLeafNodeIds s' = [] /\ (entries (stree x') = [] -> terminalNodes s' = 0).
Proof. apply removeDeletedNodes_run. Qed.

Definition removal_demo : trie :=
  match (addEmptyLeafNodeId 1073725440 ;;; addEmptyLeafNodeId 5) loaded_demo with
  | Ok (_, s) => s | Err _ => loaded_demo
  end.

Lemma removal_keeps_invariant_witness : exists s' x' q, removeDeletedNodes removal_demo = Ok (tt, s') /\
  inv s' [x'] (twin q (stree x')) /\ entries (stree x') = [([97], (536862720, 2)); ([98], (1610588160, 0))].
Proof.
  destruct (removal_keeps_invariant removal_demo (mk_shown (root_readview loaded_demo) [] loaded_demo_read) loaded_demo_tree)
    as (s' & x' & q & Hr & Hi & He & _).
  - apply (inv_ext loaded_demo); try reflexivity. exact loaded_demo_inv.
  - vm_compute. reflexivity.
  - vm_compute. discriminate.
  - unfold ordered. assert (ids loaded_demo_tree = [536862720; 1073725440; 1610588160]) as -> by (vm_compute; reflexivity).
    repeat constructor; lia.
  - exists s', x', q. split; [exact Hr|]. split; [exact Hi|]. rewrite He. vm_compute. reflexivity.
Defined.

End TrieRemove.
