(* ===== verification/TrieReassign.v ===== *)
(** * Reassignment of keyword ids (core/index/Trie.cpp, reassignKeywordIds;
      core/index/Trie.h, TrieNodePath; core/operation/IndexData.cpp)

    A keyword for which an insertion found no id between those of its neighbours
    has a temporary id above [MAX_ALLOCATED_KEYWORD_ID].  Before a merge such
    keywords get ids that keep the order: a range of neighbours around each is
    extended to the left, then to the right, until the ids of its two ends are far
    enough apart, and the ids inside are spread over it. *)
From S2P Require Import Prelude TrieNode Trie TrieTree TrieInsert TrieNeighbours TrieViews TrieUpdate TrieThreadSafe TrieQueries TrieHistory TrieRemove.
From Stdlib Require Import ZArith Lia List Bool Sorted.
From stdpp Require Import base gmap list fin_maps sorting.
Open Scope Z_scope.

Module TrieReassign.
Import TrieNode Trie TrieTree TrieInsert TrieNeighbours TrieViews TrieUpdate TrieThreadSafe TrieQueries TrieRemove.

(** [map<TrieNode *, unsigned>] *)
Abbreviation mapper := (gmap ptr Z).

Definition getLastTrieNode (p : path) : ptr := default NULL (last p).

(** ** Ranges of neighbours *)

Definition getTrueId (h : heap) (m : mapper) (node : ptr) : result Z :=
  match m !! node with
  | Some i => Ok i
  | None => let? n := s_load h node in Ok (id n)
  end.

Definition needToReassignMore (h : heap) (m : mapper) (leftNode rightNode : ptr) (size : Z) : result bool :=
  if size <? 2 then Ok true
  else
    let? leftId := getTrueId h m leftNode in
    let leftId := if isLargerThanUpperBound leftId then 0 else leftId in
    let? rightId := getTrueId h m rightNode in
    let rightId := if isLargerThanUpperBound rightId then MAX_ALLOCATED_KEYWORD_ID else rightId in
    Ok (wrap32 (rightId - leftId) / (size - 1) <? KEYWORD_ID_SPARSITY).

(** The answer, the path of the outermost node and the range. *)
Definition side : Type := bool * path * list ptr.

Fixpoint assignMoreNodesOnTheLeft (fuel : nat) (m : mapper) (leftSide : path) (reassignRange : list ptr) : tst side :=
  match fuel with
  | O => fail OutOfFuel
  | S fuel' =>
      let! r := getLeftTnp leftSide in
      match r with
      | None => ret (false, leftSide, reassignRange)
      | Some p =>
          let! i := on_heap (fun h => getTrueId h m (getLastTrieNode p)) in
          if isLargerThanUpperBound i
          then assignMoreNodesOnTheLeft fuel' m p (getLastTrieNode p :: reassignRange)
          else ret (true, p, getLastTrieNode p :: reassignRange)
      end
  end.

Fixpoint assignMoreNodesOnTheRight (fuel : nat) (m : mapper) (rightSide : path) (reassignRange : list ptr) : tst side :=
  match fuel with
  | O => fail OutOfFuel
  | S fuel' =>
      let! r := getRightTnp rightSide in
      match r with
      | None => ret (false, rightSide, reassignRange)
      | Some p =>
          let! i := on_heap (fun h => getTrueId h m (getLastTrieNode p)) in
          if isLargerThanUpperBound i
          then assignMoreNodesOnTheRight fuel' m p (reassignRange ++ [getLastTrieNode p])
          else ret (true, p, reassignRange ++ [getLastTrieNode p])
      end
  end.

(** The first steps to either side: an unset path is empty. *)
Definition startLeft (m : mapper) (start : path) (reassignRange : list ptr) : tst side :=
  let! r := getLeftTnp start in
  match r with
  | None => ret (false, [], reassignRange)
  | Some p =>
      let! i := on_heap (fun h => getTrueId h m (getLastTrieNode p)) in
      let! fuel := reads depth_fuel in
      if isLargerThanUpperBound i
      then assignMoreNodesOnTheLeft fuel m p (getLastTrieNode p :: reassignRange)
      else ret (true, p, getLastTrieNode p :: reassignRange)
  end.

Definition startRight (m : mapper) (start : path) (reassignRange : list ptr) : tst side :=
  let! r := getRightTnp start in
  match r with
  | None => ret (false, [], reassignRange)
  | Some p =>
      let! i := on_heap (fun h => getTrueId h m (getLastTrieNode p)) in
      let! fuel := reads depth_fuel in
      if isLargerThanUpperBound i
      then assignMoreNodesOnTheRight fuel m p (reassignRange ++ [getLastTrieNode p])
      else ret (true, p, reassignRange ++ [getLastTrieNode p])
  end.

(** The loop that makes the range sparse enough, or takes in all there is. *)
Fixpoint more_loop (fuel : nat) (m : mapper) (leftAvailable : bool) (leftSide : path) (rightAvailable : bool)
    (rightSide : path) (reassignRange : list ptr) : tst (list ptr) :=
  let size := Z.of_nat (length reassignRange) in
  let! leftNode := lift (vec_at reassignRange 0) in
  let! rightNode := lift (vec_at reassignRange (size - 1)) in
  let! more := on_heap (fun h => needToReassignMore h m leftNode rightNode size) in
  if negb more then ret reassignRange
  else
    match fuel with
    | O => fail OutOfFuel
    | S fuel' =>
        let! steps := reads depth_fuel in
        let! (leftAvailable, leftSide, reassignRange) :=
          if leftAvailable then assignMoreNodesOnTheLeft steps m leftSide reassignRange
          else ret (false, leftSide, reassignRange) in
        if leftAvailable : bool
        then more_loop fuel' m leftAvailable leftSide rightAvailable rightSide reassignRange
        else
          let! (rightAvailable, rightSide, reassignRange) :=
            if rightAvailable then assignMoreNodesOnTheRight steps m rightSide reassignRange
            else ret (false, rightSide, reassignRange) in
          if rightAvailable : bool
          then more_loop fuel' m leftAvailable leftSide rightAvailable rightSide reassignRange
          else ret reassignRange
    end.

(** ** The new ids *)

(** [for (unsigned i = 1; i < reassignRange.size() - 1; i++)]: [l] are the nodes
    from index [i] on, without the last one. *)
Fixpoint spread (l : list ptr) (i leftId pace : Z) (m : mapper) : mapper :=
  match l with
  | [] => m
  | q :: l' => spread l' (i + 1) leftId pace (<[q := wrap32 (leftId + wrap32 (i * pace))]> m)
  end.

Definition doReassignment (h : heap) (reassignRange : list ptr) (m : mapper) : result mapper :=
  let size := Z.of_nat (length reassignRange) in
  let? leftNode := vec_at reassignRange 0 in
  let? leftId := getTrueId h m leftNode in
  let (leftId, m) := if isLargerThanUpperBound leftId then (0, <[leftNode := 0]> m) else (leftId, m) in
  let? rightNode := vec_at reassignRange (size - 1) in
  let? rightId := getTrueId h m rightNode in
  let (rightId, m) := if isLargerThanUpperBound rightId
    then (MAX_ALLOCATED_KEYWORD_ID, <[rightNode := MAX_ALLOCATED_KEYWORD_ID]> m) else (rightId, m) in
  if 1 <? size then
    if negb (leftId <? rightId) then Err AssertFailed
    else
      let pace := wrap32 (rightId - leftId) / (size - 1) in
      Ok (spread (removelast (tail reassignRange)) 1 leftId pace m)
  else Ok (<[leftNode := MAX_ALLOCATED_KEYWORD_ID / 2]> m).

Definition pushNeighborsForMoreSpace (start : path) (m : mapper) : tst mapper :=
  let! (leftAvailable, leftSide, reassignRange) := startLeft m start [getLastTrieNode start] in
  let! (rightAvailable, rightSide, reassignRange) := startRight m start reassignRange in
  let! fuel := reads depth_fuel in
  let! reassignRange := more_loop fuel m leftAvailable leftSide rightAvailable rightSide reassignRange in
  on_heap (fun h => doReassignment h reassignRange m).

(** ** The order of the paths: [TrieNodePath::operator<] *)

(** The characters along a path. *)
Fixpoint path_chars (h : heap) (p : path) : result (list Z) :=
  match p with
  | [] => Ok []
  | q :: p' => let? n := s_load h q in let? cs := path_chars h p' in Ok (character n :: cs)
  end.

Fixpoint chars_ltb (u v : list Z) : bool :=
  match u, v with
  | a :: u', b :: v' => if a <? b then true else if b <? a then false else chars_ltb u' v'
  | [], _ :: _ => true
  | _, [] => false
  end.

Definition tnp_ltb (u v : list Z) : bool :=
  if default 0 (last u) =? TRIE_MARKER_CHARACTER then true
  else if default 0 (last v) =? TRIE_MARKER_CHARACTER then false
  else chars_ltb u v.

Fixpoint keyed (h : heap) (l : list path) : result (list (list Z * path)) :=
  match l with
  | [] => Ok []
  | p :: l' => let? k := path_chars h p in let? r := keyed h l' in Ok ((k, p) :: r)
  end.

(** [std::sort(trieNodesToReassign.begin(), trieNodesToReassign.end())] *)
Definition sort_paths (h : heap) (l : list path) : result (list path) :=
  let? ks := keyed h l in
  Ok (map snd (merge_sort (fun a b => Is_true (negb (tnp_ltb b.1 a.1))) ks)).

(** ** [Trie::reassignKeywordIds] *)

Fixpoint reassign_loop (l : list path) (m : mapper) : tst mapper :=
  match l with
  | [] => ret m
  | p :: l' =>
      match m !! getLastTrieNode p with
      | None => let! m' := pushNeighborsForMoreSpace p m in reassign_loop l' m'
      | Some _ => reassign_loop l' m
      end
  end.

Definition needToReassignKeywordIds : tst bool :=
  let! l := reads trieNodesToReassign in ret (Nat.ltb 0 (length l)).

Definition reassignKeywordIds : tst mapper :=
  let! l := reads trieNodesToReassign in
  let! l := on_heap (fun h => sort_paths h l) in
  let! m := reassign_loop l ∅ in
  set_reassign [] ;;;
  ret m.

Definition resetcounterForReassignedKeywordIds : tst unit := set_counter (wrap32 (MAX_ALLOCATED_KEYWORD_ID + 1)).

(** ** [IndexData::reassignKeywordIds] *)

(** The nodes of the mapper in the order of their addresses. *)
Definition mapped_nodes (m : mapper) : list ptr := merge_sort N.le (elements (dom m)).

(** Sets the ids, and maps the old ids to the new ones. *)
Fixpoint set_ids (l : list ptr) (m : mapper) (keywordIdMapper : gmap Z Z) : tst (gmap Z Z) :=
  match l with
  | [] => ret keywordIdMapper
  | p :: l' =>
      let newKeywordId := default 0 (m !! p) in
      let! n := load_node p in
      store_node p (with_id n newKeywordId) ;;;
      set_ids l' m (<[id n := newKeywordId]> keywordIdMapper)
  end.

(** [changeLists] changes the ids on the forward lists. *)
Definition IndexData_reassignKeywordIds (changeLists : mapper -> gmap Z Z -> tst unit) : tst unit :=
  let! m := reassignKeywordIds in
  let! keywordIdMapper := set_ids (mapped_nodes m) m ∅ in
  changeLists m keywordIdMapper ;;;
  applyKeywordIdMapperOnEmptyLeafNodes keywordIdMapper.


(** ** The terminal nodes in order *)

Definition mark (p : ptr) (n : TrieNode) : list (ptr * Z) := if isTerminalNode n then [(p, id n)] else [].

Fixpoint marks (t : tree) : list (ptr * Z) :=
  match t with Tree p n cs => mark p n ++ flat_map marks cs end.

Fixpoint marks_before (ctx : list frame) : list (ptr * Z) :=
  match ctx with
  | [] => []
  | f :: ctx' => marks_before ctx' ++ mark (fptr f) (fnode f) ++ flat_map marks (fleft f)
  end.
Fixpoint marks_after (ctx : list frame) : list (ptr * Z) :=
  match ctx with [] => [] | f :: ctx' => flat_map marks (fright f) ++ marks_after ctx' end.

Lemma marks_plug ctx k : marks (plug ctx k) = marks_before ctx ++ marks k ++ marks_after ctx.
Proof.
  revert k. induction ctx as [|f ctx IH]; intros k; cbn [plug marks_before marks_after]; [by rewrite app_nil_r|].
  rewrite IH. unfold fill. cbn [marks]. rewrite flat_map_app. cbn [flat_map]. by rewrite <- !app_assoc.
Qed.

Lemma marks_ids t : map snd (marks t) = ids t.
Proof.
  induction t as [p n cs IH] using tree_ind'. rewrite ids_tree. cbn [marks]. rewrite map_app. f_equal.
  - unfold mark. by destruct (isTerminalNode n).
  - induction IH as [|k cs Hk _ IH]; cbn; [done|]. by rewrite map_app, Hk, IH.
Qed.

Lemma marks_ptrs t : map fst (marks t) `sublist_of` ptrs t.
Proof.
  induction t as [p n cs IH] using tree_ind'. cbn [marks ptrs]. rewrite map_app.
  assert (map fst (flat_map marks cs) `sublist_of` flat_map ptrs cs) as Hk.
  { induction IH as [|k cs Hk _ IH]; cbn; [constructor|]. rewrite map_app. by apply sublist_app. }
  unfold mark. destruct (isTerminalNode n); cbn; [by constructor|]. by constructor.
Qed.

Lemma length_ids t : length (ids t) = length (entries t).
Proof. apply length_map. Qed.

Lemma length_marks t : length (marks t) = length (entries t).
Proof. by rewrite <- length_ids, <- marks_ids, length_map. Qed.

Lemma length_marks_kids cs : length (flat_map marks cs) = length (flat_map kid_entries cs).
Proof.
  induction cs as [|k cs IH]; cbn; [done|]. rewrite !length_app, IH, length_marks. unfold kid_entries. by rewrite length_map.
Qed.

Lemma length_marks_before ctx c : length (marks_before ctx) = length (before ctx c).
Proof.
  revert c. induction ctx as [|f ctx IH]; intros c; cbn [marks_before before]; [done|].
  rewrite !length_app, length_map, length_app, length_marks_kids, (IH (character (fnode f))). do 2 f_equal.
  unfold mark, own. by destruct (isTerminalNode (fnode f)).
Qed.

(** The path of the [i]-th terminal node of [t]. *)
Definition path_at (t : tree) (i : nat) (p : path) : Prop :=
  exists ctx k, p = path_of ctx k /\ plug ctx k = t /\ isTerminalNode (tnode k) = true /\ length (marks_before ctx) = i.

Lemma path_at_mark t i p : path_at t i p -> exists j, marks t !! i = Some (getLastTrieNode p, j).
Proof.
  intros (ctx & k & -> & <- & Ht & <-). rewrite marks_plug. destruct k as [q n cs]. exists (id n).
  rewrite lookup_app_r, Nat.sub_diag by lia. cbn [marks tnode] in *. unfold mark. rewrite Ht. cbn.
  unfold getLastTrieNode, path_of. by rewrite last_snoc.
Qed.

(** What the reassignment relies on. *)
Record steady (s : trie) (t : tree) : Prop := {
  sy_holds : holds s t;
  sy_wf : wf 0 t;
  sy_top : isTerminalNode (tnode t) = false }.

Lemma left_at s t i p : steady s t -> path_at t i p -> exists r, getLeftTnp p s = Ok (r, s) /\
  match r with None => i = 0%nat | Some p' => exists j, i = S j /\ path_at t j p' end.
Proof.
  intros [Hh Hw Htop] (ctx & k & -> & <- & Ht & <-). apply wf_plug in Hw as (d & Hok & _ & Hwk & _).
  assert (ctx <> []) as Hne by (intros ->; cbn in Htop; congruence).
  destruct (getLeftTnp_run s ctx k d Hh Hok Hne Htop) as (r & Hr & H). exists r. split; [exact Hr|].
  rewrite (length_marks_before ctx (tchar k)). destruct r as [p|]; [|by rewrite H].
  destruct H as (ctx' & k' & -> & [Htr Ht' Hb]). exists (length (before ctx' (tchar k'))). split.
  - rewrite Hb, length_app. cbn. lia.
  - exists ctx', k'. split; [done|]. split; [done|]. split; [done|]. apply length_marks_before.
Qed.

Lemma right_at s t i p : steady s t -> path_at t i p -> exists r, getRightTnp p s = Ok (r, s) /\
  match r with None => S i = length (marks t) | Some p' => path_at t (S i) p' end.
Proof.
  intros [Hh Hw Htop] (ctx & k & -> & <- & Ht & <-). apply wf_plug in Hw as (d & Hok & _ & Hwk & _).
  assert (ctx <> []) as Hne by (intros ->; cbn in Htop; congruence).
  destruct (getRightTnp_run s ctx k d Hh Hok Hne (or_introl (conj Ht Hwk))) as (r & Hr & H). exists r. split; [exact Hr|].
  rewrite (length_marks_before ctx (tchar k)). destruct r as [p|].
  - destruct H as (ctx' & k' & -> & [Htr Ht' Hb]). exists ctx', k'. split; [done|]. split; [done|]. split; [done|].
    rewrite (length_marks_before ctx' (tchar k')), Hb, length_app, length_map. unfold own. rewrite Ht. cbn. lia.
  - destruct H as [Ek Ea]. rewrite length_marks, (entries_at ctx k Ht), Ek, Ea, length_app. cbn. lia.
Qed.


(** ** The ids under a mapper *)

Abbreviation MAX := MAX_ALLOCATED_KEYWORD_ID.

Definition ptr_at (t : tree) (j : nat) : ptr := default NULL (fst <$> marks t !! j).
Definition num (t : tree) (m : mapper) (j : nat) : Z :=
  match marks t !! j with Some (p, i) => default i (m !! p) | None => 0 end.

(** The nodes from the [a]-th to the [b]-th terminal node. *)
Definition slice (t : tree) (a b : nat) : list ptr := map (ptr_at t) (seq a (S b - a)).

Lemma path_at_last t i p : path_at t i p -> getLastTrieNode p = ptr_at t i /\ (i < length (marks t))%nat.
Proof.
  intros [j Hj]%path_at_mark. unfold ptr_at. rewrite Hj. split; [done|]. by eapply lookup_lt_Some.
Qed.

Lemma slice_left t a b : (S a <= b)%nat -> slice t a b = ptr_at t a :: slice t (S a) b.
Proof. intros H. unfold slice. replace (S b - a)%nat with (S (S b - S a)) by lia. done. Qed.

Lemma slice_right t a b : (a <= b)%nat -> slice t a (S b) = slice t a b ++ [ptr_at t (S b)].
Proof.
  intros H. unfold slice. replace (S (S b) - a)%nat with (S (S b - a)) by lia. rewrite seq_S, map_app. cbn.
  by replace (a + (S b - a))%nat with (S b) by lia.
Qed.

Lemma slice_length t a b : length (slice t a b) = (S b - a)%nat.
Proof. unfold slice. by rewrite length_map, length_seq. Qed.

Lemma slice_one t a : slice t a a = [ptr_at t a].
Proof. unfold slice. by replace (S a - a)%nat with 1%nat by lia. Qed.

Lemma slice_lookup t a b j : (j <= b - a)%nat -> (a <= b)%nat -> slice t a b !! j = Some (ptr_at t (a + j)).
Proof.
  intros Hj Hab. unfold slice. rewrite list_lookup_fmap_map, lookup_seq_lt by lia. done.
Qed.

Lemma slice_at t a b j : (j <= b - a)%nat -> (a <= b)%nat -> vec_at (slice t a b) (Z.of_nat j) = Ok (ptr_at t (a + j)).
Proof. intros Hj Hab. apply vec_at_nth. split; [lia|]. rewrite Nat2Z.id. by apply slice_lookup. Qed.

Lemma marks_load h t : shape h t -> forall p i, (p, i) ∈ marks t -> exists n, s_load h p = Ok n /\ id n = i.
Proof.
  induction t as [q n cs IH] using tree_ind'. intros Hs p i. cbn [marks]. rewrite elem_of_app. intros [H|H].
  - unfold mark in H. destruct (isTerminalNode n); [|by apply not_elem_of_nil in H].
    apply list_elem_of_singleton in H as [= -> ->]. exists n. split; [exact (shape_load_root _ _ Hs)|done].
  - apply elem_of_flat_map in H as (k & Hk & H). rewrite Forall_forall in IH. apply (IH k Hk); [|done].
    inversion Hs as [? ? ? _ _ _ Hcs]; subst. rewrite Forall_forall in Hcs. by apply Hcs.
Qed.

Lemma trueId_at s t m j : steady s t -> (j < length (marks t))%nat ->
  getTrueId (nodes s) m (ptr_at t j) = Ok (num t m j).
Proof.
  intros [Hh _ _] Hj. unfold getTrueId, ptr_at, num. destruct (lookup_lt_is_Some_2 _ _ Hj) as [[p i] Hp]. rewrite Hp. cbn.
  destruct (m !! p) as [x|]; [done|]. apply list_elem_of_lookup_2 in Hp.
  destruct (marks_load _ _ (h_shape _ _ Hh) _ _ Hp) as (n & -> & <-). done.
Qed.

Lemma marks_fuel s t : steady s t -> (length (marks t) <= depth_fuel s)%nat.
Proof.
  intros [[Hs Hnd _] _ _]. unfold depth_fuel. rewrite <- (length_map fst (marks t)).
  transitivity (length (ptrs t)); [apply sublist_length, marks_ptrs|].
  rewrite <- size_dom, <- (size_list_to_set (C:=gset ptr) (ptrs t)) by done.
  apply subseteq_size. intros p Hp. apply elem_of_list_to_set in Hp. apply elem_of_dom. by eapply shape_live.
Qed.

(** ** The steps to either side *)

Definition temporary (i : Z) : Prop := MAX < i.

Lemma larger_spec i : reflect (temporary i) (isLargerThanUpperBound i).
Proof. apply Z.ltb_spec0. Qed.

(** Where a step to the left ends. *)
Definition ends_left (t : tree) (m : mapper) (a : nat) (ok : bool) (a' : nat) (p' : path) : Prop :=
  (a' <= a)%nat /\ path_at t a' p' /\ if ok then (a' < a)%nat /\ ~ temporary (num t m a') else a' = 0%nat.
Definition ends_right (t : tree) (m : mapper) (b : nat) (ok : bool) (b' : nat) (p' : path) : Prop :=
  (b <= b')%nat /\ path_at t b' p' /\ if ok then (b < b')%nat /\ ~ temporary (num t m b') else S b' = length (marks t).

Lemma assignLeft_run s t m b : steady s t -> forall fuel a p, path_at t a p -> (a < fuel)%nat -> (a <= b)%nat ->
  exists ok a' p', assignMoreNodesOnTheLeft fuel m p (slice t a b) s = Ok ((ok, p', slice t a' b), s) /\
    ends_left t m a ok a' p'.
Proof.
  intros Hst. induction fuel as [|fuel IH]; intros a p Hp Hf Hab; [lia|]. cbn [assignMoreNodesOnTheLeft].
  destruct (left_at s t a p Hst Hp) as (r & Hr & H). rewrite (bind_run _ _ _ _ _ Hr). destruct r as [p'|].
  - destruct H as (j & -> & Hp'). destruct (path_at_last _ _ _ Hp') as [Ep Hj].
    rewrite (bind_run _ _ s (num t m j) s) by (apply on_heap_run; rewrite Ep; by apply trueId_at).
    rewrite Ep, <- slice_left by lia. destruct (larger_spec (num t m j)) as [Hl|Hl].
    + destruct (IH j p' Hp') as (ok & a' & q & Hrun & H1 & H2 & H3); [lia|lia|]. exists ok, a', q. split; [exact Hrun|].
      split; [lia|]. split; [done|]. destruct ok; [|done]. destruct H3. split; [lia|done].
    + exists true, j, p'. split; [done|]. split; [lia|]. split; [done|]. split; [lia|done].
  - subst a. exists false, 0%nat, p. done.
Qed.

Lemma assignRight_run s t m a : steady s t -> forall fuel b p, path_at t b p -> (length (marks t) - b <= fuel)%nat ->
  (a <= b)%nat -> exists ok b' p', assignMoreNodesOnTheRight fuel m p (slice t a b) s = Ok ((ok, p', slice t a b'), s) /\
    ends_right t m b ok b' p'.
Proof.
  intros Hst. induction fuel as [|fuel IH]; intros b p Hp Hf Hab.
  { destruct (path_at_last _ _ _ Hp). lia. }
  cbn [assignMoreNodesOnTheRight]. destruct (right_at s t b p Hst Hp) as (r & Hr & H).
  rewrite (bind_run _ _ _ _ _ Hr). destruct r as [p'|].
  - destruct (path_at_last _ _ _ H) as [Ep Hj].
    rewrite (bind_run _ _ s (num t m (S b)) s) by (apply on_heap_run; rewrite Ep; by apply trueId_at).
    rewrite Ep, <- slice_right by lia. destruct (larger_spec (num t m (S b))) as [Hl|Hl].
    + destruct (IH (S b) p' H) as (ok & b' & q & Hrun & H1 & H2 & H3); [lia|lia|]. exists ok, b', q. split; [exact Hrun|].
      split; [lia|]. split; [done|]. destruct ok; [|done]. destruct H3. split; [lia|done].
    + exists true, (S b), p'. split; [done|]. split; [lia|]. split; [done|]. split; [lia|done].
  - exists false, b, p. done.
Qed.


(** ** The range *)

Definition at_left (t : tree) (m : mapper) (a : nat) (ok : bool) (p : path) : Prop :=
  if ok then path_at t a p /\ ~ temporary (num t m a) else a = 0%nat.
Definition at_right (t : tree) (m : mapper) (b : nat) (ok : bool) (p : path) : Prop :=
  if ok then path_at t b p /\ ~ temporary (num t m b) else S b = length (marks t).

Lemma ends_at_left t m a ok a' p : ends_left t m a ok a' p -> at_left t m a' ok p.
Proof. intros (_ & Hp & H). unfold at_left. destruct ok; [|done]. by destruct H. Qed.
Lemma ends_at_right t m b ok b' p : ends_right t m b ok b' p -> at_right t m b' ok p.
Proof. intros (_ & Hp & H). unfold at_right. destruct ok; [|done]. by destruct H. Qed.

Lemma startLeft_run s t m i p b : steady s t -> path_at t i p -> (i <= b)%nat ->
  exists ok a' p', startLeft m p (slice t i b) s = Ok ((ok, p', slice t a' b), s) /\ (a' <= i)%nat /\ at_left t m a' ok p'.
Proof.
  intros Hst Hp Hib. unfold startLeft. destruct (left_at s t i p Hst Hp) as (r & Hr & H).
  rewrite (bind_run _ _ _ _ _ Hr). destruct r as [p'|]; [|exists false, i, []; subst i; done].
  destruct H as (j & -> & Hp'). destruct (path_at_last _ _ _ Hp') as [Ep Hj].
  rewrite (bind_run _ _ s (num t m j) s) by (apply on_heap_run; rewrite Ep; by apply trueId_at).
  rewrite (bind_run (reads depth_fuel) _ s (depth_fuel s) s) by done. rewrite Ep, <- slice_left by lia.
  destruct (larger_spec (num t m j)) as [Hl|Hl].
  - pose proof (marks_fuel s t Hst). destruct (assignLeft_run s t m b Hst (depth_fuel s) j p' Hp') as (ok & a' & q & Hrun & He); [lia|lia|].
    exists ok, a', q. split; [exact Hrun|]. split; [destruct He; lia|by eapply ends_at_left].
  - exists true, j, p'. split; [done|]. split; [lia|done].
Qed.

Lemma startRight_run s t m i p a : steady s t -> path_at t i p -> (a <= i)%nat ->
  exists ok b' p', startRight m p (slice t a i) s = Ok ((ok, p', slice t a b'), s) /\ (i <= b')%nat /\ at_right t m b' ok p'.
Proof.
  intros Hst Hp Hai. unfold startRight. destruct (right_at s t i p Hst Hp) as (r & Hr & H).
  rewrite (bind_run _ _ _ _ _ Hr). destruct r as [p'|]; [|exists false, i, []; done].
  destruct (path_at_last _ _ _ H) as [Ep Hj].
  rewrite (bind_run _ _ s (num t m (S i)) s) by (apply on_heap_run; rewrite Ep; by apply trueId_at).
  rewrite (bind_run (reads depth_fuel) _ s (depth_fuel s) s) by done. rewrite Ep, <- slice_right by lia.
  destruct (larger_spec (num t m (S i))) as [Hl|Hl].
  - pose proof (marks_fuel s t Hst). destruct (assignRight_run s t m a Hst (depth_fuel s) (S i) p' H) as (ok & b' & q & Hrun & He); [lia|lia|].
    exists ok, b', q. split; [exact Hrun|]. split; [destruct He; lia|by eapply ends_at_right].
  - exists true, (S i), p'. split; [done|]. split; [lia|done].
Qed.

(** The ids at the ends of a range: a temporary one stands for the bound. *)
Definition low_id (i : Z) : Z := if isLargerThanUpperBound i then 0 else i.
Definition high_id (i : Z) : Z := if isLargerThanUpperBound i then MAX else i.

Definition pace (f : nat -> Z) (a b : nat) : Z := wrap32 (high_id (f b) - low_id (f a)) / Z.of_nat (b - a).

Definition roomy (f : nat -> Z) (N a b : nat) : Prop :=
  (a < b)%nat /\ KEYWORD_ID_SPARSITY <= pace f a b \/ a = 0%nat /\ S b = N.

(** A range that the reassignment spreads the ids over. *)
Record range_ok (f : nat -> Z) (N i a b : nat) : Prop := {
  ra_in : (a <= i <= b)%nat;
  ra_bound : (b < N)%nat;
  ra_left : a = 0%nat \/ ~ temporary (f a);
  ra_right : S b = N \/ ~ temporary (f b);
  ra_room : roomy f N a b }.

Lemma more_run s t m a b : steady s t -> (a <= b)%nat -> (b < length (marks t))%nat ->
  exists more, needToReassignMore (nodes s) m (ptr_at t a) (ptr_at t b) (Z.of_nat (S b - a)) = Ok more /\
    (more = false -> (a < b)%nat /\ KEYWORD_ID_SPARSITY <= pace (num t m) a b).
Proof.
  intros Hst Hab Hb. unfold needToReassignMore. destruct (Z.ltb_spec (Z.of_nat (S b - a)) 2) as [H2|H2].
  { exists true. done. }
  rewrite !(trueId_at s t) by (done || lia). cbn [rbind]. eexists. split; [done|]. intros H%Z.ltb_ge. split; [lia|].
  unfold pace, low_id, high_id. by replace (Z.of_nat (b - a)) with (Z.of_nat (S b - a) - 1) by lia.
Qed.

Lemma more_loop_run s t m i : steady s t -> forall fuel a b la lp ra rp,
  (a <= i <= b)%nat -> (b < length (marks t))%nat -> (length (marks t) - (b - a) <= fuel)%nat ->
  (a = 0%nat \/ ~ temporary (num t m a)) -> (S b = length (marks t) \/ ~ temporary (num t m b)) ->
  at_left t m a la lp -> at_right t m b ra rp ->
  exists a' b', more_loop fuel m la lp ra rp (slice t a b) s = Ok (slice t a' b', s) /\
    range_ok (num t m) (length (marks t)) i a' b'.
Proof.
  intros Hst. induction fuel as [|fuel IH]; intros a b la lp ra rp Hi Hb Hf Hla Hrb Hl Hr; [lia|].
  cbn [more_loop]. rewrite slice_length.
  rewrite (bind_run _ _ s (ptr_at t a) s)
    by (apply lift_run; change 0 with (Z.of_nat 0); rewrite slice_at by lia; by rewrite Nat.add_0_r).
  rewrite (bind_run _ _ s (ptr_at t b) s)
    by (apply lift_run; replace (Z.of_nat (S b - a) - 1) with (Z.of_nat (b - a)) by lia; rewrite slice_at by lia; do 2 f_equal; lia).
  destruct (more_run s t m a b Hst) as (more & Hm & Hsp); [lia|lia|].
  rewrite (bind_run _ _ _ _ _ (on_heap_run _ _ _ Hm)). destruct more; cbn [negb].
  2: { exists a, b. split; [done|]. split; try done. left. by apply Hsp. }
  rewrite (bind_run (reads depth_fuel) _ s (depth_fuel s) s) by done. pose proof (marks_fuel s t Hst) as Hfu.
  assert (exists la' lp' a', (if la then assignMoreNodesOnTheLeft (depth_fuel s) m lp (slice t a b)
      else ret (false, lp, slice t a b)) s = Ok ((la', lp', slice t a' b), s) /\ (a' <= a)%nat /\
      at_left t m a' la' lp' /\ (la' = true -> (a' < a)%nat)) as (la' & lp' & a' & Hrl & Ha' & Hl' & Hlt).
  { destruct la; [|by exists false, lp, a]. destruct Hl as [Hlp _].
    destruct (assignLeft_run s t m b Hst (depth_fuel s) a lp Hlp) as (ok & a' & p' & Hrun & He); [lia|lia|].
    exists ok, p', a'. split; [exact Hrun|]. split; [apply He|]. split; [by eapply ends_at_left|].
    intros ->. destruct He as (_ & _ & He). apply He. }
  rewrite (bind_run _ _ _ _ _ Hrl). destruct la'.
  { apply IH; try done; [lia| |by right; apply Hl'..]. specialize (Hlt eq_refl). lia. }
  cbn in Hl'. subst a'.
  assert (exists ra' rp' b', (if ra then assignMoreNodesOnTheRight (depth_fuel s) m rp (slice t 0 b)
      else ret (false, rp, slice t 0 b)) s = Ok ((ra', rp', slice t 0 b'), s) /\ (b <= b')%nat /\
      at_right t m b' ra' rp' /\ (ra' = true -> (b < b')%nat)) as (ra' & rp' & b' & Hrr & Hb' & Hr' & Hlt').
  { destruct ra; [|by exists false, rp, b]. destruct Hr as [Hrp _].
    destruct (assignRight_run s t m 0 Hst (depth_fuel s) b rp Hrp) as (ok & b' & p' & Hrun & He); [lia|lia|].
    exists ok, p', b'. split; [exact Hrun|]. split; [apply He|]. split; [by eapply ends_at_right|].
    intros ->. destruct He as (_ & _ & He). apply He. }
  rewrite (bind_run _ _ _ _ _ Hrr). destruct ra'.
  - destruct Hr' as [Hrp' Hnt]. destruct (path_at_last _ _ _ Hrp'). specialize (Hlt' eq_refl).
    apply IH; try done; [lia|lia|by left|by right].
  - exists 0%nat, b'. split; [done|]. cbn in Hr'. split; [lia|lia|by left|by left|by right].
Qed.


(** ** Spreading the ids *)

Lemma ptr_at_inj t j k : NoDup (map fst (marks t)) -> (j < length (marks t))%nat -> (k < length (marks t))%nat ->
  ptr_at t j = ptr_at t k -> j = k.
Proof.
  intros Hnd Hj Hk. unfold ptr_at. destruct (lookup_lt_is_Some_2 _ _ Hj) as [x Hx], (lookup_lt_is_Some_2 _ _ Hk) as [y Hy].
  rewrite Hx, Hy. cbn. intros E. apply (NoDup_lookup _ _ _ x.1 Hnd); rewrite list_lookup_fmap_map; [by rewrite Hx|by rewrite Hy, E].
Qed.

Lemma num_insert t m j v k : NoDup (map fst (marks t)) -> (j < length (marks t))%nat -> (k < length (marks t))%nat ->
  num t (<[ptr_at t j := v]> m) k = if Nat.eq_dec k j then v else num t m k.
Proof.
  intros Hnd Hj Hk. pose proof (ptr_at_inj t k j Hnd Hk Hj) as Hinj. unfold num.
  destruct (lookup_lt_is_Some_2 _ _ Hk) as [[p i] Hp].
  assert (ptr_at t k = p) as Ep by (unfold ptr_at; by rewrite Hp). rewrite Hp, <- Ep.
  destruct (Nat.eq_dec k j) as [->|Hne].
  - by rewrite lookup_insert_eq.
  - rewrite lookup_insert_ne; [done|]. intros E. apply Hne, Hinj. by symmetry.
Qed.

(** The mapper holds final ids of terminal nodes. *)
Definition final_ids (t : tree) (m : mapper) : Prop :=
  forall p i, m !! p = Some i -> 0 <= i <= MAX /\ p ∈ map fst (marks t).

Lemma ptr_at_in t j : (j < length (marks t))%nat -> ptr_at t j ∈ map fst (marks t).
Proof.
  intros Hj. unfold ptr_at. destruct (lookup_lt_is_Some_2 _ _ Hj) as [x Hx]. rewrite Hx. cbn.
  apply elem_of_lmap_2. by eapply list_elem_of_lookup_2.
Qed.

Lemma final_insert t m j v : (j < length (marks t))%nat -> 0 <= v <= MAX -> final_ids t m ->
  final_ids t (<[ptr_at t j := v]> m).
Proof.
  intros Hj Hv Hm p i. destruct (decide (ptr_at t j = p)) as [<-|Hne].
  - rewrite lookup_insert_eq. intros [= <-]. split; [done|by apply ptr_at_in].
  - rewrite lookup_insert_ne by done. apply Hm.
Qed.

Definition spread_id (leftId pace_ i : Z) : Z := wrap32 (leftId + wrap32 (i * pace_)).

Lemma spread_run t leftId pace_ : NoDup (map fst (marks t)) -> forall n st i m,
  (st + n <= length (marks t))%nat -> let m' := spread (map (ptr_at t) (seq st n)) i leftId pace_ m in
  (forall k, (k < length (marks t))%nat -> num t m' k =
    if (st <=? k)%nat && (k <? st + n)%nat then spread_id leftId pace_ (i + Z.of_nat (k - st)) else num t m k) /\
  (final_ids t m -> (forall k, (k < n)%nat -> spread_id leftId pace_ (i + Z.of_nat k) <= MAX) -> final_ids t m').
Proof.
  intros Hnd. induction n as [|n IH]; intros st i m Hn; cbn [seq map spread].
  - split; [|done]. intros k Hk. destruct (Nat.leb_spec st k), (Nat.ltb_spec k (st + 0)); cbn; [lia|done..].
  - destruct (IH (S st) (i + 1) (<[ptr_at t st := spread_id leftId pace_ i]> m)) as [H1 H2]; [lia|]. split.
    + intros k Hk. etransitivity; [exact (H1 k Hk)|]. rewrite num_insert by (done || lia).
      destruct (Nat.leb_spec (S st) k), (Nat.ltb_spec k (S st + n)), (Nat.leb_spec st k), (Nat.ltb_spec k (st + S n)),
        (Nat.eq_dec k st) as [E|E]; cbn [andb]; try lia; try done; f_equal; subst; lia.
    + intros Hm Hle. apply H2.
      * apply final_insert; [lia| |done]. split; [apply wrap_bounds; lia|]. specialize (Hle 0%nat ltac:(lia)). by rewrite Z.add_0_r in Hle.
      * intros k Hk. specialize (Hle (S k) ltac:(lia)). by replace (i + 1 + Z.of_nat k) with (i + Z.of_nat (S k)) by lia.
Qed.

(** The ids after a range has been spread. *)
Definition new_num (f : nat -> Z) (a b j : nat) : Z :=
  if ((j <? a) || (b <? j))%nat then f j
  else if (a =? b)%nat then MAX / 2
  else if (j =? b)%nat then high_id (f b)
  else low_id (f a) + Z.of_nat (j - a) * pace f a b.

Lemma slice_inner t a b : (a < b)%nat -> removelast (tail (slice t a b)) = map (ptr_at t) (seq (S a) (b - S a)).
Proof.
  intros H. rewrite slice_left by lia. cbn [tail]. unfold slice. replace (S b - S a)%nat with (S (b - S a)) by lia.
  rewrite seq_S, map_app. cbn. apply removelast_last.
Qed.

Lemma low_bounds i : 0 <= i < 2 ^ 32 -> 0 <= low_id i <= MAX /\ 0 <= high_id i <= MAX.
Proof.
  intros H. unfold low_id, high_id. destruct (larger_spec i) as [Hl|Hl]; unfold temporary in Hl; [split; [|done]; split; [lia|done]|lia].
Qed.

Lemma pace_bounds f a b : 0 <= f a < 2 ^ 32 -> 0 <= f b < 2 ^ 32 -> (a < b)%nat -> low_id (f a) <= high_id (f b) ->
  0 <= pace f a b /\ Z.of_nat (b - a) * pace f a b <= high_id (f b) - low_id (f a).
Proof.
  intros Ha Hb Hab Hle. destruct (low_bounds _ Ha) as [Hl _], (low_bounds _ Hb) as [_ Hh]. unfold pace.
  assert (MAX < 2 ^ 32) by done. rewrite wrap_id by (unfold is_uint; lia). split; [apply Z.div_pos; lia|].
  apply Z.mul_div_le. lia.
Qed.


Lemma marks_nodup s t : steady s t -> NoDup (map fst (marks t)).
Proof. intros [[_ Hnd _] _ _]. by eapply sublist_NoDup; [|apply marks_ptrs]. Qed.

(** The end of a range gets its bound when its id is temporary. *)
Lemma end_run s t m j bound : steady s t -> (j < length (marks t))%nat -> final_ids t m -> 0 <= bound <= MAX ->
  let i := if isLargerThanUpperBound (num t m j) then bound else num t m j in
  exists m', getTrueId (nodes s) m (ptr_at t j) = Ok (num t m j) /\
    (if isLargerThanUpperBound (num t m j) then (bound, <[ptr_at t j := bound]> m) else (num t m j, m)) = (i, m') /\
    final_ids t m' /\ forall k, (k < length (marks t))%nat -> num t m' k = if Nat.eq_dec k j then i else num t m k.
Proof.
  intros Hst Hj Hm Hb i. rewrite trueId_at by done. pose proof (marks_nodup _ _ Hst) as Hnd. unfold i. clear i.
  destruct (isLargerThanUpperBound (num t m j)).
  - eexists. split; [done|]. split; [done|]. split; [by apply final_insert|]. intros k Hk. by apply num_insert.
  - exists m. do 3 (split; [done|]). intros k Hk. by destruct (Nat.eq_dec k j) as [->|].
Qed.

Lemma doReassignment_one s t m a : steady s t -> (a < length (marks t))%nat -> final_ids t m ->
  exists m', doReassignment (nodes s) (slice t a a) m = Ok m' /\ final_ids t m' /\
    forall k, (k < length (marks t))%nat -> num t m' k = new_num (num t m) a a k.
Proof.
  intros Hst Ha Hm. unfold doReassignment. rewrite slice_one. cbn [length Z.of_nat].
  change (vec_at [ptr_at t a] 0) with (Ok (ptr_at t a)). change (vec_at [ptr_at t a] (Z.of_nat 1 - 1)) with (Ok (ptr_at t a)).
  cbn [rbind].
  destruct (end_run s t m a 0 Hst Ha Hm) as (m1 & E1 & E2 & Hm1 & Hn1); [done|]. rewrite E1. cbn [rbind]. rewrite E2.
  rewrite trueId_at by done. cbn [rbind]. rewrite Hn1 by done. destruct (Nat.eq_dec a a) as [_|]; [|done].
  assert (isLargerThanUpperBound (if isLargerThanUpperBound (num t m a) then 0 else num t m a) = false) as ->.
  { destruct (isLargerThanUpperBound (num t m a)) eqn:E; done. }
  eexists. split; [done|]. split; [by apply final_insert|]. intros k Hk.
  rewrite num_insert by (done || by eapply marks_nodup). unfold new_num. rewrite Hn1 by done. rewrite Nat.eqb_refl.
  destruct (Nat.eq_dec k a) as [->|Hne]; [by rewrite Nat.ltb_irrefl|].
  by destruct (Nat.ltb_spec k a), (Nat.ltb_spec a k); try lia.
Qed.

Lemma doReassignment_run s t m a b : steady s t -> (a < b)%nat -> (b < length (marks t))%nat ->
  0 <= num t m a < 2 ^ 32 -> 0 <= num t m b < 2 ^ 32 -> final_ids t m -> low_id (num t m a) < high_id (num t m b) ->
  exists m', doReassignment (nodes s) (slice t a b) m = Ok m' /\ final_ids t m' /\
    forall k, (k < length (marks t))%nat -> num t m' k = new_num (num t m) a b k.
Proof.
  intros Hst Hab Hb Hna Hnb Hm Hlt. unfold doReassignment. rewrite slice_length.
  change 0 with (Z.of_nat 0) at 1. rewrite slice_at by lia. rewrite Nat.add_0_r. cbn [rbind].
  destruct (end_run s t m a 0 Hst) as (m1 & E1 & E2 & Hm1 & Hn1); [lia|done|done|]. rewrite E1. cbn [rbind]. rewrite E2.
  fold (low_id (num t m a)) in *. replace (Z.of_nat (S b - a) - 1) with (Z.of_nat (b - a)) by lia.
  rewrite slice_at by lia. replace (a + (b - a))%nat with b by lia. cbn [rbind].
  destruct (end_run s t m1 b MAX Hst) as (m2 & E3 & E4 & Hm2 & Hn2); [done..|]. rewrite E3. cbn [rbind]. rewrite E4.
  rewrite Hn1 in Hn2 |- * by done. destruct (Nat.eq_dec b a) as [|_]; [lia|]. fold (high_id (num t m b)) in *.
  rewrite (proj2 (Z.ltb_lt _ _)) by lia. rewrite (proj2 (Z.ltb_lt _ _) Hlt). cbn [negb].
  fold (pace (num t m) a b). rewrite slice_inner by done.
  destruct (pace_bounds (num t m) a b) as [Hp0 Hp]; try done; [lia|].
  destruct (low_bounds _ Hna) as [Hl _]. destruct (low_bounds _ Hnb) as [_ Hh]. assert (MAX < 2 ^ 32) by done.
  assert (forall k, (k < b - a)%nat -> spread_id (low_id (num t m a)) (pace (num t m) a b) (Z.of_nat k) =
    low_id (num t m a) + Z.of_nat k * pace (num t m) a b /\
    low_id (num t m a) + Z.of_nat k * pace (num t m) a b <= MAX) as Hsp.
  { intros k Hk. assert (0 <= Z.of_nat k * pace (num t m) a b <= high_id (num t m b) - low_id (num t m a)) by nia.
    unfold spread_id. rewrite (wrap_id 32 (_ * _)) by (unfold is_uint; lia). rewrite wrap_id by (unfold is_uint; lia). lia. }
  destruct (spread_run t (low_id (num t m a)) (pace (num t m) a b) (marks_nodup _ _ Hst) (b - S a) (S a) 1 m2) as [Hr1 Hr2]; [lia|].
  eexists. split; [done|]. split.
  - apply Hr2; [done|]. intros k Hk. replace (1 + Z.of_nat k) with (Z.of_nat (S k)) by lia.
    destruct (Hsp (S k)) as [-> ?]; [lia|done].
  - intros k Hk. rewrite Hr1, Hn2, Hn1 by done. unfold new_num.
    destruct (Nat.leb_spec (S a) k), (Nat.ltb_spec k (S a + (b - S a))), (Nat.ltb_spec k a), (Nat.ltb_spec b k),
      (Nat.eqb_spec a b), (Nat.eqb_spec k b), (Nat.eq_dec k b), (Nat.eq_dec k a); cbn [andb orb]; try lia; try done.
    replace (1 + Z.of_nat (k - S a)) with (Z.of_nat (k - a)) by lia. destruct (Hsp (k - a)%nat) as [-> _]; [lia|done].
Qed.


(** ** The order of the ids *)

(** The ids that are not temporary grow, and there are as many ids between the two
    outermost as keywords. *)
Record ordered_ids (f : nat -> Z) (N : nat) : Prop := {
  oi_range : forall j, (j < N)%nat -> 0 <= f j < 2 ^ 32;
  oi_order : forall j k, (j < k)%nat -> (k < N)%nat -> ~ temporary (f j) -> ~ temporary (f k) -> f j < f k;
  oi_room : (2 <= N)%nat -> Z.of_nat (N - 1) <= high_id (f (N - 1)%nat) - low_id (f 0%nat) }.

Lemma low_id_final i : ~ temporary i -> low_id i = i.
Proof. unfold low_id. by destruct (larger_spec i). Qed.
Lemma high_id_final i : ~ temporary i -> high_id i = i.
Proof. unfold high_id. by destruct (larger_spec i). Qed.

Lemma range_room f N i a b : ordered_ids f N -> range_ok f N i a b -> (a < b)%nat ->
  low_id (f a) < high_id (f b) /\ 1 <= pace f a b.
Proof.
  intros [Hr Ho Hroom] [Hin Hb Hl Hrt Hrm] Hab.
  assert (low_id (f a) <= high_id (f b)) as Hle.
  { pose proof (Hr a ltac:(lia)) as Ha. pose proof (Hr b Hb) as Hfb. destruct (low_bounds _ Ha), (low_bounds _ Hfb).
    unfold low_id, high_id in *. destruct (larger_spec (f a)), (larger_spec (f b)); try lia.
    specialize (Ho a b Hab Hb ltac:(done) ltac:(done)). lia. }
  destruct (pace_bounds f a b (Hr a ltac:(lia)) (Hr b Hb) Hab Hle) as [Hp0 Hp].
  destruct Hrm as [[_ Hs] | [-> HbN]].
  - unfold KEYWORD_ID_SPARSITY in Hs. split; [nia|lia].
  - assert (b = N - 1)%nat as -> by lia. specialize (Hroom ltac:(lia)). split; [lia|].
    unfold pace. destruct (low_bounds _ (Hr 0%nat ltac:(lia))), (low_bounds _ (Hr (N - 1)%nat Hb)). assert (MAX < 2 ^ 32) by done.
    rewrite wrap_id by (unfold is_uint; lia). apply Z.div_le_lower_bound; [lia|]. rewrite Z.mul_1_r. by rewrite Nat.sub_0_r.
Qed.

Lemma new_num_in f a b j : (a < b)%nat -> (a <= j <= b)%nat -> new_num f a b j =
  if (j =? b)%nat then high_id (f b) else low_id (f a) + Z.of_nat (j - a) * pace f a b.
Proof.
  intros Hab Hj. unfold new_num. destruct (Nat.ltb_spec j a), (Nat.ltb_spec b j), (Nat.eqb_spec a b); cbn [orb]; lia || done.
Qed.

Lemma new_num_out f a b j : (j < a \/ b < j)%nat -> new_num f a b j = f j.
Proof.
  intros Hj. unfold new_num. destruct (Nat.ltb_spec j a), (Nat.ltb_spec b j); cbn [orb]; lia || done.
Qed.

(** A spread range: its new ids lie between its two ends, in order. *)
Lemma new_num_mid f N i a b : ordered_ids f N -> range_ok f N i a b -> (a < b)%nat ->
  (forall j, (a <= j <= b)%nat -> low_id (f a) <= new_num f a b j <= high_id (f b)) /\
  (forall j k, (a <= j)%nat -> (j < k)%nat -> (k <= b)%nat -> new_num f a b j < new_num f a b k).
Proof.
  intros Hoi Hra Hab. destruct (range_room f N i a b Hoi Hra Hab) as [Hlt Hp1]. pose proof (ra_bound _ _ _ _ _ Hra) as Hb.
  pose proof (oi_range _ _ Hoi) as Hr.
  destruct (pace_bounds f a b (Hr a ltac:(lia)) (Hr b Hb) Hab) as [_ Hp]; [lia|].
  assert (forall j, (a <= j)%nat -> (j < b)%nat ->
    0 <= Z.of_nat (j - a) * pace f a b /\ Z.of_nat (j - a) * pace f a b + pace f a b <= high_id (f b) - low_id (f a)) as Hj.
  { intros j Haj Hjb. assert (Z.of_nat (b - a) = Z.of_nat (j - a) + 1 + Z.of_nat (b - S j)) as E by lia. rewrite E in Hp. nia. }
  split.
  - intros j Hjab. rewrite new_num_in by done. destruct (Nat.eqb_spec j b); [lia|]. specialize (Hj j ltac:(lia) ltac:(lia)). lia.
  - intros j k Haj Hjk Hkb. rewrite !new_num_in by lia. destruct (Nat.eqb_spec j b); [lia|].
    specialize (Hj j ltac:(lia) ltac:(lia)) as Hjj. destruct (Nat.eqb_spec k b); [lia|].
    assert (Z.of_nat (k - a) = Z.of_nat (j - a) + Z.of_nat (k - j)) as -> by lia. nia.
Qed.

(** What a step does to the ids. *)
Record improves (f g : nat -> Z) (N : nat) : Prop := {
  im_ordered : ordered_ids g N;
  im_final : forall j, (j < N)%nat -> ~ temporary (f j) -> ~ temporary (g j) }.

Lemma new_num_improves f N i a b : ordered_ids f N -> range_ok f N i a b ->
  improves f (new_num f a b) N /\ ~ temporary (new_num f a b i).
Proof.
  intros Hoi Hra. pose proof Hoi as [Hr Ho Hroom]. pose proof Hra as [Hin Hb Hl Hrt Hrm].
  destruct (Nat.eq_dec a b) as [<-|Hne].
  - destruct Hrm as [[? _] | [-> HN]]; [lia|]. subst N. assert (forall j, (j < 1)%nat -> new_num f 0 0 j = MAX / 2) as E.
    { intros j Hj. by replace j with 0%nat by lia. }
    replace i with 0%nat by lia. rewrite E by lia. split; [|by unfold temporary]. split; [split|].
    + intros j Hj. by rewrite E.
    + lia.
    + lia.
    + intros j Hj _. rewrite E by done. by unfold temporary.
  - assert (a < b)%nat as Hab by lia. destruct (new_num_mid f N i a b Hoi Hra Hab) as [Hmid Hinc].
    destruct (low_bounds _ (Hr a ltac:(lia))) as [Hla _]. destruct (low_bounds _ (Hr b Hb)) as [_ Hhb].
    assert (MAX < 2 ^ 32) as HMAX by done.
    assert (forall j, (a <= j <= b)%nat -> ~ temporary (new_num f a b j)) as Hfin.
    { intros j Hj. specialize (Hmid j Hj). unfold temporary. lia. }
    split; [|by apply Hfin]. split; [split|].
    + intros j Hj. destruct (decide (a <= j <= b)%nat) as [Hd|Hd]; [specialize (Hmid j Hd); lia|].
      rewrite new_num_out by lia. by apply Hr.
    + intros j k Hjk Hk Hfj Hfk.
      destruct (decide (j < a)%nat) as [Hja|Hja], (decide (b < k)%nat) as [Hbk|Hbk].
      * rewrite !new_num_out in * by lia. by apply Ho.
      * destruct (decide (k < a)%nat) as [Hka|Hka]; [rewrite !new_num_out in * by lia; by apply Ho|].
        destruct Hl as [->|Hl]; [lia|]. specialize (Hmid k ltac:(lia)). rewrite (low_id_final _ Hl) in Hmid.
        rewrite (new_num_out f a b j) in * by lia. specialize (Ho j a Hja ltac:(lia) Hfj Hl). lia.
      * destruct (decide (b < j)%nat) as [Hbj|Hbj]; [rewrite !new_num_out in * by lia; by apply Ho|].
        destruct Hrt as [Hrt|Hrt]; [lia|]. specialize (Hmid j ltac:(lia)). rewrite (high_id_final _ Hrt) in Hmid.
        rewrite (new_num_out f a b k) in * by lia. specialize (Ho b k Hbk Hk Hrt Hfk). lia.
      * destruct (decide (b < j)%nat); [lia|]. apply Hinc; lia.
    + intros HN. specialize (Hroom HN).
      assert (low_id (new_num f a b 0%nat) = low_id (f 0%nat)) as ->.
      { destruct (Nat.eq_dec a 0%nat) as [->|]; [|by rewrite new_num_out by lia].
        rewrite low_id_final by (apply Hfin; lia). rewrite new_num_in by lia.
        destruct (Nat.eqb_spec 0 b); [lia|]. rewrite Nat.sub_diag. lia. }
      enough (high_id (new_num f a b (N - 1)%nat) = high_id (f (N - 1)%nat)) as -> by done.
      destruct (Nat.eq_dec b (N - 1)%nat) as [<-|]; [|by rewrite new_num_out by lia].
      rewrite high_id_final by (apply Hfin; lia). rewrite new_num_in by lia. by rewrite Nat.eqb_refl.
    + intros j Hj Hfj. destruct (decide (a <= j <= b)%nat); [by apply Hfin|]. by rewrite new_num_out by lia.
Qed.


(** ** One keyword, and all of them *)

Lemma improves_ext f g g' N : (forall k, (k < N)%nat -> g' k = g k) -> improves f g N -> improves f g' N.
Proof.
  intros E [[Hr Ho Hroom] Hf]. split; [split|].
  - intros j Hj. rewrite E by done. by apply Hr.
  - intros j k Hjk Hk. rewrite !E by lia. by apply Ho.
  - intros HN. rewrite !E by lia. by apply Hroom.
  - intros j Hj. rewrite E by done. by apply Hf.
Qed.

Lemma improves_refl f N : ordered_ids f N -> improves f f N.
Proof. by split. Qed.

Lemma improves_trans f g h N : improves f g N -> improves g h N -> improves f h N.
Proof. intros [_ H1] [Ho H2]. split; [done|]. auto. Qed.

Lemma push_neighbours_run s t i p m : steady s t -> path_at t i p -> final_ids t m -> ordered_ids (num t m) (length (marks t)) ->
  exists m', pushNeighborsForMoreSpace p m s = Ok (m', s) /\ final_ids t m' /\
    improves (num t m) (num t m') (length (marks t)) /\ ~ temporary (num t m' i).
Proof.
  intros Hst Hp Hm Hoi. destruct (path_at_last _ _ _ Hp) as [Ep Hi]. unfold pushNeighborsForMoreSpace. rewrite Ep, <- slice_one.
  destruct (startLeft_run s t m i p i Hst Hp) as (la & a & lp & Hr1 & Ha & Hl); [lia|]. rewrite (bind_run _ _ _ _ _ Hr1).
  destruct (startRight_run s t m i p a Hst Hp Ha) as (ra & b & rp & Hr2 & Hb & Hr). rewrite (bind_run _ _ _ _ _ Hr2).
  rewrite (bind_run (reads depth_fuel) _ s (depth_fuel s) s) by done. pose proof (marks_fuel s t Hst) as Hfu.
  assert ((b < length (marks t))%nat /\ (S b = length (marks t) \/ ~ temporary (num t m b))) as [HbN Hrt].
  { unfold at_right in Hr. destruct ra; [|split; [lia|by left]]. destruct Hr as [Hrp ?]. destruct (path_at_last _ _ _ Hrp). split; [done|by right]. }
  assert (a = 0%nat \/ ~ temporary (num t m a)) as Hlt by (unfold at_left in Hl; destruct la; [right; apply Hl|by left]).
  destruct (more_loop_run s t m i Hst (depth_fuel s) a b la lp ra rp) as (a' & b' & Hr3 & Hra); try done; [lia|].
  rewrite (bind_run _ _ _ _ _ Hr3). destruct (new_num_improves _ _ _ _ _ Hoi Hra) as [Him Hfi].
  assert (exists m', doReassignment (nodes s) (slice t a' b') m = Ok m' /\ final_ids t m' /\
    forall k, (k < length (marks t))%nat -> num t m' k = new_num (num t m) a' b' k) as (m' & Hd & Hm' & Hn').
  { pose proof (ra_bound _ _ _ _ _ Hra). pose proof (ra_in _ _ _ _ _ Hra). destruct (Nat.eq_dec a' b') as [<-|Hne].
    - by apply doReassignment_one.
    - assert (a' < b')%nat as Hab by lia. destruct (range_room _ _ _ _ _ Hoi Hra Hab) as [Hlt' _].
      apply doReassignment_run; try done; apply (oi_range _ _ Hoi); lia. }
  exists m'. split; [by apply on_heap_run|]. split; [done|]. split; [by eapply improves_ext|]. by rewrite Hn'.
Qed.

Lemma mapped_final t m p i : final_ids t m -> path_at t i p -> is_Some (m !! getLastTrieNode p) -> ~ temporary (num t m i).
Proof.
  intros Hm Hp [x Hx]. destruct (path_at_mark _ _ _ Hp) as [j Hj]. unfold num. rewrite Hj, Hx. cbn.
  destruct (Hm _ _ Hx) as [? _]. unfold temporary. lia.
Qed.

Lemma reassign_loop_run s t l : steady s t -> Forall (fun p => exists i, path_at t i p) l ->
  forall m, final_ids t m -> ordered_ids (num t m) (length (marks t)) ->
  exists m', reassign_loop l m s = Ok (m', s) /\ final_ids t m' /\
    improves (num t m) (num t m') (length (marks t)) /\
    forall p i, p ∈ l -> path_at t i p -> ~ temporary (num t m' i).
Proof.
  intros Hst. induction 1 as [|p l [i Hp] _ IH]; intros m Hm Hoi; cbn [reassign_loop].
  - exists m. split; [done|]. split; [done|]. split; [by apply improves_refl|]. intros p i Hin. by apply not_elem_of_nil in Hin.
  - assert (exists m1, (forall K : mapper -> tst mapper, match m !! getLastTrieNode p with
        | None => let! m' := pushNeighborsForMoreSpace p m in K m' | Some _ => K m end s = K m1 s) /\
        final_ids t m1 /\ improves (num t m) (num t m1) (length (marks t)) /\
        forall i, path_at t i p -> ~ temporary (num t m1 i)) as (m1 & Hr1 & Hm1 & Him1 & Hf1).
    { destruct (m !! getLastTrieNode p) as [x|] eqn:Hx.
      - exists m. split; [done|]. split; [done|]. split; [by apply improves_refl|]. intros i' Hp'.
        eapply mapped_final; [done|done|by eexists].
      - destruct (push_neighbours_run s t i p m Hst Hp Hm Hoi) as (m1 & Hr1 & Hm1 & Him1 & Hf1). exists m1.
        split; [intros K; by rewrite (bind_run _ _ _ _ _ Hr1)|]. split; [done|]. split; [done|]. intros i' Hp'.
        destruct (path_at_last _ _ _ Hp) as [E1 H1], (path_at_last _ _ _ Hp') as [E2 H2].
        assert (i' = i) as -> by (eapply ptr_at_inj; [by eapply marks_nodup|done|done|congruence]). done. }
    destruct (IH m1 Hm1 (im_ordered _ _ _ Him1)) as (m' & Hr & Hm' & Him' & Hf'). exists m'.
    split; [etransitivity; [exact (Hr1 (reassign_loop l))|exact Hr]|]. split; [done|]. split; [by eapply improves_trans|].
    intros q j [-> | Hq]%elem_of_cons Hqj; [|by eapply Hf'].
    apply (im_final _ _ _ Him'); [by destruct (path_at_last _ _ _ Hqj)|]. by apply Hf1.
Qed.

(** The sort only permutes. *)
Lemma path_chars_run h p : Forall (fun q => exists n, s_load h q = Ok n) p -> exists cs, path_chars h p = Ok cs.
Proof.
  induction 1 as [|q p [n Hn] _ [cs IH]]; cbn; [by eexists|]. rewrite Hn, IH. by eexists.
Qed.

Lemma path_loads h t i p : shape h t -> path_at t i p -> Forall (fun q => exists n, s_load h q = Ok n) p.
Proof.
  intros Hs (ctx & k & -> & <- & _ & _). revert k Hs. induction ctx as [|f ctx IH]; intros k Hs.
  - apply Forall_singleton. exists (tnode k). by apply shape_load_root.
  - rewrite path_of_cons. apply Forall_app. split; [by apply IH|]. apply Forall_singleton. exists (tnode k).
    apply shape_plug in Hs as [_ Hs]. by apply shape_load_root.
Qed.

Lemma sort_paths_run h l : Forall (fun p => Forall (fun q => exists n, s_load h q = Ok n) p) l ->
  exists l', sort_paths h l = Ok l' /\ l' ≡ₚ l.
Proof.
  intros H. assert (exists ks, keyed h l = Ok ks /\ map snd ks = l) as (ks & Hk & Hm).
  { induction H as [|p l Hp _ (ks & IH & E)]; cbn; [by exists []|]. destruct (path_chars_run h p Hp) as [cs ->]. cbn.
    rewrite IH. cbn. exists ((cs, p) :: ks). by rewrite <- E. }
  unfold sort_paths. rewrite Hk. cbn [rbind]. eexists. split; [done|].
  transitivity (map snd ks); [|by rewrite Hm]. apply Permutation_map, merge_sort_Permutation.
Qed.


(** ** The new ids in the nodes *)

Definition renumbered (m : mapper) (p : ptr) (n : TrieNode) : TrieNode :=
  match m !! p with Some i => with_id n i | None => n end.

Fixpoint retid (m : mapper) (t : tree) : tree :=
  match t with Tree p n cs => Tree p (renumbered m p n) (map (retid m) cs) end.

Lemma renumbered_fields m p n : let n' := renumbered m p n in
  isTerminalNode n' = isTerminalNode n /\ getDepth n' = getDepth n /\ character n' = character n /\
  childrenPointerList n' = childrenPointerList n /\ leftMostDescendant n' = leftMostDescendant n /\
  rightMostDescendant n' = rightMostDescendant n /\ invertedListOffset n' = invertedListOffset n /\
  id n' = default (id n) (m !! p).
Proof. unfold renumbered. by destruct (m !! p). Qed.

Lemma retid_root m t : tptr (retid m t) = tptr t /\ tnode (retid m t) = renumbered m (tptr t) (tnode t).
Proof. by destruct t. Qed.

Lemma retid_ptr m cs : map tptr (map (retid m) cs) = map tptr cs.
Proof. rewrite map_map. apply map_ext. intros k. by destruct (retid_root m k). Qed.

Lemma retid_char m t : tchar (retid m t) = tchar t.
Proof.
  unfold tchar. destruct (retid_root m t) as [_ ->]. by destruct (renumbered_fields m (tptr t) (tnode t)) as (_ & _ & -> & _).
Qed.

Lemma retid_ptrs m t : ptrs (retid m t) = ptrs t.
Proof.
  induction t as [p n cs IH] using tree_ind'. cbn [retid ptrs]. f_equal.
  induction IH as [|k cs Hk _ IH]; cbn; [done|]. by rewrite Hk, IH.
Qed.

Lemma retid_shape m h h' t : (forall p, cells h' !! p = renumbered m p <$> cells h !! p) -> shape h t -> shape h' (retid m t).
Proof.
  intros Hc. induction t as [p n cs IH] using tree_ind'. inversion_clear 1 as [? ? ? Hp Hn Hch Hcs]. cbn [retid].
  constructor; [done|by rewrite Hc, Hn| |].
  - destruct (renumbered_fields m p n) as (_ & _ & _ & -> & _). by rewrite Hch, retid_ptr.
  - rewrite Forall_map. rewrite Forall_forall in *. auto.
Qed.

Lemma retid_last m cs : last (map (retid m) cs) = retid m <$> last cs.
Proof. induction cs as [|k [|k' cs] IH]; [done..|]. cbn [map] in *. by rewrite !last_cons_cons. Qed.

Lemma retid_wf m t : forall d, wf d t -> wf d (retid m t).
Proof.
  induction t as [p n cs IH] using tree_ind'. intros d. inversion_clear 1 as [? ? ? ? Hd Hs Hws Hi Hl Hr]. cbn [retid].
  destruct (renumbered_fields m p n) as (Et & Ed & _ & _ & El & Er & _). constructor.
  - by rewrite Ed.
  - rewrite map_map. rewrite (map_ext _ tchar) by apply retid_char. done.
  - rewrite Forall_map. rewrite Forall_forall in *. intros k Hk. apply IH; auto.
  - rewrite Forall_map. eapply Forall_impl; [exact Hi|]. intros k Hk. unfold inhabited in *. destruct (retid_root m k) as [_ ->].
    destruct (renumbered_fields m (tptr k) (tnode k)) as (-> & _). intros E. apply Hk.
    destruct k as [q k ks]. cbn [retid kids] in *. by apply map_eq_nil in E.
  - rewrite El, Hl. unfold left_of. rewrite Et. destruct (isTerminalNode n); [done|]. destruct cs as [|k cs]; [done|]. cbn [map].
    destruct (retid_root m k) as [_ Ek]. destruct (renumbered_fields m (tptr k) (tnode k)) as (_ & _ & _ & _ & Ef & _).
    by rewrite Ek, Ef.
  - rewrite Er, Hr. unfold right_of. rewrite Et, retid_last. destruct (last cs) as [k|]; [|done]. change (retid m <$> Some k) with (Some (retid m k)).
    destruct (retid_root m k) as [_ Ek]. destruct (renumbered_fields m (tptr k) (tnode k)) as (_ & _ & _ & _ & _ & Ef & _).
    by rewrite Ek, Ef.
Qed.

(** Words and offsets stay. *)
Definition unnumbered (e : list Z * (Z * Z)) : list Z * Z := (e.1, e.2.2).

Lemma unnumbered_kid c l : map unnumbered (map (prefixed c) l) = map (fun e => (c :: e.1, e.2)) (map unnumbered l).
Proof. by rewrite !map_map. Qed.

Lemma retid_entries m t : map unnumbered (entries (retid m t)) = map unnumbered (entries t).
Proof.
  induction t as [p n cs IH] using tree_ind'. cbn [retid entries]. rewrite !map_app. f_equal.
  - unfold own. destruct (renumbered_fields m p n) as (-> & _ & _ & _ & _ & _ & Eo & _).
    destruct (isTerminalNode n); cbn; [|done]. by rewrite Eo.
  - induction IH as [|k cs Hk _ IH]; cbn [map flat_map]; [done|]. rewrite !map_app, IH. f_equal.
    by rewrite retid_char, !unnumbered_kid, Hk.
Qed.

Definition remark (m : mapper) (x : ptr * Z) : ptr * Z := (x.1, default x.2 (m !! x.1)).

Lemma retid_marks m t : marks (retid m t) = map (remark m) (marks t).
Proof.
  induction t as [p n cs IH] using tree_ind'. cbn [retid marks]. rewrite map_app. f_equal.
  - unfold mark. destruct (renumbered_fields m p n) as (-> & _ & _ & _ & _ & _ & _ & ->). by destruct (isTerminalNode n).
  - induction IH as [|k cs Hk _ IH]; cbn [map flat_map]; [done|]. by rewrite map_app, Hk, IH.
Qed.

Lemma retid_id m t j : (j < length (marks t))%nat -> ids (retid m t) !! j = Some (num t m j).
Proof.
  intros Hj. rewrite <- marks_ids, retid_marks. unfold num. destruct (lookup_lt_is_Some_2 _ _ Hj) as [[p i] Hp].
  rewrite !list_lookup_fmap_map, Hp. done.
Qed.


Definition old_id (h : heap) (p : ptr) : Z := match cells h !! p with Some n => id n | None => 0 end.

Lemma set_ids_run m l : forall s K, NoDup l -> NoDup (map (old_id (nodes s)) l) ->
  Forall (fun p => p <> NULL /\ is_Some (cells (nodes s) !! p) /\ is_Some (m !! p)) l ->
  exists h' K', set_ids l m K s = Ok (K', with_nodes s h') /\
    (forall p, cells h' !! p = (if decide (p ∈ l) then renumbered m p <$> cells (nodes s) !! p else cells (nodes s) !! p)) /\
    (store_wf (nodes s) -> store_wf h') /\
    (forall p, p ∈ l -> K' !! old_id (nodes s) p = m !! p) /\
    (forall x, x ∉ map (old_id (nodes s)) l -> K' !! x = K !! x).
Proof.
  induction l as [|p l IH]; intros s K Hnd Hno Hl; cbn [set_ids].
  { exists (nodes s), K. rewrite with_nodes_id. split; [done|]. split; [|split; [done|split; [|done]]].
    - intros p. destruct (decide _) as [Hin|]; [by apply not_elem_of_nil in Hin|done].
    - intros p Hin. by apply not_elem_of_nil in Hin. }
  apply NoDup_cons in Hnd as [Hp Hnd]. cbn [map] in Hno. apply NoDup_cons in Hno as [Hpo Hno].
  apply Forall_cons in Hl as [(Hp0 & [n Hn] & [i Hi]) Hl']. rewrite Hi. cbn [default].
  rewrite (bind_run _ _ _ _ _ (load_run s p n (proj2 (s_load_Ok _ _ _) (conj Hp0 Hn)))). set (n' := with_id n i).
  set (s1 := with_nodes s (update (nodes s) p n')).
  rewrite (bind_run (store_node p n') _ s tt s1)
    by (unfold store_node, bind, reads, lift; by rewrite (store_cell _ _ _ _ Hp0 Hn)).
  assert (forall q, q ∈ l -> cells (nodes s1) !! q = cells (nodes s) !! q) as Hsame.
  { intros q Hq. cbn. rewrite lookup_insert_ne; [done|]. by intros ->. }
  assert (map (old_id (nodes s1)) l = map (old_id (nodes s)) l) as Eold.
  { apply map_ext_in. intros q Hq%list_elem_of_In. unfold old_id. by rewrite Hsame. }
  destruct (IH s1 (<[id n := i]> K) Hnd) as (h' & K' & Hr & Hc & Hwf & Hin & Hout).
  { by rewrite Eold. } { rewrite Forall_forall in *. intros q Hq. rewrite Hsame by done. by apply Hl'. }
  rewrite Eold in Hout. assert (old_id (nodes s) p = id n) as Eo by (unfold old_id; by rewrite Hn).
  exists h', K'. split; [exact Hr|]. split; [|split; [|split]].
  - intros q. rewrite Hc. destruct (decide (q ∈ l)) as [Hq|Hq], (decide (q ∈ p :: l)) as [Hq'|Hq'].
    + by rewrite Hsame.
    + exfalso. apply Hq'. by right.
    + apply elem_of_cons in Hq' as [-> | Hq']; [|done]. cbn. rewrite lookup_insert_eq, Hn. cbn. unfold renumbered. by rewrite Hi.
    + cbn. apply lookup_insert_ne. intros <-. apply Hq'. by left.
  - intros Hw. apply Hwf. by eapply node_update_wf.
  - intros q [-> | Hq]%elem_of_cons.
    + rewrite Eo. rewrite Hout by (by rewrite <- Eo). by rewrite lookup_insert_eq.
    + rewrite <- Hin by done. unfold old_id. by rewrite Hsame.
  - intros x Hx. cbn [map] in Hx. apply not_elem_of_cons in Hx as [Hx1 Hx2]. rewrite Hout by done.
    apply lookup_insert_ne. rewrite <- Eo. by apply not_eq_sym.
Qed.

Lemma mapped_nodes_spec m p : p ∈ mapped_nodes m <-> is_Some (m !! p).
Proof. unfold mapped_nodes. rewrite (merge_sort_Permutation N.le), elem_of_elements. by rewrite elem_of_dom. Qed.

Lemma mapped_nodes_nodup m : NoDup (mapped_nodes m).
Proof. unfold mapped_nodes. rewrite (merge_sort_Permutation N.le). apply NoDup_elements. Qed.

(** The id of a mark is that of its node. *)
Lemma mark_old s t p i : steady s t -> (p, i) ∈ marks t -> old_id (nodes s) p = i /\ p <> NULL /\ is_Some (cells (nodes s) !! p).
Proof.
  intros [Hh _ _] Hin. destruct (marks_load _ _ (h_shape _ _ Hh) _ _ Hin) as (n & [Hp Hn]%s_load_Ok & <-).
  unfold old_id. rewrite Hn. split; [done|]. split; [done|by eexists].
Qed.

Lemma final_mark t m p : final_ids t m -> is_Some (m !! p) -> exists i, (p, i) ∈ marks t.
Proof.
  intros Hm [x Hx]. destruct (Hm _ _ Hx) as [_ Hin]. apply elem_of_lmap in Hin as ([q i] & -> & Hin). by exists i.
Qed.

(** All nodes of the mapper get their ids. *)
Lemma apply_ids_run s t m : steady s t -> final_ids t m -> NoDup (ids t) ->
  exists h' K, set_ids (mapped_nodes m) m ∅ s = Ok (K, with_nodes s h') /\ holds (with_nodes s h') (retid m t) /\
    forall j, (j < length (marks t))%nat -> default (num t ∅ j) (K !! num t ∅ j) = num t m j.
Proof.
  intros Hst Hm Hnd. pose proof (sy_holds _ _ Hst) as Hh.
  assert (forall p, p ∈ mapped_nodes m -> exists i, (p, i) ∈ marks t) as Hmk.
  { intros p Hp%mapped_nodes_spec. by eapply final_mark. }
  assert (forall p q i, (p, i) ∈ marks t -> (q, i) ∈ marks t -> p = q) as Hinj.
  { intros p q i [j Hj]%list_elem_of_lookup_1 [k Hk]%list_elem_of_lookup_1. rewrite <- marks_ids in Hnd.
    assert (j = k) as ->; [|congruence]. eapply (NoDup_lookup _ _ _ i Hnd); by rewrite list_lookup_fmap_map, ?Hj, ?Hk. }
  destruct (set_ids_run m (mapped_nodes m) s ∅ (mapped_nodes_nodup m)) as (h' & K & Hr & Hc & Hwf & Hin & Hout).
  - apply NoDup_fmap_2_strong; [|apply mapped_nodes_nodup]. intros p q Hp Hq E.
    destruct (Hmk p Hp) as [i Hpi], (Hmk q Hq) as [i' Hqi].
    destruct (mark_old s t p i Hst Hpi) as [E1 _], (mark_old s t q i' Hst Hqi) as [E2 _].
    apply (Hinj p q i); [done|]. by rewrite <- E1, E, E2.
  - apply Forall_forall. intros p Hp. destruct (Hmk p Hp) as [i Hpi]. destruct (mark_old s t p i Hst Hpi) as (_ & H1 & H2).
    split; [done|]. split; [done|by apply mapped_nodes_spec].
  - exists h', K. split; [exact Hr|]. split; [split|].
    + apply (retid_shape m (nodes s)); [|apply Hh]. intros p. cbn. rewrite Hc. destruct (decide _) as [|Hp]; [done|].
      rewrite mapped_nodes_spec in Hp. unfold renumbered. destruct (m !! p) eqn:E; [by destruct Hp|]. by destruct (cells (nodes s) !! p).
    + rewrite retid_ptrs. apply Hh.
    + apply Hwf. apply Hh.
    + intros j Hj. unfold num. destruct (lookup_lt_is_Some_2 _ _ Hj) as [[p i] Hp]. rewrite Hp, lookup_empty. cbn [default].
      pose proof (list_elem_of_lookup_2 _ _ _ Hp) as Hpi. destruct (mark_old s t p i Hst Hpi) as (Eo & _).
      destruct (decide (p ∈ mapped_nodes m)) as [Hpm|Hpm].
      * rewrite <- Eo at 2. by rewrite Hin.
      * rewrite Hout.
        -- rewrite mapped_nodes_spec in Hpm. rewrite lookup_empty. destruct (m !! p) eqn:E; [by destruct Hpm|done].
        -- intros (q & E & Hq)%elem_of_lmap. destruct (Hmk q Hq) as [i' Hqi].
           destruct (mark_old s t q i' Hst Hqi) as (E' & _). apply Hpm. rewrite E', <- E in *. by rewrite (Hinj p q i Hpi).
Qed.


(** ** The reassignment as a whole *)

(** The final ids of a list, and whether the two outermost leave room for all. *)
Definition kept_ids (l : list Z) : list Z := List.filter (fun i => i <=? MAX) l.
Definition enough_ids (l : list Z) : Prop :=
  Z.of_nat (length l) - 1 <= high_id (List.last l 0) - low_id (hd 0 l).

Lemma num_start t j x : ids t !! j = Some x -> num t ∅ j = x.
Proof.
  rewrite <- marks_ids, list_lookup_fmap_map. unfold num. destruct (marks t !! j) as [[p i]|]; [|done].
  rewrite lookup_empty. by intros [= ->].
Qed.

Lemma filter_order (P : Z -> bool) l : StronglySorted Z.lt (List.filter P l) -> forall j k x y,
  l !! j = Some x -> l !! k = Some y -> (j < k)%nat -> P x = true -> P y = true -> x < y.
Proof.
  induction l as [|a l IH]; intros Hs j k x y Hj Hk Hjk Hx Hy; [done|]. destruct k as [|k]; [lia|]. cbn in Hk.
  destruct j as [|j]; cbn in Hj.
  - injection Hj as ->. cbn in Hs. rewrite Hx in Hs. inversion_clear Hs as [|? ? _ Ha]. rewrite Forall_forall in Ha.
    apply Ha. apply list_elem_of_In, filter_In. split; [|done]. apply list_elem_of_In. by eapply list_elem_of_lookup_2.
  - apply (IH ltac:(cbn in Hs; destruct (P a); [by inversion Hs|done]) j k); try done. lia.
Qed.

Lemma ssorted_lookup (l : list Z) :
  (forall j k x y, (j < k)%nat -> l !! j = Some x -> l !! k = Some y -> x < y) -> StronglySorted Z.lt l.
Proof.
  induction l as [|a l IH]; intros H; constructor.
  - apply IH. intros j k x y Hjk Hj Hk. by apply (H (S j) (S k)); [lia|..].
  - apply Forall_lookup. intros k y Hk. by apply (H 0%nat (S k)); [lia|..].
Qed.

Lemma start_ordered t : Forall is_u32 (ids t) -> StronglySorted Z.lt (kept_ids (ids t)) -> enough_ids (ids t) ->
  ordered_ids (num t ∅) (length (marks t)).
Proof.
  intros Hu Hs Hroom. rewrite length_marks, <- length_ids.
  assert (forall j, (j < length (ids t))%nat -> ids t !! j = Some (num t ∅ j)) as Hn.
  { intros j [x Hx]%lookup_lt_is_Some_2. by rewrite (num_start _ _ _ Hx). }
  split.
  - intros j Hj. rewrite Forall_lookup in Hu. exact (Hu j _ (Hn j Hj)).
  - intros j k Hjk Hk Hfj Hfk. unfold temporary in *.
    apply (filter_order _ _ Hs j k); [apply Hn; lia|by apply Hn|done|apply Z.leb_le; lia..].
  - intros HN. unfold enough_ids in Hroom. pose proof (Hn 0%nat ltac:(lia)) as H0. pose proof (Hn (length (ids t) - 1)%nat ltac:(lia)) as H1.
    replace (Z.of_nat (length (ids t) - 1)) with (Z.of_nat (length (ids t)) - 1) by lia.
    assert (hd 0 (ids t) = num t ∅ 0%nat) as <- by (destruct (ids t); [done|by injection H0]).
    assert (List.last (ids t) 0 = num t ∅ (length (ids t) - 1)%nat) as <-; [|done].
    destruct (ids t) as [|a l] using rev_ind; [done|]. rewrite List.last_last. rewrite length_app in H1. cbn in H1.
    rewrite lookup_app_r in H1 by lia. replace (length l + 1 - 1 - length l)%nat with 0%nat in H1 by lia. rewrite length_app. by injection H1.
Qed.

Lemma steady_ext s s' t : nodes s' = nodes s -> steady s t -> steady s' t.
Proof. intros E [A B C]. split; [by eapply holds_ext|done|done]. Qed.

(** The paths that wait lead to keywords, and every temporary id waits. *)
Record waiting (t : tree) (l : list path) : Prop := {
  wt_paths : Forall (fun p => exists i, path_at t i p) l;
  wt_all : forall j x, ids t !! j = Some x -> temporary x -> exists p, p ∈ l /\ path_at t j p }.

Lemma reassign_run s t : steady s t -> waiting t (trieNodesToReassign s) ->
  Forall is_u32 (ids t) -> StronglySorted Z.lt (kept_ids (ids t)) -> enough_ids (ids t) ->
  exists m s', reassignKeywordIds s = Ok (m, s') /\ set_reassign [] s = Ok (tt, s') /\ final_ids t m /\
    ordered_ids (num t m) (length (marks t)) /\ forall j, (j < length (marks t))%nat -> ~ temporary (num t m j).
Proof.
  intros Hst [Hp Hall] Hu Hs Hroom. pose proof (start_ordered t Hu Hs Hroom) as Hoi.
  destruct (sort_paths_run (nodes s) (trieNodesToReassign s)) as (l & Hl & Hperm).
  { eapply Forall_impl; [exact Hp|]. intros p [i Hi]. eapply path_loads; [|exact Hi]. apply (sy_holds _ _ Hst). }
  destruct (reassign_loop_run s t l Hst) with (m := ∅ : mapper) as (m & Hr & Hm & Him & Hf); [by rewrite Hperm|by intros ? ?|done|].
  eexists m, _. split; [|split; [reflexivity|split; [done|split; [by apply Him|]]]].
  - unfold reassignKeywordIds. rewrite (bind_run (reads trieNodesToReassign) _ s _ s eq_refl).
    rewrite (bind_run _ _ _ _ _ (on_heap_run _ _ _ Hl)), (bind_run _ _ _ _ _ Hr). reflexivity.
  - intros j Hj. assert (exists x, ids t !! j = Some x) as [x Hx].
    { apply lookup_lt_is_Some_2. by rewrite length_ids, <- length_marks. }
    destruct (larger_spec (num t ∅ j)) as [Ht|Ht]; [|by apply (im_final _ _ _ Him)].
    rewrite (num_start _ _ _ Hx) in Ht. destruct (Hall j x Hx Ht) as (p & Hpl & Hpj). apply (Hf p j); [by rewrite Hperm|done].
Qed.


Lemma mapped_empty_run s (K : gmap Z Z) : exists s', applyKeywordIdMapperOnEmptyLeafNodes K s = Ok (tt, s') /\
  nodes s' = nodes s /\ root_writeview s' = root_writeview s /\ trieNodesToReassign s' = trieNodesToReassign s /\
  emptyLeafNodeIds s' = map (fun i => default i (K !! i)) (emptyLeafNodeIds s).
Proof. by eexists. Qed.

Lemma represents_moved s s' t : nodes s' = nodes s -> root_writeview s' = root_writeview s -> represents s t -> represents s' t.
Proof. intros En Ew [A B C]. split; [by eapply holds_ext|by rewrite Ew|done]. Qed.

(** (C24) The reassignment of ids before a merge ends, whatever temporary ids there
    are, as long as the outermost ids leave an id for every keyword: afterwards no
    id is temporary, the ids grow with the words, the words and their inverted lists
    are what they were, nothing waits any more, and the ids of the empty leaves have
    followed their keywords. *)
Theorem reassignment_orders_ids (s : trie) (t : tree) (changeLists : mapper -> gmap Z Z -> tst unit) :
  (forall m k s, changeLists m k s = Ok (tt, s)) -> represents s t -> isTerminalNode (tnode t) = false ->
  waiting t (trieNodesToReassign s) -> Forall is_u32 (ids t) -> NoDup (ids t) ->
  StronglySorted Z.lt (kept_ids (ids t)) -> enough_ids (ids t) ->
  exists s' t' f, IndexData_reassignKeywordIds changeLists s = Ok (tt, s') /\ represents s' t' /\ ordered t' /\
    Forall (fun i => 0 <= i <= MAX) (ids t') /\ map unnumbered (entries t') = map unnumbered (entries t) /\
    trieNodesToReassign s' = [] /\ emptyLeafNodeIds s' = map f (emptyLeafNodeIds s) /\
    forall j x y, ids t !! j = Some x -> ids t' !! j = Some y -> f x = y.
Proof.
  intros Hcl [Hh Hroot Hw] Htop Hwt Hu Hnd Hs Hroom. assert (steady s t) as Hst by done.
  destruct (reassign_run s t Hst Hwt Hu Hs Hroom) as (m & s1 & Hr1 & Hset & Hm & [Hrg Hord _] & Hfin).
  injection Hset as Es1. assert (steady s1 t) as Hst1 by (apply (steady_ext s); [by rewrite <- Es1|done]).
  destruct (apply_ids_run s1 t m Hst1 Hm Hnd) as (h' & K & Hr2 & Hh2 & HK).
  set (s2 := with_nodes s1 h') in *. destruct (mapped_empty_run s2 K) as (s3 & Hr3 & En & Ew & Eq & Ee).
  assert (forall j y, ids (retid m t) !! j = Some y -> (j < length (marks t))%nat /\ y = num t m j) as Hids.
  { intros j y Hy. assert (j < length (marks t))%nat as Hj.
    { apply lookup_lt_Some in Hy. by rewrite <- marks_ids, retid_marks, !length_map in Hy. }
    rewrite retid_id in Hy by done. by injection Hy. }
  exists s3, (retid m t), (fun i => default i (K !! i)). split; [|split; [|split; [|split; [|split; [|split; [|split]]]]]].
  - unfold IndexData_reassignKeywordIds. rewrite (bind_run _ _ _ _ _ Hr1), (bind_run _ _ _ _ _ Hr2), (bind_run _ _ _ _ _ (Hcl m K s2)). exact Hr3.
  - apply (represents_moved s2); [done|done|]. split; [done| |by apply retid_wf].
    destruct (retid_root m t) as [-> _]. change (root_writeview s2) with (root_writeview s1). by rewrite Hroot, <- Es1.
  - apply ssorted_lookup. intros j k x y Hjk [Hj ->]%Hids [Hk ->]%Hids. by apply Hord; [| |apply Hfin..].
  - apply Forall_lookup. intros j y [Hj ->]%Hids. specialize (Hrg j Hj). specialize (Hfin j Hj). unfold temporary in Hfin. lia.
  - apply retid_entries.
  - rewrite Eq. change (trieNodesToReassign s2) with (trieNodesToReassign s1). by rewrite <- Es1.
  - rewrite Ee. change (emptyLeafNodeIds s2) with (emptyLeafNodeIds s1). by rewrite <- Es1.
  - intros j x y Hx%num_start [Hj ->]%Hids. rewrite <- (HK j Hj). by rewrite Hx.
Qed.

(** A keyword after the last one has a temporary id. *)
Definition reassign_demo : trie :=
  match addKeyword_ThreadSafe [99] false false loaded_demo with Ok (_, s) => s | Err _ => loaded_demo end.
Definition reassign_demo_tree : tree :=
  match read_tree 9 (nodes reassign_demo) (root_writeview reassign_demo) with Ok t => t | Err _ => demo_tree end.
Definition reassign_demo_ctx : list frame :=
  match reassign_demo_tree with Tree p n [x; y; z] => [mk_frame p n [x; y] []] | _ => [] end.
Definition reassign_demo_kid : tree :=
  match reassign_demo_tree with Tree p n [x; y; z] => z | t => t end.

Lemma reassign_demo_represents : represents reassign_demo reassign_demo_tree.
Proof.
  split; [split| |].
  - apply (read_tree_shape 9 _ (root_writeview reassign_demo)). vm_compute. reflexivity.
  - apply (bool_decide_unpack _). vm_compute. exact I.
  - split; [vm_compute; reflexivity|]. intros p Hp. apply elem_of_dom in Hp.
    change (p ∈ dom (cells (nodes reassign_demo))) in Hp. apply elem_of_elements in Hp. revert p Hp.
    apply Forall_forall. apply (bool_decide_unpack _). vm_compute. exact I.
  - vm_compute. reflexivity.
  - apply wfb_sound. vm_compute. reflexivity.
Qed.

Lemma reassign_demo_ids : ids reassign_demo_tree = [536862720; 1073725440; 1610588160; 4294901761].
Proof. vm_compute. reflexivity. Qed.

Lemma reassign_demo_path : path_at reassign_demo_tree 3 (default [] (head (trieNodesToReassign reassign_demo))).
Proof. exists reassign_demo_ctx, reassign_demo_kid. split; [|split; [|split]]; vm_compute; reflexivity. Qed.

Lemma reassign_demo_one : trieNodesToReassign reassign_demo = [default [] (head (trieNodesToReassign reassign_demo))].
Proof. vm_compute. reflexivity. Qed.

Lemma reassign_demo_waiting : waiting reassign_demo_tree (trieNodesToReassign reassign_demo).
Proof.
  rewrite reassign_demo_one. split.
  - apply Forall_singleton. exists 3%nat. exact reassign_demo_path.
  - intros j x Hj Hx. rewrite reassign_demo_ids in Hj. unfold temporary in Hx.
    destruct j as [|[|[|[|j]]]]; cbn in Hj; try (injection Hj as <-; vm_compute in Hx; discriminate).
    + eexists. split; [apply list_elem_of_singleton; reflexivity|exact reassign_demo_path].
    + discriminate Hj.
Qed.

Lemma reassignment_orders_ids_witness : exists s' t',
  IndexData_reassignKeywordIds (fun _ _ => ret tt) reassign_demo = Ok (tt, s') /\ represents s' t' /\ ordered t' /\
  trieNodesToReassign s' = [].
Proof.
  destruct (reassignment_orders_ids reassign_demo reassign_demo_tree (fun _ _ => ret tt)) as (s' & t' & f & Hr & Hrep & Ho & _ & _ & Hw & _).
  - reflexivity.
  - exact reassign_demo_represents.
  - vm_compute. reflexivity.
  - exact reassign_demo_waiting.
  - rewrite reassign_demo_ids. unfold is_uint. repeat constructor; lia.
  - rewrite reassign_demo_ids. apply (bool_decide_unpack _). vm_compute. exact I.
  - rewrite reassign_demo_ids. vm_compute. repeat constructor.
  - rewrite reassign_demo_ids. unfold enough_ids. vm_compute. discriminate.
  - exists s', t'. split; [exact Hr|]. split; [exact Hrep|]. split; [exact Ho|exact Hw].
Defined.

(** ** When the ids run out *)

Definition add_keyword (w : list Z) : tst unit :=
  let! _ := addKeyword_ThreadSafe w false false in ret tt.

(** Two keywords in an empty trie get the least and the greatest id.  Once the
    second is removed and a keyword comes before the first, there is no id for it,
    and the reassignment ends in its assertion. *)
Lemma reassignment_without_room :
  (commit ;;; finalCommit_finalizeHistogramInformation (ret tt) ;;;
   add_keyword [98] ;;; add_keyword [100] ;;;
   IndexData_reassignKeywordIds (fun _ _ => ret tt) ;;; merge (ret tt) ;;;
   addEmptyLeafNodeId MAX ;;; removeDeletedNodes ;;;
   add_keyword [97] ;;; IndexData_reassignKeywordIds (fun _ _ => ret tt)) new_trie = Err AssertFailed.
Proof. vm_compute. reflexivity. Qed.

End TrieReassign.
