(* ===== verification/EditDistance.v ===== *)
(** * Edit distance, and its computation over matched characters

    The reference definition of the Levenshtein distance [lev] (insertions,
    deletions and substitutions of one character cost 1), and the alternative view
    on which the fuzzy search is built: an alignment is determined by the
    characters it matches, and between two matches the cheapest script costs the
    length of the longer gap ([matched], [lev_matched]). *)
From S2P Require Import Prelude.
From Stdlib Require Import ZArith Lia List Bool.
From stdpp Require Import base list.
Open Scope Z_scope.

Module EditDistance.

Definition len {A} (l : list A) : Z := Z.of_nat (length l).

Lemma len_app {A} (u v : list A) : len (u ++ v) = len u + len v.
Proof. unfold len. rewrite length_app. lia. Qed.
Lemma len_cons {A} (a : A) u : len (a :: u) = len u + 1.
Proof. unfold len. cbn. lia. Qed.
Lemma len_nil {A} : len (@nil A) = 0.
Proof. done. Qed.
Lemma len_nonneg {A} (u : list A) : 0 <= len u.
Proof. unfold len. lia. Qed.
Lemma len_zero {A} (u : list A) : len u = 0 -> u = [].
Proof. unfold len. destruct u; cbn; [done|lia]. Qed.

#[global] Hint Rewrite @len_app @len_cons @len_nil : len.
Ltac len_fact u := lazymatch goal with H : 0 <= len u |- _ => fail | _ => pose proof (len_nonneg u) end.
Ltac lens := autorewrite with len in *;
  repeat match goal with
    | |- context [len ?u] => len_fact u
    | _ : context [len ?u] |- _ => len_fact u
    end; try lia.

Fixpoint lev (u v : list Z) : Z :=
  match u with
  | [] => len v
  | a :: u' =>
      (fix row (v : list Z) : Z :=
         match v with
         | [] => len u
         | b :: v' => Z.min ((if a =? b then 0 else 1) + lev u' v') (1 + Z.min (lev u' v) (row v'))
         end) v
  end.

Lemma lev_nil_r u : lev u [] = len u.
Proof. by destruct u. Qed.

Lemma lev_cons a u b v : lev (a :: u) (b :: v) =
  Z.min ((if a =? b then 0 else 1) + lev u v) (1 + Z.min (lev u (b :: v)) (lev (a :: u) v)).
Proof. done. Qed.

(** ** Edit scripts *)

Inductive edits : list Z -> list Z -> Z -> Prop :=
  | edits_nil : edits [] [] 0
  | edits_keep a u v k : edits u v k -> edits (a :: u) (a :: v) k
  | edits_change a b u v k : edits u v k -> edits (a :: u) (b :: v) (k + 1)
  | edits_drop a u v k : edits u v k -> edits (a :: u) v (k + 1)
  | edits_insert b u v k : edits u v k -> edits u (b :: v) (k + 1).

Lemma edits_inserts v : edits [] v (len v).
Proof. induction v as [|b v IH]; [constructor|]. rewrite len_cons. by constructor. Qed.
Lemma edits_drops u : edits u [] (len u).
Proof. induction u as [|a u IH]; [constructor|]. rewrite len_cons. by constructor. Qed.

Lemma lev_edits u v : edits u v (lev u v).
Proof.
  revert v. induction u as [|a u IH]; intros v; [apply edits_inserts|].
  induction v as [|b v IHv]; [rewrite lev_nil_r; apply edits_drops|]. rewrite lev_cons.
  destruct (Z.min_spec ((if a =? b then 0 else 1) + lev u v) (1 + Z.min (lev u (b :: v)) (lev (a :: u) v))) as [[_ ->]|[_ ->]].
  - destruct (Z.eqb_spec a b) as [<-|_]; [by constructor|]. rewrite Z.add_comm. by constructor.
  - rewrite Z.add_comm. destruct (Z.min_spec (lev u (b :: v)) (lev (a :: u) v)) as [[_ ->]|[_ ->]]; by constructor.
Qed.

Lemma lev_step_l a u v : lev (a :: u) v <= 1 + lev u v.
Proof. destruct v as [|b v]; [rewrite !lev_nil_r; lens|]. rewrite lev_cons. lia. Qed.
Lemma lev_step_r b u v : lev u (b :: v) <= 1 + lev u v.
Proof. destruct u as [|a u]; [cbn; lens|]. rewrite lev_cons. lia. Qed.

Lemma lev_least u v k : edits u v k -> lev u v <= k.
Proof.
  induction 1 as [|a u v k _ IH|a b u v k _ IH|a u v k _ IH|b u v k _ IH].
  - done.
  - rewrite lev_cons, Z.eqb_refl. lia.
  - rewrite lev_cons. destruct (a =? b); lia.
  - pose proof (lev_step_l a u v). lia.
  - pose proof (lev_step_r b u v). lia.
Qed.

Lemma edits_lengths u v k : edits u v k -> len u - len v <= k /\ len v - len u <= k.
Proof. induction 1; lens. Qed.

Lemma edits_app u v k u' v' k' : edits u v k -> edits u' v' k' -> edits (u ++ u') (v ++ v') (k + k').
Proof.
  assert (forall k, k + 1 + k' = k + k' + 1) as Hk by lia.
  intros H H'. induction H; cbn; rewrite ?Hk; [done|by constructor..].
Qed.

(** The cheapest script without a match. *)
Lemma edits_gap u v : edits u v (Z.max (len u) (len v)).
Proof.
  revert v. induction u as [|a u IH]; intros v.
  - rewrite len_nil, Z.max_r by lens. apply edits_inserts.
  - destruct v as [|b v]; [rewrite len_nil, Z.max_l by lens; apply edits_drops|].
    rewrite !len_cons. replace (Z.max (len u + 1) (len v + 1)) with (Z.max (len u) (len v) + 1) by lia. by constructor.
Qed.

(** ** Alignments that end in a match *)

(** Both lists are empty, or they end in the same character, which a script of
    cost [e] keeps. *)
Inductive matched : list Z -> list Z -> Z -> Prop :=
  | matched_nil : matched [] [] 0
  | matched_step q s e u v c : matched q s e ->
      matched (q ++ u ++ [c]) (s ++ v ++ [c]) (e + Z.max (len u) (len v)).

Lemma matched_edits q s e : matched q s e -> edits q s e.
Proof.
  induction 1 as [|q s e u v c _ IH]; [constructor|]. apply edits_app; [done|].
  rewrite <- (Z.add_0_r (Z.max _ _)). apply edits_app; [apply edits_gap|]. repeat constructor.
Qed.

Lemma matched_nonneg q s e : matched q s e -> 0 <= e.
Proof. induction 1; lens. Qed.

Lemma matched_zero q s e : matched q s e -> e = 0 -> q = s.
Proof.
  induction 1 as [|q s e u v c H IH]; intros E; [done|]. pose proof (matched_nonneg _ _ _ H).
  pose proof (len_nonneg u). pose proof (len_nonneg v).
  rewrite (len_zero u), (len_zero v) by lia. cbn. by rewrite IH by lia.
Qed.

(** A script of cost at most [k] up to the last match and the gaps after it. *)
Record near (q s : list Z) (k : Z) : Prop := Near {
  n_parts : exists q0 u s0 v e, q = q0 ++ u /\ s = s0 ++ v /\ matched q0 s0 e /\ e + Z.max (len u) (len v) <= k }.

Lemma near_mono q s k k' : near q s k -> k <= k' -> near q s k'.
Proof. intros [(q0 & u & s0 & v & e & -> & -> & H & Hk)] Hle. split. exists q0, u, s0, v, e. repeat split; try done. lia. Qed.

Lemma near_gap q s k u v : near q s k -> Z.max (len u) (len v) <= 1 -> near (q ++ u) (s ++ v) (k + 1).
Proof.
  intros [(q0 & u0 & s0 & v0 & e & -> & -> & H & Hk)] Huv. split.
  exists q0, (u0 ++ u), s0, (v0 ++ v), e. rewrite <- !app_assoc. repeat split; try done. lens.
Qed.

Lemma near_match q s k c : near q s k -> near (q ++ [c]) (s ++ [c]) k.
Proof.
  intros [(q0 & u0 & s0 & v0 & e & -> & -> & H & Hk)]. split.
  exists (q0 ++ u0 ++ [c]), [], (s0 ++ v0 ++ [c]), [], (e + Z.max (len u0) (len v0)).
  rewrite !app_nil_r, <- !app_assoc. repeat split; [by constructor|]. lens.
Qed.

Lemma edits_near u v k : edits u v k -> forall q s j, near q s j -> near (q ++ u) (s ++ v) (j + k).
Proof.
  assert (forall (q : list Z) a u, q ++ a :: u = (q ++ [a]) ++ u) as Hc by (intros; by rewrite <- app_assoc).
  assert (forall j k : Z, j + (k + 1) = j + 1 + k) as Hj by lia.
  induction 1 as [|a u v k _ IH|a b u v k _ IH|a u v k _ IH|b u v k _ IH]; intros q s j Hn; cbn [app].
  - rewrite !app_nil_r. by apply (near_mono _ _ j); [|lia].
  - rewrite (Hc q), (Hc s). apply IH. by apply near_match.
  - rewrite (Hc q), (Hc s), Hj. apply IH. by apply near_gap.
  - rewrite (Hc q), Hj. apply IH. rewrite <- (app_nil_r s). by apply near_gap.
  - rewrite (Hc s), Hj. apply IH. rewrite <- (app_nil_r q). by apply near_gap.
Qed.

(** The distance is the least cost of an alignment given by its matches. *)
Lemma lev_matched q s k : lev q s <= k <-> near q s k.
Proof.
  split.
  - intros Hk. eapply near_mono; [|exact Hk]. apply (edits_near _ _ _ (lev_edits q s) [] [] 0). split.
    exists [], [], [], [], 0. repeat split; try done; constructor.
  - intros [(q0 & u & s0 & v & e & -> & -> & H & Hk)]. etransitivity; [|exact Hk]. apply lev_least.
    apply edits_app; [by apply matched_edits|apply edits_gap].
Qed.

Lemma lev_length q s : len q - len s <= lev q s.
Proof. apply (edits_lengths _ _ _ (lev_edits q s)). Qed.

Lemma lev_nonneg q s : 0 <= lev q s.
Proof. pose proof (edits_lengths _ _ _ (lev_edits q s)). lia. Qed.

End EditDistance.
