(* ===== verification/ActiveNode.v ===== *)
(** * Active nodes: fuzzy prefix matching on the trie
      (core/operation/ActiveNode.cpp, ActiveNode.h, PrefixActiveNodeSet)

    The set of pivotal active nodes for a query prefix is computed from that of
    the prefix without its last character.  A node is active when its string ends in a character
    that an alignment matches with one of the query; [differ] counts the characters of
    the query after it, and [editdistanceofPrefix] the operations before it. *)
From S2P Require Import Prelude TrieNode Trie TrieTree TrieInsert EditDistance.
From Stdlib Require Import ZArith Lia List Bool Sorted.
From stdpp Require Import base gmap list fin_maps sorting.
Open Scope Z_scope.

Module ActiveNode.
Import TrieNode Trie TrieTree TrieInsert EditDistance.

Definition CHARTYPE_FUZZY_UPPERBOUND : Z := 128.

Record PivotalActiveNode := mk_pan {
  transformationdistance : Z;
  differ : Z;
  editdistanceofPrefix : Z }.

#[global] Instance PivotalActiveNode_eq_dec : EqDecision PivotalActiveNode.
Proof. solve_decision. Defined.

(** [std::map<const TrieNode*, A>] *)
Abbreviation node_map := (gmap ptr).

Record PrefixActiveNodeSet := mk_set {
  prefix : list Z;
  editDistanceThreshold : Z;
  flagResultsCached : bool;
  trieRootNodeSharedPtr : ptr;        (* the view of the trie *)
  supportSwapInEditDistance : bool;
  PANMap : node_map PivotalActiveNode;
  trieNodeSetVector : list (list ptr);
  trieNodeSetVectorComputed : bool }.

Definition init (prefix : list Z) (editDistanceThreshold : Z) (trieRootNodeSharedPtr : ptr) (swap : bool) : PrefixActiveNodeSet :=
  mk_set prefix editDistanceThreshold false trieRootNodeSharedPtr swap ∅ [] false.

(** A changed map makes the vector of the iterators stale. *)
Definition with_map (s : PrefixActiveNodeSet) (m : node_map PivotalActiveNode) (computed : bool) : PrefixActiveNodeSet :=
  mk_set (prefix s) (editDistanceThreshold s) (flagResultsCached s) (trieRootNodeSharedPtr s)
    (supportSwapInEditDistance s) m (trieNodeSetVector s) computed.

Definition _addPAN (trieNode : ptr) (pan : PivotalActiveNode) (s : PrefixActiveNodeSet) : PrefixActiveNodeSet :=
  if editDistanceThreshold s <? transformationdistance pan then s
  else
    match PANMap s !! trieNode with
    | Some old =>
        if transformationdistance pan <? transformationdistance old
        then with_map s (<[trieNode := pan]> (PANMap s)) (trieNodeSetVectorComputed s)
        else if (transformationdistance old =? transformationdistance pan) &&
                ((differ old <? differ pan) || (editdistanceofPrefix pan <? editdistanceofPrefix old))
        then with_map s (<[trieNode := pan]> (PANMap s)) (trieNodeSetVectorComputed s)
        else s
    | None => with_map s (<[trieNode := pan]> (PANMap s)) false
    end.

(** The set for the empty prefix: the constructors from a view of the trie. *)
Definition new_set (views : store view) (tsPtr : ptr) (editDistanceThreshold : Z) (swap : bool) : result PrefixActiveNodeSet :=
  let? v := s_load views tsPtr in
  Ok (_addPAN (root v) (mk_pan 0 0 0) (init [] editDistanceThreshold tsPtr swap)).

(** The entries of a map in the order of its keys, the addresses. *)
Definition in_address_order {A} (m : node_map A) : list (ptr * A) :=
  omap (fun p => pair p <$> m !! p) (merge_sort N.le (elements (dom m))).

(** ** One more character *)

(** [panlocal], for a match [max] operations after the node. *)
Definition match_pan (pan : PivotalActiveNode) (max : Z) : PivotalActiveNode :=
  mk_pan (wrap32 (editdistanceofPrefix pan + max)) 0 (wrap16 (editdistanceofPrefix pan + max)).

(** The swap of the last two characters; [child] is overwritten by its child. *)
Definition add_swap (h : heap) (s : PrefixActiveNodeSet) (pan panlocal : PivotalActiveNode) (child : ptr)
    (newActiveNodeSet : PrefixActiveNodeSet) : result (ptr * PrefixActiveNodeSet) :=
  match last (prefix s) with
  | Some back =>
      if supportSwapInEditDistance s && (0 <? differ pan) then
        let? ch := s_load h child in
        let? childPosition := findChildNodePosition h ch back in
        if 0 <=? childPosition then
          let? grandchild := getChild ch childPosition in
          Ok (grandchild, _addPAN grandchild panlocal newActiveNodeSet)
        else Ok (child, newActiveNodeSet)
      else Ok (child, newActiveNodeSet)
  | None => Ok (child, newActiveNodeSet)
  end.

(** The loop over the children; [visit] is the recursive call. *)
Fixpoint children_loop (visit : ptr -> PrefixActiveNodeSet -> result PrefixActiveNodeSet) (h : heap)
    (s : PrefixActiveNodeSet) (pan panlocal : PivotalActiveNode) (curDepth depthLimit additionalChar : Z)
    (children : list ptr) (newActiveNodeSet : PrefixActiveNodeSet) : result PrefixActiveNodeSet :=
  match children with
  | [] => Ok newActiveNodeSet
  | child :: children' =>
      let? ch := s_load h child in
      if CHARTYPE_FUZZY_UPPERBOUND <=? character ch then Ok newActiveNodeSet
      else
        let? (child, newActiveNodeSet) :=
          if character ch =? additionalChar
          then add_swap h s pan panlocal child (_addPAN child panlocal newActiveNodeSet)
          else Ok (child, newActiveNodeSet) in
        let? newActiveNodeSet :=
          if curDepth <? depthLimit then visit child newActiveNodeSet else Ok newActiveNodeSet in
        children_loop visit h s pan panlocal curDepth depthLimit additionalChar children' newActiveNodeSet
  end.

Fixpoint addPANUpToDepth (fuel : nat) (h : heap) (s : PrefixActiveNodeSet) (trieNode : ptr) (pan : PivotalActiveNode)
    (curDepth depthLimit additionalChar : Z) (newActiveNodeSet : PrefixActiveNodeSet) : result PrefixActiveNodeSet :=
  match fuel with
  | O => Err OutOfFuel
  | S fuel' =>
      let? n := s_load h trieNode in
      let max := if curDepth <? differ pan then differ pan else curDepth in
      let panlocal := match_pan pan max in
      if (CHARTYPE_FUZZY_UPPERBOUND <=? additionalChar) || (depthLimit =? 0) then
        let? childPosition := findChildNodePosition h n additionalChar in
        if 0 <=? childPosition then
          let? child := getChild n childPosition in Ok (_addPAN child panlocal newActiveNodeSet)
        else Ok newActiveNodeSet
      else
        children_loop (fun child new => addPANUpToDepth fuel' h s child pan (wrap32 (curDepth + 1)) depthLimit additionalChar new)
          h s pan panlocal curDepth depthLimit additionalChar (childrenPointerList n) newActiveNodeSet
  end.

Definition _addPANSetForOneNode (h : heap) (s : PrefixActiveNodeSet) (trieNode : ptr) (pan : PivotalActiveNode)
    (additionalChar : Z) (newActiveNodeSet : PrefixActiveNodeSet) : result PrefixActiveNodeSet :=
  let newActiveNodeSet :=
    if additionalChar <? CHARTYPE_FUZZY_UPPERBOUND
    then _addPAN trieNode (mk_pan (wrap32 (transformationdistance pan + 1)) (wrap16 (differ pan + 1))
           (editdistanceofPrefix pan)) newActiveNodeSet
    else newActiveNodeSet in
  let depthLimit := wrap32 (editDistanceThreshold s - editdistanceofPrefix pan) in
  addPANUpToDepth (S (size (cells h))) h s trieNode pan 0 depthLimit additionalChar newActiveNodeSet.

Definition computeActiveNodeSetIncrementally (h : heap) (s : PrefixActiveNodeSet) (additionalChar : Z) : result PrefixActiveNodeSet :=
  fold_res (in_address_order (PANMap s))
    (fun new e => _addPANSetForOneNode h s e.1 e.2 additionalChar new)
    (init (prefix s ++ [additionalChar]) (editDistanceThreshold s) (trieRootNodeSharedPtr s) (supportSwapInEditDistance s)).

(** The set of a whole prefix, character by character. *)
Definition active_nodes (h : heap) (s : PrefixActiveNodeSet) (query : list Z) : result PrefixActiveNodeSet :=
  fold_res query (fun s c => computeActiveNodeSetIncrementally h s c) s.

(** ** The nodes an additional character leads to *)

Lemma subtree_app w v t : subtree t (w ++ v) = match subtree t w with Some k => subtree k v | None => None end.
Proof. revert t. induction w as [|c w IH]; intros t; cbn; [done|]. by destruct (List.find _ (kids t)). Qed.

Lemma kid_subtree k x w : StronglySorted Z.lt (map tchar (kids k)) -> x ∈ kids k ->
  subtree k (tchar x :: w) = subtree x w.
Proof. intros Hs (l & r & E)%list_elem_of_split. cbn. rewrite E in *. by rewrite kid_present. Qed.

Lemma subtree_kid k c w k' : subtree k (c :: w) = Some k' ->
  exists x, x ∈ kids k /\ tchar x = c /\ subtree x w = Some k'.
Proof.
  cbn. destruct (List.find _ (kids k)) as [x|] eqn:E; [|done]. apply find_some in E as [Hin Hc%Z.eqb_eq].
  intros H. exists x. by rewrite list_elem_of_In.
Qed.

Lemma child_run h d k c : shape h k -> wf d k ->
  exists pos, findChildNodePosition h (tnode k) c = Ok pos /\
    if 0 <=? pos then exists x, getChild (tnode k) pos = Ok (tptr x) /\ x ∈ kids k /\ tchar x = c
    else subtree k [c] = None.
Proof.
  intros Hk Hw. destruct (find_kid _ _ c Hk (wf_kids _ _ Hw)) as (pos & Hf & Hcase). exists pos. split; [done|].
  destruct Hcase as [(l & x & r & E & Hx & ->)|(l & r & E & -> & Hsort)].
  - destruct (Z.leb_spec 0 (Z.of_nat (length l))); [|lia]. exists x. split; [|split; [rewrite E; set_solver|done]].
    unfold getChild. assert (childrenPointerList (tnode k) = map tptr (kids k)) as -> by (by inversion Hk).
    rewrite E, map_app. cbn [map]. rewrite <- (length_map tptr l). apply vec_at_app.
  - destruct (Z.leb_spec 0 (- (Z.of_nat (length l) + 1))); [lia|]. cbn. by rewrite E, kid_absent.
Qed.

(** What is offered to the new set, in order. *)
Definition adds (l : list (ptr * PivotalActiveNode)) (s : PrefixActiveNodeSet) : PrefixActiveNodeSet :=
  fold_left (fun s x => _addPAN x.1 x.2 s) l s.

Lemma adds_app l l' s : adds (l ++ l') s = adds l' (adds l s).
Proof. apply fold_left_app. Qed.

Definition plain (w : list Z) : Prop := Forall (fun c => c < CHARTYPE_FUZZY_UPPERBOUND) w.

(** The strings passed on the way down in [L] recursive calls: a call goes to a
    child, or, after a swap, to a grandchild. *)
Inductive descends (c : Z) (back : option Z) : Z -> list Z -> Prop :=
  | descends_here : descends c back 0 []
  | descends_child x L v : descends c back L v -> descends c back (L + 1) (x :: v)
  | descends_swap a L v : back = Some a -> descends c back L v -> descends c back (L + 1) (c :: a :: v).

Lemma descends_nonneg c back L v : descends c back L v -> 0 <= L.
Proof. induction 1; lia. Qed.

Lemma descends_plain c L v : descends c None L v -> len v = L.
Proof. induction 1; lens; done. Qed.

Section Visit.
Context (h : heap) (s : PrefixActiveNodeSet) (pan : PivotalActiveNode) (depthLimit c : Z).

(** The character that a swap puts after [c]. *)
Definition swapped : option Z :=
  if supportSwapInEditDistance s && (0 <? differ pan) then last (prefix s) else None.

Definition pan_at (depth : Z) : PivotalActiveNode := match_pan pan (Z.max (differ pan) depth).

(** [x] is offered for a match below [k], whose depth is [depth]. *)
Definition offered (depth : Z) (k : tree) (x : ptr * PivotalActiveNode) : Prop :=
  exists L v e k', descends c swapped L v /\ depth + L <= depthLimit /\ (e = [c] \/ exists a, swapped = Some a /\ e = [c; a]) /\
    subtree k (v ++ e) = Some k' /\ x = (tptr k', pan_at (depth + L)).

(** Every match below [k] within the limit is offered. *)
Definition all_offered (depth : Z) (k : tree) (l : list (ptr * PivotalActiveNode)) : Prop :=
  forall v k', plain (v ++ [c]) -> subtree k (v ++ [c]) = Some k' -> depth + len v <= depthLimit ->
  (tptr k', pan_at (depth + len v)) ∈ l.

Record visited (depth : Z) (k : tree) (l : list (ptr * PivotalActiveNode)) : Prop := {
  vi_sound : Forall (offered depth k) l;
  vi_complete : swapped = None -> all_offered depth k l }.

(** The same for one child of a node, seen from the node. *)
Definition offered_kid (depth : Z) (x : tree) (y : ptr * PivotalActiveNode) : Prop :=
  exists L v e w k', descends c swapped L v /\ depth + L <= depthLimit /\ (e = [c] \/ exists a, swapped = Some a /\ e = [c; a]) /\
    v ++ e = tchar x :: w /\ subtree x w = Some k' /\ y = (tptr k', pan_at (depth + L)).

Definition all_offered_kid (depth : Z) (x : tree) (l : list (ptr * PivotalActiveNode)) : Prop :=
  forall v w k', plain (v ++ [c]) -> v ++ [c] = tchar x :: w -> subtree x w = Some k' -> depth + len v <= depthLimit ->
  (tptr k', pan_at (depth + len v)) ∈ l.

Record visited_kids (depth : Z) (cs : list tree) (l : list (ptr * PivotalActiveNode)) : Prop := {
  vk_sound : Forall (fun y => exists x, x ∈ cs /\ offered_kid depth x y) l;
  vk_complete : swapped = None -> Forall (fun x => all_offered_kid depth x l) cs }.

Lemma visited_node depth k l : StronglySorted Z.lt (map tchar (kids k)) ->
  visited_kids depth (kids k) l -> visited depth k l.
Proof.
  intros Hs [H1 H2]. split.
  - eapply Forall_impl; [exact H1|]. intros y (x & Hx & L & v & e & w & k' & Hd & HL & He & Ew & Hk & ->).
    exists L, v, e, k'. repeat split; try done. by rewrite Ew, kid_subtree.
  - intros Hsw v k' Hp Hk HL. specialize (H2 Hsw). rewrite Forall_forall in H2.
    assert (exists a w, v ++ [c] = a :: w) as (a & w & E) by (destruct v; cbn; eauto).
    rewrite E in Hk. destruct (subtree_kid _ _ _ _ Hk) as (x & Hx & <- & Hk'). by apply (H2 x Hx v w).
Qed.

Lemma offered_below depth x y : offered (depth + 1) x y -> offered_kid depth x y.
Proof.
  intros (L & v & e & k' & Hd & HL & He & Hk & ->). exists (L + 1), (tchar x :: v), e, (v ++ e), k'.
  split; [by constructor|]. split; [lia|]. split; [done|]. split; [done|]. split; [done|].
  by replace (depth + (L + 1)) with (depth + 1 + L) by lia.
Qed.

Lemma offered_skip depth x g a y : swapped = Some a -> StronglySorted Z.lt (map tchar (kids x)) -> tchar x = c ->
  g ∈ kids x -> tchar g = a -> offered (depth + 1) g y -> offered_kid depth x y.
Proof.
  intros Ha Hs Hx Hg <- (L & v & e & k' & Hd & HL & He & Hk & ->).
  exists (L + 1), (c :: tchar g :: v), e, (tchar g :: v ++ e), k'. split; [by constructor|]. split; [lia|]. split; [done|].
  split; [by rewrite Hx|]. split; [by rewrite kid_subtree|]. by replace (depth + (L + 1)) with (depth + 1 + L) by lia.
Qed.

Lemma visited_below depth x l l' : visited (depth + 1) x l -> (forall y, y ∈ l -> y ∈ l') -> (tchar x = c -> (tptr x, pan_at depth) ∈ l') ->
  swapped = None -> all_offered_kid depth x l'.
Proof.
  intros [_ H] Hsub Hx Hsw [|a v] w k' Hp E Hk HL; cbn in E; injection E as E1 E2.
  - subst. injection Hk as <-. change (len []) with 0. rewrite Z.add_0_r. by apply Hx.
  - subst. rewrite len_cons in *. replace (depth + (len v + 1)) with (depth + 1 + len v) in * by lia.
    apply Hsub, (H Hsw v); [by inversion Hp|done|done].
Qed.

Lemma add_swap_run d x new depth : shape h x -> wf d x ->
  exists l y, add_swap h s pan (pan_at depth) (tptr x) new = Ok (tptr y, adds l new) /\
    (y = x /\ l = [] \/ exists a, swapped = Some a /\ y ∈ kids x /\ tchar y = a /\ l = [(tptr y, pan_at depth)]).
Proof.
  intros Hs Hw. unfold add_swap, swapped. destruct (last (prefix s)) as [a|]; [|by exists [], x; eauto].
  destruct (supportSwapInEditDistance s && (0 <? differ pan)); [|by exists [], x; eauto].
  rewrite (shape_load_root _ _ Hs). cbn [rbind]. destruct (child_run _ _ _ a Hs Hw) as (pos & -> & Hpos). cbn [rbind].
  destruct (0 <=? pos); [|by exists [], x; eauto]. destruct Hpos as (y & -> & Hy & Hya). cbn [rbind].
  exists [(tptr y, pan_at depth)], y. split; [done|]. right. by exists a.
Qed.

(** What the loop does for one child. *)
Definition visit_child (visit : ptr -> PrefixActiveNodeSet -> result PrefixActiveNodeSet) (depth : Z) (x : tree)
    (new : PrefixActiveNodeSet) : result PrefixActiveNodeSet :=
  let? (child, new) :=
    if tchar x =? c then add_swap h s pan (pan_at depth) (tptr x) (_addPAN (tptr x) (pan_at depth) new)
    else Ok (tptr x, new) in
  if depth <? depthLimit then visit child new else Ok new.

Lemma visit_child_run visit depth d x new : shape h x -> wf d x -> depth <= depthLimit ->
  (depth < depthLimit -> forall y new, y = x \/ y ∈ kids x -> exists l, visit (tptr y) new = Ok (adds l new) /\ visited (depth + 1) y l) ->
  exists l, visit_child visit depth x new = Ok (adds l new) /\ Forall (offered_kid depth x) l /\
    (swapped = None -> all_offered_kid depth x l).
Proof.
  intros Hs Hw Hdl Hv. unfold visit_child.
  assert (exists l y, (if tchar x =? c then add_swap h s pan (pan_at depth) (tptr x) (_addPAN (tptr x) (pan_at depth) new)
      else Ok (tptr x, new)) = Ok (tptr y, adds l new) /\ Forall (offered_kid depth x) l /\
      (tchar x = c -> (tptr x, pan_at depth) ∈ l) /\
      (y = x \/ exists a, swapped = Some a /\ y ∈ kids x /\ tchar y = a /\ tchar x = c)) as (l & y & -> & Hl & Hin & Hy).
  { destruct (Z.eqb_spec (tchar x) c) as [Hc|Hc]; [|exists [], x; repeat split; [constructor|done|by left]].
    destruct (add_swap_run d x (_addPAN (tptr x) (pan_at depth) new) depth Hs Hw) as (l & y & -> & Hcase).
    exists ((tptr x, pan_at depth) :: l), y. split; [done|].
    assert (offered_kid depth x (tptr x, pan_at depth)) as Hx.
    { exists 0, [], [c], [], x. rewrite Z.add_0_r, Hc. split; [constructor|]. split; [done|]. split; [by left|done]. }
    split; [|split; [set_solver|naive_solver]]. constructor; [done|].
    destruct Hcase as [[_ ->]|(a & Ha & Hy & <- & ->)]; [constructor|]. apply Forall_singleton.
    exists 0, [], [c; tchar y], [tchar y], y. rewrite Z.add_0_r, Hc. pose proof (wf_kids _ _ Hw).
    split; [constructor|]. split; [done|]. split; [right; eauto|]. split; [done|]. by rewrite kid_subtree. }
  cbn [rbind]. destruct (Z.ltb_spec depth depthLimit) as [Hlt|Hge].
  - destruct (Hv Hlt y (adds l new)) as (l' & -> & Hvis); [destruct Hy as [->|(a & _ & Hy & _)]; auto|].
    exists (l ++ l'). rewrite adds_app. split; [done|]. split.
    + apply Forall_app. split; [done|]. eapply Forall_impl; [apply (vi_sound _ _ _ Hvis)|]. intros z Hz.
      destruct Hy as [->|(a & Ha & Hy & Hya & Hx)]; [by apply offered_below|].
      eapply offered_skip; try done. by eapply wf_kids.
    + intros Hsw. destruct Hy as [->|(a & Ha & _)]; [|by rewrite Hsw in Ha].
      eapply visited_below; [exact Hvis|set_solver|set_solver|done].
  - exists l. split; [done|]. split; [done|]. intros Hsw [|a v] w k' Hp E Hk HL; [|lens].
    cbn in E. injection E as E1 E2. subst. injection Hk as <-. rewrite len_nil, Z.add_0_r. by apply Hin.
Qed.

Lemma children_loop_run visit depth d cs : Forall (shape h) cs -> Forall (wf d) cs -> StronglySorted Z.lt (map tchar cs) ->
  depth <= depthLimit ->
  (depth < depthLimit -> forall x y new, x ∈ cs -> y = x \/ y ∈ kids x ->
    exists l, visit (tptr y) new = Ok (adds l new) /\ visited (depth + 1) y l) ->
  forall new, exists l, children_loop visit h s pan (pan_at depth) depth depthLimit c (map tptr cs) new = Ok (adds l new) /\
    visited_kids depth cs l.
Proof.
  intros Hs Hw. revert Hw. induction Hs as [|x cs Hx Hs IH]; intros Hw Hsort Hdl Hv new.
  { exists []. split; [done|]. by split. }
  apply Forall_cons in Hw as [Hwx Hw]. cbn [map] in Hsort. apply StronglySorted_inv in Hsort as [Hsort Hlt].
  cbn [map children_loop]. rewrite (shape_load_root _ _ Hx). cbn [rbind]. fold (tchar x).
  destruct (Z.leb_spec CHARTYPE_FUZZY_UPPERBOUND (tchar x)) as [Hbig|Hsmall].
  - exists []. split; [done|]. split; [done|]. intros _. apply Forall_forall. intros y Hy v w k' Hp E _ _. exfalso.
    rewrite E in Hp. apply Forall_cons in Hp as [Hp _]. apply elem_of_cons in Hy as [->|Hy]; [lia|].
    rewrite List.Forall_map, Forall_forall in Hlt. specialize (Hlt y Hy). lia.
  - destruct (visit_child_run visit depth d x new Hx Hwx Hdl) as (l1 & Hr1 & Hl1 & Hc1).
    { intros Hd y new' Hy. apply (Hv Hd x); [set_solver|done]. }
    destruct (IH Hw Hsort Hdl) with (new := adds l1 new) as (l2 & Hr2 & [Hl2 Hc2]).
    { intros Hd y z new' Hy. apply (Hv Hd y). set_solver. }
    exists (l1 ++ l2). rewrite adds_app. split.
    + unfold visit_child in Hr1. change (character (tnode x)) with (tchar x).
      destruct (if tchar x =? c then _ else _) as [[child new']|f]; cbn [rbind] in Hr1 |- *; [|done].
      rewrite Hr1. exact Hr2.
    + split.
      * apply Forall_app. split; [eapply Forall_impl; [exact Hl1|]; intros; exists x; set_solver|].
        eapply Forall_impl; [exact Hl2|]. intros y (z & Hz & Ho). exists z. set_solver.
      * intros Hsw. constructor; [intros v w k' H1 H2 H3 H4; apply elem_of_app; left; by apply (Hc1 Hsw v w)|].
        eapply Forall_impl; [apply (Hc2 Hsw)|]. intros y H v w k' H1 H2 H3 H4. apply elem_of_app. right. by apply (H v w).
Qed.

(** The search for one child with the character, at the limit or above the bound. *)
Lemma exact_run d k new : shape h k -> wf d k -> 0 <= depthLimit ->
  (c < CHARTYPE_FUZZY_UPPERBOUND -> depthLimit = 0) ->
  exists l, (let? childPosition := findChildNodePosition h (tnode k) c in
    if 0 <=? childPosition then
      let? child := getChild (tnode k) childPosition in Ok (_addPAN child (pan_at 0) new)
    else Ok new) = Ok (adds l new) /\ visited 0 k l.
Proof.
  intros Hs Hw Hdl Hz. destruct (child_run _ _ _ c Hs Hw) as (pos & -> & Hpos). cbn [rbind].
  assert (forall v, plain (v ++ [c]) -> 0 + len v <= depthLimit -> v = []) as Hnil.
  { intros v Hp HL. apply len_zero. apply Forall_app in Hp as [_ [Hp _]%Forall_cons]. specialize (Hz Hp). lens. }
  destruct (0 <=? pos).
  - destruct Hpos as (x & -> & Hx & Hc). exists [(tptr x, pan_at 0)]. split; [done|]. pose proof (wf_kids _ _ Hw) as Hsort.
    assert (subtree k [c] = Some x) as Hk by (by rewrite <- Hc, kid_subtree). split.
    + apply Forall_singleton. exists 0, [], [c], x. split; [constructor|]. split; [lia|]. split; [by left|done].
    + intros _ v k' Hp Hk' HL. rewrite (Hnil v Hp HL) in *. cbn [app] in Hk'. rewrite Hk in Hk'. injection Hk' as <-. set_solver.
  - exists []. split; [done|]. split; [constructor|]. intros _ v k' Hp Hk' HL.
    rewrite (Hnil v Hp HL) in Hk'. cbn [app] in Hk'. by rewrite Hpos in Hk'.
Qed.

Lemma shape_kid k x : shape h k -> x ∈ kids k -> shape h x.
Proof. inversion 1 as [p n cs ? ? ? Hcs]; subst. rewrite Forall_forall in Hcs. apply Hcs. Qed.

Lemma wf_kid d k x : wf d k -> x ∈ kids k -> wf (d + 1) x.
Proof. inversion 1 as [? p n cs ? ? Hcs]; subst. rewrite Forall_forall in Hcs. apply Hcs. Qed.

Lemma height_below fuel k x : (height k <= S fuel)%nat -> x ∈ kids k -> (height x <= fuel)%nat.
Proof. destruct k as [p n cs]. intros Hh%height_kids Hx. rewrite Forall_forall in Hh. by apply Hh. Qed.

Lemma addPANUpToDepth_run fuel : forall d k depth new, shape h k -> wf d k -> (height k <= fuel)%nat ->
  0 <= depth <= depthLimit -> depthLimit < 2 ^ 32 -> (depth = 0 \/ c < CHARTYPE_FUZZY_UPPERBOUND /\ depthLimit <> 0) ->
  exists l, addPANUpToDepth fuel h s (tptr k) pan depth depthLimit c new = Ok (adds l new) /\ visited depth k l.
Proof.
  induction fuel as [|fuel IH]; intros d k depth new Hs Hw Hh Hd Hdl Hstart; [destruct k; cbn in Hh; lia|].
  cbn [addPANUpToDepth]. rewrite (shape_load_root _ _ Hs). cbn [rbind].
  assert ((if depth <? differ pan then differ pan else depth) = Z.max (differ pan) depth) as ->
    by (destruct (Z.ltb_spec depth (differ pan)); lia).
  fold (pan_at depth).
  destruct (Z.leb_spec CHARTYPE_FUZZY_UPPERBOUND c) as [Hc|Hc]; [|destruct (Z.eqb_spec depthLimit 0) as [Hz|Hz]]; cbn [orb].
  1, 2: assert (depth = 0) as -> by lia; apply (exact_run d); [done|done|lia|lia].
  assert (childrenPointerList (tnode k) = map tptr (kids k)) as -> by (by inversion Hs).
  destruct (children_loop_run (fun child new => addPANUpToDepth fuel h s child pan (wrap32 (depth + 1)) depthLimit c new)
    depth (d + 1) (kids k)) with (new := new) as (l & -> & Hv).
  - apply Forall_forall. intros x. by apply shape_kid.
  - apply Forall_forall. intros x. by apply wf_kid.
  - by eapply wf_kids.
  - lia.
  - intros Hlt x y new' Hx Hy. rewrite wrap_id by (unfold is_uint; lia).
    pose proof (height_below _ _ _ Hh Hx). pose proof (shape_kid _ _ Hs Hx). pose proof (wf_kid _ _ _ Hw Hx).
    destruct Hy as [->|Hy]; [apply (IH (d + 1)); try done; lia|].
    apply (IH (d + 1 + 1)); [by apply (shape_kid x)|by apply (wf_kid _ x)| |lia..].
    destruct fuel; [destruct x; cbn in *; lia|]. pose proof (height_below _ _ _ H Hy). lia.
  - exists l. split; [done|]. apply visited_node; [by eapply wf_kids|done].
Qed.

End Visit.
(** ** The best entry for a node *)

Record pan_ok (pan : PivotalActiveNode) : Prop := {
  po_sum : transformationdistance pan = differ pan + editdistanceofPrefix pan;
  po_differ : 0 <= differ pan;
  po_prefix : 0 <= editdistanceofPrefix pan }.

(** The less distance, then the less distance of the prefix. *)
Definition better (a b : PivotalActiveNode) : Prop :=
  transformationdistance a < transformationdistance b \/
  transformationdistance a = transformationdistance b /\ editdistanceofPrefix a <= editdistanceofPrefix b.

#[global] Instance better_preorder : PreOrder better.
Proof. split; unfold better; [intros a; lia|intros a b d; lia]. Qed.

Definition map_ok (s : PrefixActiveNodeSet) : Prop :=
  forall p pan, PANMap s !! p = Some pan -> pan_ok pan /\ transformationdistance pan <= editDistanceThreshold s.

(** Everything but the map of active nodes and the vector made of it. *)
Record same_query (s s' : PrefixActiveNodeSet) : Prop := {
  sq_prefix : prefix s' = prefix s;
  sq_threshold : editDistanceThreshold s' = editDistanceThreshold s;
  sq_view : trieRootNodeSharedPtr s' = trieRootNodeSharedPtr s;
  sq_swap : supportSwapInEditDistance s' = supportSwapInEditDistance s }.

#[global] Instance same_query_preorder : PreOrder same_query.
Proof. split; [done|]. intros a b d [] []. split; congruence. Qed.

(** [s'] holds what [s] holds and [l] offers, the best for each node. *)
Record merges (s : PrefixActiveNodeSet) (l : list (ptr * PivotalActiveNode)) (s' : PrefixActiveNodeSet) : Prop := {
  me_query : same_query s s';
  me_stale : trieNodeSetVectorComputed s = false -> trieNodeSetVectorComputed s' = false;
  me_ok : map_ok s';
  me_sound q x : PANMap s' !! q = Some x -> PANMap s !! q = Some x \/ (q, x) ∈ l;
  me_keeps q x : PANMap s !! q = Some x -> exists x', PANMap s' !! q = Some x' /\ better x' x;
  me_gets q x : (q, x) ∈ l -> transformationdistance x <= editDistanceThreshold s ->
    exists x', PANMap s' !! q = Some x' /\ better x' x }.

Lemma insert_merges s p pan b : map_ok s -> pan_ok pan -> transformationdistance pan <= editDistanceThreshold s ->
  (forall old, PANMap s !! p = Some old -> better pan old) -> (trieNodeSetVectorComputed s = false -> b = false) ->
  merges s [(p, pan)] (with_map s (<[p := pan]> (PANMap s)) b).
Proof.
  intros Hs Hp Ht Hold Hb. split; cbn.
  - done.
  - done.
  - intros q x Hx. cbn in *. revert Hx. intros [[-> ->]|[_ Hx]]%lookup_insert_Some; [done|by apply (Hs q)].
  - intros q x [[-> ->]|[_ Hx]]%lookup_insert_Some; [right; set_solver|by left].
  - intros q x Hx. destruct (decide (p = q)) as [->|Hne].
    + exists pan. by rewrite lookup_insert_eq; auto.
    + exists x. by rewrite lookup_insert_ne.
  - intros q x Hx%list_elem_of_singleton _. injection Hx as -> ->. exists pan. by rewrite lookup_insert_eq.
Qed.

Lemma skip_merges s p pan : map_ok s ->
  (transformationdistance pan <= editDistanceThreshold s -> exists old, PANMap s !! p = Some old /\ better old pan) ->
  merges s [(p, pan)] s.
Proof.
  intros Hs Hold. split; [done|done|done|by left| |].
  - intros q x Hx. by exists x.
  - intros q x Hx%list_elem_of_singleton Ht. injection Hx as -> ->. by apply Hold.
Qed.

Lemma addPAN_merges s p pan : map_ok s -> pan_ok pan -> merges s [(p, pan)] (_addPAN p pan s).
Proof.
  intros Hs Hp. unfold _addPAN. destruct (Z.ltb_spec (editDistanceThreshold s) (transformationdistance pan)).
  { apply skip_merges; [done|lia]. }
  destruct (PANMap s !! p) as [old|] eqn:E; [|apply insert_merges; [done..|congruence|done]].
  destruct (Hs p old E) as [[Ho _ _] _]. destruct Hp as [Hn Hd He].
  destruct (Z.ltb_spec (transformationdistance pan) (transformationdistance old)).
  { apply insert_merges; [done|done|lia| |done]. intros ? [= <-]%(eq_trans (eq_sym E)). by left. }
  destruct (Z.eqb_spec (transformationdistance old) (transformationdistance pan)); cbn [andb].
  - destruct (Z.ltb_spec (differ old) (differ pan)), (Z.ltb_spec (editdistanceofPrefix pan) (editdistanceofPrefix old)); cbn [orb].
    4: { apply skip_merges; [done|]. intros _. exists old. split; [done|]. right. lia. }
    all: apply insert_merges; [done|done|lia| |done]; intros ? [= <-]%(eq_trans (eq_sym E)); right; lia.
  - apply skip_merges; [done|]. intros _. exists old. split; [done|]. left. lia.
Qed.

Lemma merges_app s1 l1 s2 l2 s3 : merges s1 l1 s2 -> merges s2 l2 s3 -> merges s1 (l1 ++ l2) s3.
Proof.
  intros [Q1 V1 O1 S1 K1 G1] [Q2 V2 O2 S2 K2 G2]. split.
  - by transitivity s2.
  - auto.
  - done.
  - intros q x Hx. destruct (S2 q x Hx) as [H|H]; [|right; set_solver]. destruct (S1 q x H); [by left|right; set_solver].
  - intros q x Hx. destruct (K1 q x Hx) as (y & Hy & H1). destruct (K2 q y Hy) as (z & Hz & H2). exists z. split; [done|by transitivity y].
  - intros q x Hin Ht. apply elem_of_app in Hin as [Hin|Hin].
    + destruct (G1 q x Hin Ht) as (y & Hy & H1). destruct (K2 q y Hy) as (z & Hz & H2). exists z. split; [done|by transitivity y].
    + apply G2; [done|]. by rewrite (sq_threshold _ _ Q1).
Qed.

Lemma adds_merges l : forall s, map_ok s -> Forall (fun x => pan_ok x.2) l -> merges s l (adds l s).
Proof.
  induction l as [|[p pan] l IH]; intros s Hs Hl.
  - split; [done|done|done|by left| |]; [intros q x Hx; by exists x|intros q x Hx; by apply not_elem_of_nil in Hx].
  - apply Forall_cons in Hl as [Hp Hl]. pose proof (addPAN_merges s p pan Hs Hp) as H1.
    apply (merges_app _ [(p, pan)] _ _ _ H1). apply IH; [apply (me_ok _ _ _ H1)|done].
Qed.

(** ** The places of the nodes *)

Lemma subtree_shape h w : forall t k, shape h t -> subtree t w = Some k -> shape h k.
Proof.
  induction w as [|c w IH]; intros t k Hs Hk; [by injection Hk as <-|].
  apply subtree_kid in Hk as (x & Hx & _ & Hk). eapply IH; [|exact Hk]. by eapply shape_kid.
Qed.

Lemma subtree_wf w : forall d t k, wf d t -> subtree t w = Some k -> wf (d + len w) k.
Proof.
  induction w as [|c w IH]; intros d t k Hw Hk; [injection Hk as <-; by rewrite Z.add_0_r|].
  apply subtree_kid in Hk as (x & Hx & _ & Hk). rewrite len_cons. replace (d + (len w + 1)) with (d + 1 + len w) by lia.
  eapply IH; [|exact Hk]. by eapply wf_kid.
Qed.

Lemma subtree_height w : forall t k, subtree t w = Some k -> (height k <= height t)%nat.
Proof.
  induction w as [|c w IH]; intros t k Hk; [by injection Hk as <-|].
  apply subtree_kid in Hk as (x & Hx & _ & Hk). specialize (IH _ _ Hk). destruct (height t) eqn:E; [by destruct t|].
  assert (height t <= S n)%nat as Ht by lia. pose proof (height_below _ _ _ Ht Hx). lia.
Qed.

(** An address holds one tree. *)
Lemma shape_functional h k : forall k', shape h k -> shape h k' -> tptr k = tptr k' -> k = k'.
Proof.
  induction k as [p n cs IH] using tree_ind'. intros k' H H' E. destruct k' as [p' n' cs']. cbn in E. subst p'.
  inversion H as [? ? ? _ Hn Hch Hcs]; subst. inversion H' as [? ? ? _ Hn' Hch' Hcs']; subst.
  rewrite Hn in Hn'. injection Hn' as <-. rewrite Hch in Hch'. f_equal. clear - IH Hch' Hcs Hcs'.
  revert cs' Hch' Hcs'. induction IH as [|k cs Hk _ IH]; intros [|k' cs'] E Hcs'; try done.
  cbn in E. injection E as E1 E2. apply Forall_cons in Hcs as [? ?]. apply Forall_cons in Hcs' as [? ?]. f_equal; auto.
Qed.

Lemma in_address_order_elem {A} (m : node_map A) p x : (p, x) ∈ in_address_order m <-> m !! p = Some x.
Proof.
  unfold in_address_order. rewrite list_elem_of_omap. split.
  - intros (q & _ & E). destruct (m !! q) as [y|] eqn:Ey; [|done]. cbn in E. by injection E as -> ->.
  - intros E. exists p. split; [|by rewrite E]. rewrite merge_sort_Permutation, elem_of_elements. by apply elem_of_dom.
Qed.

(** ** One step of the computation *)

Definition deleted (pan : PivotalActiveNode) : PivotalActiveNode :=
  mk_pan (wrap32 (transformationdistance pan + 1)) (wrap16 (differ pan + 1)) (editdistanceofPrefix pan).

Definition limit (s : PrefixActiveNodeSet) (pan : PivotalActiveNode) : Z := editDistanceThreshold s - editdistanceofPrefix pan.

(** What one active node offers to the next set. *)
Record contributes (s : PrefixActiveNodeSet) (c : Z) (k : tree) (pan : PivotalActiveNode) (l : list (ptr * PivotalActiveNode)) : Prop := {
  co_sound : Forall (fun y => y = (tptr k, deleted pan) \/ offered s pan (limit s pan) c 0 k y) l;
  co_delete : c < CHARTYPE_FUZZY_UPPERBOUND -> (tptr k, deleted pan) ∈ l;
  co_match : swapped s pan = None -> all_offered pan (limit s pan) c 0 k l }.

Section Search.
Context (h : heap) (t : tree).
Context (Hshape : shape h t) (Hwf : wf 0 t) (Hnd : NoDup (ptrs t)).

(** Every active node is a node of the tree. *)
Definition rooted (s : PrefixActiveNodeSet) : Prop :=
  forall p pan, PANMap s !! p = Some pan -> exists w k, subtree t w = Some k /\ tptr k = p.

Definition small (s : PrefixActiveNodeSet) : Prop := 0 <= editDistanceThreshold s < 65535.

Lemma one_node_run s c new w k pan : subtree t w = Some k -> pan_ok pan -> small s ->
  transformationdistance pan <= editDistanceThreshold s ->
  exists l, _addPANSetForOneNode h s (tptr k) pan c new = Ok (adds l new) /\ contributes s c k pan l.
Proof.
  intros Hk [Hsum Hd He] Hsm Ht. unfold small in Hsm. unfold _addPANSetForOneNode. fold (limit s pan) (deleted pan).
  rewrite wrap_id by (unfold is_uint, limit; lia).
  assert (exists l0, (if c <? CHARTYPE_FUZZY_UPPERBOUND then _addPAN (tptr k) (deleted pan) new else new) = adds l0 new /\
    Forall (fun y => y = (tptr k, deleted pan)) l0 /\ (c < CHARTYPE_FUZZY_UPPERBOUND -> (tptr k, deleted pan) ∈ l0)) as (l0 & -> & Hl0 & Hin).
  { destruct (Z.ltb_spec c CHARTYPE_FUZZY_UPPERBOUND); [exists [(tptr k, deleted pan)]|exists []];
      (split; [done|split; [repeat constructor|]]); [set_solver|lia]. }
  destruct (addPANUpToDepth_run h s pan (limit s pan) c (S (size (cells h))) (0 + len w) k 0 (adds l0 new)) as (l & -> & [H1 H2]).
  - by eapply subtree_shape.
  - by eapply subtree_wf.
  - pose proof (subtree_height _ _ _ Hk). pose proof (height_size h t Hshape Hnd). lia.
  - unfold limit. lia.
  - unfold limit. lia.
  - by left.
  - exists (l0 ++ l). rewrite adds_app. split; [done|]. split.
    + apply Forall_app. split; eapply Forall_impl; [exact Hl0| |exact H1|]; cbn; auto.
    + set_solver.
    + intros Hsw v k' Hp Hs HL. apply elem_of_app. right. by apply H2.
Qed.

(** Where an entry of the next set comes from. *)
Definition comes_from (s : PrefixActiveNodeSet) (c : Z) (y : ptr * PivotalActiveNode) : Prop :=
  exists w k pan, subtree t w = Some k /\ PANMap s !! tptr k = Some pan /\
    (y = (tptr k, deleted pan) \/ offered s pan (limit s pan) c 0 k y).

Lemma entries_run s c es : small s -> map_ok s -> rooted s -> Forall (fun e => PANMap s !! e.1 = Some e.2) es ->
  forall new, exists l, fold_res es (fun new e => _addPANSetForOneNode h s e.1 e.2 c new) new = Ok (adds l new) /\
    Forall (comes_from s c) l /\
    forall w k pan, subtree t w = Some k -> (tptr k, pan) ∈ es ->
      (c < CHARTYPE_FUZZY_UPPERBOUND -> (tptr k, deleted pan) ∈ l) /\ (swapped s pan = None -> all_offered pan (limit s pan) c 0 k l).
Proof.
  intros Hsm Hok Hr. induction 1 as [|[p pan] es Hp Hes IH]; intros new; cbn [fold_res fst snd] in *.
  - exists []. split; [done|]. split; [constructor|]. intros w k pan _ Hin. by apply not_elem_of_nil in Hin.
  - destruct (Hr p pan Hp) as (w & k & Hk & <-). destruct (Hok _ _ Hp) as [Hpan Ht].
    destruct (one_node_run s c new w k pan Hk Hpan Hsm Ht) as (l1 & -> & [C1 C2 C3]). cbn [rbind].
    destruct (IH (adds l1 new)) as (l2 & -> & S2 & A2). exists (l1 ++ l2). rewrite adds_app. split; [done|]. split.
    + apply Forall_app. split; [|done]. eapply Forall_impl; [exact C1|]. intros y Hy. by exists w, k, pan.
    + intros w' k' pan' Hk' [E|Hin]%elem_of_cons.
      * injection E as E ->. assert (k' = k) as -> by (eapply shape_functional; [by eapply subtree_shape..|done]). split.
        -- intros Hc. apply elem_of_app. left. by apply C2.
        -- intros Hsw v k' Hp' Hs HL. apply elem_of_app. left. by apply C3.
      * destruct (A2 w' k' pan' Hk' Hin) as [A3 A4]. split.
        -- intros Hc. apply elem_of_app. right. by apply A3.
        -- intros Hsw v k'' Hp' Hs HL. apply elem_of_app. right. by apply A4.
Qed.

Lemma pan_at_ok s pan L : pan_ok pan -> small s -> transformationdistance pan <= editDistanceThreshold s -> 0 <= L <= limit s pan ->
  pan_at pan L = mk_pan (editdistanceofPrefix pan + Z.max (differ pan) L) 0 (editdistanceofPrefix pan + Z.max (differ pan) L) /\
  pan_ok (pan_at pan L).
Proof.
  intros [Hsum Hd He] Hsm Ht HL. unfold small in Hsm. unfold limit in HL.
  assert (pan_at pan L = mk_pan (editdistanceofPrefix pan + Z.max (differ pan) L) 0 (editdistanceofPrefix pan + Z.max (differ pan) L)) as ->
    by (unfold pan_at, match_pan; by rewrite !wrap_id by (unfold is_uint; lia)).
  split; [done|]. split; cbn; lia.
Qed.

Lemma deleted_ok s pan : pan_ok pan -> small s -> transformationdistance pan <= editDistanceThreshold s ->
  deleted pan = mk_pan (transformationdistance pan + 1) (differ pan + 1) (editdistanceofPrefix pan) /\ pan_ok (deleted pan).
Proof.
  intros [Hsum Hd He] Hsm Ht. unfold small in Hsm.
  assert (deleted pan = mk_pan (transformationdistance pan + 1) (differ pan + 1) (editdistanceofPrefix pan)) as ->
    by (unfold deleted; by rewrite !wrap_id by (unfold is_uint; lia)).
  split; [done|]. split; cbn; lia.
Qed.

Lemma typed_run s c : small s -> map_ok s -> rooted s ->
  exists l s', computeActiveNodeSetIncrementally h s c = Ok s' /\
    merges (init (prefix s ++ [c]) (editDistanceThreshold s) (trieRootNodeSharedPtr s) (supportSwapInEditDistance s)) l s' /\
    Forall (comes_from s c) l /\
    forall w k pan, subtree t w = Some k -> PANMap s !! tptr k = Some pan ->
      (c < CHARTYPE_FUZZY_UPPERBOUND -> (tptr k, deleted pan) ∈ l) /\ (swapped s pan = None -> all_offered pan (limit s pan) c 0 k l).
Proof.
  intros Hsm Hok Hr. unfold computeActiveNodeSetIncrementally.
  destruct (entries_run s c (in_address_order (PANMap s)) Hsm Hok Hr) with
    (new := init (prefix s ++ [c]) (editDistanceThreshold s) (trieRootNodeSharedPtr s) (supportSwapInEditDistance s))
    as (l & Hrun & Hsound & Hall).
  { apply Forall_forall. intros [p pan]. apply in_address_order_elem. }
  eexists l, _. split; [exact Hrun|]. split; [|split; [done|]].
  - apply adds_merges; [intros p pan Hp; cbn in Hp; by rewrite lookup_empty in Hp|]. eapply Forall_impl; [exact Hsound|].
    intros y (w & k & pan & Hk & Hp & Hy). destruct (Hok _ _ Hp) as [Hpan Ht].
    destruct Hy as [->|(L & v & e & k' & Hd & HL & _ & _ & ->)]; cbn [snd]; [by eapply deleted_ok|].
    eapply pan_at_ok; [done|exact Hsm|done|]. apply descends_nonneg in Hd. lia.
  - intros w k pan Hk Hp. apply (Hall w k pan Hk). by apply in_address_order_elem.
Qed.

End Search.
End ActiveNode.
