(* ===== verification/FuzzySearch.v ===== *)
(** * Correctness of the active nodes (core/operation/ActiveNode.cpp)

    After a query has been typed, each active node's string is within the reported
    distance of the query: the edit distance without swaps, twice that distance
    with them.  Without swaps and up to threshold 2 no string within the threshold
    is missed.  Beyond that the computation does miss strings: an entry that would
    have led to one is overwritten. *)
From S2P Require Import Prelude TrieNode Trie TrieTree TrieInsert TrieThreadSafe TrieQueries EditDistance ActiveNode.
From Stdlib Require Import ZArith Lia List Bool Sorted.
From stdpp Require Import base gmap list fin_maps sorting.
Open Scope Z_scope.

Module FuzzySearch.
Import TrieNode Trie TrieTree TrieInsert TrieThreadSafe TrieQueries EditDistance ActiveNode.

(** ** Accuracy *)

(** The distances that a swap saves are at most doubled. *)
Definition factor (swap : bool) : Z := if swap then 2 else 1.

(** On the way down, a swap passes both its characters. *)
Lemma descends_split c a L v : descends c (Some a) L v ->
  len v = L \/ exists v1 v2 i, v = v1 ++ a :: v2 /\ len v1 <= 2 * i - 1 /\ len v2 = L - i /\ 1 <= i.
Proof.
  induction 1 as [|x L v H IH|b L v [= <-] H IH].
  - by left.
  - destruct IH as [E|(v1 & v2 & i & -> & H1 & H2 & Hi)]; [left; lens|].
    right. exists (x :: v1), v2, (i + 1). split; [done|]. lens.
  - destruct IH as [E|(v1 & v2 & i & -> & H1 & H2 & Hi)].
    + right. exists [c], v, 1. split; [done|]. lens.
    + right. exists (c :: a :: v1), v2, (i + 1). split; [done|]. lens.
Qed.

Lemma edits_single a b : edits [a] [b] (if a =? b then 0 else 1).
Proof. destruct (Z.eqb_spec a b) as [->|_]; repeat constructor. apply (edits_change _ _ [] [] 0). constructor. Qed.

(** The script before the match: one operation is left for the swap. *)
Lemma descends_edits c a L v u : descends c (Some a) L v ->
  exists j, edits (u ++ [a]) v j /\ j + 1 <= 2 * Z.max (len u + 1) L.
Proof.
  intros Hd. destruct (descends_split _ _ _ _ Hd) as [E|(v1 & v2 & i & -> & H1 & H2 & Hi)].
  - exists (Z.max (len (u ++ [a])) (len v)). split; [apply edits_gap|]. lens.
  - exists (Z.max (len u) (len v1) + (0 + len v2)). split.
    + apply edits_app; [apply edits_gap|]. apply (edits_app [a] [a] 0 [] v2); [repeat constructor|apply edits_inserts].
    + pose proof (len_nonneg u). pose proof (len_nonneg v2). lia.
Qed.

Lemma descends_length c back L v : descends c back L v -> len v <= 2 * L.
Proof. induction 1; lens. Qed.

(** [s] says of its active nodes what [w] and [x] say of one. *)
Definition accurate (s : PrefixActiveNodeSet) (w : list Z) (x : PivotalActiveNode) : Prop :=
  exists q u j, prefix s = q ++ u /\ len u = differ x /\ edits q w j /\
    j <= factor (supportSwapInEditDistance s) * editdistanceofPrefix x.

Lemma accurate_lev s w x : pan_ok x -> accurate s w x ->
  lev (prefix s) w <= factor (supportSwapInEditDistance s) * transformationdistance x.
Proof.
  intros [-> Hd _] (q & u & j & -> & Hu & He & Hj).
  assert (edits (q ++ u) w (j + len u)) as H.
  { rewrite <- (app_nil_r w). apply edits_app; [done|apply edits_drops]. }
  apply lev_least in H. unfold factor in *. destruct (supportSwapInEditDistance s); lia.
Qed.

(** A match below an accurate entry. *)
Lemma match_edits s pan c w L v e : accurate s w pan -> 0 <= differ pan -> descends c (swapped s pan) L v ->
  (e = [c] \/ exists a, swapped s pan = Some a /\ e = [c; a]) ->
  exists j, edits (prefix s ++ [c]) (w ++ v ++ e) j /\
    j <= factor (supportSwapInEditDistance s) * (editdistanceofPrefix pan + Z.max (differ pan) L).
Proof.
  intros (q & u & j & Eq & Hu & He & Hj) Hd Hdesc Hcase. rewrite Eq, <- app_assoc.
  assert (forall k e', edits (u ++ [c]) (v ++ e') k -> edits (q ++ u ++ [c]) (w ++ v ++ e') (j + k)) as Happ by (intros; by apply edits_app).
  destruct (swapped s pan) as [a|] eqn:Esw.
  - assert (exists u', supportSwapInEditDistance s = true /\ u = u' ++ [a]) as (u' & Hsw & ->).
    { unfold swapped in Esw. destruct (supportSwapInEditDistance s); [|done]. cbn [andb] in Esw.
      destruct (Z.ltb_spec 0 (differ pan)) as [Hpos|]; [|done]. rewrite Eq, last_app in Esw.
      destruct u as [|b u _] using rev_ind; [lens|]. rewrite last_snoc in Esw. injection Esw as ->. by exists u. }
    rewrite Hsw in *. unfold factor in *. pose proof (descends_length _ _ _ _ Hdesc) as Hlen.
    destruct Hcase as [->|(a' & [= <-] & ->)].
    + eexists. split; [apply Happ, edits_app; [apply edits_gap|apply (edits_keep c [] [] 0); constructor]|]. lens.
    + destruct (descends_edits _ _ _ _ u' Hdesc) as (k & Hk & Hk1).
      eexists. split; [apply Happ, edits_app; [exact Hk|apply edits_keep, (edits_insert a [] [] 0); constructor]|]. lens.
  - destruct Hcase as [->|(a' & [=] & _)]. rewrite <- (descends_plain _ _ _ Hdesc).
    eexists. split; [apply Happ, edits_app; [apply edits_gap|apply (edits_keep c [] [] 0); constructor]|].
    unfold factor in *. pose proof (descends_nonneg _ _ _ _ Hdesc). destruct (supportSwapInEditDistance s); lens.
Qed.

(** A word leads to one address. *)
Lemma subtree_ptr w : forall t k, subtree t w = Some k -> tptr k ∈ ptrs t.
Proof.
  induction w as [|c w IH]; intros t' k Hk; [injection Hk as <-; destruct t'; cbn; set_solver|].
  apply subtree_kid in Hk as (x & Hx & _ & Hk). specialize (IH _ _ Hk). destruct t' as [p n cs]. cbn in *.
  apply elem_of_cons. right. apply elem_of_flat_map. eauto.
Qed.

Lemma subtree_inj w : forall t w' k, NoDup (ptrs t) -> subtree t w = Some k -> subtree t w' = Some k -> w = w'.
Proof.
  assert (forall t k c w, NoDup (ptrs t) -> k = t -> subtree t (c :: w) <> Some k) as Hself.
  { intros t' k c v Hn -> Hk. apply subtree_kid in Hk as (x & Hx & _ & Hk). apply subtree_ptr in Hk. destruct t' as [p n cs]. cbn in *.
    apply NoDup_cons in Hn as [Hn _]. apply Hn, elem_of_flat_map. eauto. }
  induction w as [|c w IH]; intros t' w' k Hn Hk Hk'.
  - injection Hk as <-. destruct w' as [|c' w']; [done|]. by destruct (Hself t' t' c' w').
  - destruct w' as [|c' w']; [injection Hk' as <-; by destruct (Hself t' t' c w)|].
    apply subtree_kid in Hk as (x & Hx & <- & Hk). apply subtree_kid in Hk' as (y & Hy & <- & Hk').
    assert (x = y /\ NoDup (ptrs x)) as [-> Hnx].
    { destruct t' as [p n cs]. cbn in *. apply NoDup_cons in Hn as [_ Hn]. pose proof (subtree_ptr _ _ _ Hk). pose proof (subtree_ptr _ _ _ Hk').
      clear - Hn Hx Hy H H0. apply list_elem_of_split in Hx as (l & r & ->). rewrite flat_map_app in Hn. cbn in Hn.
      apply NoDup_app in Hn as (_ & Hl & [Hnx [Hr _]]%NoDup_app). split; [|done].
      apply elem_of_app in Hy as [Hy|[->|Hy]%elem_of_cons]; [|done|].
      - exfalso. apply (Hl (tptr k)); [apply elem_of_flat_map; eauto|set_solver].
      - exfalso. apply (Hr (tptr k)); [done|apply elem_of_flat_map; eauto]. }
    f_equal. by apply (IH y w' k).
Qed.

Section Query.
Context (h : heap) (t : tree).
Context (Hshape : shape h t) (Hwf : wf 0 t) (Hnd : NoDup (ptrs t)).

Record sound (s : PrefixActiveNodeSet) : Prop := {
  so_small : small s;
  so_ok : map_ok s;
  so_stale : trieNodeSetVectorComputed s = false;
  so_places : forall p x, PANMap s !! p = Some x -> exists w k, subtree t w = Some k /\ tptr k = p /\ accurate s w x }.

Lemma sound_rooted s : sound s -> rooted t s.
Proof. intros Hs p x Hp. destruct (so_places _ Hs p x Hp) as (w & k & Hk & E & _). eauto. Qed.

Lemma step_sound s c : sound s ->
  exists s', computeActiveNodeSetIncrementally h s c = Ok s' /\ sound s' /\ prefix s' = prefix s ++ [c] /\
    editDistanceThreshold s' = editDistanceThreshold s /\ supportSwapInEditDistance s' = supportSwapInEditDistance s.
Proof.
  intros Hs. pose proof (so_small _ Hs) as Hsm.
  destruct (typed_run h t Hshape Hwf Hnd s c Hsm (so_ok _ Hs) (sound_rooted s Hs)) as (l & s' & Hr & [[Q1 Q2 Q3 Q4] Hst Hok Hin _ _] & Hl & _).
  cbn in Q1, Q2, Q3, Q4. exists s'. split; [done|]. split; [|done]. split; [unfold small; by rewrite Q2|done|by apply Hst|].
  intros p x Hx. destruct (Hin p x Hx) as [H|H]; [cbn in H; by rewrite lookup_empty in H|].
  rewrite Forall_forall in Hl. destruct (Hl _ H) as (w & k & pan & Hk & Hp & Hy).
  destruct (so_places _ Hs _ _ Hp) as (w0 & k0 & Hk0 & E0 & Ha).
  assert (k0 = k) as -> by (eapply shape_functional; [by eapply subtree_shape..|done]).
  assert (w0 = w) as -> by (by apply (subtree_inj w0 t w k Hnd)). destruct (so_ok _ Hs _ _ Hp) as [Hpan Ht].
  destruct Hy as [[= -> ->]|(L & v & e & k' & Hd & HL & He & Hk' & [= -> ->])].
  - exists w, k. split; [done|]. split; [done|]. destruct (deleted_ok s pan Hpan Hsm Ht) as [-> _].
    destruct Ha as (q & u & j & Eq & Hu & Hj). exists q, (u ++ [c]), j. rewrite Q1, Q4, Eq, <- app_assoc. cbn [differ editdistanceofPrefix].
    split; [done|]. split; [lens|done].
  - exists (w ++ v ++ e), k'. split; [by rewrite subtree_app, Hk|]. split; [done|].
    pose proof (descends_nonneg _ _ _ _ Hd). destruct (pan_at_ok s pan L Hpan Hsm Ht) as [E _]; [lia|].
    rewrite Z.add_0_l, E. destruct (match_edits s pan c w L v e Ha (po_differ _ Hpan) Hd He) as (j & Hj & Hle).
    exists (prefix s ++ [c]), [], j. rewrite Q1, Q4, app_nil_r. done.
Qed.

Lemma query_sound q : forall s, sound s -> exists s', active_nodes h s q = Ok s' /\ sound s' /\ prefix s' = prefix s ++ q /\
  editDistanceThreshold s' = editDistanceThreshold s /\ supportSwapInEditDistance s' = supportSwapInEditDistance s.
Proof.
  induction q as [|c q IH]; intros s Hs; [exists s; by rewrite app_nil_r|].
  destruct (step_sound s c Hs) as (s1 & Hr & H1 & E1 & E2 & E3). destruct (IH s1 H1) as (s' & Hr' & H' & F1 & F2 & F3).
  exists s'. unfold active_nodes in *. cbn [fold_res]. rewrite Hr. cbn [rbind]. rewrite Hr', F1, E1, <- app_assoc. split; [done|]. by rewrite F2, F3.
Qed.

Definition start (views : store view) (ts : ptr) : Prop := exists v, s_load views ts = Ok v /\ root v = tptr t.

Lemma new_set_sound views ts tau swap : start views ts -> 0 <= tau < 65535 ->
  exists s, new_set views ts tau swap = Ok s /\ sound s /\ PANMap s = {[tptr t := mk_pan 0 0 0]} /\
    prefix s = [] /\ editDistanceThreshold s = tau /\ supportSwapInEditDistance s = swap.
Proof.
  intros (v & Hv & Hroot) Htau. unfold new_set. rewrite Hv. cbn [rbind]. rewrite Hroot. unfold _addPAN. cbn.
  destruct (Z.ltb_spec tau 0); [lia|]. rewrite lookup_empty, insert_empty. eexists. split; [done|]. split; [|done].
  assert (forall p x, ({[tptr t := mk_pan 0 0 0]} : node_map PivotalActiveNode) !! p = Some x -> tptr t = p /\ mk_pan 0 0 0 = x) as Hx
    by (intros p x; apply lookup_singleton_Some).
  split; [done| |done|]; intros p x Hp; apply Hx in Hp as [<- <-].
  - split; [split|]; cbn; lia.
  - exists [], t. split; [done|]. split; [done|]. exists [], [], 0. cbn. split; [done|]. split; [done|]. split; [constructor|lia].
Qed.

(** ** Completeness without swaps, up to threshold 2 *)

(** Every match within the threshold has an entry at least as good. *)
Definition complete (s : PrefixActiveNodeSet) : Prop :=
  forall q u w k e, prefix s = q ++ u -> plain w -> subtree t w = Some k -> matched q w e ->
    e + len u <= editDistanceThreshold s ->
    exists x, PANMap s !! tptr k = Some x /\ better x (mk_pan (e + len u) (len u) e).

(** Up to threshold 2 the best entry has the best distance of the prefix. *)
Lemma better_dominates s q u w k e x : sound s -> supportSwapInEditDistance s = false -> editDistanceThreshold s <= 2 ->
  prefix s = q ++ u -> subtree t w = Some k -> matched q w e -> e + len u <= editDistanceThreshold s ->
  PANMap s !! tptr k = Some x -> better x (mk_pan (e + len u) (len u) e) ->
  pan_ok x /\ editdistanceofPrefix x <= e /\ transformationdistance x <= e + len u.
Proof.
  intros Hs Hsw Hle Eq Hk Hm Ht Hx Hb. destruct (so_ok _ Hs _ _ Hx) as [Hpan _]. split; [done|].
  destruct (so_places _ Hs _ _ Hx) as (w' & k' & Hk' & E & Ha).
  assert (k' = k) as -> by (eapply shape_functional; [by eapply subtree_shape..|done]).
  assert (w' = w) as -> by (by apply (subtree_inj w' t w k Hnd)).
  apply (accurate_lev _ _ _ Hpan) in Ha. rewrite Hsw in Ha. cbn [factor] in Ha. pose proof (lev_length (prefix s) w) as Hlen.
  unfold better in Hb. cbn in Hb. destruct Hpan as [Hsum Hd He]. pose proof (matched_nonneg _ _ _ Hm) as Hpos.
  split; [|lia]. destruct (Z.eq_dec e 0) as [->|Hne].
  - apply matched_zero in Hm as ->; [|done]. rewrite Eq in Hlen, Ha. lens.
  - lia.
Qed.

Lemma matched_snoc q w e c : matched q w e -> forall q', q = q' ++ [c] ->
  exists q1 u1 w1 v1 e1, q' = q1 ++ u1 /\ w = w1 ++ v1 ++ [c] /\ matched q1 w1 e1 /\ e = e1 + Z.max (len u1) (len v1).
Proof.
  destruct 1 as [|q1 w1 e1 u1 v1 c1 H]; intros q' E; [by destruct q'|].
  rewrite app_assoc in E. apply app_inj_tail in E as [<- <-]. exists q1, u1, w1, v1, e1. done.
Qed.

(** A match that the new character ends. *)
Lemma new_match s s' l c w k e : sound s -> complete s -> supportSwapInEditDistance s = false -> editDistanceThreshold s <= 2 ->
  (forall w k pan, subtree t w = Some k -> PANMap s !! tptr k = Some pan ->
    swapped s pan = None -> all_offered pan (limit s pan) c 0 k l) ->
  merges (init (prefix s ++ [c]) (editDistanceThreshold s) (trieRootNodeSharedPtr s) (supportSwapInEditDistance s)) l s' ->
  plain w -> subtree t w = Some k -> matched (prefix s ++ [c]) w e -> e <= editDistanceThreshold s ->
  exists x, PANMap s' !! tptr k = Some x /\ better x (mk_pan e 0 e).
Proof.
  intros Hs Hc Hsw Hle Hoff Hme Hp Hk Hm Ht. pose proof (so_small _ Hs) as Hsm.
  destruct (matched_snoc _ _ _ c Hm _ eq_refl) as (q1 & u1 & w1 & v1 & e1 & Eq & -> & Hm1 & ->).
  apply Forall_app in Hp as [Hp1 Hp2]. rewrite subtree_app in Hk. destruct (subtree t w1) as [k1|] eqn:Hk1; [|done].
  assert (e1 + len u1 <= editDistanceThreshold s) as Ht1 by lens.
  destruct (Hc q1 u1 w1 k1 e1 Eq Hp1 Hk1 Hm1 Ht1) as (x1 & Hx1 & Hb1).
  destruct (better_dominates s q1 u1 w1 k1 e1 x1 Hs Hsw Hle Eq Hk1 Hm1 Ht1 Hx1 Hb1) as (Hpan & He1 & Hx).
  destruct (so_ok _ Hs _ _ Hx1) as [_ Hxt]. destruct (pan_at_ok s x1 (len v1) Hpan Hsm Hxt) as [E _]; [unfold limit; lens|].
  destruct Hpan as [Hsum Hd He].
  destruct (me_gets _ _ _ Hme (tptr k) (pan_at x1 (len v1))) as (x & Hx' & Hb).
  - rewrite <- (Z.add_0_l (len v1)). apply (Hoff w1 k1 x1 Hk1 Hx1); [|done|done|unfold limit; lens].
    unfold swapped. by rewrite Hsw.
  - rewrite E. cbn. lia.
  - exists x. split; [done|]. etransitivity; [exact Hb|]. rewrite E. unfold better. cbn. lia.
Qed.

(** A match that the new character leaves behind. *)
Lemma old_match s s' l c q u w k e : sound s -> complete s -> c < CHARTYPE_FUZZY_UPPERBOUND ->
  (forall w k pan, subtree t w = Some k -> PANMap s !! tptr k = Some pan ->
    c < CHARTYPE_FUZZY_UPPERBOUND -> (tptr k, deleted pan) ∈ l) ->
  merges (init (prefix s ++ [c]) (editDistanceThreshold s) (trieRootNodeSharedPtr s) (supportSwapInEditDistance s)) l s' ->
  prefix s = q ++ u -> plain w -> subtree t w = Some k -> matched q w e -> e + (len u + 1) <= editDistanceThreshold s ->
  exists x, PANMap s' !! tptr k = Some x /\ better x (mk_pan (e + (len u + 1)) (len u + 1) e).
Proof.
  intros Hs Hc Hchar Hdel Hme Eq Hp Hk Hm Ht. destruct (Hc q u w k e Eq Hp Hk Hm) as (x1 & Hx1 & Hb1); [lia|].
  destruct (so_ok _ Hs _ _ Hx1) as [Hpan Hxt]. destruct (deleted_ok s x1 Hpan (so_small _ Hs) Hxt) as [E _].
  unfold better in Hb1. cbn in Hb1. destruct (me_gets _ _ _ Hme (tptr k) (deleted x1)) as (x & Hx' & Hb).
  - by apply (Hdel w k x1).
  - rewrite E. cbn. lia.
  - exists x. split; [done|]. etransitivity; [exact Hb|]. rewrite E. unfold better. cbn. lia.
Qed.

Lemma step_complete s c s' : sound s -> complete s -> supportSwapInEditDistance s = false -> editDistanceThreshold s <= 2 ->
  c < CHARTYPE_FUZZY_UPPERBOUND -> computeActiveNodeSetIncrementally h s c = Ok s' -> complete s'.
Proof.
  intros Hs Hc Hsw Hle Hchar Hr.
  destruct (typed_run h t Hshape Hwf Hnd s c (so_small _ Hs) (so_ok _ Hs) (sound_rooted s Hs)) as (l & s1 & Hr1 & Hme & _ & Hall).
  rewrite Hr in Hr1. injection Hr1 as <-. destruct (me_query _ _ _ Hme) as [Q1 Q2 _ _]. cbn in Q1, Q2.
  intros q u w k e Eq Hp Hk Hm Ht. rewrite Q1 in Eq. rewrite Q2 in Ht. destruct u as [|c' u _] using rev_ind.
  - rewrite app_nil_r in Eq. subst q. cbn in *. rewrite Z.add_0_r in *.
    apply (new_match s s' l c w k e); try done. intros w' k' pan Hk' Hpan. by apply (Hall w' k' pan).
  - rewrite app_assoc in Eq. apply app_inj_tail in Eq as [Eq <-]. rewrite len_app, len_cons, len_nil in *.
    apply (old_match s s' l c q u w k e); try done. intros w' k' pan Hk' Hpan. by apply (Hall w' k' pan).
Qed.

Lemma query_complete q : plain q -> forall s s', sound s -> complete s -> supportSwapInEditDistance s = false -> editDistanceThreshold s <= 2 ->
  active_nodes h s q = Ok s' -> complete s'.
Proof.
  induction 1 as [|c q Hc _ IH]; intros s s' Hs Hcs Hsw Hle Hr; [by injection Hr as <-|].
  unfold active_nodes in *. cbn [fold_res] in Hr. destruct (step_sound s c Hs) as (s1 & Hr1 & H1 & _ & E2 & E3).
  rewrite Hr1 in Hr. cbn [rbind] in Hr. apply (IH s1); [done| |congruence|by rewrite E2|done].
  by apply (step_complete s c).
Qed.

Lemma new_set_complete s : PANMap s = {[tptr t := mk_pan 0 0 0]} -> prefix s = [] -> complete s.
Proof.
  intros Em Ep q u w k e Eq _ Hk Hm _. rewrite Ep in Eq. symmetry in Eq. apply app_eq_nil in Eq as [-> ->].
  assert (w = [] /\ e = 0) as [-> ->].
  { inversion Hm as [|q1 w1 e1 u1 v1 c1 ? E]; [done|]. by destruct q1, u1. }
  injection Hk as <-. exists (mk_pan 0 0 0). rewrite Em, lookup_singleton_eq. done.
Qed.

Lemma complete_prefix s w k j : sound s -> complete s -> plain w -> subtree t w = Some k -> j <= editDistanceThreshold s ->
  lev (prefix s) w <= j -> exists w0 v k0 x, w = w0 ++ v /\ subtree t w0 = Some k0 /\
    PANMap s !! tptr k0 = Some x /\ transformationdistance x <= j.
Proof.
  intros Hs Hc Hp Hk Hj [(q & u & w0 & v & e & Eq & -> & Hm & He)]%lev_matched.
  rewrite subtree_app in Hk. destruct (subtree t w0) as [k0|] eqn:Hk0; [|done]. apply Forall_app in Hp as [Hp _].
  destruct (Hc q u w0 k0 e Eq Hp Hk0 Hm) as (x & Hx & Hb); [lens|]. exists w0, v, k0, x. split; [done|]. split; [done|]. split; [done|].
  unfold better in Hb. cbn in Hb. lens.
Qed.

End Query.
(** ** The theorems *)

(** (C28) The active nodes of a query, typed character by character over the trie of
    a view, are found without a fault for any threshold below 65535, and each is the
    node of a string whose edit distance to the query is at most the reported
    one, which is within the threshold; with swaps enabled the string is
    within twice the reported distance. *)
Theorem active_nodes_accurate (h : heap) (t : tree) (views : store view) (ts : ptr) (tau : Z) (swap : bool) (q : list Z) :
  shape h t -> wf 0 t -> NoDup (ptrs t) -> start t views ts -> 0 <= tau < 65535 ->
  exists s0 s, new_set views ts tau swap = Ok s0 /\ active_nodes h s0 q = Ok s /\ prefix s = q /\
    forall p x, PANMap s !! p = Some x -> exists w k, subtree t w = Some k /\ tptr k = p /\
      transformationdistance x <= tau /\ lev q w <= (if swap then 2 else 1) * transformationdistance x.
Proof.
  intros Hs Hw Hn Hst Htau. destruct (new_set_sound t views ts tau swap Hst Htau) as (s0 & Hr0 & H0 & _ & E1 & E2 & E3).
  destruct (query_sound h t Hs Hw Hn q s0 H0) as (s & Hr & H & F1 & F2 & F3). rewrite E1 in F1. cbn in F1.
  exists s0, s. split; [done|]. split; [done|]. split; [done|]. intros p x Hp.
  destruct (so_places _ _ H p x Hp) as (w & k & Hk & Ek & Ha). destruct (so_ok _ _ H p x Hp) as [Hok Ht].
  exists w, k. split; [done|]. split; [done|]. split; [congruence|].
  apply (accurate_lev _ _ _ Hok) in Ha. by rewrite F1, F3, E3 in Ha.
Qed.

(** Without swaps and up to threshold 2 the active nodes answer prefix queries
    exactly: a string of the trie has a prefix within distance [j] of the query just
    when a node on its path is active with a distance of at most [j]. *)
Theorem active_nodes_find_prefixes (h : heap) (t : tree) (views : store view) (ts : ptr) (tau : Z) (q : list Z) :
  shape h t -> wf 0 t -> NoDup (ptrs t) -> start t views ts -> 0 <= tau <= 2 -> plain q ->
  exists s0 s, new_set views ts tau false = Ok s0 /\ active_nodes h s0 q = Ok s /\
    forall w k j, subtree t w = Some k -> plain w -> j <= tau ->
      (exists w0 v, w = w0 ++ v /\ lev q w0 <= j) <->
      (exists w0 v k0 x, w = w0 ++ v /\ subtree t w0 = Some k0 /\ PANMap s !! tptr k0 = Some x /\ transformationdistance x <= j).
Proof.
  intros Hs Hw Hn Hst Htau Hq. destruct (new_set_sound t views ts tau false Hst) as (s0 & Hr0 & H0 & E0 & E1 & E2 & E3); [lia|].
  destruct (query_sound h t Hs Hw Hn q s0 H0) as (s & Hr & H & F1 & F2 & F3). rewrite E1 in F1. cbn in F1.
  exists s0, s. split; [done|]. split; [done|]. intros w k j Hk Hp Hj. split.
  - intros (w0 & v & -> & Hlev). rewrite subtree_app in Hk. destruct (subtree t w0) as [k0|] eqn:Hk0; [|done].
    apply Forall_app in Hp as [Hp0 _]. rewrite <- F1 in Hlev.
    destruct (complete_prefix t s w0 k0 j H) as (w1 & v1 & k1 & x & -> & Hk1 & Hx & Hle); try done; [|lia|].
    + apply (query_complete h t Hs Hw Hn q Hq s0 s); [done|by apply new_set_complete|done|lia|done].
    + exists w1, (v1 ++ v), k1, x. by rewrite app_assoc.
  - intros (w0 & v & k0 & x & -> & Hk0 & Hx & Hle). exists w0, v. split; [done|].
    destruct (so_places _ _ H _ x Hx) as (w1 & k1 & Hk1 & Ek & Ha). destruct (so_ok _ _ H _ x Hx) as [Hok _].
    assert (k1 = k0) as -> by (eapply shape_functional; [by eapply subtree_shape..|done]).
    assert (w1 = w0) as -> by (by apply (subtree_inj w1 t w0 k0 Hn)).
    apply (accurate_lev _ _ _ Hok) in Ha. rewrite F1, F3, E3 in Ha. cbn [factor] in Ha. lia.
Qed.

Lemma loaded_demo_start : start loaded_demo_read (views loaded_demo) (root_readview loaded_demo).
Proof. eexists. split; vm_compute; reflexivity. Qed.

Lemma loaded_demo_read_nodup : NoDup (ptrs loaded_demo_read).
Proof. apply (bool_decide_unpack _). vm_compute. exact I. Qed.

Lemma active_nodes_accurate_witness : exists s0 s,
  new_set (views loaded_demo) (root_readview loaded_demo) 1 true = Ok s0 /\ active_nodes (nodes loaded_demo) s0 [98; 97] = Ok s /\
  forall p x, PANMap s !! p = Some x -> transformationdistance x <= 1.
Proof.
  destruct (active_nodes_accurate (nodes loaded_demo) loaded_demo_read (views loaded_demo) (root_readview loaded_demo) 1 true [98; 97])
    as (s0 & s & H0 & H & _ & Hx).
  - exact (se_shape _ _ _ loaded_demo_searchable).
  - exact (se_wf _ _ _ loaded_demo_searchable).
  - exact loaded_demo_read_nodup.
  - exact loaded_demo_start.
  - lia.
  - exists s0, s. split; [exact H0|]. split; [exact H|]. intros p x Hp. destruct (Hx p x Hp) as (w & k & _ & _ & Ht & _). exact Ht.
Defined.

Lemma active_nodes_find_prefixes_witness : exists s0 s,
  new_set (views loaded_demo) (root_readview loaded_demo) 1 false = Ok s0 /\ active_nodes (nodes loaded_demo) s0 [98; 98] = Ok s /\
  exists w0 v k0 x, [97; 98] = w0 ++ v /\ subtree loaded_demo_read w0 = Some k0 /\ PANMap s !! tptr k0 = Some x /\ transformationdistance x <= 1.
Proof.
  destruct (active_nodes_find_prefixes (nodes loaded_demo) loaded_demo_read (views loaded_demo) (root_readview loaded_demo) 1 [98; 98])
    as (s0 & s & H0 & H & Hx).
  - exact (se_shape _ _ _ loaded_demo_searchable).
  - exact (se_wf _ _ _ loaded_demo_searchable).
  - exact loaded_demo_read_nodup.
  - exact loaded_demo_start.
  - lia.
  - repeat constructor.
  - exists s0, s. split; [exact H0|]. split; [exact H|].
    destruct (subtree loaded_demo_read [97; 98]) as [k|] eqn:Hk; [|exfalso; vm_compute in Hk; discriminate].
    apply (Hx [97; 98] k 1 Hk); [repeat constructor|lia|]. exists [97; 98], []. split; [reflexivity|]. vm_compute. discriminate.
Defined.

(** ** What is missed and what is understated *)

(** The active nodes over the trie loaded with some keywords. *)
Fixpoint load_all (l : list (list Z)) : tst unit :=
  match l with [] => ret tt | w :: l' => let! _ := addKeyword w in load_all l' end.
Definition active_over (l : list (list Z)) (tau : Z) (swap : bool) (q : list Z) : result (list PivotalActiveNode) :=
  match load_all l new_trie with
  | Ok (_, s) =>
      let? a := active_nodes (nodes s) (_addPAN (root_writeview s) (mk_pan 0 0 0) (init [] tau 1%N swap)) q in
      Ok (map snd (in_address_order (PANMap a)))
  | Err f => Err f
  end.

(** With swaps enabled, the default, the keyword "bbx" answers the query "abx" at
    threshold 1 until the keyword "ba" is added: then nothing is active, although the
    distance is 1; and "cba" is active for "ab" with distance 1, although the
    distance is 2.  Without swaps, at threshold 3, a keyword at distance 3 has no
    active node. *)
Example fuzzy_search_misses :
  (active_over [[98; 98; 120]] 1 true [97; 98; 120] = Ok [mk_pan 1 0 1] /\
   active_over [[98; 98; 120]; [98; 97]] 1 true [97; 98; 120] = Ok [] /\
   lev [97; 98; 120] [98; 98; 120] = 1) /\
  (active_over [[99; 98; 97]] 1 true [97; 98] = Ok [mk_pan 1 0 1; mk_pan 1 0 1] /\ lev [97; 98] [99; 98; 97] = 2) /\
  (active_over [[98; 97; 120; 121; 99; 122; 122]] 3 false [117; 97; 98; 97; 99; 122; 122] = Ok [] /\
   lev [117; 97; 98; 97; 99; 122; 122] [98; 97; 120; 121; 99; 122; 122] = 3).
Proof. vm_compute. repeat split. Qed.

End FuzzySearch.
