(* ===== verification/LeafNodes.v ===== *)
(** * The keywords of the active nodes (core/operation/ActiveNode.h: the iterators)

    [ActiveNodeSetIterator] lists the active nodes by distance,
    [LeafNodeSetIteratorForPrefix] the keywords below them with the least distance on
    the path, [LeafNodeSetIteratorForComplete] the keywords within the threshold as
    whole words.  Both keep nodes in a map ordered by the preorder of the trie, which
    is read off the ids of the keywords below a node. *)
From S2P Require Import Prelude TrieNode Trie TrieTree TrieInsert TrieThreadSafe TrieQueries EditDistance ActiveNode FuzzySearch.
From Stdlib Require Import ZArith Lia List Bool Sorted.
From stdpp Require Import base gmap list fin_maps sorting.
Open Scope Z_scope.

Module LeafNodes.
Import TrieNode Trie TrieTree TrieInsert TrieThreadSafe TrieQueries EditDistance ActiveNode FuzzySearch.

(** ** [std::map] with [TrieNodePreOrderComparator] *)

Definition TrieNodePreOrderComparator (h : heap) (t1 t2 : ptr) : result bool :=
  let? n1 := s_load h t1 in
  let? n2 := s_load h t2 in
  let? min1 := getMinId h n1 in
  let? min2 := getMinId h n2 in
  if min1 <? min2 then Ok true
  else if min1 =? min2 then
    let? max1 := getMaxId h n1 in
    let? max2 := getMaxId h n2 in
    Ok (max2 <? max1)
  else Ok false.

(** The pairs of node and value in the order of the comparator. *)
Abbreviation preorder_map := (list (ptr * Z)).

(** [find]: the pair whose node the comparator does not tell from [node]. *)
Fixpoint pm_find (h : heap) (node : ptr) (m : preorder_map) : result (option (ptr * Z)) :=
  match m with
  | [] => Ok None
  | e :: m' =>
      let? less := TrieNodePreOrderComparator h e.1 node in
      if less : bool then pm_find h node m'
      else let? greater := TrieNodePreOrderComparator h node e.1 in
           if greater : bool then Ok None else Ok (Some e)
  end.

(** [m[node] = v]: the node of a pair that is already there stays. *)
Fixpoint pm_set (h : heap) (node : ptr) (v : Z) (m : preorder_map) : result preorder_map :=
  match m with
  | [] => Ok [(node, v)]
  | e :: m' =>
      let? less := TrieNodePreOrderComparator h e.1 node in
      if less : bool then let? r := pm_set h node v m' in Ok (e :: r)
      else let? greater := TrieNodePreOrderComparator h node e.1 in
           if greater : bool then Ok ((node, v) :: e :: m') else Ok ((e.1, v) :: m')
  end.

(** Keeps the smaller of the value that is there and [v]. *)
Definition pm_lower (h : heap) (node : ptr) (v : Z) (m : preorder_map) : result preorder_map :=
  let? found := pm_find h node m in
  match found with
  | Some e => pm_set h node (Z.min e.2 v) m
  | None => pm_set h node v m
  end.

(** ** The active nodes by distance *)

(** [_computeTrieNodeSetVector]: the nodes in groups by their distance. *)
Definition group_nodes (es : list (ptr * PivotalActiveNode)) (v : list (list ptr)) : result (list (list ptr)) :=
  fold_res es (fun v e =>
    let? g := vec_at v (transformationdistance e.2) in vec_set v (transformationdistance e.2) (g ++ [e.1])) v.

Definition _computeTrieNodeSetVector (s : PrefixActiveNodeSet) : result PrefixActiveNodeSet :=
  if trieNodeSetVectorComputed s then Ok s
  else
    let? v := group_nodes (in_address_order (PANMap s)) (replicate (Z.to_nat (editDistanceThreshold s + 1)) []) in
    Ok (mk_set (prefix s) (editDistanceThreshold s) (flagResultsCached s) (trieRootNodeSharedPtr s)
      (supportSwapInEditDistance s) (PANMap s) v true).

Record ActiveNodeSetIterator := mk_ani {
  aniVector : list (list ptr);
  edUpperBound : Z;
  editDistanceCursor : Z;
  offsetCursor : Z }.

(** Moves the cursor over empty groups. *)
Fixpoint skip_groups (fuel : nat) (v : list (list ptr)) (bound cursor : Z) : result Z :=
  if cursor <=? bound then
    let? g := vec_at v cursor in
    match g with
    | [] => match fuel with O => Err OutOfFuel | S fuel' => skip_groups fuel' v bound (wrap32 (cursor + 1)) end
    | _ :: _ => Ok cursor
    end
  else Ok cursor.

Definition _initActiveNodeIterator (s : PrefixActiveNodeSet) (bound : Z) : result ActiveNodeSetIterator :=
  let? s := _computeTrieNodeSetVector s in
  let v := trieNodeSetVector s in
  if negb (bound <? Z.of_nat (length v)) then Err AssertFailed
  else let? cursor := skip_groups (length v) v bound 0 in Ok (mk_ani v bound cursor 0).

Definition ani_isDone (it : ActiveNodeSetIterator) : result bool :=
  if editDistanceCursor it <=? edUpperBound it then
    let? g := vec_at (aniVector it) (editDistanceCursor it) in
    Ok (negb (offsetCursor it <? Z.of_nat (length g)))
  else Ok true.

Definition ani_next (it : ActiveNodeSetIterator) : result ActiveNodeSetIterator :=
  let? done := ani_isDone it in
  if done : bool then Ok it
  else
    let offset := wrap32 (offsetCursor it + 1) in
    let? g := vec_at (aniVector it) (editDistanceCursor it) in
    if offset <? Z.of_nat (length g)
    then Ok (mk_ani (aniVector it) (edUpperBound it) (editDistanceCursor it) offset)
    else
      let? cursor := skip_groups (length (aniVector it)) (aniVector it) (edUpperBound it) (wrap32 (editDistanceCursor it + 1)) in
      Ok (mk_ani (aniVector it) (edUpperBound it) cursor 0).

Definition ani_getItem (it : ActiveNodeSetIterator) : result (ptr * Z) :=
  let? done := ani_isDone it in
  if done : bool then Ok (NULL, 0)
  else
    let? g := vec_at (aniVector it) (editDistanceCursor it) in
    let? node := vec_at g (offsetCursor it) in
    Ok (node, editDistanceCursor it).

(** [size()] leaves out the last group. *)
Definition ani_size (it : ActiveNodeSetIterator) : result Z :=
  fold_res (seqZ 0 (edUpperBound it)) (fun size i => let? g := vec_at (aniVector it) i in Ok (size + Z.of_nat (length g))) 0.

(** [for (; !ani.isDone(); ani.next()) { ani.getItem(node, distance); body }] *)
Fixpoint for_each {B} (fuel : nat) (it : ActiveNodeSetIterator) (body : B -> ptr * Z -> result B) (b : B) : result B :=
  let? done := ani_isDone it in
  if done : bool then Ok b
  else
    match fuel with
    | O => Err OutOfFuel
    | S fuel' =>
        let? item := ani_getItem it in
        let? b := body b item in
        let? it := ani_next it in
        for_each fuel' it body b
    end.

(** ** The keywords that extend an active node *)

Record LeafNodeSetIteratorItem := mk_item { prefixNode : ptr; leafNode : ptr; distance : Z }.

Record LeafNodeSetIteratorForPrefix := mk_leaves { resultVector : list LeafNodeSetIteratorItem; lp_cursor : Z }.

(** The traversal with a stack of nodes to visit, each with the best active
    node above it; [rest] are the active nodes from [nextActiveNode] on. *)
Fixpoint traverse (fuel : nat) (h : heap) (activeNodeStack : list ((ptr * Z) * ptr)) (rest : list (ptr * Z))
    (acc : list LeafNodeSetIteratorItem) : result (list (ptr * Z) * list LeafNodeSetIteratorItem) :=
  match activeNodeStack with
  | [] => Ok (rest, acc)
  | (previousActiveNode, currentNode) :: stack =>
      match fuel with
      | O => Err OutOfFuel
      | S fuel' =>
          let (previousActiveNode, rest) :=
            match rest with
            | next :: rest' =>
                if decide (currentNode = next.1)
                then (if next.2 <=? previousActiveNode.2 then next else previousActiveNode, rest')
                else (previousActiveNode, rest)
            | [] => (previousActiveNode, rest)
            end in
          let? n := s_load h currentNode in
          let acc := if isTerminalNode n then acc ++ [mk_item previousActiveNode.1 currentNode previousActiveNode.2] else acc in
          traverse fuel' h (map (pair previousActiveNode) (childrenPointerList n) ++ stack) rest acc
      end
  end.

Fixpoint traverse_all (fuel : nat) (h : heap) (active : list (ptr * Z)) (acc : list LeafNodeSetIteratorItem) :
    result (list LeafNodeSetIteratorItem) :=
  match active with
  | [] => Ok acc
  | a :: rest =>
      match fuel with
      | O => Err OutOfFuel
      | S fuel' =>
          let? (rest, acc) := traverse (size (cells h)) h [(a, a.1)] rest acc in
          traverse_all fuel' h rest acc
      end
  end.

Definition lp_initLeafNodeSetIterator (h : heap) (s : PrefixActiveNodeSet) (bound : Z) : result LeafNodeSetIteratorForPrefix :=
  let? ani := _initActiveNodeIterator s bound in
  let? activeNodes := for_each (size (PANMap s)) ani (fun m item => pm_lower h item.1 item.2 m) [] in
  let? r := traverse_all (length activeNodes) h activeNodes [] in
  Ok (mk_leaves r 0).

Definition lp_isDone (it : LeafNodeSetIteratorForPrefix) : bool := Z.of_nat (length (resultVector it)) <=? lp_cursor it.
Definition lp_next (it : LeafNodeSetIteratorForPrefix) : LeafNodeSetIteratorForPrefix :=
  if lp_isDone it then it else mk_leaves (resultVector it) (wrap32 (lp_cursor it + 1)).
Definition lp_getItem (it : LeafNodeSetIteratorForPrefix) : result (ptr * ptr * Z) :=
  if lp_isDone it then Ok (NULL, NULL, 0)
  else let? i := vec_at (resultVector it) (lp_cursor it) in Ok (prefixNode i, leafNode i, distance i).

(** ** The keywords within the threshold *)

Fixpoint computeTerminalNodesWithinDistance (fuel : nat) (h : heap) (m : preorder_map) (trieNode : ptr)
    (editDistance panDistance bound : Z) : result preorder_map :=
  match fuel with
  | O => Err OutOfFuel
  | S fuel' =>
      let? n := s_load h trieNode in
      let? m :=
        if isTerminalNode n
        then pm_lower h trieNode (if panDistance <? editDistance then editDistance else panDistance) m
        else Ok m in
      if panDistance <? bound
      then fold_res (childrenPointerList n)
             (fun m child => computeTerminalNodesWithinDistance fuel' h m child editDistance (wrap32 (panDistance + 1)) bound) m
      else Ok m
  end.

Definition getEditdistanceofPrefix (s : PrefixActiveNodeSet) (trieNode : ptr) : result Z :=
  match PANMap s !! trieNode with Some pan => Ok (editdistanceofPrefix pan) | None => Err AssertFailed end.

(** The cursor is what the iterator has still to pass. *)
Record LeafNodeSetIteratorForComplete := mk_complete { leafNodesWithinDistance : preorder_map; lc_cursor : preorder_map }.

Definition lc_initLeafNodeSetIterator (h : heap) (s : PrefixActiveNodeSet) (bound : Z) : result LeafNodeSetIteratorForComplete :=
  let? ani := _initActiveNodeIterator s bound in
  let? m := for_each (size (PANMap s)) ani (fun m item =>
    let? panDistance := getEditdistanceofPrefix s item.1 in
    computeTerminalNodesWithinDistance (S (size (cells h))) h m item.1 item.2 panDistance bound) [] in
  Ok (mk_complete m m).

Definition lc_isDone (it : LeafNodeSetIteratorForComplete) : bool :=
  match lc_cursor it with [] => true | _ :: _ => false end.
Definition lc_next (it : LeafNodeSetIteratorForComplete) : LeafNodeSetIteratorForComplete :=
  match lc_cursor it with [] => it | _ :: rest => mk_complete (leafNodesWithinDistance it) rest end.
Definition lc_getItem (it : LeafNodeSetIteratorForComplete) : ptr * Z :=
  match lc_cursor it with [] => (NULL, 0) | e :: _ => e end.

(** ** The groups of active nodes *)

Definition in_group (d : Z) (e : ptr * PivotalActiveNode) : bool := transformationdistance e.2 =? d.

Lemma group_nodes_run es : forall v, Forall (fun e => 0 <= transformationdistance e.2 < Z.of_nat (length v)) es ->
  exists v', group_nodes es v = Ok v' /\ length v' = length v /\
    forall (i : nat) g, v !! i = Some g -> v' !! i = Some (g ++ map fst (List.filter (in_group (Z.of_nat i)) es)).
Proof.
  unfold group_nodes. induction es as [|[p x] es IH]; intros v Hes; cbn [fold_res fst snd] in *.
  - exists v. split; [done|]. split; [done|]. intros i g Hg. cbn. by rewrite app_nil_r.
  - apply Forall_cons in Hes as [Hx Hes]. cbn [fst snd] in Hx. set (d := transformationdistance x) in *.
    destruct (lookup_lt_is_Some_2 v (Z.to_nat d)) as [g0 Hg0]; [lia|].
    assert (vec_at v d = Ok g0) as -> by (apply vec_at_nth; split; [lia|done]). cbn [rbind].
    assert (vec_set v d (g0 ++ [p]) = Ok (<[Z.to_nat d := g0 ++ [p]]> v)) as -> by (by apply vec_set_Ok).
    cbn [rbind]. destruct (IH (<[Z.to_nat d := g0 ++ [p]]> v)) as (v' & -> & Hlen & Hv').
    { by rewrite length_insert. }
    exists v'. split; [done|]. rewrite length_insert in Hlen. split; [done|]. intros i g Hg. cbn [List.filter].
    unfold in_group at 1. cbn [snd]. fold d. destruct (Z.eqb_spec d (Z.of_nat i)) as [E|E].
    + assert (i = Z.to_nat d) as -> by lia. rewrite Hg in Hg0. injection Hg0 as ->. cbn [map fst].
      rewrite (Hv' (Z.to_nat d) (g0 ++ [p])) by (apply list_lookup_insert_eq; lia). by rewrite <- app_assoc.
    + apply Hv'. rewrite list_lookup_insert_ne; [done|lia].
Qed.

(** The nodes of the groups from [lo] to [hi], each with its distance. *)
Definition grouped (v : list (list ptr)) (lo hi : Z) : list (ptr * Z) :=
  flat_map (fun d => map (fun p => (p, d)) (default [] (v !! Z.to_nat d))) (seqZ lo (hi + 1 - lo)).

Lemma grouped_step v lo hi : lo <= hi -> grouped v lo hi = map (fun p => (p, lo)) (default [] (v !! Z.to_nat lo)) ++ grouped v (lo + 1) hi.
Proof.
  intros H. unfold grouped. rewrite seqZ_cons by lia. cbn [flat_map]. do 2 f_equal. f_equal; lia.
Qed.

Lemma grouped_end v lo hi : hi < lo -> grouped v lo hi = [].
Proof. intros H. unfold grouped. by rewrite seqZ_nil by lia. Qed.

Lemma skip_groups_run v bound fuel : forall cursor, 0 <= cursor -> bound < Z.of_nat (length v) -> Z.of_nat (length v) < 2 ^ 32 ->
  Z.of_nat (length v) <= Z.of_nat fuel + cursor ->
  exists c, skip_groups fuel v bound cursor = Ok c /\ cursor <= c /\ grouped v cursor bound = grouped v c bound /\
    (c <= bound -> exists p g, v !! Z.to_nat c = Some (p :: g)).
Proof.
  induction fuel as [|fuel IH]; intros cursor H0 Hb Hv Hf; cbn [skip_groups];
    (destruct (Z.leb_spec cursor bound) as [Hc|Hc]; [|exists cursor; repeat split; [lia|lia]]); [lia|].
  destruct (lookup_lt_is_Some_2 v (Z.to_nat cursor)) as [g Hg]; [lia|].
  assert (vec_at v cursor = Ok g) as -> by (apply vec_at_nth; split; [lia|done]). cbn [rbind].
  destruct g as [|p g]; [|exists cursor; repeat split; [lia|eauto]].
  rewrite wrap_id by (unfold is_uint; lia). destruct (IH (cursor + 1)) as (c & Hr & Hle & E & Hc'); [lia..|].
  exists c. split; [done|]. split; [lia|]. split; [|done]. rewrite grouped_step, Hg by lia. exact E.
Qed.

(** What the iterator has still to pass. *)
Definition ani_rest (it : ActiveNodeSetIterator) : list (ptr * Z) :=
  if editDistanceCursor it <=? edUpperBound it then
    map (fun p => (p, editDistanceCursor it)) (drop (Z.to_nat (offsetCursor it)) (default [] (aniVector it !! Z.to_nat (editDistanceCursor it)))) ++
    grouped (aniVector it) (editDistanceCursor it + 1) (edUpperBound it)
  else [].

(** The cursor stands on a node or behind the last group. *)
Record ani_ok (it : ActiveNodeSetIterator) : Prop := {
  ao_bound : edUpperBound it < Z.of_nat (length (aniVector it)) < 2 ^ 32;
  ao_groups : Forall (fun g => Z.of_nat (length g) < 2 ^ 32) (aniVector it);
  ao_cursor : 0 <= editDistanceCursor it;
  ao_offset : editDistanceCursor it <= edUpperBound it ->
    exists g, aniVector it !! Z.to_nat (editDistanceCursor it) = Some g /\ 0 <= offsetCursor it < Z.of_nat (length g) }.

Lemma ani_moved v bound c : 0 <= c -> bound < Z.of_nat (length v) < 2 ^ 32 -> Forall (fun g => Z.of_nat (length g) < 2 ^ 32) v ->
  (c <= bound -> exists p g, v !! Z.to_nat c = Some (p :: g)) ->
  ani_ok (mk_ani v bound c 0) /\ ani_rest (mk_ani v bound c 0) = grouped v c bound.
Proof.
  intros H0 Hb Hv Hc. split.
  - split; cbn; [done|done|done|]. intros (p & g & Hg)%Hc. exists (p :: g). split; [done|]. cbn. lia.
  - unfold ani_rest. cbn. destruct (Z.leb_spec c bound) as [Hle|Hlt]; [|by rewrite grouped_end].
    change (Z.to_nat 0) with 0%nat. by rewrite drop_0, (grouped_step v c bound) by done.
Qed.

Lemma ani_at it p d l : ani_ok it -> ani_rest it = (p, d) :: l ->
  d = editDistanceCursor it /\ exists g, aniVector it !! Z.to_nat d = Some g /\ 0 <= offsetCursor it < Z.of_nat (length g) /\
    d <= edUpperBound it /\ g !! Z.to_nat (offsetCursor it) = Some p /\
    l = map (fun p => (p, d)) (drop (S (Z.to_nat (offsetCursor it))) g) ++ grouped (aniVector it) (d + 1) (edUpperBound it).
Proof.
  intros Hok. unfold ani_rest. destruct (Z.leb_spec (editDistanceCursor it) (edUpperBound it)) as [Hle|]; [|done].
  destruct (ao_offset _ Hok Hle) as (g & Hg & Ho). rewrite Hg. cbn [default Datatypes.id].
  destruct (lookup_lt_is_Some_2 g (Z.to_nat (offsetCursor it))) as [q Hq]; [lia|].
  rewrite (drop_S _ _ _ Hq). cbn. intros [= -> <- <-]. split; [done|]. exists g. done.
Qed.

Lemma ani_done it : ani_ok it -> ani_isDone it = Ok (match ani_rest it with [] => true | _ => false end).
Proof.
  intros Hok. unfold ani_isDone. destruct (ani_rest it) as [|[p d] l] eqn:E.
  - unfold ani_rest in E. destruct (Z.leb_spec (editDistanceCursor it) (edUpperBound it)) as [Hle|]; [|done].
    destruct (ao_offset _ Hok Hle) as (g & Hg & Ho). rewrite Hg in E. cbn [default Datatypes.id] in E.
    destruct (lookup_lt_is_Some_2 g (Z.to_nat (offsetCursor it))) as [q Hq]; [lia|]. by rewrite (drop_S _ _ _ Hq) in E.
  - destruct (ani_at it p d l Hok E) as (-> & g & Hg & Ho & Hle & _). destruct (Z.leb_spec (editDistanceCursor it) (edUpperBound it)); [|lia].
    assert (vec_at (aniVector it) (editDistanceCursor it) = Ok g) as -> by (apply vec_at_nth; split; [apply (ao_cursor _ Hok)|done]).
    cbn [rbind]. destruct (Z.ltb_spec (offsetCursor it) (Z.of_nat (length g))); [done|lia].
Qed.

Lemma ani_step it p d l : ani_ok it -> ani_rest it = (p, d) :: l ->
  ani_getItem it = Ok (p, d) /\ exists it', ani_next it = Ok it' /\ ani_ok it' /\ ani_rest it' = l.
Proof.
  intros Hok E. unfold ani_getItem, ani_next. rewrite (ani_done it Hok), E. cbn [rbind].
  destruct (ani_at it p d l Hok E) as (-> & g & Hg & Ho & Hle & Hp & ->). pose proof (ao_cursor _ Hok) as H0.
  assert (vec_at (aniVector it) (editDistanceCursor it) = Ok g) as -> by (by apply vec_at_nth). cbn [rbind].
  assert (vec_at g (offsetCursor it) = Ok p) as -> by (apply vec_at_nth; split; [lia|done]). cbn [rbind]. split; [done|].
  pose proof (ao_groups _ Hok) as Hall. rewrite Forall_lookup in Hall. specialize (Hall _ _ Hg). pose proof (ao_bound _ Hok) as Hb.
  rewrite !wrap_id by (unfold is_uint; lia).
  destruct (Z.ltb_spec (offsetCursor it + 1) (Z.of_nat (length g))) as [Hin|Hout].
  - eexists. split; [done|]. split.
    + split; cbn; [done|apply (ao_groups _ Hok)|done|]. intros _. exists g. split; [done|lia].
    + unfold ani_rest. cbn. destruct (Z.leb_spec (editDistanceCursor it) (edUpperBound it)); [|lia].
      rewrite Hg. cbn [default Datatypes.id]. by replace (Z.to_nat (offsetCursor it + 1)) with (S (Z.to_nat (offsetCursor it))) by lia.
  - destruct (skip_groups_run (aniVector it) (edUpperBound it) (length (aniVector it)) (editDistanceCursor it + 1)) as (c & -> & Hc & E' & Hne); [lia..|].
    cbn [rbind]. eexists. split; [done|]. rewrite drop_ge by lia. cbn [map app]. rewrite E'.
    apply ani_moved; [lia|done|apply (ao_groups _ Hok)|done].
Qed.

Lemma for_each_rest {B} (body : B -> ptr * Z -> result B) fuel : forall it b, ani_ok it -> (length (ani_rest it) <= fuel)%nat ->
  for_each fuel it body b = fold_res (ani_rest it) body b.
Proof.
  induction fuel as [|fuel IH]; intros it b Hok Hf; cbn [for_each]; rewrite (ani_done it Hok); cbn [rbind].
  - destruct (ani_rest it); [done|cbn in Hf; lia].
  - destruct (ani_rest it) as [|[p d] l] eqn:E; [done|]. destruct (ani_step it p d l Hok E) as (-> & it' & Hn & Hok' & E').
    cbn [rbind fold_res]. destruct (body b (p, d)) as [b'|]; [|done]. cbn [rbind]. rewrite Hn. cbn [rbind].
    rewrite IH by (done || (rewrite E'; cbn in Hf; lia)). by rewrite E'.
Qed.

(** ** The items of the iterator *)

Lemma in_address_order_keys {A} (m : node_map A) : map fst (in_address_order m) = merge_sort N.le (elements (dom m)).
Proof.
  unfold in_address_order. assert (Forall (fun p => is_Some (m !! p)) (merge_sort N.le (elements (dom m)))) as H.
  { apply Forall_forall. intros p Hp. rewrite merge_sort_Permutation, elem_of_elements in Hp. by apply elem_of_dom. }
  induction H as [|p l [x Hx] _ IH]; [done|]. cbn. rewrite Hx. cbn. by rewrite IH.
Qed.

Lemma in_address_order_nodup {A} (m : node_map A) : NoDup (map fst (in_address_order m)).
Proof. rewrite in_address_order_keys, merge_sort_Permutation. apply NoDup_elements. Qed.

Lemma in_address_order_length {A} (m : node_map A) : length (in_address_order m) = size m.
Proof.
  rewrite <- (length_map fst), in_address_order_keys, merge_sort_Permutation, <- size_dom. done.
Qed.

(** A prefix set whose map has been built but not grouped. *)
Record fresh (s : PrefixActiveNodeSet) : Prop := {
  fr_ok : map_ok s;
  fr_small : small s;
  fr_stale : trieNodeSetVectorComputed s = false;
  fr_size : Z.of_nat (size (PANMap s)) < 2 ^ 32 }.

Definition grouped_items (s : PrefixActiveNodeSet) (v : list (list ptr)) (bound : Z) (items : list (ptr * Z)) : Prop :=
  items = grouped v 0 bound /\ forall (i : nat), (Z.of_nat i <= editDistanceThreshold s) ->
    v !! i = Some (map fst (List.filter (in_group (Z.of_nat i)) (in_address_order (PANMap s)))).

Lemma items_elem s v bound items p d : grouped_items s v bound items -> map_ok s -> bound <= editDistanceThreshold s ->
  (p, d) ∈ items <-> exists x, PANMap s !! p = Some x /\ transformationdistance x = d /\ d <= bound.
Proof.
  intros [-> Hv] Hok Hb. unfold grouped. rewrite elem_of_flat_map. split.
  - intros (d' & Hd%elem_of_seqZ & Hin). apply elem_of_lmap in Hin as (q & [= <- <-] & Hq).
    rewrite Hv in Hq by lia. cbn [default Datatypes.id] in Hq. apply elem_of_lmap in Hq as ([q x] & -> & Hx).
    apply list_elem_of_In, filter_In in Hx as [Hx%list_elem_of_In%in_address_order_elem Ht].
    unfold in_group in Ht. cbn in *. apply Z.eqb_eq in Ht. exists x. split; [done|]. lia.
  - intros (x & Hx & Ht & Hd). destruct (Hok p x Hx) as [[Hsum H1 H2] _]. exists d. rewrite elem_of_seqZ. split; [lia|].
    apply (elem_of_lmap_2 (fun p => (p, d))). rewrite Hv by lia. cbn [default Datatypes.id]. apply (elem_of_lmap_2 fst _ (p, x)).
    apply list_elem_of_In, filter_In. split; [by apply list_elem_of_In, in_address_order_elem|].
    unfold in_group. cbn. apply Z.eqb_eq. lia.
Qed.

Lemma nodup_groups (es : list (ptr * PivotalActiveNode)) (f : Z -> list ptr) ds : NoDup (map fst es) -> NoDup ds ->
  (forall d, d ∈ ds -> f d = map fst (List.filter (in_group d) es)) ->
  NoDup (map fst (flat_map (fun d => map (fun p => (p, d)) (f d)) ds)).
Proof.
  intros Hes. assert (forall d q, q ∈ map fst (List.filter (in_group d) es) -> exists x, (q, x) ∈ es /\ transformationdistance x = d) as Hin.
  { intros d q ([q' x] & -> & Hx%list_elem_of_In)%elem_of_lmap. apply filter_In in Hx as [Hx Ht]. exists x.
    rewrite list_elem_of_In. unfold in_group in Ht. cbn in Ht. apply Z.eqb_eq in Ht. done. }
  assert (forall d, map fst (map (fun p : ptr => (p, d)) (f d)) = f d) as Hmap.
  { intros d. rewrite map_map. apply map_id. }
  induction 1 as [|d ds Hd Hds IH]; intros Hf; cbn [flat_map]; [constructor|]. rewrite map_app, Hmap. apply NoDup_app. split; [|split].
  - rewrite Hf by set_solver. clear - Hes. induction es as [|e es IH]; cbn; [constructor|]. cbn in Hes. apply NoDup_cons in Hes as [He Hes].
    destruct (in_group d e); [|by apply IH]. cbn. apply NoDup_cons. split; [|by apply IH]. intros (e' & E & Hin)%elem_of_lmap.
    apply He. rewrite E. apply elem_of_lmap_2. rewrite list_elem_of_In in *. by apply filter_In in Hin as [Hin _].
  - intros q Hq Hq'. rewrite Hf in Hq by set_solver. apply Hin in Hq as (x & Hx & Ht).
    apply elem_of_lmap in Hq' as ([q' d'] & -> & H). apply elem_of_flat_map in H as (d'' & Hd'' & H).
    apply elem_of_lmap in H as (q'' & E & Hq''). injection E as -> ->. rewrite Hf in Hq'' by set_solver.
    apply Hin in Hq'' as (y & Hy & Hty). cbn in Hx. assert (x = y) as <-.
    { clear - Hes Hx Hy. apply list_elem_of_split in Hx as (l & r & ->). destruct (nodup_map_mid fst l (q'', x) r Hes) as (H1 & H2 & _).
      apply elem_of_app in Hy as [Hy|[E|Hy]%elem_of_cons]; [by destruct (H1 _ Hy)|by injection E|by destruct (H2 _ Hy)]. }
    apply Hd. by rewrite <- Ht, Hty.
  - apply IH. intros d' Hd'. apply Hf. set_solver.
Qed.

Lemma grouped_sorted v lo hi : StronglySorted Z.le (map snd (grouped v lo hi)).
Proof.
  unfold grouped. pose proof (ssorted_seqZ lo (hi + 1 - lo)) as H. induction H as [|d ds _ IH Hd]; cbn [flat_map map]; [constructor|].
  rewrite map_app, map_map. cbn [snd]. apply ssorted_app; [|done|].
  - induction (default [] (v !! Z.to_nat d)) as [|p g IHg]; cbn; constructor; [done|]. apply List.Forall_forall.
    intros x (q & <- & _)%in_map_iff. done.
  - intros x y (q & <- & _)%in_map_iff Hy. apply in_map_iff in Hy as ([q' y'] & <- & Hy). apply in_flat_map in Hy as (d' & Hd' & Hy).
    apply in_map_iff in Hy as (q'' & [= <- <-] & _). rewrite List.Forall_forall in Hd. specialize (Hd _ Hd'). cbn. lia.
Qed.

(** The iterator passes the active nodes within the bound, by distance. *)
Record listing (s : PrefixActiveNodeSet) (bound : Z) (items : list (ptr * Z)) : Prop := {
  li_elem p d : (p, d) ∈ items <-> exists x, PANMap s !! p = Some x /\ transformationdistance x = d /\ d <= bound;
  li_nodup : NoDup (map fst items);
  li_sorted : StronglySorted Z.le (map snd items) }.

Lemma leaf_start_run s bound : fresh s -> 0 <= bound <= editDistanceThreshold s ->
  exists it items, _initActiveNodeIterator s bound = Ok it /\ listing s bound items /\
    forall B (body : B -> ptr * Z -> result B) b, for_each (size (PANMap s)) it body b = fold_res items body b.
Proof.
  intros [Hok Hsm Hst Hsz] Hb. unfold _initActiveNodeIterator, _computeTrieNodeSetVector. rewrite Hst. unfold small in Hsm.
  set (es := in_address_order (PANMap s)). set (v0 := replicate (Z.to_nat (editDistanceThreshold s + 1)) ([] : list ptr)).
  assert (length v0 = Z.to_nat (editDistanceThreshold s + 1)) as Hlen0 by apply length_replicate.
  destruct (group_nodes_run es v0) as (v & -> & Hlen & Hv).
  { rewrite Hlen0. apply Forall_forall. intros [p x] Hx%in_address_order_elem. destruct (Hok p x Hx) as [[Hsum H1 H2] Ht]. cbn. lia. }
  cbn [rbind trieNodeSetVector]. destruct (Z.ltb_spec bound (Z.of_nat (length v))) as [Hlt|]; [|lia]. cbn [negb].
  assert (forall i : nat, Z.of_nat i <= editDistanceThreshold s -> v !! i = Some (map fst (List.filter (in_group (Z.of_nat i)) es))) as Hvi.
  { intros i Hi. rewrite (Hv i []); [done|]. apply lookup_replicate_2. lia. }
  destruct (skip_groups_run v bound (length v) 0) as (c & -> & Hc & E & Hne); [lia..|]. cbn [rbind].
  assert (NoDup (map fst (grouped v 0 bound))) as Hnd.
  { apply (nodup_groups es (fun d => default [] (v !! Z.to_nat d))); [apply in_address_order_nodup|apply NoDup_seqZ|].
    intros d Hd%elem_of_seqZ. rewrite Hvi by lia. cbn. by rewrite Z2Nat.id by lia. }
  assert (grouped_items s v bound (grouped v 0 bound)) as Hg by done.
  assert (listing s bound (grouped v 0 bound)) as Hl.
  { split; [intros p d; apply (items_elem s v bound); [done|done|lia]|done|apply grouped_sorted]. }
  destruct (ani_moved v bound c Hc) as [Hani Hrest]; [lia| |done|].
  { apply Forall_lookup. intros i g Hi. rewrite Hvi in Hi by (apply lookup_lt_Some in Hi; lia). injection Hi as <-.
    rewrite length_map. pose proof (filter_length_le (in_group (Z.of_nat i)) es). unfold es in *. rewrite in_address_order_length in *. lia. }
  exists (mk_ani v bound c 0), (grouped v 0 bound). split; [done|]. split; [done|]. intros B body b. rewrite for_each_rest, Hrest, <- E; [done|done|].
  rewrite Hrest, <- E, <- (length_map fst). rewrite <- size_dom. change (size (dom (PANMap s))) with (length (elements (dom (PANMap s)))). apply submseteq_length, NoDup_submseteq; [done|].
  intros q ([q' d] & -> & Hq)%elem_of_lmap. apply (li_elem _ _ _ Hl) in Hq as (x & Hx & _). apply elem_of_elements, elem_of_dom. by exists x.
Qed.

(** ** The order of the maps *)

Definition precedes (a b : Prefix) : Prop := minId a < minId b \/ minId a = minId b /\ maxId b < maxId a.

Lemma precedes_trans a b c : precedes a b -> precedes b c -> precedes a c.
Proof. unfold precedes. lia. Qed.
Lemma precedes_irrefl a : ~ precedes a a.
Proof. unfold precedes. lia. Qed.
Lemma precedes_total a b : ~ precedes a b -> ~ precedes b a -> a = b.
Proof. destruct a, b. unfold precedes. cbn. intros H1 H2. f_equal; lia. Qed.

(** [iv] answers the interval of a node. *)
Definition keyed (h : heap) (iv : ptr -> Prefix) (p : ptr) : Prop :=
  exists n, s_load h p = Ok n /\ getMinId h n = Ok (minId (iv p)) /\ getMaxId h n = Ok (maxId (iv p)).

Section Maps.
Context (h : heap) (iv : ptr -> Prefix).

Definition before_node (p q : ptr) : Prop := precedes (iv p) (iv q).

Lemma comparator_run p q : keyed h iv p -> keyed h iv q ->
  exists b, TrieNodePreOrderComparator h p q = Ok b /\ if b : bool then before_node p q else ~ before_node p q.
Proof.
  intros (n1 & L1 & A1 & B1) (n2 & L2 & A2 & B2). unfold TrieNodePreOrderComparator. rewrite L1, L2. cbn [rbind]. rewrite A1, A2. cbn [rbind].
  unfold before_node, precedes. destruct (Z.ltb_spec (minId (iv p)) (minId (iv q))); [by exists true; auto|].
  destruct (Z.eqb_spec (minId (iv p)) (minId (iv q))); [|exists false; split; [done|lia]].
  rewrite B1, B2. cbn [rbind]. eexists. split; [done|]. destruct (Z.ltb_spec (maxId (iv q)) (maxId (iv p))); lia.
Qed.

Record pm_ok (m : preorder_map) : Prop := {
  pm_keyed : Forall (fun e => keyed h iv e.1) m;
  pm_sorted : StronglySorted (fun e e' => before_node e.1 e'.1) m }.

(** Where [node] is, or would go, in a map. *)
Lemma pm_place m node : pm_ok m -> keyed h iv node -> exists l r, (
  (exists e, m = l ++ e :: r /\ iv e.1 = iv node /\ pm_find h node m = Ok (Some e) /\
    forall v, pm_set h node v m = Ok (l ++ (e.1, v) :: r)) \/
  (m = l ++ r /\ pm_find h node m = Ok None /\ forall v, pm_set h node v m = Ok (l ++ (node, v) :: r))) /\
  Forall (fun e => before_node e.1 node) l /\ Forall (fun e => before_node node e.1) r.
Proof.
  intros [Hk Hs] Hn. revert Hs. induction Hk as [|e m He Hm IH]; intros Hs.
  - exists [], []. split; [by right|]. by split.
  - apply StronglySorted_inv in Hs as [Hs Hlt]. cbn [pm_find pm_set].
    destruct (comparator_run e.1 node He Hn) as (b & -> & Hb). cbn [rbind]. destruct b.
    + destruct (IH Hs) as (l & r & Hcase & Hl & Hr). exists (e :: l), r. split; [|split; [by constructor|done]].
      destruct Hcase as [(x & -> & Ex & Hf & Hset)|(-> & Hf & Hset)].
      * left. exists x. split; [done|]. split; [done|]. split; [done|]. intros v. by rewrite Hset.
      * right. split; [done|]. split; [done|]. intros v. by rewrite Hset.
    + destruct (comparator_run node e.1 Hn He) as (g & -> & Hg). cbn [rbind]. destruct g.
      * exists [], (e :: m). split; [by right|]. split; [done|]. constructor; [done|].
        eapply Forall_impl; [exact Hlt|]. intros x Hx. by eapply precedes_trans.
      * exists [], m. assert (iv e.1 = iv node) as E by (by apply precedes_total). split; [by left; exists e|].
        split; [done|]. eapply Forall_impl; [exact Hlt|]. intros x. unfold before_node. by rewrite E.
Qed.

Lemma before_node_l p q r : iv p = iv q -> before_node p r -> before_node q r.
Proof. unfold before_node. by intros ->. Qed.
Lemma before_node_r p q r : iv p = iv q -> before_node r p -> before_node r q.
Proof. unfold before_node. by intros ->. Qed.

Lemma pm_ok_mid l r node v : pm_ok (l ++ r) -> keyed h iv node -> Forall (fun e => before_node e.1 node) l ->
  Forall (fun e => before_node node e.1) r -> pm_ok (l ++ (node, v) :: r).
Proof.
  intros [Hk Hs] Hn Hl Hr. apply Forall_app in Hk as [Hk1 Hk2]. apply ssorted_app_inv in Hs as (H1 & H2 & H3). split.
  - apply Forall_app. split; [done|]. by constructor.
  - apply ssorted_app; [done|by constructor|]. intros x y Hx [<-|Hy]; [|by apply H1].
    rewrite List.Forall_forall in Hl. by apply Hl.
Qed.

(** One update of a map. *)
Record lowered (m : preorder_map) (node : ptr) (v : Z) (m' : preorder_map) : Prop := {
  lo_ok : pm_ok m';
  lo_from e : e ∈ m' -> e ∈ m \/ e = (node, v);
  lo_new : exists e, e ∈ m' /\ iv e.1 = iv node /\ e.2 <= v;
  lo_old e : e ∈ m -> exists d, (e.1, d) ∈ m' /\ d <= e.2 }.

Lemma pm_lower_run m node v : pm_ok m -> keyed h iv node -> (forall e, e ∈ m -> iv e.1 = iv node -> e.1 = node \/ e.2 <= v) ->
  exists m', pm_lower h node v m = Ok m' /\ lowered m node v m'.
Proof.
  intros Hok Hn Hsame. unfold pm_lower. destruct (pm_place m node Hok Hn) as (l & r & [(e & -> & Ee & -> & Hset)|(-> & -> & Hset)] & Hl & Hr); cbn [rbind].
  - rewrite Hset. eexists. split; [done|]. destruct Hok as [Hk Hs]. apply Forall_app in Hk as [Hk1 [Hk Hk2]%Forall_cons].
    apply ssorted_app_inv in Hs as (H1 & H2 & H3). apply StronglySorted_inv in H3 as [H3 _]. split.
    + apply pm_ok_mid; [|done| |].
      * split; [by apply Forall_app|]. apply ssorted_app; [done|done|]. intros x y Hx Hy. apply H1; [done|by right].
      * eapply Forall_impl; [exact Hl|]. intros x. by apply before_node_r.
      * eapply Forall_impl; [exact Hr|]. intros x. by apply before_node_l.
    + intros x [Hx|[->|Hx]%elem_of_cons]%elem_of_app; [left; set_solver| |left; set_solver].
      destruct e as [q d]. cbn in *. destruct (Z.min_spec d v) as [[_ ->]|[Hle ->]]; [left; set_solver|].
      destruct (Hsame (q, d)) as [Hq|Hv]; [set_solver|done|cbn in Hq; subst q; by right|]. cbn in Hv. assert (d = v) as -> by lia. left. set_solver.
    + exists (e.1, Z.min e.2 v). split; [set_solver|]. split; [done|]. cbn. lia.
    + intros x [Hx|[->|Hx]%elem_of_cons]%elem_of_app.
      * exists x.2. destruct x. split; [set_solver|done].
      * exists (Z.min e.2 v). split; [set_solver|lia].
      * exists x.2. destruct x. split; [set_solver|done].
  - rewrite Hset. eexists. split; [done|]. split.
    + by apply pm_ok_mid.
    + set_solver.
    + exists (node, v). split; [set_solver|done].
    + intros x Hx. exists x.2. destruct x. split; [set_solver|done].
Qed.

End Maps.
End LeafNodes.
