(* ===== verification/LeafSearch.v ===== *)
(** * What fuzzy search answers (core/operation/ActiveNode.h: the iterators)

    The traversal below the active nodes meets every keyword below one of them once,
    in the order of the ids, with the least distance on its path; the descent within
    the threshold meets every keyword near enough to an active node.  Together
    with the correctness of the active nodes this gives the answers of fuzzy search:
    for a prefix query the keywords with a prefix within the threshold, for a whole
    word the keywords within the threshold, each with its edit distance. *)
From S2P Require Import Prelude TrieNode Trie TrieTree TrieInsert TrieThreadSafe TrieQueries EditDistance ActiveNode FuzzySearch LeafNodes.
From Stdlib Require Import ZArith Lia List Bool Sorted.
From stdpp Require Import base gmap list fin_maps sorting.
Open Scope Z_scope.

Module LeafSearch.
Import TrieNode Trie TrieTree TrieInsert TrieThreadSafe TrieQueries EditDistance ActiveNode FuzzySearch LeafNodes.

(** ** The map of active nodes *)

Section Fold.
Context (h : heap) (iv : ptr -> Prefix).

(** A sequence of updates; [inv] ensures that none replaces the node of a pair
    for a smaller value. *)
Lemma pm_fold_gen (inv : preorder_map -> list (ptr * Z) -> Prop) items :
  (forall m p v items, inv m ((p, v) :: items) ->
    (forall e, e ∈ m -> iv e.1 = iv p -> e.1 = p \/ e.2 <= v) /\
    forall m', (forall e, e ∈ m' -> e ∈ m \/ e = (p, v)) -> inv m' items) ->
  forall m, pm_ok h iv m -> Forall (fun e => keyed h iv e.1) items -> inv m items ->
  exists m', fold_res items (fun m item => pm_lower h item.1 item.2 m) m = Ok m' /\ pm_ok h iv m' /\
    (forall e, e ∈ m' -> e ∈ m \/ e ∈ items) /\
    forall e, e ∈ m \/ e ∈ items -> exists e', e' ∈ m' /\ iv e'.1 = iv e.1 /\ e'.2 <= e.2.
Proof.
  intros Hstep. induction items as [|[p v] items IH]; intros m Hm Hk Hi; cbn [fold_res fst snd].
  - exists m. split; [done|]. split; [done|]. split; [by left|]. intros e [He|He]; [by exists e|by apply not_elem_of_nil in He].
  - apply Forall_cons in Hk as [Hp Hk]. destruct (Hstep m p v items Hi) as [Hsame Hnext].
    destruct (pm_lower_run h iv m p v Hm Hp Hsame) as (m1 & -> & [L1 L2 L3 L4]).
    cbn [rbind]. destruct (IH m1 L1 Hk (Hnext m1 L2)) as (m' & -> & Hok & Hfrom & Hto).
    exists m'. split; [done|]. split; [done|]. split.
    + intros e [He|He]%Hfrom; [apply L2 in He as [He| ->]|]; set_solver.
    + intros e [He|[->|He]%elem_of_cons].
      * destruct (L4 e He) as (d & Hd & Hde). destruct (Hto (e.1, d)) as (e' & ? & ? & ?); [by left|]. exists e'. cbn in *. split; [done|]. split; [done|lia].
      * destruct L3 as (e1 & He1 & E1 & Hv1). destruct (Hto e1) as (e' & ? & E & ?); [by left|]. exists e'. rewrite E. cbn in *. split; [done|]. split; [done|lia].
      * apply Hto. by right.
Qed.

(** Updates with growing values, starting from no pair. *)
Lemma pm_fold_sorted items : Forall (fun e => keyed h iv e.1) items -> StronglySorted Z.le (map snd items) ->
  exists m, fold_res items (fun m item => pm_lower h item.1 item.2 m) [] = Ok m /\ pm_ok h iv m /\
    (forall e, e ∈ m -> e ∈ items) /\ forall e, e ∈ items -> exists e', e' ∈ m /\ iv e'.1 = iv e.1 /\ e'.2 <= e.2.
Proof.
  intros Hk Hs. destruct (pm_fold_gen (fun m items => StronglySorted Z.le (map snd items) /\ forall e x, e ∈ m -> x ∈ items -> e.2 <= x.2) items)
    with (m := [] : preorder_map) as (m & Hr & Hok & Hfrom & Hto).
  - clear. intros m p v items [Hs Hle]. cbn [map snd] in Hs. apply StronglySorted_inv in Hs as [Hs Hv]. rewrite List.Forall_forall in Hv. split.
    + intros e He _. right. apply (Hle e (p, v)); set_solver.
    + intros m' Hm'. split; [done|]. intros e x [He| ->]%Hm' Hx; [apply Hle; set_solver|].
      apply Hv, in_map, list_elem_of_In, Hx.
  - by split; constructor.
  - done.
  - split; [done|]. intros e x He. by apply not_elem_of_nil in He.
  - exists m. split; [done|]. split; [done|]. split; [intros e [He|He]%Hfrom; [by apply not_elem_of_nil in He|done]|]. auto.
Qed.

(** Updates of nodes that the order tells apart. *)
Lemma pm_fold_distinct items : Forall (fun e => keyed h iv e.1) items ->
  (forall e x, e ∈ items -> x ∈ items -> iv e.1 = iv x.1 -> e.1 = x.1) ->
  exists m, fold_res items (fun m item => pm_lower h item.1 item.2 m) [] = Ok m /\ pm_ok h iv m /\
    (forall e, e ∈ m -> e ∈ items) /\ forall e, e ∈ items -> exists d, (e.1, d) ∈ m /\ d <= e.2.
Proof.
  intros Hk Hd. destruct (pm_fold_gen (fun m items => forall e x, e ∈ m \/ e ∈ items -> x ∈ items -> iv e.1 = iv x.1 -> e.1 = x.1) items)
    with (m := [] : preorder_map) as (m & Hr & Hok & Hfrom & Hto).
  - clear. intros m p v items Hi. split.
    + intros e He E. left. apply (Hi e (p, v)); [by left|set_solver|done].
    + intros m' Hm' e x He Hx. apply Hi; [|set_solver]. destruct He as [[He| ->]%Hm'|He]; [by left|right; set_solver|right; set_solver].
  - by split; constructor.
  - done.
  - intros e x [He|He]; [by apply not_elem_of_nil in He|by apply Hd].
  - assert (forall e, e ∈ m -> e ∈ items) as Hsub by (intros e [He|He]%Hfrom; [by apply not_elem_of_nil in He|done]).
    exists m. split; [done|]. split; [done|]. split; [done|]. intros e He. destruct (Hto e) as ([q d] & Hq & E & Hle); [by right|].
    exists d. rewrite <- (Hd (q, d) e); [done|by apply Hsub|done|done].
Qed.

Lemma pm_ok_nodup m : pm_ok h iv m -> NoDup (map fst m).
Proof.
  intros [_ Hs]. induction Hs as [|e m Hs IH Hlt]; cbn; [constructor|]. apply NoDup_cons. split; [|done].
  intros (e' & E & He')%elem_of_lmap. rewrite Forall_forall in Hlt. specialize (Hlt e' He'). unfold before_node in Hlt.
  rewrite E in Hlt. by apply precedes_irrefl in Hlt.
Qed.

Definition value (m : preorder_map) (p : ptr) : option Z := snd <$> List.find (fun e => bool_decide (e.1 = p)) m.

Lemma value_elem m p d : NoDup (map fst m) -> value m p = Some d <-> (p, d) ∈ m.
Proof.
  unfold value. induction m as [|[q c] m IH]; cbn; intros Hn; [split; [done|by intros ?%not_elem_of_nil]|].
  apply NoDup_cons in Hn as [Hq Hn]. rewrite elem_of_cons. case_bool_decide as E; cbn.
  - subst q. split; [intros [= ->]; by left|]. intros [[= ->]|Hin]; [done|]. exfalso. apply Hq, (elem_of_lmap_2 fst _ _ Hin).
  - rewrite (IH Hn). split; [by right|]. intros [[= -> ->]|?]; done.
Qed.

(** A map sorted as a list of nodes is, is the part of the list it knows. *)
Lemma restrict_order l : NoDup l -> StronglySorted (fun p q => ~ before_node iv q p) l ->
  forall m, StronglySorted (fun e e' => before_node iv e.1 e'.1) m -> (forall e, e ∈ m -> e.1 ∈ l) ->
  omap (fun p => pair p <$> value m p) l = m.
Proof.
  induction 1 as [|p l Hp Hn IH]; intros Hl m Hm Hin; cbn [omap list_omap].
  - destruct m as [|e m]; [done|]. specialize (Hin e ltac:(set_solver)). by apply not_elem_of_nil in Hin.
  - apply StronglySorted_inv in Hl as [Hl Hpl]. rewrite Forall_forall in Hpl.
    destruct m as [|[q d] m]; [apply (IH Hl []); [constructor|by intros ? ?%not_elem_of_nil]|].
    apply StronglySorted_inv in Hm as [Hm Hlt]. rewrite Forall_forall in Hlt. destruct (decide (q = p)) as [->|Hne].
    + unfold value. cbn. rewrite bool_decide_true by done. cbn. f_equal.
      transitivity (omap (fun p => pair p <$> value m p) l); [|apply (IH Hl m Hm)].
      * apply list_omap_ext. apply Forall2_same_length_lookup. split; [done|]. intros i x y Hx Hy. simplify_eq.
        rewrite bool_decide_false; [done|]. intros <-. apply Hp. by eapply list_elem_of_lookup_2.
      * intros e He. specialize (Hin e ltac:(set_solver)). apply elem_of_cons in Hin as [E|]; [|done].
        specialize (Hlt e He). cbn in Hlt. unfold before_node in Hlt. rewrite E in Hlt. by apply precedes_irrefl in Hlt.
    + assert (forall e, e ∈ (q, d) :: m -> e.1 ∈ l) as Hin'.
      { intros e He. pose proof (Hin e He) as Hel. apply elem_of_cons in Hel as [E|]; [|done]. exfalso.
        pose proof (Hin (q, d) ltac:(set_solver)) as Hq. cbn in Hq. apply elem_of_cons in Hq as [|Hq]; [done|].
        apply elem_of_cons in He as [->|He]; [done|]. apply (Hpl q Hq). rewrite <- E. by apply (Hlt e). }
      destruct (value ((q, d) :: m) p) as [c|] eqn:E; cbn.
      * exfalso. unfold value in E. destruct (List.find _ _) as [e|] eqn:Ef; [|done]. apply find_some in Ef as [He Ee%bool_decide_eq_true].
        apply Hp. rewrite <- Ee. apply Hin'. by apply list_elem_of_In.
      * change (omap (fun p => pair p <$> value ((q, d) :: m) p) l = (q, d) :: m). apply IH; [done| |done]. constructor; [done|]. by apply Forall_forall.
Qed.

End Fold.

(** ** The intervals of the nodes of a tree *)

Definition interval_of (h : heap) (p : ptr) : Prefix :=
  match s_load h p with Ok n => match prefix_of h n with Ok x => x | Err _ => mk_prefix 0 0 end | Err _ => mk_prefix 0 0 end.

Lemma subtree_searchable h w : forall d t k, searchable h d t -> inhabited t -> subtree t w = Some k ->
  searchable h (d + len w) k /\ inhabited k.
Proof.
  induction w as [|c w IH]; intros d t k Hs Hi Hk; [injection Hk as <-; by rewrite Z.add_0_r|].
  apply subtree_kid in Hk as (x & Hx & _ & Hk). destruct t as [p n cs]. cbn in Hx. apply list_elem_of_split in Hx as (l & r & ->).
  destruct (searchable_kid _ _ _ _ _ _ _ Hs) as (Hsx & Hix & _). rewrite len_cons. replace (d + (len w + 1)) with (d + 1 + len w) by lia.
  by apply (IH _ x).
Qed.

Lemma subtree_keyed h d t w k : searchable h d t -> inhabited t -> subtree t w = Some k ->
  keyed h (interval_of h) (tptr k) /\ interval_of h (tptr k) = interval k.
Proof.
  intros Hs Hi Hk. destruct (subtree_searchable h w d t k Hs Hi Hk) as [Hsk Hik].
  pose proof (shape_load_root _ _ (se_shape _ _ _ Hsk)) as Hl.
  destruct (interval_run h k _ (se_shape _ _ _ Hsk) (se_wf _ _ _ Hsk) Hik) as [Ha Hb].
  assert (interval_of h (tptr k) = interval k) as E.
  { unfold interval_of. by rewrite Hl, (prefix_of_run h _ k Hsk Hik). }
  split; [|done]. exists (tnode k). rewrite E. done.
Qed.

Lemma ids_subtree w : forall t k i, subtree t w = Some k -> In i (ids k) -> In i (ids t).
Proof.
  induction w as [|c w IH]; intros t k i Hk Hi; [by injection Hk as <-|].
  apply subtree_kid in Hk as (x & Hx & _ & Hk). destruct t as [p n cs]. rewrite ids_tree, in_app_iff. right. apply in_flat_map.
  exists x. split; [by apply list_elem_of_In|]. by eapply IH.
Qed.

Lemma ptr_subtree t : forall d, wf d t -> forall p, p ∈ ptrs t -> exists w k, subtree t w = Some k /\ tptr k = p.
Proof.
  induction t as [q n cs IH] using tree_ind'. intros d Hw p Hp. cbn in Hp. apply elem_of_cons in Hp as [->|Hp]; [by exists [], (Tree q n cs)|].
  apply elem_of_flat_map in Hp as (x & Hx & Hp). rewrite Forall_forall in IH.
  destruct (IH x Hx (d + 1)) with (p := p) as (w & k & Hk & E); [by apply (wf_kid d (Tree q n cs))|done|].
  exists (tchar x :: w), k. split; [|done]. rewrite kid_subtree; [done|exact (wf_kids _ _ Hw)|done].
Qed.

Lemma subtree_interval h d t w k : searchable h d t -> inhabited t -> subtree t w = Some k ->
  minId (interval t) <= minId (interval k) /\ maxId (interval k) <= maxId (interval t).
Proof.
  intros Hs Hi Hk. destruct (subtree_searchable h w d t k Hs Hi Hk) as [Hsk Hik].
  pose proof (ids_nonempty _ _ (se_wf _ _ _ Hsk) Hik) as Hne.
  pose proof (ids_in_interval t _ (se_ordered _ _ _ Hs) (ids_subtree w t k _ Hk (first_id_in k Hne))).
  pose proof (ids_in_interval t _ (se_ordered _ _ _ Hs) (ids_subtree w t k _ Hk (last_id_in k Hne))). cbn. lia.
Qed.

(** The addresses are listed in preorder. *)
Lemma ptrs_preorder h t : forall d, searchable h d t -> inhabited t ->
  StronglySorted (fun p q => ~ before_node (interval_of h) q p) (ptrs t).
Proof.
  induction t as [p n cs IH] using tree_ind'. intros d Hs Hi. cbn [ptrs]. constructor.
  - destruct (searchable_kids _ _ _ _ _ Hs) as [Hall _].
    assert (Forall (fun k => searchable h (d + 1) k /\ inhabited k) cs) as Hkids.
    { apply Forall_forall. intros k (l & r & ->)%list_elem_of_split. by destruct (searchable_kid _ _ _ _ _ _ _ Hs) as (? & ? & _). }
    destruct (ordered_tree _ _ _ (se_ordered _ _ _ Hs)) as [_ Hsort]. clear Hs Hi Hall.
    induction IH as [|k cs Hk _ IHcs]; cbn [flat_map]; [constructor|]. apply Forall_cons in Hkids as [[Hsk Hik] Hkids].
    cbn in Hsort. apply ssorted_app_inv in Hsort as (Hlt & _ & Hsort).
    apply ssorted_app; [by apply (Hk (d + 1))|by apply IHcs|]. intros x y Hx Hy.
    apply list_elem_of_In in Hx, Hy. apply elem_of_flat_map in Hy as (k' & Hk' & Hy).
    rewrite Forall_forall in Hkids. destruct (Hkids k' Hk') as [Hsk' Hik'].
    destruct (ptr_subtree _ _ (se_wf _ _ _ Hsk) x Hx) as (w1 & x1 & Hx1 & <-).
    destruct (ptr_subtree _ _ (se_wf _ _ _ Hsk') y Hy) as (w2 & y1 & Hy1 & <-).
    unfold before_node. rewrite (proj2 (subtree_keyed h _ _ _ _ Hsk Hik Hx1)), (proj2 (subtree_keyed h _ _ _ _ Hsk' Hik' Hy1)).
    destruct (subtree_searchable h _ _ _ _ Hsk Hik Hx1) as [Hsx Hix]. destruct (subtree_searchable h _ _ _ _ Hsk' Hik' Hy1) as [Hsy Hiy].
    assert (first_id x1 < first_id y1) as H; [|unfold precedes; cbn; lia]. apply Hlt.
    + eapply ids_subtree; [exact Hx1|]. apply first_id_in. eapply ids_nonempty; [apply (se_wf _ _ _ Hsx)|done].
    + apply in_flat_map. exists k'. split; [by apply list_elem_of_In|]. eapply ids_subtree; [exact Hy1|]. apply first_id_in.
      eapply ids_nonempty; [apply (se_wf _ _ _ Hsy)|done].
  - apply Forall_forall. intros q Hq. destruct (ptr_subtree (Tree p n cs) d (se_wf _ _ _ Hs) q) as (w & k & Hk & <-); [cbn; set_solver|].
    destruct (subtree_interval h d _ w k Hs Hi Hk) as [H1 H2]. unfold before_node.
    rewrite (proj2 (subtree_keyed h d _ w k Hs Hi Hk)). change p with (tptr (Tree p n cs)).
    rewrite (proj2 (subtree_keyed h d _ [] _ Hs Hi eq_refl)). unfold precedes. lia.
Qed.

(** ** The traversal *)

Fixpoint terminals (t : tree) : list ptr :=
  match t with Tree p n cs => (if isTerminalNode n then [p] else []) ++ flat_map terminals cs end.

Section Traverse.
Context (h : heap) (act : ptr -> option Z).

Definition actives (l : list ptr) : list (ptr * Z) := omap (fun p => pair p <$> act p) l.

(** The best active node at [k], given the best above. *)
Definition best (prev : ptr * Z) (k : tree) : ptr * Z :=
  match act (tptr k) with
  | Some d => if d <=? prev.2 then (tptr k, d) else prev
  | None => prev
  end.

(** The keywords below a node that has an active node above. *)
Fixpoint items (prev : ptr * Z) (k : tree) : list LeafNodeSetIteratorItem :=
  match k with
  | Tree p n cs =>
      let b := best prev (Tree p n cs) in
      (if isTerminalNode n then [mk_item b.1 p b.2] else []) ++ flat_map (items b) cs
  end.

(** The keywords below an active node. *)
Fixpoint all_items (k : tree) : list LeafNodeSetIteratorItem :=
  match act (tptr k) with
  | Some d => items (tptr k, d) k
  | None => flat_map all_items (kids k)
  end.

Lemma actives_app l l' : actives (l ++ l') = actives l ++ actives l'.
Proof. apply omap_app. Qed.

Lemma actives_keys l e : e ∈ actives l -> e.1 ∈ l.
Proof. intros (p & Hp & E)%list_elem_of_omap. destruct (act p); [|done]. cbn in E. by injection E as <-. Qed.

(** What is done with one popped node, once the active nodes at hand are settled. *)
Lemma popped_run fuel p n cs b stack rest acc : shape h (Tree p n cs) ->
  (let? n := s_load h p in
   let acc := if isTerminalNode n then acc ++ [mk_item b.1 p b.2] else acc in
   traverse fuel h (map (pair b) (childrenPointerList n) ++ stack) rest acc) =
  traverse fuel h (map (pair b) (map tptr cs) ++ stack) rest (acc ++ if isTerminalNode n then [mk_item b.1 p b.2] else []).
Proof.
  intros Hs. pose proof (shape_load_root _ _ Hs) as El. cbn [tptr tnode] in El. rewrite El. cbn [rbind]. assert (childrenPointerList n = map tptr cs) as -> by (by inversion Hs).
  by destruct (isTerminalNode n); rewrite ?app_nil_r.
Qed.

Definition apart (rest : list (ptr * Z)) (l : list ptr) : Prop := forall e, e ∈ rest -> e.1 ∉ l.

(** The active node at hand is the popped node just when that is active. *)
Lemma head_run p l prev rest : p ∉ l -> apart rest (p :: l) ->
  match actives (p :: l) ++ rest with
  | next :: rest' => if decide (p = next.1) then (if next.2 <=? prev.2 then next else prev, rest') else (prev, actives (p :: l) ++ rest)
  | [] => (prev, actives (p :: l) ++ rest)
  end = (match act p with Some d => if d <=? prev.2 then (p, d) else prev | None => prev end, actives l ++ rest).
Proof.
  intros Hp Hr. change (actives (p :: l)) with (match pair p <$> act p with Some y => y :: actives l | None => actives l end).
  destruct (act p) as [d|]; cbn; [by rewrite decide_True by done|].
  destruct (actives l ++ rest) as [|e es] eqn:E; [done|]. rewrite decide_False; [done|]. intros ->.
  assert (e ∈ actives l ++ rest) as He by (rewrite E; set_solver). apply elem_of_app in He as [He|He].
  - by apply actives_keys in He.
  - apply (Hr e He). set_solver.
Qed.

Lemma traverse_node k : forall fuel prev stack rest acc, shape h k -> NoDup (ptrs k) -> apart rest (ptrs k) ->
  traverse (length (ptrs k) + fuel) h ((prev, tptr k) :: stack) (actives (ptrs k) ++ rest) acc =
  traverse fuel h stack rest (acc ++ items prev k).
Proof.
  induction k as [p n cs IH] using tree_ind'. intros fuel prev stack rest acc Hs Hn Hr.
  cbn [ptrs tptr] in *. cbn [length plus traverse]. apply NoDup_cons in Hn as [Hp Hn].
  rewrite (head_run p (flat_map ptrs cs) prev rest Hp Hr).
  change (match act p with Some d => if d <=? prev.2 then (p, d) else prev | None => prev end) with (best prev (Tree p n cs)).
  rewrite (popped_run _ p n cs _ stack _ acc Hs). cbn [items]. rewrite app_assoc.
  generalize (acc ++ (if isTerminalNode n then [mk_item (best prev (Tree p n cs)).1 p (best prev (Tree p n cs)).2] else [])). clear acc.
  assert (apart rest (flat_map ptrs cs)) as Hr' by (intros e He; specialize (Hr e He); set_solver).
  assert (Forall (shape h) cs) as Hcs by (by inversion Hs). generalize (best prev (Tree p n cs)). intros b. clear Hs Hp Hr.
  revert fuel. induction IH as [|k cs Hk _ IHcs]; intros fuel acc; cbn [flat_map map app]; [by rewrite app_nil_r|].
  cbn [flat_map] in Hn, Hr'. apply NoDup_app in Hn as (Hn1 & Hd & Hn2). apply Forall_cons in Hcs as [Hsk Hcs].
  rewrite length_app, <- Nat.add_assoc, actives_app, <- app_assoc, Hk; [|done|done|].
  - rewrite IHcs, app_assoc; [done|done|intros e He; specialize (Hr' e He); set_solver|done].
  - intros e He Hin. apply elem_of_app in He as [He|He]; [apply (Hd e.1 Hin); by apply actives_keys|apply (Hr' e He); set_solver].
Qed.

(** From an active node that has just been taken. *)
Lemma traverse_start k d fuel rest : shape h k -> NoDup (ptrs k) -> apart rest (ptrs k) -> act (tptr k) = Some d ->
  forall acc, traverse (length (ptrs k) + fuel) h [((tptr k, d), tptr k)] (actives (tail (ptrs k)) ++ rest) acc =
  Ok (rest, acc ++ items (tptr k, d) k).
Proof.
  intros Hs Hn Hr Ha acc. pose proof (traverse_node k fuel (tptr k, d) [] rest acc Hs Hn Hr) as E.
  assert (traverse fuel h [] rest (acc ++ items (tptr k, d) k) = Ok (rest, acc ++ items (tptr k, d) k)) as <- by (by destruct fuel).
  rewrite <- E. destruct k as [p n cs]. cbn [ptrs tail tptr] in *. apply NoDup_cons in Hn as [Hp Hn]. cbn [length plus traverse].
  rewrite (head_run p (flat_map ptrs cs) (p, d) rest Hp Hr), Ha. cbn [snd]. rewrite Z.leb_refl.
  destruct (actives (flat_map ptrs cs) ++ rest) as [|e es] eqn:Ee; [done|]. rewrite decide_False; [done|]. intros ->.
  assert (e ∈ actives (flat_map ptrs cs) ++ rest) as He by (rewrite Ee; set_solver). apply elem_of_app in He as [He|He].
  - by apply actives_keys in He.
  - apply (Hr e He). set_solver.
Qed.

Lemma traverse_all_node k : shape h k -> NoDup (ptrs k) -> (length (ptrs k) <= size (cells h))%nat ->
  forall fuel rest acc, apart rest (ptrs k) -> (length (actives (ptrs k) ++ rest) <= fuel)%nat ->
  exists fuel', (length rest <= fuel')%nat /\
    traverse_all fuel h (actives (ptrs k) ++ rest) acc = traverse_all fuel' h rest (acc ++ all_items k).
Proof.
  induction k as [p n cs IH] using tree_ind'. intros Hs Hn Hlen fuel rest acc Hr Hf. cbn [all_items tptr kids].
  change (actives (ptrs (Tree p n cs))) with (match pair p <$> act p with Some y => y :: actives (flat_map ptrs cs) | None => actives (flat_map ptrs cs) end) in *.
  destruct (act p) as [d|] eqn:Ha; cbn [fmap option_fmap option_map app] in *.
  - destruct fuel as [|fuel]; [cbn in Hf; lia|]. cbn [traverse_all fst]. exists fuel. split; [cbn in Hf; rewrite length_app in Hf; lia|].
    pose proof (traverse_start (Tree p n cs) d (size (cells h) - length (ptrs (Tree p n cs))) rest Hs Hn Hr Ha acc) as E.
    replace (length (ptrs (Tree p n cs)) + (size (cells h) - length (ptrs (Tree p n cs))))%nat with (size (cells h)) in E by lia.
    cbn [tptr ptrs tail] in E. by rewrite E.
  - assert (Forall (shape h) cs) as Hcs by (by inversion Hs). cbn [ptrs length] in *. apply NoDup_cons in Hn as [_ Hn].
    assert (apart rest (flat_map ptrs cs)) as Hr' by (intros e He; specialize (Hr e He); set_solver). clear Hs Hr Ha.
    assert (length (flat_map ptrs cs) <= size (cells h))%nat as Hlen' by lia. clear Hlen. revert fuel acc Hf.
    induction IH as [|k cs Hk _ IHcs]; intros fuel acc Hf; cbn [flat_map] in *; [exists fuel; by rewrite app_nil_r|].
    apply NoDup_app in Hn as (Hn1 & Hd & Hn2). apply Forall_cons in Hcs as [Hsk Hcs]. rewrite length_app in Hlen'.
    rewrite actives_app, <- app_assoc in *. destruct (Hk Hsk Hn1 ltac:(lia) fuel (actives (flat_map ptrs cs) ++ rest) acc) as (f1 & Hf1 & ->).
    + intros e He Hin. apply elem_of_app in He as [He|He]; [apply (Hd e.1 Hin); by apply actives_keys|apply (Hr' e He); set_solver].
    + done.
    + rewrite app_assoc. apply IHcs; [done|done|intros e He; specialize (Hr' e He); set_solver|lia|done].
Qed.

(** The best active node on a path. *)
Fixpoint along (prev : ptr * Z) (k : tree) (v : list Z) : ptr * Z :=
  match v with
  | [] => best prev k
  | c :: v' =>
      match List.find (fun x => tchar x =? c) (kids k) with
      | Some x => along (best prev k) x v'
      | None => best prev k
      end
  end.

(** [p] is an active node at the end of a prefix of [v], with distance [d]. *)
Definition active_on (k : tree) (v : list Z) (p : ptr) (d : Z) : Prop :=
  exists w u x, v = w ++ u /\ subtree k w = Some x /\ tptr x = p /\ act p = Some d.

Lemma active_below k c x v p d : List.find (fun x => tchar x =? c) (kids k) = Some x -> active_on x v p d -> active_on k (c :: v) p d.
Proof. intros Hx (w & u & y & -> & Hy & <- & Ha). exists (c :: w), u, y. cbn. by rewrite Hx. Qed.

Lemma active_on_cons k c x v p d : List.find (fun x => tchar x =? c) (kids k) = Some x -> active_on k (c :: v) p d ->
  tptr k = p /\ act p = Some d \/ active_on x v p d.
Proof.
  intros Hx ([|a w] & u & y & E & Hy & <- & Ha); [injection Hy as <-; by left|]. injection E as <- ->. right.
  cbn in Hy. rewrite Hx in Hy. by exists w, u, y.
Qed.

Lemma best_spec prev k : (best prev k = prev \/ exists d, act (tptr k) = Some d /\ best prev k = (tptr k, d)) /\
  (best prev k).2 <= prev.2 /\ forall d, act (tptr k) = Some d -> (best prev k).2 <= d.
Proof.
  unfold best. destruct (act (tptr k)) as [d|]; [|split; [by left|done]].
  destruct (Z.leb_spec d prev.2); cbn.
  - split; [right; eauto|]. split; [done|]. by intros ? [= ->].
  - split; [by left|]. split; [done|]. intros ? [= <-]. lia.
Qed.

Lemma along_spec v : forall prev k x, subtree k v = Some x ->
  (along prev k v = prev \/ active_on k v (along prev k v).1 (along prev k v).2) /\
  (along prev k v).2 <= prev.2 /\ forall p d, active_on k v p d -> (along prev k v).2 <= d.
Proof.
  induction v as [|c v IH]; intros prev k x Hx; destruct (best_spec prev k) as (Hb & Hle & Hd).
  - cbn [along]. split; [|split; [done|]].
    + destruct Hb as [->|(d & Ha & ->)]; [by left|right]. by exists [], [], k.
    + intros p d (w & u & y & E & Hy & <- & Ha). symmetry in E. apply app_eq_nil in E as [-> _]. injection Hy as <-. by apply Hd.
  - cbn [subtree along] in *. destruct (List.find _ (kids k)) as [y|] eqn:Ey; [|done].
    destruct (IH (best prev k) y x Hx) as (H1 & H2 & H3). split; [|split; [lia|]].
    + destruct H1 as [E|H1]; [|right; by eapply active_below]. rewrite E. destruct Hb as [->|(d & Ha & ->)]; [by left|right].
      by exists [], (c :: v), k.
    + intros p d [[<- Ha]|Hon]%(active_on_cons _ _ _ _ _ _ Ey); [specialize (Hd _ Ha); lia|by apply (H3 p)].
Qed.

(** Items and the keywords they stand for. *)
Lemma items_spec k : forall d prev it, wf d k -> it ∈ items prev k <->
  exists v x, subtree k v = Some x /\ isTerminalNode (tnode x) = true /\ it = mk_item (along prev k v).1 (tptr x) (along prev k v).2.
Proof.
  induction k as [p n cs IH] using tree_ind'. intros d prev it Hw. cbn [items]. rewrite elem_of_app, elem_of_flat_map.
  rewrite Forall_forall in IH. split.
  - intros [H|(x & Hx & H)].
    + destruct (isTerminalNode n) eqn:Ht; [|by apply not_elem_of_nil in H]. apply list_elem_of_singleton in H as ->. by exists [], (Tree p n cs).
    + apply (IH x Hx (d + 1)) in H as (v & y & Hy & Ht & ->); [|by apply (wf_kid d (Tree p n cs))].
      exists (tchar x :: v), y. pose proof Hx as (l & r & E)%list_elem_of_split. pose proof (wf_kids _ _ Hw) as Hs. cbn [kids] in Hs.
      cbn [subtree along kids]. rewrite E in *. by rewrite kid_present.
  - intros ([|c v] & y & Hy & Ht & ->); [injection Hy as <-; left; cbn in Ht; rewrite Ht; set_solver|]. right.
    cbn [subtree along kids] in *. destruct (List.find _ cs) as [x|] eqn:E; [|done]. apply find_some in E as [Hx _].
    apply list_elem_of_In in Hx. exists x. split; [done|]. apply (IH x Hx (d + 1)); [by apply (wf_kid d (Tree p n cs))|]. by exists v, y.
Qed.

Lemma kid_found d k x : wf d k -> x ∈ kids k -> List.find (fun y => tchar y =? tchar x) (kids k) = Some x.
Proof. intros Hw (l & r & E)%list_elem_of_split. pose proof (wf_kids _ _ Hw) as Hs. rewrite E in *. by apply kid_present. Qed.

(** Each item has the least distance of an active node on the path to its keyword. *)
Lemma all_items_sound k : forall d it, wf d k -> it ∈ all_items k ->
  exists v x, subtree k v = Some x /\ isTerminalNode (tnode x) = true /\ leafNode it = tptr x /\
    active_on k v (prefixNode it) (distance it) /\ forall p e, active_on k v p e -> distance it <= e.
Proof.
  induction k as [p n cs IH] using tree_ind'. intros d it Hw. cbn [all_items tptr kids].
  destruct (act p) as [c|] eqn:Ha.
  - intros (v & x & Hx & Ht & ->)%(items_spec _ d _ _ Hw). exists v, x.
    destruct (along_spec v (p, c) (Tree p n cs) x Hx) as (H1 & _ & H3). cbn [leafNode prefixNode distance].
    split; [done|]. split; [done|]. split; [done|]. split; [|done].
    destruct H1 as [->|H1]; [|done]. by exists [], v, (Tree p n cs).
  - intros (y & Hy & Hit)%elem_of_flat_map. rewrite Forall_forall in IH. pose proof (kid_found d (Tree p n cs) y Hw Hy) as Ef.
    destruct (IH y Hy (d + 1) it) as (v & x & Hx & Ht & El & Hon & Hmin); [by apply (wf_kid d (Tree p n cs))|done|].
    exists (tchar y :: v), x. cbn [subtree kids] in *. rewrite Ef. split; [done|]. split; [done|]. split; [done|].
    split; [by eapply (active_below (Tree p n cs))|]. intros q e Hq. apply (active_on_cons (Tree p n cs) _ y) in Hq as [[<- Hq]|Hq]; [|by apply (Hmin q)|done].
    cbn in Hq. by rewrite Ha in Hq.
Qed.

Lemma all_items_complete k : forall d v x p e, wf d k -> subtree k v = Some x -> isTerminalNode (tnode x) = true ->
  active_on k v p e -> exists it, it ∈ all_items k /\ leafNode it = tptr x.
Proof.
  induction k as [q n cs IH] using tree_ind'. intros d v x p e Hw Hx Ht Hon. cbn [all_items tptr kids].
  destruct (act q) as [c|] eqn:Ha.
  - eexists. split; [apply (items_spec _ d _ _ Hw); exists v, x; split; [done|]; split; [done|reflexivity]|done].
  - destruct v as [|a v].
    { destruct Hon as (w & u & y & E & Hy & <- & Hact). symmetry in E. apply app_eq_nil in E as [-> _]. injection Hy as <-. cbn in Hact. by rewrite Ha in Hact. }
    pose proof Hx as Hx'. cbn [subtree kids] in Hx'. destruct (List.find _ cs) as [y|] eqn:Ef; [|done].
    apply (active_on_cons (Tree q n cs) a y) in Hon as [[<- Hact]|Hon]; [cbn in Hact; by rewrite Ha in Hact| |done].
    pose proof Ef as [Hy _]%find_some. apply list_elem_of_In in Hy. rewrite Forall_forall in IH.
    destruct (IH y Hy (d + 1) v x p e) as (it & Hit & El); [by apply (wf_kid d (Tree q n cs))|done..|].
    exists it. split; [|done]. apply elem_of_flat_map. eauto.
Qed.

(** Every keyword is met at most once, in the order of the trie. *)
Lemma items_terminals k : forall prev, map leafNode (items prev k) = terminals k.
Proof.
  induction k as [p n cs IH] using tree_ind'. intros prev. cbn [items terminals]. rewrite map_app. f_equal; [by destruct (isTerminalNode n)|].
  generalize (best prev (Tree p n cs)). intros b. induction IH as [|x cs Hx _ IH]; cbn; [done|]. by rewrite map_app, Hx, IH.
Qed.

Lemma all_items_terminals k : map leafNode (all_items k) `sublist_of` terminals k.
Proof.
  induction k as [p n cs IH] using tree_ind'. cbn [all_items tptr kids]. destruct (act p) as [c|]; [by rewrite items_terminals|].
  cbn [terminals]. apply sublist_inserts_l. induction IH as [|x cs Hx _ IH]; cbn; [constructor|]. rewrite map_app. by apply sublist_app.
Qed.

End Traverse.

(** ** The keywords of a prefix query *)

Section Answers.
Context (h : heap) (t : tree).
Context (Hse : searchable h 0 t) (Hinh : inhabited t) (Hnd : NoDup (ptrs t)).

Lemma rooted_in s p x : sound t s -> PANMap s !! p = Some x -> exists w k, subtree t w = Some k /\ tptr k = p.
Proof. intros Hs Hp. destruct (so_places _ _ Hs p x Hp) as (w & k & Hk & E & _). eauto. Qed.

Lemma sound_fresh s : sound t s -> Z.of_nat (size (cells h)) < 2 ^ 32 -> fresh s.
Proof.
  intros Hs Hsize. split; [apply (so_ok _ _ Hs)|apply (so_small _ _ Hs)|apply (so_stale _ _ Hs)|].
  assert (size (PANMap s) <= size (cells h))%nat; [|lia]. rewrite <- !size_dom. apply subseteq_size. intros p [x Hx]%elem_of_dom.
  destruct (rooted_in s p x Hs Hx) as (w & k & Hk & <-). apply elem_of_dom. eapply shape_live; [apply (se_shape _ _ _ Hse)|].
  by eapply subtree_ptr.
Qed.

Lemma listing_keyed s bound items : sound t s -> listing s bound items -> Forall (fun e => keyed h (interval_of h) e.1) items.
Proof.
  intros Hs Hl. apply Forall_forall. intros [p d] Hp. apply (li_elem _ _ _ Hl) in Hp as (x & Hx & _).
  destruct (rooted_in s p x Hs Hx) as (w & k & Hk & <-). by apply (subtree_keyed h 0 t w k).
Qed.

(** The map of active nodes as the traversal takes it. *)
Lemma active_map s bound items : sound t s -> listing s bound items ->
  exists m, fold_res items (fun m item => pm_lower h item.1 item.2 m) [] = Ok m /\ m = actives (value m) (ptrs t) /\
    (forall p d, value m p = Some d -> (p, d) ∈ items) /\
    forall p d, (p, d) ∈ items -> exists q e, value m q = Some e /\ interval_of h q = interval_of h p /\ e <= d.
Proof.
  intros Hs Hl. destruct (pm_fold_sorted h (interval_of h) items) as (m & Hr & Hok & Hsub & Hto).
  - by eapply listing_keyed.
  - apply (li_sorted _ _ _ Hl).
  - pose proof (pm_ok_nodup _ _ _ Hok) as Hn.
    exists m. split; [done|]. split; [|split].
    + symmetry. apply (restrict_order (interval_of h)); [done|by apply (ptrs_preorder h t 0)|apply (pm_sorted _ _ _ Hok)|].
      intros [p d] He%Hsub. apply (li_elem _ _ _ Hl) in He as (x & Hx & _). destruct (rooted_in s p x Hs Hx) as (w & k & Hk & <-).
      by eapply subtree_ptr.
    + intros p d Hv. apply Hsub. by apply value_elem.
    + intros p d Hp. destruct (Hto (p, d) Hp) as ([q e] & He & E & Hle). exists q, e. split; [by apply value_elem|done].
Qed.

Lemma ptrs_size : (length (ptrs t) <= size (cells h))%nat.
Proof.
  rewrite <- size_dom, <- (size_list_to_set (C:=gset ptr) (ptrs t)) by done.
  apply subseteq_size. intros p Hp. apply elem_of_list_to_set in Hp. apply elem_of_dom. eapply shape_live; [apply (se_shape _ _ _ Hse)|done].
Qed.

(** Nodes with one interval lie on the paths to the same keywords. *)
Lemma same_interval w0 k0 w1 k1 w k : subtree t w0 = Some k0 -> subtree t w1 = Some k1 -> interval k1 = interval k0 ->
  subtree t w = Some k -> isTerminalNode (tnode k) = true -> extends w0 w -> extends w1 w.
Proof.
  intros Hk0 Hk1 E Hk Ht. assert (In (w, (id (tnode k), invertedListOffset (tnode k))) (entries t)) as Hin
    by (apply (entries_subtree 0); [apply (se_wf _ _ _ Hse)|eauto]).
  assert (forall u x, subtree t u = Some x -> first_id x <= id (tnode k) <= last_id x <-> extends u w) as Hiw.
  { intros u x Hx. destruct (subtree_searchable h u 0 t x Hse Hinh Hx) as [Hsx Hix].
    destruct (subtree_place u t x Hx) as (ctx & Et & <-). rewrite Et in Hse, Hin.
    apply (interval_words h ctx x Hse) with (o := invertedListOffset (tnode k)); [|done]. eapply ids_nonempty; [apply (se_wf _ _ _ Hsx)|done]. }
  rewrite <- (Hiw w0 k0 Hk0), <- (Hiw w1 k1 Hk1). injection E as -> ->. done.
Qed.

(** An active node within the bound on the path to [w]. *)
Definition reached (s : PrefixActiveNodeSet) (bound : Z) (w : list Z) (p : ptr) (d : Z) : Prop :=
  exists w0 v k0 x, w = w0 ++ v /\ subtree t w0 = Some k0 /\ tptr k0 = p /\ PANMap s !! p = Some x /\
    transformationdistance x = d /\ d <= bound.

Lemma on_reached s bound items m w p d : listing s bound items -> (forall p d, value m p = Some d -> (p, d) ∈ items) ->
  active_on (value m) t w p d -> reached s bound w p d.
Proof.
  intros Hl Hv (w0 & v & k0 & -> & Hk0 & <- & Ha). apply Hv, (li_elem _ _ _ Hl) in Ha as (x & Hx & Ht & Hd).
  by exists w0, v, k0, x.
Qed.

Lemma reached_on s bound items m w k p d : listing s bound items -> sound t s ->
  (forall p d, value m p = Some d -> (p, d) ∈ items) ->
  (forall p d, (p, d) ∈ items -> exists q e, value m q = Some e /\ interval_of h q = interval_of h p /\ e <= d) ->
  subtree t w = Some k -> isTerminalNode (tnode k) = true -> reached s bound w p d ->
  exists q e, active_on (value m) t w q e /\ e <= d.
Proof.
  intros Hl Hs Hfrom Hto Hk Ht (w0 & v & k0 & x & Ew & Hk0 & <- & Hx & Hd & Hb).
  destruct (Hto (tptr k0) d) as (q & e & Hq & E & Hle); [apply (li_elem _ _ _ Hl); eauto|].
  pose proof (Hfrom q e Hq) as Hit. apply (li_elem _ _ _ Hl) in Hit as (y & Hy & _).
  destruct (rooted_in s q y Hs Hy) as (w1 & k1 & Hk1 & <-).
  rewrite (proj2 (subtree_keyed h 0 t w0 k0 Hse Hinh Hk0)), (proj2 (subtree_keyed h 0 t w1 k1 Hse Hinh Hk1)) in E.
  destruct (same_interval w0 k0 w1 k1 w k Hk0 Hk1 E Hk Ht) as [u Eu]; [by exists v|].
  exists (tptr k1), e. split; [|done]. by exists w1, u, k1.
Qed.

(** What the iterator over the keywords of a prefix query holds. *)
Record prefix_answers (s : PrefixActiveNodeSet) (bound : Z) (its : list LeafNodeSetIteratorItem) : Prop := {
  pa_order : map leafNode its `sublist_of` terminals t;
  pa_sound it : it ∈ its -> exists w k, subtree t w = Some k /\ isTerminalNode (tnode k) = true /\ leafNode it = tptr k /\
    reached s bound w (prefixNode it) (distance it) /\ forall p d, reached s bound w p d -> distance it <= d;
  pa_complete w k p d : subtree t w = Some k -> isTerminalNode (tnode k) = true -> reached s bound w p d ->
    exists it, it ∈ its /\ leafNode it = tptr k }.

Lemma prefix_run s bound : sound t s -> Z.of_nat (size (cells h)) < 2 ^ 32 -> 0 <= bound <= editDistanceThreshold s ->
  exists its, lp_initLeafNodeSetIterator h s bound = Ok (mk_leaves its 0) /\ prefix_answers s bound its.
Proof.
  intros Hs Hsize Hb. destruct (leaf_start_run s bound (sound_fresh s Hs Hsize) Hb) as (it0 & items & Hr0 & Hl & Hfor).
  destruct (active_map s bound items Hs Hl) as (m & Hrm & Em & Hfrom & Hto). exists (all_items (value m) t).
  pose proof (se_wf _ _ _ Hse) as Hw. split.
  - unfold lp_initLeafNodeSetIterator. rewrite Hr0. cbn [rbind]. rewrite Hfor, Hrm. cbn [rbind].
    destruct (traverse_all_node h (value m) t (se_shape _ _ _ Hse) Hnd ptrs_size (length m) [] []) as (f & _ & Hr).
    + intros e He. by apply not_elem_of_nil in He.
    + by rewrite app_nil_r, <- Em.
    + rewrite app_nil_r, <- Em in Hr. rewrite Hr. by destruct f.
  - split.
    + apply all_items_terminals.
    + intros it Hit. destruct (all_items_sound (value m) t 0 it Hw Hit) as (w & k & Hk & Ht & El & Hon & Hmin).
      exists w, k. split; [done|]. split; [done|]. split; [done|]. split; [by eapply on_reached|].
      intros p d Hreach. destruct (reached_on s bound items m w k p d Hl Hs Hfrom Hto Hk Ht Hreach) as (q & e & Hq & Hle).
      specialize (Hmin q e Hq). lia.
    + intros w k p d Hk Ht Hreach. destruct (reached_on s bound items m w k p d Hl Hs Hfrom Hto Hk Ht Hreach) as (q & e & Hq & _).
      by apply (all_items_complete (value m) t 0 w k q e).
Qed.

(** ** The keywords of a whole word *)

(** What the descent from a node offers to the map. *)
Fixpoint within (k : tree) (editDistance panDistance bound : Z) : list (ptr * Z) :=
  match k with
  | Tree p n cs =>
      (if isTerminalNode n then [(p, Z.max editDistance panDistance)] else []) ++
      (if panDistance <? bound then flat_map (fun x => within x editDistance (panDistance + 1) bound) cs else [])
  end.

Lemma fold_res_app {A B} (f : B -> A -> result B) l1 l2 : forall b,
  fold_res (l1 ++ l2) f b = rbind (fold_res l1 f b) (fold_res l2 f).
Proof. induction l1 as [|x l1 IH]; intros b; cbn; [done|]. destruct (f b x); cbn; [apply IH|done]. Qed.

Abbreviation lower_all l m := (fold_res l (fun m item => pm_lower h item.1 item.2 m) m).

Lemma within_run fuel : forall k e pan bound m, shape h k -> (height k <= fuel)%nat -> 0 <= pan -> bound < 2 ^ 32 ->
  computeTerminalNodesWithinDistance fuel h m (tptr k) e pan bound = lower_all (within k e pan bound) m.
Proof.
  induction fuel as [|fuel IH]; intros [p n cs] e pan bound m Hs Hh Hp Hb; [cbn in Hh; lia|].
  cbn [computeTerminalNodesWithinDistance within tptr]. rewrite (shape_load_root h (Tree p n cs) Hs : s_load h p = Ok n). cbn [rbind]. rewrite fold_res_app.
  assert ((if isTerminalNode n then pm_lower h p (if pan <? e then e else pan) m else Ok m) =
    lower_all (if isTerminalNode n then [(p, Z.max e pan)] else []) m) as ->.
  { destruct (isTerminalNode n); [|done]. cbn. replace (if pan <? e then e else pan) with (Z.max e pan) by (destruct (Z.ltb_spec pan e); lia).
    by destruct (pm_lower h p (Z.max e pan) m). }
  destruct (lower_all _ m) as [m1|f]; [|done]. cbn [rbind]. destruct (Z.ltb_spec pan bound) as [Hlt|]; [|done].
  assert (childrenPointerList n = map tptr cs) as -> by (by inversion Hs).
  assert (Forall (shape h) cs) as Hcs by (by inversion Hs). apply height_kids in Hh. rewrite wrap_id by (unfold is_uint; lia).
  clear Hs. revert m1. induction Hcs as [|x cs Hx _ IHcs]; intros m1; cbn [map fold_res flat_map]; [done|].
  apply Forall_cons in Hh as [Hhx Hh]. rewrite fold_res_app, IH by (done || lia). by destruct (lower_all (within x e (pan + 1) bound) m1) as [m2|]; [apply IHcs|done].
Qed.

Lemma within_elem k : forall d e pan bound y, wf d k -> y ∈ within k e pan bound <->
  exists v x, subtree k v = Some x /\ isTerminalNode (tnode x) = true /\ (v = [] \/ pan + len v <= bound) /\
    y = (tptr x, Z.max e (pan + len v)).
Proof.
  induction k as [p n cs IH] using tree_ind'. intros d e pan bound y Hw. cbn [within]. rewrite elem_of_app. rewrite Forall_forall in IH. split.
  - intros [H|H].
    + destruct (isTerminalNode n) eqn:Ht; [|by apply not_elem_of_nil in H]. apply list_elem_of_singleton in H as ->.
      exists [], (Tree p n cs). rewrite len_nil, Z.add_0_r. split; [done|]. split; [done|]. split; [by left|done].
    + destruct (Z.ltb_spec pan bound) as [Hlt|]; [|by apply not_elem_of_nil in H]. apply elem_of_flat_map in H as (x & Hx & H).
      apply (IH x Hx (d + 1)) in H as (v & z & Hz & Ht & Hv & ->); [|by apply (wf_kid d (Tree p n cs))].
      exists (tchar x :: v), z. pose proof (kid_found d (Tree p n cs) x Hw Hx) as Ef. cbn [subtree kids] in *. rewrite Ef, len_cons.
      split; [done|]. split; [done|]. split; [right; destruct Hv as [->|]; lens|]. do 2 f_equal. lia.
  - intros ([|c v] & z & Hz & Ht & Hv & ->).
    + injection Hz as <-. left. cbn in Ht. rewrite Ht, len_nil, Z.add_0_r. set_solver.
    + right. cbn [subtree kids] in Hz. destruct (List.find _ cs) as [x|] eqn:Ef; [|done]. apply find_some in Ef as [Hx _].
      apply list_elem_of_In in Hx. destruct Hv as [|Hv]; [done|]. rewrite len_cons in *. pose proof (len_nonneg v).
      destruct (Z.ltb_spec pan bound); [|lia]. apply elem_of_flat_map. exists x. split; [done|].
      apply (IH x Hx (d + 1)); [by apply (wf_kid d (Tree p n cs))|]. exists v, z. split; [done|]. split; [done|]. split; [right; lia|]. do 2 f_equal. lia.
Qed.

(** [d] is the distance that the active node at [w0] offers for the keyword at [w]. *)
Definition offers (s : PrefixActiveNodeSet) (bound : Z) (w : list Z) (d : Z) : Prop :=
  exists w0 v k0 x, w = w0 ++ v /\ subtree t w0 = Some k0 /\ PANMap s !! tptr k0 = Some x /\ transformationdistance x <= bound /\
    (v = [] \/ editdistanceofPrefix x + len v <= bound) /\ d = Z.max (transformationdistance x) (editdistanceofPrefix x + len v).

Lemma offers_run s bound items : sound t s -> bound < 2 ^ 32 -> listing s bound items ->
  exists l, (forall m, fold_res items (fun m item =>
      let? panDistance := getEditdistanceofPrefix s item.1 in
      computeTerminalNodesWithinDistance (S (size (cells h))) h m item.1 item.2 panDistance bound) m = lower_all l m) /\
    forall p d, (p, d) ∈ l <-> exists w k, subtree t w = Some k /\ isTerminalNode (tnode k) = true /\ p = tptr k /\ offers s bound w d.
Proof.
  intros Hs Hb Hl. pose proof (se_wf _ _ _ Hse) as Hw.
  assert (forall p d, (p, d) ∈ items -> exists w0 k0 x, subtree t w0 = Some k0 /\ tptr k0 = p /\ PANMap s !! p = Some x /\
    transformationdistance x = d /\ d <= bound) as Hit.
  { intros p d (x & Hx & Ht & Hd)%(li_elem _ _ _ Hl). destruct (rooted_in s p x Hs Hx) as (w0 & k0 & Hk0 & E). by exists w0, k0, x. }
  assert (exists l, (forall m, fold_res items (fun m item =>
      let? panDistance := getEditdistanceofPrefix s item.1 in
      computeTerminalNodesWithinDistance (S (size (cells h))) h m item.1 item.2 panDistance bound) m = lower_all l m) /\
    forall y, y ∈ l <-> exists w0 k0 x, (tptr k0, transformationdistance x) ∈ items /\ subtree t w0 = Some k0 /\ PANMap s !! tptr k0 = Some x /\
      y ∈ within k0 (transformationdistance x) (editdistanceofPrefix x) bound) as (l & Hr & Hin).
  { clear Hl. induction items as [|[p d] items IH].
    - exists []. split; [done|]. intros y. split; [by intros ?%not_elem_of_nil|]. intros (w0 & k0 & x & H & _). by apply not_elem_of_nil in H.
    - destruct IH as (l & Hr & Hin); [intros q e Hq; apply Hit; set_solver|].
      destruct (Hit p d) as (w0 & k0 & x & Hk0 & <- & Hx & <- & _); [set_solver|].
      exists (within k0 (transformationdistance x) (editdistanceofPrefix x) bound ++ l). split.
      + intros m. rewrite fold_res_app. cbn [fold_res fst snd]. unfold getEditdistanceofPrefix. rewrite Hx. cbn [rbind].
        rewrite within_run; [by destruct (lower_all _ m); [apply Hr|]|eapply subtree_shape; [apply (se_shape _ _ _ Hse)|done]| | |done].
        * pose proof (subtree_height _ _ _ Hk0). pose proof (height_size h t (se_shape _ _ _ Hse) Hnd). lia.
        * apply (so_ok _ _ Hs) in Hx as [[] _]. done.
      + intros y. rewrite elem_of_app, Hin. split.
        * intros [Hy|(w1 & k1 & x1 & H & Hy)]; [exists w0, k0, x|exists w1, k1, x1]; split; try done; set_solver.
        * intros (w1 & k1 & x1 & [E|H]%elem_of_cons & Hk1 & Hx1 & Hy); [left|right; by exists w1, k1, x1].
          injection E as Ep Ed. rewrite Ep, Hx in Hx1. injection Hx1 as <-.
          assert (k1 = k0) as <- by (eapply shape_functional; [eapply subtree_shape; [apply (se_shape _ _ _ Hse)|done]..|done]). done. }
  exists l. split; [done|]. intros p d. rewrite Hin. split.
  - intros (w0 & k0 & x & Hi & Hk0 & Hx & Hy). apply (within_elem k0 (0 + len w0)) in Hy as (v & k & Hk & Ht & Hv & [= -> ->]); [|by eapply subtree_wf].
    exists (w0 ++ v), k. split; [by rewrite subtree_app, Hk0|]. split; [done|]. split; [done|]. exists w0, v, k0, x.
    apply (li_elem _ _ _ Hl) in Hi as (x' & Hx' & Ht' & Hle). rewrite Hx in Hx'. injection Hx' as <-. repeat split; try done; lia.
  - intros (w & k & Hk & Ht & -> & w0 & v & k0 & x & -> & Hk0 & Hx & Hd & Hv & ->). rewrite subtree_app, Hk0 in Hk. exists w0, k0, x.
    split; [apply (li_elem _ _ _ Hl); eauto|]. split; [done|]. split; [done|]. apply (within_elem k0 (0 + len w0)); [by eapply subtree_wf|]. eauto 6.
Qed.

Lemma terminal_distinct w k w' k' : subtree t w = Some k -> isTerminalNode (tnode k) = true ->
  subtree t w' = Some k' -> isTerminalNode (tnode k') = true -> interval k = interval k' -> k = k'.
Proof.
  intros Hk Ht Hk' Ht' E. destruct (same_interval w k w' k' w k Hk Hk' (eq_sym E) Hk Ht) as [u Eu]; [exists []; by rewrite app_nil_r|].
  destruct (same_interval w' k' w k w' k' Hk' Hk E Hk' Ht') as [u' Eu']; [exists []; by rewrite app_nil_r|].
  rewrite Eu' in Eu. rewrite <- app_assoc in Eu. rewrite <- (app_nil_r w) in Eu at 1. apply app_inv_head in Eu.
  symmetry in Eu. apply app_eq_nil in Eu as [-> ->]. rewrite app_nil_r in Eu'. congruence.
Qed.

(** What the iterator over the keywords within the bound holds. *)
Record word_answers (s : PrefixActiveNodeSet) (bound : Z) (m : preorder_map) : Prop := {
  wa_order : map fst m `sublist_of` ptrs t;
  wa_nodup : NoDup (map fst m);
  wa_sound p d : (p, d) ∈ m -> exists w k, subtree t w = Some k /\ isTerminalNode (tnode k) = true /\ p = tptr k /\ offers s bound w d;
  wa_complete w k d : subtree t w = Some k -> isTerminalNode (tnode k) = true -> offers s bound w d ->
    exists d', (tptr k, d') ∈ m /\ d' <= d }.

Lemma actives_sublist act l : map fst (actives act l) `sublist_of` l.
Proof. induction l as [|p l IH]; cbn; [constructor|]. destruct (act p); cbn; by constructor. Qed.

Lemma word_run s bound : sound t s -> Z.of_nat (size (cells h)) < 2 ^ 32 -> 0 <= bound <= editDistanceThreshold s ->
  exists m, lc_initLeafNodeSetIterator h s bound = Ok (mk_complete m m) /\ word_answers s bound m.
Proof.
  intros Hs Hsize Hb. destruct (leaf_start_run s bound (sound_fresh s Hs Hsize) Hb) as (it0 & items & Hr0 & Hl & Hfor).
  pose proof (so_small _ _ Hs) as Hsm. unfold small in Hsm.
  destruct (offers_run s bound items Hs) as (l & Hfold & Hin); [lia|done|].
  destruct (pm_fold_distinct h (interval_of h) l) as (m & Hr & Hok & Hfrom & Hto).
  - apply Forall_forall. intros [p d] (w & k & Hk & _ & -> & _)%Hin. by apply (subtree_keyed h 0 t w k).
  - intros [p d] [p' d'] (w & k & Hk & Ht & -> & _)%Hin (w' & k' & Hk' & Ht' & -> & _)%Hin E. cbn in *.
    rewrite (proj2 (subtree_keyed h 0 t w k Hse Hinh Hk)), (proj2 (subtree_keyed h 0 t w' k' Hse Hinh Hk')) in E.
    by rewrite (terminal_distinct w k w' k' Hk Ht Hk' Ht' E).
  - exists m. unfold lc_initLeafNodeSetIterator. rewrite Hr0. cbn [rbind]. rewrite Hfor, Hfold, Hr. split; [done|].
    pose proof (pm_ok_nodup _ _ _ Hok) as Hn. split; [|done| |].
    + rewrite <- (restrict_order (interval_of h) (ptrs t) Hnd (ptrs_preorder h t 0 Hse Hinh) m (pm_sorted _ _ _ Hok)); [apply actives_sublist|].
      intros [p d] (w & k & Hk & _ & -> & _)%Hfrom%Hin. by eapply subtree_ptr.
    + intros p d Hp. by apply Hin, Hfrom.
    + intros w k d Hk Ht Ho. apply (Hto (tptr k, d)), Hin. by exists w, k.
Qed.

(** An offered distance is at least the edit distance, and within the bound. *)
Lemma offers_lev s bound w d : sound t s -> supportSwapInEditDistance s = false -> offers s bound w d ->
  lev (prefix s) w <= d <= bound.
Proof.
  intros Hs Hsw (w0 & v & k0 & x & -> & Hk0 & Hx & Ht & Hv & ->).
  destruct (so_places _ _ Hs _ x Hx) as (w1 & k1 & Hk1 & E & q & u & j & Eq & Hu & He & Hj).
  assert (k1 = k0) as -> by (eapply shape_functional; [eapply subtree_shape; [apply (se_shape _ _ _ Hse)|done]..|done]).
  assert (w1 = w0) as -> by (by apply (subtree_inj w1 t w0 k0 Hnd)). destruct (so_ok _ _ Hs _ x Hx) as [[Hsum Hd Hp] _].
  rewrite Hsw in Hj. cbn [factor] in Hj. split.
  - rewrite Eq. etransitivity; [apply lev_least, (edits_app _ _ _ _ _ _ He (edits_gap u v))|]. lia.
  - destruct Hv as [->|Hv]; [rewrite len_nil|]; lia.
Qed.

(** A keyword within the bound is offered with its distance or less. *)
Lemma lev_offers s bound w k : sound t s -> complete t s -> supportSwapInEditDistance s = false -> editDistanceThreshold s <= 2 ->
  bound <= editDistanceThreshold s -> plain w -> subtree t w = Some k -> lev (prefix s) w <= bound ->
  exists d, offers s bound w d /\ d <= lev (prefix s) w.
Proof.
  intros Hs Hc Hsw Hle Hb Hp Hk Hlev. destruct (proj1 (lev_matched (prefix s) w (lev (prefix s) w)) (Z.le_refl _))
    as [(q & u & w0 & v & e & Eq & -> & Hm & He)].
  rewrite subtree_app in Hk. destruct (subtree t w0) as [k0|] eqn:Hk0; [|done]. apply Forall_app in Hp as [Hp _].
  assert (e + len u <= editDistanceThreshold s) as Ht by lens.
  destruct (Hc q u w0 k0 e Eq Hp Hk0 Hm Ht) as (x & Hx & Hbx).
  destruct (better_dominates h t (se_shape _ _ _ Hse) Hnd s q u w0 k0 e x Hs Hsw Hle Eq Hk0 Hm Ht Hx Hbx) as ([Hsum Hd Hp'] & Hex & Htx).
  pose proof (len_nonneg u). pose proof (len_nonneg v).
  exists (Z.max (transformationdistance x) (editdistanceofPrefix x + len v)). split; [|lia].
  exists w0, v, k0, x. split; [done|]. split; [done|]. split; [done|]. split; [lia|]. split; [right; lia|done].
Qed.

(** A prefix within the bound is reached, and what is reached is one. *)
Lemma lev_reached s bound w k w0 v : sound t s -> complete t s -> bound <= editDistanceThreshold s -> plain w ->
  subtree t w = Some k -> w = w0 ++ v -> lev (prefix s) w0 <= bound -> exists p d, reached s bound w p d /\ d <= lev (prefix s) w0.
Proof.
  intros Hs Hc Hb Hp Hk -> Hlev. rewrite subtree_app in Hk. destruct (subtree t w0) as [k0|] eqn:Hk0; [|done]. apply Forall_app in Hp as [Hp _].
  destruct (complete_prefix t s w0 k0 _ Hs Hc Hp Hk0 (Z.le_trans _ _ _ Hlev Hb) (Z.le_refl _)) as (w1 & u & k1 & x & -> & Hk1 & Hx & Ht).
  exists (tptr k1), (transformationdistance x). split; [|done]. exists w1, (u ++ v), k1, x. rewrite app_assoc. split; [done|]. split; [done|]. split; [done|]. split; [done|]. split; [done|lia].
Qed.

Lemma reached_lev s bound w p d : sound t s -> supportSwapInEditDistance s = false -> reached s bound w p d ->
  exists w0 v k0, w = w0 ++ v /\ subtree t w0 = Some k0 /\ p = tptr k0 /\ lev (prefix s) w0 <= d <= bound.
Proof.
  intros Hs Hsw (w0 & v & k0 & x & -> & Hk0 & <- & Hx & <- & Hb). exists w0, v, k0. split; [done|]. split; [done|]. split; [done|]. split; [|done].
  destruct (so_places _ _ Hs _ x Hx) as (w1 & k1 & Hk1 & E & Ha). destruct (so_ok _ _ Hs _ x Hx) as [Hok _].
  assert (k1 = k0) as -> by (eapply shape_functional; [eapply subtree_shape; [apply (se_shape _ _ _ Hse)|done]..|done]).
  assert (w1 = w0) as -> by (by apply (subtree_inj w1 t w0 k0 Hnd)).
  apply (accurate_lev _ _ _ Hok) in Ha. rewrite Hsw in Ha. cbn [factor] in Ha. lia.
Qed.

(** The set of a query, sound, and complete for a plain query. *)
Lemma query_ready views ts tau q : start t views ts -> 0 <= tau <= 2 ->
  exists s0 s, new_set views ts tau false = Ok s0 /\ active_nodes h s0 q = Ok s /\ sound t s /\ (plain q -> complete t s) /\
    prefix s = q /\ editDistanceThreshold s = tau /\ supportSwapInEditDistance s = false.
Proof.
  intros Hst Htau. pose proof (se_shape _ _ _ Hse) as Hs. pose proof (se_wf _ _ _ Hse) as Hw.
  destruct (new_set_sound t views ts tau false Hst) as (s0 & Hr0 & H0 & E0 & E1 & E2 & E3); [lia|].
  destruct (query_sound h t Hs Hw Hnd q s0 H0) as (s & Hr & H & F1 & F2 & F3). rewrite E1 in F1. cbn in F1.
  exists s0, s. split; [done|]. split; [done|]. split; [done|]. split; [|split; [done|by rewrite F2, F3]].
  intros Hq. apply (query_complete h t Hs Hw Hnd q Hq s0 s); [done|by apply new_set_complete|done|lia|done].
Qed.

End Answers.

(** ** The theorems *)

(** (C23) The keywords of a prefix query, without swaps and up to threshold 2: the
    iterator is built without a fault and lists keywords of the trie, once each and in
    its order.  Every keyword that it lists has a prefix within the bound of the query:
    the path to the prefix node of its item, at a distance that is at most that of the
    item.  When all characters of the query are below CHARTYPE_FUZZY_UPPERBOUND (128), it
    lists of the keywords with such characters exactly those that have a prefix within
    the bound, and with each the least distance of one of its prefixes and the node of
    such a prefix.  (The code matches other characters exactly and does not step over
    them, so that it misses keywords with such characters within the bound.) *)
Theorem prefix_search_exact (h : heap) (t : tree) (views : store view) (ts : ptr) (tau bound : Z) (q : list Z) :
  searchable h 0 t -> inhabited t -> NoDup (ptrs t) -> start t views ts -> Z.of_nat (size (cells h)) < 2 ^ 32 ->
  0 <= bound <= tau -> tau <= 2 ->
  exists s0 s its, new_set views ts tau false = Ok s0 /\ active_nodes h s0 q = Ok s /\
    lp_initLeafNodeSetIterator h s bound = Ok (mk_leaves its 0) /\ map leafNode its `sublist_of` terminals t /\
    forall w k, subtree t w = Some k -> isTerminalNode (tnode k) = true ->
      (forall it, it ∈ its -> leafNode it = tptr k ->
        exists w0 v k0, w = w0 ++ v /\ subtree t w0 = Some k0 /\ prefixNode it = tptr k0 /\ lev q w0 <= distance it <= bound) /\
      (plain q -> plain w ->
        ((exists it, it ∈ its /\ leafNode it = tptr k) <-> exists w0 v, w = w0 ++ v /\ lev q w0 <= bound) /\
        forall it, it ∈ its -> leafNode it = tptr k ->
          (exists w0 v k0, w = w0 ++ v /\ subtree t w0 = Some k0 /\ prefixNode it = tptr k0 /\ lev q w0 = distance it) /\
          forall w0 v, w = w0 ++ v -> distance it <= lev q w0).
Proof.
  intros Hse Hinh Hnd Hst Hsize Hb Htau. destruct (query_ready h t Hse Hnd views ts tau q Hst) as (s0 & s & Hr0 & Hr & H & Hc & Ep & Et & Esw); [lia|].
  destruct (prefix_run h t Hse Hinh Hnd s bound H Hsize) as (its & Hits & [Hord Hsound Hcomp]); [lia|]. subst q.
  exists s0, s, its. split; [done|]. split; [done|]. split; [done|]. split; [done|]. intros w k Hk Ht.
  assert (forall it, it ∈ its -> leafNode it = tptr k -> reached t s bound w (prefixNode it) (distance it) /\
    forall p d, reached t s bound w p d -> distance it <= d) as Hits'.
  { intros it Hit El. destruct (Hsound it Hit) as (w' & k' & Hk' & Ht' & El' & Hres). rewrite El' in El.
    assert (k' = k) as -> by (eapply shape_functional; [eapply subtree_shape; [apply (se_shape _ _ _ Hse)|done]..|done]).
    by rewrite (subtree_inj w t w' k Hnd Hk Hk'). }
  assert (forall it, it ∈ its -> leafNode it = tptr k -> exists w0 v k0, w = w0 ++ v /\ subtree t w0 = Some k0 /\ prefixNode it = tptr k0 /\ lev (prefix s) w0 <= distance it <= bound) as Hlow.
  { intros it Hit El. destruct (Hits' it Hit El) as [Hreach _]. by apply (reached_lev h t Hse Hnd s bound w _ _ H Esw Hreach). }
  split; [exact Hlow|]. intros Hq Hp. specialize (Hc Hq). split; [split|].
  - intros (it & Hit & El). destruct (Hlow it Hit El) as (w0 & v & k0 & Ew & _ & _ & Hle). exists w0, v. split; [done|lia].
  - intros (w0 & v & Ew & Hlev). destruct (lev_reached t s bound w k w0 v H Hc) as (p & d & Hreach & _); try done; [lia|]. by apply (Hcomp w k p d).
  - intros it Hit El. destruct (Hits' it Hit El) as [_ Hmin]. destruct (Hlow it Hit El) as (w0 & v & k0 & Ew & Hk0 & Epn & Hle).
    assert (forall w0 v, w = w0 ++ v -> distance it <= lev (prefix s) w0) as Hleast.
    { intros w1 v1 Ew1. destruct (Z.le_gt_cases (lev (prefix s) w1) bound) as [Hin|Hout]; [|lia].
      destruct (lev_reached t s bound w k w1 v1 H Hc) as (p & d & Hr1 & Hd); try done; [lia|]. specialize (Hmin p d Hr1). lia. }
    split; [|done]. exists w0, v, k0. split; [done|]. split; [done|]. split; [done|]. specialize (Hleast w0 v Ew). lia.
Qed.

(** (C22) The keywords of a whole word, without swaps and up to threshold 2: the
    iterator lists keywords of the trie, once each and in its order, and every keyword
    that it lists is within the bound of the word, at an edit distance that is at most
    the listed one.  When all characters of the word are below CHARTYPE_FUZZY_UPPERBOUND
    (128), it lists of the keywords with such characters exactly those within the bound,
    with their edit distances.  (The code matches other characters exactly and does not
    step over them, so that it misses keywords with such characters within the bound.) *)
Theorem word_search_exact (h : heap) (t : tree) (views : store view) (ts : ptr) (tau bound : Z) (q : list Z) :
  searchable h 0 t -> inhabited t -> NoDup (ptrs t) -> start t views ts -> Z.of_nat (size (cells h)) < 2 ^ 32 ->
  0 <= bound <= tau -> tau <= 2 ->
  exists s0 s m, new_set views ts tau false = Ok s0 /\ active_nodes h s0 q = Ok s /\
    lc_initLeafNodeSetIterator h s bound = Ok (mk_complete m m) /\ map fst m `sublist_of` ptrs t /\
    (forall p d, (p, d) ∈ m -> exists w k, subtree t w = Some k /\ isTerminalNode (tnode k) = true /\ p = tptr k) /\
    forall w k d, subtree t w = Some k -> isTerminalNode (tnode k) = true ->
      ((tptr k, d) ∈ m -> lev q w <= d <= bound) /\ (plain q -> plain w -> (tptr k, d) ∈ m <-> d = lev q w /\ d <= bound).
Proof.
  intros Hse Hinh Hnd Hst Hsize Hb Htau. destruct (query_ready h t Hse Hnd views ts tau q Hst) as (s0 & s & Hr0 & Hr & H & Hc & Ep & Et & Esw); [lia|].
  destruct (word_run h t Hse Hinh Hnd s bound H Hsize) as (m & Hm & [Hord Hn Hsound Hcomp]); [lia|]. subst q.
  exists s0, s, m. split; [done|]. split; [done|]. split; [done|]. split; [done|]. split.
  { intros p d Hp. destruct (Hsound p d Hp) as (w & k & Hk & Ht & E & _). by exists w, k. }
  intros w k d Hk Ht.
  assert (forall d, (tptr k, d) ∈ m -> lev (prefix s) w <= d <= bound) as Hlow.
  { intros d' Hd. destruct (Hsound _ _ Hd) as (w' & k' & Hk' & Ht' & E & Ho).
    assert (k' = k) as -> by (eapply shape_functional; [eapply subtree_shape; [apply (se_shape _ _ _ Hse)|done]..|done]).
    rewrite (subtree_inj w t w' k Hnd Hk Hk'). by apply (offers_lev h t Hse Hnd s bound w' d'). }
  split; [apply Hlow|]. intros Hq Hp. assert (lev (prefix s) w <= bound -> (tptr k, lev (prefix s) w) ∈ m) as Hlev.
  { intros Hle. destruct (lev_offers h t Hse Hnd s bound w k H (Hc Hq) Esw) as (d1 & Ho & Hd1); try done; [lia|lia|].
    destruct (Hcomp w k d1 Hk Ht Ho) as (d2 & Hd2 & Hle2). specialize (Hlow d2 Hd2). by replace (lev (prefix s) w) with d2 by lia. }
  split.
  - intros Hd. specialize (Hlow d Hd). split; [|lia]. apply (value_elem m (tptr k)) in Hd; [|done].
    assert (value m (tptr k) = Some (lev (prefix s) w)) as Hv by (apply value_elem; [done|apply Hlev; lia]). rewrite Hd in Hv. by injection Hv.
  - intros [-> Hle]. by apply Hlev.
Qed.

(** ** Examples: the keywords "a", "ab" and "b" *)

Lemma loaded_demo_inhabited : inhabited loaded_demo_read.
Proof. intros E. vm_compute in E. discriminate E. Qed.

Lemma loaded_demo_size : Z.of_nat (size (cells (nodes loaded_demo))) < 2 ^ 32.
Proof. vm_compute. reflexivity. Qed.

Lemma prefix_search_exact_witness : exists s0 s its,
  new_set (views loaded_demo) (root_readview loaded_demo) 1 false = Ok s0 /\ active_nodes (nodes loaded_demo) s0 [98; 98] = Ok s /\
  lp_initLeafNodeSetIterator (nodes loaded_demo) s 1 = Ok (mk_leaves its 0) /\
  exists it, it ∈ its /\ forall k, subtree loaded_demo_read [97; 98] = Some k -> leafNode it = tptr k.
Proof.
  destruct (prefix_search_exact (nodes loaded_demo) loaded_demo_read (views loaded_demo) (root_readview loaded_demo) 1 1 [98; 98])
    as (s0 & s & its & H0 & H & Hits & _ & Hx).
  - exact loaded_demo_searchable.
  - exact loaded_demo_inhabited.
  - exact loaded_demo_read_nodup.
  - exact loaded_demo_start.
  - exact loaded_demo_size.
  - lia.
  - lia.
  - exists s0, s, its. split; [exact H0|]. split; [exact H|]. split; [exact Hits|].
    destruct (subtree loaded_demo_read [97; 98]) as [k|] eqn:Hk; [|exfalso; vm_compute in Hk; discriminate].
    assert (isTerminalNode (tnode k) = true) as Ht by (vm_compute in Hk; injection Hk as <-; reflexivity).
    destruct (proj2 (proj1 (proj2 (Hx [97; 98] k Hk Ht) ltac:(repeat constructor) ltac:(repeat constructor)))) as (it & Hin & El).
    + exists [97; 98], []. split; [reflexivity|]. vm_compute. discriminate.
    + exists it. split; [exact Hin|]. intros k' [= <-]. exact El.
Defined.

Lemma word_search_exact_witness : exists s0 s m,
  new_set (views loaded_demo) (root_readview loaded_demo) 1 false = Ok s0 /\ active_nodes (nodes loaded_demo) s0 [98; 98] = Ok s /\
  lc_initLeafNodeSetIterator (nodes loaded_demo) s 1 = Ok (mk_complete m m) /\
  forall k, subtree loaded_demo_read [97; 98] = Some k -> (tptr k, 1) ∈ m.
Proof.
  destruct (word_search_exact (nodes loaded_demo) loaded_demo_read (views loaded_demo) (root_readview loaded_demo) 1 1 [98; 98])
    as (s0 & s & m & H0 & H & Hm & _ & _ & Hx).
  - exact loaded_demo_searchable.
  - exact loaded_demo_inhabited.
  - exact loaded_demo_read_nodup.
  - exact loaded_demo_start.
  - exact loaded_demo_size.
  - lia.
  - lia.
  - exists s0, s, m. split; [exact H0|]. split; [exact H|]. split; [exact Hm|]. intros k Hk.
    assert (isTerminalNode (tnode k) = true) as Ht by (vm_compute in Hk; injection Hk as <-; reflexivity).
    apply (proj2 (Hx [97; 98] k 1 Hk Ht) ltac:(repeat constructor) ltac:(repeat constructor)). split; [reflexivity|]. lia.
Defined.

End LeafSearch.
