(* ===== verification/RecordAcl.v ===== *)
(** * The roles with access to a record (core/index/ForwardIndex.h: class RecordAcl)

    The roles are kept in a sorted vector without duplicates; the lock makes every
    operation one step. *)
From S2P Require Import Prelude.
From Stdlib Require Import ZArith Lia List Bool Sorted.
From stdpp Require Import base gmap list fin_maps sorting.
Open Scope Z_scope.

Module RecordAcl.

(** [operator<] of [std::string], over the bytes. *)
Fixpoint str_ltb (a b : list Z) : bool :=
  match a, b with
  | _, [] => false
  | [], _ :: _ => true
  | x :: a', y :: b' => if x <? y then true else if y <? x then false else str_ltb a' b'
  end.
Definition str_lt (a b : list Z) : Prop := str_ltb a b = true.

(** [std::lower_bound]: the first place whose element is not smaller. *)
Fixpoint lower_bound (roles : list (list Z)) (roleId : list Z) : nat :=
  match roles with
  | [] => O
  | r :: roles' => if str_ltb r roleId then S (lower_bound roles' roleId) else O
  end.

Definition findRole (roles : list (list Z)) (roleId : list Z) : bool * nat :=
  let it := lower_bound roles roleId in
  (match roles !! it with Some r => bool_decide (r = roleId) | None => false end, it).

(** The answer says whether the role was new. *)
Definition appendRole (roles : list (list Z)) (roleId : list Z) : bool * list (list Z) :=
  let (roleExisted, it) := findRole roles roleId in
  (negb roleExisted, if roleExisted then roles else take it roles ++ roleId :: drop it roles).

Definition deleteRole (roles : list (list Z)) (roleId : list Z) : bool * list (list Z) :=
  let (roleExisted, it) := findRole roles roleId in
  (roleExisted, if roleExisted then take it roles ++ drop (S it) roles else roles).

Definition hasRole (roles : list (list Z)) (roleId : list Z) : bool := (findRole roles roleId).1.
Definition clearRoles (roles : list (list Z)) : list (list Z) := [].

Definition appendRolesToResource (roles roleIds : list (list Z)) : list (list Z) :=
  fold_left (fun roles r => (appendRole roles r).2) roleIds roles.
Definition deleteRolesFromResource (roles roleIds : list (list Z)) : list (list Z) :=
  fold_left (fun roles r => (deleteRole roles r).2) roleIds roles.

(** ** The order of strings *)

Lemma str_ltb_irrefl a : str_ltb a a = false.
Proof. induction a as [|x a IH]; cbn; [done|]. by rewrite Z.ltb_irrefl. Qed.

Lemma str_ltb_trans a b c : str_ltb a b = true -> str_ltb b c = true -> str_ltb a c = true.
Proof.
  revert b c. induction a as [|x a IH]; intros [|y b] [|z c]; cbn; try done.
  destruct (Z.ltb_spec x y), (Z.ltb_spec y x), (Z.ltb_spec y z), (Z.ltb_spec z y), (Z.ltb_spec x z), (Z.ltb_spec z x); try done; try lia.
  apply IH.
Qed.

Lemma str_ltb_total a b : str_ltb a b = false -> str_ltb b a = false -> a = b.
Proof.
  revert b. induction a as [|x a IH]; intros [|y b]; cbn; try done.
  destruct (Z.ltb_spec x y), (Z.ltb_spec y x); try done. intros. f_equal; [lia|auto].
Qed.

#[global] Instance str_lt_strict : StrictOrder str_lt.
Proof. split; [intros a; unfold str_lt, complement; by rewrite str_ltb_irrefl|intros a b c; apply str_ltb_trans]. Qed.

(** ** A sorted vector is a set *)

Lemma findRole_cons x roles r : str_ltb x r = true ->
  findRole (x :: roles) r = ((findRole roles r).1, S (findRole roles r).2).
Proof. intros H. unfold findRole. cbn [lower_bound]. by rewrite H. Qed.

Lemma findRole_here x roles r : str_ltb x r = false -> findRole (x :: roles) r = (bool_decide (x = r), O).
Proof. intros H. unfold findRole. cbn [lower_bound]. by rewrite H. Qed.

(** Where a role stands in a sorted vector. *)
Lemma findRole_run roles r : StronglySorted str_lt roles ->
  exists l l', roles = l ++ l' /\ Forall (fun x => str_lt x r) l /\
    ((exists l'', l' = r :: l'' /\ Forall (str_lt r) l'' /\ findRole roles r = (true, length l)) \/
     Forall (str_lt r) l' /\ findRole roles r = (false, length l)).
Proof.
  induction 1 as [|x roles Hs IH Hx].
  { exists [], []. repeat split; [constructor|right]. by split. }
  destruct (str_ltb x r) eqn:E.
  - rewrite (findRole_cons x roles r E). destruct IH as (l & l' & -> & Hl & Hcase).
    exists (x :: l), l'. split; [done|]. split; [by constructor|].
    destruct Hcase as [(l'' & -> & Hl'' & ->)|[Hl'' ->]]; [left; by exists l''|by right].
  - rewrite (findRole_here x roles r E). exists [], (x :: roles). split; [done|]. split; [constructor|]. case_bool_decide as Er.
    + subst. left. by exists roles.
    + right. split; [|done]. assert (str_lt r x) as Hrx.
      { unfold str_lt. destruct (str_ltb r x) eqn:E'; [done|]. by destruct Er; apply str_ltb_total. }
      constructor; [done|]. eapply Forall_impl; [exact Hx|]. intros y. by transitivity x.
Qed.

Lemma not_below r l : Forall (str_lt r) l -> r ∉ l.
Proof. intros H Hin. rewrite Forall_forall in H. by apply (irreflexivity str_lt r), H. Qed.

Lemma not_above r l : Forall (fun x => str_lt x r) l -> r ∉ l.
Proof. intros H Hin. rewrite Forall_forall in H. by apply (irreflexivity str_lt r), H. Qed.

(** A sorted vector around a role. *)
Lemma sorted_around l r l' : StronglySorted str_lt (l ++ l') -> Forall (fun x => str_lt x r) l -> Forall (str_lt r) l' ->
  StronglySorted str_lt (l ++ r :: l').
Proof.
  intros (_ & Hl & Hl')%ssorted_app_inv Hlr Hrl. apply ssorted_app; [done|by constructor|].
  intros x y Hx Hy. rewrite List.Forall_forall in Hlr, Hrl. destruct Hy as [<-|Hy]; [by apply Hlr|].
  transitivity r; [by apply Hlr|by apply Hrl].
Qed.

(** The access list of a record is a set of roles: in a sorted vector, adding a role
    keeps the order and answers whether the role is new, deleting one keeps the order and
    answers whether it was there, and the search answers membership. *)
Theorem acl_is_set (roles : list (list Z)) (r : list Z) : StronglySorted str_lt roles ->
  (StronglySorted str_lt (appendRole roles r).2 /\ (appendRole roles r).1 = negb (bool_decide (r ∈ roles)) /\
   forall x, x ∈ (appendRole roles r).2 <-> x = r \/ x ∈ roles) /\
  (StronglySorted str_lt (deleteRole roles r).2 /\ (deleteRole roles r).1 = bool_decide (r ∈ roles) /\
   forall x, x ∈ (deleteRole roles r).2 <-> x <> r /\ x ∈ roles) /\
  hasRole roles r = bool_decide (r ∈ roles).
Proof.
  intros Hs. destruct (findRole_run roles r Hs) as (l & l' & -> & Hl & [(l'' & -> & Hl' & E)|[Hl' E]]);
    unfold appendRole, deleteRole, hasRole; rewrite E; cbn [fst snd].
  - assert (l ++ drop (S (length l)) (l ++ r :: l'') = l ++ l'') as E'
      by (rewrite cons_middle, app_assoc, drop_app_length'; [done|rewrite length_app; cbn; lia]).
    rewrite take_app_length, E', bool_decide_true by set_solver. split; [|split; [|done]].
    + split; [done|]. split; [done|]. set_solver.
    + split; [|split; [done|]].
      * apply ssorted_app_inv in Hs as (H1 & H2 & H3). apply ssorted_app; [done|by inversion H3|]. intros x y Hx Hy. apply H1; [done|by right].
      * intros x. pose proof (not_above r l Hl). pose proof (not_below r l'' Hl'). set_solver.
  - assert (r ∉ l ++ l') as Hr by (pose proof (not_above r l Hl); pose proof (not_below r l' Hl'); set_solver).
    rewrite take_app_length, drop_app_length, bool_decide_false by done. split; [|split; [|done]].
    + split; [by apply sorted_around|]. split; [done|]. set_solver.
    + split; [done|]. split; [done|]. set_solver.
Qed.

Lemma acl_is_set_witness : hasRole (appendRole [[97]; [99]] [98]).2 [98] = true.
Proof.
  assert (StronglySorted str_lt [[97]; [99]]) as Hs by (repeat constructor).
  destruct (proj1 (acl_is_set [[97]; [99]] [98] Hs)) as (Hs' & _ & Hin).
  rewrite (proj2 (proj2 (acl_is_set _ [98] Hs'))). apply bool_decide_eq_true, Hin. by left.
Defined.

(** Any sequence of roles added to a sorted vector keeps it sorted. *)
Lemma appendRoles_sorted roleIds : forall roles, StronglySorted str_lt roles ->
  StronglySorted str_lt (appendRolesToResource roles roleIds).
Proof.
  induction roleIds as [|r roleIds IH]; intros roles Hs; [done|]. apply IH.
  destruct (findRole_run roles r Hs) as (l & l' & -> & Hl & [(l'' & -> & Hl' & E)|[Hl' E]]);
    unfold appendRole; rewrite E; cbn [snd]; [done|]. rewrite take_app_length, drop_app_length. by apply sorted_around.
Qed.

End RecordAcl.
