(* ===== verification/ForwardList.v ===== *)
(** * Forward lists (core/index/ForwardIndex.cpp and .h: class ForwardList)

    The forward list of a record holds in one byte array the ids of its keywords in
    order, two half-precision scores for each, and behind them blocks of variable
    length: for every keyword the attributes it occurs in, and for every keyword and
    attribute the positions, the character offsets, the synonym bits and lengths.
    The pointers of the code are offsets into the array, and every access is
    checked against its length.  A half is its bit pattern. *)
From S2P Require Import Prelude Uleb128 RecordAcl.
From Stdlib Require Import ZArith Lia List Bool Sorted.
From stdpp Require Import base gmap list fin_maps sorting.
Open Scope Z_scope.

Module ForwardList.
Import ULEB128 RecordAcl.

Definition KEYWORD_THRESHOLD : Z := Z.shiftl 1 24 - 1.

Inductive PositionIndexType :=
  | POSITION_INDEX_FULL | POSITION_INDEX_WORD | POSITION_INDEX_CHAR
  | POSITION_INDEX_FIELDBIT | POSITION_INDEX_NONE.

Definition isEnabledAttributeBasedSearch (t : PositionIndexType) : bool :=
  match t with POSITION_INDEX_NONE => false | _ => true end.
Definition isEnabledWordPositionIndex (t : PositionIndexType) : bool :=
  match t with POSITION_INDEX_WORD | POSITION_INDEX_FULL => true | _ => false end.
Definition isEnabledCharPositionIndex (t : PositionIndexType) : bool :=
  match t with POSITION_INDEX_CHAR | POSITION_INDEX_FULL => true | _ => false end.

Inductive AnalyzedTokenType := ANALYZED_ORIGINAL_TOKEN | ANALYZED_SYNONYM_TOKEN.

(** Where a token occurs: parallel vectors, one entry for each occurrence. *)
Record TokenAttributeHits := mk_hits {
  attributeIdList : list Z;
  positionsOfTermInAttribute : list Z;
  charOffsetsOfTermInAttribute : list Z;
  charLensOfTermInAttribute : list Z;
  typesOfTermInAttribute : list AnalyzedTokenType }.

(** ** The byte array *)

(** An unsigned number of [n] bytes, least significant byte first. *)
Fixpoint le_join (bs : list Z) : Z := match bs with [] => 0 | b :: bs' => b + 256 * le_join bs' end.
Fixpoint le_split (n : nat) (z : Z) : list Z :=
  match n with O => [] | S n' => z mod 256 :: le_split n' (z / 256) end.

(** The [len] bytes from [off] on; writing [bs] from [off] on. *)
Definition slice (l : list Z) (off len : Z) : result (list Z) :=
  if (0 <=? off) && (0 <=? len) && (off + len <=? Z.of_nat (length l))
  then Ok (take (Z.to_nat len) (drop (Z.to_nat off) l)) else Err OutOfRange.
Definition blit (l : list Z) (off : Z) (bs : list Z) : result (list Z) :=
  if (0 <=? off) && (off + Z.of_nat (length bs) <=? Z.of_nat (length l))
  then Ok (take (Z.to_nat off) l ++ bs ++ drop (Z.to_nat off + length bs) l) else Err OutOfRange.

Record ForwardList := mk_fl {
  numberOfKeywords : Z;
  externalRecordId : list Z;
  recordAcl : list (list Z);
  data : list Z;
  attributeIdsIndexSize : Z;
  positionIndexSize : Z;
  dataSize : Z;
  offsetIndexSize : Z;
  charLenIndexSize : Z;
  synonymBitMapSize : Z }.

Definition with_data (fl : ForwardList) (d : list Z) : ForwardList :=
  mk_fl (numberOfKeywords fl) (externalRecordId fl) (recordAcl fl) d (attributeIdsIndexSize fl)
    (positionIndexSize fl) (dataSize fl) (offsetIndexSize fl) (charLenIndexSize fl) (synonymBitMapSize fl).

Definition getKeywordIdsSizeInBytes (fl : ForwardList) : Z := wrap32 (numberOfKeywords fl * 4).
Definition getKeywordTfBoostProductsSizeInBytes (fl : ForwardList) : Z := wrap32 (numberOfKeywords fl * 2).
Definition getKeywordRecordStaticScoresSizeInBytes (fl : ForwardList) : Z := wrap32 (numberOfKeywords fl * 2).

(** The pointers to the parts, as offsets from [data]. *)
Definition getKeywordTfBoostProductsPointer (fl : ForwardList) : Z := getKeywordIdsSizeInBytes fl.
Definition getKeywordRecordStaticScoresPointer (fl : ForwardList) : Z :=
  getKeywordIdsSizeInBytes fl + getKeywordTfBoostProductsSizeInBytes fl.
Definition getKeywordAttributeIdsPointer (fl : ForwardList) : Z :=
  getKeywordIdsSizeInBytes fl + getKeywordTfBoostProductsSizeInBytes fl + getKeywordRecordStaticScoresSizeInBytes fl.
Definition getPositionIndexPointer (fl : ForwardList) : Z :=
  getKeywordIdsSizeInBytes fl + getKeywordTfBoostProductsSizeInBytes fl + getKeywordRecordStaticScoresSizeInBytes fl +
  attributeIdsIndexSize fl.
Definition getOffsetIndexPointer (fl : ForwardList) : Z := getPositionIndexPointer fl + positionIndexSize fl.
Definition getSynonymBitMapPointer (fl : ForwardList) : Z := getOffsetIndexPointer fl + offsetIndexSize fl.
Definition getCharLenIndexPointer (fl : ForwardList) : Z := getSynonymBitMapPointer fl + synonymBitMapSize fl.

Definition getKeywordId (fl : ForwardList) (iter : Z) : result Z :=
  let? bs := slice (data fl) (4 * iter) 4 in Ok (le_join bs).
Definition setKeywordId (fl : ForwardList) (iter keywordId : Z) : result ForwardList :=
  if iter <=? KEYWORD_THRESHOLD
  then let? d := blit (data fl) (4 * iter) (le_split 4 keywordId) in Ok (with_data fl d) else Ok fl.

Definition getKeywordTfBoostProduct (fl : ForwardList) (iter : Z) : result Z :=
  let? bs := slice (data fl) (getKeywordTfBoostProductsPointer fl + 2 * iter) 2 in Ok (le_join bs).
Definition setKeywordTfBoostProduct (fl : ForwardList) (iter half : Z) : result ForwardList :=
  if iter <=? KEYWORD_THRESHOLD
  then let? d := blit (data fl) (getKeywordTfBoostProductsPointer fl + 2 * iter) (le_split 2 half) in Ok (with_data fl d)
  else Ok fl.

Definition getKeywordRecordStaticScore (fl : ForwardList) (iter : Z) : result Z :=
  let? bs := slice (data fl) (getKeywordRecordStaticScoresPointer fl + 2 * iter) 2 in Ok (le_join bs).
Definition setKeywordRecordStaticScore (fl : ForwardList) (iter half : Z) : result ForwardList :=
  if iter <=? KEYWORD_THRESHOLD
  then let? d := blit (data fl) (getKeywordRecordStaticScoresPointer fl + 2 * iter) (le_split 2 half) in Ok (with_data fl d)
  else Ok fl.

(** [float >= 0] for a half: not a NaN, and positive or a zero. *)
Definition half_ge0 (half : Z) : bool :=
  let magnitude := Z.land half 0x7FFF in (magnitude <=? 0x7C00) && ((half <? 0x8000) || (magnitude =? 0)).

(** ** Blocks of variable length *)

(** Appends the length of the encoded list and the encoded list.  The bytes of the
    local buffers are written before they are read. *)
Definition convertToVarLengthArray (positionListVector grandBuffer : list Z) : result (list Z) :=
  let? buffer := uInt32VectorToVarLenArray positionListVector [0; 0; 0; 0; 0] in
  let? (_, vlb, numberOfBytesForLength) := uInt32ToVarLengthBytes (Z.of_nat (length buffer)) (Some [0; 0; 0; 0; 0]) false in
  Ok (grandBuffer ++ take (Z.to_nat numberOfBytesForLength) vlb ++ buffer).

Definition convertToVarLengthBitMap (bitMapVector grandBuffer : list Z) : result (list Z) :=
  let? (_, vlb, numberOfBytesForLength) := uInt32ToVarLengthBytes (Z.of_nat (length bitMapVector)) (Some [0; 0; 0; 0; 0]) false in
  Ok (grandBuffer ++ take (Z.to_nat numberOfBytesForLength) vlb ++ bitMapVector).

(** [varLengthBytesToUInt32(ptr, &value, &byteRead)]; [byteRead] keeps its value on failure. *)
Definition read_length (d : list Z) (ptr byteRead : Z) : result (Z * Z) :=
  let? (_, value, r) := varLengthBytesToUInt32 (drop (Z.to_nat ptr) d) in Ok (value, default byteRead r).

(** [varLenByteArrayToInt32Vector(ptr, size, list)] *)
Definition read_list (d : list Z) (ptr size : Z) (l : list Z) : result (list Z) :=
  let? bytes := slice d ptr size in varLenByteArrayToInt32Vector (length bytes) bytes l.

(** Jumps over [n] blocks. *)
Fixpoint jump_blocks (n : nat) (d : list Z) (piPtr piOffset byteRead : Z) : result (Z * Z) :=
  match n with
  | O => Ok (piOffset, byteRead)
  | S n' =>
      let? (value, byteRead) := read_length d (piPtr + piOffset) byteRead in
      jump_blocks n' d piPtr (wrap32 (piOffset + (byteRead + value))) byteRead
  end.

(** The check that the last byte of a part ends a number. *)
Definition badly_encoded (d : list Z) (piPtr size : Z) : result bool :=
  let? b := vec_at d (piPtr + size - 1) in Ok (negb (Z.land b 0x80 =? 0)).

Definition getKeywordAttributeIdsList (fl : ForwardList) (keywordOffset : Z) (attributeIdsList : list Z) : result (list Z) :=
  if attributeIdsIndexSize fl =? 0 then Ok attributeIdsList
  else
    let piPtr := getKeywordAttributeIdsPointer fl in
    let? bad := badly_encoded (data fl) piPtr (attributeIdsIndexSize fl) in
    if bad : bool then Ok attributeIdsList
    else
      let? (piOffset, byteRead) := jump_blocks (Z.to_nat keywordOffset) (data fl) piPtr 0 0 in
      let? (value, byteRead) := read_length (data fl) (piPtr + piOffset) byteRead in
      read_list (data fl) (piPtr + piOffset + byteRead) value [].

(** Jumps over the blocks of the keywords [js], one for each attribute. *)
Fixpoint jump_keywords (fl : ForwardList) (js : list Z) (piPtr piOffset : Z) : result Z :=
  match js with
  | [] => Ok piOffset
  | j :: js' =>
      let? ids := getKeywordAttributeIdsList fl j [] in
      let? (piOffset, _) := jump_blocks (length ids) (data fl) piPtr piOffset 0 in
      jump_keywords fl js' piPtr piOffset
  end.

(** The blocks of one keyword up to that of [attributeId]; [read] takes it. *)
Fixpoint find_block (read : Z -> Z -> list Z -> result (list Z)) (d : list Z) (attributeIds : list Z) (attributeId piPtr piOffset : Z)
    (pl : list Z) : result (list Z) :=
  match attributeIds with
  | [] => Ok pl
  | a :: attributeIds' =>
      let? (value, byteRead) := read_length d (piPtr + piOffset) 0 in
      if attributeId =? a then read (piPtr + piOffset + byteRead) value pl
      else find_block read d attributeIds' attributeId piPtr (wrap32 (piOffset + (byteRead + value))) pl
  end.

Definition fetch_with (read : Z -> Z -> list Z -> result (list Z)) (fl : ForwardList) (keyOffset attributeId : Z) (pl : list Z) (piPtr : Z) :
    result (list Z) :=
  let? piOffset := jump_keywords fl (seqZ 0 keyOffset) piPtr 0 in
  let? ids := getKeywordAttributeIdsList fl keyOffset [] in
  if (Z.of_nat (length ids) =? 0) || negb (existsb (Z.eqb attributeId) ids) then Ok pl
  else find_block read (data fl) ids attributeId piPtr piOffset pl.

Definition fetchDataFromVLBArray (fl : ForwardList) (keyOffset attributeId : Z) (pl : list Z) (piPtr : Z) : result (list Z) :=
  fetch_with (read_list (data fl)) fl keyOffset attributeId pl piPtr.

Definition getKeyWordPostionsInRecordField (fl : ForwardList) (keyOffset attributeId : Z) (pl : list Z) : result (list Z) :=
  if positionIndexSize fl =? 0 then Ok pl
  else
    let? bad := badly_encoded (data fl) (getPositionIndexPointer fl) (positionIndexSize fl) in
    if bad : bool then Ok pl else fetchDataFromVLBArray fl keyOffset attributeId pl (getPositionIndexPointer fl).

Definition getKeyWordOffsetInRecordField (fl : ForwardList) (keyOffset attributeId : Z) (pl : list Z) : result (list Z) :=
  if offsetIndexSize fl =? 0 then Ok pl
  else
    let? bad := badly_encoded (data fl) (getOffsetIndexPointer fl) (offsetIndexSize fl) in
    if bad : bool then Ok pl else fetchDataFromVLBArray fl keyOffset attributeId pl (getOffsetIndexPointer fl).

Definition getSynonymCharLenInRecordField (fl : ForwardList) (keyOffset attributeId : Z) (pl : list Z) : result (list Z) :=
  if (offsetIndexSize fl =? 0) || (charLenIndexSize fl =? 0) then Ok pl
  else
    let? bad := badly_encoded (data fl) (getCharLenIndexPointer fl) (charLenIndexSize fl) in
    if bad : bool then Ok pl else fetchDataFromVLBArray fl keyOffset attributeId pl (getCharLenIndexPointer fl).

(** The bits are appended byte by byte, without a check of the last byte. *)
Definition getSynonymBitMapInRecordField (fl : ForwardList) (keyOffset attributeId : Z) (synonymBitMap : list Z) : result (list Z) :=
  if (offsetIndexSize fl =? 0) || (synonymBitMapSize fl =? 0) then Ok synonymBitMap
  else fetch_with (fun ptr size l => let? bytes := slice (data fl) ptr size in Ok (l ++ bytes))
         fl keyOffset attributeId synonymBitMap (getSynonymBitMapPointer fl).

(** ** Building a forward list (ForwardIndex::addRecord) *)

(** Locals of the loop over the occurrences of one keyword, and the buffers. *)
Record hit_state := mk_hit_state {
  prevAttributeId : Z;
  positionListVector : list Z;
  offsetVector : list Z;
  synonymOriginalTokenLenArray : list Z;
  synonymBitFlagArray : list Z;
  bitMapCursor : Z;
  tempPositionIndexBuffer : list Z;
  tempOffsetBuffer : list Z;
  tempcharLenBuffer : list Z;
  tempSynonymBitMapBuffer : list Z }.

(** The bit of an occurrence; the byte array grows when it is full. *)
Definition push_synonym (type : AnalyzedTokenType) (charLen : Z) (lens bits : list Z) (cursor : Z) : result (list Z * list Z) :=
  let byte := cursor / 8 in
  let bits := if Z.of_nat (length bits) <=? byte then bits ++ [0] else bits in
  match type with
  | ANALYZED_SYNONYM_TOKEN =>
      let mask := wrap8 (Z.shiftl 1 (cursor mod 8)) in
      let? b := vec_at bits byte in
      let? bits := vec_set bits byte (Z.lor b mask) in
      Ok (lens ++ [charLen], bits)
  | ANALYZED_ORIGINAL_TOKEN => Ok (lens, bits)
  end.

(** Pushes an occurrence onto the lists of the current attribute. *)
Definition push_hit (t : PositionIndexType) (position offset charLen : Z) (type : AnalyzedTokenType) (s : hit_state) : result hit_state :=
  let positions := if isEnabledWordPositionIndex t then positionListVector s ++ [position] else positionListVector s in
  if isEnabledCharPositionIndex t then
    let? (lens, bits) := push_synonym type charLen (synonymOriginalTokenLenArray s) (synonymBitFlagArray s) (bitMapCursor s) in
    Ok (mk_hit_state (prevAttributeId s) positions (offsetVector s ++ [offset]) lens bits (wrap32 (bitMapCursor s + 1))
      (tempPositionIndexBuffer s) (tempOffsetBuffer s) (tempcharLenBuffer s) (tempSynonymBitMapBuffer s))
  else
    Ok (mk_hit_state (prevAttributeId s) positions (offsetVector s) (synonymOriginalTokenLenArray s) (synonymBitFlagArray s)
      (bitMapCursor s) (tempPositionIndexBuffer s) (tempOffsetBuffer s) (tempcharLenBuffer s) (tempSynonymBitMapBuffer s)).

(** Appends the lists of an attribute to the buffers and clears them. *)
Definition flush_hits (t : PositionIndexType) (s : hit_state) : result hit_state :=
  let? positions :=
    if isEnabledWordPositionIndex t then convertToVarLengthArray (positionListVector s) (tempPositionIndexBuffer s)
    else Ok (tempPositionIndexBuffer s) in
  if isEnabledCharPositionIndex t then
    let? offsets := convertToVarLengthArray (offsetVector s) (tempOffsetBuffer s) in
    let? lens := convertToVarLengthArray (synonymOriginalTokenLenArray s) (tempcharLenBuffer s) in
    let? bits := convertToVarLengthBitMap (synonymBitFlagArray s) (tempSynonymBitMapBuffer s) in
    Ok (mk_hit_state (prevAttributeId s) [] [] [] [] 0 positions offsets lens bits)
  else
    Ok (mk_hit_state (prevAttributeId s) [] [] [] [] 0 positions (tempOffsetBuffer s) (tempcharLenBuffer s) (tempSynonymBitMapBuffer s)).

Definition set_prev (a : Z) (s : hit_state) : hit_state :=
  mk_hit_state a (positionListVector s) (offsetVector s) (synonymOriginalTokenLenArray s) (synonymBitFlagArray s)
    (bitMapCursor s) (tempPositionIndexBuffer s) (tempOffsetBuffer s) (tempcharLenBuffer s) (tempSynonymBitMapBuffer s).

(** One round of the loop over [j]. *)
Definition hit_step (t : PositionIndexType) (hits : TokenAttributeHits) (s : hit_state) (j : Z) : result hit_state :=
  let? attributeId := vec_at (attributeIdList hits) j in
  let? position := vec_at (positionsOfTermInAttribute hits) j in
  let? offset := vec_at (charOffsetsOfTermInAttribute hits) j in
  let? type := vec_at (typesOfTermInAttribute hits) j in
  let? charLen := vec_at (charLensOfTermInAttribute hits) j in
  let? s :=
    if (j =? 0) || (prevAttributeId s =? attributeId) then push_hit t position offset charLen type s
    else let? s := flush_hits t s in push_hit t position offset charLen type s in
  Ok (set_prev attributeId s).

(** The locals of the loop body start anew for every keyword. *)
Definition keyword_hits (t : PositionIndexType) (hits : TokenAttributeHits) (s : hit_state) : result hit_state :=
  let s := mk_hit_state 0 [] [] [] [] 0 (tempPositionIndexBuffer s) (tempOffsetBuffer s) (tempcharLenBuffer s) (tempSynonymBitMapBuffer s) in
  let? s := fold_res (seqZ 0 (Z.of_nat (length (attributeIdList hits)))) (hit_step t hits) s in
  flush_hits t s.

(** Triples of keyword id, keyword and inverted list id. *)
Abbreviation KeywordIdKeywordStringInvertedListIdTriple := (list (Z * (list Z * Z))).
Abbreviation hits_map := (gmap (list Z) TokenAttributeHits).

Definition find_hits (m : hits_map) (k : Z * (list Z * Z)) : result TokenAttributeHits := of_option AssertFailed (m !! k.2.1).

Definition position_buffers (t : PositionIndexType) (m : hits_map) (ks : KeywordIdKeywordStringInvertedListIdTriple) : result hit_state :=
  let empty := mk_hit_state 0 [] [] [] [] 0 [] [] [] [] in
  if isEnabledWordPositionIndex t || isEnabledCharPositionIndex t
  then fold_res ks (fun s k => let? hits := find_hits m k in keyword_hits t hits s) empty
  else Ok empty.

(** The attribute of each run of equal attributes; [prevAttrId] is 0 at first. *)
Definition attribute_step (s : list Z * Z) (e : nat * Z) : list Z * Z :=
  if (e.1 =? 0)%nat || negb (e.2 =? s.2) then (s.1 ++ [e.2], e.2) else s.
Definition distinct_attributes (attributeIdList : list Z) : list Z :=
  (fold_left attribute_step (imap pair attributeIdList) ([], 0)).1.

Definition attribute_buffer (t : PositionIndexType) (m : hits_map) (ks : KeywordIdKeywordStringInvertedListIdTriple) : result (list Z) :=
  if isEnabledAttributeBasedSearch t
  then fold_res ks (fun buffer k => let? hits := find_hits m k in convertToVarLengthArray (distinct_attributes (attributeIdList hits)) buffer) []
  else Ok [].

(** [new Byte[n]]: the bytes are indeterminate. *)
Definition new_bytes (indeterminate : Z -> Z) (n : Z) : list Z := map indeterminate (seqZ 0 n).

(** Writes the buffers one after the other behind the fixed part. *)
Fixpoint copy_buffers (d : list Z) (size : Z) (buffers : list (list Z)) : result (list Z * Z) :=
  match buffers with
  | [] => Ok (d, size)
  | b :: buffers' =>
      let? d := blit d size b in
      copy_buffers d (wrap32 (size + wrap32 (Z.of_nat (length b)))) buffers'
  end.

Definition allocateSpaceAndSetNSAValuesAndPosIndex (indeterminate : Z -> Z) (fl : ForwardList)
    (attributeIds positions offsets charLens synonyms : list Z) : result ForwardList :=
  let size l := wrap32 (Z.of_nat (length l)) in
  let fl := mk_fl (numberOfKeywords fl) (externalRecordId fl) (recordAcl fl) (data fl) (size attributeIds)
    (size positions) 0 (size offsets) (size charLens) (size synonyms) in
  let fixed := wrap32 (getKeywordIdsSizeInBytes fl + getKeywordTfBoostProductsSizeInBytes fl + getKeywordRecordStaticScoresSizeInBytes fl) in
  let d := new_bytes indeterminate
    (wrap32 (fixed + attributeIdsIndexSize fl + positionIndexSize fl + offsetIndexSize fl + synonymBitMapSize fl + charLenIndexSize fl)) in
  let? (d, dataSize) := copy_buffers d fixed [attributeIds; positions; offsets; synonyms; charLens] in
  Ok (mk_fl (numberOfKeywords fl) (externalRecordId fl) (recordAcl fl) d (attributeIdsIndexSize fl)
    (positionIndexSize fl) dataSize (offsetIndexSize fl) (charLenIndexSize fl) (synonymBitMapSize fl)).

(** The number of occurrences of each keyword, from the position blocks. *)
Fixpoint count_occurrences (n : nat) (d : list Z) (piPtr piOffset total : Z) : result (Z * Z) :=
  match n with
  | O => Ok (total, piOffset)
  | S n' =>
      let? (value, byteRead) := read_length d (piPtr + piOffset) 0 in
      let? pl := read_list d (piPtr + piOffset + byteRead) value [] in
      count_occurrences n' d piPtr (wrap32 (piOffset + (byteRead + value))) (wrap32 (total + Z.of_nat (length pl)))
  end.

(** All attribute lists in one pass. *)
Fixpoint attribute_lists (n : nat) (d : list Z) (piPtr piOffset byteRead : Z) : result (list (list Z)) :=
  match n with
  | O => Ok []
  | S n' =>
      let? (value, byteRead) := read_length d (piPtr + piOffset) byteRead in
      let? l := read_list d (piPtr + piOffset + byteRead) value [] in
      let? r := attribute_lists n' d piPtr (wrap32 (piOffset + (byteRead + value))) byteRead in
      Ok (l :: r)
  end.

Definition getKeywordAttributeIdsLists (fl : ForwardList) (numOfKeywords : Z) : result (list (list Z)) :=
  let none := replicate (Z.to_nat numOfKeywords) [] in
  if attributeIdsIndexSize fl =? 0 then Ok none
  else
    let piPtr := getKeywordAttributeIdsPointer fl in
    let? bad := badly_encoded (data fl) piPtr (attributeIdsIndexSize fl) in
    if bad : bool then Ok none else attribute_lists (Z.to_nat numOfKeywords) (data fl) piPtr 0 0.

(** The frequencies are square roots of numbers of occurrences; here the numbers. *)
Fixpoint occurrences_loop (lists : list (list Z)) (d : list Z) (piPtr piOffset : Z) : result (list Z) :=
  match lists with
  | [] => Ok []
  | ids :: lists' =>
      let? (total, piOffset) := count_occurrences (length ids) d piPtr piOffset 0 in
      let? r := occurrences_loop lists' d piPtr piOffset in
      Ok (total :: r)
  end.

Definition getKeywordTfListFromVLBArray (fl : ForwardList) (piPtr : Z) : result (list Z) :=
  let? lists := getKeywordAttributeIdsLists fl (numberOfKeywords fl) in occurrences_loop lists (data fl) piPtr 0.

(** Without position index every frequency is 1, the root of 1; with a bad encoding 0. *)
Definition getKeywordTfListInRecordField (fl : ForwardList) : result (list Z) :=
  if positionIndexSize fl =? 0 then Ok (replicate (Z.to_nat (numberOfKeywords fl)) 1)
  else
    let? bad := badly_encoded (data fl) (getPositionIndexPointer fl) (positionIndexSize fl) in
    if bad : bool then Ok (replicate (Z.to_nat (numberOfKeywords fl)) 0)
    else getKeywordTfListFromVLBArray fl (getPositionIndexPointer fl).

Definition computeTermFrequencies (fl : ForwardList) (numOfKeywords : Z) : result (list Z) :=
  if negb (numOfKeywords <=? numberOfKeywords fl) then Err AssertFailed
  else let? l := getKeywordTfListInRecordField fl in Ok (l ++ replicate (Z.to_nat (numOfKeywords - Z.of_nat (length l))) 0).

(** [for] with the index of the element. *)
Fixpoint fold_index {A B} (l : list A) (i : Z) (body : B -> Z -> A -> result B) (b : B) : result B :=
  match l with
  | [] => Ok b
  | x :: l' => let? b := body b i x in fold_index l' (i + 1) body b
  end.

(** ForwardIndex::addRecord up to the entry in the directory.  [tfBoost] is the
    half-precision product of the root of a number of occurrences and the boosts of
    the attributes; the record is its key and its roles. *)
Definition addRecord_list (indeterminate : Z -> Z) (tfBoost : Z -> TokenAttributeHits -> Z) (t : PositionIndexType)
    (primaryKey : list Z) (roleIds : list (list Z)) (uniqueKeywordIdList : KeywordIdKeywordStringInvertedListIdTriple)
    (tokenAttributeHitsMap : hits_map) : result ForwardList :=
  let ks :=
    if KEYWORD_THRESHOLD <=? Z.of_nat (length uniqueKeywordIdList)
    then take (Z.to_nat KEYWORD_THRESHOLD) uniqueKeywordIdList else uniqueKeywordIdList in
  let fl := mk_fl (Z.of_nat (length ks)) primaryKey (appendRolesToResource [] roleIds) [] 0 0 0 0 0 0 in
  let? s := position_buffers t tokenAttributeHitsMap ks in
  let? attributeIds := attribute_buffer t tokenAttributeHitsMap ks in
  let? fl := allocateSpaceAndSetNSAValuesAndPosIndex indeterminate fl attributeIds (tempPositionIndexBuffer s)
    (tempOffsetBuffer s) (tempcharLenBuffer s) (tempSynonymBitMapBuffer s) in
  let? fl := fold_index ks 0 (fun fl iter k => setKeywordId fl iter k.1) fl in
  let? tfList := computeTermFrequencies fl (Z.of_nat (length ks)) in
  if negb (Z.of_nat (length ks) =? Z.of_nat (length tfList)) then Err AssertFailed
  else
    fold_index ks 0 (fun fl iter k =>
      let? hits := find_hits tokenAttributeHitsMap k in
      let? tf := vec_at tfList iter in
      setKeywordTfBoostProduct fl iter (tfBoost tf hits)) fl.

(** ** Searching a forward list *)

(** The binary search of the file, over the array of ids. *)
Fixpoint lower_bound_loop (fuel : nat) (fl : ForwardList) (first count val : Z) : result Z :=
  if 0 <? count then
    match fuel with
    | O => Err OutOfFuel
    | S fuel' =>
        let step := count / 2 in
        let it := first + step in
        let? x := getKeywordId fl it in
        if x <? val then lower_bound_loop fuel' fl (it + 1) (count - (step + 1)) val
        else lower_bound_loop fuel' fl first step val
    end
  else Ok first.
Definition lower_bound (fl : ForwardList) (val : Z) : result Z :=
  lower_bound_loop (Z.to_nat (numberOfKeywords fl)) fl 0 (numberOfKeywords fl) val.

Definition getKeywordOffset (fl : ForwardList) (keywordId : Z) : result Z := lower_bound fl keywordId.

Fixpoint linear_scan (n : nat) (fl : ForwardList) (iter keywordId : Z) : result Z :=
  match n with
  | O => Ok iter
  | S n' => let? x := getKeywordId fl iter in if x =? keywordId then Ok iter else linear_scan n' fl (iter + 1) keywordId
  end.
Definition getKeywordOffsetByLinearScan (fl : ForwardList) (keywordId : Z) : result Z :=
  linear_scan (Z.to_nat (numberOfKeywords fl)) fl 0 keywordId.

Inductive ATTRIBUTES_OP := ATTRIBUTES_OP_AND | ATTRIBUTES_OP_OR | ATTRIBUTES_OP_NAND.

(** [std::set_intersection] and [std::set_difference]. *)
Fixpoint set_intersection (l1 : list Z) : list Z -> list Z :=
  fix inner (l2 : list Z) : list Z :=
  match l1, l2 with
  | x :: l1', y :: l2' =>
      if x <? y then set_intersection l1' l2
      else if y <? x then inner l2' else x :: set_intersection l1' l2'
  | _, _ => []
  end.
Fixpoint set_difference (l1 : list Z) : list Z -> list Z :=
  fix inner (l2 : list Z) : list Z :=
  match l1, l2 with
  | x :: l1', y :: l2' =>
      if x <? y then x :: set_difference l1' l2
      else if y <? x then inner l2' else set_difference l1' l2'
  | _, _ => l1
  end.

(** An empty list stands for all attributes. *)
Definition fetchCommonAttributes (list1 list2 : list Z) : list Z :=
  match list1, list2 with
  | [], _ => list2
  | _, [] => list1
  | _, _ => set_intersection list1 list2
  end.

Fixpoint isAttributesListsMatching (list1 list2 : list Z) : bool :=
  match list1, list2 with
  | [], [] => true
  | x :: l1, y :: l2 => (x =? y) && isAttributesListsMatching l1 l2
  | _, _ => false
  end.

(** The answer, the matching attributes and the static score; [matching] is the
    content of the caller's list. *)
Definition isValidRecordTermHit (t : PositionIndexType) (fl : ForwardList) (keywordOffset : Z) (filteringAttributesList : list Z)
    (attrOp : ATTRIBUTES_OP) (matching : list Z) : result (bool * list Z * Z) :=
  let? score := getKeywordRecordStaticScore fl keywordOffset in
  if negb (isEnabledAttributeBasedSearch t) then Ok (true, matching, score)
  else
    match filteringAttributesList with
    | [] =>
        match attrOp with
        | ATTRIBUTES_OP_NAND => Ok (false, matching, score)
        | ATTRIBUTES_OP_OR => Ok (true, matching, score)
        | ATTRIBUTES_OP_AND => Err AssertFailed
        end
    | _ :: _ =>
        if negb (keywordOffset <? numberOfKeywords fl) then Err AssertFailed
        else
          let? matching := getKeywordAttributeIdsList fl keywordOffset matching in
          match attrOp with
          | ATTRIBUTES_OP_AND =>
              let common := fetchCommonAttributes matching filteringAttributesList in
              Ok (isAttributesListsMatching common filteringAttributesList, common, score)
          | ATTRIBUTES_OP_NAND =>
              let difference := set_difference matching filteringAttributesList in
              Ok (negb (Z.of_nat (length difference) =? 0), difference, score)
          | ATTRIBUTES_OP_OR =>
              let common := fetchCommonAttributes matching filteringAttributesList in
              Ok (negb (Z.of_nat (length common) =? 0), common, score)
          end
    end.

(** The first valid hit from [offset] on, in [n] steps at most: the id, its
    attributes and its score. *)
Fixpoint first_hit (n : nat) (t : PositionIndexType) (fl : ForwardList) (offset maxId : Z) (filter : list Z) (attrOp : ATTRIBUTES_OP)
    (matched : list Z) : result (option (Z * list Z * Z)) :=
  match n with
  | O => Ok None
  | S n' =>
      let? x := getKeywordId fl offset in
      if x <=? maxId then
        let? (valid, matched, score) := isValidRecordTermHit t fl offset filter attrOp matched in
        if valid : bool then Ok (if half_ge0 score then Some (x, matched, score) else None)
        else first_hit n' t fl (offset + 1) maxId filter attrOp matched
      else Ok None
  end.
Definition haveWordInRange (t : PositionIndexType) (fl : ForwardList) (minId maxId : Z) (filter : list Z) (attrOp : ATTRIBUTES_OP) :
    result (option (Z * list Z * Z)) :=
  let? offset := lower_bound fl minId in
  first_hit (Z.to_nat (numberOfKeywords fl - offset)) t fl offset maxId filter attrOp [].

Fixpoint all_hits (n : nat) (t : PositionIndexType) (fl : ForwardList) (offset maxId : Z) (filter : list Z) (attrOp : ATTRIBUTES_OP)
    (matched keywordIdsVector : list Z) : result (list Z) :=
  match n with
  | O => Ok keywordIdsVector
  | S n' =>
      let? x := getKeywordId fl offset in
      if x <=? maxId then
        let? (valid, matched, _) := isValidRecordTermHit t fl offset filter attrOp matched in
        all_hits n' t fl (offset + 1) maxId filter attrOp matched (if valid then keywordIdsVector ++ [x] else keywordIdsVector)
      else Ok keywordIdsVector
  end.
Definition getWordsInRange (t : PositionIndexType) (fl : ForwardList) (minId maxId : Z) (filter : list Z) (attrOp : ATTRIBUTES_OP)
    (keywordIdsVector : list Z) : result (list Z) :=
  let? offset := lower_bound fl minId in
  all_hits (Z.to_nat (numberOfKeywords fl - offset)) t fl offset maxId filter attrOp [] keywordIdsVector.

End ForwardList.
