(* ===== verification/ForwardSearch.v ===== *)
(** * What the searches of a forward list answer (core/index/ForwardIndex.cpp: ForwardList)

    The binary search finds the place of an id among growing ids; the search for a
    range of ids, which is a prefix of words, finds the first keyword in the range
    whose attributes pass the filter. *)
From S2P Require Import Prelude Uleb128 RecordAcl ForwardList.
From Stdlib Require Import ZArith Lia List Bool Sorted.
From stdpp Require Import base gmap list fin_maps sorting.
Open Scope Z_scope.

Module ForwardSearch.
Import ULEB128 ForwardList.

(** ** The binary search *)

(** The forward list holds these ids. *)
Record has_ids (fl : ForwardList) (ids : list Z) : Prop := {
  hi_number : numberOfKeywords fl = Z.of_nat (length ids);
  hi_get (i : nat) x : ids !! i = Some x -> getKeywordId fl (Z.of_nat i) = Ok x }.

(** [p] parts the ids below [v] from the others. *)
Record parts (ids : list Z) (v : Z) (p : nat) : Prop := {
  pa_le : (p <= length ids)%nat;
  pa_below (i : nat) x : ids !! i = Some x -> (i < p)%nat -> x < v;
  pa_above (i : nat) x : ids !! i = Some x -> (p <= i)%nat -> v <= x }.

Lemma strict_lookup ids (i j : nat) x y : StronglySorted Z.lt ids -> ids !! i = Some x -> ids !! j = Some y -> (i < j)%nat -> x < y.
Proof.
  intros Hs. revert i j. induction Hs as [|z ids Hs IH Hz]; intros [|i] [|j] Hi Hj Hij; cbn in *; try done; try lia.
  - injection Hi as ->. rewrite List.Forall_forall in Hz. apply Hz, list_elem_of_In. by eapply list_elem_of_lookup_2.
  - apply (IH i j); [done|done|lia].
Qed.

Lemma lower_bound_loop_run fl ids v : has_ids fl ids -> StronglySorted Z.lt ids -> forall fuel (first count : nat),
  (count <= fuel)%nat -> (first + count <= length ids)%nat ->
  (forall (i : nat) x, ids !! i = Some x -> (i < first)%nat -> x < v) ->
  (forall (i : nat) x, ids !! i = Some x -> (first + count <= i)%nat -> v <= x) ->
  exists p, lower_bound_loop fuel fl (Z.of_nat first) (Z.of_nat count) v = Ok (Z.of_nat p) /\ parts ids v p.
Proof.
  intros [Hn Hget] Hs. induction fuel as [|fuel IH]; intros first count Hf Hc Hlo Hhi; cbn [lower_bound_loop];
    (destruct (Z.ltb_spec 0 (Z.of_nat count)) as [Hpos|Hzero];
      [|exists first; split; [done|]; split; [lia|done|intros; eapply Hhi; [done|lia]]]); [lia|].
  set (step := (count / 2)%nat). assert (Z.of_nat count / 2 = Z.of_nat step) as -> by (unfold step; rewrite Nat2Z.inj_div; done).
  assert (step < count)%nat as Hstep by (apply Nat.div_lt; lia).
  destruct (lookup_lt_is_Some_2 ids (first + step)) as [x Hx]; [lia|].
  rewrite <- Nat2Z.inj_add, (Hget _ _ Hx). cbn [rbind]. destruct (Z.ltb_spec x v) as [Hlt|Hge].
  - replace (Z.of_nat (first + step) + 1) with (Z.of_nat (first + step + 1)) by lia.
    replace (Z.of_nat count - (Z.of_nat step + 1)) with (Z.of_nat (count - (step + 1))) by lia.
    apply IH; [lia|lia| |].
    + intros i y Hy Hi. destruct (decide (i = first + step)%nat) as [->|Hne]; [by simplify_eq|].
      etransitivity; [apply (strict_lookup ids i (first + step) y x Hs Hy Hx); lia|done].
    + intros i y Hy Hi. apply (Hhi i y Hy). lia.
  - apply IH; [lia|lia|done|]. intros i y Hy Hi.
    destruct (decide (i = first + step)%nat) as [->|Hne]; [by simplify_eq|].
    etransitivity; [exact Hge|]. apply Z.lt_le_incl, (strict_lookup ids (first + step) i x y Hs Hx Hy). lia.
Qed.

Lemma lower_bound_run fl ids v : has_ids fl ids -> StronglySorted Z.lt ids ->
  exists p, lower_bound fl v = Ok (Z.of_nat p) /\ parts ids v p.
Proof.
  intros Hi Hs. unfold lower_bound. pose proof (hi_number _ _ Hi) as ->. rewrite Nat2Z.id.
  apply (lower_bound_loop_run fl ids v Hi Hs _ O); [done|done|lia|]. intros i x Hx%lookup_lt_Some H. lia.
Qed.

Lemma linear_scan_run fl ids v (p : nat) : has_ids fl ids -> (forall (i : nat) x, ids !! i = Some x -> (i < p)%nat -> x <> v) ->
  ids !! p = Some v -> forall n (iter : nat), (iter + n = length ids)%nat -> (iter <= p)%nat ->
  linear_scan n fl (Z.of_nat iter) v = Ok (Z.of_nat p).
Proof.
  intros [_ Hget] Hbefore Hp. pose proof (lookup_lt_Some _ _ _ Hp). induction n as [|n IH]; intros iter Hn Hi; [lia|].
  cbn [linear_scan]. destruct (lookup_lt_is_Some_2 ids iter) as [x Hx]; [lia|]. rewrite (Hget _ _ Hx). cbn [rbind].
  destruct (Z.eqb_spec x v) as [->|Hne].
  - destruct (decide (iter = p)) as [->|Hip]; [done|]. destruct (Hbefore iter v Hx); [lia|done].
  - replace (Z.of_nat iter + 1) with (Z.of_nat (S iter)) by lia. apply IH; [lia|].
    destruct (decide (iter = p)) as [->|]; [by simplify_eq|lia].
Qed.

(** The offset of a keyword in a forward list with growing ids: the binary search ends
    with the number of smaller ids, which for an id of the list is its place, and the
    linear scan finds the same place. *)
Theorem keyword_offset (fl : ForwardList) (ids : list Z) (v : Z) : has_ids fl ids -> StronglySorted Z.lt ids ->
  exists p : nat, getKeywordOffset fl v = Ok (Z.of_nat p) /\ (p <= length ids)%nat /\
    Forall (fun x => x < v) (take p ids) /\ Forall (fun x => v <= x) (drop p ids) /\
    (v ∈ ids -> ids !! p = Some v /\ getKeywordOffsetByLinearScan fl v = Ok (Z.of_nat p)).
Proof.
  intros Hi Hs. destruct (lower_bound_run fl ids v Hi Hs) as (p & Hr & [Hle Hlo Hhi]). exists p. split; [done|]. split; [done|].
  split; [|split].
  - apply Forall_lookup. intros i x [Hx Hip]%lookup_take_Some. by apply (Hlo i x).
  - apply Forall_lookup. intros i x Hx. rewrite lookup_drop in Hx. apply (Hhi _ _ Hx). lia.
  - intros [i Hv]%list_elem_of_lookup_1. assert (i = p) as ->.
    { destruct (decide (i < p)%nat) as [Hlt|Hge]; [specialize (Hlo i v Hv Hlt); lia|].
      destruct (decide (i = p)) as [|Hne]; [done|]. destruct (lookup_lt_is_Some_2 ids p) as [x Hx]; [apply lookup_lt_Some in Hv; lia|].
      specialize (Hhi p x Hx ltac:(lia)). pose proof (strict_lookup ids p i x v Hs Hx Hv ltac:(lia)). lia. }
    split; [done|]. unfold getKeywordOffsetByLinearScan. rewrite (hi_number _ _ Hi), Nat2Z.id.
    apply (linear_scan_run fl ids v p Hi) with (iter := O); [|done|done|lia]. intros j x Hx Hj E. subst x.
    specialize (Hlo j v Hx Hj). lia.
Qed.

(** Three keywords, with the ids 5, 70000 and 70001. *)
Definition ex_fl : ForwardList :=
  mk_fl 3 [] [] ([5; 0; 0; 0; 112; 17; 1; 0; 113; 17; 1; 0] ++ replicate 12 0) 0 0 24 0 0 0.

Lemma keyword_offset_witness : exists p : nat, getKeywordOffset ex_fl 70001 = Ok (Z.of_nat p) /\ (p <= 3)%nat /\
  Forall (fun x => x < 70001) (take p [5; 70000; 70001]) /\ Forall (fun x => 70001 <= x) (drop p [5; 70000; 70001]) /\
  (70001 ∈ [5; 70000; 70001] -> [5; 70000; 70001] !! p = Some 70001 /\ getKeywordOffsetByLinearScan ex_fl 70001 = Ok (Z.of_nat p)).
Proof.
  apply (keyword_offset ex_fl [5; 70000; 70001] 70001).
  - split; [reflexivity|]. intros [|[|[|i]]] x Hx; cbn in Hx; try discriminate; injection Hx as <-; reflexivity.
  - repeat constructor.
Defined.

(** ** Sets of attributes *)

Definition mem (l : list Z) (x : Z) : bool := existsb (Z.eqb x) l.

Lemma mem_elem l x : mem l x = true <-> x ∈ l.
Proof. unfold mem. rewrite existsb_exists, list_elem_of_In. setoid_rewrite Z.eqb_eq. naive_solver. Qed.

Lemma mem_above l x : Forall (fun y => x < y) l -> mem l x = false.
Proof.
  intros H. destruct (mem l x) eqn:E; [|done]. apply mem_elem in E. rewrite Forall_forall in H. specialize (H x E). lia.
Qed.

Lemma mem_cons_ne l x y : x <> y -> mem (y :: l) x = mem l x.
Proof. intros H. unfold mem. cbn. by destruct (Z.eqb_spec x y). Qed.

Lemma mem_cons_eq l x : mem (x :: l) x = true.
Proof. unfold mem. cbn. by rewrite Z.eqb_refl. Qed.

Lemma sorted_cons x l : StronglySorted Z.lt (x :: l) -> StronglySorted Z.lt l /\ Forall (fun y => x < y) l.
Proof. intros H. by apply StronglySorted_inv in H. Qed.

Lemma filter_mem_cons (x : Z) l (r : list Z) (f : bool -> bool) : Forall (fun y => x < y) r ->
  List.filter (fun y => f (mem (x :: l) y)) r = List.filter (fun y => f (mem l y)) r.
Proof.
  intros H. apply filter_ext_in. intros y Hy%list_elem_of_In. rewrite Forall_forall in H. specialize (H y Hy).
  by rewrite mem_cons_ne by lia.
Qed.

Lemma filter_mem_plain (x : Z) l (r : list Z) : Forall (fun y => x < y) r -> List.filter (mem (x :: l)) r = List.filter (mem l) r.
Proof. intros H. exact (filter_mem_cons x l r (fun b => b) H). Qed.

Lemma above_trans (x y : Z) l : x < y -> Forall (fun z => y < z) l -> Forall (fun z => x < z) (y :: l).
Proof. intros H Hl. constructor; [done|]. eapply Forall_impl; [exact Hl|]. intros z Hz. cbn in Hz. lia. Qed.

Lemma set_intersection_filter l1 : StronglySorted Z.lt l1 -> forall l2, StronglySorted Z.lt l2 ->
  set_intersection l1 l2 = List.filter (mem l1) l2.
Proof.
  induction l1 as [|x l1 IH]; intros H1 l2 H2.
  { destruct l2 as [|y l2]; [done|]. cbn. clear. induction l2; cbn; auto. }
  apply sorted_cons in H1 as [H1 Hx]. induction l2 as [|y l2 IH2]; [done|].
  pose proof (sorted_cons _ _ H2) as [H2' Hy]. cbn [set_intersection List.filter].
  destruct (Z.ltb_spec x y) as [Hxy|Hxy]; [|destruct (Z.ltb_spec y x) as [Hyx|Hyx]].
  - change (set_intersection l1 (y :: l2) = List.filter (mem (x :: l1)) (y :: l2)). rewrite (IH H1 (y :: l2) H2).
    symmetry. apply filter_mem_plain. by apply above_trans.
  - rewrite (mem_cons_ne l1 y x) by lia. rewrite mem_above; [by apply IH2|]. apply Forall_inv_tail with (a := x). by apply above_trans.
  - assert (x = y) as -> by lia. rewrite mem_cons_eq. f_equal. rewrite (IH H1 l2 H2'). symmetry. by apply filter_mem_plain.
Qed.

Lemma filter_all_in {A} (f : A -> bool) (l : list A) : (forall x, x ∈ l -> f x = true) -> List.filter f l = l.
Proof.
  induction l as [|x l IH]; intros H; [done|]. cbn. rewrite H by set_solver. f_equal. apply IH. intros; apply H; set_solver.
Qed.

Lemma set_difference_filter l1 : StronglySorted Z.lt l1 -> forall l2, StronglySorted Z.lt l2 ->
  set_difference l1 l2 = List.filter (fun x => negb (mem l2 x)) l1.
Proof.
  induction l1 as [|x l1 IH]; intros H1 l2 H2; [by destruct l2|].
  pose proof (sorted_cons _ _ H1) as [H1' Hx]. induction l2 as [|y l2 IH2].
  { symmetry. by apply filter_all_in. }
  pose proof (sorted_cons _ _ H2) as [H2' Hy]. cbn [set_difference].
  destruct (Z.ltb_spec x y) as [Hxy|Hxy]; [|destruct (Z.ltb_spec y x) as [Hyx|Hyx]].
  - cbn [List.filter]. rewrite (mem_above (y :: l2) x) by (by apply above_trans). cbn [negb]. f_equal. by apply IH.
  - change (set_difference (x :: l1) l2 = List.filter (fun x => negb (mem (y :: l2) x)) (x :: l1)). rewrite (IH2 H2').
    symmetry. apply (filter_mem_cons y l2 (x :: l1) negb). by apply above_trans.
  - assert (x = y) as -> by lia. cbn [List.filter]. rewrite mem_cons_eq. cbn [negb]. rewrite (IH H1' l2 H2').
    symmetry. by apply (filter_mem_cons y l2 l1 negb).
Qed.

Lemma lists_matching l1 : forall l2, isAttributesListsMatching l1 l2 = bool_decide (l1 = l2).
Proof.
  induction l1 as [|x l1 IH]; intros [|y l2]; cbn; try done. rewrite IH.
  destruct (Z.eqb_spec x y) as [->|Hne]; cbn; [|by rewrite bool_decide_false by congruence].
  apply bool_decide_ext. naive_solver.
Qed.

Lemma filter_same {A} (f : A -> bool) l : List.filter f l = l <-> forallb f l = true.
Proof.
  induction l as [|x l IH]; cbn; [done|]. destruct (f x); cbn.
  - rewrite <- IH. split; [by intros [=]|by intros ->].
  - split; [|done]. intros E. exfalso. assert (length (List.filter f l) <= length l)%nat as Hl by apply filter_length_le. rewrite E in Hl. cbn in Hl. lia.
Qed.

Lemma filter_nonempty {A} (f : A -> bool) l : negb (Z.of_nat (length (List.filter f l)) =? 0) = existsb f l.
Proof. induction l as [|x l IH]; cbn; [done|]. destruct (f x); cbn; [|done]. by destruct (Z.eqb_spec (Z.pos (Pos.of_succ_nat (length (List.filter f l)))) 0). Qed.

(** ** Valid hits *)

(** Whether a keyword that occurs in [attrs] passes the filter. *)
Definition passes (t : PositionIndexType) (filter : list Z) (attrOp : ATTRIBUTES_OP) (attrs : list Z) : bool :=
  if negb (isEnabledAttributeBasedSearch t) then true
  else
    match filter with
    | [] => match attrOp with ATTRIBUTES_OP_OR => true | _ => false end
    | _ :: _ =>
        match attrOp with
        | ATTRIBUTES_OP_AND => forallb (mem attrs) filter          (* in every attribute of the filter *)
        | ATTRIBUTES_OP_OR => existsb (mem attrs) filter           (* in one of them *)
        | ATTRIBUTES_OP_NAND => existsb (fun a => negb (mem filter a)) attrs   (* in another one *)
        end
    end.

(** The attributes reported for it. *)
Definition matching_attributes (t : PositionIndexType) (filter : list Z) (attrOp : ATTRIBUTES_OP) (attrs : list Z) : list Z :=
  if negb (isEnabledAttributeBasedSearch t) then []
  else
    match filter with
    | [] => []
    | _ :: _ =>
        match attrOp with
        | ATTRIBUTES_OP_NAND => List.filter (fun a => negb (mem filter a)) attrs
        | _ => List.filter (mem attrs) filter
        end
    end.

(** A keyword of a forward list: its id, its attributes and its static score. *)
Record entry := mk_entry { e_id : Z; e_attributes : list Z; e_score : Z }.

Record has_entries (t : PositionIndexType) (fl : ForwardList) (es : list entry) : Prop := {
  he_ids : has_ids fl (map e_id es);
  he_attributes (i : nat) e m : es !! i = Some e -> isEnabledAttributeBasedSearch t = true ->
    getKeywordAttributeIdsList fl (Z.of_nat i) m = Ok (e_attributes e);
  he_score (i : nat) e : es !! i = Some e -> getKeywordRecordStaticScore fl (Z.of_nat i) = Ok (e_score e) }.

(** Entries as the index builds them. *)
Record proper (e : entry) : Prop := {
  pr_sorted : StronglySorted Z.lt (e_attributes e);
  pr_some : e_attributes e <> [];
  pr_score : half_ge0 (e_score e) = true }.

Section Hits.
Context (t : PositionIndexType) (fl : ForwardList) (es : list entry) (filter : list Z) (attrOp : ATTRIBUTES_OP).
Hypothesis (Hes : has_entries t fl es) (Hproper : Forall proper es) (Hfilter : StronglySorted Z.lt filter).
Hypothesis (Hand : attrOp = ATTRIBUTES_OP_AND -> filter <> []).

Definition accepts (e : entry) : bool := passes t filter attrOp (e_attributes e).
Definition reports (e : entry) : list Z := matching_attributes t filter attrOp (e_attributes e).

(** The list of the caller is empty when the filter does not set it. *)
Definition untouched (matched : list Z) : Prop := isEnabledAttributeBasedSearch t = false \/ filter = [] -> matched = [].

Lemma entry_proper (i : nat) e : es !! i = Some e -> proper e.
Proof. intros He. rewrite Forall_forall in Hproper. apply Hproper. by eapply list_elem_of_lookup_2. Qed.

Lemma entry_offset (i : nat) e : es !! i = Some e -> (Z.of_nat i <? numberOfKeywords fl) = true.
Proof.
  intros He%lookup_lt_Some. rewrite (hi_number _ _ (he_ids _ _ _ Hes)), length_map. apply Z.ltb_lt. lia.
Qed.

Lemma common_filter attrs : StronglySorted Z.lt attrs -> attrs <> [] -> filter <> [] ->
  fetchCommonAttributes attrs filter = List.filter (mem attrs) filter.
Proof.
  intros Hs Ha Hf. unfold fetchCommonAttributes. destruct attrs as [|a attrs]; [done|]. destruct filter as [|f fs]; [done|].
  by apply set_intersection_filter.
Qed.

Lemma valid_hit (i : nat) e matched : es !! i = Some e -> untouched matched ->
  isValidRecordTermHit t fl (Z.of_nat i) filter attrOp matched = Ok (accepts e, reports e, e_score e).
Proof.
  intros He Hm. unfold isValidRecordTermHit, accepts, reports, passes, matching_attributes.
  rewrite (he_score _ _ _ Hes i e He). cbn [rbind].
  destruct (isEnabledAttributeBasedSearch t) eqn:Et; cbn [negb]; [|by rewrite Hm by (by left)].
  pose proof (entry_proper i e He) as [Hs Hne _]. pose proof (he_attributes _ _ _ Hes i e matched He Et) as Ha.
  pose proof (common_filter (e_attributes e) Hs Hne) as Hcf.
  destruct filter as [|f fs] eqn:Ef.
  - rewrite Hm by (by right). destruct attrOp; [by destruct (Hand eq_refl)|done|done].
  - rewrite (entry_offset i e He), Ha. cbn [negb rbind].
    specialize (Hcf ltac:(done)).
    destruct attrOp.
    + rewrite Hcf, lists_matching. do 3 f_equal. destruct (forallb _ _) eqn:E.
      * apply bool_decide_eq_true, filter_same, E.
      * apply bool_decide_eq_false. intros H%filter_same. congruence.
    + by rewrite Hcf, filter_nonempty.
    + rewrite set_difference_filter by done. by rewrite filter_nonempty.
Qed.

Lemma reports_untouched e : untouched (reports e).
Proof.
  unfold untouched, reports, matching_attributes. intros [->| ->]; [done|]. by destruct (negb _).
Qed.

Variable (minId maxId : Z).
Definition in_range (e : entry) : bool := (minId <=? e_id e) && (e_id e <=? maxId).
Definition hit (e : entry) : Z * list Z * Z := (e_id e, reports e, e_score e).

(** What the loops see from [offset] on. *)
Definition seen (e : entry) : bool := (e_id e <=? maxId) && accepts e.

Lemma entry_id (i : nat) e : es !! i = Some e -> getKeywordId fl (Z.of_nat i) = Ok (e_id e).
Proof. intros He. apply (hi_get _ _ (he_ids _ _ _ Hes)). by rewrite list_lookup_fmap_map, He. Qed.

Lemma none_seen l : StronglySorted Z.lt (map e_id l) -> (forall e l', l = e :: l' -> maxId < e_id e) ->
  List.find seen l = None /\ List.filter seen l = [].
Proof.
  intros Hs Hfirst. assert (Forall (fun e => seen e = false) l) as Hall.
  { destruct l as [|e l]; [constructor|]. specialize (Hfirst e l eq_refl). cbn [map] in Hs. apply sorted_cons in Hs as [_ Hl].
    constructor; [unfold seen; destruct (Z.leb_spec (e_id e) maxId); [lia|done]|]. rewrite Forall_map in Hl.
    eapply Forall_impl; [exact Hl|]. intros y Hy. cbn in Hy. unfold seen. destruct (Z.leb_spec (e_id y) maxId); [lia|done]. }
  clear Hs Hfirst. induction Hall as [|e l He _ [IH1 IH2]]; cbn; [done|]. by rewrite He.
Qed.

Lemma drop_cons_lookup {A} (l : list A) (i : nat) x r : drop i l = x :: r -> l !! i = Some x /\ drop (S i) l = r.
Proof.
  intros E. assert (l !! i = Some x) as Hx by (rewrite <- (Nat.add_0_r i), <- lookup_drop, E; done).
  split; [done|]. by rewrite (drop_S l x i Hx) in E; injection E.
Qed.

Lemma first_hit_run l : forall (offset : nat) matched, drop offset es = l -> StronglySorted Z.lt (map e_id l) -> untouched matched ->
  first_hit (length l) t fl (Z.of_nat offset) maxId filter attrOp matched = Ok (option_map hit (List.find seen l)).
Proof.
  induction l as [|e l IH]; intros offset matched E Hs Hm; [done|]. cbn [length first_hit].
  apply drop_cons_lookup in E as [He E]. rewrite (entry_id _ _ He). cbn [rbind].
  destruct (Z.leb_spec (e_id e) maxId) as [Hle|Hgt].
  - rewrite (valid_hit _ _ _ He Hm). cbn [rbind List.find]. unfold seen at 1.
    destruct (Z.leb_spec (e_id e) maxId); [|lia]. cbn [andb]. destruct (accepts e) eqn:Ea.
    + by rewrite (pr_score _ (entry_proper _ _ He)).
    + replace (Z.of_nat offset + 1) with (Z.of_nat (S offset)) by lia. apply IH; [done| |apply reports_untouched].
      by apply sorted_cons in Hs as [Hs _].
  - destruct (none_seen (e :: l) Hs) as [-> _]; [|done]. intros ? ? [= <- _]. lia.
Qed.

Lemma all_hits_run l : forall (offset : nat) matched v, drop offset es = l -> StronglySorted Z.lt (map e_id l) -> untouched matched ->
  all_hits (length l) t fl (Z.of_nat offset) maxId filter attrOp matched v = Ok (v ++ map e_id (List.filter seen l)).
Proof.
  induction l as [|e l IH]; intros offset matched v E Hs Hm; [cbn; by rewrite app_nil_r|]. cbn [length all_hits].
  apply drop_cons_lookup in E as [He E]. rewrite (entry_id _ _ He). cbn [rbind].
  destruct (Z.leb_spec (e_id e) maxId) as [Hle|Hgt].
  - rewrite (valid_hit _ _ _ He Hm). cbn [rbind List.filter]. unfold seen at 1.
    destruct (Z.leb_spec (e_id e) maxId); [|lia]. cbn [andb].
    replace (Z.of_nat offset + 1) with (Z.of_nat (S offset)) by lia. rewrite IH; [|done|by apply sorted_cons in Hs as [Hs _]|apply reports_untouched].
    destruct (accepts e); [|done]. cbn [map]. by rewrite <- app_assoc.
  - destruct (none_seen (e :: l) Hs) as [_ ->]; [|cbn; by rewrite app_nil_r]. intros ? ? [= <- _]. lia.
Qed.

(** From the place of [minId] on, being seen is being in the range and accepted. *)
Lemma seen_from (p : nat) : parts (map e_id es) minId p ->
  List.find seen (drop p es) = List.find (fun e => in_range e && accepts e) es /\
  List.filter seen (drop p es) = List.filter (fun e => in_range e && accepts e) es.
Proof.
  intros [Hle Hlo Hhi]. rewrite <- (take_drop p es) at 2 4.
  assert (Forall (fun e => in_range e && accepts e = false) (take p es)) as Htake.
  { apply Forall_lookup. intros i e [He Hi]%lookup_take_Some. specialize (Hlo i (e_id e)). rewrite list_lookup_fmap_map, He in Hlo.
    specialize (Hlo eq_refl Hi). unfold in_range. destruct (Z.leb_spec minId (e_id e)); [lia|done]. }
  assert (Forall (fun e => in_range e && accepts e = seen e) (drop p es)) as Hdrop.
  { apply Forall_lookup. intros i e He. rewrite lookup_drop in He. specialize (Hhi (p + i)%nat (e_id e)).
    rewrite list_lookup_fmap_map, He in Hhi. specialize (Hhi eq_refl ltac:(lia)). unfold in_range, seen.
    by destruct (Z.leb_spec minId (e_id e)); [|lia]. }
  clear Hle Hlo Hhi. induction Htake as [|e l He _ IH]; cbn; [|by rewrite He].
  induction Hdrop as [|e l He _ [IH1 IH2]]; cbn; [done|]. by rewrite He, IH1, IH2.
Qed.

Lemma length_rest (p : nat) : Z.to_nat (numberOfKeywords fl - Z.of_nat p) = length (drop p es).
Proof. rewrite (hi_number _ _ (he_ids _ _ _ Hes)), length_map, length_drop. lia. Qed.

Lemma range_run : StronglySorted Z.lt (map e_id es) ->
  haveWordInRange t fl minId maxId filter attrOp = Ok (option_map hit (List.find (fun e => in_range e && accepts e) es)) /\
  forall v, getWordsInRange t fl minId maxId filter attrOp v = Ok (v ++ map e_id (List.filter (fun e => in_range e && accepts e) es)).
Proof.
  intros Hs. destruct (lower_bound_run fl _ minId (he_ids _ _ _ Hes) Hs) as (p & Hr & Hp).
  destruct (seen_from p Hp) as [E1 E2].
  assert (StronglySorted Z.lt (map e_id (drop p es))) as Hs'.
  { rewrite <- (take_drop p es), map_app in Hs. by apply ssorted_app_inv in Hs as (_ & _ & Hs). }
  unfold haveWordInRange, getWordsInRange. rewrite Hr. cbn [rbind]. rewrite length_rest. split.
  - by rewrite (first_hit_run _ p []), E1.
  - intros v. by rewrite (all_hits_run _ p [] v), E2.
Qed.

End Hits.

(** The search for a word range in a forward list with growing ids, sorted attributes
    and non-negative scores: it ends without a fault and answers the first keyword with
    an id in the range whose attributes pass the filter, with the attributes that
    matched and its score; and the list of all of them is complete and in order. *)
Theorem range_search (t : PositionIndexType) (fl : ForwardList) (es : list entry) (filter : list Z) (attrOp : ATTRIBUTES_OP) (minId maxId : Z) :
  has_entries t fl es -> StronglySorted Z.lt (map e_id es) -> Forall proper es -> StronglySorted Z.lt filter ->
  (attrOp = ATTRIBUTES_OP_AND -> filter <> []) ->
  let found e := (minId <=? e_id e) && (e_id e <=? maxId) && passes t filter attrOp (e_attributes e) in
  haveWordInRange t fl minId maxId filter attrOp =
    Ok (option_map (fun e => (e_id e, matching_attributes t filter attrOp (e_attributes e), e_score e)) (List.find found es)) /\
  forall v, getWordsInRange t fl minId maxId filter attrOp v = Ok (v ++ map e_id (List.filter found es)).
Proof. intros Hes Hs Hp Hf Hand. by apply range_run. Qed.

End ForwardSearch.
