(* ===== verification/ForwardLayout.v ===== *)
(** * The layout of a forward list (core/index/ForwardIndex.cpp: addRecord and the getters)

    What ForwardIndex::addRecord stores for the occurrences of the keywords of a
    record is what the getters of class ForwardList read back. *)
From S2P Require Import Prelude Uleb128 RecordAcl ForwardList.
From Stdlib Require Import ZArith Lia List Bool.
From stdpp Require Import base gmap list fin_maps sorting.
Open Scope Z_scope.

Module ForwardLayout.
Import ULEB128 ForwardList.

(** ** What is stored *)

(** One occurrence of a keyword. *)
Record occurrence := mk_occ {
  o_attribute : Z; o_position : Z; o_offset : Z; o_charLen : Z; o_type : AnalyzedTokenType }.

(** The parallel vectors of the analyzer. *)
Definition hits_of (l : list occurrence) : TokenAttributeHits :=
  mk_hits (map o_attribute l) (map o_position l) (map o_offset l) (map o_charLen l) (map o_type l).

(** The runs of occurrences with equal attributes. *)
Fixpoint runs_from (a : Z) (cur l : list occurrence) : list (Z * list occurrence) :=
  match l with
  | [] => [(a, cur)]
  | o :: l' => if a =? o_attribute o then runs_from a (cur ++ [o]) l' else (a, cur) :: runs_from (o_attribute o) [o] l'
  end.
Definition runs (l : list occurrence) : list (Z * list occurrence) :=
  match l with [] => [] | o :: l' => runs_from (o_attribute o) [o] l' end.

Definition is_synonym (ty : AnalyzedTokenType) : bool :=
  match ty with ANALYZED_SYNONYM_TOKEN => true | ANALYZED_ORIGINAL_TOKEN => false end.

Definition positions_of (l : list occurrence) : list Z := map o_position l.
Definition offsets_of (l : list occurrence) : list Z := map o_offset l.
Definition lens_of (l : list occurrence) : list Z := map o_charLen (List.filter (fun o => is_synonym (o_type o)) l).

(** The bit map of a list of occurrences, one bit for each. *)
Definition push_bit (bits : list Z) (cursor : nat) (ty : AnalyzedTokenType) : list Z :=
  let bits := if (length bits <=? cursor / 8)%nat then bits ++ [0] else bits in
  if is_synonym ty then alter (fun b => Z.lor b (Z.shiftl 1 (Z.of_nat (cursor mod 8)))) (cursor / 8)%nat bits else bits.
Fixpoint bitmap_from (bits : list Z) (cursor : nat) (l : list occurrence) : list Z :=
  match l with [] => bits | o :: l' => bitmap_from (push_bit bits cursor (o_type o)) (S cursor) l' end.
Definition bitmap_of (l : list occurrence) : list Z := bitmap_from [] 0 l.

(** A block: the number of bytes, and the bytes. *)
Definition block (b : list Z) : list Z := groups 4 (Z.of_nat (length b)) ++ b.
Definition blocks (bs : list (list Z)) : list Z := concat (map block bs).

(** The parts behind the fixed part, for the occurrences of each keyword. *)
Definition attribute_part (t : PositionIndexType) (ks : list (list occurrence)) : list Z :=
  if isEnabledAttributeBasedSearch t then blocks (map (fun l => encoding (map fst (runs l))) ks) else [].
Definition run_part (enabled : bool) (f : list occurrence -> list Z) (ks : list (list occurrence)) : list Z :=
  if enabled then concat (map (fun l => blocks (map (fun r => f r.2) (runs l))) ks) else [].
Definition position_part t ks := run_part (isEnabledWordPositionIndex t) (fun l => encoding (positions_of l)) ks.
Definition offset_part t ks := run_part (isEnabledCharPositionIndex t) (fun l => encoding (offsets_of l)) ks.
Definition charLen_part t ks := run_part (isEnabledCharPositionIndex t) (fun l => encoding (lens_of l)) ks.
Definition synonym_part t ks := run_part (isEnabledCharPositionIndex t) bitmap_of ks.

(** The number of bytes of a forward list. *)
Definition list_size (t : PositionIndexType) (ks : list (list occurrence)) : Z :=
  8 * Z.of_nat (length ks) + Z.of_nat (length (attribute_part t ks)) + Z.of_nat (length (position_part t ks)) +
  Z.of_nat (length (offset_part t ks)) + Z.of_nat (length (charLen_part t ks)) + Z.of_nat (length (synonym_part t ks)).

(** The analyzer found the keyword, and the numbers are of 32 bits. *)
Record found (l : list occurrence) : Prop := {
  fo_some : l <> [];
  fo_attributes : Forall is_u32 (map o_attribute l);
  fo_positions : Forall is_u32 (map o_position l);
  fo_offsets : Forall is_u32 (map o_offset l);
  fo_lens : Forall is_u32 (map o_charLen l);
  fo_number : Z.of_nat (length l) * 5 < 2 ^ 32 }.

(** ** Bytes *)

Lemma slice_app l1 l2 l3 off len : off = Z.of_nat (length l1) -> len = Z.of_nat (length l2) -> slice (l1 ++ l2 ++ l3) off len = Ok l2.
Proof.
  intros -> ->. unfold slice. rewrite !length_app.
  destruct (Z.leb_spec 0 (Z.of_nat (length l1))); [|lia]. destruct (Z.leb_spec 0 (Z.of_nat (length l2))); [|lia].
  destruct (Z.leb_spec (Z.of_nat (length l1) + Z.of_nat (length l2)) (Z.of_nat (length l1 + (length l2 + length l3)))); [|lia].
  cbn [andb]. by rewrite !Nat2Z.id, drop_app_length, take_app_length.
Qed.

Lemma blit_app l1 l2 l3 off bs : off = Z.of_nat (length l1) -> length bs = length l2 ->
  blit (l1 ++ l2 ++ l3) off bs = Ok (l1 ++ bs ++ l3).
Proof.
  intros -> Hb. unfold blit. rewrite !length_app.
  destruct (Z.leb_spec 0 (Z.of_nat (length l1))); [|lia].
  destruct (Z.leb_spec (Z.of_nat (length l1) + Z.of_nat (length bs)) (Z.of_nat (length l1 + (length l2 + length l3)))); [|lia].
  cbn [andb]. rewrite !Nat2Z.id, take_app_length, Hb. do 3 f_equal.
  by rewrite (app_assoc l1 l2 l3), <- length_app, drop_app_length.
Qed.

Lemma length_le_split n z : length (le_split n z) = n.
Proof. revert z. induction n; intros z; cbn; auto. Qed.

Lemma le_join_split n : forall z, 0 <= z < 2 ^ (8 * Z.of_nat n) -> le_join (le_split n z) = z.
Proof.
  induction n as [|n IH]; intros z Hz; cbn [le_split le_join].
  { replace (8 * Z.of_nat 0) with 0 in Hz by lia. change (2 ^ 0) with 1 in Hz. lia. }
  replace (8 * Z.of_nat (S n)) with (8 + 8 * Z.of_nat n) in Hz by lia. rewrite Z.pow_add_r in Hz by lia. change (2 ^ 8) with 256 in Hz.
  rewrite IH; [pose proof (Z.div_mod z 256); lia|]. split; [apply Z.div_pos; lia|apply Z.div_lt_upper_bound; lia].
Qed.

(** ** Reading blocks *)

Lemma length_u32 (pre b tail : list Z) : Z.of_nat (length (pre ++ block b ++ tail)) < 2 ^ 32 -> is_u32 (Z.of_nat (length b)).
Proof. unfold block. rewrite !length_app. unfold is_uint. lia. Qed.

Lemma read_block pre b tail ptr byteRead : is_u32 (Z.of_nat (length b)) -> ptr = Z.of_nat (length pre) ->
  read_length (pre ++ block b ++ tail) ptr byteRead = Ok (Z.of_nat (length b), Z.of_nat (length (groups 4 (Z.of_nat (length b))))) /\
  slice (pre ++ block b ++ tail) (ptr + Z.of_nat (length (groups 4 (Z.of_nat (length b))))) (Z.of_nat (length b)) = Ok b.
Proof.
  intros Hb ->. unfold read_length, block. split.
  - rewrite Nat2Z.id, drop_app_length, <- app_assoc, decode_groups by done. done.
  - rewrite <- app_assoc, app_assoc. apply slice_app; [rewrite length_app; lia|done].
Qed.

Lemma length_block b : Z.of_nat (length (block b)) = Z.of_nat (length (groups 4 (Z.of_nat (length b)))) + Z.of_nat (length b).
Proof. unfold block. rewrite length_app. lia. Qed.

Lemma jump_blocks_run bs : forall pre tail piPtr piOffset byteRead, piPtr + piOffset = Z.of_nat (length pre) -> 0 <= piOffset -> 0 <= piPtr ->
  Z.of_nat (length (pre ++ blocks bs ++ tail)) < 2 ^ 32 ->
  exists r, jump_blocks (length bs) (pre ++ blocks bs ++ tail) piPtr piOffset byteRead = Ok (piOffset + Z.of_nat (length (blocks bs)), r).
Proof.
  induction bs as [|b bs IH]; intros pre tail piPtr piOffset byteRead Hp H0 H1 Hsz; [exists byteRead; cbn; do 2 f_equal; lia|].
  unfold blocks in *. cbn [map concat length jump_blocks] in *. fold (blocks bs) in *. rewrite <- app_assoc in *.
  assert (is_u32 (Z.of_nat (length b))) as Hb by (by eapply length_u32).
  destruct (read_block pre b (blocks bs ++ tail) (piPtr + piOffset) byteRead Hb Hp) as [-> _]. cbn [rbind].
  rewrite <- length_block. rewrite !length_app in Hsz.
  rewrite wrap_id by (unfold is_uint; lia). rewrite app_assoc in *.
  destruct (IH (pre ++ block b) tail piPtr (piOffset + Z.of_nat (length (block b))) (Z.of_nat (length (groups 4 (Z.of_nat (length b)))))) as [r Hr];
    [rewrite length_app; lia|lia|lia|rewrite !length_app; lia|].
  exists r. rewrite Hr, length_app. do 2 f_equal. lia.
Qed.

Lemma terminated_block b : terminated b -> terminated (block b).
Proof. intros H. apply terminated_app; [apply groups_terminated|done]. Qed.

Lemma terminated_blocks bs : Forall terminated bs -> terminated (blocks bs).
Proof.
  unfold blocks. induction 1 as [|b bs Hb _ IH]; [by left|]. apply terminated_app; [by apply terminated_block|done].
Qed.

Lemma terminated_concat bs : Forall terminated bs -> terminated (concat bs).
Proof. induction 1 as [|b bs Hb _ IH]; [by left|]. by apply terminated_app. Qed.

Lemma not_badly_encoded pre part tail ptr : terminated part -> part <> [] -> ptr = Z.of_nat (length pre) ->
  badly_encoded (pre ++ part ++ tail) ptr (Z.of_nat (length part)) = Ok false.
Proof.
  intros Ht Hne ->. destruct (terminated_last part Hne Ht) as (r & Hr & Hbit). unfold badly_encoded.
  apply vec_at_nth in Hr as [H0 Hr]. pose proof (lookup_lt_Some _ _ _ Hr).
  assert (vec_at (pre ++ part ++ tail) (Z.of_nat (length pre) + Z.of_nat (length part) - 1) = Ok r) as ->.
  { apply vec_at_nth. split; [lia|]. rewrite lookup_app_r by lia.
    replace (Z.to_nat (Z.of_nat (length pre) + Z.of_nat (length part) - 1) - length pre)%nat with (Z.to_nat (Z.of_nat (length part) - 1)) by lia.
    by rewrite lookup_app_l by lia. }
  cbn [rbind]. by rewrite Hbit.
Qed.

Lemma read_list_run d ptr l pl : slice d ptr (Z.of_nat (length (encoding l))) = Ok (encoding l) -> Forall is_u32 l ->
  Z.of_nat (length l) * 5 < 2 ^ 32 -> (length l <= length (encoding l))%nat ->
  read_list d ptr (Z.of_nat (length (encoding l))) pl = Ok (pl ++ l).
Proof. intros Hs Hl Hn Hle. unfold read_list. rewrite Hs. cbn [rbind]. by apply decode_vector. Qed.

Lemma concat_groups_at_least ds : (length ds <= length (concat (groups 4 <$> ds)))%nat.
Proof.
  induction ds as [|d ds IH]; [done|]. rewrite fmap_cons. cbn [concat length]. rewrite length_app.
  pose proof (groups_length 4 d). lia.
Qed.

Lemma encoding_at_least l : (length l <= length (encoding l))%nat.
Proof.
  destruct l as [|x l]; [done|]. cbn [encoding length]. rewrite length_app.
  pose proof (groups_length 4 x). pose proof (concat_groups_at_least (deltas x l)). rewrite deltas_length in *. lia.
Qed.

(** ** A forward list with this layout *)

Record laid_out (t : PositionIndexType) (fl : ForwardList) (ks : list (list occurrence)) (fixed : list Z) : Prop := {
  lo_number : numberOfKeywords fl = Z.of_nat (length ks);
  lo_fixed : length fixed = (8 * length ks)%nat;
  lo_data : data fl = fixed ++ attribute_part t ks ++ position_part t ks ++ offset_part t ks ++ synonym_part t ks ++ charLen_part t ks;
  lo_attributes : attributeIdsIndexSize fl = Z.of_nat (length (attribute_part t ks));
  lo_positions : positionIndexSize fl = Z.of_nat (length (position_part t ks));
  lo_offsets : offsetIndexSize fl = Z.of_nat (length (offset_part t ks));
  lo_charLens : charLenIndexSize fl = Z.of_nat (length (charLen_part t ks));
  lo_synonyms : synonymBitMapSize fl = Z.of_nat (length (synonym_part t ks)) }.

Lemma blocks_app bs1 bs2 : blocks (bs1 ++ bs2) = blocks bs1 ++ blocks bs2.
Proof. unfold blocks. by rewrite map_app, concat_app. Qed.

Lemma block_nonempty b : block b <> [].
Proof. unfold block. pose proof (groups_length 4 (Z.of_nat (length b))). destruct (groups 4 _); [cbn in *; lia|done]. Qed.

Lemma blocks_nonempty bs : bs <> [] -> blocks bs <> [].
Proof. destruct bs as [|b bs]; [done|]. intros _ E. apply app_eq_nil in E as [E _]. by apply block_nonempty in E. Qed.

(** The block of an index, after jumping over the ones before it. *)
Lemma block_at bs (i : nat) b pre tail ptr byteRead : bs !! i = Some b -> ptr = Z.of_nat (length pre) ->
  let d := pre ++ blocks bs ++ tail in
  Z.of_nat (length d) < 2 ^ 32 ->
  exists off r n, jump_blocks i d ptr 0 byteRead = Ok (off, r) /\
    read_length d (ptr + off) r = Ok (Z.of_nat (length b), n) /\ slice d (ptr + off + n) (Z.of_nat (length b)) = Ok b.
Proof.
  intros Hi -> d Hsz. pose proof (lookup_lt_Some _ _ _ Hi) as Hlt.
  set (rest := block b ++ blocks (drop (S i) bs) ++ tail).
  assert (d = pre ++ blocks (take i bs) ++ rest) as E.
  { unfold d, rest. rewrite <- (take_drop_middle bs i b Hi) at 1. rewrite blocks_app, <- app_assoc. do 2 f_equal.
    change (blocks (b :: drop (S i) bs)) with (block b ++ blocks (drop (S i) bs)). by rewrite <- app_assoc. }
  rewrite E in *. destruct (jump_blocks_run (take i bs) pre rest (Z.of_nat (length pre)) 0 byteRead) as [r Hr]; [lia|lia|lia|done|].
  rewrite length_take, Nat.min_l in Hr by lia. unfold rest in Hsz |- *. rewrite app_assoc in Hsz.
  pose proof (length_u32 _ _ _ Hsz) as Hb.
  destruct (read_block (pre ++ blocks (take i bs)) b (blocks (drop (S i) bs) ++ tail)
    (Z.of_nat (length pre) + Z.of_nat (length (blocks (take i bs)))) r Hb) as [H1 H2]; [rewrite length_app; lia|].
  rewrite <- app_assoc in H1, H2. do 3 eexists. split; [exact Hr|]. by split.
Qed.

Lemma runs_from_props l : forall a cur, Forall is_u32 (a :: map o_attribute l) ->
  (length (runs_from a cur l) <= S (length l))%nat /\ Forall is_u32 (map fst (runs_from a cur l)) /\
  concat (map snd (runs_from a cur l)) = cur ++ l /\ runs_from a cur l <> [].
Proof.
  induction l as [|o l IH]; intros a cur Ha; inversion Ha as [|? ? Hax Hl]; subst; cbn [runs_from map concat length].
  { cbn [fst snd]. rewrite app_nil_r. split_and!; [lia|cbn; auto|done|done]. }
  cbn [map] in Hl. destruct (Z.eqb_spec a (o_attribute o)) as [->|_].
  - destruct (IH (o_attribute o) (cur ++ [o])) as (H1 & H2 & H3 & H4); [done|]. rewrite H3, <- app_assoc. split_and!; [lia|done|done|done].
  - destruct (IH (o_attribute o) [o]) as (H1 & H2 & H3 & H4); [done|]. cbn [map concat length fst snd]. rewrite H3.
    split_and!; [lia|by constructor|done|done].
Qed.

Lemma runs_props l : found l ->
  (length (runs l) <= length l)%nat /\ Forall is_u32 (map fst (runs l)) /\ concat (map snd (runs l)) = l /\ runs l <> [].
Proof.
  intros [Hne Ha _ _ _ _]. destruct l as [|o l]; [done|]. cbn [runs length]. apply (runs_from_props l (o_attribute o) [o]). exact Ha.
Qed.

Lemma run_of l r : found l -> r ∈ runs l -> (length r.2 <= length l)%nat /\ forall o, o ∈ r.2 -> o ∈ l.
Proof.
  intros Hl Hr. destruct (runs_props l Hl) as (_ & _ & Hc & _). apply list_elem_of_lookup_1 in Hr as [i Hi].
  rewrite <- (take_drop_middle _ _ _ Hi), map_app, concat_app in Hc. cbn [map concat] in Hc. rewrite <- Hc. split; [rewrite !length_app; lia|].
  intros o Ho. set_solver.
Qed.

(** Values of the occurrences that the codec takes. *)
Definition encodable (g : list occurrence -> list Z) : Prop :=
  forall l r, found l -> r ∈ runs l -> Forall is_u32 (g r.2) /\ Z.of_nat (length (g r.2)) * 5 < 2 ^ 32.

Lemma encodable_map (g : occurrence -> Z) (sel : occurrence -> bool) : (forall l, found l -> Forall is_u32 (map g l)) ->
  encodable (fun l => map g (List.filter sel l)).
Proof.
  intros Hg l r Hl Hr. destruct (run_of l r Hl Hr) as [Hle Hin]. specialize (Hg l Hl). rewrite List.Forall_map, Forall_forall in Hg. split.
  - rewrite List.Forall_map, Forall_forall. intros o Ho%list_elem_of_In%List.filter_In. apply Hg, Hin, list_elem_of_In. tauto.
  - rewrite length_map. pose proof (filter_length_le sel r.2). pose proof (fo_number l Hl). lia.
Qed.

Lemma filter_true {A} (l : list A) : List.filter (fun _ => true) l = l.
Proof. induction l; cbn; congruence. Qed.

Lemma encodable_positions : encodable positions_of.
Proof.
  intros l r Hl Hr. unfold positions_of. rewrite <- (filter_true r.2). by apply (encodable_map o_position _ fo_positions l).
Qed.
Lemma encodable_offsets : encodable offsets_of.
Proof.
  intros l r Hl Hr. unfold offsets_of. rewrite <- (filter_true r.2). by apply (encodable_map o_offset _ fo_offsets l).
Qed.
Lemma encodable_lens : encodable lens_of.
Proof. apply encodable_map, fo_lens. Qed.

Lemma size_nonzero (part : list Z) : part <> [] -> (Z.of_nat (length part) =? 0) = false.
Proof. destruct part; [done|]. intros _. apply Z.eqb_neq. cbn. lia. Qed.

(** What a list holds of the occurrences in an attribute, behind what was in it. *)
Definition in_attribute (g : list occurrence -> list Z) (l : list occurrence) (a : Z) (pl : list Z) : list Z :=
  match List.find (fun r => a =? r.1) (runs l) with Some r => pl ++ g r.2 | None => pl end.

(** The blocks of one keyword up to that of an attribute. *)
Lemma find_block_run (read : Z -> Z -> list Z -> result (list Z)) (f g : list occurrence -> list Z) (a : Z) pl rs :
  forall pre tail piPtr piOffset, piPtr + piOffset = Z.of_nat (length pre) -> 0 <= piOffset -> 0 <= piPtr ->
  let d := pre ++ blocks (map (fun r : Z * list occurrence => f r.2) rs) ++ tail in
  Z.of_nat (length d) < 2 ^ 32 ->
  (forall r ptr, r ∈ rs -> slice d ptr (Z.of_nat (length (f r.2))) = Ok (f r.2) -> read ptr (Z.of_nat (length (f r.2))) pl = Ok (pl ++ g r.2)) ->
  find_block read d (map fst rs) a piPtr piOffset pl =
    Ok (match List.find (fun r => a =? r.1) rs with Some r => pl ++ g r.2 | None => pl end).
Proof.
  induction rs as [|r rs IH]; intros pre tail piPtr piOffset Hp H0 H1 d Hsz Hread; [done|].
  unfold d in *. clear d. cbn [map find_block List.find] in *.
  change (blocks (f r.2 :: map (fun r => f r.2) rs)) with (block (f r.2) ++ blocks (map (fun r => f r.2) rs)) in *.
  rewrite <- app_assoc in *. pose proof (length_u32 _ _ _ Hsz) as Hb.
  destruct (read_block pre (f r.2) (blocks (map (fun r => f r.2) rs) ++ tail) (piPtr + piOffset) 0 Hb Hp) as [H2 H3].
  rewrite H2. cbn [rbind]. destruct (a =? r.1); [apply Hread; [set_solver|done]|].
  rewrite <- length_block. rewrite !length_app in Hsz. rewrite wrap_id by (unfold is_uint; lia).
  rewrite (app_assoc pre) in *. apply IH; [rewrite length_app; lia|lia|lia|rewrite !length_app; lia|].
  intros r' ptr Hr'. apply Hread. set_solver.
Qed.

Section Readers.
Context (t : PositionIndexType) (fl : ForwardList) (ks : list (list occurrence)) (fixed : list Z).
Hypothesis (Hlo : laid_out t fl ks fixed) (Hfound : Forall found ks) (Hsize : list_size t ks < 2 ^ 32).

Lemma data_length : Z.of_nat (length (data fl)) < 2 ^ 32.
Proof. rewrite (lo_data _ _ _ _ Hlo), !length_app, (lo_fixed _ _ _ _ Hlo). unfold list_size in Hsize. lia. Qed.

Lemma pointers : getKeywordAttributeIdsPointer fl = Z.of_nat (length fixed) /\
  getPositionIndexPointer fl = Z.of_nat (length (fixed ++ attribute_part t ks)) /\
  getOffsetIndexPointer fl = Z.of_nat (length (fixed ++ attribute_part t ks ++ position_part t ks)) /\
  getSynonymBitMapPointer fl = Z.of_nat (length (fixed ++ attribute_part t ks ++ position_part t ks ++ offset_part t ks)) /\
  getCharLenIndexPointer fl =
    Z.of_nat (length (fixed ++ attribute_part t ks ++ position_part t ks ++ offset_part t ks ++ synonym_part t ks)).
Proof.
  unfold getCharLenIndexPointer, getSynonymBitMapPointer, getOffsetIndexPointer, getPositionIndexPointer, getKeywordAttributeIdsPointer,
    getKeywordIdsSizeInBytes, getKeywordTfBoostProductsSizeInBytes, getKeywordRecordStaticScoresSizeInBytes.
  rewrite (lo_number _ _ _ _ Hlo), (lo_attributes _ _ _ _ Hlo), (lo_positions _ _ _ _ Hlo), (lo_offsets _ _ _ _ Hlo), (lo_synonyms _ _ _ _ Hlo).
  unfold list_size in Hsize. rewrite !length_app, (lo_fixed _ _ _ _ Hlo).
  rewrite !wrap_id by (unfold is_uint; lia). repeat split; lia.
Qed.

Lemma found_at (i : nat) l : ks !! i = Some l -> found l.
Proof. intros H. rewrite Forall_forall in Hfound. apply Hfound. by eapply list_elem_of_lookup_2. Qed.

(** The attributes of a keyword. *)
Lemma attribute_list_run (i : nat) l m : isEnabledAttributeBasedSearch t = true -> ks !! i = Some l ->
  getKeywordAttributeIdsList fl (Z.of_nat i) m = Ok (map fst (runs l)).
Proof.
  intros Et Hi. pose proof pointers as [Hptr _]. pose proof data_length as Hlen. unfold getKeywordAttributeIdsList.
  rewrite (lo_attributes _ _ _ _ Hlo), Hptr, (lo_data _ _ _ _ Hlo) in *. unfold attribute_part in *. rewrite Et in *.
  set (bs := map (fun l => encoding (map fst (runs l))) ks) in *.
  assert (bs !! i = Some (encoding (map fst (runs l)))) as Hb by (unfold bs; by rewrite list_lookup_fmap_map, Hi).
  assert (blocks bs <> []) as Hne by (apply blocks_nonempty; by destruct bs).
  destruct (Z.eqb_spec (Z.of_nat (length (blocks bs))) 0) as [E|_]; [destruct (blocks bs); [done|cbn in E; lia]|].
  rewrite not_badly_encoded; [|apply terminated_blocks, List.Forall_map, Forall_forall; intros; apply encoding_terminated|done|done].
  cbn [rbind]. destruct (block_at bs i _ fixed _ _ 0 Hb eq_refl Hlen) as (off & r & n & H1 & H2 & H3).
  rewrite Nat2Z.id, H1. cbn [rbind]. rewrite H2. cbn [rbind].
  destruct (runs_props l (found_at i l Hi)) as (Hl & Hu & _ & _). pose proof (fo_number _ (found_at i l Hi)).
  apply read_list_run; [done|done|rewrite length_map; lia|apply encoding_at_least].
Qed.

Section Fetch.
Context (f : list occurrence -> list Z) (pre tail : list Z) (ptr : Z).
Hypothesis (Et : isEnabledAttributeBasedSearch t = true).
Hypothesis (Hdata : data fl = pre ++ run_part true f ks ++ tail) (Hptr : ptr = Z.of_nat (length pre)).

Lemma run_part_app k1 k2 : run_part true f (k1 ++ k2) = run_part true f k1 ++ run_part true f k2.
Proof. unfold run_part. by rewrite map_app, concat_app. Qed.

Lemma run_part_cons l k : run_part true f (l :: k) = blocks (map (fun r => f r.2) (runs l)) ++ run_part true f k.
Proof. done. Qed.

Lemma jump_keywords_run k2 : forall k1 k3, ks = k1 ++ k2 ++ k3 ->
  jump_keywords fl (seqZ (Z.of_nat (length k1)) (Z.of_nat (length k2))) ptr (Z.of_nat (length (run_part true f k1))) =
    Ok (Z.of_nat (length (run_part true f (k1 ++ k2)))).
Proof.
  induction k2 as [|l k2 IH]; intros k1 k3 E; [by rewrite app_nil_r|].
  cbn [length]. rewrite seqZ_cons by lia. cbn [jump_keywords].
  assert (ks !! length k1 = Some l) as Hl by (rewrite E; apply list_lookup_middle; done).
  rewrite (attribute_list_run _ l [] Et Hl). cbn [rbind]. pose proof data_length as Hlen.
  assert (data fl = (pre ++ run_part true f k1) ++ blocks (map (fun r => f r.2) (runs l)) ++ (run_part true f (k2 ++ k3) ++ tail)) as Ed.
  { rewrite Hdata, E, run_part_app. cbn [app]. rewrite run_part_cons. by rewrite <- !app_assoc. }
  rewrite Ed in Hlen |- *. rewrite length_map.
  destruct (jump_blocks_run (map (fun r => f r.2) (runs l)) (pre ++ run_part true f k1) (run_part true f (k2 ++ k3) ++ tail) ptr
    (Z.of_nat (length (run_part true f k1))) 0) as [r Hr]; [rewrite length_app; lia|lia|lia|done|].
  rewrite length_map in Hr. rewrite Hr. cbn [rbind].
  specialize (IH (k1 ++ [l]) k3). rewrite <- !app_assoc in IH. specialize (IH E). cbn [app] in IH. rewrite <- IH.
  rewrite length_app. cbn [length]. rewrite run_part_app, run_part_cons, !length_app. cbn [run_part map concat length].
  f_equal; [f_equal; lia|lia].
Qed.

(** The reader of a part finds the block of the first run with the attribute. *)
Lemma fetch_run (read : Z -> Z -> list Z -> result (list Z)) (g : list occurrence -> list Z) (i : nat) l (a : Z) pl :
  ks !! i = Some l ->
  (forall r ptr, r ∈ runs l -> slice (data fl) ptr (Z.of_nat (length (f r.2))) = Ok (f r.2) ->
    read ptr (Z.of_nat (length (f r.2))) pl = Ok (pl ++ g r.2)) ->
  fetch_with read fl (Z.of_nat i) a pl ptr =
    Ok (in_attribute g l a pl).
Proof.
  unfold in_attribute. intros Hi Hread. pose proof data_length as Hlen. unfold fetch_with.
  pose proof (jump_keywords_run (take i ks) [] (drop i ks)) as Hj. cbn [app] in Hj. rewrite take_drop in Hj.
  rewrite length_take, Nat.min_l in Hj by (apply lookup_lt_Some in Hi; lia). cbn [length Z.of_nat] in Hj.
  change (run_part true f []) with (@nil Z) in Hj. cbn [length] in Hj. change (Z.of_nat 0) with 0 in Hj. rewrite (Hj eq_refl). cbn [rbind]. clear Hj.
  rewrite (attribute_list_run _ l [] Et Hi). cbn [rbind].
  destruct ((Z.of_nat (length (map fst (runs l))) =? 0) || negb (existsb (Z.eqb a) (map fst (runs l)))) eqn:En.
  - assert (List.find (fun r : Z * list occurrence => a =? r.1) (runs l) = None) as ->; [|done].
    apply orb_true_iff in En as [En|En]; [destruct (runs l); [done|apply Z.eqb_eq in En; cbn in En; lia]|].
    apply negb_true_iff in En. clear -En. induction (runs l) as [|r rs IH]; [done|]. cbn in *.
    apply orb_false_iff in En as [-> En]. auto.
  - assert (data fl = (pre ++ run_part true f (take i ks)) ++ blocks (map (fun r => f r.2) (runs l)) ++ (run_part true f (drop (S i) ks) ++ tail)) as Ed.
    { rewrite Hdata. rewrite <- (take_drop_middle ks i l Hi) at 1. rewrite run_part_app, run_part_cons. by rewrite <- !app_assoc. }
    rewrite Ed in Hread, Hlen |- *. apply find_block_run; [rewrite length_app; lia|lia|lia|done|done].
Qed.

End Fetch.

Lemma fetch_encoded (g : list occurrence -> list Z) pre tail ptr (i : nat) l a pl : encodable g -> isEnabledAttributeBasedSearch t = true ->
  data fl = pre ++ run_part true (fun l => encoding (g l)) ks ++ tail -> ptr = Z.of_nat (length pre) -> ks !! i = Some l ->
  fetchDataFromVLBArray fl (Z.of_nat i) a pl ptr = Ok (in_attribute g l a pl).
Proof.
  intros Hg Et Hd Hp Hi. apply (fetch_run (fun l => encoding (g l)) pre tail); try done. intros r p Hr Hs.
  destruct (Hg l r (found_at i l Hi) Hr) as [H1 H2]. by apply read_list_run; [| | |apply encoding_at_least].
Qed.

Lemma run_part_nonempty (f : list occurrence -> list Z) (i : nat) l : ks !! i = Some l -> run_part true f ks <> [].
Proof.
  intros Hi E. rewrite <- (take_drop_middle _ _ _ Hi) in E. unfold run_part in E. rewrite map_app, concat_app in E. apply app_eq_nil in E as [_ E].
  apply app_eq_nil in E as [E _]. revert E. apply blocks_nonempty. destruct (runs_props l (found_at i l Hi)) as (_ & _ & _ & Hne).
  by destruct (runs l).
Qed.

Lemma run_part_terminated (g : list occurrence -> list Z) : terminated (run_part true (fun l => encoding (g l)) ks).
Proof.
  apply terminated_concat, List.Forall_map, Forall_forall. intros l _. apply terminated_blocks, List.Forall_map, Forall_forall. intros r _. apply encoding_terminated.
Qed.

(** The positions, the offsets, the lengths of synonyms and the synonym bits of a
    keyword in an attribute; nothing when the index does not keep them. *)
Lemma positions_run (i : nat) l a pl : ks !! i = Some l ->
  getKeyWordPostionsInRecordField fl (Z.of_nat i) a pl = Ok (if isEnabledWordPositionIndex t then in_attribute positions_of l a pl else pl).
Proof.
  intros Hi. destruct pointers as (_ & Hptr & _). unfold getKeyWordPostionsInRecordField. rewrite (lo_positions _ _ _ _ Hlo), Hptr.
  pose proof (lo_data _ _ _ _ Hlo) as Hd. unfold position_part in *. destruct (isEnabledWordPositionIndex t) eqn:Et; [|done].
  rewrite size_nonzero by (by eapply run_part_nonempty).
  rewrite Hd at 1. rewrite app_assoc, not_badly_encoded; [|apply run_part_terminated|by eapply run_part_nonempty|done]. cbn [rbind].
  eapply fetch_encoded; [apply encodable_positions|by destruct t|by rewrite Hd, app_assoc|done|done].
Qed.

Lemma offsets_run (i : nat) l a pl : ks !! i = Some l ->
  getKeyWordOffsetInRecordField fl (Z.of_nat i) a pl = Ok (if isEnabledCharPositionIndex t then in_attribute offsets_of l a pl else pl).
Proof.
  intros Hi. destruct pointers as (_ & _ & Hptr & _). unfold getKeyWordOffsetInRecordField. rewrite (lo_offsets _ _ _ _ Hlo), Hptr.
  pose proof (lo_data _ _ _ _ Hlo) as Hd. unfold offset_part in *. destruct (isEnabledCharPositionIndex t) eqn:Et; [|done].
  rewrite size_nonzero by (by eapply run_part_nonempty).
  assert (data fl = (fixed ++ attribute_part t ks ++ position_part t ks) ++ run_part true (fun l => encoding (offsets_of l)) ks ++
    synonym_part t ks ++ charLen_part t ks) as Hd' by (by rewrite Hd, <- !app_assoc).
  rewrite Hd' at 1. rewrite not_badly_encoded; [|apply run_part_terminated|by eapply run_part_nonempty|done]. cbn [rbind].
  eapply fetch_encoded; [apply encodable_offsets|by destruct t|exact Hd'|done|done].
Qed.

Lemma lens_run (i : nat) l a pl : ks !! i = Some l ->
  getSynonymCharLenInRecordField fl (Z.of_nat i) a pl = Ok (if isEnabledCharPositionIndex t then in_attribute lens_of l a pl else pl).
Proof.
  intros Hi. destruct pointers as (_ & _ & _ & _ & Hptr). unfold getSynonymCharLenInRecordField.
  rewrite (lo_offsets _ _ _ _ Hlo), (lo_charLens _ _ _ _ Hlo), Hptr.
  pose proof (lo_data _ _ _ _ Hlo) as Hd. unfold charLen_part, offset_part in *. destruct (isEnabledCharPositionIndex t) eqn:Et; [|done].
  rewrite !size_nonzero by (by eapply run_part_nonempty). cbn [orb].
  assert (data fl = (fixed ++ attribute_part t ks ++ position_part t ks ++ run_part true (fun l => encoding (offsets_of l)) ks ++
    synonym_part t ks) ++ run_part true (fun l => encoding (lens_of l)) ks ++ []) as Hd' by (by rewrite Hd, <- !app_assoc, app_nil_r).
  rewrite Hd' at 1. rewrite not_badly_encoded; [|apply run_part_terminated|by eapply run_part_nonempty|done]. cbn [rbind].
  eapply fetch_encoded; [apply encodable_lens|by destruct t|exact Hd'|done|done].
Qed.

Lemma bitmap_run (i : nat) l a pl : ks !! i = Some l ->
  getSynonymBitMapInRecordField fl (Z.of_nat i) a pl = Ok (if isEnabledCharPositionIndex t then in_attribute bitmap_of l a pl else pl).
Proof.
  intros Hi. destruct pointers as (_ & _ & _ & Hptr & _). unfold getSynonymBitMapInRecordField.
  rewrite (lo_offsets _ _ _ _ Hlo), (lo_synonyms _ _ _ _ Hlo), Hptr.
  pose proof (lo_data _ _ _ _ Hlo) as Hd. unfold synonym_part, offset_part in *. destruct (isEnabledCharPositionIndex t) eqn:Et; [|done].
  rewrite !size_nonzero by (by eapply run_part_nonempty). cbn [orb].
  apply (fetch_run bitmap_of (fixed ++ attribute_part t ks ++ position_part t ks ++ run_part true (fun l => encoding (offsets_of l)) ks)
    (charLen_part t ks)); [by destruct t|by rewrite Hd, <- !app_assoc|done|done|].
  - intros r p _ Hs. by rewrite Hs.
Qed.

End Readers.
End ForwardLayout.
