(* ===== verification/ForwardRoundtrip.v ===== *)
(** * What a record stores in its forward list is read back (core/index/ForwardIndex.cpp)

    ForwardIndex::addRecord builds the layout of ForwardLayout.v, and the getters of
    class ForwardList return what the analyzer found. *)
From S2P Require Import Prelude Uleb128 RecordAcl ForwardList ForwardLayout.
From Stdlib Require Import ZArith Lia List Bool.
From stdpp Require Import base gmap list fin_maps sorting.
Open Scope Z_scope.

Module ForwardRoundtrip.
Import ULEB128 ForwardList ForwardLayout.

(** ** Appending blocks *)

Lemma convert_array_run l buf : Forall is_u32 l -> Z.of_nat (length l) * 5 < 2 ^ 32 ->
  convertToVarLengthArray l buf = Ok (buf ++ block (encoding l)).
Proof.
  intros Hl Hn. unfold convertToVarLengthArray. rewrite encode_vector by (done || cbn; lia). cbn [rbind].
  pose proof (encoding_length l). rewrite encode_groups; [|unfold is_uint; lia|cbn; lia].
  cbn [rbind]. unfold block. by rewrite Nat2Z.id, take_app_length.
Qed.

Lemma convert_bits_run l buf : is_u32 (Z.of_nat (length l)) -> convertToVarLengthBitMap l buf = Ok (buf ++ block l).
Proof.
  intros Hn. unfold convertToVarLengthBitMap. rewrite encode_groups; [|done|cbn; lia].
  cbn [rbind]. unfold block. by rewrite Nat2Z.id, take_app_length.
Qed.

(** ** The synonym bits *)

Lemma push_bit_length bits (cursor : nat) ty : length bits = ((cursor + 7) / 8)%nat -> length (push_bit bits cursor ty) = ((S cursor + 7) / 8)%nat.
Proof.
  intros H. unfold push_bit. assert (length (if (length bits <=? cursor / 8)%nat then bits ++ [0] else bits) = ((S cursor + 7) / 8)%nat) as E.
  { destruct (Nat.leb_spec (length bits) (cursor / 8)); rewrite ?length_app; cbn [length]; rewrite H in *;
      pose proof (Nat.div_mod cursor 8); pose proof (Nat.div_mod (cursor + 7) 8); pose proof (Nat.div_mod (S cursor + 7) 8);
      pose proof (Nat.mod_upper_bound cursor 8); pose proof (Nat.mod_upper_bound (cursor + 7) 8); pose proof (Nat.mod_upper_bound (S cursor + 7) 8); lia. }
  destruct (is_synonym ty); [by rewrite length_alter|done].
Qed.

Lemma vec_at_lt {A} (l : list A) (i : nat) : (i < length l)%nat -> exists x, l !! i = Some x /\ vec_at l (Z.of_nat i) = Ok x.
Proof.
  intros H. destruct (lookup_lt_is_Some_2 l i H) as [x Hx]. exists x. split; [done|]. apply vec_at_nth. rewrite Nat2Z.id. split; [lia|done].
Qed.

Lemma mask_small n : (n < 8)%nat -> wrap8 (Z.shiftl 1 (Z.of_nat n)) = Z.shiftl 1 (Z.of_nat n).
Proof. intros H. do 8 (destruct n as [|n]; [done|]). lia. Qed.

Lemma alter_insert {A} (f : A -> A) (l : list A) (i : nat) x : l !! i = Some x -> alter f i l = <[i := f x]> l.
Proof. revert i. induction l as [|y l IH]; intros [|i] Hx; cbn in *; try done; [by injection Hx as ->|]. f_equal. by apply IH. Qed.

Lemma push_synonym_run ty len lens bits (cursor : nat) : length bits = ((cursor + 7) / 8)%nat ->
  push_synonym ty len lens bits (Z.of_nat cursor) = Ok (if is_synonym ty then lens ++ [len] else lens, push_bit bits cursor ty).
Proof.
  intros H. pose proof (push_bit_length bits cursor ANALYZED_ORIGINAL_TOKEN H) as Hlen. unfold push_synonym, push_bit in *. cbn [is_synonym] in *.
  change 8 with (Z.of_nat 8). rewrite <- Nat2Z.inj_div, <- Nat2Z.inj_mod.
  assert ((Z.of_nat (length bits) <=? Z.of_nat (cursor / 8)) = (length bits <=? cursor / 8)%nat) as ->
    by (destruct (Z.leb_spec (Z.of_nat (length bits)) (Z.of_nat (cursor / 8))), (Nat.leb_spec (length bits) (cursor / 8)); try done; lia).
  set (bits' := if (length bits <=? cursor / 8)%nat then _ else _) in *. destruct ty; [done|]. cbn [is_synonym].
  destruct (vec_at_lt bits' (cursor / 8)) as (b & Hb & ->).
  { rewrite Hlen. pose proof (Nat.div_mod cursor 8); pose proof (Nat.div_mod (S cursor + 7) 8);
      pose proof (Nat.mod_upper_bound cursor 8); pose proof (Nat.mod_upper_bound (S cursor + 7) 8); lia. }
  cbn [rbind]. rewrite mask_small by (by apply Nat.mod_upper_bound).
  assert (forall x, vec_set bits' (Z.of_nat (cursor / 8)) x = Ok (<[(cursor / 8)%nat := x]> bits')) as ->.
  { intros x. apply vec_set_Ok. pose proof (lookup_lt_Some _ _ _ Hb). rewrite Nat2Z.id. split; [lia|done]. }
  cbn [rbind]. by rewrite (alter_insert _ _ _ _ Hb).
Qed.

Lemma bitmap_from_app l1 : forall l2 bits cursor, bitmap_from bits cursor (l1 ++ l2) = bitmap_from (bitmap_from bits cursor l1) (cursor + length l1) l2.
Proof.
  induction l1 as [|o l1 IH]; intros l2 bits cursor; cbn; [by rewrite Nat.add_0_r|]. rewrite IH. f_equal. lia.
Qed.

Lemma bitmap_length l : forall bits cursor, length bits = ((cursor + 7) / 8)%nat ->
  length (bitmap_from bits cursor l) = ((cursor + length l + 7) / 8)%nat.
Proof.
  induction l as [|o l IH]; intros bits cursor H; cbn [bitmap_from length]; [by rewrite Nat.add_0_r|].
  rewrite IH by (by apply push_bit_length). f_equal. lia.
Qed.

(** ** The loop over the occurrences of a keyword *)

(** The state in which [cur] is the current run, of attribute [a]. *)
Definition state_of (t : PositionIndexType) (a : Z) (cur : list occurrence) (P O L S : list Z) : hit_state :=
  let word := isEnabledWordPositionIndex t in let char := isEnabledCharPositionIndex t in
  mk_hit_state a (if word then positions_of cur else []) (if char then offsets_of cur else [])
    (if char then lens_of cur else []) (if char then bitmap_of cur else []) (if char then Z.of_nat (length cur) else 0) P O L S.

Definition runs_part (enabled : bool) (f : list occurrence -> list Z) (rs : list (Z * list occurrence)) : list Z :=
  if enabled then blocks (map (fun r => f r.2) rs) else [].

Lemma push_hit_run t a cur o P O L S : Z.of_nat (length cur) + 1 < 2 ^ 32 ->
  push_hit t (o_position o) (o_offset o) (o_charLen o) (o_type o) (state_of t a cur P O L S) = Ok (state_of t a (cur ++ [o]) P O L S).
Proof.
  intros Hn. unfold push_hit, state_of. destruct (isEnabledWordPositionIndex t), (isEnabledCharPositionIndex t) eqn:Ec; cbn [positionListVector offsetVector
    synonymOriginalTokenLenArray synonymBitFlagArray bitMapCursor prevAttributeId tempPositionIndexBuffer tempOffsetBuffer tempcharLenBuffer
    tempSynonymBitMapBuffer];
  try (rewrite push_synonym_run by (apply (bitmap_length cur [] 0); done); cbn [rbind]; rewrite wrap_id by (unfold is_uint; lia));
  unfold positions_of, offsets_of, lens_of, bitmap_of; rewrite ?map_app, ?bitmap_from_app, ?length_app, ?List.filter_app; cbn [map List.filter length bitmap_from];
  rewrite ?Nat2Z.inj_add; try done; destruct (is_synonym (o_type o)); cbn [map]; by rewrite ?app_nil_r, ?map_app.
Qed.

Lemma found_values l : found l -> Forall is_u32 (positions_of l) /\ Forall is_u32 (offsets_of l) /\ Forall is_u32 (lens_of l) /\
  (length (lens_of l) <= length l)%nat.
Proof.
  intros H. split_and!; [apply (fo_positions l H)|apply (fo_offsets l H)| |unfold lens_of; rewrite length_map; apply filter_length_le].
  pose proof (fo_lens l H) as Hl. unfold lens_of. rewrite List.Forall_map, Forall_forall in *. intros o Ho%list_elem_of_In%List.filter_In.
  apply Hl, list_elem_of_In. tauto.
Qed.

Lemma flush_run t a cur P O L S : found cur -> let word := isEnabledWordPositionIndex t in let char := isEnabledCharPositionIndex t in
  flush_hits t (state_of t a cur P O L S) =
    Ok (state_of t a [] (P ++ runs_part word (fun l => encoding (positions_of l)) [(a, cur)]) (O ++ runs_part char (fun l => encoding (offsets_of l)) [(a, cur)])
      (L ++ runs_part char (fun l => encoding (lens_of l)) [(a, cur)]) (S ++ runs_part char bitmap_of [(a, cur)])).
Proof.
  intros Hf word char. destruct (found_values cur Hf) as (H1 & H2 & H3 & H4). pose proof (fo_number cur Hf) as Hn.
  assert (is_u32 (Z.of_nat (length (bitmap_of cur)))) as Hb.
  { unfold bitmap_of. rewrite (bitmap_length cur [] 0) by done. pose proof (Nat.div_le_upper_bound (0 + length cur + 7) 8 (length cur + 1)). unfold is_uint. lia. }
  unfold flush_hits, state_of, word, char, runs_part. cbn [map snd]. unfold blocks. cbn [map concat].
  destruct (isEnabledWordPositionIndex t), (isEnabledCharPositionIndex t);
  cbn [positionListVector offsetVector
    synonymOriginalTokenLenArray synonymBitFlagArray bitMapCursor prevAttributeId tempPositionIndexBuffer tempOffsetBuffer tempcharLenBuffer
    tempSynonymBitMapBuffer];
  rewrite ?convert_array_run by (done || (unfold positions_of, offsets_of; rewrite ?length_map; lia)); cbn [rbind];
  rewrite ?convert_bits_run by done; cbn [rbind]; by rewrite !app_nil_r.
Qed.

(** One occurrence: a new attribute closes the run. *)
Lemma hit_step_run t all (j : nat) o a cur P O L S : all !! j = Some o -> Z.of_nat (length cur) + 1 < 2 ^ 32 -> (j = 0%nat \/ found cur) ->
  hit_step t (hits_of all) (state_of t a cur P O L S) (Z.of_nat j) =
    (let? s := if (Z.of_nat j =? 0) || (a =? o_attribute o) then Ok (state_of t a (cur ++ [o]) P O L S)
               else let? s := flush_hits t (state_of t a cur P O L S) in
                    push_hit t (o_position o) (o_offset o) (o_charLen o) (o_type o) s in
     Ok (set_prev (o_attribute o) s)).
Proof.
  intros Hj Hn Hf. unfold hit_step, hits_of. cbn [attributeIdList positionsOfTermInAttribute charOffsetsOfTermInAttribute
    typesOfTermInAttribute charLensOfTermInAttribute].
  assert (forall {B} (g : occurrence -> B), vec_at (map g all) (Z.of_nat j) = Ok (g o)) as Hat.
  { intros B g. apply vec_at_nth. split; [lia|]. by rewrite Nat2Z.id, list_lookup_fmap_map, Hj. }
  rewrite !Hat. cbn [rbind]. change (prevAttributeId (state_of t a cur P O L S)) with a.
  destruct ((Z.of_nat j =? 0) || (a =? o_attribute o)); [|done]. by rewrite push_hit_run.
Qed.

Lemma found_app l1 l2 : found (l1 ++ l2) -> (l1 <> [] -> found l1) /\ (l2 <> [] -> found l2).
Proof.
  intros [_ Ha Hp Ho Hl Hn]. rewrite map_app in *. rewrite length_app in Hn.
  apply List.Forall_app in Ha as [], Hp as [], Ho as [], Hl as []. split; intros; constructor; try done; lia.
Qed.

Lemma runs_part_cons enabled f r rs : runs_part enabled f (r :: rs) = runs_part enabled f [r] ++ runs_part enabled f rs.
Proof. destruct enabled; [|done]. cbn. unfold blocks. cbn. by rewrite app_nil_r. Qed.

Lemma set_prev_state t a b cur P O L S : set_prev b (state_of t a cur P O L S) = state_of t b cur P O L S.
Proof. done. Qed.

Lemma state_nil t a P O L S : state_of t a [] P O L S = mk_hit_state a [] [] [] [] 0 P O L S.
Proof. unfold state_of. by destruct t. Qed.

Lemma hits_loop t l : forall all (j : nat) a cur P O L S, drop j all = l -> (0 < j)%nat -> cur <> [] -> found (cur ++ l) ->
  let rs := runs_from a cur l in
  exists s, fold_res (seqZ (Z.of_nat j) (Z.of_nat (length l))) (hit_step t (hits_of all)) (state_of t a cur P O L S) = Ok s /\
    exists b, flush_hits t s = Ok (state_of t b []
      (P ++ runs_part (isEnabledWordPositionIndex t) (fun l => encoding (positions_of l)) rs)
      (O ++ runs_part (isEnabledCharPositionIndex t) (fun l => encoding (offsets_of l)) rs)
      (L ++ runs_part (isEnabledCharPositionIndex t) (fun l => encoding (lens_of l)) rs)
      (S ++ runs_part (isEnabledCharPositionIndex t) bitmap_of rs)).
Proof.
  induction l as [|o l IH]; intros all j a cur P O L S Ej Hj Hcur Hf rs.
  { eexists. split; [done|]. exists a. rewrite app_nil_r in Hf. by apply flush_run. }
  destruct (found_app _ _ Hf) as [Hfc Hfl]. specialize (Hfc Hcur). pose proof (fo_number _ Hf) as Hn. rewrite length_app in Hn. cbn [length] in Hn.
  assert (all !! j = Some o) as Ho by (rewrite <- (Nat.add_0_r j), <- lookup_drop, Ej; done).
  assert (drop (Datatypes.S j) all = l) as Ej' by (rewrite (drop_S all o j Ho) in Ej; by injection Ej).
  cbn [length]. rewrite seqZ_cons by lia. cbn [fold_res].
  replace (Z.succ (Z.of_nat j)) with (Z.of_nat (Datatypes.S j)) by lia. replace (Z.pred (Z.of_nat (Datatypes.S (length l)))) with (Z.of_nat (length l)) by lia.
  rewrite (hit_step_run t all j o a cur P O L S Ho) by (lia || by right). destruct (Z.eqb_spec (Z.of_nat j) 0); [lia|]. cbn [orb].
  unfold rs. clear rs. cbn [runs_from]. destruct (Z.eqb_spec a (o_attribute o)) as [E|E].
  - cbn [rbind]. rewrite set_prev_state, E. apply (IH all (Datatypes.S j) (o_attribute o) (cur ++ [o])); [done|lia|by destruct cur|by rewrite <- app_assoc].
  - rewrite flush_run by done. cbn [rbind]. rewrite push_hit_run by (cbn; lia). cbn [rbind app]. rewrite set_prev_state.
    edestruct (IH all (Datatypes.S j) (o_attribute o) [o]) as (s & Hs & b & Hb); [exact Ej'|lia|done|by apply Hfl|].
    exists s. split; [exact Hs|]. exists b. rewrite Hb. set (rs := runs_from (o_attribute o) [o] l).
    rewrite !(runs_part_cons _ _ (a, cur) rs). by rewrite <- !app_assoc.
Qed.

Lemma keyword_hits_run t l s : found l -> let rs := runs l in
  exists b, keyword_hits t (hits_of l) s = Ok (state_of t b []
    (tempPositionIndexBuffer s ++ runs_part (isEnabledWordPositionIndex t) (fun l => encoding (positions_of l)) rs)
    (tempOffsetBuffer s ++ runs_part (isEnabledCharPositionIndex t) (fun l => encoding (offsets_of l)) rs)
    (tempcharLenBuffer s ++ runs_part (isEnabledCharPositionIndex t) (fun l => encoding (lens_of l)) rs)
    (tempSynonymBitMapBuffer s ++ runs_part (isEnabledCharPositionIndex t) bitmap_of rs)).
Proof.
  intros Hf rs. unfold keyword_hits. cbn [hits_of attributeIdList]. rewrite length_map, <- (state_nil t).
  destruct l as [|o l]; [by destruct Hf|]. cbn [length]. rewrite seqZ_cons by lia. cbn [fold_res].
  replace (Z.succ 0) with (Z.of_nat 1) by lia. replace (Z.pred (Z.of_nat (Datatypes.S (length l)))) with (Z.of_nat (length l)) by lia.
  rewrite (hit_step_run t (o :: l) 0 o 0 [] _ _ _ _ eq_refl) by (cbn; lia || by left).
  change (Z.of_nat 0 =? 0) with true. cbn [orb rbind app]. rewrite set_prev_state.
  edestruct (hits_loop t l (o :: l) 1 (o_attribute o) [o]) as (s' & Hs & b & Hb); [done|lia|done|exact Hf|]. rewrite Hs. cbn [rbind]. by exists b.
Qed.

(** ** The buffers *)

(** The analyzer's vectors for the keyword [k] stand for the occurrences [l]. *)
Definition analyzed (m : hits_map) (k : Z * (list Z * Z)) (l : list occurrence) : Prop := m !! k.2.1 = Some (hits_of l) /\ found l.

Lemma position_fold t m ks ls : Forall2 (analyzed m) ks ls -> forall s,
  exists s', fold_res ks (fun s k => let? hits := find_hits m k in keyword_hits t hits s) s = Ok s' /\
    tempPositionIndexBuffer s' = tempPositionIndexBuffer s ++ position_part t ls /\
    tempOffsetBuffer s' = tempOffsetBuffer s ++ offset_part t ls /\
    tempcharLenBuffer s' = tempcharLenBuffer s ++ charLen_part t ls /\
    tempSynonymBitMapBuffer s' = tempSynonymBitMapBuffer s ++ synonym_part t ls.
Proof.
  unfold position_part, offset_part, charLen_part, synonym_part.
  assert (forall enabled f l ls, run_part enabled f (l :: ls) = runs_part enabled f (runs l) ++ run_part enabled f ls) as Hc by (by intros []).
  induction 1 as [|k l ks ls [Hm Hf] _ IH]; intros s.
  { exists s. by destruct (isEnabledWordPositionIndex t), (isEnabledCharPositionIndex t); cbn; rewrite !app_nil_r. }
  cbn [fold_res]. unfold find_hits at 1. rewrite Hm. cbn [of_option rbind].
  destruct (keyword_hits_run t l s Hf) as [b ->]. cbn [rbind]. edestruct IH as (s' & Hs & H1 & H2 & H3 & H4). exists s'. split; [exact Hs|].
  rewrite H1, H2, H3, H4, !Hc, !app_assoc. done.
Qed.

Lemma position_buffers_run t m ks ls : Forall2 (analyzed m) ks ls ->
  exists s, position_buffers t m ks = Ok s /\ tempPositionIndexBuffer s = position_part t ls /\ tempOffsetBuffer s = offset_part t ls /\
    tempcharLenBuffer s = charLen_part t ls /\ tempSynonymBitMapBuffer s = synonym_part t ls.
Proof.
  intros H. unfold position_buffers. destruct (isEnabledWordPositionIndex t || isEnabledCharPositionIndex t) eqn:E.
  - destruct (position_fold t m ks ls H (mk_hit_state 0 [] [] [] [] 0 [] [] [] [])) as (s & Hs & H1 & H2 & H3 & H4). by exists s.
  - eexists. split; [done|]. apply orb_false_iff in E as [E1 E2]. unfold position_part, offset_part, charLen_part, synonym_part. by rewrite E1, E2.
Qed.

Lemma distinct_from l : forall (index : nat -> nat) a cur acc, (forall i, index i <> 0%nat) ->
  (fold_left attribute_step (imap (fun i => pair (index i)) (map o_attribute l)) (acc ++ [a], a)).1 = acc ++ map fst (runs_from a cur l).
Proof.
  induction l as [|o l IH]; intros index a cur acc Hi; [done|]. cbn [map runs_from]. rewrite imap_cons. cbn [fold_left]. unfold attribute_step at 2. cbn [fst snd].
  destruct (Nat.eqb_spec (index 0%nat) 0) as [E|_]; [by destruct (Hi 0%nat)|]. cbn [orb]. rewrite Z.eqb_sym.
  destruct (Z.eqb_spec a (o_attribute o)) as [->|E]; cbn [negb].
  - apply (IH (index ∘ S)). intros i. apply Hi.
  - set (rs := runs_from (o_attribute o) [o] l). change (map fst ((a, cur) :: rs)) with ([a] ++ map fst rs).
    rewrite (app_assoc acc [a]). apply (IH (index ∘ S)). intros i. apply Hi.
Qed.

Lemma distinct_run l : distinct_attributes (map o_attribute l) = map fst (runs l).
Proof. destruct l as [|o l]; [done|]. cbn. apply (distinct_from l S (o_attribute o) [o] []). done. Qed.

Lemma attribute_fold m ks ls : Forall2 (analyzed m) ks ls -> forall buffer,
  fold_res ks (fun buffer k => let? hits := find_hits m k in convertToVarLengthArray (distinct_attributes (attributeIdList hits)) buffer) buffer =
    Ok (buffer ++ blocks (map (fun l => encoding (map fst (runs l))) ls)).
Proof.
  induction 1 as [|k l ks ls [Hm Hf] _ IH]; intros buffer; [cbn; by rewrite app_nil_r|].
  cbn [fold_res]. unfold find_hits at 1. rewrite Hm. cbn [of_option rbind hits_of attributeIdList]. rewrite distinct_run.
  destruct (runs_props l Hf) as (Hl & Hu & _ & _). pose proof (fo_number l Hf).
  rewrite convert_array_run by (done || (rewrite length_map; lia)). cbn [rbind]. rewrite IH. cbn [map]. unfold blocks. cbn [map concat].
  by rewrite <- app_assoc.
Qed.

Lemma attribute_buffer_run t m ks ls : Forall2 (analyzed m) ks ls -> attribute_buffer t m ks = Ok (attribute_part t ls).
Proof. intros H. unfold attribute_buffer, attribute_part. destruct (isEnabledAttributeBasedSearch t); [|done]. by rewrite (attribute_fold m ks ls). Qed.

(** ** The array *)

Lemma copy_buffers_tail bs : forall pre rest tail, length rest = length (concat bs) -> Z.of_nat (length (pre ++ rest)) < 2 ^ 32 ->
  copy_buffers (pre ++ rest ++ tail) (Z.of_nat (length pre)) bs = Ok (pre ++ concat bs ++ tail, Z.of_nat (length (pre ++ concat bs))).
Proof.
  induction bs as [|b bs IH]; intros pre rest tail Hl Hsz; cbn [copy_buffers concat] in *.
  { destruct rest; [by rewrite !app_nil_r|done]. }
  rewrite length_app in Hl. rewrite length_app in Hsz. rewrite <- (take_drop (length b) rest), <- (app_assoc (take _ _)).
  rewrite blit_app by (done || rewrite length_take; lia). cbn [rbind].
  rewrite !wrap_id by (unfold is_uint; rewrite ?wrap_id by (unfold is_uint; lia); lia).
  rewrite <- Nat2Z.inj_add, <- length_app, <- (app_assoc b), !(app_assoc pre). apply IH; [rewrite length_drop; lia|rewrite !length_app, length_drop; lia].
Qed.

Lemma copy_buffers_run bs pre rest : length rest = length (concat bs) -> Z.of_nat (length (pre ++ rest)) < 2 ^ 32 ->
  copy_buffers (pre ++ rest) (Z.of_nat (length pre)) bs = Ok (pre ++ concat bs, Z.of_nat (length (pre ++ concat bs))).
Proof. intros H1 H2. pose proof (copy_buffers_tail bs pre rest [] H1 H2) as H. by rewrite !app_nil_r in H. Qed.

Lemma length_new_bytes ind n : 0 <= n -> length (new_bytes ind n) = Z.to_nat n.
Proof. intros H. unfold new_bytes. by rewrite length_map, length_seqZ. Qed.

Definition without_data (n : Z) (key : list Z) (acl : list (list Z)) : ForwardList := mk_fl n key acl [] 0 0 0 0 0 0.

Lemma allocate_run t ls ind key acl : list_size t ls < 2 ^ 32 ->
  exists fl fixed, allocateSpaceAndSetNSAValuesAndPosIndex ind (without_data (Z.of_nat (length ls)) key acl) (attribute_part t ls) (position_part t ls)
      (offset_part t ls) (charLen_part t ls) (synonym_part t ls) = Ok fl /\
    laid_out t fl ls fixed /\ externalRecordId fl = key /\ recordAcl fl = acl /\ dataSize fl = list_size t ls.
Proof.
  intros Hsz. unfold list_size in Hsz. unfold allocateSpaceAndSetNSAValuesAndPosIndex, without_data, getKeywordIdsSizeInBytes,
    getKeywordTfBoostProductsSizeInBytes, getKeywordRecordStaticScoresSizeInBytes.
  cbn [numberOfKeywords externalRecordId recordAcl data attributeIdsIndexSize positionIndexSize offsetIndexSize charLenIndexSize synonymBitMapSize].
  set (A := attribute_part t ls) in *. set (P := position_part t ls) in *. set (O := offset_part t ls) in *.
  set (L := charLen_part t ls) in *. set (S := synonym_part t ls) in *. set (n := length ls) in *.
  repeat (rewrite (wrap_id 32 (Z.of_nat _ * _)) by (unfold is_uint; lia)). rewrite !(wrap_id 32 (Z.of_nat (length _))) by (unfold is_uint; lia).
  rewrite !(wrap_id 32 (Z.of_nat n * 4 + Z.of_nat n * 2 + Z.of_nat n * 2)) by (unfold is_uint; lia).
  rewrite (wrap_id 32) by (unfold is_uint; lia). set (size := _ + Z.of_nat (length L)).
  pose proof (length_new_bytes ind size ltac:(lia)) as Hlen. set (d := new_bytes ind size) in *.
  rewrite <- (take_drop (8 * n) d). set (fixed := take (8 * n) d). assert (length fixed = (8 * n)%nat) as Hfixed by (unfold fixed; rewrite length_take; lia).
  replace (Z.of_nat n * 4 + Z.of_nat n * 2 + Z.of_nat n * 2) with (Z.of_nat (length fixed)) by lia.
  rewrite copy_buffers_run; [|cbn [concat]; rewrite !length_app, length_drop; cbn [length]; lia|rewrite length_app, length_drop; lia].
  cbn [rbind concat]. eexists _, fixed. split; [done|]. cbn [externalRecordId recordAcl dataSize]. split; [|split; [done|split; [done|]]].
  - constructor; cbn [numberOfKeywords data attributeIdsIndexSize positionIndexSize offsetIndexSize charLenIndexSize synonymBitMapSize]; try done.
    by rewrite app_nil_r.
  - unfold list_size. fold A P O L S n. rewrite !length_app. cbn [length]. lia.
Qed.

(** ** The fixed part *)

Lemma with_data_same fl : with_data fl (data fl) = fl.
Proof. by destruct fl. Qed.

Lemma laid_out_fixed t fl ls fixed fixed' rest : laid_out t fl ls fixed -> data fl = fixed ++ rest -> length fixed' = length fixed ->
  laid_out t (with_data fl (fixed' ++ rest)) ls fixed'.
Proof.
  intros [H1 H2 H3 H4 H5 H6 H7 H8] Hd Hl. rewrite Hd in H3. apply app_inv_head in H3. constructor; cbn [with_data numberOfKeywords data attributeIdsIndexSize positionIndexSize offsetIndexSize charLenIndexSize synonymBitMapSize]; congruence.
Qed.

(** A loop that writes [w] bytes for each element. *)
Lemma fill_run {A} (body : ForwardList -> Z -> A -> result ForwardList) (fl : ForwardList) (w base : Z) (enc : A -> list Z) (ks : list A) :
  0 <= w -> Forall (fun k => Z.of_nat (length (enc k)) = w) ks -> forall i0 pre mid post,
  (forall (j : nat) k d, ks !! j = Some k ->
    body (with_data fl d) (i0 + Z.of_nat j) k = let? d := blit d (base + w * (i0 + Z.of_nat j)) (enc k) in Ok (with_data fl d)) ->
  base + w * i0 = Z.of_nat (length pre) -> Z.of_nat (length mid) = w * Z.of_nat (length ks) ->
  fold_index ks i0 body (with_data fl (pre ++ mid ++ post)) = Ok (with_data fl (pre ++ concat (map enc ks) ++ post)).
Proof.
  intros Hw. induction 1 as [|k ks Hk _ IH]; intros i0 pre mid post Hbody Hp Hm.
  { destruct mid; [done|cbn in Hm; lia]. }
  cbn [length] in Hm. cbn [fold_index map concat]. pose proof (Hbody 0%nat k (pre ++ mid ++ post) eq_refl) as E.
  replace (i0 + Z.of_nat 0) with i0 in E by lia. rewrite E. clear E.
  rewrite <- (take_drop (length (enc k)) mid), <- (app_assoc (take _ _)).
  rewrite blit_app by (lia || rewrite length_take; lia). cbn [rbind]. rewrite (app_assoc pre), IH.
  - by rewrite <- !app_assoc.
  - intros j k' d Hj. specialize (Hbody (S j) k' d Hj). replace (i0 + Z.of_nat (S j)) with (i0 + 1 + Z.of_nat j) in Hbody by lia. done.
  - rewrite length_app. lia.
  - rewrite length_drop. lia.
Qed.

Lemma strided_slice {A} (enc : A -> list Z) (w : Z) (ks : list A) (i : nat) k pre post : Forall (fun k => Z.of_nat (length (enc k)) = w) ks ->
  ks !! i = Some k -> slice (pre ++ concat (map enc ks) ++ post) (Z.of_nat (length pre) + w * Z.of_nat i) w = Ok (enc k).
Proof.
  intros Hw. revert i pre. induction Hw as [|x ks Hx _ IH]; intros [|i] pre Hi; cbn in Hi; [done|done| |].
  - injection Hi as ->. cbn [map concat]. rewrite <- app_assoc. apply slice_app; lia.
  - cbn [map concat]. rewrite <- app_assoc, app_assoc. rewrite <- (IH i (pre ++ enc x) Hi). f_equal. rewrite length_app. lia.
Qed.

Lemma length_concat_map {A} (enc : A -> list Z) (w : Z) (ks : list A) : Forall (fun k => Z.of_nat (length (enc k)) = w) ks ->
  Z.of_nat (length (concat (map enc ks))) = w * Z.of_nat (length ks).
Proof. induction 1 as [|k ks Hk _ IH]; cbn [map concat length]; [lia|]. rewrite length_app. lia. Qed.

(** ** The frequencies *)

Lemma attribute_lists_run ls : forall pre tail piPtr piOffset byteRead, piPtr + piOffset = Z.of_nat (length pre) -> 0 <= piOffset -> 0 <= piPtr ->
  let d := pre ++ blocks (map (fun l => encoding (map fst (runs l))) ls) ++ tail in
  Z.of_nat (length d) < 2 ^ 32 -> Forall found ls ->
  attribute_lists (length ls) d piPtr piOffset byteRead = Ok (map (fun l => map fst (runs l)) ls).
Proof.
  induction ls as [|l ls IH]; intros pre tail piPtr piOffset byteRead Hp H0 H1 d Hsz Hf; [done|]. unfold d in *. clear d.
  inversion_clear Hf as [|? ? Hl Hls]. cbn [map length attribute_lists] in *. set (b := encoding (map fst (runs l))) in *.
  set (bs := map (fun l => encoding (map fst (runs l))) ls) in *. change (blocks (b :: bs)) with (block b ++ blocks bs) in *.
  rewrite <- app_assoc in *. pose proof (length_u32 _ _ _ Hsz) as Hb.
  destruct (read_block pre b (blocks bs ++ tail) (piPtr + piOffset) byteRead Hb Hp) as [-> Hs]. cbn [rbind].
  destruct (runs_props l Hl) as (Hn & Hu & _ & _). pose proof (fo_number l Hl).
  pose proof (read_list_run _ _ (map fst (runs l)) [] Hs) as Hr. fold b in Hr.
  rewrite Hr by (done || apply encoding_at_least || (rewrite length_map; lia)). cbn [rbind app].
  fold b. rewrite <- length_block. rewrite !length_app in Hsz. rewrite wrap_id by (unfold is_uint; lia). rewrite (app_assoc pre).
  rewrite IH; [done|rewrite length_app; lia|lia|lia|rewrite !length_app; lia|done].
Qed.

Lemma count_run rs : forall pre tail piPtr piOffset total, piPtr + piOffset = Z.of_nat (length pre) -> 0 <= piOffset -> 0 <= piPtr -> 0 <= total ->
  let bytes := blocks (map (fun r : Z * list occurrence => encoding (positions_of r.2)) rs) in let d := pre ++ bytes ++ tail in
  Z.of_nat (length d) < 2 ^ 32 -> Forall (fun r => Forall is_u32 (positions_of r.2)) rs ->
  (total + Z.of_nat (length (concat (map snd rs)))) * 5 < 2 ^ 32 ->
  count_occurrences (length rs) d piPtr piOffset total = Ok (total + Z.of_nat (length (concat (map snd rs))), piOffset + Z.of_nat (length bytes)).
Proof.
  induction rs as [|r rs IH]; intros pre tail piPtr piOffset total Hp H0 H1 H2 bytes d Hsz Hf Hn; [cbn; do 2 f_equal; lia|].
  unfold d, bytes in *. clear d bytes. inversion_clear Hf as [|? ? Hr Hrs]. cbn [map length concat count_occurrences] in *.
  set (b := encoding (positions_of r.2)) in *. set (bs := map (fun r => encoding (positions_of r.2)) rs) in *.
  change (blocks (b :: bs)) with (block b ++ blocks bs) in *. rewrite <- app_assoc in *. pose proof (length_u32 _ _ _ Hsz) as Hb.
  destruct (read_block pre b (blocks bs ++ tail) (piPtr + piOffset) 0 Hb Hp) as [-> Hs]. cbn [rbind].
  rewrite length_app in Hn. assert (length (positions_of r.2) = length r.2) as Hlen by (unfold positions_of; apply length_map).
  pose proof (read_list_run _ _ (positions_of r.2) [] Hs) as Hl. fold b in Hl.
  rewrite Hl by (done || apply encoding_at_least || lia). cbn [rbind app].
  fold b. rewrite <- length_block, Hlen. rewrite !length_app in Hsz. rewrite !wrap_id by (unfold is_uint; lia). rewrite (app_assoc pre).
  rewrite IH; [rewrite !length_app; do 2 f_equal; lia|rewrite length_app; lia|lia|lia|lia|rewrite !length_app; lia|done|lia].
Qed.

Lemma occurrences_run ls : forall pre tail piPtr piOffset, piPtr + piOffset = Z.of_nat (length pre) -> 0 <= piOffset -> 0 <= piPtr ->
  let d := pre ++ run_part true (fun l => encoding (positions_of l)) ls ++ tail in
  Z.of_nat (length d) < 2 ^ 32 -> Forall found ls ->
  occurrences_loop (map (fun l => map fst (runs l)) ls) d piPtr piOffset = Ok (map (fun l : list occurrence => Z.of_nat (length l)) ls).
Proof.
  induction ls as [|l ls IH]; intros pre tail piPtr piOffset Hp H0 H1 d Hsz Hf; [done|]. unfold d in *. clear d.
  inversion_clear Hf as [|? ? Hl Hls]. cbn [map occurrences_loop]. rewrite run_part_cons, <- app_assoc in *.
  destruct (runs_props l Hl) as (_ & _ & Hc & _). pose proof (fo_number l Hl). rewrite length_map, count_run; try done; [| |rewrite Hc; lia].
  - cbn [rbind]. rewrite Hc, (app_assoc pre) in *. rewrite !length_app in Hsz.
    rewrite IH; [done|rewrite length_app; lia|lia|lia|rewrite !length_app; lia|done].
  - apply Forall_forall. intros r Hr. by destruct (encodable_positions l r Hl Hr).
Qed.

(** What the frequency of a keyword is computed from. *)
Definition frequency (t : PositionIndexType) (h : TokenAttributeHits) : Z :=
  if isEnabledWordPositionIndex t then Z.of_nat (length (attributeIdList h)) else 1.

Lemma frequencies_run t fl ls fixed : laid_out t fl ls fixed -> Forall found ls -> list_size t ls < 2 ^ 32 ->
  computeTermFrequencies fl (Z.of_nat (length ls)) = Ok (map (fun l => frequency t (hits_of l)) ls).
Proof.
  intros Hlo Hf Hsz. pose proof (data_length _ _ _ _ Hlo Hsz) as Hlen. destruct (pointers _ _ _ _ Hlo Hsz) as (Hp1 & Hp2 & _).
  unfold computeTermFrequencies. rewrite (lo_number _ _ _ _ Hlo), Z.leb_refl. cbn [negb].
  assert (getKeywordTfListInRecordField fl = Ok (map (fun l => frequency t (hits_of l)) ls)) as ->.
  2: { cbn [rbind]. rewrite length_map, Z.sub_diag. cbn. by rewrite app_nil_r. }
  unfold getKeywordTfListInRecordField. rewrite (lo_number _ _ _ _ Hlo), (lo_positions _ _ _ _ Hlo), Hp2. pose proof (lo_data _ _ _ _ Hlo) as Hd.
  unfold position_part, frequency in *. destruct (isEnabledWordPositionIndex t) eqn:Et.
  2: { cbn. rewrite Nat2Z.id. f_equal. clear. induction ls; cbn; congruence. }
  destruct ls as [|l0 ls']; [done|]. set (ls := l0 :: ls') in *. 
  rewrite size_nonzero by (by apply (run_part_nonempty ls Hf _ 0 l0)). set (tail := offset_part t ls ++ synonym_part t ls ++ charLen_part t ls) in Hd.
  rewrite Hd at 1. rewrite app_assoc, not_badly_encoded; [|apply run_part_terminated|by apply (run_part_nonempty ls Hf _ 0 l0)|done]. cbn [rbind].
  unfold getKeywordTfListFromVLBArray, getKeywordAttributeIdsLists. rewrite (lo_number _ _ _ _ Hlo), (lo_attributes _ _ _ _ Hlo), Hp1.
  assert (isEnabledAttributeBasedSearch t = true) as Ea by (by destruct t). unfold attribute_part in *. rewrite Ea in *.
  set (bs := map (fun l => encoding (map fst (runs l))) ls) in *.
  rewrite size_nonzero by (by apply blocks_nonempty). rewrite Hd at 1.
  rewrite not_badly_encoded; [|apply terminated_blocks, List.Forall_map, Forall_forall; intros; apply encoding_terminated|by apply blocks_nonempty|done].
  cbn [rbind]. rewrite Hd in Hlen. rewrite Hd, Nat2Z.id.
  unfold bs. rewrite attribute_lists_run; [|lia|lia|lia|exact Hlen|done]. cbn [rbind]. fold bs. rewrite app_assoc in Hlen |- *.
  rewrite occurrences_run; [|lia|lia|lia|exact Hlen|done]. f_equal. apply map_ext. intros l. cbn. by rewrite length_map.
Qed.

(** ** Occurrences grouped by attribute *)

Definition occurrences_in (a : Z) (l : list occurrence) : list occurrence := List.filter (fun o => o_attribute o =? a) l.

(** The attributes come in order, as the analyzer visits them. *)
Definition grouped (l : list occurrence) : Prop := Sorted.StronglySorted Z.le (map o_attribute l).

Lemma runs_from_attributes l : forall a cur, Sorted.StronglySorted Z.le (a :: map o_attribute l) ->
  Sorted.StronglySorted Z.lt (map fst (runs_from a cur l)) /\
  forall b, b ∈ map fst (runs_from a cur l) <-> b = a \/ b ∈ map o_attribute l.
Proof.
  induction l as [|o l IH]; intros a cur Hs; cbn [runs_from map].
  { split; [by repeat constructor|]. intros b. cbn. set_solver. }
  apply Sorted.StronglySorted_inv in Hs as [Hs Ha]. cbn [map] in Hs, Ha. inversion_clear Ha as [|? ? Hao Hal].
  destruct (Z.eqb_spec a (o_attribute o)) as [->|Hne].
  - destruct (IH (o_attribute o) (cur ++ [o]) Hs) as [H1 H2]. split; [done|]. intros b. rewrite H2. set_solver.
  - destruct (IH (o_attribute o) [o] Hs) as [H1 H2]. cbn [map fst]. split; [|intros b; rewrite elem_of_cons, H2; set_solver].
    constructor; [done|]. apply List.Forall_forall. intros b Hb%list_elem_of_In%H2. apply Sorted.StronglySorted_inv in Hs as [_ Ho].
    rewrite List.Forall_forall in Ho. destruct Hb as [->|Hb%list_elem_of_In%Ho]; lia.
Qed.

Lemma filter_above a l : List.Forall (Z.lt a) (map o_attribute l) -> occurrences_in a l = [].
Proof.
  unfold occurrences_in. induction l as [|o l IH]; intros H; [done|]. cbn in *. inversion_clear H. destruct (Z.eqb_spec (o_attribute o) a); [lia|]. auto.
Qed.

Lemma runs_from_find l : forall a cur b, Sorted.StronglySorted Z.le (a :: map o_attribute l) ->
  List.find (fun r => b =? r.1) (runs_from a cur l) =
    if b =? a then Some (a, cur ++ occurrences_in a l)
    else match occurrences_in b l with [] => None | f => Some (b, f) end.
Proof.
  induction l as [|o l IH]; intros a cur b Hs; cbn [runs_from List.find fst]; [by rewrite app_nil_r|].
  pose proof Hs as Hs'. apply Sorted.StronglySorted_inv in Hs as [Hs Ha]. cbn [map] in Hs, Ha. inversion_clear Ha as [|? ? Hao Hal].
  destruct (Z.eqb_spec a (o_attribute o)) as [->|Hne].
  - rewrite IH by done. unfold occurrences_in. cbn [List.filter]. rewrite Z.eqb_refl, <- app_assoc. cbn [app].
    destruct (Z.eqb_spec b (o_attribute o)) as [->|Hb]; [done|]. destruct (Z.eqb_spec (o_attribute o) b); [congruence|done].
  - cbn [List.find fst]. destruct (Z.eqb_spec b a) as [->|Hb].
    + rewrite filter_above, app_nil_r; [done|]. cbn [map]. constructor; [lia|]. apply Sorted.StronglySorted_inv in Hs as [_ Ho].
      eapply List.Forall_impl; [|exact Ho]. intros z Hz. cbn in Hz. lia.
    + rewrite IH by done. unfold occurrences_in. cbn [List.filter]. destruct (Z.eqb_spec b (o_attribute o)) as [->|Hbo].
      * by rewrite Z.eqb_refl.
      * destruct (Z.eqb_spec (o_attribute o) b); [congruence|done].
Qed.

Lemma in_attribute_grouped (g : list occurrence -> list Z) l a pl : g [] = [] -> grouped l -> in_attribute g l a pl = pl ++ g (occurrences_in a l).
Proof.
  intros Hg Hs. unfold in_attribute. destruct l as [|o l]; [cbn; by rewrite Hg, app_nil_r|]. cbn [runs]. rewrite runs_from_find by exact Hs.
  unfold occurrences_in. cbn [List.filter]. destruct (Z.eqb_spec a (o_attribute o)) as [->|Hne]; [by rewrite Z.eqb_refl|].
  destruct (Z.eqb_spec (o_attribute o) a); [congruence|]. destruct (List.filter _ l); [by rewrite Hg, app_nil_r|done].
Qed.

Lemma runs_attributes l : grouped l -> Sorted.StronglySorted Z.lt (map fst (runs l)) /\ forall a, a ∈ map fst (runs l) <-> a ∈ map o_attribute l.
Proof.
  intros Hs. destruct l as [|o l]; [split; [constructor|done]|]. destruct (runs_from_attributes l (o_attribute o) [o] Hs) as [H1 H2].
  split; [done|]. intros a. cbn [runs map]. rewrite H2. set_solver.
Qed.

(** The bits say which occurrences are synonyms. *)
Definition marks_synonyms (bits : list Z) (l : list occurrence) : Prop :=
  length bits = ((length l + 7) / 8)%nat /\
  forall (j : nat) o, l !! j = Some o -> Z.testbit (default 0 (bits !! (j / 8)%nat)) (Z.of_nat (j mod 8)) = is_synonym (o_type o).

(** The bits behind the cursor are clear. *)
Definition clear_behind (bits : list Z) (cursor : nat) : Prop :=
  forall j, (cursor <= j)%nat -> Z.testbit (default 0 (bits !! (j / 8)%nat)) (Z.of_nat (j mod 8)) = false.

Lemma same_bit (i j : nat) : (i / 8 = j / 8)%nat -> (i mod 8 = j mod 8)%nat -> i = j.
Proof. intros H1 H2. rewrite (Nat.div_mod i 8), (Nat.div_mod j 8) by lia. congruence. Qed.

Lemma push_bit_spec bits (cursor : nat) ty : length bits = ((cursor + 7) / 8)%nat -> clear_behind bits cursor -> forall j : nat,
  Z.testbit (default 0 (push_bit bits cursor ty !! (j / 8)%nat)) (Z.of_nat (j mod 8)) =
    if (j =? cursor)%nat then is_synonym ty else Z.testbit (default 0 (bits !! (j / 8)%nat)) (Z.of_nat (j mod 8)).
Proof.
  intros Hl Hc j. pose proof (push_bit_length bits cursor ANALYZED_ORIGINAL_TOKEN Hl) as Hlen. unfold push_bit in *. cbn [is_synonym] in Hlen.
  set (bits' := if (length bits <=? cursor / 8)%nat then bits ++ [0] else bits) in *.
  assert (forall i : nat, default 0 (bits' !! i) = default 0 (bits !! i)) as Hsame.
  { intros i. unfold bits'. destruct (length bits <=? cursor / 8)%nat; [|done]. destruct (decide (i < length bits)%nat) as [Hi|Hi]; [by rewrite lookup_app_l|].
    rewrite lookup_app_r, (lookup_ge_None_2 bits i) by lia. by destruct (i - length bits)%nat. }
  assert ((cursor / 8 < length bits')%nat) as Hin.
  { rewrite Hlen. pose proof (Nat.div_mod cursor 8); pose proof (Nat.div_mod (S cursor + 7) 8);
      pose proof (Nat.mod_upper_bound cursor 8); pose proof (Nat.mod_upper_bound (S cursor + 7) 8); lia. }
  destruct (is_synonym ty).
  - destruct (decide (j / 8 = cursor / 8)%nat) as [E|E].
    + rewrite E. destruct (lookup_lt_is_Some_2 bits' _ Hin) as [b Hb]. rewrite list_lookup_alter_eq, Hb. cbn [fmap option_fmap option_map default from_option].
      specialize (Hsame (cursor / 8)%nat). rewrite Hb in Hsame. cbn [default from_option id] in Hsame |- *. rewrite <- Hsame, Z.lor_spec, Z.shiftl_spec by lia.
      destruct (Nat.eqb_spec j cursor) as [->|Hne]; [by rewrite Z.sub_diag, orb_true_r|].
      assert (Z.of_nat (j mod 8) <> Z.of_nat (cursor mod 8)) by (intros Ej; apply Hne, same_bit; [done|lia]).
      destruct (decide (Z.of_nat (j mod 8) < Z.of_nat (cursor mod 8))).
      * rewrite (Z.testbit_neg_r 1) by lia. by rewrite orb_false_r.
      * rewrite (Z.bits_above_log2 1) by (change (Z.log2 1) with 0; lia). by rewrite orb_false_r.
    + rewrite list_lookup_alter_ne by done. rewrite Hsame. destruct (Nat.eqb_spec j cursor) as [->|]; done.
  - rewrite Hsame. destruct (Nat.eqb_spec j cursor) as [->|]; [|done]. by apply Hc.
Qed.

Lemma bitmap_spec l : forall bits cursor, length bits = ((cursor + 7) / 8)%nat -> clear_behind bits cursor -> forall j : nat,
  Z.testbit (default 0 (bitmap_from bits cursor l !! (j / 8)%nat)) (Z.of_nat (j mod 8)) =
    if (j <? cursor)%nat then Z.testbit (default 0 (bits !! (j / 8)%nat)) (Z.of_nat (j mod 8))
    else from_option (fun o => is_synonym (o_type o)) false (l !! (j - cursor)%nat).
Proof.
  induction l as [|o l IH]; intros bits cursor Hl Hc j; cbn [bitmap_from].
  { destruct (Nat.ltb_spec j cursor); [done|]. by rewrite Hc. }
  assert (clear_behind (push_bit bits cursor (o_type o)) (S cursor)) as Hc'.
  { intros i Hi. rewrite push_bit_spec by done. destruct (Nat.eqb_spec i cursor); [lia|]. apply Hc. lia. }
  rewrite IH by (done || by apply push_bit_length). rewrite push_bit_spec by done.
  destruct (Nat.ltb_spec j (S cursor)), (Nat.ltb_spec j cursor), (Nat.eqb_spec j cursor); try lia; try done.
  - subst j. by rewrite Nat.sub_diag.
  - replace (j - cursor)%nat with (S (j - S cursor)) by lia. done.
Qed.

Lemma bitmap_marks l : marks_synonyms (bitmap_of l) l.
Proof.
  unfold marks_synonyms, bitmap_of. rewrite (bitmap_length l [] 0) by done. split; [done|]. intros j o Ho.
  rewrite bitmap_spec; [|done|intros i _; apply Z.testbit_0_l]. cbn. by rewrite Nat.sub_0_r, Ho.
Qed.

(** ** The whole record *)

Lemma all_found m ks ls : Forall2 (analyzed m) ks ls -> Forall found ls.
Proof. induction 1 as [|k l ks ls [_ H] _ IH]; by constructor. Qed.

Section Record_.
Context (t : PositionIndexType) (m : hits_map) (tfBoost : Z -> TokenAttributeHits -> Z).
Context (ks : list (Z * (list Z * Z))) (ls : list (list occurrence)).
Hypothesis (Hks : Forall2 (analyzed m) ks ls) (Hn : Z.of_nat (length ks) < KEYWORD_THRESHOLD) (Hsize : list_size t ls < 2 ^ 32).

Lemma same_length : length ks = length ls.
Proof. by eapply Forall2_length. Qed.

Lemma size_keywords : 8 * Z.of_nat (length ks) < 2 ^ 32.
Proof. rewrite same_length. unfold list_size in Hsize. lia. Qed.

Definition id_bytes (k : Z * (list Z * Z)) : list Z := le_split 4 k.1.
Definition tf_bytes (k : Z * (list Z * Z)) : list Z :=
  match m !! k.2.1 with Some h => le_split 2 (tfBoost (frequency t h) h) | None => [0; 0] end.
Definition tf_body (tfList : list Z) (fl : ForwardList) (iter : Z) (k : Z * (list Z * Z)) : result ForwardList :=
  let? hits := find_hits m k in
  let? tf := vec_at tfList iter in
  setKeywordTfBoostProduct fl iter (tfBoost tf hits).

Lemma id_bytes_length : Forall (fun k => Z.of_nat (length (id_bytes k)) = 4) ks.
Proof. apply Forall_forall. intros k _. unfold id_bytes. by rewrite length_le_split. Qed.
Lemma tf_bytes_length : Forall (fun k => Z.of_nat (length (tf_bytes k)) = 2) ks.
Proof. apply Forall_forall. intros k _. unfold tf_bytes. destruct (m !! k.2.1); [by rewrite length_le_split|done]. Qed.

Lemma write_ids_run fl fixed : laid_out t fl ls fixed ->
  fold_index ks 0 (fun fl iter k => setKeywordId fl iter k.1) fl =
    Ok (with_data fl (concat (map id_bytes ks) ++ drop (4 * length ks) (data fl))).
Proof.
  intros Hlo. pose proof (lo_fixed _ _ _ _ Hlo) as Hf. rewrite <- same_length in Hf.
  rewrite <- (with_data_same fl) at 1. rewrite <- (take_drop (4 * length ks) (data fl)) at 1.
  apply (fill_run _ fl 4 0 id_bytes ks ltac:(lia) id_bytes_length 0 []).
  - intros j k d Hj. unfold setKeywordId. apply lookup_lt_Some in Hj. destruct (Z.leb_spec (0 + Z.of_nat j) KEYWORD_THRESHOLD); [|lia].
    cbn [with_data data]. by rewrite Z.add_0_l.
  - done.
  - rewrite length_take, Nat.min_l; [lia|]. rewrite (lo_data _ _ _ _ Hlo), !length_app. lia.
Qed.

Lemma set_tf_run fl pre mid post : numberOfKeywords fl = Z.of_nat (length ks) -> Z.of_nat (length pre) = 4 * Z.of_nat (length ks) ->
  Z.of_nat (length mid) = 2 * Z.of_nat (length ks) ->
  fold_index ks 0 (tf_body (map (fun l => frequency t (hits_of l)) ls)) (with_data fl (pre ++ mid ++ post)) =
    Ok (with_data fl (pre ++ concat (map tf_bytes ks) ++ post)).
Proof.
  intros Hnum Hp Hm. pose proof size_keywords as Hs. apply (fill_run _ fl 2 (4 * Z.of_nat (length ks)) tf_bytes ks ltac:(lia) tf_bytes_length 0); [|lia|done].
  intros j k d Hj. unfold tf_body, find_hits, tf_bytes. destruct (Forall2_lookup_l _ _ _ _ _ Hks Hj) as (l & Hl & [Hm' _]). rewrite Hm'. cbn [of_option rbind].
  assert (vec_at (map (fun l => frequency t (hits_of l)) ls) (0 + Z.of_nat j) = Ok (frequency t (hits_of l))) as ->.
  { apply vec_at_nth. split; [lia|]. by rewrite Z.add_0_l, Nat2Z.id, list_lookup_fmap_map, Hl. }
  cbn [rbind]. unfold setKeywordTfBoostProduct. apply lookup_lt_Some in Hj. destruct (Z.leb_spec (0 + Z.of_nat j) KEYWORD_THRESHOLD); [|lia].
  unfold getKeywordTfBoostProductsPointer, getKeywordIdsSizeInBytes. cbn [with_data data numberOfKeywords]. rewrite Hnum, wrap_id by (unfold is_uint; lia).
  by rewrite (Z.mul_comm (Z.of_nat (length ks)) 4).
Qed.

(** The forward list that addRecord builds. *)
Lemma build_run ind key roles : exists fl scores,
  addRecord_list ind tfBoost t key roles ks m = Ok fl /\
  laid_out t fl ls (concat (map id_bytes ks) ++ concat (map tf_bytes ks) ++ scores) /\
  length scores = (2 * length ks)%nat /\
  externalRecordId fl = key /\ recordAcl fl = RecordAcl.appendRolesToResource [] roles /\ dataSize fl = Z.of_nat (length (data fl)).
Proof.
  unfold addRecord_list. destruct (Z.leb_spec KEYWORD_THRESHOLD (Z.of_nat (length ks))); [lia|].
  destruct (position_buffers_run t m ks ls Hks) as (s & -> & E1 & E2 & E3 & E4). cbn [rbind]. rewrite (attribute_buffer_run t m ks ls Hks). cbn [rbind].
  rewrite E1, E2, E3, E4.
  destruct (allocate_run t ls ind key (RecordAcl.appendRolesToResource [] roles) Hsize) as (fl & fixed & Ha & Hlo & H1 & H2 & H3).
  unfold without_data in Ha. rewrite <- same_length in Ha. rewrite Ha. cbn [rbind]. rewrite (write_ids_run fl fixed Hlo). cbn [rbind].
  pose proof (lo_fixed _ _ _ _ Hlo) as Hf. rewrite <- same_length in Hf. pose proof (lo_data _ _ _ _ Hlo) as Hd.
  set (rest := attribute_part t ls ++ _) in Hd. pose proof (length_concat_map id_bytes 4 ks id_bytes_length) as Hli.
  pose proof (length_concat_map tf_bytes 2 ks tf_bytes_length) as Hlt.
  assert (drop (4 * length ks) (data fl) = drop (4 * length ks) fixed ++ rest) as -> by (rewrite Hd, drop_app_le; [done|lia]).
  rewrite app_assoc. pose proof (laid_out_fixed t fl ls fixed (concat (map id_bytes ks) ++ drop (4 * length ks) fixed) rest Hlo Hd
    ltac:(rewrite length_app, length_drop; lia)) as Hlo'.
  pose proof (frequencies_run t _ ls _ Hlo' (all_found m ks ls Hks) Hsize) as Hfr. rewrite <- same_length in Hfr. rewrite Hfr. cbn [rbind]. rewrite length_map, <- same_length, Z.eqb_refl. cbn [negb].
  set (mid := drop (4 * length ks) fixed) in *. assert (length mid = (4 * length ks)%nat) as Hmid by (unfold mid; rewrite length_drop; lia).
  rewrite <- (take_drop (2 * length ks) mid). rewrite <- !app_assoc.
  pose proof (set_tf_run fl (concat (map id_bytes ks)) (take (2 * length ks) mid) (drop (2 * length ks) mid ++ rest)) as Htf.
  unfold tf_body in Htf. rewrite Htf; [|rewrite (lo_number _ _ _ _ Hlo); f_equal; by rewrite same_length|done|rewrite length_take; lia].
  exists (with_data fl (concat (map id_bytes ks) ++ concat (map tf_bytes ks) ++ drop (2 * length ks) mid ++ rest)), (drop (2 * length ks) mid).
  split; [done|]. split; [|split; [rewrite length_drop; lia|split; [done|split; [done|]]]].
  - rewrite (app_assoc (concat (map tf_bytes ks))), app_assoc. apply (laid_out_fixed t fl ls fixed); [done|done|]. rewrite !length_app, length_drop. lia.
  - cbn [with_data dataSize data]. rewrite H3. unfold list_size. unfold rest. rewrite !length_app, length_drop, <- same_length. lia.
Qed.

Lemma ids_read fl scores (i : nat) k : laid_out t fl ls (concat (map id_bytes ks) ++ concat (map tf_bytes ks) ++ scores) ->
  Forall (fun k => is_u32 k.1) ks -> ks !! i = Some k -> getKeywordId fl (Z.of_nat i) = Ok k.1.
Proof.
  intros Hlo Hid Hi. unfold getKeywordId. rewrite (lo_data _ _ _ _ Hlo), <- app_assoc.
  set (rest := (_ ++ scores) ++ _). pose proof (strided_slice id_bytes 4 ks i k [] rest id_bytes_length Hi) as Hs. cbn [app length] in Hs.
  replace (Z.of_nat 0 + 4 * Z.of_nat i) with (4 * Z.of_nat i) in Hs by lia. rewrite Hs. cbn [rbind]. f_equal.
  apply le_join_split. rewrite Forall_forall in Hid. apply Hid. by eapply list_elem_of_lookup_2.
Qed.

Lemma tf_read fl scores (i : nat) k l : laid_out t fl ls (concat (map id_bytes ks) ++ concat (map tf_bytes ks) ++ scores) ->
  (forall tf h, is_uint 16 (tfBoost tf h)) -> ks !! i = Some k -> ls !! i = Some l ->
  getKeywordTfBoostProduct fl (Z.of_nat i) = Ok (tfBoost (frequency t (hits_of l)) (hits_of l)).
Proof.
  intros Hlo Htf Hi Hl. unfold getKeywordTfBoostProduct, getKeywordTfBoostProductsPointer, getKeywordIdsSizeInBytes.
  pose proof size_keywords as Hs. rewrite (lo_number _ _ _ _ Hlo), <- same_length, wrap_id by (unfold is_uint; lia).
  rewrite (lo_data _ _ _ _ Hlo), <- !app_assoc. pose proof (length_concat_map id_bytes 4 ks id_bytes_length) as Hli.
  replace (Z.of_nat (length ks) * 4) with (Z.of_nat (length (concat (map id_bytes ks)))) by lia.
  rewrite (strided_slice tf_bytes 2 ks i k _ _ tf_bytes_length Hi). cbn [rbind]. f_equal. unfold tf_bytes.
  destruct (Forall2_lookup_l _ _ _ _ _ Hks Hi) as (l' & Hl' & [Hm' _]). simplify_eq. rewrite Hm'. apply le_join_split, Htf.
Qed.

End Record_.

(** ** An example *)

Definition ex_ls : list (list occurrence) :=
  [[mk_occ 0 3 10 2 ANALYZED_ORIGINAL_TOKEN; mk_occ 0 900 4000 3 ANALYZED_SYNONYM_TOKEN; mk_occ 2 300 7 2 ANALYZED_ORIGINAL_TOKEN];
   [mk_occ 2 1 0 4 ANALYZED_SYNONYM_TOKEN]].
Definition ex_ks : list (Z * (list Z * Z)) := [(40, ([97; 98], 1)); (70000, ([98], 0))].
Definition ex_map : hits_map := list_to_map (zip (map (fun k => k.2.1) ex_ks) (map hits_of ex_ls)).
Definition ex_boost (tf : Z) (h : TokenAttributeHits) : Z := wrap16 (100 * tf).

Lemma ex_analyzed : Forall2 (analyzed ex_map) ex_ks ex_ls.
Proof.
  repeat constructor; cbn; try done; repeat first [apply List.Forall_nil | apply List.Forall_cons]; unfold is_uint; try lia.
Qed.
Lemma ex_grouped : Forall grouped ex_ls.
Proof. repeat constructor; cbn; lia. Qed.
Lemma ex_ids : Forall (fun k : Z * (list Z * Z) => is_u32 k.1) ex_ks.
Proof. repeat apply List.Forall_cons; try apply List.Forall_nil; unfold is_uint; cbn; lia. Qed.
Lemma ex_size t : list_size t ex_ls < 2 ^ 32.
Proof. destruct t; vm_compute; done. Qed.

(** ** Properties *)

(** What the getters return for the keyword [k] with the occurrences [l], at place [i]
    of a forward list; [a] is an attribute and [pl] the content of the caller's list. *)
Record reads_back (t : PositionIndexType) (tfBoost : Z -> TokenAttributeHits -> Z) (fl : ForwardList) (i : Z) (k : Z * (list Z * Z))
    (l : list occurrence) (a : Z) (pl : list Z) : Prop := {
  rb_id : getKeywordId fl i = Ok k.1;
  rb_tf : getKeywordTfBoostProduct fl i = Ok (tfBoost (frequency t (hits_of l)) (hits_of l));
  rb_attributes : isEnabledAttributeBasedSearch t = true -> exists attrs, getKeywordAttributeIdsList fl i pl = Ok attrs /\
    Sorted.StronglySorted Z.lt attrs /\ forall b, b ∈ attrs <-> b ∈ map o_attribute l;
  rb_positions : getKeyWordPostionsInRecordField fl i a pl =
    Ok (if isEnabledWordPositionIndex t then pl ++ map o_position (occurrences_in a l) else pl);
  rb_offsets : getKeyWordOffsetInRecordField fl i a pl =
    Ok (if isEnabledCharPositionIndex t then pl ++ map o_offset (occurrences_in a l) else pl);
  rb_lens : getSynonymCharLenInRecordField fl i a pl =
    Ok (if isEnabledCharPositionIndex t then pl ++ map o_charLen (List.filter (fun o => is_synonym (o_type o)) (occurrences_in a l)) else pl);
  rb_synonyms : exists bits, getSynonymBitMapInRecordField fl i a pl = Ok (if isEnabledCharPositionIndex t then pl ++ bits else pl) /\
    marks_synonyms bits (occurrences_in a l) }.

(** (C25) Adding a record succeeds, and from its forward list every getter reads back what the
    analyzer found: for each keyword its id, the product of its frequency and boosts, the
    attributes in order, and for each attribute the positions, the offsets, and which
    occurrences are synonyms, with their lengths. *)
Theorem record_reads_back (t : PositionIndexType) (m : hits_map) (tfBoost : Z -> TokenAttributeHits -> Z)
    (ks : list (Z * (list Z * Z))) (ls : list (list occurrence)) (indeterminate : Z -> Z) (key : list Z) (roles : list (list Z)) :
  Forall2 (analyzed m) ks ls -> Forall grouped ls -> Forall (fun k => is_u32 k.1) ks -> (forall tf h, is_uint 16 (tfBoost tf h)) ->
  Z.of_nat (length ks) < KEYWORD_THRESHOLD -> list_size t ls < 2 ^ 32 ->
  exists fl, addRecord_list indeterminate tfBoost t key roles ks m = Ok fl /\
    numberOfKeywords fl = Z.of_nat (length ks) /\ externalRecordId fl = key /\ dataSize fl = Z.of_nat (length (data fl)) /\
    forall (i : nat) k l a pl, ks !! i = Some k -> ls !! i = Some l -> reads_back t tfBoost fl (Z.of_nat i) k l a pl.
Proof.
  intros Hks Hg Hid Htf Hn Hsz. destruct (build_run t m tfBoost ks ls Hks Hn Hsz indeterminate key roles) as (fl & scores & Hb & Hlo & _ & H1 & _ & H2).
  exists fl. split; [done|]. split; [by rewrite (lo_number _ _ _ _ Hlo), (same_length m ks ls Hks)|]. split; [done|]. split; [done|].
  intros i k l a pl Hi Hl. pose proof (all_found m ks ls Hks) as Hf. pose proof (proj1 (Forall_forall _ _) Hg l ltac:(by eapply list_elem_of_lookup_2)) as Hgl.
  constructor.
  - by eapply ids_read.
  - by eapply tf_read.
  - intros Ea. exists (map fst (runs l)). split; [by eapply attribute_list_run|]. by apply runs_attributes.
  - erewrite positions_run by done. by rewrite in_attribute_grouped.
  - erewrite offsets_run by done. by rewrite in_attribute_grouped.
  - erewrite lens_run by done. by rewrite in_attribute_grouped.
  - exists (bitmap_of (occurrences_in a l)). erewrite bitmap_run by done. rewrite in_attribute_grouped by done. split; [done|apply bitmap_marks].
Qed.

Lemma record_reads_back_witness :
  exists fl, addRecord_list (fun _ => 0) ex_boost POSITION_INDEX_FULL [49] [] ex_ks ex_map = Ok fl /\
    numberOfKeywords fl = Z.of_nat (length ex_ks) /\ externalRecordId fl = [49] /\ dataSize fl = Z.of_nat (length (data fl)) /\
    forall (i : nat) k l a pl, ex_ks !! i = Some k -> ex_ls !! i = Some l -> reads_back POSITION_INDEX_FULL ex_boost fl (Z.of_nat i) k l a pl.
Proof.
  apply (record_reads_back POSITION_INDEX_FULL ex_map ex_boost ex_ks ex_ls (fun _ => 0) [49] []).
  - exact ex_analyzed.
  - exact ex_grouped.
  - exact ex_ids.
  - intros tf h. apply wrap_bounds. lia.
  - vm_compute. reflexivity.
  - apply ex_size.
Defined.

End ForwardRoundtrip.
