(* ===== verification/ForwardRecord.v ===== *)
(** * Searching the forward list of a record (core/index/ForwardIndex.cpp)

    The composition of ForwardRoundtrip.v and ForwardSearch.v: a record is added, its
    keywords get their static scores, and the list is searched for a range of ids. *)
From S2P Require Import Prelude Uleb128 RecordAcl ForwardList ForwardSearch ForwardLayout ForwardRoundtrip.
From Stdlib Require Import ZArith Lia List Bool Sorted.
From stdpp Require Import base gmap list fin_maps sorting.
Open Scope Z_scope.

Module ForwardRecord.
Import ULEB128 ForwardList ForwardSearch ForwardLayout ForwardRoundtrip.

(** The scores that InvertedIndex::addRecord and ::commit write, in the order of the keywords. *)
Definition set_scores (scores : list Z) (fl : ForwardList) : result ForwardList :=
  fold_index scores 0 (fun fl iter s => setKeywordRecordStaticScore fl iter s) fl.

(** The keywords with their attributes and scores. *)
Fixpoint entries (ks : list (Z * (list Z * Z))) (ls : list (list occurrence)) (scores : list Z) : list entry :=
  match ks, ls, scores with
  | k :: ks, l :: ls, s :: scores => mk_entry k.1 (map fst (runs l)) s :: entries ks ls scores
  | _, _, _ => []
  end.

Lemma entries_lookup ks : forall ls scores (i : nat) e, entries ks ls scores !! i = Some e ->
  exists k l s, ks !! i = Some k /\ ls !! i = Some l /\ scores !! i = Some s /\ e = mk_entry k.1 (map fst (runs l)) s.
Proof.
  induction ks as [|k ks IH]; intros [|l ls] [|s scores] i e H; try done. destruct i as [|i]; cbn in *; [|by apply IH].
  injection H as <-. by exists k, l, s.
Qed.

Lemma entries_ids ks : forall ls scores, length ks = length ls -> length scores = length ks -> map e_id (entries ks ls scores) = map fst ks.
Proof. induction ks as [|k ks IH]; intros [|l ls] [|s scores] H1 H2; try done. cbn in *. f_equal. apply IH; lia. Qed.

Section Search.
Context (t : PositionIndexType) (m : hits_map) (tfBoost : Z -> TokenAttributeHits -> Z).
Context (ks : list (Z * (list Z * Z))) (ls : list (list occurrence)) (scores : list Z).
Hypothesis (Hks : Forall2 (analyzed m) ks ls) (Hn : Z.of_nat (length ks) < KEYWORD_THRESHOLD) (Hsize : list_size t ls < 2 ^ 32).
Hypothesis (Hscores : length scores = length ks).

Definition score_bytes (s : Z) : list Z := le_split 2 s.
Lemma score_bytes_length : Forall (fun s => Z.of_nat (length (score_bytes s)) = 2) scores.
Proof. apply Forall_forall. intros s _. by unfold score_bytes; rewrite length_le_split. Qed.

Lemma score_pointer fl fixed : laid_out t fl ls fixed -> getKeywordRecordStaticScoresPointer fl = 6 * Z.of_nat (length ks).
Proof.
  intros Hlo. unfold getKeywordRecordStaticScoresPointer, getKeywordIdsSizeInBytes, getKeywordTfBoostProductsSizeInBytes.
  pose proof (size_keywords t m ks ls Hks Hsize). rewrite (lo_number _ _ _ _ Hlo), <- (same_length m ks ls Hks), !wrap_id by (unfold is_uint; lia). lia.
Qed.

Lemma set_scores_run fl old : let pre := concat (map id_bytes ks) ++ concat (map (tf_bytes t m tfBoost) ks) in
  laid_out t fl ls (pre ++ old) -> length old = (2 * length ks)%nat ->
  exists fl', set_scores scores fl = Ok fl' /\ laid_out t fl' ls (pre ++ concat (map score_bytes scores)).
Proof.
  intros pre Hlo Hold. pose proof (length_concat_map id_bytes 4 ks (id_bytes_length ks)) as H1.
  pose proof (length_concat_map _ 2 ks (tf_bytes_length t m tfBoost ks)) as H2.
  pose proof (length_concat_map score_bytes 2 scores score_bytes_length) as H3.
  pose proof (lo_data _ _ _ _ Hlo) as Hd. set (rest := attribute_part t ls ++ _) in Hd.
  exists (with_data fl (pre ++ concat (map score_bytes scores) ++ rest)). split.
  - unfold set_scores. rewrite <- (with_data_same fl) at 1. rewrite Hd, <- app_assoc.
    apply (fill_run _ fl 2 (6 * Z.of_nat (length ks)) score_bytes scores ltac:(lia) score_bytes_length 0).
    + intros j s d Hj%lookup_lt_Some. unfold setKeywordRecordStaticScore. destruct (Z.leb_spec (0 + Z.of_nat j) KEYWORD_THRESHOLD); [|lia].
      change (getKeywordRecordStaticScoresPointer (with_data fl d)) with (getKeywordRecordStaticScoresPointer fl).
      by rewrite (score_pointer fl _ Hlo).
    + unfold pre. rewrite length_app. lia.
    + lia.
  - rewrite app_assoc. apply (laid_out_fixed t fl ls (pre ++ old)); [done|done|]. rewrite !length_app. lia.
Qed.

Lemma score_read fl (i : nat) s : let pre := concat (map id_bytes ks) ++ concat (map (tf_bytes t m tfBoost) ks) in
  laid_out t fl ls (pre ++ concat (map score_bytes scores)) -> scores !! i = Some s -> is_uint 16 s ->
  getKeywordRecordStaticScore fl (Z.of_nat i) = Ok s.
Proof.
  intros pre Hlo Hi Hs. unfold getKeywordRecordStaticScore. rewrite (score_pointer fl _ Hlo), (lo_data _ _ _ _ Hlo), <- app_assoc.
  pose proof (length_concat_map id_bytes 4 ks (id_bytes_length ks)) as H1.
  pose proof (length_concat_map _ 2 ks (tf_bytes_length t m tfBoost ks)) as H2.
  replace (6 * Z.of_nat (length ks)) with (Z.of_nat (length pre)) by (unfold pre; rewrite length_app; lia).
  rewrite (strided_slice score_bytes 2 scores i s _ _ score_bytes_length Hi). cbn [rbind]. f_equal. by apply le_join_split.
Qed.

(** The record as the search sees it. *)
Lemma record_entries fl : let pre := concat (map id_bytes ks) ++ concat (map (tf_bytes t m tfBoost) ks) in
  laid_out t fl ls (pre ++ concat (map score_bytes scores)) -> Forall (fun k => is_u32 k.1) ks -> Forall (is_uint 16) scores ->
  has_entries t fl (entries ks ls scores).
Proof.
  intros pre Hlo Hid Hsc. pose proof (same_length m ks ls Hks) as Hlen. constructor.
  - rewrite entries_ids by done. constructor.
    + by rewrite (lo_number _ _ _ _ Hlo), length_map, Hlen.
    + intros i x Hx. rewrite list_lookup_fmap_map in Hx. destruct (ks !! i) as [k|] eqn:Hk; [|done]. injection Hx as <-.
      unfold pre in Hlo. rewrite <- app_assoc in Hlo. eapply ids_read; [exact Hlo|done|done].
  - intros i e m' He Et. apply entries_lookup in He as (k & l & s & Hk & Hl & Hs & ->).
    eapply attribute_list_run; [exact Hlo|by eapply all_found|done|done|done].
  - intros i e He. apply entries_lookup in He as (k & l & s & Hk & Hl & Hs & ->). eapply score_read; [exact Hlo|done|].
    rewrite Forall_forall in Hsc. apply Hsc. by eapply list_elem_of_lookup_2.
Qed.

End Search.

Lemma entries_proper ks ls scores : Forall grouped ls -> Forall found ls -> Forall (fun s => half_ge0 s = true) scores ->
  Forall proper (entries ks ls scores).
Proof.
  intros Hg Hf Hs. apply Forall_lookup. intros i e He. apply entries_lookup in He as (k & l & s & _ & Hl & Hsc & ->).
  pose proof (Forall_lookup_1 _ _ _ _ Hg Hl) as Hgl. pose proof (Forall_lookup_1 _ _ _ _ Hf Hl) as Hfl. pose proof (Forall_lookup_1 _ _ _ _ Hs Hsc).
  constructor; cbn; [by apply runs_attributes| |done]. destruct (runs_props l Hfl) as (_ & _ & _ & Hne). by destruct (runs l).
Qed.

(** (C26) A record is added and its keywords get scores that are not negative; then the
    search for the ids from [minId] to [maxId], which stand for a prefix, answers the
    first keyword in the range whose attributes pass the filter, with the attributes
    that matched and its score, and the search for all of them lists them in order. *)
Theorem record_search (t : PositionIndexType) (m : hits_map) (tfBoost : Z -> TokenAttributeHits -> Z)
    (ks : list (Z * (list Z * Z))) (ls : list (list occurrence)) (scores : list Z) (indeterminate : Z -> Z) (key : list Z) (roles : list (list Z))
    (filter : list Z) (attrOp : ATTRIBUTES_OP) (minId maxId : Z) :
  Forall2 (analyzed m) ks ls -> Forall grouped ls -> Forall (fun k => is_u32 k.1) ks -> StronglySorted Z.lt (map fst ks) ->
  Z.of_nat (length ks) < KEYWORD_THRESHOLD -> list_size t ls < 2 ^ 32 ->
  length scores = length ks -> Forall (is_uint 16) scores -> Forall (fun s => half_ge0 s = true) scores ->
  StronglySorted Z.lt filter -> (attrOp = ATTRIBUTES_OP_AND -> filter <> []) ->
  let es := entries ks ls scores in
  let hit e := (minId <=? e_id e) && (e_id e <=? maxId) && passes t filter attrOp (e_attributes e) in
  exists fl fl', addRecord_list indeterminate tfBoost t key roles ks m = Ok fl /\ set_scores scores fl = Ok fl' /\
    haveWordInRange t fl' minId maxId filter attrOp =
      Ok (option_map (fun e => (e_id e, matching_attributes t filter attrOp (e_attributes e), e_score e)) (List.find hit es)) /\
    forall v, getWordsInRange t fl' minId maxId filter attrOp v = Ok (v ++ map e_id (List.filter hit es)).
Proof.
  intros Hks Hg Hid Hsorted Hn Hsz Hlen Hsc Hge Hfilter Hand es hit.
  destruct (build_run t m tfBoost ks ls Hks Hn Hsz indeterminate key roles) as (fl & old & Hb & Hlo & Hold & _).
  rewrite app_assoc in Hlo. destruct (set_scores_run t m tfBoost ks ls scores Hks Hn Hsz Hlen fl old Hlo Hold) as (fl' & Hset & Hlo').
  exists fl, fl'. split; [done|]. split; [done|].
  pose proof (record_entries t m tfBoost ks ls scores Hks Hsz Hlen fl' Hlo' Hid Hsc) as Hes.
  apply (range_run t fl' es filter attrOp Hes); [|done|done|].
  - apply entries_proper; [done|by eapply all_found|done].
  - unfold es. rewrite entries_ids; [done|by apply (same_length m)|done].
Qed.

Lemma record_search_witness :
  exists fl fl', addRecord_list (fun _ => 0) ex_boost POSITION_INDEX_FULL [49] [] ex_ks ex_map = Ok fl /\ set_scores [15360; 0] fl = Ok fl' /\
    haveWordInRange POSITION_INDEX_FULL fl' 30 80000 [1; 2] ATTRIBUTES_OP_OR = Ok (Some (40, [2], 15360)) /\
    forall v, getWordsInRange POSITION_INDEX_FULL fl' 30 80000 [1; 2] ATTRIBUTES_OP_OR v = Ok (v ++ [40; 70000]).
Proof.
  apply (record_search POSITION_INDEX_FULL ex_map ex_boost ex_ks ex_ls [15360; 0] (fun _ => 0) [49] [] [1; 2] ATTRIBUTES_OP_OR 30 80000).
  - exact ex_analyzed.
  - exact ex_grouped.
  - exact ex_ids.
  - repeat constructor; cbn; lia.
  - vm_compute. reflexivity.
  - apply ex_size.
  - reflexivity.
  - repeat apply List.Forall_cons; try apply List.Forall_nil; unfold is_uint; lia.
  - repeat constructor.
  - repeat constructor.
  - discriminate.
Defined.

End ForwardRecord.
