(* ===== verification/ForwardReorder.v ===== *)
(** * Replacing the keyword ids of a forward list (core/index/ForwardIndex.cpp: reorderForwardList)

    At a commit and at a reassignment of ids the ids of a forward list are replaced.
    When their order stays, nothing else changes.  When it changes, the code packs the
    data of every keyword, sorts and unpacks it. *)
From S2P Require Import Prelude Uleb128 RecordAcl ForwardList ForwardLayout ForwardRoundtrip.
From Stdlib Require Import ZArith Lia List Bool Sorted.
From stdpp Require Import base gmap list fin_maps sorting.
Open Scope Z_scope.

Module ForwardReorder.
Import ULEB128 ForwardList ForwardLayout ForwardRoundtrip.

(** The new id, the offset and the old id of a keyword. *)
Abbreviation NewKeywordIdKeywordOffsetTriple := (Z * (Z * Z))%type.

(** [find] in the mapper: the id stays when it is not a key. *)
Definition new_id (oldIdToNewIdMapper : gmap Z Z) (keywordId : Z) : Z := default keywordId (oldIdToNewIdMapper !! keywordId).
Definition is_mapped (oldIdToNewIdMapper : gmap Z Z) (keywordId : Z) : bool := bool_decide (is_Some (oldIdToNewIdMapper !! keywordId)).

(** The loop that computes the new ids; [None] when their order changes. *)
Fixpoint check_loop (n : nat) (fl : ForwardList) (mapper : gmap Z Z) (keywordOffset prevNewKeywordId : Z) (keywordIdChanged : bool)
    (newKeywordIdsList : list Z) (forwardListReOrderAtCommit : list NewKeywordIdKeywordOffsetTriple) :
    result (option (bool * list Z * list NewKeywordIdKeywordOffsetTriple)) :=
  match n with
  | O => Ok (Some (keywordIdChanged, newKeywordIdsList, forwardListReOrderAtCommit))
  | S n' =>
      let? keywordId := getKeywordId fl keywordOffset in
      let newKeywordId := new_id mapper keywordId in
      let changed := keywordIdChanged || is_mapped mapper keywordId in
      if newKeywordId <? prevNewKeywordId then Ok None
      else
        let? triples := vec_set forwardListReOrderAtCommit keywordOffset (newKeywordId, (keywordOffset, keywordId)) in
        check_loop n' fl mapper (keywordOffset + 1) newKeywordId changed (newKeywordIdsList ++ [newKeywordId]) triples
  end.

(** ** The bytes of one keyword *)

(** The bytes of a block from its length on; [resize] before the copy. *)
Definition block_bytes (d : list Z) (ptr totalbytes : Z) : result (list Z) := slice d ptr totalbytes.

Definition getKeywordAttributeIdsByteArray (fl : ForwardList) (keywordOffset : Z) (attributesVLBarray : list Z) : result (list Z) :=
  if attributeIdsIndexSize fl =? 0 then Ok attributesVLBarray
  else
    let piPtr := getKeywordAttributeIdsPointer fl in
    let? bad := badly_encoded (data fl) piPtr (attributeIdsIndexSize fl) in
    if bad : bool then Ok attributesVLBarray
    else
      let? (piOffset, byteRead) := jump_blocks (Z.to_nat keywordOffset) (data fl) piPtr 0 0 in
      let? (value, byteRead) := read_length (data fl) (piPtr + piOffset) byteRead in
      block_bytes (data fl) (piPtr + piOffset) (wrap32 (byteRead + value)).

(** Appends the blocks of [n] attributes. *)
Fixpoint append_blocks (n : nat) (d : list Z) (piPtr piOffset : Z) (vlbArray : list Z) : result (list Z) :=
  match n with
  | O => Ok vlbArray
  | S n' =>
      let? (value, byteRead) := read_length d (piPtr + piOffset) 0 in
      let totalbytes := wrap32 (byteRead + value) in
      let? bytes := block_bytes d (piPtr + piOffset) totalbytes in
      append_blocks n' d piPtr (wrap32 (piOffset + totalbytes)) (vlbArray ++ bytes)
  end.

Definition fetchVLBArrayForKeyword (fl : ForwardList) (keyOffset piPtr : Z) (vlbArray : list Z) : result (list Z) :=
  let? piOffset := jump_keywords fl (seqZ 0 keyOffset) piPtr 0 in
  let? ids := getKeywordAttributeIdsList fl keyOffset [] in
  append_blocks (length ids) (data fl) piPtr piOffset vlbArray.

Definition getKeyWordPostionsByteArray (fl : ForwardList) (keywordOffset : Z) (positionsVLBarray : list Z) : result (list Z) :=
  if positionIndexSize fl =? 0 then Ok positionsVLBarray
  else
    let? bad := badly_encoded (data fl) (getPositionIndexPointer fl) (positionIndexSize fl) in
    if bad : bool then Ok positionsVLBarray else fetchVLBArrayForKeyword fl keywordOffset (getPositionIndexPointer fl) positionsVLBarray.

Definition getKeyWordOffsetsByteArray (fl : ForwardList) (keywordOffset : Z) (charOffsetsVLBarray : list Z) : result (list Z) :=
  if offsetIndexSize fl =? 0 then Ok charOffsetsVLBarray
  else
    let? bad := badly_encoded (data fl) (getOffsetIndexPointer fl) (offsetIndexSize fl) in
    if bad : bool then Ok charOffsetsVLBarray else fetchVLBArrayForKeyword fl keywordOffset (getOffsetIndexPointer fl) charOffsetsVLBarray.

Definition getKeywordSynonymsBitMapByteArray (fl : ForwardList) (keywordOffset : Z) (synonymBitMapVLBarray : list Z) : result (list Z) :=
  if (offsetIndexSize fl =? 0) || (synonymBitMapSize fl =? 0) then Ok synonymBitMapVLBarray
  else fetchVLBArrayForKeyword fl keywordOffset (getSynonymBitMapPointer fl) synonymBitMapVLBarray.

Definition getSynonymCharLensByteArray (fl : ForwardList) (keywordOffset : Z) (synonymCharLensVLBarray : list Z) : result (list Z) :=
  if (offsetIndexSize fl =? 0) || (charLenIndexSize fl =? 0) then Ok synonymCharLensVLBarray
  else
    let? bad := badly_encoded (data fl) (getCharLenIndexPointer fl) (charLenIndexSize fl) in
    if bad : bool then Ok synonymCharLensVLBarray else fetchVLBArrayForKeyword fl keywordOffset (getCharLenIndexPointer fl) synonymCharLensVLBarray.

(** ** Packing and unpacking *)

Record KeywordRichInformation := mk_rich {
  keywordId : Z;
  keywordTfBoostProduct : Z;
  keywordScore : Z;
  keywordAttribute : list Z;
  keywordPositionsInAllAttribute : list Z;
  keywordOffsetsInAllAttribute : list Z;
  keywordSynonymBitMapInAllAttribute : list Z;
  keywordSynonymCharLenInAllAttribute : list Z }.

(** What is packed for one keyword. *)
Definition pack (t : PositionIndexType) (fl : ForwardList) (mapper : gmap Z Z) (keywordOffset : Z) : result KeywordRichInformation :=
  let? id := getKeywordId fl keywordOffset in
  let? tf := getKeywordTfBoostProduct fl keywordOffset in
  let? score := getKeywordRecordStaticScore fl keywordOffset in
  let? attributes := if isEnabledAttributeBasedSearch t then getKeywordAttributeIdsByteArray fl keywordOffset [] else Ok [] in
  let? positions := if isEnabledWordPositionIndex t then getKeyWordPostionsByteArray fl keywordOffset [] else Ok [] in
  let? offsets := if isEnabledCharPositionIndex t then getKeyWordOffsetsByteArray fl keywordOffset [] else Ok [] in
  let? synonyms := if isEnabledCharPositionIndex t then getKeywordSynonymsBitMapByteArray fl keywordOffset [] else Ok [] in
  let? lens := if isEnabledCharPositionIndex t then getSynonymCharLensByteArray fl keywordOffset [] else Ok [] in
  Ok (mk_rich (new_id mapper id) tf score attributes positions offsets synonyms lens).

(** The packing loop: it writes the triples, and the packed data. *)
Fixpoint pack_loop (n : nat) (t : PositionIndexType) (fl : ForwardList) (mapper : gmap Z Z) (keywordOffset : Z)
    (triples : list NewKeywordIdKeywordOffsetTriple) (riches : list KeywordRichInformation) :
    result (list NewKeywordIdKeywordOffsetTriple * list KeywordRichInformation) :=
  match n with
  | O => Ok (triples, riches)
  | S n' =>
      let? id := getKeywordId fl keywordOffset in
      let? triples := vec_set triples keywordOffset (new_id mapper id, (keywordOffset, id)) in
      let? rich := pack t fl mapper keywordOffset in
      pack_loop n' t fl mapper (keywordOffset + 1) triples (riches ++ [rich])
  end.

(** The triples are compared in lexicographic order, the packed keywords by their ids. *)
Definition triple_le (x y : NewKeywordIdKeywordOffsetTriple) : Prop :=
  x.1 < y.1 \/ (x.1 = y.1 /\ (x.2.1 < y.2.1 \/ (x.2.1 = y.2.1 /\ x.2.2 <= y.2.2))).
Definition rich_le (x y : KeywordRichInformation) : Prop := keywordId x <= keywordId y.
#[global] Instance triple_le_dec x y : Decision (triple_le x y).
Proof. unfold triple_le. apply _. Defined.
#[global] Instance rich_le_dec x y : Decision (rich_le x y).
Proof. unfold rich_le. apply _. Defined.

Definition unpack (fl : ForwardList) (keywordOffset : Z) (r : KeywordRichInformation) : result ForwardList :=
  let? fl := setKeywordId fl keywordOffset (keywordId r) in
  let? fl := setKeywordTfBoostProduct fl keywordOffset (keywordTfBoostProduct r) in
  setKeywordRecordStaticScore fl keywordOffset (keywordScore r).

(** Copies the parts behind the fixed part; the offset leaves the frequencies out. *)
Definition copyByteArraysToForwardList (fl : ForwardList) (attributeIds positions offsets synonyms charLens : list Z) : result ForwardList :=
  let is_size (size : Z) (l : list Z) := size =? Z.of_nat (length l) in
  if negb (is_size (attributeIdsIndexSize fl) attributeIds && is_size (positionIndexSize fl) positions && is_size (offsetIndexSize fl) offsets &&
    is_size (synonymBitMapSize fl) synonyms && is_size (charLenIndexSize fl) charLens) then Err AssertFailed
  else
    let size := wrap32 (getKeywordIdsSizeInBytes fl + getKeywordRecordStaticScoresSizeInBytes fl) in
    let? (d, size) := copy_buffers (data fl) size [attributeIds; positions; offsets; synonyms; charLens] in
    if negb (size =? dataSize fl) then Err AssertFailed else Ok (with_data fl d).

Definition reorderForwardList (t : PositionIndexType) (fl : ForwardList) (oldIdToNewIdMapper : gmap Z Z) :
    result (ForwardList * list NewKeywordIdKeywordOffsetTriple) :=
  let n := Z.to_nat (numberOfKeywords fl) in
  let? r := check_loop n fl oldIdToNewIdMapper 0 0 false [] (replicate n (0, (0, 0))) in
  match r with
  | Some (keywordIdChanged, newKeywordIdsList, triples) =>
      if keywordIdChanged : bool then
        if negb (Z.of_nat (length newKeywordIdsList) =? numberOfKeywords fl) then Err AssertFailed
        else
          let? fl := fold_index newKeywordIdsList 0 (fun fl i id => setKeywordId fl i id) fl in
          Ok (fl, triples)
      else Ok (fl, triples)
  | None =>
      (* forwardListReOrderAtCommit.clear() *)
      let? (triples, riches) := pack_loop n t fl oldIdToNewIdMapper 0 [] [] in
      let triples := merge_sort triple_le triples in
      let riches := merge_sort rich_le riches in
      let? fl := fold_index riches 0 unpack fl in
      let buffer (f : KeywordRichInformation -> list Z) (enabled : bool) := if enabled then concat (map f riches) else [] in
      let? fl := copyByteArraysToForwardList fl (buffer keywordAttribute (isEnabledAttributeBasedSearch t))
        (buffer keywordPositionsInAllAttribute (isEnabledWordPositionIndex t)) (buffer keywordOffsetsInAllAttribute (isEnabledCharPositionIndex t))
        (buffer keywordSynonymBitMapInAllAttribute (isEnabledCharPositionIndex t)) (buffer keywordSynonymCharLenInAllAttribute (isEnabledCharPositionIndex t)) in
      Ok (fl, triples)
  end.

(** ForwardIndex::commit for one forward list. *)
Definition commit (commited_WriteView : bool) (t : PositionIndexType) (fl : ForwardList) (oldIdToNewIdMapper : gmap Z Z)
    (forwardListReOrderAtCommit : list NewKeywordIdKeywordOffsetTriple) : result (ForwardList * list NewKeywordIdKeywordOffsetTriple) :=
  if commited_WriteView then Ok (fl, forwardListReOrderAtCommit) else reorderForwardList t fl oldIdToNewIdMapper.

(** ** New ids in the same order *)

Fixpoint growing (prev : Z) (l : list Z) : bool :=
  match l with [] => true | x :: l' => (prev <=? x) && growing x l' end.

Lemma growing_sorted l : forall prev, growing prev l = true <-> Sorted Z.le (prev :: l).
Proof.
  induction l as [|x l IH]; intros prev; cbn [growing]; [split; [by repeat constructor|done]|].
  rewrite andb_true_iff, Z.leb_le, IH. split.
  - intros [H1 H2]. constructor; [done|by constructor].
  - intros H. apply Sorted_inv in H as [H1 H2]. split; [by inversion H2|done].
Qed.

(** The ids of a forward list, as bytes before the rest of the data. *)
Record ids_before (fl : ForwardList) (ids rest : list Z) : Prop := {
  ib_number : numberOfKeywords fl = Z.of_nat (length ids);
  ib_most : Z.of_nat (length ids) < KEYWORD_THRESHOLD;
  ib_data : data fl = concat (map (le_split 4) ids) ++ rest;
  ib_ids : Forall is_u32 ids }.

Lemma split_lengths (l : list Z) : Forall (fun x => Z.of_nat (length (le_split 4 x)) = 4) l.
Proof. apply Forall_forall. intros x _. by rewrite length_le_split. Qed.

Lemma id_at fl ids rest (i : nat) id : ids_before fl ids rest -> ids !! i = Some id -> getKeywordId fl (Z.of_nat i) = Ok id.
Proof.
  intros [_ _ Hd Hu] Hi. unfold getKeywordId. rewrite Hd.
  pose proof (strided_slice (le_split 4) 4 ids i id [] rest (split_lengths ids) Hi) as Hs. cbn [app length] in Hs.
  replace (Z.of_nat 0 + 4 * Z.of_nat i) with (4 * Z.of_nat i) in Hs by lia. rewrite Hs. cbn [rbind]. f_equal.
  apply le_join_split. by apply (Forall_lookup_1 _ _ _ _ Hu Hi).
Qed.

Definition triple_at (mapper : gmap Z Z) (i : nat) (id : Z) : NewKeywordIdKeywordOffsetTriple := (new_id mapper id, (Z.of_nat i, id)).

Lemma check_loop_run fl rest mapper todo : forall before prev changed newIds triples, ids_before fl (before ++ todo) rest ->
  length triples = length before ->
  check_loop (length todo) fl mapper (Z.of_nat (length before)) prev changed newIds (triples ++ replicate (length todo) (0, (0, 0))) =
    Ok (if growing prev (map (new_id mapper) todo)
        then Some (changed || existsb (is_mapped mapper) todo, newIds ++ map (new_id mapper) todo,
          triples ++ imap (fun i id => triple_at mapper (length before + i) id) todo)
        else None).
Proof.
  induction todo as [|id todo IH]; intros before prev changed newIds triples Hib Hl.
  { cbn. by rewrite orb_false_r, !app_nil_r. }
  cbn [length check_loop map growing existsb replicate]. rewrite (id_at fl _ rest (length before) id Hib) by (by rewrite list_lookup_middle).
  cbn [rbind]. rewrite Z.ltb_antisym. destruct (prev <=? new_id mapper id); cbn [negb andb]; [|done].
  rewrite <- Hl, vec_set_app. cbn [rbind]. rewrite Hl, (cons_middle (_, _)), app_assoc.
  replace (Z.of_nat (length before) + 1) with (Z.of_nat (length (before ++ [id]))) by (rewrite length_app; cbn; lia).
  rewrite IH; [|by rewrite <- app_assoc|rewrite !length_app; cbn; lia].
  rewrite <- !app_assoc, orb_assoc, imap_cons, Nat.add_0_r. cbn [app]. unfold triple_at at 2. destruct (growing _ _); [|done].
  do 4 f_equal. f_equal. apply imap_ext. intros i x _. cbn. f_equal. rewrite length_app. cbn. lia.
Qed.

Lemma unmapped_same mapper ids : existsb (is_mapped mapper) ids = false -> map (new_id mapper) ids = ids.
Proof.
  induction ids as [|id ids IH]; [done|]. cbn. intros [H1 H2]%orb_false_iff. f_equal; [|by apply IH].
  unfold is_mapped in H1. apply bool_decide_eq_false in H1. unfold new_id. destruct (mapper !! id) eqn:E; [|done]. destruct H1. by eexists.
Qed.

(** New ids in the same order take the places of the old ones, and nothing else of the
    forward list changes; the caller gets each new id with its offset and the old id. *)
Theorem reorder_same_order (t : PositionIndexType) (fl : ForwardList) (mapper : gmap Z Z) (ids rest : list Z) :
  ids_before fl ids rest -> Forall is_u32 (map (new_id mapper) ids) -> Sorted Z.le (map (new_id mapper) ids) ->
  reorderForwardList t fl mapper =
    Ok (with_data fl (concat (map (le_split 4) (map (new_id mapper) ids)) ++ rest), imap (triple_at mapper) ids).
Proof.
  intros Hib Hu Hs. unfold reorderForwardList. rewrite (ib_number _ _ _ Hib), Nat2Z.id.
  pose proof (check_loop_run fl rest mapper ids [] 0 false [] [] Hib eq_refl) as Hc. cbn [app length] in Hc. change (Z.of_nat 0) with 0 in Hc. rewrite Hc.
  assert (growing 0 (map (new_id mapper) ids) = true) as ->.
  { apply growing_sorted. constructor; [done|]. destruct ids as [|id ids]; [constructor|]. cbn in *. constructor. inversion_clear Hu as [|? ? H _]. unfold is_uint in H. lia. }
  cbn [rbind orb]. destruct (existsb (is_mapped mapper) ids) eqn:Em.
  - rewrite length_map, Z.eqb_refl. cbn [negb].
    rewrite <- (with_data_same fl) at 1. rewrite (ib_data _ _ _ Hib).
    pose proof (fill_run (fun fl i id => setKeywordId fl i id) fl 4 0 (le_split 4) (map (new_id mapper) ids) ltac:(lia) (split_lengths _) 0 []
      (concat (map (le_split 4) ids)) rest) as Hf. cbn [app] in Hf. rewrite Hf; [done| |done|].
    + intros j id d Hj%lookup_lt_Some. rewrite length_map in Hj. pose proof (ib_most _ _ _ Hib). unfold setKeywordId.
      destruct (Z.leb_spec (0 + Z.of_nat j) KEYWORD_THRESHOLD); [|lia]. by rewrite Z.add_0_l.
    + rewrite (length_concat_map (le_split 4) 4) by apply split_lengths. by rewrite length_map.
  - by rewrite (unmapped_same _ _ Em), <- (ib_data _ _ _ Hib), with_data_same.
Qed.

Definition ex_list : ForwardList := mk_fl 2 [49] [] ([5; 0; 0; 0; 7; 0; 0; 0] ++ replicate 8 1) 0 0 16 0 0 0.
Lemma ex_ids_before : ids_before ex_list [5; 7] (replicate 8 1).
Proof.
  constructor; [reflexivity|vm_compute; reflexivity|reflexivity|]. repeat apply List.Forall_cons; try apply List.Forall_nil; unfold is_uint; lia.
Qed.

Lemma reorder_same_order_witness :
  reorderForwardList POSITION_INDEX_NONE ex_list {[ 7 := 300 ]} =
    Ok (with_data ex_list ([5; 0; 0; 0; 44; 1; 0; 0] ++ replicate 8 1), [(5, (0, 5)); (300, (1, 7))]).
Proof.
  transitivity (Ok (with_data ex_list (concat (map (le_split 4) (map (new_id {[ 7 := 300 ]}) [5; 7])) ++ replicate 8 1),
    imap (triple_at {[ 7 := 300 ]}) [5; 7])); [|vm_compute; reflexivity].
  apply (reorder_same_order POSITION_INDEX_NONE ex_list {[ 7 := 300 ]} [5; 7] (replicate 8 1) ex_ids_before).
  - repeat apply List.Forall_cons; try apply List.Forall_nil; vm_compute; split; discriminate || reflexivity.
  - repeat constructor; vm_compute; discriminate.
Defined.

(** When the new ids are not in the order of the old ones, the packing writes past the
    end of the vector that was just cleared. *)
Theorem reorder_new_order_faults (t : PositionIndexType) (fl : ForwardList) (mapper : gmap Z Z) (ids rest : list Z) :
  ids_before fl ids rest -> Forall is_u32 (map (new_id mapper) ids) -> ~ Sorted Z.le (map (new_id mapper) ids) ->
  reorderForwardList t fl mapper = Err OutOfRange.
Proof.
  intros Hib Hu Hs. unfold reorderForwardList. rewrite (ib_number _ _ _ Hib), Nat2Z.id.
  pose proof (check_loop_run fl rest mapper ids [] 0 false [] [] Hib eq_refl) as Hc. cbn [app length] in Hc. change (Z.of_nat 0) with 0 in Hc. rewrite Hc.
  destruct (growing 0 (map (new_id mapper) ids)) eqn:Eg.
  { apply growing_sorted, Sorted_inv in Eg as [Eg _]. by destruct Hs. }
  cbn [rbind]. destruct ids as [|id ids]; [done|]. cbn [length pack_loop].
  pose proof (id_at fl (id :: ids) rest 0 id Hib eq_refl) as Hid. change (Z.of_nat 0) with 0 in Hid. rewrite Hid. done.
Qed.

Lemma reorder_new_order_faults_witness : reorderForwardList POSITION_INDEX_NONE ex_list {[ 7 := 3 ]} = Err OutOfRange.
Proof.
  apply (reorder_new_order_faults POSITION_INDEX_NONE ex_list {[ 7 := 3 ]} [5; 7] (replicate 8 1) ex_ids_before).
  - repeat apply List.Forall_cons; try apply List.Forall_nil; vm_compute; split; discriminate || reflexivity.
  - intros H. apply Sorted_inv in H as [_ H]. inversion H as [|? ? H']. vm_compute in H'. by destruct H'.
Defined.

(** ** Packing *)

Section Packing.
Context (t : PositionIndexType) (fl : ForwardList) (ks : list (list occurrence)) (fixed : list Z).
Hypothesis (Hlo : laid_out t fl ks fixed) (Hfound : Forall found ks) (Hsize : list_size t ks < 2 ^ 32).

(** The bytes of a keyword in a part. *)
Definition keyword_bytes (enabled : bool) (f : list occurrence -> list Z) (l : list occurrence) : list Z :=
  runs_part enabled f (runs l).

Lemma append_blocks_run bs : forall pre tail piPtr piOffset v, piPtr + piOffset = Z.of_nat (length pre) -> 0 <= piOffset -> 0 <= piPtr ->
  Z.of_nat (length (pre ++ blocks bs ++ tail)) < 2 ^ 32 ->
  append_blocks (length bs) (pre ++ blocks bs ++ tail) piPtr piOffset v = Ok (v ++ blocks bs).
Proof.
  induction bs as [|b bs IH]; intros pre tail piPtr piOffset v Hp H0 H1 Hsz; [cbn; by rewrite app_nil_r|].
  change (blocks (b :: bs)) with (block b ++ blocks bs) in *. rewrite <- app_assoc in *. cbn [length append_blocks].
  pose proof (length_u32 _ _ _ Hsz) as Hb. destruct (read_block pre b (blocks bs ++ tail) (piPtr + piOffset) 0 Hb Hp) as [-> _]. cbn [rbind].
  rewrite <- length_block. rewrite !length_app in Hsz. rewrite wrap_id by (unfold is_uint; lia). unfold block_bytes.
  rewrite slice_app by (done || lia). cbn [rbind]. rewrite wrap_id by (unfold is_uint; lia).
  rewrite (app_assoc pre), IH; [by rewrite <- app_assoc|rewrite length_app; lia|lia|lia|rewrite !length_app; lia].
Qed.

Lemma fetch_vlb_run (f : list occurrence -> list Z) pre tail ptr (i : nat) l : isEnabledAttributeBasedSearch t = true ->
  data fl = pre ++ run_part true f ks ++ tail -> ptr = Z.of_nat (length pre) -> ks !! i = Some l ->
  fetchVLBArrayForKeyword fl (Z.of_nat i) ptr [] = Ok (keyword_bytes true f l).
Proof.
  intros Et Hdata Hptr Hi. pose proof (data_length _ _ _ _ Hlo Hsize) as Hlen. unfold fetchVLBArrayForKeyword.
  pose proof (jump_keywords_run t fl ks fixed Hlo Hfound Hsize f pre tail ptr Et Hdata Hptr (take i ks) [] (drop i ks)) as Hj.
  cbn [app] in Hj. rewrite take_drop in Hj. rewrite length_take, Nat.min_l in Hj by (apply lookup_lt_Some in Hi; lia).
  change (run_part true f []) with (@nil Z) in Hj. cbn [length] in Hj. change (Z.of_nat 0) with 0 in Hj. rewrite (Hj eq_refl). cbn [rbind].
  rewrite (attribute_list_run t fl ks fixed Hlo Hfound Hsize i l [] Et Hi). cbn [rbind].
  assert (data fl = (pre ++ run_part true f (take i ks)) ++ blocks (map (fun r => f r.2) (runs l)) ++ (run_part true f (drop (S i) ks) ++ tail)) as Ed.
  { rewrite Hdata. rewrite <- (take_drop_middle ks i l Hi) at 1. rewrite run_part_app, run_part_cons. by rewrite <- !app_assoc. }
  rewrite Ed in Hlen |- *. pose proof (append_blocks_run (map (fun r => f r.2) (runs l)) (pre ++ run_part true f (take i ks))
    (run_part true f (drop (S i) ks) ++ tail) ptr (Z.of_nat (length (run_part true f (take i ks)))) []) as Ha.
  rewrite length_map in Ha |- *. apply Ha; [rewrite length_app; lia|lia|lia|done].
Qed.

(** The bytes of each keyword in each part. *)
Lemma attribute_bytes_run (i : nat) l : isEnabledAttributeBasedSearch t = true -> ks !! i = Some l ->
  getKeywordAttributeIdsByteArray fl (Z.of_nat i) [] = Ok (block (encoding (map fst (runs l)))).
Proof.
  intros Et Hi. destruct (pointers t fl ks fixed Hlo Hsize) as [Hptr _]. pose proof (data_length _ _ _ _ Hlo Hsize) as Hlen.
  unfold getKeywordAttributeIdsByteArray.
  rewrite (lo_attributes _ _ _ _ Hlo), Hptr, (lo_data _ _ _ _ Hlo) in *. unfold attribute_part in *. rewrite Et in *.
  set (bs := map (fun l => encoding (map fst (runs l))) ks) in *. set (tail := position_part t ks ++ offset_part t ks ++ synonym_part t ks ++ charLen_part t ks) in *.
  assert (bs !! i = Some (encoding (map fst (runs l)))) as Hb by (unfold bs; by rewrite list_lookup_fmap_map, Hi).
  assert (blocks bs <> []) as Hne by (apply blocks_nonempty; by destruct bs).
  rewrite size_nonzero by done.
  rewrite not_badly_encoded; [|apply terminated_blocks, List.Forall_map, Forall_forall; intros; apply encoding_terminated|done|done].
  cbn [rbind]. rewrite <- (take_drop_middle bs i _ Hb), blocks_app, <- !app_assoc, Nat2Z.id in *. set (b := encoding _) in *.
  change (blocks (b :: drop (S i) bs)) with (block b ++ blocks (drop (S i) bs)) in *. rewrite <- !app_assoc in *.
  destruct (jump_blocks_run (take i bs) fixed (block b ++ blocks (drop (S i) bs) ++ tail) (Z.of_nat (length fixed)) 0 0) as [r Hr]; [lia|lia|lia|done|].
  rewrite length_take, Nat.min_l in Hr by (apply lookup_lt_Some in Hb; lia). rewrite Hr. cbn [rbind]. rewrite app_assoc in Hlen |- *.
  pose proof (length_u32 _ _ _ Hlen) as Hb32.
  destruct (read_block (fixed ++ blocks (take i bs)) b (blocks (drop (S i) bs) ++ tail) (Z.of_nat (length fixed) + (0 + Z.of_nat (length (blocks (take i bs))))) r Hb32)
    as [-> _]; [rewrite length_app; lia|]. cbn [rbind]. rewrite <- length_block. rewrite !length_app in Hlen. rewrite wrap_id by (unfold is_uint; lia).
  unfold block_bytes. apply slice_app; [rewrite length_app; lia|done].
Qed.

Lemma position_bytes_run (i : nat) l : isEnabledWordPositionIndex t = true -> ks !! i = Some l ->
  getKeyWordPostionsByteArray fl (Z.of_nat i) [] = Ok (keyword_bytes true (fun l => encoding (positions_of l)) l).
Proof.
  intros Et Hi. destruct (pointers t fl ks fixed Hlo Hsize) as (_ & Hptr & _). unfold getKeyWordPostionsByteArray. rewrite (lo_positions _ _ _ _ Hlo), Hptr.
  pose proof (lo_data _ _ _ _ Hlo) as Hd. unfold position_part in *. rewrite Et in *.
  rewrite size_nonzero by (by eapply run_part_nonempty).
  rewrite Hd at 1. rewrite app_assoc, not_badly_encoded; [|apply run_part_terminated|by eapply run_part_nonempty|done]. cbn [rbind].
  eapply fetch_vlb_run; [by destruct t|by rewrite Hd, app_assoc|done|done].
Qed.

Lemma char_bytes_run (i : nat) l : isEnabledCharPositionIndex t = true -> ks !! i = Some l ->
  getKeyWordOffsetsByteArray fl (Z.of_nat i) [] = Ok (keyword_bytes true (fun l => encoding (offsets_of l)) l) /\
  getKeywordSynonymsBitMapByteArray fl (Z.of_nat i) [] = Ok (keyword_bytes true bitmap_of l) /\
  getSynonymCharLensByteArray fl (Z.of_nat i) [] = Ok (keyword_bytes true (fun l => encoding (lens_of l)) l).
Proof.
  intros Et Hi. destruct (pointers t fl ks fixed Hlo Hsize) as (_ & _ & Hp1 & Hp2 & Hp3).
  unfold getKeyWordOffsetsByteArray, getKeywordSynonymsBitMapByteArray, getSynonymCharLensByteArray.
  rewrite (lo_offsets _ _ _ _ Hlo), (lo_synonyms _ _ _ _ Hlo), (lo_charLens _ _ _ _ Hlo), Hp1, Hp2, Hp3.
  pose proof (lo_data _ _ _ _ Hlo) as Hd. unfold offset_part, synonym_part, charLen_part in *. rewrite Et in *.
  assert (isEnabledAttributeBasedSearch t = true) as Ea by (by destruct t).
  rewrite !size_nonzero by (by eapply run_part_nonempty). cbn [orb].
  set (O := run_part true (fun l => encoding (offsets_of l)) ks) in *. set (B := run_part true bitmap_of ks) in *.
  set (L := run_part true (fun l => encoding (lens_of l)) ks) in *.
  assert (data fl = (fixed ++ attribute_part t ks ++ position_part t ks) ++ O ++ B ++ L) as Hd1 by (by rewrite Hd, <- !app_assoc).
  assert (data fl = (fixed ++ attribute_part t ks ++ position_part t ks ++ O) ++ B ++ L) as Hd2 by (by rewrite Hd, <- !app_assoc).
  assert (data fl = (fixed ++ attribute_part t ks ++ position_part t ks ++ O ++ B) ++ L ++ []) as Hd3 by (by rewrite Hd, <- !app_assoc, app_nil_r).
  split_and!.
  - rewrite Hd1 at 1. rewrite not_badly_encoded; [|apply run_part_terminated|by eapply run_part_nonempty|done]. cbn [rbind].
    eapply fetch_vlb_run; [done|exact Hd1|done|done].
  - eapply fetch_vlb_run; [done|exact Hd2|done|done].
  - rewrite Hd3 at 1. rewrite not_badly_encoded; [|apply run_part_terminated|by eapply run_part_nonempty|done]. cbn [rbind].
    eapply fetch_vlb_run; [done|exact Hd3|done|done].
Qed.

(** What is packed are the keyword's bytes of each part. *)
Lemma pack_run mapper (i : nat) l id tf score : ks !! i = Some l -> getKeywordId fl (Z.of_nat i) = Ok id ->
  getKeywordTfBoostProduct fl (Z.of_nat i) = Ok tf -> getKeywordRecordStaticScore fl (Z.of_nat i) = Ok score ->
  pack t fl mapper (Z.of_nat i) = Ok (mk_rich (new_id mapper id) tf score
    (if isEnabledAttributeBasedSearch t then block (encoding (map fst (runs l))) else [])
    (keyword_bytes (isEnabledWordPositionIndex t) (fun l => encoding (positions_of l)) l)
    (keyword_bytes (isEnabledCharPositionIndex t) (fun l => encoding (offsets_of l)) l)
    (keyword_bytes (isEnabledCharPositionIndex t) bitmap_of l)
    (keyword_bytes (isEnabledCharPositionIndex t) (fun l => encoding (lens_of l)) l)).
Proof.
  intros Hi H1 H2 H3. unfold pack. rewrite H1, H2, H3. cbn [rbind].
  pose proof (attribute_bytes_run i l) as Ha. pose proof (position_bytes_run i l) as Hp. pose proof (char_bytes_run i l) as Hc.
  destruct (isEnabledAttributeBasedSearch t); [rewrite Ha by done|]; cbn [rbind];
  (destruct (isEnabledWordPositionIndex t); [rewrite Hp by done|]; cbn [rbind];
   (destruct (isEnabledCharPositionIndex t); [destruct Hc as (-> & -> & ->); [done|done|]|]; done)).
Qed.

(** The copy starts at an offset without the bytes of the frequencies, so that it
    fails its last assertion whenever there is a keyword. *)
Theorem copy_faults : ks <> [] -> dataSize fl = list_size t ks ->
  copyByteArraysToForwardList fl (attribute_part t ks) (position_part t ks) (offset_part t ks) (synonym_part t ks) (charLen_part t ks) = Err AssertFailed.
Proof.
  intros Hne Hds. unfold copyByteArraysToForwardList.
  rewrite (lo_attributes _ _ _ _ Hlo), (lo_positions _ _ _ _ Hlo), (lo_offsets _ _ _ _ Hlo), (lo_synonyms _ _ _ _ Hlo), (lo_charLens _ _ _ _ Hlo), !Z.eqb_refl.
  cbn [andb negb]. unfold getKeywordIdsSizeInBytes, getKeywordRecordStaticScoresSizeInBytes. rewrite (lo_number _ _ _ _ Hlo), (lo_data _ _ _ _ Hlo), Hds.
  unfold list_size in *. assert (0 < length ks)%nat by (destruct ks; [done|cbn; lia]). pose proof (lo_fixed _ _ _ _ Hlo) as Hf.
  rewrite !wrap_id by (unfold is_uint; rewrite ?wrap_id by (unfold is_uint; lia); lia).
  set (parts := [attribute_part t ks; position_part t ks; offset_part t ks; synonym_part t ks; charLen_part t ks]).
  set (d := fixed ++ _). assert (d = take (6 * length ks) fixed ++ take (length (concat parts)) (drop (6 * length ks) d) ++ drop (length (concat parts)) (drop (6 * length ks) d)) as Ed.
  { rewrite take_drop. unfold d. rewrite drop_app_le by lia. by rewrite (app_assoc (take _ _)), take_drop. }
  assert (length d = 8 * length ks + length (concat parts))%nat as Hd.
  { unfold d, parts. cbn [concat]. rewrite !length_app, Hf. cbn [length]. lia. }
  assert (Z.of_nat (length (concat parts)) < 2 ^ 32 - 8 * Z.of_nat (length ks)) as Hc.
  { unfold parts. cbn [concat]. rewrite !length_app. cbn [length]. lia. }
  rewrite Ed. replace (Z.of_nat (length ks) * 4 + Z.of_nat (length ks) * 2) with (Z.of_nat (length (take (6 * length ks) fixed))) by (rewrite length_take; lia).
  rewrite copy_buffers_tail; [|rewrite length_take, length_drop; lia|rewrite length_app, !length_take, length_drop; lia].
  cbn [rbind]. rewrite length_app, length_take, Nat.min_l by lia. unfold parts. cbn [concat]. rewrite !length_app. cbn [length].
  match goal with |- context [?x =? ?y] => destruct (Z.eqb_spec x y); [lia|done] end.
Qed.

End Packing.

End ForwardReorder.
