(* ===== verification/PlanOperators.v ===== *)
(** * The operators of a physical plan (core/operation/physical_plan/)

    A query runs as a tree of operators; [open] prepares one, every [getNext] returns
    the next record, and [verifyByRandomAccess] asks whether a given record is among
    its answers.  The records of an operator are fresh objects that it hands to its
    parent, so that they are values here.  Scores are single-precision floats; the
    score of one term, which is a power, is a parameter. *)
From S2P Require Import Prelude ForwardList.
From Stdlib Require Import ZArith Lia List Bool SpecFloat.
From stdpp Require Import base list.
Open Scope Z_scope.

Module PlanOperators.
Import ForwardList(ATTRIBUTES_OP).

(** ** Scores *)

Definition float : Type := spec_float.
Definition fadd (x y : float) : float := SFadd 24 128 x y.
Definition fmul (x y : float) : float := SFmul 24 128 x y.
Definition fgt (x y : float) : bool := SFltb y x.
Definition f_zero : float := S754_zero false.
Definition f_minus_one : float := S754_finite true 8388608 (-23).

(** The runtime score of a conjunction is the sum, that of a disjunction the maximum. *)
Definition computeAggregatedRuntimeScoreForAnd (runTimeTermRecordScores : list float) : float :=
  fold_left fadd runTimeTermRecordScores f_zero.
Definition computeAggregatedRuntimeScoreForOr (runTimeTermRecordScores : list float) : float :=
  fold_left (fun resultScore score => if fgt score resultScore then score else resultScore) runTimeTermRecordScores f_minus_one.

(** ** Records and terms *)

Inductive TermType := TERM_TYPE_PREFIX | TERM_TYPE_COMPLETE | TERM_TYPE_NOT_SPECIFIED | TERM_TYPE_PHRASE.

Record PhysicalPlanRecordItem := mk_item {
  recordId : Z;
  recordStaticScore : Z;          (* a half *)
  recordRuntimeScore : float;
  matchingPrefixes : list Z;      (* trie nodes *)
  editDistances : list Z;
  attributeIdsList : list (list Z);
  positionIndexOffsets : list Z;
  termTypes : list TermType }.

(** A keyword as the leaf node iterators list it: the prefix node, the leaf node, the
    distance and the inverted list. *)
Record leaf := mk_leaf { l_prefix : Z; l_node : Z; l_distance : Z; l_list : Z }.

(** An active node as the iterators list it: the node, the distance, its ids, and
    whether it is terminal. *)
Record active := mk_active { a_node : Z; a_distance : Z; a_minId : Z; a_maxId : Z; a_terminal : bool }.

(** A term of the query with what the iterators over its active nodes list. *)
Record Term := mk_term {
  getTermType : TermType;
  keywordSize : Z;
  getSimilarityBoost : float;
  getBoost : float;
  leaves : list leaf;
  actives : list active;
  getAttributesToFilter : list Z;
  getFilterAttrOperation : ATTRIBUTES_OP }.

(** What the operators read of the indexes, through the read views of the query. *)
Class IndexReader (I : Type) := {
  getInvertedListReadView : I -> Z -> result (list Z);
  getKeywordOffset : I -> Z -> Z -> result (option Z);
  isValidTermPositionHit : I -> Z -> Z -> list Z -> ATTRIBUTES_OP -> list Z -> result (bool * list Z * Z);
  haveWordInRange : I -> Z -> Z -> Z -> list Z -> ATTRIBUTES_OP -> result (option (Z * list Z * Z)) }.

(** ** The tree of operators *)

(** The operators with their members.  The plan does not change while it runs. *)
Inductive node :=
  | UnionLowestLevelSimpleScan (term : Term) (invertedLists : list (leaf * list Z)) (invertedListOffset cursorOnInvertedList : Z)
  | MergeSortedByID (listsHaveMoreRecordsInThem : bool) (previousResultsFound : list Z) (children : list node)
  | UnionSortedByID (listsHaveMoreRecordsInThem : bool) (visitedRecords : list Z) (nextItemsFromChildren : list (option PhysicalPlanRecordItem))
      (children : list node)
  | SortById (records : list PhysicalPlanRecordItem) (child : node)
  | MergeByShortestList (isShortestListFinished : bool) (indexOfShortestListChild : Z) (children : list node)
  | RandomAccessVerificationTerm (term : Term)
  | RandomAccessVerificationAnd (children : list node)
  | RandomAccessVerificationOr (children : list node)
  | RandomAccessVerificationNot (child : node).

Section Operators.
Context {I : Type} `{IndexReader I} (index : I).
(** The score of a term from the static score, the distance, the length of the keyword,
    whether it matched as a prefix, the penalty of a prefix match and the boost. *)
Variable (computeTermRecordRuntimeScore : Z -> Z -> Z -> bool -> float -> float -> float).
Variable (prefixMatchPenalty : float).
(** Moves the record to return first out of a heap that [push_heap] or [make_heap] made;
    the standard library leaves open which of equal records that is. *)
Variable (pop_heap : (PhysicalPlanRecordItem -> PhysicalPlanRecordItem -> bool) -> list PhysicalPlanRecordItem ->
  option (PhysicalPlanRecordItem * list PhysicalPlanRecordItem)).

(** ** Verification of a record *)

(** What a verification leaves to its caller. *)
Record VerificationParameters := mk_params {
  runTimeTermRecordScore : float;
  staticTermRecordScore : Z;
  p_prefixes : list Z;
  p_attributeIdsList : list (list Z);
  p_distances : list Z;
  p_positions : list Z;
  p_termTypes : list TermType }.

(** The first range with a word of the record. *)
Fixpoint verify_ranges (term : Term) (record : Z) (ranges : list active) (p : VerificationParameters) : result (bool * VerificationParameters) :=
  match ranges with
  | [] => Ok (false, p)
  | a :: ranges' =>
      let maxId := match getTermType term with TERM_TYPE_COMPLETE => a_minId a | _ => a_maxId a end in
      if match getTermType term with TERM_TYPE_COMPLETE => negb (a_terminal a) | _ => false end then Err AssertFailed
      else
        let? r := haveWordInRange index record (a_minId a) maxId (getAttributesToFilter term) (getFilterAttrOperation term) in
        match r with
        | Some (matchingKeywordId, matchedAttributeIdsList, termRecordStaticScore) =>
            let isPrefixMatch := negb (a_terminal a) || negb (a_minId a =? matchingKeywordId) in
            Ok (true, mk_params (computeTermRecordRuntimeScore termRecordStaticScore (a_distance a) (keywordSize term) isPrefixMatch
              prefixMatchPenalty (fmul (getSimilarityBoost term) (getBoost term))) termRecordStaticScore
              (p_prefixes p ++ [a_node a]) (p_attributeIdsList p ++ [matchedAttributeIdsList]) (p_distances p ++ [a_distance a])
              (p_positions p) (p_termTypes p ++ [getTermType term]))
        | None => verify_ranges term record ranges' p
        end
  end.

Definition verifyByRandomAccessHelper (term : Term) (record : Z) (p : VerificationParameters) : result (bool * VerificationParameters) :=
  verify_ranges term record (actives term) p.

Section Helpers.
Context (verify : node -> VerificationParameters -> result (bool * VerificationParameters)).

(** The loops over the children; [scores] is the vector of the scores so far. *)
Fixpoint and_loop (children : list node) (scores : list float) (p : VerificationParameters) : result (bool * VerificationParameters) :=
  match children with
  | [] =>
      Ok (true, mk_params (computeAggregatedRuntimeScoreForAnd scores) (staticTermRecordScore p) (p_prefixes p) (p_attributeIdsList p)
        (p_distances p) (p_positions p) (p_termTypes p))
  | c :: children' =>
      let? (verified, p) := verify c p in
      if verified : bool then and_loop children' (scores ++ [runTimeTermRecordScore p]) p else Ok (false, p)
  end.

Fixpoint or_loop (children : list node) (verified : bool) (scores : list float) (p : VerificationParameters) : result (bool * VerificationParameters) :=
  match children with
  | [] =>
      Ok (verified,
        if verified then mk_params (computeAggregatedRuntimeScoreForOr scores) (staticTermRecordScore p) (p_prefixes p) (p_attributeIdsList p)
          (p_distances p) (p_positions p) (p_termTypes p) else p)
  | c :: children' =>
      let? (v, p) := verify c p in
      or_loop children' (verified || v) (scores ++ [runTimeTermRecordScore p]) p
  end.

End Helpers.

Fixpoint verifyByRandomAccess (record : Z) (n : node) (p : VerificationParameters) : result (bool * VerificationParameters) :=
  match n with
  | UnionLowestLevelSimpleScan term _ _ _ | RandomAccessVerificationTerm term => verifyByRandomAccessHelper term record p
  | MergeSortedByID _ _ children | MergeByShortestList _ _ children | RandomAccessVerificationAnd children =>
      and_loop (verifyByRandomAccess record) children [] p
  | UnionSortedByID _ _ _ children | RandomAccessVerificationOr children => or_loop (verifyByRandomAccess record) children false [] p
  | SortById _ child => verifyByRandomAccess record child p
  | RandomAccessVerificationNot child =>
      let? (resultFromChild, p) := verifyByRandomAccess record child p in
      if resultFromChild : bool then Ok (false, p)
      else Ok (true, mk_params f_zero 0 [] [] [] [] (p_termTypes p))
  end.

(** ** The scan of the inverted lists of a term *)

Fixpoint open_lists (ls : list leaf) (invertedLists : list (leaf * list Z)) : result (list (leaf * list Z)) :=
  match ls with
  | [] => Ok invertedLists
  | l :: ls' =>
      let? records := getInvertedListReadView index (l_list l) in
      open_lists ls' (if Z.of_nat (length records) =? 0 then invertedLists else invertedLists ++ [(l, records)])
  end.

(** The loop to the next record with a valid hit: the record with its attributes and
    score, and where it is. *)
Fixpoint scan_loop (fuel : nat) (term : Term) (lists : list (leaf * list Z)) (offset cursor : Z) (matched : list Z) :
    result (option (Z * list Z * Z) * Z * Z) :=
  match fuel with
  | O => Err OutOfFuel
  | S fuel' =>
      let? l := vec_at lists offset in
      let? record := vec_at l.2 cursor in
      let? keywordOffset := getKeywordOffset index record (l_list l.1) in
      let? (valid, matched, score) :=
        match keywordOffset with
        | Some o => isValidTermPositionHit index record o (getAttributesToFilter term) (getFilterAttrOperation term) matched
        | None => Ok (false, matched, 0)
        end in
      if valid : bool then Ok (Some (record, matched, score), offset, cursor)
      else if cursor + 1 <? Z.of_nat (length l.2) then scan_loop fuel' term lists offset (cursor + 1) matched
      else if offset + 1 <? Z.of_nat (length lists) then scan_loop fuel' term lists (offset + 1) 0 matched
      else Ok (None, offset + 1, 0)
  end.

Definition scan_getNext (fuel : nat) (term : Term) (lists : list (leaf * list Z)) (offset cursor : Z) :
    result (node * option PhysicalPlanRecordItem) :=
  if Z.of_nat (length lists) <=? offset then Ok (UnionLowestLevelSimpleScan term lists offset cursor, None)
  else
    let? l := vec_at lists offset in
    if negb (cursor <? Z.of_nat (length l.2)) then Err AssertFailed
    else
      let? (r, offset, cursor) := scan_loop fuel term lists offset cursor [] in
      match r with
      | None => Ok (UnionLowestLevelSimpleScan term lists offset cursor, None)
      | Some (record, matched, score) =>
          let? l := vec_at lists offset in
          let isPrefixMatch := negb (l_prefix l.1 =? l_node l.1) in
          let item := mk_item record score (fmul (computeTermRecordRuntimeScore score (l_distance l.1) (keywordSize term) isPrefixMatch prefixMatchPenalty
            (getSimilarityBoost term)) (getBoost term)) [l_prefix l.1]
            [l_distance l.1] [matched] [] [getTermType term] in
          let next := if Z.of_nat (length l.2) <=? cursor + 1 then (offset + 1, 0) else (offset, cursor + 1) in
          Ok (UnionLowestLevelSimpleScan term lists next.1 next.2, Some item)
      end.

(** ** Loops over the children *)

(** The record that a match of several records becomes: the first argument is the
    record object that is reused, [score] the aggregation. *)
Definition combine (score : list float -> float) (record : PhysicalPlanRecordItem) (matches : list PhysicalPlanRecordItem) : PhysicalPlanRecordItem :=
  mk_item (recordId record) (recordStaticScore record) (score (map recordRuntimeScore matches))
    (concat (map matchingPrefixes matches)) (concat (map editDistances matches)) (concat (map attributeIdsList matches))
    (concat (map positionIndexOffsets matches)) (concat (map termTypes matches)).

Definition visited (l : list Z) (r : Z) : bool := existsb (Z.eqb r) l.

Section Loops.
Context {C : Type} (next : C -> result (C * option PhysicalPlanRecordItem)).

(** [getChildAt(j)->getExecutableNode()->getNext(params)] *)
Definition next_of (children : list C) (j : Z) : result (list C * option PhysicalPlanRecordItem) :=
  let? c := vec_at children j in
  let? (c, r) := next c in
  let? children := vec_set children j c in
  Ok (children, r).

(** *** Conjunction of sorted streams *)

(** The next record of a child that is no earlier result. *)
Fixpoint candidate_loop (fuel : nat) (children : list C) (j : Z) (previous : list Z) : result (list C * option PhysicalPlanRecordItem) :=
  match fuel with
  | O => Err OutOfFuel
  | S fuel' =>
      let? (children, r) := next_of children j in
      match r with
      | None => Ok (children, None)
      | Some record => if visited previous (recordId record) then candidate_loop fuel' children j previous else Ok (children, Some record)
      end
  end.

(** The first record of a child that is not before [record]. *)
Fixpoint advance_loop (fuel : nat) (children : list C) (j record : Z) : result (list C * option PhysicalPlanRecordItem) :=
  match fuel with
  | O => Err OutOfFuel
  | S fuel' =>
      let? (children, r) := next_of children j in
      match r with
      | None => Ok (children, None)
      | Some nextRecord =>
          if (recordId nextRecord =? record) || (record <? recordId nextRecord) then Ok (children, Some nextRecord)
          else advance_loop fuel' children j record
      end
  end.

Inductive pass_result :=
  | NoMoreRecords
  | NextRound (record : PhysicalPlanRecordItem) (child : Z)
  | Matches (l : list PhysicalPlanRecordItem).

(** The loop over the other children with the record of child [i]. *)
Fixpoint pass_loop (fuel : nat) (children : list C) (record : PhysicalPlanRecordItem) (i : Z) (offsets : list Z)
    (recordMatches : list PhysicalPlanRecordItem) : result (list C * pass_result) :=
  match offsets with
  | [] => Ok (children, Matches recordMatches)
  | j :: offsets' =>
      if j =? i then pass_loop fuel children record i offsets' (recordMatches ++ [record])
      else
        let? (children, r) := advance_loop fuel children j (recordId record) in
        match r with
        | None => Ok (children, NoMoreRecords)
        | Some nextRecord =>
            if recordId nextRecord =? recordId record then pass_loop fuel children record i offsets' (recordMatches ++ [nextRecord])
            else Ok (children, NextRound nextRecord j)
        end
  end.

Fixpoint round_loop (fuel : nat) (children : list C) (record : PhysicalPlanRecordItem) (i : Z) (previous : list Z) :
    result (list C * option PhysicalPlanRecordItem) :=
  match fuel with
  | O => Err OutOfFuel
  | S fuel' =>
      let? (children, r) := pass_loop fuel children record i (seqZ 0 (Z.of_nat (length children))) [] in
      match r with
      | NoMoreRecords => Ok (children, None)
      | NextRound record i => round_loop fuel' children record i previous
      | Matches recordMatches =>
          if Z.of_nat (length recordMatches) =? Z.of_nat (length children)
          then Ok (children, Some (combine computeAggregatedRuntimeScoreForAnd record recordMatches))
          else
            let i := (i + 1) mod Z.of_nat (length children) in
            let? (children, r) := candidate_loop fuel children i previous in
            match r with
            | None => Ok (children, None)
            | Some record => round_loop fuel' children record i previous
            end
      end
  end.

(** The flag, the earlier results and the children after the call, and the record. *)
Definition merge_getNext (fuel : nat) (more : bool) (previous : list Z) (children : list C) :
    result (bool * list Z * list C * option PhysicalPlanRecordItem) :=
  if more then
    let? (children, r) := candidate_loop fuel children 0 previous in
    match r with
    | None => Ok (false, previous, children, None)
    | Some record =>
        let? (children, r) := round_loop fuel children record 0 previous in
        match r with
        | None => Ok (false, previous, children, None)
        | Some record => Ok (true, previous ++ [recordId record], children, Some record)
        end
    end
  else Ok (more, previous, children, None).

(** *** Disjunction of sorted streams *)

(** Replaces the next record of a child while it was visited. *)
Fixpoint skip_loop (fuel : nat) (child : C) (item : option PhysicalPlanRecordItem) (visitedRecords : list Z) :
    result (C * option PhysicalPlanRecordItem) :=
  match item with
  | None => Ok (child, None)
  | Some record =>
      if visited visitedRecords (recordId record) then
        match fuel with
        | O => Err OutOfFuel
        | S fuel' => let? (child, item) := next child in skip_loop fuel' child item visitedRecords
        end
      else Ok (child, item)
  end.

(** The loop that skips visited records in every child; [nextItems.at] raises when the
    vector is too short. *)
Fixpoint skip_all (fuel : nat) (children : list C) (items : list (option PhysicalPlanRecordItem)) (visitedRecords : list Z) :
    result (list C * list (option PhysicalPlanRecordItem)) :=
  match children, items with
  | [], items => Ok ([], items)
  | c :: children', item :: items' =>
      let? (c, item) := skip_loop fuel c item visitedRecords in
      let? (children', items') := skip_all fuel children' items' visitedRecords in
      Ok (c :: children', item :: items')
  | _ :: _, [] => Err OutOfRange
  end.

(** The least id, and the larger score among equal ids. *)
Definition min_step (minIDRecord item : option PhysicalPlanRecordItem) : option PhysicalPlanRecordItem :=
  match item, minIDRecord with
  | None, _ => minIDRecord
  | Some _, None => item
  | Some r, Some m =>
      if (recordId r <? recordId m) || ((recordId m =? recordId r) && fgt (recordRuntimeScore r) (recordRuntimeScore m)) then item else minIDRecord
  end.

(** Removes the records with the least id and reads the next ones. *)
Fixpoint remove_min (children : list C) (items : list (option PhysicalPlanRecordItem)) (minId : Z) :
    result (list C * list (option PhysicalPlanRecordItem) * list PhysicalPlanRecordItem) :=
  match children, items with
  | [], items => Ok ([], items, [])
  | c :: children', item :: items' =>
      let? (c, item, matched) :=
        match item with
        | Some record =>
            if recordId record =? minId then let? (c, item) := next c in Ok (c, item, [record]) else Ok (c, item, [])
        | None => Ok (c, item, [])
        end in
      let? (children', items', matches) := remove_min children' items' minId in
      Ok (c :: children', item :: items', matched ++ matches)
  | _ :: _, [] => Err OutOfRange
  end.

Definition union_getNext (fuel : nat) (more : bool) (visitedRecords : list Z) (items : list (option PhysicalPlanRecordItem)) (children : list C) :
    result (bool * list Z * list (option PhysicalPlanRecordItem) * list C * option PhysicalPlanRecordItem) :=
  if more then
    let? (children, items) := skip_all fuel children items visitedRecords in
    match fold_left min_step (take (length children) items) None with
    | None => Ok (false, visitedRecords, items, children, None)
    | Some minIDRecord =>
        let? (children, items, matches) := remove_min children items (recordId minIDRecord) in
        Ok (more, visitedRecords ++ [recordId minIDRecord], items, children,
          Some (combine computeAggregatedRuntimeScoreForOr minIDRecord matches))
    end
  else Ok (more, visitedRecords, items, children, None).

(** *** Sorting *)

(** All records of the child. *)
Fixpoint drain (fuel : nat) (child : C) (records : list PhysicalPlanRecordItem) : result (C * list PhysicalPlanRecordItem) :=
  match fuel with
  | O => Err OutOfFuel
  | S fuel' =>
      let? (child, r) := next child in
      match r with None => Ok (child, records) | Some record => drain fuel' child (records ++ [record]) end
  end.

End Loops.

(** The order of the heap: the record to return first is the greatest. *)
Definition SortByIdRecordMinHeapComparator (left right : PhysicalPlanRecordItem) : bool :=
  if recordId left =? recordId right then fgt (recordRuntimeScore right) (recordRuntimeScore left)
  else recordId right <? recordId left.

Definition sort_getNext (records : list PhysicalPlanRecordItem) : result (list PhysicalPlanRecordItem * option PhysicalPlanRecordItem) :=
  if Z.of_nat (length records) =? 0 then Ok (records, None)
  else
    match pop_heap SortByIdRecordMinHeapComparator records with
    | Some (r, records) => Ok (records, Some r)
    | None => Err OutOfRange
    end.

(** *** Verification of the records of the shortest list *)

Section Shortest.
Context {C : Type} (next : C -> result (C * option PhysicalPlanRecordItem)).
Context (verify : Z -> C -> VerificationParameters -> result (bool * VerificationParameters)).
(** The members of a fresh parameter object are indeterminate. *)
Variable (indeterminate : VerificationParameters).

(** What the vectors hold after some children. *)
Record verified_vectors := mk_vectors {
  v_scores : list float; v_prefixes : list Z; v_attributes : list (list Z); v_distances : list Z;
  v_positions : list Z; v_termTypes : list TermType }.

Definition fresh_parameters : VerificationParameters :=
  mk_params (runTimeTermRecordScore indeterminate) (staticTermRecordScore indeterminate) [] [] [] [] [].

(** [verifyRecordWithChildren] from the child [offset] on. *)
Fixpoint verifyRecordWithChildren (children : list C) (offset shortest : Z) (record : PhysicalPlanRecordItem) (v : verified_vectors) :
    result (option verified_vectors) :=
  match children with
  | [] => Ok (Some v)
  | c :: children' =>
      if offset =? shortest then
        verifyRecordWithChildren children' (offset + 1) shortest record
          (mk_vectors (v_scores v ++ [recordRuntimeScore record]) (v_prefixes v ++ matchingPrefixes record)
            (v_attributes v ++ attributeIdsList record) (v_distances v ++ editDistances record)
            (v_positions v ++ positionIndexOffsets record) (v_termTypes v ++ termTypes record))
      else
        let? (verified, p) := verify (recordId record) c fresh_parameters in
        if verified : bool then
          verifyRecordWithChildren children' (offset + 1) shortest record
            (mk_vectors (v_scores v ++ [runTimeTermRecordScore p]) (v_prefixes v ++ p_prefixes p)
              (v_attributes v ++ p_attributeIdsList p) (v_distances v ++ p_distances p)
              (v_positions v ++ p_positions p) (v_termTypes v ++ p_termTypes p))
        else Ok None
  end.

Fixpoint shortest_loop (fuel : nat) (shortest : Z) (children : list C) : result (list C * option PhysicalPlanRecordItem) :=
  match fuel with
  | O => Err OutOfFuel
  | S fuel' =>
      let? (children, r) := next_of next children shortest in
      match r with
      | None => Ok (children, None)
      | Some record =>
          let? verified := verifyRecordWithChildren children 0 shortest record (mk_vectors [] [] [] [] [] []) in
          match verified with
          | None => shortest_loop fuel' shortest children
          | Some v =>
              Ok (children, Some (mk_item (recordId record) (recordStaticScore record) (computeAggregatedRuntimeScoreForAnd (v_scores v))
                (v_prefixes v) (v_distances v) (v_attributes v) (v_positions v) (v_termTypes v)))
          end
      end
  end.

Definition shortest_getNext (fuel : nat) (finished : bool) (shortest : Z) (children : list C) :
    result (bool * list C * option PhysicalPlanRecordItem) :=
  if finished then Ok (finished, children, None)
  else
    let? (children, r) := shortest_loop fuel shortest children in
    Ok (match r with None => true | Some _ => finished end, children, r).

End Shortest.

(** ** The operators *)

Variable (indeterminate : VerificationParameters).

(** [depth] bounds the height of the tree, [fuel] every loop. *)
Fixpoint getNext (depth fuel : nat) (n : node) : result (node * option PhysicalPlanRecordItem) :=
  match depth with
  | O => Err OutOfFuel
  | S depth' =>
      let next := getNext depth' fuel in
      match n with
      | UnionLowestLevelSimpleScan term lists offset cursor => scan_getNext fuel term lists offset cursor
      | MergeSortedByID more previous children =>
          let? (more, previous, children, r) := merge_getNext next fuel more previous children in
          Ok (MergeSortedByID more previous children, r)
      | UnionSortedByID more visitedRecords items children =>
          let? (more, visitedRecords, items, children, r) := union_getNext next fuel more visitedRecords items children in
          Ok (UnionSortedByID more visitedRecords items children, r)
      | SortById records child => let? (records, r) := sort_getNext records in Ok (SortById records child, r)
      | MergeByShortestList finished shortest children =>
          let? (finished, children, r) := shortest_getNext next verifyByRandomAccess indeterminate fuel finished shortest children in
          Ok (MergeByShortestList finished shortest children, r)
      | RandomAccessVerificationTerm _ | RandomAccessVerificationAnd _ | RandomAccessVerificationOr _ | RandomAccessVerificationNot _ => Ok (n, None)
      end
  end.

(** For all children from the first to the last. *)
Fixpoint for_children {A B} (f : A -> result B) (l : list A) : result (list B) :=
  match l with
  | [] => Ok []
  | x :: l' => let? y := f x in let? r := for_children f l' in Ok (y :: r)
  end.

Section Open.
Context (next : node -> result (node * option PhysicalPlanRecordItem)) (open_child : node -> result node).

Definition scan_open (term : Term) (lists : list (leaf * list Z)) : result node :=
  let? lists := open_lists (leaves term) lists in Ok (UnionLowestLevelSimpleScan term lists 0 0).

Definition merge_open (children : list node) : result node :=
  let? children := for_children open_child children in Ok (MergeSortedByID true [] children).

(** Opens the children and reads the first record of each; the records read ahead are
    put behind those that the vector has. *)
Definition union_open (items : list (option PhysicalPlanRecordItem)) (children : list node) : result node :=
  let? children := for_children open_child children in
  let? nexts := for_children next children in
  Ok (UnionSortedByID true [] (items ++ map snd nexts) (map fst nexts)).

Definition sort_open (fuel : nat) (records : list PhysicalPlanRecordItem) (child : node) : result node :=
  let? child := open_child child in
  let? (child, records) := drain next fuel child records in
  Ok (SortById records child).

(** Without a hit in the cache. *)
Definition shortest_open (shortest : Z) (children : list node) : result node :=
  let? children := for_children open_child children in Ok (MergeByShortestList false shortest children).

End Open.

Fixpoint open (depth fuel : nat) (n : node) : result node :=
  match depth with
  | O => Err OutOfFuel
  | S depth' =>
      let next := getNext depth' fuel in
      let open_child := open depth' fuel in
      match n with
      | UnionLowestLevelSimpleScan term lists _ _ => scan_open term lists
      | MergeSortedByID _ _ children => merge_open open_child children
      | UnionSortedByID _ _ items children => union_open next open_child items children
      | SortById records child => sort_open next open_child fuel records child
      | MergeByShortestList _ shortest children => shortest_open open_child shortest children
      | RandomAccessVerificationTerm term => Ok n
      | RandomAccessVerificationAnd children => let? children := for_children open_child children in Ok (RandomAccessVerificationAnd children)
      | RandomAccessVerificationOr children => let? children := for_children open_child children in Ok (RandomAccessVerificationOr children)
      | RandomAccessVerificationNot child => let? child := open_child child in Ok (RandomAccessVerificationNot child)
      end
  end.

(** What [close] leaves for a later [open]. *)
Fixpoint close (n : node) : node :=
  match n with
  | UnionLowestLevelSimpleScan term _ _ _ => UnionLowestLevelSimpleScan term [] 0 0
  | MergeSortedByID _ previous children => MergeSortedByID false previous (map close children)
  | UnionSortedByID _ _ items children => UnionSortedByID true [] items (map close children)
  | SortById _ child => SortById [] (close child)
  | MergeByShortestList _ shortest children => MergeByShortestList false shortest (map close children)
  | RandomAccessVerificationTerm term => n
  | RandomAccessVerificationAnd children => RandomAccessVerificationAnd (map close children)
  | RandomAccessVerificationOr children => RandomAccessVerificationOr (map close children)
  | RandomAccessVerificationNot child => RandomAccessVerificationNot (close child)
  end.

End Operators.
End PlanOperators.
