(* ===== verification/PlanStreams.v ===== *)
(** * What the operators deliver (core/operation/physical_plan/)

    A child of an operator is known by the records it delivers.  The conjunction of
    sorted streams delivers the common ids in order, the disjunction all ids in order,
    sorting delivers the same records in order, and the verification of the shortest
    list those of its records that the other children accept. *)
From S2P Require Import Prelude ForwardList PlanOperators.
From Stdlib Require Import ZArith Lia List Bool Sorted.
From stdpp Require Import base list sets.
Open Scope Z_scope.

Module PlanStreams.
Import PlanOperators.

Abbreviation item := PhysicalPlanRecordItem.
Definition ids (l : list item) : list Z := map recordId l.
Definition sorted (l : list item) : Prop := StronglySorted Z.le (ids l).

Lemma elem_ids l z : z ∈ ids l <-> exists x, x ∈ l /\ recordId x = z.
Proof. unfold ids. rewrite list_elem_of_In, in_map_iff. setoid_rewrite list_elem_of_In. naive_solver. Qed.

Lemma elem_ids_intro l x : x ∈ l -> recordId x ∈ ids l.
Proof. intros H. apply elem_ids. by exists x. Qed.

Lemma ids_sorted_cons x l : sorted (x :: l) -> sorted l /\ forall y, y ∈ l -> recordId x <= recordId y.
Proof.
  intros [H1 H2]%StronglySorted_inv. split; [done|]. intros y Hy%elem_ids_intro. rewrite List.Forall_forall in H2. apply H2. by apply list_elem_of_In.
Qed.

Lemma sorted_app l1 l2 : sorted (l1 ++ l2) -> sorted l2.
Proof. induction l1 as [|x l1 IH]; [done|]. intros H. apply IH. by apply ids_sorted_cons in H as [H _]. Qed.

Lemma visited_spec l z : visited l z = true <-> z ∈ l.
Proof. unfold visited. rewrite existsb_exists, list_elem_of_In. setoid_rewrite Z.eqb_eq. naive_solver. Qed.

Section Streams.
Context {C : Type} (next : C -> result (C * option item)).

(** [getNext] returns these records one after the other, and then NULL. *)
Fixpoint delivers (c : C) (l : list item) : Prop :=
  match l with
  | [] => exists c', next c = Ok (c', None)
  | x :: l' => exists c', next c = Ok (c', Some x) /\ delivers c' l'
  end.

Lemma next_of_some cs ls (j : nat) x l : Forall2 delivers cs ls -> ls !! j = Some (x :: l) ->
  exists cs', next_of next cs (Z.of_nat j) = Ok (cs', Some x) /\ Forall2 delivers cs' (<[j := l]> ls).
Proof.
  intros H Hj. destruct (Forall2_lookup_r _ _ _ _ _ H Hj) as (c & Hc & c' & Hn & Hd). unfold next_of.
  assert (vec_at cs (Z.of_nat j) = Ok c) as -> by (apply vec_at_nth; rewrite Nat2Z.id; split; [lia|done]). cbn [rbind]. rewrite Hn. cbn [rbind].
  assert (vec_set cs (Z.of_nat j) c' = Ok (<[j := c']> cs)) as ->.
  { apply vec_set_Ok. rewrite Nat2Z.id. apply lookup_lt_Some in Hc. split; [lia|done]. }
  cbn [rbind]. eexists. split; [done|]. by apply Forall2_insert.
Qed.

Lemma next_of_none cs ls (j : nat) : Forall2 delivers cs ls -> ls !! j = Some [] -> exists cs', next_of next cs (Z.of_nat j) = Ok (cs', None).
Proof.
  intros H Hj. destruct (Forall2_lookup_r _ _ _ _ _ H Hj) as (c & Hc & c' & Hn). unfold next_of.
  assert (vec_at cs (Z.of_nat j) = Ok c) as -> by (apply vec_at_nth; rewrite Nat2Z.id; split; [lia|done]). cbn [rbind]. rewrite Hn. cbn [rbind].
  assert (vec_set cs (Z.of_nat j) c' = Ok (<[j := c']> cs)) as ->.
  { apply vec_set_Ok. rewrite Nat2Z.id. apply lookup_lt_Some in Hc. split; [lia|done]. }
  by eexists.
Qed.

(** ** Conjunction *)

Definition total (ls : list (list item)) : nat := list_sum (map length ls).

Lemma total_cons l ls : total (l :: ls) = (length l + total ls)%nat.
Proof. done. Qed.

Lemma total_insert ls (j : nat) l l' : ls !! j = Some l -> (total (<[j := l']> ls) + length l = total ls + length l')%nat.
Proof.
  revert j. induction ls as [|k ls IH]; intros [|j] H; cbn in H; try done.
  - injection H as ->. change (<[0%nat := l']> (l :: ls)) with (l' :: ls). rewrite !total_cons. lia.
  - change (<[S j := l']> (k :: ls)) with (k :: <[j := l']> ls). rewrite !total_cons. specialize (IH j H). lia.
Qed.

Lemma total_at ls (j : nat) l : ls !! j = Some l -> (length l <= total ls)%nat.
Proof. intros H. pose proof (total_insert ls j l [] H). cbn in *. lia. Qed.

Lemma insert_insert_same (ls : list (list item)) (j : nat) l l' : <[j := l']> (<[j := l]> ls) = <[j := l']> ls.
Proof. apply list_insert_insert_eq. Qed.

(** The loop to the first record that is not before [r]. *)
Lemma advance_run r l : forall fuel cs ls (j : nat), Forall2 delivers cs ls -> ls !! j = Some l -> sorted l -> (length l < fuel)%nat ->
  exists cs', (advance_loop next fuel cs (Z.of_nat j) r = Ok (cs', None) /\ forall x, x ∈ l -> recordId x < r) \/
    (exists d x l', l = d ++ x :: l' /\ (forall y, y ∈ d -> recordId y < r) /\ r <= recordId x /\
      advance_loop next fuel cs (Z.of_nat j) r = Ok (cs', Some x) /\ Forall2 delivers cs' (<[j := l']> ls)).
Proof.
  induction l as [|x l IH]; intros [|fuel] cs ls j Hcs Hj Hs Hf; try (cbn in Hf; lia); cbn [advance_loop].
  - destruct (next_of_none _ _ _ Hcs Hj) as (cs' & ->). cbn [rbind]. exists cs'. left. split; [done|]. intros x Hx. by apply elem_of_nil in Hx.
  - destruct (next_of_some _ _ _ _ _ Hcs Hj) as (cs' & -> & Hcs'). cbn [rbind].
    apply ids_sorted_cons in Hs as [Hs Hx]. destruct ((recordId x =? r) || (r <? recordId x)) eqn:E.
    + exists cs'. right. exists [], x, l. split; [done|]. split; [intros y Hy; by apply elem_of_nil in Hy|].
      apply orb_true_iff in E as [E|E]; [apply Z.eqb_eq in E|apply Z.ltb_lt in E]; (split; [lia|done]).
    + apply orb_false_iff in E as [E1 E2]. apply Z.eqb_neq in E1. apply Z.ltb_ge in E2.
      cbn [length] in Hf. destruct (IH fuel cs' (<[j := l]> ls) j Hcs') as (cs'' & [[Hr Hall]|(d & y & l' & -> & Hd & Hy & Hr & Hcs'')]);
        [rewrite list_lookup_insert_eq; [done|by apply lookup_lt_Some in Hj]|done|lia| |].
      * exists cs''. left. split; [done|]. intros y [->|Hy']%elem_of_cons; [lia|auto].
      * exists cs''. right. exists (x :: d), y, l'. split; [done|]. split; [intros z [->|Hz]%elem_of_cons; [lia|auto]|]. split; [done|].
        split; [done|]. by rewrite insert_insert_same in Hcs''.
Qed.

(** The loop to the first record that is not among earlier results. *)
Lemma candidate_run prev l : forall fuel cs ls (j : nat), Forall2 delivers cs ls -> ls !! j = Some l -> (length l < fuel)%nat ->
  exists cs', (candidate_loop next fuel cs (Z.of_nat j) prev = Ok (cs', None) /\ forall x, x ∈ l -> recordId x ∈ prev) \/
    (exists d x l', l = d ++ x :: l' /\ (forall y, y ∈ d -> recordId y ∈ prev) /\ recordId x ∉ prev /\
      candidate_loop next fuel cs (Z.of_nat j) prev = Ok (cs', Some x) /\ Forall2 delivers cs' (<[j := l']> ls)).
Proof.
  induction l as [|x l IH]; intros [|fuel] cs ls j Hcs Hj Hf; try (cbn in Hf; lia); cbn [candidate_loop].
  - destruct (next_of_none _ _ _ Hcs Hj) as (cs' & ->). cbn [rbind]. exists cs'. left. split; [done|]. intros x Hx. by apply elem_of_nil in Hx.
  - destruct (next_of_some _ _ _ _ _ Hcs Hj) as (cs' & -> & Hcs'). cbn [rbind]. destruct (visited prev (recordId x)) eqn:E.
    + apply visited_spec in E. cbn [length] in Hf. destruct (IH fuel cs' (<[j := l]> ls) j Hcs') as (cs'' & [[Hr Hall]|(d & y & l' & -> & Hd & Hy & Hr & Hcs'')]);
        [rewrite list_lookup_insert_eq; [done|by apply lookup_lt_Some in Hj]|lia| |].
      * exists cs''. left. split; [done|]. intros y [->|Hy']%elem_of_cons; auto.
      * exists cs''. right. exists (x :: d), y, l'. split; [done|]. split; [intros z [->|Hz]%elem_of_cons; auto|]. split; [done|].
        split; [done|]. by rewrite insert_insert_same in Hcs''.
    + exists cs'. right. exists [], x, l. split; [done|]. split; [intros y Hy; by apply elem_of_nil in Hy|]. split; [|done].
      intros Hv%visited_spec. congruence.
Qed.

Definition common (ls : list (list item)) (z : Z) : Prop := Forall (fun l => z ∈ ids l) ls.

(** The first record of a stream with an id, the one that an operator meets. *)
Definition first_with (z : Z) (l : list item) : option item := List.find (fun x => recordId x =? z) l.

(** What was read of a stream is not behind [r], or before it. *)
Definition read_le (r : Z) (l0 l : list item) : Prop := exists d, l0 = d ++ l /\ forall y, y ∈ d -> recordId y <= r.
Definition read_lt (r : Z) (l0 l : list item) : Prop := exists d, l0 = d ++ l /\ forall y, y ∈ d -> recordId y < r.

Lemma first_with_app z d l : (forall y, y ∈ d -> recordId y <> z) -> first_with z (d ++ l) = first_with z l.
Proof.
  induction d as [|y d IH]; intros H; [done|]. unfold first_with in *. cbn [app List.find]. destruct (Z.eqb_spec (recordId y) z); [set_solver|].
  apply IH. intros y' Hy'. apply H. set_solver.
Qed.

Lemma first_with_head x l : first_with (recordId x) (x :: l) = Some x.
Proof. unfold first_with. cbn [List.find]. by rewrite Z.eqb_refl. Qed.

Lemma first_with_Some z l x : first_with z l = Some x -> x ∈ l /\ recordId x = z.
Proof. intros [H1 H2]%List.find_some. split; [by apply list_elem_of_In|by apply Z.eqb_eq]. Qed.

Lemma first_with_None z l : first_with z l = None -> z ∉ ids l.
Proof. intros H (x & Hx & <-)%elem_ids. apply list_elem_of_In in Hx. by pose proof (List.find_none _ _ H x Hx) as E%Z.eqb_neq. Qed.

Lemma read_le_refl r l : read_le r l l.
Proof. exists []. split; [done|]. intros y Hy. by apply elem_of_nil in Hy. Qed.
Lemma read_lt_refl r l : read_lt r l l.
Proof. exists []. split; [done|]. intros y Hy. by apply elem_of_nil in Hy. Qed.
Lemma read_le_lt r r' l0 l : r < r' -> read_le r l0 l -> read_lt r' l0 l.
Proof. intros Hr (d & -> & H). exists d. split; [done|]. intros y Hy. specialize (H y Hy). lia. Qed.
Lemma read_le_mono r r' l0 l : r <= r' -> read_le r l0 l -> read_le r' l0 l.
Proof. intros Hr (d & -> & H). exists d. split; [done|]. intros y Hy. specialize (H y Hy). lia. Qed.
Lemma read_le_sorted r l0 l : read_le r l0 l -> sorted l0 -> sorted l.
Proof. intros (d & -> & _). apply sorted_app. Qed.

Lemma read_le_more r r' l0 d x l : read_le r l0 (d ++ x :: l) -> r <= r' -> (forall y, y ∈ d -> recordId y <= r') -> recordId x <= r' -> read_le r' l0 l.
Proof.
  intros (d0 & -> & H0) Hr Hd Hx. exists (d0 ++ d ++ [x]). split; [by rewrite <- !app_assoc|].
  intros y [Hy|[Hy|Hy%list_elem_of_singleton]%elem_of_app]%elem_of_app; [specialize (H0 y Hy); lia|auto|by subst].
Qed.

Lemma read_lt_first r l0 d x l : read_lt r l0 (d ++ x :: l) -> (forall y, y ∈ d -> recordId y < r) -> r <= recordId x -> first_with (recordId x) l0 = Some x.
Proof.
  intros (d0 & -> & H0) Hd Hx. rewrite first_with_app by (intros y Hy; specialize (H0 y Hy); lia).
  rewrite first_with_app by (intros y Hy; specialize (Hd y Hy); lia). apply first_with_head.
Qed.

Lemma read_le_first r z l0 l : read_le r l0 l -> r < z -> first_with z l = first_with z l0.
Proof. intros (d & -> & H) Hz. symmetry. apply first_with_app. intros y Hy. specialize (H y Hy). lia. Qed.

Lemma read_le_ids r z l0 l : read_le r l0 l -> r < z -> z ∈ ids l <-> z ∈ ids l0.
Proof.
  intros (d & -> & H) Hz. unfold ids. rewrite map_app, elem_of_app. split; [by right|]. intros [(y & Hy & <-)%elem_ids|]; [specialize (H y Hy); lia|done].
Qed.

(** What is left while the children are compared with the record [r] of child [i], at
    child [j]; the streams at the start are [ls0]. *)
Record pass_inv (ls0 ls : list (list item)) (r : Z) (i j : nat) : Prop := {
  pi_length : length ls = length ls0;
  pi_le (k : nat) l0 l : ls0 !! k = Some l0 -> ls !! k = Some l -> read_le r l0 l;
  pi_lt (k : nat) l0 l : ls0 !! k = Some l0 -> ls !! k = Some l -> k <> i -> (j <= k)%nat -> read_lt r l0 l;
  pi_behind (k : nat) l x : ls !! k = Some l -> x ∈ l -> k = i \/ (k < j)%nat -> r <= recordId x }.

Definition round_inv (ls0 ls : list (list item)) (x : item) (i : nat) : Prop :=
  pass_inv ls0 ls (recordId x) i 0 /\ exists l0, ls0 !! i = Some l0 /\ first_with (recordId x) l0 = Some x.

Lemma pass_inv_skip ls0 ls r (j : nat) : pass_inv ls0 ls r j j -> pass_inv ls0 ls r j (S j).
Proof.
  intros [H1 H2 H3 H4]. constructor; try done.
  - intros k l0 l Hk0 Hk Hi Hj. apply (H3 k); [done|done|done|lia].
  - intros k l x Hk Hx Hkj. apply (H4 k l x Hk Hx). lia.
Qed.

(** Child [j] was read up to a record with the id [r]. *)
Lemma pass_inv_match ls0 ls r (i j : nat) l0 d x l : pass_inv ls0 ls r i j -> ls0 !! j = Some l0 -> sorted l0 -> ls !! j = Some (d ++ x :: l) ->
  (forall y, y ∈ d -> recordId y < r) -> recordId x = r -> pass_inv ls0 (<[j := l]> ls) r i (S j).
Proof.
  intros [H1 H2 H3 H4] Hj0 Hs Hj Hd Hx. pose proof (lookup_lt_Some _ _ _ Hj) as Hlt. pose proof (H2 j _ _ Hj0 Hj) as Hle.
  constructor.
  - by rewrite length_insert.
  - intros k l0' l1 Hk0 Hk. apply list_lookup_insert_Some in Hk as [(<- & <- & _)|(_ & Hk)]; [|by apply (H2 k)].
    rewrite Hj0 in Hk0. injection Hk0 as <-. apply (read_le_more r r l0 d x l Hle); [lia| |lia]. intros y Hy. specialize (Hd y Hy). lia.
  - intros k l0' l1 Hk0 Hk Hki Hkj. apply list_lookup_insert_Some in Hk as [(<- & _ & _)|(_ & Hk)]; [lia|]. apply (H3 k); [done|done|done|lia].
  - apply (read_le_sorted _ _ _ Hle), sorted_app, ids_sorted_cons in Hs as [_ Hxl]. intros k l1 y Hk Hy Hkj.
    apply list_lookup_insert_Some in Hk as [(<- & <- & _)|(Hne & Hk)]; [subst r; by apply Hxl|]. apply (H4 k l1 y Hk Hy). lia.
Qed.

(** Child [j] was read up to a record behind [r], which becomes the next candidate. *)
Lemma pass_inv_next ls0 ls r (i j : nat) l0 d x l : pass_inv ls0 ls r i j -> j <> i -> ls0 !! j = Some l0 -> sorted l0 -> ls !! j = Some (d ++ x :: l) ->
  (forall y, y ∈ d -> recordId y < r) -> r < recordId x ->
  round_inv ls0 (<[j := l]> ls) x j /\ (forall z, common ls0 z -> r <= z -> recordId x <= z).
Proof.
  intros [H1 H2 H3 H4] Hji Hj0 Hs Hj Hd Hx. pose proof (lookup_lt_Some _ _ _ Hj) as Hlt. pose proof (H2 j _ _ Hj0 Hj) as Hle.
  pose proof (read_le_sorted _ _ _ Hle Hs) as Hs'. apply sorted_app, ids_sorted_cons in Hs' as [Hs' Hxl].
  pose proof (H3 j _ _ Hj0 Hj Hji ltac:(lia)) as Hlt0. split; [split; [constructor|]|].
  - by rewrite length_insert.
  - intros k l0' l1 Hk0 Hk. apply list_lookup_insert_Some in Hk as [(<- & <- & _)|(_ & Hk)].
    + rewrite Hj0 in Hk0. injection Hk0 as <-. apply (read_le_more r _ l0 d x l Hle); [lia| |lia]. intros y Hy. specialize (Hd y Hy). lia.
    + apply (read_le_mono r); [lia|]. by apply (H2 k).
  - intros k l0' l1 Hk0 Hk Hki _. apply list_lookup_insert_Some in Hk as [(<- & _ & _)|(_ & Hk)]; [done|].
    apply (read_le_lt r); [done|]. by apply (H2 k).
  - intros k l1 y Hk Hy [->|Hk']; [|lia]. rewrite list_lookup_insert_eq in Hk by done. injection Hk as <-. by apply Hxl.
  - exists l0. split; [done|]. apply (read_lt_first r l0 d x l Hlt0 Hd). lia.
  - intros z Hz Hr. pose proof (Forall_lookup_1 _ _ _ _ Hz Hj0) as (y & Hy & <-)%elem_ids.
    destruct Hlt0 as (d0 & -> & Hd0). apply elem_of_app in Hy as [Hy|Hy]; [specialize (Hd0 y Hy); lia|].
    apply elem_of_app in Hy as [Hy|Hy]; [specialize (Hd y Hy); lia|]. apply elem_of_cons in Hy as [->|Hy]; [done|by apply Hxl].
Qed.

(** The records that match: of each child its first record with the id. *)
Definition match_of (z : Z) (m : item) (l0 : list item) : Prop := first_with z l0 = Some m.

Lemma common_of_matches z ms ls : Forall2 (match_of z) ms ls -> common ls z.
Proof. unfold common. induction 1 as [|m l ms ls [Hm <-]%first_with_Some _ IH]; constructor; [by apply elem_ids_intro|done]. Qed.

Lemma pass_loop_run ls0 x (i : nat) l0i : Forall sorted ls0 -> ls0 !! i = Some l0i -> first_with (recordId x) l0i = Some x ->
  forall n fuel (j : nat) cs ls ms, (j + n = length ls0)%nat -> Forall2 delivers cs ls ->
  pass_inv ls0 ls (recordId x) i j -> (total ls < fuel)%nat -> Forall2 (match_of (recordId x)) ms (take j ls0) ->
  exists cs', (pass_loop next fuel cs x (Z.of_nat i) (seqZ (Z.of_nat j) (Z.of_nat n)) ms = Ok (cs', NoMoreRecords) /\
      forall z, common ls0 z -> z < recordId x) \/
    exists ls', Forall2 delivers cs' ls' /\
    ((exists y (i' : nat), pass_loop next fuel cs x (Z.of_nat i) (seqZ (Z.of_nat j) (Z.of_nat n)) ms = Ok (cs', NextRound y (Z.of_nat i')) /\
        (total ls' < total ls)%nat /\ round_inv ls0 ls' y i' /\ recordId x < recordId y /\ forall z, common ls0 z -> recordId x <= z -> recordId y <= z) \/
     (exists ms', pass_loop next fuel cs x (Z.of_nat i) (seqZ (Z.of_nat j) (Z.of_nat n)) ms = Ok (cs', Matches ms') /\
        (total ls' <= total ls)%nat /\ pass_inv ls0 ls' (recordId x) i (length ls0) /\ Forall2 (match_of (recordId x)) ms' ls0)).
Proof.
  intros Hs0 Hi Hx. induction n as [|n IH]; intros fuel j cs ls ms Hn Hcs Hinv Hf Hms.
  { exists cs. right. exists ls. split; [done|]. right. exists ms. split; [done|]. split; [done|]. replace j with (length ls0) in * by lia.
    split; [done|]. by rewrite firstn_all in Hms. }
  rewrite seqZ_cons by lia. cbn [pass_loop].
  replace (Z.succ (Z.of_nat j)) with (Z.of_nat (S j)) by lia. replace (Z.pred (Z.of_nat (S n))) with (Z.of_nat n) by lia.
  destruct (lookup_lt_is_Some_2 ls0 j) as [l0 Hj0]; [lia|]. pose proof (Forall_lookup_1 _ _ _ _ Hs0 Hj0) as Hsl0.
  destruct (lookup_lt_is_Some_2 ls j) as [l Hj]; [rewrite (pi_length _ _ _ _ _ Hinv); lia|].
  assert (forall m, match_of (recordId x) m l0 -> Forall2 (match_of (recordId x)) (ms ++ [m]) (take (S j) ls0)) as Hms'.
  { intros m Hm. rewrite (take_S_r _ _ _ Hj0). apply Forall2_app; [done|constructor; [exact Hm|constructor]]. }
  destruct (Z.eqb_spec (Z.of_nat j) (Z.of_nat i)) as [Eji|Eji].
  { assert (j = i) as -> by lia. apply IH; [lia|done|by apply pass_inv_skip|done|]. apply Hms'. unfold match_of. congruence. }
  assert (j <> i) as Hji by congruence.
  pose proof (pi_lt _ _ _ _ _ Hinv j l0 l Hj0 Hj Hji ltac:(lia)) as Hlt.
  destruct (advance_run (recordId x) l fuel cs ls j Hcs Hj (read_le_sorted _ _ _ (pi_le _ _ _ _ _ Hinv j l0 l Hj0 Hj) Hsl0))
    as (cs' & [[-> Hall]|(d & y & l' & -> & Hd & Hy & -> & Hcs')]).
  { pose proof (total_at ls j l Hj). lia. }
  - cbn [rbind]. exists cs'. left. split; [done|]. intros z Hz. destruct Hlt as (d0 & -> & Hd0).
    pose proof (Forall_lookup_1 _ _ _ _ Hz Hj0) as (y & Hy & <-)%elem_ids. apply elem_of_app in Hy as [Hy|Hy]; auto.
  - cbn [rbind]. pose proof (total_insert ls j _ l' Hj) as Ht. rewrite length_app in Ht. cbn [length] in Ht.
    destruct (Z.eqb_spec (recordId y) (recordId x)) as [Eyx|Eyx].
    + pose proof (pass_inv_match _ _ _ _ _ _ _ _ _ Hinv Hj0 Hsl0 Hj Hd Eyx) as Hinv'.
      destruct (IH fuel (S j) cs' (<[j := l']> ls) (ms ++ [y])) as (cs'' & [Hno|(ls' & Hls' & [Hnext|Hmatch])]); [lia|done|done|lia| |..].
      { apply Hms'. unfold match_of. rewrite <- Eyx. by apply (read_lt_first (recordId x) l0 d y l' Hlt Hd). }
      * exists cs''. by left.
      * exists cs''. right. exists ls'. split; [done|]. left. destruct Hnext as (y' & i' & H1 & H2 & H3). exists y', i'. split; [done|]. split; [lia|done].
      * exists cs''. right. exists ls'. split; [done|]. right. destruct Hmatch as (ms' & H1 & H2 & H3). exists ms'. split; [done|]. split; [lia|done].
    + destruct (pass_inv_next _ _ _ _ _ _ _ _ _ Hinv Hji Hj0 Hsl0 Hj Hd ltac:(lia)) as [H1 H2].
      exists cs'. right. exists (<[j := l']> ls). split; [done|]. left. exists y, j. split; [done|]. split; [lia|]. split; [done|]. split; [lia|done].
Qed.

Lemma round_loop_run ls0 : Forall sorted ls0 -> forall fuel cs ls x (i : nat) prev, Forall2 delivers cs ls -> round_inv ls0 ls x i -> (total ls < fuel)%nat ->
  exists cs', (round_loop next fuel cs x (Z.of_nat i) prev = Ok (cs', None) /\ forall z, common ls0 z -> z < recordId x) \/
    exists ls' y ms (i' : nat), round_loop next fuel cs x (Z.of_nat i) prev = Ok (cs', Some (combine computeAggregatedRuntimeScoreForAnd y ms)) /\
      Forall2 delivers cs' ls' /\ (total ls' <= total ls)%nat /\ pass_inv ls0 ls' (recordId y) i' (length ls0) /\
      Forall2 (match_of (recordId y)) ms ls0 /\ recordId x <= recordId y /\ forall z, common ls0 z -> recordId x <= z -> recordId y <= z.
Proof.
  intros Hs0. induction fuel as [|fuel IH]; intros cs ls x i prev Hcs [Hinv (l0 & Hi & Hx)] Hf; [lia|]. cbn [round_loop].
  pose proof (Forall2_length _ _ _ Hcs) as Hlen. rewrite Hlen, (pi_length _ _ _ _ _ Hinv).
  destruct (pass_loop_run ls0 x i l0 Hs0 Hi Hx (length ls0) (S fuel) 0 cs ls []) as (cs' & [[Hp Hno]|(ls' & Hcs' & [(y & i' & Hp & Ht & Hinv' & Hlt & Hmin)|(ms & Hp & Ht & Hinv' & Hms)])]);
    [lia|done|done|done|constructor|..]; change (Z.of_nat 0) with 0 in Hp; rewrite Hp; cbn [rbind].
  - exists cs'. by left.
  - destruct (IH cs' ls' y i' prev Hcs' Hinv') as (cs'' & [[Hr Hno]|(ls'' & y' & ms & i'' & Hr & Hcs'' & Ht' & Hinv'' & Hms & Hle & Hmin')]); [lia| |].
    + exists cs''. left. split; [done|]. intros z Hz. destruct (Z.lt_ge_cases z (recordId x)) as [|Hge]; [done|].
      specialize (Hno z Hz). specialize (Hmin z Hz Hge). lia.
    + exists cs''. right. exists ls'', y', ms, i''. split; [done|]. split; [done|]. split; [lia|]. split; [done|]. split; [done|].
      split; [lia|]. intros z Hz Hge. apply Hmin'; [done|by apply Hmin].
  - pose proof (Forall2_length _ _ _ Hms) as Hl1. pose proof (Forall2_length _ _ _ Hcs') as Hl2. rewrite Hl1, Hl2, (pi_length _ _ _ _ _ Hinv'), Z.eqb_refl.
    exists cs'. right. exists ls', x, ms, i. split; [done|]. split; [done|]. split; [done|]. split; [done|]. split; [done|]. split; [lia|done].
Qed.

(** The conjunction as an operator: its flag, its results so far and its children. *)
Definition merge_next (fuel : nat) (s : bool * list Z * list C) : result ((bool * list Z * list C) * option item) :=
  let? (more, prev, cs, r) := merge_getNext next fuel s.1.1 s.1.2 s.2 in Ok ((more, prev, cs), r).

(** No record of the streams is before an earlier result. *)
Definition after_results (prev : list Z) (ls : list (list item)) : Prop :=
  forall (k : nat) l x p, ls !! k = Some l -> x ∈ l -> p ∈ prev -> p <= recordId x.

Lemma first_candidate ls prev d x l : Forall sorted ls -> after_results prev ls -> ls !! 0%nat = Some (d ++ x :: l) ->
  (forall y, y ∈ d -> recordId y ∈ prev) -> recordId x ∉ prev ->
  round_inv ls (<[0%nat := l]> ls) x 0 /\ (forall p, p ∈ prev -> p < recordId x) /\ (forall z, common ls z -> z ∉ prev -> recordId x <= z).
Proof.
  intros Hs Hafter H0 Hd Hx. pose proof (Forall_lookup_1 _ _ _ _ Hs H0) as Hs0. apply sorted_app, ids_sorted_cons in Hs0 as [Hsl Hxl].
  pose proof (lookup_lt_Some _ _ _ H0) as Hlt.
  assert (forall p, p ∈ prev -> p < recordId x) as Hbehind.
  { intros p Hp. pose proof (Hafter 0%nat _ x p H0 ltac:(set_solver) Hp). destruct (decide (p = recordId x)) as [->|]; [done|lia]. }
  split; [split; [constructor|]|split; [done|]].
  - by rewrite length_insert.
  - intros k l0 l1 Hk0 Hk. apply list_lookup_insert_Some in Hk as [(<- & <- & _)|(_ & Hk)].
    + rewrite H0 in Hk0. injection Hk0 as <-. apply (read_le_more (recordId x) _ _ d x l (read_le_refl _ _)); [lia| |lia].
      intros y Hy%Hd%Hbehind. lia.
    + rewrite Hk in Hk0. injection Hk0 as <-. apply read_le_refl.
  - intros k l0 l1 Hk0 Hk Hk' _. apply list_lookup_insert_Some in Hk as [(<- & _)|(_ & Hk)]; [done|]. rewrite Hk in Hk0. injection Hk0 as <-. apply read_lt_refl.
  - intros k l1 y Hk Hy [->|Hk']; [|lia]. rewrite list_lookup_insert_eq in Hk by done. injection Hk as <-. by apply Hxl.
  - eexists. split; [exact H0|]. apply (read_lt_first (recordId x) _ d x l (read_lt_refl _ _)); [|lia]. intros y Hy. by apply Hbehind, Hd.
  - intros z Hz Hzp. pose proof (Forall_lookup_1 _ _ _ _ Hz H0) as (y & Hy & <-)%elem_ids. apply elem_of_app in Hy as [Hy|Hy]; [by apply Hd in Hy|].
    apply elem_of_cons in Hy as [->|Hy]; [done|by apply Hxl].
Qed.

Lemma merge_step fuel prev cs ls : Forall2 delivers cs ls -> Forall sorted ls -> ls <> [] -> after_results prev ls -> (total ls < fuel)%nat ->
  (exists s, merge_next fuel (true, prev, cs) = Ok (s, None) /\ forall z, common ls z -> z ∈ prev) \/
  exists cs' ls' y ms, merge_next fuel (true, prev, cs) =
      Ok ((true, prev ++ [recordId y], cs'), Some (combine computeAggregatedRuntimeScoreForAnd y ms)) /\
    Forall2 delivers cs' ls' /\ Forall2 (read_le (recordId y)) ls ls' /\ after_results (prev ++ [recordId y]) ls' /\ (total ls' < total ls)%nat /\
    Forall2 (match_of (recordId y)) ms ls /\ (forall p, p ∈ prev -> p < recordId y) /\ (forall z, common ls z -> z ∉ prev -> recordId y <= z).
Proof.
  intros Hcs Hs Hne Hafter Hf. destruct (lookup_lt_is_Some_2 ls 0) as [l H0]; [destruct ls; [done|cbn; lia]|].
  unfold merge_next, merge_getNext. cbn [fst snd]. pose proof (total_at ls 0 l H0) as Hl0.
  destruct (candidate_run prev l fuel cs ls 0 Hcs H0 ltac:(lia)) as (cs1 & [[Hc Hall]|(d & x & l' & -> & Hd & Hx & Hc & Hcs1)]);
    change (Z.of_nat 0) with 0 in Hc; rewrite Hc; cbn [rbind].
  { left. eexists. split; [done|]. intros z Hz. pose proof (Forall_lookup_1 _ _ _ _ Hz H0) as (y & Hy & <-)%elem_ids. by apply Hall. }
  pose proof (total_insert ls 0 _ l' H0) as Ht. rewrite length_app in Ht. cbn [length] in Ht.
  destruct (first_candidate ls prev d x l' Hs Hafter H0 Hd Hx) as (Hinv & Hbehind & Hfirst).
  destruct (round_loop_run ls Hs fuel cs1 _ x 0 prev Hcs1 Hinv ltac:(lia)) as (cs2 & [[Hr Hno]|(ls2 & y & ms & i' & Hr & Hcs2 & Ht2 & Hinv2 & Hms & Hle & Hmin)]);
    change (Z.of_nat 0) with 0 in Hr; rewrite Hr; cbn [rbind].
  - left. eexists. split; [done|]. intros z Hz. destruct (decide (z ∈ prev)) as [|Hzp]; [done|]. specialize (Hno z Hz). specialize (Hfirst z Hz Hzp). lia.
  - right. exists cs2, ls2, y, ms. split; [done|]. split; [done|]. pose proof (pi_length _ _ _ _ _ Hinv2) as Hlen2.
    split; [|split; [|split; [lia|split; [done|split]]]].
    + apply Forall2_same_length_lookup. split; [done|]. intros k l1 l2 H1 H2. by apply (pi_le _ _ _ _ _ Hinv2 k).
    + intros k l1 z p Hk Hz Hp. pose proof (lookup_lt_Some _ _ _ Hk) as Hkl.
      pose proof (pi_behind _ _ _ _ _ Hinv2 k l1 z Hk Hz ltac:(lia)). apply elem_of_app in Hp as [Hp|Hp]; [specialize (Hbehind p Hp); lia|].
      by apply list_elem_of_singleton in Hp as ->.
    + intros p Hp. specialize (Hbehind _ Hp). lia.
    + intros z Hz Hzp. apply Hmin; [done|by apply Hfirst].
Qed.

End Streams.

(** What a drained operator gave: strictly increasing ids. *)
Definition increasing (l : list item) : Prop := StronglySorted Z.lt (ids l).

Section Conjunction.
Context {C : Type} (next : C -> result (C * option item)).

Lemma merge_stream_run fuel : forall n prev cs ls, (total ls <= n)%nat -> Forall2 (delivers next) cs ls -> Forall sorted ls -> ls <> [] -> after_results prev ls -> (total ls < fuel)%nat ->
  exists out, delivers (merge_next next fuel) (true, prev, cs) out /\ increasing out /\ (length out <= total ls)%nat /\
    (forall z, z ∈ ids out <-> common ls z /\ z ∉ prev) /\ (forall z p, z ∈ ids out -> p ∈ prev -> p < z) /\
    forall y, y ∈ out -> exists x ms, y = combine computeAggregatedRuntimeScoreForAnd x ms /\ Forall2 (match_of (recordId y)) ms ls.
Proof.
  induction n as [|n IH]; intros prev cs ls Hn Hcs Hs Hne Hafter Hf;
    (destruct (merge_step next fuel prev cs ls Hcs Hs Hne Hafter Hf) as [(s & Hm & Hall)|(cs' & ls' & y & ms & Hm & Hcs' & Hle & Hafter' & Ht & Hms & Hprev & Hmin)]; [|try lia]).
  1,2: exists []; split; [by exists s|]; split; [constructor|]; split; [cbn; lia|]; split; [|split];
    [intros z; split; [intros Hz; by apply elem_of_nil in Hz|intros [Hz Hp]; by apply Hall in Hz]|intros z p Hz; by apply elem_of_nil in Hz|intros z Hz; by apply elem_of_nil in Hz].
  assert (forall z, recordId y < z -> common ls' z <-> common ls z) as Hcommon.
  { intros z Hz. unfold common. split; intros H; [|];
      apply Forall_lookup; intros k l Hk.
    - destruct (Forall2_lookup_l _ _ _ _ _ Hle Hk) as (l' & Hk' & Hl). apply (read_le_ids _ z _ _ Hl Hz). by apply (Forall_lookup_1 _ _ _ _ H Hk').
    - destruct (Forall2_lookup_r _ _ _ _ _ Hle Hk) as (l0 & Hk' & Hl). apply (read_le_ids _ z _ _ Hl Hz). by apply (Forall_lookup_1 _ _ _ _ H Hk'). }
  destruct (IH (prev ++ [recordId y]) cs' ls') as (out & Hout & Hinc & Hlen & Hids & Hord & Hitems); [lia|done| | |done|lia|].
  { apply Forall_lookup. intros k l Hk. destruct (Forall2_lookup_r _ _ _ _ _ Hle Hk) as (l0 & Hk' & Hl). apply (read_le_sorted _ _ _ Hl).
    by apply (Forall_lookup_1 _ _ _ _ Hs Hk'). }
  { intros ->. apply Forall2_length in Hle. destruct ls; done. }
  exists (combine computeAggregatedRuntimeScoreForAnd y ms :: out). split; [by eexists|]. split.
  { constructor; [exact Hinc|]. apply List.Forall_forall. intros z Hz%list_elem_of_In. apply (Hord z); [done|set_solver]. }
  split; [cbn [length]; lia|]. split; [|split].
  - intros z. change (ids (?a :: out)) with (recordId y :: ids out). rewrite elem_of_cons, Hids. split.
    + intros [->|[Hz Hzp]].
      * split; [by eapply common_of_matches|]. intros Hp. specialize (Hprev _ Hp). lia.
      * assert (recordId y < z) by (apply (Hord z); [by apply Hids|set_solver]). split; [by apply Hcommon|]. set_solver.
    + intros [Hz Hzp]. destruct (decide (z = recordId y)) as [|Hzy]; [by left|]. right. specialize (Hmin z Hz Hzp).
      split; [apply Hcommon; [lia|done]|]. rewrite elem_of_app, list_elem_of_singleton. by intros [].
  - intros z p. change (ids (?a :: out)) with (recordId y :: ids out). intros [->|Hz]%elem_of_cons Hp; [by apply Hprev|].
    apply (Hord z p Hz). set_solver.
  - intros w [->|Hw]%elem_of_cons; [by exists y, ms|]. destruct (Hitems w Hw) as (x & ms' & -> & Hms'). exists x, ms'. split; [done|].
    apply Forall2_same_length_lookup. pose proof (Forall2_length _ _ _ Hms') as Hl1. pose proof (Forall2_length _ _ _ Hle) as Hl2. split; [lia|].
    intros k m l Hk Hkl. destruct (Forall2_lookup_l _ _ _ _ _ Hle Hkl) as (l' & Hk' & Hl). pose proof (Forall2_lookup_lr _ _ _ _ _ _ Hms' Hk Hk') as Hmm.
    unfold match_of in *. rewrite <- (read_le_first _ _ _ _ Hl); [done|]. apply (Hord (recordId x)); [|set_solver].
    change (recordId x) with (recordId (combine computeAggregatedRuntimeScoreForAnd x ms')). by apply elem_ids_intro.
Qed.

(** The conjunction of sorted streams delivers the common ids once, in increasing
    order, each with the first matches of the streams. *)
Lemma merge_delivers fuel cs ls : Forall2 (delivers next) cs ls -> Forall sorted ls -> ls <> [] -> (total ls < fuel)%nat ->
  exists out, delivers (merge_next next fuel) (true, [], cs) out /\ increasing out /\ (length out <= total ls)%nat /\
    (forall z, z ∈ ids out <-> common ls z) /\
    forall y, y ∈ out -> exists x ms, y = combine computeAggregatedRuntimeScoreForAnd x ms /\ Forall2 (match_of (recordId y)) ms ls.
Proof.
  intros Hcs Hs Hne Hf. destruct (merge_stream_run fuel (total ls) [] cs ls) as (out & H1 & H2 & H3 & H4 & _ & H5); [done|done|done|done| |done|].
  - intros k l x p _ _ Hp. by apply elem_of_nil in Hp.
  - exists out. split; [done|]. split; [done|]. split; [done|]. split; [|done]. intros z. rewrite H4. split; [by intros []|]. intros Hz. split; [done|]. apply not_elem_of_nil.
Qed.

End Conjunction.
End PlanStreams.
