(* ===== verification/PlanUnion.v ===== *)
(** * Disjunction, sorting and verification of streams (core/operation/physical_plan/)

    What the operators that do not intersect their children deliver: the disjunction
    the ids of all its children once and in increasing order, the sorting operator the
    records of its child in order, and the operator over the shortest list the records
    of that list that every other child accepts. *)
From S2P Require Import Prelude ForwardList PlanOperators PlanStreams.
From Stdlib Require Import ZArith Lia List Bool Sorted.
From stdpp Require Import base list sets.
Open Scope Z_scope.

Module PlanUnion.
Import PlanOperators PlanStreams.

(** ** Disjunction *)

Section Disjunction.
Context {C : Type} (next : C -> result (C * option item)).

(** The record read ahead of a child, and what the child still delivers. *)
Definition holds (c : C) (o : option item) (l : list item) : Prop :=
  match o with None => l = [] | Some x => exists l', l = x :: l' /\ delivers next c l' end.

Lemma holds_next c l : delivers next c l -> exists c' o, next c = Ok (c', o) /\ holds c' o l.
Proof. destruct l as [|x l]; [intros (c' & H); by exists c', None|intros (c' & H & Hd); exists c', (Some x); split; [done|by exists l]]. Qed.

Lemma holds_head c o l : holds c o l -> o = hd_error l.
Proof. destruct o as [x|]; [by intros (l' & -> & _)|by intros ->]. Qed.

(** What is skipped of a stream was visited, and its next record was not. *)
Definition skipped (vis : list Z) (l0 l : list item) : Prop :=
  (exists d, l0 = d ++ l /\ forall y, y ∈ d -> recordId y ∈ vis) /\ forall x l', l = x :: l' -> recordId x ∉ vis.

Lemma skip_run vis l : forall fuel c o, holds c o l -> (length l <= fuel)%nat ->
  exists c' o' l', skip_loop next fuel c o vis = Ok (c', o') /\ holds c' o' l' /\ skipped vis l l'.
Proof.
  induction l as [|x l IH]; intros fuel c o Ho Hf.
  - pose proof (holds_head _ _ _ Ho) as ->. exists c, None, []. split; [by destruct fuel|]. split; [done|]. split; [exists []; split; [done|]|done].
    intros y Hy. by apply elem_of_nil in Hy.
  - pose proof (holds_head _ _ _ Ho) as ->. cbn [hd_error] in *. destruct Ho as (l0 & [= <-] & Hd).
    destruct (visited vis (recordId x)) eqn:E.
    + destruct fuel as [|fuel]; [cbn in Hf; lia|]. cbn [skip_loop]. rewrite E. destruct (holds_next c l Hd) as (c' & o & -> & Ho). cbn [rbind].
      cbn [length] in Hf. destruct (IH fuel c' o Ho ltac:(lia)) as (c'' & o' & l' & Hr & Ho' & (d & -> & Hdv) & Hh). exists c'', o', l'. split; [done|]. split; [done|].
      split; [|done]. exists (x :: d). split; [done|]. intros y [->|Hy]%elem_of_cons; [by apply visited_spec|by apply Hdv].
    + exists c, (Some x), (x :: l). split; [destruct fuel; cbn [skip_loop]; by rewrite E|]. split; [by exists l|]. split.
      * exists []. split; [done|]. intros y Hy. by apply elem_of_nil in Hy.
      * intros y l' [= -> _] Hv%visited_spec. congruence.
Qed.

Lemma skip_all_run fuel vis cs os ls : Forall3 holds cs os ls -> (total ls <= fuel)%nat ->
  exists cs' os' ls', skip_all next fuel cs os vis = Ok (cs', os') /\ Forall3 holds cs' os' ls' /\ Forall2 (skipped vis) ls ls'.
Proof.
  induction 1 as [|c o l cs os ls H _ IH]; intros Hf.
  { exists [], [], []. repeat constructor. }
  rewrite total_cons in Hf. cbn [skip_all].
  destruct (skip_run vis l fuel c o H ltac:(lia)) as (c' & o' & l' & -> & Ho & Hl). cbn [rbind].
  destruct IH as (cs' & os' & ls' & -> & Hos & Hls); [lia|]. cbn [rbind]. exists (c' :: cs'), (o' :: os'), (l' :: ls'). split; [done|]. split; by constructor.
Qed.

Lemma min_steps os : forall acc,
  match fold_left min_step os acc with
  | None => acc = None /\ forall o, o ∈ os -> o = None
  | Some m => (acc = Some m \/ Some m ∈ os) /\ forall r, acc = Some r \/ Some r ∈ os -> recordId m <= recordId r
  end.
Proof.
  induction os as [|o os IH]; intros acc; cbn [fold_left].
  - destruct acc as [m|]; [|split; [done|intros o Ho; by apply elem_of_nil in Ho]].
    split; [by left|]. intros r [[= ->]|Hr]; [lia|by apply elem_of_nil in Hr].
  - specialize (IH (min_step acc o)). destruct (fold_left min_step os (min_step acc o)) as [m|].
    + destruct IH as [Hm Hmin]. split.
      * destruct Hm as [Hm|Hm]; [|right; by right]. destruct o as [r|], acc as [r'|]; cbn [min_step] in Hm; try (by left); try (right; set_solver).
        destruct (_ || _); [right; set_solver|by left].
      * intros r Hr. assert (Some r ∈ os \/ acc = Some r \/ o = Some r) as [Hin|[->| ->]] by (destruct Hr as [|[->|]%elem_of_cons]; tauto); [apply Hmin; by right| |].
        -- destruct o as [r'|]; cbn [min_step] in Hmin; [|apply Hmin; by left].
           destruct ((recordId r' <? recordId r) || ((recordId r =? recordId r') && fgt (recordRuntimeScore r') (recordRuntimeScore r))) eqn:E; [|apply Hmin; by left].
           specialize (Hmin r' ltac:(by left)). apply orb_true_iff in E as [E|[E _]%andb_true_iff]; [apply Z.ltb_lt in E|apply Z.eqb_eq in E]; lia.
        -- destruct acc as [m'|]; cbn [min_step] in Hmin; [|apply Hmin; by left].
           destruct ((recordId r <? recordId m') || ((recordId m' =? recordId r) && fgt (recordRuntimeScore r) (recordRuntimeScore m'))) eqn:E; [apply Hmin; by left|].
           specialize (Hmin m' ltac:(by left)). apply orb_false_iff in E as [E _]. apply Z.ltb_ge in E. lia.
    + destruct IH as [Hn Hall]. destruct o as [r|], acc as [r'|]; cbn [min_step] in Hn; try done; [by destruct (_ || _)|].
      split; [done|]. intros o [->|Ho]%elem_of_cons; [done|by apply Hall].
Qed.

(** A stream without its first record when that has the id [z]. *)
Definition head_with (z : Z) (l : list item) : option item :=
  match l with [] => None | x :: _ => if recordId x =? z then Some x else None end.
Definition behind_head (z : Z) (l : list item) : list item :=
  match l with [] => [] | x :: l' => if recordId x =? z then l' else l end.

Lemma remove_min_run z cs os ls : Forall3 holds cs os ls ->
  exists cs' os', remove_min next cs os z = Ok (cs', os', omap (head_with z) ls) /\ Forall3 holds cs' os' (map (behind_head z) ls).
Proof.
  induction 1 as [|c o l cs os ls H _ (cs' & os' & Hr & Hos)]; [exists [], []; by repeat constructor|]. cbn [remove_min].
  pose proof (holds_head _ _ _ H) as Ho. destruct l as [|x l]; cbn [hd_error] in Ho; subst o.
  - cbn [rbind]. rewrite Hr. cbn [rbind]. exists (c :: cs'), (None :: os'). split; [done|]. by constructor.
  - destruct H as (l0 & [= <-] & Hd). cbn [map omap list_omap head_with behind_head]. destruct (recordId x =? z) eqn:E.
    + destruct (holds_next c l Hd) as (c' & o & -> & Ho). cbn [rbind]. rewrite Hr. cbn [rbind]. exists (c' :: cs'), (o :: os'). split; [done|]. by constructor.
    + cbn [rbind]. rewrite Hr. cbn [rbind]. exists (c :: cs'), (Some x :: os'). split; [done|]. constructor; [by exists l|done].
Qed.

Lemma heads_of cs os ls : Forall3 holds cs os ls -> os = map (@hd_error item) ls /\ length cs = length os.
Proof. induction 1 as [|c o l cs os ls H _ [-> IH]]; [done|]. cbn. split; [by rewrite (holds_head _ _ _ H)|by rewrite IH]. Qed.

(** Of a sorted stream whose records are not before [z], the first with the id [z] is
    at its head. *)
Lemma head_with_first z l : sorted l -> (forall x, x ∈ l -> z <= recordId x) -> head_with z l = first_with z l.
Proof.
  destruct l as [|x l]; [done|]. intros [_ Hx]%ids_sorted_cons Hz. cbn [head_with]. unfold first_with. cbn [List.find].
  destruct (Z.eqb_spec (recordId x) z) as [|Hne]; [done|]. pose proof (Hz x ltac:(set_solver)).
  destruct (List.find _ l) as [y|] eqn:E; [|done]. apply List.find_some in E as [Hy%list_elem_of_In E%Z.eqb_eq]. specialize (Hx y Hy). lia.
Qed.

(** The disjunction as an operator: its flag, the visited ids, the records read ahead
    and its children. *)
Definition union_next (fuel : nat) (s : bool * list Z * list (option item) * list C) :
    result ((bool * list Z * list (option item) * list C) * option item) :=
  let? (more, vis, os, cs, r) := union_getNext next fuel s.1.1.1 s.1.1.2 s.1.2 s.2 in Ok ((more, vis, os, cs), r).

Definition in_some (ls : list (list item)) (z : Z) : Prop := Exists (fun l => z ∈ ids l) ls.

Lemma skipped_behind vis ls ls' (k : nat) l l' : Forall sorted ls -> after_results vis ls -> Forall2 (skipped vis) ls ls' -> ls !! k = Some l -> ls' !! k = Some l' ->
  sorted l' /\ forall x p, x ∈ l' -> p ∈ vis -> p < recordId x.
Proof.
  intros Hs Ha Hsk Hk Hk'. destruct (Forall2_lookup_lr _ _ _ _ _ _ Hsk Hk Hk') as [(d & -> & Hd) Hh].
  pose proof (Forall_lookup_1 _ _ _ _ Hs Hk) as Hl%sorted_app. split; [done|]. destruct l' as [|y l']; [intros x p Hx; by apply elem_of_nil in Hx|].
  intros x p Hx Hp. specialize (Hh y l' eq_refl). pose proof (Ha k _ y p Hk ltac:(set_solver) Hp).
  assert (p <> recordId y) by (by intros ->). apply ids_sorted_cons in Hl as [_ Hl]. apply elem_of_cons in Hx as [->|Hx]; [lia|]. specialize (Hl x Hx). lia.
Qed.

Lemma skipped_read m vis l0 l : skipped vis l0 l -> (forall p, p ∈ vis -> p < recordId m) -> read_lt (recordId m) l0 l.
Proof. intros [(d & -> & Hd) _] Hp. exists d. split; [done|]. intros y Hy. by apply Hp, Hd. Qed.

Lemma read_behind_head z l0 l : read_lt z l0 l -> read_le z l0 (behind_head z l).
Proof.
  intros Hlt. assert (read_le z l0 l) as Hle by (destruct Hlt as (d & -> & Hd); exists d; split; [done|]; intros y Hy; specialize (Hd y Hy); lia).
  destruct l as [|x l]; [done|]. cbn [behind_head]. destruct (Z.eqb_spec (recordId x) z); [|done].
  apply (read_le_more z z l0 [] x l); [done|lia| |lia]. intros y Hy. by apply elem_of_nil in Hy.
Qed.

Lemma total_behind_head z ls : (total (map (behind_head z) ls) <= total ls)%nat /\
  (Exists (fun l => is_Some (head_with z l)) ls -> (total (map (behind_head z) ls) < total ls)%nat).
Proof.
  induction ls as [|l ls [IH1 IH2]]; [split; [done|by intros ?%Exists_nil]|]. cbn [map]. rewrite !total_cons. destruct l as [|x l]; cbn [behind_head].
  - split; [cbn; lia|]. intros [[y Hy]|H]%Exists_cons; [done|]. specialize (IH2 H). cbn. lia.
  - destruct (recordId x =? z) eqn:E; cbn [length]; (split; [lia|]); intros [[y Hy]|H]%Exists_cons; cbn [head_with] in *; rewrite ?E in *; try done; try lia.
    specialize (IH2 H). lia.
Qed.

Lemma total_skipped vis ls ls' : Forall2 (skipped vis) ls ls' -> (total ls' <= total ls)%nat.
Proof. induction 1 as [|l l' ls ls' [(d & -> & _) _] _ IH]; [done|]. rewrite !total_cons, length_app. lia. Qed.

(** The least record read ahead once the visited ones are skipped. *)
Lemma union_min vis cs os ls ls' m : Forall3 holds cs os ls' -> Forall sorted ls -> after_results vis ls -> Forall2 (skipped vis) ls ls' ->
  fold_left min_step os None = Some m ->
  (forall p, p ∈ vis -> p < recordId m) /\ (forall l x, l ∈ ls' -> x ∈ l -> recordId m <= recordId x) /\
  Exists (fun l => is_Some (head_with (recordId m) l)) ls' /\ in_some ls (recordId m).
Proof.
  intros Hh Hs Ha Hsk Hfold. destruct (heads_of _ _ _ Hh) as [Hos _]. pose proof (min_steps os None) as Hmin. rewrite Hfold in Hmin.
  destruct Hmin as [[?|Hm] Hmin]; [done|]. rewrite Hos in Hm, Hmin.
  apply list_elem_of_fmap in Hm as (l1 & Hml & Hl1). apply list_elem_of_lookup in Hl1 as (k & Hk). destruct l1 as [|m' l1]; [done|]. injection Hml as <-.
  destruct (Forall2_lookup_r _ _ _ _ _ Hsk Hk) as (l0 & Hk0 & (d & -> & _) & _). destruct (skipped_behind _ _ _ _ _ _ Hs Ha Hsk Hk0 Hk) as [_ Hp].
  split; [intros p; apply Hp; set_solver|]. split; [|split].
  - intros l x Hl Hx. apply list_elem_of_lookup in Hl as (i & Hi). destruct (Forall2_lookup_r _ _ _ _ _ Hsk Hi) as (l0' & Hi0 & _).
    destruct (skipped_behind _ _ _ _ _ _ Hs Ha Hsk Hi0 Hi) as [Hsl _]. destruct l as [|y l]; [by apply elem_of_nil in Hx|].
    assert (recordId m <= recordId y) by (apply Hmin; right; apply list_elem_of_fmap; exists (y :: l); split; [done|by eapply list_elem_of_lookup_2]).
    apply ids_sorted_cons in Hsl as [_ Hsl]. apply elem_of_cons in Hx as [->|Hx]; [done|]. specialize (Hsl x Hx). lia.
  - apply Exists_exists. exists (m :: l1). split; [by eapply list_elem_of_lookup_2|]. cbn [head_with]. by rewrite Z.eqb_refl.
  - apply Exists_exists. eexists. split; [by eapply list_elem_of_lookup_2|]. apply elem_ids. exists m. split; [set_solver|done].
Qed.

(** Its matches are the first records of the streams with its id. *)
Lemma union_matches vis ls ls' m : Forall2 (skipped vis) ls ls' -> Forall sorted ls -> (forall p, p ∈ vis -> p < recordId m) ->
  (forall l x, l ∈ ls' -> x ∈ l -> recordId m <= recordId x) -> omap (head_with (recordId m)) ls' = omap (first_with (recordId m)) ls.
Proof.
  intros Hsk Hs Hvis. induction Hsk as [|l l' ls ls1 Hl _ IH]; intros Hge; [done|]. apply Forall_cons in Hs as [Hs Hs'].
  cbn [omap list_omap]. rewrite IH by (try done; intros l2 x Hl2; apply Hge; by right).
  destruct (skipped_read m _ _ _ Hl Hvis) as (d & -> & Hd). rewrite (head_with_first _ l') by (try (by apply sorted_app in Hs); intros x; apply Hge; by left).
  rewrite first_with_app; [done|]. intros y Hy. specialize (Hd y Hy). lia.
Qed.

(** Nothing is left to read: every id was visited. *)
Lemma union_end vis cs os ls ls' : Forall3 holds cs os ls' -> Forall2 (skipped vis) ls ls' -> fold_left min_step os None = None ->
  forall z, in_some ls z -> z ∈ vis.
Proof.
  intros Hh Hsk Hfold. destruct (heads_of _ _ _ Hh) as [Hos _]. pose proof (min_steps os None) as Hmin. rewrite Hfold in Hmin. destruct Hmin as [_ Hn].
  intros z (l & Hl & Hz)%Exists_exists. apply list_elem_of_lookup in Hl as (i & Hi). destruct (Forall2_lookup_l _ _ _ _ _ Hsk Hi) as (l' & Hi1 & (d & -> & Hd) & _).
  assert (l' = []) as ->.
  { destruct l' as [|w l']; [done|]. specialize (Hn (Some w)). rewrite Hos in Hn. discriminate Hn. apply list_elem_of_fmap. exists (w :: l').
    split; [done|by eapply list_elem_of_lookup_2]. }
  rewrite app_nil_r in Hz. apply elem_ids in Hz as (x & Hx & <-). by apply Hd.
Qed.

Lemma union_step fuel vis os cs ls : Forall3 holds cs os ls -> Forall sorted ls -> after_results vis ls -> (total ls <= fuel)%nat ->
  (exists s, union_next fuel (true, vis, os, cs) = Ok (s, None) /\ forall z, in_some ls z -> z ∈ vis) \/
  exists cs' os' ls' m, union_next fuel (true, vis, os, cs) =
      Ok ((true, vis ++ [recordId m], os', cs'), Some (combine computeAggregatedRuntimeScoreForOr m (omap (first_with (recordId m)) ls))) /\
    Forall3 holds cs' os' ls' /\ Forall2 (read_le (recordId m)) ls ls' /\ after_results (vis ++ [recordId m]) ls' /\ (total ls' < total ls)%nat /\
    in_some ls (recordId m) /\ (forall p, p ∈ vis -> p < recordId m) /\ (forall z, in_some ls z -> z ∉ vis -> recordId m <= z).
Proof.
  intros Hh Hs Ha Hf. unfold union_next, union_getNext. cbn [fst snd].
  destruct (skip_all_run fuel vis cs os ls Hh Hf) as (cs1 & os1 & ls1 & -> & Hh1 & Hsk). cbn [rbind].
  destruct (heads_of _ _ _ Hh1) as [_ Hlen]. rewrite take_ge by lia.
  destruct (fold_left min_step os1 None) as [m|] eqn:Hfold; cbn [rbind]; [right|left; eexists; split; [done|by apply (union_end _ _ _ _ _ Hh1 Hsk)]].
  destruct (union_min _ _ _ _ _ _ Hh1 Hs Ha Hsk Hfold) as (Hvis & Hge & Hex & Hin).
  destruct (remove_min_run (recordId m) _ _ _ Hh1) as (cs2 & os2 & -> & Hh2). cbn [rbind].
  exists cs2, os2, (map (behind_head (recordId m)) ls1), m. split; [by rewrite (union_matches _ _ _ _ Hsk Hs Hvis Hge)|]. split; [done|].
  destruct (total_behind_head (recordId m) ls1) as [_ Ht]. specialize (Ht Hex). pose proof (total_skipped _ _ _ Hsk).
  split; [|split; [|split; [lia|split; [done|split; [done|]]]]].
  - apply Forall2_same_length_lookup. pose proof (Forall2_length _ _ _ Hsk). split; [by rewrite length_map|]. intros i l l2 Hi Hi2.
    apply list_lookup_fmap_Some in Hi2 as (l1' & -> & Hi1). apply read_behind_head, (skipped_read m vis); [|done]. by apply (Forall2_lookup_lr _ _ _ _ _ _ Hsk Hi Hi1).
  - intros i l x p Hi Hx Hpp. apply list_lookup_fmap_Some in Hi as (l1' & -> & Hi).
    assert (x ∈ l1') as Hx' by (destruct l1' as [|w l1']; [done|cbn [behind_head] in Hx; destruct (recordId w =? recordId m); [by right|done]]).
    pose proof (Hge l1' x ltac:(by eapply list_elem_of_lookup_2) Hx').
    apply elem_of_app in Hpp as [Hpp|Hpp]; [specialize (Hvis p Hpp); lia|]. by apply list_elem_of_singleton in Hpp as ->.
  - intros z (l & Hl & Hz)%Exists_exists Hzv. apply list_elem_of_lookup in Hl as (i & Hi). destruct (Forall2_lookup_l _ _ _ _ _ Hsk Hi) as (l1' & Hi1 & (d & -> & Hd) & _).
    apply elem_ids in Hz as (x & Hx & <-). apply elem_of_app in Hx as [Hx|Hx]; [by apply Hd in Hx|]. apply (Hge l1'); [by eapply list_elem_of_lookup_2|done].
Qed.

Lemma in_some_read z m ls ls' : Forall2 (read_le m) ls ls' -> m < z -> in_some ls' z <-> in_some ls z.
Proof.
  intros H Hz. unfold in_some. rewrite !Exists_exists. split.
  - intros (l' & Hl & Hi). apply list_elem_of_lookup in Hl as (k & Hk). destruct (Forall2_lookup_r _ _ _ _ _ H Hk) as (l & Hk' & Hr).
    exists l. split; [by eapply list_elem_of_lookup_2|by apply (read_le_ids _ z _ _ Hr Hz)].
  - intros (l & Hl & Hi). apply list_elem_of_lookup in Hl as (k & Hk). destruct (Forall2_lookup_l _ _ _ _ _ H Hk) as (l' & Hk' & Hr).
    exists l'. split; [by eapply list_elem_of_lookup_2|by apply (read_le_ids _ z _ _ Hr Hz)].
Qed.

Lemma firsts_read z m ls ls' : Forall2 (read_le m) ls ls' -> m < z -> omap (first_with z) ls' = omap (first_with z) ls.
Proof. intros H Hz. induction H as [|l l' ls ls' Hl _ IH]; [done|]. cbn [omap list_omap]. by rewrite IH, (read_le_first _ _ _ _ Hl Hz). Qed.

Lemma union_run fuel : forall n vis os cs ls, (total ls <= n)%nat -> Forall3 holds cs os ls -> Forall sorted ls -> after_results vis ls -> (total ls <= fuel)%nat ->
  exists out, delivers (union_next fuel) (true, vis, os, cs) out /\ increasing out /\ (length out <= total ls)%nat /\
    (forall z, z ∈ ids out <-> in_some ls z /\ z ∉ vis) /\ (forall z p, z ∈ ids out -> p ∈ vis -> p < z) /\
    forall y, y ∈ out -> exists x, y = combine computeAggregatedRuntimeScoreForOr x (omap (first_with (recordId y)) ls).
Proof.
  induction n as [|n IH]; intros vis os cs ls Hn Hh Hs Ha Hf;
    (destruct (union_step fuel vis os cs ls Hh Hs Ha Hf) as [(s & Hm & Hall)|(cs' & os' & ls' & m & Hm & Hh' & Hle & Ha' & Ht & Hin & Hvis & Hmin)]; [|try lia]).
  1,2: exists []; split; [by exists s|]; split; [constructor|]; split; [cbn; lia|]; split; [|split];
    [intros z; split; [intros Hz; by apply elem_of_nil in Hz|intros [Hz Hp]; by apply Hall in Hz]|intros z p Hz; by apply elem_of_nil in Hz|intros z Hz; by apply elem_of_nil in Hz].
  destruct (IH (vis ++ [recordId m]) os' cs' ls') as (out & Hout & Hinc & Hlen & Hids & Hord & Hitems); [lia|done| |done|lia|].
  { apply Forall_lookup. intros k l Hk. destruct (Forall2_lookup_r _ _ _ _ _ Hle Hk) as (l0 & Hk' & Hl). apply (read_le_sorted _ _ _ Hl).
    by apply (Forall_lookup_1 _ _ _ _ Hs Hk'). }
  set (y := combine _ m _) in Hm. exists (y :: out). split; [by eexists|].
  assert (forall z, z ∈ ids out -> recordId m < z) as Hbehind by (intros z Hz; apply (Hord z _ Hz); set_solver).
  split; [constructor; [exact Hinc|]; apply List.Forall_forall; intros z Hz%list_elem_of_In; by apply Hbehind|].
  split; [cbn [length]; lia|]. change (ids (y :: out)) with (recordId m :: ids out). split; [|split].
  - intros z. rewrite elem_of_cons, Hids. split.
    + intros [->|Hz]; [split; [done|]; intros Hp; specialize (Hvis _ Hp); lia|].
      pose proof (Hbehind z ltac:(by apply Hids)). destruct Hz as [Hz Hzv]. split; [by apply (in_some_read z _ _ _ Hle)|set_solver].
    + intros [Hz Hzv]. destruct (decide (z = recordId m)) as [|Hzm]; [by left|]. right. specialize (Hmin z Hz Hzv).
      split; [apply (in_some_read z _ _ _ Hle); [lia|done]|]. rewrite elem_of_app, list_elem_of_singleton. by intros [].
  - intros z p [->|Hz]%elem_of_cons Hp; [by apply Hvis|]. apply (Hord z p Hz). set_solver.
  - intros w [->|Hw]%elem_of_cons; [by exists m|]. destruct (Hitems w Hw) as (x & Hx). exists x.
    rewrite <- (firsts_read (recordId w) _ _ _ Hle); [done|]. by apply Hbehind, elem_ids_intro.
Qed.

(** The disjunction of sorted streams delivers the ids of all of them once, in
    increasing order, each with the first matches of the streams that have it. *)
Lemma union_delivers fuel os cs ls : Forall3 holds cs os ls -> Forall sorted ls -> (total ls <= fuel)%nat ->
  exists out, delivers (union_next fuel) (true, [], os, cs) out /\ increasing out /\ (length out <= total ls)%nat /\
    (forall z, z ∈ ids out <-> in_some ls z) /\
    forall y, y ∈ out -> exists x, y = combine computeAggregatedRuntimeScoreForOr x (omap (first_with (recordId y)) ls).
Proof.
  intros Hh Hs Hf. destruct (union_run fuel (total ls) [] os cs ls) as (out & H1 & H2 & H3 & H4 & _ & H5); [done|done|done| |done|].
  - intros k l x p _ _ Hp. by apply elem_of_nil in Hp.
  - exists out. split; [done|]. split; [done|]. split; [done|]. split; [|done]. intros z. rewrite H4. split; [by intros []|]. intros Hz. split; [done|]. apply not_elem_of_nil.
Qed.

End Disjunction.
End PlanUnion.
