(* ===== verification/PlanScan.v ===== *)
(** * The scan and the verification of a term (core/operation/physical_plan/)

    What the operators rely on of the indexes, as laws of an [IndexReader]; the scan
    of the inverted lists of a term delivers their records with a valid hit, list
    after list, and the verification of a record accepts it when one of the ranges of
    the term has a word of the record. *)
From S2P Require Import Prelude ForwardList PlanOperators PlanStreams.
From Stdlib Require Import ZArith Lia List Bool SpecFloat Sorted.
From stdpp Require Import base list sets.
Open Scope Z_scope.

Module PlanScan.
Import ForwardList(ATTRIBUTES_OP).
Import PlanOperators PlanStreams.

(** A filter that the forward lists can apply: its attributes in order, and some when
    all of them are asked for. *)
Definition filter_ok (attributes : list Z) (op : ATTRIBUTES_OP) : Prop :=
  StronglySorted Z.lt attributes /\ (op = ForwardList.ATTRIBUTES_OP_AND -> attributes <> []).

(** The records of the index are read without a fault, and whether a record has a hit
    does not depend on what the list of attributes holds before. *)
Class IndexLaws {I : Type} `{IndexReader I} (index : I) (known : Z -> Prop) := {
  offset_reads (record l : Z) rs : known record -> getInvertedListReadView index l = Ok rs -> record ∈ rs ->
    exists o, getKeywordOffset index record l = Ok o;
  hit_reads (record l o : Z) rs (attributes : list Z) (op : ATTRIBUTES_OP) : known record -> getInvertedListReadView index l = Ok rs -> record ∈ rs ->
    filter_ok attributes op -> getKeywordOffset index record l = Ok (Some o) ->
    exists b, forall matched, exists matched' score, isValidTermPositionHit index record o attributes op matched = Ok (b, matched', score);
  range_reads (record lo hi : Z) (attributes : list Z) (op : ATTRIBUTES_OP) : known record -> lo <= hi -> filter_ok attributes op ->
    exists o, haveWordInRange index record lo hi attributes op = Ok o }.

Section Scan.
Context {I : Type} `{IndexReader I} (index : I).

(** Whether a record has a valid hit for the keyword of an inverted list. *)
Definition has_hit (term : Term) (l record : Z) : bool :=
  match getKeywordOffset index record l with
  | Ok (Some o) =>
      match isValidTermPositionHit index record o (getAttributesToFilter term) (getFilterAttrOperation term) [] with Ok (b, _, _) => b | Err _ => false end
  | _ => false
  end.

(** Whether a record has a word in the range of an active node. *)
Definition in_range (term : Term) (record : Z) (a : active) : bool :=
  let maxId := match getTermType term with TERM_TYPE_COMPLETE => a_minId a | _ => a_maxId a end in
  match haveWordInRange index record (a_minId a) maxId (getAttributesToFilter term) (getFilterAttrOperation term) with Ok (Some _) => true | _ => false end.

Definition records_of (l : leaf) : list Z := match getInvertedListReadView index (l_list l) with Ok rs => rs | Err _ => [] end.

(** The entries of the inverted lists of a term, and those that the scan returns. *)
Definition entries (term : Term) : list (leaf * Z) := flat_map (fun l => map (pair l) (records_of l)) (leaves term).
Definition is_answer (term : Term) (e : leaf * Z) : bool := has_hit term (l_list e.1) e.2.
Definition scanned (term : Term) : list Z := map snd (List.filter (is_answer term) (entries term)).
Definition verified (term : Term) (record : Z) : bool := existsb (in_range term record) (actives term).

(** A term whose lists can be read; the ranges of a complete term are single words. *)
Record term_ok (known : Z -> Prop) (term : Term) : Prop := {
  to_lists : Forall (fun l => exists rs, getInvertedListReadView index (l_list l) = Ok rs /\ Forall known rs) (leaves term);
  to_actives : getTermType term = TERM_TYPE_COMPLETE -> Forall (fun a => a_terminal a = true) (actives term);
  to_ranges : Forall (fun a => a_minId a <= a_maxId a) (actives term);
  to_filter : filter_ok (getAttributesToFilter term) (getFilterAttrOperation term) }.

Context (known : Z -> Prop) `{!IndexLaws index known}.
Context (computeTermRecordRuntimeScore : Z -> Z -> Z -> bool -> float -> float -> float) (prefixMatchPenalty : float).
Context (pop_heap : (item -> item -> bool) -> list item -> option (item * list item)).

Local Abbreviation scan_getNext := (scan_getNext index computeTermRecordRuntimeScore prefixMatchPenalty).
Local Abbreviation verifyByRandomAccessHelper := (verifyByRandomAccessHelper index computeTermRecordRuntimeScore prefixMatchPenalty).

(** *** Reading a hit *)

Lemma hit_run term l record rs : term_ok known term -> known record -> getInvertedListReadView index l = Ok rs -> record ∈ rs ->
  exists o, getKeywordOffset index record l = Ok o /\
  forall matched, exists matched' score,
    match o with
    | Some o => isValidTermPositionHit index record o (getAttributesToFilter term) (getFilterAttrOperation term) matched
    | None => Ok (false, matched, 0)
    end = Ok (has_hit term l record, matched', score).
Proof.
  intros Hok Hk Hl Hr. destruct (offset_reads record l rs Hk Hl Hr) as [o Ho]. exists o. split; [done|]. unfold has_hit. rewrite Ho. destruct o as [o|].
  - destruct (hit_reads record l o rs _ _ Hk Hl Hr (to_filter _ _ Hok) Ho) as [b Hb].
    destruct (Hb []) as (m0 & s0 & ->). intros matched. apply Hb.
  - intros matched. by exists matched, 0.
Qed.

(** The lists of a scan: none is empty, and all are lists of the index. *)
Definition readable (lists : list (leaf * list Z)) : Prop :=
  Forall (fun p => p.2 <> [] /\ Forall known p.2 /\ getInvertedListReadView index (l_list p.1) = Ok p.2) lists.

(** *** Opening *)

Lemma open_lists_run term : term_ok known term -> exists lists,
  open_lists index (leaves term) [] = Ok lists /\ readable lists /\
  flat_map (fun p => map (pair p.1) p.2) lists = entries term.
Proof.
  intros [Hl _ _ _]. unfold entries. enough (forall acc, exists lists, open_lists index (leaves term) acc = Ok (acc ++ lists) /\
    readable lists /\ flat_map (fun p => map (pair p.1) p.2) lists = flat_map (fun l => map (pair l) (records_of l)) (leaves term)) as Hacc
    by (destruct (Hacc []) as (lists & Ho & Hlists); by exists lists).
  induction Hl as [|l ls (rs & Hr & Hrs) _ IH]; intros acc; cbn [open_lists flat_map].
  - exists []. rewrite app_nil_r. split; [done|]. split; [constructor|done].
  - unfold records_of at 1. rewrite Hr. cbn [rbind]. destruct rs as [|r rs].
    + cbn [length Z.of_nat Z.eqb map app]. apply IH.
    + rewrite (proj2 (Z.eqb_neq _ 0)) by (cbn [length]; lia). destruct (IH (acc ++ [(l, r :: rs)])) as (lists & -> & Hlists & Hflat).
      exists ((l, r :: rs) :: lists). rewrite <- app_assoc. split; [done|]. split; [by constructor|]. cbn [flat_map fst snd]. by rewrite Hflat.
Qed.

(** *** The position in the lists *)

(** The scan stands before the entries [es]. *)
Inductive at_entries (lists : list (leaf * list Z)) : Z -> Z -> list (leaf * Z) -> Prop :=
  | at_end cursor : at_entries lists (Z.of_nat (length lists)) cursor []
  | at_entry pre l (before : list Z) record after post : lists = pre ++ (l, before ++ record :: after) :: post ->
      at_entries lists (Z.of_nat (length pre)) (Z.of_nat (length before))
        ((l, record) :: map (pair l) after ++ flat_map (fun p => map (pair p.1) p.2) post).

Lemma at_start lists : readable lists -> at_entries lists 0 0 (flat_map (fun p => map (pair p.1) p.2) lists).
Proof.
  intros Hl. destruct lists as [|[l [|r rs]] lists]; [apply (at_end [])|by apply Forall_inv in Hl as []|]. by apply (at_entry _ [] l [] r rs lists).
Qed.

(** The next position: in the same list, in the next one, or behind the last. *)
Lemma at_next lists pre l before record after post : readable lists -> lists = pre ++ (l, before ++ record :: after) :: post ->
  let es := map (pair l) after ++ flat_map (fun p => map (pair p.1) p.2) post in
  let o := Z.of_nat (length pre) in let c := Z.of_nat (length before) in
  if c + 1 <? Z.of_nat (length (before ++ record :: after)) then at_entries lists o (c + 1) es
  else at_entries lists (o + 1) 0 es /\ (o + 1 <? Z.of_nat (length lists)) = negb (match es with [] => true | _ => false end).
Proof.
  intros Hl E es o c. rewrite length_app. cbn [length]. destruct after as [|a after].
  - rewrite (proj2 (Z.ltb_ge _ _)) by (cbn [length]; lia). subst es. cbn [map app]. destruct post as [|[l' [|r' rs']] post].
    + cbn [flat_map negb]. replace (o + 1) with (Z.of_nat (length lists)) by (subst; rewrite length_app; cbn [length]; lia).
      split; [constructor|]. by rewrite Z.ltb_irrefl.
    + unfold readable in Hl. rewrite E in Hl. apply Forall_app in Hl as [_ Hl%Forall_inv_tail%Forall_inv]. by destruct Hl.
    + cbn [flat_map map app fst snd negb]. split.
      * replace (o + 1) with (Z.of_nat (length (pre ++ [(l, before ++ [record])]))) by (rewrite length_app; cbn [length]; lia).
        apply (at_entry lists _ l' [] r' rs' post). by rewrite E, <- app_assoc.
      * apply Z.ltb_lt. rewrite E, length_app. cbn [length]. lia.
  - rewrite (proj2 (Z.ltb_lt _ _)) by (cbn [length]; lia). subst es. cbn [map app].
    replace (c + 1) with (Z.of_nat (length (before ++ [record]))) by (rewrite length_app; cbn [length]; lia).
    apply (at_entry lists pre l (before ++ [record]) a after post). by rewrite E, <- app_assoc.
Qed.

Lemma entry_known lists pre l before record after post : readable lists -> lists = pre ++ (l, before ++ record :: after) :: post ->
  known record /\ exists rs, getInvertedListReadView index (l_list l) = Ok rs /\ record ∈ rs.
Proof.
  intros Hl E. unfold readable in Hl. rewrite E in Hl. apply Forall_app in Hl as [_ [_ Hr]%Forall_inv]. cbn [snd] in Hr.
  destruct Hr as [Hr Hv]. split; [by apply Forall_app in Hr as [_ Hr%Forall_inv]|]. eexists. split; [exact Hv|]. apply list_elem_of_In. cbn [snd]. apply in_elt.
Qed.

(** The loop finds the first of the entries with a valid hit. *)
Lemma scan_loop_run term lists : term_ok known term -> readable lists -> forall es fuel offset cursor matched, at_entries lists offset cursor es -> es <> [] -> (length es <= fuel)%nat ->
  (exists o c, scan_loop index fuel term lists offset cursor matched = Ok (None, o, c) /\ at_entries lists o c [] /\ List.filter (is_answer term) es = []) \/
  (exists pre l before record after post m s d, scan_loop index fuel term lists offset cursor matched =
      Ok (Some (record, m, s), Z.of_nat (length pre), Z.of_nat (length before)) /\
    lists = pre ++ (l, before ++ record :: after) :: post /\ is_answer term (l, record) = true /\ List.filter (is_answer term) d = [] /\
    es = d ++ (l, record) :: map (pair l) after ++ flat_map (fun p => map (pair p.1) p.2) post).
Proof.
  intros Hok Hl. induction es as [|e es IH]; intros fuel offset cursor matched Hat Hne Hf; [done|]. destruct fuel as [|fuel]; [cbn in Hf; lia|].
  cbn [length] in Hf. inversion Hat as [|pre l before record after post E Ho Hc He]; subst e es offset cursor. clear Hat.
  assert (vec_at lists (Z.of_nat (length pre)) = Ok (l, before ++ record :: after)) as Hat by (rewrite E; apply vec_at_app).
  cbn [scan_loop]. rewrite Hat. cbn [rbind snd fst]. rewrite vec_at_app. cbn [rbind].
  destruct (entry_known _ _ _ _ _ _ _ Hl E) as (Hkn & rs & Hrs & Hin). destruct (hit_run term (l_list l) record rs Hok Hkn Hrs Hin) as (o & -> & Hhit). cbn [rbind].
  destruct (Hhit matched) as (m & s & ->). cbn [rbind].
  destruct (has_hit term (l_list l) record) eqn:Eh.
  { right. exists pre, l, before, record, after, post, m, s, []. done. }
  pose proof (at_next _ _ _ _ _ _ _ Hl E) as Hn. cbv zeta in Hn. set (es := map (pair l) after ++ _) in *.
  assert (List.filter (is_answer term) ((l, record) :: es) = List.filter (is_answer term) es) as Hfil by (cbn [List.filter]; unfold is_answer at 1; cbn [fst snd]; by rewrite Eh).
  rewrite Hfil.
  assert (forall o c, at_entries lists o c es -> es <> [] ->
    (exists o' c', scan_loop index fuel term lists o c m = Ok (None, o', c') /\ at_entries lists o' c' [] /\ List.filter (is_answer term) es = []) \/
    (exists pre' l' before' record' after' post' m' s' d, scan_loop index fuel term lists o c m =
      Ok (Some (record', m', s'), Z.of_nat (length pre'), Z.of_nat (length before')) /\
      lists = pre' ++ (l', before' ++ record' :: after') :: post' /\ is_answer term (l', record') = true /\ List.filter (is_answer term) d = [] /\
      (l, record) :: es = d ++ (l', record') :: map (pair l') after' ++ flat_map (fun p => map (pair p.1) p.2) post')) as Hrec.
  { intros o' c' Hato Hne'. destruct (IH fuel o' c' m Hato Hne' ltac:(lia)) as [Hnone|(pre' & l' & before' & record' & after' & post' & m' & s' & d & Hr & E' & Ha & Hd & Hes)]; [by left|].
    right. exists pre', l', before', record', after', post', m', s', ((l, record) :: d). split; [done|]. split; [done|]. split; [done|]. split; [|by rewrite Hes].
    cbn [List.filter]. unfold is_answer at 1. cbn [fst snd]. by rewrite Eh. }
  destruct (_ + 1 <? Z.of_nat (length (before ++ _))) eqn:Ec.
  - assert (es = [] \/ es <> []) as [Hes|Hes] by (destruct es; [by left|by right]); [|by apply Hrec]. exfalso. rewrite Hes in Hn. inversion Hn as [c Ho Hc|]. subst c.
    rewrite E, length_app in Ho. cbn [length] in Ho. lia.
  - destruct Hn as [Hn Hlt]. rewrite Hlt. destruct es as [|e es]; cbn [negb]; [|by apply Hrec]. left. exists (Z.of_nat (length pre) + 1), 0. done.
Qed.

(** *** Delivering *)

(** A score that the scan gives. *)
Definition scan_score (term : Term) (x : float) : Prop :=
  exists s d b, x = fmul (computeTermRecordRuntimeScore s d (keywordSize term) b prefixMatchPenalty (getSimilarityBoost term)) (getBoost term).

Lemma scan_step fuel term lists es offset cursor : term_ok known term -> readable lists -> at_entries lists offset cursor es -> (length es <= fuel)%nat ->
  (exists o c, scan_getNext fuel term lists offset cursor = Ok (UnionLowestLevelSimpleScan term lists o c, None) /\ List.filter (is_answer term) es = []) \/
  (exists o c x l es', scan_getNext fuel term lists offset cursor = Ok (UnionLowestLevelSimpleScan term lists o c, Some x) /\ at_entries lists o c es' /\
    (length es' < length es)%nat /\ List.filter (is_answer term) es = (l, recordId x) :: List.filter (is_answer term) es' /\ scan_score term (recordRuntimeScore x)).
Proof.
  intros Hok Hl Hat Hf. unfold PlanOperators.scan_getNext.
  assert (es = [] \/ es <> []) as [Hes|Hes] by (destruct es; [by left|by right]).
  { left. exists offset, cursor. subst es. inversion Hat; subst. by rewrite Z.leb_refl. }
  assert (exists l rs, vec_at lists offset = Ok (l, rs) /\ (cursor <? Z.of_nat (length rs)) = true /\ (Z.of_nat (length lists) <=? offset) = false) as (l0 & rs0 & Hv & Hc & Ho).
  { inversion Hat as [|pre l before record after post E]; subst es; [done|]. exists l, (before ++ record :: after). rewrite E at 1. split; [apply vec_at_app|].
    split; [apply Z.ltb_lt; rewrite length_app; cbn [length]; lia|]. apply Z.leb_gt. rewrite E, length_app. cbn [length]. lia. }
  rewrite Ho, Hv. cbn [rbind snd]. rewrite Hc. cbn [negb].
  destruct (scan_loop_run term lists Hok Hl es fuel offset cursor [] Hat Hes Hf) as [(o & c & -> & _ & Hfil)|(pre & l & before & record & after & post & m & s & d & -> & E & Ha & Hd & Hsplit)]; cbn [rbind].
  { left. by exists o, c. }
  right. pose proof (at_next _ _ _ _ _ _ _ Hl E) as Hn. cbv zeta in Hn. set (es' := map (pair l) after ++ _) in *.
  assert (vec_at lists (Z.of_nat (length pre)) = Ok (l, before ++ record :: after)) as -> by (rewrite E; apply vec_at_app). cbn [rbind fst snd].
  assert (length es' < length es)%nat as Hlen by (rewrite Hsplit, length_app; cbn [length]; lia).
  assert (List.filter (is_answer term) es = (l, record) :: List.filter (is_answer term) es') as Hfil
    by (rewrite Hsplit, List.filter_app, Hd; cbn [app List.filter]; by rewrite Ha).
  rewrite Z.leb_antisym. destruct (_ + 1 <? _) eqn:Ec; cbn [negb fst snd]; (do 2 eexists; eexists (mk_item record _ _ _ _ _ _ _), l, es'; split; [done|]).
  - split; [done|]. split; [done|]. split; [done|]. by do 3 eexists.
  - destruct Hn as [Hn _]. split; [exact Hn|]. split; [done|]. split; [done|]. by do 3 eexists.
Qed.

(** The scan delivers the entries with a valid hit, in the order of the lists. *)
Lemma scan_delivers (next : node -> result (node * option item)) fuel term lists :
  (forall o c, next (UnionLowestLevelSimpleScan term lists o c) = scan_getNext fuel term lists o c) -> term_ok known term -> readable lists ->
  forall n es offset cursor, (length es <= n)%nat -> at_entries lists offset cursor es -> (length es <= fuel)%nat ->
  exists out, delivers next (UnionLowestLevelSimpleScan term lists offset cursor) out /\ ids out = map snd (List.filter (is_answer term) es) /\
    Forall (fun x => scan_score term (recordRuntimeScore x)) out.
Proof.
  intros Hnext Hok Hl. induction n as [|n IH]; intros es offset cursor Hn Hat Hf;
    (destruct (scan_step fuel term lists es offset cursor Hok Hl Hat Hf) as [(o & c & Hs & Hfil)|(o & c & x & l & es' & Hs & Hat' & Hlen & Hfil & Hx)]; [|try lia]).
  1,2: exists []; rewrite Hfil; split; [cbn [delivers]; eexists; by rewrite Hnext|]; by split.
  destruct (IH es' o c) as (out & Hout & Hids & Hsc); [lia|done|lia|]. exists (x :: out). rewrite Hfil. split; [|split].
  - cbn [delivers]. eexists. by rewrite Hnext.
  - cbn [map snd]. rewrite <- Hids. done.
  - by constructor.
Qed.

(** ** Verification *)

Lemma verify_term_run term record p : known record -> term_ok known term ->
  exists p', verifyByRandomAccessHelper term record p = Ok (verified term record, p').
Proof.
  intros Hk [_ Ha Hr Hflt]. unfold PlanOperators.verifyByRandomAccessHelper, verified.
  assert (Forall (fun a => getTermType term = TERM_TYPE_COMPLETE -> a_terminal a = true) (actives term)) as Ha'.
  { destruct (getTermType term) eqn:E; try (apply Forall_forall; intros; congruence). eapply Forall_impl; [by apply Ha|done]. }
  clear Ha. revert Hr. induction Ha' as [|a ranges Ha _ IH]; cbn [verify_ranges existsb]; [intros _; by exists p|]. intros [Hr Hrs]%Forall_cons.
  assert (match getTermType term with TERM_TYPE_COMPLETE => negb (a_terminal a) | _ => false end = false) as ->
    by (destruct (getTermType term); try done; by rewrite Ha).
  unfold in_range at 1.
  destruct (range_reads record (a_minId a) (match getTermType term with TERM_TYPE_COMPLETE => a_minId a | _ => a_maxId a end)
    (getAttributesToFilter term) (getFilterAttrOperation term) Hk ltac:(destruct (getTermType term); lia) Hflt) as [o ->]. cbn [rbind].
  destruct o as [[[mid m] s]|]; cbn [orb]; [by eexists|]. by apply IH.
Qed.

End Scan.
End PlanScan.
