(* ===== verification/PlanScores.v ===== *)
(** * Scores and the heap of the sorting operator (core/ranking/Ranker.cpp,
    core/operation/physical_plan/SortByIdOperator.cpp)

    Scores that are not negative stay so under the aggregations of conjunction and
    disjunction, and the comparator of the heap is a strict weak order on records with
    such scores, so that a heap returns the records of its child in the order of their
    ids. *)
From S2P Require Import Prelude ForwardList PlanOperators PlanStreams.
From Stdlib Require Import ZArith Lia List Bool SpecFloat Sorted.
From stdpp Require Import base list sets.
Open Scope Z_scope.

Module PlanScores.
Import PlanOperators PlanStreams.

(** ** Scores that are not negative *)

(** Neither a number below zero nor a NaN. *)
Definition nonneg (x : float) : Prop :=
  match x with S754_zero _ | S754_infinity false | S754_finite false _ _ => True | _ => False end.

Lemma shr_1_nonneg r : 0 <= shr_m r -> 0 <= shr_m (shr_1 r).
Proof. destruct r as [[|[p|p|]|p] b s]; cbn; lia. Qed.

Lemma iter_pos_ind {A} (f : A -> A) (P : A -> Prop) : (forall x, P x -> P (f x)) -> forall p x, P x -> P (SpecFloat.iter_pos f p x).
Proof. intros Hf. induction p as [p IH|p IH|]; intros x Hx; cbn [SpecFloat.iter_pos]; auto. Qed.

Lemma shr_nonneg m e n l : 0 <= m -> 0 <= shr_m (fst (shr (shr_record_of_loc m l) e n)).
Proof.
  intros Hm. assert (0 <= shr_m (shr_record_of_loc m l)) by (by destruct l as [|[]]). unfold shr. destruct n as [|p|p]; cbn [fst]; [done| |done].
  by apply (iter_pos_ind shr_1 (fun r => 0 <= shr_m r)); [apply shr_1_nonneg|].
Qed.

Lemma binary_round_nonneg prec emax m e : nonneg (binary_round prec emax false m e).
Proof.
  unfold binary_round. destruct (shl_align _ _ _) as [mz ez]. unfold binary_round_aux, shr_fexp.
  pose proof (shr_nonneg (Zpos mz) ez (fexp prec emax (Zdigits2 (Zpos mz) + ez) - ez) loc_Exact ltac:(lia)) as H1.
  destruct (shr _ ez _) as [r1 e1]. cbn [fst] in H1.
  assert (0 <= round_nearest_even (shr_m r1) (loc_of_shr_record r1)) as H2.
  { unfold round_nearest_even. destruct (loc_of_shr_record r1) as [|[]]; try lia. destruct (Z.even _); lia. }
  pose proof (shr_nonneg _ e1 (fexp prec emax (Zdigits2 (round_nearest_even (shr_m r1) (loc_of_shr_record r1)) + e1) - e1) loc_Exact H2) as H3.
  destruct (shr _ e1 _) as [r2 e2]. cbn [fst] in H3. destruct (shr_m r2) as [|p|p]; [done| |lia]. by destruct (_ <=? _).
Qed.

Lemma fadd_nonneg x y : nonneg x -> nonneg y -> nonneg (fadd x y).
Proof.
  intros Hx Hy. unfold fadd. destruct x as [[]|[]| |[] mx ex]; try done; destruct y as [[]|[]| |[] my ey]; try done;
    apply binary_round_nonneg.
Qed.

Lemma score_for_and_nonneg l : Forall nonneg l -> nonneg (computeAggregatedRuntimeScoreForAnd l).
Proof.
  unfold computeAggregatedRuntimeScoreForAnd. intros H. assert (nonneg f_zero) as H0 by done. revert H0. generalize f_zero.
  induction H as [|x l Hx _ IH]; intros a Ha; cbn [fold_left]; [done|]. by apply IH, fadd_nonneg.
Qed.

(** The maximum is one of the scores when none is negative. *)
Lemma score_for_or_nonneg l : Forall nonneg l -> l <> [] -> nonneg (computeAggregatedRuntimeScoreForOr l).
Proof.
  unfold computeAggregatedRuntimeScoreForOr. set (step := fun resultScore score => if fgt score resultScore then score else resultScore).
  assert (forall l a, Forall nonneg l -> nonneg a -> nonneg (fold_left step l a)) as Hstep.
  { clear l. induction l as [|x l IH]; intros a [Hx Hl]%Forall_cons Ha || intros a _ Ha; cbn [fold_left]; [done|]. apply IH; [done|]. unfold step. by destruct (fgt x a). }
  destruct l as [|x l]; [done|]. intros [Hx Hl]%Forall_cons _. cbn [fold_left]. apply Hstep; [done|].
  assert (step f_minus_one x = x) as ->; [|done]. unfold step, fgt, f_minus_one. by destruct x as [[]|[]| |[] mx ex].
Qed.

(** ** The order of such scores *)

Definition score_key (x : float) : Z * Z * Z :=
  match x with S754_zero _ => (0, 0, 0) | S754_finite _ m e => (1, e, Zpos m) | _ => (2, 0, 0) end.

Definition key_lt (a b : Z * Z * Z) : Prop :=
  a.1.1 < b.1.1 \/ a.1.1 = b.1.1 /\ (a.1.2 < b.1.2 \/ a.1.2 = b.1.2 /\ a.2 < b.2).

Lemma fgt_key x y : nonneg x -> nonneg y -> fgt y x = true <-> key_lt (score_key x) (score_key y).
Proof.
  intros Hx Hy. unfold fgt, SFltb, key_lt. destruct x as [sx|[]| |[] mx ex]; try done; destruct y as [sy|[]| |[] my ey]; try done; cbn; try (split; [intros ?; lia|done]); try (split; [done|lia]).
  change (Pos.compare_cont Eq mx my) with (Pos.compare mx my).
  destruct (Z.compare_spec ex ey), (Pos.compare_spec mx my); split; try done; lia.
Qed.

(** ** The heap *)

(** What the standard library asks of the comparator of a heap. *)
Record strict_weak {A} (cmp : A -> A -> bool) (l : list A) : Prop := {
  sw_irrefl x : x ∈ l -> cmp x x = false;
  sw_trans x y z : x ∈ l -> y ∈ l -> z ∈ l -> cmp x y = true -> cmp y z = true -> cmp x z = true;
  sw_ntrans x y z : x ∈ l -> y ∈ l -> z ∈ l -> cmp x y = false -> cmp y z = false -> cmp x z = false }.

(** [pop_heap] gives a record that no other is greater than, and the others. *)
Definition pops_greatest (pop_heap : (item -> item -> bool) -> list item -> option (item * list item)) : Prop :=
  forall cmp l, l <> [] -> strict_weak cmp l -> exists x rest, pop_heap cmp l = Some (x, rest) /\ Permutation (x :: rest) l /\ Forall (fun y => cmp x y = false) rest.

Lemma comparator_key x y : nonneg (recordRuntimeScore x) -> nonneg (recordRuntimeScore y) -> SortByIdRecordMinHeapComparator x y = true <->
  recordId y < recordId x \/ recordId x = recordId y /\ key_lt (score_key (recordRuntimeScore x)) (score_key (recordRuntimeScore y)).
Proof.
  intros Hx Hy. unfold SortByIdRecordMinHeapComparator. destruct (Z.eqb_spec (recordId x) (recordId y)) as [E|E].
  - rewrite (fgt_key _ _ Hx Hy). split; [by right|]. intros [?|[_ ?]]; [lia|done].
  - rewrite Z.ltb_lt. split; [by left|]. intros [?|[? _]]; [done|lia].
Qed.

Lemma comparator_strict_weak l : Forall (fun x => nonneg (recordRuntimeScore x)) l -> strict_weak SortByIdRecordMinHeapComparator l.
Proof.
  intros Hl. rewrite Forall_forall in Hl. unfold key_lt in *. constructor.
  - intros x Hx. apply not_true_iff_false. rewrite comparator_key by auto. unfold key_lt. lia.
  - intros x y z Hx Hy Hz. rewrite !comparator_key by auto. unfold key_lt. lia.
  - intros x y z Hx Hy Hz. rewrite <- !not_true_iff_false, !comparator_key by auto. unfold key_lt. lia.
Qed.

Section Sorting.
Context (pop_heap : (item -> item -> bool) -> list item -> option (item * list item)) (Hpop : pops_greatest pop_heap).

Lemma sort_step l : Forall (fun x => nonneg (recordRuntimeScore x)) l -> l <> [] ->
  exists x rest, sort_getNext pop_heap l = Ok (rest, Some x) /\ Permutation (x :: rest) l /\ forall y, y ∈ rest -> recordId x <= recordId y.
Proof.
  intros Hn Hl. unfold sort_getNext. rewrite (proj2 (Z.eqb_neq _ 0)) by (destruct l; [done|cbn [length]; lia]).
  destruct (Hpop _ l Hl (comparator_strict_weak l Hn)) as (x & rest & -> & Hp & Hmax). exists x, rest. split; [done|]. split; [done|].
  rewrite <- Hp in Hn. apply Forall_cons in Hn as [Hx Hn]. rewrite Forall_forall in Hn, Hmax.
  intros y Hy. specialize (Hmax y Hy). apply not_true_iff_false in Hmax. rewrite comparator_key in Hmax by auto. lia.
Qed.

(** The sorting operator delivers its records in the order of their ids. *)
Lemma sort_delivers (next : node -> result (node * option item)) child :
  (forall l, next (SortById l child) = let? (l, r) := sort_getNext pop_heap l in Ok (SortById l child, r)) ->
  forall n l, (length l <= n)%nat -> Forall (fun x => nonneg (recordRuntimeScore x)) l ->
  exists out, delivers next (SortById l child) out /\ Permutation out l /\ sorted out.
Proof.
  intros Hnext. induction n as [|n IH]; intros l Hn Hs; (destruct l as [|x0 l0]; [|try (cbn in Hn; lia)]).
  1,2: exists []; split; [cbn [delivers]; rewrite Hnext; by eexists|]; split; [done|constructor].
  destruct (sort_step (x0 :: l0) Hs ltac:(done)) as (x & rest & Hr & Hp & Hmin). pose proof (Permutation_length Hp) as Hlen. cbn [length] in Hlen, Hn.
  destruct (IH rest) as (out & Hout & Hperm & Hsort); [lia|rewrite <- Hp in Hs; by apply Forall_cons in Hs as [_ Hs]|].
  exists (x :: out). split; [cbn [delivers]; rewrite Hnext, Hr; by eexists|]. split; [by rewrite Hperm|].
  constructor; [exact Hsort|]. apply List.Forall_forall. intros z Hz%list_elem_of_In%elem_ids. destruct Hz as (y & Hy & <-). apply Hmin. by rewrite <- Hperm.
Qed.

End Sorting.

(** ** Reading a child to its end *)

Lemma filter_nothing {A} (f : A -> bool) l : (forall x, x ∈ l -> f x = false) -> List.filter f l = [].
Proof. induction l as [|x l IH]; intros H; cbn [List.filter]; [done|]. rewrite H by (by left). apply IH. intros y Hy. apply H. by right. Qed.

Lemma drain_run {C} (next : C -> result (C * option item)) l : forall fuel c acc, delivers next c l -> (length l < fuel)%nat ->
  exists c', drain next fuel c acc = Ok (c', acc ++ l).
Proof.
  induction l as [|x l IH]; intros [|fuel] c acc Hd Hf; try (cbn in Hf; lia); cbn [drain].
  - destruct Hd as (c' & ->). exists c'. by rewrite app_nil_r.
  - destruct Hd as (c' & -> & Hd). cbn [rbind]. cbn [length] in Hf. destruct (IH fuel c' (acc ++ [x]) Hd ltac:(lia)) as (c'' & ->).
    exists c''. by rewrite <- app_assoc.
Qed.

(** ** Verification of the records of the shortest list *)

Section Shortest.
Context {C : Type} (next : C -> result (C * option item)) (verify : Z -> C -> VerificationParameters -> result (bool * VerificationParameters)).
Context (indeterminate : VerificationParameters) (known : Z -> Prop) (accept : C -> Z -> bool).

Definition verifies (c : C) : Prop := forall r p, known r -> exists p', verify r c p = Ok (accept c r, p').

(** Every child but the one at [i] accepts the record. *)
Fixpoint others_accept (children : list C) (offset i : Z) (r : Z) : bool :=
  match children with
  | [] => true
  | c :: children' => ((offset =? i) || accept c r) && others_accept children' (offset + 1) i r
  end.

Lemma verify_children_run i x children : known (recordId x) -> forall offset v,
  (forall (k : nat) c, children !! k = Some c -> offset + Z.of_nat k <> i -> verifies c) ->
  exists o, verifyRecordWithChildren verify indeterminate children offset i x v = Ok o /\
    (is_Some o <-> others_accept children offset i (recordId x) = true).
Proof.
  intros Hk. induction children as [|c children IH]; intros offset v Hv; cbn [verifyRecordWithChildren others_accept]; [by exists (Some v)|].
  assert (forall (k : nat) c, children !! k = Some c -> offset + 1 + Z.of_nat k <> i -> verifies c) as Hv'.
  { intros k c' Hc Hi. apply (Hv (S k) c'); [done|lia]. }
  destruct (Z.eqb_spec offset i) as [E|E]; [apply IH; done|]. cbn [orb].
  destruct (Hv 0%nat c eq_refl ltac:(lia) (recordId x) (fresh_parameters indeterminate) Hk) as (p' & ->). cbn [rbind].
  destruct (accept c (recordId x)); cbn [andb]; [by apply IH|]. exists None. by split; [|split; [intros []|]].
Qed.

Lemma others_accept_insert c' r i children : forall offset (j : nat), i = offset + Z.of_nat j ->
  others_accept (<[j := c']> children) offset i r = others_accept children offset i r.
Proof.
  induction children as [|c children IH]; intros offset [|j] Hi; try done; cbn [others_accept insert list_insert].
  - by rewrite (proj2 (Z.eqb_eq offset i)) by lia.
  - f_equal. apply (IH (offset + 1) j). lia.
Qed.

(** The next record of the shortest list that the others accept. *)
Lemma shortest_step (i : nat) l : forall fuel cs c, cs !! i = Some c -> delivers next c l -> Forall (fun x => known (recordId x)) l -> (length l < fuel)%nat ->
  (forall (k : nat) c, cs !! k = Some c -> k <> i -> verifies c) ->
  (exists cs', shortest_loop next verify indeterminate fuel (Z.of_nat i) cs = Ok (cs', None) /\ forall x, x ∈ l -> others_accept cs 0 (Z.of_nat i) (recordId x) = false) \/
  exists c' x y d l', l = d ++ x :: l' /\ shortest_loop next verify indeterminate fuel (Z.of_nat i) cs = Ok (<[i := c']> cs, Some y) /\ recordId y = recordId x /\
    delivers next c' l' /\ others_accept cs 0 (Z.of_nat i) (recordId x) = true /\ forall x, x ∈ d -> others_accept cs 0 (Z.of_nat i) (recordId x) = false.
Proof.
  induction l as [|x l IH]; intros [|fuel] cs c Hc Hd Hk Hf Hv; try (cbn in Hf; lia); cbn [shortest_loop]; unfold next_of;
    rewrite (proj2 (vec_at_nth cs (Z.of_nat i) c)) by (rewrite Nat2Z.id; split; [lia|done]); cbn [rbind]; destruct Hd as (c' & Hd);
    pose proof (lookup_lt_Some _ _ _ Hc) as Hlt;
    assert (vec_set cs (Z.of_nat i) c' = Ok (<[i := c']> cs)) as Hset by (apply vec_set_Ok; rewrite Nat2Z.id; split; [lia|done]).
  - left. rewrite Hd. cbn [rbind]. rewrite Hset. cbn [rbind]. eexists. split; [done|]. intros x Hx. by apply elem_of_nil in Hx.
  - destruct Hd as [Hn Hd]. rewrite Hn. cbn [rbind]. rewrite Hset. cbn [rbind]. apply Forall_cons in Hk as [Hkx Hk].
    assert (forall (k : nat) c0, <[i := c']> cs !! k = Some c0 -> k <> i -> verifies c0) as Hv'.
    { intros k c0 Hk0 Hki. rewrite list_lookup_insert_ne in Hk0 by done. by apply (Hv k). }
    destruct (verify_children_run (Z.of_nat i) x (<[i := c']> cs) Hkx 0 (mk_vectors [] [] [] [] [] [])) as (o & -> & Ho).
    { intros k c0 Hk0 Hki. apply (Hv' k c0 Hk0). lia. }
    cbn [rbind]. rewrite others_accept_insert in Ho by lia. destruct o as [v|].
    + right. eexists c', x, _, [], l. split; [done|]. split; [done|]. split; [done|]. split; [done|]. split; [by apply Ho|]. intros y Hy. by apply elem_of_nil in Hy.
    + assert (others_accept cs 0 (Z.of_nat i) (recordId x) = false) as Hx by (apply not_true_iff_false; intros [? ?]%Ho; done).
      cbn [length] in Hf. destruct (IH fuel (<[i := c']> cs) c') as [(cs' & Hr & Hall)|(c'' & x' & y & d & l' & -> & Hr & Hy & Hd' & Ha & Hall)];
        [by rewrite list_lookup_insert_eq|done|done|lia|done| |].
      * left. exists cs'. split; [done|]. intros z [->|Hz]%elem_of_cons; [done|]. specialize (Hall z Hz). by rewrite others_accept_insert in Hall by lia.
      * right. exists c'', x', y, (x :: d), l'. split; [done|]. rewrite Hr, list_insert_insert_eq. split; [done|]. split; [done|]. split; [done|].
        rewrite others_accept_insert in Ha by lia. split; [done|]. intros z [->|Hz]%elem_of_cons; [done|]. specialize (Hall z Hz).
        by rewrite others_accept_insert in Hall by lia.
Qed.

(** The operator as a stream: its flag and its children. *)
Definition shortest_next (fuel : nat) (i : Z) (s : bool * list C) : result ((bool * list C) * option item) :=
  let? (finished, cs, r) := shortest_getNext next verify indeterminate fuel s.1 i s.2 in Ok ((finished, cs), r).

(** It delivers the records of the shortest list that every other child accepts. *)
Lemma shortest_delivers (i : nat) fuel : forall n l cs c, (length l <= n)%nat -> cs !! i = Some c -> delivers next c l -> Forall (fun x => known (recordId x)) l ->
  (length l < fuel)%nat -> (forall (k : nat) c, cs !! k = Some c -> k <> i -> verifies c) ->
  exists out, delivers (shortest_next fuel (Z.of_nat i)) (false, cs) out /\ ids out = List.filter (others_accept cs 0 (Z.of_nat i)) (ids l).
Proof.
  induction n as [|n IH]; intros l cs c Hn Hc Hd Hk Hf Hv;
    (destruct (shortest_step i l fuel cs c Hc Hd Hk Hf Hv) as [(cs' & Hr & Hall)|(c' & x & y & d & l' & -> & Hr & Hy & Hd' & Ha & Hall)];
      [|try (rewrite length_app in Hn; cbn [length] in Hn; lia)]).
  1,2: exists []; split; [cbn [delivers]; unfold shortest_next, shortest_getNext; cbn [fst snd]; rewrite Hr; by eexists|];
    symmetry; apply filter_nothing; intros z (x & Hx & <-)%elem_ids; by apply Hall.
  rewrite length_app in Hn, Hf. cbn [length] in Hn, Hf. apply Forall_app in Hk as [_ [_ Hk]%Forall_cons].
  destruct (IH l' (<[i := c']> cs) c') as (out & Hout & Hids); [lia|by rewrite list_lookup_insert_eq by (by apply lookup_lt_Some in Hc)|done|done|lia| |].
  { intros k c0 Hk0 Hki. rewrite list_lookup_insert_ne in Hk0 by done. by apply (Hv k). }
  exists (y :: out). split; [cbn [delivers]; unfold shortest_next at 1, shortest_getNext; cbn [fst snd]; rewrite Hr; by eexists|].
  unfold ids in *. rewrite map_app. cbn [map]. rewrite List.filter_app, filter_nothing by (intros z (w & Hw & <-)%elem_ids; by apply Hall).
  cbn [app List.filter]. rewrite Ha, Hy. f_equal. rewrite Hids. apply List.filter_ext. intros z. apply others_accept_insert. lia.
Qed.

End Shortest.
End PlanScores.
