(* ===== verification/PlanKeeps.v ===== *)
(** * A plan keeps its shape (core/operation/physical_plan/)

    Opening an operator and reading its records change the members of the operators,
    and neither their kinds nor their terms nor their children: the skeleton of a plan
    is the plan without what runs. *)
From S2P Require Import Prelude ForwardList PlanOperators.
From Stdlib Require Import ZArith Lia List Bool.
From stdpp Require Import base list.
Open Scope Z_scope.

Module PlanKeeps.
Import PlanOperators.

Fixpoint skeleton (n : node) : node :=
  match n with
  | UnionLowestLevelSimpleScan term _ _ _ => UnionLowestLevelSimpleScan term [] 0 0
  | MergeSortedByID _ _ children => MergeSortedByID false [] (map skeleton children)
  | UnionSortedByID _ _ _ children => UnionSortedByID false [] [] (map skeleton children)
  | SortById _ child => SortById [] (skeleton child)
  | MergeByShortestList _ shortest children => MergeByShortestList false shortest (map skeleton children)
  | RandomAccessVerificationTerm term => n
  | RandomAccessVerificationAnd children => RandomAccessVerificationAnd (map skeleton children)
  | RandomAccessVerificationOr children => RandomAccessVerificationOr (map skeleton children)
  | RandomAccessVerificationNot child => RandomAccessVerificationNot (skeleton child)
  end.


Section Keeps.
Context {C K : Type} (next : C -> result (C * option PhysicalPlanRecordItem)) (k : C -> K).
Context (Hnext : forall c c' r, next c = Ok (c', r) -> k c' = k c).

Lemma next_of_keeps cs j cs' r : next_of next cs j = Ok (cs', r) -> map k cs' = map k cs.
Proof.
  unfold next_of. intros H. apply rbind_Ok in H as (c & Hc & H). apply rbind_Ok in H as ([c' o] & Hn & H). apply rbind_Ok in H as (cs2 & Hs & [= <- <-]).
  apply vec_set_Ok in Hs as [_ ->]. apply vec_at_nth in Hc as [_ Hc]. rewrite list_fmap_insert, (Hnext _ _ _ Hn). apply list_insert_id. by rewrite list_lookup_fmap, Hc.
Qed.

Lemma candidate_loop_keeps fuel : forall cs j prev cs' r, candidate_loop next fuel cs j prev = Ok (cs', r) -> map k cs' = map k cs.
Proof.
  induction fuel as [|fuel IH]; intros cs j prev cs' r H; [done|]. cbn [candidate_loop] in H. apply rbind_Ok in H as ([cs1 o] & Hn%next_of_keeps & H).
  rewrite <- Hn. destruct o as [x|]; [|by injection H as <- _]. destruct (visited _ _); [by eapply IH|by injection H as <- _].
Qed.

Lemma advance_loop_keeps fuel : forall cs j x cs' r, advance_loop next fuel cs j x = Ok (cs', r) -> map k cs' = map k cs.
Proof.
  induction fuel as [|fuel IH]; intros cs j x cs' r H; [done|]. cbn [advance_loop] in H. apply rbind_Ok in H as ([cs1 o] & Hn%next_of_keeps & H).
  rewrite <- Hn. destruct o as [y|]; [|by injection H as <- _]. destruct (_ || _); [by injection H as <- _|by eapply IH].
Qed.

Lemma pass_loop_keeps fuel x i offsets : forall cs ms cs' r, pass_loop next fuel cs x i offsets ms = Ok (cs', r) -> map k cs' = map k cs.
Proof.
  induction offsets as [|j offsets IH]; intros cs ms cs' r H; cbn [pass_loop] in H; [by injection H as <- _|].
  destruct (j =? i); [by eapply IH|]. apply rbind_Ok in H as ([cs1 o] & Hn%advance_loop_keeps & H). rewrite <- Hn.
  destruct o as [y|]; [|by injection H as <- _]. destruct (_ =? _); [by eapply IH|by injection H as <- _].
Qed.

Lemma round_loop_keeps fuel : forall cs x i prev cs' r, round_loop next fuel cs x i prev = Ok (cs', r) -> map k cs' = map k cs.
Proof.
  induction fuel as [|fuel IH]; intros cs x i prev cs' r H; [done|]. cbn [round_loop] in H. apply rbind_Ok in H as ([cs1 o] & Hn%pass_loop_keeps & H).
  rewrite <- Hn. destruct o as [|y i'|ms]; [by injection H as <- _|by eapply IH|]. destruct (_ =? _); [by injection H as <- _|].
  apply rbind_Ok in H as ([cs2 o] & Hc%candidate_loop_keeps & H). rewrite <- Hc. destruct o as [y|]; [by eapply IH|by injection H as <- _].
Qed.

Lemma merge_getNext_keeps fuel more prev cs more' prev' cs' r : merge_getNext next fuel more prev cs = Ok (more', prev', cs', r) -> map k cs' = map k cs.
Proof.
  unfold merge_getNext. destruct more; [|by intros [= _ _ <- _]]. intros H. apply rbind_Ok in H as ([cs1 o] & Hc%candidate_loop_keeps & H). rewrite <- Hc.
  destruct o as [x|]; [|by injection H as _ _ <- _]. apply rbind_Ok in H as ([cs2 o] & Hr%round_loop_keeps & H). rewrite <- Hr.
  destruct o; by injection H as _ _ <- _.
Qed.

Lemma skip_loop_keeps vis fuel : forall c o c' o', skip_loop next fuel c o vis = Ok (c', o') -> k c' = k c.
Proof.
  induction fuel as [|fuel IH]; intros c o c' o' H; cbn [skip_loop] in H; (destruct o as [x|]; [|by injection H as <- _]);
    (destruct (visited _ _); [|by injection H as <- _]); [done|]. apply rbind_Ok in H as ([c1 o1] & Hn%Hnext & H). rewrite <- Hn. by eapply IH.
Qed.

Lemma skip_all_keeps fuel vis cs : forall os cs' os', skip_all next fuel cs os vis = Ok (cs', os') -> map k cs' = map k cs.
Proof.
  induction cs as [|c cs IH]; intros [|o os] cs' os' H; cbn [skip_all] in H; try done; try by injection H as <- _.
  apply rbind_Ok in H as ([c1 o1] & Hn%skip_loop_keeps & H). apply rbind_Ok in H as ([cs1 os1] & Hs%IH & [= <- _]). cbn [map]. by rewrite Hn, Hs.
Qed.

Lemma remove_min_keeps z cs : forall os cs' os' ms, remove_min next cs os z = Ok (cs', os', ms) -> map k cs' = map k cs.
Proof.
  induction cs as [|c cs IH]; intros [|o os] cs' os' ms H; cbn [remove_min] in H; try done; try by injection H as <- _ _.
  apply rbind_Ok in H as ([[c1 o1] m1] & Hn & H). apply rbind_Ok in H as ([[cs1 os1] ms1] & Hs%IH & [= <- _ _]). cbn [map]. rewrite Hs. f_equal.
  destruct o as [x|]; [|by injection Hn as <- _ _]. destruct (_ =? _); [|by injection Hn as <- _ _].
  apply rbind_Ok in Hn as ([c2 o2] & Hn%Hnext & [= <- _ _]). done.
Qed.

Lemma union_getNext_keeps fuel more vis os cs more' vis' os' cs' r : union_getNext next fuel more vis os cs = Ok (more', vis', os', cs', r) -> map k cs' = map k cs.
Proof.
  unfold union_getNext. destruct more; [|by intros [= _ _ _ <- _]]. intros H. apply rbind_Ok in H as ([cs1 os1] & Hs%skip_all_keeps & H). rewrite <- Hs.
  destruct (fold_left _ _ _) as [m|]; [|by injection H as _ _ _ <- _]. apply rbind_Ok in H as ([[cs2 os2] ms] & Hr%remove_min_keeps & [= _ _ _ <- _]). done.
Qed.

Lemma drain_keeps fuel : forall c l c' l', drain next fuel c l = Ok (c', l') -> k c' = k c.
Proof.
  induction fuel as [|fuel IH]; intros c l c' l' H; [done|]. cbn [drain] in H. apply rbind_Ok in H as ([c1 o] & Hn%Hnext & H). rewrite <- Hn.
  destruct o; [by eapply IH|by injection H as <- _].
Qed.

Lemma shortest_loop_keeps verify indeterminate fuel i : forall cs cs' r,
  shortest_loop next verify indeterminate fuel i cs = Ok (cs', r) -> map k cs' = map k cs.
Proof.
  induction fuel as [|fuel IH]; intros cs cs' r H; [done|]. cbn [shortest_loop] in H. apply rbind_Ok in H as ([cs1 o] & Hn%next_of_keeps & H). rewrite <- Hn.
  destruct o as [x|]; [|by injection H as <- _]. apply rbind_Ok in H as (o & _ & H). destruct o; [by injection H as <- _|by eapply IH].
Qed.

Lemma for_children_keeps {A} (f : C -> result A) (h : A -> K) cs : (forall c a, f c = Ok a -> h a = k c) -> forall l, for_children f cs = Ok l -> map h l = map k cs.
Proof.
  intros Hf. induction cs as [|c cs IH]; intros l H; cbn [for_children] in H; [by injection H as <-|].
  apply rbind_Ok in H as (a & Ha%Hf & H). apply rbind_Ok in H as (l' & Hl%IH & [= <-]). cbn [map]. by rewrite Ha, Hl.
Qed.

End Keeps.

Section Tree.
Context {I : Type} `{IndexReader I} (index : I).
Context (computeTermRecordRuntimeScore : Z -> Z -> Z -> bool -> float -> float -> float) (prefixMatchPenalty : float).
Context (pop_heap : (PhysicalPlanRecordItem -> PhysicalPlanRecordItem -> bool) -> list PhysicalPlanRecordItem ->
  option (PhysicalPlanRecordItem * list PhysicalPlanRecordItem)).
Context (indeterminate : VerificationParameters).

Local Abbreviation getNext := (getNext index computeTermRecordRuntimeScore prefixMatchPenalty pop_heap indeterminate).
Local Abbreviation open := (open index computeTermRecordRuntimeScore prefixMatchPenalty pop_heap indeterminate).

Lemma scan_getNext_keeps fuel term lists o c n r : scan_getNext index computeTermRecordRuntimeScore prefixMatchPenalty fuel term lists o c = Ok (n, r) ->
  skeleton n = UnionLowestLevelSimpleScan term [] 0 0.
Proof.
  unfold scan_getNext. destruct (_ <=? o); [by intros [= <- _]|]. intros H1. apply rbind_Ok in H1 as (l & _ & H1). destruct (negb _); [done|].
  apply rbind_Ok in H1 as ([[s o'] c'] & _ & H1). destruct s as [[[x m] s]|]; [|by injection H1 as <- _].
  apply rbind_Ok in H1 as (l' & _ & [= <- _]). done.
Qed.

(** Reading a record keeps the plan. *)
Lemma getNext_keeps fuel : forall depth n n' r, getNext depth fuel n = Ok (n', r) -> skeleton n' = skeleton n.
Proof.
  induction depth as [|depth IH]; intros n n' r Hn; [done|]. cbn [PlanOperators.getNext] in Hn. destruct n as [term lists o c|more prev cs|more vis os cs|records child|finished i cs|term|cs|cs|child].
  - by apply scan_getNext_keeps in Hn.
  - apply rbind_Ok in Hn as ([[[more' prev'] cs'] r'] & Hm%(merge_getNext_keeps _ skeleton IH) & [= <- _]). cbn [skeleton]. by rewrite Hm.
  - apply rbind_Ok in Hn as ([[[[more' vis'] os'] cs'] r'] & Hm%(union_getNext_keeps _ skeleton IH) & [= <- _]). cbn [skeleton]. by rewrite Hm.
  - apply rbind_Ok in Hn as ([records' r'] & _ & [= <- _]). done.
  - apply rbind_Ok in Hn as ([[finished' cs'] r'] & Hs & [= <- _]). cbn [skeleton]. f_equal. unfold shortest_getNext in Hs. destruct finished; [by injection Hs as _ <- _|].
    apply rbind_Ok in Hs as ([cs1 r1] & Hl%(shortest_loop_keeps _ skeleton IH) & [= _ <- _]). done.
  - by injection Hn as <- _.
  - by injection Hn as <- _.
  - by injection Hn as <- _.
  - by injection Hn as <- _.
Qed.

(** Opening keeps it, too. *)
Lemma open_keeps fuel : forall depth n n', open depth fuel n = Ok n' -> skeleton n' = skeleton n.
Proof.
  induction depth as [|depth IH]; intros n n' Hn; [done|]. cbn [PlanOperators.open] in Hn. unfold scan_open, merge_open, union_open, sort_open, shortest_open in Hn. destruct n as [term lists o c|more prev cs|more vis os cs|records child|finished i cs|term|cs|cs|child].
  - apply rbind_Ok in Hn as (l & _ & [= <-]). done.
  - apply rbind_Ok in Hn as (cs' & Hc%(for_children_keeps skeleton _ skeleton cs IH) & [= <-]). cbn [skeleton]. by rewrite Hc.
  - apply rbind_Ok in Hn as (cs' & Hc%(for_children_keeps skeleton _ skeleton cs IH) & Hn). apply rbind_Ok in Hn as (nexts & Hx & [= <-]). cbn [skeleton]. f_equal.
    rewrite <- Hc, map_map. apply (for_children_keeps skeleton (getNext depth fuel) (fun p => skeleton p.1) cs'); [|done].
    intros c [c' r] Hg. by apply getNext_keeps in Hg.
  - apply rbind_Ok in Hn as (child' & Hc%IH & Hn). apply rbind_Ok in Hn as ([child2 l] & Hd & [= <-]). cbn [skeleton]. rewrite <- Hc. f_equal.
    apply (drain_keeps _ skeleton (getNext_keeps fuel depth)) in Hd. done.
  - apply rbind_Ok in Hn as (cs' & Hc%(for_children_keeps skeleton _ skeleton cs IH) & [= <-]). cbn [skeleton]. by rewrite Hc.
  - by injection Hn as <-.
  - apply rbind_Ok in Hn as (cs' & Hc%(for_children_keeps skeleton _ skeleton cs IH) & [= <-]). cbn [skeleton]. by rewrite Hc.
  - apply rbind_Ok in Hn as (cs' & Hc%(for_children_keeps skeleton _ skeleton cs IH) & [= <-]). cbn [skeleton]. by rewrite Hc.
  - apply rbind_Ok in Hn as (child' & Hc%IH & [= <-]). cbn [skeleton]. by rewrite Hc.
Qed.

End Tree.
End PlanKeeps.
