(* ===== verification/PlanTree.v ===== *)
(** * What a physical plan answers (core/operation/physical_plan/)

    The meaning of a plan as a predicate on records, and that opening a fresh plan and
    reading its records until there are no more gives the records of that meaning:
    no loop runs for ever, the operators that promise an order keep it, and a record
    that is answered by reading is accepted by verification when the lists and the
    ranges of the terms agree. *)
From S2P Require Import Prelude ForwardList PlanOperators PlanStreams PlanUnion PlanScan PlanScores PlanKeeps.
From Stdlib Require Import ZArith Lia List Bool Sorted.
From stdpp Require Import base list sets.
Open Scope Z_scope.

Module PlanTree.
Import PlanOperators PlanStreams PlanUnion PlanScan PlanScores PlanKeeps.

(** Induction over the operators of a plan. *)
Section Induction.
Context (P : node -> Prop) (all := Forall P).
Context (Hscan : forall term lists o c, P (UnionLowestLevelSimpleScan term lists o c)).
Context (Hmerge : forall more prev cs, all cs -> P (MergeSortedByID more prev cs)).
Context (Hunion : forall more vis os cs, all cs -> P (UnionSortedByID more vis os cs)).
Context (Hsort : forall l c, P c -> P (SortById l c)).
Context (Hshortest : forall f i cs, all cs -> P (MergeByShortestList f i cs)).
Context (Hterm : forall term, P (RandomAccessVerificationTerm term)).
Context (Hand : forall cs, all cs -> P (RandomAccessVerificationAnd cs)).
Context (Hor : forall cs, all cs -> P (RandomAccessVerificationOr cs)).
Context (Hnot : forall c, P c -> P (RandomAccessVerificationNot c)).

Fixpoint node_rect' (n : node) : P n :=
  let children := fix children cs : all cs := match cs with [] => Forall_nil_2 P | c :: cs' => Forall_cons_2 P c cs' (node_rect' c) (children cs') end in
  match n with
  | UnionLowestLevelSimpleScan term lists o c => Hscan term lists o c
  | MergeSortedByID more prev cs => Hmerge more prev cs (children cs)
  | UnionSortedByID more vis os cs => Hunion more vis os cs (children cs)
  | SortById l c => Hsort l c (node_rect' c)
  | MergeByShortestList f i cs => Hshortest f i cs (children cs)
  | RandomAccessVerificationTerm term => Hterm term
  | RandomAccessVerificationAnd cs => Hand cs (children cs)
  | RandomAccessVerificationOr cs => Hor cs (children cs)
  | RandomAccessVerificationNot c => Hnot c (node_rect' c)
  end.
End Induction.

Definition all_of (P : node -> Prop) (cs : list node) : Prop := fold_right (fun c => and (P c)) True cs.

Lemma all_of_Forall P cs : all_of P cs <-> Forall P cs.
Proof. induction cs as [|c cs IH]; cbn; [by split; constructor|]. by rewrite IH, Forall_cons. Qed.

Definition sum_of (f : node -> nat) (cs : list node) : nat := fold_right (fun c a => (f c + a)%nat) 0%nat cs.
Definition max_of (f : node -> nat) (cs : list node) : nat := fold_right (fun c a => Nat.max (f c) a) 0%nat cs.

(** [f] for the child at [i], and [g] for the others. *)
Fixpoint all_but (f g : node -> bool) (i : Z) (cs : list node) (offset : Z) : bool :=
  match cs with
  | [] => true
  | c :: cs' => (if offset =? i then f c else g c) && all_but f g i cs' (offset + 1)
  end.

Section Tree.
Context {I : Type} `{IndexReader I} (index : I).
Context (computeTermRecordRuntimeScore : Z -> Z -> Z -> bool -> float -> float -> float) (prefixMatchPenalty : float).
Context (pop_heap : (item -> item -> bool) -> list item -> option (item * list item)).
Context (indeterminate : VerificationParameters).

Local Abbreviation getNext := (getNext index computeTermRecordRuntimeScore prefixMatchPenalty pop_heap indeterminate).
Local Abbreviation open := (open index computeTermRecordRuntimeScore prefixMatchPenalty pop_heap indeterminate).
Local Abbreviation verifyByRandomAccess := (verifyByRandomAccess index computeTermRecordRuntimeScore prefixMatchPenalty).

(** ** The meaning of a plan *)

(** The records that verification accepts. *)
Fixpoint accepts (n : node) (r : Z) : bool :=
  match n with
  | UnionLowestLevelSimpleScan term _ _ _ | RandomAccessVerificationTerm term => verified index term r
  | MergeSortedByID _ _ cs | MergeByShortestList _ _ cs | RandomAccessVerificationAnd cs => forallb (fun c => accepts c r) cs
  | UnionSortedByID _ _ _ cs | RandomAccessVerificationOr cs => existsb (fun c => accepts c r) cs
  | SortById _ c => accepts c r
  | RandomAccessVerificationNot c => negb (accepts c r)
  end.

(** The records that reading gives; the operators for verification alone give none. *)
Fixpoint answers (n : node) (r : Z) : bool :=
  match n with
  | UnionLowestLevelSimpleScan term _ _ _ => existsb (Z.eqb r) (scanned index term)
  | MergeSortedByID _ _ cs => forallb (fun c => answers c r) cs
  | UnionSortedByID _ _ _ cs => existsb (fun c => answers c r) cs
  | SortById _ c => answers c r
  | MergeByShortestList _ i cs => all_but (fun c => answers c r) (fun c => accepts c r) i cs 0
  | _ => false
  end.

(** ** Plans that can run *)

Definition ordered (n : node) : bool :=
  match n with MergeSortedByID _ _ _ | UnionSortedByID _ _ _ _ | SortById _ _ => true | _ => false end.

(** Plans whose scores come from scans only, and are not negative there. *)
Fixpoint numeric (n : node) : Prop :=
  match n with
  | UnionLowestLevelSimpleScan term _ _ _ => forall x, scan_score computeTermRecordRuntimeScore prefixMatchPenalty term x -> nonneg x
  | MergeSortedByID _ _ cs | UnionSortedByID _ _ _ cs => all_of numeric cs
  | SortById _ c => numeric c
  | _ => False
  end.

Context (known : Z -> Prop) `{!IndexLaws index known}.

Fixpoint terms_ok (n : node) : Prop :=
  match n with
  | UnionLowestLevelSimpleScan term _ _ _ | RandomAccessVerificationTerm term => term_ok index known term
  | MergeSortedByID _ _ cs | UnionSortedByID _ _ _ cs | MergeByShortestList _ _ cs | RandomAccessVerificationAnd cs | RandomAccessVerificationOr cs =>
      all_of terms_ok cs
  | SortById _ c | RandomAccessVerificationNot c => terms_ok c
  end.

(** A plan as it is built: nothing read, the children of the operators on sorted
    streams sorted, a shortest list that is there. *)
Fixpoint fresh (n : node) : Prop :=
  match n with
  | UnionLowestLevelSimpleScan _ lists _ _ => lists = []
  | MergeSortedByID _ _ cs => cs <> [] /\ forallb ordered cs = true /\ all_of fresh cs
  | UnionSortedByID _ _ os cs => os = [] /\ forallb ordered cs = true /\ all_of fresh cs
  | SortById l c => l = [] /\ numeric c /\ fresh c
  | MergeByShortestList _ i cs => 0 <= i < Z.of_nat (length cs) /\ all_of fresh cs
  | RandomAccessVerificationTerm _ => True
  | RandomAccessVerificationAnd cs | RandomAccessVerificationOr cs => all_of fresh cs
  | RandomAccessVerificationNot c => fresh c
  end.

Fixpoint height (n : node) : nat :=
  match n with
  | UnionLowestLevelSimpleScan _ _ _ _ | RandomAccessVerificationTerm _ => 1
  | MergeSortedByID _ _ cs | UnionSortedByID _ _ _ cs | MergeByShortestList _ _ cs | RandomAccessVerificationAnd cs | RandomAccessVerificationOr cs =>
      S (max_of height cs)
  | SortById _ c | RandomAccessVerificationNot c => S (height c)
  end.

(** The entries of the lists and the operators of a plan. *)
Fixpoint size (n : node) : nat :=
  match n with
  | UnionLowestLevelSimpleScan term _ _ _ => S (length (entries index term))
  | RandomAccessVerificationTerm _ => 1
  | MergeSortedByID _ _ cs | UnionSortedByID _ _ _ cs | MergeByShortestList _ _ cs | RandomAccessVerificationAnd cs | RandomAccessVerificationOr cs =>
      S (sum_of size cs)
  | SortById _ c | RandomAccessVerificationNot c => S (size c)
  end.

(** ** The skeleton determines the meaning *)

Lemma accepts_skeleton r n : accepts (skeleton n) r = accepts n r.
Proof.
  assert (forall (f : bool -> bool -> bool) b cs, Forall (fun n => accepts (skeleton n) r = accepts n r) cs ->
    fold_right (fun c => f (accepts c r)) b (map skeleton cs) = fold_right (fun c => f (accepts c r)) b cs) as Hall.
  { intros f b cs. induction 1 as [|c cs Hc _ IH]; [done|]. cbn [map fold_right]. by rewrite Hc, IH. }
  assert (forall f cs, forallb f cs = fold_right (fun c : node => andb (f c)) true cs) as Hforallb by (intros f cs; induction cs; [done|]; cbn; congruence).
  assert (forall f cs, existsb f cs = fold_right (fun c : node => orb (f c)) false cs) as Hexistsb by (intros f cs; induction cs; [done|]; cbn; congruence).
  induction n using node_rect'; cbn [skeleton accepts]; rewrite ?Hforallb, ?Hexistsb; try done; try (by apply (Hall andb)); try (by apply (Hall orb)). by f_equal.
Qed.

Lemma terms_ok_skeleton n : terms_ok (skeleton n) <-> terms_ok n.
Proof.
  assert (forall cs, Forall (fun n => terms_ok (skeleton n) <-> terms_ok n) cs -> all_of terms_ok (map skeleton cs) <-> all_of terms_ok cs) as Hall.
  { intros cs. induction 1 as [|c cs Hc _ IH]; [done|]. cbn. by rewrite Hc, IH. }
  induction n using node_rect'; cbn [skeleton terms_ok]; auto; by apply Hall.
Qed.

(** ** Verification *)

Lemma and_loop_run (verify : node -> VerificationParameters -> result (bool * VerificationParameters)) f cs :
  Forall (fun c => forall p, exists p', verify c p = Ok (f c, p')) cs -> forall scores p, exists p', and_loop verify cs scores p = Ok (forallb f cs, p').
Proof.
  induction 1 as [|c cs Hc _ IH]; intros scores p; cbn [and_loop forallb]; [by eexists|]. destruct (Hc p) as (p1 & ->). cbn [rbind].
  destruct (f c); [apply IH|by eexists].
Qed.

Lemma or_loop_run (verify : node -> VerificationParameters -> result (bool * VerificationParameters)) f cs :
  Forall (fun c => forall p, exists p', verify c p = Ok (f c, p')) cs -> forall b scores p, exists p', or_loop verify cs b scores p = Ok (b || existsb f cs, p').
Proof.
  induction 1 as [|c cs Hc _ IH]; intros b scores p; cbn [or_loop existsb]; [rewrite orb_false_r; by eexists|]. destruct (Hc p) as (p1 & ->). cbn [rbind].
  rewrite orb_assoc. apply IH.
Qed.

Lemma verify_run r n : known r -> terms_ok n -> forall p, exists p', verifyByRandomAccess r n p = Ok (accepts n r, p').
Proof.
  intros Hr. assert (forall cs, Forall (fun n => terms_ok n -> forall p, exists p', verifyByRandomAccess r n p = Ok (accepts n r, p')) cs -> all_of terms_ok cs ->
    Forall (fun c => forall p, exists p', verifyByRandomAccess r c p = Ok (accepts c r, p')) cs) as Hall.
  { intros cs Hcs Hok%all_of_Forall. rewrite Forall_forall in *. auto. }
  induction n as [term lists o c|more prev cs Hcs|more vis os cs Hcs|l c Hc|f i cs Hcs|term|cs Hcs|cs Hcs|c Hc] using node_rect';
    cbn [terms_ok accepts PlanOperators.verifyByRandomAccess]; intros Hok p; try (by eapply verify_term_run); try (by auto);
    try (by apply and_loop_run; auto); try (by apply (or_loop_run _ (fun c => accepts c r) cs (Hall cs Hcs Hok) false)).
  destruct (Hc Hok p) as (p1 & ->). cbn [rbind]. destruct (accepts c r); by eexists.
Qed.

(** ** Opening and reading *)

Context (Hpop : pops_greatest pop_heap).

(** What is left of opening a plan: the records that it delivers. *)
Record opened (depth fuel : nat) (n n' : node) (out : list item) : Prop := {
  op_delivers : delivers (getNext depth fuel) n' out;
  op_ids z : z ∈ ids out <-> answers n z = true;
  op_length : (length out < size n)%nat;
  op_known : Forall (fun x => known (recordId x)) out;
  op_sorted : ordered n = true -> sorted out;
  op_nonneg : numeric n -> Forall (fun x => nonneg (recordRuntimeScore x)) out }.

Lemma delivers_map {C D} (next1 : C -> result (C * option item)) (next2 : D -> result (D * option item)) (f : C -> D) :
  (forall s, next2 (f s) = let? (s', r) := next1 s in Ok (f s', r)) -> forall out s, delivers next1 s out -> delivers next2 (f s) out.
Proof.
  intros Hf. induction out as [|x out IH]; intros s; cbn [delivers].
  - intros (s' & Hs). rewrite Hf, Hs. by eexists.
  - intros (s' & Hs & Hd). rewrite Hf, Hs. cbn [rbind]. eexists. split; [done|by apply IH].
Qed.

Lemma for_children_run {A B} (f : A -> result B) (R : A -> B -> Prop) cs : Forall (fun c => exists y, f c = Ok y /\ R c y) cs ->
  exists ys, for_children f cs = Ok ys /\ Forall2 R cs ys.
Proof.
  induction 1 as [|c cs (y & Hy & HR) _ (ys & Hys & HRs)]; [by exists []; split|]. cbn [for_children]. rewrite Hy. cbn [rbind]. rewrite Hys. cbn [rbind].
  exists (y :: ys). split; [done|by constructor].
Qed.

Lemma Forall2_exists {A B D} (R : A -> B -> D -> Prop) l k : Forall2 (fun a b => exists d, R a b d) l k -> exists ds, Forall3 R l k ds.
Proof. induction 1 as [|a b l k [d Hd] _ [ds Hds]]; [exists []; constructor|exists (d :: ds); by constructor]. Qed.

Lemma sum_of_in f c cs : c ∈ cs -> (f c <= sum_of f cs)%nat.
Proof. induction cs as [|c' cs IH]; [by intros ?%elem_of_nil|]. cbn. intros [->|Hc]%elem_of_cons; [lia|]. specialize (IH Hc). unfold sum_of in IH. lia. Qed.

Lemma max_of_in f c cs : c ∈ cs -> (f c <= max_of f cs)%nat.
Proof. induction cs as [|c' cs IH]; [by intros ?%elem_of_nil|]. cbn. intros [->|Hc]%elem_of_cons; [lia|]. specialize (IH Hc). unfold max_of in IH. lia. Qed.

(** *** The children of an operator *)

Lemma children_deliver depth fuel cs cs' outs : Forall3 (opened depth fuel) cs cs' outs -> Forall2 (delivers (getNext depth fuel)) cs' outs.
Proof. induction 1 as [|c c' out cs1 cs1' outs1 Ho _ IH]; [apply Forall2_nil_2|apply Forall2_cons_2; [apply (op_delivers _ _ _ _ _ Ho)|done]]. Qed.

Lemma children_total depth fuel cs cs' outs : Forall3 (opened depth fuel) cs cs' outs -> (total outs <= sum_of size cs)%nat.
Proof.
  induction 1 as [|c c' out cs1 cs1' outs1 Ho _ IH]; [done|]. rewrite total_cons. pose proof (op_length _ _ _ _ _ Ho).
  cbn. unfold sum_of in IH. lia.
Qed.

Lemma children_sorted depth fuel cs cs' outs : Forall3 (opened depth fuel) cs cs' outs -> forallb ordered cs = true -> Forall sorted outs.
Proof.
  induction 1 as [|c c' out cs1 cs1' outs1 Ho _ IH]; [constructor|]. cbn [forallb]. intros [H1 H2]%andb_true_iff.
  constructor; [by apply (op_sorted _ _ _ _ _ Ho)|by apply IH].
Qed.

Lemma children_nonneg depth fuel cs cs' outs : Forall3 (opened depth fuel) cs cs' outs -> all_of numeric cs -> Forall (Forall (fun x => nonneg (recordRuntimeScore x))) outs.
Proof.
  induction 1 as [|c c' out cs1 cs1' outs1 Ho _ IH]; [constructor|]. intros [H1 H2].
  constructor; [by apply (op_nonneg _ _ _ _ _ Ho)|by apply IH].
Qed.

Lemma children_known depth fuel cs cs' outs : Forall3 (opened depth fuel) cs cs' outs -> Forall (Forall (fun x => known (recordId x))) outs.
Proof. induction 1 as [|c c' out cs1 cs1' outs1 Ho _ IH]; [apply Forall_nil_2|apply Forall_cons_2; [apply (op_known _ _ _ _ _ Ho)|done]]. Qed.

Lemma children_common depth fuel cs cs' outs z : Forall3 (opened depth fuel) cs cs' outs -> common outs z <-> forallb (fun c => answers c z) cs = true.
Proof.
  unfold common. induction 1 as [|c c' out cs1 cs1' outs1 Ho _ IH]; [by split|].
  rewrite Forall_cons, IH. cbn [forallb]. rewrite andb_true_iff. by rewrite (op_ids _ _ _ _ _ Ho).
Qed.

Lemma children_some depth fuel cs cs' outs z : Forall3 (opened depth fuel) cs cs' outs -> in_some outs z <-> existsb (fun c => answers c z) cs = true.
Proof.
  unfold in_some. induction 1 as [|c c' out cs1 cs1' outs1 Ho _ IH]; [by rewrite Exists_nil|].
  rewrite Exists_cons, IH. cbn [existsb]. rewrite orb_true_iff. by rewrite (op_ids _ _ _ _ _ Ho).
Qed.


Lemma known_of_ids l z : Forall (fun x => known (recordId x)) l -> z ∈ ids l -> known z.
Proof. intros Hl (x & Hx & <-)%elem_ids. rewrite Forall_forall in Hl. by apply Hl. Qed.

Lemma increasing_ids_sorted l : increasing l -> sorted l.
Proof.
  unfold increasing, sorted. generalize (ids l). induction 1 as [|z k _ IH Hz]; constructor; [done|]. eapply List.Forall_impl; [|done]. intros a Ha. cbn in Ha. lia.
Qed.

Lemma matches_nonneg z ms ls : Forall2 (match_of z) ms ls -> Forall (Forall (fun x => nonneg (recordRuntimeScore x))) ls ->
  Forall nonneg (map recordRuntimeScore ms).
Proof.
  induction 1 as [|m l ms ls [Hm _]%first_with_Some _ IH]; intros Hn; [constructor|]. apply Forall_cons in Hn as [Hl Hn]. cbn [map].
  constructor; [|by apply IH]. rewrite Forall_forall in Hl. by apply Hl.
Qed.

Lemma firsts_nonneg z ls : Forall (Forall (fun x => nonneg (recordRuntimeScore x))) ls -> Forall nonneg (map recordRuntimeScore (omap (first_with z) ls)).
Proof.
  induction 1 as [|l ls Hl _ IH]; [constructor|]. cbn [omap list_omap]. destruct (first_with z l) as [m|] eqn:E; [|done].
  apply first_with_Some in E as [Hm _]. cbn [map]. constructor; [|done]. rewrite Forall_forall in Hl. by apply Hl.
Qed.

Lemma firsts_some z ls : in_some ls z -> omap (first_with z) ls <> [].
Proof.
  unfold in_some. induction 1 as [l ls Hz|l ls _ IH]; cbn [omap list_omap].
  - destruct (first_with z l) eqn:E; [done|]. by apply first_with_None in E.
  - by destruct (first_with z l).
Qed.

(** *** The operators *)

Lemma open_scan depth fuel term lists o c : let n := UnionLowestLevelSimpleScan term lists o c in
  fresh n -> terms_ok n -> (size n <= fuel)%nat -> exists n' out, open (S depth) fuel n = Ok n' /\ opened (S depth) fuel n n' out.
Proof.
  cbn [fresh terms_ok size]. intros -> Hok Hf. cbn [PlanOperators.open]; unfold scan_open, merge_open, union_open, sort_open, shortest_open. destruct (open_lists_run index known term Hok) as (ls & -> & Hread & Hentries). cbn [rbind].
  destruct (scan_delivers index known computeTermRecordRuntimeScore prefixMatchPenalty (getNext (S depth) fuel) fuel term ls) with (n := length (entries index term)) (es := entries index term) (offset := 0) (cursor := 0)
    as (out & Hout & Hids & Hsc); [done|done|done|done|rewrite <- Hentries; by apply (at_start index known)|lia|].
  exists (UnionLowestLevelSimpleScan term ls 0 0), out. split; [done|]. assert (ids out = scanned index term) as Hscan by done. constructor.
  - done.
  - intros z. cbn [answers]. rewrite Hscan. symmetry. apply visited_spec.
  - cbn [size]. rewrite <- (length_map recordId out). change (map recordId out) with (ids out). rewrite Hids, length_map.
    pose proof (List.filter_length_le (is_answer index term) (entries index term)). lia.
  - apply Forall_forall. intros x Hx%elem_ids_intro. rewrite Hids in Hx. apply list_elem_of_fmap in Hx as (e & -> & He).
    apply list_elem_of_In, List.filter_In in He as [He _]. unfold entries in He. apply List.in_flat_map in He as (l & Hl & He).
    apply List.in_map_iff in He as (r & <- & Hr). cbn [snd]. pose proof (to_lists _ _ _ Hok) as Hlists. rewrite List.Forall_forall in Hlists.
    destruct (Hlists l Hl) as (rs & Hrs & Hk). unfold records_of in Hr. rewrite Hrs in Hr. rewrite List.Forall_forall in Hk. by apply Hk.
  - done.
  - cbn [numeric]. intros Hn. eapply Forall_impl; [exact Hsc|]. intros x Hx. by apply Hn.
Qed.

Lemma opened_merge depth fuel more prev cs cs' outs : Forall3 (opened depth fuel) cs cs' outs -> cs <> [] -> forallb ordered cs = true -> (sum_of size cs < fuel)%nat ->
  exists out, opened (S depth) fuel (MergeSortedByID more prev cs) (MergeSortedByID true [] cs') out.
Proof.
  intros Hcs Hne Hord Hf. pose proof (children_total _ _ _ _ _ Hcs) as Ht. assert (outs <> []) as Hno by (by destruct Hcs).
  destruct (merge_delivers (getNext depth fuel) fuel cs' outs (children_deliver _ _ _ _ _ Hcs) (children_sorted _ _ _ _ _ Hcs Hord)) as (out & Hd & Hinc & Hlen & Hids & Hitems);
    [done|lia|].
  exists out. constructor.
  - refine (delivers_map (merge_next (getNext depth fuel) fuel) _ (fun s => MergeSortedByID s.1.1 s.1.2 s.2) _ out (true, [], cs') Hd).
    intros [[more' prev'] cs1]. cbn [PlanOperators.getNext fst snd]. unfold merge_next. cbn [fst snd]. by destruct (merge_getNext _ _ _ _ _) as [[[[? ?] ?] ?]|].
  - intros z. rewrite Hids. cbn [answers]. by apply (children_common _ _ _ _ _ _ Hcs).
  - cbn [size]. lia.
  - apply Forall_forall. intros x Hx%elem_ids_intro. apply Hids in Hx. pose proof (children_known _ _ _ _ _ Hcs) as Hk.
    destruct Hx as [|l ls Hl _]; [done|]. apply Forall_cons in Hk as [Hk _]. by apply (known_of_ids l).
  - intros _. by apply increasing_ids_sorted.
  - cbn [numeric]. intros Hn. apply Forall_forall. intros y Hy. destruct (Hitems y Hy) as (x & ms & -> & Hms). cbn [recordRuntimeScore combine].
    apply score_for_and_nonneg. by apply (matches_nonneg _ _ _ Hms), (children_nonneg _ _ _ _ _ Hcs).
Qed.

Lemma opened_union depth fuel more vis cs cs' outs os cs2 : Forall3 (opened depth fuel) cs cs' outs -> Forall3 (holds (getNext depth fuel)) cs2 os outs ->
  forallb ordered cs = true -> (sum_of size cs <= fuel)%nat ->
  exists out, opened (S depth) fuel (UnionSortedByID more vis [] cs) (UnionSortedByID true [] os cs2) out.
Proof.
  intros Hcs Hos Hord Hf. pose proof (children_total _ _ _ _ _ Hcs) as Ht.
  destruct (union_delivers (getNext depth fuel) fuel os cs2 outs Hos (children_sorted _ _ _ _ _ Hcs Hord)) as (out & Hd & Hinc & Hlen & Hids & Hitems); [lia|].
  exists out. constructor.
  - refine (delivers_map (union_next (getNext depth fuel) fuel) _ (fun s => UnionSortedByID s.1.1.1 s.1.1.2 s.1.2 s.2) _ out (true, [], os, cs2) Hd).
    intros [[[more' vis'] os'] cs1]. cbn [PlanOperators.getNext fst snd]. unfold union_next. cbn [fst snd]. by destruct (union_getNext _ _ _ _ _ _) as [[[[[? ?] ?] ?] ?]|].
  - intros z. rewrite Hids. cbn [answers]. by apply (children_some _ _ _ _ _ _ Hcs).
  - cbn [size]. lia.
  - apply Forall_forall. intros x Hx%elem_ids_intro. apply Hids, Exists_exists in Hx as (l & Hl & Hx). pose proof (children_known _ _ _ _ _ Hcs) as Hk.
    rewrite Forall_forall in Hk. by apply (known_of_ids l); [apply Hk|].
  - intros _. by apply increasing_ids_sorted.
  - cbn [numeric]. intros Hn. apply Forall_forall. intros y Hy. pose proof (elem_ids_intro _ _ Hy) as Hin. apply Hids in Hin.
    destruct (Hitems y Hy) as (x & ->). cbn [recordRuntimeScore combine recordId] in *.
    apply score_for_or_nonneg; [by apply firsts_nonneg, (children_nonneg _ _ _ _ _ Hcs)|]. intros He%map_eq_nil. by apply firsts_some in Hin.
Qed.

Lemma opened_sort depth fuel child child' c2 out : opened depth fuel child child' out -> numeric child ->
  exists out', opened (S depth) fuel (SortById [] child) (SortById out c2) out'.
Proof.
  intros Ho Hn. pose proof (op_nonneg _ _ _ _ _ Ho Hn) as Hnn.
  destruct (sort_delivers pop_heap Hpop (getNext (S depth) fuel) c2) with (n := length out) (l := out) as (out' & Hd & Hp & Hs); [done|done|done|].
  assert (forall z, z ∈ ids out' <-> z ∈ ids out) as Hids by (intros z; rewrite !elem_ids; by setoid_rewrite Hp).
  exists out'. constructor.
  - done.
  - intros z. rewrite Hids. apply (op_ids _ _ _ _ _ Ho).
  - cbn [size]. rewrite (Permutation_length Hp). pose proof (op_length _ _ _ _ _ Ho). lia.
  - rewrite Hp. apply (op_known _ _ _ _ _ Ho).
  - done.
  - cbn [numeric]. by rewrite Hp.
Qed.

Lemma others_accept_keep i z cs cs' : map skeleton cs' = map skeleton cs -> forall offset,
  others_accept accepts cs' offset i z = others_accept accepts cs offset i z.
Proof.
  revert cs. induction cs' as [|c' cs' IH]; intros [|c cs] Hk offset; try done. injection Hk as Hc Hk. cbn [others_accept].
  by rewrite (IH cs Hk), <- (accepts_skeleton z c'), Hc, accepts_skeleton.
Qed.

Lemma others_accept_answers i z c cs : forall offset (j : nat), i = offset + Z.of_nat j -> cs !! j = Some c ->
  all_but (fun c => answers c z) (fun c => accepts c z) i cs offset = answers c z && others_accept accepts cs offset i z.
Proof.
  assert (forall cs offset, i < offset -> all_but (fun c => answers c z) (fun c => accepts c z) i cs offset = others_accept accepts cs offset i z) as Hbehind.
  { clear cs. induction cs as [|c' cs IH]; intros offset Hi; [done|]. cbn [all_but others_accept]. rewrite (proj2 (Z.eqb_neq _ _)) by lia. rewrite IH by lia. done. }
  induction cs as [|c' cs IH]; intros offset [|j] Hi Hj; try done; cbn [all_but others_accept].
  - injection Hj as ->. rewrite (proj2 (Z.eqb_eq _ _)) by lia. rewrite Hbehind by lia. done.
  - rewrite (proj2 (Z.eqb_neq _ _)) by lia. cbn [orb]. rewrite (IH (offset + 1) j) by (done || lia). by destruct (accepts c' z), (answers c z).
Qed.

Lemma opened_shortest depth fuel finished i cs cs' outs : Forall3 (opened depth fuel) cs cs' outs -> map skeleton cs' = map skeleton cs ->
  Forall terms_ok cs' -> 0 <= i < Z.of_nat (length cs) -> (sum_of size cs <= fuel)%nat ->
  exists out, opened (S depth) fuel (MergeByShortestList finished i cs) (MergeByShortestList false i cs') out.
Proof.
  intros Hcs Hk Hok Hi Hf. set (j := Z.to_nat i). replace i with (Z.of_nat j) in * by lia.
  destruct (lookup_lt_is_Some_2 cs j) as [c Hc]; [lia|]. destruct (Forall3_lookup_l _ _ _ _ _ _ Hcs Hc) as (c' & l & Hc' & Hl & Ho).
  pose proof (op_length _ _ _ _ _ Ho) as Hlen. assert (size c <= sum_of size cs)%nat as Hsz by (apply sum_of_in; by eapply list_elem_of_lookup_2).
  destruct (shortest_delivers (getNext depth fuel) verifyByRandomAccess indeterminate known accepts j fuel (length l) l cs' c') as (out & Hd & Hids);
    [done|done|apply (op_delivers _ _ _ _ _ Ho)|apply (op_known _ _ _ _ _ Ho)|lia| |].
  { intros k c0 Hk0 _ r p Hr. apply verify_run; [done|]. by apply (Forall_lookup_1 _ _ _ _ Hok Hk0). }
  assert (forall z, z ∈ ids out <-> z ∈ ids l /\ others_accept accepts cs 0 (Z.of_nat j) z = true) as Hout.
  { intros z. rewrite Hids. rewrite <- (others_accept_keep (Z.of_nat j) z cs cs' Hk 0). rewrite !list_elem_of_In, List.filter_In. done. }
  exists out. constructor.
  - refine (delivers_map (shortest_next (getNext depth fuel) verifyByRandomAccess indeterminate fuel (Z.of_nat j)) _ (fun s => MergeByShortestList s.1 (Z.of_nat j) s.2) _ out (false, cs') Hd).
    intros [f cs1]. cbn [PlanOperators.getNext fst snd]. unfold shortest_next. cbn [fst snd]. by destruct (shortest_getNext _ _ _ _ _ _ _) as [[[? ?] ?]|].
  - intros z. rewrite Hout. cbn [answers]. rewrite (others_accept_answers (Z.of_nat j) z c cs 0 j) by (done || lia). rewrite andb_true_iff, (op_ids _ _ _ _ _ Ho). done.
  - cbn [size]. rewrite <- (length_map recordId out). change (map recordId out) with (ids out). rewrite Hids.
    pose proof (List.filter_length_le (others_accept accepts cs' 0 (Z.of_nat j)) (ids l)) as Hle. unfold ids in Hle at 2. rewrite length_map in Hle. lia.
  - apply Forall_forall. intros x Hx%elem_ids_intro. apply Hout in Hx as [Hx _]. apply (known_of_ids l); [apply (op_known _ _ _ _ _ Ho)|done].
  - done.
  - done.
Qed.

Lemma opened_nothing depth fuel n n' : getNext depth fuel n' = Ok (n', None) -> (forall z, answers n z = false) -> (0 < size n)%nat -> opened depth fuel n n' [].
Proof.
  intros Hn Ha Hs. constructor.
  - by exists n'.
  - intros z. rewrite Ha. split; [by intros ?%elem_of_nil|done].
  - done.
  - constructor.
  - intros _. constructor.
  - intros _. constructor.
Qed.

(** *** The plan *)

Lemma nexts_hold depth fuel cs outs : Forall2 (delivers (getNext depth fuel)) cs outs ->
  exists nexts, for_children (getNext depth fuel) cs = Ok nexts /\ Forall3 (holds (getNext depth fuel)) (map fst nexts) (map snd nexts) outs.
Proof.
  induction 1 as [|c l cs outs Hd _ (nexts & Hn & Hh)]; [exists []; split; [done|constructor]|]. cbn [for_children].
  destruct (holds_next _ _ _ Hd) as (c' & o & Hc & Hho). rewrite Hc. cbn [rbind]. rewrite Hn. cbn [rbind]. exists ((c', o) :: nexts). split; [done|].
  cbn [map fst snd]. by constructor.
Qed.

Lemma children_run depth fuel cs : all_of fresh cs -> all_of terms_ok cs -> (max_of height cs <= depth)%nat -> (sum_of size cs <= fuel)%nat ->
  (forall n, fresh n -> terms_ok n -> (height n <= depth)%nat -> (size n <= fuel)%nat -> exists n' out, open depth fuel n = Ok n' /\ opened depth fuel n n' out) ->
  exists cs' outs, for_children (open depth fuel) cs = Ok cs' /\ Forall3 (opened depth fuel) cs cs' outs /\ map skeleton cs' = map skeleton cs /\ Forall terms_ok cs'.
Proof.
  intros Hfr Hok Hd Hf Hopen. rewrite all_of_Forall in Hfr, Hok.
  destruct (for_children_run (open depth fuel) (fun c c' => exists out, opened depth fuel c c' out) cs) as (cs' & Hcs' & Hall).
  { rewrite Forall_forall in Hfr, Hok |- *. intros c Hc. pose proof (max_of_in height c cs Hc). pose proof (sum_of_in size c cs Hc).
    destruct (Hopen c) as (c' & out & Ho & Hop); [auto|auto|lia|lia|]. exists c'. split; [done|by exists out]. }
  destruct (Forall2_exists _ _ _ Hall) as (outs & Houts). exists cs', outs. split; [done|]. split; [done|].
  pose proof (for_children_keeps skeleton _ skeleton cs (open_keeps index computeTermRecordRuntimeScore prefixMatchPenalty pop_heap indeterminate fuel depth) cs' Hcs') as Hsk.
  split; [done|]. apply all_of_Forall. assert (forall l, all_of terms_ok (map skeleton l) <-> all_of terms_ok l) as Hmap
    by (induction l as [|c l IH]; [done|]; cbn [map]; cbn; by rewrite terms_ok_skeleton, IH).
  by rewrite <- Hmap, Hsk, Hmap, all_of_Forall.
Qed.

Lemma open_run fuel : forall depth n, fresh n -> terms_ok n -> (height n <= depth)%nat -> (size n <= fuel)%nat ->
  exists n' out, open depth fuel n = Ok n' /\ opened depth fuel n n' out.
Proof.
  induction depth as [|depth IH]; intros n Hfr Hok Hd Hf; [destruct n; cbn [height] in Hd; lia|].
  destruct n as [term lists o c|more prev cs|more vis os cs|l c|f i cs|term|cs|cs|c]; cbn [height] in Hd; [by apply open_scan| | | | |..];
    cbn [fresh terms_ok size] in Hfr, Hok, Hf; cbn [PlanOperators.open]; unfold scan_open, merge_open, union_open, sort_open, shortest_open.
  - destruct Hfr as (Hne & Hord & Hfr). destruct (children_run depth fuel cs Hfr Hok ltac:(lia) ltac:(lia) IH) as (cs' & outs & -> & Hcs & _). cbn [rbind].
    destruct (opened_merge depth fuel more prev cs cs' outs Hcs Hne Hord ltac:(lia)) as (out & Ho). by do 2 eexists.
  - destruct Hfr as (-> & Hord & Hfr). destruct (children_run depth fuel cs Hfr Hok ltac:(lia) ltac:(lia) IH) as (cs' & outs & -> & Hcs & _). cbn [rbind].
    destruct (nexts_hold depth fuel cs' outs (children_deliver _ _ _ _ _ Hcs)) as (nexts & -> & Hh). cbn [rbind app].
    destruct (opened_union depth fuel more vis cs cs' outs _ _ Hcs Hh Hord ltac:(lia)) as (out & Ho). by do 2 eexists.
  - destruct Hfr as (-> & Hnum & Hfr). destruct (IH c Hfr Hok ltac:(lia) ltac:(lia)) as (c' & out & -> & Ho). cbn [rbind].
    pose proof (op_length _ _ _ _ _ Ho). destruct (drain_run (getNext depth fuel) out fuel c' [] (op_delivers _ _ _ _ _ Ho) ltac:(lia)) as (c2 & ->). cbn [rbind app].
    destruct (opened_sort depth fuel c c' c2 out Ho Hnum) as (out' & Ho'). by do 2 eexists.
  - destruct Hfr as (Hi & Hfr). destruct (children_run depth fuel cs Hfr Hok ltac:(lia) ltac:(lia) IH) as (cs' & outs & -> & Hcs & Hsk & Hok'). cbn [rbind].
    destruct (opened_shortest depth fuel f i cs cs' outs Hcs Hsk Hok' Hi ltac:(lia)) as (out & Ho). by do 2 eexists.
  - eexists _, []. split; [done|]. apply opened_nothing; [done|done|cbn [size]; lia].
  - destruct (children_run depth fuel cs Hfr Hok ltac:(lia) ltac:(lia) IH) as (cs' & outs & -> & Hcs & _). cbn [rbind].
    eexists _, []. split; [done|]. apply opened_nothing; [done|done|cbn [size]; lia].
  - destruct (children_run depth fuel cs Hfr Hok ltac:(lia) ltac:(lia) IH) as (cs' & outs & -> & Hcs & _). cbn [rbind].
    eexists _, []. split; [done|]. apply opened_nothing; [done|done|cbn [size]; lia].
  - destruct (IH c Hfr Hok ltac:(lia) ltac:(lia)) as (c' & out & -> & Ho). cbn [rbind].
    eexists _, []. split; [done|]. apply opened_nothing; [done|done|cbn [size]; lia].
Qed.

(** ** Reading and verification agree *)

(** The records that the scans read are those that the ranges accept. *)
Fixpoint agrees (n : node) : Prop :=
  match n with
  | UnionLowestLevelSimpleScan term _ _ _ => forall r, known r -> existsb (Z.eqb r) (scanned index term) = verified index term r
  | MergeSortedByID _ _ cs | UnionSortedByID _ _ _ cs | MergeByShortestList _ _ cs => all_of agrees cs
  | SortById _ c => agrees c
  | _ => True
  end.

(** Operators that give records. *)
Fixpoint reading (n : node) : bool :=
  match n with
  | UnionLowestLevelSimpleScan _ _ _ _ => true
  | MergeSortedByID _ _ cs | UnionSortedByID _ _ _ cs => forallb reading cs
  | SortById _ c => reading c
  | MergeByShortestList _ i cs => all_but reading (fun _ => true) i cs 0
  | _ => false
  end.

Lemma forallb_agree (f g : node -> bool) cs : Forall (fun c => f c = g c) cs -> forallb f cs = forallb g cs /\ existsb f cs = existsb g cs.
Proof. induction 1 as [|c cs Hc _ [IH1 IH2]]; [done|]. cbn [forallb existsb]. by rewrite Hc, IH1, IH2. Qed.

Lemma all_but_agree (f g h : node -> bool) i cs : Forall (fun c => h c = true -> f c = g c) cs -> forall offset,
  all_but h (fun _ => true) i cs offset = true -> all_but f g i cs offset = forallb g cs.
Proof.
  induction 1 as [|c cs Hc _ IH]; intros offset; [done|]. cbn [all_but forallb]. intros [H1 H2]%andb_true_iff. rewrite (IH _ H2).
  destruct (offset =? i); [|done]. by rewrite Hc.
Qed.

Lemma answers_accepts r n : known r -> agrees n -> reading n = true -> answers n r = accepts n r.
Proof.
  intros Hr. assert (forall cs, Forall (fun n => agrees n -> reading n = true -> answers n r = accepts n r) cs -> all_of agrees cs -> forallb reading cs = true ->
    Forall (fun c => answers c r = accepts c r) cs) as Hall.
  { intros cs Hcs. induction Hcs as [|c cs Hc _ IH]; [done|]. cbn [all_of fold_right forallb]. intros [H1 H2] [H3 H4]%andb_true_iff. constructor; auto. }
  induction n as [term lists o c|more prev cs Hcs|more vis os cs Hcs|l c Hc|f i cs Hcs|term|cs Hcs|cs Hcs|c Hc] using node_rect';
    cbn [agrees reading answers accepts]; intros Ha Hre; try done.
  - by apply Ha.
  - by apply forallb_agree, Hall.
  - by apply forallb_agree, Hall.
  - by apply Hc.
  - eapply all_but_agree; [|exact Hre]. apply all_of_Forall in Ha. clear Hre Hall. induction Hcs as [|c cs Hc _ IH]; [constructor|].
    apply Forall_cons in Ha as [Ha Has]. constructor; [by apply Hc|by apply IH].
Qed.

End Tree.
End PlanTree.
