(* ===== verification/PlanIndex.v ===== *)
(** * The index that a plan reads (core/index/ForwardIndex.cpp, core/index/InvertedIndex.cpp)

    The read views of a query: the directory of forward lists with their marks of
    deletion, the inverted lists and the keyword of each.  They implement what the
    operators read, by the searches in forward lists; and a plan over an index whose
    two sides agree answers the boolean combination of its terms. *)
From S2P Require Import Prelude ForwardList ForwardSearch PlanOperators PlanStreams PlanScan PlanScores PlanKeeps PlanTree.
From Stdlib Require Import ZArith Lia List Bool Sorted.
From stdpp Require Import base list sets.
Open Scope Z_scope.

Module PlanIndex.
Import ForwardList(ATTRIBUTES_OP, PositionIndexType).
Import ForwardSearch(entry, e_id, e_attributes, e_score, has_entries, proper, passes, parts).
Import PlanOperators PlanStreams PlanScan PlanScores PlanTree.

(** ** The read views *)

Record QueryIndex := mk_index {
  positionIndexType : PositionIndexType;
  forwardListDirectory : list (ForwardList.ForwardList * bool);  (* with the mark that the record is valid *)
  invertedIndex : list (list Z);
  keywordIds : list Z }.

(** The forward list of a record, or none, and whether the record is valid. *)
Definition getForwardList (index : QueryIndex) (recordId : Z) : option ForwardList.ForwardList * bool :=
  match vec_at (forwardListDirectory index) recordId with
  | Ok (fl, valid) => (Some fl, valid)
  | Err _ => (None, false)
  end.

Definition ForwardIndex_getKeywordOffset (index : QueryIndex) (forwardListId keywordId : Z) : result (option Z) :=
  match getForwardList index forwardListId with
  | (Some forwardList, true) => let? o := ForwardList.getKeywordOffset forwardList keywordId in Ok (Some o)
  | _ => Ok None
  end.

Definition isValidRecordTermHit (index : QueryIndex) (forwardIndexId keywordOffset : Z) (filterAttributesList : list Z) (attrOp : ATTRIBUTES_OP)
    (matching : list Z) : result (bool * list Z * Z) :=
  match getForwardList index forwardIndexId with
  | (Some forwardList, true) =>
      ForwardList.isValidRecordTermHit (positionIndexType index) forwardList keywordOffset filterAttributesList attrOp matching
  | _ => Ok (false, matching, 0)
  end.

Definition ForwardIndex_haveWordInRange (index : QueryIndex) (recordId minId maxId : Z) (filteringAttributesList : list Z) (attrOp : ATTRIBUTES_OP) :
    result (option (Z * list Z * Z)) :=
  if negb (minId <=? maxId) then Err AssertFailed
  else if negb (recordId <? Z.of_nat (length (forwardListDirectory index))) then Err AssertFailed
  else
    match getForwardList index recordId with
    | (Some fl, true) => ForwardList.haveWordInRange (positionIndexType index) fl minId maxId filteringAttributesList attrOp
    | _ => Ok None
    end.

Definition InvertedIndex_getInvertedListReadView (index : QueryIndex) (invertedListId : Z) : result (list Z) :=
  if negb (invertedListId <? Z.of_nat (length (invertedIndex index))) then Err AssertFailed
  else vec_at (invertedIndex index) invertedListId.

Definition InvertedIndex_getKeywordOffset (index : QueryIndex) (forwardListId invertedListOffset : Z) : result (option Z) :=
  let? keywordId := vec_at (keywordIds index) invertedListOffset in ForwardIndex_getKeywordOffset index forwardListId keywordId.

#[export] Instance query_index_reader : IndexReader QueryIndex := {
  getInvertedListReadView := InvertedIndex_getInvertedListReadView;
  getKeywordOffset := InvertedIndex_getKeywordOffset;
  isValidTermPositionHit := isValidRecordTermHit;
  haveWordInRange := ForwardIndex_haveWordInRange }.

(** ** An index whose sides agree *)

Definition known (index : QueryIndex) (r : Z) : Prop := 0 <= r < Z.of_nat (length (forwardListDirectory index)).
Definition is_valid (index : QueryIndex) (r : Z) : bool := (getForwardList index r).2.
Definition list_of (index : QueryIndex) (l : Z) (rs : list Z) : Prop := getInvertedListReadView index l = Ok rs.
Definition keyword_of (index : QueryIndex) (l w : Z) : Prop := vec_at (keywordIds index) l = Ok w.

(** The forward lists hold the entries [es], and an inverted list the records that have
    its keyword: records that are gone may still be in it. *)
Record index_ok (index : QueryIndex) (es : Z -> list entry) : Prop := {
  io_entries r fl : getForwardList index r = (Some fl, true) ->
    has_entries (positionIndexType index) fl (es r) /\ StronglySorted Z.lt (map e_id (es r)) /\ Forall proper (es r);
  io_lists l rs : list_of index l rs -> exists w, keyword_of index l w /\
    forall r, r ∈ rs -> known index r /\ (is_valid index r = true -> w ∈ map e_id (es r));
  io_complete r e : is_valid index r = true -> e ∈ es r -> exists l rs, list_of index l rs /\ keyword_of index l (e_id e) /\ r ∈ rs }.

Section Laws.
Context (index : QueryIndex) (es : Z -> list entry) (Hok : index_ok index es).

Lemma valid_list r : is_valid index r = true -> exists fl, getForwardList index r = (Some fl, true).
Proof. unfold is_valid, getForwardList. destruct (vec_at _ r) as [[fl b]|]; cbn; [intros ->; by exists fl|done]. Qed.

Lemma invalid_list r : is_valid index r = false -> exists o, getForwardList index r = (o, false).
Proof. unfold is_valid. destruct (getForwardList index r) as [o b]; cbn. intros ->. by exists o. Qed.

(** Whether a hit is valid does not depend on what the list of attributes held. *)
Lemma valid_hit_any t fl l filter attrOp (i : nat) e matched : has_entries t fl l -> Forall proper l -> filter_ok filter attrOp -> l !! i = Some e ->
  exists m, ForwardList.isValidRecordTermHit t fl (Z.of_nat i) filter attrOp matched = Ok (passes t filter attrOp (e_attributes e), m, e_score e).
Proof.
  intros He Hp [Hs Hand] Hi. destruct (ForwardList.isEnabledAttributeBasedSearch t) eqn:Et.
  - destruct filter as [|f fs].
    + unfold ForwardList.isValidRecordTermHit, passes. rewrite (ForwardSearch.he_score _ _ _ He i e Hi), Et. cbn [rbind negb].
      destruct attrOp; [by destruct (Hand eq_refl)|by eexists|by eexists].
    + eexists. apply (ForwardSearch.valid_hit t fl l (f :: fs) attrOp He Hp Hs Hand i e matched Hi). intros [Hd|Hd]; congruence.
  - unfold ForwardList.isValidRecordTermHit, passes. rewrite (ForwardSearch.he_score _ _ _ He i e Hi), Et. cbn [rbind negb]. by eexists.
Qed.

(** The offset of the keyword of an inverted list in a forward list of its records. *)
Lemma offset_run r l rs w : list_of index l rs -> keyword_of index l w -> r ∈ rs ->
  InvertedIndex_getKeywordOffset index r l = Ok None /\ is_valid index r = false \/
  exists fl (i : nat) e, getForwardList index r = (Some fl, true) /\ es r !! i = Some e /\ e_id e = w /\
    InvertedIndex_getKeywordOffset index r l = Ok (Some (Z.of_nat i)).
Proof.
  intros Hl Hw Hr. destruct (io_lists _ _ Hok l rs Hl) as (w' & Hw' & Hin). unfold keyword_of in *. rewrite Hw in Hw'. injection Hw' as <-.
  destruct (Hin r Hr) as [Hk Hv]. unfold InvertedIndex_getKeywordOffset, ForwardIndex_getKeywordOffset. rewrite Hw. cbn [rbind].
  destruct (is_valid index r) eqn:E.
  - right. destruct (valid_list r E) as (fl & Hfl). destruct (io_entries _ _ Hok r fl Hfl) as (He & Hs & Hp). rewrite Hfl.
    destruct (ForwardSearch.keyword_offset fl _ w (ForwardSearch.he_ids _ _ _ He) Hs) as (p & Ho & _ & _ & _ & Hp'). rewrite Ho. cbn [rbind].
    destruct (Hp' (Hv eq_refl)) as [Hi _]. rewrite list_lookup_fmap_map in Hi. destruct (es r !! p) as [e|] eqn:Ei; [|done]. injection Hi as <-.
    by exists fl, p, e.
  - left. destruct (invalid_list r E) as (o & ->). by destruct o.
Qed.

#[export] Instance query_index_laws : IndexLaws index (known index).
Proof.
  constructor.
  - intros r l rs _ Hl Hr. destruct (io_lists _ _ Hok l rs Hl) as (w & Hw & _).
    destruct (offset_run r l rs w Hl Hw Hr) as [[Ho _]|(fl & i & e & _ & _ & _ & Ho)]; eexists; exact Ho.
  - intros r l o rs attributes op _ Hl Hr Hf Ho. destruct (io_lists _ _ Hok l rs Hl) as (w & Hw & _).
    destruct (offset_run r l rs w Hl Hw Hr) as [[Ho' _]|(fl & i & e & Hfl & Hi & _ & Ho')]; cbn in Ho; rewrite Ho in Ho'; [done|]. injection Ho' as ->.
    destruct (io_entries _ _ Hok r fl Hfl) as (He & _ & Hp). exists (passes (positionIndexType index) attributes op (e_attributes e)). intros matched.
    cbn [isValidTermPositionHit query_index_reader]. unfold isValidRecordTermHit. rewrite Hfl.
    destruct (valid_hit_any _ _ _ attributes op i e matched He Hp Hf Hi) as (m & ->). by do 2 eexists.
  - intros r lo hi attributes op [_ Hk] Hle [Hs Hand]. cbn [haveWordInRange query_index_reader]. unfold ForwardIndex_haveWordInRange.
    rewrite (proj2 (Z.leb_le _ _) Hle), (proj2 (Z.ltb_lt _ _) Hk). cbn [negb]. destruct (getForwardList index r) as [[fl|] [|]] eqn:Hfl; try by eexists.
    destruct (io_entries _ _ Hok r fl Hfl) as (He & Hsort & Hp). destruct (ForwardSearch.range_run _ fl (es r) attributes op He Hp Hs Hand lo hi Hsort) as [-> _]. by eexists.
Qed.

(** ** The records of a term *)

(** The range of ids of an active node. *)
Definition upper (term : Term) (a : active) : Z := match getTermType term with TERM_TYPE_COMPLETE => a_minId a | _ => a_maxId a end.
Definition of_term (term : Term) (w : Z) : bool := existsb (fun a => (a_minId a <=? w) && (w <=? upper term a)) (actives term).
Definition passes_filter (term : Term) (e : entry) : bool :=
  passes (positionIndexType index) (getAttributesToFilter term) (getFilterAttrOperation term) (e_attributes e).

(** A record is an answer to a term when it is valid and has a keyword of the term in
    attributes that pass the filter. *)
Definition matches_term (term : Term) (r : Z) : bool :=
  is_valid index r && existsb (fun e => of_term term (e_id e) && passes_filter term e) (es r).

(** The leaf nodes of a term are those whose keyword is in the range of an active node. *)
Definition covered (term : Term) : Prop :=
  forall l w, keyword_of index l w -> (exists x, x ∈ leaves term /\ l_list x = l) <-> of_term term w = true.

Lemma find_isSome {A} (f : A -> bool) l : (match List.find f l with Some _ => true | None => false end) = existsb f l.
Proof using. induction l as [|x l IH]; [done|]. cbn. by destruct (f x). Qed.

Lemma in_range_run term r a : known index r -> term_ok index (known index) term -> a ∈ actives term ->
  in_range index term r a = is_valid index r && existsb (fun e => (a_minId a <=? e_id e) && (e_id e <=? upper term a) && passes_filter term e) (es r).
Proof using Hok.
  intros [_ Hk] [_ Ha Hr [Hs Hand]] Hin. unfold in_range. cbn [haveWordInRange query_index_reader]. fold (upper term a). unfold ForwardIndex_haveWordInRange.
  rewrite Forall_forall in Hr. specialize (Hr a Hin). assert (a_minId a <= upper term a) as Hle by (unfold upper; destruct (getTermType term); lia).
  rewrite (proj2 (Z.leb_le _ _) Hle), (proj2 (Z.ltb_lt _ _) Hk). cbn [negb]. destruct (is_valid index r) eqn:E.
  - destruct (valid_list r E) as (fl & Hfl). rewrite Hfl. destruct (io_entries _ _ Hok r fl Hfl) as (He & Hsort & Hp).
    destruct (ForwardSearch.range_run _ fl (es r) (getAttributesToFilter term) (getFilterAttrOperation term) He Hp Hs Hand (a_minId a) (upper term a) Hsort) as [-> _].
    cbn [andb]. rewrite <- find_isSome. unfold ForwardSearch.in_range, ForwardSearch.accepts. fold (passes_filter term). by destruct (List.find _ (es r)).
  - destruct (invalid_list r E) as (o & ->). by destruct o.
Qed.

(** Verification accepts the answers to a term. *)
Lemma verified_matches term r : known index r -> term_ok index (known index) term -> verified index term r = matches_term term r.
Proof using Hok.
  intros Hk Ht. apply eq_bool_prop_intro. rewrite !Is_true_true. unfold verified, matches_term, of_term. rewrite andb_true_iff, !existsb_exists. split.
  - intros (a & Ha & Hr). rewrite (in_range_run term r a Hk Ht) in Hr by (by apply list_elem_of_In). apply andb_true_iff in Hr as [Hv Hr]. split; [done|].
    apply existsb_exists in Hr as (e & He & Hr). exists e. split; [done|]. apply andb_true_iff in Hr as [Hr Hp]. rewrite Hp, andb_true_r.
    apply existsb_exists. by exists a.
  - intros (Hv & e & He & Hr). apply andb_true_iff in Hr as [Hr Hp]. apply existsb_exists in Hr as (a & Ha & Hr). exists a. split; [done|].
    rewrite (in_range_run term r a Hk Ht) by (by apply list_elem_of_In). rewrite Hv. cbn [andb]. apply existsb_exists. exists e. split; [done|]. by rewrite Hr, Hp.
Qed.

Lemma has_hit_run term l rs w r : list_of index l rs -> keyword_of index l w -> r ∈ rs -> filter_ok (getAttributesToFilter term) (getFilterAttrOperation term) ->
  has_hit index term l r = true <-> is_valid index r = true /\ exists e, e ∈ es r /\ e_id e = w /\ passes_filter term e = true.
Proof using Hok.
  intros Hl Hw Hr Hf. unfold has_hit. cbn [getKeywordOffset isValidTermPositionHit query_index_reader].
  destruct (offset_run r l rs w Hl Hw Hr) as [[-> Hv]|(fl & i & e & Hfl & Hi & He & ->)]; [split; [done|intros [Hv' _]; congruence]|].
  destruct (io_entries _ _ Hok r fl Hfl) as (Hes & Hsort & Hp). unfold isValidRecordTermHit. rewrite Hfl.
  destruct (valid_hit_any _ _ _ (getAttributesToFilter term) (getFilterAttrOperation term) i e [] Hes Hp Hf Hi) as (m & ->). fold (passes_filter term e).
  split.
  - intros Hpass. split; [by unfold is_valid; rewrite Hfl|]. exists e. split; [by eapply list_elem_of_lookup_2|done].
  - intros (_ & e' & He' & Hid & Hpass). assert (e' = e) as ->; [|done]. apply list_elem_of_lookup in He' as (j & Hj).
    assert (forall i j a b, (i < j)%nat -> es r !! i = Some a -> es r !! j = Some b -> e_id a < e_id b) as Hlt.
    { intros i0 j0 a b Hij Ha Hb. apply (ForwardSearch.strict_lookup (map e_id (es r)) i0 j0); [done|by rewrite list_lookup_fmap_map, Ha|by rewrite list_lookup_fmap_map, Hb|done]. }
    destruct (Nat.lt_trichotomy i j) as [Hij|[->|Hij]]; [|congruence|].
    + specialize (Hlt i j e e' Hij Hi Hj). lia.
    + specialize (Hlt j i e' e Hij Hj Hi). lia.
Qed.

(** The scan reads them. *)
Lemma scanned_matches term r : known index r -> term_ok index (known index) term -> covered term ->
  existsb (Z.eqb r) (scanned index term) = matches_term term r.
Proof using Hok.
  intros Hk Ht Hc. apply eq_bool_prop_intro. rewrite !Is_true_true. unfold scanned, matches_term. rewrite andb_true_iff, !existsb_exists.
  assert (forall x, In x (leaves term) -> exists rs, list_of index (l_list x) rs /\ records_of index x = rs) as Hlists.
  { intros x Hx. pose proof (to_lists _ _ _ Ht) as Hall. rewrite List.Forall_forall in Hall. destruct (Hall x Hx) as (rs & Hrs & _). exists rs.
    split; [exact Hrs|]. unfold records_of. by rewrite Hrs. }
  split.
  - intros (r' & Hr & <-%Z.eqb_eq). apply in_map_iff in Hr as ([x r'] & <- & Hr). cbn [snd] in *. apply List.filter_In in Hr as [Hr Ha].
    unfold is_answer in Ha. cbn [fst snd] in Ha. apply in_flat_map in Hr as (y & Hy & Hr). apply in_map_iff in Hr as (r2 & [= -> ->] & Hr).
    destruct (Hlists x Hy) as (rs & Hrs & Heq). rewrite Heq in Hr. destruct (io_lists _ _ Hok _ _ Hrs) as (w & Hw & _).
    apply (has_hit_run term _ rs w r' Hrs Hw) in Ha as (Hv & e & He & <- & Hp); [|by apply list_elem_of_In|by apply (to_filter _ _ _ Ht)].
    split; [done|]. exists e. split; [by apply list_elem_of_In|]. rewrite Hp, andb_true_r. apply (Hc (l_list x)); [done|]. exists x. split; [by apply list_elem_of_In|done].
  - intros (Hv & e & He & Hm). apply andb_true_iff in Hm as [Hm Hp]. apply list_elem_of_In in He.
    destruct (io_complete _ _ Hok r e Hv He) as (l & rs & Hl & Hw & Hr). apply (Hc l _ Hw) in Hm as (x & Hx%list_elem_of_In & <-).
    exists r. split; [|apply Z.eqb_refl]. apply in_map_iff. exists (x, r). split; [done|]. apply List.filter_In. split.
    + apply in_flat_map. exists x. split; [done|]. apply in_map. destruct (Hlists x Hx) as (rs' & Hrs' & ->). unfold list_of in *. rewrite Hl in Hrs'.
      injection Hrs' as <-. by apply list_elem_of_In.
    + unfold is_answer. cbn [fst snd]. apply (has_hit_run term _ rs (e_id e) r Hl Hw Hr (to_filter _ _ _ Ht)). split; [done|]. by exists e.
Qed.

(** ** The records of a plan *)

(** The boolean combination of terms that a plan stands for. *)
Fixpoint evaluates (n : node) (r : Z) : bool :=
  match n with
  | UnionLowestLevelSimpleScan term _ _ _ | RandomAccessVerificationTerm term => matches_term term r
  | MergeSortedByID _ _ cs | MergeByShortestList _ _ cs | RandomAccessVerificationAnd cs => forallb (fun c => evaluates c r) cs
  | UnionSortedByID _ _ _ cs | RandomAccessVerificationOr cs => existsb (fun c => evaluates c r) cs
  | SortById _ c => evaluates c r
  | RandomAccessVerificationNot c => negb (evaluates c r)
  end.

(** The leaf nodes of every scan are those of its active nodes. *)
Fixpoint scans_covered (n : node) : Prop :=
  match n with
  | UnionLowestLevelSimpleScan term _ _ _ => covered term
  | MergeSortedByID _ _ cs | UnionSortedByID _ _ _ cs | MergeByShortestList _ _ cs => all_of scans_covered cs
  | SortById _ c => scans_covered c
  | _ => True
  end.

Lemma accepts_evaluates r n : known index r -> terms_ok index (known index) n -> accepts index n r = evaluates n r.
Proof using Hok.
  intros Hk. assert (forall cs, Forall (fun n => terms_ok index (known index) n -> accepts index n r = evaluates n r) cs -> all_of (terms_ok index (known index)) cs ->
    Forall (fun c => accepts index c r = evaluates c r) cs) as Hall.
  { intros cs Hcs Ht%all_of_Forall. rewrite Forall_forall in *. auto. }
  induction n as [term lists o c|more prev cs Hcs|more vis os cs Hcs|l c Hc|f i cs Hcs|term|cs Hcs|cs Hcs|c Hc] using node_rect';
    cbn [terms_ok accepts evaluates]; intros Ht; try (by apply verified_matches); try (by apply forallb_agree, Hall); [by apply Hc|by rewrite Hc].
Qed.

Lemma covered_agrees n : terms_ok index (known index) n -> scans_covered n -> agrees index (known index) n.
Proof using Hok.
  assert (forall cs, Forall (fun n => terms_ok index (known index) n -> scans_covered n -> agrees index (known index) n) cs ->
    all_of (terms_ok index (known index)) cs -> all_of scans_covered cs -> all_of (agrees index (known index)) cs) as Hall.
  { intros cs Hcs Ht%all_of_Forall Hc%all_of_Forall. apply all_of_Forall. rewrite Forall_forall in *. auto. }
  induction n as [term lists o c|more prev cs Hcs|more vis os cs Hcs|l c Hc|f i cs Hcs|term|cs Hcs|cs Hcs|c Hc] using node_rect';
    cbn [terms_ok scans_covered agrees]; intros Ht Hcov; auto.
  intros r Hk. by rewrite (scanned_matches term r Hk Ht Hcov), (verified_matches term r Hk Ht).
Qed.

End Laws.

End PlanIndex.
