(* ===== verification/PlanSearch.v ===== *)
(** * Searching with a plan (core/operation/physical_plan/)

    The properties of plans, with a small index as an example. *)
From S2P Require Import Prelude ForwardList ForwardSearch PlanOperators PlanStreams PlanUnion PlanScan PlanScores PlanKeeps PlanTree PlanIndex.
From Stdlib Require Import ZArith Lia List Bool SpecFloat Sorted.
From stdpp Require Import base list sets.
Open Scope Z_scope.

Module PlanSearch.
Import ForwardSearch(entry, mk_entry, e_id).
Import PlanOperators PlanStreams PlanUnion PlanScan PlanScores PlanTree PlanIndex.

(** ** A small index *)

(** Three records: the first has the keywords 5 and 7, the second 7, and the third was
    deleted; two inverted lists. *)
Definition ex_fl1 : ForwardList.ForwardList := ForwardList.mk_fl 2 [] [] [5; 0; 0; 0; 7; 0; 0; 0; 0; 0; 0; 0; 0; 60; 0; 60] 0 0 16 0 0 0.
Definition ex_fl2 : ForwardList.ForwardList := ForwardList.mk_fl 1 [] [] [7; 0; 0; 0; 0; 0; 0; 60] 0 0 8 0 0 0.
Definition ex_index : QueryIndex :=
  mk_index ForwardList.POSITION_INDEX_NONE [(ex_fl1, true); (ex_fl2, true); (ex_fl1, false)] [[0; 2]; [0; 1; 2]] [5; 7].
Definition ex_es (r : Z) : list entry := if r =? 0 then [mk_entry 5 [1] 15360; mk_entry 7 [1] 15360] else [mk_entry 7 [1] 15360].

Definition f_one : float := S754_finite false 8388608 (-23).
Definition ex_score (_ _ _ : Z) (_ : bool) (_ _ : float) : float := f_one.

(** The greatest record and the others. *)
Fixpoint ex_pop (cmp : item -> item -> bool) (l : list item) : option (item * list item) :=
  match l with
  | [] => None
  | x :: l' => Some match ex_pop cmp l' with None => (x, []) | Some (m, rest) => if cmp x m then (m, x :: rest) else (x, m :: rest) end
  end.

(** A prefix with the ids from 5 to 7, and the keyword 5. *)
Definition ex_prefix : Term := mk_term TERM_TYPE_PREFIX 1 f_one f_one [mk_leaf 1 2 0 0; mk_leaf 1 3 0 1] [mk_active 1 0 5 7 false] [] ForwardList.ATTRIBUTES_OP_OR.
Definition ex_word : Term := mk_term TERM_TYPE_COMPLETE 1 f_one f_one [mk_leaf 2 2 0 0] [mk_active 2 0 5 5 true] [] ForwardList.ATTRIBUTES_OP_OR.

(** The records with the prefix and without the word. *)
Definition ex_plan : node :=
  MergeByShortestList false 0
    [UnionSortedByID false [] [] [SortById [] (UnionLowestLevelSimpleScan ex_prefix [] 0 0)]; RandomAccessVerificationNot (RandomAccessVerificationTerm ex_word)].

Definition ex_params : VerificationParameters := mk_params f_zero 0 [] [] [] [] [].

Lemma ex_pops : pops_greatest ex_pop.
Proof.
  intros cmp l. induction l as [|x l IH]; [done|]. intros _ Hw. cbn [ex_pop]. destruct l as [|y l].
  { exists x, []. split; [done|]. split; [done|constructor]. }
  destruct (IH ltac:(done)) as (m & rest & -> & Hp & Hmax).
  { destruct Hw as [W1 W2 W3]. constructor; [intros ? ?; apply W1; by right|intros ? ? ? ? ? ?; apply W2; by right|intros ? ? ? ? ? ?; apply W3; by right]. }
  assert (m ∈ x :: y :: l) as Hm by (right; rewrite <- Hp; by left). assert (forall z, z ∈ rest -> z ∈ x :: y :: l) as Hrest by (intros z Hz; right; rewrite <- Hp; by right).
  rewrite Forall_forall in Hmax. destruct (cmp x m) eqn:E.
  - exists m, (x :: rest). split; [done|]. split; [rewrite <- Hp; by constructor|]. apply Forall_forall. intros z [->|Hz]%elem_of_cons; [|by apply Hmax].
    apply not_true_iff_false. intros E'. pose proof (sw_trans _ _ Hw x m x ltac:(by left) Hm ltac:(by left) E E') as Et.
    rewrite (sw_irrefl _ _ Hw x ltac:(by left)) in Et. done.
  - exists x, (m :: rest). split; [done|]. split; [by rewrite Hp|]. apply Forall_forall. intros z [->|Hz]%elem_of_cons; [done|].
    apply (sw_ntrans _ _ Hw x m z); [by left|done|by apply Hrest|done|by apply Hmax].
Qed.

Lemma ex_record r fl : getForwardList ex_index r = (Some fl, true) -> r = 0 /\ fl = ex_fl1 \/ r = 1 /\ fl = ex_fl2.
Proof.
  unfold getForwardList. destruct (vec_at _ r) as [[fl' b]|] eqn:E; [|done]. intros [= -> ->]. apply vec_at_nth in E as [Hr E]. cbn [ex_index forwardListDirectory] in E.
  destruct (Z.to_nat r) as [|[|[|n]]] eqn:Er; cbn in E; try done; injection E as <-; [left|right]; split; (done || lia).
Qed.

Lemma ex_list l rs : list_of ex_index l rs -> l = 0 /\ rs = [0; 2] \/ l = 1 /\ rs = [0; 1; 2].
Proof.
  unfold list_of. cbn [getInvertedListReadView query_index_reader]. unfold InvertedIndex_getInvertedListReadView. destruct (negb _); [done|].
  intros [Hl E]%vec_at_nth. cbn [ex_index invertedIndex] in E. destruct (Z.to_nat l) as [|[|n]] eqn:El; cbn in E; try done; injection E as <-; [left|right]; split; (done || lia).
Qed.

Lemma ex_ok : index_ok ex_index ex_es.
Proof.
  constructor.
  - intros r fl [[-> ->]|[-> ->]]%ex_record; (split; [|split; [repeat constructor|repeat constructor; discriminate]]); constructor; try done.
    + split; [reflexivity|]. intros [|[|i]] x Hx; cbn in Hx; try discriminate; injection Hx as <-; reflexivity.
    + intros [|[|i]] x Hx; cbn in Hx; try discriminate; injection Hx as <-; reflexivity.
    + split; [reflexivity|]. intros [|i] x Hx; cbn in Hx; try discriminate; injection Hx as <-; reflexivity.
    + intros [|i] x Hx; cbn in Hx; try discriminate; injection Hx as <-; reflexivity.
  - intros l rs [[-> ->]|[-> ->]]%ex_list; eexists; (split; [reflexivity|]); intros r Hr; repeat (apply elem_of_cons in Hr as [->|Hr]);
      try (by apply elem_of_nil in Hr); (split; [unfold known; cbn; lia|]); cbn; intros ?; first [discriminate|set_solver].
  - intros r e Hv He. destruct (valid_list ex_index r Hv) as (fl & [[-> _]|[-> _]]%ex_record); cbn in He.
    + apply elem_of_cons in He as [->|He]; [exists 0, [0; 2]; repeat split; set_solver|]. apply list_elem_of_singleton in He as ->. exists 1, [0; 1; 2]. repeat split; set_solver.
    + apply list_elem_of_singleton in He as ->. exists 1, [0; 1; 2]. repeat split; set_solver.
Qed.

Lemma ex_terms : terms_ok ex_index (known ex_index) ex_plan.
Proof.
  assert (forall x, x = 0 \/ x = 1 \/ x = 2 -> known ex_index x) as Hk by (intros x Hx; unfold known; cbn; lia).
  cbn [ex_plan terms_ok all_of fold_right]. split; [split; [|done]|split; [|done]]; constructor; try done; try (by repeat constructor).
  - cbn [ex_prefix leaves]. repeat constructor; eexists; (split; [reflexivity|]); repeat constructor; apply Hk; lia.
  - cbn [ex_word leaves]. repeat constructor; eexists; (split; [reflexivity|]); repeat constructor; apply Hk; lia.
Qed.

Lemma ex_fresh : fresh ex_score f_zero ex_plan.
Proof.
  cbn [ex_plan fresh all_of fold_right length]. split; [lia|]. split; [|done]. split; [done|]. split; [done|]. split; [|done]. split; [done|]. split; [|done].
  cbn [numeric]. intros x (s & d & b & ->). reflexivity.
Qed.

Lemma ex_covered : scans_covered ex_index ex_plan.
Proof.
  cbn [ex_plan scans_covered all_of fold_right]. split; [|done]. split; [|done]. intros l w [Hl Hw]%vec_at_nth. cbn [ex_index keywordIds] in Hw.
  destruct (Z.to_nat l) as [|[|n]] eqn:E; cbn in Hw; try done; injection Hw as <-; (split; [done|]); intros _; [exists (mk_leaf 1 2 0 0)|exists (mk_leaf 1 3 0 1)];
    (split; [cbn; set_solver|cbn; lia]).
Qed.

(** ** Plans over an index *)

(** (C3) A plan over an index searches the records: over an index whose forward lists and
    inverted lists agree, opening a fresh plan of scans, conjunctions, disjunctions,
    sorting and verifications, whose scans list the leaf nodes of their active nodes,
    and reading it to its end gives exactly the records of the index for which the
    boolean combination of its terms holds: a term holds of a record that is not
    deleted and has a keyword in the range of an active node of the term, in attributes
    that pass the filter of the term. *)
Theorem plan_searches (index : QueryIndex) (es : Z -> list entry)
    (computeTermRecordRuntimeScore : Z -> Z -> Z -> bool -> float -> float -> float) (prefixMatchPenalty : float)
    (pop_heap : (item -> item -> bool) -> list item -> option (item * list item)) (indeterminate : VerificationParameters) (depth fuel : nat) (n : node) :
  index_ok index es -> pops_greatest pop_heap -> fresh computeTermRecordRuntimeScore prefixMatchPenalty n -> terms_ok index (known index) n ->
  scans_covered index n -> reading n = true -> (height n <= depth)%nat -> (size index n <= fuel)%nat ->
  exists n' out, open index computeTermRecordRuntimeScore prefixMatchPenalty pop_heap indeterminate depth fuel n = Ok n' /\
    delivers (getNext index computeTermRecordRuntimeScore prefixMatchPenalty pop_heap indeterminate depth fuel) n' out /\
    forall r, r ∈ ids out <-> known index r /\ evaluates index es n r = true.
Proof.
  intros Hok Hpop Hfr Ht Hcov Hre Hd Hf. pose proof (query_index_laws index es Hok) as Hlaws.
  destruct (open_run index computeTermRecordRuntimeScore prefixMatchPenalty pop_heap indeterminate (known index) Hpop fuel depth n Hfr Ht Hd Hf)
    as (n' & out & Ho & [H1 H2 _ H4 _ _]).
  exists n', out. split; [done|]. split; [done|]. intros r. pose proof (covered_agrees index es Hok n Ht Hcov) as Ha.
  assert (r ∈ ids out -> known index r) as Hk by (by apply known_of_ids). rewrite H2. split.
  - intros Hr. assert (known index r) as Hkr by (by apply Hk, H2). split; [done|].
    by rewrite <- (accepts_evaluates index es Hok r n Hkr Ht), <- (answers_accepts index (known index) r n Hkr Ha Hre).
  - intros [Hkr Hr]. by rewrite (answers_accepts index (known index) r n Hkr Ha Hre), (accepts_evaluates index es Hok r n Hkr Ht).
Qed.

Lemma plan_searches_witness :
  exists n' out, open ex_index ex_score f_zero ex_pop ex_params 4 20 ex_plan = Ok n' /\
    delivers (getNext ex_index ex_score f_zero ex_pop ex_params 4 20) n' out /\
    forall r, r ∈ ids out <-> known ex_index r /\ evaluates ex_index ex_es ex_plan r = true.
Proof.
  apply (plan_searches ex_index ex_es ex_score f_zero ex_pop ex_params 4 20 ex_plan).
  - exact ex_ok.
  - exact ex_pops.
  - exact ex_fresh.
  - exact ex_terms.
  - exact ex_covered.
  - reflexivity.
  - vm_compute. lia.
  - vm_compute. lia.
Defined.

(** It answers the second record. *)
Example ex_plan_answer :
  (let? n := open ex_index ex_score f_zero ex_pop ex_params 4 20 ex_plan in
   let? (n, r) := getNext ex_index ex_score f_zero ex_pop ex_params 4 20 n in
   let? (n, s) := getNext ex_index ex_score f_zero ex_pop ex_params 4 20 n in Ok (option_map recordId r, s)) = Ok (Some 1, None).
Proof. vm_compute. reflexivity. Qed.

(** ** Plans over any index *)

Section Properties.
Context {I : Type} `{IndexReader I} (index : I) (known : Z -> Prop) `{!IndexLaws index known}.
Context (computeTermRecordRuntimeScore : Z -> Z -> Z -> bool -> float -> float -> float) (prefixMatchPenalty : float).
Context (pop_heap : (item -> item -> bool) -> list item -> option (item * list item)).
Context (indeterminate : VerificationParameters).

Local Abbreviation getNext := (getNext index computeTermRecordRuntimeScore prefixMatchPenalty pop_heap indeterminate).
Local Abbreviation open := (open index computeTermRecordRuntimeScore prefixMatchPenalty pop_heap indeterminate).
Local Abbreviation verifyByRandomAccess := (verifyByRandomAccess index computeTermRecordRuntimeScore prefixMatchPenalty).
Local Abbreviation fresh := (fresh computeTermRecordRuntimeScore prefixMatchPenalty).

(** A physical plan answers its query: opening a plan as it is built, with loops that
    may run as often as the plan has operators and list entries, ends without a fault,
    and reading from it until it gives nothing delivers exactly the records that the
    plan means, fewer than its size, in the order of their ids when the root is an
    operator on sorted streams. *)
Theorem plan_delivers (depth fuel : nat) (n : node) :
  pops_greatest pop_heap -> fresh n -> terms_ok index known n -> (height n <= depth)%nat -> (size index n <= fuel)%nat ->
  exists n' out, open depth fuel n = Ok n' /\ delivers (getNext depth fuel) n' out /\
    (forall r, r ∈ ids out <-> answers index n r = true) /\ (length out < size index n)%nat /\ (ordered n = true -> sorted out).
Proof.
  intros Hpop Hfr Hok Hd Hf.
  destruct (open_run index computeTermRecordRuntimeScore prefixMatchPenalty pop_heap indeterminate known Hpop fuel depth n Hfr Hok Hd Hf) as (n' & out & Ho & [H1 H2 H3 _ H5 _]).
  by exists n', out.
Qed.

(** Where the lists of every scanned term hold the records that its ranges accept, a plan
    delivers what the verification by random access accepts. *)
Lemma plan_verified (depth fuel : nat) (n : node) :
  pops_greatest pop_heap -> fresh n -> terms_ok index known n -> agrees index known n -> reading n = true -> (height n <= depth)%nat -> (size index n <= fuel)%nat ->
  exists n' out, open depth fuel n = Ok n' /\ delivers (getNext depth fuel) n' out /\
    forall r p, known r -> exists p', verifyByRandomAccess r n p = Ok (bool_decide (r ∈ ids out), p').
Proof.
  intros Hpop Hfr Hok Ha Hre Hd Hf.
  destruct (open_run index computeTermRecordRuntimeScore prefixMatchPenalty pop_heap indeterminate known Hpop fuel depth n Hfr Hok Hd Hf) as (n' & out & Ho & [H1 H2 _ _ _ _]).
  exists n', out. split; [done|]. split; [done|]. intros r p Hr.
  destruct (verify_run index computeTermRecordRuntimeScore prefixMatchPenalty known r n Hr Hok p) as (p' & Hv). exists p'. rewrite Hv. do 2 f_equal.
  rewrite <- (answers_accepts index known r n Hr Ha Hre). symmetry. destruct (answers index n r) eqn:E.
  - by apply bool_decide_eq_true, H2.
  - apply bool_decide_eq_false. rewrite H2. congruence.
Qed.

End Properties.

(** (C7) Sequential reading and verification by random access agree: over an index whose
    forward lists and inverted lists agree, a fresh plan whose scans list the leaf nodes
    of their active nodes opens, and read to its end it delivers a record of the index
    exactly when the verification of that record, which reads the forward list and no
    inverted list, accepts it, whatever parameters the verification starts with. *)
Theorem delivered_iff_verified (index : QueryIndex) (es : Z -> list entry)
    (computeTermRecordRuntimeScore : Z -> Z -> Z -> bool -> float -> float -> float) (prefixMatchPenalty : float)
    (pop_heap : (item -> item -> bool) -> list item -> option (item * list item)) (indeterminate : VerificationParameters) (depth fuel : nat) (n : node) :
  index_ok index es -> pops_greatest pop_heap -> fresh computeTermRecordRuntimeScore prefixMatchPenalty n -> terms_ok index (known index) n ->
  scans_covered index n -> reading n = true -> (height n <= depth)%nat -> (size index n <= fuel)%nat ->
  exists n' out, open index computeTermRecordRuntimeScore prefixMatchPenalty pop_heap indeterminate depth fuel n = Ok n' /\
    delivers (getNext index computeTermRecordRuntimeScore prefixMatchPenalty pop_heap indeterminate depth fuel) n' out /\
    forall r p, known index r -> exists p',
      verifyByRandomAccess index computeTermRecordRuntimeScore prefixMatchPenalty r n p = Ok (bool_decide (r ∈ ids out), p').
Proof.
  intros Hok Hpop Hfr Ht Hcov Hre Hd Hf. pose proof (query_index_laws index es Hok) as Hlaws.
  by apply (plan_verified index (known index)); [..|exact (covered_agrees index es Hok n Ht Hcov)| | |].
Qed.

Lemma delivered_iff_verified_witness :
  exists n' out, open ex_index ex_score f_zero ex_pop ex_params 4 20 ex_plan = Ok n' /\
    delivers (getNext ex_index ex_score f_zero ex_pop ex_params 4 20) n' out /\
    forall r p, known ex_index r -> exists p', verifyByRandomAccess ex_index ex_score f_zero r ex_plan p = Ok (bool_decide (r ∈ ids out), p').
Proof.
  apply (delivered_iff_verified ex_index ex_es ex_score f_zero ex_pop ex_params 4 20 ex_plan).
  - exact ex_ok.
  - exact ex_pops.
  - exact ex_fresh.
  - exact ex_terms.
  - exact ex_covered.
  - reflexivity.
  - vm_compute. lia.
  - vm_compute. lia.
Defined.

(** ** Operators over any streams *)

(** The conjunction of sorted streams, whatever they are: the flag, the results and the
    children of the operator as [open] leaves them deliver the ids that every stream
    has, each once and in increasing order; the record for an id joins the first
    record with that id of every stream, and its score is the sum of their scores. *)
Theorem conjunction_delivers {C} (next : C -> result (C * option item)) (fuel : nat) (cs : list C) (ls : list (list item)) :
  Forall2 (delivers next) cs ls -> Forall sorted ls -> ls <> [] -> (total ls < fuel)%nat ->
  exists out, delivers (merge_next next fuel) (true, [], cs) out /\ increasing out /\
    (forall r, r ∈ ids out <-> Forall (fun l => r ∈ ids l) ls) /\
    Forall (fun y => exists ms, Forall2 (fun m l => first_with (recordId y) l = Some m) ms ls /\
      recordRuntimeScore y = computeAggregatedRuntimeScoreForAnd (map recordRuntimeScore ms) /\
      matchingPrefixes y = concat (map matchingPrefixes ms)) out.
Proof.
  intros Hcs Hs Hne Hf. destruct (merge_delivers next fuel cs ls Hcs Hs Hne Hf) as (out & H1 & H2 & _ & H4 & H5). exists out.
  split; [done|]. split; [done|]. split; [exact H4|]. apply Forall_forall. intros y Hy. destruct (H5 y Hy) as (x & ms & -> & Hms). by exists ms.
Qed.

(** Streams that are lists. *)
Definition ex_next (l : list item) : result (list item * option item) :=
  match l with [] => Ok ([], None) | x :: l' => Ok (l', Some x) end.
Definition ex_item (r prefix : Z) : item := mk_item r 0 f_one [prefix] [] [] [] [].
Definition ex_streams : list (list item) := [[ex_item 2 1; ex_item 5 1; ex_item 9 1]; [ex_item 5 2; ex_item 7 2; ex_item 9 2]].

Lemma ex_delivers l : delivers ex_next l l.
Proof. induction l as [|x l IH]; cbn; by eexists. Qed.

Lemma ex_sorted : Forall sorted ex_streams.
Proof. repeat constructor; cbn; lia. Qed.

Lemma conjunction_delivers_witness :
  exists out, delivers (merge_next ex_next 7) (true, [], ex_streams) out /\ increasing out /\
    (forall r, r ∈ ids out <-> Forall (fun l => r ∈ ids l) ex_streams) /\
    Forall (fun y => exists ms, Forall2 (fun m l => first_with (recordId y) l = Some m) ms ex_streams /\
      recordRuntimeScore y = computeAggregatedRuntimeScoreForAnd (map recordRuntimeScore ms) /\
      matchingPrefixes y = concat (map matchingPrefixes ms)) out.
Proof.
  apply (conjunction_delivers ex_next 7 ex_streams ex_streams).
  - repeat (apply Forall2_cons_2; [apply ex_delivers|]). constructor.
  - exact ex_sorted.
  - discriminate.
  - vm_compute. lia.
Defined.

(** The disjunction of sorted streams delivers the ids of all of them, each once and in
    increasing order; the record for an id joins the first record with that id of every
    stream that has one, and its score is the largest of theirs. *)
Theorem disjunction_delivers {C} (next : C -> result (C * option item)) (fuel : nat) (cs : list C) (os : list (option item)) (ls : list (list item)) :
  Forall3 (holds next) cs os ls -> Forall sorted ls -> (total ls <= fuel)%nat ->
  exists out, delivers (union_next next fuel) (true, [], os, cs) out /\ increasing out /\
    (forall r, r ∈ ids out <-> Exists (fun l => r ∈ ids l) ls) /\
    Forall (fun y => let ms := omap (first_with (recordId y)) ls in
      recordRuntimeScore y = computeAggregatedRuntimeScoreForOr (map recordRuntimeScore ms) /\
      matchingPrefixes y = concat (map matchingPrefixes ms)) out.
Proof.
  intros Hcs Hs Hf. destruct (union_delivers next fuel os cs ls Hcs Hs Hf) as (out & H1 & H2 & _ & H4 & H5). exists out.
  split; [done|]. split; [done|]. split; [exact H4|]. apply Forall_forall. intros y Hy. destruct (H5 y Hy) as (x & Hx).
  split; [exact (f_equal recordRuntimeScore Hx)|exact (f_equal matchingPrefixes Hx)].
Qed.

Lemma disjunction_delivers_witness :
  exists out, delivers (union_next ex_next 6) (true, [], map hd_error ex_streams, map (@tl item) ex_streams) out /\ increasing out /\
    (forall r, r ∈ ids out <-> Exists (fun l => r ∈ ids l) ex_streams) /\
    Forall (fun y => let ms := omap (first_with (recordId y)) ex_streams in
      recordRuntimeScore y = computeAggregatedRuntimeScoreForOr (map recordRuntimeScore ms) /\
      matchingPrefixes y = concat (map matchingPrefixes ms)) out.
Proof.
  apply (disjunction_delivers ex_next 6 (map (@tl item) ex_streams) (map hd_error ex_streams) ex_streams).
  - repeat (apply Forall3_cons; [eexists; split; [reflexivity|apply ex_delivers]|]). constructor.
  - exact ex_sorted.
  - vm_compute. lia.
Defined.

Lemma skip_all_nothing {C} (next : C -> result (C * option item)) fuel vis cs : forall os, (length cs <= length os)%nat -> Forall (fun o => o = None) (take (length cs) os) ->
  skip_all next fuel cs os vis = Ok (cs, os).
Proof.
  induction cs as [|c cs IH]; intros os Hl Ho; [by destruct os|]. destruct os as [|o os]; [cbn in Hl; lia|]. cbn [length take] in Hl, Ho.
  apply Forall_cons in Ho as [-> Ho]. cbn [skip_all]. assert (skip_loop next fuel c None vis = Ok (c, None)) as -> by (by destruct fuel). cbn [rbind].
  rewrite IH by (done || lia). done.
Qed.

Lemma skip_all_lengths {C} (next : C -> result (C * option item)) fuel vis cs : forall os cs' os', skip_all next fuel cs os vis = Ok (cs', os') ->
  length cs' = length cs /\ length os' = length os /\ (length cs <= length os)%nat.
Proof.
  induction cs as [|c cs IH]; intros [|o os] cs' os' Hs; cbn [skip_all] in Hs; try done; try (injection Hs as <- <-; cbn; lia).
  apply rbind_Ok in Hs as ([c1 o1] & _ & Hs). apply rbind_Ok in Hs as ([cs1 os1] & Hr%IH & [= <- <-]). cbn [length]. lia.
Qed.

(** (C37) A disjunction that was read to its end answers nothing when it is closed and opened
    again, whatever its children deliver then: [close] forgets the visited records and
    not the records read ahead, and [open] puts the new ones behind the old. *)
Theorem reopened_union_is_silent {I : Type} `{IndexReader I} (index : I)
    (computeTermRecordRuntimeScore : Z -> Z -> Z -> bool -> float -> float -> float) (prefixMatchPenalty : float)
    (pop_heap : (item -> item -> bool) -> list item -> option (item * list item)) (indeterminate : VerificationParameters) (depth fuel : nat) (vis : list Z) (os : list (option item)) (cs : list node) (n1 n2 : node) :
  let getNext := getNext index computeTermRecordRuntimeScore prefixMatchPenalty pop_heap indeterminate in
  let open := open index computeTermRecordRuntimeScore prefixMatchPenalty pop_heap indeterminate in
  getNext (S depth) fuel (UnionSortedByID true vis os cs) = Ok (n1, None) -> open (S depth) fuel (close n1) = Ok n2 ->
  exists n3, getNext (S depth) fuel n2 = Ok (n3, None).
Proof.
  intros getNext open. subst getNext open. cbn [PlanOperators.getNext]. unfold union_getNext. intros Hg Ho. apply rbind_Ok in Hg as ([[[[more1 vis1] os1] cs1] r] & Hu & [= <- ->]).
  apply rbind_Ok in Hu as ([cs2 os2] & Hs & Hu). pose proof (min_steps (take (length cs2) os2) None) as Hmin.
  destruct (fold_left min_step (take (length cs2) os2) None) as [m|]; [apply rbind_Ok in Hu as ([[? ?] ?] & _ & Hu); done|]. injection Hu as <- <- <- <-.
  destruct Hmin as [_ Hnone]. destruct (skip_all_lengths _ _ _ _ _ _ _ Hs) as (Hl1 & Hl2 & Hle).
  cbn [close PlanOperators.open] in Ho. unfold union_open in Ho. apply rbind_Ok in Ho as (cs3 & Hcs3 & Ho). apply rbind_Ok in Ho as (nexts & Hn & [= <-]).
  cbn [PlanOperators.getNext]. unfold union_getNext.
  assert (length (map fst nexts) = length cs2) as Hl.
  { assert (forall A B (f : A -> result B) l l', for_children f l = Ok l' -> length l' = length l) as Hfc.
    { intros A B f. induction l as [|x l IH]; intros l' Hr; cbn [for_children] in Hr; [by injection Hr as <-|].
      apply rbind_Ok in Hr as (y & _ & Hr). apply rbind_Ok in Hr as (k & Hk%IH & [= <-]). cbn [length]. by rewrite Hk. }
    rewrite length_map, (Hfc _ _ _ _ _ Hn), (Hfc _ _ _ _ _ Hcs3), length_map. done. }
  assert (take (length cs2) (os2 ++ map snd nexts) = take (length cs2) os2) as Htake by (rewrite take_app_le by lia; done).
  rewrite skip_all_nothing; [|rewrite Hl, length_app; lia|rewrite Hl, Htake; by apply Forall_forall]. cbn [rbind]. rewrite Hl, Htake.
  assert (fold_left min_step (take (length cs2) os2) None = None) as ->; [|by eexists].
  assert (forall l, (forall o, o ∈ l -> o = None) -> fold_left min_step l None = None) as Hfold; [|by apply Hfold].
  induction l as [|o l IH]; intros Hall; [done|]. cbn [fold_left]. rewrite (Hall o) by set_solver. apply IH. set_solver.
Qed.

(** The union over the prefix, read to its end. *)
Definition ex_union : node := UnionSortedByID false [] [] [SortById [] (UnionLowestLevelSimpleScan ex_prefix [] 0 0)].

Definition unwrap {A} (d : A) (r : result A) : A := match r with Ok x => x | Err _ => d end.

(** The union opened and read twice; read once more; closed and opened again. *)
Definition ex_read (n : node) : node := (unwrap (n, None) (getNext ex_index ex_score f_zero ex_pop ex_params 3 10 n)).1.
Definition ex_opened : node := unwrap ex_union (open ex_index ex_score f_zero ex_pop ex_params 3 10 ex_union).

Definition ex_members (n : node) : list Z * list (option item) * list node :=
  match n with UnionSortedByID _ vis os cs => (vis, os, cs) | _ => ([], [], []) end.
Definition ex_drained : node := let m := ex_members (ex_read (ex_read ex_opened)) in UnionSortedByID true m.1.1 m.1.2 m.2.
Definition ex_reopened : node := unwrap ex_union (open ex_index ex_score f_zero ex_pop ex_params 3 10 (close (ex_read ex_drained))).

Lemma reopened_union_is_silent_witness : exists n3, getNext ex_index ex_score f_zero ex_pop ex_params 3 10 ex_reopened = Ok (n3, None).
Proof.
  apply (reopened_union_is_silent ex_index ex_score f_zero ex_pop ex_params 2 10 (ex_members ex_drained).1.1 (ex_members ex_drained).1.2
    (ex_members ex_drained).2 (ex_read ex_drained) ex_reopened); vm_compute; reflexivity.
Defined.

(** The same union opened once answers both records. *)
Example ex_union_answers : answers ex_index ex_union 0 = true /\ answers ex_index ex_union 1 = true.
Proof. vm_compute. split; reflexivity. Qed.

End PlanSearch.
