(* ===== verification/KeywordSearch.v ===== *)
(** * The keyword search (core/operation/physical_plan/KeywordSearchOperator.cpp)

    The operator that runs a query: it builds a plan for the exact query, reads records
    that it has not yet, and, when they are too few and the query is fuzzy, does the
    same with a plan for the fuzzy query.  How a plan is built from the logical plan is
    a parameter. *)
From S2P Require Import Prelude ForwardList PlanOperators PlanStreams.
From Stdlib Require Import ZArith Lia List Bool.
From stdpp Require Import base list sets.
Open Scope Z_scope.

Module KeywordSearch.
Import PlanOperators PlanStreams.

Inductive QueryType := SearchTypeTopKQuery | SearchTypeGetAllResultsQuery | SearchTypeRetrieveById.

(** What the operator reads of the logical plan, and the limits of a run. *)
Record LogicalPlan := mk_logical {
  getQueryType : QueryType;
  isFuzzy : bool;
  offset : Z;
  numberOfResultsToRetrieve : Z }.
Record RuntimeParameters := mk_runtime { getAllMaximumNumberOfResults : Z; getAllTopKReplacementK : Z }.

(** The operator; the constructor does not set the cursor. *)
Record KeywordSearchOperator := mk_search { results : list item; cursorOnResults : option Z }.

Definition numberOfResultsToRetrievePolicy (logicalPlan : LogicalPlan) (runtime : RuntimeParameters) (estimatedNumberOfResults : Z) : Z :=
  match getQueryType logicalPlan with
  | SearchTypeTopKQuery => wrap32 (offset logicalPlan + numberOfResultsToRetrieve logicalPlan)
  | SearchTypeGetAllResultsQuery =>
      if getAllMaximumNumberOfResults runtime <? estimatedNumberOfResults then getAllTopKReplacementK runtime else 2 ^ 32 - 1
  | _ => 0
  end.

Section Search.
(** A plan for the exact or the fuzzy query, if there is one, and the estimated number
    of its results; opening a plan and reading from it. *)
Context (build : bool -> option node) (estimated : bool -> Z).
Context (open : node -> result node) (getNext : node -> result (node * option item)).

(** The records whose ids were not found before, until there are [k] ids. *)
Fixpoint collect (fuel : nat) (k : Z) (plan : node) (resultIds : list Z) (found : list item) : result (list Z * list item) :=
  match fuel with
  | O => Err OutOfFuel
  | S fuel' =>
      let? (plan, r) := getNext plan in
      match r with
      | None => Ok (resultIds, found)
      | Some newRecord =>
          if visited resultIds (recordId newRecord) then collect fuel' k plan resultIds found
          else
            let resultIds := resultIds ++ [recordId newRecord] in
            let found := found ++ [newRecord] in
            if k <=? Z.of_nat (length resultIds) then Ok (resultIds, found) else collect fuel' k plan resultIds found
      end
  end.

(** One round of the loop over exact and fuzzy; [None] when there is no plan. *)
Definition search_round (fuel : nat) (k : Z) (fuzzy : bool) (resultIds : list Z) (found : list item) : result (option (list Z * list item)) :=
  match build fuzzy with
  | None => Ok None
  | Some plan => let? plan := open plan in let? found := collect fuel k plan resultIds found in Ok (Some found)
  end.

Definition search_open (fuel : nat) (logicalPlan : LogicalPlan) (runtime : RuntimeParameters) (op : KeywordSearchOperator) :
    result KeywordSearchOperator :=
  let getAll := match getQueryType logicalPlan with SearchTypeGetAllResultsQuery => true | _ => false end in
  let fuzzy := if getAll then isFuzzy logicalPlan else false in
  let k := numberOfResultsToRetrievePolicy logicalPlan runtime (estimated fuzzy) in
  let? r := search_round fuel k fuzzy [] (results op) in
  match r with
  | None => Ok op
  | Some (resultIds, found) =>
      if getAll then Ok (mk_search found (Some 0))
      else if isFuzzy logicalPlan && (Z.of_nat (length found) <? k) then
        let k := numberOfResultsToRetrievePolicy logicalPlan runtime (estimated true) in
        let? r := search_round fuel k true resultIds found in
        match r with
        | None => Ok (mk_search found (cursorOnResults op))
        | Some (_, found) => Ok (mk_search found (Some 0))
        end
      else Ok (mk_search found (Some 0))
  end.

(** Reading a cursor that was not set is a fault here. *)
Definition search_getNext (op : KeywordSearchOperator) : result (KeywordSearchOperator * option item) :=
  let? cursor := of_option NullDeref (cursorOnResults op) in
  if Z.of_nat (length (results op)) <=? cursor then Ok (op, None)
  else let? r := vec_at (results op) cursor in Ok (mk_search (results op) (Some (cursor + 1)), Some r).

(** ** What it finds *)

(** The elements of [l] that are neither in [seen] nor before in [l]. *)
Fixpoint firsts (seen l : list Z) : list Z :=
  match l with [] => [] | x :: l' => if visited seen x then firsts seen l' else x :: firsts (seen ++ [x]) l' end.

Lemma firsts_app l1 : forall seen l2, firsts seen (l1 ++ l2) = firsts seen l1 ++ firsts (seen ++ firsts seen l1) l2.
Proof.
  induction l1 as [|x l1 IH]; intros seen l2; cbn [app firsts]; [by rewrite app_nil_r|]. destruct (visited seen x); [apply IH|].
  rewrite IH. cbn [app]. by rewrite <- app_assoc.
Qed.

Lemma firsts_fresh l : forall seen, NoDup (firsts seen l) /\ (forall x, x ∈ firsts seen l <-> x ∈ l /\ x ∉ seen).
Proof.
  induction l as [|x l IH]; intros seen; cbn [firsts]; [split; [constructor|set_solver]|]. destruct (visited seen x) eqn:E.
  - apply visited_spec in E. destruct (IH seen) as [H1 H2]. split; [done|]. intros y. rewrite H2. set_solver.
  - assert (x ∉ seen) as Hx by (intros Hv%visited_spec; congruence). destruct (IH (seen ++ [x])) as [H1 H2]. split.
    + constructor; [|done]. rewrite H2. set_solver.
    + intros y. rewrite elem_of_cons, H2, elem_of_app, list_elem_of_singleton, elem_of_cons.
      destruct (decide (y = x)) as [->|]; [tauto|]. tauto.
Qed.

(** The collected records are the new ones in the order of the plan, up to [k]. *)
Lemma collect_run k out : forall fuel plan found, delivers getNext plan out -> (length out < fuel)%nat -> Z.of_nat (length found) < k ->
  exists found', collect fuel k plan (ids found) found = Ok (ids (found ++ found'), found ++ found') /\
    ids (found ++ found') = take (Z.to_nat k) (ids found ++ firsts (ids found) (ids out)).
Proof.
  induction out as [|x out IH]; intros [|fuel] plan found Hd Hf Hk; try (cbn in Hf; lia); cbn [collect].
  - destruct Hd as (p & ->). cbn [rbind]. exists []. rewrite app_nil_r. split; [done|]. change (ids []) with (@nil Z). cbn [firsts]. rewrite app_nil_r, take_ge; [done|].
    unfold ids. rewrite length_map. lia.
  - destruct Hd as (p & -> & Hd). cbn [rbind]. change (ids (x :: out)) with (recordId x :: ids out). cbn [firsts length] in *.
    destruct (visited (ids found) (recordId x)) eqn:E.
    + apply IH; [done|lia|done].
    + assert (ids (found ++ [x]) = ids found ++ [recordId x]) as Hids by (unfold ids; by rewrite map_app).
      assert (length (ids found ++ [recordId x]) = length (found ++ [x])) as Hlen by (rewrite <- Hids; unfold ids; apply length_map). rewrite Hlen.
      destruct (Z.leb_spec k (Z.of_nat (length (found ++ [x])))) as [Hle|Hgt].
      * exists [x]. rewrite Hids. split; [done|]. rewrite length_app in Hle, Hlen. cbn [length] in Hle, Hlen.
        replace (ids found ++ recordId x :: firsts (ids found ++ [recordId x]) (ids out)) with
          ((ids found ++ [recordId x]) ++ firsts (ids found ++ [recordId x]) (ids out)) by (by rewrite <- app_assoc).
        rewrite take_app_length'; [done|]. rewrite length_app in *. cbn [length] in *. lia.
      * rewrite <- Hids. destruct (IH fuel p (found ++ [x]) Hd ltac:(lia) Hgt) as (found' & -> & Hf'). exists (x :: found').
        rewrite <- app_assoc in Hf' |- *. split; [done|]. cbn [app] in Hf'. rewrite Hf', Hids. by rewrite <- app_assoc.
Qed.

Lemma search_round_run fuel k fuzzy plan plan' out found : build fuzzy = Some plan -> open plan = Ok plan' -> delivers getNext plan' out -> (length out < fuel)%nat ->
  Z.of_nat (length found) < k -> exists found', search_round fuel k fuzzy (ids found) found = Ok (Some (ids (found ++ found'), found ++ found')) /\
    ids (found ++ found') = take (Z.to_nat k) (ids found ++ firsts (ids found) (ids out)).
Proof.
  intros Hb Ho Hd Hf Hk. unfold search_round. rewrite Hb, Ho. cbn [rbind]. destruct (collect_run k out fuel plan' found Hd Hf Hk) as (found' & -> & Hids).
  by exists found'.
Qed.

End Search.

(** (C27) A search for the best [k] records answers records of the exact query before those
    of the fuzzy one: with plans for both that deliver [exact] and [fuzzy], a new
    operator ends with the first [k] of their distinct records in this order, fuzzy
    ones only where the query is fuzzy, and with its cursor before the first. *)
Theorem search_exact_then_fuzzy (build : bool -> option node) (estimated : bool -> Z) (open : node -> result node)
    (getNext : node -> result (node * option item)) (logicalPlan : LogicalPlan) (runtime : RuntimeParameters) (fuel : nat)
    (plan_exact plan_fuzzy opened_exact opened_fuzzy : node) (exact fuzzy : list item) :
  let k := wrap32 (offset logicalPlan + numberOfResultsToRetrieve logicalPlan) in
  getQueryType logicalPlan = SearchTypeTopKQuery -> 0 < k ->
  build false = Some plan_exact -> open plan_exact = Ok opened_exact -> delivers getNext opened_exact exact -> (length exact < fuel)%nat ->
  build true = Some plan_fuzzy -> open plan_fuzzy = Ok opened_fuzzy -> delivers getNext opened_fuzzy fuzzy -> (length fuzzy < fuel)%nat ->
  exists found, search_open build estimated open getNext fuel logicalPlan runtime (mk_search [] None) = Ok (mk_search found (Some 0)) /\
    ids found = take (Z.to_nat k) (firsts [] (ids exact ++ if isFuzzy logicalPlan then ids fuzzy else [])) /\ NoDup (ids found).
Proof.
  intros k Ht Hk Hb1 Ho1 Hd1 Hf1 Hb2 Ho2 Hd2 Hf2. unfold search_open, numberOfResultsToRetrievePolicy. rewrite Ht. fold k. cbn [results cursorOnResults]. change (@nil Z) with (ids []).
  destruct (search_round_run build open getNext fuel k false plan_exact opened_exact exact [] Hb1 Ho1 Hd1 Hf1 Hk) as (found & -> & Hids). cbn [rbind app] in Hids |- *.
  change (ids []) with (@nil Z) in Hids. cbn [app] in Hids.
  assert (forall l n, NoDup (take n (firsts [] l))) as Hnd.
  { intros l n. destruct (firsts_fresh l []) as [Hnd _]. rewrite <- (take_drop n (firsts [] l)) in Hnd. by apply NoDup_app in Hnd as [Hnd _]. }
  assert (length found = length (ids found)) as Hlen by (unfold ids; by rewrite length_map).
  destruct (isFuzzy logicalPlan) eqn:Ef; cbn [andb].
  - destruct (Z.ltb_spec (Z.of_nat (length found)) k) as [Hlt|Hge].
    + destruct (search_round_run build open getNext fuel k true plan_fuzzy opened_fuzzy fuzzy found Hb2 Ho2 Hd2 Hf2 Hlt) as (found' & -> & Hids'). cbn [rbind].
      exists (found ++ found'). split; [done|].
      assert (ids found = firsts [] (ids exact)) as Hall.
      { rewrite Hids. apply take_ge. rewrite Hids, length_take in Hlen. lia. }
      assert (ids (found ++ found') = take (Z.to_nat k) (firsts [] (ids exact ++ ids fuzzy))) as Heq by (rewrite firsts_app; cbn [app]; by rewrite <- Hall).
      split; [done|]. rewrite Heq. apply Hnd.
    + exists found. split; [done|]. assert (ids found = take (Z.to_nat k) (firsts [] (ids exact ++ ids fuzzy))) as Heq.
      { rewrite firsts_app, take_app_le; [done|]. rewrite Hids, length_take in Hlen. lia. }
      split; [done|]. rewrite Heq. apply Hnd.
  - exists found. split; [done|]. rewrite app_nil_r. split; [done|]. rewrite Hids. apply Hnd.
Qed.

(** Plans that deliver a list. *)
Definition ex_item (r : Z) : item := mk_item r 0 f_zero [] [] [] [] [].
Definition ex_plan (l : list item) : node := SortById l (RandomAccessVerificationAnd []).
Definition ex_next (n : node) : result (node * option item) := match n with SortById (x :: l) c => Ok (SortById l c, Some x) | _ => Ok (n, None) end.
Definition ex_exact : list item := [ex_item 4; ex_item 2].
Definition ex_fuzzy : list item := [ex_item 2; ex_item 8; ex_item 9].

Lemma ex_plan_delivers l : delivers ex_next (ex_plan l) l.
Proof. induction l as [|x l IH]; cbn; by eexists. Qed.

Lemma search_exact_then_fuzzy_witness :
  exists found, search_open (fun fuzzy => Some (ex_plan (if fuzzy then ex_fuzzy else ex_exact))) (fun _ => 0) Ok ex_next 5
      (mk_logical SearchTypeTopKQuery true 1 2) (mk_runtime 0 0) (mk_search [] None) = Ok (mk_search found (Some 0)) /\
    ids found = [4; 2; 8] /\ NoDup (ids found).
Proof.
  apply (search_exact_then_fuzzy (fun fuzzy => Some (ex_plan (if fuzzy then ex_fuzzy else ex_exact))) (fun _ => 0) Ok ex_next
    (mk_logical SearchTypeTopKQuery true 1 2) (mk_runtime 0 0) 5 (ex_plan ex_exact) (ex_plan ex_fuzzy) (ex_plan ex_exact) (ex_plan ex_fuzzy) ex_exact ex_fuzzy);
    try reflexivity; try apply ex_plan_delivers; vm_compute; lia.
Defined.

End KeywordSearch.
