(* ===== verification/ForwardScores.v ===== *)
(** * The fixed part of a forward list under changes of its scores (core/index/ForwardIndex.h)

    A forward list stands for its ids, the products of frequency and boosts, the static
    scores and the occurrences of each keyword; writing one score changes that score
    and nothing else that the getters read. *)
From S2P Require Import Prelude Uleb128 RecordAcl ForwardList ForwardSearch ForwardLayout ForwardRoundtrip ForwardRecord.
From Stdlib Require Import ZArith Lia List Bool Sorted.
From stdpp Require Import base gmap list fin_maps sorting.
Open Scope Z_scope.

Module ForwardScores.
Import ForwardList ForwardSearch ForwardLayout ForwardRoundtrip.

Definition bytes (w : nat) (l : list Z) : list Z := concat (map (le_split w) l).

Lemma bytes_width (w : nat) (l : list Z) : Forall (fun x => Z.of_nat (length (le_split w x)) = Z.of_nat w) l.
Proof. apply Forall_forall. intros x _. by rewrite length_le_split. Qed.

Lemma length_bytes (w : nat) l : length (bytes w l) = (w * length l)%nat.
Proof. pose proof (length_concat_map (le_split w) (Z.of_nat w) l (bytes_width w l)). unfold bytes. lia. Qed.

Lemma bytes_slice (w : nat) (l : list Z) (i : nat) x pre post off wz : l !! i = Some x -> wz = Z.of_nat w ->
  off = Z.of_nat (length pre) + wz * Z.of_nat i -> slice (pre ++ bytes w l ++ post) off wz = Ok (le_split w x).
Proof. intros Hi -> ->. exact (strided_slice (le_split w) (Z.of_nat w) l i x pre post (bytes_width w l) Hi). Qed.

Lemma bytes_blit (w : nat) (l : list Z) (i : nat) y pre post off : (i < length l)%nat ->
  off = Z.of_nat (length pre) + Z.of_nat w * Z.of_nat i ->
  blit (pre ++ bytes w l ++ post) off (le_split w y) = Ok (pre ++ bytes w (<[i := y]> l) ++ post).
Proof.
  intros Hi ->. destruct (lookup_lt_is_Some_2 l i Hi) as [x Hx]. rewrite <- (take_drop_middle l i x Hx) at 1. rewrite insert_take_drop by done.
  unfold bytes. rewrite !map_app, !concat_app. cbn [map concat]. rewrite <- !app_assoc, !(app_assoc pre).
  apply blit_app; [|by rewrite !length_le_split].
  rewrite length_app. pose proof (length_bytes w (take i l)) as Hb. unfold bytes in Hb. rewrite Hb, length_take. lia.
Qed.

(** What a forward list stands for. *)
Record contents := mk_contents { c_ids : list Z; c_tfs : list Z; c_scores : list Z; c_occurrences : list (list occurrence) }.

Record stands_for (t : PositionIndexType) (fl : ForwardList) (c : contents) : Prop := {
  sf_layout : laid_out t fl (c_occurrences c) (bytes 4 (c_ids c) ++ bytes 2 (c_tfs c) ++ bytes 2 (c_scores c));
  sf_ids : length (c_ids c) = length (c_occurrences c);
  sf_tfs : length (c_tfs c) = length (c_occurrences c);
  sf_scores : length (c_scores c) = length (c_occurrences c);
  sf_u32 : Forall is_u32 (c_ids c);
  sf_tf16 : Forall (is_uint 16) (c_tfs c);
  sf_score16 : Forall (is_uint 16) (c_scores c);
  sf_found : Forall found (c_occurrences c);
  sf_number : Z.of_nat (length (c_occurrences c)) < KEYWORD_THRESHOLD;
  sf_size : list_size t (c_occurrences c) < 2 ^ 32 }.

Definition set_score (i : nat) (s : Z) (c : contents) : contents :=
  mk_contents (c_ids c) (c_tfs c) (<[i := s]> (c_scores c)) (c_occurrences c).

(** The entries that a search reads. *)
Fixpoint entries_of (ids : list Z) (ls : list (list occurrence)) (scores : list Z) : list entry :=
  match ids, ls, scores with
  | k :: ids, l :: ls, s :: scores => mk_entry k (map fst (runs l)) s :: entries_of ids ls scores
  | _, _, _ => []
  end.
Definition content_entries (c : contents) : list entry := entries_of (c_ids c) (c_occurrences c) (c_scores c).

Lemma entries_of_lookup ids : forall ls scores (i : nat) e, entries_of ids ls scores !! i = Some e ->
  exists k l s, ids !! i = Some k /\ ls !! i = Some l /\ scores !! i = Some s /\ e = mk_entry k (map fst (runs l)) s.
Proof.
  induction ids as [|k ids IH]; intros [|l ls] [|s scores] i e H; try done. destruct i as [|i]; cbn in *; [|by apply IH].
  injection H as <-. by exists k, l, s.
Qed.

Lemma entries_of_ids ids : forall ls scores, length ids = length ls -> length scores = length ls -> map e_id (entries_of ids ls scores) = ids.
Proof. induction ids as [|k ids IH]; intros [|l ls] [|s scores] H1 H2; try done. cbn in *. f_equal. apply IH; lia. Qed.

Lemma content_ids t fl c : stands_for t fl c -> map e_id (content_entries c) = c_ids c.
Proof. intros H. apply entries_of_ids; [apply H|apply H]. Qed.

Section Contents.
Context (t : PositionIndexType) (fl : ForwardList) (c : contents) (H : stands_for t fl c).

Lemma content_number : numberOfKeywords fl = Z.of_nat (length (c_ids c)).
Proof. rewrite (lo_number _ _ _ _ (sf_layout _ _ _ H)). f_equal. symmetry. apply H. Qed.

Lemma small_number : 8 * Z.of_nat (length (c_ids c)) < 2 ^ 32.
Proof.
  pose proof (sf_size _ _ _ H) as Hs. rewrite (sf_ids _ _ _ H). unfold list_size in Hs. lia.
Qed.

Lemma tf_pointer : getKeywordTfBoostProductsPointer fl = Z.of_nat (length (bytes 4 (c_ids c))).
Proof using H.
  unfold getKeywordTfBoostProductsPointer, getKeywordIdsSizeInBytes. rewrite content_number. pose proof small_number.
  rewrite wrap_id by (unfold is_uint; lia). rewrite length_bytes. lia.
Qed.

Lemma scores_pointer : getKeywordRecordStaticScoresPointer fl = Z.of_nat (length (bytes 4 (c_ids c) ++ bytes 2 (c_tfs c))).
Proof using H.
  unfold getKeywordRecordStaticScoresPointer, getKeywordIdsSizeInBytes, getKeywordTfBoostProductsSizeInBytes. rewrite content_number. pose proof small_number.
  rewrite !wrap_id by (unfold is_uint; lia). rewrite length_app, !length_bytes, (sf_tfs _ _ _ H), <- (sf_ids _ _ _ H). lia.
Qed.

Lemma id_read (i : nat) x : c_ids c !! i = Some x -> getKeywordId fl (Z.of_nat i) = Ok x.
Proof.
  intros Hi. unfold getKeywordId. rewrite (lo_data _ _ _ _ (sf_layout _ _ _ H)), <- !app_assoc.
  pose proof (bytes_slice 4 (c_ids c) i x []) as E. cbn [app] in E. rewrite (E _ _ _ Hi) by (cbn [length]; lia). cbn [rbind]. f_equal. apply le_join_split.
  pose proof (sf_u32 _ _ _ H) as Hu. rewrite Forall_forall in Hu. apply Hu. by eapply list_elem_of_lookup_2.
Qed.

Lemma content_tf (i : nat) x : c_tfs c !! i = Some x -> getKeywordTfBoostProduct fl (Z.of_nat i) = Ok x.
Proof.
  intros Hi. unfold getKeywordTfBoostProduct. rewrite tf_pointer, (lo_data _ _ _ _ (sf_layout _ _ _ H)), <- !app_assoc.
  rewrite (bytes_slice 2 (c_tfs c) i x (bytes 4 (c_ids c)) _ _ _ Hi) by lia. cbn [rbind]. f_equal. apply le_join_split.
  pose proof (sf_tf16 _ _ _ H) as Hu. rewrite Forall_forall in Hu. apply Hu. by eapply list_elem_of_lookup_2.
Qed.

Lemma content_score (i : nat) x : c_scores c !! i = Some x -> getKeywordRecordStaticScore fl (Z.of_nat i) = Ok x.
Proof.
  intros Hi. unfold getKeywordRecordStaticScore. rewrite scores_pointer, (lo_data _ _ _ _ (sf_layout _ _ _ H)), (app_assoc (bytes 4 _)), <- (app_assoc (bytes 4 _ ++ _)).
  rewrite (bytes_slice 2 (c_scores c) i x _ _ _ _ Hi) by lia. cbn [rbind]. f_equal. apply le_join_split.
  pose proof (sf_score16 _ _ _ H) as Hu. rewrite Forall_forall in Hu. apply Hu. by eapply list_elem_of_lookup_2.
Qed.

Lemma content_has_ids : has_ids fl (c_ids c).
Proof. split; [apply content_number|intros i x; apply id_read]. Qed.

Lemma content_has_entries : has_entries t fl (content_entries c).
Proof.
  constructor.
  - rewrite (content_ids t fl c H). apply content_has_ids.
  - intros i e m He Et. apply entries_of_lookup in He as (k & l & s & _ & Hl & _ & ->).
    eapply attribute_list_run; [apply H|apply H|apply H|done|done].
  - intros i e He. apply entries_of_lookup in He as (k & l & s & _ & _ & Hs & ->). by apply content_score.
Qed.

(** A score is written: that score changes. *)
Lemma content_set_score (i : nat) s : (i < length (c_ids c))%nat -> is_uint 16 s ->
  exists fl', setKeywordRecordStaticScore fl (Z.of_nat i) s = Ok fl' /\ stands_for t fl' (set_score i s c).
Proof.
  intros Hi Hs. pose proof (sf_layout _ _ _ H) as Hlo. pose proof (lo_data _ _ _ _ Hlo) as Hd. set (rest := attribute_part t _ ++ _) in Hd.
  set (pre := bytes 4 (c_ids c) ++ bytes 2 (c_tfs c)).
  assert (data fl = pre ++ bytes 2 (c_scores c) ++ rest) as Hd' by (rewrite Hd; unfold pre; by rewrite <- !app_assoc).
  exists (with_data fl (pre ++ bytes 2 (<[i := s]> (c_scores c)) ++ rest)). split.
  - unfold setKeywordRecordStaticScore. pose proof (sf_number _ _ _ H). rewrite <- (sf_ids _ _ _ H) in *. destruct (Z.leb_spec (Z.of_nat i) KEYWORD_THRESHOLD); [|lia].
    rewrite scores_pointer, Hd'. fold pre. rewrite (bytes_blit 2 (c_scores c) i s pre rest); [done| |lia]. by rewrite (sf_scores _ _ _ H), <- (sf_ids _ _ _ H).
  - constructor; try apply H; cbn [set_score c_ids c_tfs c_scores c_occurrences].
    + rewrite (app_assoc (bytes 4 _)), (app_assoc pre). fold pre. apply (laid_out_fixed t fl _ _ _ rest Hlo Hd).
      unfold pre. rewrite !length_app, !length_bytes, length_insert. lia.
    + rewrite length_insert. apply H.
    + apply Forall_insert; [apply H|done].
Qed.

(** The keyword of an id is found by the binary search, if the ids are sorted, and by a scan. *)
Lemma content_offset (v : Z) : StronglySorted Z.lt (c_ids c) -> v ∈ c_ids c ->
  exists p : nat, getKeywordOffset fl v = Ok (Z.of_nat p) /\ getKeywordOffsetByLinearScan fl v = Ok (Z.of_nat p) /\ c_ids c !! p = Some v.
Proof.
  intros Hs Hv. destruct (lower_bound_run fl (c_ids c) v content_has_ids Hs) as (p & Hp & [Hle Hlo Hhi]).
  apply list_elem_of_lookup in Hv as (j & Hj). assert (p <= j)%nat as Hpj.
  { destruct (Nat.le_gt_cases p j); [done|]. pose proof (Hlo j v Hj ltac:(lia)). lia. }
  destruct (lookup_lt_is_Some_2 (c_ids c) p) as [x Hx]; [apply lookup_lt_Some in Hj; lia|]. pose proof (Hhi p x Hx ltac:(lia)) as Hge.
  assert (p = j) as ->. { destruct (decide (p = j)); [done|]. pose proof (strict_lookup (c_ids c) p j x v Hs Hx Hj). lia. }
  exists j. split; [exact Hp|]. split; [|done]. unfold getKeywordOffsetByLinearScan. rewrite content_number, Nat2Z.id.
  apply (linear_scan_run fl (c_ids c) v j content_has_ids) with (iter := O); [|done|done|lia].
  intros i y Hy Hij ->. pose proof (Hlo i v Hy Hij). lia.
Qed.
End Contents.

(** ** The scores of a new record, one after the other *)

(** The scores are written up to some keyword; [rest] is behind them. *)
Record scoring (t : PositionIndexType) (fl : ForwardList) (c : contents) (rest : list Z) : Prop := {
  sc_layout : laid_out t fl (c_occurrences c) (bytes 4 (c_ids c) ++ bytes 2 (c_tfs c) ++ bytes 2 (c_scores c) ++ rest);
  sc_ids : length (c_ids c) = length (c_occurrences c);
  sc_tfs : length (c_tfs c) = length (c_occurrences c);
  sc_u32 : Forall is_u32 (c_ids c);
  sc_tf16 : Forall (is_uint 16) (c_tfs c);
  sc_score16 : Forall (is_uint 16) (c_scores c);
  sc_found : Forall found (c_occurrences c);
  sc_number : Z.of_nat (length (c_occurrences c)) < KEYWORD_THRESHOLD;
  sc_size : list_size t (c_occurrences c) < 2 ^ 32 }.

Lemma scoring_done t fl c rest : scoring t fl c rest -> length (c_scores c) = length (c_occurrences c) -> stands_for t fl c.
Proof.
  intros H Hl. pose proof (lo_fixed _ _ _ _ (sc_layout _ _ _ _ H)) as Hf. rewrite !length_app, !length_bytes in Hf.
  pose proof (sc_ids _ _ _ _ H). pose proof (sc_tfs _ _ _ _ H). pose proof (sc_layout _ _ _ _ H) as Hlo.
  destruct rest; [|cbn in Hf; lia]. rewrite app_nil_r in Hlo. constructor; (done || apply H).
Qed.

Section Scoring.
Context (t : PositionIndexType) (fl : ForwardList) (c : contents) (rest : list Z) (Hsc : scoring t fl c rest).

Lemma scoring_number : numberOfKeywords fl = Z.of_nat (length (c_ids c)).
Proof. rewrite (lo_number _ _ _ _ (sc_layout _ _ _ _ Hsc)). f_equal. symmetry. apply Hsc. Qed.

Lemma scoring_pointers : getKeywordTfBoostProductsPointer fl = Z.of_nat (length (bytes 4 (c_ids c))) /\
  getKeywordRecordStaticScoresPointer fl = Z.of_nat (length (bytes 4 (c_ids c) ++ bytes 2 (c_tfs c))).
Proof using Hsc.
  unfold getKeywordRecordStaticScoresPointer, getKeywordTfBoostProductsPointer, getKeywordIdsSizeInBytes, getKeywordTfBoostProductsSizeInBytes. rewrite scoring_number.
  assert (8 * Z.of_nat (length (c_ids c)) < 2 ^ 32).
  { pose proof (sc_size _ _ _ _ Hsc) as Hs. rewrite (sc_ids _ _ _ _ Hsc). unfold list_size in Hs. lia. }
  rewrite !wrap_id by (unfold is_uint; lia). rewrite length_app, !length_bytes, (sc_tfs _ _ _ _ Hsc), <- (sc_ids _ _ _ _ Hsc). lia.
Qed.

Lemma scoring_tf (i : nat) x : c_tfs c !! i = Some x -> getKeywordTfBoostProduct fl (Z.of_nat i) = Ok x.
Proof using Hsc.
  intros Hi. unfold getKeywordTfBoostProduct. rewrite (proj1 scoring_pointers), (lo_data _ _ _ _ (sc_layout _ _ _ _ Hsc)), <- !app_assoc.
  rewrite (bytes_slice 2 (c_tfs c) i x (bytes 4 (c_ids c)) _ _ _ Hi) by lia. cbn [rbind]. f_equal. apply le_join_split.
  pose proof (sc_tf16 _ _ _ _ Hsc) as Hu. rewrite Forall_forall in Hu. apply Hu. by eapply list_elem_of_lookup_2.
Qed.

Lemma scoring_set_tf (i : nat) y : (i < length (c_ids c))%nat -> is_uint 16 y -> exists fl', setKeywordTfBoostProduct fl (Z.of_nat i) y = Ok fl' /\
  scoring t fl' (mk_contents (c_ids c) (<[i := y]> (c_tfs c)) (c_scores c) (c_occurrences c)) rest.
Proof using Hsc.
  intros Hi Hy. pose proof (sc_layout _ _ _ _ Hsc) as Hlo. pose proof (lo_data _ _ _ _ Hlo) as Hd. set (post := attribute_part t _ ++ _) in Hd.
  set (pre := bytes 4 (c_ids c)) in *. set (mid := bytes 2 (c_scores c) ++ rest) in *.
  assert (data fl = pre ++ bytes 2 (c_tfs c) ++ mid ++ post) as Hd' by (rewrite Hd; by rewrite <- !app_assoc).
  exists (with_data fl (pre ++ bytes 2 (<[i := y]> (c_tfs c)) ++ mid ++ post)). pose proof (sc_number _ _ _ _ Hsc). rewrite <- (sc_ids _ _ _ _ Hsc) in *. split.
  - unfold setKeywordTfBoostProduct. destruct (Z.leb_spec (Z.of_nat i) KEYWORD_THRESHOLD); [|lia].
    rewrite (proj1 scoring_pointers), Hd'. fold pre. rewrite (bytes_blit 2 (c_tfs c) i y pre (mid ++ post)); [done| |lia].
    by rewrite (sc_tfs _ _ _ _ Hsc), <- (sc_ids _ _ _ _ Hsc).
  - constructor; try apply Hsc; cbn [c_ids c_tfs c_scores c_occurrences].
    + fold mid. rewrite (app_assoc (bytes 2 _) mid), (app_assoc pre _ post). apply (laid_out_fixed t fl _ _ _ post Hlo Hd).
      rewrite !length_app, !length_bytes, length_insert. lia.
    + rewrite length_insert. apply Hsc.
    + apply Forall_insert; [apply Hsc|done].
Qed.

Lemma scoring_push (i : nat) s : i = length (c_scores c) -> (i < length (c_ids c))%nat -> is_uint 16 s -> exists fl',
  setKeywordRecordStaticScore fl (Z.of_nat i) s = Ok fl' /\
  scoring t fl' (mk_contents (c_ids c) (c_tfs c) (c_scores c ++ [s]) (c_occurrences c)) (drop 2 rest).
Proof using Hsc.
  intros -> Hi Hs. destruct scoring_pointers as [_ Eptr]. pose proof (sc_layout _ _ _ _ Hsc) as Hlo. pose proof (lo_data _ _ _ _ Hlo) as Hd. set (post := attribute_part t _ ++ _) in Hd.
  pose proof (lo_fixed _ _ _ _ Hlo) as Hf. rewrite !length_app, !length_bytes in Hf. pose proof (sc_ids _ _ _ _ Hsc). pose proof (sc_tfs _ _ _ _ Hsc).
  destruct rest as [|b0 [|b1 rest']] eqn:Erest; [cbn in Hf; lia|cbn in Hf; lia|]. cbn [drop] in *.
  set (pre := (bytes 4 (c_ids c) ++ bytes 2 (c_tfs c)) ++ bytes 2 (c_scores c)) in *.
  assert (data fl = pre ++ [b0; b1] ++ rest' ++ post) as Hd' by (rewrite Hd; unfold pre; by rewrite <- !app_assoc).
  exists (with_data fl (pre ++ le_split 2 s ++ rest' ++ post)). pose proof (sc_number _ _ _ _ Hsc). split.
  - unfold setKeywordRecordStaticScore. destruct (Z.leb_spec (Z.of_nat (length (c_scores c))) KEYWORD_THRESHOLD); [|lia].
    rewrite Eptr, Hd'. rewrite blit_app; [done| |by rewrite length_le_split]. unfold pre. rewrite (length_app (_ ++ _) (bytes 2 _)), length_bytes. lia.
  - assert (bytes 2 (c_scores c ++ [s]) = bytes 2 (c_scores c) ++ le_split 2 s) as Eb by (unfold bytes; by rewrite map_app, concat_app).
    constructor; try apply Hsc; cbn [c_ids c_tfs c_scores c_occurrences].
    + rewrite Eb, <- app_assoc. rewrite (app_assoc (bytes 4 _)), (app_assoc (_ ++ _) (bytes 2 (c_scores c))). fold pre.
      rewrite (app_assoc (le_split 2 s)), (app_assoc pre _ post). apply (laid_out_fixed t fl _ _ _ post Hlo Hd).
      unfold pre. rewrite !length_app, !length_bytes, length_le_split. cbn [length]. lia.
    + apply Forall_app. split; [apply Hsc|by constructor].
Qed.
End Scoring.

(** What addRecord builds, before the scores are written. *)
Definition built_tf (t : PositionIndexType) (m : hits_map) (tfBoost : Z -> TokenAttributeHits -> Z) (k : Z * (list Z * Z)) : Z :=
  match m !! k.2.1 with Some h => tfBoost (frequency t h) h | None => 0 end.
Definition built (t : PositionIndexType) (m : hits_map) (tfBoost : Z -> TokenAttributeHits -> Z) (ks : list (Z * (list Z * Z))) (ls : list (list occurrence)) : contents :=
  mk_contents (map fst ks) (map (built_tf t m tfBoost) ks) [] ls.

Lemma built_run t m tfBoost ks ls ind key roles : Forall2 (analyzed m) ks ls -> Z.of_nat (length ks) < KEYWORD_THRESHOLD -> list_size t ls < 2 ^ 32 ->
  Forall (fun k => is_u32 k.1) ks -> (forall tf h, is_uint 16 (tfBoost tf h)) ->
  exists fl rest, addRecord_list ind tfBoost t key roles ks m = Ok fl /\ scoring t fl (built t m tfBoost ks ls) rest.
Proof.
  intros Hks Hn Hsz Hid Htf. destruct (build_run t m tfBoost ks ls Hks Hn Hsz ind key roles) as (fl & rest & E & Hlo & _).
  exists fl, rest. split; [done|]. pose proof (same_length m ks ls Hks) as Hlen. constructor; cbn [built c_ids c_tfs c_scores c_occurrences].
  - assert (bytes 4 (map fst ks) = concat (map id_bytes ks)) as -> by (unfold bytes; by rewrite map_map).
    assert (bytes 2 (map (built_tf t m tfBoost) ks) = concat (map (tf_bytes t m tfBoost) ks)) as ->; [|exact Hlo].
    unfold bytes. rewrite map_map. f_equal. apply map_ext. intros k. unfold built_tf, tf_bytes. by destruct (m !! k.2.1).
  - by rewrite length_map.
  - by rewrite length_map.
  - by rewrite Forall_map.
  - apply Forall_map, Forall_forall. intros k _. cbn. unfold built_tf. destruct (m !! k.2.1); [apply Htf|unfold is_uint; lia].
  - constructor.
  - by eapply all_found.
  - by rewrite <- Hlen.
  - done.
Qed.

(** A forward list with given contents. *)
Definition image (t : PositionIndexType) (c : contents) : ForwardList :=
  let ls := c_occurrences c in let size (l : list Z) := Z.of_nat (length l) in
  let d := (bytes 4 (c_ids c) ++ bytes 2 (c_tfs c) ++ bytes 2 (c_scores c)) ++
    attribute_part t ls ++ position_part t ls ++ offset_part t ls ++ synonym_part t ls ++ charLen_part t ls in
  mk_fl (Z.of_nat (length ls)) [] [] d (size (attribute_part t ls)) (size (position_part t ls)) (size d) (size (offset_part t ls)) (size (charLen_part t ls))
    (size (synonym_part t ls)).

Lemma image_stands t c : length (c_ids c) = length (c_occurrences c) -> length (c_tfs c) = length (c_occurrences c) ->
  length (c_scores c) = length (c_occurrences c) -> Forall is_u32 (c_ids c) -> Forall (is_uint 16) (c_tfs c) -> Forall (is_uint 16) (c_scores c) ->
  Forall found (c_occurrences c) -> Z.of_nat (length (c_occurrences c)) < KEYWORD_THRESHOLD -> list_size t (c_occurrences c) < 2 ^ 32 ->
  stands_for t (image t c) c.
Proof.
  intros H1 H2 H3 H4 H5 H6 H7 H8 H9. constructor; try done. constructor; try done. rewrite !length_app, !length_bytes. lia.
Qed.

End ForwardScores.
