(* ===== verification/CowPlain.v ===== *)
(** * Copy-on-write vectors without a manager of read views (core/util/cowvector/cowvector.h)

    The inverted lists are merged without a manager.  When the write view has an array
    of its own at every merge, every read view owns its array, and a reader keeps what
    it took; the last reader of a view releases the view and its array. *)
From S2P Require Import Prelude CowVector.
From Stdlib Require Import ZArith Lia List Bool.
From stdpp Require Import base gmap list fin_maps sets.
Open Scope Z_scope.

Module CowPlain.
Import CowVector.

Section plain.
Context {T : Type}.
Implicit Types (s : cow T) (draft : list T) (olds : list (ptr * list (@item T))).

(** ** Operations that do not use the manager *)

Definition with_gens (g : list (list ptr)) (n : nat) s : cow T :=
  mk_cow (arrays s) (views s) (m_readView s) (m_writeView s) (readers s) g n.

Definition gens_free {A} (m : st (cow T) A) : Prop := forall g n s,
  m (with_gens g n s) = match m s with Ok (a, s') => Ok (a, with_gens g n s') | Err f => Err f end.

Lemma gf_ret {A} (a : A) : gens_free (ret a).
Proof. done. Qed.
Lemma gf_fail {A} f : gens_free (fail (A := A) f).
Proof. done. Qed.
Lemma gf_lift {A} (r : result A) : gens_free (lift r).
Proof. intros g n s. unfold lift. by destruct r. Qed.
Lemma gf_reads {A} (f : cow T -> A) : (forall g n s, f (with_gens g n s) = f s) -> gens_free (reads f).
Proof. intros H g n s. unfold reads. by rewrite H. Qed.
Lemma gf_bind {A B} (m : st (cow T) A) (k : A -> st (cow T) B) : gens_free m -> (forall a, gens_free (k a)) -> gens_free (bind m k).
Proof. intros Hm Hk g n s. unfold bind. rewrite Hm. destruct (m s) as [[a s']|]; [apply Hk|done]. Qed.
Lemma gf_modify (f : cow T -> cow T) : (forall g n s, f (with_gens g n s) = with_gens g n (f s)) -> gens_free (modify f).
Proof. intros H g n s. unfold modify. by rewrite H. Qed.

Ltac head_of t := match t with ?f _ => head_of f | _ => t end.

(** Decomposes a computation into operations on the arrays and the views. *)
Ltac gens_free_step :=
  repeat first [ progress intros | progress cbv zeta
    | apply gf_ret | apply gf_fail | apply gf_lift | apply gf_bind
    | (apply gf_reads; intros; reflexivity) | (apply gf_modify; intros; reflexivity)
    | match goal with
      | |- gens_free (if ?b then _ else _) => destruct b
      | |- gens_free (match ?x with _ => _ end) => destruct x
      | |- gens_free ?m => let h := head_of m in unfold h
      end ].

Lemma gf_load_view v : gens_free (load_view (T := T) v).
Proof. gens_free_step. Qed.
Lemma gf_on_flags f v : gens_free (on_flags (T := T) f v).
Proof. gens_free_step. Qed.
Lemma gf_replace_array v c : gens_free (replace_array (T := T) v c).
Proof. gens_free_step. Qed.
Lemma gf_assign v i x : gens_free (assign (T := T) v i x).
Proof. gens_free_step. Qed.
Lemma gf_push_back v x : gens_free (push_back (T := T) v x).
Proof. gens_free_step. Qed.
Lemma gf_forceCreateCopy v : gens_free (forceCreateCopy (T := T) v).
Proof. gens_free_step. Qed.
Lemma gf_commit : gens_free (commit (T := T)).
Proof. gens_free_step. Qed.
(** The end of a merge. *)
Definition finish (w : ptr) : st (cow T) unit :=
  on_flags setReadView w ;;; let! vv := load_view w in let! w' := alloc_view (copy_view vv) in set_writeView w'.
Lemma gf_finish w : gens_free (finish w).
Proof. gens_free_step. Qed.

Lemma with_gens_id s : with_gens (readViewGenerations s) (currentGen s) s = s.
Proof. by destruct s. Qed.

(** A run with other generations gives the run with those of the state. *)
Lemma gf_run {A} (m : st (cow T) A) g n s a s1 : gens_free m -> m (with_gens g n s) = Ok (a, s1) ->
  exists s', m s = Ok (a, s') /\ s1 = with_gens g n s' /\ readViewGenerations s' = readViewGenerations s /\ currentGen s' = currentGen s.
Proof.
  intros Hm Hrun. rewrite Hm in Hrun. destruct (m s) as [[b s']|] eqn:E; [|done]. injection Hrun as -> <-. exists s'. split; [done|]. split; [done|].
  pose proof (Hm (readViewGenerations s) (currentGen s) s) as H. rewrite with_gens_id, E in H. injection H as H. by rewrite H.
Qed.

(** ** The invariant *)

(** The vector with the views that readers hold, each as a generation of its own. *)
Definition ghost olds s : cow T := with_gens (map items olds ++ [[]]) (length olds) s.

Record plain s olds (rd : item) (aR aW : ptr) draft (own : bool) : Prop := {
  pl_inv : inv (ghost olds s) olds [] rd aR aW draft own;
  pl_gens : readViewGenerations s = [[]];
  pl_cur : currentGen s = 0%nat;
  pl_held : Forall (fun g => g.2 = [] \/ exists it, g.2 = [it] /\ (0 < reader_count s (it_v it))%nat) olds }.

(** An operation of the writer leaves the held views alone. *)
Lemma plain_step {A} (m : st (cow T) A) s olds rd aR aW draft own a s1 aW' draft' own' : plain s olds rd aR aW draft own -> gens_free m ->
  m (ghost olds s) = Ok (a, s1) -> inv s1 olds [] rd aR aW' draft' own' -> readers s1 = readers s ->
  exists s', m s = Ok (a, s') /\ plain s' olds rd aR aW' draft' own' /\ s1 = ghost olds s'.
Proof.
  intros [Hi Hg Hc Hh] Hm Hrun Hi1 Hr. destruct (gf_run m _ _ s a s1 Hm Hrun) as (s' & E & -> & Eg & Ec). exists s'. split; [done|]. split; [|done].
  split; [exact Hi1|by rewrite Eg|by rewrite Ec|]. eapply Forall_impl; [exact Hh|]. intros g [E'|(it & Hit & Hp)]; [by left|right]. exists it. split; [done|].
  unfold reader_count in *. change (readers s' = readers s) in Hr. by rewrite Hr.
Qed.

Lemma plain_push s olds rd aR aW draft own x : plain s olds rd aR aW draft own -> Z.of_nat (length draft) + 1 < 2 ^ 30 ->
  exists s' aW' own', push_back (m_writeView s) x s = Ok (tt, s') /\ plain s' olds rd aR aW' (draft ++ [x]) own' /\
    m_writeView s' = m_writeView s /\ readers s' = readers s.
Proof.
  intros Hp Hn. destruct (push_run _ _ _ _ _ _ _ _ x (pl_inv _ _ _ _ _ _ _ Hp) Hn) as (s1 & aW' & own' & E & Hi & Hw & Hr).
  destruct (plain_step _ _ _ _ _ _ _ _ _ _ _ _ _ Hp (gf_push_back _ _) E Hi Hr) as (s' & E' & Hp' & ->). by exists s', aW', own'.
Qed.

Lemma plain_assign s olds rd aR aW draft i x : plain s olds rd aR aW draft true -> (i < length draft)%nat -> Z.of_nat (length draft) + 1 < 2 ^ 30 ->
  exists s' aW', assign (m_writeView s) (Z.of_nat i) x s = Ok (tt, s') /\ plain s' olds rd aR aW' (<[i := x]> draft) true /\
    m_writeView s' = m_writeView s /\ readers s' = readers s.
Proof.
  intros Hp Hi Hn. destruct (assign_run _ _ _ _ _ _ _ _ i x (pl_inv _ _ _ _ _ _ _ Hp) ltac:(lia) (or_introl eq_refl) Hn) as (s1 & aW' & own' & E & Hi1 & Hw & Hr & Ho).
  rewrite (Ho eq_refl) in Hi1. destruct (plain_step _ _ _ _ _ _ _ _ _ _ _ _ _ Hp (gf_assign _ _ _) E Hi1 Hr) as (s' & E' & Hp' & ->).
  exists s', aW'. split; [done|]. split; [|done]. replace (<[i:=x]> draft) with (write_elem draft i x); [done|]. unfold write_elem. symmetry. by apply insert_take_drop.
Qed.

Lemma plain_force s olds rd aR aW draft own : plain s olds rd aR aW draft own ->
  exists s' aW', forceCreateCopy (m_writeView s) s = Ok (tt, s') /\ plain s' olds rd aR aW' draft true /\
    m_writeView s' = m_writeView s /\ readers s' = readers s.
Proof.
  intros Hp. destruct (force_run _ _ _ _ _ _ _ _ (pl_inv _ _ _ _ _ _ _ Hp)) as (s1 & aW' & E & Hi & Hw & Hr).
  destruct (plain_step _ _ _ _ _ _ _ _ _ _ _ _ _ Hp (gf_forceCreateCopy _) E Hi Hr) as (s' & E' & Hp' & ->). by exists s', aW'.
Qed.

(** [setSize] on an array that belongs to the write view. *)
Lemma resize_run s olds cur rd aR aW draft n : inv s olds cur rd aR aW draft true -> (n <= length draft)%nat ->
  exists s', on_flags (setSize (Z.of_nat n)) (m_writeView s) s = Ok (tt, s') /\ inv s' olds cur rd aR aW (take n draft) true /\
    m_writeView s' = m_writeView s /\ readers s' = readers s.
Proof.
  intros Hi Hn. pose proof (iv_write _ _ _ _ _ _ _ _ Hi) as (f & ar & Hv & Hf & Har & Ht). cbn [it_v it_d] in *.
  pose proof (iv_vwf _ _ _ _ _ _ _ _ Hi) as Hvwf. pose proof (iv_awf _ _ _ _ _ _ _ _ Hi) as Hawf.
  set (V := s_put (views s) (m_writeView s) (mk_vv aW (setSize (Z.of_nat n) f))). exists (upd s (arrays s) V).
  split; [exact (on_flags_run s (setSize (Z.of_nat n)) _ _ _ Hvwf Hv)|]. split; [|done].
  apply (inv_write s olds cur rd aR aW draft true); try done.
  - apply s_put_wf; [done|by eexists].
  - intros p Hp. cbn. by rewrite lookup_insert_ne.
  - intros a ar0 _ Ha. by exists ar0.
  - exists (setSize (Z.of_nat n) f), ar. cbn [it_v it_d]. split; [apply lookup_insert_eq|]. rewrite length_take, Nat.min_l by done.
    split; [|split; [done|]].
    + apply (flags_setSize _ _ _ _ _ Hf). pose proof (fl_range _ _ _ _ Hf). lia.
    + rewrite <- firstn_map, <- Ht, take_take. by rewrite Nat.min_l.
  - exact (iv_arrays _ _ _ _ _ _ _ _ Hi).
Qed.

Lemma plain_resize s olds rd aR aW draft n : plain s olds rd aR aW draft true -> (n <= length draft)%nat ->
  exists s', on_flags (setSize (Z.of_nat n)) (m_writeView s) s = Ok (tt, s') /\ plain s' olds rd aR aW (take n draft) true /\
    m_writeView s' = m_writeView s /\ readers s' = readers s.
Proof.
  intros Hp Hn. destruct (resize_run _ _ _ _ _ _ _ n (pl_inv _ _ _ _ _ _ _ Hp) Hn) as (s1 & E & Hi & Hw & Hr).
  destruct (plain_step _ _ _ _ _ _ _ _ _ _ _ _ _ Hp (gf_on_flags _ _) E Hi Hr) as (s' & E' & Hp' & ->). by exists s'.
Qed.

(** ** The release of a view *)

(** A view that nobody holds is destroyed with its array. *)
Lemma clean_one s o1 a it o2 : let olds := o1 ++ (a, [it]) :: o2 in NoDup (addrs olds) -> NoDup (map fst olds) -> Forall (old_ok s) olds ->
  reader_count s (it_v it) = 0%nat -> store_wf (arrays s) -> store_wf (views s) ->
  clean_result s olds (o1 ++ (a, []) :: o2) (s_del (arrays s) a) (s_del (views s) (it_v it)).
Proof.
  intros olds Hnd Hfst Hok Hz Ha Hv. subst olds. rewrite addrs_app, addrs_cons in Hnd. cbn [items snd map app] in Hnd. rewrite Permutation_app_comm in Hnd. cbn [app] in Hnd.
  apply NoDup_cons in Hnd as [Hin _]. rewrite elem_of_app in Hin. rewrite map_app in Hfst. cbn [map fst] in Hfst.
  rewrite Permutation_app_comm in Hfst. cbn [app] in Hfst. apply NoDup_cons in Hfst as [Hna _]. rewrite elem_of_app in Hna.
  assert (forall l, Forall2 (cleaned s) l l) as Hrefl by (induction l; constructor; [by left|done]).
  assert (forall l, (forall v, v ∈ addrs l -> v <> it_v it) -> (forall b, b ∈ map fst l -> b <> a) -> Forall (old_ok s) l ->
    Forall (old_ok (upd s (s_del (arrays s) a) (s_del (views s) (it_v it)))) l) as Hrest.
  { intros l Hl Hb Hl'. rewrite Forall_forall in Hl' |- *. intros g Hg. apply (old_ok_frame s); [by apply Hl'| |].
    - intros i Hi. cbn. apply lookup_delete_ne. intros E. apply (Hl (it_v i)); [by eapply items_addrs|done].
    - intros _. cbn. apply lookup_delete_ne. intros E. apply (Hb g.1); [|done]. apply elem_of_lmap. eauto. }
  apply Forall_app in Hok as [Hok1 Hok2]. apply Forall_cons in Hok2 as [_ Hok2].
  constructor.
  - apply Forall2_app; [done|]. constructor; [|done]. right. split; [done|]. intros i Hi. apply list_elem_of_singleton in Hi as ->. done.
  - by apply s_del_wf.
  - by apply s_del_wf.
  - done.
  - intros p Hp. cbn. apply lookup_delete_ne. intros <-. apply Hp. rewrite addrs_app, addrs_cons, elem_of_app. right. by left.
  - intros b Hb. cbn. apply lookup_delete_ne. intros <-. apply Hb. rewrite map_app, elem_of_app. right. by left.
  - apply Forall_app. split; [|constructor; [by left|]].
    + apply Hrest; [|intros b Hb ->; tauto|done]. intros v Hv' ->. tauto.
    + apply Hrest; [|intros b Hb ->; tauto|done]. intros v Hv' ->. tauto.
Qed.

(** The state after old views are released. *)
Lemma inv_clean s olds olds' rd aR aW draft own A V : inv (ghost olds s) olds [] rd aR aW draft own ->
  clean_result s olds olds' A V -> inv (ghost olds' (upd s A V)) olds' [] rd aR aW draft own.
Proof.
  intros Hi [Hcl HA HV Hn Hvs Has Hok]. pose proof (cleaned_addrs _ _ _ Hcl) as Hsub. pose proof (cleaned_fst _ _ _ Hcl) as Efst.
  pose proof (iv_nodup _ _ _ _ _ _ _ _ Hi) as Hnd. cbn [map app] in Hnd. pose proof Hnd as Hnd0. apply NoDup_cons in Hnd0 as [Hw Hnd0]. apply NoDup_cons in Hnd0 as [Hr _].
  pose proof (iv_arrays _ _ _ _ _ _ _ _ Hi) as Harr.
  assert (forall a it w need, view_at s a w need it -> it_v it ∉ addrs olds -> a ∉ map fst olds -> view_at (ghost olds' (upd s A V)) a w need it) as Hkeep.
  { intros a it w need Hit Hni Hna. apply (view_at_frame s); [done|by apply Hvs|]. intros ar Har. exists ar. cbn. by rewrite Has. }
  split.
  - exact HA.
  - exact HV.
  - done.
  - done.
  - exact (iv_read _ _ _ _ _ _ _ _ Hi).
  - cbn [map app]. eapply sublist_NoDup; [exact Hnd|]. by do 2 apply sublist_skip.
  - rewrite Forall_forall in Hok |- *. intros g Hg. destruct (Hok g Hg) as [E|(l & x & E & Hl & Hx)]; [by left|right; by exists l, x].
  - constructor.
  - destruct (iv_rd _ _ _ _ _ _ _ _ Hi) as (need & Hrd). exists need. apply Hkeep; [exact Hrd|exact Hr|].
    apply NoDup_cons in Harr as [Harr _]. intros Hin. apply Harr, elem_of_app. by right.
  - apply Hkeep; [exact (iv_write _ _ _ _ _ _ _ _ Hi)|intros Hin; apply Hw; by right|]. apply NoDup_cons in Harr as [HaR Harr].
    destruct own; cbn [write_arrays app] in *.
    + by apply NoDup_cons in Harr as [? _].
    + by rewrite (iv_share _ _ _ _ _ _ _ _ Hi eq_refl).
  - by rewrite Efst.
  - cbn. rewrite Hn. pose proof (iv_below _ _ _ _ _ _ _ _ Hi) as Hb. rewrite Forall_forall in Hb |- *. intros g Hg.
    assert (g.1 ∈ map fst olds') as Hin by (apply elem_of_lmap; eauto). rewrite Efst in Hin. apply elem_of_lmap in Hin as (h & -> & Hh). by apply Hb.
  - exact (iv_share _ _ _ _ _ _ _ _ Hi).
  - exact (iv_sizes _ _ _ _ _ _ _ _ Hi).
  - intros v Hv. destruct (iv_readers _ _ _ _ _ _ _ _ Hi v Hv) as [E|Hin]; [by left|right]. cbn [map app] in *.
    apply addrs_inv in Hin as (g & it & Hg & Hit & ->). apply (items_addrs it g); [done|]. by eapply cleaned_keeps.
Qed.

Lemma clean_refl s olds : Forall (old_ok s) olds -> store_wf (arrays s) -> store_wf (views s) -> clean_result s olds olds (arrays s) (views s).
Proof.
  intros Hok Ha Hv. constructor; try done. clear Hok. induction olds; constructor; [by left|done].
Qed.

(** ** The merge *)

Lemma plain_merge s olds rd aR aW draft : plain s olds rd aR aW draft true ->
  exists s' olds' aW', merge false s = Ok (tt, s') /\ plain s' olds' (mk_item (m_writeView s) draft) aW' aW' draft false /\ readers s' = readers s /\
    forall it, it ∈ rd :: concat (map snd olds) -> (0 < reader_count s (it_v it))%nat -> it ∈ concat (map snd olds').
Proof.
  intros [Hi Hg Hc Hh]. destruct (mark_run _ _ _ _ _ _ _ _ true Hi) as (V & Emark & HV & Hrd & _ & Holds & Hw1).
  set (r := it_v rd) in *. set (w := m_writeView s) in *. set (s1 := upd s (arrays s) V).
  assert (on_flags (setNeedToFreeArray true) r s = Ok (tt, s1)) as Emark'.
  { destruct (gf_run _ _ _ s _ _ (gf_on_flags _ _) Emark) as (x & E & Ex & Eg & Ec). rewrite E. do 2 f_equal.
    destruct x. cbn in *. injection Ex as <- <- <- <- <-. unfold s1, upd. by rewrite Eg, Ec. }
  pose proof (iv_nodup _ _ _ _ _ _ _ _ Hi) as Hnd. cbn [map app] in Hnd. pose proof (iv_arrays _ _ _ _ _ _ _ _ Hi) as Harr. cbn [write_arrays app] in Harr.
  change (NoDup (w :: r :: addrs olds)) in Hnd. pose proof Hnd as Hnd0. apply NoDup_cons in Hnd0 as [Hw _]. apply not_elem_of_cons in Hw as [Hwr _].
  pose proof Harr as Harr0. apply NoDup_cons in Harr0 as [HaR _]. apply not_elem_of_cons in HaR as [HaRW _].
  set (s2 := mk_cow (arrays s) V w w (readers s) [[]] 0%nat). set (olds1 := olds ++ [(aR, [rd])]).
  assert (addrs olds1 ≡ₚ r :: addrs olds) as Eaddrs.
  { unfold olds1. rewrite addrs_app. unfold addrs at 2. cbn. by rewrite Permutation_app_comm. }
  assert (Forall (old_ok s2) olds1) as Hok1.
  { apply Forall_app. split; [exact Holds|]. constructor; [|constructor]. right. exists [], rd. split; [done|]. by split; [constructor|]. }
  assert (NoDup (aW :: map fst olds1)) as Hfst1.
  { unfold olds1. rewrite map_app. cbn [map fst]. rewrite (Permutation_app_comm (map fst olds)). cbn. rewrite Permutation_swap. exact Harr. }
  assert (exists A3 V3 olds', release_view r s2 = Ok (tt, upd s2 A3 V3) /\ clean_result s2 olds1 olds' A3 V3 /\
      Forall (fun g => g.2 = [] \/ exists it, g.2 = [it] /\ (0 < reader_count s (it_v it))%nat) olds' /\
      forall it, it ∈ rd :: concat (map snd olds) -> (0 < reader_count s (it_v it))%nat -> it ∈ concat (map snd olds')) as (A3 & V3 & olds' & Erel & Hcl & Hh' & Hkeep).
  { destruct (decide (reader_count s r = 0%nat)) as [Hz|Hz].
    - exists (s_del (arrays s) aR), (s_del V r), (olds ++ [(aR, [])]). split; [|split; [|split]].
      + apply (release_last s2 aR true rd); [exact (iv_awf _ _ _ _ _ _ _ _ Hi)|exact HV|exact Hrd|].
        apply use_count_zero; [exact Hwr|cbn; by apply not_elem_of_nil|exact Hz].
      + apply (clean_one s2 olds aR rd []); [|by apply NoDup_cons in Hfst1 as [_ ?]|exact Hok1|exact Hz|exact (iv_awf _ _ _ _ _ _ _ _ Hi)|exact HV].
        change (NoDup (addrs olds1)). rewrite Eaddrs. by apply NoDup_cons in Hnd as [_ ?].
      + apply Forall_app. split; [exact Hh|]. constructor; [by left|constructor].
      + intros it Hit Hp. rewrite map_app, concat_app, elem_of_app. apply elem_of_cons in Hit as [->|Hit]; [change (reader_count s (it_v rd)) with (reader_count s r) in Hp; lia|by left].
    - exists (arrays s), V, olds1. split; [|split; [|split]].
      + apply release_more, cow_use_count_pos. right. right. change (0 < reader_count s r)%nat. lia.
      + apply (clean_refl s2); [exact Hok1|exact (iv_awf _ _ _ _ _ _ _ _ Hi)|exact HV].
      + apply Forall_app. split; [exact Hh|]. constructor; [|constructor]. right. exists rd. split; [done|]. change (0 < reader_count s r)%nat. lia.
      + intros it Hit Hp. unfold olds1. rewrite map_app, concat_app, elem_of_app. cbn. apply elem_of_cons in Hit as [->|Hit]; [right; set_solver|by left]. }
  set (s3 := upd s2 A3 V3) in *. assert (ready (ghost olds' s3) olds' [] aW draft true) as Hready.
  { apply (ready_intro s2 olds1 olds' [] aW draft true A3 V3); try done.
    - cbn [map app]. change (m_writeView s2) with w. rewrite Eaddrs. exact Hnd.
    - unfold olds1. apply Forall_app. split; [exact (iv_below _ _ _ _ _ _ _ _ Hi)|]. constructor; [|constructor].
      apply (below_fresh _ _ _ _ _ _ _ _ _ Hi). by left.
    - intros v Hv. cbn [map app]. rewrite Eaddrs. destruct (iv_readers _ _ _ _ _ _ _ _ Hi v Hv) as [->|Hin]; [by left|by right].
    - exact (cr_vwf _ _ _ _ _ Hcl).
    - cbn. by rewrite <- (Forall2_length _ _ _ (cr_cleaned _ _ _ _ _ Hcl)). }
  destruct (cow_finish_run _ _ _ _ _ _ Hready) as (s5 & Efin & Hi5 & Hr5).
  change (m_writeView (ghost olds' s3)) with w in Efin, Hi5. change (finish w (ghost olds' s3) = Ok (tt, s5)) in Efin.
  destruct (gf_run _ _ _ s3 _ _ (gf_finish _) Efin) as (s' & Efin' & E5 & Eg & Ec). exists s', olds', aW. split; [|split; [|split; [|done]]].
  - unfold merge. rewrite (bind_run _ _ s r s) by (unfold reads, r; by rewrite <- (iv_read _ _ _ _ _ _ _ _ Hi)). rewrite (bind_run _ _ s w s eq_refl).
    rewrite (bind_run _ _ s tt s) by (apply assert_run; rewrite bool_decide_eq_false_2; [done|]; congruence).
    destruct (iv_rd _ _ _ _ _ _ _ _ Hi) as (need & fr0 & ar0 & Hvr0 & _). destruct (iv_write _ _ _ _ _ _ _ _ Hi) as (fw & ar1 & Hvw & _).
    rewrite (bind_run _ _ _ _ _ (cow_load_view_run s r _ (iv_vwf _ _ _ _ _ _ _ _ Hi) Hvr0)).
    rewrite (bind_run _ _ _ _ _ (cow_load_view_run s w _ (iv_vwf _ _ _ _ _ _ _ _ Hi) Hvw)). cbn [m_array].
    rewrite bool_decide_eq_false_2 by done.
    rewrite (bind_run _ _ s tt s1) by (by rewrite (bind_run _ _ _ _ _ Emark')).
    rewrite (bind_run _ _ s1 tt s1 eq_refl). rewrite (bind_run _ _ s1 tt s2) by (unfold set_readView, modify, s1, s2; cbn; by rewrite Hg, Hc).
    rewrite (bind_run _ _ _ _ _ Erel). exact Efin'.
  - constructor.
    + change (inv (with_gens (map items olds' ++ [[]]) (length olds') s') olds' [] (mk_item w draft) aW aW draft false). by rewrite <- E5.
    + by rewrite Eg.
    + by rewrite Ec.
    + eapply Forall_impl; [exact Hh'|]. intros g [?|(it & ? & ?)]; [by left|right]. exists it. split; [done|]. rewrite E5 in Hr5. cbn in Hr5.
      unfold reader_count in *. by rewrite Hr5.
  - rewrite E5 in Hr5. cbn in Hr5. by rewrite Hr5.
Qed.

(** ** Readers *)

Lemma plain_acquire s olds rd aR aW draft own : plain s olds rd aR aW draft own ->
  exists s', getReadView s = Ok (it_v rd, s') /\ plain s' olds rd aR aW draft own /\ m_writeView s' = m_writeView s /\
    reader_count s' (it_v rd) = S (reader_count s (it_v rd)) /\ forall v, v <> it_v rd -> reader_count s' v = reader_count s v.
Proof.
  intros [Hi Hg Hc Hh]. pose proof (iv_read _ _ _ _ _ _ _ _ Hi) as Er. change (m_readView s = it_v rd) in Er.
  set (r' := <[it_v rd := S (default 0%nat (readers s !! it_v rd))]> (readers s)).
  set (s' := with_refs s (arrays s) (views s) r' (readViewGenerations s)). exists s'.
  assert (reader_count s' (it_v rd) = S (reader_count s (it_v rd))) as E1 by (unfold reader_count, s', r'; cbn; by rewrite lookup_insert_eq).
  assert (forall v, v <> it_v rd -> reader_count s' v = reader_count s v) as E2
    by (intros v Hv; unfold reader_count, s', r'; cbn; by rewrite lookup_insert_ne).
  split; [unfold s', r', with_refs; rewrite <- Er; reflexivity|]. split; [|done].
  split; [|done|done|].
  - apply (cow_inv_readers (ghost olds s) olds [] rd aR aW draft own r' Hi). intros v Hv. destruct (decide (v = it_v rd)) as [->|Hne]; [by left|right].
    change (0 < reader_count s' v)%nat in Hv. by rewrite E2 in Hv.
  - eapply Forall_impl; [exact Hh|]. intros g [?|(it & Hit & Hp)]; [by left|right]. exists it. split; [done|].
    destruct (decide (it_v it = it_v rd)) as [E|Hne]; [rewrite E, E1; lia|by rewrite E2].
Qed.

Lemma plain_release s olds rd aR aW draft own v : plain s olds rd aR aW draft own -> (0 < reader_count s v)%nat ->
  exists s' olds', drop_reader v s = Ok (tt, s') /\ plain s' olds' rd aR aW draft own /\ m_writeView s' = m_writeView s /\
    reader_count s' v = pred (reader_count s v) /\ (forall u, u <> v -> reader_count s' u = reader_count s u) /\
    forall it, it ∈ concat (map snd olds) -> (0 < reader_count s' (it_v it))%nat -> it ∈ concat (map snd olds').
Proof.
  intros [Hi Hg Hc Hh] Hv. pose proof (iv_read _ _ _ _ _ _ _ _ Hi) as Er. change (m_readView s = it_v rd) in Er.
  unfold drop_reader. rewrite (bind_run _ _ s (readers s) s eq_refl). unfold reader_count in Hv.
  destruct (readers s !! v) as [[|n]|] eqn:E; [exfalso; cbn in Hv; lia| |exfalso; cbn in Hv; lia].
  set (r' := <[v := n]> (readers s)). set (s1 := with_refs s (arrays s) (views s) r' (readViewGenerations s)).
  assert (reader_count s1 v = n) as E1 by (unfold reader_count, s1, r'; cbn; by rewrite lookup_insert_eq).
  assert (reader_count s v = S n) as E0 by (unfold reader_count; by rewrite E).
  assert (forall u, u <> v -> reader_count s1 u = reader_count s u) as E2 by (intros u Hu; unfold reader_count, s1, r'; cbn; by rewrite lookup_insert_ne).
  assert (inv (ghost olds s1) olds [] rd aR aW draft own) as Hi1.
  { apply (cow_inv_readers (ghost olds s) olds [] rd aR aW draft own r' Hi). intros u Hu. right. change (0 < reader_count s1 u)%nat in Hu.
    change (0 < reader_count s u)%nat. destruct (decide (u = v)) as [->|Hne]; [lia|]. by rewrite E2 in Hu. }
  rewrite (bind_run (set_readers r') _ s tt s1 eq_refl).
  pose proof (iv_nodup _ _ _ _ _ _ _ _ Hi1) as Hnd. cbn [map app] in Hnd. apply NoDup_cons in Hnd as [_ Hnd]. apply NoDup_cons in Hnd as [Hro Hnd].
  destruct (decide (v = it_v rd \/ n <> 0%nat)) as [Hd|Hd].
  - exists s1, olds. split; [|split; [|split; [done|split; [lia|split; [done|done]]]]].
    + apply release_more, cow_use_count_pos. destruct Hd as [->|Hn]; [by left|]. right. right. lia.
    + split; [exact Hi1|done|done|]. rewrite Forall_forall in Hh |- *. intros g Hgin. destruct (Hh g Hgin) as [?|(it & Hit & Hp)]; [by left|right].
      exists it. split; [done|]. destruct (decide (it_v it = v)) as [Ev|Hne]; [|by rewrite E2]. destruct Hd as [Hd|Hd]; [|rewrite Ev, E1; lia].
      exfalso. apply Hro. rewrite <- Hd, <- Ev. apply (items_addrs it g); [rewrite Hit; by left|done].
  - assert (v <> it_v rd /\ n = 0%nat) as [Hvr ->] by (split; [tauto|]; destruct (decide (n = 0%nat)); [done|tauto]).
    destruct (iv_readers _ _ _ _ _ _ _ _ Hi v ltac:(change (0 < reader_count s v)%nat; lia)) as [->|Hin]; [done|]. cbn [map app] in Hin.
    apply addrs_inv in Hin as (g & it & Hgin & Hit & ->). rewrite Forall_forall in Hh.
    assert (g.2 = [it]) as Eg. { destruct (Hh g Hgin) as [E'|(it' & E' & _)]; rewrite E' in Hit; [by apply elem_of_nil in Hit|]. by apply list_elem_of_singleton in Hit as ->. }
    destruct g as [a gs]. cbn in Eg. subst gs. apply list_elem_of_split in Hgin as (o1 & o2 & Eo).
    pose proof (iv_arrays _ _ _ _ _ _ _ _ Hi1) as Harr. apply NoDup_cons in Harr as [_ Harr].
    assert (clean_result s1 olds (o1 ++ (a, []) :: o2) (s_del (arrays s1) a) (s_del (views s1) (it_v it))) as Hcl.
    { rewrite Eo. apply clean_one; rewrite <- ?Eo; [exact Hnd| |exact (iv_olds _ _ _ _ _ _ _ _ Hi1)|exact E1|exact (iv_awf _ _ _ _ _ _ _ _ Hi1)|exact (iv_vwf _ _ _ _ _ _ _ _ Hi1)].
      destruct own; cbn [write_arrays app] in Harr; [by apply NoDup_cons in Harr as [_ ?]|exact Harr]. }
    set (s2 := upd s1 (s_del (arrays s1) a) (s_del (views s1) (it_v it))). exists s2, (o1 ++ (a, []) :: o2).
    split; [|split; [|split; [done|split; [cbn; rewrite E0; exact E1|split; [exact E2|]]]]].
    + apply (release_last s1 a true it); [exact (iv_awf _ _ _ _ _ _ _ _ Hi1)|exact (iv_vwf _ _ _ _ _ _ _ _ Hi1)| |].
      * pose proof (iv_olds _ _ _ _ _ _ _ _ Hi1) as Hok. rewrite Forall_forall in Hok. destruct (Hok (a, [it])) as [E'|(l & x & E' & _ & Hx)].
        { rewrite Eo. apply elem_of_app. right. by left. } { done. }
        destruct l as [|y l]; [|by destruct l]. cbn in E'. injection E' as ->. exact Hx.
      * apply use_count_zero; [change (m_readView s <> it_v it); congruence|change (it_v it ∉ concat (readViewGenerations s)); rewrite Hg; cbn; by apply not_elem_of_nil|exact E1].
    + split; [by apply (inv_clean s1 olds)|done|done|]. rewrite Forall_forall. intros g Hgin. rewrite elem_of_app, elem_of_cons in Hgin.
      assert (g.2 = [] \/ g ∈ o1 \/ g ∈ o2) as [?|Hgo] by (destruct Hgin as [?|[->|?]]; auto); [by left|]. clear Hgin. destruct (Hh g) as [?|(i & Hig & Hp)]; [rewrite Eo, elem_of_app, elem_of_cons; tauto|by left|].
      destruct (decide (it_v i = it_v it)) as [Ei|Hne]; [|right; exists i; split; [done|]; change (0 < reader_count s1 (it_v i))%nat; by rewrite E2].
      exfalso. rewrite Eo, addrs_app, addrs_cons in Hnd. cbn [items snd map app] in Hnd. rewrite Permutation_app_comm in Hnd. cbn [app] in Hnd.
      apply NoDup_cons in Hnd as [Hni _]. apply Hni. rewrite elem_of_app, <- Ei. destruct Hgo as [Hg1|Hg2]; [right|left];
        (eapply items_addrs; [rewrite Hig; by left|done]).
    + intros i Hii Hp. apply in_olds in Hii as (g & Hg1 & Hg2). apply in_olds. exists g. split; [|done].
      eapply cleaned_keeps; [exact (cr_cleaned _ _ _ _ _ Hcl)|exact Hg1|exact Hg2|exact Hp].
Qed.

(** What a reader sees. *)
Lemma plain_shows s olds rd aR aW draft own it : plain s olds rd aR aW draft own -> it = rd \/ it ∈ concat (map snd olds) -> shows s it.
Proof.
  intros [Hi Hg Hc Hh] Hit. assert (represents (ghost olds s) (mk_abs draft rd (concat (map snd olds)) own)) as Hr by (exists olds, [], aR, aW; done).
  destruct (represents_shows _ _ it Hr) as (vv & Hv & H1 & H2 & H3); [cbn; rewrite elem_of_cons; tauto|]. exists vv. split; [exact Hv|]. split; [done|]. split; [done|].
  intros i x Hx. specialize (H3 i x Hx). assert (gens_free (getElement (it_v it) (Z.of_nat i))) as Hgf by (unfold getElement, load_view, load_array; gens_free_step).
  destruct (gf_run _ _ _ s _ _ Hgf H3) as (s' & E & Es & _ & _). rewrite E. do 2 f_equal. unfold getElement, load_view, load_array in E. run. done.
Qed.

(** A vector after its constructor and [commit]. *)
Lemma plain_start capacity : 0 <= capacity -> exists s rd a, (cowvector_ capacity ;;; commit) (@empty_cow T) = Ok (tt, s) /\
  plain s [] rd a a [] false /\ it_d rd = [] /\ readers s = ∅.
Proof.
  intros Hc. destruct (start_run (T := T) capacity Hc) as (s & E & olds & cur & aR & aW & Hi & Hh). cbn [draft published held own] in *.
  assert (gens_free (cowvector_ (T := T) capacity ;;; commit)) as Hgf by (unfold cowvector_, new_view, alloc_array, alloc_view; gens_free_step).
  assert (s = with_gens [[]] 0%nat s) as Es.
  { pose proof (gf_run _ [[]] 0%nat (@empty_cow T) tt s Hgf E) as (s' & E' & -> & _). done. }
  exists s, (mk_item 1%N []), aR. split; [done|]. pose proof (iv_gens _ _ _ _ _ _ _ _ Hi) as Eg. rewrite Es in Eg. cbn in Eg.
  destruct olds as [|g olds]; [|by destruct olds]. cbn in Eg. injection Eg as Ecur. destruct cur; [|done].
  pose proof (iv_share _ _ _ _ _ _ _ _ Hi eq_refl) as ->. split; [|split; [done|]].
  - split; [|by rewrite Es|by rewrite Es|constructor]. unfold ghost. cbn. by rewrite <- Es.
  - unfold cowvector_, new_view, commit, alloc_array, alloc_view in E. cbn in E. by injection E as <-.
Qed.
End plain.
End CowPlain.
