(* ===== verification/InvertedList.v ===== *)
(** * One inverted list (core/index/InvertedIndex.cpp, class InvertedListContainer)

    A copy-on-write vector of record ids, sorted by the static scores of the keyword in
    the records.  A merge drops the records that were deleted, computes the scores
    anew, writes them into the forward lists and publishes the list.

    Floats are of single precision; the conversions from and to half precision
    (util/half.h) and the evaluation of the ranking expression (util/exprtk.hpp) are
    parameters, as is the logarithm. *)
From S2P Require Import Prelude CowVector ForwardList PlanOperators.
From Stdlib Require Import ZArith Lia List Bool SpecFloat.
From stdpp Require Import base gmap list fin_maps.
Open Scope Z_scope.

Module InvertedList.
Import CowVector.
Import PlanOperators(float, fadd, fmul, fgt, f_zero).
Import ForwardList(ForwardList, numberOfKeywords, getKeywordOffset, getKeywordOffsetByLinearScan, getKeywordTfBoostProduct,
  getKeywordRecordStaticScore, setKeywordRecordStaticScore).

(** ** Scores *)

Definition feq (x y : float) : bool := SFeqb x y.
Definition fdiv (x y : float) : float := SFdiv 24 128 x y.
Definition f_of_unsigned (n : Z) : float := binary_normalize 24 128 n 0 false.
Definition f_one : float := f_of_unsigned 1.

Definition computeTextRelevance (tfBoostProduct idf : float) : float := fmul tfBoostProduct idf.

Definition compareRecordsGreaterThan (leftRecordScore : float) (leftRecordId : Z) (rightRecordScore : float) (rightRecordId : Z) : bool :=
  if feq leftRecordScore rightRecordScore then leftRecordId <? rightRecordId else fgt leftRecordScore rightRecordScore.

Record InvertedListIdAndScore := mk_is { is_record : Z; is_score : float }.

Definition InvertedListElementGreaterThan (lhs rhs : InvertedListIdAndScore) : bool :=
  compareRecordsGreaterThan (is_score lhs) (is_record lhs) (is_score rhs) (is_record rhs).

(** ** std::sort and std::inplace_merge

    The comparator puts any two different records in one order, so that a sorted
    vector is determined by its elements and any algorithm gives it. *)
Fixpoint insert_by {A} (before : A -> A -> bool) (x : A) (l : list A) : list A :=
  match l with
  | [] => [x]
  | y :: l' => if before y x then y :: insert_by before x l' else x :: l
  end.
Definition sort {A} (before : A -> A -> bool) (l : list A) : list A := fold_right (insert_by before) [] l.
Fixpoint inplace_merge {A} (before : A -> A -> bool) (l1 : list A) : list A -> list A :=
  fix go l2 := match l1, l2 with
    | [], _ => l2
    | _, [] => l1
    | x :: l1', y :: l2' => if before y x then y :: go l2' else x :: inplace_merge before l1' l2
    end.

(** ** The directory of forward lists *)

(** A forward list with its record boost, which is a half, or NULL when it was freed, and
    the mark that the record is valid. *)
Record ForwardListPtr := mk_flp { fp_list : option (ForwardList * Z); fp_valid : bool }.

(** The pointer to the forward list of a record that is valid. *)
Definition getForwardList (directory : list ForwardListPtr) (recordId : Z) : option (option (ForwardList * Z)) :=
  match vec_at directory recordId with Ok p => if fp_valid p then Some (fp_list p) else None | Err _ => None end.

Section List_.
Variables (half_of_float : float -> Z) (float_of_half : Z -> float).
(** [1 + log(x)] as a float. *)
Variable (one_plus_log : float -> float).
(** The ranking expression on the length of the record, its boost and the text relevance. *)
Variable (applyExpression : float -> float -> float -> float).

Definition computeIdf (totalDocumentsCount termHitDocumentsCount : Z) : float :=
  one_plus_log (fdiv (f_of_unsigned totalDocumentsCount) (fadd (f_of_unsigned termHitDocumentsCount) f_one)).

(** ** The container *)

Definition InvertedListContainer : Type := cow Z.

Definition new_container (capacity : Z) : result InvertedListContainer :=
  let? (_, c) := cowvector_ capacity empty_cow in Ok c.

Definition view_size (v : ptr) : st InvertedListContainer Z := let! vv := load_view v in ret (size (m_sizeAndFlags vv)).
Definition getReadViewSize : st InvertedListContainer Z := let! r := reads m_readView in view_size r.
Definition getWriteViewSize : st InvertedListContainer Z := let! w := reads m_writeView in view_size w.
Definition addInvertedListElement (recordId : Z) : st InvertedListContainer unit := let! w := reads m_writeView in push_back w recordId.

(** The elements of a view, in order. *)
Definition read_elements (v : ptr) : st InvertedListContainer (list Z) :=
  let! n := view_size v in
  fold_st (seqZ 0 n) (fun l i => let! x := getElement v i in let! x := lift (of_option OutOfRange x) in ret (l ++ [x])) [].

Definition write_elements (v : ptr) (l : list Z) : st InvertedListContainer unit :=
  for_each (combine (seqZ 0 (Z.of_nat (length l))) l) (fun e => assign v e.1 e.2).

(** *** The merge *)

(** A pass of the loop: the directory, the valid records with their scores, and how
    many of them are from the read view. *)
Definition merge_step (keywordId totalNumberOfDocuments readViewListSize writeViewListSize : Z) (isNewInvertedList : bool)
    (s : list ForwardListPtr * list InvertedListIdAndScore * nat) (invListIter recordId : Z) : result (list ForwardListPtr * list InvertedListIdAndScore * nat) :=
  let '(directory, elements, fromReadView) := s in
  match getForwardList directory recordId with
  | None => Ok s
  | Some p =>
      let? (forwardList, recordBoost) := of_option NullDeref p in
      let idf := computeIdf totalNumberOfDocuments writeViewListSize in
      let recordLength := numberOfKeywords forwardList in
      let? keywordOffset := getKeywordOffset forwardList keywordId in
      let? keywordOffset :=
        if recordLength <=? keywordOffset then
          if negb isNewInvertedList && negb (readViewListSize <=? invListIter) then Err AssertFailed
          else
            let? keywordOffset := getKeywordOffsetByLinearScan forwardList keywordId in
            if keywordOffset <? recordLength then Ok keywordOffset else Err AssertFailed
        else Ok keywordOffset in
      let? tfBoostProduct := getKeywordTfBoostProduct forwardList keywordOffset in
      let textRelevance := computeTextRelevance (float_of_half tfBoostProduct) idf in
      let score := applyExpression (f_of_unsigned recordLength) (float_of_half recordBoost) textRelevance in
      let? forwardList := setKeywordRecordStaticScore forwardList keywordOffset (half_of_float score) in
      let? directory := vec_set directory recordId (mk_flp (Some (forwardList, recordBoost)) true) in
      Ok (directory, elements ++ [mk_is recordId score],
        if negb isNewInvertedList && (invListIter <? readViewListSize) then S fromReadView else fromReadView)
  end.

Definition merge_loop (keywordId totalNumberOfDocuments readViewListSize writeViewListSize : Z) (isNewInvertedList : bool)
    (directory : list ForwardListPtr) (records : list Z) : result (list ForwardListPtr * list InvertedListIdAndScore * nat) :=
  ForwardList.fold_index records 0 (merge_step keywordId totalNumberOfDocuments readViewListSize writeViewListSize isNewInvertedList) (directory, [], O).

(** The size of the final write view, and the directory with the new scores. *)
Definition sortAndMerge (keywordId totalNumberOfDocuments : Z) (directory : list ForwardListPtr) :
    st InvertedListContainer (Z * list ForwardListPtr) :=
  let! readView := reads m_readView in
  let! readViewListSize := view_size readView in
  let! writeView := reads m_writeView in
  let! writeViewListSize := view_size writeView in
  assert_ (readViewListSize <=? writeViewListSize) ;;;
  let isNewInvertedList := bool_decide (readView = writeView) in
  let! records := read_elements writeView in
  let! (directory, elements, fromReadView) :=
    lift (merge_loop keywordId totalNumberOfDocuments readViewListSize writeViewListSize isNewInvertedList directory records) in
  let fromWriteView := sort InvertedListElementGreaterThan (drop fromReadView elements) in
  if isNewInvertedList then
    commit ;;; let! n := getWriteViewSize in ret (n, directory)
  else
    let elements := inplace_merge InvertedListElementGreaterThan (take fromReadView elements) fromWriteView in
    let! wv := load_view writeView in
    let! rv := load_view readView in
    (if bool_decide (m_array wv = m_array rv) then forceCreateCopy writeView else ret tt) ;;;
    on_flags (setSize (Z.of_nat (length elements))) writeView ;;;
    write_elements writeView (map is_record elements) ;;;
    merge false ;;;
    let! n := getWriteViewSize in ret (n, directory).

(** *** The end of the bulk load *)

Definition score_of (directory : list ForwardListPtr) (keywordId recordId : Z) : result InvertedListIdAndScore :=
  match getForwardList directory recordId with
  | None => Ok (mk_is recordId f_zero)
  | Some p =>
      let? (forwardList, _) := of_option NullDeref p in
      let? keywordOffset := getKeywordOffset forwardList keywordId in
      let? half := getKeywordRecordStaticScore forwardList keywordOffset in
      Ok (mk_is recordId (float_of_half half))
  end.

Definition sortAndMergeBeforeCommit (keywordId : Z) (directory : list ForwardListPtr) (needToSortEachInvertedList : bool) : st InvertedListContainer unit :=
  (if needToSortEachInvertedList then
     let! writeView := reads m_writeView in
     let! records := read_elements writeView in
     let! elements := lift (fold_res records (fun l r => let? e := score_of directory keywordId r in Ok (l ++ [e])) []) in
     write_elements writeView (map is_record (sort InvertedListElementGreaterThan elements))
   else ret tt) ;;;
  commit.
End List_.
End InvertedList.
