(* ===== verification/InvertedMerge.v ===== *)
(** * The merge of an inverted list (core/index/InvertedIndex.cpp, InvertedListContainer::sortAndMerge)

    The merge publishes the valid records of the list, each once for every time it was
    added; they are in the order of the comparator when those of the read view were so
    under the new scores.  The forward lists get the new scores. *)
From S2P Require Import Prelude CowVector CowPlain ForwardList ForwardSearch ForwardLayout ForwardScores PlanOperators InvertedList.
From Stdlib Require Import ZArith Lia List Bool SpecFloat Sorted.
From stdpp Require Import base gmap list fin_maps sets.
Open Scope Z_scope.

Module InvertedMerge.
Import CowVector CowPlain InvertedList.
Import PlanOperators(float, fgt).
Import ForwardScores(contents, c_ids, c_tfs, c_scores, c_occurrences, stands_for, set_score, content_offset, content_tf, content_set_score,
  content_number, sf_tfs, sf_ids).

(** ** Sorting *)

Section Sorting.
Context {A : Type} (before : A -> A -> bool).
Definition in_order (x y : A) : Prop := before y x = false.

Lemma insert_by_perm x l : Permutation (insert_by before x l) (x :: l).
Proof. induction l as [|y l IH]; [done|]. cbn. destruct (before y x); [|done]. by rewrite IH, Permutation_swap. Qed.

Lemma sort_perm l : Permutation (sort before l) l.
Proof. induction l as [|x l IH]; [done|]. change (Permutation (insert_by before x (sort before l)) (x :: l)). by rewrite insert_by_perm, IH. Qed.

Lemma merge_perm l1 : forall l2, Permutation (inplace_merge before l1 l2) (l1 ++ l2).
Proof.
  induction l1 as [|x l1 IH1]; [by intros []|]. induction l2 as [|y l2 IH2]; [cbn; by rewrite app_nil_r|].
  cbn. destruct (before y x).
  - change (Permutation (y :: inplace_merge before (x :: l1) l2) ((x :: l1) ++ y :: l2)). rewrite IH2. by rewrite <- Permutation_middle.
  - by rewrite (IH1 (y :: l2)).
Qed.

Context (P : A -> Prop) (Hasym : forall x y, P x -> P y -> before x y = true -> before y x = false)
  (Htrans : forall x y z, P x -> P y -> P z -> in_order x y -> in_order y z -> in_order x z).

Lemma insert_by_sorted x l : P x -> Forall P l -> StronglySorted in_order l -> StronglySorted in_order (insert_by before x l).
Proof.
  intros Hx. induction l as [|y l IH]; intros Hl Hs; [by repeat constructor|]. cbn. apply Forall_cons in Hl as [Hy Hl]. apply StronglySorted_inv in Hs as [Hs Hyl].
  destruct (before y x) eqn:E.
  - constructor; [by apply IH|]. rewrite List.Forall_forall in *. intros z Hz. apply (Permutation_in _ (insert_by_perm x l)) in Hz as [<-|Hz]; [by apply Hasym|by apply Hyl].
  - constructor; [by constructor|]. constructor; [done|]. rewrite List.Forall_forall in *. intros z Hz. apply (Htrans x y z); auto.
Qed.

Lemma sort_P l : Forall P l -> Forall P (sort before l).
Proof. intros H. by rewrite sort_perm. Qed.

Lemma sort_sorted l : Forall P l -> StronglySorted in_order (sort before l).
Proof.
  induction 1 as [|x l Hx Hl IH]; [constructor|]. apply insert_by_sorted; [done|by apply sort_P|done].
Qed.

Lemma merge_sorted l1 : forall l2, Forall P l1 -> Forall P l2 -> StronglySorted in_order l1 -> StronglySorted in_order l2 ->
  StronglySorted in_order (inplace_merge before l1 l2).
Proof.
  induction l1 as [|x l1 IH1]; [by intros []|]. intros l2 H1 H2 Hs1 Hs2. induction l2 as [|y l2 IH2]; [done|].
  pose proof H1 as H1'. pose proof H2 as H2'. pose proof Hs1 as Hs1'. pose proof Hs2 as Hs2'.
  apply Forall_cons in H1 as [Hx H1]. apply Forall_cons in H2 as [Hy H2]. apply StronglySorted_inv in Hs1 as [Hs1 Hx1]. apply StronglySorted_inv in Hs2 as [Hs2 Hy2].
  cbn. destruct (before y x) eqn:E.
  - change (StronglySorted in_order (y :: inplace_merge before (x :: l1) l2)). constructor; [by apply IH2|].
    assert (in_order y x) as Hyx by (by apply Hasym). rewrite List.Forall_forall in *. intros z Hz. apply (Permutation_in _ (merge_perm (x :: l1) l2)) in Hz.
    cbn in Hz. rewrite in_app_iff in Hz. destruct Hz as [<-|[Hz|Hz]]; [done| |by apply Hy2]. apply (Htrans y x z); auto.
  - constructor; [by apply IH1|]. assert (in_order x y) as Hxy by done. rewrite List.Forall_forall in *. intros z Hz.
    apply (Permutation_in _ (merge_perm l1 (y :: l2))) in Hz. rewrite in_app_iff in Hz. destruct Hz as [Hz|[<-|Hz]]; [by apply Hx1|done|]. apply (Htrans x y z); auto.
Qed.
End Sorting.

(** ** The order of the elements of a list *)

Definition is_number (x : float) : Prop := x <> S754_nan.
Definition numbered (e : InvertedListIdAndScore) : Prop := is_number (is_score e).

Definition float_key (x : float) : Z * Z * Z :=
  match x with
  | S754_zero _ | S754_nan => (0, 0, 0)
  | S754_infinity s => ((if s then -2 else 2), 0, 0)
  | S754_finite true m e => (-1, - e, - Zpos m)
  | S754_finite false m e => (1, e, Zpos m)
  end.
Definition key_lt (a b : Z * Z * Z) : Prop := a.1.1 < b.1.1 \/ a.1.1 = b.1.1 /\ (a.1.2 < b.1.2 \/ a.1.2 = b.1.2 /\ a.2 < b.2).
Definition key_eq (a b : Z * Z * Z) : Prop := a.1.1 = b.1.1 /\ a.1.2 = b.1.2 /\ a.2 = b.2.

Lemma float_compare x y : is_number x -> is_number y ->
  (fgt y x = true <-> key_lt (float_key x) (float_key y)) /\ (feq x y = true <-> key_eq (float_key x) (float_key y)).
Proof.
  intros Hx Hy. unfold fgt, feq, SFltb, SFeqb, key_lt, key_eq.
  destruct x as [sx|sx| |sx mx ex]; [| |done|]; (destruct y as [sy|sy| |sy my ey]; [| |done|]); destruct sx, sy; cbn;
    try (split; split; intros H; first [discriminate H|lia|reflexivity]);
    change (Pos.compare_cont Eq mx my) with (Pos.compare mx my);
    destruct (Z.compare_spec ex ey), (Pos.compare_spec mx my); subst; cbn; split; split; intros H'; first [discriminate H'|lia|reflexivity].
Qed.

Lemma greater_key x y : numbered x -> numbered y -> InvertedListElementGreaterThan x y = true <->
  key_lt (float_key (is_score y)) (float_key (is_score x)) \/ key_eq (float_key (is_score x)) (float_key (is_score y)) /\ is_record x < is_record y.
Proof.
  intros Hx Hy. unfold InvertedListElementGreaterThan, compareRecordsGreaterThan.
  destruct (float_compare (is_score x) (is_score y) Hx Hy) as [_ He]. destruct (float_compare (is_score y) (is_score x) Hy Hx) as [Hg _].
  destruct (feq (is_score x) (is_score y)) eqn:E.
  - apply proj1 in He. specialize (He eq_refl). rewrite Z.ltb_lt. split; [by right|]. unfold key_lt, key_eq in *. lia.
  - rewrite Hg. split; [by left|]. intros [?|[H _]]; [done|]. apply He in H. done.
Qed.

Lemma greater_asym x y : numbered x -> numbered y -> InvertedListElementGreaterThan x y = true -> InvertedListElementGreaterThan y x = false.
Proof. intros Hx Hy. rewrite greater_key by done. intros H. apply not_true_iff_false. rewrite greater_key by done. unfold key_lt, key_eq in *. lia. Qed.

Lemma greater_trans x y z : numbered x -> numbered y -> numbered z -> in_order InvertedListElementGreaterThan x y ->
  in_order InvertedListElementGreaterThan y z -> in_order InvertedListElementGreaterThan x z.
Proof. intros Hx Hy Hz. unfold in_order. rewrite <- !not_true_iff_false, !greater_key by done. unfold key_lt, key_eq. lia. Qed.

(** ** Reading and writing a view *)

Lemma seqZ_nat (n : nat) : seqZ 0 (Z.of_nat n) = map Z.of_nat (seq 0 n).
Proof.
  apply list_eq. intros i. unfold seqZ. rewrite list_lookup_fmap_map, list_lookup_fmap, Nat2Z.id. destruct (seq 0 n !! i); [|done]. cbn. f_equal. lia.
Qed.

(** A view is read when its size and its elements are known. *)
Lemma read_elements_of (s : cow Z) v (d : list Z) : view_size v s = Ok (Z.of_nat (length d), s) ->
  (forall (i : nat) x, d !! i = Some x -> getElement v (Z.of_nat i) s = Ok (Some x, s)) -> read_elements v s = Ok (d, s).
Proof.
  intros Hn He. unfold read_elements. rewrite (bind_run _ _ _ _ _ Hn).
  assert (forall rest done_, d = done_ ++ rest ->
    fold_st (map Z.of_nat (seq (length done_) (length rest)))
      (fun l i => let! x := getElement v i in let! x := lift (of_option OutOfRange x) in ret (l ++ [x])) done_ s = Ok (d, s)) as H.
  { induction rest as [|x rest IH]; intros done_ E; [cbn; by rewrite E, app_nil_r|]. cbn [length seq map fold_st].
    assert (d !! length done_ = Some x) as Hx by (rewrite E; by rewrite list_lookup_middle).
    rewrite (bind_run _ _ s (done_ ++ [x]) s).
    - specialize (IH (done_ ++ [x])). rewrite length_app in IH. cbn in IH. rewrite Nat.add_1_r in IH. apply IH. by rewrite <- app_assoc.
    - by rewrite (bind_run _ _ _ _ _ (He _ _ Hx)). }
  rewrite seqZ_nat. exact (H d [] eq_refl).
Qed.

Lemma shows_read (s : cow Z) (it : @item Z) : store_wf (views s) -> shows s it -> read_elements (it_v it) s = Ok (it_d it, s).
Proof.
  intros Hwf (vv & Hv & _ & Hn & He). apply read_elements_of; [|done]. unfold view_size. rewrite (bind_run _ _ _ _ _ (cow_load_view_run s _ _ Hwf Hv)). by rewrite Hn.
Qed.

Section Views.
Context (s : cow Z) (olds : list (ptr * list (@item Z))) (rd : @item Z) (aR aW : ptr) (draft : list Z) (own : bool).
Hypothesis (Hp : plain s olds rd aR aW draft own).

Lemma plain_write : exists f ar, cells (views s) !! m_writeView s = Some (mk_vv aW f) /\ flags f (Z.of_nat (length draft)) true own /\
  cells (arrays s) !! aW = Some ar /\ take (length draft) ar = map Some draft.
Proof. exact (iv_write _ _ _ _ _ _ _ _ (pl_inv _ _ _ _ _ _ _ Hp)). Qed.

Lemma plain_read : exists need f ar, cells (views s) !! it_v rd = Some (mk_vv aR f) /\ flags f (Z.of_nat (length (it_d rd))) false need /\
  cells (arrays s) !! aR = Some ar /\ take (length (it_d rd)) ar = map Some (it_d rd).
Proof. destruct (iv_rd _ _ _ _ _ _ _ _ (pl_inv _ _ _ _ _ _ _ Hp)) as (need & f & ar & H). by exists need, f, ar. Qed.

Lemma plain_views_wf : store_wf (views s).
Proof. exact (iv_vwf _ _ _ _ _ _ _ _ (pl_inv _ _ _ _ _ _ _ Hp)). Qed.
Lemma plain_arrays_wf : store_wf (arrays s).
Proof. exact (iv_awf _ _ _ _ _ _ _ _ (pl_inv _ _ _ _ _ _ _ Hp)). Qed.
Lemma plain_rd : m_readView s = it_v rd.
Proof. exact (iv_read _ _ _ _ _ _ _ _ (pl_inv _ _ _ _ _ _ _ Hp)). Qed.
Lemma plain_distinct : it_v rd <> m_writeView s.
Proof.
  pose proof (iv_nodup _ _ _ _ _ _ _ _ (pl_inv _ _ _ _ _ _ _ Hp)) as H. apply NoDup_cons in H as [H _]. intros E. apply H. rewrite E. by left.
Qed.

Lemma load_write : exists f, load_view (m_writeView s) s = Ok (mk_vv aW f, s) /\ size f = Z.of_nat (length draft).
Proof.
  destruct plain_write as (f & ar & Hv & Hf & _). exists f. split; [exact (cow_load_view_run s _ _ plain_views_wf Hv)|by eapply flags_size].
Qed.
Lemma load_read : exists f, load_view (it_v rd) s = Ok (mk_vv aR f, s) /\ size f = Z.of_nat (length (it_d rd)).
Proof.
  destruct plain_read as (need & f & ar & Hv & Hf & _). exists f. split; [exact (cow_load_view_run s _ _ plain_views_wf Hv)|by eapply flags_size].
Qed.

Lemma view_size_write : view_size (m_writeView s) s = Ok (Z.of_nat (length draft), s).
Proof. destruct load_write as (f & E & <-). unfold view_size. by rewrite (bind_run _ _ _ _ _ E). Qed.
Lemma view_size_read : view_size (it_v rd) s = Ok (Z.of_nat (length (it_d rd)), s).
Proof. destruct load_read as (f & E & <-). unfold view_size. by rewrite (bind_run _ _ _ _ _ E). Qed.

Lemma element_run (i : nat) x : draft !! i = Some x -> getElement (m_writeView s) (Z.of_nat i) s = Ok (Some x, s).
Proof.
  intros Hi. destruct plain_write as (f & ar & Hv & Hf & Har & Ht). unfold getElement.
  rewrite (bind_run _ _ _ _ _ (cow_load_view_run s _ _ plain_views_wf Hv)). cbn [m_array].
  rewrite (bind_run _ _ _ _ _ (load_array_run s _ _ plain_arrays_wf Har)). unfold lift.
  assert (vec_at ar (Z.of_nat i) = Ok (Some x)) as ->; [|done]. apply vec_at_nth. rewrite Nat2Z.id. split; [lia|].
  assert (take (length draft) ar !! i = Some (Some x)) as E by (rewrite Ht, list_lookup_fmap_map, Hi; done). by apply lookup_take_Some in E as [E _].
Qed.

Lemma read_elements_run : read_elements (m_writeView s) s = Ok (draft, s).
Proof. apply read_elements_of; [exact view_size_write|exact element_run]. Qed.
End Views.

Lemma write_elements_run l : forall s olds rd aR aW draft, plain s olds rd aR aW draft true -> length draft = length l ->
  Z.of_nat (length l) + 1 < 2 ^ 30 ->
  exists s' aW', write_elements (m_writeView s) l s = Ok (tt, s') /\ plain s' olds rd aR aW' l true /\ m_writeView s' = m_writeView s /\ readers s' = readers s.
Proof.
  assert (forall rest done_ s olds rd aR aW draft, l = done_ ++ rest -> plain s olds rd aR aW (done_ ++ draft) true -> length draft = length rest ->
    Z.of_nat (length l) + 1 < 2 ^ 30 -> exists s' aW',
      for_each (combine (map Z.of_nat (seq (length done_) (length rest))) rest) (fun e => assign (m_writeView s) e.1 e.2) s = Ok (tt, s') /\
      plain s' olds rd aR aW' l true /\ m_writeView s' = m_writeView s /\ readers s' = readers s) as H.
  { induction rest as [|x rest IH]; intros done_ s olds rd aR aW draft E Hp Hlen Hn.
    - destruct draft; [|done]. rewrite app_nil_r in E, Hp. subst done_. by exists s, aW.
    - destruct draft as [|y draft]; [done|]. cbn [length seq map combine for_each fst snd].
      destruct (plain_assign s olds rd aR aW (done_ ++ y :: draft) (length done_) x Hp) as (s1 & aW1 & E1 & Hp1 & Ew & Er).
      { rewrite length_app. cbn. lia. }
      { rewrite E in Hn. rewrite length_app in Hn |- *. cbn in *. lia. }
      rewrite (bind_run _ _ _ _ _ E1). rewrite insert_app_r_alt, Nat.sub_diag in Hp1 by lia. cbn [list_insert insert] in Hp1.
      destruct (IH (done_ ++ [x]) s1 olds rd aR aW1 draft) as (s' & aW' & E' & Hp' & Ew' & Er'); [by rewrite <- app_assoc|by rewrite <- app_assoc|by injection Hlen|done|].
      exists s', aW'. rewrite length_app in E'. cbn in E'. rewrite Nat.add_1_r, Ew in E'. split; [exact E'|]. split; [done|]. split; congruence. }
  intros s olds rd aR aW draft Hp Hlen Hn. unfold write_elements. rewrite seqZ_nat. exact (H l [] s olds rd aR aW draft eq_refl Hp Hlen Hn).
Qed.

(** ** The loop over the records *)

(** What an entry of the directory stands for. *)
Record document := mk_doc { d_contents : contents; d_boost : Z; d_valid : bool }.

Definition doc_at (docs : list document) (r : Z) : option document :=
  match vec_at docs r with Ok d => if d_valid d then Some d else None | Err _ => None end.

Record stands (t : ForwardList.PositionIndexType) (p : ForwardListPtr) (d : document) : Prop := {
  st_valid : fp_valid p = d_valid d;
  st_list : d_valid d = true -> exists fl, fp_list p = Some (fl, d_boost d) /\ stands_for t fl (d_contents d) /\ StronglySorted Z.lt (c_ids (d_contents d)) }.

(** The place of a keyword in a record. *)
Fixpoint place (w : Z) (ids : list Z) : nat :=
  match ids with [] => O | x :: ids' => if x =? w then O else S (place w ids') end.

Lemma place_lookup w ids : w ∈ ids -> ids !! place w ids = Some w.
Proof.
  induction ids as [|x ids IH]; [intros H; by apply elem_of_nil in H|]. cbn. destruct (Z.eqb_spec x w) as [->|Hne]; [done|].
  intros [->|H]%elem_of_cons; [done|]. by apply IH.
Qed.

Lemma place_sorted w ids p : StronglySorted Z.lt ids -> ids !! p = Some w -> place w ids = p.
Proof.
  intros Hs Hp. pose proof (place_lookup w ids ltac:(by eapply list_elem_of_lookup_2)) as Hq.
  destruct (Nat.lt_trichotomy (place w ids) p) as [H|[H|H]]; [|done|].
  - pose proof (ForwardSearch.strict_lookup ids _ _ _ _ Hs Hq Hp H). lia.
  - pose proof (ForwardSearch.strict_lookup ids _ _ _ _ Hs Hp Hq H). lia.
Qed.

Lemma doc_known docs r d : doc_at docs r = Some d -> 0 <= r /\ docs !! Z.to_nat r = Some d /\ d_valid d = true.
Proof.
  unfold doc_at. destruct (vec_at docs r) as [x|] eqn:E; [|done]. apply vec_at_nth in E as [H0 H1]. destruct (d_valid x) eqn:Ev; [|done].
  by intros [= ->].
Qed.

Section Loop.
Variables (half_of_float : float -> Z) (float_of_half : Z -> float) (one_plus_log : float -> float) (applyExpression : float -> float -> float -> float).
Hypothesis (Hhalf : forall x, is_uint 16 (half_of_float x)).
Context (t : ForwardList.PositionIndexType) (w total : Z).

(** The static score of the keyword in a record, for the number of records of the list. *)
Definition static_score (hits : Z) (d : document) : float :=
  applyExpression (f_of_unsigned (Z.of_nat (length (c_ids (d_contents d))))) (float_of_half (d_boost d))
    (computeTextRelevance (float_of_half (nth (place w (c_ids (d_contents d))) (c_tfs (d_contents d)) 0)) (computeIdf one_plus_log total hits)).

Definition with_score (hits : Z) (d : document) : document :=
  mk_doc (set_score (place w (c_ids (d_contents d))) (half_of_float (static_score hits d)) (d_contents d)) (d_boost d) (d_valid d).

(** The valid records with their scores, and the directory with these scores. *)
Definition scored (hits : Z) (docs : list document) (records : list Z) : list InvertedListIdAndScore :=
  omap (fun r => (fun d => mk_is r (static_score hits d)) <$> doc_at docs r) records.
Definition rescore (hits : Z) (docs : list document) (r : Z) : list document :=
  match doc_at docs r with Some d => <[Z.to_nat r := with_score hits d]> docs | None => docs end.

(** What the scores do not change. *)
Definition fixed_part (d : document) : list (list ForwardLayout.occurrence) * list Z * list Z * Z * bool :=
  (c_occurrences (d_contents d), c_ids (d_contents d), c_tfs (d_contents d), d_boost d, d_valid d).

Lemma rescore_fixed hits docs r : map fixed_part (rescore hits docs r) = map fixed_part docs.
Proof.
  unfold rescore. destruct (doc_at docs r) as [d|] eqn:E; [|done]. apply doc_known in E as (_ & Hd & _). apply list_eq. intros i.
  rewrite !list_lookup_fmap_map. destruct (decide (i = Z.to_nat r)) as [->|Hne]; [|by rewrite list_lookup_insert_ne].
  rewrite list_lookup_insert_eq by (by eapply lookup_lt_Some). rewrite Hd. done.
Qed.

Lemma fixed_doc docs docs' r : map fixed_part docs' = map fixed_part docs -> fixed_part <$> doc_at docs' r = fixed_part <$> doc_at docs r.
Proof.
  intros E. unfold doc_at, vec_at. destruct (r <? 0); [done|]. assert (fixed_part <$> docs' !! Z.to_nat r = fixed_part <$> docs !! Z.to_nat r) as H
    by (rewrite <- !list_lookup_fmap_map; by rewrite E).
  destruct (docs' !! Z.to_nat r) as [d'|], (docs !! Z.to_nat r) as [d|]; try done. cbn [fmap option_fmap option_map of_option] in *.
  apply (inj Some) in H. pose proof (f_equal snd H) as Hv. cbn in Hv. rewrite Hv. destruct (d_valid d); [|done]. cbn [fmap option_fmap option_map]. by rewrite H.
Qed.

Lemma scored_fixed hits docs docs' records : map fixed_part docs' = map fixed_part docs -> scored hits docs' records = scored hits docs records.
Proof.
  intros E. unfold scored. induction records as [|r records IH]; [done|]. cbn. rewrite IH. pose proof (fixed_doc docs docs' r E) as H.
  destruct (doc_at docs' r) as [d'|], (doc_at docs r) as [d|]; try done. cbn in *. injection H as _ H1 H2 H3 H4. unfold static_score. by rewrite H1, H2, H3.
Qed.

Lemma stands_lookup directory docs r : Forall2 (stands t) directory docs ->
  match doc_at docs r with
  | Some d => exists p, getForwardList directory r = Some (fp_list p) /\ directory !! Z.to_nat r = Some p /\ stands t p d
  | None => getForwardList directory r = None
  end.
Proof.
  intros H. unfold doc_at, getForwardList, vec_at. destruct (r <? 0); [done|].
  destruct (docs !! Z.to_nat r) as [d|] eqn:Ed; cbn [of_option].
  - destruct (Forall2_lookup_r _ _ _ _ _ H Ed) as (p & Hp & Hs). rewrite Hp. cbn [of_option]. rewrite (st_valid _ _ _ Hs). destruct (d_valid d); [|done]. by exists p.
  - assert (directory !! Z.to_nat r = None) as -> by (apply lookup_ge_None; rewrite (Forall2_length _ _ _ H); by apply lookup_ge_None). done.
Qed.

(** The lists that the loop reads have the keyword. *)
Definition covers (docs : list document) (records : list Z) : Prop :=
  forall r d, r ∈ records -> doc_at docs r = Some d -> w ∈ c_ids (d_contents d).

Lemma merge_step_run hits readSize directory docs elements count i r : Forall2 (stands t) directory docs -> covers docs [r] ->
  exists directory', merge_step half_of_float float_of_half one_plus_log applyExpression w total readSize hits false (directory, elements, count) i r =
      Ok (directory', elements ++ scored hits docs [r], if i <? readSize then (count + length (scored hits docs [r]))%nat else count) /\
    Forall2 (stands t) directory' (rescore hits docs r).
Proof using Hhalf.
  intros Hdir Hc. pose proof (stands_lookup directory docs r Hdir) as Hl. unfold merge_step, scored, rescore. cbn [omap list_omap].
  destruct (doc_at docs r) as [d|] eqn:Ed.
  - destruct Hl as (p & -> & Hp & Hs). specialize (Hc r d ltac:(set_solver) Ed). apply doc_known in Ed as (H0 & Hd & Hv).
    destruct (st_list _ _ _ Hs Hv) as (fl & -> & Hsf & Hsort). cbn [of_option rbind]. destruct (content_offset t _ _ Hsf w Hsort Hc) as (q & Ho & _ & Hq). rewrite Ho. cbn [rbind].
    rewrite (content_number t _ _ Hsf). pose proof (lookup_lt_Some _ _ _ Hq) as Hlt. destruct (Z.leb_spec (Z.of_nat (length (c_ids (d_contents d)))) (Z.of_nat q)); [lia|].
    cbn [rbind]. destruct (lookup_lt_is_Some_2 (c_tfs (d_contents d)) q) as [tf Htf]; [by rewrite (sf_tfs _ _ _ Hsf), <- (sf_ids _ _ _ Hsf)|].
    rewrite (content_tf t _ _ Hsf q tf Htf). cbn [rbind].
    assert (static_score hits d = applyExpression (f_of_unsigned (Z.of_nat (length (c_ids (d_contents d))))) (float_of_half (d_boost d))
      (computeTextRelevance (float_of_half tf) (computeIdf one_plus_log total hits))) as Esc.
    { unfold static_score. rewrite (place_sorted w _ q Hsort Hq). by rewrite (nth_lookup_Some _ _ _ _ Htf). }
    rewrite <- Esc. destruct (content_set_score t _ _ Hsf q (half_of_float (static_score hits d)) Hlt (Hhalf _)) as (fl' & Hset & Hsf'). rewrite Hset. cbn [rbind].
    pose proof (lookup_lt_Some _ _ _ Hp) as Hltp. unfold vec_set. destruct (Z.leb_spec 0 r); [|lia]. destruct (Z.ltb_spec r (Z.of_nat (length directory))); [|lia].
    cbn [andb rbind negb]. exists (<[Z.to_nat r:=mk_flp (Some (fl', d_boost d)) true]> directory). split.
    + cbn. destruct (i <? readSize); do 3 f_equal. by rewrite Nat.add_1_r.
    + apply Forall2_insert; [done|]. split; [done|]. intros _. exists fl'. cbn. split; [done|].
      rewrite (place_sorted w _ q Hsort Hq). by split.
  - rewrite Hl. exists directory. split; [|done]. cbn. rewrite app_nil_r, Nat.add_0_r. by destruct (i <? readSize).
Qed.

Lemma merge_loop_run hits (readN : nat) records : forall directory docs elements count (i : nat), Forall2 (stands t) directory docs -> covers docs records ->
  exists directory', ForwardList.fold_index records (Z.of_nat i)
      (merge_step half_of_float float_of_half one_plus_log applyExpression w total (Z.of_nat readN) hits false) (directory, elements, count) =
      Ok (directory', elements ++ scored hits docs records, (count + length (scored hits docs (take (readN - i) records)))%nat) /\
    Forall2 (stands t) directory' (fold_left (rescore hits) records docs).
Proof using Hhalf.
  induction records as [|r records IH]; intros directory docs elements count i Hdir Hc.
  { exists directory. rewrite take_nil. cbn. rewrite app_nil_r, Nat.add_0_r. done. }
  cbn [ForwardList.fold_index fold_left].
  destruct (merge_step_run hits (Z.of_nat readN) directory docs elements count (Z.of_nat i) r Hdir) as (directory1 & -> & Hdir1).
  { intros r' d Hr. apply list_elem_of_singleton in Hr as ->. apply Hc. by left. }
  cbn [rbind]. assert (covers (rescore hits docs r) records) as Hc1.
  { intros r' d' Hr Hd'. pose proof (fixed_doc docs _ r' (rescore_fixed hits docs r)) as E. rewrite Hd' in E. destruct (doc_at docs r') as [d|] eqn:Ed; [|done].
    injection E as _ E _ _ _. rewrite E. apply (Hc r' d); [by right|done]. }
  destruct (IH directory1 _ (elements ++ scored hits docs [r]) (if Z.of_nat i <? Z.of_nat readN then (count + length (scored hits docs [r]))%nat else count) (S i) Hdir1 Hc1)
    as (directory2 & E & Hdir2).
  exists directory2. split; [|done]. replace (Z.of_nat i + 1) with (Z.of_nat (S i)) by lia. rewrite E. clear E.
  rewrite !(scored_fixed hits docs _ _ (rescore_fixed hits docs r)). assert (forall l, scored hits docs (r :: l) = scored hits docs [r] ++ scored hits docs l) as Econs.
  { intros l. unfold scored. cbn. by destruct (_ <$> _). }
  rewrite (Econs records), <- app_assoc. do 2 f_equal. destruct (Z.ltb_spec (Z.of_nat i) (Z.of_nat readN)).
  - replace (readN - i)%nat with (S (readN - S i)) by lia. 
    cbn [firstn]. rewrite (Econs (take _ _)), length_app. lia.
  - replace (readN - i)%nat with O by lia. replace (readN - S i)%nat with O by lia. rewrite !take_0. cbn. lia.
Qed.
End Loop.
End InvertedMerge.
