(* ===== verification/InvertedHistory.v ===== *)
(** * Inverted lists under additions, merges and readers (core/index/InvertedIndex.cpp)

    A list is a published part, which readers see, and the records added since.  Every
    merge publishes the valid ones; readers keep what they took although the lists are
    merged without a manager of read views. *)
From S2P Require Import Prelude CowVector CowPlain ForwardList ForwardSearch ForwardLayout ForwardScores PlanOperators InvertedList InvertedMerge.
From Stdlib Require Import ZArith Lia List Bool SpecFloat Sorted.
From stdpp Require Import base gmap list fin_maps sets.
Open Scope Z_scope.

Module InvertedHistory.
Import CowVector CowPlain InvertedList InvertedMerge.
Import PlanOperators(float).
Import ForwardScores(c_ids).

Section History.
Variables (half_of_float : float -> Z) (float_of_half : Z -> float) (one_plus_log : float -> float) (applyExpression : float -> float -> float -> float).
Hypothesis (Hhalf : forall x, is_uint 16 (half_of_float x)).
Context (t : ForwardList.PositionIndexType).

Abbreviation scored := (scored float_of_half one_plus_log applyExpression).
Abbreviation rescore := (rescore half_of_float float_of_half one_plus_log applyExpression).
Abbreviation sortAndMerge := (sortAndMerge half_of_float float_of_half one_plus_log applyExpression).

(** ** The merge *)

(** What a merge publishes of the read part [pub] and the records [news] added to it. *)
Definition merged_elements (w total : Z) (docs : list document) (pub news : list Z) : list InvertedListIdAndScore :=
  let hits := Z.of_nat (length (pub ++ news)) in
  inplace_merge InvertedListElementGreaterThan (scored w total hits docs pub) (sort InvertedListElementGreaterThan (scored w total hits docs news)).

Lemma scored_app w total hits docs l1 l2 : scored w total hits docs (l1 ++ l2) = scored w total hits docs l1 ++ scored w total hits docs l2.
Proof. unfold InvertedMerge.scored. apply omap_app. Qed.

Lemma scored_length w total hits docs l : (length (scored w total hits docs l) <= length l)%nat.
Proof. induction l as [|r l IH]; [done|]. cbn. destruct (_ <$> _); cbn; unfold InvertedMerge.scored in IH; lia. Qed.

Lemma scored_records w total hits docs l : map is_record (scored w total hits docs l) = List.filter (fun r => match doc_at docs r with Some _ => true | None => false end) l.
Proof. induction l as [|r l IH]; [done|]. cbn. unfold InvertedMerge.scored in IH. destruct (doc_at docs r); cbn; by rewrite IH. Qed.

Lemma merged_elements_perm w total docs pub news :
  Permutation (merged_elements w total docs pub news) (scored w total (Z.of_nat (length (pub ++ news))) docs (pub ++ news)).
Proof. unfold merged_elements. by rewrite merge_perm, sort_perm, scored_app. Qed.

(** A merge keeps the order of its first range. *)
Lemma merge_sublist {A} (before : A -> A -> bool) l1 : forall l2, l1 `sublist_of` inplace_merge before l1 l2.
Proof.
  induction l1 as [|x l1 IH1]; [intros; apply sublist_nil_l|]. induction l2 as [|y l2 IH2]; [done|]. cbn [inplace_merge]. destruct (before y x).
  - apply sublist_cons. exact IH2.
  - apply sublist_skip. apply IH1.
Qed.

Lemma sublist_sorted {A} (R : A -> A -> Prop) l1 l2 : l1 `sublist_of` l2 -> StronglySorted R l2 -> StronglySorted R l1.
Proof.
  induction 1 as [|x l1 l2 Hs IH|x l1 l2 _ IH]; [done| |]; intros [H1 H2]%StronglySorted_inv; [|by apply IH].
  constructor; [by apply IH|]. rewrite List.Forall_forall in H2 |- *. intros y Hy. apply H2. apply list_elem_of_In in Hy. apply list_elem_of_In.
  by eapply elem_of_sublist.
Qed.

Lemma merge_commit {B} s olds rd aR aW draft own l (k : st (cow Z) B) : plain s olds rd aR aW draft own -> (length l <= length draft)%nat -> Z.of_nat (length draft) + 1 < 2 ^ 30 ->
  exists s' olds' aW',
    (let! wv := load_view (m_writeView s) in
     let! rv := load_view (it_v rd) in
     (if bool_decide (m_array wv = m_array rv) then forceCreateCopy (m_writeView s) else ret tt) ;;;
     on_flags (setSize (Z.of_nat (length l))) (m_writeView s) ;;;
     write_elements (m_writeView s) l ;;; merge false ;;; k) s = k s' /\ getWriteViewSize s' = Ok (Z.of_nat (length l), s') /\
    plain s' olds' (mk_item (m_writeView s) l) aW' aW' l false /\ readers s' = readers s /\
    forall it, it ∈ rd :: concat (map snd olds) -> (0 < reader_count s (it_v it))%nat -> it ∈ concat (map snd olds').
Proof using.
  intros Hp Hl Hn. destruct (load_write _ _ _ _ _ _ _ Hp) as (fw & Ew & _). destruct (load_read _ _ _ _ _ _ _ Hp) as (fr & Er & _).
  rewrite (bind_run _ _ _ _ _ Ew). rewrite (bind_run _ _ _ _ _ Er). cbn [m_array].
  assert (exists s1 aW1, (if bool_decide (aW = aR) then forceCreateCopy (m_writeView s) else ret tt) s = Ok (tt, s1) /\ plain s1 olds rd aR aW1 draft true /\
    m_writeView s1 = m_writeView s /\ readers s1 = readers s) as (s1 & aW1 & E1 & Hp1 & W1 & R1).
  { destruct own.
    - exists s, aW. rewrite bool_decide_eq_false_2; [done|]. pose proof (iv_arrays _ _ _ _ _ _ _ _ (pl_inv _ _ _ _ _ _ _ Hp)) as Ha.
      cbn [write_arrays app] in Ha. apply NoDup_cons in Ha as [Ha _]. intros ->. apply Ha. by left.
    - pose proof (iv_share _ _ _ _ _ _ _ _ (pl_inv _ _ _ _ _ _ _ Hp) eq_refl) as ->. rewrite bool_decide_eq_true_2 by done. by apply (plain_force _ _ _ _ _ _ _ Hp). }
  rewrite (bind_run _ _ _ _ _ E1). rewrite <- W1. destruct (plain_resize _ _ _ _ _ _ _ Hp1 Hl) as (s2 & E2 & Hp2 & W2 & R2).
  rewrite (bind_run _ _ _ _ _ E2). rewrite <- W2. destruct (write_elements_run l s2 _ _ _ _ _ Hp2) as (s3 & aW3 & E3 & Hp3 & W3 & R3);
    [rewrite length_take; lia|lia|].
  rewrite (bind_run _ _ _ _ _ E3). destruct (plain_merge _ _ _ _ _ _ Hp3) as (s4 & olds4 & aW4 & E4 & Hp4 & R4 & Hk).
  rewrite (bind_run _ _ _ _ _ E4). exists s4, olds4, aW4. split; [done|]. split; [|split; [|split]].
  - unfold getWriteViewSize. rewrite (bind_run _ _ s4 (m_writeView s4) s4 eq_refl). exact (view_size_write _ _ _ _ _ _ _ Hp4).
  - by rewrite W3 in Hp4.
  - congruence.
  - intros it Hit Hr. apply Hk; [done|]. unfold reader_count in *. congruence.
Qed.

Lemma sortAndMerge_run s olds rd aR aW news own directory docs w total : plain s olds rd aR aW (it_d rd ++ news) own ->
  Forall2 (stands t) directory docs -> covers w docs (it_d rd ++ news) -> Z.of_nat (length (it_d rd ++ news)) + 1 < 2 ^ 30 ->
  let out := merged_elements w total docs (it_d rd) news in
  exists s' olds' aW' directory',
    sortAndMerge w total directory s = Ok ((Z.of_nat (length out), directory'), s') /\
    plain s' olds' (mk_item (m_writeView s) (map is_record out)) aW' aW' (map is_record out) false /\ readers s' = readers s /\
    (forall it, it ∈ rd :: concat (map snd olds) -> (0 < reader_count s (it_v it))%nat -> it ∈ concat (map snd olds')) /\
    Forall2 (stands t) directory' (fold_left (rescore w total (Z.of_nat (length (it_d rd ++ news)))) (it_d rd ++ news) docs).
Proof using Hhalf.
  intros Hp Hdir Hc Hn out. set (draft := it_d rd ++ news) in *. unfold InvertedList.sortAndMerge.
  rewrite (bind_run _ _ s (it_v rd) s) by (unfold reads; by rewrite (plain_rd _ _ _ _ _ _ _ Hp)).
  rewrite (bind_run _ _ _ _ _ (view_size_read _ _ _ _ _ _ _ Hp)). rewrite (bind_run _ _ s (m_writeView s) s eq_refl).
  rewrite (bind_run _ _ _ _ _ (view_size_write _ _ _ _ _ _ _ Hp)).
  rewrite (bind_run _ _ s tt s) by (apply assert_run, Z.leb_le; unfold draft; rewrite length_app; lia).
  rewrite bool_decide_eq_false_2 by exact (plain_distinct _ _ _ _ _ _ _ Hp). rewrite (bind_run _ _ _ _ _ (read_elements_run _ _ _ _ _ _ _ Hp)).
  destruct (merge_loop_run half_of_float float_of_half one_plus_log applyExpression Hhalf t w total (Z.of_nat (length draft)) (length (it_d rd)) draft directory docs [] O O Hdir Hc)
    as (directory' & E & Hdir'). change (Z.of_nat 0) with 0 in E. cbn [app] in E. rewrite Nat.sub_0_r in E.
  assert (take (length (it_d rd)) draft = it_d rd) as Etake by (unfold draft; by rewrite take_app_length). rewrite Etake in E.
  rewrite (bind_run _ _ _ _ _ (proj2 (lift_Ok _ s _ s) (conj E eq_refl))). cbn [Nat.add].
  assert (scored w total (Z.of_nat (length draft)) docs draft = scored w total (Z.of_nat (length draft)) docs (it_d rd) ++ scored w total (Z.of_nat (length draft)) docs news) as Esc
    by apply scored_app.
  rewrite Esc, take_app_length, drop_app_length. fold draft in out. change (inplace_merge _ _ _) with out.
  destruct (merge_commit s olds rd aR aW draft own (map is_record out) (let! n := getWriteViewSize in ret (n, directory')) Hp)
    as (s' & olds' & aW' & Erun & Esize & Hp' & R' & Hk).
  { rewrite length_map. unfold out. rewrite (Permutation_length (merged_elements_perm w total docs (it_d rd) news)). fold draft. apply scored_length. }
  { done. }
  rewrite length_map in Erun, Esize. exists s', olds', aW', directory'. split; [|done]. refine (eq_trans Erun _). by rewrite (bind_run _ _ _ _ _ Esize).
Qed.

(** ** Histories of a list *)

(** The published records, those added since, and the published view with the views
    that readers may still hold. *)
Record list_abs := mk_la { la_pub : list Z; la_news : list Z; la_held : list (@item Z) }.

Definition represents_list (s : cow Z) (a : list_abs) : Prop := exists olds rd aR aW own,
  plain s olds rd aR aW (la_pub a ++ la_news a) own /\ it_d rd = la_pub a /\ la_held a = rd :: concat (map snd olds).

Inductive list_op :=
  | AddRecord (recordId : Z)
  | MergeList (keywordId totalNumberOfDocuments : Z) (directory : list ForwardListPtr)
  | TakeView
  | DropView (v : ptr).

Definition perform_list (o : list_op) : st (cow Z) unit :=
  match o with
  | AddRecord r => addInvertedListElement r
  | MergeList w total directory => let! _ := sortAndMerge w total directory in ret tt
  | TakeView => let! _ := getReadView in ret tt
  | DropView v => drop_reader v
  end.

(** The size stays below [2^30]; the records of the list that are valid have the
    keyword, with their ids in order; a reader gives up only what it holds. *)
Definition list_admissible (s : cow Z) (a : list_abs) (o : list_op) : Prop :=
  match o with
  | AddRecord _ => Z.of_nat (length (la_pub a ++ la_news a)) + 1 < 2 ^ 30
  | MergeList w total directory => Z.of_nat (length (la_pub a ++ la_news a)) + 1 < 2 ^ 30 /\
      exists docs, Forall2 (stands t) directory docs /\ covers w docs (la_pub a ++ la_news a)
  | TakeView => True
  | DropView v => (0 < reader_count s v)%nat
  end.

Definition list_step (a : list_abs) (o : list_op) (a' : list_abs) : Prop :=
  match o with
  | AddRecord r => la_pub a' = la_pub a /\ la_news a' = la_news a ++ [r]
  | MergeList w total directory => exists docs, Forall2 (stands t) directory docs /\
      la_pub a' = map is_record (merged_elements w total docs (la_pub a) (la_news a)) /\ la_news a' = []
  | TakeView | DropView _ => la_pub a' = la_pub a /\ la_news a' = la_news a
  end.

Lemma perform_list_run s a o : represents_list s a -> list_admissible s a o ->
  exists s' a', perform_list o s = Ok (tt, s') /\ represents_list s' a' /\ list_step a o a' /\
    forall it, it ∈ la_held a -> (0 < reader_count s (it_v it))%nat -> (0 < reader_count s' (it_v it))%nat -> it ∈ la_held a'.
Proof using Hhalf.
  intros (olds & rd & aR & aW & own & Hp & Erd & Eh) Ha. destruct a as [pub news held]. cbn [la_pub la_news la_held] in *. subst pub held.
  destruct o as [r|w total directory| |v]; cbn [list_admissible list_step perform_list la_pub la_news] in *.
  - destruct (plain_push _ _ _ _ _ _ _ r Hp Ha) as (s' & aW' & own' & E & Hp' & _ & _). exists s', (mk_la (it_d rd) (news ++ [r]) (rd :: concat (map snd olds))).
    split; [unfold addInvertedListElement; by rewrite (bind_run _ _ s (m_writeView s) s eq_refl)|]. split; [|done].
    exists olds, rd, aR, aW', own'. cbn. by rewrite app_assoc.
  - destruct Ha as (Hn & docs & Hdir & Hc). destruct (sortAndMerge_run s olds rd aR aW news own directory docs w total Hp Hdir Hc Hn)
      as (s' & olds' & aW' & directory' & E & Hp' & _ & Hk & _).
    eexists s', (mk_la _ [] (_ :: concat (map snd olds'))). split; [by rewrite (bind_run _ _ _ _ _ E)|]. split; [|split].
    + exists olds', (mk_item (m_writeView s) (map is_record (merged_elements w total docs (it_d rd) news))), aW', aW', false.
      cbn. rewrite app_nil_r. split; [exact Hp'|]. split; [reflexivity|reflexivity].
    + exists docs. done.
    + cbn. intros it Hit Hr _. right. by apply Hk.
  - destruct (plain_acquire _ _ _ _ _ _ _ Hp) as (s' & E & Hp' & _). exists s', (mk_la (it_d rd) news (rd :: concat (map snd olds))).
    split; [by rewrite (bind_run _ _ _ _ _ E)|]. split; [by exists olds, rd, aR, aW, own|done].
  - destruct (plain_release _ _ _ _ _ _ _ v Hp Ha) as (s' & olds' & E & Hp' & _ & _ & _ & Hk). exists s', (mk_la (it_d rd) news (rd :: concat (map snd olds'))).
    split; [exact E|]. split; [by exists olds', rd, aR, aW, own|]. split; [done|]. cbn. intros it Hit _ Hr.
    apply elem_of_cons in Hit as [->|Hit]; [by left|right]. by apply Hk.
Qed.

Lemma represents_list_shows s a it : represents_list s a -> it ∈ la_held a -> shows s it.
Proof using. intros (olds & rd & aR & aW & own & Hp & _ & ->) Hit. apply (plain_shows _ _ _ _ _ _ _ it Hp). by apply elem_of_cons in Hit. Qed.

(** A reader holds [v] in every state from [s0] to [s]. *)
Inductive held_through (v : ptr) (s0 : cow Z) : cow Z -> Prop :=
  | ht_start : (0 < reader_count s0 v)%nat -> held_through v s0 s0
  | ht_step s o s' : held_through v s0 s -> (forall a, represents_list s a -> list_admissible s a o) -> perform_list o s = Ok (tt, s') ->
      (0 < reader_count s' v)%nat -> held_through v s0 s'.

Lemma held_through_shown it s0 a0 s : represents_list s0 a0 -> it ∈ la_held a0 -> held_through (it_v it) s0 s ->
  (0 < reader_count s (it_v it))%nat /\ exists a, represents_list s a /\ it ∈ la_held a.
Proof using Hhalf.
  intros Hs Hit Hh. induction Hh as [Hc|s o s' Hh (Hc & a & Ha & Hin) Hadm Hp Hc']; [split; [done|by exists a0]|]. split; [done|].
  destruct (perform_list_run s a o Ha (Hadm a Ha)) as (s2 & a2 & Hp2 & Ha2 & _ & Hk). assert (s2 = s') as -> by congruence.
  exists a2. split; [done|]. by apply Hk.
Qed.

(** A list is created and committed. *)
Lemma new_list_run capacity : 0 <= capacity -> exists c s rd, new_container capacity = Ok c /\ commit c = Ok (tt, s) /\
  represents_list s (mk_la [] [] [rd]) /\ it_d rd = [] /\ readers s = ∅.
Proof using.
  intros Hc. destruct (plain_start (T := Z) capacity Hc) as (s & rd & a & E & Hp & Erd & Er).
  apply bind_Ok in E as ([] & c & E1 & E2). exists c, s, rd. split; [unfold new_container; by rewrite E1|]. split; [done|]. split; [|done].
  exists [], rd, a, a, false. cbn. done.
Qed.
End History.

(** ** Properties *)

(** (C13) The merge of an inverted list: it succeeds, and publishes the records of the
    list that are not deleted, each as often as it was added, with the scores computed
    for the new number of records, which it writes into the forward lists; if the
    published records were in order under these scores and none of them is a NaN, the
    list is in the order of the comparator. *)
Theorem merge_publishes_valid (half_of_float : float -> Z) (float_of_half : Z -> float) (one_plus_log : float -> float)
    (applyExpression : float -> float -> float -> float) (t : ForwardList.PositionIndexType) (s : cow Z) (a : list_abs)
    (directory : list ForwardListPtr) (docs : list document) (w total : Z) :
  (forall x, is_uint 16 (half_of_float x)) -> represents_list s a -> Forall2 (stands t) directory docs -> covers w docs (la_pub a ++ la_news a) ->
  Z.of_nat (length (la_pub a ++ la_news a)) + 1 < 2 ^ 30 ->
  let hits := Z.of_nat (length (la_pub a ++ la_news a)) in
  let scores := scored float_of_half one_plus_log applyExpression w total hits docs in
  let sorted l := StronglySorted (in_order InvertedListElementGreaterThan) l in
  exists s' directory' l held,
    sortAndMerge half_of_float float_of_half one_plus_log applyExpression w total directory s = Ok ((Z.of_nat (length l), directory'), s') /\
    represents_list s' (mk_la (map is_record l) [] held) /\
    Permutation l (scores (la_pub a ++ la_news a)) /\
    Permutation (map is_record l) (List.filter (fun r => match doc_at docs r with Some _ => true | None => false end) (la_pub a ++ la_news a)) /\
    (Forall numbered (scores (la_pub a ++ la_news a)) -> sorted (scores (la_pub a)) -> sorted l) /\
    Forall2 (stands t) directory'
      (fold_left (rescore half_of_float float_of_half one_plus_log applyExpression w total hits) (la_pub a ++ la_news a) docs).
Proof.
  intros Hhalf (olds & rd & aR & aW & own & Hp & Erd & _) Hdir Hc Hn hits scores sorted. destruct a as [pub news held0]. cbn [la_pub la_news] in *. subst pub.
  destruct (sortAndMerge_run half_of_float float_of_half one_plus_log applyExpression Hhalf t s olds rd aR aW news own directory docs w total Hp Hdir Hc Hn)
    as (s' & olds' & aW' & directory' & E & Hp' & _ & _ & Hdir').
  pose proof (merged_elements_perm float_of_half one_plus_log applyExpression w total docs (it_d rd) news) as Hperm.
  set (l := merged_elements _ _ _ _ _ _ _ _) in *.
  exists s', directory', l, (mk_item (m_writeView s) (map is_record l) :: concat (map snd olds')). split; [exact E|]. split; [|split; [exact Hperm|split; [|split; [|exact Hdir']]]].
  - exists olds', (mk_item (m_writeView s) (map is_record l)), aW', aW', false. cbn. rewrite app_nil_r. split; [exact Hp'|done].
  - rewrite <- (scored_records float_of_half one_plus_log applyExpression w total hits). by apply Permutation_map.
  - intros Hnum Hs. unfold scores in Hnum. rewrite scored_app in Hnum. apply Forall_app in Hnum as [H1 H2].
    apply (merge_sorted _ numbered greater_asym greater_trans); [exact H1|by apply sort_P|exact Hs|]. by apply (sort_sorted _ numbered greater_asym greater_trans).
Qed.

(** (C14) Readers of an inverted list keep what they took: while a reader holds a view,
    whatever additions, merges and other readers come, they succeed, and the view shows
    the records it had, although the lists are merged without a manager. *)
Theorem list_readers_keep (half_of_float : float -> Z) (float_of_half : Z -> float) (one_plus_log : float -> float)
    (applyExpression : float -> float -> float -> float) (t : ForwardList.PositionIndexType) (s0 s : cow Z) (a0 : list_abs) (it : @item Z) :
  (forall x, is_uint 16 (half_of_float x)) -> represents_list s0 a0 -> it ∈ la_held a0 ->
  held_through half_of_float float_of_half one_plus_log applyExpression t (it_v it) s0 s ->
  shows s it /\ forall o, (forall a, represents_list s a -> list_admissible t s a o) ->
    exists s', perform_list half_of_float float_of_half one_plus_log applyExpression o s = Ok (tt, s').
Proof.
  intros Hhalf Hs Hit Hh. destruct (held_through_shown half_of_float float_of_half one_plus_log applyExpression Hhalf t it s0 a0 s Hs Hit Hh) as (_ & a & Ha & Hin).
  split; [by eapply represents_list_shows|]. intros o Ho.
  destruct (perform_list_run half_of_float float_of_half one_plus_log applyExpression Hhalf t s a o Ha (Ho a Ha)) as (s' & _ & E & _). by exists s'.
Qed.

(** ** Examples *)

Lemma zero_half : forall x : float, is_uint 16 0.
Proof. done. Qed.

Lemma represents_list_elements s a l : represents_list s a -> read_elements (m_writeView s) s = Ok (l, s) -> la_pub a ++ la_news a = l.
Proof. intros (olds & rd & aR & aW & own & Hp & _) E. rewrite (read_elements_run _ _ _ _ _ _ _ Hp) in E. by injection E. Qed.

Definition ex_expression (_ boost relevance : float) : float := PlanOperators.fadd boost relevance.
Definition ex_contents (tf : Z) : ForwardScores.contents :=
  ForwardScores.mk_contents [40] [tf] [0] [[ForwardLayout.mk_occ 0 1 1 2 ForwardList.ANALYZED_ORIGINAL_TOKEN]].
Definition ex_document (tf boost : Z) (valid : bool) : document := mk_doc (ex_contents tf) boost valid.
Definition ex_entry (d : document) : ForwardListPtr :=
  mk_flp (Some (ForwardScores.image ForwardList.POSITION_INDEX_FULL (d_contents d), d_boost d)) (d_valid d).

Lemma ex_stands tf boost valid : is_uint 16 tf -> stands ForwardList.POSITION_INDEX_FULL (ex_entry (ex_document tf boost valid)) (ex_document tf boost valid).
Proof.
  intros Htf. split; [done|]. intros _. eexists. split; [reflexivity|]. split; [|repeat constructor].
  apply ForwardScores.image_stands; try done; repeat first [apply List.Forall_nil|apply List.Forall_cons]; try done; try (vm_compute; done).
  constructor; try done; repeat first [apply List.Forall_nil|apply List.Forall_cons]; done.
Qed.

(** Three records; the one in the middle was deleted. *)
Definition ex_docs : list document := [ex_document 1 3 true; ex_document 9 9 false; ex_document 2 5 true].
Definition ex_directory : list ForwardListPtr := map ex_entry ex_docs.
Lemma ex_directory_stands : Forall2 (stands ForwardList.POSITION_INDEX_FULL) ex_directory ex_docs.
Proof. repeat (constructor; [apply ex_stands; vm_compute; done|]). constructor. Qed.
Lemma ex_covers l : covers 40 ex_docs l.
Proof.
  intros r d _ Hd. apply doc_known in Hd as (_ & Hd & _). destruct (Z.to_nat r) as [|[|[|n]]]; cbn in Hd; try done; injection Hd as <-; cbn; by left.
Qed.

Abbreviation ex_perform := (perform_list (fun _ => 0) f_of_unsigned (fun x => x) ex_expression).
Definition ex_run {A} (m : st (cow Z) A) : cow Z := match m empty_cow with Ok (_, s) => s | Err _ => empty_cow end.
Definition ex_list : st (cow Z) unit := cowvector_ 1 ;;; commit ;;; ex_perform (AddRecord 0) ;;; ex_perform (AddRecord 1) ;;; ex_perform (AddRecord 2).

Lemma ex_represents : exists a, represents_list (ex_run ex_list) a /\ la_pub a = [] /\ la_news a = [0; 1; 2].
Proof.
  destruct (new_list_run 1 ltac:(lia)) as (c & s & rd & E1 & E2 & Hr & _ & _).
  assert (forall r x s1 a, represents_list s1 a -> la_pub a = [] -> la_news a = x -> (length x < 10)%nat ->
    exists s2 a2, ex_perform (AddRecord r) s1 = Ok (tt, s2) /\ represents_list s2 a2 /\ la_pub a2 = [] /\ la_news a2 = x ++ [r]) as Hadd.
  { intros r x s1 a Ha H1 H2 Hx. destruct (perform_list_run (fun _ => 0) f_of_unsigned (fun x => x) ex_expression zero_half ForwardList.POSITION_INDEX_FULL s1 a (AddRecord r) Ha)
      as (s2 & a2 & E & Ha2 & [H3 H4] & _); [cbn; rewrite H1, H2; cbn; lia|]. exists s2, a2. split; [done|]. split; [done|]. by rewrite H3, H4, H1, H2. }
  destruct (Hadd 0 [] s _ Hr eq_refl eq_refl ltac:(cbn; lia)) as (s1 & a1 & F1 & R1 & P1 & N1).
  destruct (Hadd 1 _ s1 _ R1 P1 N1 ltac:(cbn; lia)) as (s2 & a2 & F2 & R2 & P2 & N2).
  destruct (Hadd 2 _ s2 _ R2 P2 N2 ltac:(cbn; lia)) as (s3 & a3 & F3 & R3 & P3 & N3). exists a3. split; [|done].
  assert (ex_list empty_cow = Ok (tt, s3)) as E.
  { unfold ex_list. unfold new_container in E1. destruct (cowvector_ 1 empty_cow) as [[[] c']|] eqn:E0; [|done]. cbn in E1. injection E1 as ->.
    rewrite (bind_run _ _ _ _ _ E0), (bind_run _ _ _ _ _ E2), (bind_run _ _ _ _ _ F1), (bind_run _ _ _ _ _ F2). exact F3. }
  unfold ex_run. by rewrite E.
Qed.

Lemma merge_publishes_valid_witness : exists s' directory' l held,
  sortAndMerge (fun _ => 0) f_of_unsigned (fun x => x) ex_expression 40 8 ex_directory (ex_run ex_list) = Ok ((Z.of_nat (length l), directory'), s') /\
  represents_list s' (mk_la (map is_record l) [] held) /\ Permutation (map is_record l) [0; 2].
Proof.
  destruct ex_represents as (a & Ha & Hp & Hn).
  destruct (merge_publishes_valid (fun _ => 0) f_of_unsigned (fun x => x) ex_expression ForwardList.POSITION_INDEX_FULL (ex_run ex_list) a ex_directory ex_docs 40 8)
    as (s' & directory' & l & held & E & Hr & _ & Hl & _ & _).
  - exact zero_half.
  - exact Ha.
  - exact ex_directory_stands.
  - apply ex_covers.
  - rewrite Hp, Hn. vm_compute. reflexivity.
  - exists s', directory', l, held. split; [exact E|]. split; [exact Hr|]. rewrite Hp, Hn in Hl. exact Hl.
Defined.

(** A reader takes the view before the merge. *)
Definition ex_taken : st (cow Z) unit := ex_list ;;; ex_perform (MergeList 40 8 ex_directory) ;;; ex_perform TakeView.
Definition ex_later : st (cow Z) unit := ex_taken ;;; ex_perform (AddRecord 1).
Definition ex_merged : st (cow Z) unit := ex_later ;;; ex_perform (MergeList 40 8 ex_directory).

Lemma list_readers_keep_witness : exists it, it_d it = [2; 0] /\ shows (ex_run ex_merged) it.
Proof.
  destruct ex_represents as (a & Ha & Hp & Hn).
  destruct (perform_list_run (fun _ => 0) f_of_unsigned (fun x => x) ex_expression zero_half ForwardList.POSITION_INDEX_FULL _ a (MergeList 40 8 ex_directory) Ha)
    as (s1 & a1 & E1 & R1 & (docs & _ & Hp1 & _) & _).
  { split; [rewrite Hp, Hn; vm_compute; reflexivity|]. exists ex_docs. split; [exact ex_directory_stands|apply ex_covers]. }
  destruct (perform_list_run (fun _ => 0) f_of_unsigned (fun x => x) ex_expression zero_half ForwardList.POSITION_INDEX_FULL s1 a1 TakeView R1)
    as (s2 & a2 & E2 & R2 & _ & _); [exact I|].
  assert (s2 = ex_run ex_taken) as ->.
  { vm_compute in E1. injection E1 as <-. vm_compute in E2. injection E2 as <-. vm_compute. reflexivity. }
  assert (exists it, it ∈ la_held a2 /\ it_d it = [2; 0] /\ it_v it = m_readView (ex_run ex_taken)) as (it & Hit & Hd & Hv).
  { destruct R2 as (olds & rd & aR & aW & own & Hpl & Erd & Eh). exists rd. split; [rewrite Eh; by left|]. split; [|by rewrite (plain_rd _ _ _ _ _ _ _ Hpl)].
    destruct (plain_shows _ _ _ _ _ _ _ rd Hpl (or_introl eq_refl)) as (vv & Hvv & _ & Hsz & Hel). rewrite <- (plain_rd _ _ _ _ _ _ _ Hpl) in Hvv, Hel.
    vm_compute in Hvv. injection Hvv as <-.
    match type of Hsz with ?n = _ => let m := eval vm_compute in n in change (m = Z.of_nat (length (it_d rd))) in Hsz end.
    destruct (it_d rd) as [|x [|y [|z l]]]; try (exfalso; cbn in Hsz; lia). pose proof (Hel 0%nat x eq_refl) as H0. pose proof (Hel 1%nat y eq_refl) as H1.
    vm_compute in H0, H1. injection H0 as <-. by injection H1 as <-. }
  exists it. split; [exact Hd|].
  refine (proj1 (list_readers_keep (fun _ => 0) f_of_unsigned (fun x => x) ex_expression ForwardList.POSITION_INDEX_FULL (ex_run ex_taken) (ex_run ex_merged) a2 it _ R2 Hit _)).
  - exact zero_half.
  - rewrite Hv. apply (ht_step _ _ _ _ _ _ _ (ex_run ex_later) (MergeList 40 8 ex_directory)).
    + apply (ht_step _ _ _ _ _ _ _ (ex_run ex_taken) (AddRecord 1)); [apply ht_start; vm_compute; constructor| |vm_compute; reflexivity|vm_compute; constructor].
      intros b Hb. cbn. rewrite (represents_list_elements _ b [2; 0] Hb) by (vm_compute; reflexivity). vm_compute. reflexivity.
    + intros b Hb. split; [|exists ex_docs; split; [exact ex_directory_stands|apply ex_covers]].
      rewrite (represents_list_elements _ b [2; 0; 1] Hb) by (vm_compute; reflexivity). vm_compute. reflexivity.
    + vm_compute. reflexivity.
    + vm_compute. constructor.
Defined.

(** (C40) A merge does not put the old records in order: it gives all records new scores
    but sorts only those that were added.  The valid records of the published part stay
    in the order they had, and the published list is in the order of the comparator
    exactly when these were in order under their new scores - which depend on the number
    of records and of documents, and may be in another order than the old ones. *)
Theorem merge_keeps_old_order (half_of_float : float -> Z) (float_of_half : Z -> float) (one_plus_log : float -> float)
    (applyExpression : float -> float -> float -> float) (t : ForwardList.PositionIndexType) (s : cow Z) (a : list_abs)
    (directory : list ForwardListPtr) (docs : list document) (w total : Z) :
  (forall x, is_uint 16 (half_of_float x)) -> represents_list s a -> Forall2 (stands t) directory docs -> covers w docs (la_pub a ++ la_news a) ->
  Z.of_nat (length (la_pub a ++ la_news a)) + 1 < 2 ^ 30 ->
  let scores := scored float_of_half one_plus_log applyExpression w total (Z.of_nat (length (la_pub a ++ la_news a))) docs in
  let sorted l := StronglySorted (in_order InvertedListElementGreaterThan) l in
  exists s' directory' l held,
    sortAndMerge half_of_float float_of_half one_plus_log applyExpression w total directory s = Ok ((Z.of_nat (length l), directory'), s') /\
    represents_list s' (mk_la (map is_record l) [] held) /\
    scores (la_pub a) `sublist_of` l /\
    (Forall numbered (scores (la_pub a ++ la_news a)) -> sorted l <-> sorted (scores (la_pub a))).
Proof.
  intros Hhalf (olds & rd & aR & aW & own & Hp & Erd & _) Hdir Hc Hn scores sorted. destruct a as [pub news held0]. cbn [la_pub la_news] in *. subst pub.
  destruct (sortAndMerge_run half_of_float float_of_half one_plus_log applyExpression Hhalf t s olds rd aR aW news own directory docs w total Hp Hdir Hc Hn)
    as (s' & olds' & aW' & directory' & E & Hp' & _). set (l := merged_elements _ _ _ _ _ _ _ _) in *.
  assert (scores (it_d rd) `sublist_of` l) as Hsub by apply merge_sublist.
  exists s', directory', l, (mk_item (m_writeView s) (map is_record l) :: concat (map snd olds')). split; [exact E|]. split; [|split; [exact Hsub|]].
  - exists olds', (mk_item (m_writeView s) (map is_record l)), aW', aW', false. cbn. rewrite app_nil_r. split; [exact Hp'|done].
  - intros Hnum. unfold scores in Hnum. rewrite scored_app in Hnum. apply Forall_app in Hnum as [H1 H2]. split; [by apply sublist_sorted|]. intros Hs.
    apply (merge_sorted _ numbered greater_asym greater_trans); [exact H1|by apply sort_P|exact Hs|]. by apply (sort_sorted _ numbered greater_asym greater_trans).
Qed.

(** A first merge puts record 0 before record 1 by their scores 5 and 4; when a record is
    added after the number of documents grew, their new scores are 7 and 8. *)
Definition ex_grown : list document := [ex_document 1 3 true; ex_document 2 0 true; ex_document 0 0 true].
Lemma ex_grown_stands : Forall2 (stands ForwardList.POSITION_INDEX_FULL) (map ex_entry ex_grown) ex_grown.
Proof. repeat (constructor; [apply ex_stands; vm_compute; done|]). constructor. Qed.
Lemma ex_grown_covers l : covers 40 ex_grown l.
Proof.
  intros r d _ Hd. apply doc_known in Hd as (_ & Hd & _). destruct (Z.to_nat r) as [|[|[|n]]]; cbn in Hd; try done; injection Hd as <-; cbn; by left.
Qed.

Definition ex_start : st (cow Z) unit := cowvector_ 1 ;;; commit.
Definition ex_steps : list list_op := [AddRecord 0; AddRecord 1; MergeList 40 6 (map ex_entry ex_grown); AddRecord 2].
Definition ex_state (n : nat) : cow Z := ex_run (ex_start ;;; for_each (take n ex_steps) ex_perform).

Lemma ex_step_run n o a : ex_steps !! n = Some o -> represents_list (ex_state n) a -> list_admissible ForwardList.POSITION_INDEX_FULL (ex_state n) a o ->
  ex_perform o (ex_state n) = Ok (tt, ex_state (S n)) -> exists a', represents_list (ex_state (S n)) a' /\ match o with AddRecord r => la_pub a' = la_pub a /\ la_news a' = la_news a ++ [r] | MergeList _ _ _ => la_news a' = [] | _ => True end.
Proof.
  intros Ho Ha Had E. destruct (perform_list_run (fun _ => 0) f_of_unsigned (fun x => x) ex_expression zero_half ForwardList.POSITION_INDEX_FULL (ex_state n) a o Ha Had)
    as (s' & a' & E' & Ha' & Hs & _). rewrite E in E'. injection E' as <-. exists a'. split; [done|]. destruct o; [done|by destruct Hs as (? & _ & _ & ?)|done|done].
Qed.

Lemma ex_resorted : exists a, represents_list (ex_state 4) a /\ la_pub a = [0; 1] /\ la_news a = [2].
Proof.
  destruct (new_list_run 1 ltac:(lia)) as (c & s & rd & E1 & E2 & Hr & _ & _).
  assert (s = ex_state 0) as -> by (vm_compute in E1; injection E1 as <-; vm_compute in E2; injection E2 as <-; vm_compute; reflexivity).
  destruct (ex_step_run 0 _ _ eq_refl Hr ltac:(reflexivity) ltac:(vm_compute; reflexivity)) as (a1 & H1 & P1 & N1).
  destruct (ex_step_run 1 _ _ eq_refl H1 ltac:(cbn; rewrite P1, N1; reflexivity) ltac:(vm_compute; reflexivity)) as (a2 & H2 & P2 & N2).
  destruct (ex_step_run 2 _ _ eq_refl H2) as (a3 & H3 & N3); [|vm_compute; reflexivity|].
  { split; [rewrite P2, N2, P1, N1; reflexivity|]. exists ex_grown. split; [exact ex_grown_stands|apply ex_grown_covers]. }
  assert (la_pub a3 = [0; 1]) as P3.
  { pose proof (represents_list_elements _ _ [0; 1] H3 ltac:(vm_compute; reflexivity)) as P3. by rewrite N3, app_nil_r in P3. }
  destruct (ex_step_run 3 _ _ eq_refl H3 ltac:(cbn; rewrite P3, N3; reflexivity) ltac:(vm_compute; reflexivity)) as (a4 & H4 & P4 & N4).
  exists a4. by rewrite P4, N4, P3, N3.
Qed.

Lemma merge_keeps_old_order_witness : exists s' directory' l held,
  sortAndMerge (fun _ => 0) f_of_unsigned (fun x => x) ex_expression 40 16 (map ex_entry ex_grown) (ex_state 4) = Ok ((Z.of_nat (length l), directory'), s') /\
  represents_list s' (mk_la (map is_record l) [] held) /\ ~ StronglySorted (in_order InvertedListElementGreaterThan) l.
Proof.
  destruct ex_resorted as (a & Ha & Hp & Hn).
  destruct (merge_keeps_old_order (fun _ => 0) f_of_unsigned (fun x => x) ex_expression ForwardList.POSITION_INDEX_FULL (ex_state 4) a (map ex_entry ex_grown) ex_grown 40 16)
    as (s' & directory' & l & held & E & Hr & _ & Hs).
  - exact zero_half.
  - exact Ha.
  - exact ex_grown_stands.
  - apply ex_grown_covers.
  - rewrite Hp, Hn. vm_compute. reflexivity.
  - exists s', directory', l, held. split; [exact E|]. split; [exact Hr|]. rewrite Hp, Hn in Hs. rewrite Hs by (match goal with |- Forall _ ?m => set (m0 := m); vm_compute in m0; subst m0; repeat (apply List.Forall_cons; [discriminate|]); apply List.Forall_nil end).
    match goal with |- ~ StronglySorted _ ?m => set (m0 := m); vm_compute in m0; subst m0 end.
    intros Hbad. apply StronglySorted_inv in Hbad as [_ Hbad]. apply List.Forall_inv in Hbad. unfold in_order in Hbad. vm_compute in Hbad. discriminate Hbad.
Defined.

(** A forward list whose ids are not in order, because one of them is temporary: the
    binary search for the keyword with the id 7 ends at the keyword with the id 1000, so
    that the merge of the list of 7 gives the new score to 1000 and leaves 7 its old one. *)
Theorem unsorted_ids_score_another :
  let c := ForwardScores.mk_contents [5; 1000; 7] [1; 2; 3] [0; 0; 0] (replicate 3 [ForwardLayout.mk_occ 0 1 1 2 ForwardList.ANALYZED_ORIGINAL_TOKEN]) in
  let p := ex_entry (mk_doc c 0 true) in
  exists s fl, (cowvector_ 1 ;;; commit ;;; addInvertedListElement 0 ;;;
      sortAndMerge (fun _ => 15360) f_of_unsigned (fun x => x) ex_expression 7 6 [p]) empty_cow = Ok ((1, [mk_flp (Some (fl, 0)) true]), s) /\
    ForwardList.getKeywordId fl 1 = Ok 1000 /\ ForwardList.getKeywordRecordStaticScore fl 1 = Ok 15360 /\
    ForwardList.getKeywordId fl 2 = Ok 7 /\ ForwardList.getKeywordRecordStaticScore fl 2 = Ok 0.
Proof. eexists _, _. split; [vm_compute; reflexivity|]. repeat split; vm_compute; reflexivity. Qed.
End InvertedHistory.
