(* ===== verification/InvertedIndex.v ===== *)
(** * The inverted index (core/index/InvertedIndex.cpp)

    A directory of inverted lists and the keyword of each list, in copy-on-write
    vectors; while records are bulk loaded only the sizes of the lists are counted.
    Containers are numbered in the order of their creation, and the directory holds
    these numbers.  What the index asks of the trie is part of its results. *)
From S2P Require Import Prelude CowVector ForwardList PlanOperators InvertedList.
From Stdlib Require Import ZArith Lia List Bool SpecFloat.
From stdpp Require Import base gmap list fin_maps.
Open Scope Z_scope.

Module InvertedIndex.
Import CowVector InvertedList.
Import PlanOperators(float).
Import ForwardList(numberOfKeywords, getKeywordTfBoostProduct, setKeywordTfBoostProduct, setKeywordRecordStaticScore).

Record InvertedIndex := mk_ii {
  containers : list InvertedListContainer;
  invertedIndexVector : cow Z;
  keywordIds : cow Z;
  commited_WriteView : bool;
  invertedListSizeDirectory : list Z;
  invertedListKeywordSetToMerge : list (Z * Z) }.   (* a std::set: in order, without duplicates *)

(** The vectors are NULL before [initialiseInvertedIndexCommit]. *)
Definition new_index : InvertedIndex := mk_ii [] empty_cow empty_cow false [] [].

Definition set_containers (x : list InvertedListContainer) (s : InvertedIndex) : InvertedIndex :=
  mk_ii x (invertedIndexVector s) (keywordIds s) (commited_WriteView s) (invertedListSizeDirectory s) (invertedListKeywordSetToMerge s).
Definition set_vector (x : cow Z) (s : InvertedIndex) : InvertedIndex :=
  mk_ii (containers s) x (keywordIds s) (commited_WriteView s) (invertedListSizeDirectory s) (invertedListKeywordSetToMerge s).
Definition set_keywordIds (x : cow Z) (s : InvertedIndex) : InvertedIndex :=
  mk_ii (containers s) (invertedIndexVector s) x (commited_WriteView s) (invertedListSizeDirectory s) (invertedListKeywordSetToMerge s).
Definition set_commited (s : InvertedIndex) : InvertedIndex :=
  mk_ii (containers s) (invertedIndexVector s) (keywordIds s) true [] (invertedListKeywordSetToMerge s).
Definition set_sizes (x : list Z) (s : InvertedIndex) : InvertedIndex :=
  mk_ii (containers s) (invertedIndexVector s) (keywordIds s) (commited_WriteView s) x (invertedListKeywordSetToMerge s).
Definition set_toMerge (x : list (Z * Z)) (s : InvertedIndex) : InvertedIndex :=
  mk_ii (containers s) (invertedIndexVector s) (keywordIds s) (commited_WriteView s) (invertedListSizeDirectory s) x.

Definition on_vector {A} (m : st (cow Z) A) : st InvertedIndex A := fun s =>
  match m (invertedIndexVector s) with Ok (a, v) => Ok (a, set_vector v s) | Err f => Err f end.
Definition on_keywordIds {A} (m : st (cow Z) A) : st InvertedIndex A := fun s =>
  match m (keywordIds s) with Ok (a, v) => Ok (a, set_keywordIds v s) | Err f => Err f end.
(** [container->...] *)
Definition on_container {A} (p : Z) (m : st (cow Z) A) : st InvertedIndex A := fun s =>
  let? c := vec_at (containers s) p in
  let? (a, c) := m c in
  let? cs := vec_set (containers s) p c in Ok (a, set_containers cs s).
(** [new InvertedListContainer(capacity)], which a first operation may follow. *)
Definition new_list (capacity : Z) (m : st (cow Z) unit) : st InvertedIndex Z := fun s =>
  let? c := new_container capacity in
  let? (_, c) := m c in
  Ok (Z.of_nat (length (containers s)), set_containers (containers s ++ [c]) s).

(** An element of the write view of the directory. *)
Definition list_at (invertedListId : Z) : st InvertedIndex Z :=
  let! x := on_vector (let! w := reads m_writeView in at_ w invertedListId ;;; getElement w invertedListId) in
  lift (of_option OutOfRange x).
Definition directory_size : st InvertedIndex Z := on_vector (let! w := reads m_writeView in view_size w).
Definition keywordId_at (invertedListId : Z) : st InvertedIndex Z :=
  let! x := on_keywordIds (let! w := reads m_writeView in getElement w invertedListId) in lift (of_option OutOfRange x).

(** ** Counting hits *)

Definition incrementDummyHitCount (invertedIndexDirectoryIndex : Z) : st InvertedIndex unit :=
  let! committed := reads commited_WriteView in
  if committed then ret tt
  else
    let! sizes := reads invertedListSizeDirectory in
    if invertedIndexDirectoryIndex =? Z.of_nat (length sizes) then modify (set_sizes (sizes ++ [0])) else ret tt.

Definition incrementHitCount (invertedIndexDirectoryIndex : Z) : st InvertedIndex unit :=
  let! committed := reads commited_WriteView in
  if negb committed then
    let! sizes := reads invertedListSizeDirectory in
    if invertedIndexDirectoryIndex =? Z.of_nat (length sizes) then modify (set_sizes (sizes ++ [1]))
    else if invertedIndexDirectoryIndex <? Z.of_nat (length sizes) then
      let! n := lift (vec_at sizes invertedIndexDirectoryIndex) in
      let! sizes := lift (vec_set sizes invertedIndexDirectoryIndex (wrap32 (n + 1))) in modify (set_sizes sizes)
    else ret tt
  else
    let! n := directory_size in
    if invertedIndexDirectoryIndex =? n then
      let! p := new_list 1 CowVector.commit in
      on_vector (let! w := reads m_writeView in push_back w p)
    else ret tt.

(** ** Scores *)

Section Index.
Variables (half_of_float : float -> Z) (float_of_half : Z -> float) (one_plus_log : float -> float).
Variable (applyExpression : float -> float -> float -> float).

Definition getIdf (totalNumberOfDocuments invertedListId : Z) : st InvertedIndex float :=
  let! committed := reads commited_WriteView in
  if negb committed then
    let! sizes := reads invertedListSizeDirectory in
    assert_ (invertedListId <? Z.of_nat (length sizes)) ;;;
    let! n := lift (vec_at sizes invertedListId) in ret (computeIdf one_plus_log totalNumberOfDocuments n)
  else
    let! n := directory_size in
    assert_ (invertedListId <? n) ;;;
    let! p := list_at invertedListId in
    let! n := on_container p getWriteViewSize in ret (computeIdf one_plus_log totalNumberOfDocuments n).

Definition computeRecordStaticScore (recordBoost recordLength idf tfBoostProduct : float) : float :=
  applyExpression recordLength recordBoost (computeTextRelevance tfBoostProduct idf).

Definition addInvertedListElement (invertedListId recordId : Z) : st InvertedIndex unit :=
  let! n := directory_size in
  assert_ (invertedListId <? n) ;;;
  let! p := list_at invertedListId in
  on_container p (InvertedList.addInvertedListElement recordId).

(** The score of the keyword at a place of a forward list. *)
Definition keyword_score (totalNumberOfDocuments : Z) (boost : float) (forwardList : ForwardList.ForwardList) (counter invertedListId : Z) :
    st InvertedIndex (float * float) :=
  let! idf := getIdf totalNumberOfDocuments invertedListId in
  let! half := lift (getKeywordTfBoostProduct forwardList counter) in
  let tfBoostProduct := float_of_half half in
  ret (tfBoostProduct, computeRecordStaticScore boost (f_of_unsigned (numberOfKeywords forwardList)) idf tfBoostProduct).

Definition set_scores (forwardList : ForwardList.ForwardList) (counter : Z) (tfBoostProduct score : float) : result ForwardList.ForwardList :=
  let? forwardList := setKeywordTfBoostProduct forwardList counter (half_of_float tfBoostProduct) in
  setKeywordRecordStaticScore forwardList counter (half_of_float score).

Definition assign_keyword (invertedListId keywordId : Z) : st InvertedIndex unit :=
  on_keywordIds (let! w := reads m_writeView in assign w invertedListId keywordId).

(** ** Records after the bulk load *)

(** [std::set::insert] on pairs. *)
Definition pair_lt (a b : Z * Z) : bool := (a.1 <? b.1) || (a.1 =? b.1) && (a.2 <? b.2).
Fixpoint set_insert (x : Z * Z) (l : list (Z * Z)) : list (Z * Z) :=
  match l with
  | [] => [x]
  | y :: l' => if pair_lt x y then x :: l else if pair_lt y x then y :: set_insert x l' else l
  end.

(** The keywords with their inverted lists, in the order of the forward list.  The
    second result lists the calls of updateMaximumScoreOfLeafNodesForKeyword_WriteView. *)
Fixpoint add_keywords (forwardListOffset totalNumberOfDocuments : Z) (boost : float) (forwardList : ForwardList.ForwardList) (counter : Z)
    (keywords : list (Z * Z)) : st InvertedIndex (ForwardList.ForwardList * list (Z * Z)) :=
  match keywords with
  | [] => ret (forwardList, [])
  | (keywordId, invertedListId) :: keywords' =>
      assign_keyword invertedListId keywordId ;;;
      addInvertedListElement invertedListId forwardListOffset ;;;
      modify (fun s => set_toMerge (set_insert (invertedListId, keywordId) (invertedListKeywordSetToMerge s)) s) ;;;
      let! (tfBoostProduct, score) := keyword_score totalNumberOfDocuments boost forwardList counter invertedListId in
      let! forwardList := lift (set_scores forwardList counter tfBoostProduct score) in
      let! (forwardList, calls) := add_keywords forwardListOffset totalNumberOfDocuments boost forwardList (counter + 1) keywords' in
      ret (forwardList, (keywordId, half_of_float score) :: calls)
  end.

Definition addRecord (forwardList : ForwardList.ForwardList) (forwardListOffset : Z) (boost : float) (totalNumberOfDocuments : Z) (keywords : list (Z * Z)) :
    st InvertedIndex (ForwardList.ForwardList * list (Z * Z)) :=
  let! committed := reads commited_WriteView in
  if committed then add_keywords forwardListOffset totalNumberOfDocuments boost forwardList 0 keywords else ret (forwardList, []).

Definition appendInvertedListKeywordIdsForMerge (invertedListKeywordIds : list (Z * Z)) : st InvertedIndex unit :=
  modify (fun s => set_toMerge (fold_left (fun l x => set_insert x l) invertedListKeywordIds (invertedListKeywordSetToMerge s)) s).

(** ** The merge *)

(** The lists to merge, one after the other: the directory of forward lists and the
    keyword ids that are given to addEmptyLeafNodeId. *)
Fixpoint merge_lists (totalNumberOfDocuments : Z) (directory : list ForwardListPtr) (emptyLeafNodeIds : list Z) (toMerge : list (Z * Z)) :
    st InvertedIndex (list ForwardListPtr * list Z) :=
  match toMerge with
  | [] => ret (directory, emptyLeafNodeIds)
  | (invertedListId, keywordId) :: toMerge' =>
      let! n := directory_size in
      assert_ (invertedListId <? n) ;;;
      let! p := list_at invertedListId in
      let! w := keywordId_at invertedListId in
      let! (finalInvListWriteViewSize, directory) :=
        on_container p (sortAndMerge half_of_float float_of_half one_plus_log applyExpression w totalNumberOfDocuments directory) in
      merge_lists totalNumberOfDocuments directory (if finalInvListWriteViewSize =? 0 then emptyLeafNodeIds ++ [keywordId] else emptyLeafNodeIds) toMerge'
  end.

Definition merge (totalNumberOfDocuments : Z) (directory : list ForwardListPtr) : st InvertedIndex (list ForwardListPtr * list Z) :=
  on_vector (CowVector.merge true) ;;;
  on_keywordIds (CowVector.merge true) ;;;
  let! toMerge := reads invertedListKeywordSetToMerge in
  let! r := merge_lists totalNumberOfDocuments directory [] toMerge in
  modify (set_toMerge []) ;;; ret r.

(** ** The bulk load *)

Definition initialiseInvertedIndexCommit : st InvertedIndex unit :=
  let! committed := reads commited_WriteView in
  assert_ (negb committed) ;;;
  let! sizes := reads invertedListSizeDirectory in
  modify (set_vector empty_cow) ;;; on_vector (cowvector_ (Z.of_nat (length sizes))) ;;;
  modify (set_keywordIds empty_cow) ;;; on_keywordIds (cowvector_ (Z.of_nat (length sizes))) ;;;
  for_each sizes (fun n => let! p := new_list n (ret tt) in on_vector (let! w := reads m_writeView in push_back w p)).

Fixpoint commit_keywords (forwardListOffset totalNumberOfDocuments : Z) (boost : float) (forwardList : ForwardList.ForwardList) (counter : Z)
    (keywords : list (Z * Z)) : st InvertedIndex ForwardList.ForwardList :=
  match keywords with
  | [] => ret forwardList
  | (keywordId, invertedListId) :: keywords' =>
      let! (tfBoostProduct, score) := keyword_score totalNumberOfDocuments boost forwardList counter invertedListId in
      assign_keyword invertedListId keywordId ;;;
      addInvertedListElement invertedListId forwardListOffset ;;;
      let! forwardList := lift (set_scores forwardList counter tfBoostProduct score) in
      commit_keywords forwardListOffset totalNumberOfDocuments boost forwardList (counter + 1) keywords'
  end.

(** The new keyword ids of the forward list with the inverted lists, as
    ForwardIndex::commit gives them; [at] is out of range when there are too few. *)
Definition commit (forwardList : ForwardList.ForwardList) (forwardListOffset : Z) (boost : float) (totalNumberOfDocuments : Z) (newKeywordIds : list (Z * Z)) :
    st InvertedIndex ForwardList.ForwardList :=
  let! committed := reads commited_WriteView in
  if committed then ret forwardList
  else
    let n := Z.to_nat (numberOfKeywords forwardList) in
    if Nat.ltb (length newKeywordIds) n then fail OutOfRange
    else commit_keywords forwardListOffset totalNumberOfDocuments boost forwardList 0 (take n newKeywordIds).

Definition finalCommit (directory : list ForwardListPtr) (needToSortEachInvertedList : bool) : st InvertedIndex unit :=
  let! n := directory_size in
  for_each (seqZ 0 n) (fun iter =>
    let! p := list_at iter in
    let! w := keywordId_at iter in
    on_container p (sortAndMergeBeforeCommit float_of_half w directory needToSortEachInvertedList)) ;;;
  on_vector CowVector.commit ;;; on_keywordIds CowVector.commit ;;;
  modify set_commited.
End Index.

(** ** Readers *)

Definition getTotalNumberOfInvertedLists_ReadView : st InvertedIndex Z := on_vector (let! r := reads m_readView in view_size r).

(** The list at a place of a directory that a reader took. *)
Definition getInvertedListReadView (invertedListDirectoryReadView : list Z) (invertedListId : Z) : st InvertedIndex (list Z) :=
  let! n := getTotalNumberOfInvertedLists_ReadView in
  assert_ (invertedListId <? n) ;;;
  let! p := lift (vec_at invertedListDirectoryReadView invertedListId) in
  on_container p (let! r := reads m_readView in read_elements r).

Definition getInvertedIndexDirectory_ReadView : st InvertedIndex (list Z) := on_vector (let! r := reads m_readView in read_elements r).
Definition getInvertedIndexKeywordIds_ReadView : st InvertedIndex (list Z) := on_keywordIds (let! r := reads m_readView in read_elements r).

Definition getInvertedListSize_ReadView (invertedListId : Z) : st InvertedIndex Z :=
  let! n := getTotalNumberOfInvertedLists_ReadView in
  if n <=? invertedListId then ret 0
  else
    let! x := on_vector (let! r := reads m_readView in getElement r invertedListId) in
    let! p := lift (of_option OutOfRange x) in
    on_container p getReadViewSize.
End InvertedIndex.
