(* ===== verification/InvertedUpdate.v ===== *)
(** * The inverted index under updates (core/index/InvertedIndex.cpp)

    What the index represents: the inverted lists with the keyword of each.  Adding the
    keywords of a record extends its lists, a merge publishes every list of the set. *)
From S2P Require Import Prelude CowVector CowPlain ForwardList ForwardSearch ForwardLayout ForwardScores PlanOperators InvertedList.
From S2P Require Import InvertedMerge InvertedHistory InvertedIndex.
From Stdlib Require Import ZArith Lia List Bool SpecFloat Sorted.
From stdpp Require Import base gmap list fin_maps sets.
Open Scope Z_scope.

Module InvertedUpdate.
Import CowVector CowPlain InvertedList InvertedMerge InvertedHistory InvertedIndex.
Import PlanOperators(float).
Import ForwardScores(contents, mk_contents, c_ids, c_tfs, c_scores, c_occurrences, scoring, stands_for).

(** ** A vector with a manager, as the index uses it *)

Definition vector_is (s : cow Z) (l : list Z) : Prop := exists a, represents s a /\ draft a = l.
(** Readers see the same elements. *)
Definition vector_shown (s : cow Z) (l : list Z) : Prop := exists a, represents s a /\ draft a = l /\ it_d (published a) = l.

Section Vector.
Context (s : cow Z) (l : list Z) (Hl : vector_is s l).

Lemma vector_view : exists aW f ar need, store_wf (views s) /\ store_wf (arrays s) /\ cells (views s) !! m_writeView s = Some (mk_vv aW f) /\
  flags f (Z.of_nat (length l)) true need /\ cells (arrays s) !! aW = Some ar /\ take (length l) ar = map Some l.
Proof using Hl.
  destruct Hl as (a & (olds & cur & aR & aW & Hi & _) & <-). destruct (iv_write _ _ _ _ _ _ _ _ Hi) as (f & ar & H1 & H2 & H3 & H4).
  exists aW, f, ar, (own a). split; [apply Hi|]. split; [apply Hi|]. done.
Qed.

Lemma shown_element (ar : list (option Z)) (i : nat) (x : Z) : take (length l) ar = map Some l -> l !! i = Some x -> ar !! i = Some (Some x).
Proof using.
  intros Ht Hi. pose proof (lookup_lt_Some _ _ _ Hi). rewrite <- (lookup_take_lt ar (length l)) by done. by rewrite Ht, list_lookup_fmap_map, Hi.
Qed.

Lemma vector_size : view_size (m_writeView s) s = Ok (Z.of_nat (length l), s).
Proof using Hl.
  destruct vector_view as (aW & f & ar & need & Hv & _ & Hw & Hf & _). unfold view_size. rewrite (bind_run _ _ _ _ _ (cow_load_view_run s _ _ Hv Hw)).
  cbn. by rewrite (flags_size _ _ _ _ Hf).
Qed.

Lemma vector_element (i : nat) x : l !! i = Some x -> getElement (m_writeView s) (Z.of_nat i) s = Ok (Some x, s).
Proof using Hl.
  intros Hi. destruct vector_view as (aW & f & ar & need & Hv & Ha & Hw & Hf & Har & Ht). unfold getElement.
  rewrite (bind_run _ _ _ _ _ (cow_load_view_run s _ _ Hv Hw)). rewrite (bind_run _ _ _ _ _ (load_array_run s _ _ Ha Har)).
  apply lift_Ok. split; [|done]. apply vec_at_nth. rewrite Nat2Z.id. split; [lia|by apply shown_element].
Qed.

(** [at(i)] inside the vector changes nothing. *)
Lemma vector_at (i : nat) : (i < length l)%nat -> at_ (m_writeView s) (Z.of_nat i) s = Ok (tt, s).
Proof using Hl.
  intros Hi. destruct vector_view as (aW & f & ar & need & Hv & Ha & Hw & Hf & Har & Ht). unfold at_.
  rewrite (bind_run _ _ _ _ _ (cow_load_view_run s _ _ Hv Hw)). rewrite (bind_run _ _ _ _ _ (load_array_run s _ _ Ha Har)).
  rewrite (bind_run _ _ s tt s) by (apply assert_run; cbn; by rewrite (flags_isWriteView _ _ _ _ Hf)).
  assert (length l <= length ar)%nat. { apply (f_equal length) in Ht. rewrite length_take, length_map in Ht. lia. }
  rewrite (bind_run _ _ s tt s) by (destruct (Z.leb_spec (Z.of_nat (length ar)) (Z.of_nat i)); [lia|done]).
  rewrite (bind_run _ _ _ _ _ (cow_load_view_run s _ _ Hv Hw)). cbn. rewrite (flags_size _ _ _ _ Hf).
  destruct (Z.leb_spec (Z.of_nat (length l)) (Z.of_nat i)); [lia|done].
Qed.

(** Writing the element that is there changes nothing. *)
Lemma vector_same (i : nat) x : l !! i = Some x -> assign (m_writeView s) (Z.of_nat i) x s = Ok (tt, s).
Proof using Hl.
  intros Hi. unfold assign. rewrite (bind_run _ _ _ _ _ (vector_at i (lookup_lt_Some _ _ _ Hi))).
  destruct vector_view as (aW & f & ar & need & Hv & Ha & Hw & Hf & Har & Ht).
  rewrite (bind_run _ _ _ _ _ (cow_load_view_run s _ _ Hv Hw)). rewrite (bind_run _ _ _ _ _ (load_array_run s _ _ Ha Har)).
  pose proof (shown_element ar i x Ht Hi) as Hx. rewrite (bind_run _ _ s ar s).
  - cbn [m_array]. rewrite (store_array_run s aW ar ar Ha Har). f_equal. f_equal. unfold upd, s_put. rewrite insert_id by done. by destruct s as [[] ? ? ? ? ? ?].
  - apply lift_Ok. split; [|done]. apply vec_set_Ok. rewrite Nat2Z.id. split; [apply lookup_lt_Some in Hx; lia|]. by rewrite list_insert_id.
Qed.

Lemma vector_push x : Z.of_nat (length l) + 1 < 2 ^ 30 -> exists s', push_back (m_writeView s) x s = Ok (tt, s') /\ vector_is s' (l ++ [x]).
Proof using Hl.
  intros Hn. destruct Hl as (a & (olds & cur & aR & aW & Hi & Hh) & <-). destruct (push_run _ _ _ _ _ _ _ _ x Hi Hn) as (s' & aW' & own' & E & Hi' & _).
  exists s'. split; [done|]. exists (mk_abs (draft a ++ [x]) (published a) (held a) own'). split; [|done]. by exists olds, cur, aR, aW'.
Qed.

(** Writing behind the last element adds one. *)
Lemma vector_next x : Z.of_nat (length l) + 1 < 2 ^ 30 -> exists s', assign (m_writeView s) (Z.of_nat (length l)) x s = Ok (tt, s') /\ vector_is s' (l ++ [x]).
Proof using Hl.
  intros Hn. destruct (vector_push x Hn) as (s' & E & Hs'). exists s'. split; [|done]. rewrite <- E. unfold push_back.
  destruct vector_view as (aW & f & ar & need & Hv & _ & Hw & Hf & _). rewrite (bind_run _ _ _ _ _ (cow_load_view_run s _ _ Hv Hw)).
  cbn [m_sizeAndFlags]. rewrite (bind_run _ _ s tt s) by (apply assert_run; by rewrite (flags_isWriteView _ _ _ _ Hf)). by rewrite (flags_size _ _ _ _ Hf).
Qed.

Lemma vector_merge : exists s', CowVector.merge true s = Ok (tt, s') /\ vector_shown s' l.
Proof using Hl.
  destruct Hl as (a & Ha & <-). destruct (cow_perform_run s a Merge Ha I) as (s' & a' & E & Ha' & H1 & H2 & _). exists s'. split; [exact E|]. by exists a'.
Qed.
End Vector.

Lemma shown_is s l : vector_shown s l -> vector_is s l.
Proof. intros (a & Ha & Hd & _). by exists a. Qed.

Lemma shown_read s l : vector_shown s l -> read_elements (m_readView s) s = Ok (l, s).
Proof.
  intros (a & Ha & _ & <-). pose proof (represents_shows s a (published a) Ha ltac:(by left)) as Hs. destruct Ha as (olds & cur & aR & aW & Hi & _).
  rewrite (iv_read _ _ _ _ _ _ _ _ Hi). apply shows_read; [apply Hi|done].
Qed.

(** The published part of a list. *)
Lemma list_read s a : represents_list s a -> read_elements (m_readView s) s = Ok (la_pub a, s).
Proof.
  intros Ha. pose proof Ha as (olds & rd & aR & aW & own & Hp & <- & Eh). rewrite (plain_rd _ _ _ _ _ _ _ Hp).
  apply shows_read; [exact (plain_views_wf _ _ _ _ _ _ _ Hp)|]. apply (represents_list_shows s a rd Ha). rewrite Eh. by left.
Qed.
(** ** The index *)

Definition la_all (a : list_abs) : list Z := la_pub a ++ la_news a.

Record represents_index (s : InvertedIndex) (ls : list list_abs) (kws : list Z) : Prop := {
  ri_lists : Forall2 represents_list (containers s) ls;
  ri_vector : vector_is (invertedIndexVector s) (seqZ 0 (Z.of_nat (length ls)));
  ri_kws : vector_is (keywordIds s) kws;
  ri_committed : commited_WriteView s = true }.

(** Readers see the directory and the keywords as they are. *)
Record shown_index (s : InvertedIndex) (ls : list list_abs) (kws : list Z) : Prop := {
  si_index : represents_index s ls kws;
  si_vector : vector_shown (invertedIndexVector s) (seqZ 0 (Z.of_nat (length ls)));
  si_kws : vector_shown (keywordIds s) kws }.

Lemma on_vector_run {A} (m : st (cow Z) A) s a v : m (invertedIndexVector s) = Ok (a, v) -> on_vector m s = Ok (a, set_vector v s).
Proof. intros E. unfold on_vector. by rewrite E. Qed.
Lemma on_vector_same {A} (m : st (cow Z) A) s a : m (invertedIndexVector s) = Ok (a, invertedIndexVector s) -> on_vector m s = Ok (a, s).
Proof. intros E. rewrite (on_vector_run m s a _ E). by destruct s. Qed.
Lemma on_keywordIds_run {A} (m : st (cow Z) A) s a v : m (keywordIds s) = Ok (a, v) -> on_keywordIds m s = Ok (a, set_keywordIds v s).
Proof. intros E. unfold on_keywordIds. by rewrite E. Qed.
Lemma on_keywordIds_same {A} (m : st (cow Z) A) s a : m (keywordIds s) = Ok (a, keywordIds s) -> on_keywordIds m s = Ok (a, s).
Proof. intros E. rewrite (on_keywordIds_run m s a _ E). by destruct s. Qed.
Lemma on_container_run {A} (m : st (cow Z) A) s (l : nat) c a c' : containers s !! l = Some c -> m c = Ok (a, c') ->
  on_container (Z.of_nat l) m s = Ok (a, set_containers (<[l := c']> (containers s)) s).
Proof.
  intros Hc E. unfold on_container. assert (vec_at (containers s) (Z.of_nat l) = Ok c) as -> by (apply vec_at_nth; rewrite Nat2Z.id; split; [lia|done]).
  cbn [rbind]. rewrite E. cbn [rbind]. assert (vec_set (containers s) (Z.of_nat l) c' = Ok (<[l := c']> (containers s))) as ->; [|done].
  apply vec_set_Ok. rewrite Nat2Z.id. split; [|done]. split; [lia|]. apply inj_lt. exact (lookup_lt_Some _ _ _ Hc).
Qed.
Lemma on_container_same {A} (m : st (cow Z) A) s (l : nat) c a : containers s !! l = Some c -> m c = Ok (a, c) -> on_container (Z.of_nat l) m s = Ok (a, s).
Proof. intros Hc E. rewrite (on_container_run m s l c a c Hc E). rewrite list_insert_id by done. by destruct s. Qed.

Section Index.
Context (s : InvertedIndex) (ls : list list_abs) (kws : list Z) (Hs : represents_index s ls kws).

Lemma index_list (l : nat) a : ls !! l = Some a -> exists c, containers s !! l = Some c /\ represents_list c a.
Proof using Hs. intros Hl. destruct (Forall2_lookup_r _ _ _ _ _ (ri_lists _ _ _ Hs) Hl) as (c & Hc & Hr). by exists c. Qed.

Lemma directory_size_run : directory_size s = Ok (Z.of_nat (length ls), s).
Proof using Hs.
  apply on_vector_same. rewrite (bind_run _ _ _ (m_writeView (invertedIndexVector s)) (invertedIndexVector s) eq_refl).
  rewrite (vector_size _ _ (ri_vector _ _ _ Hs)), length_seqZ. by rewrite Z2Nat.id by lia.
Qed.

Lemma list_at_run (l : nat) a : ls !! l = Some a -> list_at (Z.of_nat l) s = Ok (Z.of_nat l, s).
Proof using Hs.
  intros Hl. apply lookup_lt_Some in Hl. unfold list_at.
  rewrite (bind_run _ _ s (Some (Z.of_nat l)) s); [done|]. apply on_vector_same. set (v := invertedIndexVector s).
  rewrite (bind_run _ _ v (m_writeView v) v eq_refl). pose proof (ri_vector _ _ _ Hs) as Hv. fold v in Hv.
  assert (l < length (seqZ 0 (Z.of_nat (length ls))))%nat as Hlt by (rewrite length_seqZ, Nat2Z.id; exact Hl).
  rewrite (bind_run _ _ _ _ _ (vector_at v _ Hv l Hlt)). apply (vector_element v _ Hv). apply lookup_seqZ. lia.
Qed.

Lemma keywordId_at_run (l : nat) w : kws !! l = Some w -> keywordId_at (Z.of_nat l) s = Ok (w, s).
Proof using Hs.
  intros Hl. unfold keywordId_at. rewrite (bind_run _ _ s (Some w) s); [done|]. apply on_keywordIds_same. set (v := keywordIds s).
  rewrite (bind_run _ _ v (m_writeView v) v eq_refl). by apply (vector_element v _ (ri_kws _ _ _ Hs)).
Qed.

Lemma write_size_run c a : represents_list c a -> getWriteViewSize c = Ok (Z.of_nat (length (la_all a)), c).
Proof using. intros (olds & rd & aR & aW & own & Hp & _). unfold getWriteViewSize. rewrite (bind_run _ _ c (m_writeView c) c eq_refl). by eapply view_size_write. Qed.

Lemma getIdf_run one_plus_log total (l : nat) a : ls !! l = Some a -> exists idf, getIdf one_plus_log total (Z.of_nat l) s = Ok (idf, s).
Proof using Hs.
  intros Hl. destruct (index_list l a Hl) as (c & Hc & Hr). eexists. unfold getIdf. rewrite (bind_run _ _ s true s) by (unfold reads; by rewrite (ri_committed _ _ _ Hs)).
  cbn [negb]. rewrite (bind_run _ _ _ _ _ directory_size_run). rewrite (bind_run _ _ s tt s) by (apply assert_run, Z.ltb_lt; apply lookup_lt_Some in Hl; lia).
  rewrite (bind_run _ _ _ _ _ (list_at_run l a Hl)). rewrite (bind_run _ _ s (Z.of_nat (length (la_all a))) s); [reflexivity|].
  apply (on_container_same _ s l c _ Hc). by apply write_size_run.
Qed.

(** *** New lists *)

Lemma incrementHitCount_run (l : nat) : (l <= length ls)%nat -> Z.of_nat (length ls) + 1 < 2 ^ 30 ->
  exists s' held, incrementHitCount (Z.of_nat l) s = Ok (tt, s') /\ invertedListKeywordSetToMerge s' = invertedListKeywordSetToMerge s /\
    represents_index s' (if Nat.eqb l (length ls) then ls ++ [mk_la [] [] held] else ls) kws.
Proof using Hs.
  intros Hl Hn. unfold incrementHitCount. rewrite (bind_run _ _ s true s) by (unfold reads; by rewrite (ri_committed _ _ _ Hs)). cbn [negb].
  rewrite (bind_run _ _ _ _ _ directory_size_run). destruct (Nat.eqb_spec l (length ls)) as [->|Hne].
  - rewrite Z.eqb_refl. destruct (new_list_run 1 ltac:(lia)) as (c & c' & rd & E1 & E2 & Hr & _ & _).
    pose proof (Forall2_length _ _ _ (ri_lists _ _ _ Hs)) as Hlen.
    destruct (vector_push _ _ (ri_vector _ _ _ Hs) (Z.of_nat (length ls)) ltac:(rewrite length_seqZ; lia)) as (v' & Ev & Hv').
    exists (set_vector v' (set_containers (containers s ++ [c']) s)), [rd]. split; [|split; [done|]].
    + rewrite (bind_run _ _ s (Z.of_nat (length ls)) (set_containers (containers s ++ [c']) s)).
      * apply on_vector_run. exact (eq_trans (bind_run _ _ _ (m_writeView (invertedIndexVector s)) (invertedIndexVector s) eq_refl) Ev).
      * unfold new_list. rewrite E1. cbn [rbind]. rewrite E2. cbn [rbind]. exact (f_equal (fun n => Ok (Z.of_nat n, _)) Hlen).
    + constructor; cbn.
      * apply Forall2_app; [apply Hs|by constructor].
      * rewrite length_app. cbn. replace (Z.of_nat (length ls + 1)) with (Z.of_nat (length ls) + 1) by lia. rewrite seqZ_app by lia. exact Hv'.
      * apply Hs.
      * apply Hs.
  - exists s, []. destruct (Z.eqb_spec (Z.of_nat l) (Z.of_nat (length ls))); [lia|]. done.
Qed.

(** *** A keyword of a record *)

Definition next_keywords (w : Z) (l : nat) : list Z := if Nat.eqb l (length kws) then kws ++ [w] else kws.

Lemma assign_keyword_run w (l : nat) : kws !! l = Some w \/ l = length kws -> Z.of_nat (length kws) + 1 < 2 ^ 30 ->
  exists s', assign_keyword (Z.of_nat l) w s = Ok (tt, s') /\ represents_index s' ls (next_keywords w l) /\
    invertedListKeywordSetToMerge s' = invertedListKeywordSetToMerge s.
Proof using Hs.
  intros Hcase Hn. unfold assign_keyword, next_keywords. destruct (Nat.eqb_spec l (length kws)) as [->|Hne].
  - destruct (vector_next _ _ (ri_kws _ _ _ Hs) w Hn) as (v' & Ev & Hv'). exists (set_keywordIds v' s). split; [|split; [|done]].
    + apply on_keywordIds_run. exact Ev.
    + constructor; cbn; (exact Hv' || apply Hs).
  - destruct Hcase as [Hw|]; [|done]. exists s. split; [|done]. apply on_keywordIds_same.
    exact (vector_same _ _ (ri_kws _ _ _ Hs) l w Hw).
Qed.

(** An operation on one list. *)
Lemma list_run {A} (m : st (cow Z) A) (l : nat) a x (P : list_abs -> Prop) : ls !! l = Some a ->
  (forall c, represents_list c a -> exists c' a', m c = Ok (x, c') /\ represents_list c' a' /\ P a') ->
  exists s' a', on_container (Z.of_nat l) m s = Ok (x, s') /\ represents_index s' (<[l := a']> ls) kws /\ P a' /\
    invertedListKeywordSetToMerge s' = invertedListKeywordSetToMerge s.
Proof using Hs.
  intros Hl Hm. destruct (index_list l a Hl) as (c & Hc & Hr). destruct (Hm c Hr) as (c' & a' & E & Hr' & Ha').
  exists (set_containers (<[l := c']> (containers s)) s), a'. split; [by eapply on_container_run|]. split; [|done].
  constructor; cbn; [|rewrite length_insert; apply Hs|apply Hs|apply Hs]. apply Forall2_insert; [apply Hs|done].
Qed.

Lemma addInvertedListElement_run (l : nat) a r : ls !! l = Some a -> Z.of_nat (length (la_all a)) + 1 < 2 ^ 30 ->
  exists s' held, InvertedIndex.addInvertedListElement (Z.of_nat l) r s = Ok (tt, s') /\
    represents_index s' (<[l := mk_la (la_pub a) (la_news a ++ [r]) held]> ls) kws /\ invertedListKeywordSetToMerge s' = invertedListKeywordSetToMerge s.
Proof using Hs.
  intros Hl Hn. destruct (list_run (InvertedList.addInvertedListElement r) l a tt (fun a' => exists held, a' = mk_la (la_pub a) (la_news a ++ [r]) held) Hl)
    as (s' & a' & E & Hs' & (held & ->) & Ed).
  { intros c (olds & rd & aR & aW & own & Hp & Erd & Eh). destruct (plain_push _ _ _ _ _ _ _ r Hp Hn) as (c' & aW' & own' & E & Hp' & _ & _).
    exists c', (mk_la (la_pub a) (la_news a ++ [r]) (la_held a)). split; [|split; [|by eexists]].
    - unfold InvertedList.addInvertedListElement. by rewrite (bind_run _ _ c (m_writeView c) c eq_refl).
    - exists olds, rd, aR, aW', own'. cbn. by rewrite app_assoc. }
  exists s', held. split; [|done]. unfold InvertedIndex.addInvertedListElement. rewrite (bind_run _ _ _ _ _ directory_size_run).
  rewrite (bind_run _ _ s tt s) by (apply assert_run, Z.ltb_lt; apply lookup_lt_Some in Hl; lia). by rewrite (bind_run _ _ _ _ _ (list_at_run l a Hl)).
Qed.
End Index.

(** *** What readers see *)

Section Shown.
Context (s : InvertedIndex) (ls : list list_abs) (kws : list Z) (Hs : shown_index s ls kws).

Lemma directory_read : getInvertedIndexDirectory_ReadView s = Ok (seqZ 0 (Z.of_nat (length ls)), s).
Proof using Hs. apply on_vector_same. exact (shown_read _ _ (si_vector _ _ _ Hs)). Qed.
Lemma keywordIds_read : getInvertedIndexKeywordIds_ReadView s = Ok (kws, s).
Proof using Hs. apply on_keywordIds_same. exact (shown_read _ _ (si_kws _ _ _ Hs)). Qed.

Lemma total_read : getTotalNumberOfInvertedLists_ReadView s = Ok (Z.of_nat (length ls), s).
Proof using Hs.
  apply on_vector_same. set (v := invertedIndexVector s). rewrite (bind_run _ _ v (m_readView v) v eq_refl).
  destruct (si_vector _ _ _ Hs) as (a & (olds & cur & aR & aW & Hi & _) & _ & Ed). destruct (iv_rd _ _ _ _ _ _ _ _ Hi) as (need & f & ar & Hv & Hf & _).
  fold v in Hi, Hv. rewrite <- (iv_read _ _ _ _ _ _ _ _ Hi) in Hv. unfold view_size.
  rewrite (bind_run _ _ _ _ _ (cow_load_view_run v _ _ (iv_vwf _ _ _ _ _ _ _ _ Hi) Hv)). cbn. rewrite (flags_size _ _ _ _ Hf), Ed, length_seqZ, Nat2Z.id. done.
Qed.

Lemma list_view_read (l : nat) a : ls !! l = Some a -> getInvertedListReadView (seqZ 0 (Z.of_nat (length ls))) (Z.of_nat l) s = Ok (la_pub a, s).
Proof using Hs.
  intros Hl. pose proof (lookup_lt_Some _ _ _ Hl). unfold getInvertedListReadView. rewrite (bind_run _ _ _ _ _ total_read).
  rewrite (bind_run _ _ s tt s) by (apply assert_run, Z.ltb_lt; lia).
  rewrite (bind_run _ _ s (Z.of_nat l) s) by (apply lift_Ok; split; [|done]; apply vec_at_nth; rewrite Nat2Z.id; split; [lia|apply lookup_seqZ; lia]).
  destruct (index_list _ _ _ (si_index _ _ _ Hs) l a Hl) as (c & Hc & Hr). apply (on_container_same _ s l c _ Hc). exact (list_read c a Hr).
Qed.
End Shown.

(** ** The set of lists to merge *)

Definition pair_before (a b : Z * Z) : Prop := pair_lt a b = true.

Lemma pair_lt_spec a b : pair_lt a b = true <-> a.1 < b.1 \/ a.1 = b.1 /\ a.2 < b.2.
Proof. unfold pair_lt. rewrite orb_true_iff, andb_true_iff, !Z.ltb_lt, Z.eqb_eq. done. Qed.

Lemma set_insert_elem x y d : y ∈ set_insert x d <-> y = x \/ y ∈ d.
Proof.
  induction d as [|z d IH]; cbn [set_insert]; [set_solver|]. destruct (pair_lt x z) eqn:E1; [set_solver|]. destruct (pair_lt z x) eqn:E2; [set_solver|].
  assert (x = z) as ->; [|set_solver]. apply not_true_iff_false in E1, E2. rewrite pair_lt_spec in E1, E2. destruct x, z. cbn in *. f_equal; lia.
Qed.

Lemma set_insert_sorted x d : StronglySorted pair_before d -> StronglySorted pair_before (set_insert x d).
Proof.
  induction 1 as [|z d Hd IH Hz]; cbn [set_insert]; [repeat constructor|]. rewrite List.Forall_forall in Hz.
  assert (forall a b c, pair_before a b -> pair_before b c -> pair_before a c) as Htr by (unfold pair_before; intros a b c; rewrite !pair_lt_spec; lia).
  destruct (pair_lt x z) eqn:E1.
  - constructor; [constructor; [done|by apply List.Forall_forall]|]. apply List.Forall_forall. intros y [<-|Hy]; [done|]. apply (Htr _ z); [done|by apply Hz].
  - destruct (pair_lt z x) eqn:E2.
    + constructor; [done|]. apply List.Forall_forall. intros y Hy%list_elem_of_In%set_insert_elem. destruct Hy as [->|Hy]; [done|]. by apply Hz, list_elem_of_In.
    + constructor; [done|by apply List.Forall_forall].
Qed.

Definition inserts (l d : list (Z * Z)) : list (Z * Z) := fold_left (fun d x => set_insert x d) l d.
Lemma inserts_elem l : forall d y, y ∈ inserts l d <-> y ∈ d \/ y ∈ l.
Proof. induction l as [|x l IH]; intros d y; cbn; [set_solver|]. rewrite IH, set_insert_elem. set_solver. Qed.
Lemma inserts_sorted l : forall d, StronglySorted pair_before d -> StronglySorted pair_before (inserts l d).
Proof. induction l as [|x l IH]; intros d Hd; cbn; [done|]. by apply IH, set_insert_sorted. Qed.

(** A set in order whose lists have one keyword each has every list once. *)
Lemma known_once (kws : list Z) d : StronglySorted pair_before d -> Forall (fun x => exists l : nat, x.1 = Z.of_nat l /\ kws !! l = Some x.2) d -> NoDup (map fst d).
Proof.
  induction 1 as [|x d Hd IH Hx]; intros Hk; [constructor|]. apply List.Forall_cons_iff in Hk as [(l & E & Hl) Hk]. cbn. constructor; [|by apply IH].
  intros (y & Ey & Hy)%elem_of_lmap. rewrite List.Forall_forall in Hx. specialize (Hx y ltac:(by apply list_elem_of_In)).
  rewrite Forall_forall in Hk. destruct (Hk y Hy) as (l' & E' & Hl'). assert (l' = l) as -> by lia. assert (x.2 = y.2) by congruence.
  unfold pair_before in Hx. rewrite pair_lt_spec in Hx. lia.
Qed.

(** ** The keywords of a record *)

(** The keyword of each list after the lists of a record, and the record in them. *)
Fixpoint assigned (kws : list Z) (keywords : list (Z * nat)) : option (list Z) :=
  match keywords with
  | [] => Some kws
  | (w, l) :: keywords' =>
      if Nat.eqb l (length kws) then assigned (kws ++ [w]) keywords'
      else match kws !! l with Some w' => if w' =? w then assigned kws keywords' else None | None => None end
  end.

Definition added (r : Z) (keywords : list (Z * nat)) (l : nat) : list Z :=
  map (fun _ => r) (List.filter (fun k => Nat.eqb k.2 l) keywords).

(** The lists [ls'] are [ls] with more records. *)
Definition grown (r : Z) (keywords : list (Z * nat)) (ls ls' : list list_abs) : Prop := length ls' = length ls /\
  forall l a, ls !! l = Some a -> exists held, ls' !! l = Some (mk_la (la_pub a) (la_news a ++ added r keywords l) held).

Definition pairs (keywords : list (Z * nat)) : list (Z * Z) := map (fun k => (k.1, Z.of_nat k.2)) keywords.
Definition to_merge (keywords : list (Z * nat)) (d : list (Z * Z)) : list (Z * Z) := inserts (map (fun k => (Z.of_nat k.2, k.1)) keywords) d.

Lemma assigned_grows keywords : forall kws kws', assigned kws keywords = Some kws' -> (length kws' <= length kws + length keywords)%nat /\
  (exists l, kws' = kws ++ l) /\ forall w l, (w, l) ∈ keywords -> kws' !! l = Some w.
Proof.
  induction keywords as [|[w l] keywords IH]; cbn; intros kws kws' H.
  { injection H as <-. split; [lia|]. split; [exists []; by rewrite app_nil_r|]. intros w l Hin. by apply elem_of_nil in Hin. }
  destruct (Nat.eqb_spec l (length kws)) as [->|Hne].
  - destruct (IH _ _ H) as (H1 & (l' & ->) & H3). rewrite !length_app in *. cbn [length] in *. split; [lia|]. split; [exists (w :: l'); by rewrite <- app_assoc|].
    intros w0 l0 [[= -> ->]|Hin]%elem_of_cons; [|by apply H3]. by rewrite <- app_assoc, lookup_app_r, Nat.sub_diag by lia.
  - destruct (kws !! l) as [w'|] eqn:Hl; [|done]. destruct (Z.eqb_spec w' w) as [->|]; [|done]. destruct (IH _ _ H) as (H1 & (l' & ->) & H3).
    split; [lia|]. split; [by exists l'|]. intros w0 l0 [[= -> ->]|Hin]%elem_of_cons; [|by apply H3]. by apply lookup_app_l_Some.
Qed.

Lemma to_merge_elem keywords d y : y ∈ to_merge keywords d <-> y ∈ d \/ exists w l, (w, l) ∈ keywords /\ y = (Z.of_nat l, w).
Proof.
  unfold to_merge. rewrite inserts_elem, elem_of_lmap. split.
  - intros [Hy|([w l] & -> & Hin)]; [by left|right]. by exists w, l.
  - intros [Hy|(w & l & Hin & ->)]; [by left|right]. by exists (w, l).
Qed.

Section Keywords.
Variables (half_of_float : float -> Z) (float_of_half : Z -> float) (one_plus_log : float -> float) (applyExpression : float -> float -> float -> float).
Hypothesis (Hhalf : forall x, is_uint 16 (half_of_float x)).
Context (t : ForwardList.PositionIndexType).

(** A score that the index computed. *)
Definition computed (h : Z) : Prop := exists x y z, h = half_of_float (applyExpression x y z).

Lemma keyword_score_run s ls kws total boost fl c rest (i l : nat) a : represents_index s ls kws -> scoring t fl c rest -> ls !! l = Some a ->
  (i < length (c_ids c))%nat -> exists tf x y z,
    keyword_score float_of_half one_plus_log applyExpression total boost fl (Z.of_nat i) (Z.of_nat l) s = Ok ((tf, applyExpression x y z), s).
Proof using.
  intros Hs Hfl Hl Hi. unfold keyword_score. destruct (getIdf_run s ls kws Hs one_plus_log total l a Hl) as (idf & E). rewrite (bind_run _ _ _ _ _ E).
  destruct (lookup_lt_is_Some_2 (c_tfs c) i) as [tf Htf].
  { rewrite (ForwardScores.sc_tfs _ _ _ _ Hfl), <- (ForwardScores.sc_ids _ _ _ _ Hfl). done. }
  rewrite (bind_run _ _ s tf s) by (apply lift_Ok; split; [by eapply ForwardScores.scoring_tf|done]). by do 4 eexists.
Qed.

Lemma set_scores_step fl c rest (i : nat) tf score : scoring t fl c rest -> i = length (c_scores c) -> (i < length (c_ids c))%nat ->
  exists fl' tfs, set_scores half_of_float fl (Z.of_nat i) tf score = Ok fl' /\
    scoring t fl' (mk_contents (c_ids c) tfs (c_scores c ++ [half_of_float score]) (c_occurrences c)) (drop 2 rest).
Proof using Hhalf.
  intros Hfl Hi Hlt. unfold set_scores. destruct (ForwardScores.scoring_set_tf t fl c rest Hfl i (half_of_float tf) Hlt (Hhalf _)) as (fl1 & E1 & Hfl1).
  rewrite E1. cbn [rbind]. destruct (ForwardScores.scoring_push t fl1 _ rest Hfl1 i (half_of_float score) Hi Hlt (Hhalf _)) as (fl2 & E2 & Hfl2).
  rewrite E2. exists fl2. eexists. split; [done|exact Hfl2].
Qed.

Lemma add_keywords_run total boost r keywords : forall s ls kws kws' fl c rest, represents_index s ls kws -> assigned kws keywords = Some kws' ->
  Forall (fun k => (k.2 < length ls)%nat) keywords -> scoring t fl c rest -> (length (c_scores c) + length keywords = length (c_ids c))%nat ->
  Z.of_nat (length kws + length keywords) + 1 < 2 ^ 30 -> Forall (fun a => Z.of_nat (length (la_all a) + length keywords) + 1 < 2 ^ 30) ls ->
  Forall computed (c_scores c) ->
  exists s' ls' fl' calls tfs scores,
    add_keywords half_of_float float_of_half one_plus_log applyExpression r total boost fl (Z.of_nat (length (c_scores c))) (pairs keywords) s = Ok ((fl', calls), s') /\
    represents_index s' ls' kws' /\ grown r keywords ls ls' /\
    stands_for t fl' (mk_contents (c_ids c) tfs scores (c_occurrences c)) /\ Forall computed scores /\
    invertedListKeywordSetToMerge s' = to_merge keywords (invertedListKeywordSetToMerge s).
Proof using Hhalf.
  induction keywords as [|[w l] keywords IH]; intros s ls kws kws' fl c rest Hs Hk Hl Hfl Hlen Hn Hsz Hsc.
  { exists s, ls, fl, [], (c_tfs c), (c_scores c). split; [done|]. injection Hk as <-. split; [done|]. split; [|split; [|done]].
    - split; [done|]. intros l a Ha. exists (la_held a). unfold added. cbn. rewrite app_nil_r. by destruct a.
    - rewrite Nat.add_0_r in Hlen. pose proof (ForwardScores.sc_ids _ _ _ _ Hfl). destruct c. eapply ForwardScores.scoring_done; [exact Hfl|cbn in *; congruence]. }
  cbn [assigned length pairs map add_keywords to_merge fold_left fst snd] in *. apply List.Forall_cons_iff in Hl as [Hl Hl'].
  assert ((kws !! l = Some w \/ l = length kws) /\ assigned (next_keywords kws w l) keywords = Some kws') as [Hcase Hk'].
  { unfold next_keywords. destruct (Nat.eqb_spec l (length kws)); [by split; [right|]|]. destruct (kws !! l) as [w'|]; [|done].
    destruct (Z.eqb_spec w' w) as [E|]; [|done]. split; [left; by rewrite E|done]. }
  assert (length (next_keywords kws w l) <= S (length kws))%nat as Hnext by (unfold next_keywords; destruct (Nat.eqb l _); [rewrite length_app; cbn|]; lia).
  destruct (assign_keyword_run s ls kws Hs w l Hcase ltac:(lia)) as (s1 & E1 & Hs1 & D1). rewrite (bind_run _ _ _ _ _ E1).
  destruct (lookup_lt_is_Some_2 ls l Hl) as [a Ha]. pose proof (Forall_lookup_1 _ _ _ _ Hsz Ha) as Hsa. cbn in Hsa.
  destruct (addInvertedListElement_run s1 ls _ Hs1 l a r Ha ltac:(lia)) as (s2 & held2 & E2 & Hs2 & D2). rewrite (bind_run _ _ _ _ _ E2).
  set (ls2 := <[l:=_]> ls) in *. set (s3 := set_toMerge (set_insert (Z.of_nat l, w) (invertedListKeywordSetToMerge s2)) s2).
  rewrite (bind_run _ _ s2 tt s3) by reflexivity. assert (represents_index s3 ls2 (next_keywords kws w l)) as Hs3 by (destruct Hs2; by constructor).
  assert (ls2 !! l = Some (mk_la (la_pub a) (la_news a ++ [r]) held2)) as Ha2 by (by apply list_lookup_insert_eq).
  assert (length (c_scores c) < length (c_ids c))%nat as Hi by lia.
  destruct (keyword_score_run s3 ls2 _ total boost fl c rest (length (c_scores c)) l _ Hs3 Hfl Ha2 Hi) as (tf & x & y & z & E4).
  rewrite (bind_run _ _ _ _ _ E4). destruct (set_scores_step fl c rest (length (c_scores c)) tf (applyExpression x y z) Hfl eq_refl Hi) as (fl5 & tfs & E5 & Hfl5).
  rewrite (bind_run _ _ s3 fl5 s3) by (apply lift_Ok; by split).
  assert (length ls2 = length ls) as Hlen2 by apply length_insert.
  destruct (IH s3 ls2 _ kws' fl5 _ _ Hs3 Hk' ltac:(by rewrite Hlen2) Hfl5) as (s' & ls' & fl' & calls & tfs' & scores & E & Hs' & [Hg1 Hg2] & Hst & Hsc' & D').
  - cbn [c_ids c_scores]. rewrite length_app. cbn. lia.
  - lia.
  - apply Forall_insert; [eapply Forall_impl; [exact Hsz|]; cbn; lia|]. unfold la_all in *. cbn. rewrite !length_app in *. cbn. lia.
  - cbn. apply Forall_app. split; [done|]. constructor; [by exists x, y, z|done].
  - cbn [c_ids c_scores c_occurrences] in *. rewrite length_app in E. cbn [length] in E. replace (Z.of_nat (length (c_scores c) + 1)) with (Z.of_nat (length (c_scores c)) + 1) in E by lia.
    exists s', ls', fl', ((w, half_of_float (applyExpression x y z)) :: calls), tfs', scores.
    split; [by rewrite (bind_run _ _ _ _ _ E)|]. split; [done|]. split; [|split; [done|split; [done|]]].
    + split; [congruence|]. intros l0 a0 Ha0. unfold added. cbn [List.filter snd]. destruct (Nat.eqb_spec l l0) as [<-|Hne].
      * assert (a0 = a) as -> by congruence. destruct (Hg2 l _ Ha2) as (held & ->). exists held. cbn. unfold added. by rewrite <- app_assoc.
      * apply Hg2. unfold ls2. by rewrite list_lookup_insert_ne.
    + rewrite D'. unfold s3. cbn. by rewrite D2, D1.
Qed.

(** ** The merge *)

Abbreviation rescore := (rescore half_of_float float_of_half one_plus_log applyExpression).
Abbreviation scored := (scored float_of_half one_plus_log applyExpression).

Definition well_scored (docs : list document) : Prop := Forall (fun d => Forall computed (c_scores (d_contents d))) docs.

Lemma rescore_scored w total hits docs r : well_scored docs -> well_scored (rescore w total hits docs r).
Proof using.
  intros H. unfold InvertedMerge.rescore. destruct (doc_at docs r) as [d|] eqn:Ed; [|done]. apply doc_known in Ed as (_ & Hd & _).
  apply Forall_insert; [done|]. cbn. apply Forall_insert; [by apply (Forall_lookup_1 _ _ _ _ H Hd)|]. unfold static_score. by do 3 eexists.
Qed.

Lemma rescore_all w total hits l : forall docs, map fixed_part (fold_left (rescore w total hits) l docs) = map fixed_part docs /\
  (well_scored docs -> well_scored (fold_left (rescore w total hits) l docs)).
Proof using.
  induction l as [|r l IH]; intros docs; [done|]. cbn. destruct (IH (rescore w total hits docs r)) as [H1 H2]. split.
  - by rewrite H1, rescore_fixed.
  - intros H. by apply H2, rescore_scored.
Qed.

(** The records that a merge publishes for a list. *)
Definition published_records (w total : Z) (docs : list document) (a : list_abs) : list Z :=
  map is_record (merged_elements float_of_half one_plus_log applyExpression w total docs (la_pub a) (la_news a)).

Lemma published_fixed w total docs docs' a : map fixed_part docs' = map fixed_part docs -> published_records w total docs' a = published_records w total docs a.
Proof using. intros E. unfold published_records, merged_elements. by rewrite !(scored_fixed _ _ _ _ _ _ docs docs' _ E). Qed.

Lemma published_perm w total docs a :
  Permutation (published_records w total docs a) (List.filter (fun r => match doc_at docs r with Some _ => true | None => false end) (la_all a)).
Proof using.
  unfold published_records. rewrite merged_elements_perm, scored_records. done.
Qed.

Lemma covers_fixed w docs docs' l : map fixed_part docs' = map fixed_part docs -> covers w docs l -> covers w docs' l.
Proof using.
  intros E Hc r d Hr Hd. pose proof (fixed_doc docs docs' r E) as F. rewrite Hd in F. destruct (doc_at docs r) as [d0|] eqn:E0; [|done].
  injection F as _ F _ _ _. rewrite F. by apply (Hc r d0).
Qed.

Lemma merge_list_run s ls kws (l : nat) a w total directory docs : represents_index s ls kws -> ls !! l = Some a -> kws !! l = Some w ->
  Forall2 (stands t) directory docs -> covers w docs (la_all a) -> Z.of_nat (length (la_all a)) + 1 < 2 ^ 30 ->
  exists s' held directory',
    on_container (Z.of_nat l) (sortAndMerge half_of_float float_of_half one_plus_log applyExpression w total directory) s =
      Ok ((Z.of_nat (length (published_records w total docs a)), directory'), s') /\
    represents_index s' (<[l := mk_la (published_records w total docs a) [] held]> ls) kws /\
    Forall2 (stands t) directory' (fold_left (rescore w total (Z.of_nat (length (la_all a)))) (la_all a) docs) /\
    invertedListKeywordSetToMerge s' = invertedListKeywordSetToMerge s /\ invertedIndexVector s' = invertedIndexVector s /\ keywordIds s' = keywordIds s.
Proof using Hhalf.
  intros Hs Ha Hw Hdir Hc Hn. destruct (index_list s ls kws Hs l a Ha) as (c & Hcl & (olds & rd & aR & aW & own & Hp & Erd & Eh)).
  unfold la_all in *. rewrite <- Erd in Hp, Hc, Hn.
  destruct (sortAndMerge_run half_of_float float_of_half one_plus_log applyExpression Hhalf t c olds rd aR aW _ own directory docs w total Hp Hdir Hc Hn)
    as (c' & olds' & aW' & directory' & E & Hp' & _ & _ & Hdir'). rewrite Erd in E, Hp', Hdir'.
  exists (set_containers (<[l := c']> (containers s)) s), (mk_item (m_writeView c) (published_records w total docs a) :: concat (map snd olds')), directory'.
  split; [|split; [|split; [exact Hdir'|done]]].
  - unfold published_records. rewrite length_map. by eapply on_container_run.
  - constructor; cbn; [|rewrite length_insert; apply Hs|apply Hs|apply Hs]. apply Forall2_insert; [apply Hs|].
    exists olds', (mk_item (m_writeView c) (published_records w total docs a)), aW', aW', false. cbn. rewrite app_nil_r. split; [exact Hp'|done].
Qed.

(** A list after a merge of the lists [ids]. *)
Definition merged_list (kws : list Z) (total : Z) (docs : list document) (ids : list Z) (l : nat) (a a' : list_abs) : Prop :=
  if decide (Z.of_nat l ∈ ids) then exists w, kws !! l = Some w /\ la_pub a' = published_records w total docs a /\ la_news a' = [] else a' = a.
Definition merged_lists kws total docs ids (ls ls' : list list_abs) : Prop := length ls' = length ls /\
  forall l a, ls !! l = Some a -> exists a', ls' !! l = Some a' /\ merged_list kws total docs ids l a a'.

(** The keywords whose lists a merge leaves empty. *)
Definition emptied (total : Z) (docs : list document) (ls : list list_abs) (toMerge : list (Z * Z)) : list Z :=
  map snd (List.filter (fun x => match ls !! Z.to_nat x.1 with Some a => Nat.eqb (length (published_records x.2 total docs a)) 0 | None => false end) toMerge).

(** The lists of the set have the keywords that the set gives them. *)
Definition known_lists (kws : list Z) (d : list (Z * Z)) : Prop := Forall (fun x => exists l : nat, x.1 = Z.of_nat l /\ kws !! l = Some x.2) d.

Lemma emptied_cons total docs ls (l : nat) a w toMerge : ls !! l = Some a ->
  emptied total docs ls ((Z.of_nat l, w) :: toMerge) = (if Nat.eqb (length (published_records w total docs a)) 0 then [w] else []) ++ emptied total docs ls toMerge.
Proof using. intros Ha. unfold emptied. cbn [List.filter fst snd]. rewrite Nat2Z.id, Ha. by destruct (Nat.eqb _ 0). Qed.

(** Other lists do not matter. *)
Lemma emptied_after kws total docs ls (l : nat) b toMerge : known_lists kws toMerge -> Z.of_nat l ∉ map fst toMerge ->
  emptied total docs (<[l := b]> ls) toMerge = emptied total docs ls toMerge.
Proof using.
  intros Hk Hnot. unfold emptied. f_equal. apply List.filter_ext_in. intros [x w] Hx. rewrite list_lookup_insert_ne; [done|]. intros ->. apply Hnot.
  unfold known_lists in Hk. rewrite Forall_forall in Hk. apply list_elem_of_In in Hx. destruct (Hk _ Hx) as (l1 & Ex & _). cbn in Ex. subst x.
  cbn. rewrite Nat2Z.id. exact (elem_of_lmap_2 fst toMerge (Z.of_nat l1, w) Hx).
Qed.

Lemma merged_lists_cons kws total docs (toMerge : list (Z * Z)) (l : nat) w held a ls ls' : ls !! l = Some a -> kws !! l = Some w -> Z.of_nat l ∉ map fst toMerge ->
  merged_lists kws total docs (map fst toMerge) (<[l := mk_la (published_records w total docs a) [] held]> ls) ls' ->
  merged_lists kws total docs (Z.of_nat l :: map fst toMerge) ls ls'.
Proof using Hhalf.
  intros Ha Hw Hnot [Hm1 Hm2]. split; [by rewrite length_insert in Hm1|]. intros l0 a0 Ha0. destruct (decide (l0 = l)) as [->|Hne].
  - assert (a0 = a) as -> by congruence. edestruct (Hm2 l) as (a' & Ha' & Hm'); [by apply list_lookup_insert_eq; eapply lookup_lt_Some|].
    exists a'. split; [done|]. unfold merged_list in *. rewrite decide_False in Hm' by done. subst a'. rewrite decide_True by set_solver. by exists w.
  - destruct (Hm2 l0 a0) as (a' & Ha' & Hm'); [by rewrite list_lookup_insert_ne|]. exists a'. split; [done|]. unfold merged_list in *.
    destruct (decide (Z.of_nat l0 ∈ map fst toMerge)); [rewrite decide_True by set_solver; done|]. rewrite decide_False; [done|].
    intros [E0|E0]%elem_of_cons; [apply Hne; lia|done].
Qed.

Lemma merge_lists_run total docs0 toMerge : forall s ls kws directory docs empties, represents_index s ls kws -> length kws = length ls ->
  Forall2 (stands t) directory docs -> map fixed_part docs = map fixed_part docs0 -> well_scored docs -> known_lists kws toMerge -> NoDup (map fst toMerge) ->
  (forall l a w, ls !! l = Some a -> kws !! l = Some w -> covers w docs0 (la_all a)) -> Forall (fun a => Z.of_nat (length (la_all a)) + 1 < 2 ^ 30) ls ->
  exists s' ls' directory' docs',
    merge_lists half_of_float float_of_half one_plus_log applyExpression total directory empties toMerge s =
      Ok ((directory', empties ++ emptied total docs0 ls toMerge), s') /\
    represents_index s' ls' kws /\ Forall2 (stands t) directory' docs' /\ map fixed_part docs' = map fixed_part docs0 /\ well_scored docs' /\
    merged_lists kws total docs0 (map fst toMerge) ls ls' /\ invertedListKeywordSetToMerge s' = invertedListKeywordSetToMerge s /\
    invertedIndexVector s' = invertedIndexVector s /\ keywordIds s' = keywordIds s.
Proof using Hhalf.
  induction toMerge as [|[x w] toMerge IH]; intros s ls kws directory docs empties Hs Hlen Hdir Hfix Hsc Hk Hnd Hc Hn.
  { exists s, ls, directory, docs. unfold emptied. cbn. rewrite app_nil_r. repeat (split; [done|]). split; [|done]. split; [done|].
    intros l a Ha. exists a. split; [done|]. unfold merged_list. by rewrite decide_False by set_solver. }
  unfold known_lists in Hk. apply List.Forall_cons_iff in Hk as [(l & El & Hw) Hk]. cbn [map fst snd] in *. subst x. apply NoDup_cons in Hnd as [Hnot Hnd].
  destruct (lookup_lt_is_Some_2 ls l) as [a Ha]; [rewrite <- Hlen; by eapply lookup_lt_Some|]. cbn [merge_lists].
  rewrite (bind_run _ _ _ _ _ (directory_size_run s ls kws Hs)).
  rewrite (bind_run _ _ s tt s) by (apply assert_run, Z.ltb_lt; apply lookup_lt_Some in Ha; lia). rewrite (bind_run _ _ _ _ _ (list_at_run s ls kws Hs l a Ha)).
  rewrite (bind_run _ _ _ _ _ (keywordId_at_run s ls kws Hs l w Hw)).
  destruct (merge_list_run s ls kws l a w total directory docs Hs Ha Hw Hdir) as (s1 & held & directory1 & E1 & Hs1 & Hdir1 & D1 & V1 & K1).
  { apply (covers_fixed w docs0); [done|by eapply Hc]. }
  { by apply (Forall_lookup_1 _ _ _ _ Hn Ha). }
  rewrite (bind_run _ _ _ _ _ E1). destruct (rescore_all w total (Z.of_nat (length (la_all a))) (la_all a) docs) as [Hfix1 Hsc1].
  rewrite (published_fixed w total docs0 docs a Hfix) in *. set (pub := published_records w total docs0 a) in *. set (ls1 := <[l:=_]> ls) in *. set (docs1 := fold_left _ (la_all a) docs) in *.
  destruct (IH s1 ls1 kws directory1 docs1 (if Z.of_nat (length pub) =? 0 then empties ++ [w] else empties) Hs1) as
    (s' & ls' & directory' & docs' & E & Hs' & Hdir' & Hfix' & Hsc' & Hm & D' & V' & K').
  - unfold ls1. by rewrite length_insert.
  - exact Hdir1.
  - congruence.
  - by apply Hsc1.
  - exact Hk.
  - exact Hnd.
  - intros l0 a0 w0 Ha0 Hw0. unfold ls1 in Ha0. apply list_lookup_insert_Some in Ha0 as [(<- & <- & _)|[_ Ha0]]; [|by eapply Hc].
    intros r d Hr. rewrite Hw in Hw0. injection Hw0 as <-. apply (Hc l a w Ha Hw). unfold la_all in Hr. cbn in Hr. rewrite app_nil_r in Hr.
    unfold pub in Hr. rewrite (published_perm w total docs0 a) in Hr. apply list_elem_of_In, List.filter_In in Hr as [Hr _]. by apply list_elem_of_In.
  - apply Forall_insert; [done|]. unfold la_all. cbn. rewrite app_nil_r. unfold pub. rewrite (Permutation_length (published_perm w total docs0 a)).
    pose proof (Forall_lookup_1 _ _ _ _ Hn Ha) as Hna. cbn in Hna. pose proof (List.filter_length_le (fun r => match doc_at docs0 r with Some _ => true | None => false end) (la_all a)). lia.
  - exists s', ls', directory', docs'. split.
    + refine (eq_trans E _). unfold ls1. rewrite (emptied_after kws) by done. rewrite (emptied_cons total docs0 ls l a w toMerge Ha). fold pub. do 3 f_equal.
      destruct (Nat.eqb_spec (length pub) 0), (Z.eqb_spec (Z.of_nat (length pub)) 0); try lia; [by rewrite <- app_assoc|done].
    + split; [done|]. split; [done|]. split; [done|]. split; [done|]. split; [|split; [congruence|split; congruence]]. by apply (merged_lists_cons kws total docs0 _ l w held a ls ls').
Qed.

Lemma merge_inverted_run total docs s ls kws directory : represents_index s ls kws -> length kws = length ls ->
  Forall2 (stands t) directory docs -> well_scored docs -> known_lists kws (invertedListKeywordSetToMerge s) -> NoDup (map fst (invertedListKeywordSetToMerge s)) ->
  (forall l a w, ls !! l = Some a -> kws !! l = Some w -> covers w docs (la_all a)) -> Forall (fun a => Z.of_nat (length (la_all a)) + 1 < 2 ^ 30) ls ->
  exists s' ls' directory' docs',
    InvertedIndex.merge half_of_float float_of_half one_plus_log applyExpression total directory s =
      Ok ((directory', emptied total docs ls (invertedListKeywordSetToMerge s)), s') /\
    shown_index s' ls' kws /\ Forall2 (stands t) directory' docs' /\ map fixed_part docs' = map fixed_part docs /\ well_scored docs' /\
    merged_lists kws total docs (map fst (invertedListKeywordSetToMerge s)) ls ls' /\ invertedListKeywordSetToMerge s' = [].
Proof using Hhalf.
  intros Hs Hlen Hdir Hsc Hk Hnd Hc Hn. destruct (vector_merge _ _ (ri_vector _ _ _ Hs)) as (v & Ev & Hv). destruct (vector_merge _ _ (ri_kws _ _ _ Hs)) as (k & Ek & Hkv).
  unfold InvertedIndex.merge. rewrite (bind_run _ _ s tt (set_vector v s)) by (by apply on_vector_run).
  rewrite (bind_run _ _ _ tt (set_keywordIds k (set_vector v s))) by (by apply on_keywordIds_run). set (s1 := set_keywordIds k _).
  rewrite (bind_run _ _ s1 (invertedListKeywordSetToMerge s) s1 eq_refl).
  assert (represents_index s1 ls kws) as Hs1 by (constructor; cbn; [apply Hs|by apply shown_is|by apply shown_is|apply Hs]).
  destruct (merge_lists_run total docs _ s1 ls kws directory docs [] Hs1 Hlen Hdir eq_refl Hsc Hk Hnd Hc Hn) as
    (s2 & ls' & directory' & docs' & E & Hs2 & Hdir' & Hfix' & Hsc' & Hm & _ & Ev2 & Ek2).
  rewrite (bind_run _ _ _ _ _ E). exists (set_toMerge [] s2), ls', directory', docs'. split; [reflexivity|]. split; [|done].
  assert (length ls' = length ls) as Hl by apply Hm. constructor.
  - destruct Hs2. by constructor.
  - cbn. rewrite Ev2, Hl. exact Hv.
  - cbn. rewrite Ek2. exact Hkv.
Qed.
End Keywords.
End InvertedUpdate.
