(* ===== verification/IndexRecords.v ===== *)
(** * Records of the index by their primary keys (core/operation/IndexData.cpp, core/index/ForwardIndex.cpp)

    The writer's side of an index: the directory of forward lists, the ids of the
    records by primary key, the records deleted since the last merge, and the inverted
    index.  The directory of forward lists is a vector of CowVector that a merge
    publishes before anything else, so it is one list here; what the trie answers for
    the keywords of a record is given to the operations. *)
From S2P Require Import Prelude CowVector ForwardList PlanOperators InvertedList InvertedIndex.
From Stdlib Require Import ZArith Lia List Bool SpecFloat.
From stdpp Require Import base gmap list fin_maps sets.
Open Scope Z_scope.

Module IndexRecords.
Import ForwardList(PositionIndexType, TokenAttributeHits, hits_map, KeywordIdKeywordStringInvertedListIdTriple, KEYWORD_THRESHOLD, getKeywordId, numberOfKeywords).
Import InvertedList(ForwardListPtr, mk_flp, fp_list, fp_valid).
Import PlanOperators(float).

Record IndexData := mk_idx {
  forwardListDirectory : list ForwardListPtr;
  externalToInternalRecordIdMap : gmap (list Z) Z;
  deletedRecordInternalIds : gset Z;
  invertedIndex : InvertedIndex.InvertedIndex;
  writesCounter : Z;
  numberOfDocuments : Z;
  mergeRequired : bool;
  flagBulkLoadDone : bool }.

Definition set_directory (v : list ForwardListPtr) (x : IndexData) : IndexData :=
  mk_idx v (externalToInternalRecordIdMap x) (deletedRecordInternalIds x) (invertedIndex x) (writesCounter x) (numberOfDocuments x) (mergeRequired x) (flagBulkLoadDone x).
Definition set_map (v : gmap (list Z) Z) (x : IndexData) : IndexData :=
  mk_idx (forwardListDirectory x) v (deletedRecordInternalIds x) (invertedIndex x) (writesCounter x) (numberOfDocuments x) (mergeRequired x) (flagBulkLoadDone x).
Definition set_deleted (v : gset Z) (x : IndexData) : IndexData :=
  mk_idx (forwardListDirectory x) (externalToInternalRecordIdMap x) v (invertedIndex x) (writesCounter x) (numberOfDocuments x) (mergeRequired x) (flagBulkLoadDone x).
Definition set_inverted (v : InvertedIndex.InvertedIndex) (x : IndexData) : IndexData :=
  mk_idx (forwardListDirectory x) (externalToInternalRecordIdMap x) (deletedRecordInternalIds x) v (writesCounter x) (numberOfDocuments x) (mergeRequired x) (flagBulkLoadDone x).
Definition set_counters (writes docs : Z) (x : IndexData) : IndexData :=
  mk_idx (forwardListDirectory x) (externalToInternalRecordIdMap x) (deletedRecordInternalIds x) (invertedIndex x) writes docs (mergeRequired x) (flagBulkLoadDone x).
Definition set_mergeRequired (v : bool) (x : IndexData) : IndexData :=
  mk_idx (forwardListDirectory x) (externalToInternalRecordIdMap x) (deletedRecordInternalIds x) (invertedIndex x) (writesCounter x) (numberOfDocuments x) v (flagBulkLoadDone x).

Definition on_inverted {A} (m : st InvertedIndex.InvertedIndex A) : st IndexData A := fun x =>
  match m (invertedIndex x) with Ok (a, v) => Ok (a, set_inverted v x) | Err f => Err f end.

(** Both counters are 32 bits wide. *)
Definition count (writes docs : Z) : st IndexData unit :=
  modify (fun x => set_counters (wrap32 (writesCounter x + writes)) (wrap32 (numberOfDocuments x + docs)) x).

(** ** The directory of forward lists *)

Definition getInternalRecordIdFromExternalRecordId (externalRecordId : list Z) (x : IndexData) : option Z :=
  match externalRecordId with [] => None | _ => externalToInternalRecordIdMap x !! externalRecordId end.

Definition appendExternalRecordIdToIdMap (externalRecordId : list Z) : st IndexData Z :=
  let! internalRecordId := reads (fun x => Z.of_nat (length (forwardListDirectory x))) in
  modify (fun x => set_map (<[externalRecordId := internalRecordId]> (externalToInternalRecordIdMap x)) x) ;;; ret internalRecordId.

Definition on_directory (f : list ForwardListPtr -> result (list ForwardListPtr)) : st IndexData unit :=
  let! d := reads forwardListDirectory in let! d := lift (f d) in modify (set_directory d).

Definition set_flag (valid : bool) (internalRecordId : Z) : st IndexData unit :=
  on_directory (fun d => let? p := vec_at d internalRecordId in vec_set d internalRecordId (mk_flp (fp_list p) valid)).
Definition setDeleteFlag : Z -> st IndexData unit := set_flag false.
Definition resetDeleteFlag : Z -> st IndexData unit := set_flag true.

(** The pointer may be NULL. *)
Definition getForwardList_ForCommit (recordId : Z) : st IndexData (option (ForwardList.ForwardList * Z)) :=
  let! d := reads forwardListDirectory in
  assert_ (recordId <? Z.of_nat (length d)) ;;;
  let! p := lift (vec_at d recordId) in ret (fp_list p).

Definition ForwardIndex_deleteRecord (externalRecordId : list Z) : st IndexData bool :=
  let! found := reads (getInternalRecordIdFromExternalRecordId externalRecordId) in
  match found with
  | None => ret false
  | Some internalRecordId =>
      setDeleteFlag internalRecordId ;;;
      modify (fun x => set_map (delete externalRecordId (externalToInternalRecordIdMap x)) x) ;;;
      modify (fun x => set_deleted ({[internalRecordId]} ∪ deletedRecordInternalIds x) x) ;;; ret true
  end.

Definition ForwardIndex_recoverRecord (externalRecordId : list Z) (internalRecordId : Z) : st IndexData bool :=
  let! found := reads (getInternalRecordIdFromExternalRecordId externalRecordId) in
  match found with
  | Some _ => ret false
  | None =>
      resetDeleteFlag internalRecordId ;;;
      modify (fun x => set_map (<[externalRecordId := internalRecordId]> (externalToInternalRecordIdMap x)) x) ;;;
      modify (fun x => set_deleted (deletedRecordInternalIds x ∖ {[internalRecordId]}) x) ;;; ret true
  end.

(** The lists of the deleted records, in some order. *)
Definition free_list (internalRecordId : Z) (d : list ForwardListPtr) : result (list ForwardListPtr) :=
  let? p := vec_at d internalRecordId in
  if fp_valid p then Err AssertFailed
  else match fp_list p with None => Err AssertFailed | Some _ => vec_set d internalRecordId (mk_flp None (fp_valid p)) end.

Definition freeSpaceOfDeletedRecords : st IndexData unit :=
  let! ids := reads deletedRecordInternalIds in
  for_each (elements ids) (fun r => on_directory (free_list r)) ;;;
  modify (set_deleted ∅).

Definition ForwardIndex_addRecord (half_of_float : float -> Z) (tfBoost : Z -> TokenAttributeHits -> Z) (indeterminate : Z -> Z) (t : PositionIndexType)
    (primaryKey : list Z) (roleIds : list (list Z)) (boost : float) (recordId : Z) (uniqueKeywordIdList : KeywordIdKeywordStringInvertedListIdTriple)
    (hits : hits_map) : st IndexData unit :=
  let! n := reads (fun x => Z.of_nat (length (forwardListDirectory x))) in
  assert_ (recordId =? n) ;;;
  let! forwardList := lift (ForwardList.addRecord_list indeterminate tfBoost t primaryKey roleIds uniqueKeywordIdList hits) in
  on_directory (fun d => Ok (d ++ [mk_flp (Some (forwardList, half_of_float boost)) true])).

(** ** The operations of the index *)

(** [compare] of two strings. *)
Fixpoint compare (a b : list Z) : comparison :=
  match a, b with
  | [], [] => Eq | [], _ => Lt | _, [] => Gt
  | x :: a', y :: b' => match x ?= y with Eq => compare a' b' | c => c end
  end.

(** Every string is compared with the first one. *)
Definition isSortedAlphabetically (keywordIdList : KeywordIdKeywordStringInvertedListIdTriple) : bool :=
  match keywordIdList with
  | [] => true
  | k :: ks => forallb (fun k' => match compare k'.2.1 k.2.1 with Gt => true | _ => false end) ks
  end.

Section Operations.
Variables (half_of_float : float -> Z) (float_of_half : Z -> float) (one_plus_log : float -> float) (applyExpression : float -> float -> float -> float).
Variables (tfBoost : Z -> TokenAttributeHits -> Z) (indeterminate : Z -> Z) (t : PositionIndexType).
(** getKeywordCorrespondingPathToTrieNode_WriteView: the inverted list and the id of the leaf that it ends at. *)
Variable (leaf : Z -> option (Z * Z)).

(** [keywordIdList] is what the trie gives for the keywords of the record; addRecord of the
    forward index cuts it. *)
Definition addRecord (primaryKey : list Z) (roleIds : list (list Z)) (boost : float) (hits : hits_map)
    (keywordIdList : KeywordIdKeywordStringInvertedListIdTriple) : st IndexData bool :=
  let! found := reads (getInternalRecordIdFromExternalRecordId primaryKey) in
  match found with
  | Some _ => ret false
  | None =>
      count 1 1 ;;;
      modify (set_mergeRequired true) ;;;
      for_each keywordIdList (fun k => on_inverted (InvertedIndex.incrementHitCount k.2.2)) ;;;
      assert_ (isSortedAlphabetically keywordIdList) ;;;
      let! internalRecordId := appendExternalRecordIdToIdMap primaryKey in
      ForwardIndex_addRecord half_of_float tfBoost indeterminate t primaryKey roleIds boost internalRecordId keywordIdList hits ;;;
      let keywordIdList := if KEYWORD_THRESHOLD <=? Z.of_nat (length keywordIdList) then take (Z.to_nat KEYWORD_THRESHOLD) keywordIdList else keywordIdList in
      let! done_ := reads flagBulkLoadDone in
      if done_ then
        let! totalNumberofDocuments := reads (fun x => Z.of_nat (length (forwardListDirectory x))) in
        let! p := getForwardList_ForCommit internalRecordId in
        let! (forwardList, recordBoost) := lift (of_option NullDeref p) in
        let! (forwardList, _) := on_inverted (InvertedIndex.addRecord half_of_float float_of_half one_plus_log applyExpression forwardList internalRecordId boost
          totalNumberofDocuments (map (fun k => (k.1, k.2.2)) keywordIdList)) in
        on_directory (fun d => let? p := vec_at d internalRecordId in vec_set d internalRecordId (mk_flp (Some (forwardList, recordBoost)) (fp_valid p))) ;;;
        ret true
      else ret true
  end.

(** The lists of the keywords of a record, as the trie finds them. *)
Definition lists_of_record (forwardList : ForwardList.ForwardList) : result (list (Z * Z)) :=
  fold_res (seqZ 0 (numberOfKeywords forwardList)) (fun l i =>
    let? keywordId := getKeywordId forwardList i in
    let? x := of_option AssertFailed (leaf keywordId) in Ok (l ++ [x])) [].

Definition deleteRecord (externalRecordId : list Z) : st IndexData (option Z) :=
  let! found := reads (getInternalRecordIdFromExternalRecordId externalRecordId) in
  (match found with
   | Some internalRecordId => let! p := getForwardList_ForCommit internalRecordId in let! _ := lift (of_option NullDeref p) in ret tt
   | None => ret tt
   end) ;;;
  let! success := ForwardIndex_deleteRecord externalRecordId in
  match found with
  | Some internalRecordId =>
      if success then
        let! p := getForwardList_ForCommit internalRecordId in
        (match p with
         | Some (forwardList, _) =>
             let! ids := lift (lists_of_record forwardList) in
             on_inverted (InvertedIndex.appendInvertedListKeywordIdsForMerge ids)
         | None => ret tt
         end) ;;;
        modify (set_mergeRequired true) ;;; count 1 (-1) ;;; ret (Some internalRecordId)
      else ret None
  | None => ret None
  end.

Definition recoverRecord (externalRecordId : list Z) (internalRecordId : Z) : st IndexData bool :=
  let! success := ForwardIndex_recoverRecord externalRecordId internalRecordId in
  if success then
    let! p := getForwardList_ForCommit internalRecordId in
    let! _ := lift (of_option NullDeref p) in
    modify (set_mergeRequired true) ;;; count (-1) 1 ;;; ret true
  else ret false.

(** The merge of the two indexes; the keyword ids that it gives to the trie. *)
Definition merge : st IndexData (option (list Z)) :=
  let! required := reads mergeRequired in
  if negb required then ret None
  else
    let! deleted := reads deletedRecordInternalIds in
    (if bool_decide (deleted = ∅) then ret tt else freeSpaceOfDeletedRecords) ;;;
    let! n := reads numberOfDocuments in
    let! d := reads forwardListDirectory in
    let! (d, emptyLeafNodeIds) := on_inverted (InvertedIndex.merge half_of_float float_of_half one_plus_log applyExpression n d) in
    modify (set_directory d) ;;;
    modify (set_mergeRequired false) ;;; ret (Some emptyLeafNodeIds).
End Operations.

(** The assertion accepts a list that is not in alphabetical order. *)
Lemma accepts_unsorted : isSortedAlphabetically [(1, ([97], 0)); (3, ([99], 1)); (2, ([98], 2))] = true.
Proof. reflexivity. Qed.
End IndexRecords.
