(* ===== verification/IndexHistory.v ===== *)
(** * The index under additions, deletions and merges (core/operation/IndexData.cpp)

    The two sides of an index agree after every operation of the writer: every list
    holds records that have its keyword, every record is in the lists of its keywords,
    and the lists that changed are in the set of the next merge, after which the index
    that readers see answers for the records that are there. *)
From S2P Require Import Prelude CowVector CowPlain ForwardList ForwardSearch ForwardLayout ForwardRoundtrip ForwardScores PlanOperators.
From S2P Require Import PlanTree PlanIndex InvertedList InvertedMerge InvertedHistory InvertedIndex InvertedUpdate IndexRecords.
From Stdlib Require Import ZArith Lia List Bool SpecFloat Sorted.
From stdpp Require Import base gmap list fin_maps sets.
Open Scope Z_scope.

Module IndexHistory.
Import ForwardList(PositionIndexType, TokenAttributeHits, hits_map, KEYWORD_THRESHOLD).
Import InvertedList(ForwardListPtr, mk_flp, fp_list, fp_valid).
Import InvertedMerge InvertedHistory InvertedUpdate IndexRecords.
Import PlanOperators(float).
Import ForwardScores(contents, mk_contents, c_ids, c_tfs, c_scores, c_occurrences, scoring, stands_for).

(** The lists that the next merge works on. *)
Abbreviation set_of x := (InvertedIndex.invertedListKeywordSetToMerge (invertedIndex x)).

Section History.
Variables (half_of_float : float -> Z) (float_of_half : Z -> float) (one_plus_log : float -> float) (applyExpression : float -> float -> float -> float).
Hypothesis (Hhalf : forall x, is_uint 16 (half_of_float x)).
Variables (tfBoost : Z -> TokenAttributeHits -> Z) (indeterminate : Z -> Z) (t : PositionIndexType).
Hypothesis (Htf : forall tf h, is_uint 16 (tfBoost tf h)).

(** ** The state *)

(** The forward list of an entry is in place. *)
Definition whole (p : ForwardListPtr) (d : document) : Prop := exists fl, fp_list p = Some (fl, d_boost d) /\
  stands_for t fl (d_contents d) /\ StronglySorted Z.lt (c_ids (d_contents d)) /\ Forall ForwardRoundtrip.grouped (c_occurrences (d_contents d)).

(** A record that is valid, or deleted since the last merge. *)
Definition present (x : IndexData) (docs : list document) (r : Z) (d : document) : Prop :=
  0 <= r /\ docs !! Z.to_nat r = Some d /\ (d_valid d = true \/ r ∈ deletedRecordInternalIds x).

Record consistent (x : IndexData) (ls : list list_abs) (kws : list Z) (docs : list document) : Prop := {
  cn_index : represents_index (invertedIndex x) ls kws;
  cn_keywords : length kws = length ls;
  cn_directory : Forall2 (fun p d => fp_valid p = d_valid d) (forwardListDirectory x) docs;
  cn_whole : forall r d p, present x docs r d -> forwardListDirectory x !! Z.to_nat r = Some p -> whole p d;
  cn_scored : well_scored half_of_float applyExpression docs;
  cn_known : forall l a r, ls !! l = Some a -> r ∈ la_all a -> 0 <= r < Z.of_nat (length docs);
  cn_covers : forall l a w r d, ls !! l = Some a -> kws !! l = Some w -> r ∈ la_all a -> present x docs r d -> w ∈ c_ids (d_contents d);
  cn_complete : forall r d w, present x docs r d -> w ∈ c_ids (d_contents d) -> exists l a, ls !! l = Some a /\ kws !! l = Some w /\ r ∈ la_all a;
  cn_set : StronglySorted pair_before (InvertedIndex.invertedListKeywordSetToMerge (invertedIndex x));
  cn_lists : known_lists kws (InvertedIndex.invertedListKeywordSetToMerge (invertedIndex x));
  cn_dirty : forall l a, ls !! l = Some a -> la_news a <> [] -> Z.of_nat l ∈ map fst (InvertedIndex.invertedListKeywordSetToMerge (invertedIndex x));
  cn_live : forall key r, externalToInternalRecordIdMap x !! key = Some r -> exists d, doc_at docs r = Some d;
  cn_keys : forall k1 k2 r, externalToInternalRecordIdMap x !! k1 = Some r -> externalToInternalRecordIdMap x !! k2 = Some r -> k1 = k2;
  cn_named : forall r d, doc_at docs r = Some d -> exists key, externalToInternalRecordIdMap x !! key = Some r;
  cn_deleted : forall r, r ∈ deletedRecordInternalIds x -> exists d, 0 <= r /\ docs !! Z.to_nat r = Some d /\ d_valid d = false;
  cn_done : flagBulkLoadDone x = true }.

Lemma doc_present x docs r d : doc_at docs r = Some d <-> present x docs r d /\ d_valid d = true.
Proof using.
  split.
  - intros (H0 & H1 & H2)%doc_known. split; [|done]. split; [done|]. split; [done|by left].
  - intros [(H0 & H1 & _) H2]. unfold doc_at. assert (vec_at docs r = Ok d) as -> by (by apply vec_at_nth). by rewrite H2.
Qed.

Lemma consistent_stands x ls kws docs : consistent x ls kws docs -> Forall2 (stands t) (forwardListDirectory x) docs.
Proof using.
  intros H. apply Forall2_same_length_lookup_2; [exact (Forall2_length _ _ _ (cn_directory _ _ _ _ H))|]. intros i p d Hp Hd. split.
  - exact (Forall2_lookup_lr _ _ _ _ _ _ (cn_directory _ _ _ _ H) Hp Hd).
  - intros Hv. destruct (cn_whole _ _ _ _ H (Z.of_nat i) d p) as (fl & H1 & H2 & H3 & _); [|by rewrite Nat2Z.id|by exists fl].
    split; [lia|]. rewrite Nat2Z.id. split; [done|by left].
Qed.

(** ** Adding a record *)

(** The keywords of a record with their lists. *)
Definition keywords_of (ks : list (Z * (list Z * Z))) : list (Z * nat) := map (fun k => (k.1, Z.to_nat k.2.2)) ks.

Definition fresh_list (a : list_abs) : Prop := la_pub a = [] /\ la_news a = [].

Lemma increments_run ks : forall x ls kws virtual kws', represents_index (invertedIndex x) ls kws -> length virtual = length ls ->
  assigned virtual (keywords_of ks) = Some kws' -> Forall (fun k => 0 <= k.2.2) ks -> Z.of_nat (length ls + length ks) + 1 < 2 ^ 30 ->
  exists i' new, for_each ks (fun k => on_inverted (InvertedIndex.incrementHitCount k.2.2)) x = Ok (tt, set_inverted i' x) /\
    represents_index i' (ls ++ new) kws /\ length (ls ++ new) = length kws' /\ Forall fresh_list new /\
    InvertedIndex.invertedListKeywordSetToMerge i' = InvertedIndex.invertedListKeywordSetToMerge (invertedIndex x).
Proof using.
  induction ks as [|[w [str z]] ks IH]; intros x ls kws virtual kws' Hx Hv Ha Hz Hn.
  { exists (invertedIndex x), []. cbn in *. injection Ha as <-. rewrite app_nil_r. split; [by destruct x|]. done. }
  cbn [keywords_of map assigned length fst snd for_each] in *. apply List.Forall_cons_iff in Hz as [Hz0 Hz]. cbn in Hz0.
  assert (exists virtual', (Z.to_nat z <= length ls)%nat /\ assigned virtual' (keywords_of ks) = Some kws' /\
    length virtual' = length (if Nat.eqb (Z.to_nat z) (length ls) then ls ++ [mk_la [] [] []] else ls)) as (virtual' & Hle & Ha' & Hv').
  { rewrite Hv in Ha. destruct (Nat.eqb_spec (Z.to_nat z) (length ls)) as [E|Hne].
    - exists (virtual ++ [w]). split; [lia|]. split; [exact Ha|]. rewrite !length_app. cbn. lia.
    - destruct (virtual !! Z.to_nat z) as [w'|] eqn:El; [|done]. destruct (w' =? w); [|done]. exists virtual. split; [apply lookup_lt_Some in El; lia|done]. }
  destruct (incrementHitCount_run _ ls kws Hx (Z.to_nat z) Hle ltac:(lia)) as (i1 & held & E1 & D1 & Hi1). rewrite Z2Nat.id in E1 by done.
  rewrite (bind_run _ _ x tt (set_inverted i1 x)) by (unfold on_inverted; by rewrite E1).
  set (ls1 := if Nat.eqb _ _ then _ else _) in Hi1.
  assert (length virtual' = length ls1 /\ exists new, ls1 = ls ++ new /\ Forall fresh_list new) as (Hv1 & new1 & Hnew1 & Hfr).
  { unfold ls1. rewrite Hv'. destruct (Nat.eqb (Z.to_nat z) (length ls)).
    - split; [by rewrite !length_app|]. eexists. split; [done|by repeat constructor].
    - split; [done|]. exists []. by rewrite app_nil_r. }
  assert (length ls1 <= S (length ls))%nat as Hl1 by (unfold ls1; destruct (Nat.eqb (Z.to_nat z) (length ls)); [rewrite length_app; cbn|]; lia).
  destruct (IH (set_inverted i1 x) ls1 kws virtual' kws' Hi1 Hv1 Ha' Hz ltac:(lia)) as (i2 & new2 & E2 & Hi2 & Hlen & Hfr2 & D2).
  exists i2, (new1 ++ new2). rewrite app_assoc, <- Hnew1. split; [exact E2|]. split; [done|]. split; [done|]. split; [by apply Forall_app|]. cbn in D2. congruence.
Qed.

Lemma on_inverted_run {A} (m : st InvertedIndex.InvertedIndex A) x a v : m (invertedIndex x) = Ok (a, v) -> on_inverted m x = Ok (a, set_inverted v x).
Proof using. intros E. unfold on_inverted. by rewrite E. Qed.

Lemma on_directory_run f x d : f (forwardListDirectory x) = Ok d -> on_directory f x = Ok (tt, set_directory d x).
Proof using. intros E. unfold on_directory, bind, reads, lift, modify. by rewrite E. Qed.

(** The next part of a run that does not look at the state. *)
Ltac next := erewrite bind_run by reflexivity; cbv beta.

(** What the trie and the analyzer give for a new record. *)
Record addable (ls : list list_abs) (kws : list Z) (m : hits_map) (ks : list (Z * (list Z * Z))) (occ : list (list ForwardLayout.occurrence)) (kws' : list Z) : Prop := {
  ad_analyzed : Forall2 (ForwardRoundtrip.analyzed m) ks occ;
  ad_grouped : Forall ForwardRoundtrip.grouped occ;
  ad_size : ForwardLayout.list_size t occ < 2 ^ 32;
  ad_number : Z.of_nat (length ks) < KEYWORD_THRESHOLD;
  ad_ids : Forall (fun k => is_u32 k.1) ks;
  ad_sorted : StronglySorted Z.lt (map fst ks);
  ad_alphabetical : isSortedAlphabetically ks = true;
  ad_lists : Forall (fun k => 0 <= k.2.2) ks;
  ad_assigned : assigned kws (keywords_of ks) = Some kws';
  ad_total : Z.of_nat (length ls + length ks) + 1 < 2 ^ 30;
  ad_room : Forall (fun a => Z.of_nat (length (la_all a) + length ks) + 1 < 2 ^ 30) ls }.

Abbreviation addRecord := (addRecord half_of_float float_of_half one_plus_log applyExpression tfBoost indeterminate t).

Lemma addRecord_run x ls kws docs key roles boost m ks occ kws' : consistent x ls kws docs -> addable ls kws m ks occ kws' ->
  getInternalRecordIdFromExternalRecordId key x = None ->
  exists x' ls2 ls' p d, addRecord key roles boost m ks x = Ok (true, x') /\
    forwardListDirectory x' = forwardListDirectory x ++ [p] /\ fp_valid p = true /\ d_valid d = true /\ whole p d /\
    Forall (computed half_of_float applyExpression) (c_scores (d_contents d)) /\
    c_ids (d_contents d) = map fst ks /\ c_occurrences (d_contents d) = occ /\ d_boost d = half_of_float boost /\
    externalToInternalRecordIdMap x' = <[key := Z.of_nat (length docs)]> (externalToInternalRecordIdMap x) /\
    deletedRecordInternalIds x' = deletedRecordInternalIds x /\ flagBulkLoadDone x' = true /\
    represents_index (invertedIndex x') ls' kws' /\ (exists new, ls2 = ls ++ new /\ Forall fresh_list new) /\ length ls2 = length kws' /\
    grown (Z.of_nat (length docs)) (keywords_of ks) ls2 ls' /\
    InvertedIndex.invertedListKeywordSetToMerge (invertedIndex x') =
      to_merge (keywords_of ks) (InvertedIndex.invertedListKeywordSetToMerge (invertedIndex x)).
Proof using Hhalf Htf.
  intros Hx Ha Hkey. destruct Ha. set (dir := forwardListDirectory x). assert (length dir = length docs) as Hlen by exact (Forall2_length _ _ _ (cn_directory _ _ _ _ Hx)).
  unfold IndexRecords.addRecord. rewrite (bind_run _ _ x None x) by (unfold reads; by rewrite Hkey). cbv iota. do 2 next. set (x1 := set_mergeRequired true _).
  destruct (increments_run ks x1 ls kws kws kws' (cn_index _ _ _ _ Hx) (cn_keywords _ _ _ _ Hx) ad_assigned0 ad_lists0 ad_total0)
    as (i1 & new & E1 & Hi1 & Hlen1 & Hfresh & D1). rewrite (bind_run _ _ _ _ _ E1).
  rewrite (bind_run _ _ _ tt (set_inverted i1 x1)) by (apply assert_run; exact ad_alphabetical0).
  assert (forall B (k : Z -> st IndexData B), (let! n := appendExternalRecordIdToIdMap key in k n) (set_inverted i1 x1) =
    k (Z.of_nat (length docs)) (set_map (<[key := Z.of_nat (length docs)]> (externalToInternalRecordIdMap x)) (set_inverted i1 x1))) as Eid.
  { intros B k. unfold appendExternalRecordIdToIdMap, bind, reads, modify, ret. cbn. fold dir. by rewrite Hlen. }
  rewrite Eid. clear Eid. set (x2 := set_map _ _).
  destruct (ForwardScores.built_run t m tfBoost ks occ indeterminate key roles ad_analyzed0 ad_number0 ad_size0 ad_ids0 Htf) as (fl & rest & Efl & Hfl).
  set (p0 := mk_flp (Some (fl, half_of_float boost)) true). set (x3 := set_directory (dir ++ [p0]) x2).
  rewrite (bind_run _ _ x2 tt x3).
  2:{ unfold ForwardIndex_addRecord. next. rewrite (bind_run _ _ x2 tt x2) by (apply assert_run; cbn; fold dir; rewrite Hlen; apply Z.eqb_refl).
      rewrite (bind_run _ _ x2 fl x2) by (apply lift_Ok; by split). by apply on_directory_run. }
  destruct (Z.leb_spec KEYWORD_THRESHOLD (Z.of_nat (length ks))) as [Hbad|_]; [lia|].
  rewrite (bind_run _ _ x3 true x3) by (unfold reads; cbn; by rewrite (cn_done _ _ _ _ Hx)). cbv iota. next.
  assert (getForwardList_ForCommit (Z.of_nat (length docs)) x3 = Ok (Some (fl, half_of_float boost), x3)) as Eget.
  { unfold getForwardList_ForCommit. next. cbn [x3 set_directory forwardListDirectory]. rewrite (bind_run _ _ x3 tt x3).
    - rewrite (bind_run _ _ x3 p0 x3); [done|]. apply lift_Ok. split; [|done]. rewrite <- Hlen. apply vec_at_app.
    - apply assert_run, Z.ltb_lt. rewrite length_app. cbn. lia. }
  rewrite (bind_run _ _ _ _ _ Eget). rewrite (bind_run _ _ x3 (fl, half_of_float boost) x3) by done. cbv iota beta.
  assert (map (fun k => (k.1, k.2.2)) ks = pairs (keywords_of ks)) as Epairs.
  { unfold pairs, keywords_of. rewrite map_map. apply map_ext_in. intros k Hk. cbn. rewrite List.Forall_forall in ad_lists0. by rewrite Z2Nat.id by (by apply ad_lists0). }
  rewrite Epairs. set (total := Z.of_nat (length (forwardListDirectory x3))).
  destruct (add_keywords_run half_of_float float_of_half one_plus_log applyExpression Hhalf t total boost (Z.of_nat (length docs)) (keywords_of ks) i1 (ls ++ new) kws kws' fl (ForwardScores.built t m tfBoost ks occ) rest
    Hi1 ad_assigned0) as (i2 & ls' & fl' & calls & tfs & scores & E2 & Hi2 & Hgrown & Hst & Hsc & D2).
  { apply List.Forall_forall. intros [w l] Hin%list_elem_of_In. destruct (assigned_grows _ _ _ ad_assigned0) as (_ & _ & Hin'). cbn. rewrite Hlen1.
    eapply lookup_lt_Some. by apply (Hin' w l). }
  { exact Hfl. }
  { cbn. unfold keywords_of. by rewrite !length_map. }
  { unfold keywords_of. rewrite length_map, (cn_keywords _ _ _ _ Hx). exact ad_total0. }
  { unfold keywords_of. rewrite length_map. apply Forall_app. split; [done|]. eapply Forall_impl; [exact Hfresh|]. intros a [E0 E0']. unfold la_all. rewrite E0, E0'. cbn. lia. }
  { constructor. }
  rewrite (bind_run _ _ x3 (fl', calls) (set_inverted i2 x3)).
  2:{ apply on_inverted_run. unfold InvertedIndex.addRecord. cbn [invertedIndex x3 x2 set_directory set_map set_inverted].
      rewrite (bind_run _ _ i1 true i1) by (unfold reads; by rewrite (ri_committed _ _ _ Hi1)). exact E2. }
  cbv iota beta. set (p := mk_flp (Some (fl', half_of_float boost)) true).
  rewrite (bind_run _ _ _ tt (set_directory (dir ++ [p]) (set_inverted i2 x3))).
  2:{ apply on_directory_run. cbn [x3 set_inverted set_directory forwardListDirectory]. rewrite <- Hlen, vec_at_app. apply vec_set_app. }
  eexists. exists (ls ++ new), ls', p, (mk_doc (mk_contents (map fst ks) tfs scores occ) (half_of_float boost) true). split; [reflexivity|]. cbn. fold dir.
  split; [done|]. split; [done|]. split; [done|]. split; [exists fl'; split; [done|]; split; [exact Hst|by split]|].
  do 6 (split; [done|]). split; [by apply Hx|]. split; [exact Hi2|].
  split; [by exists new|]. split; [done|]. split; [done|]. by rewrite D2, D1.
Qed.

(** The lists after a record was added. *)
Lemma grown_lists r ks ls new ls' kws kws' l a' : Forall fresh_list new -> grown r ks (ls ++ new) ls' -> length kws = length ls ->
  assigned kws ks = Some kws' -> ls' !! l = Some a' ->
  exists a, (ls ++ new) !! l = Some a /\ la_pub a' = la_pub a /\ la_news a' = la_news a ++ added r ks l /\
    (fresh_list a \/ ls !! l = Some a /\ kws !! l = kws' !! l).
Proof using.
  intros Hnew [Hg1 Hg2] Hlen Ha Hl. destruct (lookup_lt_is_Some_2 (ls ++ new) l) as [a Hla]; [rewrite <- Hg1; by eapply lookup_lt_Some|].
  destruct (Hg2 l a Hla) as (held & Hl'). rewrite Hl in Hl'. injection Hl' as ->. exists a. split; [done|]. split; [done|]. split; [done|].
  apply lookup_app_Some in Hla as [Hla|[Hge Hla]]; [right|left; by apply (Forall_lookup_1 _ _ _ _ Hnew Hla)]. split; [done|].
  destruct (assigned_grows _ _ _ Ha) as (_ & (l' & ->) & _). rewrite lookup_app_l; [done|]. rewrite Hlen. by eapply lookup_lt_Some.
Qed.

Lemma added_elem r (ks : list (Z * nat)) l r' : r' ∈ added r ks l <-> r' = r /\ exists w, (w, l) ∈ ks.
Proof using.
  unfold added. rewrite elem_of_lmap. split.
  - intros ([w l'] & -> & Hin). apply list_elem_of_In, List.filter_In in Hin as [Hin E]. cbn in E. apply Nat.eqb_eq in E as ->.
    split; [done|]. exists w. by apply list_elem_of_In.
  - intros [-> (w & Hin)]. exists (w, l). split; [done|]. apply list_elem_of_In, List.filter_In. split; [by apply list_elem_of_In|]. cbn. apply Nat.eqb_refl.
Qed.

Lemma keywords_of_fst ks w : (exists l, (w, l) ∈ keywords_of ks) <-> w ∈ map fst ks.
Proof using.
  unfold keywords_of. rewrite elem_of_lmap. split.
  - intros (l & (k & E & Hk)%elem_of_lmap). injection E as -> _. by exists k.
  - intros (k & -> & Hk). exists (Z.to_nat k.2.2). apply elem_of_lmap. by exists k.
Qed.

Lemma present_add x x' docs d r d' : present x' (docs ++ [d]) r d' -> deletedRecordInternalIds x' = deletedRecordInternalIds x ->
  r = Z.of_nat (length docs) /\ d' = d \/ r < Z.of_nat (length docs) /\ present x docs r d'.
Proof using.
  intros (H0 & H1 & H2) E. rewrite E in H2. apply lookup_app_Some in H1 as [H1|[Hge H1]].
  - right. split; [apply lookup_lt_Some in H1; lia|done].
  - left. apply list_lookup_singleton_Some in H1 as [H1 ->]. split; [lia|done].
Qed.

Lemma added_consistent x x' ls new ls' kws kws' docs key (ks : list (Z * (list Z * Z))) p d : consistent x ls kws docs ->
  forwardListDirectory x' = forwardListDirectory x ++ [p] -> fp_valid p = true -> d_valid d = true -> whole p d ->
  Forall (computed half_of_float applyExpression) (c_scores (d_contents d)) -> c_ids (d_contents d) = map fst ks ->
  externalToInternalRecordIdMap x !! key = None -> externalToInternalRecordIdMap x' = <[key := Z.of_nat (length docs)]> (externalToInternalRecordIdMap x) ->
  deletedRecordInternalIds x' = deletedRecordInternalIds x -> flagBulkLoadDone x' = true -> represents_index (invertedIndex x') ls' kws' ->
  Forall fresh_list new -> length (ls ++ new) = length kws' -> assigned kws (keywords_of ks) = Some kws' ->
  grown (Z.of_nat (length docs)) (keywords_of ks) (ls ++ new) ls' ->
  InvertedIndex.invertedListKeywordSetToMerge (invertedIndex x') = to_merge (keywords_of ks) (InvertedIndex.invertedListKeywordSetToMerge (invertedIndex x)) ->
  consistent x' ls' kws' (docs ++ [d]).
Proof using.
  intros H Edir Hpv Hdv Hwh Hcs Hids Hkey Emap Edel Hfl Hidx Hnew Hlen2 Has Hg Eset. set (r := Z.of_nat (length docs)) in *.
  pose proof (cn_keywords _ _ _ _ H) as Hk. pose proof (Forall2_length _ _ _ (cn_directory _ _ _ _ H)) as Hdl.
  destruct (assigned_grows _ _ _ Has) as (_ & (kl & Ekl) & Hin).
  assert (forall l a, (ls ++ new) !! l = Some a -> exists held, ls' !! l = Some (mk_la (la_pub a) (la_news a ++ added r (keywords_of ks) l) held)) as Hg2 by apply Hg.
  assert (forall l a', ls' !! l = Some a' -> exists a, (fresh_list a \/ ls !! l = Some a /\ kws !! l = kws' !! l) /\ la_all a' = la_all a ++ added r (keywords_of ks) l /\
    la_news a' = la_news a ++ added r (keywords_of ks) l) as Hback.
  { intros l a' Hl. destruct (grown_lists _ _ _ _ _ _ _ _ _ Hnew Hg Hk Has Hl) as (a & _ & E1 & E2 & Hc). exists a. split; [done|]. split; [|done].
    unfold la_all. by rewrite E1, E2, app_assoc. }
  constructor.
  - exact Hidx.
  - rewrite <- Hlen2. symmetry. apply Hg.
  - rewrite Edir. apply Forall2_app; [apply H|]. constructor; [by rewrite Hpv|constructor].
  - intros r' d' p' Hp Hd. rewrite Edir in Hd. destruct (present_add _ _ _ _ _ _ Hp Edel) as [[-> ->]|[Hlt Hp']].
    + unfold r in Hd. rewrite Nat2Z.id, <- Hdl, lookup_app_r, Nat.sub_diag in Hd by lia. by injection Hd as <-.
    + rewrite lookup_app_l in Hd by (destruct Hp' as [? _]; lia). by apply (cn_whole _ _ _ _ H r' d').
  - apply Forall_app. split; [apply H|by constructor].
  - intros l a' r' Hl Hr. rewrite length_app. cbn. destruct (Hback l a' Hl) as (a & Hc & Eall & _). rewrite Eall in Hr. apply elem_of_app in Hr as [Hr|[-> _]%added_elem]; [|lia].
    destruct Hc as [[E1 E2]|[Hla _]]; [unfold la_all in Hr; rewrite E1, E2 in Hr; by apply elem_of_nil in Hr|]. pose proof (cn_known _ _ _ _ H l a r' Hla Hr). lia.
  - intros l a' w r' d' Hl Hw Hr Hp. destruct (Hback l a' Hl) as (a & Hc & Eall & _). rewrite Eall in Hr. apply elem_of_app in Hr as [Hr|[-> (w0 & Hin0)]%added_elem].
    + destruct Hc as [[E1 E2]|[Hla Ekw]]; [unfold la_all in Hr; rewrite E1, E2 in Hr; by apply elem_of_nil in Hr|].
      pose proof (cn_known _ _ _ _ H l a r' Hla Hr). destruct (present_add _ _ _ _ _ _ Hp Edel) as [[-> _]|[_ Hp']]; [lia|].
      apply (cn_covers _ _ _ _ H l a w r' d' Hla); [by rewrite Ekw|done|done].
    + destruct (present_add _ _ _ _ _ _ Hp Edel) as [[_ ->]|[Hlt _]]; [|lia]. rewrite Hids. apply keywords_of_fst. exists l.
      rewrite (Hin _ _ Hin0) in Hw. by injection Hw as <-.
  - intros r' d' w Hp Hw. destruct (present_add _ _ _ _ _ _ Hp Edel) as [[-> ->]|[Hlt Hp']].
    + rewrite Hids in Hw. apply keywords_of_fst in Hw as (l & Hw). pose proof (Hin _ _ Hw) as Hkw.
      destruct (lookup_lt_is_Some_2 (ls ++ new) l) as [a Ha]; [rewrite Hlen2; by eapply lookup_lt_Some|]. destruct (Hg2 l a Ha) as (held & Hl). eexists l, _. split; [exact Hl|].
      split; [done|]. unfold la_all. cbn. rewrite !elem_of_app, added_elem. right. right. split; [done|]. by exists w.
    + destruct (cn_complete _ _ _ _ H r' d' w Hp' Hw) as (l & a & Hl & Hkw & Hr). destruct (Hg2 l a) as (held & Hl'); [by apply lookup_app_l_Some|].
      eexists l, _. split; [exact Hl'|]. split; [rewrite Ekl; by apply lookup_app_l_Some|]. unfold la_all in *. cbn. rewrite app_assoc, elem_of_app. by left.
  - rewrite Eset. by apply inserts_sorted, H.
  - unfold known_lists. rewrite Eset. apply Forall_forall. intros y [Hy|(w & l & Hw & ->)]%to_merge_elem.
    + pose proof (cn_lists _ _ _ _ H) as Hkl. unfold known_lists in Hkl. rewrite Forall_forall in Hkl. destruct (Hkl y Hy) as (l & E & Hl). exists l. split; [done|].
      rewrite Ekl. by apply lookup_app_l_Some.
    + exists l. split; [done|]. by apply Hin.
  - intros l a' Hl Hne. rewrite Eset. destruct (Hback l a' Hl) as (a & Hc & _ & En). rewrite En in Hne. destruct (added r (keywords_of ks) l) as [|x0 rest] eqn:Eadd.
    + rewrite app_nil_r in Hne. destruct Hc as [[_ E2]|[Hla _]]; [done|]. pose proof (cn_dirty _ _ _ _ H l a Hla Hne) as (y & Ey & Hy)%elem_of_lmap.
      rewrite Ey. apply elem_of_lmap_2, to_merge_elem. by left.
    + assert (x0 ∈ added r (keywords_of ks) l) as (_ & w & Hw)%added_elem by (rewrite Eadd; by left).
      apply (elem_of_lmap_2 fst _ (Z.of_nat l, w)), to_merge_elem. right. by exists w, l.
  - intros k r' Hm. rewrite Emap in Hm. apply lookup_insert_Some in Hm as [[<- <-]|[_ Hm]].
    + exists d. apply (doc_present x'). split; [|done]. split; [lia|]. split; [|by left]. unfold r. by rewrite Nat2Z.id, list_lookup_middle.
    + destruct (cn_live _ _ _ _ H k r' Hm) as (d' & Hd). exists d'. apply doc_known in Hd as (H0 & Hd & Hv). apply (doc_present x'). split; [|done].
      split; [done|]. split; [by apply lookup_app_l_Some|by left].
  - intros k1 k2 r' H1 H2. rewrite Emap in H1, H2. assert (forall k, externalToInternalRecordIdMap x !! k <> Some r) as Hno.
    { intros k Hm. destruct (cn_live _ _ _ _ H k r Hm) as (d' & (_ & Hd & _)%doc_known). apply lookup_lt_Some in Hd. unfold r in Hd. lia. }
    apply lookup_insert_Some in H1 as [[E1 R1]|[N1 H1]], H2 as [[E2 R2]|[N2 H2]]; [congruence| | |exact (cn_keys _ _ _ _ H k1 k2 r' H1 H2)].
    + rewrite <- R1 in H2. by destruct (Hno k2).
    + rewrite <- R2 in H1. by destruct (Hno k1).
  - intros r' d' Hd. rewrite Emap. apply (doc_present x') in Hd as [Hp Hv]. destruct (present_add _ _ _ _ _ _ Hp Edel) as [[-> _]|[_ Hp']]; [exists key; by rewrite lookup_insert_eq|].
    destruct (cn_named _ _ _ _ H r' d') as (k & Hm); [by apply (doc_present x)|]. exists k. rewrite lookup_insert_ne; [done|]. intros ->. by rewrite Hkey in Hm.
  - intros r' Hr. rewrite Edel in Hr. destruct (cn_deleted _ _ _ _ H r' Hr) as (d' & H0 & Hd & Hv). exists d'. split; [done|]. split; [by apply lookup_app_l_Some|done].
  - done.
Qed.

(** ** Deleting a record *)

Definition invalid (d : document) : document := mk_doc (d_contents d) (d_boost d) false.

(** The trie finds the list of each keyword. *)
Definition finds (leaf : Z -> option (Z * Z)) (kws : list Z) (w : Z) : Prop := exists l : nat, leaf w = Some (Z.of_nat l, w) /\ kws !! l = Some w.

Lemma lists_of_record_run leaf kws fl ids : ForwardSearch.has_ids fl ids -> (forall w, w ∈ ids -> finds leaf kws w) ->
  exists xs, lists_of_record leaf fl = Ok xs /\ known_lists kws xs.
Proof using.
  intros [Hn Hi] Hf. unfold lists_of_record. rewrite Hn, seqZ_nat.
  assert (forall todo n acc, known_lists kws acc -> (forall j w, todo !! j = Some w -> ids !! (n + j)%nat = Some w) -> exists xs,
    fold_res (map Z.of_nat (seq n (length todo))) (fun l i => let? keywordId := ForwardList.getKeywordId fl i in let? x := of_option AssertFailed (leaf keywordId) in Ok (l ++ [x])) acc = Ok xs /\
    known_lists kws xs) as Hloop.
  { induction todo as [|w todo IH]; intros n acc Hacc Hsub; [by exists acc|]. cbn [length seq map fold_res]. pose proof (Hsub O w eq_refl) as Hw. rewrite Nat.add_0_r in Hw.
    rewrite (Hi n w Hw). cbn [rbind]. destruct (Hf w ltac:(by eapply list_elem_of_lookup_2)) as (l & -> & Hl). cbn [of_option rbind]. apply IH.
    - apply Forall_app. split; [done|]. constructor; [by exists l|constructor].
    - intros j w' Hj. rewrite Nat.add_succ_comm. by apply Hsub. }
  apply (Hloop ids O []); [constructor|done].
Qed.

Lemma invalid_lookup (docs : list document) r d r' d' : docs !! Z.to_nat r = Some d -> <[Z.to_nat r := invalid d]> docs !! Z.to_nat r' = Some d' ->
  exists d0, docs !! Z.to_nat r' = Some d0 /\ d_contents d' = d_contents d0 /\ d_boost d' = d_boost d0 /\
    (Z.to_nat r' = Z.to_nat r /\ d_valid d' = false \/ Z.to_nat r' <> Z.to_nat r /\ d' = d0).
Proof using.
  intros Hd H. apply list_lookup_insert_Some in H as [(E & <- & _)|[Hne H]]; [exists d; rewrite <- E; repeat (split; [done|]); by left|].
  exists d'. repeat (split; [done|]). right. by split.
Qed.

Lemma forCommit_run x r p : 0 <= r -> forwardListDirectory x !! Z.to_nat r = Some p -> getForwardList_ForCommit r x = Ok (fp_list p, x).
Proof using.
  intros H0 Hp. unfold getForwardList_ForCommit. next. rewrite (bind_run _ _ x tt x) by (apply assert_run, Z.ltb_lt; apply lookup_lt_Some in Hp; lia).
  by rewrite (bind_run _ _ x p x) by (apply lift_Ok; split; [by apply vec_at_nth|done]).
Qed.

Lemma set_flag_run x r p v : 0 <= r -> forwardListDirectory x !! Z.to_nat r = Some p ->
  set_flag v r x = Ok (tt, set_directory (<[Z.to_nat r := mk_flp (fp_list p) v]> (forwardListDirectory x)) x).
Proof using.
  intros H0 Hp. apply on_directory_run. assert (vec_at (forwardListDirectory x) r = Ok p) as -> by (by apply vec_at_nth). cbn [rbind].
  apply vec_set_Ok. split; [|done]. apply lookup_lt_Some in Hp. lia.
Qed.

Lemma map_key x key r : getInternalRecordIdFromExternalRecordId key x = Some r -> externalToInternalRecordIdMap x !! key = Some r.
Proof using. by destruct key. Qed.

Lemma deleteRecord_run x ls kws docs leaf key r d : consistent x ls kws docs -> getInternalRecordIdFromExternalRecordId key x = Some r ->
  doc_at docs r = Some d -> (forall w, w ∈ c_ids (d_contents d) -> finds leaf kws w) ->
  exists p xs x', forwardListDirectory x !! Z.to_nat r = Some p /\ known_lists kws xs /\ deleteRecord leaf key x = Ok (Some r, x') /\
    forwardListDirectory x' = <[Z.to_nat r := mk_flp (fp_list p) false]> (forwardListDirectory x) /\
    externalToInternalRecordIdMap x' = delete key (externalToInternalRecordIdMap x) /\
    deletedRecordInternalIds x' = {[r]} ∪ deletedRecordInternalIds x /\ flagBulkLoadDone x' = true /\
    invertedIndex x' = InvertedIndex.set_toMerge (inserts xs (InvertedIndex.invertedListKeywordSetToMerge (invertedIndex x))) (invertedIndex x).
Proof using.
  intros H Hkey Hd Hf. pose proof (proj1 (doc_present x docs r d) Hd) as [Hp Hv]. destruct Hp as (H0 & Hdl & _).
  destruct (Forall2_lookup_r _ _ _ _ _ (cn_directory _ _ _ _ H) Hdl) as (p & Hpl & Hpv).
  destruct (cn_whole _ _ _ _ H r d p) as (fl & Efl & Hst & _); [exact (proj1 (proj1 (doc_present x docs r d) Hd))|done|].
  destruct (lists_of_record_run leaf kws fl (c_ids (d_contents d)) (ForwardScores.content_has_ids t fl _ Hst) Hf) as (xs & Exs & Hxs).
  set (x1 := set_directory (<[Z.to_nat r := mk_flp (fp_list p) false]> (forwardListDirectory x)) x).
  set (x2 := set_deleted ({[r]} ∪ deletedRecordInternalIds x) (set_map (delete key (externalToInternalRecordIdMap x)) x1)).
  exists p, xs. eexists. split; [done|]. split; [done|]. split.
  - unfold deleteRecord. rewrite (bind_run _ _ x (Some r) x) by (unfold reads; by rewrite Hkey). cbv iota.
    rewrite (bind_run _ _ x tt x) by (rewrite (bind_run _ _ _ _ _ (forCommit_run x r p H0 Hpl)), Efl; done).
    rewrite (bind_run _ _ x true x2).
    2:{ unfold ForwardIndex_deleteRecord. rewrite (bind_run _ _ x (Some r) x) by (unfold reads; by rewrite Hkey). cbv iota. unfold setDeleteFlag.
        by rewrite (bind_run _ _ _ _ _ (set_flag_run x r p false H0 Hpl)). }
    cbv iota. assert (forwardListDirectory x2 !! Z.to_nat r = Some (mk_flp (fp_list p) false)) as Hp2 by (apply list_lookup_insert_eq; by eapply lookup_lt_Some).
    rewrite (bind_run _ _ _ _ _ (forCommit_run x2 r _ H0 Hp2)). cbn [fp_list]. rewrite Efl. cbv iota.
    rewrite bind_assoc. rewrite (bind_run _ _ x2 xs x2) by (apply lift_Ok; by split). cbv beta.
    erewrite bind_run by (apply on_inverted_run; reflexivity). reflexivity.
  - cbn. split; [done|]. split; [done|]. split; [done|]. split; [apply H|done].
Qed.

(** Deletion and recovery change the mark of a record and nothing else. *)
Lemma present_marked x x' docs r d v : docs !! Z.to_nat r = Some d -> 0 <= r -> d_valid d = true \/ r ∈ deletedRecordInternalIds x ->
  v = true \/ r ∈ deletedRecordInternalIds x' -> (forall r', r' <> r -> r' ∈ deletedRecordInternalIds x' <-> r' ∈ deletedRecordInternalIds x) ->
  forall r' d', present x' (<[Z.to_nat r := mk_doc (d_contents d) (d_boost d) v]> docs) r' d' ->
    exists d0, present x docs r' d0 /\ d_contents d' = d_contents d0 /\ d_boost d' = d_boost d0.
Proof using.
  intros Hd H0 Hv Hv' Hdel r' d' (H0' & Hd' & Hc). apply list_lookup_insert_Some in Hd' as [(E & <- & _)|[Hne Hd']].
  - assert (r' = r) as -> by lia. exists d. by split.
  - exists d'. split; [|done]. split; [done|]. split; [done|]. destruct Hc as [Hc|Hc]; [by left|right]. apply Hdel in Hc; [done|]. intros ->. lia.
Qed.

Definition marked (v : bool) (d : document) : document := mk_doc (d_contents d) (d_boost d) v.

Lemma marked_consistent x x' ls kws docs r d p v xs : consistent x ls kws docs -> present x docs r d -> forwardListDirectory x !! Z.to_nat r = Some p ->
  v = true \/ r ∈ deletedRecordInternalIds x' -> (forall r', r' <> r -> r' ∈ deletedRecordInternalIds x' <-> r' ∈ deletedRecordInternalIds x) ->
  forwardListDirectory x' = <[Z.to_nat r := mk_flp (fp_list p) v]> (forwardListDirectory x) -> known_lists kws xs ->
  invertedIndex x' = InvertedIndex.set_toMerge (inserts xs (InvertedIndex.invertedListKeywordSetToMerge (invertedIndex x))) (invertedIndex x) ->
  flagBulkLoadDone x' = true ->
  let docs' := <[Z.to_nat r := marked v d]> docs in
  (forall key r', externalToInternalRecordIdMap x' !! key = Some r' -> exists d', doc_at docs' r' = Some d') ->
  (forall k1 k2 r', externalToInternalRecordIdMap x' !! k1 = Some r' -> externalToInternalRecordIdMap x' !! k2 = Some r' -> k1 = k2) ->
  (forall r' d', doc_at docs' r' = Some d' -> exists key, externalToInternalRecordIdMap x' !! key = Some r') ->
  (forall r', r' ∈ deletedRecordInternalIds x' -> exists d', 0 <= r' /\ docs' !! Z.to_nat r' = Some d' /\ d_valid d' = false) ->
  consistent x' ls kws docs'.
Proof using.
  intros H Hpr Hp Hv Hdel Edir Hxs Einv Hfl docs' Hlive Hkeys Hnamed Hdeleted. pose proof Hpr as (H0 & Hd & Hc).
  assert (forall r' d', present x' docs' r' d' -> exists d0, present x docs r' d0 /\ d_contents d' = d_contents d0 /\ d_boost d' = d_boost d0) as Hback
    by exact (present_marked x x' docs r d v Hd H0 Hc Hv Hdel).
  constructor; rewrite ?Einv; cbn [InvertedIndex.set_toMerge InvertedIndex.invertedListKeywordSetToMerge]; try done; try (by apply H).
  - destruct (cn_index _ _ _ _ H). by constructor.
  - rewrite Edir. apply Forall2_insert; [apply H|done].
  - intros r' d' p' Hp' Hpl. destruct (Hback r' d' Hp') as (d0 & Hp0 & E1 & E2).
    assert (exists p0, forwardListDirectory x !! Z.to_nat r' = Some p0 /\ fp_list p' = fp_list p0) as (p0 & Hp0l & E3).
    { rewrite Edir in Hpl. apply list_lookup_insert_Some in Hpl as [(E & <- & _)|[_ Hpl]]; [exists p; by rewrite <- E|by exists p']. }
    destruct (cn_whole _ _ _ _ H r' d0 p0 Hp0 Hp0l) as (fl & Hfl' & Hw). exists fl. by rewrite E1, E2, E3.
  - apply Forall_insert; [apply H|]. exact (Forall_lookup_1 _ _ _ _ (cn_scored _ _ _ _ H) Hd).
  - intros l a r' Hl Hr. unfold docs'. rewrite length_insert. by apply (cn_known _ _ _ _ H l a).
  - intros l a w r' d' Hl Hw Hr Hp'. destruct (Hback r' d' Hp') as (d0 & Hp0 & -> & _). by apply (cn_covers _ _ _ _ H l a w r' d0).
  - intros r' d' w Hp' Hw. destruct (Hback r' d' Hp') as (d0 & Hp0 & E & _). rewrite E in Hw. by apply (cn_complete _ _ _ _ H r' d0 w).
  - by apply inserts_sorted, H.
  - unfold known_lists. apply Forall_forall. intros y [Hy|Hy]%inserts_elem; [|by apply (proj1 (Forall_forall _ _) Hxs)].
    by apply (proj1 (Forall_forall _ _) (cn_lists _ _ _ _ H)).
  - intros l a Hl Hne. pose proof (cn_dirty _ _ _ _ H l a Hl Hne) as (y & Ey & Hy)%elem_of_lmap. rewrite Ey. apply elem_of_lmap_2, inserts_elem. by left.
Qed.

Lemma deleted_consistent x x' ls kws docs key r d p xs : consistent x ls kws docs -> externalToInternalRecordIdMap x !! key = Some r -> doc_at docs r = Some d ->
  forwardListDirectory x !! Z.to_nat r = Some p -> known_lists kws xs ->
  forwardListDirectory x' = <[Z.to_nat r := mk_flp (fp_list p) false]> (forwardListDirectory x) ->
  externalToInternalRecordIdMap x' = delete key (externalToInternalRecordIdMap x) ->
  deletedRecordInternalIds x' = {[r]} ∪ deletedRecordInternalIds x -> flagBulkLoadDone x' = true ->
  invertedIndex x' = InvertedIndex.set_toMerge (inserts xs (InvertedIndex.invertedListKeywordSetToMerge (invertedIndex x))) (invertedIndex x) ->
  consistent x' ls kws (<[Z.to_nat r := marked false d]> docs).
Proof using.
  intros H Hkey Hd Hp Hxs Edir Emap Edel Hfl Einv. pose proof (proj1 (doc_present x docs r d) Hd) as [Hpr Hv]. pose proof Hpr as (H0 & Hdl & _).
  apply (marked_consistent x x' ls kws docs r d p false xs); try done.
  - right. rewrite Edel. by apply elem_of_union_l, elem_of_singleton.
  - intros r' Hne. rewrite Edel, elem_of_union, elem_of_singleton. split; [by intros [->|]|by right].
  - intros k r' Hm. rewrite Emap in Hm. apply lookup_delete_Some in Hm as [Hne Hm]. destruct (cn_live _ _ _ _ H k r' Hm) as (d' & Hd'). exists d'.
    apply (doc_present x) in Hd' as [(H0' & Hd' & Hc) Hv']. apply (doc_present x). split; [|done]. split; [done|]. split; [|done].
    rewrite list_lookup_insert_ne; [done|]. intros E. assert (r' = r) as -> by lia. apply Hne. by apply (cn_keys _ _ _ _ H key k r).
  - intros k1 k2 r' H1 H2. rewrite Emap in H1, H2. apply lookup_delete_Some in H1 as [_ H1], H2 as [_ H2]. by apply (cn_keys _ _ _ _ H k1 k2 r').
  - intros r' d' (H0' & Hd' & Hv')%doc_known. apply list_lookup_insert_Some in Hd' as [(_ & <- & _)|[Hne Hd']]; [done|].
    destruct (cn_named _ _ _ _ H r' d') as (k & Hm); [apply (doc_present x); split; [split; [done|split; [done|by left]]|done]|]. exists k. rewrite Emap.
    rewrite lookup_delete_ne; [done|]. intros <-. apply Hne. f_equal. congruence.
  - intros r' Hr. rewrite Edel in Hr. apply elem_of_union in Hr as [->%elem_of_singleton|Hr].
    + exists (marked false d). split; [done|]. split; [by apply list_lookup_insert_eq; eapply lookup_lt_Some|done].
    + destruct (cn_deleted _ _ _ _ H r' Hr) as (d' & H0' & Hd' & Hv'). exists d'. split; [done|]. split; [|done]. rewrite list_lookup_insert_ne; [done|].
      intros E. assert (r' = r) as -> by lia. rewrite Hdl in Hd'. injection Hd' as <-. by rewrite Hv in Hv'.
Qed.

Lemma recoverRecord_run x ls kws docs key r : consistent x ls kws docs -> key <> [] -> externalToInternalRecordIdMap x !! key = None ->
  r ∈ deletedRecordInternalIds x -> exists d x', docs !! Z.to_nat r = Some d /\ recoverRecord key r x = Ok (true, x') /\
    externalToInternalRecordIdMap x' = <[key := r]> (externalToInternalRecordIdMap x) /\
    deletedRecordInternalIds x' = deletedRecordInternalIds x ∖ {[r]} /\
    consistent x' ls kws (<[Z.to_nat r := marked true d]> docs).
Proof using.
  intros H Hne Hkey Hr. destruct (cn_deleted _ _ _ _ H r Hr) as (d & H0 & Hd & Hv). assert (present x docs r d) as Hpr by (split; [done|]; split; [done|by right]).
  destruct (Forall2_lookup_r _ _ _ _ _ (cn_directory _ _ _ _ H) Hd) as (p & Hp & _). destruct (cn_whole _ _ _ _ H r d p Hpr Hp) as (fl & Efl & _).
  set (x1 := set_directory (<[Z.to_nat r := mk_flp (fp_list p) true]> (forwardListDirectory x)) x).
  set (x2 := set_deleted (deletedRecordInternalIds x ∖ {[r]}) (set_map (<[key := r]> (externalToInternalRecordIdMap x)) x1)).
  set (x3 := set_counters (wrap32 (writesCounter x + -1)) (wrap32 (numberOfDocuments x + 1)) (set_mergeRequired true x2)).
  assert (forall k r', externalToInternalRecordIdMap x !! k = Some r' -> r' <> r) as Hother.
  { intros k r' Hm ->. destruct (cn_live _ _ _ _ H k r Hm) as (d' & (_ & Hd' & Hv')%doc_known). rewrite Hd in Hd'. injection Hd' as <-. by rewrite Hv in Hv'. }
  exists d, x3. split; [done|]. split; [|split; [done|split; [done|]]].
  - unfold recoverRecord. rewrite (bind_run _ _ x true x2).
    + assert (forwardListDirectory x2 !! Z.to_nat r = Some (mk_flp (fp_list p) true)) as Hp2 by (apply list_lookup_insert_eq; by eapply lookup_lt_Some).
      cbv iota. rewrite (bind_run _ _ _ _ _ (forCommit_run x2 r _ H0 Hp2)). cbn [fp_list]. by rewrite Efl.
    + unfold ForwardIndex_recoverRecord. rewrite (bind_run _ _ x None x) by (unfold reads, getInternalRecordIdFromExternalRecordId; rewrite Hkey; by destruct key).
      cbv iota. unfold resetDeleteFlag. by rewrite (bind_run _ _ _ _ _ (set_flag_run x r p true H0 Hp)).
  - apply (marked_consistent x x3 ls kws docs r d p true []); try done.
    + by left.
    + intros r' Hne'. cbn. rewrite elem_of_difference, elem_of_singleton. split; [by intros [? _]|by split].
    + constructor.
    + cbn. by destruct (invertedIndex x).
    + by apply H.
    + intros k r' Hm. cbn in Hm. apply lookup_insert_Some in Hm as [[_ <-]|[_ Hm]].
      * exists (marked true d). apply (doc_present x). split; [|done]. split; [done|]. split; [by apply list_lookup_insert_eq; eapply lookup_lt_Some|by left].
      * destruct (cn_live _ _ _ _ H k r' Hm) as (d' & (H0' & Hd' & Hv')%doc_known). exists d'. apply (doc_present x). split; [|done]. split; [done|]. split; [|by left].
        rewrite list_lookup_insert_ne; [done|]. intros E. apply (Hother k r' Hm). lia.
    + intros k1 k2 r' H1 H2. cbn in H1, H2. apply lookup_insert_Some in H1 as [[E1 R1]|[_ H1]], H2 as [[E2 R2]|[_ H2]].
      * by rewrite <- E1, <- E2.
      * rewrite <- R1 in H2. by destruct (Hother k2 r H2).
      * rewrite <- R2 in H1. by destruct (Hother k1 r H1).
      * by apply (cn_keys _ _ _ _ H k1 k2 r').
    + intros r' d' (H0' & Hd' & Hv')%doc_known. cbn. apply list_lookup_insert_Some in Hd' as [(E & _ & _)|[Hne' Hd']].
      * exists key. rewrite lookup_insert_eq. f_equal. lia.
      * destruct (cn_named _ _ _ _ H r' d') as (k & Hm); [apply (doc_present x); split; [split; [done|split; [done|by left]]|done]|]. exists k.
        rewrite lookup_insert_ne; [done|]. intros <-. by rewrite Hkey in Hm.
    + intros r' Hr'. cbn in Hr'. apply elem_of_difference in Hr' as [Hr' Hne']. destruct (cn_deleted _ _ _ _ H r' Hr') as (d' & H0' & Hd' & Hv').
      exists d'. split; [done|]. split; [|done]. rewrite list_lookup_insert_ne; [done|]. intros E. apply Hne'. apply elem_of_singleton. lia.
Qed.

(** ** The merge *)

Lemma free_run ids : forall x docs, NoDup ids -> Forall2 (fun p d => fp_valid p = d_valid d) (forwardListDirectory x) docs ->
  (forall r, r ∈ ids -> exists d p fl, 0 <= r /\ docs !! Z.to_nat r = Some d /\ d_valid d = false /\ forwardListDirectory x !! Z.to_nat r = Some p /\ fp_list p = Some fl) ->
  exists d', for_each ids (fun r => on_directory (free_list r)) x = Ok (tt, set_directory d' x) /\ Forall2 (fun p d => fp_valid p = d_valid d) d' docs /\
    forall (i : nat) p, d' !! i = Some p -> fp_valid p = true -> forwardListDirectory x !! i = Some p.
Proof using.
  induction ids as [|r ids IH]; intros x docs Hnd Hdir Hids; [exists (forwardListDirectory x); split; [by destruct x|by split]|].
  apply NoDup_cons in Hnd as [Hnot Hnd]. destruct (Hids r ltac:(by left)) as (d & p & fl & H0 & Hd & Hv & Hp & Hfl).
  pose proof (Forall2_lookup_lr _ _ _ _ _ _ Hdir Hp Hd) as Hpv. cbn in Hpv. rewrite Hv in Hpv.
  set (dir1 := <[Z.to_nat r := mk_flp None false]> (forwardListDirectory x)). cbn [for_each].
  rewrite (bind_run _ _ x tt (set_directory dir1 x)).
  2:{ apply on_directory_run. unfold free_list. assert (vec_at (forwardListDirectory x) r = Ok p) as -> by (by apply vec_at_nth). cbn [rbind].
      rewrite Hpv, Hfl. apply vec_set_Ok. split; [|done]. apply lookup_lt_Some in Hp. lia. }
  destruct (IH (set_directory dir1 x) docs Hnd) as (d' & E & Hd' & Hkeep).
  - cbn. rewrite <- (list_insert_id docs (Z.to_nat r) d Hd). apply Forall2_insert; [done|]. by rewrite Hv.
  - intros r' Hr'. destruct (Hids r' ltac:(by right)) as (d0 & p0 & fl0 & H0' & Hd0 & Hv0 & Hp0 & Hfl0). exists d0, p0, fl0. repeat (split; [done|]). split; [|done].
    cbn. unfold dir1. rewrite list_lookup_insert_ne; [done|]. intros E. apply Hnot. by assert (r = r') as -> by lia.
  - exists d'. split; [exact E|]. split; [done|]. intros i p' Hi Hv'. specialize (Hkeep i p' Hi Hv'). cbn in Hkeep. unfold dir1 in Hkeep.
    apply list_lookup_insert_Some in Hkeep as [(_ & <- & _)|[_ Hkeep]]; [done|done].
Qed.

Lemma free_deleted_run x ls kws docs : consistent x ls kws docs -> exists d',
  (if bool_decide (deletedRecordInternalIds x = ∅) then ret tt else freeSpaceOfDeletedRecords) x = Ok (tt, set_deleted ∅ (set_directory d' x)) /\
  Forall2 (stands t) d' docs.
Proof using.
  intros H. pose proof (consistent_stands _ _ _ _ H) as Hst.
  assert (forall d', Forall2 (fun p d => fp_valid p = d_valid d) d' docs ->
    (forall (i : nat) p, d' !! i = Some p -> fp_valid p = true -> forwardListDirectory x !! i = Some p) -> Forall2 (stands t) d' docs) as Hkeep.
  { intros d' Hd' Hk. apply Forall2_same_length_lookup_2; [exact (Forall2_length _ _ _ Hd')|]. intros i p d Hp Hd.
    pose proof (Forall2_lookup_lr _ _ _ _ _ _ Hd' Hp Hd) as Hv. cbn in Hv. split; [done|]. intros Hdv. rewrite Hdv in Hv.
    exact (st_list _ _ _ (Forall2_lookup_lr _ _ _ _ _ _ Hst (Hk i p Hp Hv) Hd) Hdv). }
  destruct (bool_decide_reflect (deletedRecordInternalIds x = ∅)) as [E|Hne].
  - exists (forwardListDirectory x). split; [rewrite <- E; by destruct x|]. apply Hkeep; [apply H|done].
  - destruct (free_run (elements (deletedRecordInternalIds x)) x docs (NoDup_elements _) (cn_directory _ _ _ _ H)) as (d' & E & Hd' & Hk).
    + intros r Hr. apply elem_of_elements in Hr. destruct (cn_deleted _ _ _ _ H r Hr) as (d & H0 & Hd & Hv).
      destruct (Forall2_lookup_r _ _ _ _ _ (cn_directory _ _ _ _ H) Hd) as (p & Hp & _).
      destruct (cn_whole _ _ _ _ H r d p) as (fl & Hfl & _); [split; [done|]; split; [done|by right]|done|]. by exists d, p, (fl, d_boost d).
    + exists d'. split; [|by apply Hkeep]. unfold freeSpaceOfDeletedRecords. next. by rewrite (bind_run _ _ _ _ _ E).
Qed.

Lemma fixed_lookup (docs docs' : list document) (i : nat) d' : map fixed_part docs' = map fixed_part docs -> docs' !! i = Some d' ->
  exists d, docs !! i = Some d /\ fixed_part d' = fixed_part d.
Proof using.
  intros E Hd. pose proof (f_equal (fun l => l !! i) E) as Ei. cbn in Ei. rewrite !list_lookup_fmap_map, Hd in Ei. destruct (docs !! i) as [d|]; [|done].
  exists d. split; [done|]. exact (inj Some (fixed_part d') (fixed_part d) Ei).
Qed.

(** What a merge does to the records, the lists and the set. *)
Lemma merged_consistent x x' ls ls' kws docs docs' total : consistent x ls kws docs -> map fixed_part docs' = map fixed_part docs ->
  Forall2 (stands t) (forwardListDirectory x') docs' -> well_scored half_of_float applyExpression docs' -> represents_index (invertedIndex x') ls' kws ->
  merged_lists float_of_half one_plus_log applyExpression kws total docs (map fst (InvertedIndex.invertedListKeywordSetToMerge (invertedIndex x))) ls ls' ->
  InvertedIndex.invertedListKeywordSetToMerge (invertedIndex x') = [] -> externalToInternalRecordIdMap x' = externalToInternalRecordIdMap x ->
  deletedRecordInternalIds x' = ∅ -> flagBulkLoadDone x' = true -> consistent x' ls' kws docs'.
Proof using.
  intros H Hfix Hst Hsc Hidx [Hm1 Hm2] Eset Emap Edel Hfl.
  assert (forall r d', present x' docs' r d' -> exists d, doc_at docs r = Some d /\ fixed_part d' = fixed_part d) as Hback.
  { intros r d' (H0 & Hd' & [Hv|Hr]); [|rewrite Edel in Hr; by apply not_elem_of_empty in Hr]. destruct (fixed_lookup docs docs' _ d' Hfix Hd') as (d & Hd & E).
    exists d. split; [|done]. apply (doc_present x). injection E as _ _ _ _ Ev. split; [|congruence]. split; [done|]. split; [done|left; congruence]. }
  assert (forall l a', ls' !! l = Some a' -> exists a, ls !! l = Some a /\ (forall r, r ∈ la_all a' -> r ∈ la_all a) /\ la_news a' = [] /\
    (forall r d, r ∈ la_all a -> doc_at docs r = Some d -> r ∈ la_all a')) as Hlists.
  { intros l a' Hl. destruct (lookup_lt_is_Some_2 ls l) as [a Ha]; [rewrite <- Hm1; by eapply lookup_lt_Some|]. exists a. split; [done|].
    destruct (Hm2 l a Ha) as (a2 & Ha2 & Hm). rewrite Hl in Ha2. injection Ha2 as <-. unfold merged_list in Hm. destruct (decide _) as [_|Hnot].
    - destruct Hm as (w & _ & Ep & En). split; [|split; [done|]]; unfold la_all at 1.
      + rewrite Ep, En, app_nil_r. intros r Hr. rewrite published_perm in Hr. apply list_elem_of_In, List.filter_In in Hr as [Hr _]. by apply list_elem_of_In.
      + intros r d Hr Hd. unfold la_all. rewrite Ep, En, app_nil_r, published_perm. apply list_elem_of_In, List.filter_In. split; [by apply list_elem_of_In|by rewrite Hd].
    - subst a'. split; [done|]. split; [|done]. destruct (la_news a) as [|r0 news] eqn:En; [done|]. destruct Hnot. apply (cn_dirty _ _ _ _ H l a Ha). by rewrite En. }
  constructor; rewrite ?Eset, ?Emap; try done.
  - rewrite Hm1. by apply H.
  - eapply Forall2_impl; [exact Hst|]. intros p d Hpd. by apply Hpd.
  - intros r d' p Hp Hpl. destruct (Hback r d' Hp) as (d & Hd & E). destruct Hp as (H0 & Hd' & Hc). pose proof (Forall2_lookup_lr _ _ _ _ _ _ Hst Hpl Hd') as Hstd.
    pose proof (proj1 (doc_present x docs r d) Hd) as [Hpr Hv]. injection E as Eo _ _ _ Ev. destruct (st_list _ _ _ Hstd ltac:(by rewrite Ev)) as (fl & H1 & H2 & H3).
    exists fl. split; [done|]. split; [done|]. split; [done|]. rewrite Eo. destruct Hpr as (_ & Hdl & Hc').
    destruct (Forall2_lookup_r _ _ _ _ _ (cn_directory _ _ _ _ H) Hdl) as (p0 & Hp0 & _). by destruct (cn_whole _ _ _ _ H r d p0) as (_ & _ & _ & _ & Hg).
  - intros l a' r Hl Hr. destruct (Hlists l a' Hl) as (a & Ha & Hsub & _). replace (length docs') with (length docs); [by apply (cn_known _ _ _ _ H l a), Hsub|].
    pose proof (f_equal length Hfix) as El. rewrite !length_map in El. done.
  - intros l a' w r d' Hl Hw Hr Hp. destruct (Hlists l a' Hl) as (a & Ha & Hsub & _). destruct (Hback r d' Hp) as (d & Hd & E). injection E as _ E _ _ _.
    rewrite E. apply (cn_covers _ _ _ _ H l a w r d Ha Hw (Hsub r Hr)). exact (proj1 (proj1 (doc_present x docs r d) Hd)).
  - intros r d' w Hp Hw. destruct (Hback r d' Hp) as (d & Hd & E). injection E as _ E _ _ _. rewrite E in Hw.
    destruct (cn_complete _ _ _ _ H r d w (proj1 (proj1 (doc_present x docs r d) Hd)) Hw) as (l & a & Ha & Hkw & Hr).
    destruct (lookup_lt_is_Some_2 ls' l) as [a' Ha']; [rewrite Hm1; by eapply lookup_lt_Some|]. destruct (Hlists l a' Ha') as (a2 & Ha2 & _ & _ & Hall).
    assert (a2 = a) as -> by congruence. exists l, a'. split; [done|]. split; [done|by apply (Hall r d)].
  - constructor.
  - constructor.
  - intros l a' Hl Hne. by destruct (Hlists l a' Hl) as (_ & _ & _ & En & _).
  - intros key r Hm. destruct (cn_live _ _ _ _ H key r Hm) as (d & Hd). pose proof (fixed_doc docs docs' r Hfix) as E. rewrite Hd in E.
    destruct (doc_at docs' r) as [d'|]; [by exists d'|done].
  - apply H.
  - intros r d' Hd. apply (doc_present x') in Hd as [Hp _]. destruct (Hback r d' Hp) as (d & Hd & _). by apply (cn_named _ _ _ _ H r d).
  - intros r Hr. rewrite Edel in Hr. by apply not_elem_of_empty in Hr.
Qed.

Abbreviation merge := (IndexRecords.merge half_of_float float_of_half one_plus_log applyExpression).

Lemma merge_index_run x ls kws docs : consistent x ls kws docs -> mergeRequired x = true -> Forall (fun a => Z.of_nat (length (la_all a)) + 1 < 2 ^ 30) ls ->
  exists x' ls' docs', merge x = Ok (Some (emptied float_of_half one_plus_log applyExpression (numberOfDocuments x) docs ls (set_of x)), x') /\
    consistent x' ls' kws docs' /\ shown_index (invertedIndex x') ls' kws /\ map fixed_part docs' = map fixed_part docs /\
    externalToInternalRecordIdMap x' = externalToInternalRecordIdMap x /\ set_of x' = [] /\ deletedRecordInternalIds x' = ∅ /\
    merged_lists float_of_half one_plus_log applyExpression kws (numberOfDocuments x) docs (map fst (set_of x)) ls ls'.
Proof using Hhalf.
  intros H Hreq Hn. destruct (free_deleted_run x ls kws docs H) as (d1 & E1 & Hd1). set (x1 := set_deleted ∅ (set_directory d1 x)) in *.
  destruct (merge_inverted_run half_of_float float_of_half one_plus_log applyExpression Hhalf t (numberOfDocuments x) docs (invertedIndex x) ls kws d1) as
    (i' & ls' & d' & docs' & E & Hsh & Hdir' & Hfix & Hsc & Hm & Eset).
  { apply H. } { apply H. } { done. } { apply H. } { apply H. } { apply (known_once kws); apply H. }
  { intros l a w Hl Hw r d Hr Hd. apply (cn_covers _ _ _ _ H l a w r d Hl Hw Hr). exact (proj1 (proj1 (doc_present x docs r d) Hd)). }
  { done. }
  set (x2 := set_inverted i' x1). exists (set_mergeRequired false (set_directory d' x2)), ls', docs'. split; [|split; [|done]].
  - unfold IndexRecords.merge. next. rewrite Hreq. cbn [negb]. next. rewrite (bind_run _ _ _ _ _ E1). do 2 next. cbn [x1 set_deleted set_directory numberOfDocuments forwardListDirectory].
    rewrite (bind_run _ _ x1 _ x2 (on_inverted_run _ x1 _ i' E)). reflexivity.
  - apply (merged_consistent x _ ls ls' kws docs docs' (numberOfDocuments x) H Hfix); try done; [apply Hsh|apply H].
Qed.

(** ** What readers see *)

Definition no_list : ForwardList.ForwardList := ForwardList.mk_fl 0 [] [] [] 0 0 0 0 0 0.

(** The index of a query that takes its read views now. *)
Definition query_index (x : IndexData) (ls : list list_abs) (kws : list Z) : PlanIndex.QueryIndex :=
  PlanIndex.mk_index t (map (fun p => (match fp_list p with Some (fl, _) => fl | None => no_list end, fp_valid p)) (forwardListDirectory x)) (map la_pub ls) kws.

Definition entries (docs : list document) (r : Z) : list ForwardSearch.entry :=
  match doc_at docs r with Some d => ForwardScores.content_entries (d_contents d) | None => [] end.

(** The read views of the inverted index give the lists and keywords of [q]. *)
Definition reads_as (i : InvertedIndex.InvertedIndex) (q : PlanIndex.QueryIndex) : Prop :=
  InvertedIndex.getInvertedIndexKeywordIds_ReadView i = Ok (PlanIndex.keywordIds q, i) /\
  exists directory, InvertedIndex.getInvertedIndexDirectory_ReadView i = Ok (directory, i) /\
    forall (l : nat) rs, PlanIndex.invertedIndex q !! l = Some rs -> InvertedIndex.getInvertedListReadView directory (Z.of_nat l) i = Ok (rs, i).

Lemma shown_reads x ls kws : shown_index (invertedIndex x) ls kws -> reads_as (invertedIndex x) (query_index x ls kws).
Proof using.
  intros H. split; [by eapply keywordIds_read|]. eexists. split; [by eapply directory_read|]. intros l rs Hl. cbn in Hl. rewrite list_lookup_fmap_map in Hl.
  destruct (ls !! l) as [a|] eqn:Ha; [|done]. injection Hl as <-. by eapply list_view_read.
Qed.

Hypothesis (Hge : forall x y z, ForwardList.half_ge0 (half_of_float (applyExpression x y z)) = true).

Lemma content_proper fl c : stands_for t fl c -> Forall ForwardRoundtrip.grouped (c_occurrences c) -> Forall (computed half_of_float applyExpression) (c_scores c) ->
  Forall ForwardSearch.proper (ForwardScores.content_entries c).
Proof using Hge.
  intros Hst Hg Hc. apply Forall_lookup. intros i e He. apply ForwardScores.entries_of_lookup in He as (k & l & s & _ & Hl & Hs & ->).
  pose proof (Forall_lookup_1 _ _ _ _ Hg Hl) as Hgl. pose proof (Forall_lookup_1 _ _ _ _ (ForwardScores.sf_found _ _ _ Hst) Hl) as Hfl.
  constructor; cbn; [by apply ForwardRoundtrip.runs_attributes| |].
  - destruct (ForwardLayout.runs_props l Hfl) as (_ & _ & _ & Hne). by destruct (ForwardLayout.runs l).
  - destruct (Forall_lookup_1 _ _ _ _ Hc Hs) as (a & b & c0 & ->). apply Hge.
Qed.

Lemma query_list x ls kws docs r fl : consistent x ls kws docs -> PlanIndex.getForwardList (query_index x ls kws) r = (Some fl, true) ->
  exists d, doc_at docs r = Some d /\ stands_for t fl (d_contents d) /\ StronglySorted Z.lt (c_ids (d_contents d)) /\
    Forall ForwardSearch.proper (ForwardScores.content_entries (d_contents d)).
Proof using Hge.
  intros H. unfold PlanIndex.getForwardList. cbn [query_index PlanIndex.forwardListDirectory]. destruct (vec_at _ r) as [[fl' b]|] eqn:E; [|done]. intros [= -> ->].
  apply vec_at_nth in E as [H0 E]. rewrite list_lookup_fmap_map in E. destruct (forwardListDirectory x !! Z.to_nat r) as [p|] eqn:Ep; [|done].
  destruct (Forall2_lookup_l _ _ _ _ _ (cn_directory _ _ _ _ H) Ep) as (d & Hd & Hv). injection E as E1 E2. rewrite E2 in Hv.
  assert (present x docs r d) as Hp by (split; [done|]; split; [done|by left]). exists d. split; [by apply (doc_present x)|].
  destruct (cn_whole _ _ _ _ H r d p Hp Ep) as (fl0 & Efl & Hst & Hsort & Hg). rewrite Efl in E1. subst fl0. split; [done|]. split; [done|].
  apply (content_proper fl _ Hst Hg). exact (Forall_lookup_1 _ _ _ _ (cn_scored _ _ _ _ H) Hd).
Qed.

Lemma query_valid x ls kws docs r : consistent x ls kws docs ->
  PlanIndex.is_valid (query_index x ls kws) r = true <-> exists d, doc_at docs r = Some d.
Proof using.
  intros H. unfold PlanIndex.is_valid, PlanIndex.getForwardList, doc_at. cbn [query_index PlanIndex.forwardListDirectory]. unfold vec_at.
  destruct (r <? 0); cbn; [split; [done|by intros []]|]. rewrite list_lookup_fmap_map. pose proof (cn_directory _ _ _ _ H) as Hd.
  destruct (forwardListDirectory x !! Z.to_nat r) as [p|] eqn:Ep; cbn.
  - destruct (Forall2_lookup_l _ _ _ _ _ Hd Ep) as (d & -> & ->). cbn. destruct (d_valid d); split; [by exists d|done|done|by intros []].
  - assert (docs !! Z.to_nat r = None) as -> by (apply lookup_ge_None; rewrite <- (Forall2_length _ _ _ Hd); by apply lookup_ge_None). cbn. split; [done|by intros []].
Qed.

(** The two sides of the index agree for its readers, when nothing waits for a merge. *)
Lemma query_ok x ls kws docs : consistent x ls kws docs -> Forall (fun a => la_news a = []) ls ->
  PlanIndex.index_ok (query_index x ls kws) (entries docs).
Proof using Hge.
  intros H Hnews. assert (forall l a, ls !! l = Some a -> la_all a = la_pub a) as Hall.
  { intros l a Ha. unfold la_all. by rewrite (Forall_lookup_1 _ _ _ _ Hnews Ha), app_nil_r. }
  assert (forall r d, doc_at docs r = Some d -> map ForwardSearch.e_id (entries docs r) = c_ids (d_contents d)) as Hids.
  { intros r d Hd. unfold entries. rewrite Hd. pose proof (proj1 (doc_present x docs r d) Hd) as [Hp _]. pose proof Hp as (_ & Hdl & _).
    destruct (Forall2_lookup_r _ _ _ _ _ (cn_directory _ _ _ _ H) Hdl) as (p & Hpl & _). destruct (cn_whole _ _ _ _ H r d p Hp Hpl) as (fl & _ & Hst & _).
    exact (ForwardScores.content_ids t fl _ Hst). }
  constructor.
  - intros r fl Hfl. destruct (query_list x ls kws docs r fl H Hfl) as (d & Hd & Hst & Hsort & Hprop). rewrite (Hids r d Hd). unfold entries. rewrite Hd.
    split; [by apply ForwardScores.content_has_entries|done].
  - intros l rs Hl. unfold PlanIndex.list_of in Hl. cbn [PlanOperators.getInvertedListReadView PlanIndex.query_index_reader] in Hl.
    unfold PlanIndex.InvertedIndex_getInvertedListReadView in Hl. destruct (negb _); [done|]. apply vec_at_nth in Hl as [H0 Hl]. cbn in Hl. rewrite list_lookup_fmap_map in Hl.
    destruct (ls !! Z.to_nat l) as [a|] eqn:Ha; [|done]. injection Hl as <-.
    destruct (lookup_lt_is_Some_2 kws (Z.to_nat l)) as [w Hw]; [rewrite (cn_keywords _ _ _ _ H); by eapply lookup_lt_Some|].
    exists w. split; [by apply vec_at_nth|]. intros r Hr. rewrite <- (Hall _ a Ha) in Hr. split.
    + unfold PlanIndex.known. cbn [query_index PlanIndex.forwardListDirectory]. rewrite length_map, (Forall2_length _ _ _ (cn_directory _ _ _ _ H)). by apply (cn_known _ _ _ _ H (Z.to_nat l) a).
    + intros (d & Hd)%(query_valid x ls kws docs r H). rewrite (Hids r d Hd). apply (cn_covers _ _ _ _ H (Z.to_nat l) a w r d Ha Hw Hr). exact (proj1 (proj1 (doc_present x docs r d) Hd)).
  - intros r e Hv He. apply (query_valid x ls kws docs r H) in Hv as (d & Hd).
    assert (ForwardSearch.e_id e ∈ c_ids (d_contents d)) as Hw by (rewrite <- (Hids r d Hd); by apply elem_of_lmap_2).
    destruct (cn_complete _ _ _ _ H r d _ (proj1 (proj1 (doc_present x docs r d) Hd)) Hw) as (l & a & Ha & Hkw & Hr). rewrite (Hall l a Ha) in Hr.
    exists (Z.of_nat l), (la_pub a). split; [|split; [apply vec_at_nth; rewrite Nat2Z.id; split; [lia|done]|done]].
    unfold PlanIndex.list_of. cbn [PlanOperators.getInvertedListReadView PlanIndex.query_index_reader]. unfold PlanIndex.InvertedIndex_getInvertedListReadView.
    cbn [query_index PlanIndex.invertedIndex]. rewrite length_map. pose proof (lookup_lt_Some _ _ _ Ha). destruct (Z.ltb_spec (Z.of_nat l) (Z.of_nat (length ls))); [|lia]. cbn [negb].
    apply vec_at_nth. rewrite Nat2Z.id, list_lookup_fmap_map, Ha. split; [lia|done].
Qed.
End History.
End IndexHistory.
