(* ===== verification/IndexSearch.v ===== *)
(** * What an index promises (core/operation/IndexData.cpp)

    The index is a map from primary keys to records.  Additions, deletions, recoveries
    and merges refine it, and what a query reads after a merge answers for exactly the
    records of the map. *)
From S2P Require Import Prelude CowVector ForwardList ForwardSearch ForwardLayout ForwardRoundtrip ForwardScores PlanOperators PlanTree.
From S2P Require Import PlanIndex InvertedList InvertedMerge InvertedHistory InvertedIndex InvertedUpdate IndexRecords IndexHistory.
From Stdlib Require Import ZArith Lia List Bool SpecFloat Sorted.
From stdpp Require Import base gmap list fin_maps sets.
Open Scope Z_scope.

Module IndexSearch.
Import ForwardList(PositionIndexType, TokenAttributeHits, hits_map, KEYWORD_THRESHOLD).
Import InvertedMerge InvertedHistory InvertedUpdate IndexRecords IndexHistory.
Import PlanOperators(float).
Import ForwardScores(c_ids, c_occurrences).

(** ** The abstract index *)

(** The keywords of a record with their occurrences, and its boost. *)
Definition content : Type := list Z * list (list ForwardLayout.occurrence) * Z.
Definition content_of (d : document) : content := (c_ids (d_contents d), c_occurrences (d_contents d), d_boost d).
Definition records (x : IndexData) (docs : list document) : gmap (list Z) content :=
  omap (fun r => content_of <$> doc_at docs r) (externalToInternalRecordIdMap x).

Inductive index_op :=
  | Add (primaryKey : list Z) (roleIds : list (list Z)) (boost : float) (hits : hits_map) (keywordIdList : list (Z * (list Z * Z)))
  | Delete (leaf : Z -> option (Z * Z)) (primaryKey : list Z)
  | Recover (primaryKey : list Z) (internalRecordId : Z)
  | Merge.

Section Search.
Variables (half_of_float : float -> Z) (float_of_half : Z -> float) (one_plus_log : float -> float) (applyExpression : float -> float -> float -> float).
Variables (tfBoost : Z -> TokenAttributeHits -> Z) (indeterminate : Z -> Z) (t : PositionIndexType).

Definition perform (o : index_op) : st IndexData bool :=
  match o with
  | Add key roles boost hits ks => addRecord half_of_float float_of_half one_plus_log applyExpression tfBoost indeterminate t key roles boost hits ks
  | Delete leaf key => let! r := deleteRecord leaf key in ret (match r with Some _ => true | None => false end)
  | Recover key r => recoverRecord key r
  | Merge => let! r := IndexRecords.merge half_of_float float_of_half one_plus_log applyExpression in ret (match r with Some _ => true | None => false end)
  end.

(** What the callers and the trie give: keys are not empty; a new record comes with the
    ids and lists of its keywords; the trie finds the lists of a record that is
    deleted; a record is recovered before the next merge; lists are not too long. *)
Definition allowed (x : IndexData) (ls : list list_abs) (kws : list Z) (docs : list document) (o : index_op) : Prop :=
  match o with
  | Add key _ _ hits ks => key <> [] /\ (externalToInternalRecordIdMap x !! key = None -> exists occ kws', addable t ls kws hits ks occ kws')
  | Delete leaf key => key <> [] /\ forall r d, externalToInternalRecordIdMap x !! key = Some r -> doc_at docs r = Some d -> forall w, w ∈ c_ids (d_contents d) -> finds leaf kws w
  | Recover key r => key <> [] /\ (externalToInternalRecordIdMap x !! key = None -> r ∈ deletedRecordInternalIds x)
  | Merge => Forall (fun a => Z.of_nat (length (la_all a)) + 1 < 2 ^ 30) ls
  end.

(** The operation on the map, with its result; [docs] says what a recovered record is. *)
Definition specified (x : IndexData) (docs : list document) (o : index_op) (R : gmap (list Z) content) (b : bool) (R' : gmap (list Z) content) : Prop :=
  match o with
  | Add key _ boost hits ks =>
      match R !! key with
      | Some _ => b = false /\ R' = R
      | None => b = true /\ exists occ, Forall2 (ForwardRoundtrip.analyzed hits) ks occ /\ R' = <[key := (map fst ks, occ, half_of_float boost)]> R
      end
  | Delete _ key => b = (match R !! key with Some _ => true | None => false end) /\ R' = delete key R
  | Recover key r =>
      match R !! key with
      | Some _ => b = false /\ R' = R
      | None => b = true /\ exists d, docs !! Z.to_nat r = Some d /\ R' = <[key := content_of d]> R
      end
  | Merge => b = mergeRequired x /\ R' = R
  end.

Hypothesis (Hhalf : forall z, is_uint 16 (half_of_float z)) (Htf : forall tf h, is_uint 16 (tfBoost tf h)).

Abbreviation consistent := (consistent half_of_float applyExpression t).

Lemma records_key x ls kws docs key : consistent x ls kws docs -> key <> [] ->
  match getInternalRecordIdFromExternalRecordId key x with
  | Some r => exists d, externalToInternalRecordIdMap x !! key = Some r /\ doc_at docs r = Some d /\ records x docs !! key = Some (content_of d)
  | None => externalToInternalRecordIdMap x !! key = None /\ records x docs !! key = None
  end.
Proof using.
  intros H Hne. assert (getInternalRecordIdFromExternalRecordId key x = externalToInternalRecordIdMap x !! key) as -> by (by destruct key).
  unfold records. rewrite lookup_omap. destruct (externalToInternalRecordIdMap x !! key) as [r|] eqn:E; [|done].
  destruct (cn_live _ _ _ _ _ _ _ H key r E) as (d & Hd). exists d. cbn. by rewrite Hd.
Qed.

(** Records at other places keep what they are. *)
Lemma records_other x x' docs docs' key r c : externalToInternalRecordIdMap x' = <[key := r]> (externalToInternalRecordIdMap x) ->
  content_of <$> doc_at docs' r = Some c -> (forall k r', externalToInternalRecordIdMap x !! k = Some r' -> k <> key -> doc_at docs' r' = doc_at docs r') ->
  records x' docs' = <[key := c]> (records x docs).
Proof using.
  intros Em Hc Ho. apply map_eq. intros k. unfold records. rewrite lookup_omap, Em. destruct (decide (key = k)) as [<-|Hne].
  - rewrite !lookup_insert_eq. exact Hc.
  - rewrite !lookup_insert_ne by done. rewrite lookup_omap. destruct (externalToInternalRecordIdMap x !! k) as [r'|] eqn:Ek; [|done]. cbn. by rewrite (Ho k r' Ek (not_eq_sym Hne)).
Qed.

Lemma doc_app docs d r : doc_at (docs ++ [d]) r = if decide (r = Z.of_nat (length docs)) then (if d_valid d then Some d else None) else doc_at docs r.
Proof using.
  unfold doc_at, vec_at. destruct (Z.ltb_spec r 0); [by rewrite decide_False by lia|]. destruct (decide (r = Z.of_nat (length docs))) as [->|Hne].
  - by rewrite Nat2Z.id, list_lookup_middle.
  - destruct (Nat.lt_ge_cases (Z.to_nat r) (length docs)); [by rewrite lookup_app_l|]. rewrite (lookup_ge_None_2 docs) by lia.
    rewrite (lookup_ge_None_2 (docs ++ [d])); [done|]. rewrite length_app. cbn. lia.
Qed.

Lemma doc_marked docs r d v r' : docs !! Z.to_nat r = Some d -> 0 <= r ->
  doc_at (<[Z.to_nat r := marked v d]> docs) r' = if decide (r' = r) then (if v then Some (marked v d) else None) else doc_at docs r'.
Proof using.
  intros Hd H0. unfold doc_at, vec_at. destruct (Z.ltb_spec r' 0); [by rewrite decide_False by lia|]. destruct (decide (r' = r)) as [->|Hne].
  - by rewrite list_lookup_insert_eq by (by eapply lookup_lt_Some).
  - by rewrite list_lookup_insert_ne by lia.
Qed.

Definition refined (x : IndexData) (docs : list document) (o : index_op) : Prop := exists b x' ls' kws' docs',
  perform o x = Ok (b, x') /\ consistent x' ls' kws' docs' /\ specified x docs o (records x docs) b (records x' docs').

Lemma add_refined x ls kws docs key roles boost hits ks : consistent x ls kws docs -> allowed x ls kws docs (Add key roles boost hits ks) ->
  refined x docs (Add key roles boost hits ks).
Proof using Hhalf Htf.
  intros H [Hne Hadd]. pose proof (records_key x ls kws docs key H Hne) as Hk. destruct (getInternalRecordIdFromExternalRecordId key x) as [r|] eqn:E.
  - destruct Hk as (d & _ & _ & HR). exists false, x, ls, kws, docs. split; [|split; [done|]].
    + cbn [perform]. unfold addRecord. by rewrite (bind_run _ _ x (Some r) x) by (unfold reads; by rewrite E).
    + cbn [specified]. rewrite HR. done.
  - destruct Hk as [Hm HR]. destruct (Hadd Hm) as (occ & kws' & Ha).
    destruct (addRecord_run half_of_float float_of_half one_plus_log applyExpression Hhalf tfBoost indeterminate t Htf x ls kws docs key roles boost hits ks occ kws' H Ha E)
      as (x' & ls2 & ls' & p & d & Erun & Edir & Hpv & Hdv & Hw & Hc & Hids & Hocc & Hb & Emap & Edel & Hfl & Hidx & (new & -> & Hnew) & Hlen & Hg & Eset).
    exists true, x', ls', kws', (docs ++ [d]). split; [exact Erun|]. split.
    + eapply (added_consistent half_of_float applyExpression t x x' ls new ls' kws kws' docs key ks p d H); try done. by apply (ad_assigned _ _ _ _ _ _ _ Ha).
    + cbn [specified]. rewrite HR. split; [done|]. exists occ. split; [by apply (ad_analyzed _ _ _ _ _ _ _ Ha)|].
      apply (records_other x x' docs _ key (Z.of_nat (length docs)) _ Emap).
      * rewrite doc_app, decide_True, Hdv by done. cbn. unfold content_of. by rewrite Hids, Hocc, Hb.
      * intros k r Hr _. rewrite doc_app, decide_False; [done|]. intros ->. destruct (cn_live _ _ _ _ _ _ _ H k _ Hr) as (d' & (_ & Hd' & _)%doc_known).
        rewrite Nat2Z.id in Hd'. apply lookup_lt_Some in Hd'. lia.
Qed.

Lemma delete_refined x ls kws docs leaf key : consistent x ls kws docs -> allowed x ls kws docs (Delete leaf key) -> refined x docs (Delete leaf key).
Proof using.
  intros H [Hne Hf]. pose proof (records_key x ls kws docs key H Hne) as Hk. destruct (getInternalRecordIdFromExternalRecordId key x) as [r|] eqn:E.
  - destruct Hk as (d & Hm & Hd & HR).
    destruct (deleteRecord_run half_of_float applyExpression t x ls kws docs leaf key r d H E Hd (Hf r d Hm Hd)) as (p & xs & x' & Hp & Hxs & Erun & Edir & Emap & Edel & Hfl & Einv).
    exists true, x', ls, kws, (<[Z.to_nat r := marked false d]> docs). split; [cbn [perform]; by rewrite (bind_run _ _ _ _ _ Erun)|]. split.
    + by apply (deleted_consistent half_of_float applyExpression t x x' ls kws docs key r d p xs).
    + cbn [specified]. rewrite HR. split; [done|]. apply map_eq. intros k. unfold records. rewrite lookup_omap, Emap. destruct (decide (key = k)) as [<-|Hne'].
      { by rewrite !lookup_delete_eq. }
      rewrite !lookup_delete_ne by done. rewrite lookup_omap. destruct (externalToInternalRecordIdMap x !! k) as [r'|] eqn:Ek; [|done]. cbn.
      pose proof (doc_known _ _ _ Hd) as (H0 & Hdl & _). rewrite (doc_marked docs r d false r' Hdl H0), decide_False; [done|].
      intros ->. apply Hne'. by apply (cn_keys _ _ _ _ _ _ _ H key k r).
  - destruct Hk as [Hm HR]. exists false, x, ls, kws, docs. split; [|split; [done|]].
    + cbn [perform]. rewrite (bind_run _ _ x None x); [done|]. unfold deleteRecord. rewrite (bind_run _ _ x None x) by (unfold reads; by rewrite E). cbv iota.
      rewrite (bind_run _ _ x tt x) by done. rewrite (bind_run _ _ x false x); [done|]. unfold ForwardIndex_deleteRecord.
      by rewrite (bind_run _ _ x None x) by (unfold reads; by rewrite E).
    + cbn [specified]. rewrite HR. split; [done|]. by rewrite delete_id.
Qed.

Lemma recover_refined x ls kws docs key r : consistent x ls kws docs -> allowed x ls kws docs (Recover key r) -> refined x docs (Recover key r).
Proof using.
  intros H [Hne Hr]. pose proof (records_key x ls kws docs key H Hne) as Hk. destruct (getInternalRecordIdFromExternalRecordId key x) as [r0|] eqn:E.
  - destruct Hk as (d & Hm & Hd & HR). exists false, x, ls, kws, docs. split; [|split; [done|]].
    + cbn [perform]. unfold recoverRecord. rewrite (bind_run _ _ x false x); [done|]. unfold ForwardIndex_recoverRecord.
      by rewrite (bind_run _ _ x (Some r0) x) by (unfold reads; by rewrite E).
    + cbn [specified]. by rewrite HR.
  - destruct Hk as [Hm HR]. destruct (recoverRecord_run half_of_float applyExpression t x ls kws docs key r H Hne Hm (Hr Hm)) as (d & x' & Hd & Erun & Emap & _ & Hc).
    exists true, x', ls, kws, (<[Z.to_nat r := marked true d]> docs). split; [exact Erun|]. split; [done|]. cbn [specified]. rewrite HR. split; [done|].
    exists d. split; [done|]. destruct (cn_deleted _ _ _ _ _ _ _ H r (Hr Hm)) as (d' & H0 & Hd' & Hv). rewrite Hd in Hd'. injection Hd' as <-.
    apply (records_other x x' docs _ key r _ Emap).
    + by rewrite (doc_marked docs r d true r Hd H0), decide_True by done.
    + intros k r' Hr' _. rewrite (doc_marked docs r d true r' Hd H0), decide_False; [done|]. intros ->. destruct (cn_live _ _ _ _ _ _ _ H k r Hr') as (d' & (_ & Hd' & Hv')%doc_known).
      rewrite Hd in Hd'. injection Hd' as <-. by rewrite Hv in Hv'.
Qed.

Lemma records_fixed x x' docs docs' : externalToInternalRecordIdMap x' = externalToInternalRecordIdMap x -> map fixed_part docs' = map fixed_part docs ->
  records x' docs' = records x docs.
Proof using.
  intros Em Hfix. apply map_eq. intros k. unfold records. rewrite !lookup_omap, Em. destruct (externalToInternalRecordIdMap x !! k) as [r|]; [|done]. cbn.
  pose proof (fixed_doc docs docs' r Hfix) as E. destruct (doc_at docs' r) as [d'|], (doc_at docs r) as [d|]; try done. injection E as E1 E2 E3 E4 E5.
  cbn. unfold content_of. by rewrite E1, E2, E4.
Qed.

Lemma merge_refined x ls kws docs : consistent x ls kws docs -> allowed x ls kws docs Merge -> refined x docs Merge.
Proof using Hhalf.
  intros H Hn. destruct (mergeRequired x) eqn:E.
  - destruct (merge_index_run half_of_float float_of_half one_plus_log applyExpression Hhalf t x ls kws docs H E Hn) as (x' & ls' & docs' & Erun & Hc & _ & Hfix & Emap & _).
    exists true, x', ls', kws, docs'. split; [cbn [perform]; by rewrite (bind_run _ _ _ _ _ Erun)|]. split; [done|]. cbn [specified]. rewrite E. split; [done|]. by apply records_fixed.
  - exists false, x, ls, kws, docs. split; [|split; [done|cbn [specified]; by rewrite E]]. cbn [perform]. rewrite (bind_run _ _ x None x); [done|].
    unfold IndexRecords.merge. by rewrite (bind_run _ _ x false x) by (unfold reads; by rewrite E).
Qed.

(** The keywords that a merge reports have a list in the set that it left empty. *)
Lemma emptied_elem x ls ls' kws docs total w : known_lists kws (set_of x) ->
  merged_lists float_of_half one_plus_log applyExpression kws total docs (map fst (set_of x)) ls ls' -> length kws = length ls ->
  w ∈ emptied float_of_half one_plus_log applyExpression total docs ls (set_of x) <->
  exists l a', (Z.of_nat l, w) ∈ set_of x /\ ls' !! l = Some a' /\ la_pub a' = [].
Proof using.
  intros Hk [Hm1 Hm2] Hlen. pose proof (proj1 (Forall_forall _ _) Hk) as Hk'. unfold emptied. rewrite elem_of_lmap.
  assert (forall l a, ls !! l = Some a -> (Z.of_nat l, w) ∈ set_of x -> exists a', ls' !! l = Some a' /\
    la_pub a' = published_records float_of_half one_plus_log applyExpression w total docs a) as Hpub.
  { intros l a Ha Hin. destruct (Hm2 l a Ha) as (a' & Ha' & Hm). exists a'. split; [done|]. unfold merged_list in Hm.
    rewrite decide_True in Hm by exact (elem_of_lmap_2 fst _ (Z.of_nat l, w) Hin). destruct Hm as (w' & Hw' & -> & _).
    destruct (Hk' _ Hin) as (l0 & El & Hw). cbn in El, Hw. assert (l0 = l) as -> by lia. by assert (w' = w) as -> by congruence. }
  split.
  - intros ([z w'] & -> & Hin). apply list_elem_of_In, List.filter_In in Hin as [Hin Hf]. cbn [fst snd] in *. apply list_elem_of_In in Hin.
    destruct (Hk' _ Hin) as (l & El & Hw). cbn in El. subst z. rewrite Nat2Z.id in Hf. destruct (ls !! l) as [a|] eqn:Ha; [|done].
    destruct (Hpub l a Ha Hin) as (a' & Ha' & Ep). exists l, a'. split; [done|]. split; [done|]. rewrite Ep. apply Nat.eqb_eq in Hf. by apply length_zero_iff_nil.
  - intros (l & a' & Hin & Ha' & Ep). exists (Z.of_nat l, w). split; [done|]. apply list_elem_of_In, List.filter_In. split; [by apply list_elem_of_In|]. cbn [fst snd].
    rewrite Nat2Z.id. destruct (lookup_lt_is_Some_2 ls l) as [a Ha]; [rewrite <- Hm1; by eapply lookup_lt_Some|]. rewrite Ha.
    destruct (Hpub l a Ha Hin) as (a2 & Ha2 & Ep2). assert (a2 = a') as -> by congruence. by rewrite <- Ep2, Ep.
Qed.
End Search.

(** ** The first state *)

(** An index without records, after finishBulkLoad. *)
Definition empty_inverted : InvertedIndex.InvertedIndex :=
  match (InvertedIndex.initialiseInvertedIndexCommit ;;; InvertedIndex.finalCommit (fun _ => PlanOperators.f_zero) [] true) InvertedIndex.new_index with
  | Ok (_, i) => i | Err _ => InvertedIndex.new_index end.
Definition empty_index : IndexData := mk_idx [] ∅ ∅ empty_inverted 0 0 true true.

Lemma no_records half_of_float applyExpression t i : represents_index i [] [] -> InvertedIndex.invertedListKeywordSetToMerge i = [] ->
  consistent half_of_float applyExpression t (mk_idx [] ∅ ∅ i 0 0 true true) [] [] [].
Proof.
  intros Hi Hset. constructor; cbn [invertedIndex forwardListDirectory externalToInternalRecordIdMap deletedRecordInternalIds flagBulkLoadDone]; rewrite ?Hset; try done.
  - constructor.
  - by intros r d w (_ & Hd & _).
  - constructor.
  - constructor.
  - intros r d (_ & Hd & _)%doc_known. done.
Qed.

Lemma empty_consistent half_of_float applyExpression t : consistent half_of_float applyExpression t empty_index [] [] [].
Proof.
  destruct (CowVector.start_run (T := Z) 0 ltac:(lia)) as (s & E & Hs).
  assert (empty_inverted = InvertedIndex.mk_ii [] s s true [] []) as Ei.
  { vm_compute in E. injection E as <-. vm_compute. reflexivity. }
  unfold empty_index. rewrite Ei. apply no_records; [|done]. constructor; cbn; [constructor|by eexists|by eexists|done].
Qed.

(** ** Properties *)

(** (C5) The index is a map from primary keys to records: in a state whose sides agree,
    every allowed operation of the writer succeeds, reaches a state whose sides agree,
    and adds, removes, recovers and answers as the operation on the map does. *)
Theorem index_refines (half_of_float : float -> Z) (float_of_half : Z -> float) (one_plus_log : float -> float) (applyExpression : float -> float -> float -> float)
    (tfBoost : Z -> TokenAttributeHits -> Z) (indeterminate : Z -> Z) (t : PositionIndexType) (x : IndexData) (ls : list list_abs) (kws : list Z)
    (docs : list document) (o : index_op) :
  (forall z, is_uint 16 (half_of_float z)) -> (forall tf h, is_uint 16 (tfBoost tf h)) -> consistent half_of_float applyExpression t x ls kws docs ->
  allowed t x ls kws docs o ->
  exists b x' ls' kws' docs', perform half_of_float float_of_half one_plus_log applyExpression tfBoost indeterminate t o x = Ok (b, x') /\
    consistent half_of_float applyExpression t x' ls' kws' docs' /\ specified half_of_float x docs o (records x docs) b (records x' docs').
Proof.
  intros Hhalf Htf H Ha. destruct o as [key roles boost hits ks|leaf key|key r|].
  - by apply (add_refined half_of_float float_of_half one_plus_log applyExpression tfBoost indeterminate t Hhalf Htf x ls kws).
  - by apply (delete_refined half_of_float float_of_half one_plus_log applyExpression tfBoost indeterminate t x ls kws).
  - by apply (recover_refined half_of_float float_of_half one_plus_log applyExpression tfBoost indeterminate t x ls kws).
  - by apply (merge_refined half_of_float float_of_half one_plus_log applyExpression tfBoost indeterminate t Hhalf x ls kws).
Qed.

(** (C6) What readers see after a merge: the merge succeeds and keeps the map of records;
    the read views of the inverted index give lists and keywords that, with the forward
    lists, are an index whose sides agree ([PlanIndex.index_ok], which the search with
    plans needs); its valid records are those with a primary key; and the keywords given
    to the trie as empty are those of the merged lists that are left without a record. *)
Theorem merged_index_agrees (half_of_float : float -> Z) (float_of_half : Z -> float) (one_plus_log : float -> float)
    (applyExpression : float -> float -> float -> float) (t : PositionIndexType) (x : IndexData) (ls : list list_abs) (kws : list Z) (docs : list document) :
  (forall z, is_uint 16 (half_of_float z)) -> (forall a b c, ForwardList.half_ge0 (half_of_float (applyExpression a b c)) = true) ->
  consistent half_of_float applyExpression t x ls kws docs -> mergeRequired x = true -> Forall (fun a => Z.of_nat (length (la_all a)) + 1 < 2 ^ 30) ls ->
  exists emptyLeafNodeIds x' ls' docs',
    IndexRecords.merge half_of_float float_of_half one_plus_log applyExpression x = Ok (Some emptyLeafNodeIds, x') /\
    records x' docs' = records x docs /\
    reads_as (invertedIndex x') (query_index t x' ls' kws) /\ PlanIndex.index_ok (query_index t x' ls' kws) (entries docs') /\
    (forall r, PlanIndex.is_valid (query_index t x' ls' kws) r = true <-> exists key, externalToInternalRecordIdMap x' !! key = Some r) /\
    forall w, w ∈ emptyLeafNodeIds <-> exists l a', (Z.of_nat l, w) ∈ set_of x /\ ls' !! l = Some a' /\ la_pub a' = [].
Proof.
  intros Hhalf Hge H Hreq Hn.
  destruct (merge_index_run half_of_float float_of_half one_plus_log applyExpression Hhalf t x ls kws docs H Hreq Hn)
    as (x' & ls' & docs' & Erun & Hc & Hsh & Hfix & Emap & Eset & _ & Hm).
  eexists _, x', ls', docs'. split; [exact Erun|]. split; [by apply records_fixed|]. split; [by apply shown_reads|]. split; [|split].
  - apply (query_ok half_of_float applyExpression t Hge x' ls' kws docs' Hc). apply Forall_lookup. intros l a Ha.
    destruct (la_news a) as [|r news] eqn:En; [done|]. pose proof (cn_dirty _ _ _ _ _ _ _ Hc l a Ha ltac:(by rewrite En)) as Hd. rewrite Eset in Hd. by apply elem_of_nil in Hd.
  - intros r. rewrite (query_valid half_of_float applyExpression t x' ls' kws docs' r Hc). split.
    + intros (d & Hd). by apply (cn_named _ _ _ _ _ _ _ Hc r d).
    + intros (key & Hk). by apply (cn_live _ _ _ _ _ _ _ Hc key r).
  - intros w. eapply emptied_elem; [apply H|exact Hm|apply H].
Qed.

(** ** Examples *)

(** A record with two keywords, whose lists are new. *)
Definition ex_ks : list (Z * (list Z * Z)) := [(40, ([97; 98], 0)); (70000, ([98], 1))].
Abbreviation ex_expression := (fun _ _ _ : float => PlanOperators.f_zero).
Abbreviation ex_half := (fun _ : float => 0).
Abbreviation ex_float := InvertedList.f_of_unsigned.
Definition ex_key : list Z := [107].
Definition ex_leaf (w : Z) : option (Z * Z) := if w =? 40 then Some (0, 40) else Some (1, 70000).
Abbreviation ex_perform := (perform ex_half ex_float (fun x => x) ex_expression ForwardRoundtrip.ex_boost (fun _ => 0) ForwardList.POSITION_INDEX_FULL).
Definition ex_add : index_op := Add ex_key [] PlanOperators.f_zero ForwardRoundtrip.ex_map ex_ks.

Lemma ex_half16 : forall z : float, is_uint 16 (ex_half z).
Proof. done. Qed.
Lemma ex_boost16 tf h : is_uint 16 (ForwardRoundtrip.ex_boost tf h).
Proof. unfold ForwardRoundtrip.ex_boost. by apply wrap_bounds. Qed.

Lemma ex_index_analyzed : Forall2 (ForwardRoundtrip.analyzed ForwardRoundtrip.ex_map) ex_ks ForwardRoundtrip.ex_ls.
Proof. repeat constructor; cbn; try done; repeat first [apply List.Forall_nil | apply List.Forall_cons]; unfold is_uint; try lia. Qed.

Lemma ex_addable : addable ForwardList.POSITION_INDEX_FULL [] [] ForwardRoundtrip.ex_map ex_ks ForwardRoundtrip.ex_ls [40; 70000].
Proof.
  constructor.
  - exact ex_index_analyzed.
  - exact ForwardRoundtrip.ex_grouped.
  - apply ForwardRoundtrip.ex_size.
  - vm_compute. reflexivity.
  - repeat apply List.Forall_cons; try apply List.Forall_nil; unfold is_uint; cbn; lia.
  - repeat constructor; cbn; lia.
  - reflexivity.
  - repeat constructor; cbn; lia.
  - reflexivity.
  - cbn. lia.
  - constructor.
Qed.

(** The record is added to the empty index. *)
Lemma index_refines_witness : exists x' ls' kws' docs', ex_perform ex_add empty_index = Ok (true, x') /\
  consistent ex_half ex_expression ForwardList.POSITION_INDEX_FULL x' ls' kws' docs' /\ exists occ, records x' docs' = {[ex_key := ([40; 70000], occ, 0)]}.
Proof.
  destruct (index_refines ex_half ex_float (fun x => x) ex_expression ForwardRoundtrip.ex_boost (fun _ => 0) ForwardList.POSITION_INDEX_FULL empty_index [] [] [] ex_add)
    as (b & x' & ls' & kws' & docs' & E & Hc & Hb & occ & _ & HR).
  - exact ex_half16.
  - exact ex_boost16.
  - apply empty_consistent.
  - split; [discriminate|]. intros _. exists ForwardRoundtrip.ex_ls, [40; 70000]. exact ex_addable.
  - subst b. exists x', ls', kws', docs'. split; [exact E|]. split; [exact Hc|]. exists occ. exact HR.
Defined.

(** The merge that publishes it. *)
Lemma ex_added : exists x' ls' d, ex_perform ex_add empty_index = Ok (true, x') /\
  consistent ex_half ex_expression ForwardList.POSITION_INDEX_FULL x' ls' [40; 70000] [d] /\ mergeRequired x' = true /\
  Forall (fun a => Z.of_nat (length (la_all a)) + 1 < 2 ^ 30) ls' /\
  externalToInternalRecordIdMap x' !! ex_key = Some 0 /\ d_valid d = true /\ c_ids (d_contents d) = [40; 70000].
Proof.
  pose proof (empty_consistent ex_half ex_expression ForwardList.POSITION_INDEX_FULL) as H0.
  destruct (addRecord_run ex_half ex_float (fun x => x) ex_expression ex_half16 ForwardRoundtrip.ex_boost (fun _ => 0) ForwardList.POSITION_INDEX_FULL ex_boost16
    empty_index [] [] [] ex_key [] PlanOperators.f_zero ForwardRoundtrip.ex_map ex_ks ForwardRoundtrip.ex_ls [40; 70000] H0 ex_addable eq_refl)
    as (x' & ls2 & ls' & p & d & Erun & Edir & Hpv & Hdv & Hw & Hc & Hids & _ & _ & Emap & Edel & Hfl & Hidx & (new & -> & Hnew) & Hlen & Hg & Eset).
  exists x', ls', d. split; [exact Erun|]. split; [|split; [|split; [|split; [|split; [exact Hdv|exact Hids]]]]].
  - change [d] with ([] ++ [d]). eapply (added_consistent ex_half ex_expression ForwardList.POSITION_INDEX_FULL empty_index x' [] new ls' [] [40; 70000] [] ex_key ex_ks p d H0); done.
  - assert (match ex_perform ex_add empty_index with Ok (_, x) => mergeRequired x | Err _ => false end = true) as Hm by (vm_compute; reflexivity).
    change (ex_perform ex_add empty_index = Ok (true, x')) in Erun. by rewrite Erun in Hm.
  - apply Forall_lookup. intros l a' Hl.
    destruct (grown_lists _ _ _ _ _ [] [40; 70000] l a' Hnew Hg eq_refl eq_refl Hl) as (a & _ & E1 & E2 & [[F1 F2]|[Hl' _]]); [|done].
    unfold la_all. rewrite E1, E2, F1, F2. cbn [app length]. unfold added. rewrite length_map.
    pose proof (List.filter_length_le (fun k : Z * nat => Nat.eqb k.2 l) (keywords_of ex_ks)) as Hf. change (length (keywords_of ex_ks)) with 2%nat in Hf. cbn in Hf |- *. lia.
  - rewrite Emap. apply lookup_insert_eq.
Qed.

Lemma merged_index_agrees_witness : exists x kws, ex_perform ex_add empty_index = Ok (true, x) /\ exists emptyLeafNodeIds x' ls' docs',
  IndexRecords.merge ex_half ex_float (fun x => x) ex_expression x = Ok (Some emptyLeafNodeIds, x') /\
  PlanIndex.index_ok (query_index ForwardList.POSITION_INDEX_FULL x' ls' kws) (entries docs').
Proof.
  destruct ex_added as (x & ls & d & E & Hc & Hm & Hn & _).
  destruct (merged_index_agrees ex_half ex_float (fun x => x) ex_expression ForwardList.POSITION_INDEX_FULL x ls [40; 70000] [d])
    as (e & x' & ls' & docs' & E' & _ & _ & Hok & _).
  - exact ex_half16.
  - intros a b c. reflexivity.
  - exact Hc.
  - exact Hm.
  - exact Hn.
  - exists x, [40; 70000]. split; [exact E|]. exists e, x', ls', docs'. split; [exact E'|exact Hok].
Defined.
End IndexSearch.
