(* ===== verification/IndexRecovery.v ===== *)
(** * Recovery after a merge (core/index/ForwardIndex.cpp, core/operation/IndexData.cpp)

    A merge frees the forward lists of the deleted records and leaves NULL in their
    entries; the merge of the inverted lists does not touch these entries, so that a
    later recovery of such a record finds NULL. *)
From S2P Require Import Prelude CowVector ForwardList ForwardRoundtrip ForwardScores PlanOperators InvertedList InvertedMerge InvertedHistory InvertedIndex InvertedUpdate IndexRecords IndexHistory IndexSearch.
From Stdlib Require Import ZArith Lia List Bool SpecFloat.
From stdpp Require Import base gmap list fin_maps sets.
Open Scope Z_scope.

Module IndexRecovery.
Import ForwardList(PositionIndexType).
Import InvertedList(ForwardListPtr, mk_flp, fp_list, fp_valid).
Import InvertedMerge InvertedHistory InvertedUpdate IndexRecords IndexHistory IndexSearch.
Import PlanOperators(float).
Import ForwardScores(c_ids).

(** ** The entries of deleted records *)

(** The entries of [d] that are not valid are those of [d']. *)
Definition keeps_invalid (d d' : list ForwardListPtr) : Prop := forall (i : nat) p, d !! i = Some p -> fp_valid p = false -> d' !! i = Some p.

Lemma invalid_trans d1 d2 d3 : keeps_invalid d1 d2 -> keeps_invalid d2 d3 -> keeps_invalid d1 d3.
Proof. intros H1 H2 i p Hi Hv. apply H2; [by apply H1|done]. Qed.

Section Kept.
Variables (half_of_float : float -> Z) (float_of_half : Z -> float) (one_plus_log : float -> float) (applyExpression : float -> float -> float -> float).
Abbreviation merge_step := (InvertedList.merge_step half_of_float float_of_half one_plus_log applyExpression).
Abbreviation sortAndMerge := (InvertedList.sortAndMerge half_of_float float_of_half one_plus_log applyExpression).

Lemma step_keeps_invalid w total n m b d e k i r d' e' k' : merge_step w total n m b (d, e, k) i r = Ok (d', e', k') -> keeps_invalid d d'.
Proof.
  unfold InvertedList.merge_step, InvertedList.getForwardList. destruct (vec_at d r) as [p|] eqn:Ep; [|by intros [= -> _ _] ? ?]. destruct (fp_valid p) eqn:Ev; [|by intros [= -> _ _] ? ?].
  apply vec_at_nth in Ep as [H0 Hp]. intros H. apply rbind_Ok in H as ([fl boost] & _ & H). apply rbind_Ok in H as (o & _ & H). apply rbind_Ok in H as (o' & _ & H).
  apply rbind_Ok in H as (tf & _ & H). apply rbind_Ok in H as (fl' & _ & H). apply rbind_Ok in H as (d2 & Hs & [= <- _ _]). apply vec_set_Ok in Hs as [_ ->].
  intros j q Hj Hq. rewrite list_lookup_insert_ne; [done|]. intros E. rewrite <- E, Hp in Hj. congruence.
Qed.

Lemma loop_keeps w total n m b records : forall d e k i d' e' k',
  ForwardList.fold_index records i (merge_step w total n m b) (d, e, k) = Ok (d', e', k') -> keeps_invalid d d'.
Proof.
  induction records as [|r records IH]; intros d e k i d' e' k' H; cbn [ForwardList.fold_index] in H; [injection H as <- _ _; by intros ? ?|].
  apply rbind_Ok in H as ([[d1 e1] k1] & H1%step_keeps_invalid & H%IH). by eapply invalid_trans.
Qed.

Lemma sortAndMerge_keeps w total d s n d' s' : sortAndMerge w total d s = Ok ((n, d'), s') -> keeps_invalid d d'.
Proof.
  unfold InvertedList.sortAndMerge. intros H. do 4 apply bind_Ok in H as (? & ? & _ & H). apply bind_Ok in H as ([] & ? & _ & H). apply bind_Ok in H as (records & ? & _ & H).
  apply bind_Ok in H as ([[d1 e1] k1] & s1 & Hl & H). apply lift_Ok in Hl as [Hl _]. unfold InvertedList.merge_loop in Hl. apply loop_keeps in Hl.
  destruct (bool_decide _).
  - apply bind_Ok in H as ([] & ? & _ & H). apply bind_Ok in H as (? & ? & _ & H). injection H as _ <- _. exact Hl.
  - do 2 apply bind_Ok in H as (? & ? & _ & H). do 4 apply bind_Ok in H as ([] & ? & _ & H). apply bind_Ok in H as (? & ? & _ & H). injection H as _ <- _. exact Hl.
Qed.

Lemma merge_lists_keeps total l : forall d e s d' e' s',
  InvertedIndex.merge_lists half_of_float float_of_half one_plus_log applyExpression total d e l s = Ok ((d', e'), s') -> keeps_invalid d d'.
Proof.
  induction l as [|[z w] l IH]; intros d e s d' e' s' H; cbn [InvertedIndex.merge_lists] in H; [injection H as <- _ _; by intros ? ?|].
  apply bind_Ok in H as (? & ? & _ & H). apply bind_Ok in H as ([] & ? & _ & H). do 2 apply bind_Ok in H as (? & ? & _ & H). apply bind_Ok in H as ([n d1] & s1 & Hm & H%IH).
  unfold InvertedIndex.on_container in Hm. apply rbind_Ok in Hm as (c & _ & Hm). apply rbind_Ok in Hm as ([[n1 d2] c1] & Hm%sortAndMerge_keeps & Hc). apply rbind_Ok in Hc as (cs & _ & [= _ <- _]).
  by eapply invalid_trans.
Qed.

Lemma merge_keeps total d i d' e i' : InvertedIndex.merge half_of_float float_of_half one_plus_log applyExpression total d i = Ok ((d', e), i') -> keeps_invalid d d'.
Proof.
  unfold InvertedIndex.merge. intros H. do 2 apply bind_Ok in H as ([] & ? & _ & H). apply bind_Ok in H as (? & ? & _ & H). apply bind_Ok in H as ([d1 e1] & s1 & Hm%merge_lists_keeps & H).
  apply bind_Ok in H as ([] & ? & _ & H). injection H as <- _ _. exact Hm.
Qed.

(** ** What the merge frees *)

Definition freed (d : list ForwardListPtr) (r : Z) : Prop := 0 <= r /\ d !! Z.to_nat r = Some (mk_flp None false).

Lemma free_list_run r d d' : free_list r d = Ok d' -> freed d' r /\ forall r', freed d r' -> freed d' r'.
Proof.
  unfold free_list. intros H. apply rbind_Ok in H as (p & Hp & H). apply vec_at_nth in Hp as [H0 Hp]. destruct (fp_valid p) eqn:Ev; [done|]. destruct (fp_list p) eqn:El; [|done].
  apply vec_set_Ok in H as [_ ->]. split; [split; [done|apply list_lookup_insert_eq; by eapply lookup_lt_Some]|]. intros r' [H0' Hr']. split; [done|].
  rewrite list_lookup_insert_ne; [done|]. intros E. rewrite <- E, Hp in Hr'. by injection Hr' as ->.
Qed.

Lemma free_all_run ids : forall x x', for_each ids (fun r => on_directory (free_list r)) x = Ok (tt, x') ->
  (forall r, r ∈ ids -> freed (forwardListDirectory x') r) /\ (forall r, freed (forwardListDirectory x) r -> freed (forwardListDirectory x') r).
Proof.
  induction ids as [|r ids IH]; intros x x' H; cbn [for_each] in H.
  - injection H as <-. split; [by intros r Hr%elem_of_nil|done].
  - apply bind_Ok in H as ([] & x1 & H1 & H). destruct (IH _ _ H) as [IH1 IH2]. unfold on_directory in H1. apply bind_Ok in H1 as (d & ? & Hd & H1). injection Hd as <- <-.
    apply bind_Ok in H1 as (d1 & ? & Hl & H1). apply lift_Ok in Hl as [Hl ->]. injection H1 as <-. destruct (free_list_run _ _ _ Hl) as [F1 F2]. split.
    + intros r' [->|Hr']%elem_of_cons; [by apply IH2|by apply IH1].
    + intros r' Hr'. by apply IH2, F2.
Qed.

Lemma merge_frees x e x' r : IndexRecords.merge half_of_float float_of_half one_plus_log applyExpression x = Ok (Some e, x') ->
  r ∈ deletedRecordInternalIds x -> freed (forwardListDirectory x') r.
Proof.
  unfold IndexRecords.merge. intros H Hr. apply bind_Ok in H as (b & ? & Hb & H). injection Hb as <- <-. destruct (negb _); [done|].
  apply bind_Ok in H as (del & ? & Hdel & H). injection Hdel as <- <-. rewrite bool_decide_eq_false_2 in H by (intros E; rewrite E in Hr; by apply not_elem_of_empty in Hr).
  apply bind_Ok in H as ([] & x1 & Hf & H). apply bind_Ok in H as (n & ? & Hn & H). injection Hn as <- <-. apply bind_Ok in H as (d & ? & Hd & H). injection Hd as <- <-.
  unfold freeSpaceOfDeletedRecords in Hf. apply bind_Ok in Hf as (ids & ? & Hi & Hf). injection Hi as <- <-. apply bind_Ok in Hf as ([] & x2 & Hf & Hx1). injection Hx1 as <-.
  destruct (free_all_run _ _ _ Hf) as [Hfr _]. specialize (Hfr r ltac:(by apply elem_of_elements)). cbn [forwardListDirectory set_deleted] in *.
  apply bind_Ok in H as ([d2 e2] & x3 & Hm & H). unfold on_inverted in Hm. cbn [invertedIndex set_deleted] in Hm. destruct (InvertedIndex.merge _ _ _ _ _ _ _) as [[[d3 e3] v]|] eqn:Em; [|done].
  injection Hm as -> -> <-. apply merge_keeps in Em. apply bind_Ok in H as ([] & x4 & Hx4 & H). injection Hx4 as <-. apply bind_Ok in H as ([] & x5 & Hx5 & H). injection Hx5 as <-. injection H as _ <-.
  destruct Hfr as [H0 Hfr]. split; [done|]. cbn [forwardListDirectory set_mergeRequired set_directory]. by apply Em.
Qed.
End Kept.

(** A deletion asks for a merge. *)
Lemma delete_requires leaf key r x x' : deleteRecord leaf key x = Ok (Some r, x') -> mergeRequired x' = true.
Proof.
  unfold deleteRecord. intros H. apply bind_Ok in H as (o & ? & _ & H). apply bind_Ok in H as ([] & ? & _ & H). apply bind_Ok in H as (b & ? & _ & H).
  destruct o as [r'|]; [|done]. destruct b; [|done]. apply bind_Ok in H as (p & ? & _ & H). apply bind_Ok in H as ([] & y1 & _ & H).
  apply bind_Ok in H as ([] & y2 & Hy2 & H). injection Hy2 as <-. apply bind_Ok in H as ([] & y3 & Hy3 & H). unfold count in Hy3. injection Hy3 as <-. by injection H as _ <-.
Qed.

(** ** Properties *)

(** (C39) A deleted record can be recovered until the next merge, and not after it: in any
    state whose sides agree, deleting a record and recovering it gives back the same map
    of records; with a merge between the two the recovery follows the pointer of the
    record's forward list, which the merge set to NULL. *)
Theorem recover_after_merge_faults (half_of_float : float -> Z) (float_of_half : Z -> float) (one_plus_log : float -> float) (applyExpression : float -> float -> float -> float)
    (tfBoost : Z -> ForwardList.TokenAttributeHits -> Z) (indeterminate : Z -> Z) (t : PositionIndexType) (x : IndexData) (ls : list list_abs) (kws : list Z) (docs : list document)
    (leaf : Z -> option (Z * Z)) (key : list Z) (r : Z) (d : document) :
  (forall z, is_uint 16 (half_of_float z)) -> consistent half_of_float applyExpression t x ls kws docs ->
  externalToInternalRecordIdMap x !! key = Some r -> key <> [] -> doc_at docs r = Some d -> (forall w, w ∈ c_ids (d_contents d) -> finds leaf kws w) ->
  Forall (fun a => Z.of_nat (length (la_all a)) + 1 < 2 ^ 30) ls ->
  let run := perform half_of_float float_of_half one_plus_log applyExpression tfBoost indeterminate t in
  (exists x', (run (Delete leaf key) ;;; run (Recover key r)) x = Ok (true, x') /\ consistent half_of_float applyExpression t x' ls kws docs /\ records x' docs = records x docs) /\
  (run (Delete leaf key) ;;; run Merge ;;; run (Recover key r)) x = Err NullDeref.
Proof.
  intros Hhalf H Hkey Hne Hd Hf Hn run. assert (getInternalRecordIdFromExternalRecordId key x = Some r) as Hget by (by destruct key).
  destruct (deleteRecord_run half_of_float applyExpression t x ls kws docs leaf key r d H Hget Hd Hf) as (p & xs & x1 & Hp & Hxs & Erun & Edir & Emap & Edel & Hfl & Einv).
  pose proof (deleted_consistent half_of_float applyExpression t x x1 ls kws docs key r d p xs H Hkey Hd Hp Hxs Edir Emap Edel Hfl Einv) as H1.
  pose proof (doc_known _ _ _ Hd) as (H0 & Hdl & Hv).
  assert (run (Delete leaf key) x = Ok (true, x1)) as Ed by (cbn [run perform]; by rewrite (bind_run _ _ _ _ _ Erun)).
  assert (externalToInternalRecordIdMap x1 !! key = None) as Hk1 by (rewrite Emap; apply lookup_delete_eq).
  assert (r ∈ deletedRecordInternalIds x1) as Hr1 by (rewrite Edel; by apply elem_of_union_l, elem_of_singleton).
  assert (mergeRequired x1 = true) as Hreq by (by apply (delete_requires leaf key r x)). split; rewrite (bind_run _ _ _ _ _ Ed).
  - destruct (recoverRecord_run half_of_float applyExpression t x1 ls kws _ key r H1 Hne Hk1 Hr1) as (d1 & x2 & Hd1 & Er & Em2 & _ & H2).
    assert (<[Z.to_nat r := marked true d1]> (<[Z.to_nat r := marked false d]> docs) = docs) as Eback.
    { rewrite list_lookup_insert_eq in Hd1 by (by eapply lookup_lt_Some). injection Hd1 as <-. rewrite list_insert_insert_eq. apply list_insert_id. rewrite Hdl. destruct d. cbn in Hv. by subst. }
    rewrite Eback in H2. exists x2. split; [exact Er|]. split; [exact H2|]. unfold records. rewrite Em2, Emap, insert_delete_id by done. done.
  - destruct (merge_index_run half_of_float float_of_half one_plus_log applyExpression Hhalf t x1 ls kws _ H1 Hreq Hn) as (x2 & ls2 & docs2 & Em & _ & _ & _ & Emap2 & _).
    destruct (merge_frees _ _ _ _ _ _ _ r Em Hr1) as [_ Hfr]. cbn [run perform]. rewrite (bind_run _ _ x1 true x2) by (by rewrite (bind_run _ _ _ _ _ Em)).
    assert (recoverRecord key r x2 = Err NullDeref) as ->; [|done]. unfold recoverRecord.
    set (x3 := set_directory (<[Z.to_nat r := mk_flp None true]> (forwardListDirectory x2)) x2).
    set (x4 := set_deleted (deletedRecordInternalIds x2 ∖ {[r]}) (set_map (<[key := r]> (externalToInternalRecordIdMap x2)) x3)).
    rewrite (bind_run _ _ x2 true x4).
    + assert (forwardListDirectory x4 !! Z.to_nat r = Some (mk_flp None true)) as Hp4 by (apply list_lookup_insert_eq; by eapply lookup_lt_Some).
      cbv iota. by rewrite (bind_run _ _ _ _ _ (forCommit_run x4 r _ H0 Hp4)).
    + unfold ForwardIndex_recoverRecord. rewrite (bind_run _ _ x2 None x2) by (unfold reads, getInternalRecordIdFromExternalRecordId; rewrite Emap2, Hk1; by destruct key).
      cbv iota. unfold resetDeleteFlag. by rewrite (bind_run _ _ _ _ _ (set_flag_run x2 r _ true H0 Hfr)).
Qed.

(** The record of the example. *)
Lemma recover_after_merge_faults_witness : exists x, ex_perform ex_add empty_index = Ok (true, x) /\
  (exists x', (ex_perform (Delete ex_leaf ex_key) ;;; ex_perform (Recover ex_key 0)) x = Ok (true, x')) /\
  (ex_perform (Delete ex_leaf ex_key) ;;; ex_perform Merge ;;; ex_perform (Recover ex_key 0)) x = Err NullDeref.
Proof.
  destruct ex_added as (x & ls & d & E & Hc & _ & Hn & Hkey & Hv & Hids).
  destruct (recover_after_merge_faults ex_half ex_float (fun x => x) ex_expression ForwardRoundtrip.ex_boost (fun _ => 0) ForwardList.POSITION_INDEX_FULL x ls [40; 70000] [d] ex_leaf ex_key 0 d)
    as ((x' & E1 & _) & E2).
  - exact ex_half16.
  - exact Hc.
  - exact Hkey.
  - discriminate.
  - change (doc_at [d] 0) with (if d_valid d then Some d else None). by rewrite Hv.
  - intros w Hw. rewrite Hids in Hw. apply elem_of_cons in Hw as [->|Hw]; [exists 0%nat; by split|]. apply list_elem_of_singleton in Hw as ->. exists 1%nat. by split.
  - exact Hn.
  - exists x. split; [exact E|]. split; [exists x'; exact E1|exact E2].
Defined.
End IndexRecovery.
