(* ===== verification/TokenStream.v ===== *)
(** * Tokenizers and filters (core/analyzer/)

    CharSet.cpp, TokenStreamContainer.h, StandardTokenizer.cpp, WhiteSpaceTokenizer.cpp,
    ChineseTokenizer.cpp, LowerCaseFilter.cpp, NonAlphaNumericFilter.cpp, StopFilter.cpp,
    SynonymFilter.cpp and the chains that the analyzers make of them.  A tokenizer and
    the filters behind it share one container; it is one record here with the buffers of
    the filters, of each of which a chain has at most one.  The conversions from and to
    UTF-8 are those of a library, and parameters. *)
From Stdlib Require Import ZArith Lia List Bool.
From stdpp Require Import base gmap list.
From S2P Require Import Prelude Stemmer ForwardList.
Open Scope Z_scope.

Module TokenStream.
Import ForwardList(AnalyzedTokenType, ANALYZED_ORIGINAL_TOKEN, ANALYZED_SYNONYM_TOKEN).

(** ** Characters *)

Inductive CharacterType := OTHER_TYPE | DELIMITER_TYPE | LATIN_TYPE | BOPOMOFO_TYPE | HANZI_TYPE | WHITESPACE.
#[global] Instance CharacterType_eq_dec : EqDecision CharacterType.
Proof. solve_decision. Defined.

Definition within (a b c : Z) : bool := (a <=? c) && (c <=? b).

(** A character is compared with the allowed ones after a cast to [char]. *)
Definition getCharacterType (recordAllowedSpecialCharacters : list Z) (c : Z) : CharacterType :=
  if within 65 90 c || within 97 122 c || within 48 57 c || within 128 591 c ||
     existsb (fun x => x =? wrap8 c) recordAllowedSpecialCharacters then LATIN_TYPE
  else if (c =? 32) || (c =? 9) then WHITESPACE
  else if c <? 128 then DELIMITER_TYPE
  else if within 12549 12588 c then BOPOMOFO_TYPE
  else if within 0xFF21 0xFF3A c || within 0xFF41 0xFF5A c || within 0xFF10 0xFF19 c then LATIN_TYPE
  else if within 0x4E00 0x9FA5 c then HANZI_TYPE
  else if within 0x0021 0x00BB c || within 0x2010 0x2642 c || within 0x3001 0x301E c || within 0xFE30 0xFF63 c then DELIMITER_TYPE
  else OTHER_TYPE.

(** ** The state of a chain *)

Record AnalyzedTermInfo := mk_term {
  t_term : list Z; t_position : Z; t_charOffset : Z; t_charLength : Z; t_type : AnalyzedTokenType }.

Record stream := mk_stream {
  currentToken : list Z;
  completeCharVector : list Z;
  offset : Z;
  currentTokenPosition : Z;
  currentTokenOffset : Z;
  type : AnalyzedTokenType;
  currentTokenLen : Z;
  isPrefix : bool;
  internalTokenBuffer : list (list Z * Z);       (* of NonAlphaNumericFilter *)
  tokenBuffer : list AnalyzedTermInfo;           (* of SynonymFilter *)
  emitBuffer : list AnalyzedTermInfo;
  mCurrentChineseTokens : list (Z * Z) }.        (* of ChineseTokenizer *)

Definition set_token (v : list Z) (s : stream) : stream :=
  mk_stream v (completeCharVector s) (offset s) (currentTokenPosition s) (currentTokenOffset s) (type s) (currentTokenLen s) (isPrefix s) (internalTokenBuffer s) (tokenBuffer s) (emitBuffer s) (mCurrentChineseTokens s).
Definition set_offset (v : Z) (s : stream) : stream :=
  mk_stream (currentToken s) (completeCharVector s) v (currentTokenPosition s) (currentTokenOffset s) (type s) (currentTokenLen s) (isPrefix s) (internalTokenBuffer s) (tokenBuffer s) (emitBuffer s) (mCurrentChineseTokens s).
Definition set_position (v : Z) (s : stream) : stream :=
  mk_stream (currentToken s) (completeCharVector s) (offset s) v (currentTokenOffset s) (type s) (currentTokenLen s) (isPrefix s) (internalTokenBuffer s) (tokenBuffer s) (emitBuffer s) (mCurrentChineseTokens s).
Definition set_tokenOffset (v : Z) (s : stream) : stream :=
  mk_stream (currentToken s) (completeCharVector s) (offset s) (currentTokenPosition s) v (type s) (currentTokenLen s) (isPrefix s) (internalTokenBuffer s) (tokenBuffer s) (emitBuffer s) (mCurrentChineseTokens s).
Definition set_type (v : AnalyzedTokenType) (s : stream) : stream :=
  mk_stream (currentToken s) (completeCharVector s) (offset s) (currentTokenPosition s) (currentTokenOffset s) v (currentTokenLen s) (isPrefix s) (internalTokenBuffer s) (tokenBuffer s) (emitBuffer s) (mCurrentChineseTokens s).
Definition set_len (v : Z) (s : stream) : stream :=
  mk_stream (currentToken s) (completeCharVector s) (offset s) (currentTokenPosition s) (currentTokenOffset s) (type s) v (isPrefix s) (internalTokenBuffer s) (tokenBuffer s) (emitBuffer s) (mCurrentChineseTokens s).
Definition set_internal (v : list (list Z * Z)) (s : stream) : stream :=
  mk_stream (currentToken s) (completeCharVector s) (offset s) (currentTokenPosition s) (currentTokenOffset s) (type s) (currentTokenLen s) (isPrefix s) v (tokenBuffer s) (emitBuffer s) (mCurrentChineseTokens s).
Definition set_buffers (b e : list AnalyzedTermInfo) (s : stream) : stream :=
  mk_stream (currentToken s) (completeCharVector s) (offset s) (currentTokenPosition s) (currentTokenOffset s) (type s) (currentTokenLen s) (isPrefix s) (internalTokenBuffer s) b e (mCurrentChineseTokens s).
Definition set_chinese (v : list (Z * Z)) (s : stream) : stream :=
  mk_stream (currentToken s) (completeCharVector s) (offset s) (currentTokenPosition s) (currentTokenOffset s) (type s) (currentTokenLen s) (isPrefix s) (internalTokenBuffer s) (tokenBuffer s) (emitBuffer s) v.

(** fillInCharacters: the buffers of the filters stay as they are. *)
Definition fillInCharacters (charVector : list Z) (isPrefix : bool) (s : stream) : stream :=
  mk_stream [] charVector 0 0 0 ANALYZED_ORIGINAL_TOKEN (currentTokenLen s) isPrefix (internalTokenBuffer s) (tokenBuffer s) (emitBuffer s) (mCurrentChineseTokens s).

(** clearState along the chain. *)
Definition clearState (s : stream) : stream := set_internal [] (set_buffers [] [] (set_chinese [] s)).

Definition m_push (c : Z) : st stream unit := modify (fun s => set_token (currentToken s ++ [c]) s).
Definition m_position : st stream unit := modify (fun s => set_position (wrap32 (currentTokenPosition s + 1)) s).
Definition m_tokenOffset : st stream unit := modify (fun s => set_tokenOffset (wrap32 (currentTokenOffset s + 1)) s).
Definition m_offset (d : Z) : st stream unit := modify (fun s => set_offset (offset s + d) s).
Definition is_empty {A} (l : list A) : bool := match l with [] => true | _ => false end.
Definition token_empty : st stream bool := reads (fun s => is_empty (currentToken s)).
Definition isEnd : st stream bool := reads (fun s => Z.of_nat (length (completeCharVector s)) <=? offset s).
Definition char_at (i : Z) : st stream Z := let! text := reads completeCharVector in lift (vec_at text i).

(** [while (true)] around a body that says when to return. *)
Fixpoint loop {S A} (fuel : nat) (body : st S (option A)) : st S A :=
  match fuel with
  | O => fail OutOfFuel
  | S fuel' => let! r := body in match r with Some a => ret a | None => loop fuel' body end
  end.

(** ** StandardTokenizer and WhiteSpaceTokenizer *)

(** The token is complete, if there is one. *)
Definition finish : st stream bool :=
  let! e := token_empty in if e then ret false else m_position ;;; ret true.

(** A pass of the loop; [previousChar] of an earlier pass is overwritten whenever there
    is a character before the current one. *)
Definition standard_step (special : list Z) : st stream (option bool) :=
  let! e := isEnd in
  if e then let! b := finish in ret (Some b)
  else
    let! i := reads offset in
    let! currentChar := char_at i in
    let! previousChar := if 0 <=? i - 1 then char_at (i - 1) else ret 32 in
    m_offset 1 ;;;
    let previousCharacterType := getCharacterType special previousChar in
    let currentCharacterType := getCharacterType special currentChar in
    let! e := token_empty in
    match currentCharacterType with
    | WHITESPACE => if negb e then m_position ;;; ret (Some true) else m_tokenOffset ;;; ret None
    | LATIN_TYPE | BOPOMOFO_TYPE | DELIMITER_TYPE =>
        if bool_decide (previousCharacterType = currentCharacterType) then m_push currentChar ;;; ret None
        else if bool_decide (previousCharacterType = DELIMITER_TYPE) || bool_decide (currentCharacterType = DELIMITER_TYPE) then
          m_push currentChar ;;; ret None
        else if negb e then m_offset (-1) ;;; m_position ;;; ret (Some true)
        else m_push currentChar ;;; ret None
    | OTHER_TYPE | HANZI_TYPE =>
        (if negb e then m_offset (-1) else m_push currentChar) ;;;
        let! b := finish in ret (Some b)
    end.

(** Both tokenizers start with an empty token behind the last one. *)
Definition start_token : st stream unit :=
  modify (set_token []) ;;; modify (fun s => set_tokenOffset (wrap32 (offset s + 1)) s).
Definition scan_fuel : st stream nat := reads (fun s => S (length (completeCharVector s))).

Definition StandardTokenizer_incrementToken (special : list Z) : st stream bool :=
  start_token ;;; let! fuel := scan_fuel in loop fuel (standard_step special).

Definition whitespace_step (special : list Z) : st stream (option bool) :=
  let! e := isEnd in
  if negb e then
    let! i := reads offset in
    let! c := char_at i in
    m_offset 1 ;;;
    match getCharacterType special c with
    | WHITESPACE => let! e := token_empty in if negb e then m_position ;;; ret (Some true) else m_tokenOffset ;;; ret None
    | _ => m_push c ;;; ret None
    end
  else let! b := finish in ret (Some b).

Definition WhiteSpaceTokenizer_incrementToken (special : list Z) : st stream bool :=
  start_token ;;; let! fuel := scan_fuel in loop fuel (whitespace_step special).

(** ** ChineseTokenizer *)

Definition UNKNOWN_CHAR_FREQ : Z := 2000.
Definition TOKEN_LENGTH_PENALTY : Z := 150.
(** memset writes the low byte of MAXIMUM_SEQUENCE_SCORE into every byte. *)
Definition memset_score : Z := 0x40404040.
Definition INVALID_WORD_FREQ : Z := -1.

Section Chinese.
(** The frequency of the characters from a place on, and the length of the longest word. *)
Variables (getFreq : list Z -> Z -> Z -> Z) (maxWordLength : Z).

Definition span_step (sentence : list Z) (istart endPosition : Z) (s : list Z * list Z) (spanSize : Z) : result (list Z * list Z) :=
  let '(scoreAtGap, preBestGap) := s in
  let freq := getFreq sentence (istart + endPosition - spanSize) spanSize in
  if (freq =? INVALID_WORD_FREQ) && negb (spanSize =? 1) then Ok s
  else
    let freq := if freq =? INVALID_WORD_FREQ then UNKNOWN_CHAR_FREQ else freq in
    let? before := vec_at scoreAtGap (endPosition - spanSize) in
    let? best := vec_at scoreAtGap endPosition in
    let score := int32 (int32 (freq + before) + TOKEN_LENGTH_PENALTY) in
    if score <? best then
      let? scoreAtGap := vec_set scoreAtGap endPosition score in
      let? preBestGap := vec_set preBestGap endPosition (endPosition - spanSize) in Ok (scoreAtGap, preBestGap)
    else Ok s.

(** The spans that end at a gap: [1 <= spanSize < maxWordLength] and [spanSize <= endPosition]. *)
Definition gap_step (sentence : list Z) (istart : Z) (s : list Z * list Z) (endPosition : Z) : result (list Z * list Z) :=
  fold_res (seqZ 1 (Z.min (maxWordLength - 1) endPosition)) (span_step sentence istart endPosition) s.

(** From the last gap back; the spans are pairs of [short]. *)
Fixpoint backtrack (fuel : nat) (preBestGap : list Z) (istart pos : Z) (tokens : list (Z * Z)) : result (list (Z * Z)) :=
  if pos <=? 0 then Ok tokens
  else
    match fuel with
    | O => Err OutOfFuel
    | S fuel' =>
        let? p := vec_at preBestGap pos in
        if p <? 0 then Err AssertFailed
        else backtrack fuel' preBestGap istart p (tokens ++ [(swrap 16 (istart + p), swrap 16 (istart + pos))])
    end.

Definition tokenize (sentence : list Z) (istart istop : Z) : result (list (Z * Z)) :=
  if istop <=? istart then Ok []
  else
    let size := istop - istart + 1 in
    let n := Z.to_nat size in
    let scoreAtGap := <[O := 0]> (replicate n memset_score) in
    let preBestGap := <[O := 0]> (replicate n (-1)) in
    let? (_, preBestGap) := fold_res (seqZ 1 (size - 1)) (gap_step sentence istart) (scoreAtGap, preBestGap) in
    backtrack n preBestGap istart (size - 1) [].

Definition feedCurrentToken (range : Z * Z) : st stream unit :=
  modify (set_token []) ;;;
  for_each (seqZ range.1 (range.2 - range.1)) (fun i => let! c := char_at i in m_push c).

(** The last of the tokens, which are kept in reverse order. *)
Definition feed_back : st stream bool :=
  let! tokens := reads mCurrentChineseTokens in
  match last tokens with
  | Some range => feedCurrentToken range ;;; modify (set_chinese (removelast tokens)) ;;; ret true
  | None => fail AssertFailed
  end.

Definition chinese_step (special : list Z) : st stream (option unit) :=
  let! e := isEnd in
  if e then ret (Some tt)
  else
    let! i := reads offset in
    let! c := char_at i in
    if negb (bool_decide (getCharacterType special c = HANZI_TYPE)) then ret (Some tt) else m_offset 1 ;;; ret None.
Definition identifyEndOfChineseSequence (special : list Z) : st stream Z :=
  let! fuel := scan_fuel in loop fuel (chinese_step special) ;;; reads offset.

Definition chineseIncrement (special : list Z) (iChineseStart : Z) : st stream bool :=
  let! iChineseStop := identifyEndOfChineseSequence special in
  let! text := reads completeCharVector in
  let! tokens := lift (tokenize text iChineseStart iChineseStop) in
  modify (set_chinese tokens) ;;; feed_back.

Fixpoint nonChineseIncrement (special : list Z) (fuel : nat) (currentType previousType : CharacterType) (currentChar : Z) : st stream bool :=
  match fuel with
  | O => fail OutOfFuel
  | S fuel' =>
      let! e := token_empty in
      let next :=
        let! e := isEnd in
        if e then let! e := token_empty in ret (negb e)
        else
          let! i := reads offset in
          let! c := char_at i in
          m_offset 1 ;;; nonChineseIncrement special fuel' (getCharacterType special c) currentType c in
      match currentType with
      | DELIMITER_TYPE | WHITESPACE => assert_ (negb e) ;;; ret true
      | LATIN_TYPE | BOPOMOFO_TYPE =>
          if e || bool_decide (currentType = previousType) then m_push currentChar ;;; next
          else m_offset (-1) ;;; ret true
      | OTHER_TYPE | HANZI_TYPE =>
          if e then assert_ (negb (bool_decide (currentType = HANZI_TYPE))) ;;; m_push currentChar ;;; ret true
          else m_offset (-1) ;;; ret true
      end
  end.

(** Delimiters and white space are passed over; [None] at the end of the text. *)
Definition skip_step (special : list Z) : st stream (option (option (CharacterType * Z))) :=
  let! e := isEnd in
  if e then ret (Some None)
  else
    let! i := reads offset in
    let! c := char_at i in
    m_offset 1 ;;;
    match getCharacterType special c with
    | DELIMITER_TYPE | WHITESPACE => ret None
    | ty => ret (Some (Some (ty, c)))
    end.

Definition ChineseTokenizer_incrementToken (special : list Z) : st stream bool :=
  modify (set_token []) ;;;
  let! fuel := scan_fuel in
  let! r := loop fuel (skip_step special) in
  match r with
  | None => ret false
  | Some (HANZI_TYPE, _) => let! i := reads offset in chineseIncrement special (i - 1)
  | Some (currentType, currentChar) => nonChineseIncrement special fuel currentType DELIMITER_TYPE currentChar
  end.

Definition ChineseTokenizer_processToken (special : list Z) : st stream bool :=
  let! tokens := reads mCurrentChineseTokens in
  if is_empty tokens then ChineseTokenizer_incrementToken special else feed_back.
End Chinese.

(** ** The filters *)

Definition transformToLowerCase (token : list Z) : list Z :=
  map (fun c => if within 65 90 c then wrap32 (c + 32) else c) token.

(** A character of the loop of NonAlphaNumericFilter: where it is, where the word
    began, the word and the words before. *)
Definition delimiter_step (special : list Z) (origOffset : Z) (s : Z * Z * list Z * list (list Z * Z)) (c : Z) : Z * Z * list Z * list (list Z * Z) :=
  let '(currOffset, offsetOfToken, tempToken, buffer) := s in
  match getCharacterType special c with
  | DELIMITER_TYPE | WHITESPACE =>
      (currOffset + 1, currOffset + 1, [],
        if is_empty tempToken then buffer else buffer ++ [(tempToken, wrap32 (origOffset + offsetOfToken))])
  | _ => (currOffset + 1, offsetOfToken, tempToken ++ [c], buffer)
  end.
Definition split_delimiters (special : list Z) (origOffset : Z) (token : list Z) : list (list Z * Z) :=
  let '(_, offsetOfToken, tempToken, buffer) := fold_left (delimiter_step special origOffset) token (0, 0, [], []) in
  if is_empty tempToken then buffer else buffer ++ [(tempToken, wrap32 (origOffset + offsetOfToken))].

(** The maps of SynonymContainer: the synonyms of a phrase with the flag that it is
    kept, and the prefixes of the phrases. *)
Record SynonymContainer := mk_synonyms { synonymMap : gmap (list Z) (bool * list (list Z)); prefixMap : gset (list Z) }.
Definition getValue (c : SynonymContainer) (str : list Z) : bool * list (list Z) :=
  match synonymMap c !! str with Some v => v | None => (false, []) end.
Definition is_prefix (c : SynonymContainer) (str : list Z) : bool := bool_decide (str ∈ prefixMap c).

(** The terms of a buffer with a space behind each. *)
Definition joined (buffer : list AnalyzedTermInfo) : list Z := concat (map (fun t => t_term t ++ [32]) buffer).
Definition phrase (buffer : list AnalyzedTermInfo) : list Z := removelast (joined buffer).

Definition synonym_infos (synonyms : list (list Z)) (beginPos charOffset charLength : Z) : list AnalyzedTermInfo :=
  imap (fun j w => mk_term w (wrap32 (beginPos + Z.of_nat j)) charOffset charLength ANALYZED_SYNONYM_TOKEN) synonyms.

(** The longest beginning of the buffer, of at most [i] tokens, with synonyms. *)
Fixpoint longest_phrase (c : SynonymContainer) (buffer : list AnalyzedTermInfo) (i : nat) : option (nat * bool * list (list Z)) :=
  match i with
  | O => None
  | S i' =>
      let '(expand, synonyms) := getValue c (phrase (take i buffer)) in
      if is_empty synonyms then longest_phrase c buffer i' else Some (i, expand, synonyms)
  end.

Fixpoint push_synonyms (c : SynonymContainer) (fuel : nat) (buffer emit : list AnalyzedTermInfo) : result (list AnalyzedTermInfo) :=
  match buffer with
  | [] => Ok emit
  | first :: rest =>
      match fuel with
      | O => Err OutOfFuel
      | S fuel' =>
          match longest_phrase c buffer (length buffer) with
          | Some (i, expand, synonyms) =>
              let back := List.last buffer first in
              let charLength := wrap32 (t_charOffset back + t_charLength back - t_charOffset first) in
              push_synonyms c fuel' (drop i buffer)
                (emit ++ (if expand then take i buffer else []) ++ synonym_infos synonyms (t_position first) (t_charOffset first) charLength)
          | None => push_synonyms c fuel' rest (emit ++ [first])
          end
      end
  end.

Definition pushSynonymsOfExistingTokensInEmitBuffer (c : SynonymContainer) : st stream unit :=
  let! buffer := reads tokenBuffer in
  let! emit := reads emitBuffer in
  let! emit := lift (push_synonyms c (length buffer) buffer emit) in
  modify (set_buffers [] emit).

Section Chain.
Variables (utf32to8 utf8to32 : list Z -> list Z).
Variables (getFreq : list Z -> Z -> Z -> Z) (maxWordLength : Z).
(** The stringOffset that the stemmer does not initialise. *)
Variable (garbage : Z).

Definition emitCurrentToken : st stream unit :=
  let! emit := reads emitBuffer in
  match emit with
  | [] => ret tt
  | t :: emit' =>
      modify (set_token (utf8to32 (t_term t))) ;;; modify (set_position (t_position t)) ;;; modify (set_tokenOffset (t_charOffset t)) ;;;
      modify (set_type (t_type t)) ;;; modify (set_len (t_charLength t)) ;;;
      modify (fun s => set_buffers (tokenBuffer s) emit' s)
  end.

Inductive TokenStream :=
  | StandardTokenizer (special : list Z)
  | WhiteSpaceTokenizer (special : list Z)
  | ChineseTokenizer (special : list Z)
  | LowerCaseFilter (tokenStream : TokenStream)
  | NonAlphaNumericFilter (special : list Z) (protectedWords : option (gset (list Z))) (tokenStream : TokenStream)
  | StopFilter (stopWords : gset (list Z)) (tokenStream : TokenStream)
  | SynonymFilter (synonyms : SynonymContainer) (tokenStream : TokenStream)
  | StemmerFilter (dictionaryWords : gset (list Z)) (tokenStream : TokenStream).

Definition isProtectWord (protectedWords : option (gset (list Z))) (w : list Z) : bool :=
  match protectedWords with Some p => bool_decide (w ∈ p) | None => false end.

(** The token of the next word in the buffer. *)
Definition next_word (word : list Z * Z) (rest : list (list Z * Z)) : st stream unit :=
  modify (set_token word.1) ;;; modify (set_tokenOffset word.2) ;;; modify (set_internal rest).

Definition nonalpha_step (special : list Z) (protectedWords : option (gset (list Z))) (up : st stream bool) : st stream (option bool) :=
  let! buffer := reads internalTokenBuffer in
  match buffer with
  | [] =>
      let! more := up in
      if negb more then ret (Some false)
      else
        let! token := reads currentToken in
        if isProtectWord protectedWords (utf32to8 token) then ret (Some true)
        else
          let! origOffset := reads currentTokenOffset in
          match split_delimiters special origOffset token with
          | [] => ret None
          | word :: rest => next_word word rest ;;; ret (Some true)
          end
  | word :: rest => m_position ;;; next_word word rest ;;; ret (Some true)
  end.

Definition stop_step (stopWords : gset (list Z)) (up : st stream bool) : st stream (option bool) :=
  let! more := up in
  if negb more then ret (Some false)
  else
    let! token := reads currentToken in
    let! prefix := reads isPrefix in
    if negb (bool_decide (utf32to8 token ∈ stopWords)) || prefix then ret (Some true) else ret None.

Definition push_emit (l : list AnalyzedTermInfo) : st stream unit := modify (fun s => set_buffers (tokenBuffer s) (emitBuffer s ++ l) s).
Definition push_token (t : AnalyzedTermInfo) : st stream unit := modify (fun s => set_buffers (tokenBuffer s ++ [t]) (emitBuffer s) s).

(** The token that the filter upstream gave, as the filter keeps it. *)
Definition current_info : st stream AnalyzedTermInfo :=
  let! token := reads currentToken in
  let! position := reads currentTokenPosition in
  let! charOffset := reads currentTokenOffset in
  modify (set_type ANALYZED_ORIGINAL_TOKEN) ;;;
  let term := utf32to8 token in
  ret (mk_term term position charOffset (wrap32 (Z.of_nat (length term))) ANALYZED_ORIGINAL_TOKEN).

Definition synonym_step (c : SynonymContainer) (up : st stream bool) : st stream (option bool) :=
  let! emit := reads emitBuffer in
  if negb (is_empty emit) then emitCurrentToken ;;; ret (Some true)
  else
    let! more := up in
    if negb more then
      let! buffer := reads tokenBuffer in
      if is_empty buffer then ret (Some false)
      else pushSynonymsOfExistingTokensInEmitBuffer c ;;; emitCurrentToken ;;; ret (Some true)
    else
      let! currTermInfo := current_info in
      let! buffer := reads tokenBuffer in
      match buffer with
      | [] =>
          if is_prefix c (t_term currTermInfo) then push_token currTermInfo ;;; ret None
          else
            let '(expand, synonyms) := getValue c (t_term currTermInfo) in
            if is_empty synonyms then push_emit [currTermInfo] ;;; emitCurrentToken ;;; ret (Some true)
            else
              push_emit ((if expand then [currTermInfo] else []) ++
                map (fun w => mk_term w (t_position currTermInfo) (t_charOffset currTermInfo) (t_charLength currTermInfo) ANALYZED_SYNONYM_TOKEN) synonyms) ;;;
              emitCurrentToken ;;; ret (Some true)
      | first :: _ =>
          let tokens := joined buffer ++ t_term currTermInfo in
          if is_prefix c tokens then push_token currTermInfo ;;; ret None
          else
            let '(expand, synonyms) := getValue c tokens in
            if is_empty synonyms then
              pushSynonymsOfExistingTokensInEmitBuffer c ;;; push_token currTermInfo ;;; emitCurrentToken ;;; ret (Some true)
            else
              push_emit ((if expand then buffer ++ [currTermInfo] else []) ++
                synonym_infos synonyms (t_position first) (t_charOffset first)
                  (wrap32 (t_charOffset currTermInfo + t_charLength currTermInfo - t_charOffset first))) ;;;
              emitCurrentToken ;;; modify (fun s => set_buffers [] (emitBuffer s) s) ;;; ret (Some true)
      end.

(** Every pass of a loop of a filter takes a token, and a token takes a character of the
    text or an entry of a buffer of the streams before. *)
Definition filter_fuel : st stream nat :=
  reads (fun s => S (length (completeCharVector s) + length (internalTokenBuffer s) + length (mCurrentChineseTokens s))).

Fixpoint processToken (ts : TokenStream) : st stream bool :=
  match ts with
  | StandardTokenizer special => modify (set_type ANALYZED_ORIGINAL_TOKEN) ;;; StandardTokenizer_incrementToken special
  | WhiteSpaceTokenizer special => modify (set_type ANALYZED_ORIGINAL_TOKEN) ;;; WhiteSpaceTokenizer_incrementToken special
  | ChineseTokenizer special => ChineseTokenizer_processToken getFreq maxWordLength special
  | LowerCaseFilter up =>
      let! more := processToken up in
      if more then modify (fun s => set_token (transformToLowerCase (currentToken s)) s) ;;; ret true else ret false
  | NonAlphaNumericFilter special protectedWords up =>
      let! fuel := filter_fuel in loop fuel (nonalpha_step special protectedWords (processToken up))
  | StopFilter stopWords up => let! fuel := filter_fuel in loop fuel (stop_step stopWords (processToken up))
  | SynonymFilter synonyms up => let! fuel := filter_fuel in loop fuel (synonym_step synonyms (processToken up))
  | StemmerFilter dictionaryWords up =>
      let! more := processToken up in
      if more then
        let! token := reads currentToken in
        let! token := lift (Stemmer.processToken garbage dictionaryWords token) in
        modify (set_token token) ;;; ret true
      else ret false
  end.

(** ** The chains of the analyzers *)

Definition with_option {A} (o : option A) (f : A -> TokenStream -> TokenStream) (ts : TokenStream) : TokenStream :=
  match o with Some a => f a ts | None => ts end.

Definition StandardAnalyzer_createOperatorFlow (special : list Z) (protectedWords : option (gset (list Z))) (stopWords : option (gset (list Z)))
    (synonyms : option SynonymContainer) (stemmer : option (gset (list Z))) : TokenStream :=
  with_option stemmer StemmerFilter (with_option synonyms SynonymFilter (with_option stopWords StopFilter
    (NonAlphaNumericFilter special protectedWords (LowerCaseFilter (StandardTokenizer []))))).
Definition SimpleAnalyzer_createOperatorFlow (stopWords : option (gset (list Z))) (synonyms : option SynonymContainer) (stemmer : option (gset (list Z))) : TokenStream :=
  with_option stemmer StemmerFilter (with_option synonyms SynonymFilter (with_option stopWords StopFilter (LowerCaseFilter (WhiteSpaceTokenizer [])))).
Definition ChineseAnalyzer_createOperatorFlow (stopWords : option (gset (list Z))) (synonyms : option SynonymContainer) : TokenStream :=
  with_option synonyms SynonymFilter (with_option stopWords StopFilter (LowerCaseFilter (ChineseTokenizer []))).
End Chain.
End TokenStream.
