(* ===== verification/Analyzer.v ===== *)
(** * Analysis of records and queries (core/analyzer/AnalyzerInternal.cpp)

    tokenizeRecord collects the hits of every token over the values of the attributes,
    which the forward index stores; tokenizeQuery lists the tokens of a query.  The
    maps of synonyms are filled as AnalyzerContainers.cpp does for the sides of a rule. *)
From Stdlib Require Import ZArith Lia List Bool.
From stdpp Require Import base gmap list.
From S2P Require Import Prelude ForwardList TokenStream.
Open Scope Z_scope.

Module Analyzer.
Import TokenStream.
Import ForwardList(AnalyzedTokenType, ANALYZED_ORIGINAL_TOKEN, ANALYZED_SYNONYM_TOKEN, TokenAttributeHits, mk_hits, hits_map,
  attributeIdList, positionsOfTermInAttribute, charOffsetsOfTermInAttribute, charLensOfTermInAttribute, typesOfTermInAttribute).

Definition MULTI_VALUED_ATTRIBUTE_POSITION_BUMP : Z := 100000.
Definition MULTI_VAL_ATTR_DELIMITER_LEN : Z := 4.

Section Analyzer.
Variables (utf32to8 utf8to32 : list Z -> list Z).
(** [boost::algorithm::split] at spaces. *)
Variable (split_spaces : list Z -> list (list Z)).
(** [processToken] of the chain. *)
Variable (processToken : st stream bool).

(** [while (tokenStream->processToken())]: what the body reads of every token. *)
Fixpoint tokens_of {A} (fuel : nat) (read : stream -> A) : st stream (list A) :=
  match fuel with
  | O => fail OutOfFuel
  | S fuel' =>
      let! more := processToken in
      if more then let! t := reads read in let! l := tokens_of fuel' read in ret (t :: l) else ret []
  end.

Definition query_term (s : stream) : list Z * Z := (utf32to8 (currentToken s), currentTokenPosition s).

Definition tokenizeQuery (fuel : nat) (queryString : list Z) (isPrefix : bool) : st stream (list (list Z * Z)) :=
  modify (fillInCharacters (utf8to32 queryString) isPrefix) ;;;
  let! queryKeywords := tokens_of fuel query_term in
  ret (match queryKeywords with [([], _)] => [] | _ => queryKeywords end).

(** The terms that a token of a value stands for. *)
Definition record_terms (valueOffset prevAttrCombinedLen : Z) (s : stream) : list AnalyzedTermInfo :=
  let position i := wrap32 (currentTokenPosition s + i + valueOffset * MULTI_VALUED_ATTRIBUTE_POSITION_BUMP) in
  let charOffset := wrap32 (prevAttrCombinedLen + currentTokenOffset s) in
  match type s with
  | ANALYZED_SYNONYM_TOKEN =>
      imap (fun i w => mk_term w (position (Z.of_nat i)) (if Nat.eqb i 0 then charOffset else 0) (currentTokenLen s) (type s))
        (split_spaces (utf32to8 (currentToken s)))
  | ANALYZED_ORIGINAL_TOKEN => [mk_term (utf32to8 (currentToken s)) (position 0) charOffset (currentTokenLen s) (type s)]
  end.

(** The values of an attribute, one after the other. *)
Fixpoint tokenize_values (fuel : nat) (valueOffset prevAttrCombinedLen : Z) (values : list (list Z)) : st stream (list AnalyzedTermInfo) :=
  match values with
  | [] => ret []
  | attributeValue :: values' =>
      modify (fillInCharacters (utf8to32 attributeValue) false) ;;;
      let! l := tokens_of fuel (record_terms valueOffset prevAttrCombinedLen) in
      let! rest := tokenize_values fuel (valueOffset + 1)
        (wrap32 (prevAttrCombinedLen + Z.of_nat (length attributeValue) + MULTI_VAL_ATTR_DELIMITER_LEN)) values' in
      ret (concat l ++ rest)
  end.

Definition no_hits : TokenAttributeHits := mk_hits [] [] [] [] [].
Definition add_hit (attribute : Z) (m : hits_map) (t : AnalyzedTermInfo) : hits_map :=
  if is_empty (t_term t) then m
  else
    let h := default no_hits (m !! t_term t) in
    <[t_term t := mk_hits (attributeIdList h ++ [attribute]) (positionsOfTermInAttribute h ++ [t_position t])
      (charOffsetsOfTermInAttribute h ++ [t_charOffset t]) (charLensOfTermInAttribute h ++ [t_charLength t]) (typesOfTermInAttribute h ++ [t_type t])]> m.

(** The attributes of the record from one on. *)
Fixpoint tokenize_attributes (fuel : nat) (attribute : Z) (attributes : list (list (list Z))) (m : hits_map) : st stream hits_map :=
  match attributes with
  | [] => ret m
  | values :: attributes' =>
      let! tokens := tokenize_values fuel 0 0 values in
      tokenize_attributes fuel (attribute + 1) attributes' (fold_left (add_hit attribute) tokens m)
  end.

(** The values of the searchable attributes of a record. *)
Definition tokenizeRecord (fuel : nat) (record : list (list (list Z))) : st stream hits_map := tokenize_attributes fuel 0 record ∅.
End Analyzer.

(** ** The maps of synonyms *)

Section Rules.
(** [boost::algorithm::trim] and [tolower] of the characters. *)
Variables (trim tolower : list Z -> list Z).

(** From the last space of the phrase on, the characters are cut, again and again. *)
Fixpoint cut_space (l : list Z) : option (list Z) :=
  match l with
  | [] => None
  | c :: l' => match cut_space l' with Some p => Some (c :: p) | None => if c =? 32 then Some [] else None end
  end.
Fixpoint prefix_tokens (fuel : nat) (prefixToken : list Z) : list (list Z) :=
  match fuel with
  | O => []
  | S fuel' => match cut_space prefixToken with None => [] | Some p => p :: prefix_tokens fuel' p end
  end.

Definition add_synonym (expandFlag : bool) (leftHandSide rightHandSide : list Z) (c : SynonymContainer) : SynonymContainer :=
  if bool_decide (leftHandSide = rightHandSide) then c
  else
    let m := match synonymMap c !! leftHandSide with
      | Some (expand, synonyms) =>
          if bool_decide (rightHandSide ∈ synonyms) then synonymMap c
          else <[leftHandSide := (expand, synonyms ++ [rightHandSide])]> (synonymMap c)
      | None => <[leftHandSide := (expandFlag, [rightHandSide])]> (synonymMap c)
      end in
    mk_synonyms m (list_to_set (prefix_tokens (length leftHandSide) leftHandSide) ∪ prefixMap c).

(** The pairs of the two sides of a line. *)
Definition add_right (expandFlag : bool) (leftHandSide : list Z) (c : SynonymContainer) (r : list Z) : SynonymContainer :=
  let rightHandSide := trim r in
  if is_empty rightHandSide then c else add_synonym expandFlag leftHandSide (tolower rightHandSide) c.
Definition add_left (expandFlag : bool) (rightHandSideTokens : list (list Z)) (c : SynonymContainer) (l : list Z) : SynonymContainer :=
  let leftHandSide := trim l in
  if is_empty leftHandSide then c else fold_left (add_right expandFlag (tolower leftHandSide)) rightHandSideTokens c.
Definition add_rule (expandFlag : bool) (leftHandSideTokens rightHandSideTokens : list (list Z)) (c : SynonymContainer) : SynonymContainer :=
  fold_left (add_left expandFlag rightHandSideTokens) leftHandSideTokens c.
End Rules.
End Analyzer.
