(* ===== verification/AnalyzerWords.v ===== *)
(** * Words of a text

    The reference of the tokenizers: a text falls into groups of characters that stick
    together.  A tokenizer gives the groups that are not white space, one after the
    other, whatever the filters behind it do to the token that they share. *)
From Stdlib Require Import ZArith Lia List Bool.
From stdpp Require Import base gmap list.
From S2P Require Import Prelude ForwardList TokenStream.
Open Scope Z_scope.

Module AnalyzerWords.
Import TokenStream.
Import ForwardList(AnalyzedTokenType, ANALYZED_ORIGINAL_TOKEN).

(** ** Groups *)

(** The groups of adjacent elements that stick together, each with its place. *)
Fixpoint groups_at (sticks : Z -> Z -> bool) (place : Z) (l : list Z) : list (Z * list Z) :=
  match l with
  | [] => []
  | a :: l' =>
      match groups_at sticks (place + 1) l' with
      | (o, b :: g) :: gs => if sticks a b then (place, a :: b :: g) :: gs else (place, [a]) :: (o, b :: g) :: gs
      | gs => (place, [a]) :: gs
      end
  end.

(** Neighbours stick together all along. *)
Fixpoint chain (sticks : Z -> Z -> bool) (l : list Z) : Prop :=
  match l with a :: (b :: _) as l' => sticks a b = true /\ chain sticks l' | _ => True end.

Lemma groups_head sticks l : forall place b, exists g gs, groups_at sticks place (b :: l) = (place, b :: g) :: gs.
Proof.
  induction l as [|c l IH]; intros place b; [by exists [], []|]. destruct (IH (place + 1) c) as (g & gs & E).
  cbn [groups_at] in *. rewrite E. destruct (sticks b c); eauto.
Qed.

Lemma groups_cons sticks place a b l : groups_at sticks place (a :: b :: l) =
  if sticks a b then match groups_at sticks (place + 1) (b :: l) with (_, g) :: gs => (place, a :: g) :: gs | [] => [] end
  else (place, [a]) :: groups_at sticks (place + 1) (b :: l).
Proof. destruct (groups_head sticks l (place + 1) b) as (g & gs & E). cbn [groups_at] in *. by rewrite E. Qed.

(** A group ends where its last character does not stick to the next one. *)
Lemma groups_end sticks g : forall place rest, g <> [] -> chain sticks g ->
  (forall a b, last g = Some a -> head rest = Some b -> sticks a b = false) ->
  groups_at sticks place (g ++ rest) = (place, g) :: groups_at sticks (place + Z.of_nat (length g)) rest.
Proof.
  induction g as [|a g IH]; intros place rest Hne Hc Hend; [done|]. destruct g as [|b g].
  - destruct rest as [|b rest]; [done|]. cbn [app]. rewrite groups_cons, (Hend a b eq_refl eq_refl). done.
  - destruct Hc as [Hs Hc]. cbn [app]. rewrite groups_cons, Hs. change (b :: g ++ rest) with ((b :: g) ++ rest).
    rewrite (IH (place + 1) rest) by (done || exact Hend). f_equal. f_equal. cbn [length]. lia.
Qed.

Lemma chain_snoc sticks l a : chain sticks l -> (forall b, last l = Some b -> sticks b a = true) -> chain sticks (l ++ [a]).
Proof.
  induction l as [|b l IH]; intros Hc Hl; [done|]. destruct l as [|c l].
  - split; [by apply Hl|done].
  - destruct Hc as [H1 H2]. split; [done|]. apply IH; [done|]. exact Hl.
Qed.

Lemma groups_chars sticks l : forall place, concat (map snd (groups_at sticks place l)) = l.
Proof.
  induction l as [|a l IH]; intros place; [done|]. destruct l as [|b l]; [done|]. rewrite groups_cons. specialize (IH (place + 1)).
  destruct (sticks a b).
  - destruct (groups_at sticks (place + 1) (b :: l)) as [|[o g] gs]; [done|]. cbn in *. by rewrite IH.
  - cbn in *. by rewrite IH.
Qed.

Lemma groups_nonempty sticks l : forall place, Forall (fun g => g.2 <> []) (groups_at sticks place l).
Proof.
  induction l as [|a l IH]; intros place; [constructor|]. destruct l as [|b l]; [by repeat constructor|]. rewrite groups_cons. specialize (IH (place + 1)).
  destruct (sticks a b); [|by constructor]. destruct (groups_at sticks (place + 1) (b :: l)) as [|[o g] gs]; [done|].
  apply Forall_cons in IH as [_ IH]. by constructor.
Qed.

(** ** The tokens of a tokenizer *)

(** The types of neighbours in a token of StandardTokenizer. *)
Definition gluing (ty : CharacterType) : bool := match ty with LATIN_TYPE | BOPOMOFO_TYPE | DELIMITER_TYPE => true | _ => false end.
Definition standard_sticks (special : list Z) (a b : Z) : bool :=
  let x := getCharacterType special a in let y := getCharacterType special b in
  gluing x && gluing y && (bool_decide (x = y) || bool_decide (x = DELIMITER_TYPE) || bool_decide (y = DELIMITER_TYPE)).
Definition is_space (special : list Z) (c : Z) : bool := bool_decide (getCharacterType special c = WHITESPACE).
Definition whitespace_sticks (special : list Z) (a b : Z) : bool := negb (is_space special a) && negb (is_space special b).

(** The groups without white space, the place counted from 0. *)
Definition spaceless (special : list Z) (g : Z * list Z) : bool := match g.2 with c :: _ => negb (is_space special c) | [] => false end.
Definition tokens_at (sticks : Z -> Z -> bool) (special : list Z) (place : Z) (l : list Z) : list (Z * list Z) :=
  List.filter (spaceless special) (groups_at sticks place l).

(** A token, the place of its first character from 1, and the number of positions from
    the token before. *)
Record item := mk_item { i_token : list Z; i_offset : Z; i_delta : Z }.
Definition item_of (g : Z * list Z) : item := mk_item g.2 (g.1 + 1) 1.

(** White space sticks to nothing. *)
Definition separates (sticks : Z -> Z -> bool) (special : list Z) : Prop :=
  forall a b, is_space special a || is_space special b = true -> sticks a b = false.

Section Loop.
Variables (special : list Z) (sticks : Z -> Z -> bool) (step : st stream (option bool)).
Hypothesis (Hsep : separates sticks special).

(** The state with another token, offset, position and place of the token. *)
Definition at_token (g : list Z) (off pos place : Z) (s : stream) : stream :=
  set_tokenOffset place (set_position pos (set_offset off (set_token g s))).

Definition last_char (s : stream) (c : Z) : Prop := last (currentToken s) = Some c.

(** What a pass of the loop does: at the end, at white space, at a character that goes
    with the token, and at one that does not. *)
Record scans := {
  sc_end : forall s, Z.of_nat (length (completeCharVector s)) <= offset s ->
    step s = Ok (Some (negb (is_empty (currentToken s))), if is_empty (currentToken s) then s else set_position (wrap32 (currentTokenPosition s + 1)) s);
  sc_space : forall s c, 0 <= offset s -> completeCharVector s !! Z.to_nat (offset s) = Some c -> is_space special c = true ->
    step s = Ok (if is_empty (currentToken s) then None else Some true,
      if is_empty (currentToken s) then set_tokenOffset (wrap32 (currentTokenOffset s + 1)) (set_offset (offset s + 1) s)
      else set_position (wrap32 (currentTokenPosition s + 1)) (set_offset (offset s + 1) s));
  sc_char : forall s c, 0 <= offset s -> completeCharVector s !! Z.to_nat (offset s) = Some c -> is_space special c = false ->
    (forall b, last_char s b -> 0 < offset s /\ completeCharVector s !! Z.to_nat (offset s - 1) = Some b) ->
    (forall b, last_char s b -> sticks b c = true) ->
    (sticks c c = true /\ step s = Ok (None, set_token (currentToken s ++ [c]) (set_offset (offset s + 1) s))) \/
    (currentToken s = [] /\ (forall b, sticks c b = false) /\
      step s = Ok (Some true, set_position (wrap32 (currentTokenPosition s + 1)) (set_token [c] (set_offset (offset s + 1) s))));
  sc_cut : forall s b c, 0 <= offset s -> completeCharVector s !! Z.to_nat (offset s) = Some c -> is_space special c = false -> sticks b b = true ->
    last_char s b -> 0 < offset s -> completeCharVector s !! Z.to_nat (offset s - 1) = Some b -> sticks b c = false ->
    step s = Ok (Some true, set_position (wrap32 (currentTokenPosition s + 1)) s) }.

Lemma tokens_space place c l : is_space special c = true -> tokens_at sticks special place (c :: l) = tokens_at sticks special (place + 1) l.
Proof using Hsep.
  intros Hc. unfold tokens_at. change (c :: l) with ([c] ++ l). rewrite groups_end; [|done|done|].
  - cbn. rewrite Hc. done.
  - intros a b [= <-] _. apply Hsep. by rewrite Hc.
Qed.

Lemma tokens_token place g rest : g <> [] -> chain sticks g -> Forall (fun c => is_space special c = false) g ->
  (forall a b, last g = Some a -> head rest = Some b -> sticks a b = false) ->
  tokens_at sticks special place (g ++ rest) = (place, g) :: tokens_at sticks special (place + Z.of_nat (length g)) rest.
Proof using.
  intros Hne Hc Hs Hend. unfold tokens_at. rewrite groups_end by done. cbn [List.filter].
  destruct g as [|c g]; [done|]. apply Forall_cons in Hs as [Hs _]. cbn [spaceless fst snd]. by rewrite Hs.
Qed.

(** The token so far is in the text before the offset. *)
Record scanning (s : stream) (place : Z) : Prop := {
  sn_offset : 0 <= offset s <= Z.of_nat (length (completeCharVector s));
  sn_small : Z.of_nat (length (completeCharVector s)) < 2 ^ 31;
  sn_place : 0 <= place;
  sn_length : offset s = place + Z.of_nat (length (currentToken s));
  sn_text : drop (Z.to_nat place) (completeCharVector s) = currentToken s ++ drop (Z.to_nat (offset s)) (completeCharVector s);
  sn_chain : chain sticks (currentToken s);
  sn_open : forall b, last_char s b -> sticks b b = true;
  sn_spaceless : Forall (fun c => is_space special c = false) (currentToken s);
  sn_tokenOffset : currentTokenOffset s = place + 1 }.

Lemma rest_cons s place c : scanning s place -> completeCharVector s !! Z.to_nat (offset s) = Some c ->
  drop (Z.to_nat (offset s)) (completeCharVector s) = c :: drop (Z.to_nat (offset s + 1)) (completeCharVector s).
Proof using.
  intros H Hc. pose proof (sn_offset _ _ H). replace (Z.to_nat (offset s + 1)) with (S (Z.to_nat (offset s))) by lia. by apply drop_S.
Qed.

Lemma last_before s place b : scanning s place -> last_char s b -> 0 < offset s /\ completeCharVector s !! Z.to_nat (offset s - 1) = Some b.
Proof using.
  intros H Hb. destruct (proj1 (last_Some _ _) Hb) as [g Eg]. pose proof (sn_length _ _ H) as Hl. pose proof (sn_place _ _ H). rewrite Eg, length_app in Hl. cbn in Hl.
  split; [lia|]. pose proof (f_equal (lookup (length g)) (sn_text _ _ H)) as E. rewrite lookup_drop, Eg, <- app_assoc, lookup_app_r, Nat.sub_diag in E by lia.
  cbn in E. rewrite <- E. f_equal. lia.
Qed.

(** The rest of the text goes on with the token. *)
Lemma scanning_push s place c : scanning s place -> completeCharVector s !! Z.to_nat (offset s) = Some c -> is_space special c = false -> sticks c c = true ->
  (forall b, last_char s b -> sticks b c = true) -> scanning (set_token (currentToken s ++ [c]) (set_offset (offset s + 1) s)) place.
Proof using.
  intros H Hc Hs Hcc Hb. pose proof (lookup_lt_Some _ _ _ Hc). pose proof (rest_cons s place c H Hc) as Er. destruct H. constructor; cbn; try done.
  - lia.
  - rewrite length_app. cbn. lia.
  - by rewrite sn_text0, Er, <- app_assoc.
  - by apply chain_snoc.
  - intros b. unfold last_char. cbn. rewrite last_snoc. congruence.
  - apply Forall_app. by repeat constructor.
Qed.

Lemma loop_tokens : scans -> forall fuel s place, scanning s place -> (Z.of_nat (length (completeCharVector s)) - offset s < Z.of_nat fuel) ->
  match tokens_at sticks special place (drop (Z.to_nat place) (completeCharVector s)) with
  | [] => exists p, loop fuel step s = Ok (false, at_token [] (Z.of_nat (length (completeCharVector s))) (currentTokenPosition s) p s)
  | (p, g) :: rest => exists off, loop fuel step s = Ok (true, at_token g off (wrap32 (currentTokenPosition s + 1)) (p + 1) s) /\
      0 <= off <= Z.of_nat (length (completeCharVector s)) /\
      tokens_at sticks special off (drop (Z.to_nat off) (completeCharVector s)) = rest
  end.
Proof using Hsep.
  intros Hstep. induction fuel as [|fuel IH]; intros s place H Hf; [pose proof (sn_offset _ _ H); lia|].
  pose proof (sn_offset _ _ H) as Ho. pose proof (sn_small _ _ H) as Hsm. pose proof (sn_text _ _ H) as Ht. pose proof (sn_length _ _ H) as Hl. pose proof (sn_place _ _ H) as Hp.
  destruct (Z.le_gt_cases (Z.of_nat (length (completeCharVector s))) (offset s)) as [Hend|Hlt].
  { cbn [loop]. erewrite bind_run by by apply (sc_end Hstep). rewrite Ht, drop_ge, app_nil_r by lia.
    destruct (currentToken s) as [|c g] eqn:Eg; cbn [is_empty negb].
    - cbn. exists (currentTokenOffset s). f_equal. f_equal. rewrite <- (Z.le_antisymm _ _ (proj2 Ho) Hend). unfold at_token. clear - Eg. destruct s; cbn in *. by subst.
    - rewrite <- (app_nil_r (c :: g)). rewrite tokens_token; [|done|rewrite <- Eg; apply H|rewrite <- Eg; apply H|done].
      exists (offset s). split; [|split; [lia|]].
      + f_equal. f_equal. rewrite <- (sn_tokenOffset _ _ H). unfold at_token. destruct s; cbn in *. by rewrite Eg.
      + cbn [length]. rewrite drop_ge by lia. done. }
  destruct (lookup_lt_is_Some_2 (completeCharVector s) (Z.to_nat (offset s)) ltac:(lia)) as [c Hc].
  pose proof (rest_cons s place c H Hc) as Er. rewrite Ht, Er. cbn [loop].
  destruct (is_space special c) eqn:Es.
  { erewrite bind_run by (by eapply (sc_space Hstep); [lia|..]).
    destruct (currentToken s) as [|d g] eqn:Eg; cbn [is_empty app].
    - rewrite tokens_space by done. cbn in Hl.
      assert (scanning (set_tokenOffset (wrap32 (currentTokenOffset s + 1)) (set_offset (offset s + 1) s)) (place + 1)) as H1.
      { rewrite (sn_tokenOffset _ _ H). pose proof (wrap_id 32 (place + 1 + 1) ltac:(unfold is_uint; lia)) as Ew.
        constructor; cbn -[Z.of_nat]; unfold last_char; cbn -[Z.of_nat]; rewrite ?Eg; cbn; try done; try lia. by replace (Z.to_nat (place + 1)) with (Z.to_nat (offset s + 1)) by lia. }
      specialize (IH _ _ H1 ltac:(cbn; lia)). cbn -[Z.of_nat] in IH. replace (Z.to_nat (place + 1)) with (Z.to_nat (offset s + 1)) in IH by lia.
      exact IH.
    - change (d :: g ++ c :: drop (Z.to_nat (offset s + 1)) (completeCharVector s)) with ((d :: g) ++ c :: drop (Z.to_nat (offset s + 1)) (completeCharVector s)).
      rewrite tokens_token; [|done|rewrite <- Eg; apply H|rewrite <- Eg; apply H|intros a b _ [= <-]; apply Hsep; by rewrite Es, orb_true_r].
      rewrite tokens_space by done. exists (offset s + 1). split; [|split; [lia|f_equal; cbn [length] in *; lia]].
      f_equal. f_equal. rewrite <- (sn_tokenOffset _ _ H). unfold at_token. destruct s; cbn in *. by rewrite Eg. }
  destruct (last (currentToken s)) as [b|] eqn:El; [destruct (sticks b c) eqn:Eb|].
  3: assert (currentToken s = []) as Eg by (by apply last_None).
  2: { destruct (last_before s place b H El) as [Hb0 Hb1]. erewrite bind_run by (by eapply (sc_cut Hstep); [lia|done|done|by apply (sn_open _ _ H)|done..]).
    rewrite tokens_token; [|intros Eg; by rewrite Eg in El|apply H|apply H|intros a b' E1 [= <-]; congruence].
    exists (offset s). split; [|split; [lia|rewrite Er; f_equal; lia]].
    f_equal. f_equal. rewrite <- (sn_tokenOffset _ _ H). by destruct s. }
  all: destruct (sc_char Hstep s c) as [[Ecc E]|(Eg' & Hno & E)]; [lia|done|done|intros b' Hb'; by apply (last_before s place)|unfold last_char; congruence|..].
  all: try (rewrite Eg' in El; done).
  - erewrite bind_run by exact E. specialize (IH _ _ (scanning_push s place c H Hc Es Ecc ltac:(unfold last_char; congruence)) ltac:(cbn; lia)).
    cbn -[Z.of_nat] in IH. rewrite Ht, Er in IH. exact IH.
  - erewrite bind_run by exact E. specialize (IH _ _ (scanning_push s place c H Hc Es Ecc ltac:(unfold last_char; congruence)) ltac:(cbn; lia)).
    cbn -[Z.of_nat] in IH. rewrite Ht, Er in IH. exact IH.
  - erewrite bind_run by exact E. rewrite Eg. match goal with |- context [[] ++ c :: ?l] => change ([] ++ c :: l) with ([c] ++ l) end. rewrite (tokens_token place [c]); [|done|done|by repeat constructor|intros a b [= <-] _; apply Hno].
    exists (offset s + 1). rewrite Eg in Hl. cbn in Hl. split; [|split; [lia|f_equal; cbn; lia]].
    f_equal. f_equal. rewrite <- (sn_tokenOffset _ _ H). by destruct s.
Qed.

End Loop.

(** ** Streams of tokens *)

(** What a stream that is read from leaves as it is; one that is [raw] has no buffer of
    words. *)
Record keeps (raw : bool) (s s' : stream) : Prop := {
  ke_text : completeCharVector s' = completeCharVector s;
  ke_prefix : isPrefix s' = isPrefix s;
  ke_len : currentTokenLen s' = currentTokenLen s;
  ke_tokens : tokenBuffer s' = tokenBuffer s;
  ke_emit : emitBuffer s' = emitBuffer s;
  ke_chinese : mCurrentChineseTokens s' = mCurrentChineseTokens s;
  ke_words : raw = true -> internalTokenBuffer s' = internalTokenBuffer s }.

(** What the tokens to come depend on. *)
Record same_source (raw : bool) (s s' : stream) : Prop := {
  ss_text : completeCharVector s' = completeCharVector s;
  ss_offset : offset s' = offset s;
  ss_prefix : isPrefix s' = isPrefix s;
  ss_words : raw = false -> internalTokenBuffer s' = internalTokenBuffer s }.

(** The interface between a stream and the filter behind it: [R] relates a state to the
    tokens to come. *)
Class Upstream (raw : bool) (m : st stream bool) (R : stream -> list item -> Prop) := {
  up_done : forall s, R s [] -> exists s', m s = Ok (false, s') /\ R s' [] /\ keeps raw s s' /\ (raw = false -> internalTokenBuffer s' = []);
  up_next : forall s i l, R s (i :: l) -> exists s', m s = Ok (true, s') /\
    currentToken s' = i_token i /\ currentTokenOffset s' = i_offset i /\
    currentTokenPosition s' = wrap32 (currentTokenPosition s + i_delta i) /\ (type s = ANALYZED_ORIGINAL_TOKEN -> type s' = ANALYZED_ORIGINAL_TOKEN) /\ R s' l /\ keeps raw s s';
  up_source : forall s s' l, same_source raw s s' -> R s l -> R s' l;
  up_size : forall s l, R s l -> (length l <= length (completeCharVector s) + length (internalTokenBuffer s))%nat;
  up_chars : raw = true -> forall s l, R s l ->
    Forall (fun i => i_token i <> []) l /\ (length (concat (map i_token l)) <= length (completeCharVector s))%nat }.

Lemma stream_keeps_trans raw s1 s2 s3 : keeps raw s1 s2 -> keeps raw s2 s3 -> keeps raw s1 s3.
Proof. intros [] []. constructor; try congruence. intros Hr. rewrite ke_words1, ke_words0 by done. done. Qed.

(** A tokenizer at an offset of its text. *)
Definition tokenizing (special : list Z) (sticks : Z -> Z -> bool) (s : stream) (l : list item) : Prop :=
  Z.of_nat (length (completeCharVector s)) < 2 ^ 31 /\ 0 <= offset s <= Z.of_nat (length (completeCharVector s)) /\
  l = map item_of (tokens_at sticks special (offset s) (drop (Z.to_nat (offset s)) (completeCharVector s))).

Lemma tokens_chars special sticks place l : (length (concat (map snd (tokens_at sticks special place l))) <= length l)%nat.
Proof.
  rewrite <- (groups_chars sticks l place) at 2. unfold tokens_at. induction (groups_at sticks place l) as [|g gs IH]; [done|].
  cbn. destruct (spaceless special g); cbn; rewrite !length_app; lia.
Qed.
Lemma tokens_count special sticks place l : (length (tokens_at sticks special place l) <= length l)%nat.
Proof.
  etrans; [|apply (tokens_chars special sticks place l)]. unfold tokens_at.
  pose proof (groups_nonempty sticks l place) as Hn. induction Hn as [|g gs Hg _ IH]; [done|].
  cbn. destruct (spaceless special g); [|done]. cbn. rewrite length_app. destruct g as [o [|c g]]; [done|]. cbn. lia.
Qed.

Lemma tokens_nonempty special sticks place l : Forall (fun g => g.2 <> []) (tokens_at sticks special place l).
Proof.
  pose proof (groups_nonempty sticks l place) as H. unfold tokens_at. induction H as [|g gs Hg _ IH]; [constructor|].
  cbn. destruct (spaceless special g); [by constructor|done].
Qed.

Lemma tokenizer_upstream special sticks step : separates sticks special -> scans special sticks step ->
  Upstream true (modify (set_type ANALYZED_ORIGINAL_TOKEN) ;;; start_token ;;; let! fuel := scan_fuel in loop fuel step) (tokenizing special sticks).
Proof.
  intros Hsep Hscan.
  assert (forall s l, tokenizing special sticks s l ->
    let s1 := set_tokenOffset (wrap32 (offset s + 1)) (set_token [] (set_type ANALYZED_ORIGINAL_TOKEN s)) in
    (modify (set_type ANALYZED_ORIGINAL_TOKEN) ;;; start_token ;;; let! fuel := scan_fuel in loop fuel step) s =
      loop (S (length (completeCharVector s))) step s1 /\ scanning special sticks s1 (offset s)) as Hstart.
  { intros s l (Hs & Ho & _). split; [done|]. assert (wrap32 (offset s + 1) = offset s + 1) as E by (apply wrap_id; unfold is_uint; lia).
    constructor; cbn -[Z.of_nat]; try done; lia. }
  constructor.
  - intros s (Hs & Ho & Hl). destruct (Hstart s [] ltac:(done)) as [-> Hsc]. pose proof (loop_tokens special sticks step Hsep Hscan (S (length (completeCharVector s))) _ _ Hsc ltac:(cbn; lia)) as H.
    cbn -[Z.of_nat loop] in H. symmetry in Hl. apply map_eq_nil in Hl. rewrite Hl in H. destruct H as [p ->]. eexists. split; [done|]. split; [|split; [by constructor|done]].
    split; [done|]. cbn -[Z.of_nat]. split; [lia|]. by rewrite drop_ge by lia.
  - intros s i l (Hs & Ho & Hl). destruct (Hstart s (i :: l) ltac:(done)) as [-> Hsc]. pose proof (loop_tokens special sticks step Hsep Hscan (S (length (completeCharVector s))) _ _ Hsc ltac:(cbn; lia)) as H.
    cbn -[Z.of_nat loop] in H. symmetry in Hl. apply map_eq_cons in Hl as ([p g] & l' & El & <- & <-). rewrite El in H. destruct H as (off & -> & Hoff & Hrest).
    eexists. split; [done|]. do 4 (split; [done|]). split; [|by constructor]. split; [done|]. split; [exact Hoff|]. cbn -[Z.of_nat]. by rewrite Hrest.
  - intros s s' l [E1 E2 _ _]. unfold tokenizing. by rewrite E1, E2.
  - intros s l (_ & _ & ->). rewrite length_map. pose proof (tokens_count special sticks (offset s) (drop (Z.to_nat (offset s)) (completeCharVector s))) as H. rewrite length_drop in H. lia.
  - intros _ s l (_ & _ & ->). split; [apply Forall_map, tokens_nonempty|]. rewrite map_map. pose proof (tokens_chars special sticks (offset s) (drop (Z.to_nat (offset s)) (completeCharVector s))) as H. rewrite length_drop in H.
    change (map (fun x => i_token (item_of x))) with (map (@snd Z (list Z))). lia.
Qed.

Lemma standard_separates special : separates (standard_sticks special) special.
Proof.
  intros a b H. apply orb_true_iff in H. unfold standard_sticks, is_space in *. rewrite !bool_decide_eq_true in H.
  destruct H as [->| ->]; [done|]. by rewrite andb_false_r.
Qed.
Lemma whitespace_separates special : separates (whitespace_sticks special) special.
Proof. intros a b H. unfold whitespace_sticks. by destruct (is_space special a), (is_space special b). Qed.

(** Reading the character at the offset. *)
Lemma char_at_run s i c : 0 <= i -> completeCharVector s !! Z.to_nat i = Some c -> char_at i s = Ok (c, s).
Proof. intros Hi Hc. unfold char_at, bind, reads, lift, vec_at. destruct (Z.ltb_spec i 0); [lia|]. by rewrite Hc. Qed.
Lemma not_end s c : 0 <= offset s -> completeCharVector s !! Z.to_nat (offset s) = Some c -> (Z.of_nat (length (completeCharVector s)) <=? offset s) = false.
Proof. intros Ho Hc. apply lookup_lt_Some in Hc. apply Z.leb_gt. lia. Qed.

Lemma whitespace_scans special : scans special (whitespace_sticks special) (whitespace_step special).
Proof.
  constructor.
  - intros s H. unfold whitespace_step, isEnd, bind, reads. rewrite (proj2 (Z.leb_le _ _) H). cbn. unfold token_empty, bind, reads, finish, m_position.
    by destruct (currentToken s).
  - intros s c Ho Hc Hs. unfold whitespace_step, isEnd. erewrite bind_run by reflexivity. rewrite (not_end s c) by done. cbn [negb].
    erewrite bind_run by reflexivity. erewrite bind_run by by apply char_at_run. erewrite bind_run by reflexivity.
    apply bool_decide_eq_true in Hs. rewrite Hs. unfold token_empty, bind, reads. cbn. by destruct (currentToken s).
  - intros s c Ho Hc Hs _ _. left. unfold whitespace_step, isEnd. erewrite bind_run by reflexivity. rewrite (not_end s c) by done. cbn [negb].
    erewrite bind_run by reflexivity. erewrite bind_run by by apply char_at_run. erewrite bind_run by reflexivity.
    split; [unfold whitespace_sticks; by rewrite Hs|]. apply bool_decide_eq_false in Hs. by destruct (getCharacterType special c).
  - intros s b c Ho Hc Hs Hb. unfold whitespace_sticks in *. rewrite Hs. by destruct (is_space special b).
Qed.

(** A pass of StandardTokenizer at a character. *)
Lemma standard_at special s c : 0 <= offset s -> completeCharVector s !! Z.to_nat (offset s) = Some c -> exists p,
  (0 < offset s -> completeCharVector s !! Z.to_nat (offset s - 1) = Some p) /\
  standard_step special s = (let s1 := set_offset (offset s + 1) s in let e := is_empty (currentToken s) in
    let push := Ok (None, set_token (currentToken s ++ [c]) s1) in
    let back := Ok (Some true, set_position (wrap32 (currentTokenPosition s + 1)) (set_offset (offset s + 1 - 1) s)) in
    match getCharacterType special c with
    | WHITESPACE => if e then Ok (None, set_tokenOffset (wrap32 (currentTokenOffset s + 1)) s1) else Ok (Some true, set_position (wrap32 (currentTokenPosition s + 1)) s1)
    | LATIN_TYPE | BOPOMOFO_TYPE | DELIMITER_TYPE =>
        if bool_decide (getCharacterType special p = getCharacterType special c) || bool_decide (getCharacterType special p = DELIMITER_TYPE) ||
          bool_decide (getCharacterType special c = DELIMITER_TYPE) || e then push else back
    | OTHER_TYPE | HANZI_TYPE => if e then Ok (Some true, set_position (wrap32 (currentTokenPosition s + 1)) (set_token [c] s1)) else back
    end).
Proof.
  intros Ho Hc. assert (exists p, (0 < offset s -> completeCharVector s !! Z.to_nat (offset s - 1) = Some p) /\
    (if 0 <=? offset s - 1 then char_at (offset s - 1) else ret 32) s = Ok (p, s)) as (p & Hp & Ep).
  { destruct (Z.leb_spec 0 (offset s - 1)) as [H|H]; [|exists 32; split; [lia|done]].
    apply lookup_lt_Some in Hc. destruct (lookup_lt_is_Some_2 (completeCharVector s) (Z.to_nat (offset s - 1)) ltac:(lia)) as [p Hp].
    exists p. split; [done|]. by apply char_at_run. }
  exists p. split; [done|]. unfold standard_step, isEnd. erewrite bind_run by reflexivity. rewrite (not_end s c) by done. cbn [negb].
  erewrite bind_run by reflexivity. erewrite bind_run by by apply char_at_run. erewrite bind_run by exact Ep. erewrite bind_run by reflexivity.
  unfold token_empty. erewrite bind_run by reflexivity. clear. unfold bind, reads, finish, token_empty, m_push, m_offset, m_position, m_tokenOffset, modify, ret.
  destruct s as [tok txt off pos tof ty ln pre ib tb eb ch]; cbn. destruct tok as [|d tok]; destruct (getCharacterType special c); cbn; try done;
    destruct (getCharacterType special p); cbn; done.
Qed.

Lemma sticks_itself special c : standard_sticks special c c = gluing (getCharacterType special c).
Proof. unfold standard_sticks. by destruct (getCharacterType special c). Qed.

Lemma standard_scans special : scans special (standard_sticks special) (standard_step special).
Proof.
  constructor.
  - intros s H. unfold standard_step, isEnd, bind, reads. rewrite (proj2 (Z.leb_le _ _) H). cbn. unfold token_empty, bind, reads, finish, m_position.
    by destruct (currentToken s).
  - intros s c Ho Hc Hs. destruct (standard_at special s c Ho Hc) as (p & _ & ->). apply bool_decide_eq_true in Hs. rewrite Hs. by destruct (currentToken s).
  - intros s c Ho Hc Hs Hb Hst. destruct (standard_at special s c Ho Hc) as (p & Hp & ->). apply bool_decide_eq_false in Hs. rewrite sticks_itself. cbn zeta.
    destruct (currentToken s) as [|d g] eqn:Eg; cbn [is_empty].
    + rewrite !orb_true_r. destruct (getCharacterType special c) eqn:Et; try done; try (by left); right; (split; [done|]); (split; [|done]);
        intros b; unfold standard_sticks; by rewrite Et.
    + left. destruct (last (d :: g)) as [b|] eqn:El; [|by apply last_None in El]. unfold last_char in *. rewrite Eg in *. destruct (Hb b El) as [H0 H1].
      assert (p = b) as -> by (specialize (Hp H0); congruence). specialize (Hst b El). unfold standard_sticks in Hst.
      apply andb_true_iff in Hst as [[H2 H3]%andb_true_iff H4]. rewrite orb_false_r, H4. by destruct (getCharacterType special c).
  - intros s b c Ho Hc Hs Hbb Hb Hb0 Hb1 Hno. destruct (standard_at special s c Ho Hc) as (p & Hp & ->). cbn zeta. rewrite sticks_itself in Hbb.
    assert (p = b) as -> by (specialize (Hp Hb0); congruence). unfold last_char in Hb. destruct (currentToken s) as [|d g] eqn:Eg; [done|]. cbn [is_empty].
    rewrite orb_false_r. unfold standard_sticks in Hno. rewrite Hbb in Hno. apply bool_decide_eq_false in Hs. replace (offset s + 1 - 1) with (offset s) by lia.
    replace (set_offset (offset s) s) with s by (by destruct s).
    destruct (getCharacterType special c) eqn:Et; try done; cbn [gluing andb] in Hno; by rewrite Hno.
Qed.
End AnalyzerWords.
