(* ===== verification/AnalyzerFilters.v ===== *)
(** * Filters over a stream of tokens

    Each filter keeps the interface [Upstream]: over a stream with certain tokens to come
    it is a stream whose tokens are computed from them, for LowerCaseFilter, StopFilter,
    StemmerFilter and NonAlphaNumericFilter. *)
From Stdlib Require Import ZArith Lia List Bool.
From stdpp Require Import base gmap list.
From S2P Require Import Prelude Stemmer ForwardList TokenStream AnalyzerWords.
Open Scope Z_scope.

Module AnalyzerFilters.
Import TokenStream AnalyzerWords.
Import ForwardList(AnalyzedTokenType, ANALYZED_ORIGINAL_TOKEN).

(** ** Tokens one by one *)

(** A filter that replaces every token. *)
Section Map.
Variables (raw : bool) (m : st stream bool) (R : stream -> list item -> Prop).
Context `{U : !Upstream raw m R}.
Variables (f : list Z -> list Z) (k : st stream bool) (P : list Z -> Prop).
Hypothesis (Hk : forall s, P (currentToken s) -> k s = Ok (true, set_token (f (currentToken s)) s)).
Hypothesis (Hsize : raw = true -> forall w, P w -> length (f w) = length w).

Definition replaced (i : item) : item := mk_item (f (i_token i)) (i_offset i) (i_delta i).
Definition mapped (s : stream) (l : list item) : Prop :=
  exists l0, R s l0 /\ Forall (fun i => P (i_token i)) l0 /\ l = map replaced l0.

Lemma map_upstream : Upstream raw (let! more := m in if more then k else ret false) mapped.
Proof using U Hk Hsize.
  constructor.
  - intros s (l0 & H & _ & Hl). symmetry in Hl. apply map_eq_nil in Hl as ->. destruct (up_done s H) as (s' & E & H1 & H2 & H3).
    exists s'. rewrite (bind_run _ _ _ _ _ E). split; [done|]. split; [|done]. by exists [].
  - intros s i l (l0 & H & HP & Hl). symmetry in Hl. apply map_eq_cons in Hl as (i0 & l1 & -> & <- & <-). apply Forall_cons in HP as [HP0 HP].
    destruct (up_next s i0 l1 H) as (s' & E & H1 & H2 & H3 & H4 & H5 & H6). rewrite (bind_run _ _ _ _ _ E), Hk by by rewrite H1.
    eexists. split; [done|]. cbn. rewrite H1. do 4 (split; [done|]). split; [|by destruct H6].
    exists l1. split; [|done]. eapply up_source; [|exact H5]. done.
  - intros s s' l H (l0 & H1 & H2). exists l0. split; [|done]. by eapply up_source.
  - intros s l (l0 & H & _ & ->). rewrite length_map. by apply up_size.
  - intros Hr s l (l0 & H & HP & ->). destruct (up_chars Hr s l0 H) as [Hne Hlen]. split.
    + apply Forall_map. eapply Forall_impl; [apply Forall_and; split; [exact Hne|exact HP]|]. cbn. intros i [H1 H2] E.
      pose proof (Hsize Hr _ H2) as Es. rewrite E in Es. by destruct (i_token i).
    + etrans; [|exact Hlen]. clear H Hne Hlen. induction HP as [|i l0 Hi _ IH]; [done|]. cbn. rewrite !length_app, (Hsize Hr _ Hi). lia.
Qed.
End Map.

(** ** NonAlphaNumericFilter *)

Section Words.
Variables (utf32to8 : list Z -> list Z) (special : list Z) (protectedWords : option (gset (list Z))).
Variables (m : st stream bool) (R : stream -> list item -> Prop).
Context `{U : !Upstream true m R}.

Definition word_of (w : list Z * Z) : item := mk_item w.1 w.2 1.

(** The words of the tokens; [d] positions were taken by tokens without a word. *)
Fixpoint words_of (d : Z) (l : list item) : list item :=
  match l with
  | [] => []
  | i :: l' =>
      if isProtectWord protectedWords (utf32to8 (i_token i)) then mk_item (i_token i) (i_offset i) (d + i_delta i) :: words_of 0 l'
      else match split_delimiters special (i_offset i) (i_token i) with
           | [] => words_of (d + i_delta i) l'
           | w :: ws => mk_item w.1 w.2 (d + i_delta i) :: map word_of ws ++ words_of 0 l'
           end
  end.

Definition splitting (s : stream) (l : list item) : Prop :=
  exists l0, R s l0 /\ l = map word_of (internalTokenBuffer s) ++ words_of 0 l0.

Lemma split_count offset token : (length (split_delimiters special offset token) <= length token)%nat.
Proof using.
  unfold split_delimiters.
  assert (forall l a b w buffer, let '(_, o, w', buffer') := fold_left (delimiter_step special offset) l (a, b, w, buffer) in
    (length (if is_empty w' then buffer' else buffer' ++ [(w', wrap32 (offset + o))]) <= length (if is_empty w then buffer else buffer ++ [(w, wrap32 (offset + b))]) + length l)%nat) as H.
  { induction l as [|c l IH]; intros a b w buffer; cbn [fold_left]; [lia|]. unfold delimiter_step at 2.
    destruct (getCharacterType special c);
      match goal with |- context [fold_left _ l (?a', ?b', ?w', ?buf)] => specialize (IH a' b' w' buf); destruct (fold_left (delimiter_step special offset) l (a', b', w', buf)) as [[[x o] w''] buffer''] end;
      destruct w as [|x0 w]; cbn [is_empty app length] in *; rewrite ?length_app in *; cbn [length] in *; lia. }
  specialize (H token 0 0 [] []). destruct (fold_left (delimiter_step special offset) token (0, 0, [], [])) as [[[x o] w] buffer]. cbn in H. exact H.
Qed.

Lemma words_count l : Forall (fun i => i_token i <> []) l -> forall d, (length (words_of d l) <= length (concat (map i_token l)))%nat.
Proof using.
  induction 1 as [|i l Hi _ IH]; intros d; [done|]. cbn [words_of map concat]. rewrite length_app.
  assert (0 < length (i_token i))%nat by (destruct (i_token i); [done|cbn; lia]).
  destruct (isProtectWord protectedWords (utf32to8 (i_token i))); [cbn; specialize (IH 0); lia|].
  pose proof (split_count (i_offset i) (i_token i)) as Hc. destruct (split_delimiters special (i_offset i) (i_token i)) as [|w ws].
  - specialize (IH (d + i_delta i)). lia.
  - cbn. rewrite length_app, length_map. cbn in Hc. specialize (IH 0). lia.
Qed.

Lemma keeps_words s s' : keeps true s s' -> keeps false s s'.
Proof using. intros []. by constructor. Qed.

Abbreviation step := (nonalpha_step utf32to8 special protectedWords m).

Lemma nonalpha_end s s' : internalTokenBuffer s = [] -> m s = Ok (false, s') -> step s = Ok (Some false, s').
Proof using. intros Hb E. unfold nonalpha_step. erewrite bind_run by reflexivity. rewrite Hb. by rewrite (bind_run _ _ _ _ _ E). Qed.

Lemma nonalpha_token s s' : internalTokenBuffer s = [] -> m s = Ok (true, s') -> step s =
  if isProtectWord protectedWords (utf32to8 (currentToken s')) then Ok (Some true, s')
  else match split_delimiters special (currentTokenOffset s') (currentToken s') with
       | [] => Ok (None, s')
       | w :: ws => Ok (Some true, set_internal ws (set_tokenOffset w.2 (set_token w.1 s')))
       end.
Proof using.
  intros Hb E. unfold nonalpha_step. erewrite bind_run by reflexivity. rewrite Hb, (bind_run _ _ _ _ _ E). cbn [negb].
  erewrite bind_run by reflexivity. destruct (isProtectWord _ _); [done|]. erewrite bind_run by reflexivity. by destruct (split_delimiters _ _ _).
Qed.

Lemma nonalpha_loop fuel : forall s l0 d pos0, R s l0 -> internalTokenBuffer s = [] -> wrap32 (currentTokenPosition s) = wrap32 (pos0 + d) -> (length l0 < fuel)%nat ->
  match words_of d l0 with
  | [] => exists s', loop fuel step s = Ok (false, s') /\ splitting s' [] /\ keeps false s s' /\ (false = false -> internalTokenBuffer s' = [])
  | i :: rest => exists s', loop fuel step s = Ok (true, s') /\
      currentToken s' = i_token i /\ currentTokenOffset s' = i_offset i /\ currentTokenPosition s' = wrap32 (pos0 + i_delta i) /\
      (type s = ANALYZED_ORIGINAL_TOKEN -> type s' = ANALYZED_ORIGINAL_TOKEN) /\ splitting s' rest /\ keeps false s s'
  end.
Proof using U.
  induction fuel as [|fuel IH]; intros s l0 d pos0 HR Hb Hp Hf; [lia|]. cbn [loop]. destruct l0 as [|i l0]; cbn [words_of].
  - destruct (up_done s HR) as (s' & E & HR' & Hk & _). exists s'. rewrite (bind_run _ _ _ _ _ (nonalpha_end s s' Hb E)).
    split; [done|]. pose proof (ke_words _ _ _ Hk eq_refl) as Hw. rewrite Hb in Hw. split; [exists []; by rewrite Hw|]. split; [by apply keeps_words|done].
  - destruct (up_next s i l0 HR) as (s' & E & H1 & H2 & H3 & H4 & HR' & Hk). pose proof (ke_words _ _ _ Hk eq_refl) as Hb'. rewrite Hb in Hb'.
    assert (currentTokenPosition s' = wrap32 (pos0 + (d + i_delta i))) as H3' by (rewrite H3, <- wrap_add_l, Hp, wrap_add_l; f_equal; lia).
    pose proof (nonalpha_token s s' Hb E) as Hs. rewrite H1, H2 in Hs. destruct (isProtectWord protectedWords (utf32to8 (i_token i))).
    + rewrite (bind_run _ _ _ _ _ Hs). exists s'. do 5 (split; [done|]). split; [|by apply keeps_words]. exists l0. by rewrite Hb'.
    + destruct (split_delimiters special (i_offset i) (i_token i)) as [|w ws]; rewrite (bind_run _ _ _ _ _ Hs).
      * specialize (IH s' l0 (d + i_delta i) pos0 HR' Hb' ltac:(by rewrite H3', wrap_wrap) ltac:(cbn in Hf; lia)).
        destruct (words_of (d + i_delta i) l0) as [|i' rest].
        -- destruct IH as (s2 & E2 & Hsp & Hk2 & Hw). exists s2. do 2 (split; [done|]). split; [|done]. eapply stream_keeps_trans; [by apply keeps_words|done].
        -- destruct IH as (s2 & E2 & G1 & G2 & G3 & G4 & Hsp & Hk2). exists s2. do 4 (split; [done|]). split; [tauto|]. split; [done|]. eapply stream_keeps_trans; [by apply keeps_words|done].
      * eexists. split; [done|]. cbn. do 4 (split; [done|]). split; [|by destruct Hk].
        exists l0. split; [|done]. eapply up_source; [|exact HR']. done.
Qed.

Lemma nonalpha_upstream :
  Upstream false (let! fuel := filter_fuel in loop fuel step) splitting.
Proof using U.
  assert (forall s l0, R s l0 -> (length l0 <= length (completeCharVector s))%nat) as Hlen.
  { intros s l0 H. destruct (up_chars eq_refl s l0 H) as [Hne Hc]. etrans; [|exact Hc]. clear H Hc. induction Hne as [|i l0 Hi _ IH]; [done|].
    cbn. rewrite length_app. destruct (i_token i); [done|cbn; lia]. }
  assert (forall s l0, R s l0 -> internalTokenBuffer s = [] ->
    let fuel := S (length (completeCharVector s) + length (internalTokenBuffer s) + length (mCurrentChineseTokens s)) in
    (let! fuel := filter_fuel in loop fuel step) s = loop fuel step s /\ wrap32 (currentTokenPosition s) = wrap32 (currentTokenPosition s + 0) /\ (length l0 < fuel)%nat) as Hrun.
  { intros s l0 HR Hb. pose proof (Hlen s l0 HR). split; [done|]. split; [f_equal; lia|]. rewrite Hb. cbn. lia. }
  constructor.
  - intros s (l0 & HR & E). symmetry in E. apply app_eq_nil in E as [E1%map_eq_nil E2]. destruct (Hrun s l0 HR E1) as (-> & Hp & Hf).
    pose proof (nonalpha_loop _ s l0 0 _ HR E1 Hp Hf) as Hl. by rewrite E2 in Hl.
  - intros s i l (l0 & HR & E). destruct (internalTokenBuffer s) as [|w ws] eqn:Eb.
    + destruct (Hrun s l0 HR Eb) as (-> & Hp & Hf). pose proof (nonalpha_loop _ s l0 0 _ HR Eb Hp Hf) as Hl. cbn [map app] in E. by rewrite <- E in Hl.
    + cbn [map app] in E. injection E as -> ->. unfold filter_fuel. erewrite bind_run by reflexivity.
      assert (step s = Ok (Some true, set_internal ws (set_tokenOffset w.2 (set_token w.1 (set_position (wrap32 (currentTokenPosition s + 1)) s))))) as Es.
      { unfold nonalpha_step. erewrite bind_run by reflexivity. by rewrite Eb. }
      cbn [loop]. rewrite (bind_run _ _ _ _ _ Es). eexists. split; [done|]. cbn. do 4 (split; [done|]). split; [|by constructor].
      exists l0. split; [|done]. eapply up_source; [|exact HR]. done.
  - intros s s' l [H1 H2 H3 H4] (l0 & HR & ->). exists l0. rewrite H4 by done. split; [|done]. eapply up_source; [|exact HR]. done.
  - intros s l (l0 & HR & ->). destruct (up_chars eq_refl s l0 HR) as [Hne Hc]. pose proof (words_count l0 Hne 0). rewrite length_app, length_map. lia.
  - done.
Qed.
End Words.
(** A chain without the filter does not use its buffer. *)
Lemma upstream_weaken m R : Upstream true m R -> Upstream false m (fun s l => R s l /\ internalTokenBuffer s = []).
Proof.
  intros U. constructor.
  - intros s [H Hi]. destruct (up_done s H) as (s' & H1 & H2 & H3 & _). pose proof (ke_words _ _ _ H3 eq_refl) as Hw. rewrite Hi in Hw.
    exists s'. split; [done|]. split; [done|]. split; [by apply keeps_words|done].
  - intros s i l [H Hi]. destruct (up_next s i l H) as (s' & H1 & H2 & H3 & H4 & H5 & H6 & H7). pose proof (ke_words _ _ _ H7 eq_refl) as Hw. rewrite Hi in Hw.
    exists s'. do 5 (split; [done|]). split; [done|]. by apply keeps_words.
  - intros s s' l [H1 H2 H3 H4] [H Hi]. split; [by eapply up_source|]. by rewrite H4.
  - intros s l [H _]. by apply up_size.
  - done.
Qed.

(** ** StopFilter *)

Section Stop.
Variables (utf32to8 : list Z -> list Z) (stopWords : gset (list Z)) (m : st stream bool) (R : stream -> list item -> Prop).
Context `{U : !Upstream false m R}.

(** The tokens that are not stop words; a prefix is not looked up. *)
Fixpoint unstopped (prefix : bool) (d : Z) (l : list item) : list item :=
  match l with
  | [] => []
  | i :: l' =>
      if negb (bool_decide (utf32to8 (i_token i) ∈ stopWords)) || prefix then mk_item (i_token i) (i_offset i) (d + i_delta i) :: unstopped prefix 0 l'
      else unstopped prefix (d + i_delta i) l'
  end.
Definition stopping (s : stream) (l : list item) : Prop := exists l0, R s l0 /\ l = unstopped (isPrefix s) 0 l0.

Lemma stop_loop fuel : forall s l0 d pos0, R s l0 -> wrap32 (currentTokenPosition s) = wrap32 (pos0 + d) -> (length l0 < fuel)%nat ->
  match unstopped (isPrefix s) d l0 with
  | [] => exists s', loop fuel (stop_step utf32to8 stopWords m) s = Ok (false, s') /\ stopping s' [] /\ keeps false s s' /\ (false = false -> internalTokenBuffer s' = [])
  | i :: rest => exists s', loop fuel (stop_step utf32to8 stopWords m) s = Ok (true, s') /\
      currentToken s' = i_token i /\ currentTokenOffset s' = i_offset i /\ currentTokenPosition s' = wrap32 (pos0 + i_delta i) /\
      (type s = ANALYZED_ORIGINAL_TOKEN -> type s' = ANALYZED_ORIGINAL_TOKEN) /\ stopping s' rest /\ keeps false s s'
  end.
Proof using U.
  induction fuel as [|fuel IH]; intros s l0 d pos0 HR Hp Hf; [lia|]. cbn [loop]. destruct l0 as [|i l0]; cbn [unstopped].
  - destruct (up_done s HR) as (s' & E & HR' & Hk). exists s'. unfold stop_step at 1. rewrite bind_assoc, (bind_run _ _ _ _ _ E).
    split; [done|]. split; [by exists []|done].
  - destruct (up_next s i l0 HR) as (s' & E & H1 & H2 & H3 & H4 & HR' & Hk).
    assert (currentTokenPosition s' = wrap32 (pos0 + (d + i_delta i))) as H3' by (rewrite H3, <- wrap_add_l, Hp, wrap_add_l; f_equal; lia).
    assert (stop_step utf32to8 stopWords m s = Ok (if negb (bool_decide (utf32to8 (i_token i) ∈ stopWords)) || isPrefix s then Some true else None, s')) as Es.
    { unfold stop_step. rewrite (bind_run _ _ _ _ _ E). cbn [negb]. erewrite bind_run by reflexivity. erewrite bind_run by reflexivity.
      rewrite H1, (ke_prefix _ _ _ Hk). by destruct (_ || _). }
    rewrite (bind_run _ _ _ _ _ Es). destruct (_ || _) eqn:Eb.
    + exists s'. do 5 (split; [done|]). split; [|done]. exists l0. by rewrite (ke_prefix _ _ _ Hk).
    + specialize (IH s' l0 (d + i_delta i) pos0 HR' ltac:(by rewrite H3', wrap_wrap) ltac:(cbn in Hf; lia)). rewrite (ke_prefix _ _ _ Hk) in IH.
      destruct (unstopped (isPrefix s) (d + i_delta i) l0) as [|i' rest].
      * destruct IH as (s2 & E2 & Hsp & Hk2 & Hw). exists s2. do 2 (split; [done|]). split; [by eapply stream_keeps_trans|done].
      * destruct IH as (s2 & E2 & G1 & G2 & G3 & G4 & Hsp & Hk2). exists s2. do 4 (split; [done|]). split; [tauto|]. split; [done|]. by eapply stream_keeps_trans.
Qed.

Lemma unstopped_count prefix l : forall d, (length (unstopped prefix d l) <= length l)%nat.
Proof using. induction l as [|i l IH]; intros d; [done|]. cbn. destruct (_ || _); cbn; [specialize (IH 0)|specialize (IH (d + i_delta i))]; lia. Qed.

Lemma stop_upstream : Upstream false (let! fuel := filter_fuel in loop fuel (stop_step utf32to8 stopWords m)) stopping.
Proof using U.
  assert (forall s l0, R s l0 -> exists fuel, (let! fuel := filter_fuel in loop fuel (stop_step utf32to8 stopWords m)) s = loop fuel (stop_step utf32to8 stopWords m) s /\
    wrap32 (currentTokenPosition s) = wrap32 (currentTokenPosition s + 0) /\ (length l0 < fuel)%nat) as Hrun.
  { intros s l0 HR. pose proof (up_size s l0 HR). eexists. split; [reflexivity|]. split; [f_equal; lia|lia]. }
  constructor.
  - intros s (l0 & HR & E). destruct (Hrun s l0 HR) as (fuel & -> & Hp & Hf). pose proof (stop_loop fuel s l0 0 _ HR Hp Hf) as H. by rewrite <- E in H.
  - intros s i l (l0 & HR & E). destruct (Hrun s l0 HR) as (fuel & -> & Hp & Hf). pose proof (stop_loop fuel s l0 0 _ HR Hp Hf) as H. by rewrite <- E in H.
  - intros s s' l H (l0 & HR & ->). exists l0. split; [by eapply up_source|]. by rewrite (ss_prefix _ _ _ H).
  - intros s l (l0 & HR & ->). pose proof (up_size s l0 HR). pose proof (unstopped_count (isPrefix s) l0 0). lia.
  - done.
Qed.
End Stop.
End AnalyzerFilters.
