(* ===== verification/AnalyzerTexts.v ===== *)
(** * The words of StandardAnalyzer

    Without protected words, the tokens of StandardTokenizer cut at delimiters are the
    groups of a single relation between neighbours, so that the words of a text are
    defined without the tokens in between. *)
From Stdlib Require Import ZArith Lia List Bool.
From stdpp Require Import base gmap list.
From S2P Require Import Prelude ForwardList TokenStream AnalyzerWords AnalyzerFilters.
Open Scope Z_scope.

Module AnalyzerTexts.
Import TokenStream AnalyzerWords AnalyzerFilters.

(** ** Groups of groups *)

Lemma groups_refine s1 s2 l : forall place,
  flat_map (fun g => groups_at s2 g.1 g.2) (groups_at s1 place l) = groups_at (fun a b => s1 a b && s2 a b) place l.
Proof.
  induction l as [|a l IH]; intros place; [done|]. destruct l as [|b l]; [done|]. specialize (IH (place + 1)). rewrite !groups_cons.
  destruct (groups_head s1 l (place + 1) b) as (g & gs & E). rewrite E in *. destruct (s1 a b); cbn [andb].
  - cbn [flat_map fst snd] in *. rewrite groups_cons. destruct (s2 a b).
    + rewrite <- IH. destruct (groups_head s2 g (place + 1) b) as (h & hs & ->). done.
    + by rewrite <- IH.
  - cbn [flat_map fst snd] in *. by rewrite <- IH.
Qed.

Lemma groups_chain sticks l : forall place, Forall (fun g => chain sticks g.2) (groups_at sticks place l).
Proof.
  induction l as [|a l IH]; intros place; [constructor|]. destruct l as [|b l]; [by repeat constructor|]. rewrite groups_cons. specialize (IH (place + 1)).
  destruct (groups_head sticks l (place + 1) b) as (g & gs & E). rewrite E in *. destruct (sticks a b) eqn:Es; [|by constructor].
  apply Forall_cons in IH as [IH1 IH2]. constructor; [|done]. split; [done|exact IH1].
Qed.

Lemma groups_shift sticks l : forall place d, groups_at sticks (place + d) l = map (fun g => (g.1 + d, g.2)) (groups_at sticks place l).
Proof.
  induction l as [|a l IH]; intros place d; [done|]. destruct l as [|b l]; [done|]. rewrite !groups_cons. replace (place + d + 1) with (place + 1 + d) by lia.
  rewrite IH. destruct (groups_head sticks l (place + 1) b) as (g & gs & ->). by destruct (sticks a b).
Qed.

Lemma groups_map sticks (f : Z -> Z) l : (forall a b, sticks (f a) (f b) = sticks a b) -> forall place,
  groups_at sticks place (map f l) = map (fun g => (g.1, map f g.2)) (groups_at sticks place l).
Proof.
  intros Hf. induction l as [|a l IH]; intros place; [done|]. destruct l as [|b l]; [done|]. cbn [map] in *. rewrite !groups_cons, Hf, IH.
  destruct (groups_head sticks l (place + 1) b) as (g & gs & ->). by destruct (sticks a b).
Qed.

(** ** Cutting at delimiters *)

Definition is_word_char (special : list Z) (c : Z) : bool :=
  match getCharacterType special c with DELIMITER_TYPE | WHITESPACE => false | _ => true end.
Definition both (p : Z -> bool) (a b : Z) : bool := p a && p b.
Definition starts (p : Z -> bool) (g : Z * list Z) : bool := match g.2 with c :: _ => p c | [] => false end.

Lemma delimiter_run special offset l : forall i w buffer, Forall (fun c => is_word_char special c = true) w ->
  let '(_, o, w', buffer') := fold_left (delimiter_step special offset) l (i, i - Z.of_nat (length w), w, buffer) in
  (if is_empty w' then buffer' else buffer' ++ [(w', wrap32 (offset + o))]) =
    buffer ++ map (fun g => (g.2, wrap32 (offset + g.1))) (List.filter (starts (is_word_char special)) (groups_at (both (is_word_char special)) (i - Z.of_nat (length w)) (w ++ l))).
Proof.
  assert (forall w, Forall (fun c => is_word_char special c = true) w -> chain (both (is_word_char special)) w) as Hchain.
  { induction 1 as [|a w Ha Hw IH]; [done|]. destruct w as [|b w]; [done|]. split; [|done]. unfold both. rewrite Ha. by apply Forall_cons in Hw as [-> _]. }
  assert (forall w i rest, w <> [] -> Forall (fun c => is_word_char special c = true) w -> (forall b, head rest = Some b -> is_word_char special b = false) ->
    List.filter (starts (is_word_char special)) (groups_at (both (is_word_char special)) i (w ++ rest)) =
      (i, w) :: List.filter (starts (is_word_char special)) (groups_at (both (is_word_char special)) (i + Z.of_nat (length w)) rest)) as Hword.
  { intros w i rest Hne Hw Hr. rewrite groups_end; [|done|by apply Hchain|].
    - cbn. unfold starts at 1. cbn. destruct w as [|c w]; [done|]. apply Forall_cons in Hw as [-> _]. done.
    - intros a b _ Hb. unfold both. by rewrite (Hr b Hb), andb_false_r. }
  induction l as [|c l IH]; intros i w buffer Hw; cbn [fold_left].
  { destruct w as [|c w]; [cbn; by rewrite app_nil_r|]. cbn [is_empty]. by rewrite Hword. }
  assert (forall place, is_word_char special c = false -> List.filter (starts (is_word_char special)) (groups_at (both (is_word_char special)) place (c :: l)) =
    List.filter (starts (is_word_char special)) (groups_at (both (is_word_char special)) (place + 1) l)) as Hdel.
  { intros place Hc. change (c :: l) with ([c] ++ l). rewrite groups_end; [|done|done|].
    - cbn. unfold starts at 1. cbn. by rewrite Hc.
    - intros a b [= <-] _. unfold both. by rewrite Hc. }
  destruct (is_word_char special c) eqn:Ec.
  - replace (delimiter_step special offset (i, i - Z.of_nat (length w), w, buffer) c) with (i + 1, i + 1 - Z.of_nat (length (w ++ [c])), w ++ [c], buffer)
      by (unfold delimiter_step, is_word_char in *; replace (i + 1 - Z.of_nat (length (w ++ [c]))) with (i - Z.of_nat (length w)) by (rewrite length_app; cbn; lia); by destruct (getCharacterType special c)).
    specialize (IH (i + 1) (w ++ [c]) buffer ltac:(apply Forall_app; by repeat constructor)). rewrite <- app_assoc in IH.
    replace (i + 1 - Z.of_nat (length (w ++ [c]))) with (i - Z.of_nat (length w)) in IH |- * by (rewrite length_app; cbn; lia). exact IH.
  - replace (delimiter_step special offset (i, i - Z.of_nat (length w), w, buffer) c) with
      (i + 1, i + 1 - Z.of_nat (length (@nil Z)), @nil Z, if is_empty w then buffer else buffer ++ [(w, wrap32 (offset + (i - Z.of_nat (length w))))])
      by (unfold delimiter_step, is_word_char in *; cbn; rewrite Z.sub_0_r; by destruct (getCharacterType special c)).
    specialize (IH (i + 1) [] (if is_empty w then buffer else buffer ++ [(w, wrap32 (offset + (i - Z.of_nat (length w))))]) ltac:(constructor)).
    destruct (fold_left _ _ _) as [[[x o] w'] buffer']. rewrite IH. cbn [app length]. destruct w as [|d w]; cbn [is_empty app].
    + rewrite Hdel by done. do 5 f_equal. cbn. lia.
    + change (d :: w ++ c :: l) with ((d :: w) ++ c :: l). rewrite Hword by (done || (by intros b [= <-])). rewrite Hdel by done. cbn [map]. rewrite <- app_assoc. cbn [app fst snd].
      do 6 f_equal. cbn. lia.
Qed.

Lemma split_groups special offset token : split_delimiters special offset token =
  map (fun g => (g.2, wrap32 (offset + g.1))) (List.filter (starts (is_word_char special)) (groups_at (both (is_word_char special)) 0 token)).
Proof. unfold split_delimiters. pose proof (delimiter_run special offset token 0 [] [] ltac:(constructor)) as H. cbn in H. destruct (fold_left _ _ _) as [[[x o] w] buffer]. exact H. Qed.

(** ** The words of a text *)

Definition lower (c : Z) : Z := if within 65 90 c then wrap32 (c + 32) else c.

(** Neighbours in a word, and the characters that a word can start with. *)
Definition word_sticks (special : list Z) (a b : Z) : bool := standard_sticks [] a b && both (is_word_char special) a b.
Definition word_starts (special : list Z) (c : Z) : bool := negb (is_space [] c) && is_word_char special c.

(** The words in lower case, with the places of their first characters from 1. *)
Definition standard_words (special : list Z) (text : list Z) : list (Z * list Z) :=
  map (fun g => (g.1 + 1, map lower g.2)) (List.filter (starts (word_starts special)) (groups_at (word_sticks special) 0 text)).

Lemma lower_type special c : getCharacterType special (lower c) = getCharacterType special c.
Proof.
  unfold lower. destruct (within 65 90 c) eqn:E; [|done]. pose proof E as E'. unfold within in E. apply andb_true_iff in E as [H1%Z.leb_le H2%Z.leb_le].
  rewrite wrap_id by (unfold is_uint; lia). unfold getCharacterType. rewrite E'. cbn [orb].
  replace (within 97 122 (c + 32)) with true by (symmetry; unfold within; apply andb_true_iff; rewrite !Z.leb_le; lia). by rewrite !orb_true_r.
Qed.
Lemma lower_word_char special c : is_word_char special (lower c) = is_word_char special c.
Proof. unfold is_word_char. by rewrite lower_type. Qed.

Lemma groups_places sticks l : forall place, Forall (fun g => place <= g.1 /\ g.1 + Z.of_nat (length g.2) <= place + Z.of_nat (length l)) (groups_at sticks place l).
Proof.
  induction l as [|a l IH]; intros place; [constructor|]. destruct l as [|b l]; [repeat constructor; cbn; lia|]. rewrite groups_cons. specialize (IH (place + 1)).
  destruct (groups_head sticks l (place + 1) b) as (g & gs & E). rewrite E in *. apply Forall_cons in IH as [IH1 IH2].
  assert (Forall (fun g => place <= g.1 /\ g.1 + Z.of_nat (length g.2) <= place + Z.of_nat (length (a :: b :: l))) gs) as Hgs.
  { eapply Forall_impl; [exact IH2|]. intros h [H1 H2]. cbn [length] in *. lia. }
  cbn [fst snd length] in *. destruct (sticks a b); constructor; try done; cbn [fst snd length]; [lia|lia|].
  constructor; [cbn [fst snd length]; lia|done].
Qed.

Lemma filter_after_map {A B} (p : B -> bool) (f : A -> B) l : List.filter p (map f l) = map f (List.filter (fun x => p (f x)) l).
Proof. induction l as [|x l IH]; [done|]. cbn. rewrite IH. by destruct (p (f x)). Qed.
Lemma filter_eq {A} (p q : A -> bool) l : Forall (fun x => p x = q x) l -> List.filter p l = List.filter q l.
Proof. induction 1 as [|x l Hx _ IH]; [done|]. cbn. by rewrite Hx, IH. Qed.

Lemma map_eq_on {A B} (f g : A -> B) l : Forall (fun x => f x = g x) l -> map f l = map g l.
Proof. induction 1 as [|x l Hx _ IH]; [done|]. cbn. by rewrite Hx, IH. Qed.

Lemma filter_starts p (h : Z -> Z) (k : list Z -> list Z) l : (forall o o' g, starts p (o, k g) = starts p (o', g)) ->
  List.filter (starts p) (map (fun g => (h g.1, k g.2)) l) = map (fun g => (h g.1, k g.2)) (List.filter (starts p) l).
Proof. intros H. rewrite filter_after_map. f_equal. apply filter_eq, Forall_forall. intros [o g] _. apply H. Qed.

(** The words of a token that stands at a place of the text. *)
Lemma split_lower special (g : Z * list Z) : 0 <= g.1 -> g.1 + Z.of_nat (length g.2) < 2 ^ 31 ->
  map (fun w => (w.2, w.1)) (split_delimiters special (g.1 + 1) (transformToLowerCase g.2)) =
  map (fun h => (h.1 + 1, map lower h.2)) (List.filter (starts (is_word_char special)) (groups_at (both (is_word_char special)) g.1 g.2)).
Proof.
  intros H0 H1. change (transformToLowerCase g.2) with (map lower g.2).
  rewrite split_groups, groups_map by (intros a b; unfold both; by rewrite !lower_word_char).
  rewrite (filter_starts _ (fun o => o) (map lower)) by (intros o o' [|c h]; [done|]; unfold starts; cbn; by rewrite lower_word_char).
  change (groups_at (both (is_word_char special)) g.1 g.2) with (groups_at (both (is_word_char special)) (0 + g.1) g.2). rewrite groups_shift, (filter_starts _ (fun o => o + g.1) (fun h => h)) by done. rewrite !map_map.
  apply map_eq_on. pose proof (groups_places (both (is_word_char special)) g.2 0) as Hp. apply Forall_forall. intros h Hh.
  apply list_elem_of_In, List.filter_In, proj1, list_elem_of_In in Hh. apply (proj1 (Forall_forall _ _) Hp) in Hh as [H2 H3]. cbn [fst snd].
  rewrite wrap_id by (unfold is_uint; lia). f_equal. lia.
Qed.

Lemma words_flat utf32to8 special l : forall d, map (fun i => (i_offset i, i_token i)) (words_of utf32to8 special None d l) =
  flat_map (fun i => map (fun w => (w.2, w.1)) (split_delimiters special (i_offset i) (i_token i))) l.
Proof.
  induction l as [|i l IH]; intros d; [done|]. cbn [words_of flat_map isProtectWord]. destruct (split_delimiters special (i_offset i) (i_token i)) as [|w ws]; [apply IH|].
  cbn [map app]. f_equal. rewrite map_app, IH. f_equal. rewrite map_map. done.
Qed.

(** A group of white space has no word, and in the others no white space is left. *)
Lemma group_words special (g : Z * list Z) : chain (standard_sticks []) g.2 -> g.2 <> [] ->
  List.filter (starts (word_starts special)) (groups_at (both (is_word_char special)) g.1 g.2) =
  if spaceless [] g then List.filter (starts (is_word_char special)) (groups_at (both (is_word_char special)) g.1 g.2) else [].
Proof.
  destruct g as [o g]. cbn [fst snd]. intros Hc Hne. destruct g as [|c g]; [done|]. unfold spaceless. cbn [snd]. destruct (is_space [] c) eqn:Es; cbn [negb].
  - destruct g as [|d g]; [cbn; unfold starts, word_starts; cbn; by rewrite Es|]. destruct Hc as [Hc _].
    rewrite (standard_separates [] c d) in Hc by by rewrite Es. done.
  - assert (Forall (fun c => is_space [] c = false) (c :: g)) as Hall.
    { revert c Hc Es Hne. induction g as [|d g IH]; intros c Hc Es Hne; [by repeat constructor|]. destruct Hc as [Hc Hc']. constructor; [done|].
      apply IH; [done| |done]. destruct (is_space [] d) eqn:Ed; [|done]. rewrite (standard_separates [] c d) in Hc by by rewrite Ed, orb_true_r. done. }
    apply filter_eq. apply Forall_forall. intros [p [|b h]] Hh; [done|]. unfold starts, word_starts. cbn [snd].
    assert (b ∈ c :: g) as Hb.
    { rewrite <- (groups_chars (both (is_word_char special)) (c :: g) o). apply list_elem_of_In. apply in_concat. exists (b :: h). split; [|by left].
      apply in_map_iff. exists (p, b :: h). split; [done|]. by apply list_elem_of_In. }
    by rewrite (proj1 (Forall_forall _ _) Hall b Hb).
Qed.

Lemma words_standard utf32to8 special text d : Z.of_nat (length text) < 2 ^ 31 ->
  map (fun i => (i_offset i, i_token i)) (words_of utf32to8 special None d (map (replaced transformToLowerCase) (map item_of (tokens_at (standard_sticks []) [] 0 text)))) =
  standard_words special text.
Proof.
  intros Hn. rewrite words_flat, map_map. unfold standard_words, tokens_at. unfold word_sticks.
  rewrite <- (groups_refine (standard_sticks []) (both (is_word_char special))).
  pose proof (groups_chain (standard_sticks []) text 0) as Hc. pose proof (groups_nonempty (standard_sticks []) text 0) as Hne.
  pose proof (groups_places (standard_sticks []) text 0) as Hp.
  induction (groups_at (standard_sticks []) 0 text) as [|g gs IH]; [done|].
  apply Forall_cons in Hc as [Hc1 Hc2], Hne as [Hne1 Hne2], Hp as [Hp1 Hp2]. specialize (IH Hc2 Hne2 Hp2).
  cbn [flat_map List.filter]. rewrite List.filter_app, map_app, group_words by done. destruct (spaceless [] g); [|exact IH].
  cbn [map flat_map]. rewrite IH. f_equal. apply split_lower; lia.
Qed.

End AnalyzerTexts.
