(* ===== verification/AnalyzerRecord.v ===== *)
(** * What the analyzer finds (StandardAnalyzer.cpp, AnalyzerInternal.cpp)

    The tokens of a query and of the values of a record are the words of their texts, by
    the chain of StandardAnalyzer without synonyms; what tokenizeRecord collects is what
    the forward index stores and gives back. *)
From Stdlib Require Import String.
From Stdlib Require Import ZArith Lia List Bool.
From stdpp Require Import base gmap list.
From S2P Require Import Prelude Stemmer ForwardList ForwardLayout ForwardRoundtrip TokenStream Analyzer AnalyzerWords AnalyzerFilters AnalyzerTexts.
Open Scope Z_scope.

Module AnalyzerRecord.
Import TokenStream Analyzer AnalyzerWords AnalyzerFilters AnalyzerTexts ForwardLayout ForwardRoundtrip.
Import ForwardList(AnalyzedTokenType, ANALYZED_ORIGINAL_TOKEN).

(** ** Positions *)

Fixpoint positioned (p : Z) (l : list item) : list (item * Z) :=
  match l with [] => [] | i :: l' => let q := wrap32 (p + i_delta i) in (i, q) :: positioned q l' end.

Fixpoint deltas (l : list item) : Z := match l with [] => 0 | i :: l' => i_delta i + deltas l' end.

Lemma positioned_items p l : map fst (positioned p l) = l.
Proof. revert p. induction l as [|i l IH]; intros p; [done|]. cbn. by rewrite IH. Qed.

(** Positions grow strictly and stay below the sum of the distances. *)
Lemma positioned_sorted l : forall p, 0 <= p -> Forall (fun i => 1 <= i_delta i) l -> p + deltas l < 2 ^ 32 ->
  Sorted.StronglySorted Z.lt (map snd (positioned p l)) /\ Forall (fun q => p < q <= p + deltas l) (map snd (positioned p l)).
Proof.
  induction l as [|i l IH]; intros p Hp Hd Hn; [by repeat constructor|]. apply Forall_cons in Hd as [Hi Hd]. cbn [deltas] in Hn.
  assert (0 <= deltas l) as H0 by (clear - Hd; induction Hd as [|i l Hi _ IH]; cbn; [lia|];  lia).
  cbn [positioned map snd deltas]. rewrite wrap_id by (unfold is_uint; lia). destruct (IH (p + i_delta i) ltac:(lia) Hd ltac:(lia)) as [H1 H2].
  split.
  - constructor; [done|]. eapply Forall_impl; [exact H2|]. cbn. lia.
  - constructor; [lia|]. eapply Forall_impl; [exact H2|]. cbn. lia.
Qed.

(** ** Reading a stream to its end *)

Section Tokens.
Variables (m : st stream bool) (R : stream -> list item -> Prop).
Context `{U : !Upstream false m R}.
Variables (A : Type) (read : stream -> A) (f : item -> Z -> A) (len : Z).
Hypothesis (Hread : forall s i, currentToken s = i_token i -> currentTokenOffset s = i_offset i -> type s = ANALYZED_ORIGINAL_TOKEN ->
  currentTokenLen s = len -> read s = f i (currentTokenPosition s)).

Lemma tokens_of_run l : forall s fuel, R s l -> type s = ANALYZED_ORIGINAL_TOKEN -> currentTokenLen s = len -> (length l < fuel)%nat ->
  exists s', tokens_of m fuel read s = Ok (map (fun x => f x.1 x.2) (positioned (currentTokenPosition s) l), s') /\ keeps false s s' /\ internalTokenBuffer s' = [].
Proof using U Hread.
  induction l as [|i l IH]; intros s fuel HR Ht Hl Hf; (destruct fuel as [|fuel]; [cbn in Hf; lia|]); cbn [tokens_of].
  - destruct (up_done s HR) as (s' & E & HR' & Hk & Hw). rewrite (bind_run _ _ _ _ _ E). exists s'. split; [done|]. split; [done|by apply Hw].
  - destruct (up_next s i l HR) as (s' & E & H1 & H2 & H3 & H4 & HR' & Hk). rewrite (bind_run _ _ _ _ _ E). erewrite bind_run by reflexivity.
    assert (currentTokenLen s' = len) as Hl' by by rewrite (ke_len _ _ _ Hk).
    destruct (IH s' fuel HR' (H4 Ht) Hl' ltac:(cbn in Hf; lia)) as (s2 & E2 & Hk2 & Hw). exists s2. rewrite (bind_run _ _ _ _ _ E2).
    split; [|split; [by eapply stream_keeps_trans|done]]. unfold ret. cbn [positioned map fst snd]. rewrite (Hread s' i H1 H2 (H4 Ht) Hl'), <- H3. done.
Qed.
End Tokens.

(** ** The chain of StandardAnalyzer *)

Section Standard.
Variables (utf32to8 utf8to32 : list Z -> list Z) (split_spaces : list Z -> list (list Z)) (getFreq : list Z -> Z -> Z -> Z) (maxWordLength garbage : Z).
Variables (special : list Z) (protectedWords stopWords stemmer : option (gset (list Z))).
(** What the stemmer makes of a word. *)
Variable (stem : list Z -> list Z).

Abbreviation processToken := (processToken utf32to8 utf8to32 getFreq maxWordLength garbage).
Definition standard_chain : TokenStream := StandardAnalyzer_createOperatorFlow special protectedWords stopWords None stemmer.

(** The words with the protected ones whole, without stop words, and stemmed. *)
Definition raw_tokens (text : list Z) : list item := map (replaced transformToLowerCase) (map item_of (tokens_at (standard_sticks []) [] 0 text)).
Definition split_tokens (text : list Z) : list item := words_of utf32to8 special protectedWords 0 (raw_tokens text).
Definition kept_tokens (prefix : bool) (text : list Z) : list item :=
  match stopWords with Some w => unstopped utf32to8 w prefix 0 (split_tokens text) | None => split_tokens text end.
Definition analysis (prefix : bool) (text : list Z) : list item :=
  match stemmer with Some _ => map (replaced stem) (kept_tokens prefix text) | None => kept_tokens prefix text end.

(** The stemmer gives a stem for every word; on some words it reads outside its buffer. *)
Definition stems (prefix : bool) (text : list Z) : Prop :=
  forall d, stemmer = Some d -> Forall (fun i => Stemmer.processToken garbage d (i_token i) = Ok (stem (i_token i))) (kept_tokens prefix text).

Lemma standard_upstream : exists R, Upstream false (processToken standard_chain) R /\
  forall text prefix s, Z.of_nat (length text) < 2 ^ 31 -> internalTokenBuffer s = [] -> stems prefix text -> R (fillInCharacters text prefix s) (analysis prefix text).
Proof using.
  pose proof (tokenizer_upstream [] _ _ (standard_separates []) (standard_scans [])) as U1.
  pose proof (map_upstream true _ _ (U := U1) transformToLowerCase (modify (fun s => set_token (transformToLowerCase (currentToken s)) s) ;;; ret true) (fun _ => True)
    ltac:(done) ltac:(intros _ w _; apply length_map)) as U2.
  pose proof (nonalpha_upstream utf32to8 special protectedWords _ _ (U := U2)) as U3.
  assert (forall text prefix (s : stream), Z.of_nat (length text) < 2 ^ 31 -> internalTokenBuffer s = [] ->
    splitting utf32to8 special protectedWords (mapped (tokenizing [] (standard_sticks [])) transformToLowerCase (fun _ => True)) (fillInCharacters text prefix s) (split_tokens text)) as H3.
  { intros text prefix s Hn Hi. exists (raw_tokens text). split; [|cbn; by rewrite Hi]. eexists. split; [|split; [|reflexivity]]; [|by apply Forall_true].
    split; [done|]. cbn -[Z.of_nat]. split; [lia|done]. }
  assert (exists R, Upstream false (processToken (with_option stopWords StopFilter (NonAlphaNumericFilter special protectedWords (LowerCaseFilter (StandardTokenizer []))))) R /\
    forall text prefix s, Z.of_nat (length text) < 2 ^ 31 -> internalTokenBuffer s = [] -> R (fillInCharacters text prefix s) (kept_tokens prefix text)) as (R & U4 & H4).
  { unfold kept_tokens. destruct stopWords as [w|]; cbn [with_option].
    - eexists. split; [exact (stop_upstream utf32to8 w _ _ (U := U3))|]. intros text prefix s Hn Hi. exists (split_tokens text). split; [by apply H3|done].
    - eexists. split; [exact U3|exact H3]. }
  unfold standard_chain, StandardAnalyzer_createOperatorFlow, analysis, stems. cbn [with_option]. destruct stemmer as [d|]; cbn [with_option].
  - eexists. split.
    + refine (map_upstream false _ _ (U := U4) stem _ (fun w => Stemmer.processToken garbage d w = Ok (stem w)) _ _); [|done].
      intros s Hs. erewrite bind_run by reflexivity. rewrite Hs. by erewrite bind_run by reflexivity.
    + intros text prefix s Hn Hi Hst. exists (kept_tokens prefix text). split; [by apply H4|]. split; [by apply Hst|done].
  - exists R. split; [exact U4|]. intros text prefix s Hn Hi _. by apply H4.
Qed.
End Standard.
(** ** Distances between tokens *)

Lemma words_deltas utf32to8 special protectedWords l : Forall (fun i => i_delta i = 1 /\ i_token i <> []) l -> forall d, 0 <= d ->
  Forall (fun i => 1 <= i_delta i) (words_of utf32to8 special protectedWords d l) /\
  deltas (words_of utf32to8 special protectedWords d l) <= d + Z.of_nat (length (concat (map i_token l))).
Proof.
  assert (forall ws l2 n, Forall (fun i => 1 <= i_delta i) l2 -> deltas l2 <= n ->
    Forall (fun i => 1 <= i_delta i) (map word_of ws ++ l2) /\ deltas (map word_of ws ++ l2) <= Z.of_nat (length ws) + n) as Hws.
  { intros ws l2 n H1 H2. induction ws as [|w ws [IH1 IH2]]; [split; [done|cbn [map app length]; lia]|]. split; [by constructor|]. cbn [map app deltas word_of i_delta length]. lia. }
  induction 1 as [|i l [Hi Hne] _ IH]; intros d Hd; [split; [constructor|cbn; lia]|]. cbn [words_of map concat]. rewrite length_app.
  assert (0 < length (i_token i))%nat by (destruct (i_token i); [done|cbn; lia]). destruct (isProtectWord _ _).
  - destruct (IH 0 ltac:(lia)) as [H1 H2]. split; [constructor; [cbn; lia|done]|]. cbn [deltas i_delta]. lia.
  - pose proof (split_count special (i_offset i) (i_token i)) as Hc. destruct (split_delimiters special (i_offset i) (i_token i)) as [|w ws].
    + destruct (IH (d + i_delta i) ltac:(lia)) as [H1 H2]. split; [done|]. lia.
    + destruct (IH 0 ltac:(lia)) as [H1 H2]. destruct (Hws ws _ _ H1 H2) as [H3 H4]. split; [constructor; [cbn; lia|done]|].
      cbn [deltas i_delta]. cbn in Hc. lia.
Qed.

Lemma unstopped_deltas utf32to8 w prefix l : Forall (fun i => 1 <= i_delta i) l -> forall d, 0 <= d ->
  Forall (fun i => 1 <= i_delta i) (unstopped utf32to8 w prefix d l) /\ deltas (unstopped utf32to8 w prefix d l) <= d + deltas l.
Proof.
  induction 1 as [|i l Hi _ IH]; intros d Hd; [split; [constructor|cbn; lia]|]. cbn [unstopped deltas]. destruct (_ || _).
  - destruct (IH 0 ltac:(lia)) as [H1 H2]. split; [constructor; [cbn; lia|done]|]. cbn [deltas i_delta]. lia.
  - destruct (IH (d + i_delta i) ltac:(lia)) as [H1 H2]. split; [done|lia].
Qed.

Lemma raw_tokens_each text : Forall (fun i => i_delta i = 1 /\ i_token i <> []) (raw_tokens text) /\ (length (concat (map i_token (raw_tokens text))) <= length text)%nat.
Proof.
  unfold raw_tokens. split.
  - apply Forall_map, Forall_map. eapply Forall_impl; [apply tokens_nonempty|]. intros [o g] Hg. split; [done|]. cbn. by destruct g.
  - rewrite !map_map. etrans; [|apply (tokens_chars [] (standard_sticks []) 0 text)]. induction (tokens_at _ _ _ _) as [|g gs IH]; [done|].
    cbn [map concat]. rewrite !length_app. unfold transformToLowerCase at 1. cbn. rewrite length_map. cbn in IH. lia.
Qed.

Lemma deltas_replaced stem l : deltas (map (replaced stem) l) = deltas l.
Proof. induction l as [|i l IH]; [done|]. cbn. by rewrite <- IH. Qed.

Lemma analysis_deltas utf32to8 special protectedWords stopWords stemmer stem prefix text :
  let l := analysis utf32to8 special protectedWords stopWords stemmer stem prefix text in
  Forall (fun i => 1 <= i_delta i) l /\ deltas l <= Z.of_nat (length text).
Proof.
  destruct (raw_tokens_each text) as [H1 H2]. destruct (words_deltas utf32to8 special protectedWords _ H1 0 ltac:(lia)) as [H3 H4].
  assert (Forall (fun i => 1 <= i_delta i) (kept_tokens utf32to8 special protectedWords stopWords prefix text) /\
    deltas (kept_tokens utf32to8 special protectedWords stopWords prefix text) <= Z.of_nat (length text)) as [H5 H6].
  { unfold kept_tokens, split_tokens. destruct stopWords as [w|]; [|split; [done|lia]].
    destruct (unstopped_deltas utf32to8 w prefix _ H3 0 ltac:(lia)) as [H5 H6]. split; [done|lia]. }
  unfold analysis. destruct stemmer; [|done]. split; [by apply Forall_map|by rewrite deltas_replaced].
Qed.

(** ** The words that are kept *)

Definition kept_word (utf32to8 : list Z -> list Z) (stopWords : option (gset (list Z))) (prefix : bool) (w : list Z) : bool :=
  match stopWords with Some st => negb (bool_decide (utf32to8 w ∈ st)) || prefix | None => true end.

Lemma unstopped_terms utf32to8 w prefix l : forall d, map (fun i => (i_offset i, i_token i)) (unstopped utf32to8 w prefix d l) =
  List.filter (fun x => kept_word utf32to8 (Some w) prefix x.2) (map (fun i => (i_offset i, i_token i)) l).
Proof. induction l as [|i l IH]; intros d; [done|]. cbn [unstopped map List.filter kept_word snd]. destruct (_ || _); [cbn [map]; by rewrite IH|apply IH]. Qed.

Lemma kept_terms utf32to8 special stopWords prefix text : Z.of_nat (length text) < 2 ^ 31 ->
  map (fun i => (i_offset i, i_token i)) (kept_tokens utf32to8 special None stopWords prefix text) =
  List.filter (fun x => kept_word utf32to8 stopWords prefix x.2) (standard_words special text).
Proof.
  intros Hn. unfold kept_tokens, split_tokens. rewrite <- (words_standard utf32to8 special text 0 Hn). destruct stopWords as [w|].
  - apply unstopped_terms.
  - fold (raw_tokens text). induction (map _ _) as [|x l IH]; [done|]. cbn in *. by rewrite <- IH.
Qed.

Lemma standard_words_nonempty special text : Forall (fun x => x.2 <> []) (standard_words special text).
Proof.
  unfold standard_words. apply Forall_map, Forall_forall. intros [o g] H. apply list_elem_of_In, List.filter_In in H as [_ H].
  unfold starts in H. by destruct g.
Qed.

(** ** Queries *)

(** [start] has nothing left of an earlier text. *)
Lemma query_run utf32to8 utf8to32 getFreq maxWordLength garbage special protectedWords stopWords stemmer stem q prefix start fuel :
  let text := utf8to32 q in
  Z.of_nat (length text) < 2 ^ 31 -> internalTokenBuffer start = [] -> stems utf32to8 garbage special protectedWords stopWords stemmer stem prefix text -> (length text < fuel)%nat ->
  exists s', tokens_of (processToken utf32to8 utf8to32 getFreq maxWordLength garbage (standard_chain special protectedWords stopWords stemmer)) fuel
      (query_term utf32to8) (fillInCharacters text prefix start) =
    Ok (map (fun x => (utf32to8 (i_token x.1), x.2)) (positioned 0 (analysis utf32to8 special protectedWords stopWords stemmer stem prefix text)), s').
Proof.
  intros text Hn Hi Hst Hf.
  destruct (standard_upstream utf32to8 utf8to32 getFreq maxWordLength garbage special protectedWords stopWords stemmer stem) as (R & U & HR).
  specialize (HR text prefix start Hn Hi Hst). pose proof (up_size _ _ HR) as Hsz. cbn in Hsz. rewrite Hi in Hsz. cbn in Hsz.
  destruct (tokens_of_run _ R (U := U) _ (query_term utf32to8) (fun i p => (utf32to8 (i_token i), p)) (currentTokenLen start)
    ltac:(intros s i H1 _ _ _; unfold query_term; by rewrite H1) _ _ fuel HR eq_refl eq_refl ltac:(lia)) as (s' & E & _). by exists s'.
Qed.

Lemma positioned_zip (f : list Z -> list Z) l : forall p, map (fun x => (f (i_token x.1), x.2)) (positioned p l) = zip (map f (map i_token l)) (map snd (positioned p l)).
Proof. induction l as [|i l IH]; intros p; [done|]. cbn. by rewrite IH. Qed.

(** (C17) A query that StandardAnalyzer reads without synonyms, protected words or stemming
    gives the words of its text: the longest runs of characters that stick together, in
    lower case and without stop words, with positions that grow strictly.  A prefix query
    keeps its stop words. *)
Theorem standard_query (utf32to8 utf8to32 : list Z -> list Z) (getFreq : list Z -> Z -> Z -> Z) (maxWordLength garbage : Z)
    (special : list Z) (stopWords : option (gset (list Z))) (q : list Z) (prefix : bool) (start : stream) :
  let text := utf8to32 q in
  let terms := map utf32to8 (List.filter (kept_word utf32to8 stopWords prefix) (map snd (standard_words special text))) in
  (forall w, utf32to8 w = [] -> w = []) -> Z.of_nat (length text) < 2 ^ 31 -> internalTokenBuffer start = [] ->
  exists positions, length positions = length terms /\ Sorted.StronglySorted Z.lt positions /\ Forall (fun p => 0 < p <= Z.of_nat (length text)) positions /\
    forall fuel, (length text < fuel)%nat -> exists s',
      tokenizeQuery utf32to8 utf8to32 (processToken utf32to8 utf8to32 getFreq maxWordLength garbage (StandardAnalyzer_createOperatorFlow special None stopWords None None))
        fuel q prefix start = Ok (zip terms positions, s').
Proof.
  intros text terms Hu Hn Hi. set (l := analysis utf32to8 special None stopWords None (fun w => w) prefix text).
  destruct (analysis_deltas utf32to8 special None stopWords None (fun w => w) prefix text) as [Hd Hsum]. fold l in Hd, Hsum.
  destruct (positioned_sorted l 0 ltac:(lia) Hd ltac:(lia)) as [Hs Hp].
  assert (map utf32to8 (map i_token l) = terms) as Ht.
  { unfold terms. f_equal. pose proof (f_equal (map snd) (kept_terms utf32to8 special stopWords prefix text Hn)) as E. rewrite map_map in E. etrans; [exact E|]. by rewrite filter_after_map. }
  exists (map snd (positioned 0 l)). split; [|split; [done|split; [eapply Forall_impl; [exact Hp|]; intros p Hpp; cbn beta in Hpp |- *; lia|]]].
  { rewrite <- Ht, !length_map, <- (length_map fst), positioned_items. done. }
  intros fuel Hf. destruct (query_run utf32to8 utf8to32 getFreq maxWordLength garbage special None stopWords None (fun w => w) q prefix start fuel Hn Hi ltac:(intros d; done) Hf) as (s' & E).
  exists s'. unfold tokenizeQuery. erewrite bind_run by reflexivity. rewrite (bind_run _ _ _ _ _ E). fold text. fold l. rewrite positioned_zip, Ht.
  assert (Forall (fun t => t <> []) terms) as Hne.
  { unfold terms. apply Forall_map, Forall_forall. intros w Hw E'. apply Hu in E'. subst w. apply list_elem_of_In, List.filter_In, proj1, in_map_iff in Hw as (x & Ex & Hx).
    apply list_elem_of_In in Hx. by apply (proj1 (Forall_forall _ _) (standard_words_nonempty special text) x Hx). }
  unfold ret. f_equal. f_equal. destruct Hne as [|t terms' Hne _]; [done|]. destruct (map snd (positioned 0 l)) as [|p ps]; [done|]. cbn. destruct t; [done|]. by destruct (zip terms' ps).
Qed.

Lemma standard_query_witness : exists positions s', length positions = 3%nat /\
  tokenizeQuery id id (processToken id id (fun _ _ _ => 0) 0 0 (StandardAnalyzer_createOperatorFlow [] None (Some {[ Stemmer.bytes "is" ]}) None None))
    30 (Stemmer.bytes "Java-Script -- is c++") false (mk_stream [] [] 0 0 0 ANALYZED_ORIGINAL_TOKEN 0 false [] [] [] []) =
    Ok (zip [Stemmer.bytes "java"; Stemmer.bytes "script"; Stemmer.bytes "c"] positions, s').
Proof.
  destruct (standard_query id id (fun _ _ _ => 0) 0 0 [] (Some {[ Stemmer.bytes "is" ]}) (Stemmer.bytes "Java-Script -- is c++") false
    (mk_stream [] [] 0 0 0 ANALYZED_ORIGINAL_TOKEN 0 false [] [] [] []) ltac:(done) ltac:(by vm_compute) eq_refl) as (positions & Hl & _ & _ & H).
  exists positions. destruct (H 30%nat ltac:(vm_compute; lia)) as (s' & E). exists s'. split; [exact Hl|exact E].
Defined.

(** ** Records *)

Definition occurrence_of (x : Z * AnalyzedTermInfo) : occurrence :=
  mk_occ x.1 (t_position x.2) (t_charOffset x.2) (t_charLength x.2) (t_type x.2).

(** The occurrences of a term among the terms of attributes. *)
Definition occurrences_of (l : list (Z * AnalyzedTermInfo)) (w : list Z) : list occurrence :=
  map occurrence_of (List.filter (fun x => negb (is_empty w) && bool_decide (t_term x.2 = w)) l).
Definition hits_or_none (l : list occurrence) : option ForwardList.TokenAttributeHits := match l with [] => None | _ => Some (hits_of l) end.

Lemma occurrences_snoc l x w : occurrences_of (l ++ [x]) w =
  occurrences_of l w ++ (if negb (is_empty w) && bool_decide (t_term x.2 = w) then [occurrence_of x] else []).
Proof. unfold occurrences_of. rewrite List.filter_app, map_app. cbn [List.filter]. by destruct (_ && _). Qed.

Lemma hits_snoc l o : hits_or_none (l ++ [o]) = Some (hits_of (l ++ [o])).
Proof. by destruct l. Qed.

Lemma hits_default l : default no_hits (hits_or_none l) = hits_of l.
Proof. by destruct l. Qed.

Lemma add_hit_run a m t l : (forall w, m !! w = hits_or_none (occurrences_of l w)) ->
  forall w, add_hit a m t !! w = hits_or_none (occurrences_of (l ++ [(a, t)]) w).
Proof.
  intros Hm w. rewrite occurrences_snoc. cbn [snd]. unfold add_hit. destruct (t_term t) as [|c w'] eqn:Et; cbn [is_empty].
  { rewrite Hm. destruct w; cbn [is_empty negb andb]; [by rewrite app_nil_r|]. rewrite bool_decide_eq_false_2 by done. by rewrite app_nil_r. }
  destruct (decide (w = c :: w')) as [->|Hne].
  - rewrite lookup_insert_eq. cbn [is_empty negb andb]. rewrite bool_decide_eq_true_2 by done. rewrite hits_snoc, Hm, hits_default. unfold hits_of. cbn. by rewrite !map_app.
  - rewrite lookup_insert_ne by done. rewrite Hm. rewrite bool_decide_eq_false_2 by done. by rewrite andb_false_r, app_nil_r.
Qed.

Lemma add_hits_run a terms : forall m l, (forall w, m !! w = hits_or_none (occurrences_of l w)) ->
  forall w, fold_left (add_hit a) terms m !! w = hits_or_none (occurrences_of (l ++ map (pair a) terms) w).
Proof.
  induction terms as [|t terms IH]; intros m l Hm w; [cbn; by rewrite app_nil_r|]. cbn [fold_left map].
  rewrite (IH _ (l ++ [(a, t)])); [by rewrite <- app_assoc|]. by apply add_hit_run.
Qed.

Section Record_.
Variables (utf32to8 utf8to32 : list Z -> list Z) (split_spaces : list Z -> list (list Z)) (getFreq : list Z -> Z -> Z -> Z) (maxWordLength garbage : Z).
Variables (special : list Z) (protectedWords stopWords stemmer : option (gset (list Z))) (stem : list Z -> list Z) (len : Z).

Abbreviation analysis := (analysis utf32to8 special protectedWords stopWords stemmer stem false).
Abbreviation process := (processToken utf32to8 utf8to32 getFreq maxWordLength garbage (standard_chain special protectedWords stopWords stemmer)).

(** The terms of a value and of the values of an attribute: positions are moved by the
    bump of each value before, offsets by the lengths of these values. *)
Definition value_term (valueOffset prevAttrCombinedLen : Z) (x : item * Z) : AnalyzedTermInfo :=
  mk_term (utf32to8 (i_token x.1)) (wrap32 (x.2 + 0 + valueOffset * MULTI_VALUED_ATTRIBUTE_POSITION_BUMP)) (wrap32 (prevAttrCombinedLen + i_offset x.1)) len
    ANALYZED_ORIGINAL_TOKEN.
Fixpoint attribute_terms (valueOffset prevAttrCombinedLen : Z) (values : list (list Z)) : list AnalyzedTermInfo :=
  match values with
  | [] => []
  | v :: values' => map (value_term valueOffset prevAttrCombinedLen) (positioned 0 (analysis (utf8to32 v))) ++
      attribute_terms (valueOffset + 1) (wrap32 (prevAttrCombinedLen + Z.of_nat (length v) + MULTI_VAL_ATTR_DELIMITER_LEN)) values'
  end.
Fixpoint terms_from (attribute : Z) (attributes : list (list (list Z))) : list (Z * AnalyzedTermInfo) :=
  match attributes with
  | [] => []
  | values :: attributes' => map (pair attribute) (attribute_terms 0 0 values) ++ terms_from (attribute + 1) attributes'
  end.

(** Where a record has a term. *)
Definition record_occurrences (record : list (list (list Z))) (w : list Z) : list occurrence := occurrences_of (terms_from 0 record) w.

(** A value that the analyzer can read with the given fuel. *)
Definition readable (fuel : nat) (v : list Z) : Prop :=
  Z.of_nat (length (utf8to32 v)) < 2 ^ 31 /\ (length (utf8to32 v) < fuel)%nat /\
  stems utf32to8 garbage special protectedWords stopWords stemmer stem false (utf8to32 v).

Lemma tokenize_values_run fuel values : Forall (readable fuel) values -> forall valueOffset prev s, internalTokenBuffer s = [] -> currentTokenLen s = len ->
  exists s', tokenize_values utf32to8 utf8to32 split_spaces process fuel valueOffset prev values s = Ok (attribute_terms valueOffset prev values, s') /\
    internalTokenBuffer s' = [] /\ currentTokenLen s' = len.
Proof using.
  destruct (standard_upstream utf32to8 utf8to32 getFreq maxWordLength garbage special protectedWords stopWords stemmer stem) as (R & U & HR).
  induction 1 as [|v values (Hn & Hf & Hst) _ IH]; intros valueOffset prev s Hi Hl; [by exists s|]. cbn [tokenize_values attribute_terms].
  erewrite bind_run by reflexivity. specialize (HR (utf8to32 v) false s Hn Hi Hst). pose proof (up_size _ _ HR) as Hsz. cbn in Hsz. rewrite Hi in Hsz. cbn in Hsz.
  destruct (tokens_of_run _ R (U := U) _ (record_terms utf32to8 split_spaces valueOffset prev) (fun i p => [value_term valueOffset prev (i, p)]) len) with (2 := HR) (fuel := fuel)
    as (s1 & E1 & Hk & Hw); [|done|done|lia|].
  { intros s0 i H1 H2 H3 H4. unfold record_terms, value_term. rewrite H1, H2, H3, H4. done. }
  rewrite (bind_run _ _ _ _ _ E1). destruct (IH (valueOffset + 1) (wrap32 (prev + Z.of_nat (length v) + MULTI_VAL_ATTR_DELIMITER_LEN)) s1 Hw) as (s2 & E2 & Hi2 & Hl2).
  { by rewrite (ke_len _ _ _ Hk). }
  exists s2. rewrite (bind_run _ _ _ _ _ E2). split; [|done]. unfold ret. f_equal. f_equal. f_equal.
  change (currentTokenPosition (fillInCharacters (utf8to32 v) false s)) with 0. induction (positioned 0 _) as [|[i p] l IHl]; [done|]. cbn. by rewrite IHl.
Qed.

Lemma tokenize_attributes_run fuel attributes : Forall (Forall (readable fuel)) attributes -> forall a m l s,
  internalTokenBuffer s = [] -> currentTokenLen s = len -> (forall w, m !! w = hits_or_none (occurrences_of l w)) ->
  exists m' s', tokenize_attributes utf32to8 utf8to32 split_spaces process fuel a attributes m s = Ok (m', s') /\
    forall w, m' !! w = hits_or_none (occurrences_of (l ++ terms_from a attributes) w).
Proof using.
  induction 1 as [|values attributes Hv _ IH]; intros a m l s Hi Hl Hm; cbn [tokenize_attributes terms_from].
  - exists m, s. split; [done|]. by rewrite app_nil_r.
  - destruct (tokenize_values_run fuel values Hv 0 0 s Hi Hl) as (s1 & E1 & Hi1 & Hl1). rewrite (bind_run _ _ _ _ _ E1).
    destruct (IH (a + 1) _ (l ++ map (pair a) (attribute_terms 0 0 values)) s1 Hi1 Hl1 (add_hits_run a _ m l Hm)) as (m' & s' & E & Hm').
    exists m', s'. split; [exact E|]. intros w. by rewrite Hm', <- app_assoc.
Qed.

Lemma terms_sorted attributes : forall a, Sorted.StronglySorted Z.le (map fst (terms_from a attributes)) /\
  Forall (fun b => a <= b < a + Z.of_nat (length attributes)) (map fst (terms_from a attributes)).
Proof using.
  induction attributes as [|values attributes IH]; intros a; [split; constructor|]. cbn [terms_from]. destruct (IH (a + 1)) as [H1 H2].
  rewrite map_app, map_map. cbn [fst]. induction (attribute_terms 0 0 values) as [|t ts [IH1 IH2]]; cbn [map app].
  - split; [done|]. eapply Forall_impl; [exact H2|]. cbn [length]. intros b Hb. cbn beta in Hb. lia.
  - split; [|constructor; [cbn [length]; lia|done]]. constructor; [done|]. eapply Forall_impl; [exact IH2|]. intros b Hb. cbn beta in Hb. lia.
Qed.

Lemma sorted_filter {A} (f : A -> Z) p (l : list A) : Sorted.StronglySorted Z.le (map f l) -> Sorted.StronglySorted Z.le (map f (List.filter p l)).
Proof using.
  induction l as [|x l IH]; intros H; [done|]. inversion_clear H as [|? ? Hs Hx]. cbn. destruct (p x); [|by apply IH]. constructor; [by apply IH|].
  change (Forall (Z.le (f x)) (map f (List.filter p l))). apply Forall_forall. intros b Hb. apply list_elem_of_fmap in Hb as (y & -> & Hy).
  apply list_elem_of_In, List.filter_In, proj1, list_elem_of_In in Hy. apply (proj1 (Forall_forall _ _) Hx). by apply list_elem_of_fmap_2.
Qed.

Lemma occurrences_grouped record w : grouped (record_occurrences record w).
Proof using.
  unfold grouped, record_occurrences, occurrences_of. rewrite map_map. apply (sorted_filter fst), terms_sorted.
Qed.

Lemma attribute_terms_numbers values : is_u32 len -> forall vo prev, Forall (fun t => is_u32 (t_position t) /\ is_u32 (t_charOffset t) /\ is_u32 (t_charLength t)) (attribute_terms vo prev values).
Proof using.
  intros Hl. induction values as [|v values IH]; intros vo prev; [constructor|]. cbn [attribute_terms]. apply Forall_app. split; [|apply IH].
  apply Forall_map, Forall_forall. intros x _. split; [by apply wrap_bounds|]. split; [by apply wrap_bounds|done].
Qed.

Lemma occurrences_found record w : is_u32 len -> Z.of_nat (length record) < 2 ^ 32 -> record_occurrences record w <> [] ->
  Z.of_nat (length (record_occurrences record w)) * 5 < 2 ^ 32 -> found (record_occurrences record w).
Proof using.
  clear split_spaces maxWordLength getFreq. intros Hl Hr Hne Hn.
  assert (Forall (fun x => is_u32 x.1 /\ is_u32 (t_position x.2) /\ is_u32 (t_charOffset x.2) /\ is_u32 (t_charLength x.2)) (terms_from 0 record)) as H.
  { apply Forall_forall. intros x Hx. split.
    - destruct (terms_sorted record 0) as [_ H]. apply Forall_map in H. apply (proj1 (Forall_forall _ _) H) in Hx. unfold is_uint. lia.
    - clear - Hl Hx. revert Hx. generalize 0. induction record as [|values record IH]; intros a Hx; [by apply elem_of_nil in Hx|]. cbn [terms_from] in Hx.
      apply elem_of_app in Hx as [Hx|Hx]; [|by apply (IH (a + 1))]. apply list_elem_of_fmap in Hx as (t & -> & Ht).
      by apply (proj1 (Forall_forall _ _) (attribute_terms_numbers values Hl 0 0)). }
  assert (Forall (fun o => is_u32 (o_attribute o) /\ is_u32 (o_position o) /\ is_u32 (o_offset o) /\ is_u32 (o_charLen o)) (record_occurrences record w)) as Ho.
  { apply Forall_map, Forall_forall. intros x Hx. apply list_elem_of_In, List.filter_In, proj1, list_elem_of_In in Hx. by apply (proj1 (Forall_forall _ _) H). }
  constructor; [done|..|done]; apply Forall_map; (eapply Forall_impl; [exact Ho|]); cbn; tauto.
Qed.
End Record_.

(** (C16) A record is found where its words are: with a StandardAnalyzer without synonyms,
    tokenizeRecord succeeds and collects for every term the occurrences of the words in
    the values of the attributes; and the forward list that addRecord builds from them,
    if the position index is enabled, gives back the positions of these words. *)
Theorem record_words_stored (utf32to8 utf8to32 : list Z -> list Z) (split_spaces : list Z -> list (list Z)) (getFreq : list Z -> Z -> Z -> Z) (maxWordLength garbage : Z)
    (special : list Z) (protectedWords stopWords stemmer : option (gset (list Z))) (stem : list Z -> list Z) (record : list (list (list Z))) (start : stream) (fuel : nat) :
  let occurrences := record_occurrences utf32to8 utf8to32 special protectedWords stopWords stemmer stem (currentTokenLen start) record in
  Forall (Forall (readable utf32to8 utf8to32 garbage special protectedWords stopWords stemmer stem fuel)) record -> internalTokenBuffer start = [] ->
  exists m s', tokenizeRecord utf32to8 utf8to32 split_spaces
      (processToken utf32to8 utf8to32 getFreq maxWordLength garbage (StandardAnalyzer_createOperatorFlow special protectedWords stopWords None stemmer)) fuel record start = Ok (m, s') /\
    (forall w, m !! w = hits_or_none (occurrences w)) /\
    forall t tfBoost indeterminate key roles ks, is_u32 (currentTokenLen start) -> Z.of_nat (length record) < 2 ^ 32 ->
      Forall (fun k => is_u32 k.1 /\ occurrences k.2.1 <> [] /\ Z.of_nat (length (occurrences k.2.1)) * 5 < 2 ^ 32) ks ->
      (forall tf h, is_uint 16 (tfBoost tf h)) -> Z.of_nat (length ks) < ForwardList.KEYWORD_THRESHOLD -> list_size t (map (fun k => occurrences k.2.1) ks) < 2 ^ 32 ->
      exists fl, ForwardList.addRecord_list indeterminate tfBoost t key roles ks m = Ok fl /\
        forall (i : nat) k a pl, ks !! i = Some k -> ForwardList.getKeyWordPostionsInRecordField fl (Z.of_nat i) a pl =
          Ok (if ForwardList.isEnabledWordPositionIndex t then pl ++ map o_position (occurrences_in a (occurrences k.2.1)) else pl).
Proof.
  intros occurrences Hread Hi.
  destruct (tokenize_attributes_run utf32to8 utf8to32 split_spaces getFreq maxWordLength garbage special protectedWords stopWords stemmer stem (currentTokenLen start)
    fuel record Hread 0 ∅ [] start Hi eq_refl ltac:(done)) as (m & s' & E & Hm). exists m, s'. split; [exact E|]. split; [exact Hm|].
  intros t tfBoost indeterminate key roles ks Hlen Hrec Hks Htf Hn Hsz. set (ls := map (fun k => occurrences k.2.1) ks) in *.
  assert (Forall2 (analyzed m) ks ls) as Ha.
  { apply Forall2_fmap_r, Forall_Forall2_diag. eapply Forall_impl; [exact Hks|]. intros k (H1 & H2 & H3). split; [|by apply occurrences_found].
    rewrite Hm. change (hits_or_none (occurrences k.2.1) = Some (hits_of (occurrences k.2.1))). by destruct (occurrences k.2.1). }
  destruct (build_run t m tfBoost ks ls Ha Hn Hsz indeterminate key roles) as (fl & scores & Hb & Hlo & _). exists fl. split; [done|].
  intros i k a pl Hk. assert (ls !! i = Some (occurrences k.2.1)) as Hl by (unfold ls; rewrite list_lookup_fmap, Hk; done).
  pose proof (all_found m ks ls Ha) as Hf. erewrite positions_run by done. rewrite in_attribute_grouped; [done|done|]. apply occurrences_grouped.
Qed.

(** Two values of one attribute, without stop words: the second word of the second value
    is at the bump plus 2, and its offset counts the first value and the delimiter. *)
Definition ex_record : list (list (list Z)) := [[Stemmer.bytes "Big Apple"; Stemmer.bytes "red apple"]].
Definition ex_start : stream := mk_stream [] [] 0 0 0 ANALYZED_ORIGINAL_TOKEN 0 false [] [] [] [].

Lemma record_words_stored_witness : exists m s' fl,
  tokenizeRecord id id (fun w => [w]) (processToken id id (fun _ _ _ => 0) 0 0 (StandardAnalyzer_createOperatorFlow [] None None None None)) 10 ex_record ex_start = Ok (m, s') /\
  ForwardList.addRecord_list (fun _ => 0) ex_boost ForwardList.POSITION_INDEX_FULL [49] [] [(7, (Stemmer.bytes "apple", 0))] m = Ok fl /\
  ForwardList.getKeyWordPostionsInRecordField fl 0 0 [] = Ok [2; 100002].
Proof.
  destruct (record_words_stored id id (fun w => [w]) (fun _ _ _ => 0) 0 0 [] None None None (fun w => w) ex_record ex_start 10) as (m & s' & E & _ & H).
  { repeat apply List.Forall_cons; try apply List.Forall_nil; (split; [by vm_compute|split; [vm_compute; lia|done]]). }
  { reflexivity. }
  destruct (H ForwardList.POSITION_INDEX_FULL ex_boost (fun _ => 0) [49] [] [(7, (Stemmer.bytes "apple", 0))]) as (fl & Ef & Hp); clear H.
  { vm_compute. split; [intros [=]|reflexivity]. }
  { reflexivity. }
  { apply List.Forall_cons; [|apply List.Forall_nil]. split; [vm_compute; split; [intros [=]|reflexivity]|]. split; [vm_compute; intros [=]|vm_compute; reflexivity]. }
  { intros tf h. unfold ex_boost. by apply wrap_bounds. }
  { reflexivity. }
  { vm_compute. reflexivity. }
  exists m, s', fl. split; [exact E|]. split; [exact Ef|]. etrans; [exact (Hp 0%nat _ 0 [] eq_refl)|]. vm_compute. reflexivity.
Defined.
End AnalyzerRecord.
