(* ===== verification/AnalyzerSynonyms.v ===== *)
(** * Synonyms (SynonymFilter.cpp, AnalyzerContainers.cpp)

    SynonymFilter reads ahead while the tokens begin a phrase with synonyms.  Whatever it
    reads, every token is accounted for once: it goes on as it is, or it belongs to a
    phrase of the rules, which gives its synonyms. *)
From Stdlib Require Import String.
From Stdlib Require Import ZArith Lia List Bool.
From stdpp Require Import base gmap list.
From S2P Require Import Prelude Stemmer ForwardList TokenStream Analyzer AnalyzerWords AnalyzerFilters AnalyzerTexts AnalyzerRecord.
Open Scope Z_scope.

Module AnalyzerSynonyms.
Import TokenStream Analyzer AnalyzerWords AnalyzerFilters AnalyzerTexts AnalyzerRecord.
Import ForwardList(AnalyzedTokenType, ANALYZED_ORIGINAL_TOKEN, ANALYZED_SYNONYM_TOKEN).

(** ** Accounting for tokens *)

(** A token with its place, and what is given for it: with its type. *)
Abbreviation token := (list Z * Z)%type.
Abbreviation output := (list Z * Z * AnalyzedTokenType)%type.

Definition kept (t : token) : output := (t.1, t.2, ANALYZED_ORIGINAL_TOKEN).
Definition phrase_of (l : list token) : list Z := removelast (concat (map (fun t => t.1 ++ [32]) l)).

(** The tokens fall into phrases of the rules, which give their synonyms at the place of
    the first token, behind the tokens themselves if the rule keeps them, and tokens
    without synonyms of their own that go on as they are. *)
Inductive accounted (c : SynonymContainer) : list token -> list output -> Prop :=
  | acc_nil : accounted c [] []
  | acc_keep t l o : (getValue c t.1).2 = [] -> accounted c l o -> accounted c (t :: l) (kept t :: o)
  | acc_phrase t seg expand synonyms l o : getValue c (phrase_of (t :: seg)) = (expand, synonyms) -> synonyms <> [] -> accounted c l o ->
      accounted c ((t :: seg) ++ l) ((if expand : bool then map kept (t :: seg) else []) ++ map (fun w => (w, t.2, ANALYZED_SYNONYM_TOKEN)) synonyms ++ o).

Definition strip (t : AnalyzedTermInfo) : output := (t_term t, t_charOffset t, t_type t).
Definition bare (t : AnalyzedTermInfo) : token := (t_term t, t_charOffset t).
Definition original (t : AnalyzedTermInfo) : Prop := t_type t = ANALYZED_ORIGINAL_TOKEN.

Lemma phrase_bare l : phrase_of (map bare l) = phrase l.
Proof. unfold phrase_of, phrase, joined. by rewrite map_map. Qed.

Lemma strip_kept l : Forall original l -> map strip l = map kept (map bare l).
Proof. induction 1 as [|t l Ht _ IH]; [done|]. cbn. rewrite IH. unfold strip, kept. by rewrite Ht. Qed.

Lemma strip_synonyms synonyms pos off len : map strip (synonym_infos synonyms pos off len) = map (fun w => (w, off, ANALYZED_SYNONYM_TOKEN)) synonyms.
Proof.
  unfold synonym_infos. assert (forall f, map strip (imap (fun j w => mk_term w (f j) off len ANALYZED_SYNONYM_TOKEN) synonyms) = map (fun w => (w, off, ANALYZED_SYNONYM_TOKEN)) synonyms) as H.
  { induction synonyms as [|w synonyms IH]; intros f; [done|]. rewrite imap_cons. cbn. f_equal. apply (IH (fun j => f (S j))). }
  apply (H (fun j => wrap32 (pos + Z.of_nat j))).
Qed.

Lemma phrase_single t : phrase [t] = t_term t.
Proof. unfold phrase, joined. cbn. by rewrite app_nil_r, removelast_last. Qed.

(** ** The buffer of tokens *)

Lemma longest_phrase_run c buffer i : (i <= length buffer)%nat -> forall n expand synonyms, longest_phrase c buffer i = Some (n, expand, synonyms) ->
  (0 < n <= length buffer)%nat /\ getValue c (phrase (take n buffer)) = (expand, synonyms) /\ synonyms <> [].
Proof.
  induction i as [|i IH]; intros Hi n expand synonyms H; [done|]. cbn [longest_phrase] in H. destruct (getValue c (phrase (take (S i) buffer))) as [e l] eqn:E.
  destruct l as [|w l]; cbn [is_empty] in H; [apply IH; [lia|done]|]. injection H as <- <- <-. split; [lia|]. by rewrite E.
Qed.

Lemma longest_phrase_none c buffer i : longest_phrase c buffer i = None -> forall n, (0 < n <= i)%nat -> (getValue c (phrase (take n buffer))).2 = [].
Proof.
  induction i as [|i IH]; intros H n Hn; [lia|]. cbn [longest_phrase] in H. destruct (getValue c (phrase (take (S i) buffer))) as [e l] eqn:E.
  destruct l as [|w l]; cbn [is_empty] in H; [|done]. destruct (decide (n = S i)) as [->|]; [by rewrite E|]. apply IH; [done|lia].
Qed.

Lemma push_synonyms_run c fuel : forall buffer emit, (length buffer <= fuel)%nat -> Forall original buffer ->
  exists new, push_synonyms c fuel buffer emit = Ok (emit ++ new) /\ (buffer <> [] -> new <> []) /\
    forall l o, accounted c l o -> accounted c (map bare buffer ++ l) (map strip new ++ o).
Proof.
  induction fuel as [|fuel IH]; intros buffer emit Hf Ho; (destruct buffer as [|first rest]; [exists []; rewrite app_nil_r; split; [done|split; [done|by intros l o Hl]]|]); [cbn in Hf; lia|].
  cbn [push_synonyms]. destruct (longest_phrase c (first :: rest) (length (first :: rest))) as [[[n expand] synonyms]|] eqn:E.
  - apply longest_phrase_run in E as (Hn & Hv & Hne); [|done]. set (buffer := first :: rest) in *.
    set (syns := synonym_infos synonyms (t_position first) (t_charOffset first) _).
    destruct (IH (drop n buffer) (emit ++ (if expand then take n buffer else []) ++ syns)) as (new & -> & _ & Hacc).
    { rewrite length_drop. lia. } { by apply Forall_drop. }
    exists (((if expand then take n buffer else []) ++ syns) ++ new). split; [by rewrite <- !app_assoc|]. split.
    { intros _ H. apply app_eq_nil in H as [H _]. apply app_eq_nil in H as [_ H]. unfold syns, synonym_infos in H. by destruct synonyms. }
    intros l o Hl. rewrite <- (take_drop n buffer) at 1. rewrite map_app, <- app_assoc. specialize (Hacc l o Hl).
    destruct n as [|n]; [lia|]. unfold buffer in *. cbn [take] in *. cbn [map]. change (t_charOffset first) with ((bare first).2) in *.
    unfold syns. rewrite !map_app, <- !app_assoc, strip_synonyms. change ((bare first :: map bare (take n rest)) ++ map bare (drop (S n) (first :: rest)) ++ l) with ((bare first :: map bare (take n rest)) ++ (map bare (drop (S n) (first :: rest)) ++ l)).
    replace (map strip (if expand then first :: take n rest else [])) with (if expand then map kept (bare first :: map bare (take n rest)) else []).
    + apply acc_phrase; [|done|exact Hacc]. change (bare first :: map bare (take n rest)) with (map bare (first :: take n rest)). by rewrite phrase_bare.
    + destruct expand; [|done]. rewrite strip_kept; [done|]. apply Forall_cons in Ho as [H1 H2]. constructor; [done|by apply Forall_take].
  - apply Forall_cons in Ho as [H1 H2]. destruct (IH rest (emit ++ [first])) as (new & -> & _ & Hacc); [cbn in Hf; lia|done|].
    exists (first :: new). split; [by rewrite <- app_assoc|]. split; [done|]. intros l o Hl. cbn [map app]. replace (strip first) with (kept (bare first)) by (unfold strip, kept; by rewrite H1).
    constructor; [|by apply Hacc]. pose proof (longest_phrase_none c (first :: rest) _ E 1%nat ltac:(cbn; lia)) as Hnone. cbn [take] in Hnone. by rewrite phrase_single in Hnone.
Qed.

(** ** The filter *)

Section Filter.
Variables (utf32to8 utf8to32 : list Z -> list Z) (c : SynonymContainer) (m : st stream bool) (R : stream -> list item -> Prop).
Context `{U : !Upstream false m R}.

Abbreviation step := (synonym_step utf32to8 utf8to32 c m).
Definition bare_item (i : item) : token := (utf32to8 (i_token i), i_offset i).

(** The current token of a state is an output. *)
Definition gives (s : stream) (t : output) : Prop :=
  currentToken s = utf8to32 t.1.1 /\ currentTokenOffset s = t.1.2 /\ type s = t.2.

Lemma emit_run s t l : emitBuffer s = t :: l -> exists s', emitCurrentToken utf8to32 s = Ok (tt, s') /\ gives s' (strip t) /\ same_source false s s' /\
  tokenBuffer s' = tokenBuffer s /\ emitBuffer s' = l.
Proof using.
  intros E. unfold emitCurrentToken. erewrite bind_run by reflexivity. rewrite E. do 5 erewrite bind_run by reflexivity. eexists. split; [reflexivity|].
  split; [done|]. by split.
Qed.

(** What a call leaves: an output [t], and the tokens still to come. *)
Definition leaves (l : list item) (s : stream) (t : output) (s' : stream) (l' : list item) : Prop :=
  gives s' t /\ R s' l' /\ Forall original (tokenBuffer s') /\
  forall o, accounted c (map bare (tokenBuffer s') ++ map bare_item l') o ->
    accounted c (map bare (tokenBuffer s) ++ map bare_item l) (t :: map strip (emitBuffer s') ++ o).

(** The token that was read, as the filter keeps it. *)
Lemma info_run s i s1 : m s = Ok (true, s1) -> currentToken s1 = i_token i -> currentTokenOffset s1 = i_offset i ->
  exists t, current_info utf32to8 s1 = Ok (t, set_type ANALYZED_ORIGINAL_TOKEN s1) /\ bare t = bare_item i /\ original t.
Proof using.
  intros _ H1 H2.
  exists (mk_term (utf32to8 (currentToken s1)) (currentTokenPosition s1) (currentTokenOffset s1) (wrap32 (Z.of_nat (length (utf32to8 (currentToken s1))))) ANALYZED_ORIGINAL_TOKEN).
  split; [reflexivity|]. unfold bare, bare_item. cbn. by rewrite H1, H2.
Qed.

Lemma joined_snoc buffer t : removelast (joined (buffer ++ [t])) = joined buffer ++ t_term t.
Proof using. unfold joined. rewrite map_app, concat_app. cbn. rewrite app_nil_r, app_assoc. apply removelast_last. Qed.

(** A pass at the end of the tokens. *)
Lemma end_step s : R s [] -> emitBuffer s = [] -> Forall original (tokenBuffer s) ->
  (tokenBuffer s = [] /\ exists s', step s = Ok (Some false, s')) \/
  exists t s', step s = Ok (Some true, s') /\ leaves [] s t s' [] /\ tokenBuffer s' = [] /\ tokenBuffer s <> [].
Proof using U.
  intros HR He Ho. destruct (up_done s HR) as (s1 & E & HR1 & Hk & _). pose proof (ke_tokens _ _ _ Hk) as Hb. pose proof (ke_emit _ _ _ Hk) as He1. rewrite He in He1.
  assert (step s = (let! buffer := reads tokenBuffer in if is_empty buffer then ret (Some false)
    else pushSynonymsOfExistingTokensInEmitBuffer c ;;; emitCurrentToken utf8to32 ;;; ret (Some true)) s1) as ->.
  { unfold synonym_step. erewrite bind_run by reflexivity. rewrite He. cbn [is_empty negb]. by rewrite (bind_run _ _ _ _ _ E). }
  erewrite bind_run by reflexivity. rewrite Hb. destruct (tokenBuffer s) as [|first rest] eqn:Eb; cbn [is_empty]; [left; split; [done|by exists s1]|]. right.
  destruct (push_synonyms_run c (length (first :: rest)) (first :: rest) [] ltac:(done) Ho) as (new & Ep & Hne & Hacc). specialize (Hne ltac:(done)).
  destruct new as [|t new]; [done|].
  assert (pushSynonymsOfExistingTokensInEmitBuffer c s1 = Ok (tt, set_buffers [] (t :: new) s1)) as Epush.
  { unfold pushSynonymsOfExistingTokensInEmitBuffer. erewrite bind_run by reflexivity. erewrite bind_run by reflexivity. rewrite Hb, He1, Ep. reflexivity. }
  rewrite (bind_run _ _ _ _ _ Epush). destruct (emit_run (set_buffers [] (t :: new) s1) t new eq_refl) as (s2 & E2 & Hg & Hss & Hb2 & He2). rewrite (bind_run _ _ _ _ _ E2).
  cbn in Hb2. exists (strip t), s2. split; [done|]. split; [|done]. split; [done|]. split; [eapply up_source; [exact Hss|eapply up_source; [|exact HR1]; done]|]. split; [by rewrite Hb2|].
  rewrite Hb2, He2, Eb. intros o Hacc'. apply (Hacc _ _ Hacc').
Qed.

(** A pass that reads a token: it may be kept to read on. *)
Lemma token_step s i l : R s (i :: l) -> emitBuffer s = [] -> Forall original (tokenBuffer s) ->
  (exists t s', step s = Ok (None, s') /\ R s' l /\ emitBuffer s' = [] /\ tokenBuffer s' = tokenBuffer s ++ [t] /\ original t /\ bare t = bare_item i) \/
  exists t s', step s = Ok (Some true, s') /\ leaves (i :: l) s t s' l /\ (length (tokenBuffer s') <= length (tokenBuffer s))%nat.
Proof using U.
  intros HR He Ho. destruct (up_next s i l HR) as (s1 & E & H1 & H2 & _ & _ & HR1 & Hk). pose proof (ke_tokens _ _ _ Hk) as Hb. pose proof (ke_emit _ _ _ Hk) as He1. rewrite He in He1.
  destruct (info_run s i s1 E H1 H2) as (t & Et & Hbare & Hot). set (s2 := set_type ANALYZED_ORIGINAL_TOKEN s1) in *.
  assert (R s2 l) as HR2 by (by eapply up_source; [|exact HR1]).
  assert (tokenBuffer s2 = tokenBuffer s /\ emitBuffer s2 = []) as [Hb2 He2] by (by split).
  assert (forall e buffer0 buffer (k : st stream unit), (forall s, tokenBuffer s = buffer0 -> k s = Ok (tt, set_buffers buffer (emitBuffer s) s)) ->
    e <> [] -> Forall original buffer -> (length buffer <= length (tokenBuffer s))%nat ->
    (forall o, accounted c (map bare buffer ++ map bare_item l) o -> accounted c (map bare (tokenBuffer s) ++ map bare_item (i :: l)) (map strip e ++ o)) ->
    exists t' s', (emitCurrentToken utf8to32 ;;; k ;;; ret (Some true)) (set_buffers buffer0 e s2) = Ok (Some true, s') /\
      leaves (i :: l) s t' s' l /\ (length (tokenBuffer s') <= length (tokenBuffer s))%nat) as Hemit.
  { intros e buffer0 buffer k Hkk Hne Hob Hl Hacc. destruct e as [|t' e]; [done|].
    destruct (emit_run (set_buffers buffer0 (t' :: e) s2) t' e eq_refl) as (s3 & E3 & Hg & Hss & Hb3 & He3). rewrite (bind_run _ _ _ _ _ E3).
    rewrite (bind_run _ _ _ _ _ (Hkk s3 Hb3)).
    eexists _, _. split; [reflexivity|]. split; [|exact Hl]. split; [exact Hg|]. split; [|split; [done|]].
    - eapply up_source; [|exact HR2]. destruct Hss. by constructor.
    - cbn. rewrite He3. intros o Ho'. by apply (Hacc o). }
  assert (forall buffer s, tokenBuffer s = buffer -> @ret stream unit tt s = Ok (tt, set_buffers buffer (emitBuffer s) s)) as Hret by (intros buffer s0 <-; by destruct s0).
  assert (step s = (match tokenBuffer s with
    | [] =>
        if is_prefix c (t_term t) then push_token t ;;; ret None
        else let '(expand, synonyms) := getValue c (t_term t) in
          if is_empty synonyms then push_emit [t] ;;; emitCurrentToken utf8to32 ;;; ret (Some true)
          else push_emit ((if expand then [t] else []) ++ map (fun w => mk_term w (t_position t) (t_charOffset t) (t_charLength t) ANALYZED_SYNONYM_TOKEN) synonyms) ;;;
            emitCurrentToken utf8to32 ;;; ret (Some true)
    | first :: _ =>
        let tokens := joined (tokenBuffer s) ++ t_term t in
        if is_prefix c tokens then push_token t ;;; ret None
        else let '(expand, synonyms) := getValue c tokens in
          if is_empty synonyms then pushSynonymsOfExistingTokensInEmitBuffer c ;;; push_token t ;;; emitCurrentToken utf8to32 ;;; ret (Some true)
          else push_emit ((if expand then tokenBuffer s ++ [t] else []) ++ synonym_infos synonyms (t_position first) (t_charOffset first)
                (wrap32 (t_charOffset t + t_charLength t - t_charOffset first))) ;;;
            emitCurrentToken utf8to32 ;;; modify (fun s => set_buffers [] (emitBuffer s) s) ;;; ret (Some true)
    end) s2) as ->.
  { unfold synonym_step. erewrite bind_run by reflexivity. rewrite He. cbn [is_empty negb]. rewrite (bind_run _ _ _ _ _ E). cbn [negb]. rewrite (bind_run _ _ _ _ _ Et).
    erewrite bind_run by reflexivity. by rewrite Hb2. }
  assert ((getValue c (t_term t)).2 = [] -> forall o, accounted c (map bare_item l) o -> accounted c (map bare_item (i :: l)) (strip t :: o)) as Hkeep.
  { intros Hv o Ho'. cbn [map]. rewrite <- Hbare. replace (strip t) with (kept (bare t)) by (unfold strip, kept; by rewrite Hot). by constructor. }
  destruct (tokenBuffer s) as [|first rest] eqn:Eb.
  - destruct (is_prefix c (t_term t)).
    { left. exists t. erewrite bind_run by reflexivity. eexists. split; [reflexivity|]. rewrite Hb2, He2. split; [|done]. by eapply up_source; [|exact HR2]. }
    right. destruct (getValue c (t_term t)) as [expand synonyms] eqn:Ev. destruct synonyms as [|w synonyms]; cbn [is_empty]; (erewrite bind_run by reflexivity); rewrite Hb2, He2.
    + apply (Hemit [t] [] [] (ret tt) (Hret [])); [done|done|done|]. intros o Ho'. apply Hkeep; done.
    + apply (Hemit _ [] [] (ret tt) (Hret [])); [by destruct expand|done|done|]. intros o Ho'.
      change (map bare [] ++ map bare_item (i :: l)) with ([bare_item i] ++ map bare_item l). rewrite <- Hbare.
      match goal with |- context [[] ++ ?x] => change ([] ++ x) with x end. rewrite map_app, <- app_assoc, map_map.
      replace (map strip (if expand then [t] else [])) with (if expand then map kept [bare t] else []) by (destruct expand; [by rewrite strip_kept by (by constructor)|done]).
      apply (acc_phrase c (bare t) [] expand (w :: synonyms)); [|done|done]. change [bare t] with (map bare [t]). by rewrite phrase_bare, phrase_single.
  - cbn zeta. set (buffer := first :: rest) in *. destruct (is_prefix c (joined buffer ++ t_term t)).
    { left. exists t. erewrite bind_run by reflexivity. eexists. split; [reflexivity|]. rewrite Hb2, He2. split; [|done]. by eapply up_source; [|exact HR2]. }
    right. destruct (getValue c (joined buffer ++ t_term t)) as [expand synonyms] eqn:Ev. destruct synonyms as [|w synonyms]; cbn [is_empty].
    + destruct (push_synonyms_run c (length buffer) buffer [] ltac:(done) Ho) as (new & Ep & Hne & Hacc). specialize (Hne ltac:(done)).
      assert (pushSynonymsOfExistingTokensInEmitBuffer c s2 = Ok (tt, set_buffers [] new s2)) as Epush.
      { unfold pushSynonymsOfExistingTokensInEmitBuffer. erewrite bind_run by reflexivity. erewrite bind_run by reflexivity. rewrite Hb2, He2, Ep. reflexivity. }
      rewrite (bind_run _ _ _ _ _ Epush). erewrite bind_run by reflexivity. cbn [app].
      apply (Hemit new [t] [t] (ret tt) (Hret [t])); [done|by constructor|cbn; lia|]. intros o Ho'. apply Hacc. cbn [map app] in *. by rewrite <- Hbare.
    + erewrite bind_run by reflexivity. rewrite Hb2, He2. apply (Hemit _ buffer [] _); [done|by destruct expand|done|cbn; lia|]. intros o Ho'. cbn [app map].
      rewrite map_app, <- app_assoc, strip_synonyms. rewrite <- Hbare.
      replace (map strip (if expand then buffer ++ [t] else [])) with (if expand then map kept (map bare (buffer ++ [t])) else [])
        by (destruct expand; [rewrite strip_kept; [done|by apply Forall_app; split; [|constructor]]|done]).
      replace (map bare buffer ++ bare t :: map bare_item l) with (map bare (buffer ++ [t]) ++ map bare_item l) by (rewrite map_app, <- app_assoc; done).
      unfold buffer. cbn [app map]. change (t_charOffset first) with (bare first).2. apply (acc_phrase c (bare first) (map bare (rest ++ [t])) expand (w :: synonyms)); [|done|done].
      change (bare first :: map bare (rest ++ [t])) with (map bare (buffer ++ [t])). rewrite phrase_bare. unfold phrase. by rewrite joined_snoc.
Qed.

(** A call: the end, or an output; the tokens to come and those in the buffer get fewer. *)
Lemma synonym_loop fuel : forall s l, R s l -> emitBuffer s = [] -> Forall original (tokenBuffer s) -> (length l < fuel)%nat ->
  (l = [] /\ tokenBuffer s = [] /\ exists s', loop fuel step s = Ok (false, s')) \/
  exists t s' l', loop fuel step s = Ok (true, s') /\ leaves l s t s' l' /\
    (length l' + length (tokenBuffer s') < length l + length (tokenBuffer s))%nat.
Proof using U.
  induction fuel as [|fuel IH]; intros s l HR He Ho Hf; [lia|]. cbn [loop]. destruct l as [|i l].
  - destruct (end_step s HR He Ho) as [(Hb & s' & E)|(t & s' & E & Hlv & Hb & Hne)].
    + left. split; [done|]. split; [done|]. exists s'. by rewrite (bind_run _ _ _ _ _ E).
    + right. exists t, s', []. rewrite (bind_run _ _ _ _ _ E). split; [done|]. split; [done|]. rewrite Hb. cbn. destruct (tokenBuffer s); [done|cbn; lia].
  - right. destruct (token_step s i l HR He Ho) as [(t & s1 & E & HR1 & He1 & Hb1 & Hot & Hbare)|(t & s' & E & Hlv & Hb)].
    + rewrite (bind_run _ _ _ _ _ E). assert (Forall original (tokenBuffer s1)) as Ho1 by (rewrite Hb1; apply Forall_app; by split; [|constructor]).
      assert (map bare (tokenBuffer s1) ++ map bare_item l = map bare (tokenBuffer s) ++ map bare_item (i :: l)) as Eq.
      { rewrite Hb1, map_app, <- app_assoc. cbn [map app]. by rewrite Hbare. }
      destruct (IH s1 l HR1 He1 Ho1 ltac:(cbn in Hf; lia)) as [(-> & Hb & _)|(t' & s' & l' & E' & (H1 & H2 & H3 & H4) & Hlt)].
      * rewrite Hb in Hb1. by destruct (tokenBuffer s).
      * exists t', s', l'. split; [exact E'|]. split; [|rewrite Hb1, length_app in Hlt; cbn in *; lia]. split; [done|]. split; [done|]. split; [done|].
        rewrite <- Eq. exact H4.
    + exists t, s', l. rewrite (bind_run _ _ _ _ _ E). split; [done|]. split; [done|]. cbn. lia.
Qed.

Abbreviation filter := (let! fuel := filter_fuel in loop fuel step).
Definition read_output (s : stream) : list Z * Z * AnalyzedTokenType := (currentToken s, currentTokenOffset s, type s).
Definition shown (t : output) : list Z * Z * AnalyzedTokenType := (utf8to32 t.1.1, t.1.2, t.2).

(** Reading to the end: with enough fuel, all is accounted for. *)
Lemma synonyms_run n : forall k s l, R s l -> Forall original (tokenBuffer s) -> (length l + length (tokenBuffer s) = n)%nat -> length (emitBuffer s) = k ->
  exists outputs o, outputs = map strip (emitBuffer s) ++ o /\ accounted c (map bare (tokenBuffer s) ++ map bare_item l) o /\
    exists fuel0, forall fuel, (fuel0 <= fuel)%nat -> exists s', tokens_of filter fuel read_output s = Ok (map shown outputs, s').
Proof using U.
  induction (lt_wf n) as [n _ IHn]. intros k. induction k as [|k IHk]; intros s l HR Ho Hn Hk.
  - apply length_zero_iff_nil in Hk as He. pose proof (up_size s l HR).
    destruct (synonym_loop (S (length (completeCharVector s) + length (internalTokenBuffer s) + length (mCurrentChineseTokens s))) s l HR He Ho ltac:(lia))
      as [(-> & Hb & s' & E)|(t & s' & l' & E & (Hg & HR' & Ho' & Hacc) & Hlt)].
    + exists [], []. rewrite He, Hb. split; [done|]. split; [constructor|]. exists 1%nat. intros [|fuel] Hf; [lia|]. exists s'. cbn [tokens_of].
      by rewrite (bind_run _ _ _ _ _ (E : filter s = _)).
    + destruct (IHn _ ltac:(rewrite <- Hn; exact Hlt) (length (emitBuffer s')) s' l' HR' Ho' eq_refl eq_refl) as (outputs & o & Eo & Ho2 & fuel0 & Hrun).
      exists (t :: outputs), (t :: outputs). rewrite He. split; [done|]. split; [rewrite Eo; by apply Hacc|]. exists (S fuel0). intros [|fuel] Hf; [lia|].
      destruct (Hrun fuel ltac:(lia)) as (s2 & E2). exists s2. cbn [tokens_of]. rewrite (bind_run _ _ _ _ _ (E : filter s = _)).
      erewrite bind_run by reflexivity. rewrite (bind_run _ _ _ _ _ E2). destruct Hg as (G1 & G2 & G3). unfold ret, read_output at 1, shown at 1. by rewrite G1, G2, G3.
  - destruct (emitBuffer s) as [|t e] eqn:He; [done|]. destruct (emit_run s t e He) as (s1 & E1 & (G1 & G2 & G3) & Hss & Hb1 & He1).
    destruct (IHk s1 l) as (outputs & o & Eo & Hacc & fuel0 & Hrun); [by eapply up_source|by rewrite Hb1|by rewrite Hb1|rewrite He1; cbn in Hk; lia|].
    rewrite Hb1 in Hacc. exists (strip t :: outputs), o. split; [by rewrite Eo, He1|]. split; [done|]. exists (S fuel0). intros [|fuel] Hf; [lia|].
    destruct (Hrun fuel ltac:(lia)) as (s2 & E2). exists s2. cbn [tokens_of].
    assert (filter s = Ok (true, s1)) as E.
    { unfold filter_fuel. erewrite bind_run by reflexivity. cbn [loop]. unfold synonym_step at 1. rewrite bind_assoc. erewrite bind_run by reflexivity. rewrite He. cbn [is_empty negb].
      rewrite bind_assoc. by rewrite (bind_run _ _ _ _ _ E1). }
    rewrite (bind_run _ _ _ _ _ E). erewrite bind_run by reflexivity. rewrite (bind_run _ _ _ _ _ E2). unfold ret, read_output at 1, shown at 1. by rewrite G1, G2, G3.
Qed.
End Filter.

(** Without phrases of the rules, the tokens go on as they are. *)
Lemma accounted_plain c l o : accounted c l o -> (forall pre seg post, l = pre ++ seg ++ post -> seg <> [] -> (getValue c (phrase_of seg)).2 = []) -> o = map kept l.
Proof.
  induction 1 as [|t l o _ _ IH|t seg expand synonyms l o Hv Hne _ IH]; intros Hno; [done|..].
  - cbn. f_equal. apply IH. intros pre seg post -> Hs. apply (Hno (t :: pre) seg post); [done|done].
  - specialize (Hno [] (t :: seg) l eq_refl ltac:(done)). by rewrite Hv in Hno.
Qed.

(** ** Properties *)

(** (C18) SynonymFilter behind the chain of StandardAnalyzer: with enough fuel, every token
    is accounted for once, in order, as a token without synonyms of its own that goes on
    as it is, or in a phrase of the rules, which gives its synonyms; where no phrase of
    the text has synonyms, the tokens go on as they are. *)
Theorem synonyms_account (utf32to8 utf8to32 : list Z -> list Z) (getFreq : list Z -> Z -> Z -> Z) (maxWordLength garbage : Z)
    (special : list Z) (protectedWords stopWords : option (gset (list Z))) (c : SynonymContainer) (text : list Z) (prefix : bool) (start : stream) :
  let tokens := map (bare_item utf32to8) (kept_tokens utf32to8 special protectedWords stopWords prefix text) in
  Z.of_nat (length text) < 2 ^ 31 -> internalTokenBuffer start = [] -> tokenBuffer start = [] -> emitBuffer start = [] ->
  exists outputs, accounted c tokens outputs /\
    ((forall pre seg post, tokens = pre ++ seg ++ post -> seg <> [] -> (getValue c (phrase_of seg)).2 = []) -> outputs = map kept tokens) /\
    exists fuel0, forall fuel, (fuel0 <= fuel)%nat -> exists s',
      tokens_of (processToken utf32to8 utf8to32 getFreq maxWordLength garbage (StandardAnalyzer_createOperatorFlow special protectedWords stopWords (Some c) None))
        fuel read_output (fillInCharacters text prefix start) = Ok (map (shown utf8to32) outputs, s').
Proof.
  intros tokens Hn Hi Hb He.
  destruct (standard_upstream utf32to8 utf8to32 getFreq maxWordLength garbage special protectedWords stopWords None (fun w => w)) as (R & U & HR).
  specialize (HR text prefix start Hn Hi ltac:(intros d; done)).
  destruct (synonyms_run utf32to8 utf8to32 c _ R (U := U) _ _ (fillInCharacters text prefix start) _ HR ltac:(cbn; by rewrite Hb) eq_refl eq_refl) as (outputs & o & Eo & Hacc & Hrun).
  cbn in Eo, Hacc. rewrite He in Eo. rewrite Hb in Hacc. cbn in Eo, Hacc. subst outputs. exists o. split; [exact Hacc|]. split; [by apply accounted_plain|]. exact Hrun.
Qed.

(** The text of a rule: "new york" gives "ny", which is kept beside it. *)
Definition ex_rules : SynonymContainer := add_rule id id true [Stemmer.bytes "new york"] [Stemmer.bytes "ny"] (mk_synonyms ∅ ∅).
Definition ex_process (c : SynonymContainer) : st stream bool :=
  processToken id id (fun _ _ _ => 0) 0 0 (StandardAnalyzer_createOperatorFlow [] None None (Some c) None).

Lemma synonyms_account_witness : exists outputs fuel0, accounted ex_rules [(Stemmer.bytes "old", 1); (Stemmer.bytes "new", 5); (Stemmer.bytes "york", 9)] outputs /\
  forall fuel, (fuel0 <= fuel)%nat -> exists s', tokens_of (ex_process ex_rules) fuel read_output (fillInCharacters (Stemmer.bytes "old new york") false ex_start) =
    Ok (map (shown id) outputs, s').
Proof.
  destruct (synonyms_account id id (fun _ _ _ => 0) 0 0 [] None None ex_rules (Stemmer.bytes "old new york") false ex_start ltac:(by vm_compute) eq_refl eq_refl eq_refl)
    as (outputs & Hacc & _ & fuel0 & H).
  exists outputs, fuel0. split; [|exact H]. vm_compute in Hacc |- *. exact Hacc.
Defined.

(** Reading ahead loses count of the positions: with one rule, for "a b x", the tokens
    of "a b c d e f" are given unchanged, but c and d both get position 3 and e and f
    position 4, since giving an earlier token sets back the counter that the tokenizer
    goes on with.  As a query of its own, "c d" has the positions 1 and 2, so that the
    phrase is not where it is in the record. *)
Theorem synonym_positions_repeat :
  let rules := add_rule id id false [Stemmer.bytes "a b x"] [Stemmer.bytes "z"] (mk_synonyms ∅ ∅) in
  let query (text : string) := match tokenizeQuery id id (ex_process rules) 20 (Stemmer.bytes text) false ex_start with Ok (l, _) => Some l | Err _ => None end in
  query "a b c d e f"%string = Some (zip (map Stemmer.bytes ["a"; "b"; "c"; "d"; "e"; "f"]%string) [1; 2; 3; 3; 4; 4]) /\
  query "c d"%string = Some (zip (map Stemmer.bytes ["c"; "d"]%string) [1; 2]).
Proof. vm_compute. done. Qed.

(** A phrase that begins inside the beginning of another one is not found: of the rules
    for "a b c" and "b d", the second is not applied to "a b d". *)
Lemma overlapping_phrase_missed :
  let rules := add_rule id id false [Stemmer.bytes "b d"] [Stemmer.bytes "y"] (add_rule id id false [Stemmer.bytes "a b c"] [Stemmer.bytes "x"] (mk_synonyms ∅ ∅)) in
  let query (text : string) := match tokenizeQuery id id (ex_process rules) 20 (Stemmer.bytes text) false ex_start with Ok (l, _) => map fst l | Err _ => [] end in
  query "a b d"%string = map Stemmer.bytes ["a"; "b"; "d"]%string /\ query "b d"%string = [Stemmer.bytes "y"].
Proof. vm_compute. done. Qed.
End AnalyzerSynonyms.
