(* ===== verification/Dictionary.v ===== *)
(** * The Chinese dictionary (core/analyzer/Dictionary.cpp, Dictionary.h)

    Words with their frequencies and the length of the longest word, and the file that
    keeps them, scrambled with an exclusive or.  What was saved is loaded again; a file
    that was cut off is refused. *)
From Stdlib Require Import ZArith Lia List Bool Sorted.
From stdpp Require Import base gmap list sorting.
From S2P Require Import Prelude ForwardList TokenStream.
Open Scope Z_scope.

Module Dictionary.
Import ForwardList(le_join, le_split).
Import TokenStream(INVALID_WORD_FREQ).

Definition SCRAMBLE_CHAR_MASK : Z := 0x65.
Definition SCRAMBLE_SHORT_MASK : Z := 0x710F.
Definition DICTIONARY_LEADING_KEY : Z := 1894704.

Record Dictionary := mk_dict { mMaxWordLength : Z; mWordFrequencyMap : gmap (list Z) Z }.
Definition set_max (v : Z) (d : Dictionary) : Dictionary := mk_dict v (mWordFrequencyMap d).
Definition set_map (v : gmap (list Z) Z) (d : Dictionary) : Dictionary := mk_dict (mMaxWordLength d) v.
Definition new_dictionary : Dictionary := mk_dict 0 ∅.

Definition scrambleChar (oldChar : Z) : Z := Z.lxor oldChar SCRAMBLE_CHAR_MASK.
Definition unscrambleChar (oldChar : Z) : Z := Z.lxor oldChar SCRAMBLE_CHAR_MASK.
Definition scrambleShort (oldShort : Z) : Z := Z.lxor oldShort SCRAMBLE_SHORT_MASK.
Definition unscrambleShort (oldShort : Z) : Z := Z.lxor oldShort SCRAMBLE_SHORT_MASK.

Section Dictionary.
(** The conversion to UTF-8 and the number of characters of a UTF-8 string. *)
Variables (utf32to8 : list Z -> list Z) (getUtf8StringCharacterNumber : list Z -> Z).

(** ** Words *)

Definition getFreq_of (d : Dictionary) (utf8String : list Z) : Z := default INVALID_WORD_FREQ (mWordFrequencyMap d !! utf8String).
Definition getFreq (d : Dictionary) (buffer : list Z) (istart len : Z) : Z :=
  if (len <? 1) || (Z.of_nat (length buffer) <? wrap32 (istart + len)) then INVALID_WORD_FREQ
  else getFreq_of d (utf32to8 (take (Z.to_nat len) (drop (Z.to_nat istart) buffer))).

(** A word that is there keeps its frequency. *)
Definition insert (d : Dictionary) (utf8String : list Z) (freq : Z) : bool * Dictionary :=
  match mWordFrequencyMap d !! utf8String with
  | Some _ => (false, d)
  | None =>
      let d := set_map (<[utf8String := freq]> (mWordFrequencyMap d)) d in
      let len := getUtf8StringCharacterNumber utf8String in
      (true, if mMaxWordLength d <? len then set_max len d else d)
  end.

(** ** The file: numbers of [int] and [short], least significant byte first *)

Definition int_bytes (z : Z) : list Z := le_split 4 z.
Definition int_of (bs : list Z) : Z := int32 (le_join bs).

(** std::map goes through the words in the order of their bytes. *)
Fixpoint word_le (a b : list Z) : bool :=
  match a, b with
  | [], _ => true
  | _, [] => false
  | x :: a', y :: b' => (x <? y) || ((x =? y) && word_le a' b')
  end.
Definition entry_le (x y : list Z * Z) : Prop := word_le x.1 y.1 = true.
#[local] Instance entry_le_dec : RelDecision entry_le := fun x y => decide (word_le x.1 y.1 = true).
Definition entries (d : Dictionary) : list (list Z * Z) := merge_sort entry_le (map_to_list (mWordFrequencyMap d)).

Definition word_bytes (x : list Z * Z) : list Z :=
  int_bytes (Z.of_nat (length x.1)) ++ map scrambleChar x.1 ++ le_split 2 (scrambleShort x.2).

(** What saveDict writes into a file that it could open. *)
Definition saveDict (d : Dictionary) : list Z :=
  int_bytes DICTIONARY_LEADING_KEY ++ int_bytes (mMaxWordLength d) ++ int_bytes (Z.of_nat (size (mWordFrequencyMap d))) ++
  concat (map word_bytes (entries d)).

(** [fread] of [n] bytes: those there are, and the rest of the file. *)
Definition fread (n : nat) (fp : list Z) : option (list Z * list Z) := if Nat.ltb (length fp) n then None else Some (take n fp, drop n fp).

Fixpoint read_chars (len : nat) (fp word : list Z) : option (list Z * list Z) :=
  match len with
  | O => Some (word, fp)
  | S len' => match fread 1 fp with Some (ch, fp) => read_chars len' fp (word ++ map unscrambleChar ch) | None => None end
  end.
Definition read_word (fp : list Z) : option (list Z * Z * list Z) :=
  match fread 4 fp with
  | None => None
  | Some (len, fp) =>
      match read_chars (Z.to_nat (int_of len)) fp [] with
      | None => None
      | Some (word, fp) => match fread 2 fp with None => None | Some (freq, fp) => Some (word, unscrambleShort (swrap 16 (le_join freq)), fp) end
      end
  end.

(** The loop over the words: whether it reached its end, and the words so far. *)
Fixpoint read_words (n : nat) (fp : list Z) (d : Dictionary) : bool * Dictionary :=
  match n with
  | O => (true, d)
  | S n' => match read_word fp with None => (false, d) | Some (word, freq, fp) => read_words n' fp (insert d word freq).2 end
  end.

(** The value returned, the dictionary after it, and whether the file is left open. *)
Record loaded := mk_loaded { returned : Z; dictionary : Dictionary; left_open : bool }.

(** A number that is cut off is overwritten as far as there are bytes. *)
Definition loadDict (file : option (list Z)) (d : Dictionary) : loaded :=
  match file with
  | None => mk_loaded (-1) d false
  | Some fp =>
      match fread 4 fp with
      | None => mk_loaded (-1) d true
      | Some (leadingKey, fp) =>
          if negb (int_of leadingKey =? DICTIONARY_LEADING_KEY) then mk_loaded (-1) d true
          else
            match fread 4 fp with
            | None => mk_loaded (-1) (set_max (int_of (fp ++ drop (length fp) (int_bytes (mMaxWordLength d)))) d) true
            | Some (max, fp) =>
                let d := set_map ∅ (set_max (int_of max) d) in
                match fread 4 fp with
                | None => mk_loaded (-1) d true
                | Some (mapSize, fp) =>
                    let '(b, d) := read_words (Z.to_nat (int_of mapSize)) fp d in
                    if b then mk_loaded (int32 (Z.of_nat (size (mWordFrequencyMap d)))) d false else mk_loaded (-1) d true
                end
            end
      end
  end.

(** ** Numbers and bytes *)

Lemma le_join_wrap n : forall z, le_join (le_split n z) = wrap (8 * Z.of_nat n) z.
Proof using.
  induction n as [|n IH]; intros z; [unfold wrap; by rewrite Z.mod_1_r|]. cbn [le_split le_join]. rewrite IH. unfold wrap.
  replace (2 ^ (8 * Z.of_nat (S n))) with (256 * 2 ^ (8 * Z.of_nat n)) by (rewrite Nat2Z.inj_succ, Z.mul_succ_r, Z.pow_add_r by lia; lia).
  rewrite Z.rem_mul_r by lia. done.
Qed.
Lemma length_split_bytes n : forall z, length (le_split n z) = n.
Proof using. induction n as [|n IH]; intros z; [done|]. cbn. by rewrite IH. Qed.

Lemma int_of_bytes z : - 2 ^ 31 <= z < 2 ^ 31 -> int_of (int_bytes z) = z.
Proof using. intros H. unfold int_of, int_bytes. rewrite le_join_wrap. by apply (swrap_signed 32). Qed.

(** ** Reading what was written *)

Lemma fread_app n a b : length a = n -> fread n (a ++ b) = Some (a, b).
Proof using.
  intros <-. unfold fread. rewrite (proj2 (Nat.ltb_ge _ _)) by (rewrite length_app; lia). by rewrite take_app_length, drop_app_length.
Qed.
Lemma fread_short n l : (length l < n)%nat -> fread n l = None.
Proof using. intros H. unfold fread. by rewrite (proj2 (Nat.ltb_lt _ _) H). Qed.

(** Of a file cut off, a part is there or the file ends inside it. *)
Lemma fread_cut k a b n : length a = k ->
  fread k (take n (a ++ b)) = if Nat.ltb n k then None else Some (a, take (n - k) b).
Proof using.
  intros Ha. destruct (Nat.ltb_spec n k).
  - apply fread_short. rewrite length_take. lia.
  - rewrite take_app, Ha, (take_ge a) by lia. by apply fread_app.
Qed.

Lemma read_chars_run w rest : forall acc, read_chars (length w) (map scrambleChar w ++ rest) acc = Some (acc ++ w, rest).
Proof using.
  induction w as [|c w IH]; intros acc; [by rewrite app_nil_r|]. cbn [length read_chars map app]. change (?x :: ?l ++ rest) with ([x] ++ (l ++ rest)).
  rewrite fread_app by done. rewrite IH, <- app_assoc. cbn. unfold unscrambleChar, scrambleChar. by rewrite Z.lxor_assoc, Z.lxor_nilpotent, Z.lxor_0_r.
Qed.
Lemma read_chars_short n : forall l acc, (length l < n)%nat -> read_chars n l acc = None.
Proof using.
  induction n as [|n IH]; intros l acc H; [lia|]. cbn [read_chars]. destruct l as [|c l]; [done|].
  change (fread 1 (c :: l)) with (Some ([c], l)). apply IH. cbn in H. lia.
Qed.

(** A word whose length and frequency are numbers of their types. *)
Definition storable (x : list Z * Z) : Prop := Z.of_nat (length x.1) < 2 ^ 31 /\ - 2 ^ 15 <= x.2 < 2 ^ 15.

Lemma lxor_short z m : - 2 ^ 15 <= z < 2 ^ 15 -> 0 <= m < 2 ^ 15 -> - 2 ^ 15 <= Z.lxor z m < 2 ^ 15.
Proof using.
  intros Hz Hm. assert (forall a, - 2 ^ 15 <= a < 2 ^ 15 <-> Z.shiftr a 15 = 0 \/ Z.shiftr a 15 = -1) as H.
  { intros a. rewrite Z.shiftr_div_pow2 by lia. pose proof (Z.div_mod a (2 ^ 15) ltac:(lia)). pose proof (Z.mod_pos_bound a (2 ^ 15) ltac:(lia)). split; intros; nia. }
  rewrite H in *. rewrite Z.shiftr_lxor. rewrite (Z.shiftr_div_pow2 m), Z.div_small, Z.lxor_0_r by lia. done.
Qed.

Lemma unscramble f : - 2 ^ 15 <= f < 2 ^ 15 -> unscrambleShort (swrap 16 (le_join (le_split 2 (scrambleShort f)))) = f.
Proof using.
  intros H. rewrite le_join_wrap, (swrap_signed 16) by (try apply lxor_short; unfold SCRAMBLE_SHORT_MASK; lia).
  unfold unscrambleShort, scrambleShort. by rewrite Z.lxor_assoc, Z.lxor_nilpotent, Z.lxor_0_r.
Qed.

Lemma read_word_run x rest : storable x -> read_word (word_bytes x ++ rest) = Some (x.1, x.2, rest).
Proof using.
  destruct x as [w f]. intros [Hw Hf]. cbn [fst snd] in *. unfold read_word, word_bytes. cbn [fst snd]. rewrite <- !app_assoc.
  rewrite (fread_app 4 (int_bytes _)) by apply length_split_bytes. rewrite int_of_bytes by lia. rewrite Nat2Z.id, read_chars_run.
  rewrite (fread_app 2 (le_split 2 _)) by done. by rewrite unscramble.
Qed.
Lemma read_word_short x n : storable x -> (n < length (word_bytes x))%nat -> read_word (take n (word_bytes x)) = None.
Proof using.
  destruct x as [w f]. intros [Hw Hf] Hn. cbn [fst snd] in *. unfold read_word. unfold word_bytes in *. cbn [fst snd] in *. unfold int_bytes at 1 in Hn. rewrite !length_app, length_map, !length_split_bytes in Hn.
  rewrite (fread_cut 4) by apply length_split_bytes. destruct (Nat.ltb_spec n 4); [done|]. rewrite int_of_bytes by lia. rewrite Nat2Z.id.
  destruct (Nat.lt_ge_cases (n - 4) (length w)).
  - by rewrite read_chars_short by (rewrite length_take; lia).
  - rewrite take_app, length_map, (take_ge (map _ _)) by (rewrite length_map; lia). rewrite read_chars_run. rewrite fread_short; [done|]. rewrite length_take, ?length_map, ?length_split_bytes. lia.
Qed.

Abbreviation insert_entry := (fun d (x : list Z * Z) => (insert d x.1 x.2).2).

Lemma read_words_run l : Forall storable l -> forall d, read_words (length l) (concat (map word_bytes l)) d = (true, fold_left insert_entry l d).
Proof using.
  induction 1 as [|x l Hx _ IH]; intros d; [done|]. cbn [length read_words map concat fold_left]. by rewrite read_word_run, IH.
Qed.
Lemma read_words_short l : Forall storable l -> forall n d, (n < length (concat (map word_bytes l)))%nat ->
  (read_words (length l) (take n (concat (map word_bytes l))) d).1 = false.
Proof using.
  induction 1 as [|x l Hx _ IH]; intros n d Hn; [cbn in Hn; lia|]. cbn [length read_words map concat] in *. rewrite length_app in Hn.
  destruct (Nat.lt_ge_cases n (length (word_bytes x))).
  - rewrite take_app_le by lia. by rewrite read_word_short.
  - rewrite take_app, (take_ge (word_bytes x)) by lia. rewrite read_word_run by done. apply IH. lia.
Qed.

(** ** Dictionaries *)

(** What insertions make: the words are storable, and none is longer than the longest. *)
Record valid (d : Dictionary) : Prop := mk_valid {
  va_max : 0 <= mMaxWordLength d < 2 ^ 31;
  va_words : map_Forall (fun w f => storable (w, f) /\ getUtf8StringCharacterNumber w <= mMaxWordLength d) (mWordFrequencyMap d) }.

Definition insertable (x : list Z * Z) : Prop := storable x /\ getUtf8StringCharacterNumber x.1 < 2 ^ 31.

Lemma insert_valid d x : valid d -> insertable x -> valid (insert_entry d x) /\ (size (mWordFrequencyMap (insert_entry d x)) <= S (size (mWordFrequencyMap d)))%nat.
Proof using.
  intros [Hm Hw] [Hx Hn]. destruct x as [w f]. unfold insert. cbn [fst snd] in *. destruct (mWordFrequencyMap d !! w) eqn:E; [split; [done|cbn; lia]|]. cbn [snd].
  destruct (Z.ltb_spec (mMaxWordLength (set_map (<[w:=f]> (mWordFrequencyMap d)) d)) (getUtf8StringCharacterNumber w)) as [Hlt|Hlt]; cbn in Hlt |- *; rewrite map_size_insert_None by done; (split; [|done]); constructor; cbn; try lia;
    apply map_Forall_insert; try done; (split; [split; [done|lia]|]); (eapply map_Forall_impl; [exact Hw|]; intros w' f' [H1 H2]; split; [done|cbn beta in *; lia]).
Qed.

Lemma inserts_valid l : Forall insertable l -> forall d, valid d ->
  valid (fold_left insert_entry l d) /\ (size (mWordFrequencyMap (fold_left insert_entry l d)) <= size (mWordFrequencyMap d) + length l)%nat.
Proof using.
  induction 1 as [|x l Hx _ IH]; intros d Hd; [split; [done|cbn; lia]|]. destruct (insert_valid d x Hd Hx) as [H1 H2]. destruct (IH _ H1) as [H3 H4]. cbn [fold_left length]. split; [done|lia].
Qed.

Lemma entries_perm d : entries d ≡ₚ map_to_list (mWordFrequencyMap d).
Proof using. apply merge_sort_Permutation. Qed.

(** The words of a file are inserted one by one, whatever their order. *)
Lemma inserts_run max l : forall m, NoDup (map fst l) -> Forall (fun x => m !! x.1 = None /\ getUtf8StringCharacterNumber x.1 <= max) l ->
  fold_left insert_entry l (mk_dict max m) = mk_dict max (list_to_map l ∪ m).
Proof using.
  induction l as [|[w f] l IH]; intros m Hd Hl; [by rewrite list_to_map_nil, (left_id_L ∅ (∪))|]. cbn [map fst] in Hd. apply NoDup_cons in Hd as [Hw Hd]. apply Forall_cons in Hl as [[H1 H2] Hl]. cbn [fst] in *.
  cbn [fold_left]. unfold insert at 2. cbn [fst snd mWordFrequencyMap mMaxWordLength set_map]. rewrite H1. cbn [snd]. rewrite (proj2 (Z.ltb_ge _ _) H2). unfold set_map. cbn [mMaxWordLength].
  rewrite IH; [|done|].
  - f_equal. cbn [list_to_map foldr fst snd]. change (list_to_map ((w, f) :: l)) with (<[w:=f]> (list_to_map l : gmap (list Z) Z)). rewrite <- insert_union_l, <- insert_union_r; [done|].
    by apply not_elem_of_list_to_map.
  - apply Forall_forall. intros x Hx. pose proof (proj1 (Forall_forall _ _) Hl x Hx) as [H3 H4]. split; [|done]. rewrite lookup_insert_ne; [done|]. intros ->. apply Hw. by apply list_elem_of_fmap_2.
Qed.

Lemma load_entries d : valid d -> fold_left insert_entry (entries d) (mk_dict (mMaxWordLength d) ∅) = d /\ Forall storable (entries d) /\ length (entries d) = size (mWordFrequencyMap d).
Proof using.
  intros [Hm Hw]. assert (Forall (fun x => storable x /\ getUtf8StringCharacterNumber x.1 <= mMaxWordLength d) (entries d)) as Hl.
  { rewrite entries_perm. apply Forall_forall. intros [w f] Hx. apply elem_of_map_to_list in Hx. by apply Hw in Hx. }
  assert (NoDup ((entries d).*1)) as Hd by (rewrite entries_perm; apply NoDup_fst_map_to_list). split; [|split].
  - rewrite inserts_run; [|exact Hd|].
    + rewrite (right_id_L ∅ (∪)). rewrite (list_to_map_proper _ _ Hd (entries_perm d)), list_to_map_to_list. by destruct d.
    + eapply Forall_impl; [exact Hl|]. intros x [_ H]. by rewrite lookup_empty.
  - eapply Forall_impl; [exact Hl|]. by intros x [H _].
  - rewrite entries_perm. apply length_map_to_list.
Qed.

Lemma int_bytes_length z : length (int_bytes z) = 4%nat.
Proof using. done. Qed.

Lemma save_load d d0 : valid d -> Z.of_nat (size (mWordFrequencyMap d)) < 2 ^ 31 ->
  loadDict (Some (saveDict d)) d0 = mk_loaded (Z.of_nat (size (mWordFrequencyMap d))) d false.
Proof using.
  intros Hv Hs. destruct (load_entries d Hv) as (H1 & H2 & H3). unfold loadDict, saveDict. rewrite !(fread_app 4 (int_bytes _)) by done.
  rewrite !int_of_bytes by (unfold DICTIONARY_LEADING_KEY; pose proof (va_max d Hv); lia). rewrite Nat2Z.id, <- H3, read_words_run by done.
  unfold set_map, set_max. cbn [negb Z.eqb mMaxWordLength]. rewrite Z.eqb_refl. cbn [negb]. rewrite H1, H3. f_equal.
  rewrite <- (swrap_signed 32 (Z.of_nat (size (mWordFrequencyMap d)))) at 2 by lia. rewrite wrap_id by (unfold is_uint; lia). done.
Qed.

Lemma load_cut d d0 n : valid d -> Z.of_nat (size (mWordFrequencyMap d)) < 2 ^ 31 -> (n < length (saveDict d))%nat ->
  returned (loadDict (Some (take n (saveDict d))) d0) = -1.
Proof using.
  intros Hv Hs. destruct (load_entries d Hv) as (_ & H2 & H3). unfold loadDict, saveDict. rewrite !length_app, !int_bytes_length. intros Hn.
  rewrite (fread_cut 4) by done. destruct (Nat.ltb_spec n 4); [done|]. destruct (negb _); [done|].
  rewrite (fread_cut 4) by done. destruct (Nat.ltb_spec (n - 4) 4); [done|].
  rewrite (fread_cut 4) by done. destruct (Nat.ltb_spec (n - 4 - 4) 4); [done|]. rewrite int_of_bytes by lia. rewrite Nat2Z.id, <- H3.
  destruct (read_words _ _ _) as [b d'] eqn:E. apply (f_equal fst) in E. rewrite read_words_short in E by (done || lia). cbn in E. by subst b.
Qed.
End Dictionary.

(** (C33) A dictionary made by insertions is loaded as it was saved, with its frequencies
    and its longest word, whatever was in the dictionary before; and a file that is cut
    off anywhere is refused. *)
Theorem dictionary_roundtrip (getUtf8StringCharacterNumber : list Z -> Z) (words : list (list Z * Z)) :
  let d := fold_left (fun d (x : list Z * Z) => (insert getUtf8StringCharacterNumber d x.1 x.2).2) words new_dictionary in
  Forall (insertable getUtf8StringCharacterNumber) words -> Z.of_nat (length words) < 2 ^ 31 ->
  forall d0, loadDict getUtf8StringCharacterNumber (Some (saveDict d)) d0 = mk_loaded (Z.of_nat (size (mWordFrequencyMap d))) d false /\
    forall n, (n < length (saveDict d))%nat -> returned (loadDict getUtf8StringCharacterNumber (Some (take n (saveDict d))) d0) = -1.
Proof.
  intros d Hw Hn d0. destruct (inserts_valid getUtf8StringCharacterNumber words Hw new_dictionary) as [Hv Hs]; [by constructor|]. fold d in Hv, Hs. cbn [new_dictionary mWordFrequencyMap] in Hs. rewrite map_size_empty in Hs. split.
  - apply save_load; [done|lia].
  - intros n. apply load_cut; [done|lia].
Qed.

(** Two words, the second of two characters. *)
Definition ex_words : list (list Z * Z) := [([65], 300); ([66; 67], 20)].

Lemma dictionary_roundtrip_witness :
  let file := saveDict (mk_dict 2 (list_to_map ex_words)) in let load f := loadDict (fun w => Z.of_nat (length w)) (Some f) new_dictionary in
  load file = mk_loaded 2 (mk_dict 2 (list_to_map ex_words)) false /\ returned (load (take 20 file)) = -1.
Proof.
  destruct (dictionary_roundtrip (fun w => Z.of_nat (length w)) ex_words ltac:(repeat apply List.Forall_cons; try apply List.Forall_nil; unfold insertable, storable; cbn; lia)
    ltac:(cbn; lia) new_dictionary) as [H1 H2].
  split; [exact H1|]. exact (H2 20%nat ltac:(vm_compute; lia)).
Defined.
End Dictionary.
