(* ===== verification/AnalyzerChinese.v ===== *)
(** * Segmentation of Chinese text (ChineseTokenizer.cpp)

    tokenize cuts a sequence of Chinese characters into words of the dictionary and single
    characters.  The table that it fills from gap to gap is against a reference: the cuts
    it gives have the least score of all the cuts that it considers. *)
From Stdlib Require Import ZArith Lia List Bool.
From stdpp Require Import base gmap list.
From S2P Require Import Prelude ForwardList TokenStream Analyzer Dictionary.
Open Scope Z_scope.

Module AnalyzerChinese.
Import TokenStream Analyzer.
Import ForwardList(ANALYZED_ORIGINAL_TOKEN).

(** ** Generic lemmas *)

Lemma fold_seq_inv {S} (body : S -> Z -> result S) (I : Z -> S -> Prop) n : forall a s, I a s ->
  (forall i s, a <= i < a + Z.of_nat n -> I i s -> exists s', body s i = Ok s' /\ I (i + 1) s') ->
  exists s', fold_res (seqZ a (Z.of_nat n)) body s = Ok s' /\ I (a + Z.of_nat n) s'.
Proof.
  induction n as [|n IH]; intros a s Hs Hstep; [exists s; split; [done|by rewrite Z.add_0_r]|].
  rewrite seqZ_cons by lia. cbn [fold_res]. destruct (Hstep a s ltac:(lia) Hs) as (s1 & E & H1). rewrite E. cbn [rbind].
  destruct (IH (a + 1) s1 H1) as (s2 & E2 & H2); [intros i s' Hi; apply Hstep; lia|]. exists s2.
  replace (Z.pred (Z.of_nat (Datatypes.S n))) with (Z.of_nat n) by lia. replace (Z.succ a) with (a + 1) by lia. split; [exact E2|].
  by replace (a + Z.of_nat (Datatypes.S n)) with (a + 1 + Z.of_nat n) by lia.
Qed.

Lemma vec_at_insert {A} (l : list A) i j x : 0 <= i < Z.of_nat (length l) -> 0 <= j ->
  vec_at (<[Z.to_nat i := x]> l) j = if j =? i then Ok x else vec_at l j.
Proof.
  intros Hi Hj. unfold vec_at. rewrite (proj2 (Z.ltb_ge j 0)) by lia. destruct (Z.eqb_spec j i) as [->|Hne].
  - by rewrite list_lookup_insert_eq by lia.
  - by rewrite list_lookup_insert_ne by lia.
Qed.

Lemma vec_set_run {A} (l : list A) i x : 0 <= i < Z.of_nat (length l) -> vec_set l i x = Ok (<[Z.to_nat i := x]> l).
Proof. intros H. by apply vec_set_Ok. Qed.

Lemma vec_at_replicate {A} n (x : A) j : 0 <= j < Z.of_nat n -> vec_at (replicate n x) j = Ok x.
Proof. intros H. apply vec_at_nth. split; [lia|]. apply lookup_replicate. split; [done|lia]. Qed.

(** ** The reference *)

Section Chinese.
Variables (getFreq : list Z -> Z -> Z -> Z) (maxWordLength : Z) (sentence : list Z) (istart : Z).

(** The score of the word that takes [len] characters from a gap on, if it may be cut out:
    it is in the dictionary, or it is a single character. *)
Definition word_score (gap len : Z) : option Z :=
  let freq := getFreq sentence (istart + gap) len in
  if freq =? INVALID_WORD_FREQ then if len =? 1 then Some (UNKNOWN_CHAR_FREQ + TOKEN_LENGTH_PENALTY) else None
  else Some (freq + TOKEN_LENGTH_PENALTY).

(** The words up to a gap, the last one first, each shorter than the longest word of the
    dictionary, and the sum of their scores. *)
Inductive segmentation : Z -> list (Z * Z) -> Z -> Prop :=
  | seg_start : segmentation 0 [] 0
  | seg_word gap gap' tokens c w : segmentation gap tokens c -> gap < gap' -> gap' - gap < maxWordLength -> word_score gap (gap' - gap) = Some w ->
      segmentation gap' ((istart + gap, istart + gap') :: tokens) (c + w).

Definition least (gap c : Z) : Prop := (exists tokens, segmentation gap tokens c) /\ forall tokens c', segmentation gap tokens c' -> c <= c'.

Lemma segmentation_gap gap tokens c : segmentation gap tokens c -> 0 <= gap.
Proof using. induction 1; lia. Qed.

(** The words of a segmentation make up the text. *)
Lemma segmentation_text gap tokens c : segmentation gap tokens c -> 0 <= istart -> istart + gap <= Z.of_nat (length sentence) ->
  concat (map (fun t => take (Z.to_nat (t.2 - t.1)) (drop (Z.to_nat t.1) sentence)) (rev tokens)) = take (Z.to_nat gap) (drop (Z.to_nat istart) sentence) /\
  Forall (fun t => istart <= t.1 < t.2 /\ t.2 <= istart + gap) tokens.
Proof using.
  induction 1 as [|gap gap' tokens c w Hs IH Hlt Hmax Hw]; intros H0 Hn; [by split|]. destruct (IH H0 ltac:(lia)) as [E Hall].
  pose proof (segmentation_gap _ _ _ Hs). cbn [rev]. split.
  - rewrite map_app, concat_app, E. cbn [map concat fst snd]. rewrite app_nil_r. replace (Z.to_nat (istart + gap)) with (Z.to_nat istart + Z.to_nat gap)%nat by lia.
    rewrite <- drop_drop. rewrite <- (take_drop (Z.to_nat gap) (take (Z.to_nat gap') (drop (Z.to_nat istart) sentence))), take_take, skipn_firstn_comm. do 2 f_equal; lia.
  - constructor; [cbn; lia|]. eapply Forall_impl; [exact Hall|]. intros t Ht. cbn beta in *. lia.
Qed.

(** ** The table *)

Hypothesis (long_words : 2 <= maxWordLength).
Hypothesis (short_freqs : forall gap len, -1 <= getFreq sentence gap len < 2 ^ 15).

Definition dearest : Z := 2 ^ 15 + TOKEN_LENGTH_PENALTY.

Lemma word_score_bounds gap len w : word_score gap len = Some w -> 0 <= w < dearest.
Proof using short_freqs.
  clear long_words. unfold word_score, dearest, INVALID_WORD_FREQ, UNKNOWN_CHAR_FREQ, TOKEN_LENGTH_PENALTY. pose proof (short_freqs (istart + gap) len). destruct (Z.eqb_spec (getFreq sentence (istart + gap) len) (-1)).
  - destruct (len =? 1); [|done]. intros [= <-]. lia.
  - intros [= <-]. lia.
Qed.
Lemma word_score_single gap : exists w, word_score gap 1 = Some w.
Proof using. unfold word_score. destruct (_ =? _); cbn; eauto. Qed.

(** A gap that was worked on: its score is the least one, and the gap before it is the one
    that gives it. *)
Definition settled (scores gaps : list Z) (gap : Z) : Prop :=
  exists s, vec_at scores gap = Ok s /\ least gap s /\ 0 <= s <= gap * dearest /\
    (0 < gap -> exists p w sp, vec_at gaps gap = Ok p /\ 0 <= p < gap /\ gap - p < maxWordLength /\ word_score p (gap - p) = Some w /\
      vec_at scores p = Ok sp /\ s = sp + w).

Record table (n : nat) (e : Z) (t : list Z * list Z) : Prop := mk_table {
  tb_scores : length t.1 = n;
  tb_gaps : length t.2 = n;
  tb_settled : forall gap, 0 <= gap < e -> settled t.1 t.2 gap;
  tb_fresh : forall gap, e <= gap < Z.of_nat n -> vec_at t.1 gap = Ok memset_score /\ vec_at t.2 gap = Ok (-1) }.

Lemma least_start : least 0 0.
Proof using.
  split; [exists []; constructor|]. intros tokens c H. inversion H; subst; [lia|].
  match goal with H : segmentation ?g _ _ |- _ => pose proof (segmentation_gap _ _ _ H) end. lia.
Qed.

Lemma table_start n : (0 < n)%nat -> table n 1 (<[O := 0]> (replicate n memset_score), <[O := 0]> (replicate n (-1))).
Proof using.
  intros Hn. constructor; cbn [fst snd]; rewrite ?length_insert, ?length_replicate; try done.
  - intros gap Hg. assert (gap = 0) as -> by lia. exists 0. split; [|split; [apply least_start|split; [lia|lia]]].
    change O with (Z.to_nat 0). by rewrite vec_at_insert by (rewrite ?length_replicate; lia).
  - intros gap Hg. change O with (Z.to_nat 0). rewrite !vec_at_insert by (rewrite ?length_replicate; lia). rewrite (proj2 (Z.eqb_neq gap 0)) by lia. rewrite !vec_at_replicate by lia. done.
Qed.

(** The spans tried so far for a gap: the best of them is in the table. *)
Record spans (n : nat) (e : Z) (t0 : list Z * list Z) (k : Z) (t : list Z * list Z) : Prop := mk_spans {
  sp_scores : length t.1 = n;
  sp_gaps : length t.2 = n;
  sp_others : forall gap, 0 <= gap -> gap <> e -> vec_at t.1 gap = vec_at t0.1 gap /\ vec_at t.2 gap = vec_at t0.2 gap;
  sp_best : exists s p, vec_at t.1 e = Ok s /\ vec_at t.2 e = Ok p /\ (k = 1 -> s = memset_score) /\
    (1 < k -> 0 <= p < e /\ e - p < k /\ exists w sp, word_score p (e - p) = Some w /\ vec_at t0.1 p = Ok sp /\ s = sp + w) /\
    forall len w sp, 1 <= len < k -> word_score (e - len) len = Some w -> vec_at t0.1 (e - len) = Ok sp -> s <= sp + w }.

Lemma span_step_score e scores gaps k : span_step getFreq sentence istart e (scores, gaps) k =
  match word_score (e - k) k with
  | None => Ok (scores, gaps)
  | Some w =>
      let? before := vec_at scores (e - k) in
      let? best := vec_at scores e in
      let score := int32 (int32 (w - TOKEN_LENGTH_PENALTY + before) + TOKEN_LENGTH_PENALTY) in
      if score <? best then
        let? scores := vec_set scores e score in let? gaps := vec_set gaps e (e - k) in Ok (scores, gaps)
      else Ok (scores, gaps)
  end.
Proof using.
  unfold span_step, word_score. replace (istart + e - k) with (istart + (e - k)) by lia.
  destruct (getFreq sentence (istart + (e - k)) k =? INVALID_WORD_FREQ); [destruct (k =? 1)|]; cbn [andb negb]; try done; by rewrite Z.add_simpl_r.
Qed.

Lemma span_step_run n e t0 k t : table n e t0 -> spans n e t0 k t -> 1 <= k <= e -> k < maxWordLength -> e < Z.of_nat n -> Z.of_nat n * dearest <= memset_score ->
  exists t', span_step getFreq sentence istart e t k = Ok t' /\ spans n e t0 (k + 1) t'.
Proof using short_freqs.
  clear long_words. intros Ht [Hs Hg Ho (s & p & Es & Ep & Hfirst & Hbest & Hleast)] Hk Hmax He Hn. destruct t as [scores gaps]. cbn [fst snd] in *.
  destruct (tb_settled _ _ _ Ht (e - k) ltac:(lia)) as (sp & Esp & _ & Hsp & _). destruct (Ho (e - k) ltac:(lia) ltac:(lia)) as [Hek _]. rewrite Esp in Hek.
  rewrite span_step_score. destruct (word_score (e - k) k) as [w|] eqn:Ew.
  2: { exists (scores, gaps). split; [done|]. constructor; cbn [fst snd]; try done. exists s, p. do 2 (split; [done|]). split; [lia|].
    assert (k <> 1) by (intros ->; destruct (word_score_single (e - 1)); congruence). split.
    - intros _. destruct (Hbest ltac:(lia)) as (H1 & H2 & H3). split; [done|]. split; [lia|done].
    - intros len w sp' Hlen Hw. destruct (Z.eq_dec len k) as [->|]; [congruence|]. apply Hleast; [lia|done]. }
  pose proof (word_score_bounds _ _ _ Ew) as Hw. rewrite Hek, Es. cbn [rbind].
  assert ((e - k) * dearest <= memset_score - dearest) as Hub by (unfold dearest in *; nia).
  rewrite (int32_small (w - TOKEN_LENGTH_PENALTY + sp)), int32_small by (unfold dearest, memset_score, TOKEN_LENGTH_PENALTY in *; lia).
  replace (w - TOKEN_LENGTH_PENALTY + sp + TOKEN_LENGTH_PENALTY) with (sp + w) by lia. destruct (Z.ltb_spec (sp + w) s) as [Hlt|Hge].
  - rewrite !vec_set_run by lia. cbn [rbind]. eexists. split; [reflexivity|]. constructor; cbn [fst snd]; rewrite ?length_insert; try done.
    + intros gap H0 Hne. rewrite !vec_at_insert by lia. rewrite (proj2 (Z.eqb_neq gap e)) by lia. by apply Ho.
    + exists (sp + w), (e - k). rewrite !vec_at_insert by lia. rewrite Z.eqb_refl. do 2 (split; [done|]). split; [lia|]. split.
      * intros _. split; [lia|]. split; [lia|]. replace (e - (e - k)) with k by lia. by exists w, sp.
      * intros len w' sp' Hlen Hw' Esp'. destruct (Z.eq_dec len k) as [->|]; [rewrite Esp in Esp'; replace w' with w by congruence; replace sp' with sp by congruence; lia|].
        specialize (Hleast len w' sp' ltac:(lia) Hw' Esp'). lia.
  - exists (scores, gaps). split; [done|]. constructor; cbn [fst snd]; try done. exists s, p. do 2 (split; [done|]).
    assert (k <> 1) by (intros ->; specialize (Hfirst eq_refl); unfold dearest, memset_score in *; lia). split; [lia|]. split.
    + intros _. destruct (Hbest ltac:(lia)) as (H1 & H2 & H3). split; [done|]. split; [lia|done].
    + intros len w' sp' Hlen Hw' Esp'. destruct (Z.eq_dec len k) as [->|]; [rewrite Esp in Esp'; replace w' with w by congruence; replace sp' with sp by congruence; lia|].
      apply (Hleast len); [lia|done|done].
Qed.

(** A gap is settled once its spans are tried. *)
Lemma gap_step_run n e t : table n e t -> 1 <= e < Z.of_nat n -> Z.of_nat n * dearest <= memset_score ->
  exists t', gap_step getFreq maxWordLength sentence istart t e = Ok t' /\ table n (e + 1) t'.
Proof using long_words short_freqs.
  intros Ht He Hn. unfold gap_step. set (m := Z.to_nat (Z.min (maxWordLength - 1) e)). replace (Z.min (maxWordLength - 1) e) with (Z.of_nat m) by lia.
  destruct (tb_fresh _ _ _ Ht e ltac:(lia)) as [Es Ep].
  destruct (fold_seq_inv (span_step getFreq sentence istart e) (spans n e t) m 1 t) as (t' & E & Hsp).
  { destruct Ht. constructor; try done. exists memset_score, (-1). do 3 (split; [done|]). split; [lia|]. lia. }
  { intros k t1 Hk H1. apply (span_step_run n e t); [done|done|lia|lia|lia|done]. }
  exists t'. split; [exact E|]. destruct Hsp as [Hs Hg Ho (s & p & Es' & Ep' & _ & Hbest & Hleast)]. destruct (Hbest ltac:(lia)) as (Hp & Hpk & w & sp & Hw & Esp & ->).
  destruct (tb_settled _ _ _ Ht p ltac:(lia)) as (sp' & Esp' & [[tokens Hseg] Hmin] & Hb & _). assert (sp' = sp) as -> by congruence. pose proof (word_score_bounds _ _ _ Hw) as Hwb.
  constructor; try done.
  - intros gap Hgap. destruct (Z.eq_dec gap e) as [->|Hne].
    + exists (sp + w). split; [done|]. split; [|split; [unfold dearest in *; nia|]].
      * split; [eexists; eapply seg_word; [exact Hseg|lia|lia|exact Hw]|]. intros tokens' c' H. inversion H as [|gap gap' tokens0 c0 w0 H0 Hlt Hm Hw0]; subst; [lia|].
        destruct (tb_settled _ _ _ Ht gap ltac:(split; [by eapply segmentation_gap|lia])) as (s0 & Es0 & [_ Hmin0] & _). pose proof (segmentation_gap _ _ _ H0).
        specialize (Hmin0 _ _ H0). specialize (Hleast (e - gap) w0 s0). replace (e - (e - gap)) with gap in Hleast by lia. specialize (Hleast ltac:(lia) Hw0 Es0). lia.
      * intros _. exists p, w, sp. split; [done|]. split; [lia|]. split; [lia|]. split; [done|]. split; [|done]. destruct (Ho p ltac:(lia) ltac:(lia)) as [-> _]. done.
    + destruct (tb_settled _ _ _ Ht gap ltac:(lia)) as (s & H1 & H2 & H3 & H4). destruct (Ho gap ltac:(lia) Hne) as [E1 E2]. exists s. rewrite E1. do 3 (split; [done|]).
      intros H0. destruct (H4 H0) as (p' & w' & sp' & G1 & G2 & G3 & G4 & G5 & G6). exists p', w', sp'. rewrite E2. do 4 (split; [done|]).
      destruct (Ho p' ltac:(lia) ltac:(lia)) as [-> _]. done.
  - intros gap Hgap. destruct (Ho gap ltac:(lia) ltac:(lia)) as [-> ->]. apply (tb_fresh _ _ _ Ht). lia.
Qed.

(** From a settled gap back to the first one. *)
Lemma backtrack_run n t pos : table n (Z.of_nat n) t -> 0 <= istart -> istart + Z.of_nat n <= 2 ^ 15 -> forall fuel gap acc, Z.of_nat fuel = pos -> 0 <= gap <= pos -> gap < Z.of_nat n ->
  exists tokens s, backtrack fuel t.2 istart gap acc = Ok (acc ++ tokens) /\ segmentation gap tokens s /\ vec_at t.1 gap = Ok s.
Proof using short_freqs.
  clear long_words. intros Ht H0 Hn fuel. revert pos. induction fuel as [|fuel IH]; intros pos gap acc Hf Hgap Hlt.
  - assert (gap = 0) as -> by lia. destruct (tb_settled _ _ _ Ht 0 ltac:(lia)) as (s & Es & _ & Hs & _). exists [], s. cbn. rewrite app_nil_r.
    split; [done|]. replace s with 0 in * by lia. by split; [constructor|].
  - destruct (tb_settled _ _ _ Ht gap ltac:(lia)) as (s & Es & _ & Hs & Hback). cbn [backtrack]. destruct (Z.leb_spec gap 0).
    { assert (gap = 0) as -> by lia. exists [], s. rewrite app_nil_r. split; [done|]. replace s with 0 in * by lia. by split; [constructor|]. }
    destruct (Hback ltac:(lia)) as (p & w & sp & Ep & Hp & Hmax & Hw & Esp & ->). rewrite Ep. cbn [rbind]. rewrite (proj2 (Z.ltb_ge p 0)) by lia.
    destruct (IH (pos - 1) p (acc ++ [(swrap 16 (istart + p), swrap 16 (istart + gap))]) ltac:(lia) ltac:(lia) ltac:(lia)) as (tokens & sp' & E & Hseg & Esp'). assert (sp' = sp) as -> by congruence.
    exists ((istart + p, istart + gap) :: tokens), (sp + w). split; [|split; [by eapply seg_word; [exact Hseg|lia|lia|exact Hw]|done]]. rewrite E, <- app_assoc. cbn [app].
    by rewrite <- (wrap_id 16 (istart + p)), <- (wrap_id 16 (istart + gap)), !swrap_signed, !wrap_id by (unfold is_uint; lia).
Qed.

Lemma tokenize_run istop : 0 <= istart < istop -> istop < 2 ^ 15 -> istop - istart <= 32000 ->
  exists tokens c, tokenize getFreq maxWordLength sentence istart istop = Ok tokens /\ segmentation (istop - istart) tokens c /\
    forall tokens' c', segmentation (istop - istart) tokens' c' -> c <= c'.
Proof using long_words short_freqs.
  intros H0 H1 H2. unfold tokenize. rewrite (proj2 (Z.leb_gt _ _)) by lia. cbn zeta. set (n := Z.to_nat (istop - istart + 1)). replace (istop - istart + 1) with (Z.of_nat n) by lia.
  destruct (fold_seq_inv (gap_step getFreq maxWordLength sentence istart) (table n) (n - 1) 1 _ (table_start n ltac:(lia))) as (t & E & Ht).
  { intros e t He Ht. apply gap_step_run; [done|lia|unfold dearest, memset_score, TOKEN_LENGTH_PENALTY; lia]. }
  replace (Z.of_nat n - 1) with (Z.of_nat (n - 1)) by lia. rewrite E. cbn [rbind]. destruct t as [scores gaps]. replace (1 + Z.of_nat (n - 1)) with (Z.of_nat n) in Ht by lia.
  destruct (backtrack_run n (scores, gaps) (Z.of_nat n) Ht ltac:(lia) ltac:(lia) n (Z.of_nat (n - 1)) [] eq_refl ltac:(lia) ltac:(lia)) as (tokens & s & Eb & Hseg & Es).
  exists tokens, s. cbn [snd] in Eb. rewrite Eb. split; [done|]. replace (Z.of_nat (n - 1)) with (istop - istart) in * by lia. split; [done|].
  destruct (tb_settled _ _ _ Ht (istop - istart) ltac:(lia)) as (s' & Es' & [_ Hmin] & _). assert (s' = s) as -> by congruence. exact Hmin.
Qed.
End Chinese.

(** ** The tokens of a text *)

Definition piece (text : list Z) (t : Z * Z) : list Z := take (Z.to_nat (t.2 - t.1)) (drop (Z.to_nat t.1) text).

Lemma push_chars_run a n s : 0 <= a -> a + Z.of_nat n <= Z.of_nat (length (completeCharVector s)) ->
  for_each (seqZ a (Z.of_nat n)) (fun i => let! c := char_at i in m_push c) s = Ok (tt, set_token (currentToken s ++ take n (drop (Z.to_nat a) (completeCharVector s))) s).
Proof.
  revert a s. induction n as [|n IH]; intros a s H0 Hn; [cbn; rewrite take_0, app_nil_r; by destruct s|].
  rewrite seqZ_cons by lia. cbn [for_each]. destruct (lookup_lt_is_Some_2 (completeCharVector s) (Z.to_nat a) ltac:(lia)) as [c Ec].
  assert ((let! c := char_at a in m_push c) s = Ok (tt, set_token (currentToken s ++ [c]) s)) as E.
  { assert (char_at a s = Ok (c, s)) as Ea; [|by rewrite (bind_run _ _ _ _ _ Ea)].
    unfold char_at. erewrite bind_run by reflexivity. unfold lift. by rewrite (proj2 (vec_at_nth _ _ _) (conj H0 Ec)). }
  rewrite (bind_run _ _ _ _ _ E). replace (Z.pred (Z.of_nat (S n))) with (Z.of_nat n) by lia. replace (Z.succ a) with (a + 1) by lia.
  rewrite IH by (cbn [completeCharVector set_token]; lia). cbn [currentToken completeCharVector set_token]. rewrite <- app_assoc. f_equal. f_equal.
  rewrite (drop_S (completeCharVector s) c (Z.to_nat a) Ec). replace (Z.to_nat (a + 1)) with (S (Z.to_nat a)) by lia. done.
Qed.

Lemma feed_run t s : 0 <= t.1 <= t.2 -> t.2 <= Z.of_nat (length (completeCharVector s)) ->
  feedCurrentToken t s = Ok (tt, set_token (piece (completeCharVector s) t) s).
Proof.
  intros H1 H2. unfold feedCurrentToken. erewrite bind_run by reflexivity. replace (t.2 - t.1) with (Z.of_nat (Z.to_nat (t.2 - t.1))) by lia.
  rewrite push_chars_run by (cbn [completeCharVector set_token]; lia). done.
Qed.

Lemma feed_back_run l t s : mCurrentChineseTokens s = l ++ [t] -> 0 <= t.1 <= t.2 -> t.2 <= Z.of_nat (length (completeCharVector s)) ->
  feed_back s = Ok (true, set_chinese l (set_token (piece (completeCharVector s) t) s)).
Proof.
  intros Hl H1 H2. unfold feed_back. erewrite bind_run by reflexivity. rewrite Hl, last_snoc. rewrite (bind_run _ _ _ _ _ (feed_run t s H1 H2)).
  erewrite bind_run by reflexivity. rewrite removelast_last. done.
Qed.

Section Text.
Variables (utf32to8 utf8to32 : list Z -> list Z) (getFreq : list Z -> Z -> Z -> Z) (maxWordLength garbage : Z) (special text : list Z).
Hypothesis (hanzi : Forall (fun c => getCharacterType special c = HANZI_TYPE) text).

Abbreviation process := (processToken utf32to8 utf8to32 getFreq maxWordLength garbage (ChineseTokenizer special)).

Lemma hanzi_at i : 0 <= i < Z.of_nat (length text) -> exists c, vec_at text i = Ok c /\ getCharacterType special c = HANZI_TYPE.
Proof using hanzi.
  intros H. destruct (lookup_lt_is_Some_2 text (Z.to_nat i) ltac:(lia)) as [c Ec]. exists c. split; [apply vec_at_nth; split; [lia|done]|].
  apply (proj1 (Forall_forall _ _) hanzi). by eapply list_elem_of_lookup_2.
Qed.

Lemma read_char_run s c : completeCharVector s = text -> vec_at text (offset s) = Ok c -> char_at (offset s) s = Ok (c, s).
Proof using. clear hanzi. intros Ht Hc. unfold char_at. erewrite bind_run by reflexivity. unfold lift. by rewrite Ht, Hc. Qed.

Lemma isEnd_run s : completeCharVector s = text -> isEnd s = Ok (Z.of_nat (length text) <=? offset s, s).
Proof using. clear hanzi. intros <-. done. Qed.

Lemma identify_loop fuel : forall s, completeCharVector s = text -> 0 <= offset s <= Z.of_nat (length text) -> Z.of_nat (length text) - offset s < Z.of_nat fuel ->
  loop fuel (chinese_step special) s = Ok (tt, set_offset (Z.of_nat (length text)) s).
Proof using hanzi.
  induction fuel as [|fuel IH]; intros s Ht Ho Hf; [lia|]. cbn [loop]. unfold chinese_step at 1. rewrite bind_assoc, (bind_run _ _ _ _ _ (isEnd_run s Ht)).
  destruct (Z.leb_spec (Z.of_nat (length text)) (offset s)).
  - erewrite bind_run by reflexivity. replace (Z.of_nat (length text)) with (offset s) by lia. by destruct s.
  - destruct (hanzi_at (offset s) ltac:(lia)) as (c & Ec & Hc). rewrite bind_assoc. erewrite bind_run by reflexivity.
    rewrite bind_assoc, (bind_run _ _ _ _ _ (read_char_run s c Ht Ec)). rewrite Hc. cbn [bool_decide decide negb]. rewrite bool_decide_eq_true_2 by done. cbn [negb].
    rewrite bind_assoc. erewrite bind_run by reflexivity. erewrite bind_run by reflexivity. rewrite IH; [by destruct s|done|cbn; lia|cbn; lia].
Qed.

(** The tokens left are given from the last one on, then the text is over. *)
Lemma drain_tokens_run l : forall s fuel, completeCharVector s = text -> offset s = Z.of_nat (length text) -> mCurrentChineseTokens s = rev l ->
  Forall (fun t => 0 <= t.1 <= t.2 /\ t.2 <= Z.of_nat (length text)) l -> (length l < fuel)%nat ->
  exists s', tokens_of process fuel currentToken s = Ok (map (piece text) l, s').
Proof using.
  clear hanzi. induction l as [|t l IH]; intros s fuel Ht Ho Hl Hall Hf; (destruct fuel as [|fuel]; [cbn in Hf; lia|]); cbn [tokens_of map].
  - assert (process s = Ok (false, set_token [] s)) as E.
    { cbn [processToken]. unfold ChineseTokenizer_processToken. erewrite bind_run by reflexivity. rewrite Hl. cbn [rev is_empty]. unfold ChineseTokenizer_incrementToken.
      erewrite bind_run by reflexivity. unfold scan_fuel. erewrite bind_run by reflexivity. cbn [loop]. unfold skip_step at 1. rewrite bind_assoc.
      rewrite bind_assoc, (bind_run _ _ _ _ _ (isEnd_run (set_token [] s) Ht)). cbn [offset set_token]. rewrite Ho, Z.leb_refl. done. }
    rewrite (bind_run _ _ _ _ _ E). by eexists.
  - apply Forall_cons in Hall as [[H1 H2] Hall]. cbn [rev] in Hl.
    assert (process s = Ok (true, set_chinese (rev l) (set_token (piece text t) s))) as E.
    { cbn [processToken]. unfold ChineseTokenizer_processToken. erewrite bind_run by reflexivity. rewrite Hl. destruct (rev l ++ [t]) eqn:E; [by destruct (rev l)|]. cbn [is_empty]. rewrite <- E in Hl.
      rewrite (feed_back_run (rev l) t s Hl H1) by (rewrite Ht; lia). by rewrite Ht. }
    rewrite (bind_run _ _ _ _ _ E). erewrite bind_run by reflexivity.
    destruct (IH (set_chinese (rev l) (set_token (piece text t) s)) fuel) as (s' & E'); [done|done|done|done|cbn in Hf; lia|].
    rewrite (bind_run _ _ _ _ _ E'). by eexists.
Qed.

(** The first call cuts the whole text. *)
Lemma first_run t l s : completeCharVector s = text -> offset s = 0 -> mCurrentChineseTokens s = [] -> text <> [] ->
  tokenize getFreq maxWordLength text 0 (Z.of_nat (length text)) = Ok (rev l ++ [t]) -> 0 <= t.1 <= t.2 -> t.2 <= Z.of_nat (length text) ->
  exists s', process s = Ok (true, s') /\ completeCharVector s' = text /\ offset s' = Z.of_nat (length text) /\ mCurrentChineseTokens s' = rev l /\ currentToken s' = piece text t.
Proof using hanzi.
  intros Ht Ho Hc Hne Etok H1 H2. assert (0 < Z.of_nat (length text)) as Hlen by (destruct text; [done|cbn; lia]).
  destruct (hanzi_at 0 ltac:(lia)) as (c & Ec & Hh). set (s1 := set_token [] s). set (s2 := set_offset 1 s1). set (s3 := set_offset (Z.of_nat (length text)) s2).
  assert (skip_step special s1 = Ok (Some (Some (HANZI_TYPE, c)), s2)) as Eskip.
  { unfold skip_step. rewrite (bind_run _ _ _ _ _ (isEnd_run s1 Ht)). change (offset s1) with (offset s). rewrite Ho, (proj2 (Z.leb_gt _ _)) by lia.
    erewrite bind_run by reflexivity. rewrite (bind_run _ _ _ _ _ (read_char_run s1 c Ht ltac:(change (offset s1) with (offset s); by rewrite Ho))). erewrite bind_run by reflexivity.
    rewrite Hh. cbn. change (offset s1) with (offset s). by rewrite Ho. }
  assert (identifyEndOfChineseSequence special s2 = Ok (Z.of_nat (length text), s3)) as Eend.
  { unfold identifyEndOfChineseSequence, scan_fuel. erewrite bind_run by reflexivity.
    rewrite (bind_run _ _ _ _ _ (identify_loop (S (length (completeCharVector s2))) s2 Ht ltac:(cbn; lia) ltac:(change (completeCharVector s2) with (completeCharVector s); rewrite Ht; cbn [offset s2 set_offset]; lia))). done. }
  pose proof (feed_back_run (rev l) t (set_chinese (rev l ++ [t]) s3) eq_refl H1 ltac:(change (completeCharVector (set_chinese (rev l ++ [t]) s3)) with (completeCharVector s); rewrite Ht; lia)) as Efeed.
  eexists. split.
  - cbn [processToken]. unfold ChineseTokenizer_processToken. erewrite bind_run by reflexivity. rewrite Hc. cbn [is_empty]. unfold ChineseTokenizer_incrementToken, scan_fuel.
    erewrite bind_run by reflexivity. erewrite bind_run by reflexivity. cbn [loop]. rewrite (bind_run _ _ (set_token [] s) (Some (HANZI_TYPE, c)) s2) by (rewrite (bind_run _ _ _ _ _ Eskip); done).
    erewrite bind_run by reflexivity. unfold chineseIncrement. rewrite (bind_run _ _ _ _ _ Eend). erewrite bind_run by reflexivity.
    change (completeCharVector s3) with (completeCharVector s). rewrite Ht. change (offset s2 - 1) with 0. unfold lift. erewrite bind_run by (rewrite Etok; reflexivity). erewrite bind_run by reflexivity.
    exact Efeed.
  - split; [done|]. split; [done|]. split; [done|]. cbn. by rewrite Ht.
Qed.

Lemma hanzi_run prefix start l : text <> [] -> mCurrentChineseTokens start = [] -> tokenize getFreq maxWordLength text 0 (Z.of_nat (length text)) = Ok (rev l) -> l <> [] ->
  Forall (fun t => 0 <= t.1 <= t.2 /\ t.2 <= Z.of_nat (length text)) l -> forall fuel, (length l < fuel)%nat ->
  exists s', tokens_of process fuel currentToken (fillInCharacters text prefix start) = Ok (map (piece text) l, s').
Proof using hanzi.
  intros Hne Hc Etok Hl Hall fuel Hf. destruct l as [|t l]; [done|]. apply Forall_cons in Hall as [[H1 H2] Hall]. cbn [rev] in Etok.
  destruct (first_run t l (fillInCharacters text prefix start)) as (s1 & E1 & G1 & G2 & G3 & G4); try done. destruct fuel as [|fuel]; [cbn in Hf; lia|]. cbn [tokens_of].
  rewrite (bind_run _ _ _ _ _ E1). erewrite bind_run by reflexivity. destruct (drain_tokens_run l s1 fuel G1 G2 G3 Hall ltac:(cbn in Hf; lia)) as (s2 & E2).
  rewrite (bind_run _ _ _ _ _ E2). exists s2. by rewrite G4.
Qed.
End Text.

(** ** Properties *)

Lemma getFreq_bounds utf32to8 d sentence gap len : map_Forall (fun _ f => 0 <= f < 2 ^ 15) (Dictionary.mWordFrequencyMap d) ->
  -1 <= Dictionary.getFreq utf32to8 d sentence gap len < 2 ^ 15.
Proof.
  intros H. unfold Dictionary.getFreq, INVALID_WORD_FREQ. destruct (_ || _); [lia|]. unfold Dictionary.getFreq_of, INVALID_WORD_FREQ.
  destruct (Dictionary.mWordFrequencyMap d !! _) as [f|] eqn:E; cbn [from_option id]; [|lia]. apply H in E. cbn beta in E. unfold id. lia.
Qed.

Lemma segmentation_length getFreq maxWordLength sentence istart gap tokens c : segmentation getFreq maxWordLength sentence istart gap tokens c -> Z.of_nat (length tokens) <= gap /\ (0 < gap -> tokens <> []).
Proof. induction 1 as [|gap gap' tokens c w Hs [IH _] Hlt Hmax Hw]; [by split|]. cbn [length]. split; [lia|done]. Qed.

(** (C19) ChineseTokenizer gives the words of a text of Chinese characters: one after the
    other they make up the text, each is a single character or a word of the dictionary
    shorter than its longest one, and no other way to cut the text so has a lower score.
    The text has at most 32000 characters, so that the sums of scores stay below 2^31, and
    the longest word of the dictionary at least two. *)
Theorem chinese_words (utf32to8 utf8to32 : list Z -> list Z) (garbage : Z) (d : Dictionary.Dictionary) (special text : list Z) (prefix : bool) (start : stream) :
  let getFreq := Dictionary.getFreq utf32to8 d in
  let segmentation := segmentation getFreq (Dictionary.mMaxWordLength d) text 0 (Z.of_nat (length text)) in
  text <> [] -> Forall (fun c => getCharacterType special c = HANZI_TYPE) text -> Z.of_nat (length text) <= 32000 -> mCurrentChineseTokens start = [] ->
  2 <= Dictionary.mMaxWordLength d -> map_Forall (fun _ f => 0 <= f < 2 ^ 15) (Dictionary.mWordFrequencyMap d) ->
  exists tokens c, segmentation (rev tokens) c /\ (forall tokens' c', segmentation tokens' c' -> c <= c') /\ concat (map (piece text) tokens) = text /\
    forall fuel, (length text < fuel)%nat -> exists s',
      tokens_of (processToken utf32to8 utf8to32 getFreq (Dictionary.mMaxWordLength d) garbage (ChineseTokenizer special)) fuel currentToken (fillInCharacters text prefix start) =
        Ok (map (piece text) tokens, s').
Proof.
  intros getFreq seg Hne Hh Hlen Hc Hmax Hfreq. assert (0 < Z.of_nat (length text)) as Hpos by (destruct text; [done|cbn; lia]).
  destruct (tokenize_run getFreq (Dictionary.mMaxWordLength d) text 0 Hmax (fun gap len => getFreq_bounds utf32to8 d text gap len Hfreq) (Z.of_nat (length text)) ltac:(lia) ltac:(lia) ltac:(lia))
    as (tokens & c & E & Hseg & Hmin). rewrite Z.sub_0_r in *.
  destruct (segmentation_text _ _ _ _ _ _ _ Hseg ltac:(lia) ltac:(lia)) as [Etext Hall]. destruct (segmentation_length _ _ _ _ _ _ _ Hseg) as [Hl Hn].
  exists (rev tokens), c. rewrite rev_involutive. split; [done|]. split; [done|]. split.
  - unfold piece. rewrite Etext, Nat2Z.id. cbn. rewrite drop_0. by rewrite take_ge.
  - intros fuel Hf. apply hanzi_run; try done.
    + by rewrite rev_involutive.
    + intros Er. apply (f_equal (@rev _)) in Er. rewrite rev_involutive in Er. by apply Hn.
    + rewrite <- Permutation_rev. eapply Forall_impl; [exact Hall|]. intros t Ht. cbn beta in Ht. lia.
    + rewrite length_rev. lia.
Qed.

(** A dictionary with one word of two characters and a longer one. *)
Definition ex_text : list Z := [0x4E2D; 0x56FD; 0x4EBA].
Definition ex_dictionary : Dictionary.Dictionary := Dictionary.mk_dict 3 {[ [0x4E2D; 0x56FD] := 100; [0x4E2D; 0x56FD; 0x4EBA] := 50 ]}.
Definition ex_start : stream := mk_stream [] [] 0 0 0 ANALYZED_ORIGINAL_TOKEN 0 false [] [] [] [].

Lemma chinese_words_witness : exists words s', concat words = ex_text /\
  tokens_of (processToken id id (Dictionary.getFreq id ex_dictionary) 3 0 (ChineseTokenizer [])) 5 currentToken (fillInCharacters ex_text false ex_start) = Ok (words, s').
Proof.
  destruct (chinese_words id id 0 ex_dictionary [] ex_text false ex_start) as (tokens & c & _ & _ & E & H).
  { discriminate. }
  { repeat apply List.Forall_cons; try apply List.Forall_nil; reflexivity. }
  { cbn. lia. }
  { reflexivity. }
  { cbn. lia. }
  { apply map_Forall_insert_2; [lia|]. apply map_Forall_singleton. lia. }
  destruct (H 5%nat ltac:(cbn; lia)) as (s' & Er). exists (map (piece ex_text) tokens), s'. split; [exact E|exact Er].
Defined.

(** The longest word of the dictionary is never tried, so the three characters above are
    cut in two although they are a word; and a dictionary whose words have one character,
    or none, fails the assertion. *)
Lemma longest_word_missed :
  let words d max := match tokens_of (processToken id id (Dictionary.getFreq id d) max 0 (ChineseTokenizer [])) 5 currentToken (fillInCharacters ex_text false ex_start) with
    | Ok (l, _) => inl l | Err f => inr f end in
  words ex_dictionary 3 = inl [[0x4E2D; 0x56FD]; [0x4EBA]] /\ words Dictionary.new_dictionary 0 = inr AssertFailed /\
  words (Dictionary.insert (fun w => Z.of_nat (length w)) Dictionary.new_dictionary [0x4E2D] 9).2 1 = inr AssertFailed.
Proof. vm_compute. done. Qed.
End AnalyzerChinese.
