(* ===== verification/FloatOrder.v ===== *)
(** * The order of scores under addition

    A single-precision float that is not negative is a whole number of units of the least
    exponent.  Addition rounds the sum of these numbers, and rounding keeps their order, so
    that a sum of larger scores is not smaller. *)
From Stdlib Require Import ZArith Lia List Bool SpecFloat.
From stdpp Require Import base list.
From S2P Require Import Prelude ForwardList PlanOperators PlanScores.
Open Scope Z_scope.

Module FloatOrder.
Import PlanOperators PlanScores.

(** ** Rounding a number to 24 digits *)

Definition digits (v : Z) : Z := if v =? 0 then 0 else Z.log2 v + 1.

(** [v / 2^n] rounded to the nearest number, to the even one of two. *)
Definition rne (v n : Z) : Z :=
  let q := v / 2 ^ n in let r := 2 * (v mod 2 ^ n) in
  if r <? 2 ^ n then q else if r =? 2 ^ n then (if Z.even q then q else q + 1) else q + 1.
Definition dropped (v : Z) : Z := Z.max (digits v - 24) 0.
Definition rounded (v : Z) : Z := rne v (dropped v) * 2 ^ dropped v.

Lemma digits_bounds v : 0 < v -> 2 ^ (digits v - 1) <= v < 2 ^ digits v /\ 1 <= digits v.
Proof.
  intros H. unfold digits. rewrite (proj2 (Z.eqb_neq v 0)) by lia. pose proof (Z.log2_spec v H). pose proof (Z.log2_nonneg v). rewrite Z.add_simpl_r. unfold Z.succ in *. lia.
Qed.
Lemma digits_mono v w : 0 <= v <= w -> digits v <= digits w.
Proof.
  intros H. unfold digits. destruct (Z.eqb_spec v 0); [destruct (Z.eqb_spec w 0); [lia|pose proof (Z.log2_nonneg w); lia]|].
  rewrite (proj2 (Z.eqb_neq w 0)) by lia. pose proof (Z.log2_le_mono v w ltac:(lia)). lia.
Qed.
Lemma digits_shift m k : 0 < m -> 0 <= k -> digits (m * 2 ^ k) = digits m + k.
Proof.
  intros Hm Hk. assert (0 < 2 ^ k) by (apply Z.pow_pos_nonneg; lia). unfold digits. rewrite (proj2 (Z.eqb_neq m 0)), (proj2 (Z.eqb_neq (m * 2 ^ k) 0)) by nia.
  rewrite Z.log2_mul_pow2 by lia. lia.
Qed.

Lemma rne_bounds v n : 0 <= n -> v / 2 ^ n <= rne v n <= v / 2 ^ n + 1.
Proof. intros H. unfold rne. destruct (_ <? _); [lia|]. destruct (_ =? _); [destruct (Z.even _)|]; lia. Qed.

Lemma rne_mono v w n : 0 <= n -> v <= w -> rne v n <= rne w n.
Proof.
  intros Hn H. assert (0 < 2 ^ n) by (apply Z.pow_pos_nonneg; lia). pose proof (Z.div_le_mono v w (2 ^ n) ltac:(lia) H) as Hq.
  pose proof (rne_bounds v n Hn). pose proof (rne_bounds w n Hn). destruct (Z.eq_dec (v / 2 ^ n) (w / 2 ^ n)) as [E|]; [|lia].
  pose proof (Z.div_mod v (2 ^ n) ltac:(lia)). pose proof (Z.div_mod w (2 ^ n) ltac:(lia)). assert (v mod 2 ^ n <= w mod 2 ^ n) by nia.
  unfold rne. rewrite <- E. destruct (Z.ltb_spec (2 * (v mod 2 ^ n)) (2 ^ n)), (Z.ltb_spec (2 * (w mod 2 ^ n)) (2 ^ n)); try lia;
    destruct (Z.eqb_spec (2 * (w mod 2 ^ n)) (2 ^ n)); try destruct (Z.eqb_spec (2 * (v mod 2 ^ n)) (2 ^ n)); destruct (Z.even (v / 2 ^ n)); lia.
Qed.

Lemma rounded_mono v w : 0 <= v <= w -> rounded v <= rounded w.
Proof.
  intros H. unfold rounded. pose proof (digits_mono v w H) as Hd. destruct (Z.eq_dec (dropped v) (dropped w)) as [E|Hne].
  { rewrite E. apply Z.mul_le_mono_nonneg_r; [apply Z.pow_nonneg; lia|]. apply rne_mono; [unfold dropped; lia|lia]. }
  assert (0 <= dropped v < dropped w /\ digits v < digits w /\ dropped w = digits w - 24) as (Ht & Hdd & Ew) by (unfold dropped in *; lia).
  assert (0 < w) as Hw by (destruct (Z.eq_dec w 0); [subst w; assert (v = 0) by lia; subst v; lia|lia]). pose proof (digits_bounds w Hw) as [Hbw Hw1].
  assert (rne v (dropped v) * 2 ^ dropped v <= 2 ^ digits v) as H1.
  { assert (v < 2 ^ digits v) as Hv by (destruct (Z.eq_dec v 0) as [->|]; [unfold digits; cbn; lia|apply digits_bounds; lia]).
    assert (0 <= digits v) as Hd0 by (unfold digits; destruct (v =? 0); [lia|pose proof (Z.log2_nonneg v); lia]).
    replace (2 ^ digits v) with (2 ^ (digits v - dropped v) * 2 ^ dropped v) by (rewrite <- Z.pow_add_r by (unfold dropped in *; lia); f_equal; lia).
    apply Z.mul_le_mono_nonneg_r; [apply Z.pow_nonneg; lia|]. pose proof (rne_bounds v (dropped v) ltac:(lia)).
    assert (v / 2 ^ dropped v < 2 ^ (digits v - dropped v)); [|lia]. apply Z.div_lt_upper_bound; [apply Z.pow_pos_nonneg; lia|].
    rewrite <- Z.pow_add_r by (unfold dropped in *; lia). by replace (dropped v + (digits v - dropped v)) with (digits v) by lia. }
  assert (2 ^ (digits w - 1) <= rne w (dropped w) * 2 ^ dropped w) as H2.
  { replace (2 ^ (digits w - 1)) with (2 ^ (digits w - 1 - dropped w) * 2 ^ dropped w) by (rewrite <- Z.pow_add_r by lia; f_equal; lia). apply Z.mul_le_mono_nonneg_r; [apply Z.pow_nonneg; lia|].
    pose proof (rne_bounds w (dropped w) ltac:(lia)). assert (2 ^ (digits w - 1 - dropped w) <= w / 2 ^ dropped w); [|lia]. apply Z.div_le_lower_bound; [apply Z.pow_pos_nonneg; lia|].
    rewrite <- Z.pow_add_r by lia. replace (dropped w + (digits w - 1 - dropped w)) with (digits w - 1) by lia. apply Hbw. }
  assert (2 ^ digits v <= 2 ^ (digits w - 1)) by (apply Z.pow_le_mono_r; lia). lia.
Qed.

Lemma rne_exact m k : 0 <= k -> rne (m * 2 ^ k) k = m.
Proof. intros H. assert (0 < 2 ^ k) by (apply Z.pow_pos_nonneg; lia). unfold rne. rewrite Z.mod_mul, Z.div_mul by lia. by rewrite (proj2 (Z.ltb_lt _ _)) by lia. Qed.

Lemma rounded_exact m k : 0 < m -> 0 <= k -> k = dropped (m * 2 ^ k) -> rounded (m * 2 ^ k) = m * 2 ^ k.
Proof. intros Hm Hk E. unfold rounded. rewrite <- E. by rewrite rne_exact. Qed.

(** ** Shifting out digits *)

Lemma iter_pos_nat {A} (f : A -> A) p : forall x, SpecFloat.iter_pos f p x = Nat.iter (Pos.to_nat p) f x.
Proof.
  assert (forall n m x, Nat.iter n f (Nat.iter m f x) = Nat.iter (n + m) f x) as Hadd by (intros n m x; by rewrite Nat.iter_add).
  induction p as [p IH|p IH|]; intros x; cbn [SpecFloat.iter_pos].
  - rewrite !IH, Hadd. change (f x) with (Nat.iter 1 f x). rewrite Hadd. f_equal. lia.
  - rewrite !IH, Hadd. f_equal. lia.
  - done.
Qed.

(** What is left of a number after [n] shifts: the quotient, whether the rest is at
    least a half, and whether it is more than that or than nothing. *)
Definition shifted (v n : Z) : shr_record :=
  let r := 2 * (v mod 2 ^ n) in Build_shr_record (v / 2 ^ n) (2 ^ n <=? r) (negb (r mod 2 ^ n =? 0)).

Lemma shr_1_shifted v n : 0 <= v -> 0 <= n -> shr_1 (shifted v n) = shifted v (n + 1).
Proof.
  intros Hv Hn. assert (0 < 2 ^ n) as Hp by (apply Z.pow_pos_nonneg; lia). unfold shifted.
  assert (2 ^ (n + 1) = 2 * 2 ^ n) as E2 by (rewrite Z.pow_add_r by lia; lia).
  assert (v mod 2 ^ (n + 1) = v mod 2 ^ n + 2 ^ n * ((v / 2 ^ n) mod 2)) as Er by (rewrite E2, Z.mul_comm, Z.rem_mul_r by lia; lia).
  assert (v / 2 ^ (n + 1) = (v / 2 ^ n) / 2) as Eq by (rewrite E2, Z.mul_comm, Z.div_div by lia; done).
  rewrite Er, Eq. set (q := v / 2 ^ n) in *. set (r := v mod 2 ^ n) in *. assert (0 <= q) by (apply Z.div_pos; lia). pose proof (Z.mod_pos_bound v (2 ^ n) Hp : 0 <= r < 2 ^ n).
  assert ((2 ^ n <=? 2 * r) || negb ((2 * r) mod 2 ^ n =? 0) = negb (r =? 0)) as Es.
  { destruct (Z.leb_spec (2 ^ n) (2 * r)); cbn [orb]; [destruct (Z.eqb_spec r 0); [lia|done]|]. rewrite Z.mod_small by lia. destruct (Z.eqb_spec r 0), (Z.eqb_spec (2 * r) 0); try done; lia. }
  assert ((2 * (r + 2 ^ n * (q mod 2))) mod 2 ^ (n + 1) = 2 * r) as Em.
  { rewrite E2, Z.mul_mod_distr_l by lia. f_equal. rewrite Z.mul_comm, Z.mod_add, Z.mod_small by lia. done. }
  rewrite Em. assert (negb (2 * r =? 0) = negb (r =? 0)) as -> by (destruct (Z.eqb_spec r 0), (Z.eqb_spec (2 * r) 0); try done; lia).
  assert (2 ^ (n + 1) <=? 2 * (r + 2 ^ n * (q mod 2)) = (q mod 2 =? 1)) as Eb.
  { rewrite E2. pose proof (Z.mod_pos_bound q 2 ltac:(lia)). destruct (Z.eqb_spec (q mod 2) 1) as [->|]; [apply Z.leb_le; lia|]. assert (q mod 2 = 0) as -> by lia. apply Z.leb_gt. lia. }
  rewrite Eb. unfold shr_1. rewrite Es. destruct q as [|[p|p|]|p]; try lia; try done.
  - replace (Zpos p~1 mod 2) with 1 by (rewrite Pos2Z.inj_xI; rewrite Z.add_comm, Z.mul_comm, Z.mod_add by lia; done). cbn. f_equal.
    rewrite Pos2Z.inj_xI. rewrite Z.add_comm, Z.mul_comm, Z.div_add by lia. done.
  - replace (Zpos p~0 mod 2) with 0 by (rewrite Pos2Z.inj_xO, Z.mul_comm, Z.mod_mul by lia; done). cbn. f_equal. rewrite Pos2Z.inj_xO, Z.mul_comm, Z.div_mul by lia. done.
Qed.

Lemma shr_run v e n : 0 <= v -> 0 <= n -> shr (Build_shr_record v false false) e n = (shifted v n, e + n).
Proof.
  intros Hv Hn. assert (shifted v 0 = Build_shr_record v false false) as E0 by (unfold shifted; change (2 ^ 0) with 1; rewrite Z.mod_1_r, Z.div_1_r; done).
  unfold shr. destruct n as [|p|p]; [by rewrite E0, Z.add_0_r| |lia]. f_equal. rewrite iter_pos_nat, <- E0. rewrite <- (positive_nat_Z p). generalize (Pos.to_nat p). intros n.
  induction n as [|n IH]; [done|]. cbn [Nat.iter nat_rect]. change (nat_rect _ _ _ n) with (Nat.iter n shr_1 (shifted v 0)). rewrite IH, shr_1_shifted by lia. f_equal. lia.
Qed.

Lemma round_shifted v n : 0 <= v -> 0 <= n -> round_nearest_even (shr_m (shifted v n)) (loc_of_shr_record (shifted v n)) = rne v n.
Proof.
  intros Hv Hn. assert (0 < 2 ^ n) as Hp by (apply Z.pow_pos_nonneg; lia). unfold shifted, rne. cbn [shr_m]. set (r := v mod 2 ^ n). pose proof (Z.mod_pos_bound v (2 ^ n) Hp : 0 <= r < 2 ^ n).
  destruct (Z.leb_spec (2 ^ n) (2 * r)), (Z.ltb_spec (2 * r) (2 ^ n)); try lia; cbn [loc_of_shr_record].
  - assert ((2 * r) mod 2 ^ n = 2 * r - 2 ^ n) as -> by (symmetry; apply (Z.mod_unique _ _ 1); lia).
    destruct (Z.eqb_spec (2 * r - 2 ^ n) 0), (Z.eqb_spec (2 * r) (2 ^ n)); try lia; done.
  - destruct (_ =? 0); done.
Qed.

(** ** Floats as numbers *)

Definition top : Z := 2 ^ 277.
Definition val (x : float) : Z :=
  match x with S754_finite false m e => Zpos m * 2 ^ (e + 149) | S754_infinity false => top | _ => 0 end.

(** A score: not negative, and with the mantissa that its value has. *)
Definition score (x : float) : Prop := nonneg x /\ valid_binary 24 128 x = true.

Lemma digits2_digits m : Zpos (digits2_pos m) = digits (Zpos m).
Proof.
  unfold digits. cbn [Z.eqb]. induction m as [m IH|m IH|]; cbn [digits2_pos]; [..|done]; rewrite Pos2Z.inj_succ, IH.
  - rewrite (Pos2Z.inj_xI m), Z.log2_succ_double by lia. lia.
  - rewrite (Pos2Z.inj_xO m), Z.log2_double by lia. lia.
Qed.

Lemma rne_scale m n k : 0 <= n -> 0 <= k -> rne (m * 2 ^ k) (n + k) = rne m n.
Proof.
  intros Hn Hk. assert (0 < 2 ^ n) by (apply Z.pow_pos_nonneg; lia). assert (0 < 2 ^ k) by (apply Z.pow_pos_nonneg; lia).
  unfold rne. rewrite Z.pow_add_r, Z.div_mul_cancel_r, Z.mul_mod_distr_r by lia.
  assert (2 * (m mod 2 ^ n * 2 ^ k) <? 2 ^ n * 2 ^ k = (2 * (m mod 2 ^ n) <? 2 ^ n)) as -> by (destruct (Z.ltb_spec (2 * (m mod 2 ^ n)) (2 ^ n)); [apply Z.ltb_lt|apply Z.ltb_ge]; nia).
  assert (2 * (m mod 2 ^ n * 2 ^ k) =? 2 ^ n * 2 ^ k = (2 * (m mod 2 ^ n) =? 2 ^ n)) as -> by (destruct (Z.eqb_spec (2 * (m mod 2 ^ n)) (2 ^ n)); [apply Z.eqb_eq|apply Z.eqb_neq]; nia).
  done.
Qed.

Lemma quotient_bounds v : 0 < v -> 0 < rne v (dropped v) <= 2 ^ 24 /\ (0 < dropped v -> 2 ^ 23 <= rne v (dropped v)).
Proof.
  intros Hv. pose proof (digits_bounds v Hv) as [[H1 H2] H3]. assert (0 <= dropped v) as H0 by (unfold dropped; lia). pose proof (rne_bounds v (dropped v) H0) as Hr.
  assert (v / 2 ^ dropped v < 2 ^ 24) as Hu.
  { apply Z.div_lt_upper_bound; [apply Z.pow_pos_nonneg; lia|]. rewrite <- Z.pow_add_r by lia. assert (2 ^ digits v <= 2 ^ (dropped v + 24)) by (apply Z.pow_le_mono_r; unfold dropped; lia). lia. }
  assert (0 < dropped v -> 2 ^ 23 <= v / 2 ^ dropped v) as Hl.
  { intros Hd. apply Z.div_le_lower_bound; [apply Z.pow_pos_nonneg; lia|]. rewrite <- Z.pow_add_r by lia. assert (dropped v + 23 = digits v - 1) as -> by (unfold dropped in *; lia). done. }
  split; [|intros Hd; specialize (Hl Hd); lia]. destruct (Z.eq_dec (dropped v) 0) as [E|]; [|specialize (Hl ltac:(lia)); lia].
  rewrite E in *. change (2 ^ 0) with 1 in *. rewrite Z.div_1_r in *. lia.
Qed.

(** The second shift and the end of the rounding. *)
Definition finished (q f : Z) : float :=
  let '(mrs, e) := shr_fexp 24 128 q f loc_Exact in
  match shr_m mrs with Z0 => S754_zero false | Zpos m => if Z.leb e (Z.sub 128 24) then S754_finite false m e else S754_infinity false | _ => S754_nan end.
Lemma finish_round q f : 0 < q <= 2 ^ 24 -> -149 <= f -> (-149 < f -> 2 ^ 23 <= q) ->
  score (finished q f) /\ val (finished q f) = Z.min (q * 2 ^ (f + 149)) top.
Proof.
  intros Hq Hf Hn. unfold finished, shr_fexp, fexp, emin. cbn [shr_record_of_loc]. destruct q as [|m|m]; try lia. cbn [Zdigits2]. rewrite digits2_digits.
  pose proof (digits_bounds (Zpos m) ltac:(lia)) as [[Hd1 Hd2] Hd3]. destruct (Z.eq_dec (Zpos m) (2 ^ 24)) as [E|Hne].
  - rewrite E. replace (digits (2 ^ 24)) with 25 by done. replace (Z.max (25 + f - 24) (3 - 128 - 24) - f) with 1 by lia. rewrite shr_run by lia. change (shifted (2 ^ 24) 1) with (Build_shr_record 8388608 false false). cbn [shr_m].
    replace (2 ^ 24 * 2 ^ (f + 149)) with (8388608 * 2 ^ (f + 1 + 149)) by (change (2 ^ 24) with (8388608 * 2 ^ 1); rewrite <- Z.mul_assoc, <- Z.pow_add_r by lia; do 2 f_equal; lia).
    destruct (Z.leb_spec (f + 1) (128 - 24)); cbn [val].
    + assert (2 ^ (f + 1 + 149) <= 2 ^ 253) by (apply Z.pow_le_mono_r; lia). unfold top. split; [split; [done|]|lia]. cbn [valid_binary]. unfold bounded, canonical_mantissa, fexp, emin. rewrite digits2_digits.
      replace (digits 8388608) with 24 by done. apply andb_true_iff. split; [apply Z.eqb_eq|apply Z.leb_le]; lia.
    + assert (2 ^ 254 <= 2 ^ (f + 1 + 149)) by (apply Z.pow_le_mono_r; lia). unfold top. split; [done|]. lia.
  - assert (digits (Zpos m) <= 24) as Hd.
    { destruct (Z.le_gt_cases (digits (Zpos m)) 24); [done|]. assert (2 ^ 24 <= 2 ^ (digits (Zpos m) - 1)) by (apply Z.pow_le_mono_r; lia). lia. }
    set (n := Z.max (digits (Zpos m) + f - 24) (3 - 128 - 24) - f). assert (n <= 0) as Hn0 by (unfold n; lia).
    assert (shr (Build_shr_record (Zpos m) false false) f n = (Build_shr_record (Zpos m) false false, f)) as -> by (unfold shr; destruct n; [done|lia|done]). cbn [shr_m].
    assert (digits (Zpos m) = 24 \/ f = -149) as Hc.
    { destruct (Z.eq_dec f (-149)); [by right|left]. specialize (Hn ltac:(lia)). assert (digits (2 ^ 23) <= digits (Zpos m)) by (apply digits_mono; lia). change (digits (2 ^ 23)) with 24 in *. lia. }
    destruct (Z.leb_spec f (128 - 24)); cbn [val].
    + assert (2 ^ (f + 149) <= 2 ^ 253) by (apply Z.pow_le_mono_r; lia). assert (0 < 2 ^ (f + 149)) by (apply Z.pow_pos_nonneg; lia). unfold top. split; [split; [done|]|nia]. cbn [valid_binary].
      unfold bounded, canonical_mantissa, fexp, emin. rewrite digits2_digits. apply andb_true_iff. split; [apply Z.eqb_eq|apply Z.leb_le]; lia.
    + assert (2 ^ 254 <= 2 ^ (f + 149)) by (apply Z.pow_le_mono_r; lia). specialize (Hn ltac:(lia)). unfold top. split; [done|]. nia.
Qed.

Lemma shl_pos m d : Zpos (Pos.iter xO m d) = Zpos m * 2 ^ Zpos d.
Proof.
  induction d as [|d IH] using Pos.peano_ind; [cbn; lia|]. rewrite Pos.iter_succ, Pos2Z.inj_xO, IH, Pos2Z.inj_succ, Z.pow_succ_r by lia. lia.
Qed.

Lemma binary_round_run m e : -149 <= e -> score (binary_round 24 128 false m e) /\ val (binary_round 24 128 false m e) = Z.min (rounded (Zpos m * 2 ^ (e + 149))) top.
Proof.
  intros He. set (v := Zpos m * 2 ^ (e + 149)). assert (0 < 2 ^ (e + 149)) by (apply Z.pow_pos_nonneg; lia). assert (0 < v) as Hv by (unfold v; lia).
  assert (digits v = digits (Zpos m) + (e + 149)) as Hd by (apply digits_shift; lia).
  set (f := fexp 24 128 (digits (Zpos m) + e)). assert (f = dropped v - 149) as Hf by (unfold f, fexp, emin, dropped; lia).
  destruct (quotient_bounds v Hv) as [H1 H2].
  pose proof (finish_round (rne v (dropped v)) f H1 ltac:(unfold dropped in Hf; lia) ltac:(intros; apply H2; lia)) as Hfin.
  unfold rounded. replace (2 ^ dropped v) with (2 ^ (f + 149)) by (f_equal; lia). set (r := binary_round 24 128 false m e). assert (r = finished (rne v (dropped v)) f) as ->; [|exact Hfin]. unfold r, binary_round. rewrite digits2_digits. fold f.
  assert (exists mz ez, shl_align m e f = (mz, ez) /\ Zpos mz * 2 ^ (ez + 149) = v /\ -149 <= ez <= f) as (mz & ez & -> & Emz & Hez).
  { unfold shl_align. destruct (f - e) as [|d|d] eqn:E; [exists m, e; split; [done|split; [done|lia]]..|]. eexists _, f. split; [reflexivity|]. split; [|unfold dropped in Hf; lia].
    rewrite shl_pos. unfold v. rewrite <- Z.mul_assoc, <- Z.pow_add_r by (unfold dropped in Hf; lia). do 2 f_equal. lia. }
  unfold binary_round_aux, shr_fexp at 1. cbn [shr_record_of_loc Zdigits2]. rewrite digits2_digits.
  assert (digits (Zpos mz) + ez = digits (Zpos m) + e) as -> by (pose proof (digits_shift (Zpos mz) (ez + 149) ltac:(lia) ltac:(lia)) as Hdz; rewrite Emz in Hdz; lia).
  fold f. rewrite shr_run, round_shifted by lia.
  assert (rne (Zpos mz) (f - ez) = rne v (dropped v)) as -> by (rewrite <- Emz; replace (dropped (Zpos mz * 2 ^ (ez + 149))) with (f - ez + (ez + 149)) by (rewrite Emz; lia); rewrite rne_scale by lia; done).
  by replace (ez + (f - ez)) with f by lia.
Qed.

(** ** The order and addition *)

Lemma score_cases x : score x -> (exists s, x = S754_zero s) \/ x = S754_infinity false \/ exists m e, x = S754_finite false m e.
Proof. intros [H _]. destruct x as [s|[]| |[] m e]; try done; eauto. Qed.

Lemma score_exponent m e : score (S754_finite false m e) -> -149 <= e <= 104 /\ e = dropped (Zpos m * 2 ^ (e + 149)) - 149.
Proof.
  intros [_ H]. cbn [valid_binary] in H. unfold bounded, canonical_mantissa, fexp, emin in H. apply andb_true_iff in H as [H1%Z.eqb_eq H2%Z.leb_le]. rewrite digits2_digits in H1.
  split; [lia|]. unfold dropped. rewrite digits_shift by lia. lia.
Qed.

Lemma top_pos : 0 < top.
Proof. apply Z.pow_pos_nonneg; lia. Qed.

Lemma val_finite m e : score (S754_finite false m e) -> 0 < Zpos m * 2 ^ (e + 149) < top.
Proof.
  intros Hs. destruct (score_exponent m e Hs) as [He Ed]. assert (0 < 2 ^ (e + 149)) by (apply Z.pow_pos_nonneg; lia). assert (2 ^ (e + 149) <= 2 ^ 253) by (apply Z.pow_le_mono_r; lia).
  assert (Zpos m < 2 ^ 24) as Hm.
  { pose proof (digits_bounds (Zpos m) ltac:(lia)) as [[_ Hm] _]. unfold dropped in Ed. rewrite digits_shift in Ed by lia. assert (2 ^ digits (Zpos m) <= 2 ^ 24) by (apply Z.pow_le_mono_r; lia). lia. }
  assert (Zpos m * 2 ^ (e + 149) < top) by (unfold top; nia). lia.
Qed.

Lemma val_bounds x : score x -> 0 <= val x <= top.
Proof.
  intros Hs. pose proof top_pos. destruct (score_cases x Hs) as [(s & ->)|[->|(m & e & ->)]]; cbn [val]; [lia..|]. pose proof (val_finite m e Hs). lia.
Qed.

(** A score is as its value. *)
Lemma val_rounded x : score x -> rounded (val x) = val x.
Proof.
  intros Hs. destruct (score_cases x Hs) as [(s & ->)|[->|(m & e & ->)]]; cbn [val]; [reflexivity|vm_compute; reflexivity|].
  destruct (score_exponent m e Hs) as [He Ed]. apply rounded_exact; lia.
Qed.

Lemma top_rounded a : 0 <= a -> top <= rounded (top + a).
Proof.
  intros Ha. rewrite <- (val_rounded (S754_infinity false) (conj I eq_refl)) at 1. cbn [val]. pose proof top_pos. apply rounded_mono. lia.
Qed.

Lemma fadd_finite mx ex my ey : score (S754_finite false mx ex) -> score (S754_finite false my ey) ->
  let r := fadd (S754_finite false mx ex) (S754_finite false my ey) in
  score r /\ val r = Z.min (rounded (Zpos mx * 2 ^ (ex + 149) + Zpos my * 2 ^ (ey + 149))) top.
Proof.
  intros Hx Hy. unfold fadd. cbn [SFadd]. destruct (score_exponent mx ex Hx) as [Hex _], (score_exponent my ey Hy) as [Hey _]. set (ez := Z.min ex ey). clear Hx Hy.
  assert (forall m e, ez <= e -> Zpos (fst (shl_align m e ez)) = Zpos m * 2 ^ (e - ez)) as Hal.
  { intros m e Hle. unfold shl_align. destruct (ez - e) as [|d|d] eqn:E; cbn [fst]; [replace (e - ez) with 0 by lia; lia|lia|]. rewrite shl_pos. do 2 f_equal. lia. }
  cbn [cond_Zopp]. rewrite !Hal by lia. assert (0 < 2 ^ (ex - ez)) by (apply Z.pow_pos_nonneg; lia). assert (0 < 2 ^ (ey - ez)) by (apply Z.pow_pos_nonneg; lia).
  assert (Zpos mx * 2 ^ (ex + 149) + Zpos my * 2 ^ (ey + 149) = (Zpos mx * 2 ^ (ex - ez) + Zpos my * 2 ^ (ey - ez)) * 2 ^ (ez + 149)) as ->.
  { rewrite Z.mul_add_distr_r, <- !Z.mul_assoc, <- !Z.pow_add_r by lia. f_equal; do 2 f_equal; lia. }
  destruct (Zpos mx * 2 ^ (ex - ez) + Zpos my * 2 ^ (ey - ez)) as [|m|m] eqn:E; try lia. cbn [binary_normalize]. apply binary_round_run. lia.
Qed.

Lemma fadd_val x y : score x -> score y -> score (fadd x y) /\ val (fadd x y) = Z.min (rounded (val x + val y)) top.
Proof.
  intros Hx Hy. assert (forall z, score z -> val z = Z.min (rounded (val z)) top) as Hz.
  { intros z Hz. rewrite val_rounded by exact Hz. pose proof (val_bounds z Hz). lia. }
  assert (forall z, score z -> top = Z.min (rounded (top + val z)) top) as Hinf.
  { intros z Hs. pose proof (val_bounds z Hs). pose proof (top_rounded (val z) ltac:(lia)). lia. }
  destruct (score_cases x Hx) as [(sx & ->)|[->|(mx & ex & ->)]]; [|split; [|rewrite (Z.add_comm (val _)); change (val (S754_infinity false)) with top]|].
  - assert (fadd (S754_zero sx) y = y \/ fadd (S754_zero sx) y = S754_zero false /\ val y = 0) as [->|[-> E]].
    { destruct (score_cases y Hy) as [(sy & ->)|[->|(my & ey & ->)]]; [destruct sx, sy; cbn; auto|by left..]. }
    + split; [exact Hy|]. change (val (S754_zero sx)) with 0. rewrite Z.add_0_l. by apply Hz.
    + rewrite E. by split.
  - destruct (score_cases y Hy) as [(sy & ->)|[->|(my & ey & ->)]]; exact Hx.
  - rewrite Z.add_comm. rewrite <- (Hinf y Hy). destruct (score_cases y Hy) as [(sy & ->)|[->|(my & ey & ->)]]; reflexivity.
  - destruct (score_cases y Hy) as [(sy & ->)|[->|(my & ey & ->)]].
    + split; [exact Hx|]. change (val (S754_zero sy)) with 0. rewrite Z.add_0_r. by apply (Hz (S754_finite false mx ex)).
    + split; [exact Hy|]. rewrite Z.add_comm. apply (Hinf _ Hx).
    + by apply fadd_finite.
Qed.

Lemma finite_order mx ex my ey : score (S754_finite false mx ex) -> score (S754_finite false my ey) ->
  Zpos mx * 2 ^ (ex + 149) < Zpos my * 2 ^ (ey + 149) <-> ex < ey \/ ex = ey /\ Zpos mx < Zpos my.
Proof.
  intros Hx Hy. pose proof (val_finite _ _ Hx) as Bx. pose proof (val_finite _ _ Hy) as By. destruct (score_exponent mx ex Hx) as [Hex Dx], (score_exponent my ey Hy) as [Hey Dy]. clear Hx Hy.
  assert (forall a b, 0 <= a <= b -> dropped a <= dropped b) as Hd by (intros a b Hab; unfold dropped; pose proof (digits_mono a b Hab); lia). split.
  - intros Hlt. pose proof (Hd _ _ (conj (Z.lt_le_incl _ _ (proj1 Bx)) (Z.lt_le_incl _ _ Hlt))). destruct (Z.eq_dec ex ey) as [<-|]; [|lia]. right. split; [done|].
    assert (0 < 2 ^ (ex + 149)) by (apply Z.pow_pos_nonneg; lia). nia.
  - intros [He|[<- Hm]].
    + destruct (Z.lt_ge_cases (Zpos mx * 2 ^ (ex + 149)) (Zpos my * 2 ^ (ey + 149))) as [|Hge]; [done|]. pose proof (Hd _ _ (conj (Z.lt_le_incl _ _ (proj1 By)) Hge)). lia.
    + assert (0 < 2 ^ (ex + 149)) by (apply Z.pow_pos_nonneg; lia). nia.
Qed.

Lemma fgt_val x y : score x -> score y -> fgt x y = true <-> val y < val x.
Proof.
  intros Hx Hy. rewrite (fgt_key y x) by (apply Hx || apply Hy). unfold key_lt. pose proof top_pos.
  destruct (score_cases x Hx) as [(sx & ->)|[->|(mx & ex & ->)]], (score_cases y Hy) as [(sy & ->)|[->|(my & ey & ->)]]; cbn [score_key fst snd val]; try lia;
    try pose proof (val_finite _ _ Hy); try pose proof (val_finite _ _ Hx); [lia..|].
  rewrite finite_order by done. lia.
Qed.

Definition feq (x y : float) : bool := SFeqb x y.

Lemma feq_val x y : score x -> score y -> feq x y = true <-> val x = val y.
Proof.
  intros Hx Hy. pose proof (fgt_val x y Hx Hy) as H1. pose proof (fgt_val y x Hy Hx) as H2. revert H1 H2. unfold feq, fgt, SFeqb, SFltb.
  destruct (score_cases x Hx) as [(sx & ->)|[->|(mx & ex & ->)]], (score_cases y Hy) as [(sy & ->)|[->|(my & ey & ->)]];
    cbn [SFcompare]; try (intros H1 H2; split; [intros; lia|intros; done]);
    try (intros H1 H2; split; [done|intros E]; rewrite E in *; exfalso; assert (false = true) by (apply H1 || apply H2; pose proof top_pos; cbn [val] in *; lia); done).
  all: try (intros H1 H2; split; [done|intros E]; exfalso; pose proof top_pos; try pose proof (val_finite _ _ Hx); try pose proof (val_finite _ _ Hy); cbn [val] in *; lia).
  intros _ _. change (Pos.compare_cont Eq mx my) with (Pos.compare mx my). cbn [val].
  pose proof (finite_order mx ex my ey Hx Hy). pose proof (finite_order my ey mx ex Hy Hx).
  destruct (Z.compare_spec ex ey) as [->| |]; [destruct (Pos.compare_spec mx my) as [->| |]|..]; (split; [intros; done|intros E]); try done; exfalso; lia.
Qed.

(** Larger summands, larger sum. *)
Lemma fadd_mono x x' y y' : score x -> score x' -> score y -> score y' -> val x <= val x' -> val y <= val y' -> val (fadd x y) <= val (fadd x' y').
Proof.
  intros Hx Hx' Hy Hy' H1 H2. rewrite (proj2 (fadd_val x y Hx Hy)), (proj2 (fadd_val x' y' Hx' Hy')). pose proof (val_bounds x Hx). pose proof (val_bounds y Hy).
  pose proof (rounded_mono (val x + val y) (val x' + val y') ltac:(lia)). lia.
Qed.

(** The product with one. *)
Definition f_one : float := S754_finite false 8388608 (-23).

Lemma fmul_one x : score x -> fmul x f_one = x.
Proof.
  intros Hx. unfold fmul, f_one. destruct (score_cases x Hx) as [(s & ->)|[->|(m & e & ->)]]; cbn [SFmul xorb]; [by destruct s|done|].
  destruct (score_exponent m e Hx) as [He Ed]. assert (digits (Zpos m) <= 24) as Hd by (unfold dropped in Ed; rewrite digits_shift in Ed by lia; lia).
  assert (fexp 24 128 (digits (Zpos m) + e) = e) as Hf by (unfold fexp, emin; unfold dropped in Ed; rewrite digits_shift in Ed by lia; lia).
  unfold binary_round_aux, shr_fexp at 1. cbn [shr_record_of_loc Zdigits2]. rewrite digits2_digits.
  replace (Zpos (m * 8388608)) with (Zpos m * 2 ^ 23) by lia. rewrite digits_shift by lia.
  replace (digits (Zpos m) + 23 + (e + -23)) with (digits (Zpos m) + e) by lia. rewrite Hf. replace (e - (e + -23)) with 23 by lia.
  rewrite shr_run, round_shifted, rne_exact by lia. replace (e + -23 + 23) with e by lia.
  unfold shr_fexp. cbn [shr_record_of_loc Zdigits2]. rewrite digits2_digits, Hf, Z.sub_diag. cbn [shr shr_m]. by rewrite (proj2 (Z.leb_le e (128 - 24))) by lia.
Qed.

(** The product of a score with a finite factor of one or more is a score. *)
Definition factor (b : float) : Prop := score b /\ val f_one <= val b < top.

Lemma fmul_finite mx ex my ey : score (S754_finite false mx ex) -> factor (S754_finite false my ey) -> score (fmul (S754_finite false mx ex) (S754_finite false my ey)).
Proof.
  intros Hx [Hy [Hge _]]. destruct (score_exponent mx ex Hx) as [Hex Edx], (score_exponent my ey Hy) as [Hey Edy]. clear Hx Hy. cbn [val] in Hge.
  unfold dropped in Edx, Edy. rewrite digits_shift in Edx, Edy by lia. pose proof (digits_bounds (Zpos mx) ltac:(lia)) as [Hmx Hdx]. pose proof (digits_bounds (Zpos my) ltac:(lia)) as [Hmy Hdy].
  assert (digits (Zpos my) = 24 /\ -23 <= ey) as [Hd24 Hey2].
  { assert (150 <= digits (Zpos my) + (ey + 149)); [|lia]. rewrite <- digits_shift by lia. change 150 with (digits (val f_one)). apply digits_mono. split; [cbn; lia|exact Hge]. }
  set (v := Zpos mx * Zpos my). assert (2 ^ (digits (Zpos mx) + 22) <= v < 2 ^ (digits (Zpos mx) + 24)) as Hv.
  { unfold v. rewrite Hd24 in Hmy. change (24 - 1) with 23 in Hmy. replace (digits (Zpos mx) + 22) with (digits (Zpos mx) - 1 + 23) by lia. rewrite !Z.pow_add_r by lia. nia. }
  assert (0 < v) as Hv0 by (unfold v; lia). pose proof (digits_bounds v Hv0) as [Hvd Hd1]. set (d := digits v) in *.
  assert (digits (Zpos mx) + 23 <= d <= digits (Zpos mx) + 24) as Hd.
  { split; [assert (digits (Zpos mx) + 22 < d) by (apply (Z.pow_lt_mono_r_iff 2); lia); lia|].
    assert (d - 1 < digits (Zpos mx) + 24) by (apply (Z.pow_lt_mono_r_iff 2); lia). lia. }
  set (f := fexp 24 128 (d + (ex + ey))). set (n := f - (ex + ey)). assert (0 <= n /\ d - 24 <= n <= d - 1 /\ -149 <= f /\ (-149 < f -> n = d - 24)) as (Hn0 & Hn & Hf & Hn2) by (unfold n, f, fexp, emin; lia).
  assert (0 < 2 ^ n) as Hp by (apply Z.pow_pos_nonneg; lia). pose proof (rne_bounds v n Hn0) as Hr.
  assert (1 <= v / 2 ^ n < 2 ^ 24) as Hq.
  { split; [apply Z.div_le_lower_bound; [lia|]; assert (2 ^ n <= 2 ^ (d - 1)) by (apply Z.pow_le_mono_r; lia); lia|]. apply Z.div_lt_upper_bound; [lia|]. rewrite <- Z.pow_add_r by lia.
    assert (2 ^ d <= 2 ^ (n + 24)) by (apply Z.pow_le_mono_r; lia). lia. }
  assert (-149 < f -> 2 ^ 23 <= v / 2 ^ n) as Hq2.
  { intros Hlt. rewrite (Hn2 Hlt) in *. apply Z.div_le_lower_bound; [lia|]. rewrite <- Z.pow_add_r by lia. replace (d - 24 + 23) with (d - 1) by lia. lia. }
  destruct (finish_round (rne v n) f ltac:(lia) Hf ltac:(intros Hlt; specialize (Hq2 Hlt); lia)) as [Hs _].
  assert (fmul (S754_finite false mx ex) (S754_finite false my ey) = finished (rne v n) f) as ->; [|exact Hs].
  unfold fmul. cbn [SFmul xorb]. unfold binary_round_aux, shr_fexp at 1. cbn [shr_record_of_loc Zdigits2]. rewrite digits2_digits, Pos2Z.inj_mul. fold v. fold d. fold f. fold n.
  rewrite shr_run, round_shifted by lia. by replace (ex + ey + n) with f by (unfold n; lia).
Qed.

Lemma fmul_score x b : score x -> factor b -> score (fmul x b).
Proof.
  intros Hx Hb. pose proof Hb as [Hb1 Hb2]. destruct (score_cases b Hb1) as [(s & ->)|[->|(my & ey & ->)]]; [cbn [val] in Hb2; by destruct Hb2 as [Hb2 _]|cbn [val] in Hb2; lia|].
  destruct (score_cases x Hx) as [(s & ->)|[->|(mx & ex & ->)]]; [|done|by apply fmul_finite]. by destruct s.
Qed.

Lemma and_score l : Forall score l -> score (computeAggregatedRuntimeScoreForAnd l).
Proof.
  unfold computeAggregatedRuntimeScoreForAnd. intros H. assert (score f_zero) as H0 by done. revert H0. generalize f_zero.
  induction H as [|x l Hx _ IH]; intros a Ha; cbn [fold_left]; [done|]. apply IH. by apply fadd_val.
Qed.

(** So for the score of a conjunction. *)
Lemma and_score_mono l l' : Forall2 (fun x y => score x /\ score y /\ val x <= val y) l l' ->
  val (computeAggregatedRuntimeScoreForAnd l) <= val (computeAggregatedRuntimeScoreForAnd l').
Proof.
  unfold computeAggregatedRuntimeScoreForAnd. intros H. assert (score f_zero /\ val f_zero <= val f_zero) as [H0 Hv] by done. revert H0 Hv.
  assert (forall a b, score a -> score b -> val a <= val b -> val (fold_left fadd l a) <= val (fold_left fadd l' b)) as Hg; [|intros H0 Hv; by apply Hg].
  induction H as [|x y l l' (Hx & Hy & Hxy) _ IH]; intros a b Ha Hb Hab; cbn [fold_left]; [done|]. apply IH; [by apply fadd_val..|]. by apply fadd_mono.
Qed.

(** A sum that starts at zero is no negative zero, so that adding it to zero changes
    nothing. *)
Lemma and_score_not_minus l : Forall score l -> computeAggregatedRuntimeScoreForAnd l <> S754_zero true.
Proof.
  unfold computeAggregatedRuntimeScoreForAnd. intros Hl. assert (score f_zero /\ f_zero <> S754_zero true) as [H0 Hne] by done. revert H0 Hne. generalize f_zero.
  induction Hl as [|x l Hx _ IH]; intros a Ha Hne; cbn [fold_left]; [done|]. destruct (fadd_val a x Ha Hx) as [Hs Hv]. apply IH; [done|]. intros E. rewrite E in Hv.
  assert (val a = 0 /\ val x = 0) as [Ea Ex].
  { pose proof (val_bounds a Ha). pose proof (val_bounds x Hx). pose proof (rounded_mono (val a) (val a + val x) ltac:(lia)) as H1. pose proof (rounded_mono (val x) (val a + val x) ltac:(lia)) as H2.
    rewrite val_rounded in H1, H2 by done. cbn [val] in Hv. pose proof top_pos. lia. }
  destruct (score_cases a Ha) as [(sa & ->)|[->|(ma & ea & ->)]]; [|pose proof top_pos; cbn [val] in *; lia|pose proof (val_finite _ _ Ha); cbn [val] in *; lia].
  destruct sa; [done|]. destruct (score_cases x Hx) as [(sx & ->)|[->|(mx & ex & ->)]]; [|pose proof top_pos; cbn [val] in *; lia|pose proof (val_finite _ _ Hx); cbn [val] in *; lia].
  destruct sx; done.
Qed.

Lemma and_score_app l l' : Forall score l -> computeAggregatedRuntimeScoreForAnd (computeAggregatedRuntimeScoreForAnd l :: l') = computeAggregatedRuntimeScoreForAnd (l ++ l').
Proof.
  intros Hl. pose proof (and_score l Hl) as Hs. pose proof (and_score_not_minus l Hl) as Hne. unfold computeAggregatedRuntimeScoreForAnd at 1 3. rewrite fold_left_app. cbn [fold_left].
  f_equal. change (fold_left fadd l f_zero) with (computeAggregatedRuntimeScoreForAnd l). revert Hne. destruct (score_cases _ Hs) as [(s & ->)|[->|(m & e & ->)]]; [|done..]. by destruct s.
Qed.
End FloatOrder.
