(* ===== verification/VirtualList.v ===== *)
(** * The term virtual list (core/operation/physical_plan/UnionLowestLevelTermVirtualListOperator.cpp)

    The operator that streams the records of a term in the order of their scores.  It
    keeps one item per inverted list of the term, the next record of that list with a
    valid hit, in a heap; [getNext] returns the item at the front and replaces it with
    the next of its list.  The heap algorithms of the standard library are parameters:
    the library leaves open how they arrange the items. *)
From S2P Require Import Prelude ForwardList PlanOperators FloatOrder.
From Stdlib Require Import ZArith Lia List Bool SpecFloat.
From stdpp Require Import base list.
Open Scope Z_scope.

Module VirtualList.
Import ForwardList(ATTRIBUTES_OP).
Import PlanOperators FloatOrder.

(** ** Comparison of records *)

Definition compareRecordsLessThan (leftRecordScore : float) (leftRecordId : Z) (rightRecordScore : float) (rightRecordId : Z) : bool :=
  if feq leftRecordScore rightRecordScore then rightRecordId <? leftRecordId else fgt rightRecordScore leftRecordScore.

(** ** The items of the heap *)

Record HeapItem := mk_heap_item {
  h_invertedListId : Z;
  h_attributeIdsList : list Z;
  h_cursorVectorPosition : Z;
  h_recordId : Z;
  h_termRecordRuntimeScore : float;
  h_termRecordStaticScore : Z;
  h_positionIndexOffset : Z;
  h_trieNode : Z;
  h_ed : Z;
  h_isPrefixMatch : bool }.

Definition HeapItemCmp (lhs rhs : HeapItem) : bool :=
  compareRecordsLessThan (h_termRecordRuntimeScore lhs) (h_recordId lhs) (h_termRecordRuntimeScore rhs) (h_recordId rhs).

(** The algorithms of the standard library on a range that is a heap. *)
Record heap_algorithms := mk_heap {
  make_heap : (HeapItem -> HeapItem -> bool) -> list HeapItem -> list HeapItem;
  push_heap : (HeapItem -> HeapItem -> bool) -> list HeapItem -> list HeapItem;
  pop_heap : (HeapItem -> HeapItem -> bool) -> list HeapItem -> list HeapItem }.

(** The members of the operator; the vectors of cursors and of lists have the same
    positions. *)
Record VirtualList := mk_virtual_list {
  itemsHeap : list HeapItem;
  cursorVector : list Z;
  invertedListReadViewVector : list (list Z);
  numberOfItemsInPartialHeap : Z;
  currentMaxEditDistanceOnHeap : Z }.

(** What [close] leaves in the cache for a later [open]. *)
Record CacheEntry := mk_cache_entry {
  e_itemsHeap : list HeapItem;
  e_numberOfItemsInPartialHeap : Z;
  e_currentMaxEditDistanceOnHeap : Z;
  e_cursorVector : list Z }.

Section Operator.
Context {I : Type} `{IndexReader I} (index : I).
Variable (computeTermRecordRuntimeScore : Z -> Z -> Z -> bool -> float -> float -> float).
Variable (prefixMatchPenalty : float).
Variable (heap : heap_algorithms).
Variable (term : Term).
(** The static score of a fresh record object, which the operator does not set. *)
Variable (unset : Z).

Definition is_prefix_term : bool := match getTermType term with TERM_TYPE_PREFIX => true | _ => false end.

Definition runtime_score (staticScore ed : Z) (isPrefixMatch : bool) : float :=
  fmul (computeTermRecordRuntimeScore staticScore ed (keywordSize term) isPrefixMatch prefixMatchPenalty (getSimilarityBoost term)) (getBoost term).

(** ** Opening *)

(** The search of the first record with a valid hit, from a record whose offset was
    read, with [records] behind it: the record, its offset, its score and the number of
    records read.  The list of attributes is kept from record to record. *)
Fixpoint first_hit (invertedListId record : Z) (keywordOffset : option Z) (records : list Z) (counter : Z) (termAttributeBitmap : list Z) :
    result (option (Z * Z * list Z * Z * Z)) :=
  let? (valid, termAttributeBitmap, staticScore) :=
    match keywordOffset with
    | Some o => isValidTermPositionHit index record o (getAttributesToFilter term) (getFilterAttrOperation term) termAttributeBitmap
    | None => Ok (false, termAttributeBitmap, 0)
    end in
  match keywordOffset, valid with
  | Some o, true => Ok (Some (record, o, termAttributeBitmap, staticScore, counter))
  | _, _ =>
      match records with
      | [] => Ok None
      | record :: records =>
          let? keywordOffset := getKeywordOffset index record invertedListId in
          first_hit invertedListId record keywordOffset records (counter + 1) termAttributeBitmap
      end
  end.

Definition initialiseTermVirtualListElement (l : leaf) (v : VirtualList) : result VirtualList :=
  let? records := getInvertedListReadView index (l_list l) in
  match records with
  | [] => Ok v
  | record :: records' =>
      let? keywordOffset := getKeywordOffset index record (l_list l) in
      let? hit := first_hit (l_list l) record keywordOffset records' 1 [] in
      match hit with
      | None => Ok v
      | Some (record, offset, attributes, staticScore, counter) =>
          let n := wrap 32 (numberOfItemsInPartialHeap v + 1) in
          let ed := if n =? 0 then l_distance l else currentMaxEditDistanceOnHeap v in
          let isPrefixMatch := is_prefix_term && negb (l_prefix l =? l_node l) in
          let node := if is_prefix_term then l_prefix l else l_node l in
          Ok (mk_virtual_list
            (itemsHeap v ++ [mk_heap_item (l_list l) attributes (Z.of_nat (length (cursorVector v))) record
               (runtime_score staticScore (l_distance l) isPrefixMatch) staticScore offset node (l_distance l) isPrefixMatch])
            (cursorVector v ++ [counter]) (invertedListReadViewVector v ++ [records]) n ed)
      end
  end.

Fixpoint initialise_all (ls : list leaf) (v : VirtualList) : result VirtualList :=
  match ls with
  | [] => Ok v
  | l :: ls => let? v := initialiseTermVirtualListElement l v in initialise_all ls v
  end.

(** With the entry that the parent hands down, when it found one in the cache.  The
    vectors are those that [close] left. *)
Definition open (cache : option CacheEntry) (v : VirtualList) : result VirtualList :=
  let? v := initialise_all (leaves term) (mk_virtual_list (itemsHeap v) (cursorVector v) (invertedListReadViewVector v) 0 0) in
  match cache with
  | None =>
      let n := Z.to_nat (numberOfItemsInPartialHeap v) in
      Ok (mk_virtual_list (make_heap heap HeapItemCmp (take n (itemsHeap v)) ++ drop n (itemsHeap v)) (cursorVector v) (invertedListReadViewVector v)
        (numberOfItemsInPartialHeap v) (currentMaxEditDistanceOnHeap v))
  | Some e =>
      Ok (mk_virtual_list (e_itemsHeap e) (e_cursorVector e) (invertedListReadViewVector v) (e_numberOfItemsInPartialHeap e) (e_currentMaxEditDistanceOnHeap e))
  end.

(** ** Reading *)

(** The loop over the items when the heap is empty: the number of items in it, the
    largest distance and whether an item came into it. *)
Fixpoint add_loop (items : list HeapItem) (n maxEd : Z) (returnValue : bool) : Z * Z * bool :=
  match items with
  | [] => (n, maxEd, returnValue)
  | item :: items =>
      if n =? 0 then
        if maxEd <? h_ed item then add_loop items (wrap 32 (n + 1)) (h_ed item) true else add_loop items n maxEd returnValue
      else if h_ed item <=? maxEd then add_loop items (wrap 32 (n + 1)) maxEd true
      else (n, maxEd, returnValue)
  end.

Definition _addItemsToPartialHeap (v : VirtualList) : VirtualList * bool :=
  let '(n, maxEd, returnValue) := add_loop (itemsHeap v) (numberOfItemsInPartialHeap v) (currentMaxEditDistanceOnHeap v) false in
  let k := Z.to_nat n in
  (mk_virtual_list (if returnValue then make_heap heap HeapItemCmp (take k (itemsHeap v)) ++ drop k (itemsHeap v) else itemsHeap v)
     (cursorVector v) (invertedListReadViewVector v) n maxEd, returnValue).

(** The loop to the next record of a list with a valid hit, from the cursor on. *)
Fixpoint next_hit (invertedListId : Z) (records : list Z) (cursor : Z) : result (option (Z * Z * list Z * Z * Z)) :=
  match records with
  | [] => Ok None
  | record :: records =>
      let? keywordOffset := getKeywordOffset index record invertedListId in
      let? (valid, matchedAttributeIdsList, staticScore) :=
        match keywordOffset with
        | Some o => isValidTermPositionHit index record o (getAttributesToFilter term) (getFilterAttrOperation term) []
        | None => Ok (false, [], 0)
        end in
      match keywordOffset, valid with
      | Some o, true => Ok (Some (record, o, matchedAttributeIdsList, staticScore, cursor + 1))
      | _, _ => next_hit invertedListId records (cursor + 1)
      end
  end.

(** The record that an item stands for. *)
Definition item_of (h : HeapItem) : PhysicalPlanRecordItem :=
  mk_item (h_recordId h) unset (h_termRecordRuntimeScore h) [h_trieNode h] [h_ed h] [h_attributeIdsList h] [h_positionIndexOffset h] [getTermType term].

(** An item with the next record of its list. *)
Definition replaced (h : HeapItem) (record offset : Z) (attributes : list Z) (staticScore : Z) : HeapItem :=
  mk_heap_item (h_invertedListId h) attributes (h_cursorVectorPosition h) record (runtime_score staticScore (h_ed h) (h_isPrefixMatch h)) staticScore offset
    (h_trieNode h) (h_ed h) (h_isPrefixMatch h).

(** [pop_heap] moves the pointer to the front item to the last place of the heap, where
    the item is replaced and pushed again, or erased. *)
Definition getNext (v : VirtualList) : result (VirtualList * option PhysicalPlanRecordItem) :=
  let '(v, more) := if numberOfItemsInPartialHeap v =? 0 then _addItemsToPartialHeap v else (v, true) in
  if negb more || (numberOfItemsInPartialHeap v =? 0) then Ok (v, None)
  else
    let n := Z.to_nat (numberOfItemsInPartialHeap v) in
    let? currentHeapMax := vec_at (itemsHeap v) 0 in
    let items := pop_heap heap HeapItemCmp (take n (itemsHeap v)) ++ drop n (itemsHeap v) in
    let position := h_cursorVectorPosition currentHeapMax in
    let? cursor := vec_at (cursorVector v) position in
    let? records := vec_at (invertedListReadViewVector v) position in
    let? hit := next_hit (h_invertedListId currentHeapMax) (drop (Z.to_nat cursor) records) cursor in
    match hit with
    | Some (record, offset, attributes, staticScore, cursor) =>
        let items := <[(n - 1)%nat := replaced currentHeapMax record offset attributes staticScore]> items in
        Ok (mk_virtual_list (push_heap heap HeapItemCmp (take n items) ++ drop n items) (<[Z.to_nat position := cursor]> (cursorVector v))
          (invertedListReadViewVector v) (numberOfItemsInPartialHeap v) (currentMaxEditDistanceOnHeap v), Some (item_of currentHeapMax))
    | None =>
        Ok (mk_virtual_list (delete (n - 1)%nat items) (cursorVector v) (invertedListReadViewVector v)
          (numberOfItemsInPartialHeap v - 1) (currentMaxEditDistanceOnHeap v), Some (item_of currentHeapMax))
    end.

(** ** Closing *)

Definition close (parentIsCacheEnabled : bool) (v : VirtualList) : VirtualList * option CacheEntry :=
  (mk_virtual_list [] [] [] (numberOfItemsInPartialHeap v) (currentMaxEditDistanceOnHeap v),
   if parentIsCacheEnabled
   then Some (mk_cache_entry (itemsHeap v) (numberOfItemsInPartialHeap v) (currentMaxEditDistanceOnHeap v) (cursorVector v)) else None).

End Operator.
End VirtualList.
