(* ===== verification/VirtualListStream.v ===== *)
(** * What the term virtual list delivers
    (core/operation/physical_plan/UnionLowestLevelTermVirtualListOperator.cpp)

    An item of the heap stands for its record and for those of its list behind the
    cursor that have a valid hit.  The operator delivers the records of all items; when
    every list is in the order of the scores, so is what it delivers. *)
From S2P Require Import Prelude ForwardList PlanOperators PlanStreams PlanScan PlanScores FloatOrder VirtualList.
From Stdlib Require Import ZArith Lia List Bool Sorted.
From stdpp Require Import base list sets.
Open Scope Z_scope.

Module VirtualListStream.
Import ForwardList(ATTRIBUTES_OP).
Import PlanOperators PlanStreams PlanScan PlanScores FloatOrder VirtualList.

(** ** Streams that end for good *)

Section Streams.
Context {C : Type} (next : C -> result (C * option item)) (finished : C -> Prop).

(** A child that is at its end stays there. *)
Definition stays_finished : Prop := forall c, finished c -> exists c', next c = Ok (c', None) /\ finished c'.

(** [getNext] returns these records one after the other, and then NULL for ever. *)
Fixpoint streams (c : C) (l : list item) : Prop :=
  match l with
  | [] => finished c
  | x :: l' => exists c', next c = Ok (c', Some x) /\ streams c' l'
  end.
End Streams.

(** ** The comparison *)

Definition ranked (h : HeapItem) : Prop := score (h_termRecordRuntimeScore h).
Definition h_val (h : HeapItem) : Z := val (h_termRecordRuntimeScore h).

(** The smaller score is less, and the larger id of two records with the same score. *)
Lemma cmp_spec a b : ranked a -> ranked b -> HeapItemCmp a b = true <->
  h_val a < h_val b \/ h_val a = h_val b /\ h_recordId b < h_recordId a.
Proof.
  intros Ha Hb. unfold HeapItemCmp, compareRecordsLessThan. pose proof (feq_val _ _ Ha Hb) as He. pose proof (fgt_val _ _ Hb Ha) as Hg. unfold h_val.
  destruct (feq _ _).
  - destruct He as [He _]. specialize (He eq_refl). rewrite Z.ltb_lt. lia.
  - assert (val (h_termRecordRuntimeScore a) <> val (h_termRecordRuntimeScore b)) by (intros E; apply He in E; done). rewrite Hg. lia.
Qed.

Lemma cmp_strict_weak l : Forall ranked l -> strict_weak HeapItemCmp l.
Proof.
  intros Hl. rewrite Forall_forall in Hl. constructor.
  - intros x Hx. apply not_true_iff_false. rewrite cmp_spec by auto. lia.
  - intros x y z Hx Hy Hz. rewrite !cmp_spec by auto. lia.
  - intros x y z Hx Hy Hz. rewrite <- !not_true_iff_false, !cmp_spec by auto. lia.
Qed.

(** ** The algorithms of the standard library *)

(** [is_heap] holds of a range that [make_heap] made; the front of a heap is not less
    than any other; [pop_heap] moves it behind the others, which stay a heap; and
    [push_heap] takes the last into the heap that the others are. *)
Record heap_laws (heap : heap_algorithms) (is_heap : (HeapItem -> HeapItem -> bool) -> list HeapItem -> Prop) : Prop := {
  hl_empty cmp : is_heap cmp [];
  hl_front cmp x l : strict_weak cmp (x :: l) -> is_heap cmp (x :: l) -> Forall (fun y => cmp x y = false) l;
  hl_make cmp l : strict_weak cmp l -> Permutation (make_heap heap cmp l) l /\ is_heap cmp (make_heap heap cmp l);
  hl_pop cmp x l : strict_weak cmp (x :: l) -> is_heap cmp (x :: l) ->
    exists l', pop_heap heap cmp (x :: l) = l' ++ [x] /\ Permutation l' l /\ is_heap cmp l';
  hl_push cmp l x : strict_weak cmp (l ++ [x]) -> is_heap cmp l ->
    Permutation (push_heap heap cmp (l ++ [x])) (l ++ [x]) /\ is_heap cmp (push_heap heap cmp (l ++ [x])) }.

(** The score of a hit does not depend on what the list of attributes holds before, and
    is a number that is not negative: the index stores no others. *)
Class HitScores {I : Type} `{IndexReader I} (index : I) (known : Z -> Prop) := {
  hit_scores (record l o : Z) rs (attributes : list Z) (op : ATTRIBUTES_OP) : known record -> getInvertedListReadView index l = Ok rs -> record ∈ rs ->
    filter_ok attributes op -> getKeywordOffset index record l = Ok (Some o) ->
    exists b score, (b = true -> ForwardList.half_ge0 score = true) /\ forall matched, exists matched', isValidTermPositionHit index record o attributes op matched = Ok (b, matched', score) }.

Section Stream.
Context {I : Type} `{IndexReader I} (index : I) (known : Z -> Prop) `{!IndexLaws index known} `{!HitScores index known}.
Context (computeTermRecordRuntimeScore : Z -> Z -> Z -> bool -> float -> float -> float) (prefixMatchPenalty : float).
Context (heap : heap_algorithms) (is_heap : (HeapItem -> HeapItem -> bool) -> list HeapItem -> Prop) (Hheap : heap_laws heap is_heap).
Context (term : Term) (unset : Z) (Hterm : term_ok index known term).
Let runtime_score := runtime_score computeTermRecordRuntimeScore prefixMatchPenalty term.
Context (Hscore : forall s d b, ForwardList.half_ge0 s = true -> score (runtime_score s d b)).

Local Abbreviation item_of := (item_of term unset).
Local Abbreviation replaced := (replaced computeTermRecordRuntimeScore prefixMatchPenalty term).

(** ** The hits of a list *)

Definition hit_at (l record : Z) : option (Z * Z * list Z * Z) :=
  match getKeywordOffset index record l with
  | Ok (Some o) =>
      match isValidTermPositionHit index record o (getAttributesToFilter term) (getFilterAttrOperation term) [] with
      | Ok (true, m, s) => Some (record, o, m, s)
      | _ => None
      end
  | _ => None
  end.
Definition hits (l : Z) (records : list Z) : list (Z * Z * list Z * Z) := omap (hit_at l) records.

(** Records of a list that can be read. *)
Definition in_list (l : Z) (records : list Z) : Prop :=
  exists rs, getInvertedListReadView index l = Ok rs /\ Forall (fun r => known r /\ r ∈ rs) records.

Lemma in_list_cons l r rs : in_list l (r :: rs) -> in_list l rs.
Proof. intros (all & H1 & H2%Forall_inv_tail). by exists all. Qed.

Lemma read_hit l record rs : in_list l (record :: rs) -> exists o, getKeywordOffset index record l = Ok o /\
  match o with
  | None => hit_at l record = None
  | Some o => exists b s, (forall matched, exists matched', isValidTermPositionHit index record o (getAttributesToFilter term) (getFilterAttrOperation term) matched = Ok (b, matched', s)) /\
      if b : bool then exists m, hit_at l record = Some (record, o, m, s) /\
        isValidTermPositionHit index record o (getAttributesToFilter term) (getFilterAttrOperation term) [] = Ok (true, m, s) else hit_at l record = None
  end.
Proof.
  intros (all & Hl & [[Hk Hin] _]%Forall_cons). destruct (offset_reads record l all Hk Hl Hin) as (o & Ho). exists o. split; [done|]. unfold hit_at. rewrite Ho.
  destruct o as [o|]; [|done]. destruct (hit_scores record l o all _ _ Hk Hl Hin (to_filter _ _ _ Hterm) Ho) as (b & s & _ & Hb). exists b, s. split; [done|].
  destruct (Hb []) as (m & ->). destruct b; [by exists m|done].
Qed.

Lemma hits_proper l records : in_list l records -> Forall (fun p => ForwardList.half_ge0 p.2 = true) (hits l records).
Proof.
  induction records as [|r records IH]; intros Hl; [constructor|]. specialize (IH (in_list_cons _ _ _ Hl)). unfold hits in *. cbn [omap list_omap].
  destruct (hit_at l r) as [p|] eqn:E; [|exact IH]. constructor; [|exact IH]. unfold hit_at in E. destruct Hl as (all & Hall & [[Hk Hin] _]%Forall_cons).
  destruct (getKeywordOffset index r l) as [[o|]|] eqn:Eo; try done. destruct (hit_scores r l o all _ _ Hk Hall Hin (to_filter _ _ _ Hterm) Eo) as (b & s & Hge & Hb).
  destruct (Hb []) as (m & Hm). rewrite Hm in E. destruct b; [|done]. injection E as <-. by apply Hge.
Qed.

(** The loop of [getNext] finds the first hit, and leaves those behind it. *)
Lemma next_hit_run l records : in_list l records -> forall cursor,
  (next_hit index term l records cursor = Ok None /\ hits l records = []) \/
  exists (n : nat) r o m s, next_hit index term l records cursor = Ok (Some (r, o, m, s, cursor + Z.of_nat n)) /\ (0 < n <= length records)%nat /\
    hits l records = (r, o, m, s) :: hits l (drop n records).
Proof.
  induction records as [|record records IH]; intros Hl cursor; cbn [next_hit]; [by left|]. destruct (read_hit _ _ _ Hl) as (o & -> & Ho). cbn [rbind].
  assert (hit_at l record = None -> hits l (record :: records) = hits l records) as Hskip by (intros E; unfold hits; cbn [omap list_omap]; by rewrite E).
  assert (forall c, c = cursor + 1 -> hit_at l record = None -> (next_hit index term l records c = Ok None /\ hits l (record :: records) = []) \/
    exists (n : nat) r o m s, next_hit index term l records c = Ok (Some (r, o, m, s, cursor + Z.of_nat n)) /\ (0 < n <= length (record :: records))%nat /\
    hits l (record :: records) = (r, o, m, s) :: hits l (drop n (record :: records))) as Hnext.
  { intros c -> E. rewrite (Hskip E). destruct (IH (in_list_cons _ _ _ Hl) (cursor + 1)) as [Hn|(n & r & o' & m & s & Hn & Hlen & Hh)]; [by left|right].
    exists (S n), r, o', m, s. rewrite Hn. split; [do 3 f_equal; lia|]. split; [cbn [length]; lia|]. done. }
  destruct o as [o|]; [|cbn [rbind]; by apply Hnext]. destruct Ho as (b & s & Hb & Hat). destruct b.
  - destruct Hat as (m & Hat & Hv). rewrite Hv. cbn [rbind]. right. exists 1%nat, record, o, m, s. split; [done|]. split; [cbn [length]; lia|].
    unfold hits. cbn [omap list_omap drop]. by rewrite Hat.
  - destruct (Hb []) as (m & ->). cbn [rbind]. by apply Hnext.
Qed.

(** So does the loop of [open], whose attributes may be others. *)
Lemma opening_hit_run l records : forall record o, in_list l (record :: records) -> getKeywordOffset index record l = Ok o -> forall counter matched,
  (first_hit index term l record o records counter matched = Ok None /\ hits l (record :: records) = []) \/
  exists (n : nat) r o' m m' s, first_hit index term l record o records counter matched = Ok (Some (r, o', m', s, counter + Z.of_nat n)) /\ (n <= length records)%nat /\
    hits l (record :: records) = (r, o', m, s) :: hits l (drop n records).
Proof.
  induction records as [|record' records IH]; intros record o Hl Ho counter matched; cbn [first_hit];
    (destruct (read_hit _ _ _ Hl) as (o2 & Ho2 & Hat); rewrite Ho in Ho2; injection Ho2 as <-);
    (assert (hit_at l record = None -> forall rs, hits l (record :: rs) = hits l rs) as Hskip by (intros E rs; unfold hits; cbn [omap list_omap]; by rewrite E)).
  - destruct o as [o|]; [|cbn [rbind]; left; by rewrite Hskip]. destruct Hat as (b & s & Hb & Hat). destruct (Hb matched) as (m' & ->). cbn [rbind].
    destruct b; [|left; by rewrite Hskip]. destruct Hat as (m & Hat & _). right. exists 0%nat, record, o, m, m', s. split; [do 3 f_equal; lia|]. split; [lia|].
    unfold hits. cbn [omap list_omap drop]. by rewrite Hat.
  - pose proof (in_list_cons _ _ _ Hl) as Hl'. destruct (read_hit _ _ _ Hl') as (o2 & Ho2 & _).
    assert (forall matched', hit_at l record = None -> (first_hit index term l record' o2 records (counter + 1) matched' = Ok None /\ hits l (record :: record' :: records) = []) \/
      exists (n : nat) r o' m m' s, first_hit index term l record' o2 records (counter + 1) matched' = Ok (Some (r, o', m', s, counter + Z.of_nat n)) /\ (n <= length (record' :: records))%nat /\
      hits l (record :: record' :: records) = (r, o', m, s) :: hits l (drop n (record' :: records))) as Hnext.
    { intros matched' E. rewrite (Hskip E). destruct (IH record' o2 Hl' Ho2 (counter + 1) matched') as [Hn|(n & r & o' & m & m' & s & Hn & Hlen & Hh)]; [by left|right].
      exists (S n), r, o', m, m', s. rewrite Hn. split; [do 3 f_equal; lia|]. split; [cbn [length]; lia|]. done. }
    rewrite Ho2. destruct o as [o|]; [|cbn [rbind]; by apply Hnext]. destruct Hat as (b & s & Hb & Hat). destruct (Hb matched) as (m' & ->). cbn [rbind].
    destruct b; [|cbn [rbind]; by apply Hnext]. destruct Hat as (m & Hat & _). right. exists 0%nat, record, o, m, m', s. split; [do 3 f_equal; lia|]. split; [lia|].
    unfold hits. cbn [omap list_omap drop]. by rewrite Hat.
Qed.

(** ** The records that an item stands for *)

Definition later (h : HeapItem) (p : Z * Z * list Z * Z) : item := let '(r, o, m, s) := p in item_of (replaced h r o m s).
Definition pending (h : HeapItem) (cursor : Z) (records : list Z) : list item :=
  item_of h :: map (later h) (hits (h_invertedListId h) (drop (Z.to_nat cursor) records)).

Definition position (h : HeapItem) : nat := Z.to_nat (h_cursorVectorPosition h).
Definition pending_in (cursors : list Z) (lists : list (list Z)) (h : HeapItem) : list item :=
  match cursors !! position h, lists !! position h with
  | Some cursor, Some records => pending h cursor records
  | _, _ => []
  end.

Definition item_ok (cursors : list Z) (lists : list (list Z)) (h : HeapItem) : Prop :=
  ranked h /\ 0 <= h_cursorVectorPosition h /\ exists cursor records, cursors !! position h = Some cursor /\ lists !! position h = Some records /\
    0 <= cursor /\ in_list (h_invertedListId h) records.

(** All items are in the heap, each with a place of its own in the vectors. *)
Record stream_ok (v : VirtualList) : Prop := {
  so_number : numberOfItemsInPartialHeap v = Z.of_nat (length (itemsHeap v));
  so_heap : is_heap HeapItemCmp (itemsHeap v);
  so_items : Forall (item_ok (cursorVector v) (invertedListReadViewVector v)) (itemsHeap v);
  so_places : NoDup (map position (itemsHeap v)) }.

Definition remaining (v : VirtualList) : list (list item) := map (pending_in (cursorVector v) (invertedListReadViewVector v)) (itemsHeap v).

Lemma in_list_drop l rs n : in_list l rs -> in_list l (drop n rs).
Proof. intros (all & H1 & H2). exists all. split; [done|]. by apply Forall_drop. Qed.

(** Moving the cursor of one item leaves the others. *)
Lemma pending_other cursors lists (j : nat) cursor h : position h <> j -> pending_in (<[j := cursor]> cursors) lists h = pending_in cursors lists h.
Proof. intros Hj. unfold pending_in. by rewrite list_lookup_insert_ne. Qed.

Lemma item_ok_other cursors lists (j : nat) cursor h : position h <> j -> item_ok cursors lists h -> item_ok (<[j := cursor]> cursors) lists h.
Proof. intros Hj (Hr & Hp & c & rs & Hc & Hrest). split; [done|]. split; [done|]. exists c, rs. by rewrite list_lookup_insert_ne. Qed.

Lemma items_ranked cursors lists l : Forall (item_ok cursors lists) l -> Forall ranked l.
Proof. intros Hall. eapply Forall_impl; [exact Hall|]. by intros h [Hr _]. Qed.

(** One [getNext]: the first record of the front item, which no other is ahead of. *)
Lemma stream_step v : stream_ok v -> itemsHeap v <> [] ->
  exists v' h rest l, getNext index computeTermRecordRuntimeScore prefixMatchPenalty heap term unset v = Ok (v', Some (item_of h)) /\ stream_ok v' /\
    itemsHeap v = h :: l /\ Forall (fun y => HeapItemCmp h y = false) l /\
    pending_in (cursorVector v) (invertedListReadViewVector v) h = item_of h :: rest /\
    Permutation (remaining v') ((if rest is [] then [] else [rest]) ++ map (pending_in (cursorVector v) (invertedListReadViewVector v)) l).
Proof.
  destruct v as [items cursors lists n maxEd]. intros [Hn Hh Hok Hnd] Hne. cbn [numberOfItemsInPartialHeap itemsHeap cursorVector invertedListReadViewVector] in *.
  destruct items as [|h l]; [done|]. clear Hne. pose proof (cmp_strict_weak _ (items_ranked _ _ _ Hok)) as Hsw.
  pose proof (hl_front _ _ Hheap _ _ _ Hsw Hh) as Hfront. destruct (hl_pop _ _ Hheap _ _ _ Hsw Hh) as (l' & Hpop & Hperm & Hh').
  pose proof (Permutation_length Hperm) as Hlen. apply Forall_cons in Hok as [(Hr & Hp & cursor & records & Hc & Hrec & Hcur & Hin) Hok].
  cbn [map] in Hnd. apply NoDup_cons in Hnd as [Hfresh Hnd].
  unfold getNext. cbn [numberOfItemsInPartialHeap itemsHeap cursorVector invertedListReadViewVector]. rewrite Hn. cbn [length].
  rewrite (proj2 (Z.eqb_neq _ 0)) by lia. cbn [negb orb numberOfItemsInPartialHeap itemsHeap cursorVector invertedListReadViewVector]. rewrite (proj2 (Z.eqb_neq _ 0)) by lia.
  rewrite !Nat2Z.id, take_ge, drop_ge, app_nil_r by (cbn [length]; lia). change (vec_at (h :: l) 0) with (Ok h). cbn [rbind].
  rewrite (proj2 (vec_at_nth cursors _ cursor)) by (split; [done|exact Hc]). rewrite (proj2 (vec_at_nth lists _ records)) by (split; [done|exact Hrec]). cbn [rbind].
  rewrite Hpop. pose proof (in_list_drop _ _ (Z.to_nat cursor) Hin) as Hin'.
  assert (Forall (item_ok cursors lists) l') as Hok' by (by rewrite Hperm). assert (NoDup (map position l')) as Hnd' by (by rewrite Hperm).
  assert (Forall (fun y => position y <> position h) l') as Hoth.
  { rewrite Hperm. apply Forall_forall. intros y Hy E. apply Hfresh. rewrite <- E. apply list_elem_of_In, in_map. by apply list_elem_of_In. }
  destruct (next_hit_run _ _ Hin' cursor) as [[-> Hhits]|(k & r & o & m & s & -> & Hk & Hhits)]; cbn [rbind].
  - eexists _, h, [], l. split; [reflexivity|]. cbn [remaining itemsHeap cursorVector invertedListReadViewVector]. replace (S (length l) - 1)%nat with (length l') by lia.
    assert (delete (length l') (l' ++ [h]) = l') as Hdel by (rewrite delete_middle; by rewrite app_nil_r).
    split; [constructor; cbn [numberOfItemsInPartialHeap itemsHeap cursorVector invertedListReadViewVector]; rewrite ?Hdel; [lia|done..]|]. split; [done|]. split; [done|].
    split; [unfold pending_in, pending; by rewrite Hc, Hrec, Hhits|]. unfold remaining. cbn [itemsHeap cursorVector invertedListReadViewVector app]. rewrite Hdel. by apply Permutation_map.
  - set (h' := replaced h r o m s). set (cursors' := <[Z.to_nat (h_cursorVectorPosition h) := cursor + Z.of_nat k]> cursors).
    replace (S (length l) - 1)%nat with (length l') by lia. assert (<[length l' := h']> (l' ++ [h]) = l' ++ [h']) as -> by (rewrite <- (Nat.add_0_r (length l')) at 1; by rewrite insert_app_r).
    rewrite take_ge, drop_ge, app_nil_r by (rewrite length_app; cbn [length]; lia).
    assert (item_ok cursors' lists h') as Hh1.
    { split; [apply Hscore; pose proof (hits_proper _ _ Hin') as Hge; rewrite Hhits in Hge; by apply Forall_cons in Hge as [Hge _]|]. split; [done|]. exists (cursor + Z.of_nat k), records. change (position h') with (position h). split; [|split; [done|split; [lia|done]]].
      apply list_lookup_insert_eq. by apply lookup_lt_Some in Hc. }
    assert (Forall (item_ok cursors' lists) (l' ++ [h'])) as Hok1.
    { apply Forall_app. split; [|by apply Forall_singleton]. rewrite Forall_forall in Hok', Hoth |- *. intros y Hy. apply item_ok_other; [by apply Hoth|by apply Hok']. }
    destruct (hl_push _ _ Hheap HeapItemCmp l' h' (cmp_strict_weak _ (items_ranked _ _ _ Hok1)) Hh') as [Hpp Hph].
    eexists _, h, (map (later h) (hits (h_invertedListId h) (drop (Z.to_nat cursor) records))), l. split; [reflexivity|]. split; [|split; [done|]; split; [done|]; split].
    + constructor; cbn [numberOfItemsInPartialHeap itemsHeap cursorVector invertedListReadViewVector]; [|done|by rewrite Hpp|].
      * rewrite (Permutation_length Hpp), length_app. cbn [length]. lia.
      * rewrite Hpp, map_app. cbn [map]. rewrite Permutation_app_comm. cbn [app]. apply NoDup_cons. split; [|done].
        intros Hbad. apply list_elem_of_In, in_map_iff in Hbad as (y & Ey & Hy%list_elem_of_In). rewrite Forall_forall in Hoth. by apply (Hoth y Hy).
    + unfold pending_in, pending. by rewrite Hc, Hrec.
    + unfold remaining. cbn [itemsHeap cursorVector invertedListReadViewVector]. rewrite Hpp, map_app, Permutation_app_comm. cbn [map app].
      rewrite Hhits. cbn [map app]. assert (pending_in cursors' lists h' = later h (r, o, m, s) :: map (later h) (hits (h_invertedListId h) (drop k (drop (Z.to_nat cursor) records)))) as ->.
      { unfold pending_in. change (position h') with (position h). rewrite Hrec. unfold cursors', position. rewrite list_lookup_insert_eq by (by apply lookup_lt_Some in Hc).
        unfold pending. rewrite drop_drop. by replace (Z.to_nat (cursor + Z.of_nat k)) with (Z.to_nat cursor + k)%nat by lia. }
      apply perm_skip. rewrite <- Hperm. apply reflexive_eq, map_ext_in. intros y Hy%list_elem_of_In. rewrite Forall_forall in Hoth. apply pending_other. by apply Hoth.
Qed.
(** ** The stream *)

Local Abbreviation vl_next := (getNext index computeTermRecordRuntimeScore prefixMatchPenalty heap term unset).

Definition no_better (x y : item) : Prop := val (recordRuntimeScore y) <= val (recordRuntimeScore x).
Definition by_score (l : list item) : Prop := StronglySorted no_better l.

(** The state at the end. *)
Definition read_out (v : VirtualList) : Prop := itemsHeap v = [] /\ numberOfItemsInPartialHeap v = 0.

Lemma read_out_stays : stays_finished vl_next read_out.
Proof. intros [items cursors lists n maxEd] [Hi Hn]. cbn [numberOfItemsInPartialHeap itemsHeap] in *. subst. by eexists. Qed.

Lemma stream_end v : stream_ok v -> itemsHeap v = [] -> read_out v.
Proof. intros [Hn _ _ _] Hi. split; [done|]. by rewrite Hn, Hi. Qed.

Lemma pending_head cursors lists h : item_ok cursors lists h -> exists rest, pending_in cursors lists h = item_of h :: rest.
Proof. intros (_ & _ & c & rs & Hc & Hrs & _). unfold pending_in, pending. rewrite Hc, Hrs. by eexists. Qed.

(** In lists that are in the order of the scores nothing is better than the front. *)
Lemma front_best v h rest l : stream_ok v -> itemsHeap v = h :: l -> Forall (fun y => HeapItemCmp h y = false) l -> Forall by_score (remaining v) ->
  pending_in (cursorVector v) (invertedListReadViewVector v) h = item_of h :: rest ->
  Forall (no_better (item_of h)) (rest ++ concat (map (pending_in (cursorVector v) (invertedListReadViewVector v)) l)).
Proof.
  intros [_ _ Hok _] Hi Hfront Hs Hp. unfold remaining in Hs. rewrite Hi in Hs, Hok. cbn [map] in Hs. rewrite Hp in Hs. apply Forall_cons in Hs as [Hs Hsl]. apply Forall_cons in Hok as [[Hr _] Hok].
  apply StronglySorted_inv in Hs as [_ Hs]. apply Forall_app. split; [exact Hs|].
  apply Forall_concat, Forall_map. rewrite Forall_map in Hsl. rewrite Forall_forall in Hfront, Hok, Hsl |- *. intros y Hy.
  destruct (pending_head _ _ _ (Hok y Hy)) as (tl & Htl). specialize (Hsl y Hy). rewrite Htl in Hsl |- *. apply StronglySorted_inv in Hsl as [_ Hsl].
  assert (no_better (item_of h) (item_of y)) as Hhy.
  { specialize (Hfront y Hy). apply not_true_iff_false in Hfront. rewrite cmp_spec in Hfront by (exact Hr || apply (Hok y Hy)). unfold no_better, h_val in *. cbn [recordRuntimeScore VirtualList.item_of]. lia. }
  constructor; [done|]. rewrite List.Forall_forall in Hsl. apply Forall_forall. intros x Hx%list_elem_of_In%Hsl. unfold no_better in *. lia.
Qed.

(** The operator delivers the remaining records of all lists; in the order of the scores
    when every list is. *)
Lemma stream_run n : forall v, stream_ok v -> (total (remaining v) <= n)%nat ->
  exists out, streams vl_next read_out v out /\ Permutation out (concat (remaining v)) /\ (Forall by_score (remaining v) -> by_score out).
Proof.
  induction n as [|n IH]; intros v Hv Hn; (destruct (itemsHeap v) as [|h0 l0] eqn:E;
    [exists []; split; [by apply stream_end|]; split; [unfold remaining; by rewrite E|constructor]|]);
    destruct (stream_step v Hv) as (v' & h & rest & l & Hs & Hv' & Hi & Hfront & Hp & Hperm); try (rewrite E; done).
  all: assert (Permutation (concat (remaining v)) (item_of h :: rest ++ concat (map (pending_in (cursorVector v) (invertedListReadViewVector v)) l))) as Hall
    by (unfold remaining; rewrite Hi; cbn [map concat]; by rewrite Hp).
  all: assert (Permutation (concat (remaining v')) (rest ++ concat (map (pending_in (cursorVector v) (invertedListReadViewVector v)) l))) as Hall'
    by (rewrite Hperm, concat_app; destruct rest; cbn [concat app]; [done|by rewrite app_nil_r]).
  all: assert (forall ls, total ls = length (concat ls)) as Htot by (intros ls; unfold total; by rewrite length_concat).
  all: assert (length (concat (remaining v)) = S (length (concat (remaining v')))) as Hlen by (rewrite Hall, Hall'; done).
  all: rewrite Htot in Hn.
  { lia. }
  destruct (IH v' Hv' ltac:(rewrite Htot; lia)) as (out & Hd & Hout & Hsorted). exists (item_of h :: out). split; [by exists v'|]. split; [by rewrite Hout, Hall, Hall'|].
  intros Hs0. pose proof (front_best v h rest l Hv Hi Hfront Hs0 Hp) as Hbest. constructor.
  - apply Hsorted. rewrite Hperm. unfold remaining in Hs0. rewrite Hi in Hs0. cbn [map] in Hs0. rewrite Hp in Hs0. apply Forall_cons in Hs0 as [Hs1 Hs2].
    apply StronglySorted_inv in Hs1 as [Hs1 _]. apply Forall_app. split; [|done]. destruct rest; [constructor|by apply Forall_singleton].
  - apply List.Forall_forall. intros x Hx%list_elem_of_In. rewrite Hout, Hall' in Hx. rewrite Forall_forall in Hbest. by apply Hbest.
Qed.
(** ** Opening *)

Definition empty_list : VirtualList := mk_virtual_list [] [] [] 0 0.

(** What a record shows besides its attributes. *)
Definition shown (x : item) : Z * float * list Z * list Z * list Z :=
  (recordId x, recordRuntimeScore x, matchingPrefixes x, editDistances x, positionIndexOffsets x).

(** The records of a leaf node with a valid hit, as they are shown. *)
Definition leaf_prefix_match (l : leaf) : bool := is_prefix_term term && negb (l_prefix l =? l_node l).
Definition leaf_item (l : leaf) (p : Z * Z * list Z * Z) : Z * float * list Z * list Z * list Z :=
  let '(r, o, m, s) := p in
  (r, runtime_score s (l_distance l) (leaf_prefix_match l), [if is_prefix_term term then l_prefix l else l_node l], [l_distance l], [o]).
Definition leaf_hits (l : leaf) : list (Z * Z * list Z * Z) := hits (l_list l) (records_of index l).
Definition leaf_items (l : leaf) : list (Z * float * list Z * list Z * list Z) := map (leaf_item l) (leaf_hits l).
Definition nonempty {A} (l : list A) : bool := match l with [] => false | _ => true end.

(** The items for the leaf nodes so far: the one at a place has that place. *)
Record built (v : VirtualList) (ls : list leaf) : Prop := {
  bu_number : numberOfItemsInPartialHeap v = Z.of_nat (length (itemsHeap v));
  bu_less : (length (itemsHeap v) <= length ls)%nat;
  bu_cursors : length (cursorVector v) = length (itemsHeap v);
  bu_lists : length (invertedListReadViewVector v) = length (itemsHeap v);
  bu_items : Forall (item_ok (cursorVector v) (invertedListReadViewVector v)) (itemsHeap v);
  bu_places : map position (itemsHeap v) = seq 0 (length (itemsHeap v));
  bu_shown : map (map shown) (remaining v) = List.filter nonempty (map leaf_items ls) }.

Lemma item_ok_app cursors lists c rs h : item_ok cursors lists h -> item_ok (cursors ++ [c]) (lists ++ [rs]) h /\
  pending_in (cursors ++ [c]) (lists ++ [rs]) h = pending_in cursors lists h.
Proof.
  intros (Hr & Hp & c0 & rs0 & Hc & Hrs & Hrest). unfold pending_in. rewrite !lookup_app_l by (by eapply lookup_lt_Some). split; [|done].
  split; [done|]. split; [done|]. exists c0, rs0. by rewrite !lookup_app_l by (by eapply lookup_lt_Some).
Qed.

Lemma shown_later h l r o m s : h_isPrefixMatch h = leaf_prefix_match l -> h_ed h = l_distance l -> h_trieNode h = (if is_prefix_term term then l_prefix l else l_node l) ->
  shown (later h (r, o, m, s)) = leaf_item l (r, o, m, s).
Proof. intros H1 H2 H3. unfold shown, leaf_item, later, replaced, VirtualList.item_of. cbn. rewrite H1, H2, H3. done. Qed.

Lemma initialise_run v ls l : built v ls -> Z.of_nat (length ls) < 2 ^ 31 -> (exists rs, getInvertedListReadView index (l_list l) = Ok rs /\ Forall known rs) ->
  exists v', initialiseTermVirtualListElement index computeTermRecordRuntimeScore prefixMatchPenalty term l v = Ok v' /\ built v' (ls ++ [l]).
Proof.
  destruct v as [items cursors lists n maxEd]. intros [Hn Hless Hlc Hll Hok Hpl Hsh] Hlen (records & Hrec & Hknown).
  cbn [numberOfItemsInPartialHeap itemsHeap cursorVector invertedListReadViewVector] in *.
  assert (records_of index l = records) as Hro by (unfold records_of; by rewrite Hrec).
  unfold initialiseTermVirtualListElement. rewrite Hrec. cbn [rbind].
  assert (leaf_hits l = [] -> built (mk_virtual_list items cursors lists n maxEd) (ls ++ [l])) as Hsame.
  { intros E. constructor; cbn [numberOfItemsInPartialHeap itemsHeap cursorVector invertedListReadViewVector]; try done; [rewrite length_app; lia|].
    rewrite map_app, List.filter_app, <- Hsh. cbn [map List.filter]. unfold leaf_items. rewrite E. cbn [map nonempty]. by rewrite app_nil_r. }
  destruct records as [|record records]; [eexists; split; [done|]; apply Hsame; unfold leaf_hits; by rewrite Hro|].
  assert (in_list (l_list l) (record :: records)) as Hin.
  { exists (record :: records). split; [done|]. rewrite Forall_forall in Hknown |- *. auto. }
  destruct (read_hit _ _ _ Hin) as (o & Ho & _). rewrite Ho. cbn [rbind].
  destruct (opening_hit_run _ _ _ _ Hin Ho 1 []) as [[-> Hh]|(k & r & o' & m & m' & s & -> & Hk & Hh)]; cbn [rbind].
  { eexists. split; [done|]. apply Hsame. unfold leaf_hits. by rewrite Hro. }
  eexists. split; [done|]. cbn [numberOfItemsInPartialHeap itemsHeap cursorVector invertedListReadViewVector].
  set (h := mk_heap_item _ _ _ _ _ _ _ _ _ _). assert (position h = length cursors) as Hph by (unfold position, h; cbn [h_cursorVectorPosition]; lia).
  assert (Forall (fun h => item_ok (cursors ++ [1 + Z.of_nat k]) (lists ++ [record :: records]) h /\
    pending_in (cursors ++ [1 + Z.of_nat k]) (lists ++ [record :: records]) h = pending_in cursors lists h) items) as Hold.
  { eapply Forall_impl; [exact Hok|]. intros y. apply item_ok_app. }
  assert ((cursors ++ [1 + Z.of_nat k]) !! position h = Some (1 + Z.of_nat k) /\ (lists ++ [record :: records]) !! position h = Some (record :: records)) as [Hpc Hpr].
  { rewrite Hph. split; [by apply list_lookup_middle|]. rewrite Hlc, <- Hll. by apply list_lookup_middle. }
  constructor; cbn [numberOfItemsInPartialHeap itemsHeap cursorVector invertedListReadViewVector].
  - rewrite Hn, length_app. cbn [length]. unfold wrap. rewrite Z.mod_small; lia.
  - rewrite !length_app. cbn [length]. lia.
  - rewrite !length_app. cbn [length]. lia.
  - rewrite !length_app. cbn [length]. lia.
  - apply Forall_app. split; [eapply Forall_impl; [exact Hold|by intros y []]|]. apply Forall_singleton. split; [apply Hscore; pose proof (hits_proper _ _ Hin) as Hge; rewrite Hh in Hge; by apply Forall_cons in Hge as [Hge _]|]. split; [unfold h; cbn [h_cursorVectorPosition]; lia|].
    exists (1 + Z.of_nat k), (record :: records). split; [done|]. split; [done|]. split; [lia|exact Hin].
  - rewrite map_app, Hpl, length_app. cbn [map length]. by rewrite seq_app, Hph, Hlc.
  - unfold remaining in *. cbn [itemsHeap cursorVector invertedListReadViewVector] in *. rewrite !map_app, List.filter_app, <- Hsh. f_equal.
    + f_equal. apply map_ext_in. intros y Hy%list_elem_of_In. rewrite Forall_forall in Hold. by apply Hold.
    + cbn [map List.filter]. unfold leaf_items, leaf_hits. rewrite Hro, Hh. cbn [map nonempty]. f_equal. unfold pending_in, pending. rewrite Hpc, Hpr. cbn [map]. f_equal.
      replace (Z.to_nat (1 + Z.of_nat k)) with (S k) by lia. cbn [drop]. rewrite map_map. apply map_ext. intros [[[r1 o1] m1] s1]. by apply shown_later.
Qed.

Lemma initialise_all_run ls : forall v done, built v done -> Z.of_nat (length (done ++ ls)) < 2 ^ 31 ->
  Forall (fun l => exists rs, getInvertedListReadView index (l_list l) = Ok rs /\ Forall known rs) ls ->
  exists v', initialise_all index computeTermRecordRuntimeScore prefixMatchPenalty term ls v = Ok v' /\ built v' (done ++ ls).
Proof.
  induction ls as [|l ls IH]; intros v pre Hb Hlen Hls; cbn [initialise_all]; [rewrite app_nil_r; by exists v|]. apply Forall_cons in Hls as [Hl Hls].
  rewrite length_app in Hlen. cbn [length] in Hlen. destruct (initialise_run v pre l Hb ltac:(lia) Hl) as (v' & -> & Hb'). cbn [rbind].
  rewrite cons_middle, app_assoc. apply IH; [done| |done]. rewrite !length_app. cbn [length]. lia.
Qed.

(** Opening reads the first record of every list and makes the heap. *)
Lemma list_open_run : Z.of_nat (length (leaves term)) < 2 ^ 31 -> exists v, open index computeTermRecordRuntimeScore prefixMatchPenalty heap term None empty_list = Ok v /\ stream_ok v /\
  Permutation (map (map shown) (remaining v)) (List.filter nonempty (map leaf_items (leaves term))).
Proof.
  intros Hlen. destruct (initialise_all_run (leaves term) empty_list []) as (v & Hv & [Hn _ Hlc Hll Hok Hpl Hsh]); [by constructor|done|apply (to_lists _ _ _ Hterm)|].
  unfold open. cbn [itemsHeap cursorVector invertedListReadViewVector empty_list]. fold empty_list. rewrite Hv. cbn [rbind app]. eexists. split; [reflexivity|].
  rewrite Hn, Nat2Z.id, take_ge, drop_ge, app_nil_r by lia. destruct (hl_make _ _ Hheap HeapItemCmp _ (cmp_strict_weak _ (items_ranked _ _ _ Hok))) as [Hp Hh].
  split.
  - constructor; cbn [numberOfItemsInPartialHeap itemsHeap cursorVector invertedListReadViewVector]; [by rewrite (Permutation_length Hp)|done|by rewrite Hp|].
    rewrite Hp, Hpl. apply NoDup_seq.
  - unfold remaining in *. cbn [itemsHeap cursorVector invertedListReadViewVector]. rewrite Hp, Hsh. done.
Qed.
(** Hits in the order of the scores. *)
Definition in_order (l : list (Z * float * list Z * list Z * list Z)) : Prop :=
  StronglySorted (fun p q => val q.1.1.1.2 <= val p.1.1.1.2) l.

Lemma by_score_shown l : in_order (map shown l) -> by_score l.
Proof.
  unfold in_order, by_score. induction l as [|x l IH]; intros Hs; [constructor|]. cbn [map] in Hs. apply StronglySorted_inv in Hs as [Hs Hx]. constructor; [by apply IH|].
  rewrite List.Forall_forall in Hx |- *. intros y Hy. apply (Hx (shown y)), in_map, Hy.
Qed.

Lemma concat_nonempty {A} (ls : list (list A)) : concat (List.filter nonempty ls) = concat ls.
Proof. induction ls as [|[|x l] ls IH]; cbn [List.filter nonempty concat app]; [done|done|]. by rewrite IH. Qed.

(** Opening and reading to the end gives the hits of all lists. *)
Lemma virtual_list_run : Z.of_nat (length (leaves term)) < 2 ^ 31 ->
  exists v out, open index computeTermRecordRuntimeScore prefixMatchPenalty heap term None empty_list = Ok v /\ streams vl_next read_out v out /\
    Permutation (map shown out) (flat_map leaf_items (leaves term)) /\ (Forall (fun l => in_order (leaf_items l)) (leaves term) -> by_score out).
Proof.
  intros Hlen. destruct (list_open_run Hlen) as (v & Ho & Hok & Hsh). destruct (stream_run _ v Hok (le_n _)) as (out & Hs & Hp & Hsc). exists v, out. split; [done|]. split; [done|]. split.
  - rewrite Hp, concat_map, Hsh, concat_nonempty. by rewrite flat_map_concat_map.
  - intros Hord. apply Hsc. apply Forall_forall. intros l Hl. apply by_score_shown.
    assert (map shown l ∈ map (map shown) (remaining v)) as Hin by (apply list_elem_of_In, in_map; by apply list_elem_of_In).
    rewrite Hsh in Hin. apply list_elem_of_In, filter_In in Hin as [Hin _]. apply in_map_iff in Hin as (x & <- & Hx%list_elem_of_In). rewrite Forall_forall in Hord. by apply Hord.
Qed.

(** ** Closing and opening again *)

Lemma next_keeps_lists v v' r : vl_next v = Ok (v', r) -> invertedListReadViewVector v' = invertedListReadViewVector v.
Proof.
  unfold getNext. set (w := if numberOfItemsInPartialHeap v =? 0 then _ else _). assert (invertedListReadViewVector w.1 = invertedListReadViewVector v) as Hw.
  { unfold w, _addItemsToPartialHeap. destruct (_ =? 0); [|done]. by destruct (add_loop _ _ _ _) as [[? ?] ?]. }
  destruct w as [w more]. cbn [fst] in Hw. rewrite <- Hw. destruct (_ || _); [by intros [= <- _]|].
  intros Hr. apply rbind_Ok in Hr as (h & _ & Hr). apply rbind_Ok in Hr as (c & _ & Hr). apply rbind_Ok in Hr as (rs & _ & Hr). apply rbind_Ok in Hr as (hit & _ & Hr).
  destruct hit as [[[[[? ?] ?] ?] ?]|]; by injection Hr as <- _.
Qed.

(** What the entry of the cache holds is the state: opening with it goes on where the
    reading stopped, as long as the lists are those of the index. *)
Lemma resumed_run v0 v : open index computeTermRecordRuntimeScore prefixMatchPenalty heap term None empty_list = Ok v0 ->
  invertedListReadViewVector v = invertedListReadViewVector v0 ->
  open index computeTermRecordRuntimeScore prefixMatchPenalty heap term (VirtualList.close true v).2 empty_list = Ok v.
Proof.
  intros Ho Hl. unfold open in *. cbn [VirtualList.close fst snd itemsHeap cursorVector invertedListReadViewVector empty_list] in *.
  apply rbind_Ok in Ho as (w & -> & [= <-]). cbn [rbind invertedListReadViewVector] in *. rewrite <- Hl. by destruct v.
Qed.
End Stream.
End VirtualListStream.
