(* ===== verification/MergeTopK.v ===== *)
(** * The ranked conjunction (core/operation/physical_plan/MergeTopKOperator.cpp)

    The threshold algorithm: the children deliver their records in the order of their
    scores; the operator reads them in turn, asks the other children about every record
    that it has not seen, and returns the best candidate as soon as no unseen record can
    be better, since its score is at most the sum of the next scores of the children. *)
From S2P Require Import Prelude ForwardList PlanOperators FloatOrder VirtualList.
From Stdlib Require Import ZArith Lia List Bool SpecFloat.
From stdpp Require Import base list.
Open Scope Z_scope.

Module MergeTopK.
Import PlanOperators FloatOrder.

Definition computeFeedbackBoostedScore (score boost : float) : float := fmul score boost.

Definition compareRecordsGreaterThan (leftRecordScore : float) (leftRecordId : Z) (rightRecordScore : float) (rightRecordId : Z) : bool :=
  if feq leftRecordScore rightRecordScore then leftRecordId <? rightRecordId else fgt leftRecordScore rightRecordScore.

(** The best record first. *)
Definition PhysicalPlanRecordItemComparator (lhs rhs : PhysicalPlanRecordItem) : bool :=
  compareRecordsGreaterThan (recordRuntimeScore lhs) (recordId lhs) (recordRuntimeScore rhs) (recordId rhs).

(** [std::sort], by insertion: no two candidates have the same id, so that there is one
    order that the comparator allows. *)
Fixpoint insert_sorted (x : PhysicalPlanRecordItem) (l : list PhysicalPlanRecordItem) : list PhysicalPlanRecordItem :=
  match l with
  | [] => [x]
  | y :: l' => if PhysicalPlanRecordItemComparator y x then y :: insert_sorted x l' else x :: l
  end.
Definition sort (l : list PhysicalPlanRecordItem) : list PhysicalPlanRecordItem := fold_right insert_sorted [] l.

(** The boosts of the feedback on a query: the largest, and that of a record. *)
Record FeedbackRanker := mk_ranker {
  getMaxBoostForThisQuery : float;
  getFeedbackBoostForRecord : Z -> float }.

(** The members of the operator besides its children. *)
Record MergeTopK := mk_topk {
  feedbackRanker : option FeedbackRanker;
  candidatesList : list PhysicalPlanRecordItem;
  fullCandidatesListForCache : list PhysicalPlanRecordItem;
  nextItemsFromChildren : list (option PhysicalPlanRecordItem);
  visitedRecords : list Z;
  listsHaveMoreRecordsInThem : bool;
  childRoundRobinOffset : Z }.

(** What [close] leaves in the cache, besides the entries of the children. *)
Record MergeTopKCacheEntry := mk_topk_entry {
  e_candidatesList : list PhysicalPlanRecordItem;
  e_nextItemsFromChildren : list (option PhysicalPlanRecordItem);
  e_visitedRecords : list Z;
  e_listsHaveMoreRecordsInThem : bool;
  e_childRoundRobinOffset : Z }.

(** The sum of the scores of the next records, or false when a child has none left: the
    score then is the sum so far. *)
Fixpoint maximum_loop (items : list (option PhysicalPlanRecordItem)) (score maxFeedbackBoostForQuery : float) : bool * float :=
  match items with
  | [] => (true, computeFeedbackBoostedScore score maxFeedbackBoostForQuery)
  | None :: _ => (false, score)
  | Some nextRecord :: items => maximum_loop items (fadd score (recordRuntimeScore nextRecord)) maxFeedbackBoostForQuery
  end.
Definition getMaximumScoreOfUnvisitedRecords (t : MergeTopK) (maxFeedbackBoostForQuery : float) : bool * float :=
  maximum_loop (nextItemsFromChildren t) f_zero maxFeedbackBoostForQuery.

Definition maxFeedbackBoost (t : MergeTopK) : float :=
  match feedbackRanker t with Some r => getMaxBoostForThisQuery r | None => f_one end.

Definition set_candidates (t : MergeTopK) (l : list PhysicalPlanRecordItem) : MergeTopK :=
  mk_topk (feedbackRanker t) l (fullCandidatesListForCache t) (nextItemsFromChildren t) (visitedRecords t) (listsHaveMoreRecordsInThem t) (childRoundRobinOffset t).
Definition set_more (t : MergeTopK) (b : bool) : MergeTopK :=
  mk_topk (feedbackRanker t) (candidatesList t) (fullCandidatesListForCache t) (nextItemsFromChildren t) (visitedRecords t) b (childRoundRobinOffset t).

Section Operator.
Context {C : Type} (next : C -> result (C * option PhysicalPlanRecordItem)).
Context (verify : Z -> C -> VerificationParameters -> result (bool * VerificationParameters)).
(** The members of a fresh parameter object are indeterminate. *)
Variable (indeterminate : VerificationParameters).
(** So is the static score of a fresh record object. *)
Variable (unset : Z).

(** The copies that the pool of records makes. *)
Definition clone (oldObj : PhysicalPlanRecordItem) : PhysicalPlanRecordItem :=
  mk_item (recordId oldObj) unset (recordRuntimeScore oldObj) (matchingPrefixes oldObj) (editDistances oldObj) (attributeIdsList oldObj)
    (positionIndexOffsets oldObj) (termTypes oldObj).

(** ** Opening *)

(** The first record of every child from an offset on. *)
Fixpoint initializeNextItemsFromChildren (children : list C) (fromIndex : nat) (t : MergeTopK) : result (list C * MergeTopK) :=
  match children with
  | [] => Ok ([], t)
  | c :: children' =>
      match fromIndex with
      | S fromIndex' => let? (children', t) := initializeNextItemsFromChildren children' fromIndex' t in Ok (c :: children', t)
      | O =>
          let? (c, recordItem) := next c in
          let t := mk_topk (feedbackRanker t) (candidatesList t) (fullCandidatesListForCache t) (nextItemsFromChildren t ++ [recordItem]) (visitedRecords t)
            (match recordItem with None => false | Some _ => listsHaveMoreRecordsInThem t end) (childRoundRobinOffset t) in
          let? (children', t) := initializeNextItemsFromChildren children' O t in
          Ok (c :: children', t)
      end
  end.

(** Without a hit in the cache; the children are open. *)
Definition open_fresh (ranker : option FeedbackRanker) (children : list C) (t : MergeTopK) : result (list C * MergeTopK) :=
  let t := mk_topk ranker (candidatesList t) (fullCandidatesListForCache t) (nextItemsFromChildren t) (visitedRecords t) (listsHaveMoreRecordsInThem t) (childRoundRobinOffset t) in
  let? (children, t) := initializeNextItemsFromChildren children 0 t in
  Ok (children, mk_topk (feedbackRanker t) [] [] (nextItemsFromChildren t) [] true 0).

(** A candidate of the cache with what the children from [fromIndex] on say of it, or
    nothing when one of them rejects it. *)
Fixpoint verify_new (children : list C) (fromIndex : nat) (record : PhysicalPlanRecordItem) (v : verified_vectors) : result (option verified_vectors) :=
  match children with
  | [] => Ok (Some v)
  | c :: children' =>
      match fromIndex with
      | S fromIndex' => verify_new children' fromIndex' record v
      | O =>
          let? (resultOfThisChild, p) := verify (recordId record) c (fresh_parameters indeterminate) in
          if resultOfThisChild : bool then
            verify_new children' O record
              (mk_vectors (v_scores v ++ [runTimeTermRecordScore p]) (v_prefixes v ++ p_prefixes p)
                (v_attributes v ++ p_attributeIdsList p) (v_distances v ++ p_distances p)
                (v_positions v ++ p_positions p) (v_termTypes v ++ p_termTypes p))
          else Ok None
      end
  end.

(** The record with what its verification gathered. *)
Definition candidate (t : MergeTopK) (record : PhysicalPlanRecordItem) (v : verified_vectors) : PhysicalPlanRecordItem :=
  let runtimeScore := computeAggregatedRuntimeScoreForAnd (v_scores v) in
  let runtimeScore := match feedbackRanker t with Some r => computeFeedbackBoostedScore runtimeScore (getFeedbackBoostForRecord r (recordId record)) | None => runtimeScore end in
  mk_item (recordId record) (recordStaticScore record) runtimeScore (v_prefixes v) (v_distances v) (v_attributes v) (v_positions v) (v_termTypes v).

(** The loop over the candidates of the cache, [cached] of whose children it knows. *)
Fixpoint cached_loop (children : list C) (cached : nat) (candidates : list PhysicalPlanRecordItem) (t : MergeTopK) : result MergeTopK :=
  match candidates with
  | [] => Ok t
  | record :: candidates =>
      let? r :=
        if (cached <? length children)%nat then
          let? o := verify_new children cached record (mk_vectors [recordRuntimeScore record] (matchingPrefixes record) (attributeIdsList record)
            (editDistances record) (positionIndexOffsets record) (termTypes record)) in
          Ok (option_map (candidate t (clone record)) o)
        else Ok (Some (clone record)) in
      cached_loop children cached candidates
        (match r with
         | Some record => mk_topk (feedbackRanker t) (candidatesList t ++ [record]) (fullCandidatesListForCache t ++ [record]) (nextItemsFromChildren t)
             (visitedRecords t) (listsHaveMoreRecordsInThem t) (childRoundRobinOffset t)
         | None => t
         end)
  end.

(** With a hit in the cache; the children are open, those that the entry knows with
    their entries. *)
Definition open_cached (ranker : option FeedbackRanker) (children : list C) (e : MergeTopKCacheEntry) (t : MergeTopK) : result (list C * MergeTopK) :=
  let t := mk_topk ranker (candidatesList t) (fullCandidatesListForCache t) (nextItemsFromChildren t) (visitedRecords t) (listsHaveMoreRecordsInThem t) (childRoundRobinOffset t) in
  let? t := cached_loop children (length (e_nextItemsFromChildren e)) (e_candidatesList e) t in
  let t := mk_topk (feedbackRanker t) (candidatesList t) (fullCandidatesListForCache t) (nextItemsFromChildren t ++ map (option_map clone) (e_nextItemsFromChildren e))
    (visitedRecords t) (listsHaveMoreRecordsInThem t) (childRoundRobinOffset t) in
  let? (children, t) :=
    if (length (nextItemsFromChildren t) <? length children)%nat then initializeNextItemsFromChildren children (length (nextItemsFromChildren t)) t else Ok (children, t) in
  Ok (children, mk_topk (feedbackRanker t) (candidatesList t) (fullCandidatesListForCache t) (nextItemsFromChildren t) (e_visitedRecords e)
    (e_listsHaveMoreRecordsInThem e) (e_childRoundRobinOffset e)).

(** ** Reading *)

(** Without children the division traps; the model then faults in the next call. *)
Definition getNextChildForSequentialAccess (numberOfChildren : Z) (t : MergeTopK) : Z * MergeTopK :=
  (childRoundRobinOffset t, mk_topk (feedbackRanker t) (candidatesList t) (fullCandidatesListForCache t) (nextItemsFromChildren t) (visitedRecords t)
    (listsHaveMoreRecordsInThem t) ((childRoundRobinOffset t + 1) mod numberOfChildren)).

Definition getNextRecordOfChild (childOffset : Z) (children : list C) (t : MergeTopK) : result (list C * MergeTopK * option PhysicalPlanRecordItem) :=
  if negb (childOffset <? Z.of_nat (length (nextItemsFromChildren t))) then Err AssertFailed
  else
    let? toReturn := vec_at (nextItemsFromChildren t) childOffset in
    let? (children, r) := next_of next children childOffset in
    let? items := vec_set (nextItemsFromChildren t) childOffset r in
    Ok (children, mk_topk (feedbackRanker t) (candidatesList t) (fullCandidatesListForCache t) items (visitedRecords t) (listsHaveMoreRecordsInThem t)
      (childRoundRobinOffset t), toReturn).

(** The same loop as that of the operator on the shortest list. *)
Definition verifyRecordWithChildren (children : list C) (recordItem : PhysicalPlanRecordItem) (childOffsetOfRecord : Z) : result (option verified_vectors) :=
  PlanOperators.verifyRecordWithChildren verify indeterminate children 0 childOffsetOfRecord recordItem (mk_vectors [] [] [] [] [] []).

Definition visit (t : MergeTopK) (record : Z) : MergeTopK :=
  mk_topk (feedbackRanker t) (candidatesList t) (fullCandidatesListForCache t) (nextItemsFromChildren t) (record :: visitedRecords t) (listsHaveMoreRecordsInThem t)
    (childRoundRobinOffset t).
Definition keep_for_cache (t : MergeTopK) (record : PhysicalPlanRecordItem) : MergeTopK :=
  mk_topk (feedbackRanker t) (candidatesList t) (fullCandidatesListForCache t ++ [record]) (nextItemsFromChildren t) (visitedRecords t) (listsHaveMoreRecordsInThem t)
    (childRoundRobinOffset t).

(** The better of the best record so far and a new candidate; the other one stays. *)
Definition place (top : option PhysicalPlanRecordItem) (record : PhysicalPlanRecordItem) (t : MergeTopK) : PhysicalPlanRecordItem * MergeTopK :=
  match top with
  | None => (record, t)
  | Some top =>
      if fgt (recordRuntimeScore record) (recordRuntimeScore top) then (record, set_candidates t (candidatesList t ++ [top]))
      else (top, set_candidates t (candidatesList t ++ [record]))
  end.

(** The second part of [getNext]: children in turn, until the best record so far is
    better than any record that was not visited, or a child has no more. *)
Fixpoint threshold_loop (fuel : nat) (children : list C) (top : option PhysicalPlanRecordItem) (t : MergeTopK) :
    result (list C * MergeTopK * option PhysicalPlanRecordItem) :=
  match fuel with
  | O => Err OutOfFuel
  | S fuel' =>
      let (child, t) := getNextChildForSequentialAccess (Z.of_nat (length children)) t in
      let? (children, t, r) := getNextRecordOfChild child children t in
      match r with
      | None => Ok (children, set_more t false, top)
      | Some nextRecord =>
          if visited (visitedRecords t) (recordId nextRecord) then threshold_loop fuel' children top t
          else
            let t := visit t (recordId nextRecord) in
            let? verified := verifyRecordWithChildren children nextRecord child in
            match verified with
            | None => threshold_loop fuel' children top t
            | Some v =>
                let nextRecord := candidate t nextRecord v in
                let (top, t) := place top nextRecord (keep_for_cache t nextRecord) in
                let (all, maxScore) := getMaximumScoreOfUnvisitedRecords t (maxFeedbackBoost t) in
                if all then
                  if fgt (recordRuntimeScore top) maxScore then Ok (children, t, Some top) else threshold_loop fuel' children (Some top) t
                else Ok (children, set_more t false, Some top)
            end
      end
  end.

Definition getNext (fuel : nat) (children : list C) (t : MergeTopK) : result (list C * MergeTopK * option PhysicalPlanRecordItem) :=
  match sort (candidatesList t) with
  | topRecordToReturn :: candidates =>
      let t := set_candidates t candidates in
      let (all, maxScore) := getMaximumScoreOfUnvisitedRecords t (maxFeedbackBoost t) in
      let t := if all then t else set_more t false in
      if fgt (recordRuntimeScore topRecordToReturn) maxScore then Ok (children, t, Some topRecordToReturn)
      else if listsHaveMoreRecordsInThem t then threshold_loop fuel children (Some topRecordToReturn) t
      else Ok (children, t, Some topRecordToReturn)
  | [] => if listsHaveMoreRecordsInThem t then threshold_loop fuel children None t else Ok (children, t, None)
  end.

(** ** Closing *)

(** The entry for the cache; it holds all candidates, also those that were returned.
    They are kept when the operator is opened again. *)
Definition close (t : MergeTopK) : MergeTopK * MergeTopKCacheEntry :=
  (mk_topk (feedbackRanker t) [] (fullCandidatesListForCache t) [] [] true 0,
   mk_topk_entry (map clone (fullCandidatesListForCache t)) (map (option_map clone) (nextItemsFromChildren t)) (visitedRecords t) (listsHaveMoreRecordsInThem t) (childRoundRobinOffset t)).

End Operator.
End MergeTopK.
