(* ===== verification/MergeTopKOrder.v ===== *)
(** * The order of the ranked conjunction (core/operation/physical_plan/MergeTopKOperator.cpp)

    Children whose verification accepts the records they deliver: the operator delivers
    each common record once, whatever the boosts of the feedback are.  When the children
    deliver their records in the order of their scores, their verification scores no
    record above the one they deliver and there is no feedback, no record comes after a
    worse one. *)
From S2P Require Import Prelude ForwardList PlanOperators PlanStreams PlanScores FloatOrder VirtualList VirtualListStream MergeTopK.
From Stdlib Require Import ZArith Lia List Bool Sorted SpecFloat.
From stdpp Require Import base list sets.
Open Scope Z_scope.

Module MergeTopKOrder.
Import PlanOperators PlanStreams PlanScores FloatOrder VirtualListStream MergeTopK.

(** ** Sorting the candidates *)

Definition scored (x : item) : Prop := score (recordRuntimeScore x).
Definition s_val (x : item) : Z := val (recordRuntimeScore x).

Lemma comparator_spec a b : scored a -> scored b -> PhysicalPlanRecordItemComparator a b = true <->
  s_val b < s_val a \/ s_val a = s_val b /\ recordId a < recordId b.
Proof.
  intros Ha Hb. unfold PhysicalPlanRecordItemComparator, compareRecordsGreaterThan. pose proof (feq_val _ _ Ha Hb) as He. pose proof (fgt_val _ _ Ha Hb) as Hg. unfold s_val.
  destruct (feq _ _).
  - destruct He as [He _]. specialize (He eq_refl). rewrite Z.ltb_lt. lia.
  - assert (val (recordRuntimeScore a) <> val (recordRuntimeScore b)) by (intros E; apply He in E; done). rewrite Hg. lia.
Qed.

Lemma insert_sorted_perm x l : Permutation (insert_sorted x l) (x :: l).
Proof. induction l as [|y l IH]; cbn [insert_sorted]; [done|]. destruct (PhysicalPlanRecordItemComparator y x); [|done]. rewrite IH. apply perm_swap. Qed.

Lemma candidates_perm l : Permutation (sort l) l.
Proof. induction l as [|x l IH]; cbn [sort fold_right]; [done|]. by rewrite insert_sorted_perm, IH. Qed.

Lemma insert_by_score x l : scored x -> Forall scored l -> by_score l -> by_score (insert_sorted x l).
Proof.
  intros Hx. induction l as [|y l IH]; intros Hl Hs; cbn [insert_sorted]; [by repeat constructor|]. apply Forall_cons in Hl as [Hy Hl].
  pose proof (comparator_spec y x Hy Hx) as Hc. apply StronglySorted_inv in Hs as [Hs Hyl]. destruct (PhysicalPlanRecordItemComparator y x).
  - constructor; [by apply IH|]. rewrite (insert_sorted_perm x l). constructor; [|done]. unfold no_better, s_val in *. destruct Hc as [Hc _]. specialize (Hc eq_refl). lia.
  - assert (s_val y <= s_val x) as Hle by (destruct (Z.le_gt_cases (s_val y) (s_val x)); [done|]; assert (false = true) by (apply Hc; lia); done).
    constructor; [by constructor|]. constructor; [done|]. eapply Forall_impl; [exact Hyl|]. unfold no_better, s_val in *. intros z Hz. lia.
Qed.

Lemma sort_by_score l : Forall scored l -> by_score (sort l).
Proof.
  induction l as [|x l IH]; intros Hl; cbn [sort fold_right]; [constructor|]. apply Forall_cons in Hl as [Hx Hl]. apply insert_by_score; [done| |by apply IH].
  change (Forall scored (sort l)). by rewrite candidates_perm.
Qed.

(** ** The next scores *)

Definition exhausted (ls : list (list item)) : Prop := Exists (fun l => l = []) ls.
Definition head_scores (ls : list (list item)) : list float := flat_map (fun l => match l with [] => [] | x :: _ => [recordRuntimeScore x] end) ls.
Definition bound_of (ls : list (list item)) : Z := val (computeAggregatedRuntimeScoreForAnd (head_scores ls)).

(** Two records with the same id and the same score. *)
Definition same (x y : item) : Prop := recordId x = recordId y /\ recordRuntimeScore x = recordRuntimeScore y.
(** The record read ahead of a stream. *)
Definition head_same (o : option item) (l : list item) : Prop :=
  match o, l with None, [] => True | Some x, y :: _ => same x y | _, _ => False end.

Lemma maximum_loop_run os ls : Forall2 head_same os ls -> Forall (Forall scored) ls -> forall boost a, score a ->
  (exhausted ls /\ (maximum_loop os a boost).1 = false) \/
  (~ exhausted ls /\ maximum_loop os a boost = (true, computeFeedbackBoostedScore (fold_left fadd (head_scores ls) a) boost) /\ score (fold_left fadd (head_scores ls) a)).
Proof.
  induction 1 as [|o l os ls Ho _ IH]; intros Hls boost a Ha; cbn [maximum_loop head_scores flat_map].
  - right. split; [by intros H%Exists_nil|done].
  - apply Forall_cons in Hls as [Hl Hls]. destruct o as [x0|], l as [|x l]; cbn [head_same] in Ho; try done.
    2: { left. split; [by apply Exists_cons_hd|done]. }
    destruct Ho as [_ ->].
    + apply Forall_cons in Hl as [Hx _]. destruct (IH Hls boost (fadd a (recordRuntimeScore x))) as [[He Hm]|(He & -> & Hm)]; [by apply fadd_val|left|right].
      * split; [by apply Exists_cons_tl|done].
      * split; [|by split]. intros [H|H]%Exists_cons; done.
Qed.

Section TopK.
Context {C K : Type} (next : C -> result (C * option item)) (finished : C -> Prop) (Hfin : stays_finished next finished).
Context (k : C -> K) (Hkeep : forall c c' r, next c = Ok (c', r) -> k c' = k c).
Context (verify : Z -> C -> VerificationParameters -> result (bool * VerificationParameters)) (indeterminate : VerificationParameters) (unset : Z).
Context (known : Z -> Prop) (good : K -> Prop) (acc : K -> Z -> option float).
Definition accepted {A} (o : option A) : bool := match o with Some _ => true | None => false end.
Context (Hverify : forall c r p, good (k c) -> known r -> exists p', verify r c p = Ok (accepted (acc (k c) r), p') /\ forall s, acc (k c) r = Some s -> runTimeTermRecordScore p' = s).
(** The feedback: a boosted score is a score.  What is said of the order of the records
    assumes that there is none. *)
Context (ordered : Prop) (ranker : option FeedbackRanker) (Hplain : ordered -> ranker = None).
Definition boosted (r : Z) (s : float) : float :=
  match ranker with Some rk => computeFeedbackBoostedScore s (getFeedbackBoostForRecord rk r) | None => s end.
Context (Hboost : forall r s, score s -> score (boosted r s)).

Lemma boosted_plain r s : ordered -> boosted r s = s.
Proof using Hplain. intros Ho. unfold boosted. by rewrite (Hplain Ho). Qed.

Local Abbreviation streams := (streams next finished).

(** The record read ahead of a child, which may be a copy, and what the child still
    delivers. *)
Definition waits (c : C) (o : option item) (l : list item) : Prop :=
  match o with None => l = [] /\ finished c | Some x => exists y l', l = y :: l' /\ same x y /\ streams c l' end.

Lemma waits_head c o l : waits c o l -> head_same o l.
Proof. destruct o as [x|]; [by intros (y & l' & -> & Hs & _)|by intros [-> _]]. Qed.

Lemma waits_next c o l : waits c o l -> exists c' o', next c = Ok (c', o') /\ waits c' o' (tail l).
Proof using Hfin.
  destruct o as [x|]; [intros (y & l' & -> & _ & Hs)|intros [-> Hf]]; cbn [tail].
  - destruct l' as [|z l']; [destruct (Hfin c Hs) as (c' & Hn & Hf); by exists c', None|]. destruct Hs as (c' & Hn & Hs). exists c', (Some z). split; [done|by exists z, l'].
  - destruct (Hfin c Hf) as (c' & Hn & Hf'). by exists c', None.
Qed.

Lemma streams_first c l : streams c l -> exists c' o, next c = Ok (c', o) /\ waits c' o l.
Proof using Hfin. destruct l as [|x l]; [intros Hf; destruct (Hfin c Hf) as (c' & Hn & Hf'); by exists c', None|intros (c' & Hn & Hs); exists c', (Some x); split; [done|by exists x, l]]. Qed.

Lemma heads cs os ls : Forall3 waits cs os ls -> Forall2 head_same os ls.
Proof. induction 1 as [|c o l cs os ls Hw _ IH]; constructor; [by apply (waits_head c)|done]. Qed.

(** ** The scores of a record *)

(** The scores that the children give a record that the child [i] delivers. *)
Fixpoint collect (keys : list K) (offset i : Z) (x : item) : option (list float) :=
  match keys with
  | [] => Some []
  | key :: keys' =>
      match (if offset =? i then Some (recordRuntimeScore x) else acc key (recordId x)) with
      | Some s => option_map (cons s) (collect keys' (offset + 1) i x)
      | None => None
      end
  end.

Lemma collected_run i x : known (recordId x) -> forall cs, Forall good (map k cs) -> forall offset v,
  exists o, PlanOperators.verifyRecordWithChildren verify indeterminate cs offset i x v = Ok o /\
    option_map v_scores o = option_map (app (v_scores v)) (collect (map k cs) offset i x).
Proof using Hverify.
  intros Hk. induction cs as [|c cs IH]; intros Hg offset v; cbn [PlanOperators.verifyRecordWithChildren collect map]; [exists (Some v); cbn; by rewrite app_nil_r|].
  cbn [map] in Hg. apply Forall_cons in Hg as [Hgc Hg]. specialize (IH Hg).
  assert (forall v' s, v_scores v' = v_scores v ++ [s] -> exists o, PlanOperators.verifyRecordWithChildren verify indeterminate cs (offset + 1) i x v' = Ok o /\
    option_map v_scores o = option_map (app (v_scores v)) (option_map (cons s) (collect (map k cs) (offset + 1) i x))) as Hrec.
  { intros v' s E. destruct (IH (offset + 1) v') as (o & -> & Ho). exists o. split; [done|]. rewrite Ho, E. destruct (collect _ _ _ _); cbn [option_map]; [|done]. by rewrite <- app_assoc. }
  destruct (offset =? i); [by apply Hrec|]. destruct (Hverify c (recordId x) (fresh_parameters indeterminate) Hgc Hk) as (p' & -> & Hp). cbn [rbind].
  destruct (acc (k c) (recordId x)) as [s|]; cbn [accepted]; [|by exists None]. apply Hrec. cbn [v_scores]. by rewrite (Hp s).
Qed.

(** Every score is at most the one in the same place of [bs]. *)
Lemma collect_bound i x keys : forall offset bs scores, length bs = length keys -> collect keys offset i x = Some scores ->
  (forall (j : nat) b, bs !! j = Some b -> offset + Z.of_nat j = i -> score (recordRuntimeScore x) /\ score b /\ s_val x <= val b) ->
  (forall (j : nat) key s b, keys !! j = Some key -> bs !! j = Some b -> offset + Z.of_nat j <> i -> acc key (recordId x) = Some s -> score s /\ score b /\ val s <= val b) ->
  Forall2 (fun s b => score s /\ score b /\ val s <= val b) scores bs.
Proof.
  induction keys as [|key keys IH]; intros offset [|b bs] scores Hlen Hc Hi Ho; try done; cbn [collect] in Hc; [by injection Hc as <-|].
  destruct (if offset =? i then _ else _) as [s|] eqn:Es; [|done]. destruct (collect keys (offset + 1) i x) as [scores'|] eqn:Ec; [|done]. injection Hc as <-. constructor.
  - destruct (Z.eqb_spec offset i) as [E|E].
    + injection Es as <-. apply (Hi 0%nat b); [done|lia].
    + apply (Ho 0%nat key s b); [done|done|lia|done].
  - apply (IH (offset + 1)); [by injection Hlen|done| |].
    + intros j b' Hb Hj. apply (Hi (S j) b'); [done|lia].
    + intros j key' s' b' Hk Hb Hj. apply (Ho (S j) key' s' b'); [done|done|lia].
Qed.

Lemma collect_same i x y keys : same x y -> forall offset, collect keys offset i x = collect keys offset i y.
Proof. intros [Hid Hs]. induction keys as [|key keys IH]; intros offset; cbn [collect]; [done|]. by rewrite IH, Hid, Hs. Qed.

Lemma collect_some i x keys : forall offset, (forall (j : nat) key, keys !! j = Some key -> offset + Z.of_nat j <> i -> acc key (recordId x) <> None) <->
  is_Some (collect keys offset i x).
Proof.
  induction keys as [|key keys IH]; intros offset; cbn [collect]; [split; [by exists []|done]|]. specialize (IH (offset + 1)). split.
  - intros Hall. assert (is_Some (collect keys (offset + 1) i x)) as [l ->].
    { apply IH. intros j key' Hj Hne. apply (Hall (S j)); [done|lia]. }
    destruct (Z.eqb_spec offset i); [by eexists|]. destruct (acc key (recordId x)) eqn:E; [by eexists|]. exfalso. apply (Hall 0%nat key); [done|lia|done].
  - intros Hs [|j] key' Hj Hne.
    + injection Hj as <-. rewrite (proj2 (Z.eqb_neq offset i)) in Hs by lia. destruct (acc key (recordId x)); [done|by destruct Hs].
    + apply (proj2 IH) with (j := j); [|done|lia]. destruct (if offset =? i then _ else _); [|by destruct Hs]. destruct (collect _ _ _ _); [by eexists|by destruct Hs].
Qed.

(** ** The children *)

(** A child that delivers [all] and whose verification accepts the same records; an
    ordered one delivers them in order, and its scores are not above those it delivers. *)
Record ranks (key : K) (all : list item) : Prop := {
  rk_scored : Forall scored all;
  rk_known : Forall (fun x => known (recordId x)) all;
  rk_order : ordered -> by_score all;
  rk_accepts r : known r -> accepted (acc key r) = true <-> r ∈ ids all;
  rk_bound r s : known r -> acc key r = Some s -> score s /\ (ordered -> exists x, x ∈ all /\ recordId x = r /\ val s <= s_val x) }.

Section Children.
Context (ks : list K) (alls : list (list item)) (Hranks : Forall2 ranks ks alls) (Hgood : Forall good ks) (Hsome : ks <> []).

(** A result as a child delivered it first; an ordered one with the sum of the scores. *)
Definition result_of (x : item) : Prop := scored x /\
  exists (i : nat) all y scores, alls !! i = Some all /\ first_with (recordId x) all = Some y /\ collect ks 0 (Z.of_nat i) y = Some scores /\
    (ordered -> recordRuntimeScore x = computeAggregatedRuntimeScoreForAnd scores).

Definition unread (t : MergeTopK) (all l : list item) : Prop := exists d, all = d ++ l /\ forall y, y ∈ d -> recordId y ∈ visitedRecords t.

(** The state while the operator reads: [pool] are the candidates, [done] the records
    that it has returned. *)
Record topk_ok (cs : list C) (t : MergeTopK) (ls : list (list item)) (pool done : list item) : Prop := {
  tk_ranker : feedbackRanker t = ranker;
  tk_keys : map k cs = ks;
  tk_waits : Forall3 waits cs (nextItemsFromChildren t) ls;
  tk_unread : Forall2 (unread t) alls ls;
  tk_visited r : r ∈ visitedRecords t -> common alls r -> r ∈ ids (pool ++ done);
  tk_results : Forall (fun x => result_of x /\ recordId x ∈ visitedRecords t) (pool ++ done);
  tk_distinct : NoDup (ids (pool ++ done));
  tk_more : listsHaveMoreRecordsInThem t = false -> exhausted ls;
  tk_robin : 0 <= childRoundRobinOffset t < Z.of_nat (length cs);
  tk_cache : Permutation (fullCandidatesListForCache t) (pool ++ done) }.

Lemma ranked_at (i : nat) all : alls !! i = Some all -> exists key, ks !! i = Some key /\ ranks key all.
Proof using Hranks. intros H. destruct (Forall2_lookup_r _ _ _ _ _ Hranks H) as (key & Hk & Hr). by exists key. Qed.

Lemma first_known (i : nat) all y r : alls !! i = Some all -> first_with r all = Some y -> known r /\ recordId y = r /\ scored y.
Proof using Hranks.
  intros Ha [Hy Hr]%first_with_Some. destruct (ranked_at i all Ha) as (key & _ & [Hs Hk _ _ _]). rewrite Forall_forall in Hs, Hk.
  split; [rewrite <- Hr; by apply Hk|]. split; [done|by apply Hs].
Qed.

(** The records that some child delivers and the others accept are the common ones. *)
Lemma collect_common (i : nat) all x : alls !! i = Some all -> x ∈ all ->
  is_Some (collect ks 0 (Z.of_nat i) x) <-> common alls (recordId x).
Proof using Hranks.
  intros Hi Hx. destruct (ranked_at i all Hi) as (_ & _ & [_ Hkn _ _ _]). rewrite Forall_forall in Hkn. specialize (Hkn x Hx). rewrite <- collect_some.
  unfold common. rewrite Forall_lookup. split.
  - intros Hall j l Hj. destruct (Nat.eq_dec j i) as [->|Hne]; [rewrite Hi in Hj; injection Hj as <-; by apply elem_ids_intro|].
    destruct (ranked_at j l Hj) as (key & Hk & Hr). apply (rk_accepts _ _ Hr _ Hkn). specialize (Hall j key Hk ltac:(lia)). by destruct (acc key (recordId x)).
  - intros Hall j key Hj _. destruct (Forall2_lookup_l _ _ _ _ _ Hranks Hj) as (l & Hl & Hr). specialize (Hall j l Hl). apply (rk_accepts _ _ Hr _ Hkn) in Hall.
    by destruct (acc key (recordId x)).
Qed.

Lemma scores_of (i : nat) all y scores : alls !! i = Some all -> y ∈ all -> collect ks 0 (Z.of_nat i) y = Some scores -> Forall score scores.
Proof using Hranks.
  intros Hi Hy Hc. assert (Forall2 (fun s b => score s /\ score b /\ val s <= val b) scores (map (fun _ => S754_infinity false) ks)) as Hall.
  { apply (collect_bound _ _ _ _ _ _ ltac:(by rewrite length_map) Hc).
    - intros j b Hb _. rewrite list_lookup_fmap_map in Hb. destruct (ks !! j); [|done]. injection Hb as <-.
      destruct (ranked_at i all Hi) as (key & _ & [Hs _ _ _ _]). rewrite Forall_forall in Hs. specialize (Hs y Hy). split; [done|]. split; [done|]. by apply val_bounds.
    - intros j key s b Hk Hb _ Ha. rewrite list_lookup_fmap_map, Hk in Hb. injection Hb as <-. destruct (Forall2_lookup_l _ _ _ _ _ Hranks Hk) as (l & Hl & Hr).
      destruct (ranked_at i all Hi) as (_ & _ & [_ Hkn _ _ _]). rewrite Forall_forall in Hkn. destruct (rk_bound _ _ Hr _ s (Hkn y Hy) Ha) as [Hs _]. split; [done|]. split; [done|]. by apply val_bounds. }
  clear -Hall. induction Hall as [|s b scores bs [Hs _] _ IH]; by constructor.
Qed.

Lemma result_scored x : result_of x -> scored x /\ common alls (recordId x).
Proof using Hranks.
  intros (Hs & i & all & y & scores & Ha & Hf & Hc & _). pose proof (first_with_Some _ _ _ Hf) as [Hy Hr]. split; [exact Hs|].
  rewrite <- Hr. apply (collect_common i all y Ha Hy). by eexists.
Qed.

(** While a common record is not visited no list is exhausted; when the lists are
    ordered the record is not better than the sum of the next scores. *)
Lemma unvisited_bound cs t ls pool done (i : nat) x l scores : topk_ok cs t ls pool done -> ls !! i = Some (x :: l) -> recordId x ∉ visitedRecords t ->
  collect ks 0 (Z.of_nat i) x = Some scores -> ~ exhausted ls /\ (ordered -> val (computeAggregatedRuntimeScoreForAnd scores) <= bound_of ls).
Proof using Hranks.
  clear Hverify Hgood Hfin Hkeep Hsome Hplain Hboost verify unset indeterminate good. intros Hok Hi Hv Hc. destruct (Forall2_lookup_r _ _ _ _ _ (tk_unread _ _ _ _ _ Hok) Hi) as (all & Ha & d & Hd & _).
  assert (x ∈ all) as Hx by (rewrite Hd; set_solver).
  assert (Hcom : common alls (recordId x)) by (apply (collect_common i all x Ha Hx); by eexists).
  destruct (ranked_at i all Ha) as (keyi & _ & Hri). assert (known (recordId x)) as Hkn by (pose proof (rk_known _ _ Hri) as Hk; rewrite Forall_forall in Hk; by apply Hk).
  assert (forall (j : nat) lj, ls !! j = Some lj -> exists h lj' key all, lj = h :: lj' /\ ks !! j = Some key /\ ranks key all /\ scored h /\
    (ordered -> forall z, z ∈ all -> recordId z = recordId x -> s_val z <= s_val h)) as Hheads.
  { intros j lj Hj. destruct (Forall2_lookup_r _ _ _ _ _ (tk_unread _ _ _ _ _ Hok) Hj) as (allj & Haj & dj & Hdj & Hvj). destruct (ranked_at j allj Haj) as (key & Hkey & Hr).
    unfold common in Hcom. rewrite Forall_lookup in Hcom. specialize (Hcom j allj Haj). apply elem_ids in Hcom as (z0 & Hz0 & Hz0r).
    assert (forall z, z ∈ allj -> recordId z = recordId x -> z ∈ lj) as Hin.
    { intros z Hz Hzr. rewrite Hdj in Hz. apply elem_of_app in Hz as [Hz|Hz]; [|done]. exfalso. apply Hv. rewrite <- Hzr. by apply Hvj. }
    destruct lj as [|h lj']; [exfalso; specialize (Hin z0 Hz0 Hz0r); by apply elem_of_nil in Hin|]. exists h, lj', key, allj. split; [done|]. split; [done|]. split; [done|].
    pose proof (rk_scored _ _ Hr) as Hs. rewrite Forall_forall in Hs. split; [apply Hs; rewrite Hdj; set_solver|]. intros Hord z Hz Hzr.
    pose proof (rk_order _ _ Hr Hord) as Ho. rewrite Hdj in Ho. assert (by_score (h :: lj')) as Ho' by (clear -Ho; induction dj as [|y dj IH]; [done|apply IH; by apply StronglySorted_inv in Ho as [Ho _]]).
    apply StronglySorted_inv in Ho' as [_ Ho']. rewrite List.Forall_forall in Ho'. specialize (Hin z Hz Hzr). apply elem_of_cons in Hin as [->|Hin]; [lia|].
    apply Ho'. by apply list_elem_of_In. }
  assert (length (head_scores ls) = length ks /\ forall (j : nat) h l', ls !! j = Some (h :: l') -> head_scores ls !! j = Some (recordRuntimeScore h)) as [Hlen Hat].
  { assert (length ls = length ks) as <- by (rewrite <- (Forall2_length _ _ _ (tk_unread _ _ _ _ _ Hok)); symmetry; by apply Forall2_length in Hranks).
    assert (Forall (fun l => l <> []) ls) as Hne by (apply Forall_lookup; intros j lj Hj; by destruct (Hheads j lj Hj) as (? & ? & ? & ? & -> & _)). clear -Hne.
    induction Hne as [|[|h l] ls Hl _ [IH1 IH2]]; [done|done|]. cbn [head_scores flat_map app length]. split; [by rewrite <- IH1|].
    intros [|j] h' l' Hj; [by injection Hj as <- _|]. cbn. apply (IH2 j h' l' Hj). }
  split.
  - intros He. apply Exists_exists in He as (lj & Hin & ->). apply list_elem_of_lookup in Hin as (j & Hj). by destruct (Hheads j [] Hj) as (? & ? & ? & ? & ? & _).
  - intros Hord. unfold bound_of. apply and_score_mono. apply (collect_bound _ _ _ _ _ _ Hlen Hc).
    + intros j b Hb E. assert (j = i) as -> by lia. destruct (Hheads i _ Hi) as (h & l' & key & allj & [= <- <-] & _ & _ & Hs & _). rewrite (Hat i x l Hi) in Hb.
      injection Hb as <-. split; [done|]. split; [done|]. unfold s_val. lia.
    + intros j key s b Hkey Hb _ Hacc. assert (is_Some (ls !! j)) as [lj Hj].
      { apply lookup_lt_is_Some. rewrite <- (Forall2_length _ _ _ (tk_unread _ _ _ _ _ Hok)). rewrite <- (Forall2_length _ _ _ Hranks). by apply lookup_lt_Some in Hkey. }
      destruct (Hheads j lj Hj) as (h & l' & key' & allj & -> & Hk' & Hr & Hs & Hle). rewrite Hk' in Hkey. injection Hkey as ->. rewrite (Hat j h l' Hj) in Hb. injection Hb as <-.
      destruct (rk_bound _ _ Hr _ s Hkn Hacc) as (Hss & Hzs). destruct (Hzs Hord) as (z & Hz & Hzr & Hzv). split; [done|]. split; [done|]. specialize (Hle Hord z Hz Hzr). unfold s_val in *. lia.
Qed.

(** ** Reading a child *)

Lemma waits_insert cs os ls (i : nat) c o l : Forall3 waits cs os ls -> waits c o l -> Forall3 waits (<[i := c]> cs) (<[i := o]> os) (<[i := l]> ls).
Proof.
  intros H Hw. revert i. induction H as [|c0 o0 l0 cs os ls H0 H IH]; intros [|i]; cbn [insert list_insert]; try constructor; done.
Qed.

Lemma keys_insert cs (i : nat) c c' : cs !! i = Some c -> k c' = k c -> map k (<[i := c']> cs) = map k cs.
Proof.
  intros Hi Hk. apply list_eq. intros j. rewrite !list_lookup_fmap_map. destruct (Nat.eq_dec j i) as [->|Hne]; [|by rewrite list_lookup_insert_ne].
  rewrite list_lookup_insert_eq by (by apply lookup_lt_Some in Hi). rewrite Hi. cbn [option_map fmap option_fmap]. by rewrite Hk.
Qed.

Definition with_items (t : MergeTopK) (items : list (option item)) : MergeTopK :=
  mk_topk (feedbackRanker t) (candidatesList t) (fullCandidatesListForCache t) items (visitedRecords t) (listsHaveMoreRecordsInThem t) (childRoundRobinOffset t).

(** The record read ahead is returned and the next one read. *)
Lemma read_child cs t ls (i : nat) l : map k cs = ks -> Forall3 waits cs (nextItemsFromChildren t) ls -> ls !! i = Some l ->
  exists cs' items o, getNextRecordOfChild next (Z.of_nat i) cs t = Ok (cs', with_items t items, o) /\ head_same o l /\ map k cs' = ks /\ length cs' = length cs /\
    Forall3 waits cs' items (<[i := tail l]> ls).
Proof using Hfin Hkeep.
  intros Hks Hw Hi. destruct (Forall3_lookup_r _ _ _ _ _ _ Hw Hi) as (c & o & Hc & Ho & Hwi). pose proof (waits_head _ _ _ Hwi) as Hhead.
  destruct (waits_next c o l Hwi) as (c' & o' & Hn & Hw'). unfold getNextRecordOfChild, next_of.
  pose proof (lookup_lt_Some _ _ _ Hc). pose proof (lookup_lt_Some _ _ _ Ho).
  rewrite (proj2 (Z.ltb_lt _ _)) by lia. cbn [negb]. rewrite (proj2 (vec_at_nth (nextItemsFromChildren t) (Z.of_nat i) _)) by (rewrite Nat2Z.id; split; [lia|exact Ho]). cbn [rbind].
  rewrite (proj2 (vec_at_nth cs (Z.of_nat i) _)) by (rewrite Nat2Z.id; split; [lia|exact Hc]). cbn [rbind]. rewrite Hn. cbn [rbind].
  assert (vec_set cs (Z.of_nat i) c' = Ok (<[i := c']> cs)) as -> by (apply vec_set_Ok; rewrite Nat2Z.id; split; [lia|done]). cbn [rbind].
  assert (vec_set (nextItemsFromChildren t) (Z.of_nat i) o' = Ok (<[i := o']> (nextItemsFromChildren t))) as -> by (apply vec_set_Ok; rewrite Nat2Z.id; split; [lia|done]). cbn [rbind].
  eexists _, _, o. split; [reflexivity|]. split; [done|]. split; [by rewrite (keys_insert cs i c c' Hc (Hkeep _ _ _ Hn))|]. split; [by rewrite length_insert|]. by apply waits_insert.
Qed.

Lemma exhausted_insert ls (i : nat) x l l' : ls !! i = Some (x :: l) -> exhausted ls -> exhausted (<[i := l']> ls).
Proof.
  intros Hi He. apply Exists_exists in He as (e & He & ->). apply list_elem_of_lookup in He as (j & Hj). assert (j <> i) by (intros ->; congruence).
  apply Exists_exists. exists []. split; [|done]. apply list_elem_of_lookup. exists j. by rewrite list_lookup_insert_ne.
Qed.

Lemma unread_scored cs t ls pool done : topk_ok cs t ls pool done -> Forall (Forall scored) ls /\ (ordered -> Forall by_score ls) /\ Forall (Forall (fun x => known (recordId x))) ls.
Proof using Hranks.
  intros Hok. rewrite !Forall_lookup. split; [|split; [intros Hord|]]; intros j l Hj; destruct (Forall2_lookup_r _ _ _ _ _ (tk_unread _ _ _ _ _ Hok) Hj) as (all & Ha & d & Hd & _);
    destruct (ranked_at j all Ha) as (key & _ & [Hs Hk Ho _ _]).
  - rewrite Hd in Hs. by apply Forall_app in Hs as [_ Hs].
  - specialize (Ho Hord). rewrite Hd in Ho. clear -Ho. induction d as [|y d IH]; [done|]. apply IH. by apply StronglySorted_inv in Ho as [Ho _].
  - rewrite Hd in Hk. by apply Forall_app in Hk as [_ Hk].
Qed.

(** The sum of the next scores does not grow. *)
Lemma bound_falls cs t ls pool done (i : nat) x l : ordered -> topk_ok cs t ls pool done -> ls !! i = Some (x :: l) ->
  exhausted (<[i := l]> ls) \/ bound_of (<[i := l]> ls) <= bound_of ls.
Proof using Hranks.
  intros Hord Hok Hi. destruct (unread_scored _ _ _ _ _ Hok) as (Hs & Ho & _). specialize (Ho Hord). destruct l as [|y l].
  { left. apply Exists_exists. exists []. split; [|done]. apply list_elem_of_lookup. exists i. apply list_lookup_insert_eq. by apply lookup_lt_Some in Hi. }
  right. unfold bound_of. apply and_score_mono. clear Hok. revert i Hi. induction Hs as [|l0 ls Hl Hls IH]; intros [|i] Hi; try done; apply Forall_cons in Ho as [Ho1 Ho2].
  - injection Hi as ->. cbn [insert list_insert head_scores flat_map app]. apply Forall_cons in Hl as [Hx Hl]. apply Forall_cons in Hl as [Hy _]. constructor.
    + split; [done|]. split; [done|]. apply StronglySorted_inv in Ho1 as [_ Ho1]. by apply Forall_cons in Ho1 as [Ho1 _].
    + clear -Hls. change (Forall2 (fun s b => score s /\ score b /\ val s <= val b) (head_scores ls) (head_scores ls)). induction Hls as [|[|z l0] ls Hl _ IH]; cbn; [done|done|].
      apply Forall_cons in Hl as [Hz _]. constructor; [|exact IH]. split; [done|]. split; [done|]. lia.
  - cbn [insert list_insert head_scores flat_map]. apply Forall2_app; [|by apply IH]. destruct l0 as [|z l0]; [done|]. apply Forall_cons in Hl as [Hz _]. constructor; [|done].
    split; [done|]. split; [done|]. lia.
Qed.

(** ** One record *)

(** The state after a record [x] of the child [i] was read: it was visited before or is
    not common, or it is a new candidate. *)
Lemma advance cs t ls pool done (i : nat) x l cs' t' pool' : topk_ok cs t ls pool done -> ls !! i = Some (x :: l) ->
  feedbackRanker t' = ranker -> map k cs' = ks -> Forall3 waits cs' (nextItemsFromChildren t') (<[i := l]> ls) ->
  (forall r, r ∈ visitedRecords t' <-> r = recordId x \/ r ∈ visitedRecords t) -> listsHaveMoreRecordsInThem t' = listsHaveMoreRecordsInThem t ->
  0 <= childRoundRobinOffset t' < Z.of_nat (length cs') ->
  (Permutation pool' pool /\ fullCandidatesListForCache t' = fullCandidatesListForCache t /\ (recordId x ∈ visitedRecords t \/ ~ common alls (recordId x)) \/
   exists y, Permutation pool' (y :: pool) /\ fullCandidatesListForCache t' = fullCandidatesListForCache t ++ [y] /\ result_of y /\ recordId y = recordId x /\
     recordId x ∉ visitedRecords t) ->
  topk_ok cs' t' (<[i := l]> ls) pool' done.
Proof.
  intros [Hr Hk Hw Hu Hv Hres Hd Hm Hrr Hca] Hi Hr' Hk' Hw' Hv' Hm' Hrr' Hpool.
  assert (forall r, r ∈ ids (pool' ++ done) <-> (r = recordId x /\ ~ (recordId x ∈ visitedRecords t \/ ~ common alls (recordId x)) /\ r ∉ ids (pool ++ done)) \/ r ∈ ids (pool ++ done)) as Hids.
  { destruct Hpool as [(Hp & _ & Hx)|(y & Hp & _ & Hy & Hyx & Hx)]; intros r; unfold ids; rewrite Hp; [tauto|]. cbn [app map]. rewrite elem_of_cons, Hyx.
    destruct (result_scored y Hy) as [_ Hc]. rewrite Hyx in Hc. split; [|tauto]. intros [->|Hin]; [|by right]. destruct (decide (recordId x ∈ map recordId (pool ++ done))); [by right|left].
    split; [done|]. split; [|done]. intros [?|?]; done. }
  constructor; try done.
  - apply Forall2_lookup. intros j. destruct (Nat.eq_dec j i) as [->|Hne].
    + rewrite list_lookup_insert_eq by (by apply lookup_lt_Some in Hi). destruct (Forall2_lookup_r _ _ _ _ _ Hu Hi) as (all & -> & d & -> & Hdv). constructor.
      exists (d ++ [x]). split; [by rewrite <- app_assoc|]. intros y [Hy|Hy%list_elem_of_singleton]%elem_of_app; apply Hv'; [right; by apply Hdv|left; by subst].
    + rewrite list_lookup_insert_ne by done. pose proof (proj1 (Forall2_lookup _ _ _) Hu j) as Hj. inversion Hj as [all l' (d & -> & Hdv)|]; constructor.
      exists d. split; [done|]. intros y Hy. apply Hv'. right. by apply Hdv.
  - intros r [->|Hrv]%Hv' Hc; apply Hids; [|right; by apply Hv]. destruct (decide (recordId x ∈ visitedRecords t)) as [Hxv|Hxv]; [right; by apply Hv|].
    destruct (decide (recordId x ∈ ids (pool ++ done))); [by right|left]. split; [done|]. split; [|done]. intros [?|?]; done.
  - assert (Forall (fun x0 => result_of x0 /\ recordId x0 ∈ visitedRecords t') (pool ++ done)) as Hres'.
    { eapply Forall_impl; [exact Hres|]. intros z [Hz1 Hz2]. split; [done|]. apply Hv'. by right. }
    destruct Hpool as [(-> & _ & Hx)|(y & -> & _ & Hy & Hyx & Hx)]; [done|]. cbn [app]. constructor; [|done]. split; [done|]. apply Hv'. by left.
  - destruct Hpool as [(Hp & _ & Hx)|(y & Hp & _ & Hy & Hyx & Hx)]; unfold ids; rewrite Hp; [done|]. cbn [app map]. apply NoDup_cons. split; [|done].
    intros Hin. change (recordId y ∈ ids (pool ++ done)) in Hin. apply elem_ids in Hin as (z & Hz & Hzr). rewrite Forall_forall in Hres. destruct (Hres z Hz) as [_ Hzv]. apply Hx. by rewrite <- Hyx, <- Hzr.
  - rewrite Hm'. intros Hmf. apply (exhausted_insert ls i x l l Hi). by apply Hm.
  - destruct Hpool as [(-> & -> & _)|(y & -> & -> & _)]; [done|]. rewrite Hca. cbn [app]. by rewrite Permutation_app_comm.
Qed.

(** ** The threshold *)

(** Neither a candidate nor a record that was not visited is better than [B]. *)
Definition bounded (ls : list (list item)) (pool : list item) (B : Z) : Prop :=
  Forall (fun x => s_val x <= B) pool /\ (exhausted ls \/ bound_of ls <= B).

Lemma bounded_advance cs t ls pool done (i : nat) x l pool' B : ordered -> topk_ok cs t ls pool done -> ls !! i = Some (x :: l) ->
  (Permutation pool' pool \/ exists y, Permutation pool' (y :: pool) /\ ~ exhausted ls /\ s_val y <= bound_of ls) -> bounded ls pool B -> bounded (<[i := l]> ls) pool' B.
Proof using Hranks.
  intros Hord Hok Hi Hp [Hb Hs]. split.
  - destruct Hp as [Hp|(y & Hp & He & Hy)]; rewrite Hp; [done|]. constructor; [|done]. destruct Hs as [Hs|Hs]; [done|lia].
  - destruct Hs as [Hs|Hs]; [left; by apply (exhausted_insert ls i x l)|]. destruct (bound_falls _ _ _ _ _ _ _ _ Hord Hok Hi) as [He|Hle]; [by left|right; lia].
Qed.

Lemma total_insert_tail ls (i : nat) x l : ls !! i = Some (x :: l) -> total ls = S (total (<[i := l]> ls)).
Proof. intros Hi. pose proof (total_insert ls i (x :: l) l Hi). cbn [length] in *. lia. Qed.

Lemma total_app ls ls' : total (ls ++ ls') = (total ls + total ls')%nat.
Proof. unfold total. by rewrite map_app, list_sum_app. Qed.

Definition top_list (top : option item) : list item := match top with Some x => [x] | None => [] end.
Definition top_best (top : option item) (candidates : list item) : Prop :=
  match top with Some x => Forall (no_better x) candidates | None => candidates = [] end.

(** The better of the two is returned next, the other stays. *)
Lemma place_run top x t : scored x -> Forall scored (candidatesList t) -> (forall y, top = Some y -> scored y) -> top_best top (candidatesList t) ->
  let (top', t') := place top x t in t' = set_candidates t (candidatesList t') /\ top_best (Some top') (candidatesList t') /\
    Permutation (top' :: candidatesList t') (x :: candidatesList t ++ top_list top).
Proof.
  intros Hx Hc Ht Hb. unfold place. destruct top as [y|]; cbn [top_best top_list] in *; [|split; [by destruct t|]; rewrite Hb; split; [constructor|done]].
  specialize (Ht y eq_refl). pose proof (fgt_val _ _ Hx Ht) as Hg. destruct (fgt _ _); cbn [set_candidates candidatesList top_best]; (split; [done|]).
  - destruct Hg as [Hg _]. specialize (Hg eq_refl). split; [|by rewrite Permutation_app_comm].
    apply Forall_app. split; [|constructor; [unfold no_better; lia|constructor]]. eapply Forall_impl; [exact Hb|]. unfold no_better. intros z Hz. lia.
  - assert (s_val x <= s_val y) as Hle by (destruct (Z.le_gt_cases (s_val x) (s_val y)); [done|]; assert (false = true) by (apply Hg; unfold s_val in *; lia); done).
    split; [apply Forall_app; split; [done|]; by constructor|]. rewrite (Permutation_app_comm _ [x]), (Permutation_app_comm _ [y]). cbn [app]. apply perm_swap.
Qed.

(** What a call of the loop, or of [getNext], leaves. *)
Record loop_ok (cs : list C) (t : MergeTopK) (ls : list (list item)) (top : option item) (ls0 : list (list item)) (pool0 done : list item) : Prop := {
  lo_ok : topk_ok cs t ls (candidatesList t ++ top_list top) done;
  lo_length : length cs = length ks;
  lo_less : (total ls <= total ls0)%nat;
  lo_total : (total ls + length (candidatesList t ++ top_list top) <= total ls0 + length pool0)%nat;
  lo_best : top_best top (candidatesList t);
  lo_stop : match top with None => exhausted ls | Some x => ordered -> exhausted ls \/ bound_of ls <= s_val x end;
  lo_bounded : ordered -> forall B, bounded ls0 pool0 B -> bounded ls (candidatesList t ++ top_list top) B }.

Lemma topk_ok_perm cs t ls pool pool' done : Permutation pool' pool -> topk_ok cs t ls pool done -> topk_ok cs t ls pool' done.
Proof.
  intros Hp [H1 H2 H3 H4 H5 H6 H7 H8 H9 H10]. constructor; try done.
  - intros r Hr Hc. unfold ids in *. rewrite Hp. by apply H5.
  - by rewrite Hp.
  - unfold ids in *. by rewrite Hp.
  - by rewrite Hp.
Qed.

Lemma topk_ok_state cs t t' ls pool done : feedbackRanker t' = feedbackRanker t -> nextItemsFromChildren t' = nextItemsFromChildren t ->
  visitedRecords t' = visitedRecords t -> (listsHaveMoreRecordsInThem t' = false -> exhausted ls) -> childRoundRobinOffset t' = childRoundRobinOffset t ->
  fullCandidatesListForCache t' = fullCandidatesListForCache t -> topk_ok cs t ls pool done -> topk_ok cs t' ls pool done.
Proof.
  intros E1 E2 E3 E4 E5 E6 [H1 H2 H3 H4 H5 H6 H7 H8 H9 H10]. constructor; rewrite ?E1, ?E2, ?E3, ?E5, ?E6; try done. unfold unread in *. by rewrite E3.
Qed.

Lemma robin_next n o : 0 <= o < n -> 0 <= (o + 1) mod n < n.
Proof. intros H. apply Z.mod_pos_bound. lia. Qed.

Lemma pool_scored cs t ls pool done : topk_ok cs t ls pool done -> Forall scored pool.
Proof using Hranks.
  intros Hok. pose proof (tk_results _ _ _ _ _ Hok) as Hr. apply Forall_app in Hr as [Hr _]. eapply Forall_impl; [exact Hr|]. intros x [Hx _]. by apply (result_scored x).
Qed.

(** The check of the threshold. *)
Lemma maximum_run cs t ls pool done t' : topk_ok cs t ls pool done -> nextItemsFromChildren t' = nextItemsFromChildren t -> feedbackRanker t' = ranker ->
  (exhausted ls /\ (getMaximumScoreOfUnvisitedRecords t' (maxFeedbackBoost t')).1 = false) \/
  (exists m, getMaximumScoreOfUnvisitedRecords t' (maxFeedbackBoost t') = (true, m) /\ (ordered -> score m /\ val m = bound_of ls)).
Proof using Hranks Hplain.
  intros Hok Hn Hr. unfold getMaximumScoreOfUnvisitedRecords. rewrite Hn. pose proof (heads _ _ _ (tk_waits _ _ _ _ _ Hok)) as Hheads.
  destruct (unread_scored _ _ _ _ _ Hok) as (Hs & _ & _). destruct (maximum_loop_run _ ls Hheads Hs (maxFeedbackBoost t') f_zero) as [Hm|(_ & Hm & Hsc)]; [done|by left|right].
  eexists. split; [exact Hm|]. intros Ho. unfold maxFeedbackBoost, computeFeedbackBoostedScore. by rewrite Hr, (Hplain Ho), fmul_one.
Qed.

Lemma loop_ok_trans cs t ls top ls1 pool1 ls0 pool0 done : loop_ok cs t ls top ls1 pool1 done -> (total ls1 <= total ls0)%nat -> (total ls1 + length pool1 <= total ls0 + length pool0)%nat ->
  (ordered -> forall B, bounded ls0 pool0 B -> bounded ls1 pool1 B) -> loop_ok cs t ls top ls0 pool0 done.
Proof. intros [H1 H2 H3 H4 H5 H6 H7] Hl Ht Hb. constructor; try done; [lia|lia|]. intros Ho B HB. by apply H7, Hb. Qed.

(** A record that a child delivers, the other children accept and nobody visited is a
    result. *)
Lemma new_result cs t ls pool done (i : nat) x0 x l v scores : topk_ok cs t ls pool done -> ls !! i = Some (x :: l) -> same x0 x -> recordId x ∉ visitedRecords t ->
  collect ks 0 (Z.of_nat i) x = Some scores -> v_scores v = scores -> result_of (candidate t x0 v).
Proof using Hranks Hplain Hboost.
  intros Hok Hi Hsame Hv Hc Es. destruct (Forall2_lookup_r _ _ _ _ _ (tk_unread _ _ _ _ _ Hok) Hi) as (all & Ha & d & Hd & Hdv).
  assert (recordRuntimeScore (candidate t x0 v) = boosted (recordId x0) (computeAggregatedRuntimeScoreForAnd scores)) as Er.
  { cbn [candidate recordRuntimeScore]. by rewrite (tk_ranker _ _ _ _ _ Hok), Es. }
  split; [unfold scored; rewrite Er; apply Hboost, and_score, (scores_of i all x); [done|rewrite Hd; apply elem_of_app; right; by left|done]|].
  exists i, all, x, scores. split; [done|]. split; [|split; [done|intros Ho; by rewrite Er, boosted_plain]]. cbn [candidate recordId].
  rewrite Hd, (proj1 Hsame). rewrite first_with_app; [apply first_with_head|]. intros y Hy E. apply Hv. rewrite <- E. by apply Hdv.
Qed.

(** The state after the record read ahead of the child [i] was taken. *)
Record after_read (cs : list C) (t : MergeTopK) (ls : list (list item)) (i : nat) (x0 x : item) (l : list item) (cs' : list C) (t' : MergeTopK) : Prop := {
  ar_list : ls !! i = Some (x :: l);
  ar_same : same x0 x;
  ar_keys : map k cs' = ks;
  ar_length : length cs' = length cs;
  ar_waits : Forall3 waits cs' (nextItemsFromChildren t') (<[i := l]> ls);
  ar_ranker : feedbackRanker t' = feedbackRanker t;
  ar_candidates : candidatesList t' = candidatesList t;
  ar_full : fullCandidatesListForCache t' = fullCandidatesListForCache t;
  ar_visited : visitedRecords t' = visitedRecords t;
  ar_more : listsHaveMoreRecordsInThem t' = listsHaveMoreRecordsInThem t;
  ar_robin : 0 <= childRoundRobinOffset t' < Z.of_nat (length cs') }.

(** A record that was visited before. *)
Lemma skipped_read_run cs t ls pool done (i : nat) x0 x l cs' t' : topk_ok cs t ls pool done -> after_read cs t ls i x0 x l cs' t' -> recordId x ∈ visitedRecords t ->
  topk_ok cs' t' (<[i := l]> ls) pool done.
Proof using Hranks.
  intros Hok [Hi Hs Hk Hlen Hw Hr Hc Hf Hv Hm Hrr] Hx. apply (advance cs t ls pool done i x l cs' t' pool Hok Hi); try done; [rewrite Hr; apply Hok| |left; split; [done|split; [exact Hf|by left]]].
  intros r. rewrite Hv. split; [by right|by intros [->|?]].
Qed.

(** A record that another child rejects. *)
Lemma rejected_run cs t ls pool done (i : nat) x0 x l cs' t' : topk_ok cs t ls pool done -> after_read cs t ls i x0 x l cs' t' -> ~ common alls (recordId x) ->
  topk_ok cs' (visit t' (recordId x)) (<[i := l]> ls) pool done.
Proof using Hranks.
  intros Hok [Hi Hs Hk Hlen Hw Hr Hc Hf Hv Hm Hrr] Hx. apply (advance cs t ls pool done i x l cs' (visit t' (recordId x)) pool Hok Hi); try done;
    [cbn [visit feedbackRanker]; rewrite Hr; apply Hok| |left; split; [done|split; [exact Hf|by right]]].
  intros r. cbn [visit visitedRecords]. rewrite Hv. apply elem_of_cons.
Qed.

(** A new candidate. *)
Lemma new_candidate_run cs t ls top done (i : nat) x0 x l cs' t' v scores : topk_ok cs t ls (candidatesList t ++ top_list top) done -> top_best top (candidatesList t) ->
  after_read cs t ls i x0 x l cs' t' -> recordId x ∉ visitedRecords t -> collect ks 0 (Z.of_nat i) x = Some scores -> v_scores v = scores ->
  let y := candidate (visit t' (recordId x)) x0 v in
  let (top', t2) := place top y (keep_for_cache (visit t' (recordId x)) y) in
  topk_ok cs' t2 (<[i := l]> ls) (candidatesList t2 ++ top_list (Some top')) done /\ top_best (Some top') (candidatesList t2) /\ scored top' /\
  (total (<[i := l]> ls) + length (candidatesList t2 ++ top_list (Some top')) <= total ls + length (candidatesList t ++ top_list top))%nat /\
  (ordered -> forall B, bounded ls (candidatesList t ++ top_list top) B -> bounded (<[i := l]> ls) (candidatesList t2 ++ top_list (Some top')) B).
Proof using Hranks Hplain Hboost.
  intros Hok Hb [Hi Hs Hk Hlen Hw Hr Hc Hf Hv Hm Hrr] Hnv Ec Ev y. set (t1 := visit t' (recordId x)) in *. pose proof (tk_ranker _ _ _ _ _ Hok) as Hrk.
  assert (y = candidate t x0 v) as Ey by (unfold y, candidate; cbn [t1 visit feedbackRanker]; by rewrite Hr). rewrite Ey. clear y Ey. set (y := candidate t x0 v).
  assert (result_of y) as Hy by exact (new_result _ _ _ _ _ _ _ _ _ _ _ Hok Hi Hs Hnv Ec Ev).
  pose proof (pool_scored _ _ _ _ _ Hok) as Hps. apply Forall_app in Hps as [Hps1 Hps2]. pose proof (total_insert_tail ls i x l Hi) as Htot.
  destruct (unvisited_bound cs t ls _ done i x l scores Hok Hi Hnv Ec) as [Hne Hub].
  pose proof (place_run top y (keep_for_cache t1 y) (proj1 (result_scored y Hy))) as Hpl. cbn [keep_for_cache candidatesList t1 visit] in Hpl. rewrite Hc in Hpl.
  specialize (Hpl Hps1 ltac:(intros z ->; by apply Forall_cons in Hps2 as [Hz _]) Hb). destruct (place top y (keep_for_cache t1 y)) as [top' t2]. destruct Hpl as (Et2 & Hb2 & Hp2).
  assert (Permutation (candidatesList t2 ++ top_list (Some top')) (y :: candidatesList t ++ top_list top)) as Hpool.
  { cbn [top_list]. rewrite Permutation_app_comm. exact Hp2. }
  assert (topk_ok cs' t2 (<[i := l]> ls) (candidatesList t2 ++ top_list (Some top')) done) as Hok2.
  { apply (advance cs t ls _ done i x l cs' t2 (candidatesList t2 ++ top_list (Some top')) Hok Hi); try rewrite Et2; cbn [set_candidates keep_for_cache t1 visit feedbackRanker nextItemsFromChildren
      visitedRecords listsHaveMoreRecordsInThem childRoundRobinOffset fullCandidatesListForCache candidatesList]; try done; [by rewrite Hr| |right; exists y; split; [done|split; [by rewrite Hf|split; [done|split; [apply Hs|done]]]]].
    intros r. rewrite Hv. apply elem_of_cons. }
  split; [done|]. split; [done|]. split; [|split].
  - pose proof (pool_scored _ _ _ _ _ Hok2) as Hps. apply Forall_app in Hps as [_ Hps]. by apply Forall_cons in Hps as [Hps _].
  - rewrite (Permutation_length Hpool). cbn [length]. lia.
  - intros Ho B. apply (bounded_advance cs t ls _ done i x l (candidatesList t2 ++ top_list (Some top')) B Ho Hok Hi). right. exists y. split; [done|]. split; [done|].
    unfold s_val, y. cbn [candidate recordRuntimeScore]. rewrite Hrk, (Hplain Ho), Ev. by apply Hub.
Qed.

Lemma threshold_run done fuel : forall cs t ls top, topk_ok cs t ls (candidatesList t ++ top_list top) done -> top_best top (candidatesList t) ->
  length cs = length ks -> (total ls < fuel)%nat ->
  exists cs' t' ls' top', threshold_loop next verify indeterminate fuel cs top t = Ok (cs', t', top') /\
    loop_ok cs' t' ls' top' ls (candidatesList t ++ top_list top) done.
Proof using Hfin Hkeep Hverify Hranks Hgood Hplain Hboost.
  clear Hsome. induction fuel as [|fuel IH]; intros cs t ls top Hok Hb Hlen Hf; [lia|]. cbn [threshold_loop]. unfold getNextChildForSequentialAccess.
  pose proof (tk_robin _ _ _ _ _ Hok) as Hrr. destruct (Z_of_nat_complete (childRoundRobinOffset t)) as (i & Ei); [lia|]. rewrite Ei in *.
  set (t1 := mk_topk _ _ _ _ _ _ ((Z.of_nat i + 1) mod _)).
  assert (is_Some (ls !! i)) as [l Hi] by (apply lookup_lt_is_Some; destruct (Forall3_length_lr _ _ _ _ (tk_waits _ _ _ _ _ Hok)); lia).
  destruct (read_child cs t1 ls i l (tk_keys _ _ _ _ _ Hok) (tk_waits _ _ _ _ _ Hok) Hi) as (cs' & items & o0 & -> & Hhead & Hk' & Hlen' & Hw'). cbn [rbind].
  set (t2 := with_items t1 items) in *. pose proof (robin_next (Z.of_nat (length cs)) (Z.of_nat i) Hrr) as Hrr'.
  destruct o0 as [x0|], l as [|x l]; cbn [head_same tail] in *; try done.
  2: { (* the child has no more records *)
    rewrite list_insert_id in Hw' by done. assert (exhausted ls) as He by (apply Exists_exists; exists []; split; [by eapply list_elem_of_lookup_2|done]).
    exists cs', (set_more t2 false), ls, top. split; [done|]. destruct Hok as [H1 H2 H3 H4 H5 H6 H7 H8 H9 H10].
    constructor; [|lia|done|done|exact Hb|destruct top; auto|done]. constructor; try done. cbn [set_more childRoundRobinOffset t2 with_items t1]. by rewrite Hlen'. }
  assert (after_read cs t ls i x0 x l cs' t2) as Har by (constructor; try done; by rewrite Hlen'). pose proof Hhead as [Hid0 _]. rewrite Hid0. pose proof (total_insert_tail ls i x l Hi) as Htot.
  destruct (unread_scored _ _ _ _ _ Hok) as (_ & _ & Hkn). assert (known (recordId x)) as Hknx by (rewrite Forall_lookup in Hkn; specialize (Hkn i _ Hi); by apply Forall_cons in Hkn as [Hkn _]).
  assert (forall t3, candidatesList t3 = candidatesList t -> topk_ok cs' t3 (<[i := l]> ls) (candidatesList t ++ top_list top) done ->
    exists cs2 t' ls' top', threshold_loop next verify indeterminate fuel cs' top t3 = Ok (cs2, t', top') /\ loop_ok cs2 t' ls' top' ls (candidatesList t ++ top_list top) done) as Hgo.
  { intros t3 Ec Hok3. rewrite <- Ec in Hok3, Hb. destruct (IH cs' t3 (<[i := l]> ls) top Hok3 Hb ltac:(lia) ltac:(lia)) as (cs2 & t' & ls' & top' & Hr & Hl). exists cs2, t', ls', top'. split; [done|].
    rewrite Ec in Hl. apply (loop_ok_trans _ _ _ _ _ _ _ _ _ Hl); [lia|lia|]. intros Ho B HB. apply (bounded_advance cs t ls _ done i x l (candidatesList t ++ top_list top) B Ho Hok Hi); [by left|done]. }
  destruct (visited (visitedRecords t2) (recordId x)) eqn:Ev; [apply visited_spec in Ev; apply (Hgo t2); [done|by apply (skipped_read_run cs t ls _ done i x0 x l)]|].
  assert (recordId x ∉ visitedRecords t) as Hnv by (intros Hin%visited_spec; change (visited (visitedRecords t) (recordId x) = false) in Ev; congruence).
  destruct (Forall2_lookup_r _ _ _ _ _ (tk_unread _ _ _ _ _ Hok) Hi) as (all & Ha & d & Hd & _). assert (x ∈ all) as Hxa by (rewrite Hd; set_solver).
  unfold verifyRecordWithChildren. destruct (collected_run (Z.of_nat i) x0 ltac:(by rewrite Hid0) cs' ltac:(by rewrite Hk') 0 (mk_vectors [] [] [] [] [] [])) as (o & -> & Ho). cbn [rbind].
  rewrite Hk', (collect_same _ _ _ _ Hhead) in Ho. cbn [v_scores app] in Ho. pose proof (collect_common i all x Ha Hxa) as Hcc.
  destruct o as [v|]; cbn [option_map] in Ho; destruct (collect ks 0 (Z.of_nat i) x) as [scores|] eqn:Ec; try done;
    [|apply (Hgo (visit t2 (recordId x))); [done|]; apply (rejected_run cs t ls _ done i x0 x l); [done|done|intros Hc%Hcc; by destruct Hc]].
  injection Ho as Ev'. pose proof (new_candidate_run cs t ls top done i x0 x l cs' t2 v scores Hok Hb Har Hnv Ec Ev') as Hcand. cbv zeta in Hcand.
  destruct (place top _ _) as [top' t4] eqn:Ep. destruct Hcand as (Hok4 & Hb4 & Hst & Htl & Hbd).
  destruct (maximum_run _ _ _ _ _ t4 Hok4 eq_refl (tk_ranker _ _ _ _ _ Hok4)) as [[He Hm]|(m & Hm & Hms)].
  - destruct (getMaximumScoreOfUnvisitedRecords _ _) as [b m]. cbn [fst] in Hm. subst b. exists cs', (set_more t4 false), (<[i := l]> ls), (Some top'). split; [done|].
    constructor; [|lia|lia|done|exact Hb4|intros _; by left|exact Hbd]. by apply (topk_ok_state cs' t4).
  - rewrite Hm. destruct (fgt (recordRuntimeScore top') m) eqn:Eg.
    + exists cs', t4, (<[i := l]> ls), (Some top'). split; [done|]. constructor; [done|lia|lia|done|exact Hb4| |exact Hbd]. intros Ho. right.
      destruct (Hms Ho) as [Hm1 Hm2]. apply (fgt_val _ _ Hst Hm1) in Eg. unfold s_val. lia.
    + destruct (IH cs' t4 (<[i := l]> ls) (Some top') Hok4 Hb4 ltac:(lia) ltac:(lia)) as (cs2 & t' & ls' & top2 & -> & Hl). exists cs2, t', ls', top2. split; [done|].
      apply (loop_ok_trans _ _ _ _ _ _ _ _ _ Hl); [lia|done|done].
Qed.

(** ** The stream *)

Local Abbreviation getNext := (getNext next verify indeterminate).

Lemma getNext_run done fuel cs t ls : topk_ok cs t ls (candidatesList t) done -> length cs = length ks -> (total ls < fuel)%nat ->
  exists cs' t' ls' top', getNext fuel cs t = Ok (cs', t', top') /\ loop_ok cs' t' ls' top' ls (candidatesList t) done.
Proof using Hfin Hkeep Hverify Hranks Hgood Hplain Hboost.
  clear Hsome. intros Hok Hlen Hf. unfold MergeTopK.getNext. pose proof (candidates_perm (candidatesList t)) as Hp.
  pose proof (sort_by_score (candidatesList t) (pool_scored _ _ _ _ _ Hok)) as Hs. destruct (sort (candidatesList t)) as [|top rest].
  - apply Permutation_nil in Hp. destruct (listsHaveMoreRecordsInThem t) eqn:Em.
    + destruct (threshold_run done fuel cs t ls None) as (cs' & t' & ls' & top' & Hr & Hl); cbn [top_list]; rewrite ?app_nil_r; try done.
      exists cs', t', ls', top'. split; [done|]. cbn [top_list] in Hl. by rewrite app_nil_r in Hl.
    + exists cs, t, ls, None. split; [done|]. constructor; cbn [top_list top_best]; rewrite ?app_nil_r; try done. by apply (tk_more _ _ _ _ _ Hok).
  - assert (Permutation (rest ++ top_list (Some top)) (candidatesList t)) as Hpool by (cbn [top_list]; by rewrite Permutation_app_comm).
    apply StronglySorted_inv in Hs as [_ Hbest]. set (t1 := set_candidates t rest).
    assert (topk_ok cs t1 ls (candidatesList t1 ++ top_list (Some top)) done) as Hok1.
    { apply (topk_ok_state cs t); try done; [by apply (tk_more _ _ _ _ _ Hok)|]. by apply (topk_ok_perm cs t ls (candidatesList t)). }
    pose proof (pool_scored _ _ _ _ _ Hok1) as Hps. apply Forall_app in Hps as [_ Hps]. apply Forall_cons in Hps as [Hst _].
    assert (forall b, b = listsHaveMoreRecordsInThem t1 \/ exhausted ls -> (ordered -> exhausted ls \/ bound_of ls <= s_val top) ->
      loop_ok cs (set_more t1 b) ls (Some top) ls (candidatesList t) done) as Hend.
    { intros b Hm2 Hstop. constructor; cbn [set_more candidatesList t1 set_candidates]; try done.
      - apply (topk_ok_state cs t1); try done. cbn [set_more listsHaveMoreRecordsInThem]. intros ->. destruct Hm2 as [Hm2|]; [|done]. by apply (tk_more _ _ _ _ _ Hok1).
      - rewrite (Permutation_length Hpool). lia.
      - intros _ B [HB1 HB2]. split; [by rewrite Hpool|done]. }
    destruct (maximum_run _ _ _ _ _ t1 Hok1 eq_refl (tk_ranker _ _ _ _ _ Hok)) as [[He Hm]|(m & Hm & Hms)].
    + destruct (getMaximumScoreOfUnvisitedRecords _ _) as [b m]. cbn [fst] in Hm. subst b.
      exists cs, (set_more t1 false), ls, (Some top). cbn [set_more listsHaveMoreRecordsInThem]. split; [by destruct (fgt _ m)|]. apply Hend; [by right|intros _; by left].
    + rewrite Hm. destruct (fgt (recordRuntimeScore top) m) eqn:Eg.
      * exists cs, t1, ls, (Some top). split; [done|]. apply (Hend (listsHaveMoreRecordsInThem t1)); [by left|]. intros Ho. right.
        destruct (Hms Ho) as [Hm1 Hm2]. apply (fgt_val _ _ Hst Hm1) in Eg. unfold s_val. lia.
      * destruct (listsHaveMoreRecordsInThem t1) eqn:Em.
        -- destruct (threshold_run done fuel cs t1 ls (Some top)) as (cs' & t' & ls' & top' & Hr & Hl); try done. exists cs', t', ls', top'. split; [done|].
           change (candidatesList t1) with rest in Hl. apply (loop_ok_trans _ _ _ _ _ _ _ _ _ Hl); [done|rewrite (Permutation_length Hpool); lia|]. intros _ B [HB1 HB2]. split; [by rewrite Hpool|done].
        -- exists cs, t1, ls, (Some top). split; [done|]. apply (Hend (listsHaveMoreRecordsInThem t1)); [by left|]. intros _. left. by apply (tk_more _ _ _ _ _ Hok1).
Qed.

(** The operator as a stream: its children and its members. *)
Definition topk_next (fuel : nat) (s : list C * MergeTopK) : result ((list C * MergeTopK) * option item) :=
  let? (cs, t, r) := getNext fuel s.1 s.2 in Ok ((cs, t), r).

Lemma topk_run fuel n : forall cs t ls done, topk_ok cs t ls (candidatesList t) done -> length cs = length ks -> (total ls < fuel)%nat ->
  (total ls + length (candidatesList t) <= n)%nat ->
  exists out, delivers (topk_next fuel) (cs, t) out /\ NoDup (ids (out ++ done)) /\ (forall r, r ∈ ids (out ++ done) <-> common alls r) /\ Forall result_of out /\
    (ordered -> by_score out /\ forall B, bounded ls (candidatesList t) B -> Forall (fun x => s_val x <= B) out).
Proof using Hfin Hkeep Hverify Hranks Hgood Hsome Hplain Hboost.
  induction n as [|n IH]; intros cs t ls done Hok Hlen Hf Hn; destruct (getNext_run done fuel cs t ls Hok Hlen Hf) as (cs' & t' & ls' & top & Hr & [Hok' Hlen' Hless Htot Hbest Hstop Hbd]);
    (destruct top as [x|]; cbn [top_list top_best] in *; [rewrite length_app in Htot; cbn [length] in Htot; try lia|]).
  1,3: rewrite Hbest in Hok'; cbn [app] in Hok'; exists []; cbn [delivers app]; unfold topk_next; cbn [fst snd]; rewrite Hr; (split; [by eexists|]); destruct Hok' as [_ _ _ Hu Hv Hres Hd _ _ _]; (split; [exact Hd|]);
    (split; [|by repeat constructor]); intros r; split; [intros (y & Hy & <-)%elem_ids; rewrite Forall_forall in Hres; by apply result_scored, Hres|];
    intros Hc; apply Hv; [|done]; apply Exists_exists in Hstop as (l & Hl & ->); apply list_elem_of_lookup in Hl as (j & Hj);
    destruct (Forall2_lookup_r _ _ _ _ _ Hu Hj) as (all & Ha & d & -> & Hdv); unfold common in Hc; rewrite Forall_lookup in Hc; specialize (Hc j _ Ha);
    rewrite app_nil_r in Hc; apply elem_ids in Hc as (y & Hy & <-); by apply Hdv.
  assert (Permutation ((candidatesList t' ++ [x]) ++ done) (candidatesList t' ++ x :: done)) as Hp by (by rewrite <- app_assoc).
  assert (topk_ok cs' t' ls' (candidatesList t') (x :: done)) as Hok2.
  { destruct Hok' as [H1 H2 H3 H4 H5 H6 H7 H8 H9 H10]. constructor; try done; [|by rewrite <- Hp|unfold ids in *; by rewrite <- Hp|by rewrite <- Hp]. intros r Hrv Hc. unfold ids in *. rewrite <- Hp. by apply H5. }
  destruct (IH cs' t' ls' (x :: done) Hok2 Hlen' ltac:(lia) ltac:(lia)) as (out & Hd & Hnd & Hids & Hres & Hb). exists (x :: out).
  assert (Permutation ((x :: out) ++ done) (out ++ x :: done)) as Hpo by (cbn [app]; apply Permutation_middle).
  assert (ordered -> forall B, bounded ls (candidatesList t) B -> s_val x <= B) as Hx.
  { intros Ho B HB. destruct (Hbd Ho B HB) as [HB1 _]. apply Forall_app in HB1 as [_ HB1]. by apply Forall_cons in HB1 as [HB1 _]. }
  split; [exists (cs', t'); split; [unfold topk_next; cbn [fst snd]; by rewrite Hr|done]|]. split; [unfold ids in *; by rewrite Hpo|].
  split; [intros r; unfold ids in *; by rewrite Hpo|]. split.
  { constructor; [|done]. pose proof (tk_results _ _ _ _ _ Hok') as Hr'. rewrite Hp in Hr'. apply Forall_app in Hr' as [_ Hr']. by apply Forall_cons in Hr' as [[Hr' _] _]. }
  intros Ho. destruct (Hb Ho) as [Hsorted Hb']. assert (Forall (fun y => s_val y <= s_val x) out) as Hle by (apply Hb'; split; [exact Hbest|by apply Hstop]).
  split; [by constructor|]. intros B HB. specialize (Hx Ho B HB). constructor; [done|]. eapply Forall_impl; [exact Hle|]. intros y Hy. cbn in Hy. lia.
Qed.

(** States that are reached by reading. *)
Inductive reached (fuel : nat) : list C * MergeTopK -> list C * MergeTopK -> Prop :=
  | reached_here s : reached fuel s s
  | reached_next s s' s'' r : topk_next fuel s = Ok (s', r) -> reached fuel s' s'' -> reached fuel s s''.

Lemma reached_ok fuel s s' : reached fuel s s' -> forall ls done, topk_ok s.1 s.2 ls (candidatesList s.2) done -> length s.1 = length ks -> (total ls < fuel)%nat ->
  exists ls' done', topk_ok s'.1 s'.2 ls' (candidatesList s'.2) done' /\ length s'.1 = length ks /\ (total ls' <= total ls)%nat.
Proof using Hfin Hkeep Hverify Hranks Hgood Hplain Hboost.
  induction 1 as [s|[cs t] s' s'' r Hn _ IH]; intros ls done Hok Hlen Hf; [by exists ls, done|]. cbn [fst snd] in *.
  destruct (getNext_run done fuel cs t ls Hok Hlen Hf) as (cs' & t' & ls' & top & Hr & [Hok' Hlen' Hless _ Hbest _ _]). unfold topk_next in Hn. cbn [fst snd] in Hn. rewrite Hr in Hn. injection Hn as <- <-.
  cbn [fst snd] in IH. assert (exists done', topk_ok cs' t' ls' (candidatesList t') done') as (done' & Hok2).
  { destruct top as [x|]; cbn [top_list top_best] in *; [|exists done; by rewrite app_nil_r in Hok']. exists (x :: done).
    assert (Permutation ((candidatesList t' ++ [x]) ++ done) (candidatesList t' ++ x :: done)) as Hp by (by rewrite <- app_assoc).
    destruct Hok' as [H1 H2 H3 H4 H5 H6 H7 H8 H9 H10]. constructor; try done; [|by rewrite <- Hp|unfold ids in *; by rewrite <- Hp|by rewrite <- Hp]. intros r Hrv Hc. unfold ids in *. rewrite <- Hp. by apply H5. }
  destruct (IH ls' done' Hok2 Hlen' ltac:(lia)) as (ls2 & done2 & H2 & Hl2 & Ht2). exists ls2, done2. split; [done|]. split; [done|]. lia.
Qed.

(** ** Opening *)

Lemma initialize_run cs ls : Forall2 streams cs ls -> forall t, exists cs' os t', initializeNextItemsFromChildren next cs 0 t = Ok (cs', t') /\
  Forall3 waits cs' os ls /\ map k cs' = map k cs /\ feedbackRanker t' = feedbackRanker t /\ nextItemsFromChildren t' = nextItemsFromChildren t ++ os /\
  candidatesList t' = candidatesList t /\ fullCandidatesListForCache t' = fullCandidatesListForCache t.
Proof using Hfin Hkeep.
  induction 1 as [|c l cs ls Hc _ IH]; intros t; cbn [initializeNextItemsFromChildren].
  { exists [], [], t. split; [done|]. split; [constructor|]. split; [done|]. split; [done|]. split; [by rewrite app_nil_r|done]. }
  destruct (streams_first c l Hc) as (c' & o & Hn & Hw). rewrite Hn. cbn [rbind].
  match goal with |- context [initializeNextItemsFromChildren next cs 0 ?u] => destruct (IH u) as (cs' & os & t' & -> & Hw' & Hk & Hr & Hi & Hcf) end. cbn [rbind].
  exists (c' :: cs'), (o :: os), t'. split; [done|]. split; [by constructor|]. cbn [map]. split; [by rewrite Hk, (Hkeep _ _ _ Hn)|]. split; [done|].
  rewrite Hi. cbn [nextItemsFromChildren]. split; [by rewrite <- app_assoc|exact Hcf].
Qed.

Lemma open_fresh_run cs t : Forall2 streams cs alls -> map k cs = ks -> nextItemsFromChildren t = [] ->
  exists cs' t', open_fresh next ranker cs t = Ok (cs', t') /\ candidatesList t' = [] /\ topk_ok cs' t' alls [] [].
Proof using Hfin Hkeep Hsome.
  intros Hs Hk Ht. unfold open_fresh. match goal with |- context [initializeNextItemsFromChildren next cs 0 ?u] =>
    destruct (initialize_run cs alls Hs u) as (cs' & os & t' & -> & Hw & Hk' & Hr & Hi & _) end. cbn [rbind feedbackRanker nextItemsFromChildren] in *.
  eexists cs', _. split; [reflexivity|]. split; [done|]. rewrite Ht in Hi. cbn [app] in Hi.
  constructor; cbn [feedbackRanker nextItemsFromChildren visitedRecords listsHaveMoreRecordsInThem childRoundRobinOffset app]; try done.
  - by rewrite Hk', Hk.
  - by rewrite Hi.
  - clear. induction alls as [|l ls IH]; constructor; [|done]. exists []. split; [done|]. intros y Hy. by apply elem_of_nil in Hy.
  - constructor.
  - destruct cs' as [|c cs']; [|cbn [length]; lia]. destruct Hsome. by rewrite <- Hk, <- Hk'.
Qed.

(** The ranked conjunction of the children. *)
Lemma topk_delivers fuel cs t : Forall2 streams cs alls -> map k cs = ks -> nextItemsFromChildren t = [] -> (total alls < fuel)%nat ->
  exists cs' t' out, open_fresh next ranker cs t = Ok (cs', t') /\ delivers (topk_next fuel) (cs', t') out /\
    NoDup (ids out) /\ (forall r, r ∈ ids out <-> common alls r) /\ (ordered -> by_score out).
Proof using Hfin Hkeep Hverify Hranks Hgood Hsome Hplain Hboost.
  intros Hs Hk Ht Hf. destruct (open_fresh_run cs t Hs Hk Ht) as (cs' & t' & Ho & Hc & Hok).
  assert (length cs' = length ks) as Hlen by (rewrite <- (tk_keys _ _ _ _ _ Hok); by rewrite length_map).
  assert (topk_ok cs' t' alls (candidatesList t') []) as Hok' by (by rewrite Hc).
  destruct (topk_run fuel _ cs' t' alls [] Hok' Hlen Hf (le_n _)) as (out & Hd & Hnd & Hids & Hres & Hsc). rewrite app_nil_r in Hnd, Hids. exists cs', t', out.
  split; [done|]. split; [done|]. split; [done|]. split; [done|]. intros Hord. by apply Hsc.
Qed.

End Children.

(** ** Opening with an entry of the cache *)

(** The scores that these children give a record of another child. *)
Definition others (keys : list K) (x : item) : option (list float) := collect keys 0 (-1) x.

Lemma collect_others i x keys : forall offset, i < offset -> collect keys offset i x = others keys x.
Proof.
  unfold others. assert (-1 < 0) as H0 by lia. revert H0. generalize (-1) 0. induction keys as [|key keys IH]; intros i' o' Hi' o Hi; cbn [collect]; [done|].
  rewrite (proj2 (Z.eqb_neq o i)), (proj2 (Z.eqb_neq o' i')) by lia. by rewrite (IH i' (o' + 1) ltac:(lia) (o + 1) ltac:(lia)).
Qed.

Lemma collect_app i x ks1 ks2 : forall offset, i < offset + Z.of_nat (length ks1) ->
  collect (ks1 ++ ks2) offset i x = match collect ks1 offset i x, others ks2 x with Some l1, Some l2 => Some (l1 ++ l2) | _, _ => None end.
Proof.
  induction ks1 as [|key ks1 IH]; intros offset Hi; cbn [collect app length] in *.
  - rewrite collect_others by lia. by destruct (others ks2 x).
  - destruct (if offset =? i then _ else _); [|done]. rewrite IH by lia. destruct (collect ks1 _ _ _), (others ks2 x); done.
Qed.

Lemma others_same keys x y : recordId x = recordId y -> others keys x = others keys y.
Proof.
  intros E. unfold others. assert (-1 < 0) as H0 by lia. revert H0. generalize 0. induction keys as [|key keys IH]; intros o Ho; cbn [collect]; [done|].
  rewrite (proj2 (Z.eqb_neq o (-1))) by lia. by rewrite E, (IH (o + 1) ltac:(lia)).
Qed.

Lemma others_common ks alls x : Forall2 ranks ks alls -> known (recordId x) -> is_Some (others ks x) <-> common alls (recordId x).
Proof.
  intros Hr Hk. unfold others. rewrite <- collect_some. unfold common. rewrite Forall_lookup. split.
  - intros Hall j l Hj. destruct (Forall2_lookup_r _ _ _ _ _ Hr Hj) as (key & Hkey & Hrk). apply (rk_accepts _ _ Hrk _ Hk). specialize (Hall j key Hkey ltac:(lia)). by destruct (acc key (recordId x)).
  - intros Hall j key Hj _. destruct (Forall2_lookup_l _ _ _ _ _ Hr Hj) as (l & Hl & Hrk). specialize (Hall j l Hl). apply (rk_accepts _ _ Hrk _ Hk) in Hall. by destruct (acc key (recordId x)).
Qed.

Lemma others_scored ks alls x sc : Forall2 ranks ks alls -> known (recordId x) -> others ks x = Some sc -> Forall score sc.
Proof.
  intros Hr Hk. unfold others. assert (-1 < 0) as H0 by lia. revert H0 sc. generalize 0. induction Hr as [|key all ks alls Hr _ IH]; intros o Ho sc; cbn [collect]; [by intros [= <-]|].
  rewrite (proj2 (Z.eqb_neq o (-1))) by lia. destruct (acc key (recordId x)) as [s|] eqn:Es; [|done]. specialize (IH (o + 1) ltac:(lia)).
  destruct (collect ks (o + 1) (-1) x) as [l|]; [|done]. intros [= <-]. constructor; [by apply (rk_bound _ _ Hr _ s Hk)|by apply IH].
Qed.

Local Abbreviation clone := (clone unset).
Lemma verify_new_run x news : known (recordId x) -> Forall good (map k news) -> forall cs v,
  exists o, verify_new verify indeterminate (cs ++ news) (length cs) x v = Ok o /\ option_map v_scores o = option_map (app (v_scores v)) (others (map k news) x).
Proof using Hverify.
  intros Hk Hg cs v. assert (verify_new verify indeterminate (cs ++ news) (length cs) x v = verify_new verify indeterminate news 0 x v) as ->.
  { induction cs as [|c cs IH]; [done|]. exact IH. }
  clear cs. revert v. induction news as [|c news IH]; intros v; cbn [verify_new map]; [exists (Some v); cbn; by rewrite app_nil_r|].
  cbn [map] in Hg. apply Forall_cons in Hg as [Hgc Hg]. destruct (Hverify c (recordId x) (fresh_parameters indeterminate) Hgc Hk) as (p' & -> & Hp). cbn [rbind].
  unfold others. cbn [collect]. change (0 =? -1) with false. cbn iota. destruct (acc (k c) (recordId x)) as [s|]; cbn [accepted]; [|by exists None].
  match goal with |- exists o, verify_new _ _ _ _ _ ?u = _ /\ _ => destruct (IH Hg u) as (o & -> & Ho) end. exists o. split; [done|]. rewrite Ho, collect_others by lia. cbn [v_scores].
  rewrite (Hp s eq_refl). destruct (others (map k news) x); cbn [option_map]; [|done]. by rewrite <- app_assoc.
Qed.

(** The candidates of the cache that the new children accept, with the new scores. *)
Inductive kept (keys : list K) : list item -> list item -> Prop :=
  | kept_nil : kept keys [] []
  | kept_some x y sc l l' : others keys x = Some sc -> recordId y = recordId x ->
      recordRuntimeScore y = boosted (recordId x) (computeAggregatedRuntimeScoreForAnd (recordRuntimeScore x :: sc)) -> kept keys l l' -> kept keys (x :: l) (y :: l')
  | kept_none x l l' : others keys x = None -> kept keys l l' -> kept keys (x :: l) l'.

Lemma kept_in keys l l' y : kept keys l l' -> y ∈ l' -> exists x sc, x ∈ l /\ others keys x = Some sc /\ recordId y = recordId x /\
  recordRuntimeScore y = boosted (recordId x) (computeAggregatedRuntimeScoreForAnd (recordRuntimeScore x :: sc)).
Proof.
  induction 1 as [|x z sc l l' Ho Hi Hs _ IH|x l l' Ho _ IH]; intros Hy; [by apply elem_of_nil in Hy|..].
  - apply elem_of_cons in Hy as [->|Hy]; [exists x, sc; split; [by left|done]|]. destruct (IH Hy) as (x' & sc' & Hx' & Hr). exists x', sc'. split; [by right|done].
  - destruct (IH Hy) as (x' & sc' & Hx' & Hr). exists x', sc'. split; [by right|done].
Qed.

Lemma kept_ids keys l l' : kept keys l l' -> (forall x, x ∈ l -> is_Some (others keys x) -> recordId x ∈ ids l') /\ (NoDup (ids l) -> NoDup (ids l')).
Proof.
  induction 1 as [|x z sc l l' Ho Hi Hs Hk [IH1 IH2]|x l l' Ho _ [IH1 IH2]]; (split; [intros y Hy Hsm|]).
  - by apply elem_of_nil in Hy.
  - done.
  - unfold ids. cbn [map]. apply elem_of_cons in Hy as [->|Hy]; [rewrite Hi; by left|right; by apply IH1].
  - unfold ids. cbn [map]. intros [Hx Hn]%NoDup_cons. apply NoDup_cons. split; [|by apply IH2]. rewrite Hi. intros Hin. apply Hx. change (recordId x ∈ ids l') in Hin.
    apply elem_ids in Hin as (y & Hy & Hyr). destruct (kept_in _ _ _ _ Hk Hy) as (w & sc' & Hw & _ & Hwr & _). rewrite <- Hyr, Hwr. by apply elem_ids_intro.
  - apply elem_of_cons in Hy as [->|Hy]; [rewrite Ho in Hsm; by destruct Hsm|by apply IH1].
  - unfold ids. cbn [map]. intros [_ Hn]%NoDup_cons. by apply IH2.
Qed.

Lemma cached_loop_run cs news cands : news <> [] -> Forall good (map k news) -> Forall (fun x => known (recordId x)) cands -> forall t, feedbackRanker t = ranker ->
  exists t' l, cached_loop verify indeterminate unset (cs ++ news) (length cs) cands t = Ok t' /\ kept (map k news) cands l /\
    t' = mk_topk ranker (candidatesList t ++ l) (fullCandidatesListForCache t ++ l) (nextItemsFromChildren t) (visitedRecords t) (listsHaveMoreRecordsInThem t) (childRoundRobinOffset t).
Proof using Hverify.
  intros Hne Hg Hkn. induction Hkn as [|x cands Hx _ IH]; intros t Ht; cbn [cached_loop].
  { exists t, []. split; [done|]. split; [constructor|]. rewrite !app_nil_r, <- Ht. by destruct t. }
  rewrite (proj2 (Nat.ltb_lt _ _)) by (rewrite length_app; destruct news; [done|cbn [length]; lia]).
  match goal with |- context [verify_new _ _ _ _ x ?v] => destruct (verify_new_run x news Hx Hg cs v) as (o & -> & Ho) end. cbn [rbind v_scores app] in *.
  destruct o as [v|], (others (map k news) x) as [sc|] eqn:Eo; cbn [option_map] in *; try done.
  - injection Ho as Ho. match goal with |- context [cached_loop _ _ _ _ _ _ ?u] => destruct (IH u Ht) as (t' & l & -> & Hk & ->) end.
    eexists _, (candidate t (clone x) v :: l). split; [done|]. split; [|by cbn; rewrite <- !app_assoc]. apply (kept_some _ x _ sc); [done|done| |done].
    cbn [candidate recordRuntimeScore]. rewrite Ht, Ho. done.
  - destruct (IH t Ht) as (t' & l & -> & Hk & ->). eexists _, l. split; [done|]. split; [by apply kept_none|done].
Qed.

Lemma initialize_from cs news t : initializeNextItemsFromChildren next (cs ++ news) (length cs) t =
  let? (news', t') := initializeNextItemsFromChildren next news 0 t in Ok (cs ++ news', t').
Proof.
  induction cs as [|c cs IH]; cbn [app length initializeNextItemsFromChildren]; [by destruct (initializeNextItemsFromChildren next news 0 t) as [[? ?]|]|].
  rewrite IH. by destruct (initializeNextItemsFromChildren next news 0 t) as [[? ?]|].
Qed.

Lemma unread_app t alls1 ls1 alls2 : Forall2 (unread t) alls1 ls1 -> Forall2 (unread t) (alls1 ++ alls2) (ls1 ++ alls2).
Proof.
  intros H. apply Forall2_app; [done|]. clear. induction alls2 as [|l ls IH]; constructor; [|done]. exists []. split; [done|]. intros y Hy. by apply elem_of_nil in Hy.
Qed.

Lemma waits_clones cs os ls : Forall3 waits cs os ls -> Forall3 waits cs (map (option_map clone) (map (option_map clone) os)) ls.
Proof.
  induction 1 as [|c o l cs os ls Hw _ IH]; cbn [map]; constructor; [|done]. destruct o as [x|]; [|done]. destruct Hw as (y & l' & -> & [H1 H2] & Hs). by exists y, l'.
Qed.

(** A cached operator goes on over more children: what it kept of its candidates and
    where its children are is the state of the larger conjunction. *)
Lemma open_cached_run ks1 alls1 ks2 alls2 cs t ls pool done news t0 : Forall2 ranks ks1 alls1 -> Forall2 ranks ks2 alls2 -> Forall good ks2 -> ks2 <> [] ->
  topk_ok ks1 alls1 cs t ls pool done -> Forall2 streams news alls2 -> map k news = ks2 ->
  candidatesList t0 = [] -> fullCandidatesListForCache t0 = [] -> nextItemsFromChildren t0 = [] ->
  exists cs' t', open_cached next verify indeterminate unset ranker (cs ++ news) (MergeTopK.close unset t).2 t0 = Ok (cs', t') /\
    topk_ok (ks1 ++ ks2) (alls1 ++ alls2) cs' t' (ls ++ alls2) (candidatesList t') [].
Proof using Hfin Hkeep Hverify Hplain Hboost.
  intros Hr1 Hr2 Hg Hne [Hr Hk Hw Hu Hv Hres Hd Hm Hrr Hca] Hs Hk2 Hc0 Hf0 Hn0. unfold open_cached. cbn [MergeTopK.close fst snd e_candidatesList e_nextItemsFromChildren e_visitedRecords e_listsHaveMoreRecordsInThem e_childRoundRobinOffset].
  destruct (Forall3_length_lr _ _ _ _ Hw). pose proof (Forall3_length_lm _ _ _ _ Hw) as Hlen. rewrite length_map, <- Hlen.
  assert (news <> []) as Hnews by (intros ->; by apply Hne).
  assert (Forall (fun x => known (recordId x)) (map clone (fullCandidatesListForCache t))) as Hkn.
  { apply Forall_forall. intros x Hx. apply list_elem_of_In, in_map_iff in Hx as (y & <- & Hy%list_elem_of_In). rewrite Hca in Hy. rewrite Forall_forall in Hres. destruct (Hres y Hy) as [(_ & i & all & z & sc & Ha & Hf & _) _].
    by apply (first_known ks1 alls1 Hr1 i all z). }
  match goal with |- context [cached_loop _ _ _ _ _ _ ?u] => destruct (cached_loop_run cs news _ Hnews ltac:(by rewrite Hk2) Hkn u eq_refl) as (t1 & l & -> & Hkept & ->) end.
  cbn [rbind feedbackRanker candidatesList fullCandidatesListForCache nextItemsFromChildren visitedRecords listsHaveMoreRecordsInThem childRoundRobinOffset]. rewrite Hc0, Hf0, Hn0. cbn [app].
  rewrite !length_map, <- Hlen, (proj2 (Nat.ltb_lt _ _)) by (rewrite length_app; destruct news; [done|cbn [length]; lia]). rewrite initialize_from.
  match goal with |- context [initializeNextItemsFromChildren next news 0 ?u] => destruct (initialize_run news alls2 Hs u) as (news' & os & t2 & -> & Hw2 & Hk' & Hr' & Hi' & Hc' & Hf') end.
  cbn [rbind feedbackRanker candidatesList fullCandidatesListForCache nextItemsFromChildren] in *. eexists (cs ++ news'), _. split; [reflexivity|]. rewrite Hc', Hf'.
  assert (length ks1 = length cs) as Hl1 by (by rewrite <- Hk, length_map).
  assert (length ks1 = length alls1) as Hl2 by (by apply Forall2_length in Hr1).
  assert (forall y, y ∈ l -> exists x sc, x ∈ pool ++ done /\ others ks2 x = Some sc /\ recordId y = recordId x /\
    recordRuntimeScore y = boosted (recordId x) (computeAggregatedRuntimeScoreForAnd (recordRuntimeScore x :: sc))) as Hin.
  { intros y Hy. destruct (kept_in _ _ _ _ Hkept Hy) as (x & sc & Hx & Ho & Hi & Hsc). apply list_elem_of_In, in_map_iff in Hx as (z & <- & Hz%list_elem_of_In). rewrite Hca in Hz.
    rewrite Hk2 in Ho. rewrite (others_same _ _ z) in Ho by done. by exists z, sc. }
  constructor; cbn [feedbackRanker candidatesList fullCandidatesListForCache nextItemsFromChildren visitedRecords listsHaveMoreRecordsInThem childRoundRobinOffset]; rewrite ?app_nil_r.
  - done.
  - by rewrite map_app, Hk, Hk', Hk2.
  - rewrite Hi'. apply Forall3_app; [by apply waits_clones|done].
  - by apply unread_app.
  - intros r Hrv Hc. unfold common in Hc. apply Forall_app in Hc as [Hc1 Hc2]. specialize (Hv r Hrv Hc1). apply elem_ids in Hv as (x & Hx & <-). rewrite <- Hca in Hx.
    apply (proj1 (kept_ids _ _ _ Hkept) (clone x)); [apply list_elem_of_In, in_map; by apply list_elem_of_In|]. rewrite Hk2. apply (others_common ks2 alls2); [done| |done].
    rewrite Forall_forall in Hkn. apply Hkn. apply list_elem_of_In, in_map. by apply list_elem_of_In.
  - apply Forall_forall. intros y Hy. destruct (Hin y Hy) as (x & sc & Hx & Ho & Hi & Hsc). rewrite Forall_forall in Hres. destruct (Hres x Hx) as [(Hxs & i & all & z & scores & Ha & Hf & Hc & Hs') Hxv].
    rewrite Hi. split; [|done]. pose proof (first_with_Some _ _ _ Hf) as [Hz Hzr]. pose proof (lookup_lt_Some _ _ _ Ha).
    assert (known (recordId x)) as Hkx by (by apply (first_known ks1 alls1 Hr1 i all z)).
    split; [unfold scored; rewrite Hsc; apply Hboost, and_score; constructor; [exact Hxs|by apply (others_scored ks2 alls2 x)]|].
    exists i, all, z, (scores ++ sc). split; [by apply lookup_app_l_Some|]. split; [by rewrite Hi|]. split.
    + rewrite collect_app by lia. rewrite Hc. assert (others ks2 z = Some sc) as ->; [|done]. rewrite <- Ho. by apply others_same.
    + intros Hord. rewrite Hsc, boosted_plain, Hs' by done. apply and_score_app. by apply (scores_of ks1 alls1 Hr1 i all z).
  - apply (proj2 (kept_ids _ _ _ Hkept)). unfold ids in *. rewrite map_map. cbn [MergeTopK.clone recordId]. change (fun x : item => recordId x) with recordId. by rewrite Hca.
  - intros Hmf. apply Exists_app. left. by apply Hm.
  - rewrite length_app. lia.
  - done.
Qed.
End TopK.

(** ** Another feedback *)

Definition with_ranker (ranker : option FeedbackRanker) (t : MergeTopK) : MergeTopK :=
  mk_topk ranker (candidatesList t) (fullCandidatesListForCache t) (nextItemsFromChildren t) (visitedRecords t) (listsHaveMoreRecordsInThem t) (childRoundRobinOffset t).

(** The entry of the cache does not hold the feedback. *)
Lemma close_with_ranker unset ranker t : (MergeTopK.close unset (with_ranker ranker t)).2 = (MergeTopK.close unset t).2.
Proof. done. Qed.

Lemma topk_ok_ranker {C K : Type} (next : C -> result (C * option item)) finished (k : C -> K) acc ordered ranker ranker' ks alls cs t ls pool done :
  topk_ok next finished k acc ordered ranker ks alls cs t ls pool done -> topk_ok next finished k acc ordered ranker' ks alls cs (with_ranker ranker' t) ls pool done.
Proof. intros [H1 H2 H3 H4 H5 H6 H7 H8 H9 H10]. by constructor. Qed.
End MergeTopKOrder.
