(* ===== verification/RankedPlan.v ===== *)
(** * A ranked plan over an index
    (core/operation/physical_plan/MergeTopKOperator.cpp,
    core/operation/physical_plan/UnionLowestLevelTermVirtualListOperator.cpp)

    The plan of a ranked query: the ranked conjunction over the term virtual lists of
    the terms.  Over an index whose two sides agree it delivers the records that match
    all terms, in whatever order the lists are and whatever the feedback boosts; and no
    record after a worse one, when there is no feedback, the inverted lists are in the
    order of the scores and the verification of a record does not score it above its
    list. *)
From S2P Require Import Prelude ForwardList ForwardSearch PlanOperators PlanStreams PlanScan PlanScores PlanIndex FloatOrder VirtualList VirtualListStream MergeTopK MergeTopKOrder.
From Stdlib Require Import ZArith Lia List Bool Sorted SpecFloat.
From stdpp Require Import base list sets.
Open Scope Z_scope.

Module RankedPlan.
Import ForwardSearch(entry, e_id, e_attributes, e_score, has_entries, proper).
Import PlanOperators PlanStreams PlanScan PlanScores PlanIndex FloatOrder VirtualList VirtualListStream MergeTopK MergeTopKOrder.

(** ** The plan *)

(** A term virtual list with its term. *)
Definition child : Type := Term * VirtualList.

Section Plan.
Context {I : Type} `{IndexReader I} (index : I).
Context (computeTermRecordRuntimeScore : Z -> Z -> Z -> bool -> float -> float -> float) (prefixMatchPenalty : float).
Context (heap : heap_algorithms) (unset : Z) (indeterminate : VerificationParameters).

Definition child_next (c : child) : result (child * option item) :=
  let? (v, r) := VirtualList.getNext index computeTermRecordRuntimeScore prefixMatchPenalty heap c.1 unset c.2 in Ok ((c.1, v), r).

Definition child_verify (r : Z) (c : child) (p : VerificationParameters) : result (bool * VerificationParameters) :=
  verifyByRandomAccessHelper index computeTermRecordRuntimeScore prefixMatchPenalty c.1 r p.

Fixpoint open_children (terms : list Term) : result (list child) :=
  match terms with
  | [] => Ok []
  | term :: terms =>
      let? v := VirtualList.open index computeTermRecordRuntimeScore prefixMatchPenalty heap term None empty_list in
      let? cs := open_children terms in
      Ok ((term, v) :: cs)
  end.

Definition empty_topk : MergeTopK := mk_topk None [] [] [] [] true 0.

(** The plan, opened with the feedback of its query; and as a stream. *)
Definition open_plan (ranker : option FeedbackRanker) (terms : list Term) : result (list child * MergeTopK) :=
  let? cs := open_children terms in open_fresh child_next ranker cs empty_topk.

(** Closes the children and opens them again with the entries that they leave. *)
Fixpoint reopen_children (cs : list child) : result (list child) :=
  match cs with
  | [] => Ok []
  | c :: cs =>
      let? v := VirtualList.open index computeTermRecordRuntimeScore prefixMatchPenalty heap c.1 (VirtualList.close true c.2).2 empty_list in
      let? cs := reopen_children cs in
      Ok ((c.1, v) :: cs)
  end.

(** The plan with more terms, opened with what a plan leaves in the cache. *)
Definition resume_plan (ranker : option FeedbackRanker) (s : list child * MergeTopK) (more : list Term) : result (list child * MergeTopK) :=
  let? cs := reopen_children s.1 in
  let? news := open_children more in
  open_cached child_next child_verify indeterminate unset ranker (cs ++ news) (MergeTopK.close unset s.2).2 empty_topk.
Definition plan_next (fuel : nat) : list child * MergeTopK -> result ((list child * MergeTopK) * option item) :=
  topk_next child_next child_verify indeterminate fuel.
End Plan.

(** ** What the verification of a term scores *)

Section Verification.
Context {I : Type} `{IndexReader I} (index : I).
Context (computeTermRecordRuntimeScore : Z -> Z -> Z -> bool -> float -> float -> float) (prefixMatchPenalty : float).

Definition active_score (term : Term) (a : active) (keyword staticScore : Z) : float :=
  computeTermRecordRuntimeScore staticScore (a_distance a) (keywordSize term) (negb (a_terminal a) || negb (a_minId a =? keyword)) prefixMatchPenalty
    (fmul (getSimilarityBoost term) (getBoost term)).

(** The score from the first range with a word of the record. *)
Fixpoint range_score (term : Term) (record : Z) (ranges : list active) : option float :=
  match ranges with
  | [] => None
  | a :: ranges =>
      match haveWordInRange index record (a_minId a) (upper term a) (getAttributesToFilter term) (getFilterAttrOperation term) with
      | Ok (Some (keyword, _, staticScore)) => Some (active_score term a keyword staticScore)
      | _ => range_score term record ranges
      end
  end.
Definition verified_score (term : Term) (record : Z) : option float := range_score term record (actives term).

Context (known : Z -> Prop) `{!IndexLaws index known}.

Lemma verify_score_run term record p : known record -> term_ok index known term ->
  exists p', verifyByRandomAccessHelper index computeTermRecordRuntimeScore prefixMatchPenalty term record p = Ok (accepted (verified_score term record), p') /\
    forall s, verified_score term record = Some s -> runTimeTermRecordScore p' = s.
Proof.
  intros Hk [_ Ha Hr Hflt]. unfold verifyByRandomAccessHelper, verified_score.
  assert (Forall (fun a => getTermType term = TERM_TYPE_COMPLETE -> a_terminal a = true) (actives term)) as Ha'.
  { destruct (getTermType term) eqn:E; try (apply Forall_forall; intros; congruence). eapply Forall_impl; [by apply Ha|done]. }
  clear Ha. revert Hr. induction Ha' as [|a ranges Ha _ IH]; cbn [verify_ranges range_score]; [intros _; by exists p|]. intros [Hr Hrs]%Forall_cons.
  assert (match getTermType term with TERM_TYPE_COMPLETE => negb (a_terminal a) | _ => false end = false) as ->
    by (destruct (getTermType term); try done; by rewrite Ha).
  fold (upper term a).
  destruct (range_reads record (a_minId a) (upper term a) (getAttributesToFilter term) (getFilterAttrOperation term) Hk ltac:(unfold upper; destruct (getTermType term); lia) Hflt) as [o ->]. cbn [rbind].
  destruct o as [[[w m] s]|]; [|by apply IH]. eexists. split; [reflexivity|]. by intros s' [= <-].
Qed.

Lemma verified_score_some term record : accepted (verified_score term record) = verified index term record.
Proof.
  unfold verified_score, verified. induction (actives term) as [|a ranges IH]; cbn [range_score existsb]; [done|]. unfold in_range at 1. fold (upper term a).
  destruct (haveWordInRange _ _ _ _ _ _) as [[[[w m] s]|]|]; cbn [orb accepted]; done.
Qed.
End Verification.

(** ** Over an index *)

#[export] Instance query_index_scores index es (Hok : index_ok index es) : HitScores index (known index).
Proof.
  constructor. intros r l o rs attributes op _ Hl Hr Hf Ho. destruct (io_lists _ _ Hok l rs Hl) as (w & Hw & _).
  destruct (offset_run index es Hok r l rs w Hl Hw Hr) as [[Ho' _]|(fl & i & e & Hfl & Hi & _ & Ho')]; cbn in Ho; rewrite Ho in Ho'; [done|]. injection Ho' as ->.
  destruct (io_entries _ _ Hok r fl Hfl) as (He & _ & Hp). exists (ForwardSearch.passes (positionIndexType index) attributes op (e_attributes e)), (e_score e).
  split; [intros _; rewrite Forall_lookup in Hp; by apply (Hp i)|]. intros matched.
  cbn [isValidTermPositionHit query_index_reader]. unfold isValidRecordTermHit. rewrite Hfl.
  destruct (valid_hit_any _ _ _ attributes op i e matched He Hp Hf Hi) as (m & ->). by exists m.
Qed.

Section Index.
Context (index : QueryIndex) (es : Z -> list entry) (Hok : index_ok index es).
Context (computeTermRecordRuntimeScore : Z -> Z -> Z -> bool -> float -> float -> float) (prefixMatchPenalty : float).

(** A term that the index can answer: its ranges of keywords are those of its leaf nodes,
    and it scores every stored score. *)
Record matching_term (term : Term) : Prop := {
  rt_ok : term_ok index (known index) term;
  rt_covered : covered index term;
  rt_few : Z.of_nat (length (leaves term)) < 2 ^ 31;
  rt_scores s d b : ForwardList.half_ge0 s = true -> score (runtime_score computeTermRecordRuntimeScore prefixMatchPenalty term s d b);
  rt_verified a w s : ForwardList.half_ge0 s = true -> score (active_score computeTermRecordRuntimeScore prefixMatchPenalty term a w s) }.

(** Its lists are in the order of the scores, and its leaf nodes score a keyword as well
    as any active node does. *)
Record ranked_term (term : Term) : Prop := {
  rt_matching : matching_term term;
  rt_order : Forall (fun x => in_order (leaf_items index computeTermRecordRuntimeScore prefixMatchPenalty term x)) (leaves term);
  rt_dominates a w l : a ∈ actives term -> a_minId a <= w <= upper term a -> keyword_of index l w ->
    exists x, x ∈ leaves term /\ l_list x = l /\
      forall s, ForwardList.half_ge0 s = true -> val (active_score computeTermRecordRuntimeScore prefixMatchPenalty term a w s) <=
        val (runtime_score computeTermRecordRuntimeScore prefixMatchPenalty term s (l_distance x) (leaf_prefix_match term x)) }.

(** What is said of the order assumes that there is no feedback. *)
Context (ordered : Prop).
Definition usable_term (term : Term) : Prop := matching_term term /\ (ordered -> ranked_term term).
Definition boosts (ranker : option FeedbackRanker) : Prop :=
  match ranker with Some rk => forall r, factor (getFeedbackBoostForRecord rk r) | None => True end.
Lemma boosts_score ranker : boosts ranker -> forall r s, score s -> score (boosted ranker r s).
Proof. unfold boosts, boosted. destruct ranker as [rk|]; [|done]. intros Hb r s Hs. by apply fmul_score. Qed.

Local Abbreviation leaf_items := (leaf_items index computeTermRecordRuntimeScore prefixMatchPenalty).

(** ** The records of a virtual list *)

Lemma shown_ids out : map recordId out = map (fun p => p.1.1.1.1) (map shown out).
Proof. by rewrite map_map. Qed.

Lemma leaf_ids term x rs : map (fun p => p.1.1.1.1) (map (leaf_item computeTermRecordRuntimeScore prefixMatchPenalty term x) (hits index term (l_list x) rs)) =
  List.filter (has_hit index term (l_list x)) rs.
Proof.
  induction rs as [|r rs IH]; [done|]. unfold hits. cbn [omap list_omap List.filter]. unfold has_hit at 1, hit_at at 1.
  destruct (getKeywordOffset _ _ _) as [[o|]|]; try exact IH. destruct (isValidTermPositionHit _ _ _ _ _ _) as [[[[] m] s]|]; try exact IH. cbn [map]. f_equal. exact IH.
Qed.

Lemma list_ids term : map (fun p => p.1.1.1.1) (flat_map (leaf_items term) (leaves term)) = scanned index term.
Proof.
  unfold scanned, entries. induction (leaves term) as [|x ls IH]; [done|]. cbn [flat_map]. rewrite map_app, List.filter_app, map_app, <- IH. f_equal.
  unfold VirtualListStream.leaf_items, leaf_hits. rewrite leaf_ids. clear. induction (records_of index x) as [|r rs IH]; [done|]. cbn [map List.filter]. unfold is_answer at 1. cbn [fst snd].
  destruct (has_hit index term (l_list x) r); cbn [map snd]; by rewrite IH.
Qed.

Lemma entry_unique r e e' : is_valid index r = true -> e ∈ es r -> e' ∈ es r -> e_id e = e_id e' -> e = e'.
Proof.
  intros Hv He He' E. destruct (valid_list index r Hv) as (fl & Hfl). destruct (io_entries _ _ Hok r fl Hfl) as (_ & Hs & _). clear -Hs He He' E.
  induction (es r) as [|z l IH]; [by apply elem_of_nil in He|]. cbn [map] in Hs. apply StronglySorted_inv in Hs as [Hs Hz]. rewrite List.Forall_forall in Hz.
  assert (forall y, y ∈ l -> e_id z < e_id y) as Hlt by (intros y Hy; apply Hz, in_map; by apply list_elem_of_In).
  apply elem_of_cons in He as [->|He]; apply elem_of_cons in He' as [->|He']; [done|specialize (Hlt _ He'); lia|specialize (Hlt _ He); lia|by apply IH].
Qed.

(** The hit of a record for a keyword has its static score. *)
Lemma hit_at_run term l rs r e : list_of index l rs -> keyword_of index l (e_id e) -> r ∈ rs -> term_ok index (known index) term -> is_valid index r = true -> e ∈ es r ->
  passes_filter index term e = true -> exists o m, hit_at index term l r = Some (r, o, m, e_score e).
Proof.
  intros Hl Hw Hr Ht Hv He Hp. destruct (offset_run index es Hok r l rs (e_id e) Hl Hw Hr) as [[_ Hv']|(fl & i & e' & Hfl & Hi & Hid & Ho)]; [congruence|].
  assert (e' = e) as -> by (apply (entry_unique r); try done; by eapply list_elem_of_lookup_2).
  unfold hit_at. cbn [getKeywordOffset isValidTermPositionHit query_index_reader]. rewrite Ho. unfold isValidRecordTermHit. rewrite Hfl.
  destruct (io_entries _ _ Hok r fl Hfl) as (Hes & _ & Hpr). destruct (valid_hit_any _ _ _ (getAttributesToFilter term) (getFilterAttrOperation term) i e [] Hes Hpr (to_filter _ _ _ Ht) Hi) as (m & ->).
  unfold passes_filter in Hp. rewrite Hp. by exists (Z.of_nat i), m.
Qed.

(** What the verification of a record scores: the keyword of one of its entries. *)
Lemma range_score_run term r s : known index r -> term_ok index (known index) term -> verified_score index computeTermRecordRuntimeScore prefixMatchPenalty term r = Some s ->
  is_valid index r = true /\ exists a e, a ∈ actives term /\ e ∈ es r /\ a_minId a <= e_id e <= upper term a /\ passes_filter index term e = true /\
    s = active_score computeTermRecordRuntimeScore prefixMatchPenalty term a (e_id e) (e_score e).
Proof.
  intros [_ Hk] [_ _ Hr [Hs Hand]]. unfold verified_score. assert (forall a, a ∈ actives term -> a ∈ actives term) as Hsub by done. revert Hr Hsub. generalize (actives term) at 1 2 4. intros ranges.
  induction ranges as [|a ranges IH]; cbn [range_score]; [done|]. intros [Har Hr]%Forall_cons Hsub. cbn [haveWordInRange query_index_reader]. unfold ForwardIndex_haveWordInRange.
  assert (a_minId a <= upper term a) as Hle by (unfold upper; destruct (getTermType term); lia).
  rewrite (proj2 (Z.leb_le _ _) Hle), (proj2 (Z.ltb_lt _ _) Hk). cbn [negb].
  assert (forall b, b ∈ ranges -> b ∈ actives term) as Hsub' by (intros b Hb; apply Hsub; by right). specialize (IH Hr Hsub').
  destruct (is_valid index r) eqn:E.
  - destruct (valid_list index r E) as (fl & Hfl). rewrite Hfl. destruct (io_entries _ _ Hok r fl Hfl) as (He & Hsort & Hp).
    destruct (ForwardSearch.range_run _ fl (es r) (getAttributesToFilter term) (getFilterAttrOperation term) He Hp Hs Hand (a_minId a) (upper term a) Hsort) as [-> _].
    destruct (List.find _ (es r)) as [e|] eqn:Ef; cbn [option_map]; [|exact IH]. apply List.find_some in Ef as [Hin Ha]. apply andb_true_iff in Ha as [Ha1 Ha2].
    unfold ForwardSearch.in_range in Ha1. apply andb_true_iff in Ha1 as [Ha3%Z.leb_le Ha4%Z.leb_le]. unfold ForwardSearch.hit. intros [= <-]. split; [done|].
    exists a, e. split; [apply Hsub; by left|]. split; [by apply list_elem_of_In|]. done.
  - destruct (invalid_list index r E) as (o & ->). destruct o; exact IH.
Qed.

(** ** The ranked conjunction *)

Context (heap : heap_algorithms) (is_heap : (HeapItem -> HeapItem -> bool) -> list HeapItem -> Prop) (Hheap : heap_laws heap is_heap).
Context (unset : Z) (indeterminate : VerificationParameters).
Local Abbreviation child_next := (child_next index computeTermRecordRuntimeScore prefixMatchPenalty heap unset).
Local Abbreviation verified_score := (verified_score index computeTermRecordRuntimeScore prefixMatchPenalty).

Definition child_finished (c : child) : Prop := read_out c.2.

Lemma child_stays : stays_finished child_next child_finished.
Proof.
  intros [term v] Hf. destruct (read_out_stays index computeTermRecordRuntimeScore prefixMatchPenalty heap term unset v Hf) as (v' & Hn & Hf').
  exists (term, v'). split; [|done]. unfold RankedPlan.child_next. cbn [fst snd]. by rewrite Hn.
Qed.

(** What a child keeps while it is read: its term and the lists. *)
Definition child_key (c : child) : Term * list (list Z) := (c.1, invertedListReadViewVector c.2).
Definition key_score (key : Term * list (list Z)) (r : Z) : option float := verified_score key.1 r.

Lemma child_keeps c c' r : child_next c = Ok (c', r) -> child_key c' = child_key c.
Proof. intros Hn. apply rbind_Ok in Hn as ([v r'] & Hn%next_keeps_lists & [= <- _]). unfold child_key. cbn [fst snd]. by rewrite Hn. Qed.

Lemma child_streams term v out : streams (VirtualList.getNext index computeTermRecordRuntimeScore prefixMatchPenalty heap term unset) read_out v out ->
  streams child_next child_finished (term, v) out.
Proof.
  revert v. induction out as [|x out IH]; intros v; [done|]. intros (v' & Hn & Hs). exists (term, v'). split; [|by apply IH]. unfold RankedPlan.child_next. cbn [fst snd]. by rewrite Hn.
Qed.

Lemma valid_known r : is_valid index r = true -> known index r.
Proof. intros (fl & Hfl)%valid_list. unfold getForwardList in Hfl. destruct (vec_at _ r) as [[fl' b]|] eqn:E; [|done]. apply vec_at_nth in E as [Hr E]. apply lookup_lt_Some in E. unfold known. lia. Qed.

Lemma scanned_iff term r : term_ok index (known index) term -> covered index term -> r ∈ scanned index term <-> matches_term index es term r = true.
Proof.
  intros Ht Hc. destruct (decide (known index r)) as [Hk|Hk].
  - rewrite <- (scanned_matches index es Hok term r Hk Ht Hc), existsb_exists. setoid_rewrite Z.eqb_eq. rewrite list_elem_of_In. naive_solver.
  - split.
    + intros Hr. exfalso. apply Hk. apply list_elem_of_In, in_map_iff in Hr as ([x r'] & <- & Hr). cbn [snd] in *. apply filter_In in Hr as [Hr _]. apply in_flat_map in Hr as (y & Hy & Hr).
      apply in_map_iff in Hr as (r2 & [= <- <-] & Hr). pose proof (to_lists _ _ _ Ht) as Hl. rewrite List.Forall_forall in Hl. destruct (Hl y Hy) as (rs & Hrs & Hkn). unfold records_of in Hr. rewrite Hrs in Hr.
      rewrite List.Forall_forall in Hkn. by apply Hkn.
    + intros Hm. unfold matches_term in Hm. apply andb_true_iff in Hm as [Hv _]. by destruct (Hk (valid_known r Hv)).
Qed.

(** A term delivers the records that match it, as its verification expects. *)
Lemma term_run term : usable_term term -> exists v out, VirtualList.open index computeTermRecordRuntimeScore prefixMatchPenalty heap term None empty_list = Ok v /\
  streams child_next child_finished (term, v) out /\ ranks (known index) verified_score ordered term out /\ Permutation (ids out) (scanned index term).
Proof.
  intros [Hrt Hord0]. pose proof (query_index_laws index es Hok) as Hlaws. pose proof (query_index_scores index es Hok) as Hscores. pose proof (rt_ok _ Hrt) as Ht.
  destruct (virtual_list_run index (known index) computeTermRecordRuntimeScore prefixMatchPenalty heap is_heap Hheap term unset Ht (rt_scores _ Hrt) (rt_few _ Hrt)) as (v & out & Ho & Hs & Hp & Hord).
  exists v, out. split; [done|]. split; [by apply child_streams|].
  assert (Permutation (ids out) (scanned index term)) as Hids by (unfold ids; by rewrite shown_ids, Hp, list_ids).
  split; [|done]. assert (forall r, r ∈ ids out <-> matches_term index es term r = true) as Hmem by (intros r; rewrite Hids; by apply scanned_iff; [apply Ht|apply (rt_covered _ Hrt)]).
  constructor.
  - apply Forall_forall. intros x Hx. assert (shown x ∈ map shown out) as Hin by (apply list_elem_of_In, in_map; by apply list_elem_of_In).
    rewrite Hp in Hin. apply list_elem_of_In, in_flat_map in Hin as (y & Hy & Hin). apply in_map_iff in Hin as ([[[r o] m] s] & E & Hit). unfold scored.
    assert (ForwardList.half_ge0 s = true) as Hge.
    { pose proof (to_lists _ _ _ Ht) as Hl. rewrite List.Forall_forall in Hl. destruct (Hl y Hy) as (rs & Hrs & Hkn). unfold leaf_hits, records_of in Hit. rewrite Hrs in Hit.
      assert (in_list index (known index) (l_list y) rs) as Hil by (exists rs; split; [done|]; rewrite Forall_forall in Hkn |- *; auto).
      pose proof (hits_proper index (known index) term Ht _ _ Hil) as Hpr. rewrite List.Forall_forall in Hpr. by apply (Hpr _ Hit). } unfold shown, leaf_item in E. injection E as _ E _ _ _.
    rewrite <- E. by apply (rt_scores _ Hrt).
  - apply Forall_forall. intros x Hx%elem_ids_intro%Hmem. unfold matches_term in Hx. apply andb_true_iff in Hx as [Hv _]. by apply valid_known.
  - intros Ho2. apply Hord, (rt_order _ (Hord0 Ho2)).
  - intros r Hk. rewrite Hmem, verified_score_some. by rewrite (verified_matches index es Hok term r Hk Ht).
  - intros r s Hk Hsc. destruct (range_score_run term r s Hk Ht Hsc) as (Hv & a & e & Ha & He & Hrange & Hpass & ->).
    assert (ForwardList.half_ge0 (e_score e) = true) as Hge.
    { destruct (valid_list index r Hv) as (fl & Hfl). destruct (io_entries _ _ Hok r fl Hfl) as (_ & _ & Hpr). rewrite Forall_forall in Hpr. by apply (Hpr e He). }
    split; [by apply (rt_verified _ Hrt)|]. intros Ho2. destruct (io_complete _ _ Hok r e Hv He) as (l & rs & Hl & Hw & Hr). destruct (rt_dominates _ (Hord0 Ho2) a (e_id e) l Ha Hrange Hw) as (x & Hx & <- & Hdom).
    destruct (hit_at_run term _ rs r e Hl Hw Hr Ht Hv He Hpass) as (o & m & Hhit).
    assert (leaf_item computeTermRecordRuntimeScore prefixMatchPenalty term x (r, o, m, e_score e) ∈ map shown out) as Hin.
    { rewrite Hp. apply list_elem_of_In, in_flat_map. exists x. split; [by apply list_elem_of_In|]. apply in_map. unfold leaf_hits. unfold records_of. unfold list_of in Hl. rewrite Hl.
      apply list_elem_of_In, list_elem_of_omap. by exists r. }
    apply list_elem_of_In, in_map_iff in Hin as (z & Ez & Hz). exists z. split; [by apply list_elem_of_In|]. unfold shown, leaf_item in Ez. injection Ez as Ez1 Ez2 _ _ _. split; [done|].
    unfold s_val. rewrite Ez2. by apply Hdom.
Qed.

Local Abbreviation open_children := (open_children index computeTermRecordRuntimeScore prefixMatchPenalty heap).
Local Abbreviation plan_next := (plan_next index computeTermRecordRuntimeScore prefixMatchPenalty heap unset indeterminate).
Local Abbreviation child_verify := (child_verify index computeTermRecordRuntimeScore prefixMatchPenalty).

(** The children can be opened again in any state with the same lists. *)
Definition reopens (cs : list child) : Prop :=
  Forall (fun c => forall v, invertedListReadViewVector v = invertedListReadViewVector c.2 ->
    VirtualList.open index computeTermRecordRuntimeScore prefixMatchPenalty heap c.1 (VirtualList.close true v).2 empty_list = Ok v) cs.

Lemma ranks_key term lists out : ranks (known index) verified_score ordered term out -> ranks (known index) key_score ordered (term, lists) out.
Proof. by intros [H1 H2 H3 H4 H5]. Qed.

Lemma open_children_run terms : Forall usable_term terms -> exists cs outs, open_children terms = Ok cs /\
  map fst cs = terms /\ Forall2 (streams child_next child_finished) cs outs /\ Forall2 (ranks (known index) key_score ordered) (map child_key cs) outs /\
  Forall2 (fun term out => Permutation (ids out) (scanned index term)) terms outs /\ reopens cs.
Proof.
  induction 1 as [|term terms Hrt _ (cs & outs & Ho & Hk & Hs & Hr & Hids & Hre)]; cbn [RankedPlan.open_children]; [exists [], []; repeat constructor|].
  destruct (term_run term Hrt) as (v & out & Hv & Hs' & Hr' & Hids'). rewrite Hv. cbn [rbind]. rewrite Ho. cbn [rbind]. exists ((term, v) :: cs), (out :: outs). split; [done|].
  split; [cbn [map fst]; by rewrite Hk|]. split; [by constructor|]. cbn [map]. split; [constructor; [by apply ranks_key|done]|]. split; [by constructor|]. constructor; [|exact Hre].
  intros w Hw. by apply (resumed_run _ _ _ _ _ v).
Qed.

Lemma reopen_run cs0 : reopens cs0 -> forall cs, map child_key cs = map child_key cs0 -> reopen_children index computeTermRecordRuntimeScore prefixMatchPenalty heap cs = Ok cs.
Proof.
  induction 1 as [|[term v0] cs0 Hc _ IH]; intros [|[term' v] cs] Hk; try done. cbn [map] in Hk. injection Hk as Ht Hl Hk. cbn [fst snd] in Ht, Hl. subst term'. cbn [reopen_children fst snd].
  cbn [fst snd] in Hc. rewrite (Hc v Hl). cbn [rbind]. by rewrite (IH cs Hk).
Qed.

Lemma child_verified c r p : term_ok index (known index) (child_key c).1 -> known index r ->
  exists p', child_verify r c p = Ok (accepted (key_score (child_key c) r), p') /\ forall s, key_score (child_key c) r = Some s -> runTimeTermRecordScore p' = s.
Proof. pose proof (query_index_laws index es Hok). intros Hg Hk. by apply (verify_score_run index _ _ (known index)). Qed.

Lemma keys_ok cs terms : Forall usable_term terms -> map fst cs = terms -> Forall (fun key : Term * list (list Z) => term_ok index (known index) key.1) (map child_key cs).
Proof.
  intros Hts Hk. subst terms. induction cs as [|c cs IH]; cbn [map] in *; constructor; apply Forall_cons in Hts as [[Ht _] Hts]; [apply (rt_ok _ Ht)|by apply IH].
Qed.

Lemma total_scanned terms outs : Forall2 (fun term out => Permutation (ids out) (scanned index term)) terms outs ->
  total outs = list_sum (map (fun term => length (scanned index term)) terms).
Proof.
  induction 1 as [|term out terms outs Hp _ IH]; [done|]. rewrite total_cons. cbn [map list_sum fold_right]. rewrite IH. f_equal. rewrite <- (Permutation_length Hp). unfold ids. by rewrite length_map.
Qed.

Lemma common_matches terms outs r : Forall usable_term terms -> Forall2 (fun term out => Permutation (ids out) (scanned index term)) terms outs ->
  common outs r <-> Forall (fun term => matches_term index es term r = true) terms.
Proof.
  intros Hts Hids. unfold common. induction Hids as [|term out terms outs Hp _ IH]; [by split|]. apply Forall_cons in Hts as [[Ht _] Hts]. rewrite !Forall_cons, Hp, IH by done.
  by rewrite (scanned_iff term r (rt_ok _ Ht) (rt_covered _ Ht)).
Qed.

Definition size_of (terms : list Term) : nat := list_sum (map (fun term => length (scanned index term)) terms).

(** The plan delivers the records that match all terms; an ordered one in the order of
    the scores. *)
Lemma ranked_plan_run fuel ranker terms : terms <> [] -> Forall usable_term terms -> boosts ranker -> (ordered -> ranker = None) -> (size_of terms < fuel)%nat ->
  exists s out, open_plan index computeTermRecordRuntimeScore prefixMatchPenalty heap unset ranker terms = Ok s /\
    delivers (plan_next fuel) s out /\ NoDup (ids out) /\ (forall r, r ∈ ids out <-> Forall (fun term => matches_term index es term r = true) terms) /\ (ordered -> by_score out).
Proof.
  intros Hne Hts Hb Hpl Hf. destruct (open_children_run terms Hts) as (cs & outs & Ho & Hk & Hs & Hr & Hids & _).
  destruct (topk_delivers child_next child_finished child_stays child_key child_keeps child_verify indeterminate (known index) (fun key => term_ok index (known index) key.1) key_score child_verified
    ordered ranker Hpl (boosts_score ranker Hb) (map child_key cs) outs Hr (keys_ok cs terms Hts Hk)) with (fuel := fuel) (cs := cs) (t := empty_topk)
    as (cs' & t' & out & Hop & Hd & Hnd & Hin & Hord); try done; [intros E; apply map_eq_nil in E; subst cs; done|rewrite (total_scanned _ _ Hids); exact Hf|].
  exists (cs', t'), out. split; [unfold open_plan; rewrite Ho; exact Hop|]. split; [exact Hd|]. split; [done|]. split; [|done]. intros r. by rewrite Hin, (common_matches terms).
Qed.

(** What a plan leaves in the cache is enough to go on with more terms. *)
Lemma resumed_plan_run fuel ranker ranker' terms more s0 s : terms <> [] -> more <> [] -> Forall usable_term terms -> Forall usable_term more -> (size_of terms + size_of more < fuel)%nat ->
  boosts ranker -> boosts ranker' -> (ordered -> ranker = None) -> (ordered -> ranker' = None) ->
  open_plan index computeTermRecordRuntimeScore prefixMatchPenalty heap unset ranker terms = Ok s0 -> reached child_next child_verify indeterminate fuel s0 s ->
  exists s1 out, resume_plan index computeTermRecordRuntimeScore prefixMatchPenalty heap unset indeterminate ranker' s more = Ok s1 /\
    delivers (plan_next fuel) s1 out /\ NoDup (ids out) /\ (forall r, r ∈ ids out <-> Forall (fun term => matches_term index es term r = true) (terms ++ more)) /\ (ordered -> by_score out).
Proof.
  intros Hne Hne2 Hts Hms Hf Hb Hb' Hpl Hpl' Hopen Hreach. destruct (open_children_run terms Hts) as (cs & outs & Ho & Hk & Hs & Hr & Hids & Hre). destruct (open_children_run more Hms) as (news & outs2 & Ho2 & Hk2 & Hs2 & Hr2 & Hids2 & _).
  pose proof (total_scanned _ _ Hids) as Htot. pose proof (total_scanned _ _ Hids2) as Htot2. fold (size_of terms) in Htot. fold (size_of more) in Htot2.
  assert (map child_key cs <> []) as Hks by (intros E; apply map_eq_nil in E; subst cs; done). assert (map child_key news <> []) as Hks2 by (intros E; apply map_eq_nil in E; subst news; done).
  pose proof (keys_ok cs terms Hts Hk) as Hg. pose proof (keys_ok news more Hms Hk2) as Hg2. unfold open_plan in Hopen. rewrite Ho in Hopen. cbn [rbind] in Hopen.
  destruct (open_fresh_run child_next child_finished child_stays child_key child_keeps key_score ordered ranker (map child_key cs) outs Hks cs empty_topk Hs eq_refl eq_refl) as (cs1 & t1 & Hop & Hc1 & Hok1).
  rewrite Hop in Hopen. injection Hopen as <-.
  assert (length cs1 = length (map child_key cs)) as Hlen1 by (rewrite <- (tk_keys _ _ _ _ _ _ _ _ _ _ _ _ _ Hok1); by rewrite length_map).
  assert (topk_ok child_next child_finished child_key key_score ordered ranker (map child_key cs) outs cs1 t1 outs (candidatesList t1) []) as Hok1' by (by rewrite Hc1).
  destruct (reached_ok child_next child_finished child_stays child_key child_keeps child_verify indeterminate (known index) _ key_score child_verified ordered ranker Hpl (boosts_score ranker Hb)
    (map child_key cs) outs Hr Hg fuel _ s Hreach outs [] Hok1' Hlen1 ltac:(lia)) as (ls & done & Hok2 & Hlen2 & Htot3).
  destruct (open_cached_run child_next child_finished child_stays child_key child_keeps child_verify indeterminate unset (known index) _ key_score child_verified ordered ranker' Hpl' (boosts_score ranker' Hb')
    (map child_key cs) outs (map child_key news) outs2 s.1 (with_ranker ranker' s.2) ls (candidatesList s.2) done news empty_topk Hr Hr2 Hg2 Hks2 (topk_ok_ranker _ _ _ _ _ _ ranker' _ _ _ _ _ _ _ Hok2) Hs2 eq_refl
    eq_refl eq_refl eq_refl) as (cs3 & t3 & Hop3 & Hok3).
  assert (length cs3 = length (map child_key cs ++ map child_key news)) as Hlen3 by (rewrite <- (tk_keys _ _ _ _ _ _ _ _ _ _ _ _ _ Hok3); by rewrite length_map).
  destruct (topk_run child_next child_finished child_stays child_key child_keeps child_verify indeterminate (known index) (fun key => term_ok index (known index) key.1) key_score child_verified
    ordered ranker' Hpl' (boosts_score ranker' Hb') (map child_key cs ++ map child_key news) (outs ++ outs2)) with (fuel := fuel) (cs := cs3) (t := t3) (ls := ls ++ outs2) (done := @nil item)
    (n := (total (ls ++ outs2) + length (candidatesList t3))%nat)
    as (out & Hd & Hnd & Hin & _ & Hord); try done; [by apply Forall2_app|by apply Forall_app|by destruct (map child_key cs)|rewrite total_app; lia|].
  rewrite app_nil_r in Hnd, Hin. exists (cs3, t3), out. split; [|split; [exact Hd|split; [done|split; [|intros H0; by apply Hord]]]].
  - unfold resume_plan. rewrite (reopen_run cs Hre s.1) by apply (tk_keys _ _ _ _ _ _ _ _ _ _ _ _ _ Hok2). cbn [rbind]. rewrite Ho2. rewrite close_with_ranker in Hop3. exact Hop3.
  - intros r. rewrite Hin. unfold common. rewrite !Forall_app. rewrite <- (common_matches terms outs r Hts Hids), <- (common_matches more outs2 r Hms Hids2). done.
Qed.
End Index.

End RankedPlan.
