(* ===== verification/RankedSearch.v ===== *)
(** * Ranked search (core/operation/physical_plan/)

    The properties of ranked plans, over small indexes as examples. *)
From S2P Require Import Prelude ForwardList ForwardSearch PlanOperators PlanStreams PlanScan PlanScores PlanIndex PlanSearch FloatOrder VirtualList VirtualListStream MergeTopK MergeTopKOrder RankedPlan.
From Stdlib Require Import ZArith Lia List Bool Sorted SpecFloat.
From stdpp Require Import base list sets.
Open Scope Z_scope.

Module RankedSearch.
Import ForwardSearch(entry, mk_entry, e_id).
Import PlanOperators PlanStreams PlanScan PlanScores PlanIndex FloatOrder VirtualList VirtualListStream MergeTopK MergeTopKOrder RankedPlan.

(** ** A heap *)

(** Descending lists are heaps. *)
Fixpoint ex_insert (cmp : HeapItem -> HeapItem -> bool) (x : HeapItem) (l : list HeapItem) : list HeapItem :=
  match l with
  | [] => [x]
  | y :: l' => if cmp x y then y :: ex_insert cmp x l' else x :: l
  end.
Definition ex_sort (cmp : HeapItem -> HeapItem -> bool) (l : list HeapItem) : list HeapItem := fold_right (ex_insert cmp) [] l.
Definition ex_heap : heap_algorithms := mk_heap ex_sort ex_sort (fun _ l => match l with [] => [] | x :: l => l ++ [x] end).
Definition ex_is_heap (cmp : HeapItem -> HeapItem -> bool) (l : list HeapItem) : Prop := StronglySorted (fun x y => cmp x y = false) l.

Lemma ex_insert_perm cmp x l : Permutation (ex_insert cmp x l) (x :: l).
Proof. induction l as [|y l IH]; cbn [ex_insert]; [done|]. destruct (cmp x y); [|done]. rewrite IH. apply perm_swap. Qed.

Lemma ex_sort_perm cmp l : Permutation (ex_sort cmp l) l.
Proof. induction l as [|x l IH]; cbn [ex_sort fold_right]; [done|]. by rewrite ex_insert_perm, IH. Qed.

Lemma strict_weak_sub {A} (cmp : A -> A -> bool) l l' : (forall x, x ∈ l' -> x ∈ l) -> strict_weak cmp l -> strict_weak cmp l'.
Proof. intros Hs [H1 H2 H3]. constructor; eauto. Qed.

Lemma ex_insert_sorted cmp x l : strict_weak cmp (x :: l) -> ex_is_heap cmp l -> ex_is_heap cmp (ex_insert cmp x l).
Proof.
  unfold ex_is_heap. induction l as [|y l IH]; intros Hw Hs; cbn [ex_insert]; [by repeat constructor|]. apply StronglySorted_inv in Hs as [Hs Hy]. destruct (cmp x y) eqn:E.
  - constructor; [apply IH; [|done]; eapply strict_weak_sub; [|exact Hw]; set_solver|]. rewrite ex_insert_perm. constructor; [|exact Hy].
    apply not_true_iff_false. intros E'. pose proof (sw_trans _ _ Hw x y x ltac:(set_solver) ltac:(set_solver) ltac:(set_solver) E E') as Ht.
    rewrite (sw_irrefl _ _ Hw x ltac:(set_solver)) in Ht. done.
  - constructor; [by constructor|]. constructor; [done|]. apply Forall_forall. intros z Hz. rewrite List.Forall_forall in Hy.
    apply (sw_ntrans _ _ Hw x y z); [set_solver..|done|]. by apply Hy, list_elem_of_In.
Qed.

Lemma ex_sort_sorted cmp l : strict_weak cmp l -> ex_is_heap cmp (ex_sort cmp l).
Proof.
  induction l as [|x l IH]; intros Hw; cbn [ex_sort fold_right]; [constructor|]. apply ex_insert_sorted.
  - eapply strict_weak_sub; [|exact Hw]. intros z. change (fold_right (ex_insert cmp) [] l) with (ex_sort cmp l). by rewrite ex_sort_perm.
  - apply IH. eapply strict_weak_sub; [|exact Hw]. set_solver.
Qed.

Lemma ex_heap_laws : heap_laws ex_heap ex_is_heap.
Proof.
  constructor; cbn [ex_heap make_heap push_heap VirtualList.pop_heap].
  - constructor.
  - intros cmp x l _ Hs. by apply StronglySorted_inv in Hs as [_ Hs].
  - intros cmp l Hw. split; [apply ex_sort_perm|by apply ex_sort_sorted].
  - intros cmp x l _ Hs. exists l. apply StronglySorted_inv in Hs as [Hs _]. done.
  - intros cmp l x Hw _. split; [apply ex_sort_perm|by apply ex_sort_sorted].
Qed.

(** ** A small index *)

(** The value of a positive normal half, and nothing for the others. *)
Definition half_value (h : Z) : float :=
  if (1024 <=? h) && (h <? 31744) then S754_finite false (Z.to_pos ((1024 + h mod 1024) * 8192)) (h / 1024 - 38) else f_zero.

Lemma half_score h : score (half_value h).
Proof.
  unfold half_value. destruct (Z.leb_spec 1024 h), (Z.ltb_spec h 31744); cbn [andb]; try done. split; [done|]. cbn [valid_binary]. unfold SpecFloat.bounded, canonical_mantissa, fexp, emin.
  pose proof (Z.mod_pos_bound h 1024 ltac:(lia)) as Hm. rewrite digits2_digits, Z2Pos.id by lia.
  assert (digits ((1024 + h mod 1024) * 8192) = 24) as ->.
  { unfold digits. rewrite (proj2 (Z.eqb_neq _ 0)) by lia. rewrite (Z.log2_unique _ 23); lia. }
  assert (1 <= h / 1024 < 31) by (split; [apply Z.div_le_lower_bound; lia|apply Z.div_lt_upper_bound; lia]).
  apply andb_true_iff. split; [apply Z.eqb_eq|apply Z.leb_le]; lia.
Qed.

(** Two records: the keyword 5 scores 8 and 7, the keyword 7 scores 4 and 4.25; the
    lists are in these orders. *)
Definition ex_high : ForwardList.ForwardList := ForwardList.mk_fl 2 [] [] [5; 0; 0; 0; 7; 0; 0; 0; 0; 0; 0; 0; 0; 72; 0; 68] 0 0 16 0 0 0.
Definition ex_low : ForwardList.ForwardList := ForwardList.mk_fl 2 [] [] [5; 0; 0; 0; 7; 0; 0; 0; 0; 0; 0; 0; 0; 71; 64; 68] 0 0 16 0 0 0.
Definition ex_ranked_index : QueryIndex :=
  mk_index ForwardList.POSITION_INDEX_NONE [(ex_high, true); (ex_low, true)] [[0; 1]; [1; 0]] [5; 7].
Definition ex_ranked_es (r : Z) : list entry :=
  if r =? 0 then [mk_entry 5 [1] 18432; mk_entry 7 [1] 17408] else [mk_entry 5 [1] 18176; mk_entry 7 [1] 17472].

(** A word of the query that is a keyword of the index. *)
Definition ex_term (keyword list : Z) (boost : float) : Term :=
  mk_term TERM_TYPE_COMPLETE 1 f_one boost [mk_leaf keyword keyword 0 list] [mk_active keyword 0 keyword keyword true] [] ForwardList.ATTRIBUTES_OP_OR.
Definition ex_first : Term := ex_term 5 0 f_one.
Definition ex_second : Term := ex_term 7 1 f_one.

(** A match of the whole keyword without an edit scores its static score, whatever the
    boost; the others score [other]. *)
Definition exact_score (other : Z -> Z -> Z -> bool -> float -> float -> float) (s d n : Z) (b : bool) (p x : float) : float :=
  if (d =? 0) && negb b then half_value s else other s d n b p x.
Definition ex_compute : Z -> Z -> Z -> bool -> float -> float -> float := exact_score (fun _ _ _ _ _ _ => f_zero).

Lemma ex_compute_score s d n b p x : score (ex_compute s d n b p x).
Proof. unfold ex_compute, exact_score. destruct (_ && _); [apply half_score|done]. Qed.

Lemma ex_ranked_record r fl : getForwardList ex_ranked_index r = (Some fl, true) -> r = 0 /\ fl = ex_high \/ r = 1 /\ fl = ex_low.
Proof.
  unfold getForwardList. destruct (vec_at _ r) as [[fl' b]|] eqn:E; [|done]. intros [= -> ->]. apply vec_at_nth in E as [Hr E]. cbn [ex_ranked_index forwardListDirectory] in E.
  destruct (Z.to_nat r) as [|[|n]] eqn:Er; cbn in E; try done; injection E as <-; [left|right]; split; (done || lia).
Qed.

Lemma ex_ranked_list l rs : list_of ex_ranked_index l rs -> l = 0 /\ rs = [0; 1] \/ l = 1 /\ rs = [1; 0].
Proof.
  unfold list_of. cbn [getInvertedListReadView query_index_reader]. unfold InvertedIndex_getInvertedListReadView. destruct (negb _); [done|].
  intros [Hl E]%vec_at_nth. cbn [ex_ranked_index invertedIndex] in E. destruct (Z.to_nat l) as [|[|n]] eqn:El; cbn in E; try done; injection E as <-; [left|right]; split; (done || lia).
Qed.

Lemma ex_ranked_keyword l w : keyword_of ex_ranked_index l w -> l = 0 /\ w = 5 \/ l = 1 /\ w = 7.
Proof.
  intros [Hl E]%vec_at_nth. cbn [ex_ranked_index keywordIds] in E. destruct (Z.to_nat l) as [|[|n]] eqn:El; cbn in E; try done; injection E as <-; [left|right]; split; (done || lia).
Qed.

Lemma ex_ranked_ok : index_ok ex_ranked_index ex_ranked_es.
Proof.
  constructor.
  - intros r fl [[-> ->]|[-> ->]]%ex_ranked_record; (split; [|split; [repeat constructor|repeat constructor; discriminate]]); constructor; try done.
    + split; [reflexivity|]. intros [|[|i]] x Hx; cbn in Hx; try discriminate; injection Hx as <-; reflexivity.
    + intros [|[|i]] x Hx; cbn in Hx; try discriminate; injection Hx as <-; reflexivity.
    + split; [reflexivity|]. intros [|[|i]] x Hx; cbn in Hx; try discriminate; injection Hx as <-; reflexivity.
    + intros [|[|i]] x Hx; cbn in Hx; try discriminate; injection Hx as <-; reflexivity.
  - intros l rs [[-> ->]|[-> ->]]%ex_ranked_list; eexists; (split; [reflexivity|]); intros r Hr; repeat (apply elem_of_cons in Hr as [->|Hr]);
      try (by apply elem_of_nil in Hr); (split; [unfold known; cbn; lia|]); cbn; intros _; set_solver.
  - intros r e Hv He. destruct (valid_list ex_ranked_index r Hv) as (fl & [[-> _]|[-> _]]%ex_ranked_record); cbn in He;
      (apply elem_of_cons in He as [->|He]; [exists 0, [0; 1]; repeat split; set_solver|]; apply list_elem_of_singleton in He as ->; exists 1, [1; 0]; repeat split; set_solver).
Qed.

Lemma ex_matching_term w l boost : w = 5 /\ l = 0 \/ w = 7 /\ l = 1 -> factor boost -> matching_term ex_ranked_index ex_compute f_one (ex_term w l boost).
Proof.
  intros Hwl Hb. assert (forall x, x = 0 \/ x = 1 -> known ex_ranked_index x) as Hk by (intros x Hx; unfold known; cbn; lia). constructor.
  - constructor.
    + destruct Hwl as [[-> ->]|[-> ->]]; (constructor; [|constructor]); eexists; (split; [reflexivity|]); repeat constructor; apply Hk; lia.
    + intros _. constructor; [reflexivity|constructor].
    + constructor; [cbn; lia|constructor].
    + split; [constructor|done].
  - intros l' w' Hw'. cbn [ex_term leaves actives of_term existsb upper getTermType a_minId a_maxId]. split.
    + intros (x & Hx & Hl). apply list_elem_of_singleton in Hx as ->. cbn [l_list] in Hl. subst l'. rewrite orb_false_r, andb_true_iff, !Z.leb_le.
      destruct (ex_ranked_keyword _ _ Hw'), Hwl; lia.
    + rewrite orb_false_r, andb_true_iff, !Z.leb_le. intros Hr. eexists. split; [by apply list_elem_of_singleton|]. cbn [l_list]. destruct (ex_ranked_keyword _ _ Hw'), Hwl; lia.
  - cbn. lia.
  - intros s d b _. unfold runtime_score. cbn [ex_term getBoost]. apply fmul_score; [apply ex_compute_score|done].
  - intros a w' s _. apply ex_compute_score.
Qed.

Lemma one_factor : factor f_one.
Proof. split; [done|vm_compute; split; [discriminate|reflexivity]]. Qed.

Lemma ex_ranked_term w l : w = 5 /\ l = 0 \/ w = 7 /\ l = 1 -> ranked_term ex_ranked_index ex_compute f_one (ex_term w l f_one).
Proof.
  intros Hwl. constructor; [apply ex_matching_term; [done|apply one_factor]|..].
  - constructor; [|constructor]. destruct Hwl as [[-> ->]|[-> ->]].
    + change (in_order (map (leaf_item ex_compute f_one ex_first (mk_leaf 5 5 0 0)) [(0, 0, [], 18432); (1, 0, [], 18176)])). repeat constructor; by apply Z.leb_le.
    + change (in_order (map (leaf_item ex_compute f_one ex_second (mk_leaf 7 7 0 1)) [(1, 1, [], 17472); (0, 1, [], 17408)])). repeat constructor; by apply Z.leb_le.
  - intros a w' l' Ha Hr Hw'. apply list_elem_of_singleton in Ha as ->. cbn [ex_term getTermType upper a_minId] in Hr. assert (w' = w) as -> by lia.
    eexists. split; [by apply list_elem_of_singleton|]. cbn [l_list]. split; [destruct (ex_ranked_keyword _ _ Hw'), Hwl; lia|]. intros s _.
    unfold runtime_score, active_score. cbn [ex_term getBoost a_distance a_minId a_terminal l_distance negb orb]. rewrite Z.eqb_refl.
    change (val (half_value s) <= val (fmul (half_value s) f_one)). rewrite fmul_one by apply half_score. done.
Qed.

Lemma ex_ranked_terms : Forall (ranked_term ex_ranked_index ex_compute f_one) [ex_first; ex_second].
Proof. constructor; [|constructor; [|constructor]]; apply ex_ranked_term; lia. Qed.

Lemma ex_ranked_size : (size_of ex_ranked_index [ex_first; ex_second] < 10)%nat.
Proof. vm_compute. lia. Qed.

(** ** Ranked plans *)

Lemma usable_ranked index compute penalty (ordered : Prop) terms : Forall (ranked_term index compute penalty) terms -> Forall (usable_term index compute penalty ordered) terms.
Proof. intros Hts. eapply Forall_impl; [exact Hts|]. intros term Ht. split; [apply (rt_matching _ _ _ _ Ht)|by intros _]. Qed.

Lemma usable_matching index compute penalty terms : Forall (matching_term index compute penalty) terms -> Forall (usable_term index compute penalty False) terms.
Proof. intros Hts. eapply Forall_impl; [exact Hts|]. intros term Ht. by split. Qed.

(** (C4) A ranked plan searches the records that match all its terms, best first: over an
    index whose forward lists and inverted lists agree, the ranked conjunction over the
    term virtual lists of some terms opens and, read to its end, gives exactly the
    records of the index that match every term, each of them once, and no record after
    one with a smaller score - although it stops reading the lists as soon as the sum of
    their next scores is below its best candidate.  The inverted lists of the terms must
    be in the order of the scores, no active node may score a keyword above the leaf
    node of that keyword, and the query has no feedback. *)
Theorem ranked_plan_searches (index : QueryIndex) (es : Z -> list entry)
    (computeTermRecordRuntimeScore : Z -> Z -> Z -> bool -> float -> float -> float) (prefixMatchPenalty : float)
    (heap : heap_algorithms) (is_heap : (HeapItem -> HeapItem -> bool) -> list HeapItem -> Prop) (unset : Z) (indeterminate : VerificationParameters) (fuel : nat) (terms : list Term) :
  index_ok index es -> heap_laws heap is_heap -> terms <> [] -> Forall (ranked_term index computeTermRecordRuntimeScore prefixMatchPenalty) terms ->
  (size_of index terms < fuel)%nat ->
  exists s out, open_plan index computeTermRecordRuntimeScore prefixMatchPenalty heap unset None terms = Ok s /\
    delivers (plan_next index computeTermRecordRuntimeScore prefixMatchPenalty heap unset indeterminate fuel) s out /\
    NoDup (ids out) /\ (forall r, r ∈ ids out <-> Forall (fun term => matches_term index es term r = true) terms) /\ by_score out.
Proof.
  intros Hok Hheap Hne Hts Hf. destruct (ranked_plan_run index es Hok computeTermRecordRuntimeScore prefixMatchPenalty True heap is_heap Hheap unset indeterminate fuel None terms Hne) as (s & out & Ho & Hd & Hnd & Hin & Hs);
    [by apply usable_ranked|done|done|done|]. specialize (Hs I). by exists s, out.
Qed.

Definition ex_params : VerificationParameters := mk_params f_zero 0 [] [] [] [] [].
Local Abbreviation ex_next := (plan_next ex_ranked_index ex_compute f_one ex_heap 0 ex_params 10).

Lemma ranked_plan_searches_witness : exists s out, open_plan ex_ranked_index ex_compute f_one ex_heap 0 None [ex_first; ex_second] = Ok s /\
  delivers ex_next s out /\ NoDup (ids out) /\
  (forall r, r ∈ ids out <-> Forall (fun term => matches_term ex_ranked_index ex_ranked_es term r = true) [ex_first; ex_second]) /\ by_score out.
Proof.
  apply (ranked_plan_searches ex_ranked_index ex_ranked_es ex_compute f_one ex_heap ex_is_heap 0 ex_params 10 [ex_first; ex_second] ex_ranked_ok ex_heap_laws
    ltac:(discriminate) ex_ranked_terms ex_ranked_size).
Defined.

(** ** Term virtual lists *)

(** (C21) A term virtual list streams the hits of its term: opened and read to its end it
    gives, for every leaf node of the term, exactly the records of the inverted list of
    that node that have a valid hit, each with its score, the node, the distance and the
    offset of the keyword, and then NULL for ever; when the hits of every list are in
    the order of their scores, so are the records that it returns. *)
Theorem virtual_list_delivers {I : Type} `{IndexReader I} (index : I) (known : Z -> Prop) `{!IndexLaws index known} `{!HitScores index known}
    (computeTermRecordRuntimeScore : Z -> Z -> Z -> bool -> float -> float -> float) (prefixMatchPenalty : float)
    (heap : heap_algorithms) (is_heap : (HeapItem -> HeapItem -> bool) -> list HeapItem -> Prop) (term : Term) (unset : Z) :
  heap_laws heap is_heap -> term_ok index known term -> (forall s d b, ForwardList.half_ge0 s = true -> score (runtime_score computeTermRecordRuntimeScore prefixMatchPenalty term s d b)) ->
  Z.of_nat (length (leaves term)) < 2 ^ 31 ->
  exists v out, VirtualList.open index computeTermRecordRuntimeScore prefixMatchPenalty heap term None empty_list = Ok v /\
    streams (VirtualList.getNext index computeTermRecordRuntimeScore prefixMatchPenalty heap term unset) read_out v out /\
    Permutation (map shown out) (flat_map (leaf_items index computeTermRecordRuntimeScore prefixMatchPenalty term) (leaves term)) /\
    (Forall (fun l => in_order (leaf_items index computeTermRecordRuntimeScore prefixMatchPenalty term l)) (leaves term) -> by_score out).
Proof. intros Hheap Hterm. by apply (virtual_list_run index known computeTermRecordRuntimeScore prefixMatchPenalty heap is_heap Hheap term unset Hterm). Qed.

(** A word with both keywords among its leaf nodes. *)
Definition ex_both : Term :=
  mk_term TERM_TYPE_COMPLETE 1 f_one f_one [mk_leaf 5 5 0 0; mk_leaf 7 7 0 1] [mk_active 5 0 5 5 true; mk_active 7 0 7 7 true] [] ForwardList.ATTRIBUTES_OP_OR.

Lemma ex_both_ok : term_ok ex_ranked_index (known ex_ranked_index) ex_both.
Proof.
  assert (forall x, x = 0 \/ x = 1 -> known ex_ranked_index x) as Hk by (intros x Hx; unfold known; cbn; lia). constructor.
  - cbn [ex_both leaves]. constructor; [|constructor; [|constructor]]; eexists; (split; [reflexivity|]); repeat constructor; apply Hk; lia.
  - intros _. repeat constructor.
  - cbn [ex_both actives]. constructor; [cbn; lia|constructor; [cbn; lia|constructor]].
  - split; [constructor|done].
Qed.

Lemma virtual_list_delivers_witness : exists v out, VirtualList.open ex_ranked_index ex_compute f_one ex_heap ex_both None empty_list = Ok v /\
  streams (VirtualList.getNext ex_ranked_index ex_compute f_one ex_heap ex_both 0) read_out v out /\
  Permutation (map shown out) (flat_map (leaf_items ex_ranked_index ex_compute f_one ex_both) (leaves ex_both)) /\
  (Forall (fun l => in_order (leaf_items ex_ranked_index ex_compute f_one ex_both l)) (leaves ex_both) -> by_score out).
Proof.
  apply (@virtual_list_delivers _ _ ex_ranked_index (known ex_ranked_index) (query_index_laws _ _ ex_ranked_ok) (query_index_scores _ _ ex_ranked_ok) ex_compute f_one ex_heap ex_is_heap ex_both 0
    ex_heap_laws ex_both_ok).
  - intros s d b _. unfold runtime_score. cbn [ex_both getBoost]. rewrite fmul_one; apply ex_compute_score.
  - cbn. lia.
Defined.

(** (C8) A ranked plan goes on from what another one left in the cache: after any number
    of calls of [getNext] on the plan of some terms, closing it and opening the plan of
    these terms and some more with the entries of the cache gives a plan that, read to
    its end, delivers exactly the records that match all terms, old and new, each of
    them once and no record after one with a smaller score: the records that were
    returned before are among the cached candidates and come again.  As for a plan that
    is opened without the cache, the two sides of the index must agree, the inverted
    lists of all terms must be in the order of the scores, no active node may score a
    keyword above the leaf node of that keyword (a boost of a term below one does that),
    and neither query has feedback. *)
Theorem resumed_plan_searches (index : QueryIndex) (es : Z -> list entry)
    (computeTermRecordRuntimeScore : Z -> Z -> Z -> bool -> float -> float -> float) (prefixMatchPenalty : float)
    (heap : heap_algorithms) (is_heap : (HeapItem -> HeapItem -> bool) -> list HeapItem -> Prop) (unset : Z) (indeterminate : VerificationParameters) (fuel : nat)
    (terms more : list Term) (s0 s : list child * MergeTopK) :
  index_ok index es -> heap_laws heap is_heap -> terms <> [] -> more <> [] ->
  Forall (ranked_term index computeTermRecordRuntimeScore prefixMatchPenalty) terms -> Forall (ranked_term index computeTermRecordRuntimeScore prefixMatchPenalty) more ->
  (size_of index terms + size_of index more < fuel)%nat ->
  open_plan index computeTermRecordRuntimeScore prefixMatchPenalty heap unset None terms = Ok s0 ->
  reached (child_next index computeTermRecordRuntimeScore prefixMatchPenalty heap unset) (child_verify index computeTermRecordRuntimeScore prefixMatchPenalty) indeterminate fuel s0 s ->
  exists s1 out, resume_plan index computeTermRecordRuntimeScore prefixMatchPenalty heap unset indeterminate None s more = Ok s1 /\
    delivers (plan_next index computeTermRecordRuntimeScore prefixMatchPenalty heap unset indeterminate fuel) s1 out /\
    NoDup (ids out) /\ (forall r, r ∈ ids out <-> Forall (fun term => matches_term index es term r = true) (terms ++ more)) /\ by_score out.
Proof.
  intros Hok Hheap Hne Hne2 Hts Hms Hf Ho Hr. destruct (resumed_plan_run index es Hok computeTermRecordRuntimeScore prefixMatchPenalty True heap is_heap Hheap unset indeterminate fuel None None terms more s0 s Hne Hne2)
    as (s1 & out & Ho1 & Hd & Hnd & Hin & Hs); try done; [by apply usable_ranked..|]. specialize (Hs I). by exists s1, out.
Qed.

(** The plan of the first word, opened, and after one record. *)
Definition unwrap {A} (d : A) (r : result A) : A := match r with Ok x => x | Err _ => d end.
Definition ex_opened : list child * MergeTopK := unwrap ([], empty_topk) (open_plan ex_ranked_index ex_compute f_one ex_heap 0 None [ex_first]).
Definition ex_read : list child * MergeTopK := (unwrap (ex_opened, None) (ex_next ex_opened)).1.

Lemma resumed_plan_searches_witness : exists s1 out, resume_plan ex_ranked_index ex_compute f_one ex_heap 0 ex_params None ex_read [ex_second] = Ok s1 /\
  delivers ex_next s1 out /\ NoDup (ids out) /\
  (forall r, r ∈ ids out <-> Forall (fun term => matches_term ex_ranked_index ex_ranked_es term r = true) ([ex_first] ++ [ex_second])) /\ by_score out.
Proof.
  apply (resumed_plan_searches ex_ranked_index ex_ranked_es ex_compute f_one ex_heap ex_is_heap 0 ex_params 10 [ex_first] [ex_second] ex_opened ex_read ex_ranked_ok ex_heap_laws
    ltac:(discriminate) ltac:(discriminate) (proj1 (proj1 (Forall_app _ [ex_first] [ex_second]) ex_ranked_terms)) (proj2 (proj1 (Forall_app _ [ex_first] [ex_second]) ex_ranked_terms))
    ltac:(vm_compute; lia) eq_refl).
  apply (reached_next _ _ _ _ ex_opened ex_read ex_read (Some (unwrap (mk_item 0 0 f_zero [] [] [] [] []) (of_option OutOfRange (unwrap (ex_opened, None) (ex_next ex_opened)).2)))); [vm_compute; reflexivity|constructor].
Defined.

(** ** Plans out of order *)

(** (C9) A ranked plan loses no record and gives none twice, whatever the order of its
    lists: over an index whose two sides agree, with inverted lists in any order, any
    boosts of the terms, and any feedback whose boosts are finite and not below one, the
    ranked conjunction opens and, read to its end, gives exactly the records that match
    every term, each of them once - also when the sum of the next scores is not a bound
    and it stops reading too early, because the records that it did not read come
    later. *)
Theorem ranked_plan_complete (index : QueryIndex) (es : Z -> list entry)
    (computeTermRecordRuntimeScore : Z -> Z -> Z -> bool -> float -> float -> float) (prefixMatchPenalty : float)
    (heap : heap_algorithms) (is_heap : (HeapItem -> HeapItem -> bool) -> list HeapItem -> Prop) (unset : Z) (indeterminate : VerificationParameters) (fuel : nat)
    (ranker : option FeedbackRanker) (terms : list Term) :
  index_ok index es -> heap_laws heap is_heap -> terms <> [] -> Forall (matching_term index computeTermRecordRuntimeScore prefixMatchPenalty) terms -> boosts ranker ->
  (size_of index terms < fuel)%nat ->
  exists s out, open_plan index computeTermRecordRuntimeScore prefixMatchPenalty heap unset ranker terms = Ok s /\
    delivers (plan_next index computeTermRecordRuntimeScore prefixMatchPenalty heap unset indeterminate fuel) s out /\
    NoDup (ids out) /\ (forall r, r ∈ ids out <-> Forall (fun term => matches_term index es term r = true) terms).
Proof.
  intros Hok Hheap Hne Hts Hb Hf. destruct (ranked_plan_run index es Hok computeTermRecordRuntimeScore prefixMatchPenalty False heap is_heap Hheap unset indeterminate fuel ranker terms Hne) as (s & out & Ho & Hd & Hnd & Hin & _);
    [by apply usable_matching|done|done|done|]. by exists s, out.
Qed.

(** The first word counts twice, and one record has feedback. *)
Definition two : float := S754_finite false 8388608 (-22).
Lemma two_factor : factor two.
Proof. split; [done|vm_compute; split; [discriminate|reflexivity]]. Qed.
Definition ex_heavy : Term := ex_term 5 0 two.
Definition ex_feedback : option FeedbackRanker := Some (mk_ranker two (fun r => if r =? 1 then two else f_one)).
Lemma ex_boosts : boosts ex_feedback.
Proof. intros r. cbn [getFeedbackBoostForRecord]. destruct (r =? 1); [apply two_factor|apply one_factor]. Qed.
Lemma ex_heavy_terms : Forall (matching_term ex_ranked_index ex_compute f_one) [ex_heavy; ex_second].
Proof. constructor; [|constructor; [|constructor]]; apply ex_matching_term; (lia || apply two_factor || apply one_factor). Qed.

Lemma ranked_plan_complete_witness : exists s out, open_plan ex_ranked_index ex_compute f_one ex_heap 0 ex_feedback [ex_heavy; ex_second] = Ok s /\
  delivers ex_next s out /\ NoDup (ids out) /\ (forall r, r ∈ ids out <-> Forall (fun term => matches_term ex_ranked_index ex_ranked_es term r = true) [ex_heavy; ex_second]).
Proof.
  apply (ranked_plan_complete ex_ranked_index ex_ranked_es ex_compute f_one ex_heap ex_is_heap 0 ex_params 10 ex_feedback [ex_heavy; ex_second] ex_ranked_ok ex_heap_laws
    ltac:(discriminate) ex_heavy_terms ex_boosts ltac:(vm_compute; lia)).
Defined.

(** (C10) Nor does a plan that goes on from the cache: with lists in any order, and with
    another feedback than that of the plan that filled the cache, closing a plan after
    any number of calls and opening it with more terms and the entries of the cache
    gives a plan that delivers exactly the records that match all terms, each of them
    once. *)
Theorem resumed_plan_complete (index : QueryIndex) (es : Z -> list entry)
    (computeTermRecordRuntimeScore : Z -> Z -> Z -> bool -> float -> float -> float) (prefixMatchPenalty : float)
    (heap : heap_algorithms) (is_heap : (HeapItem -> HeapItem -> bool) -> list HeapItem -> Prop) (unset : Z) (indeterminate : VerificationParameters) (fuel : nat)
    (ranker ranker' : option FeedbackRanker) (terms more : list Term) (s0 s : list child * MergeTopK) :
  index_ok index es -> heap_laws heap is_heap -> terms <> [] -> more <> [] ->
  Forall (matching_term index computeTermRecordRuntimeScore prefixMatchPenalty) terms -> Forall (matching_term index computeTermRecordRuntimeScore prefixMatchPenalty) more ->
  boosts ranker -> boosts ranker' -> (size_of index terms + size_of index more < fuel)%nat ->
  open_plan index computeTermRecordRuntimeScore prefixMatchPenalty heap unset ranker terms = Ok s0 ->
  reached (child_next index computeTermRecordRuntimeScore prefixMatchPenalty heap unset) (child_verify index computeTermRecordRuntimeScore prefixMatchPenalty) indeterminate fuel s0 s ->
  exists s1 out, resume_plan index computeTermRecordRuntimeScore prefixMatchPenalty heap unset indeterminate ranker' s more = Ok s1 /\
    delivers (plan_next index computeTermRecordRuntimeScore prefixMatchPenalty heap unset indeterminate fuel) s1 out /\
    NoDup (ids out) /\ (forall r, r ∈ ids out <-> Forall (fun term => matches_term index es term r = true) (terms ++ more)).
Proof.
  intros Hok Hheap Hne Hne2 Hts Hms Hb Hb' Hf Ho Hr.
  destruct (resumed_plan_run index es Hok computeTermRecordRuntimeScore prefixMatchPenalty False heap is_heap Hheap unset indeterminate fuel ranker ranker' terms more s0 s Hne Hne2)
    as (s1 & out & Ho1 & Hd & Hnd & Hin & _); try done; [by apply usable_matching..|]. by exists s1, out.
Qed.

Definition ex_boosted : list child * MergeTopK := unwrap ([], empty_topk) (open_plan ex_ranked_index ex_compute f_one ex_heap 0 ex_feedback [ex_heavy]).
Definition ex_boosted_read : list child * MergeTopK := (unwrap (ex_boosted, None) (ex_next ex_boosted)).1.

Lemma resumed_plan_complete_witness : exists s1 out, resume_plan ex_ranked_index ex_compute f_one ex_heap 0 ex_params ex_feedback ex_boosted_read [ex_second] = Ok s1 /\
  delivers ex_next s1 out /\ NoDup (ids out) /\ (forall r, r ∈ ids out <-> Forall (fun term => matches_term ex_ranked_index ex_ranked_es term r = true) ([ex_heavy] ++ [ex_second])).
Proof.
  apply (resumed_plan_complete ex_ranked_index ex_ranked_es ex_compute f_one ex_heap ex_is_heap 0 ex_params 10 ex_feedback ex_feedback [ex_heavy] [ex_second] ex_boosted ex_boosted_read ex_ranked_ok ex_heap_laws
    ltac:(discriminate) ltac:(discriminate) (proj1 (proj1 (Forall_app _ [ex_heavy] [ex_second]) ex_heavy_terms)) (proj2 (proj1 (Forall_app _ [ex_heavy] [ex_second]) ex_heavy_terms))
    ex_boosts ex_boosts ltac:(vm_compute; lia) eq_refl).
  apply (reached_next _ _ _ _ ex_boosted ex_boosted_read ex_boosted_read (unwrap (ex_boosted, None) (ex_next ex_boosted)).2); [vm_compute; reflexivity|constructor].
Defined.

(** The boost of a term can put the results out of order: of two exact matches of two
    words, the plan returns the better one first; with a boost of one half on the first
    word it returns a record with the score 8 and after it one with the score 11.25,
    because the stream of the first word has its scores multiplied with the boost, and
    the verification of a record does not. *)
Example boost_breaks_the_order :
  let scores terms :=
    let? s := open_plan ex_ranked_index ex_compute f_one ex_heap 0 None terms in
    let? (s, out) := drain ex_next 10 s [] in
    Ok (map (fun x => (recordId x, recordRuntimeScore x)) out) in
  (exists a b, scores [ex_first; ex_second] = Ok [(0, a); (1, b)] /\ fgt a b = true) /\
  (exists a b, scores [ex_term 5 0 (S754_finite false 8388608 (-24)); ex_second] = Ok [(0, a); (1, b)] /\ fgt b a = true).
Proof.
  cbv zeta. split; [exists (S754_finite false 12582912 (-20)), (S754_finite false 11796480 (-20))|exists (half_value 18432), (S754_finite false 11796480 (-20))]; vm_compute; split; reflexivity.
Qed.

(** ** Feedback *)

(** The boost of the feedback on a record goes into the score of a candidate, and again
    when the candidate comes back from the cache with the score of a new term: with a
    boost of two, a record that scores one for each of two terms has the score 4, and
    the score 6 when the second term was added to a cached plan. *)
Example cached_feedback_twice : let t := mk_topk (Some (mk_ranker f_one (fun _ => S754_finite false 8388608 (-22)))) [] [] [] [] true 0 in
  let x := mk_item 0 0 f_one [] [] [] [] [] in
  let with_scores scores := mk_vectors scores [] [] [] [] [] in
  let cached := candidate t x (with_scores [f_one]) in
  recordRuntimeScore (candidate t x (with_scores [f_one; f_one])) = S754_finite false 8388608 (-21) /\
  recordRuntimeScore (candidate t (clone 0 cached) (with_scores [recordRuntimeScore cached; f_one])) = S754_finite false 12582912 (-21).
Proof. vm_compute. split; reflexivity. Qed.

End RankedSearch.
